(* ===== verification/_CoqProject ===== *)
-Q . S2P
Prelude.v
BigInt.v
Chain.v
Types.v
Runtime.v
EvmOpcodes.v
EvmState.v
EvmInstructions.v
EvmRun.v
EvmBuffers.v
EvmLogic.v
EvmSafety.v
EvmInstOk.v
EvmInterp.v
EvmArith.v
EvmProps.v
Rlp.v
BlockTypes.v
BlockTypesProps.v
Heap.v
TxQueue.v
TxQueueProps.v
TxPool.v
TxPoolProps.v
Hex.v
Result.v
Validators.v
ValidatorsProps.v
Quorum.v
Crypto.v
CryptoProps.v
Signer.v
SignerProps.v
Snapshot.v
SnapshotProps.v
SnapshotVotes.v
SnapshotExamples.v
Radix.v
Txn.v
TxnProps.v
TxnHeap.v
Trie.v
TrieMap.v
TrieProps.v
Parallel.v
ParallelProps.v
Rewards.v
Blake2.v
Precompiled.v
PrecompiledProps.v
Staking.v
StakingProps.v
KeyValue.v
KeyValueProps.v
Hasher.v
BuildRoot.v
BuildRootProps.v
Executor.v
ExecutorProps.v
TrieStore.v
TrieStoreRep.v
TrieStoreProps.v
StateCommit.v
JsonRpc.v
EstimateGas.v
FilterManager.v
FilterState.v
FilterEvents.v
FilterManagerProps.v
JsonRpcProps.v
RpcServer.v
RpcState.v
ContractStore.v
IbftFork.v
IbftForkProps.v
ConsensusBackend.v
ConsensusBackendProps.v
SnapshotFiles.v
Archive.v
ArchiveProps.v
