(* ===== verification/Prelude.v ===== *)
(** * A verified model of the ACryptoChain node

    The repository is a blockchain node in Go, a fork of Polygon Edge. A
    transaction enters the transaction pool (txpool), a proposer chosen by
    the IBFT consensus (consensus/ibft) puts pooled transactions into a
    block, the state transition runs their code on the EVM
    (state/runtime/evm) against the transient state (state/txn.go), the
    changes are committed to a Merkle trie (state/immutable-trie), and the
    block (types) is sealed by the validators (validators,
    consensus/ibft/signer), whose set the votes in the headers change
    (validators/store/snapshot). Clients send transactions and read the
    chain through JSON-RPC (jsonrpc, server/server.go). This library models
    these parts, each from its source, and proves the properties that make
    them correct.

    ** Conventions

    Integers are [Z] with the wrap-around of [uint64], [int64] and 256-bit
    words written out; byte slices and Go strings are lists of integers; a
    [*big.Int] that may be nil is an [option Z]; fixed-size arrays are lists
    with a length predicate. Methods that mutate their receiver pass its
    state explicitly. A function that can fail returns an option, a pair or
    the three-way [result] of Result.v (value, error, panic); each
    definition says what its [None] stands for. Names are those of the
    source where Rocq allows it, with the receiver as a prefix where a name
    is used by several types. Code outside the repository is a class with
    its operations, and a second class with the laws the node relies on:
    Keccak-256 ([Keccak]), fastrlp ([Fastrlp], [Rlp], [RlpLaws]), the radix
    tree ([Radix], [RadixLaws]), the LRU cache ([Lru]), the stored state
    below a transaction ([readSnapshot], [SnapshotLaws]), the trie's storage
    ([TrieStorage]), the key-value store ([LevelDB], [LevelDBLaws],
    [LevelDBBatch], [LevelDBBatchLaws]) and the interfaces the node puts
    before it ([KV], [KVLaws], [Storage], [StorageLaws]), the RLP values a
    hash is taken of ([RlpValues], [RlpEncoding], [RlpNodes]), the order in which Go
    visits a map ([MapRange], [MapRangeLaws]), the host of the EVM ([Host], [HostLaws]), the hashes and
    the pairing curve of the precompiled contracts ([PrecompiledLibs],
    [PrecompiledLaws]), the growth
    policy of Go's slices ([GoRuntime]), the curves ([Secp256k1],
    [Secp256k1Laws], [Bls]), the order [sort.Sort] gives equal elements
    ([SortSnaps], [SortSnapsLaws]), and the members the sources use and the
    packages lack: of a transaction ([TxMembers], [TransactionMethods],
    [TransactionSecurity]), of a transition ([TransitionMethods],
    [TransitionErrors], [StakingTransition], [TxQueryHandler]) and of the
    state ([BalanceState], [BalanceLaws]), the ABI of the staking contract
    ([StakingABI]), the messages of go-ibft ([Protobuf], [ProtobufLaws]), the
    prefix of an RLP array ([RlpHeader]) and the writes of package os ([Os],
    [OsLaws]). The pool as the consensus sees it and the chain as a restore
    sees it, interfaces of the source, are the classes [txPoolInterface] and
    [blockchainInterface] (with [ChainLaws]). The store behind the JSON-RPC
    endpoint, an interface of the source, is the class [ethStore]; Go's
    heap.Interface is the class [Interface]. Every theorem with a hypothesis
    has a witness, a lemma that applies it at a concrete input with concrete
    instances.

    ** The files

    - Prelude, BigInt, Result: machine integers, byte strings, sums, the
      operations of math/big, fallible code.
    - Chain (chain/params.go: fork activation), Types (types/types.go:
      hashes, addresses; contract addresses of crypto.go), Hex
      (helper/hex/hex.go, types/types.go, types/encoding.go: text forms).
    - Runtime (state/runtime/runtime.go), EvmOpcodes (opcodes.go), EvmState
      (state.go, bitmap.go: stack, memory, gas, jump destinations),
      EvmInstructions (instructions.go: every instruction), EvmRun
      (dispatch_table.go, evm.go and the interpreter loop). EvmBuffers,
      EvmLogic, EvmSafety, EvmInstOk and EvmInterp prove their
      lemmas: a Hoare logic for instructions, the invariant [ok] of machine
      states and its preservation by every instruction and by the loop.
      EvmArith, which has a sample host too, and EvmProps hold the theorems.
    - Blake2 (precompiled/blake2f.go: the compression function, and that of
      RFC 7693), Precompiled (state/runtime/precompiled: all contracts),
      PrecompiledProps.
    - Radix, Txn (state/txn.go, state/state.go: accounts, storage, refunds,
      logs, snapshots, commit, with the objects as values), TxnProps; TxnHeap
      (the same operations on a heap, where [Copy] allocates, updates write
      through pointers and slices of logs share arrays, with the refinement).
    - Trie (state/immutable-trie/encoding.go, trie.go), TrieMap (tries as
      finite maps), TrieProps.
    - Rlp (the interface of fastrlp and an instance), BlockTypes
      (types/transaction.go, header.go, receipt.go and the RLP files),
      BlockTypesProps.
    - Heap (container/heap), TxQueue (txpool/queue.go, account.go,
      slot_gauge.go, lookup_map.go), TxQueueProps, TxPool
      (txpool/txpool.go), TxPoolProps.
    - Validators (validators/*.go), ValidatorsProps, Quorum
      (consensus/ibft/validators.go, with the rounding of float64).
    - Snapshot (validators/store/types.go, validators/store/snapshot),
      SnapshotProps (its binary searches and what it records), SnapshotVotes,
      SnapshotExamples.
    - Crypto (crypto/crypto.go, txsigner.go), CryptoProps, Signer
      (consensus/ibft/signer), SignerProps.
    - Parallel (parallel/parallel_executor.go: conflicts, groups, the
      goroutines of a batch as a step relation), ParallelProps, Rewards
      (rewards/reward.go, with its theorem).
    - Staking (helper/staking/staking.go: the storage of the staking contract
      in the genesis), StakingProps.
    - KeyValue (blockchain/storage: the block storage over a key-value store,
      in memory or LevelDB), KeyValueProps.
    - Hasher (state/immutable-trie/hasher.go), BuildRoot (types/buildroot:
      the roots of transactions, receipts and uncles), BuildRootProps.
    - TrieStore (state/immutable-trie: storage.go, state.go, snapshot.go and
      Trie.Commit), TrieStoreRep (tries partly in storage), TrieStoreProps
      (worlds of accounts, the invariant of the state), StateCommit.
    - Executor (state/executor.go and executor.go: the genesis state, blocks
      in sequence and in parallel, the access sets of a transaction),
      ExecutorProps.
    - JsonRpc (jsonrpc/types.go, codec.go, query.go, helper.go,
      eth_endpoint.go), EstimateGas (eth_estimateGas, with its theorems),
      FilterManager (filter_manager.go), FilterState and
      FilterEvents (its lemmas), FilterManagerProps (its operations as a
      step relation, with a step for each write under the lock and each read
      of those that share it), JsonRpcProps (queries,
      text forms, receipts), RpcServer (dispatcher.go, errors.go, the
      txpool and debug endpoints), RpcState (the reads of server/server.go
      over TrieStore).
    - ContractStore (validators/store/contract, contracts/staking/query.go:
      the validators of the staking contract), IbftFork (consensus/ibft/fork,
      consensus/ibft/hook: the phases of the consensus, their signers,
      validators and hooks), IbftForkProps.
    - ConsensusBackend (consensus/ibft/consensus_backend.go, verifier.go,
      messages.go, consensus/utils.go: building and checking blocks and
      messages), ConsensusBackendProps.
    - SnapshotFiles (the JSON forms of votes, sets and snapshots, and
      consensus/ibft/fork/helper.go: the files of a node that stops and
      starts, with its theorem).
    - Archive (archive/*.go and the export of server/system_service.go:
      backups of the chain), ArchiveProps.

    ** What the theorems show

    - EVM: under rules that include EIP150, a run returns within as many
      iterations as it has gas, with the gas accounted for; stack, words and
      memory stay within their bounds in every reachable state; without
      RETURNDATACOPY and calls it never panics; jumps land on instruction boundaries only; no instruction that
      changes state runs in a static call; calls keep one 64th of the gas;
      memory is priced by the protocol's formula; arithmetic, shifts and
      EXP compute what they should on all words; MLOAD reads what MSTORE
      wrote.
    - Precompiled contracts: none panics, on any input, within the gas it
      was given, and each takes exactly its price or fails; modular exponentiation is that of EIP-198 and the BLAKE2b
      compression function that of EIP-152, in result and price.
    - State: whatever is run, the shared objects of the code show the accounts
      of the values; reverting restores a snapshot of them, and the logs when
      reverts nest; transfers conserve balances; the
      refund counter follows net gas metering; the end of a transaction
      removes exactly the accounts it should, and a commit lists the touched
      ones.
    - Trie: insertion, deletion and lookup refine a finite map, and the trie
      is a function of its entries.
    - Types: blocks, bodies and receipts read back from their RLP form; the
      bloom filter is complete.
    - Pool: the two indexes agree, nonces are ordered and sizes bounded
      after any operations; a slot is replaced only by a higher price;
      queues drain in order; promotion moves exactly the consecutive run of
      nonces and makes progress.
    - Consensus: quorums intersect in an honest validator; every validator
      gets its turn to propose; votes change the validators exactly when a
      majority of them asks for the change (with one key per BLS address);
      the snapshot store refines the history of votes; two headers with
      verified seals share more sealers than can be faulty, and each seal is
      the signature of its sealer; seals do not
      change the hash they sign; the proposer's seal and a transaction's
      signature name their signer. In every run of the fork manager the
      validators of a height are those its phase gives, whatever is cached,
      and its hooks those of the phase; timestamps advance with the block
      time; the transactions of a proposal replay to the state of the
      proposer, if failed writes leave no trace and all fit the block and
      pass its checks; messages are accepted exactly from validators, and signed by
      the one they name; a node that restarts goes on where it stopped.
    - Execution and rewards: the groups of the parallel executor hold no
      conflicting transactions and every schedule gives the same results;
      the parallel block executor applies each transaction once, and no two
      of a group have one sender or pay each other or the same address;
      rewards and slashing change the balances they should, by no
      more than the reward and the stake.
    - Genesis and storage: the genesis state holds exactly the accounts of
      the genesis file, the staking contract's storage exactly the given
      validators, in the layout of Solidity; the block storage reads back
      what was last written; the fast hasher computes the root of the trie;
      a commit to the state database shows the changed accounts and storage,
      and every state committed before is read back from its root.
    - Backups: the archive of a node holds exactly the blocks asked for, and
      restoring it writes those the chain lacks.
    - JSON-RPC: the estimate of the gas is the least that is enough, found in
      at most 64 rounds, where more gas never hurts and only its lack or a
      revert fails; in every interleaving in which the calls for one block
      filter do not overlap, a filter is told exactly the new blocks and the
      matching logs since it was last asked; the heap of timeouts agrees with
      the filters; eth_getLogs returns the matching
      logs of the range and respects its limit; a log query is decoded
      to what it describes and text forms read back; the state methods answer from the
      committed state; a batch is answered request by request.
    - Deviations: a theorem for each place where the model shows the code
      not doing what it means to do (BYTE, RETURNDATACOPY and CALL, also the
      gas of calls before EIP150; the logs of abandoned snapshots; refunds
      and cached code across transactions; deletion in tries with keys of
      several lengths; the membership test of the bloom filter; pruning,
      replacing and stale votes in the snapshot store; signature values of
      the wrong length; missing BLS parent seals; the order of conflicting
      transactions, also of one sender, in the parallel executor, and the
      token transfers it takes to be independent; gas estimation that never
      ends; filters refreshed after they were uninstalled, and block filters
      read by two calls at a time; the genesis range
      of eth_getLogs; requests that panic; storage values parsed twice;
      proposals the other validators compute another state for; archives cut
      off inside a block).

    ** Fuel and bounds

    [EVM_Run] iterates at most the given fuel; EVM_Run_terminates shows that
    the gas of the call plus two is enough. The trie's functions recurse at
    most as deep as their fuel, and trie_refines_map shows that a bound by
    the key length is enough. [sortSearch], [closest_loop], the heap's loops
    and the promotion loop take the length of their list, which their
    specifications show to be enough. [deriveSlow] gives the trie of up to
    128 items a fuel of 64, above the length of its keys; fast_root shows it
    to be enough, as state_commit does for the [trieFuel] of stored tries.
    The search of eth_estimateGas takes fuel; estimate_minimal shows 64 to
    be enough below [2 ^ 63], and estimate_diverges that no fuel is at the
    top of the range. An export takes one turn of fuel per block and one
    more; a restore as many as the file has bytes, each turn reading one;
    backup_restores shows both to be enough. The quorum theorems assume fewer than
    [2 ^ 50] validators, the proposer theorem rounds that do not wrap
    around, the account theorems nonces below [2 ^ 64 - 1].

    ** Not modelled

    Networking, HTTP and web sockets, gRPC, LevelDB itself, files and key
    storage (input and output); locks, which every modelled operation holds
    throughout (the filter manager, whose methods release them in between or
    share them, has a step for each region); the characters of JSON texts, which are
    modelled as the values they denote where a theorem needs them;
    the net and web3 endpoints, which return constants; tracing and logging; the transition
    that applies one transaction, which the sources use and do not contain;
    the chain of blockchain.go; the message rounds of IBFT, which go-ibft
    drives, and the second engine of consensus/ibft/ibft.go;
    parallel/accelerator.go, which repeats the declarations of
    parallel_executor.go; the code of the staking contract. *)

From Stdlib Require Export ZArith Lia.
From stdpp Require Export prelude numbers list.

Declare Scope chain_scope.
Delimit Scope chain_scope with chain.

#[global] Open Scope Z_scope.

Create HintDb word.

(** ** Machine integers

    Go's [uint64] and [int64] (and [int], 64 bits wide on the supported
    platforms) are integers with their wrap-around written out. *)

(** [uint64(x)]. *)
Definition u64 (x : Z) : Z := x mod 2 ^ 64.

(** [int64(x)], two's complement. *)
Definition i64 (x : Z) : Z :=
  let y := x mod 2 ^ 64 in if y <? 2 ^ 63 then y else y - 2 ^ 64.

(** A Go length: [len(b)]. *)
Definition zlen {A} (l : list A) : Z := Z.of_nat (length l).

Lemma u64_small x : 0 ≤ x < 2 ^ 64 → u64 x = x.
Proof. apply Z.mod_small. Qed.

Lemma u64_range x : 0 ≤ u64 x < 2 ^ 64.
Proof. unfold u64. apply Z.mod_pos_bound. lia. Qed.

Lemma i64_small x : 0 ≤ x < 2 ^ 63 → i64 x = x.
Proof. intros H. unfold i64. rewrite Z.mod_small by lia. case_match; lia. Qed.

Lemma i64_range x : - 2 ^ 63 ≤ i64 x < 2 ^ 63.
Proof.
  unfold i64. pose proof (Z.mod_pos_bound x (2 ^ 64)). case_match; lia.
Qed.

Lemma u64_i64 x : u64 (i64 x) = u64 x.
Proof.
  unfold u64, i64. case_match.
  - by rewrite Z.mod_mod.
  - rewrite <- (Z.mod_mod x (2 ^ 64)) at 2 by lia.
    rewrite <- (Z.mod_add (x mod 2 ^ 64 - 2 ^ 64) 1) by lia. f_equal; lia.
Qed.

(** ** Byte strings

    A Go [[]byte] is a list of integers; [bytes_ok] says that every element
    is a byte. *)

Definition byte_ok (b : Z) : Prop := 0 ≤ b < 256.
Definition bytes_ok (l : list Z) : Prop := Forall byte_ok l.

(** Big-endian value of a byte string ([big.Int.SetBytes]). *)
Definition be_decode (l : list Z) : Z := fold_left (λ a b, a * 256 + b) l 0.

(** The [n] low bytes of [x], big-endian. *)
Fixpoint be_encode (n : nat) (x : Z) : list Z :=
  match n with
  | O => []
  | S n => be_encode n (x / 256) ++ [x mod 256]
  end.

Lemma length_be_encode n x : length (be_encode n x) = n.
Proof. revert x; induction n; intros; simpl; [done|]. rewrite length_app, IHn; simpl; lia. Qed.

Lemma be_encode_ok n x : bytes_ok (be_encode n x).
Proof.
  revert x; induction n; intros; simpl; [constructor|].
  apply Forall_app; split; [apply IHn|]. repeat constructor; red.
  - apply Z.mod_pos_bound; lia.
  - apply Z.mod_pos_bound; lia.
Qed.

Lemma be_decode_snoc l b : be_decode (l ++ [b]) = be_decode l * 256 + b.
Proof. unfold be_decode. by rewrite fold_left_app. Qed.

Lemma be_decode_app l k :
  be_decode (l ++ k) = be_decode l * 256 ^ zlen k + be_decode k.
Proof.
  unfold zlen. induction k as [|b k IH] using rev_ind.
  - rewrite app_nil_r. simpl. unfold be_decode at 3. simpl. lia.
  - rewrite app_assoc, !be_decode_snoc, IH, length_app. simpl.
    replace (Z.of_nat (length k + 1)) with (Z.succ (Z.of_nat (length k))) by lia.
    rewrite Z.pow_succ_r by lia. lia.
Qed.

Lemma be_decode_zeros n : be_decode (replicate n 0) = 0.
Proof.
  induction n; [done|]. rewrite replicate_S_end, be_decode_snoc, IHn. done.
Qed.

Lemma be_decode_encode n x : be_decode (be_encode n x) = x mod 256 ^ Z.of_nat n.
Proof.
  revert x; induction n; intros x; [by rewrite Z.mod_1_r|].
  cbn [be_encode]. rewrite be_decode_snoc, IHn.
  replace (Z.of_nat (S n)) with (Z.succ (Z.of_nat n)) by lia.
  rewrite Z.pow_succ_r by lia.
  rewrite Z.rem_mul_r by lia. lia.
Qed.

Lemma be_decode_range l : bytes_ok l → 0 ≤ be_decode l < 256 ^ zlen l.
Proof.
  unfold zlen. induction l as [|b l IH] using rev_ind; intros H.
  - by vm_compute.
  - apply Forall_app in H as [Hl Hb]. inversion_clear Hb as [|? ? Hb' _]. red in Hb'.
    rewrite be_decode_snoc, length_app. simpl.
    replace (Z.of_nat (length l + 1)) with (Z.succ (Z.of_nat (length l))) by lia.
    rewrite Z.pow_succ_r by lia. specialize (IH Hl). lia.
Qed.

Lemma be_encode_decode l : bytes_ok l → be_encode (length l) (be_decode l) = l.
Proof.
  induction l as [|b l IH] using rev_ind; intros H; [done|].
  apply Forall_app in H as [Hl Hb]. inversion_clear Hb as [|? ? Hb' _]. red in Hb'.
  rewrite be_decode_snoc, length_app, Nat.add_comm. cbn [length Nat.add be_encode].
  f_equal; [|f_equal].
  - rewrite Z.div_add_l, Z.div_small, Z.add_0_r by lia. auto.
  - rewrite Z.add_comm, Z.mod_add, Z.mod_small; lia.
Qed.

Lemma be_encode_mod n x : be_encode n (x mod 256 ^ Z.of_nat n) = be_encode n x.
Proof.
  rewrite <- be_decode_encode.
  rewrite <- (length_be_encode n x) at 1. apply be_encode_decode, be_encode_ok.
Qed.

(** ** Sums over lists *)

Definition sumZ {A} (f : A → Z) (l : list A) : Z := foldr (λ a s, f a + s) 0 l.

Lemma sumZ_ext {A} (f g : A → Z) l : (∀ a, a ∈ l → f a = g a) → sumZ f l = sumZ g l.
Proof.
  induction l as [|a l IH]; intros H; [done|]. simpl. rewrite H by apply list_elem_of_here.
  f_equal. apply IH. intros b Hb. apply H. by apply list_elem_of_further.
Qed.

Lemma sumZ_zero {A} (l : list A) : sumZ (λ _, 0) l = 0.
Proof. by induction l. Qed.

(** A function that changes at one point changes the sum by that much. *)
Lemma sumZ_update {A} `{EqDecision A} (f g : A → Z) a l :
  NoDup l → (∀ b, b ∈ l → b ≠ a → g b = f b) →
  sumZ g l = sumZ f l + (if decide (a ∈ l) then g a - f a else 0).
Proof.
  intros Hnd. induction Hnd as [|b l Hb Hnd IH]; intros Hg; [done|].
  change (sumZ g (b :: l)) with (g b + sumZ g l). change (sumZ f (b :: l)) with (f b + sumZ f l).
  rewrite IH by (intros c Hc; apply Hg; by apply list_elem_of_further).
  destruct (decide (a = b)) as [<-|Hne].
  - rewrite (decide_False (P:=a ∈ l)), (decide_True (P:=a ∈ a :: l)) by (done || apply list_elem_of_here). lia.
  - rewrite Hg by (done || apply list_elem_of_here). destruct (decide (a ∈ l)) as [Hin|Hin].
    + rewrite decide_True by by apply list_elem_of_further. lia.
    + rewrite decide_False by (rewrite elem_of_cons; tauto). lia.
Qed.
