(* ===== verification/BigInt.v ===== *)
(** * The operations of [math/big] the node uses

    A [*big.Int] is an integer [Z]; a pointer that may be nil is an
    [option Z]. Only the methods the modelled sources call are here, with
    the behaviour of Go's standard library on every integer, negative ones
    included. [toU256] and [to256] of state/runtime/evm/instructions.go, the
    two functions that bring a result back to the 256-bit range, close the
    file with their specification. *)

From S2P Require Import Prelude.

Definition tt256 : Z := 2 ^ 256.
Definition tt256m1 : Z := tt256 - 1.

(** [x.BitLen()]: the length of the absolute value in bits. *)
Definition BitLen (x : Z) : Z := if x =? 0 then 0 else Z.log2 (Z.abs x) + 1.

(** [x.IsUint64()]. *)
Definition IsUint64 (x : Z) : bool := (0 <=? x) && (x <? 2 ^ 64).

(** [x.IsInt64()]. *)
Definition IsInt64 (x : Z) : bool := (- 2 ^ 63 <=? x) && (x <? 2 ^ 63).

(** [x.Uint64()]: the low 64 bits of the absolute value. *)
Definition Uint64 (x : Z) : Z := u64 (Z.abs x).

(** [x.Int64()]: the low 64 bits of the absolute value read as an [int64],
    negated when [x] is negative. *)
Definition Int64 (x : Z) : Z :=
  let v := i64 (Z.abs x) in if x <? 0 then i64 (- v) else v.

(** [z.Div(x, y)] and [z.Mod(x, y)], Euclidean, for [y ≠ 0]. *)
Definition big_div (x y : Z) : Z := Z.sgn y * (x / Z.abs y).
Definition big_mod (x y : Z) : Z := x mod Z.abs y.

(** [x.Bytes()]: the absolute value, big-endian, without leading zeros. *)
Definition Bytes (x : Z) : list Z :=
  be_encode (Z.to_nat ((BitLen x + 7) / 8)) (Z.abs x).

(** [z.SetBytes(b)]. *)
Definition SetBytes (b : list Z) : Z := be_decode b.

(** [x.Bits()]: the 64-bit words of the absolute value, least significant
    first, without leading zero words. *)
Fixpoint le_words (n : nat) (x : Z) : list Z :=
  match n with
  | O => []
  | S n => x mod 2 ^ 64 :: le_words n (x / 2 ^ 64)
  end.

Definition Bits (x : Z) : list Z :=
  le_words (Z.to_nat ((BitLen x + 63) / 64)) (Z.abs x).

(** ** 256-bit words *)

Definition u256 (x : Z) : Prop := 0 ≤ x < 2 ^ 256.

(** toU256 *)
Definition toU256 (x : Z) : Z :=
  if (x <? 0) || (256 <? BitLen x) then Z.land x tt256m1 else x.

(** to256 *)
Definition to256 (x : Z) : Z :=
  if 255 <? BitLen x then x - tt256 else x.

(** ** Lemmas *)

Lemma BitLen_spec x n : 0 ≤ n → BitLen x ≤ n ↔ Z.abs x < 2 ^ n.
Proof.
  intros Hn. unfold BitLen. case_match eqn:E; [apply Z.eqb_eq in E; subst | apply Z.eqb_neq in E].
  - simpl. split; [|lia]. intros _. apply Z.pow_pos_nonneg; lia.
  - rewrite (Z.log2_lt_pow2 (Z.abs x) n) by lia. lia.
Qed.

Lemma BitLen_nonneg x : 0 ≤ BitLen x.
Proof. unfold BitLen. case_match; [lia|]. pose proof (Z.log2_nonneg (Z.abs x)). lia. Qed.

Lemma BitLen_u256 x : u256 x → BitLen x ≤ 256.
Proof. intros [??]. apply BitLen_spec; lia. Qed.

(** [toU256] reduces every integer modulo [2^256]. *)
Lemma toU256_mod x : toU256 x = x mod 2 ^ 256.
Proof.
  unfold toU256. destruct ((x <? 0) || (256 <? BitLen x)) eqn:E.
  - unfold tt256m1, tt256. change (2 ^ 256 - 1) with (Z.ones 256).
    by rewrite Z.land_ones by lia.
  - apply orb_false_iff in E as [E1 E2]. apply Z.ltb_ge in E1, E2.
    apply BitLen_spec in E2; [|lia]. rewrite Z.mod_small; lia.
Qed.

Lemma toU256_u256 x : u256 (toU256 x).
Proof. rewrite toU256_mod. apply Z.mod_pos_bound. lia. Qed.

(** The two's complement reading of a word. *)
Definition signed (x : Z) : Z := if x <? 2 ^ 255 then x else x - 2 ^ 256.

Lemma to256_signed x : u256 x → to256 x = signed x.
Proof.
  intros [H1 H2]. unfold to256, signed, tt256.
  destruct (Z.ltb_spec 255 (BitLen x)) as [H|H], (Z.ltb_spec x (2 ^ 255)) as [H'|H']; [|lia|lia|].
  - assert (BitLen x ≤ 255) by (apply BitLen_spec; lia). lia.
  - apply BitLen_spec in H; lia.
Qed.

Lemma signed_range x : u256 x → - 2 ^ 255 ≤ signed x < 2 ^ 255.
Proof. intros [??]. unfold signed. case_match; lia. Qed.

Lemma signed_mod x : u256 x → signed x mod 2 ^ 256 = x.
Proof.
  intros [H1 H2]. unfold signed. case_match.
  - by rewrite Z.mod_small.
  - rewrite <- (Z.mod_add _ 1) by lia. rewrite Z.mod_small; lia.
Qed.

Lemma signed_inj x y : u256 x → u256 y → signed x = signed y → x = y.
Proof. intros Hx Hy E. rewrite <- (signed_mod x), <- (signed_mod y) by done. by f_equal. Qed.

Lemma IsUint64_spec x : IsUint64 x = true ↔ 0 ≤ x < 2 ^ 64.
Proof. unfold IsUint64. rewrite andb_true_iff, Z.leb_le, Z.ltb_lt. done. Qed.

Lemma Uint64_small x : 0 ≤ x < 2 ^ 64 → Uint64 x = x.
Proof. intros H. unfold Uint64. rewrite Z.abs_eq by lia. by apply u64_small. Qed.

Lemma Uint64_range x : 0 ≤ Uint64 x < 2 ^ 64.
Proof. apply u64_range. Qed.

Lemma length_Bytes x : zlen (Bytes x) = (BitLen x + 7) / 8.
Proof.
  unfold zlen, Bytes. rewrite length_be_encode, Z2Nat.id; [done|].
  pose proof (BitLen_nonneg x). apply Z.div_pos; lia.
Qed.

Lemma Bytes_ok x : bytes_ok (Bytes x).
Proof. apply be_encode_ok. Qed.

Lemma pow256 n : 0 ≤ n → 256 ^ n = 2 ^ (8 * n).
Proof. intros. rewrite Z.pow_mul_r by lia. done. Qed.

(** [SetBytes] is a left inverse of [Bytes] on the natural numbers. *)
Lemma SetBytes_Bytes x : 0 ≤ x → SetBytes (Bytes x) = x.
Proof.
  intros Hx. unfold SetBytes, Bytes. pose proof (BitLen_nonneg x).
  rewrite be_decode_encode, Z2Nat.id, Z.abs_eq by (try apply Z.div_pos; lia).
  rewrite pow256 by (apply Z.div_pos; lia).
  apply Z.mod_small. split; [done|].
  rewrite <- (Z.abs_eq x) at 1 by done. apply BitLen_spec.
  - assert (0 ≤ (BitLen x + 7) / 8) by (apply Z.div_pos; lia). lia.
  - pose proof (Z.div_mod (BitLen x + 7) 8) as E. pose proof (Z.mod_pos_bound (BitLen x + 7) 8). lia.
Qed.

Lemma length_Bytes_u256 x : u256 x → zlen (Bytes x) ≤ 32.
Proof.
  intros Hx. rewrite length_Bytes. apply BitLen_u256 in Hx.
  assert ((BitLen x + 7) / 8 < 33); [apply Z.div_lt_upper_bound; lia|lia].
Qed.

Lemma land_u256 x y : u256 x → u256 y → u256 (Z.land x y).
Proof.
  intros [??] [??]. rewrite <- (Z.mod_small x (2 ^ 256)) by lia.
  rewrite <- Z.land_ones, <- Z.land_assoc, (Z.land_comm (Z.ones _)), Z.land_assoc by lia.
  rewrite Z.land_ones by lia. apply Z.mod_pos_bound. lia.
Qed.

Lemma bits_u256 x : u256 x ↔ 0 ≤ x ∧ BitLen x ≤ 256.
Proof. unfold u256. rewrite BitLen_spec by lia. lia. Qed.

Lemma lor_u256 x y : u256 x → u256 y → u256 (Z.lor x y).
Proof.
  intros Hx Hy. assert (Z.lor x y = Z.lor x y mod 2 ^ 256) as ->.
  { rewrite <- Z.land_ones, Z.land_lor_distr_l, !Z.land_ones by lia.
    rewrite !Z.mod_small; done. }
  apply Z.mod_pos_bound. lia.
Qed.

Lemma lxor_u256 x y : u256 x → u256 y → u256 (Z.lxor x y).
Proof.
  intros Hx Hy. assert (Z.lxor x y = Z.lxor x y mod 2 ^ 256) as ->.
  { rewrite <- (Z.mod_small x (2 ^ 256)) at 2 by done.
    rewrite <- (Z.mod_small y (2 ^ 256)) at 2 by done.
    rewrite <- !Z.land_ones by lia. apply Z.bits_inj'. intros n Hn.
    rewrite !Z.lxor_spec, !Z.land_spec, !Z.lxor_spec, !Z.land_spec.
    destruct (Z.lt_ge_cases n 256) as [Hlt|Hge].
    - rewrite !Z.ones_spec_low by lia. by rewrite !andb_true_r.
    - rewrite !Z.ones_spec_high by lia. rewrite !andb_false_r.
      rewrite <- (Z.mod_small x (2 ^ 256)), <- (Z.mod_small y (2 ^ 256)) by done.
      by rewrite !Z.mod_pow2_bits_high by lia. }
  apply Z.mod_pos_bound. lia.
Qed.

Lemma shiftr_u256 x n : 0 ≤ n → u256 x → u256 (Z.shiftr x n).
Proof.
  intros Hn [??]. rewrite Z.shiftr_div_pow2 by done. assert (0 < 2 ^ n) by (apply Z.pow_pos_nonneg; lia).
  split; [apply Z.div_pos; lia|]. apply Z.div_lt_upper_bound; [done|]. nia.
Qed.

#[export] Hint Resolve toU256_u256 land_u256 lor_u256 lxor_u256 : word.
