(* ===== verification/Chain.v ===== *)
(** * Chain parameters and fork activation (chain/params.go)

    A fork is the block number it activates at ([*Fork], nil when the fork
    never activates); [At] computes the set of rules in force at a block. *)

From S2P Require Import Prelude.

(** A [*Fork]: [None] is nil. *)
Definition Fork := Z.

Definition Active (f : Fork) (block : Z) : bool := f <=? block.

Record Forks := {
  fHomestead : option Fork;
  fByzantium : option Fork;
  fConstantinople : option Fork;
  fPetersburg : option Fork;
  fIstanbul : option Fork;
  fEIP150 : option Fork;
  fEIP158 : option Fork;
  fEIP155 : option Fork;
}.

Record ForksInTime := {
  Homestead : bool;
  Byzantium : bool;
  Constantinople : bool;
  Petersburg : bool;
  Istanbul : bool;
  EIP150 : bool;
  EIP158 : bool;
  EIP155 : bool;
}.

Definition active (ff : option Fork) (block : Z) : bool :=
  match ff with
  | None => false
  | Some ff => Active ff block
  end.

Definition IsHomestead (f : Forks) := active (fHomestead f).
Definition IsByzantium (f : Forks) := active (fByzantium f).
Definition IsConstantinople (f : Forks) := active (fConstantinople f).
Definition IsPetersburg (f : Forks) := active (fPetersburg f).
Definition IsEIP150 (f : Forks) := active (fEIP150 f).
Definition IsEIP158 (f : Forks) := active (fEIP158 f).
Definition IsEIP155 (f : Forks) := active (fEIP155 f).
Definition IsIstanbul (f : Forks) := active (fIstanbul f).

Definition At (f : Forks) (block : Z) : ForksInTime := {|
  Homestead := active (fHomestead f) block;
  Byzantium := active (fByzantium f) block;
  Constantinople := active (fConstantinople f) block;
  Petersburg := active (fPetersburg f) block;
  Istanbul := active (fIstanbul f) block;
  EIP150 := active (fEIP150 f) block;
  EIP158 := active (fEIP158 f) block;
  EIP155 := active (fEIP155 f) block;
|}.

Definition NewFork (n : Z) : option Fork := Some n.

Definition AllForksEnabled : Forks := {|
  fHomestead := NewFork 0;
  fEIP150 := NewFork 0;
  fEIP155 := NewFork 0;
  fEIP158 := NewFork 0;
  fByzantium := NewFork 0;
  fConstantinople := NewFork 0;
  fPetersburg := NewFork 0;
  fIstanbul := NewFork 0;
|}.

(** The rules of one block are a subset of those of another. *)
Definition forks_le (a b : ForksInTime) : Prop :=
  (Homestead a → Homestead b) ∧ (Byzantium a → Byzantium b) ∧
  (Constantinople a → Constantinople b) ∧ (Petersburg a → Petersburg b) ∧
  (Istanbul a → Istanbul b) ∧ (EIP150 a → EIP150 b) ∧
  (EIP158 a → EIP158 b) ∧ (EIP155 a → EIP155 b).

#[export] Instance forks_le_preorder : PreOrder forks_le.
Proof. split; unfold forks_le; [intros ?; tauto | intros ???; tauto]. Qed.

Lemma active_mono ff b b' : b ≤ b' → active ff b → active ff b'.
Proof. destruct ff as [f|]; simpl; [|done]. unfold Active. rewrite !Is_true_true, !Z.leb_le. lia. Qed.

(** Once a fork is active it stays active. *)
Lemma At_mono f b b' : b ≤ b' → forks_le (At f b) (At f b').
Proof. intros H. unfold forks_le, At; simpl. split_and!; by apply active_mono. Qed.

Definition all_rules : ForksInTime := {|
  Homestead := true; Byzantium := true; Constantinople := true; Petersburg := true;
  Istanbul := true; EIP150 := true; EIP158 := true; EIP155 := true |}.

Lemma At_AllForksEnabled block : 0 ≤ block → At AllForksEnabled block = all_rules.
Proof.
  intros H. unfold At, all_rules, AllForksEnabled, active, Active, NewFork; simpl.
  by rewrite (proj2 (Z.leb_le 0 block) H).
Qed.
