(* ===== verification/Types.v ===== *)
(** * Hashes and addresses (types/types.go), keccak and address derivation

    [types.Hash] and [types.Address] are arrays of 32 and 20 bytes; here a
    byte list of that length. The Keccak hash (golang.org/x/crypto/sha3) and
    the RLP encoder (umbracle/fastrlp) are third-party code: operations of
    the classes [Keccak] and [Fastrlp], with the one fact the node relies on,
    that a digest is 32 bytes. *)

From S2P Require Import Prelude BigInt.

Abbreviation Hash := (list Z) (only parsing).
Abbreviation Address := (list Z) (only parsing).

Definition HashLength : nat := 32.
Definition AddressLength : nat := 20.

Definition ZeroAddress : Address := replicate AddressLength 0.
Definition ZeroHash : Hash := replicate HashLength 0.

(** The body [BytesToHash] and [BytesToAddress] share: right-align [b] in an
    array of [n] zero bytes, dropping the excess on the left. *)
Definition right_align (n : nat) (b : list Z) : list Z :=
  let size := length b in
  let min := Nat.min size n in
  replicate (n - min) 0 ++ drop (size - min) b.

Definition BytesToHash (b : list Z) : Hash := right_align HashLength b.
Definition BytesToAddress (b : list Z) : Address := right_align AddressLength b.

Definition hash_ok (h : Hash) : Prop := length h = 32%nat ∧ bytes_ok h.
Definition addr_ok (a : Address) : Prop := length a = 20%nat ∧ bytes_ok a.

Class Keccak := {
  keccak256 : list Z → list Z;
  keccak256_ok : ∀ b, hash_ok (keccak256 b);
}.

Class Fastrlp := {
  rlp_value : Type;
  rlp_bytes : list Z → rlp_value;     (** [Arena.NewBytes] *)
  rlp_uint : Z → rlp_value;           (** [Arena.NewUint] *)
  rlp_array : list rlp_value → rlp_value;  (** [Arena.NewArray] and [Set] *)
  rlp_marshal : rlp_value → list Z;   (** [Value.MarshalTo(nil)] *)
}.

(** crypto.CreateAddress *)
Definition CreateAddress `{Keccak, Fastrlp} (addr : Address) (nonce : Z) : Address :=
  BytesToAddress (drop 12 (keccak256 (rlp_marshal (rlp_array [rlp_bytes addr; rlp_uint nonce])))).

(** crypto.CreateAddress2 *)
Definition CreateAddress2 `{Keccak} (addr : Address) (salt : Hash) (inithash : list Z) : Address :=
  BytesToAddress (drop 12 (keccak256 ([255] ++ addr ++ salt ++ keccak256 inithash))).

(** ** Lemmas *)

Lemma length_right_align n b : length (right_align n b) = n.
Proof. unfold right_align. rewrite length_app, length_replicate, length_drop. lia. Qed.

Lemma right_align_ok n b : bytes_ok b → bytes_ok (right_align n b).
Proof.
  intros H. unfold right_align. apply Forall_app. split.
  - apply Forall_replicate. split; lia.
  - by apply Forall_drop.
Qed.

Lemma right_align_id n b : length b = n → right_align n b = b.
Proof.
  intros H. unfold right_align. rewrite H, Nat.min_id, !Nat.sub_diag. done.
Qed.

Lemma right_align_value n b : (length b ≤ n)%nat → be_decode (right_align n b) = be_decode b.
Proof.
  intros H. unfold right_align. rewrite Nat.min_l, Nat.sub_diag by done.
  rewrite be_decode_app, be_decode_zeros. by simpl.
Qed.

Lemma BytesToHash_ok b : bytes_ok b → hash_ok (BytesToHash b).
Proof. intros H. split; [apply length_right_align|by apply right_align_ok]. Qed.

Lemma BytesToAddress_ok b : bytes_ok b → addr_ok (BytesToAddress b).
Proof. intros H. split; [apply length_right_align|by apply right_align_ok]. Qed.

(** Writing a word as a hash and reading it back gives the word. *)
Lemma SetBytes_BytesToHash x : u256 x → SetBytes (BytesToHash (Bytes x)) = x.
Proof.
  intros Hx. unfold SetBytes, BytesToHash. rewrite right_align_value.
  - apply SetBytes_Bytes. by destruct Hx.
  - pose proof (length_Bytes_u256 x Hx). unfold zlen, HashLength in *. lia.
Qed.

Lemma hash_value h : hash_ok h → u256 (SetBytes h).
Proof.
  intros [Hl Hb]. pose proof (be_decode_range h Hb) as Hr. unfold zlen in Hr. rewrite Hl in Hr.
  change (256 ^ Z.of_nat 32) with (2 ^ 256) in Hr. exact Hr.
Qed.

Lemma addr_value a : addr_ok a → 0 ≤ SetBytes a < 2 ^ 160.
Proof.
  intros [Hl Hb]. pose proof (be_decode_range a Hb) as Hr. unfold zlen in Hr. rewrite Hl in Hr.
  change (256 ^ Z.of_nat 20) with (2 ^ 160) in Hr. exact Hr.
Qed.

Lemma addr_value_u256 a : addr_ok a → u256 (SetBytes a).
Proof. intros H. apply addr_value in H. unfold u256. lia. Qed.

Lemma CreateAddress_ok `{Keccak, Fastrlp} a n : addr_ok (CreateAddress a n).
Proof. apply BytesToAddress_ok, Forall_drop, keccak256_ok. Qed.

Lemma CreateAddress2_ok `{Keccak} a s c : addr_ok (CreateAddress2 a s c).
Proof. apply BytesToAddress_ok, Forall_drop, keccak256_ok. Qed.

#[export] Hint Resolve BytesToHash_ok BytesToAddress_ok Bytes_ok hash_value addr_value_u256
  CreateAddress_ok CreateAddress2_ok keccak256_ok : word.
