(* ===== verification/Runtime.v ===== *)
(** * The interface between the state transition and the virtual machine
      (state/runtime/runtime.go)

    The data the host and the virtual machine exchange, and the [Host]
    interface itself as a class of operations on the host's own state.
    [HostLaws] states what the virtual machine relies on: values that come
    from the host are well-formed words, byte strings and counters, and a
    nested call gives back at most the gas it was given. *)

From S2P Require Import Prelude BigInt Chain Types.

Record TxContext := {
  GasPrice : Hash;
  Origin : Address;
  Coinbase : Address;
  Number : Z;       (** int64 *)
  Timestamp : Z;    (** int64 *)
  GasLimit : Z;     (** int64 *)
  ChainID : Z;      (** int64 *)
  Difficulty : Hash;
}.

Inductive StorageStatus :=
  | StorageUnchanged
  | StorageModified
  | StorageModifiedAgain
  | StorageAdded
  | StorageDeleted.

(** The errors of the virtual machine (runtime.go and evm/state.go), and any
    other error a host may return. *)
Inductive error :=
  | ErrOutOfGas
  | ErrStackOverflow
  | ErrStackUnderflow
  | ErrNotEnoughFunds
  | ErrInsufficientBalance
  | ErrMaxCodeSizeExceeded
  | ErrContractAddressCollision
  | ErrDepth
  | ErrExecutionReverted
  | ErrCodeStoreOutOfGas
  | errGasUintOverflow
  | errWriteProtection
  | errInvalidJump
  | errOpCodeNotFound
  | errReturnDataOutOfBounds
  | errOther.

#[export] Instance StorageStatus_eq_dec : EqDecision StorageStatus.
Proof. solve_decision. Defined.
#[export] Instance error_eq_dec : EqDecision error.
Proof. solve_decision. Defined.

Inductive CallType := Call | CallCode | DelegateCall | StaticCall | Create | Create2.

Record Contract := {
  Code : list Z;
  Type_ : CallType;
  CodeAddress : Address;
  cAddress : Address;
  cOrigin : Address;
  Caller : Address;
  Depth : Z;
  Value : option Z;   (** [*big.Int], [None] is nil *)
  Input : list Z;
  Gas : Z;
  Static : bool;
}.

(** NewContract, with the zero values of the fields it does not set. *)
Definition NewContract (depth : Z) (origin from to : Address) (value : option Z)
    (gas : Z) (code : list Z) : Contract := {|
  Caller := from; cOrigin := origin; CodeAddress := to; cAddress := to;
  Gas := gas; Value := value; Code := code; Depth := depth;
  Type_ := Call; Input := []; Static := false;
|}.

Definition NewContractCreation (depth : Z) (origin from to : Address) (value : option Z)
    (gas : Z) (code : list Z) : Contract :=
  NewContract depth origin from to value gas code.

Definition NewContractCall (depth : Z) (origin from to : Address) (value : option Z)
    (gas : Z) (code input : list Z) : Contract :=
  let c := NewContract depth origin from to value gas code in {|
  Caller := Caller c; cOrigin := cOrigin c; CodeAddress := CodeAddress c; cAddress := cAddress c;
  Gas := Gas c; Value := Value c; Code := Code c; Depth := Depth c;
  Type_ := Type_ c; Input := input; Static := Static c;
|}.

Record ExecutionResult := {
  ReturnValue : list Z;
  GasLeft : Z;
  GasUsed : Z;
  Err : option error;
}.

Definition Succeeded (r : ExecutionResult) : bool := bool_decide (Err r = None).
Definition Failed (r : ExecutionResult) : bool := negb (bool_decide (Err r = None)).
Definition Reverted (r : ExecutionResult) : bool := bool_decide (Err r = Some ErrExecutionReverted).

(** UpdateGasUsed *)
Definition UpdateGasUsed (r : ExecutionResult) (gasLimit refund : Z) : ExecutionResult :=
  let used := u64 (gasLimit - GasLeft r) in
  let maxRefund := used / 2 in
  let refund := if maxRefund <? refund then maxRefund else refund in
  {| ReturnValue := ReturnValue r; GasLeft := u64 (GasLeft r + refund);
     GasUsed := u64 (used - refund); Err := Err r |}.

(** The [Host] interface. The four methods that change the host return its
    new state. [GetTracer] is the debugging hook and is not part of the model. *)
Class Host (H : Type) := {
  AccountExists : H → Address → bool;
  GetStorage : H → Address → Hash → Hash;
  SetStorage : H → Address → Hash → Hash → ForksInTime → StorageStatus * H;
  GetBalance : H → Address → Z;
  GetCodeSize : H → Address → Z;
  GetCodeHash : H → Address → Hash;
  GetCode : H → Address → list Z;
  Selfdestruct : H → Address → Address → H;
  GetTxContext : H → TxContext;
  GetBlockHash : H → Z → Hash;
  EmitLog : H → Address → list Hash → list Z → H;
  Callx : Contract → H → ExecutionResult * H;
  Empty : H → Address → bool;
  GetNonce : H → Address → Z;
}.

Record txctx_ok (t : TxContext) : Prop := {
  txctx_gasprice : hash_ok (GasPrice t);
  txctx_origin : addr_ok (Origin t);
  txctx_coinbase : addr_ok (Coinbase t);
  txctx_number : 0 ≤ Number t < 2 ^ 63;
  txctx_timestamp : 0 ≤ Timestamp t < 2 ^ 63;
  txctx_gaslimit : 0 ≤ GasLimit t < 2 ^ 63;
  txctx_difficulty : hash_ok (Difficulty t);
}.

(** What the virtual machine relies on from its host. *)
Class HostLaws (H : Type) `{Host H} := {
  GetStorage_ok : ∀ h a k, hash_ok (GetStorage h a k);
  GetBalance_ok : ∀ h a, u256 (GetBalance h a);
  GetCodeSize_ok : ∀ h a, 0 ≤ GetCodeSize h a < 2 ^ 63;
  GetCodeHash_ok : ∀ h a, hash_ok (GetCodeHash h a);
  GetCode_ok : ∀ h a, bytes_ok (GetCode h a) ∧ zlen (GetCode h a) < 2 ^ 63;
  GetTxContext_ok : ∀ h, txctx_ok (GetTxContext h);
  GetBlockHash_ok : ∀ h n, hash_ok (GetBlockHash h n);
  Callx_gas : ∀ c h, 0 ≤ Gas c < 2 ^ 64 → 0 ≤ GasLeft (Callx c h).1 ≤ Gas c;
  Callx_ret : ∀ c h, bytes_ok (ReturnValue (Callx c h).1) ∧ zlen (ReturnValue (Callx c h).1) < 2 ^ 63;
}.

(** ** Lemmas *)

Section update_gas.
Context (r : ExecutionResult) (limit refund : Z).
Context (Hleft : 0 ≤ GasLeft r ≤ limit) (Hlimit : limit < 2 ^ 64) (Hrefund : 0 ≤ refund).

Let r' := UpdateGasUsed r limit refund.

(** Used and left-over gas always add up to the limit. *)
Lemma UpdateGasUsed_sum : GasUsed r' + GasLeft r' = limit.
Proof.
  unfold r', UpdateGasUsed; simpl. rewrite (u64_small (limit - _)) by lia.
  pose proof (Z.div_mod (limit - GasLeft r) 2). pose proof (Z.mod_pos_bound (limit - GasLeft r) 2).
  case_match eqn:E; apply Z.ltb_lt in E || apply Z.ltb_ge in E; rewrite !u64_small; lia.
Qed.

(** The refund is at most half of the gas used before it. *)
Lemma UpdateGasUsed_half : limit - GasLeft r ≤ 2 * GasUsed r' ∧ GasUsed r' ≤ limit - GasLeft r.
Proof.
  unfold r', UpdateGasUsed; simpl. rewrite (u64_small (limit - _)) by lia.
  pose proof (Z.div_mod (limit - GasLeft r) 2). pose proof (Z.mod_pos_bound (limit - GasLeft r) 2).
  case_match eqn:E; apply Z.ltb_lt in E || apply Z.ltb_ge in E; rewrite !u64_small; lia.
Qed.
End update_gas.
