(* ===== verification/EvmOpcodes.v ===== *)
(** * Operation codes and their mnemonics (state/runtime/evm/opcodes.go) *)

From S2P Require Import Prelude.
From stdpp Require Import gmap strings pretty.
#[local] Open Scope Z_scope.

Definition OpCode := Z.

Definition STOP : OpCode := 0x00.
Definition ADD : OpCode := 0x01.
Definition MUL : OpCode := 0x02.
Definition SUB : OpCode := 0x03.
Definition DIV : OpCode := 0x04.
Definition SDIV : OpCode := 0x05.
Definition MOD : OpCode := 0x06.
Definition SMOD : OpCode := 0x07.
Definition ADDMOD : OpCode := 0x08.
Definition MULMOD : OpCode := 0x09.
Definition EXP : OpCode := 0x0A.
Definition SIGNEXTEND : OpCode := 0x0B.
Definition LT : OpCode := 0x10.
Definition GT : OpCode := 0x11.
Definition SLT : OpCode := 0x12.
Definition SGT : OpCode := 0x13.
Definition EQ : OpCode := 0x14.
Definition ISZERO : OpCode := 0x15.
Definition AND : OpCode := 0x16.
Definition OR : OpCode := 0x17.
Definition XOR : OpCode := 0x18.
Definition NOT : OpCode := 0x19.
Definition BYTE : OpCode := 0x1A.
Definition SHL : OpCode := 0x1B.
Definition SHR : OpCode := 0x1C.
Definition SAR : OpCode := 0x1D.
Definition SHA3 : OpCode := 0x20.
Definition ADDRESS : OpCode := 0x30.
Definition BALANCE : OpCode := 0x31.
Definition ORIGIN : OpCode := 0x32.
Definition CALLER : OpCode := 0x33.
Definition CALLVALUE : OpCode := 0x34.
Definition CALLDATALOAD : OpCode := 0x35.
Definition CALLDATASIZE : OpCode := 0x36.
Definition CALLDATACOPY : OpCode := 0x37.
Definition CODESIZE : OpCode := 0x38.
Definition CODECOPY : OpCode := 0x39.
Definition GASPRICE : OpCode := 0x3A.
Definition EXTCODESIZE : OpCode := 0x3B.
Definition EXTCODECOPY : OpCode := 0x3C.
Definition RETURNDATASIZE : OpCode := 0x3D.
Definition RETURNDATACOPY : OpCode := 0x3E.
Definition EXTCODEHASH : OpCode := 0x3F.
Definition BLOCKHASH : OpCode := 0x40.
Definition COINBASE : OpCode := 0x41.
Definition TIMESTAMP : OpCode := 0x42.
Definition NUMBER : OpCode := 0x43.
Definition DIFFICULTY : OpCode := 0x44.
Definition GASLIMIT : OpCode := 0x45.
Definition CHAINID : OpCode := 0x46.
Definition SELFBALANCE : OpCode := 0x47.
Definition POP : OpCode := 0x50.
Definition MLOAD : OpCode := 0x51.
Definition MSTORE : OpCode := 0x52.
Definition MSTORE8 : OpCode := 0x53.
Definition SLOAD : OpCode := 0x54.
Definition SSTORE : OpCode := 0x55.
Definition JUMP : OpCode := 0x56.
Definition JUMPI : OpCode := 0x57.
Definition PC : OpCode := 0x58.
Definition MSIZE : OpCode := 0x59.
Definition GAS : OpCode := 0x5A.
Definition JUMPDEST : OpCode := 0x5B.
Definition PUSH1 : OpCode := 0x60.
Definition PUSH32 : OpCode := 0x7F.
Definition DUP1 : OpCode := 0x80.
Definition DUP16 : OpCode := 0x8F.
Definition SWAP1 : OpCode := 0x90.
Definition SWAP16 : OpCode := 0x9F.
Definition LOG0 : OpCode := 0xA0.
Definition LOG1 : OpCode := 0xA1.
Definition LOG2 : OpCode := 0xA2.
Definition LOG3 : OpCode := 0xA3.
Definition LOG4 : OpCode := 0xA4.
Definition CREATE : OpCode := 0xF0.
Definition CALL : OpCode := 0xF1.
Definition CALLCODE : OpCode := 0xF2.
Definition RETURN : OpCode := 0xF3.
Definition DELEGATECALL : OpCode := 0xF4.
Definition CREATE2 : OpCode := 0xF5.
Definition STATICCALL : OpCode := 0xFA.
Definition REVERT : OpCode := 0xFD.
Definition SELFDESTRUCT : OpCode := 0xFF.

(** The constants in the order of the file: computation and environment,
    then stack, memory, flow and system operations. *)
Definition environment_opcodes : list OpCode := [
  STOP; ADD; MUL; SUB; DIV; SDIV; MOD; SMOD; ADDMOD; MULMOD; EXP; SIGNEXTEND; LT; GT; SLT; SGT; EQ;
  ISZERO; AND; OR; XOR; NOT; BYTE; SHL; SHR; SAR; SHA3; ADDRESS; BALANCE; ORIGIN; CALLER;
  CALLVALUE; CALLDATALOAD; CALLDATASIZE; CALLDATACOPY; CODESIZE; CODECOPY; GASPRICE; EXTCODESIZE;
  EXTCODECOPY; RETURNDATASIZE; RETURNDATACOPY; EXTCODEHASH; BLOCKHASH; COINBASE; TIMESTAMP; NUMBER;
  DIFFICULTY; GASLIMIT; CHAINID; SELFBALANCE].
Definition system_opcodes : list OpCode := [
  POP; MLOAD; MSTORE; MSTORE8; SLOAD; SSTORE; JUMP; JUMPI; PC; MSIZE; GAS; JUMPDEST; PUSH1; PUSH32;
  DUP1; DUP16; SWAP1; SWAP16; LOG0; LOG1; LOG2; LOG3; LOG4; CREATE; CALL; CALLCODE; RETURN;
  DELEGATECALL; CREATE2; STATICCALL; REVERT; SELFDESTRUCT].

(** No two constants are the same code. *)
Lemma opcodes_distinct : NoDup (environment_opcodes ++ system_opcodes).
Proof. apply (bool_decide_eq_true_1 (NoDup _)). by vm_compute. Qed.

(** The map literal [opCodeToString]. *)
Definition opCodeNames : list (OpCode * string) := [
  (STOP, "STOP"%string);
  (ADD, "ADD"%string);
  (MUL, "MUL"%string);
  (SUB, "SUB"%string);
  (DIV, "DIV"%string);
  (SDIV, "SDIV"%string);
  (MOD, "MOD"%string);
  (SMOD, "SMOD"%string);
  (EXP, "EXP"%string);
  (NOT, "NOT"%string);
  (LT, "LT"%string);
  (GT, "GT"%string);
  (SLT, "SLT"%string);
  (SGT, "SGT"%string);
  (EQ, "EQ"%string);
  (ISZERO, "ISZERO"%string);
  (SIGNEXTEND, "SIGNEXTEND"%string);
  (AND, "AND"%string);
  (OR, "OR"%string);
  (XOR, "XOR"%string);
  (BYTE, "BYTE"%string);
  (SHL, "SHL"%string);
  (SHR, "SHR"%string);
  (SAR, "SAR"%string);
  (ADDMOD, "ADDMOD"%string);
  (MULMOD, "MULMOD"%string);
  (SHA3, "SHA3"%string);
  (ADDRESS, "ADDRESS"%string);
  (BALANCE, "BALANCE"%string);
  (ORIGIN, "ORIGIN"%string);
  (CALLER, "CALLER"%string);
  (CALLVALUE, "CALLVALUE"%string);
  (CALLDATALOAD, "CALLDATALOAD"%string);
  (CALLDATASIZE, "CALLDATASIZE"%string);
  (CALLDATACOPY, "CALLDATACOPY"%string);
  (CODESIZE, "CODESIZE"%string);
  (CODECOPY, "CODECOPY"%string);
  (GASPRICE, "GASPRICE"%string);
  (EXTCODESIZE, "EXTCODESIZE"%string);
  (EXTCODECOPY, "EXTCODECOPY"%string);
  (RETURNDATASIZE, "RETURNDATASIZE"%string);
  (RETURNDATACOPY, "RETURNDATACOPY"%string);
  (EXTCODEHASH, "EXTCODEHASH"%string);
  (BLOCKHASH, "BLOCKHASH"%string);
  (COINBASE, "COINBASE"%string);
  (TIMESTAMP, "TIMESTAMP"%string);
  (NUMBER, "NUMBER"%string);
  (DIFFICULTY, "DIFFICULTY"%string);
  (GASLIMIT, "GASLIMIT"%string);
  (POP, "POP"%string);
  (MLOAD, "MLOAD"%string);
  (MSTORE, "MSTORE"%string);
  (MSTORE8, "MSTORE8"%string);
  (SLOAD, "SLOAD"%string);
  (SSTORE, "SSTORE"%string);
  (JUMP, "JUMP"%string);
  (JUMPI, "JUMPI"%string);
  (PC, "PC"%string);
  (MSIZE, "MSIZE"%string);
  (GAS, "GAS"%string);
  (JUMPDEST, "JUMPDEST"%string);
  (CREATE, "CREATE"%string);
  (CALL, "CALL"%string);
  (RETURN, "RETURN"%string);
  (CALLCODE, "CALLCODE"%string);
  (DELEGATECALL, "DELEGATECALL"%string);
  (CREATE2, "CREATE2"%string);
  (STATICCALL, "STATICCALL"%string);
  (REVERT, "REVERT"%string);
  (SELFDESTRUCT, "SELFDESTRUCT"%string);
  (CHAINID, "CHAINID"%string);
  (SELFBALANCE, "SELFBALANCE"%string)].

(** [opCodesToString(from, to, str)]: the loop runs [n] times, one per
    opcode of the range. *)
Fixpoint opCodesToString_loop (n : nat) (i : OpCode) (c : N) (str : string)
    (m : gmap OpCode string) : gmap OpCode string :=
  match n with
  | O => m
  | S n => opCodesToString_loop n (i + 1) (c + 1)%N str (<[i := (str +:+ pretty c)%string]> m)
  end.

Definition opCodesToString (from to : OpCode) (str : string)
    (m : gmap OpCode string) : gmap OpCode string :=
  let c := if from =? LOG0 then 0%N else 1%N in
  opCodesToString_loop (Z.to_nat (to - from + 1)) from c str m.

(** The map after the package's [init] has run. *)
Definition opCodeToString : gmap OpCode string :=
  let m := list_to_map opCodeNames in
  let m := opCodesToString PUSH1 PUSH32 "PUSH" m in
  let m := opCodesToString DUP1 DUP16 "DUP" m in
  let m := opCodesToString LOG0 LOG4 "LOG" m in
  opCodesToString SWAP1 SWAP16 "SWAP" m.

(** [op.String()]: a missing key of a Go map reads as the empty string. *)
Definition OpCode_String (op : OpCode) : string := default ""%string (opCodeToString !! op).

Example OpCode_String_push1 : OpCode_String PUSH1 = "PUSH1"%string.
Proof. vm_compute. reflexivity. Qed.
Example OpCode_String_log4 : OpCode_String LOG4 = "LOG4"%string.
Proof. vm_compute. reflexivity. Qed.
Example OpCode_String_invalid : OpCode_String 0xFE = ""%string.
Proof. vm_compute. reflexivity. Qed.
