(* ===== verification/EvmState.v ===== *)
(** * The state of the virtual machine (state/runtime/evm/state.go, bitmap.go)

    The machine state is the record [state]; an operation on it is a
    computation of the monad [M]: it takes the state and gives a result and
    a new state, or [None] when the Go code would panic (nil dereference,
    index or slice out of range). An execution error of the virtual machine
    is not a panic: [exit] records it in the state, as the source does.

    Representation. The Go stack is a slice of pointers and a stack pointer;
    slots above the pointer are overwritten before they are read, so the
    model keeps the live part only, as a list with the top at its head. The
    bytes of the Go memory slice between its length and its capacity are
    always zero ([reset] clears them and nothing writes there), so growing
    the slice appends zeros; the capacity itself is kept, since a slice
    expression is checked against it. How far [append] over-allocates is up
    to the Go runtime: the parameter [growslice]. The scratch buffer [tmp]
    is only read by the operation that has just written it and the tracer
    hooks only observe; neither is in the model. *)

From S2P Require Import Prelude BigInt Chain Types Runtime.

Class GoRuntime := {
  growslice : Z → Z → Z;   (** old capacity, needed length: new capacity *)
  growslice_ge : ∀ c n, n ≤ growslice c n;
}.

Definition stackSize : Z := 1024.

(** ** The jump-destination bitmap *)

Definition bitmapSize : Z := 8.

Definition isPushOp (i : Z) : bool := Z.shiftr i 5 =? 3.

(** [b.isSet(i)]; [None] is an index out of range. *)
Definition isSet (buf : list Z) (i : Z) : option bool :=
  b ← buf !! Z.to_nat (i / bitmapSize);
  Some (negb (Z.land b (Z.shiftl 1 (i mod bitmapSize)) =? 0)).

(** [b.set(i)]. *)
Definition set (buf : list Z) (i : Z) : option (list Z) :=
  b ← buf !! Z.to_nat (i / bitmapSize);
  Some (<[Z.to_nat (i / bitmapSize) := Z.lor b (Z.shiftl 1 (i mod bitmapSize))]> buf).

(** The loop of [setCode]: one step per instruction, [fuel] bounds the
    number of steps. *)
Fixpoint setCode_loop (fuel : nat) (code : list Z) (i : Z) (buf : list Z) : option (list Z) :=
  match fuel with
  | O => Some buf
  | S fuel =>
      match code !! Z.to_nat i with
      | None => Some buf   (** [i] has reached [codeSize] *)
      | Some c =>
          if isPushOp c then setCode_loop fuel code (i + (c - 0x60 + 2)) buf
          else
            buf' ← (if c =? 0x5B then set buf i else Some buf);
            setCode_loop fuel code (i + 1) buf'
      end
  end.

(** [b.setCode(code)]: the buffer is brought to one bit per code byte (a
    reset buffer is empty and its spare capacity is zero). *)
Definition setCode (buf code : list Z) : option (list Z) :=
  setCode_loop (length code) code 0 (resize (Z.to_nat (zlen code / bitmapSize + 1)) 0 buf).

(** ** The machine state *)

Record state {H : Type} := mkState {
  ip : Z;                   (** int *)
  code : list Z;
  host : H;
  msg : Contract;
  config : ForksInTime;
  memory : list Z;
  memcap : Z;
  lastGasCost : Z;          (** uint64 *)
  stack : list Z;           (** top first *)
  err : option error;
  stop : bool;
  gas : Z;                  (** uint64 *)
  currentConsumedGas : Z;   (** uint64 *)
  bitmap : list Z;
  returnData : list Z;
  ret : list Z;
}.
Arguments state : clear implicits.
Arguments mkState {H}.

Section setters.
Context {H : Type}.
Implicit Types s : state H.

Definition set_ip v s : state H := mkState v (code s) (host s) (msg s) (config s) (memory s) (memcap s)
  (lastGasCost s) (stack s) (err s) (stop s) (gas s) (currentConsumedGas s) (bitmap s) (returnData s) (ret s).
Definition set_host (v : H) s : state H := mkState (ip s) (code s) v (msg s) (config s) (memory s) (memcap s)
  (lastGasCost s) (stack s) (err s) (stop s) (gas s) (currentConsumedGas s) (bitmap s) (returnData s) (ret s).
Definition set_memory v cap s : state H := mkState (ip s) (code s) (host s) (msg s) (config s) v cap
  (lastGasCost s) (stack s) (err s) (stop s) (gas s) (currentConsumedGas s) (bitmap s) (returnData s) (ret s).
Definition set_lastGasCost v s : state H := mkState (ip s) (code s) (host s) (msg s) (config s) (memory s) (memcap s)
  v (stack s) (err s) (stop s) (gas s) (currentConsumedGas s) (bitmap s) (returnData s) (ret s).
Definition set_stack v s : state H := mkState (ip s) (code s) (host s) (msg s) (config s) (memory s) (memcap s)
  (lastGasCost s) v (err s) (stop s) (gas s) (currentConsumedGas s) (bitmap s) (returnData s) (ret s).
Definition set_stop s : state H := mkState (ip s) (code s) (host s) (msg s) (config s) (memory s) (memcap s)
  (lastGasCost s) (stack s) (err s) true (gas s) (currentConsumedGas s) (bitmap s) (returnData s) (ret s).
Definition set_exit e s : state H := mkState (ip s) (code s) (host s) (msg s) (config s) (memory s) (memcap s)
  (lastGasCost s) (stack s) (Some e) true (gas s) (currentConsumedGas s) (bitmap s) (returnData s) (ret s).
Definition set_gas v s : state H := mkState (ip s) (code s) (host s) (msg s) (config s) (memory s) (memcap s)
  (lastGasCost s) (stack s) (err s) (stop s) v (currentConsumedGas s) (bitmap s) (returnData s) (ret s).
Definition set_consumed v s : state H := mkState (ip s) (code s) (host s) (msg s) (config s) (memory s) (memcap s)
  (lastGasCost s) (stack s) (err s) (stop s) (gas s) v (bitmap s) (returnData s) (ret s).
Definition set_returnData v s : state H := mkState (ip s) (code s) (host s) (msg s) (config s) (memory s) (memcap s)
  (lastGasCost s) (stack s) (err s) (stop s) (gas s) (currentConsumedGas s) (bitmap s) v (ret s).
Definition set_bitmap v s : state H := mkState (ip s) (code s) (host s) (msg s) (config s) (memory s) (memcap s)
  (lastGasCost s) (stack s) (err s) (stop s) (gas s) (currentConsumedGas s) v (returnData s) (ret s).
Definition set_ret v s : state H := mkState (ip s) (code s) (host s) (msg s) (config s) (memory s) (memcap s)
  (lastGasCost s) (stack s) (err s) (stop s) (gas s) (currentConsumedGas s) (bitmap s) (returnData s) v.

(** [c.reset()]: what a state keeps when it goes back to the pool. The
    capacity of its memory survives, and so do the host, message and rules
    of the last run and its return data, which the next run overwrites. *)
Definition reset s : state H :=
  mkState 0 [] (host s) (msg s) (config s) [] (memcap s) 0 [] None false 0 0 [] (returnData s) [].
End setters.

(** ** The monad *)

Definition M (H A : Type) : Type := state H → option (A * state H).

Definition pure {H A} (a : A) : M H A := λ s, Some (a, s).
Definition bind {H A B} (m : M H A) (f : A → M H B) : M H B := λ s,
  match m s with
  | Some (a, s') => f a s'
  | None => None
  end.

Declare Scope evm_scope.
Delimit Scope evm_scope with evm.
Notation "x ← m ; k" := (bind m (λ x, k))
  (at level 20, m at level 100, k at level 200, only parsing) : evm_scope.
Notation "' x ← m ; k" := (bind m (λ x, k))
  (at level 20, x pattern, m at level 100, k at level 200, only parsing) : evm_scope.
Notation "m ;; k" := (bind m (λ _, k))
  (at level 100, k at level 200, only parsing, right associativity) : evm_scope.

Definition panic {H A} : M H A := λ _, None.
Definition gets {H A} (f : state H → A) : M H A := λ s, Some (f s, s).
Definition modify {H} (f : state H → state H) : M H unit := λ s, Some (tt, f s).
Definition skip {H} : M H unit := pure tt.

(** Reading through a pointer, an index or a checked slice. *)
Definition deref {H A} (p : option A) : M H A :=
  match p with
  | Some x => pure x
  | None => panic
  end.

#[local] Open Scope evm_scope.

Section operations.
Context {H : Type} `{GoRuntime}.

Definition Halt : M H unit := modify set_stop.
Definition exit (e : error) : M H unit := modify (set_exit e).

(** *** The stack *)

(** [c.push1().Set(v)] (or [SetBytes], [SetUint64]). *)
Definition push (v : Z) : M H unit := modify (λ s, set_stack (v :: stack s) s).

Definition stackAtLeast (n : Z) : M H bool := gets (λ s, n <=? zlen (stack s)).

Definition top : M H (option Z) := gets (λ s, head (stack s)).

(** Writing through the pointer [top] returned. *)
Definition settop (v : Z) : M H unit := λ s,
  match stack s with
  | [] => None
  | _ :: st => Some (tt, set_stack (v :: st) s)
  end.

Definition pop : M H (option Z) := λ s,
  match stack s with
  | [] => Some (None, s)
  | x :: st => Some (Some x, set_stack st s)
  end.

Definition popHash : M H Hash :=
  p ← pop; v ← deref p; pure (BytesToHash (Bytes v)).

Definition popAddr : M H Address :=
  p ← pop;
  match p with
  | None => pure ZeroAddress
  | Some b => pure (BytesToAddress (Bytes b))
  end.

Definition peekAt (n : nat) : M H Z := v ← gets (λ s, stack s !! (n - 1)%nat); deref v.

Definition swap (n : nat) : M H unit :=
  a ← gets (λ s, stack s !! 0%nat); a ← deref a;
  b ← gets (λ s, stack s !! n); b ← deref b;
  modify (λ s, set_stack (<[n := a]> (<[0%nat := b]> (stack s))) s).

(** *** Gas *)

Definition consumeGas (g : Z) : M H bool :=
  modify (λ s, set_consumed (u64 (currentConsumedGas s + g)) s);;
  have ← gets gas;
  if have <? g then
    exit ErrOutOfGas;; pure false
  else
    modify (λ s, set_gas (gas s - g) s);; pure true.

Definition resetReturnData : M H unit := modify (set_returnData []).

(** *** Memory *)

(** [c.memory = extendByteSlice(c.memory, needLen)] *)
Definition extendByteSlice (needLen : Z) : M H unit :=
  modify (λ s, set_memory (resize (Z.to_nat needLen) 0 (memory s))
                 (if memcap s <? needLen then growslice (memcap s) needLen else memcap s) s).

Definition bigToHash (b : Z) : Hash := BytesToHash (Bytes b).

Definition allocateMemory (offset size : option Z) : M H bool :=
  o ← deref offset;
  if negb (IsUint64 o) then exit errGasUintOverflow;; pure false else
  sz ← deref size;
  if negb (IsUint64 sz) then exit errGasUintOverflow;; pure false else
  if sz =? 0 then pure true else
  let o := Uint64 o in
  let s := Uint64 sz in
  if (0xffffffffe0 <? o) || (0xffffffffe0 <? s) then
    exit errGasUintOverflow;; pure false
  else
  currentSize ← gets (λ st, zlen (memory st));
  let newSize := u64 (o + s) in
  if currentSize <? newSize then
    let w := u64 (newSize + 31) / 32 in
    let newCost := u64 (u64 (3 * w) + u64 (w * w) / 512) in
    last ← gets lastGasCost;
    let cost := u64 (newCost - last) in
    modify (set_lastGasCost newCost);;
    ok ← consumeGas cost;
    if negb ok then exit ErrOutOfGas;; pure false else
    extendByteSlice (u64 (w * 32));;
    pure true
  else pure true.

(** [c.memory[lo:hi]]: the bounds are checked against the capacity. *)
Definition sliceMemory (lo hi : Z) : M H (list Z) := λ s,
  if (lo <=? hi) && (hi <=? memcap s) then
    Some (resize (Z.to_nat (hi - lo)) 0 (drop (Z.to_nat lo) (memory s)), s)
  else None.

(** [copy(c.memory[lo:hi], data)] *)
Definition copyMemory (lo hi : Z) (data : list Z) : M H unit := λ s,
  if (lo <=? hi) && (hi <=? memcap s) then
    Some (tt, set_memory (list_inserts (Z.to_nat lo) (take (Z.to_nat (hi - lo)) data) (memory s))
                (memcap s) s)
  else None.

(** [c.memory[lo:]], to be written through: [f] maps the bytes of the
    slice to their new values. The bound is the length. *)
Definition updateMemoryFrom (lo : Z) (f : list Z → option (list Z)) : M H unit := λ s,
  if lo <=? zlen (memory s) then
    match f (drop (Z.to_nat lo) (memory s)) with
    | Some dst => Some (tt, set_memory (take (Z.to_nat lo) (memory s) ++ dst) (memcap s) s)
    | None => None
    end
  else None.

(** [c.memory[i] = b] *)
Definition storeByte (i b : Z) : M H unit := λ s,
  if i <? zlen (memory s) then
    Some (tt, set_memory (<[Z.to_nat i := b]> (memory s)) (memcap s) s)
  else None.

Definition get2 (offset length : option Z) : M H (list Z * bool) :=
  l ← deref length;
  if l =? 0 then pure ([], true) else
  ok ← allocateMemory offset length;
  if negb ok then pure ([], false) else
  o ← deref offset;
  let o := Uint64 o in
  let l := Uint64 l in
  data ← sliceMemory o (u64 (o + l));
  pure (data, true).

Definition validJumpdest (dest : option Z) : M H bool :=
  dest ← deref dest;
  let udest := Uint64 dest in
  n ← gets (λ s, zlen (code s));
  if (63 <=? BitLen dest) || (n <=? udest) then pure false else
  b ← gets bitmap;
  deref (isSet b udest).

Definition inStaticCall : M H bool := gets (λ s, Static (msg s)).

(** [c.CurrentOpCode()]: [None] past the end of the code. A negative
    instruction pointer would be an index panic. *)
Definition CurrentOpCode : M H (option Z) :=
  i ← gets ip;
  n ← gets (λ s, zlen (code s));
  if n <=? i then pure None else
  if i <? 0 then panic else
  c ← gets (λ s, code s !! Z.to_nat i);
  c ← deref c;
  pure (Some c).
End operations.
