(* ===== verification/EvmInstructions.v ===== *)
(** * The instructions (state/runtime/evm/instructions.go)

    One definition per Go function, in the order of the file. A pointer the
    Go code pops or reads off the stack is an [option Z] and is dereferenced
    where the Go code uses it. *)

From S2P Require Import Prelude BigInt Chain Types Runtime EvmOpcodes EvmState.

#[local] Open Scope evm_scope.

Definition wordSize : Z := 32.

Section instructions.
Context {H : Type} `{!Host H, !GoRuntime, !Keccak, !Fastrlp}.

Definition instruction : Type := M H unit.

(** ** Arithmetic *)

Definition opAdd : instruction :=
  a ← pop; b ← top; a ← deref a; b ← deref b;
  settop (toU256 (a + b)).

Definition opMul : instruction :=
  a ← pop; b ← top; a ← deref a; b ← deref b;
  settop (toU256 (a * b)).

Definition opSub : instruction :=
  a ← pop; b ← top; a ← deref a; b ← deref b;
  settop (toU256 (a - b)).

Definition opDiv : instruction :=
  a ← pop; b ← top; b ← deref b;
  if b =? 0 then settop 0 else
  a ← deref a; settop (toU256 (big_div a b)).

Definition opSDiv : instruction :=
  a ← pop; a ← deref a; let a := to256 a in
  b ← top; b ← deref b; let b := to256 b in
  if b =? 0 then settop 0 else
  let neg := negb (Z.sgn a =? Z.sgn b) in
  let q := big_div (Z.abs a) (Z.abs b) in
  let q := if neg then - q else q in
  settop (toU256 q).

Definition opMod : instruction :=
  a ← pop; b ← top; b ← deref b;
  if b =? 0 then settop 0 else
  a ← deref a; settop (toU256 (big_mod a b)).

Definition opSMod : instruction :=
  a ← pop; a ← deref a; let a := to256 a in
  b ← top; b ← deref b; let b := to256 b in
  if b =? 0 then settop 0 else
  let neg := Z.sgn a <? 0 in
  let r := big_mod (Z.abs a) (Z.abs b) in
  let r := if neg then - r else r in
  settop (toU256 r).

(** The inner loop of [opExp]: [n] bits of the word [d]. *)
Fixpoint exp_word (n : nat) (d z x : Z) : Z * Z :=
  match n with
  | O => (z, x)
  | S n =>
      let z := if Z.land d 1 =? 1 then toU256 (z * x) else z in
      exp_word n (Z.shiftr d 1) z (toU256 (x * x))
  end.

(** The outer loop: the words of the exponent. *)
Fixpoint exp_words (ds : list Z) (z x : Z) : Z :=
  match ds with
  | [] => z
  | d :: ds => let '(z, x) := exp_word 64 d z x in exp_words ds z x
  end.

Definition opExp : instruction :=
  x ← pop; y ← top;
  eip158 ← gets (λ s, EIP158 (config s));
  let g := if eip158 then 50 else 10 in
  y ← deref y;
  let gasCost := u64 (u64 ((BitLen y + 7) / 8) * g) in
  ok ← consumeGas gasCost;
  if negb ok then skip else
  match Bits y with
  | [] => settop 1
  | ds => x ← deref x; settop (exp_words ds 1 x)
  end.

Definition opAddMod : instruction :=
  a ← pop; b ← pop; z ← top; z ← deref z;
  if z =? 0 then settop 0 else
  a ← deref a; b ← deref b;
  settop (toU256 (big_mod (a + b) z)).

Definition opMulMod : instruction :=
  a ← pop; b ← pop; z ← top; z ← deref z;
  if z =? 0 then settop 0 else
  a ← deref a; b ← deref b;
  settop (toU256 (big_mod (a * b) z)).

(** ** Bitwise logic and comparison *)

Definition opAnd : instruction :=
  a ← pop; b ← top; a ← deref a; b ← deref b; settop (Z.land a b).

Definition opOr : instruction :=
  a ← pop; b ← top; a ← deref a; b ← deref b; settop (Z.lor a b).

Definition opXor : instruction :=
  a ← pop; b ← top; a ← deref a; b ← deref b; settop (Z.lxor a b).

(** [indx] is an [int64] and [(31 - indx) * 8] wraps around. *)
Definition opByte : instruction :=
  x ← pop; y ← top; x ← deref x;
  let indx := Int64 x in
  if 31 <? indx then y ← deref y; settop 0 else
  let sh := i64 (i64 (31 - indx) * 8) in
  y ← deref y;
  settop (Z.land (Z.shiftr y (u64 sh)) 255).

Definition opNot : instruction :=
  a ← top; a ← deref a; settop (toU256 (Z.lnot a)).

Definition opIsZero : instruction :=
  a ← top; a ← deref a; settop (if a =? 0 then 1 else 0).

Definition opEq : instruction :=
  a ← pop; b ← top; a ← deref a; b ← deref b; settop (if a =? b then 1 else 0).

Definition opLt : instruction :=
  a ← pop; b ← top; a ← deref a; b ← deref b; settop (if a <? b then 1 else 0).

Definition opGt : instruction :=
  a ← pop; b ← top; a ← deref a; b ← deref b; settop (if b <? a then 1 else 0).

Definition opSlt : instruction :=
  a ← pop; a ← deref a; let a := to256 a in
  b ← top; b ← deref b; let b := to256 b in
  settop (if a <? b then 1 else 0).

Definition opSgt : instruction :=
  a ← pop; a ← deref a; let a := to256 a in
  b ← top; b ← deref b; let b := to256 b in
  settop (if b <? a then 1 else 0).

Definition opSignExtension : instruction :=
  ext ← pop; x ← top; ext ← deref ext;
  if wordSize <? ext then skip else
  match x with
  | None => skip
  | Some x =>
      let bit := u64 (Uint64 ext * 8 + 7) in
      let mask := Z.shiftl 1 bit - 1 in
      let x := if Z.testbit x bit then Z.lor x (Z.lnot mask) else Z.land x mask in
      settop (toU256 x)
  end.

Definition equalOrOverflowsUint256 (b : Z) : bool := 8 <? BitLen b.

Definition opShl : instruction :=
  ok ← gets (λ s, Constantinople (config s));
  if negb ok then exit errOpCodeNotFound else
  shift ← pop; value ← top; shift ← deref shift; value ← deref value;
  if equalOrOverflowsUint256 shift then settop 0
  else settop (toU256 (Z.shiftl value (Uint64 shift))).

Definition opShr : instruction :=
  ok ← gets (λ s, Constantinople (config s));
  if negb ok then exit errOpCodeNotFound else
  shift ← pop; value ← top; shift ← deref shift; value ← deref value;
  if equalOrOverflowsUint256 shift then settop 0
  else settop (toU256 (Z.shiftr value (Uint64 shift))).

Definition opSar : instruction :=
  ok ← gets (λ s, Constantinople (config s));
  if negb ok then exit errOpCodeNotFound else
  shift ← pop; value ← top; value ← deref value; let value := to256 value in
  shift ← deref shift;
  if equalOrOverflowsUint256 shift then
    settop (if 0 <=? Z.sgn value then 0 else tt256m1)
  else settop (toU256 (Z.shiftr value (Uint64 shift))).

(** ** Memory *)

Definition opMload : instruction :=
  offset ← pop;
  '(tmp, ok) ← get2 offset (Some wordSize);
  if negb ok then skip else push (SetBytes tmp).

(** The inner loop of [opMStore]: [n] bytes of the word [d], written at
    decreasing indices; [None] is an index below zero. *)
Fixpoint mstore_word (n : nat) (i : Z) (d : Z) (buf : list Z) : option (Z * list Z) :=
  match n with
  | O => Some (i, buf)
  | S n =>
      let i := i - 1 in
      if i <? 0 then None else
      mstore_word n i (Z.shiftr d 8) (<[Z.to_nat i := d mod 256]> buf)
  end.

Fixpoint mstore_words (ds : list Z) (i : Z) (buf : list Z) : option (Z * list Z) :=
  match ds with
  | [] => Some (i, buf)
  | d :: ds =>
      match mstore_word 8 i d buf with
      | Some (i, buf) => mstore_words ds i buf
      | None => None
      end
  end.

(** Filling the rest of the slot with zeros: [for i > 0 { i--; buf[i] = 0 }]. *)
Fixpoint mstore_zeros (n : nat) (buf : list Z) : list Z :=
  match n with
  | O => buf
  | S n => mstore_zeros n (<[n := 0]> buf)
  end.

Definition mstore_buf (val : Z) (buf : list Z) : option (list Z) :=
  match mstore_words (Bits val) 32 buf with
  | Some (i, buf) => Some (mstore_zeros (Z.to_nat i) buf)
  | None => None
  end.

Definition opMStore : instruction :=
  offset ← pop; val ← pop;
  ok ← allocateMemory offset (Some wordSize);
  if negb ok then skip else
  o ← deref offset; let o := Uint64 o in
  buf ← sliceMemory o (u64 (o + 32));
  val ← deref val;
  buf' ← deref (mstore_buf val buf);
  copyMemory o (u64 (o + 32)) buf'.

Definition opMStore8 : instruction :=
  offset ← pop; val ← pop;
  ok ← allocateMemory offset (Some 1);
  if negb ok then skip else
  o ← deref offset; val ← deref val;
  storeByte (Uint64 o) (Z.land (Uint64 val) 0xff).

(** ** Storage *)

Definition opSload : instruction :=
  loc ← top;
  cfg ← gets config;
  let g := if Istanbul cfg then 800 else if EIP150 cfg then 200 else 50 in
  ok ← consumeGas g;
  if negb ok then skip else
  loc ← deref loc;
  val ← gets (λ s, GetStorage (host s) (cAddress (msg s)) (bigToHash loc));
  settop (SetBytes val).

(** [c.host.SetStorage(c.msg.Address, key, val, c.config)] *)
Definition hostSetStorage (key val : Hash) : M H StorageStatus := λ s,
  let '(status, h) := SetStorage (host s) (cAddress (msg s)) key val (config s) in
  Some (status, set_host h s).

Definition opSStore : instruction :=
  static ← inStaticCall;
  if (static : bool) then exit errWriteProtection else
  cfg ← gets config;
  g ← gets gas;
  if Istanbul cfg && (g <=? 2300) then exit ErrOutOfGas else
  key ← popHash;
  val ← popHash;
  let legacyGasMetering := negb (Istanbul cfg) && (Petersburg cfg || negb (Constantinople cfg)) in
  status ← hostSetStorage key val;
  let cost :=
    match status with
    | StorageUnchanged =>
        if Istanbul cfg then 800 else if legacyGasMetering then 5000 else 200
    | StorageModified => 5000
    | StorageModifiedAgain =>
        if Istanbul cfg then 800 else if legacyGasMetering then 5000 else 200
    | StorageAdded => 20000
    | StorageDeleted => 5000
    end in
  consumeGas cost;; skip.

Definition sha3WordGas : Z := 6.

Definition opSha3 : instruction :=
  offset ← pop; length ← pop;
  '(tmp, ok) ← get2 offset length;
  if negb ok then skip else
  size ← deref length; let size := Uint64 size in
  ok ← consumeGas (u64 (u64 (size + 31) / 32 * sha3WordGas));
  if negb ok then skip else
  push (SetBytes (keccak256 tmp)).

Definition opPop : instruction := pop;; skip.

(** ** Context *)

Definition opAddress : instruction :=
  a ← gets (λ s, cAddress (msg s)); push (SetBytes a).

Definition opBalance : instruction :=
  addr ← popAddr;
  cfg ← gets config;
  let g := if Istanbul cfg then 700 else if EIP150 cfg then 400 else 20 in
  ok ← consumeGas g;
  if negb ok then skip else
  b ← gets (λ s, GetBalance (host s) addr);
  push b.

Definition opSelfBalance : instruction :=
  ok ← gets (λ s, Istanbul (config s));
  if negb ok then exit errOpCodeNotFound else
  b ← gets (λ s, GetBalance (host s) (cAddress (msg s)));
  push b.

Definition opChainID : instruction :=
  ok ← gets (λ s, Istanbul (config s));
  if negb ok then exit errOpCodeNotFound else
  c ← gets (λ s, ChainID (GetTxContext (host s)));
  push (u64 c).

Definition opOrigin : instruction :=
  a ← gets (λ s, Origin (GetTxContext (host s))); push (SetBytes a).

Definition opCaller : instruction :=
  a ← gets (λ s, Caller (msg s)); push (SetBytes a).

Definition opCallValue : instruction :=
  v ← gets (λ s, Value (msg s));
  match v with
  | Some value => push value
  | None => push 0
  end.

(** [min] of instructions.go is [Z.min]. The Go [copy(dst, src)]. *)
Definition go_copy (dst src : list Z) : list Z :=
  take (length dst) src ++ drop (length src) dst.

(** [for i := from; i < to; i++ { dst[i] = 0 }] *)
Definition zero_fill (dst : list Z) (from to : Z) : option (list Z) :=
  if to <=? zlen dst then
    Some (take (Z.to_nat from) dst ++ replicate (Z.to_nat (to - from)) 0 ++ drop (Z.to_nat to) dst)
  else None.

(** [c.setBytes(dst, input, size, dataOffset)]: the new content of [dst]. *)
Definition setBytes (dst input : list Z) (size : Z) (dataOffset : Z) : option (list Z) :=
  if negb (IsUint64 dataOffset) then zero_fill dst 0 size else
  let inputSize := zlen input in
  let begin := Z.min (Uint64 dataOffset) inputSize in
  let copySize := Z.min size (inputSize - begin) in
  let dst :=
    if 0 <? copySize then
      go_copy dst (take (Z.to_nat copySize) (drop (Z.to_nat begin) input))
    else dst in
  if 0 <? size - copySize then zero_fill dst copySize size else Some dst.

(** The pooled buffer is overwritten in full. *)
Definition opCallDataLoad : instruction :=
  offset ← top; offset ← deref offset;
  input ← gets (λ s, Input (msg s));
  buf ← deref (setBytes (replicate 32 0) input 32 offset);
  settop (SetBytes buf).

Definition opCallDataSize : instruction :=
  n ← gets (λ s, zlen (Input (msg s))); push (u64 n).

Definition opCodeSize : instruction :=
  n ← gets (λ s, zlen (code s)); push (u64 n).

Definition opExtCodeSize : instruction :=
  addr ← popAddr;
  cfg ← gets config;
  let g := if EIP150 cfg then 700 else 20 in
  ok ← consumeGas g;
  if negb ok then skip else
  n ← gets (λ s, GetCodeSize (host s) addr);
  push (u64 n).

Definition opGasPrice : instruction :=
  p ← gets (λ s, GasPrice (GetTxContext (host s))); push (SetBytes p).

Definition opReturnDataSize : instruction :=
  ok ← gets (λ s, Byzantium (config s));
  if negb ok then exit errOpCodeNotFound else
  n ← gets (λ s, zlen (returnData s)); push (u64 n).

Definition opExtCodeHash : instruction :=
  ok ← gets (λ s, Constantinople (config s));
  if negb ok then exit errOpCodeNotFound else
  address ← popAddr;
  cfg ← gets config;
  let g := if Istanbul cfg then 700 else 400 in
  ok ← consumeGas g;
  if negb ok then skip else
  e ← gets (λ s, Empty (host s) address);
  if (e : bool) then push 0 else
  h ← gets (λ s, GetCodeHash (host s) address);
  push (SetBytes h).

Definition opPC : instruction := i ← gets ip; push (u64 i).

Definition opMSize : instruction := n ← gets (λ s, zlen (memory s)); push (u64 n).

Definition opGas : instruction := g ← gets gas; push g.

Definition copyGas : Z := 3.

Definition opExtCodeCopy : instruction :=
  address ← popAddr; memOffset ← pop; codeOffset ← pop; length ← pop;
  ok ← allocateMemory memOffset length;
  if negb ok then skip else
  size ← deref length; let size := Uint64 size in
  ok ← consumeGas (u64 (u64 (size + 31) / 32 * copyGas));
  if negb ok then skip else
  cfg ← gets config;
  let g := if EIP150 cfg then 700 else 20 in
  ok ← consumeGas g;
  if negb ok then skip else
  code ← gets (λ s, GetCode (host s) address);
  if size =? 0 then skip else
  memOffset ← deref memOffset; codeOffset ← deref codeOffset;
  updateMemoryFrom (Uint64 memOffset) (λ dst, setBytes dst code size codeOffset).

Definition opCallDataCopy : instruction :=
  memOffset ← pop; dataOffset ← pop; length ← pop;
  ok ← allocateMemory memOffset length;
  if negb ok then skip else
  size ← deref length; let size := Uint64 size in
  ok ← consumeGas (u64 (u64 (size + 31) / 32 * copyGas));
  if negb ok then skip else
  if size =? 0 then skip else
  input ← gets (λ s, Input (msg s));
  memOffset ← deref memOffset; dataOffset ← deref dataOffset;
  updateMemoryFrom (Uint64 memOffset) (λ dst, setBytes dst input size dataOffset).

Definition opReturnDataCopy : instruction :=
  ok ← gets (λ s, Byzantium (config s));
  if negb ok then exit errOpCodeNotFound else
  memOffset ← pop; dataOffset ← pop; length ← pop;
  ok ← allocateMemory memOffset length;
  if negb ok then skip else
  dataOffset ← deref dataOffset;
  if negb (IsUint64 dataOffset) then exit errGasUintOverflow else
  length ← deref length;
  ok ← consumeGas (u64 (u64 (Uint64 length + 31) / 32 * copyGas));
  if negb ok then skip else
  let dataEnd := dataOffset + length in
  if negb (IsUint64 dataEnd) then exit errReturnDataOutOfBounds else
  let dataEndIndex := Uint64 dataEnd in
  rd ← gets returnData;
  if zlen rd <? dataEndIndex then exit errReturnDataOutOfBounds else
  let lo := Uint64 dataOffset in
  let data := take (Z.to_nat (dataEndIndex - lo)) (drop (Z.to_nat lo) rd) in
  memOffset ← deref memOffset;
  updateMemoryFrom (Uint64 memOffset) (λ dst, Some (go_copy dst data)).

Definition opCodeCopy : instruction :=
  memOffset ← pop; dataOffset ← pop; length ← pop;
  ok ← allocateMemory memOffset length;
  if negb ok then skip else
  size ← deref length; let size := Uint64 size in
  ok ← consumeGas (u64 (u64 (size + 31) / 32 * copyGas));
  if negb ok then skip else
  if size =? 0 then skip else
  code ← gets code;
  memOffset ← deref memOffset; dataOffset ← deref dataOffset;
  updateMemoryFrom (Uint64 memOffset) (λ dst, setBytes dst code size dataOffset).

(** ** Block information *)

Definition opBlockHash : instruction :=
  num ← top; num ← deref num;
  if negb (IsInt64 num) then settop 0 else
  let n := Int64 num in
  lastBlock ← gets (λ s, Number (GetTxContext (host s)));
  if (i64 (lastBlock - 257) <? n) && (n <? lastBlock) then
    h ← gets (λ s, GetBlockHash (host s) n);
    settop (SetBytes h)
  else settop 0.

Definition opCoinbase : instruction :=
  a ← gets (λ s, Coinbase (GetTxContext (host s))); push (SetBytes a).

Definition opTimestamp : instruction :=
  t ← gets (λ s, Timestamp (GetTxContext (host s))); push t.

Definition opNumber : instruction :=
  n ← gets (λ s, Number (GetTxContext (host s))); push n.

Definition opDifficulty : instruction :=
  d ← gets (λ s, Difficulty (GetTxContext (host s))); push (SetBytes d).

Definition opGasLimit : instruction :=
  g ← gets (λ s, GasLimit (GetTxContext (host s))); push g.

Definition opSelfDestruct : instruction :=
  static ← inStaticCall;
  if (static : bool) then exit errWriteProtection else
  address ← popAddr;
  cfg ← gets config;
  h ← gets host;
  self ← gets (λ s, cAddress (msg s));
  let g :=
    if EIP150 cfg then
      if EIP158 cfg then
        if Empty h address && negb (GetBalance h self =? 0) then 5000 + 25000 else 5000
      else if negb (AccountExists h address) then 5000 + 25000 else 5000
    else 0 in
  ok ← consumeGas g;
  if negb ok then skip else
  modify (λ s, set_host (Selfdestruct (host s) self address) s);;
  Halt.

(** ** Control flow *)

(** [c.ip = int(dest.Uint64() - 1)] *)
Definition jumpTo (dest : Z) : M H unit := modify (set_ip (i64 (u64 (Uint64 dest - 1)))).

Definition opJump : instruction :=
  dest ← pop;
  ok ← validJumpdest dest;
  if (ok : bool) then d ← deref dest; jumpTo d else exit errInvalidJump.

Definition opJumpi : instruction :=
  dest ← pop; cond ← pop; cond ← deref cond;
  if cond =? 0 then skip else
  ok ← validJumpdest dest;
  if (ok : bool) then d ← deref dest; jumpTo d else exit errInvalidJump.

Definition opJumpDest : instruction := skip.

(** [ins[lo:]] is checked against the length of the code. *)
Definition opPush (n : Z) : instruction :=
  ins ← gets code;
  ip ← gets ip;
  if (ip + 1 <? 0) || (zlen ins <? ip + 1) then panic else
  let tail := drop (Z.to_nat (ip + 1)) ins in
  (if zlen ins <? ip + 1 + n
   then push (SetBytes (tail ++ replicate (Z.to_nat n) 0))
   else push (SetBytes (take (Z.to_nat n) tail)));;
  modify (set_ip (ip + n)).

Definition opDup (n : Z) : instruction :=
  ok ← stackAtLeast n;
  if negb ok then exit ErrStackUnderflow else
  val ← peekAt (Z.to_nat n); push val.

Definition opSwap (n : Z) : instruction :=
  ok ← stackAtLeast (n + 1);
  if negb ok then exit ErrStackUnderflow else
  swap (Z.to_nat n).

(** The loop that pops the topics. *)
Fixpoint popTopics (n : nat) : M H (list Hash) :=
  match n with
  | O => pure []
  | S n => p ← pop; v ← deref p; ts ← popTopics n; pure (bigToHash v :: ts)
  end.

Definition opLog (size : Z) : instruction :=
  let size := size - 1 in
  static ← inStaticCall;
  if (static : bool) then exit errWriteProtection else
  ok ← stackAtLeast (2 + size);
  if negb ok then exit ErrStackUnderflow else
  mStart ← pop; mSize ← pop;
  topics ← popTopics (Z.to_nat size);
  '(tmp, ok) ← get2 mStart mSize;
  if negb ok then skip else
  modify (λ s, set_host (EmitLog (host s) (cAddress (msg s)) topics tmp) s);;
  ok ← consumeGas (u64 (u64 size * 375));
  if negb ok then skip else
  n ← deref mSize;
  consumeGas (u64 (Uint64 n * 8));; skip.

Definition opStop : instruction := Halt.

(** ** Calls *)

(** [c.host.Callx(contract, c.host)] *)
Definition callHost (contract : Contract) : M H ExecutionResult := λ s,
  let '(r, h) := Callx contract (host s) in Some (r, set_host h s).

Definition addGas (g : Z) : M H unit := modify (λ s, set_gas (u64 (gas s + g)) s).

(** The result of [buildCallContract]: Go's [(contract, offset, size, err)].
    [CallNone] is a nil contract with a nil error, [CallErr] a contract
    with the error "bad". *)
Inductive callResult :=
  | CallNone
  | CallErr (contract : Contract)
  | CallOk (contract : Contract) (offset size : Z).

Definition with_call (c : Contract) (static : bool) (addr : Address) (value : option Z)
    (caller : Address) : Contract := {|
  Code := Code c; Type_ := Type_ c; CodeAddress := CodeAddress c; cAddress := addr;
  cOrigin := cOrigin c; Caller := caller; Depth := Depth c; Value := value;
  Input := Input c; Gas := Gas c; Static := static |}.

Definition with_type (c : Contract) (t : CallType) : Contract := {|
  Code := Code c; Type_ := t; CodeAddress := CodeAddress c; cAddress := cAddress c;
  cOrigin := cOrigin c; Caller := Caller c; Depth := Depth c; Value := Value c;
  Input := Input c; Gas := Gas c; Static := Static c |}.

(** The gas a call costs and the gas it passes on, from the two rules of
    the source; [None] is the out-of-gas exit of the rules before EIP150. *)
Definition callGas (eip150 : bool) (have gasCost : Z) (initialGas : Z) : option Z :=
  let ok := IsUint64 initialGas in
  if eip150 then
    let availableGas := u64 (have - gasCost) in
    let availableGas := u64 (availableGas - availableGas / 64) in
    if negb ok || (availableGas <? Uint64 initialGas) then Some availableGas
    else Some (Uint64 initialGas)
  else if negb ok then None else Some (Uint64 initialGas).

(** The price of a call before the gas it passes on. *)
Definition callCost (op : OpCode) (cfg : ForksInTime) (h : H) (addr : Address)
    (transfersValue : bool) : Z :=
  let gasCost := if EIP150 cfg then 700 else 40 in
  let gasCost :=
    if op =? CALL then
      if EIP158 cfg then
        if transfersValue && Empty h addr then gasCost + 25000 else gasCost
      else if negb (AccountExists h addr) then gasCost + 25000 else gasCost
    else gasCost in
  if transfersValue then gasCost + 9000 else gasCost.

(** The contract of a call made from the message [m]. *)
Definition callMessage (op : OpCode) (m : Contract) (addr : Address) (value : option Z) (g : Z)
    (code args : list Z) : Contract :=
  let contract := NewContractCall (Depth m + 1) (cOrigin m) (cAddress m) addr value g code args in
  let static := (op =? STATICCALL) || Static m in
  if op =? DELEGATECALL then with_call contract static (cAddress m) (Value m) (Caller m)
  else if op =? CALLCODE then
    with_call contract static (cAddress m) (Value contract) (Caller contract)
  else with_call contract static (cAddress contract) (Value contract) (Caller contract).

Definition buildCallContract (op : OpCode) : M H callResult :=
  initialGas ← pop;
  addr ← popAddr;
  value ← (if (op =? CALL) || (op =? CALLCODE) then pop else pure None);
  inOffset ← pop; inSize ← pop;
  retOffset ← pop; retSize ← pop;
  '(args, ok) ← get2 inOffset inSize;
  if negb ok then pure CallNone else
  ok ← allocateMemory retOffset retSize;
  if negb ok then pure CallNone else
  cfg ← gets config;
  h ← gets host;
  let transfersValue := ((op =? CALL) || (op =? CALLCODE)) &&
    match value with Some v => negb (v =? 0) | None => false end in
  let gasCost := callCost op cfg h addr transfersValue in
  initialGas ← deref initialGas;
  have ← gets gas;
  match callGas (EIP150 cfg) have gasCost initialGas with
  | None => exit ErrOutOfGas;; pure CallNone
  | Some g =>
      ok ← consumeGas (u64 (gasCost + g));
      if negb ok then pure CallNone else
      let g := if transfersValue then u64 (g + 2300) else g in
      m ← gets msg;
      let contract := callMessage op m addr value g (GetCode h addr) args in
      let poor := transfersValue &&
        match value with Some v => GetBalance h (cAddress m) <? v | None => false end in
      if poor then pure (CallErr contract) else
      ro ← deref retOffset; rs ← deref retSize;
      pure (CallOk contract (Uint64 ro) (Uint64 rs))
  end.

(** The result of [buildCreateContract]; the error always comes with a nil
    contract. *)
Inductive createResult :=
  | CreateNone
  | CreateErr
  | CreateOk (contract : Contract).

Definition buildCreateContract (op : OpCode) : M H createResult :=
  value ← pop; offset ← pop; length ← pop;
  salt ← (if op =? CREATE2 then pop else pure None);
  let hasTransfer := match value with Some v => negb (v =? 0) | None => false end in
  '(input, ok) ← get2 offset length;
  if negb ok then pure CreateNone else
  ok ← consumeGas 0;
  if negb ok then pure CreateNone else
  h ← gets host;
  m ← gets msg;
  let poor := hasTransfer &&
    match value with Some v => GetBalance h (cAddress m) <? v | None => false end in
  if poor then pure CreateErr else
  ok ← (if op =? CREATE2 then
          size ← deref length; consumeGas (u64 (u64 (Uint64 size + 31) / 32 * sha3WordGas))
        else pure true);
  if negb ok then pure CreateNone else
  have ← gets gas;
  cfg ← gets config;
  let g := if EIP150 cfg || (op =? CREATE2) then u64 (have - have / 64) else have in
  ok ← consumeGas g;
  if negb ok then pure CreateNone else
  address ← (if op =? CREATE then pure (CreateAddress (cAddress m) (GetNonce h (cAddress m)))
             else salt ← deref salt; pure (CreateAddress2 (cAddress m) (bigToHash salt) input));
  pure (CreateOk (NewContractCreation (Depth m + 1) (cOrigin m) (cAddress m) address value g input)).

Definition opCreate (op : OpCode) : instruction :=
  static ← inStaticCall;
  if (static : bool) then exit errWriteProtection else
  cfg ← gets config;
  if (op =? CREATE2) && negb (Constantinople cfg) then exit errOpCodeNotFound else
  resetReturnData;;
  r ← buildCreateContract op;
  match r with
  | CreateErr => push 0
  | CreateNone => skip
  | CreateOk contract =>
      let contract := with_type contract Create in
      result ← callHost contract;
      (if (op =? CREATE) && Homestead cfg && bool_decide (Err result = Some ErrCodeStoreOutOfGas)
       then push 0
       else if Failed result && negb (bool_decide (Err result = Some ErrCodeStoreOutOfGas))
       then push 0
       else push (SetBytes (cAddress contract)));;
      addGas (GasLeft result);;
      if Reverted result then modify (set_returnData (ReturnValue result)) else skip
  end.

(** The call type an opcode selects; the source panics on any other. *)
Definition callType (op : OpCode) : option CallType :=
  if op =? CALL then Some Call
  else if op =? CALLCODE then Some CallCode
  else if op =? DELEGATECALL then Some DelegateCall
  else if op =? STATICCALL then Some StaticCall
  else None.

Definition opCall (op : OpCode) : instruction :=
  resetReturnData;;
  static ← inStaticCall;
  blocked ← (if (op =? CALL) && static then val ← peekAt 3; pure (0 <? BitLen val) else pure false);
  if (blocked : bool) then exit errWriteProtection else
  cfg ← gets config;
  if (op =? DELEGATECALL) && negb (Homestead cfg) then exit errOpCodeNotFound else
  if (op =? STATICCALL) && negb (Byzantium cfg) then exit errOpCodeNotFound else
  t ← deref (callType op);
  r ← buildCallContract op;
  match r with
  | CallErr contract => push 0;; addGas (Gas contract)
  | CallNone => skip
  | CallOk contract offset size =>
      let contract := with_type contract t in
      result ← callHost contract;
      push (if Succeeded result then 1 else 0);;
      (if (Succeeded result || Reverted result) && negb (zlen (ReturnValue result) =? 0)
       then copyMemory offset (u64 (offset + size)) (ReturnValue result)
       else skip);;
      addGas (GasLeft result);;
      modify (set_returnData (ReturnValue result))
  end.

Definition opHalt (op : OpCode) : instruction :=
  ok ← gets (λ s, Byzantium (config s));
  if (op =? REVERT) && negb ok then exit errOpCodeNotFound else
  offset ← pop; size ← pop;
  '(r, ok) ← get2 offset size;
  modify (set_ret r);;
  if negb ok then skip else
  if op =? REVERT then exit ErrExecutionReverted else Halt.
End instructions.

Arguments instruction H : clear implicits.
