(* ===== verification/EvmRun.v ===== *)
(** * The dispatch table and the interpreter loop
      (state/runtime/evm/dispatch_table.go, [Run] of state.go, evm.go) *)

From S2P Require Import Prelude BigInt Chain Types Runtime EvmOpcodes EvmState EvmInstructions.
From stdpp Require Import gmap.
#[local] Open Scope Z_scope.
#[local] Open Scope evm_scope.

(** How a bounded run of the interpreter ends. *)
Inductive outcome (A : Type) :=
  | Done (a : A)
  | OutOfFuel
  | Panicked.
Arguments Done {A} _.
Arguments OutOfFuel {A}.
Arguments Panicked {A}.

Section run.
Context {H : Type} `{!Host H, !GoRuntime, !Keccak, !Fastrlp}.

Record handler := mkHandler {
  inst : instruction H;
  minStack : Z;     (** the field [stack] *)
  staticGas : Z;    (** the field [gas] *)
}.

(** [registerRange(from, to, factory, gas)]: the handlers it registers,
    the [c]-th opcode of the range getting [factory(c)]. *)
Fixpoint rangeFrom (n : nat) (op : OpCode) (c : Z) (factory : Z → instruction H) (g : Z)
    : list (OpCode * handler) :=
  match n with
  | O => []
  | S n => (op, mkHandler (factory c) 0 g) :: rangeFrom n (op + 1) (c + 1) factory g
  end.

Definition registerRange (from to : OpCode) (factory : Z → instruction H) (g : Z)
    : list (OpCode * handler) :=
  rangeFrom (Z.to_nat (to - from + 1)) from 1 factory g.

(** The registrations of [init], in order. *)
Definition registrations : list (OpCode * handler) :=
  [ (STOP, mkHandler opStop 0 0);
    (ADD, mkHandler opAdd 2 3);
    (SUB, mkHandler opSub 2 3);
    (MUL, mkHandler opMul 2 5);
    (DIV, mkHandler opDiv 2 5);
    (SDIV, mkHandler opSDiv 2 5);
    (MOD, mkHandler opMod 2 5);
    (SMOD, mkHandler opSMod 2 5);
    (EXP, mkHandler opExp 2 10) ] ++
  registerRange PUSH1 PUSH32 opPush 3 ++
  registerRange DUP1 DUP16 opDup 3 ++
  registerRange SWAP1 SWAP16 opSwap 3 ++
  registerRange LOG0 LOG4 opLog 375 ++
  [ (ADDMOD, mkHandler opAddMod 3 8);
    (MULMOD, mkHandler opMulMod 3 8);
    (AND, mkHandler opAnd 2 3);
    (OR, mkHandler opOr 2 3);
    (XOR, mkHandler opXor 2 3);
    (BYTE, mkHandler opByte 2 3);
    (NOT, mkHandler opNot 1 3);
    (ISZERO, mkHandler opIsZero 1 3);
    (EQ, mkHandler opEq 2 3);
    (LT, mkHandler opLt 2 3);
    (GT, mkHandler opGt 2 3);
    (SLT, mkHandler opSlt 2 3);
    (SGT, mkHandler opSgt 2 3);
    (SIGNEXTEND, mkHandler opSignExtension 1 5);
    (SHL, mkHandler opShl 2 3);
    (SHR, mkHandler opShr 2 3);
    (SAR, mkHandler opSar 2 3);
    (CREATE, mkHandler (opCreate CREATE) 3 32000);
    (CREATE2, mkHandler (opCreate CREATE2) 4 32000);
    (CALL, mkHandler (opCall CALL) 7 0);
    (CALLCODE, mkHandler (opCall CALLCODE) 7 0);
    (DELEGATECALL, mkHandler (opCall DELEGATECALL) 6 0);
    (STATICCALL, mkHandler (opCall STATICCALL) 6 0);
    (REVERT, mkHandler (opHalt REVERT) 2 0);
    (RETURN, mkHandler (opHalt RETURN) 2 0);
    (MLOAD, mkHandler opMload 1 3);
    (MSTORE, mkHandler opMStore 2 3);
    (MSTORE8, mkHandler opMStore8 2 3);
    (SLOAD, mkHandler opSload 1 0);
    (SSTORE, mkHandler opSStore 2 0);
    (SHA3, mkHandler opSha3 2 30);
    (POP, mkHandler opPop 1 2);
    (EXTCODEHASH, mkHandler opExtCodeHash 1 0);
    (ADDRESS, mkHandler opAddress 0 2);
    (BALANCE, mkHandler opBalance 1 0);
    (SELFBALANCE, mkHandler opSelfBalance 0 5);
    (ORIGIN, mkHandler opOrigin 0 2);
    (CALLER, mkHandler opCaller 0 2);
    (CALLVALUE, mkHandler opCallValue 0 2);
    (CALLDATALOAD, mkHandler opCallDataLoad 1 3);
    (CALLDATASIZE, mkHandler opCallDataSize 0 2);
    (CODESIZE, mkHandler opCodeSize 0 2);
    (EXTCODESIZE, mkHandler opExtCodeSize 1 0);
    (GASPRICE, mkHandler opGasPrice 0 2);
    (RETURNDATASIZE, mkHandler opReturnDataSize 0 2);
    (CHAINID, mkHandler opChainID 0 2);
    (PC, mkHandler opPC 0 2);
    (MSIZE, mkHandler opMSize 0 2);
    (GAS, mkHandler opGas 0 2);
    (EXTCODECOPY, mkHandler opExtCodeCopy 4 0);
    (CALLDATACOPY, mkHandler opCallDataCopy 3 3);
    (RETURNDATACOPY, mkHandler opReturnDataCopy 3 3);
    (CODECOPY, mkHandler opCodeCopy 3 3);
    (BLOCKHASH, mkHandler opBlockHash 1 20);
    (COINBASE, mkHandler opCoinbase 0 2);
    (TIMESTAMP, mkHandler opTimestamp 0 2);
    (NUMBER, mkHandler opNumber 0 2);
    (DIFFICULTY, mkHandler opDifficulty 0 2);
    (GASLIMIT, mkHandler opGasLimit 0 2);
    (SELFDESTRUCT, mkHandler opSelfDestruct 1 0);
    (JUMP, mkHandler opJump 1 8);
    (JUMPI, mkHandler opJumpi 2 10);
    (JUMPDEST, mkHandler opJumpDest 0 1) ].

(** [register(op, h)]: registering an opcode twice panics. *)
Definition register (t : option (gmap OpCode handler)) (e : OpCode * handler)
    : option (gmap OpCode handler) :=
  match t with
  | None => None
  | Some t =>
      match t !! e.1 with
      | Some _ => None
      | None => Some (<[e.1 := e.2]> t)
      end
  end.

(** The table after [init]; an opcode without an entry has a nil [inst]. *)
Definition dispatchTable : gmap OpCode handler :=
  default ∅ (foldl register (Some ∅) registrations).

(** One iteration of the loop of [Run]; the result says whether the loop
    goes on ([false] is a [break]). *)
Definition Run_body : M H bool :=
  op ← CurrentOpCode;
  match op with
  | None => Halt;; pure false
  | Some op =>
      match dispatchTable !! op with
      | None => exit errOpCodeNotFound;; pure false
      | Some h =>
          sp ← gets (λ s, zlen (stack s));
          if sp <? minStack h then exit ErrStackUnderflow;; pure false else
          ok ← consumeGas (staticGas h);
          if negb ok then exit ErrOutOfGas;; pure false else
          inst h;;
          sp ← gets (λ s, zlen (stack s));
          if stackSize <? sp then exit ErrStackOverflow;; pure false else
          modify (λ s, set_ip (ip s + 1) s);;
          pure true
      end
  end.

(** The loop, bounded by [fuel]; the result says whether it has ended. *)
Fixpoint Run_loop (fuel : nat) : M H bool :=
  match fuel with
  | O => pure false
  | S fuel =>
      stopped ← gets stop;
      if (stopped : bool) then pure true else
      go ← Run_body;
      if (go : bool) then Run_loop fuel else pure true
  end.

(** [c.Run()] *)
Definition Run (fuel : nat) (s : state H) : outcome (list Z * option error * state H) :=
  match Run_loop fuel s with
  | None => Panicked
  | Some (false, _) => OutOfFuel
  | Some (true, s) => Done (ret s, err s, s)
  end.

(** The state [EVM.Run] starts from: a pooled state with the message, the
    code, the gas, the host and the rules of this call. *)
Definition initState (pooled : state H) (c : Contract) (h : H) (cfg : ForksInTime)
    : option (state H) :=
  match setCode (bitmap pooled) (Code c) with
  | None => None
  | Some bm => Some (mkState (ip pooled) (Code c) h c cfg (memory pooled) (memcap pooled)
      (lastGasCost pooled) (stack pooled) (err pooled) (stop pooled) (Gas c)
      (currentConsumedGas pooled) bm [] (ret pooled))
  end.

(** [e.Run(c, host, config)], with the host it leaves behind. *)
Definition EVM_Run (fuel : nat) (pooled : state H) (c : Contract) (h : H) (cfg : ForksInTime)
    : outcome (ExecutionResult * H) :=
  match initState pooled c h cfg with
  | None => Panicked
  | Some s =>
      match Run fuel s with
      | OutOfFuel => OutOfFuel
      | Panicked => Panicked
      | Done (r, e, s) =>
          let gasLeft := if bool_decide (e = None) || bool_decide (e = Some ErrExecutionReverted)
                         then gas s else 0 in
          Done ({| ReturnValue := r; GasLeft := gasLeft;
                   GasUsed := u64 (Gas c - gasLeft); Err := e |}, host s)
      end
  end.
End run.

Arguments handler H : clear implicits.
