(* ===== verification/EvmBuffers.v ===== *)
(** * The loops of the machine

    The bitmap [setCode] builds (bitmap.go) marks exactly the valid jump
    destinations: the positions where an instruction starts, counted from
    position 0 with the data of PUSH skipped, and where that instruction is
    JUMPDEST. The hand-written loops of instructions.go against reference
    definitions: [setBytes] copies a window of a zero-extended input,
    [mstore_buf] writes the 32-byte big-endian form of a word, and the
    square-and-multiply loop of [opExp] computes a power modulo [2^256]. *)

From S2P Require Import Prelude BigInt Chain Types Runtime EvmState EvmInstructions.

(** The instruction after the one at [i] starts at [j]. *)
Definition next_op (code : list Z) (i j : Z) : Prop :=
  ∃ c, code !! Z.to_nat i = Some c ∧ j = i + (if isPushOp c then c - 0x60 + 2 else 1).

(** An instruction starts at [i]. *)
Definition op_start (code : list Z) (i : Z) : Prop := rtc (next_op code) 0 i.

Definition jumpdest (code : list Z) (i : Z) : Prop :=
  op_start code i ∧ code !! Z.to_nat i = Some 0x5b.

Lemma isPushOp_range c : byte_ok c → isPushOp c = true ↔ 0x60 ≤ c ≤ 0x7f.
Proof.
  intros Hc. red in Hc. unfold isPushOp. rewrite Z.shiftr_div_pow2 by lia. change (2 ^ 5) with 32.
  rewrite Z.eqb_eq. split; intros; Z.div_mod_to_equations; lia.
Qed.

Lemma next_op_lt code i j : bytes_ok code → next_op code i j → i < j.
Proof.
  intros Hc (c & Hl & ->). pose proof (Forall_lookup_1 _ _ _ _ Hc Hl) as Hb.
  pose proof (isPushOp_range c Hb). destruct (isPushOp c); lia.
Qed.

(** ** Bits *)

Lemma land_bit b m : 0 ≤ m → negb (Z.land b (Z.shiftl 1 m) =? 0) = Z.testbit b m.
Proof.
  intros Hm. rewrite Z.shiftl_1_l. destruct (Z.testbit b m) eqn:E.
  - apply negb_true_iff, Z.eqb_neq. intros E0.
    assert (Z.testbit (Z.land b (2 ^ m)) m = true) as Et.
    { rewrite Z.land_spec, E, Z.pow2_bits_true by done. done. }
    by rewrite E0, Z.bits_0 in Et.
  - apply negb_false_iff, Z.eqb_eq, Z.bits_inj'. intros n Hn. rewrite Z.land_spec, Z.bits_0.
    destruct (Z.eq_dec m n) as [<-|]; [by rewrite E|]. rewrite Z.pow2_bits_false by done. apply andb_false_r.
Qed.

Lemma isSet_testbit buf i :
  0 ≤ i → isSet buf i = (λ b, Z.testbit b (i mod 8)) <$> buf !! Z.to_nat (i / 8).
Proof.
  intros Hi. unfold isSet, bitmapSize. destruct (buf !! _) as [b|]; simpl; [|done].
  by rewrite land_bit by (apply Z.mod_pos_bound; lia).
Qed.

Lemma isSet_in_range buf i : 0 ≤ i → i / 8 < zlen buf → is_Some (isSet buf i).
Proof.
  intros Hi Hlt. rewrite isSet_testbit by done. apply fmap_is_Some, lookup_lt_is_Some_2.
  pose proof (Z.div_pos i 8). unfold zlen in Hlt. lia.
Qed.

Lemma set_spec buf i :
  0 ≤ i → i / 8 < zlen buf → ∃ buf', set buf i = Some buf' ∧ length buf' = length buf ∧
    ∀ j, 0 ≤ j → isSet buf' j = if decide (i = j) then Some true else isSet buf j.
Proof.
  intros Hi Hlt. pose proof (Z.div_pos i 8 Hi ltac:(lia)) as Hd. unfold zlen in Hlt.
  destruct (lookup_lt_is_Some_2 buf (Z.to_nat (i / 8))) as [b Hb]; [lia|].
  unfold set, bitmapSize. rewrite Hb. simpl. eexists. split_and!; [done|by rewrite length_insert|].
  intros j Hj. rewrite !isSet_testbit by done. pose proof (Z.div_pos j 8 Hj ltac:(lia)).
  pose proof (Z.div_mod i 8 ltac:(lia)). pose proof (Z.div_mod j 8 ltac:(lia)).
  pose proof (Z.mod_pos_bound i 8 ltac:(lia)). pose proof (Z.mod_pos_bound j 8 ltac:(lia)).
  destruct (decide (i / 8 = j / 8)) as [E|Hne].
  - rewrite <- E, list_lookup_insert_eq, Hb by lia. simpl. f_equal.
    rewrite Z.lor_spec, Z.shiftl_1_l. destruct (decide (i = j)) as [->|].
    + by rewrite Z.pow2_bits_true, orb_true_r by lia.
    + rewrite Z.pow2_bits_false by lia. by rewrite orb_false_r.
  - rewrite list_lookup_insert_ne by lia. rewrite decide_False by (intros ->; lia). done.
Qed.

(** ** The loop *)

Section loop.
Context (code : list Z) (Hcode : bytes_ok code).

(** Instructions reached from [i] lie at or after [i]. *)
Lemma reach_ge i j : rtc (next_op code) i j → i ≤ j.
Proof. induction 1 as [|??? Hn]; [lia|]. apply next_op_lt in Hn; [lia|done]. Qed.

Lemma reach_inv i j c :
  code !! Z.to_nat i = Some c → rtc (next_op code) i j →
  i = j ∨ rtc (next_op code) (i + (if isPushOp c then c - 0x60 + 2 else 1)) j.
Proof.
  intros Hc Hr. inversion Hr as [|? k ? (c' & Hc' & ->)]; subst; [by left|right].
  by assert (c' = c) as -> by congruence.
Qed.

Definition marks (i : Z) (buf buf' : list Z) : Prop :=
  length buf' = length buf ∧
  ∀ j, 0 ≤ j < zlen code →
    isSet buf' j = Some true ↔
    isSet buf j = Some true ∨ (rtc (next_op code) i j ∧ code !! Z.to_nat j = Some 0x5b).

Lemma marks_end i buf : zlen code ≤ i → marks i buf buf.
Proof. intros Hi. split; [done|]. intros j Hj. split; [auto|]. intros [?|[Hr _]]; [done|]. apply reach_ge in Hr. lia. Qed.

(** One instruction that is not a marked JUMPDEST. *)
Lemma marks_step i c buf buf' :
  code !! Z.to_nat i = Some c → c ≠ 0x5b → 0 ≤ i →
  marks (i + (if isPushOp c then c - 0x60 + 2 else 1)) buf buf' → marks i buf buf'.
Proof.
  intros Hc Hne Hi [Hl Hm]. split; [done|]. intros j Hj. rewrite (Hm j Hj). split.
  - intros [?|[Hr Hcj]]; [by left|right]. split; [|done]. eapply rtc_l; [|done]. by exists c.
  - intros [?|[Hr Hcj]]; [by left|]. destruct (reach_inv _ _ _ Hc Hr) as [->|]; [congruence|by right].
Qed.

Lemma marks_jumpdest i buf buf1 buf' :
  code !! Z.to_nat i = Some 0x5b → 0 ≤ i → set buf i = Some buf1 → i / 8 < zlen buf →
  marks (i + 1) buf1 buf' → marks i buf buf'.
Proof.
  intros Hc Hi Hset Hlt [Hl Hm]. destruct (set_spec buf i Hi Hlt) as (b & Hb & Hbl & Hbs).
  rewrite Hset in Hb. injection Hb as <-. split; [congruence|].
  intros j Hj. rewrite (Hm j Hj), Hbs by lia. destruct (decide (i = j)) as [<-|Hne].
  - split; [intros _; right; split; [apply rtc_refl|done]|by left].
  - split; (intros [?|[Hr Hcj]]; [by left|right]; split; [|done]).
    + eapply rtc_l; [|done]. by exists 0x5b.
    + destruct (reach_inv _ _ _ Hc Hr) as [->|Hr']; [done|]. exact Hr'.
Qed.

Lemma setCode_loop_marks fuel i buf :
  0 ≤ i → zlen code - i ≤ Z.of_nat fuel → zlen code / 8 < zlen buf →
  ∃ buf', setCode_loop fuel code i buf = Some buf' ∧ marks i buf buf'.
Proof.
  revert i buf. induction fuel as [|fuel IH]; intros i buf Hi Hf Hb; simpl.
  { eexists. split; [done|]. apply marks_end. lia. }
  destruct (code !! Z.to_nat i) as [c|] eqn:Hc.
  2: { eexists. split; [done|]. apply lookup_ge_None_1 in Hc. apply marks_end. unfold zlen. lia. }
  pose proof (Forall_lookup_1 _ _ _ _ Hcode Hc) as Hbc. pose proof (isPushOp_range c Hbc) as Hpush.
  pose proof (lookup_lt_Some _ _ _ Hc) as Hlt.
  assert (i / 8 < zlen buf).
  { eapply Z.le_lt_trans; [|done]. apply Z.div_le_mono; unfold zlen; lia. }
  destruct (isPushOp c) eqn:Ep.
  - destruct (IH (i + (c - 0x60 + 2)) buf) as (buf' & -> & Hm); try lia. exists buf'. split; [done|].
    eapply marks_step; [done|lia|done|]. by rewrite Ep.
  - destruct (Z.eqb_spec c 0x5b) as [->|Hne]; simpl.
    + destruct (set_spec buf i) as (b & Hset & Hl & _); [done..|]. rewrite Hset. simpl.
      destruct (IH (i + 1) b) as (buf' & -> & Hm); try (unfold zlen in *; lia).
      exists buf'. split; [done|]. by eapply marks_jumpdest.
    + destruct (IH (i + 1) buf) as (buf' & -> & Hm); try lia. exists buf'. split; [done|].
      eapply marks_step; [done..|]. by rewrite Ep.
Qed.
End loop.

Lemma isSet_zeros n i : 0 ≤ i → isSet (replicate n 0) i ≠ Some true.
Proof.
  intros Hi. rewrite isSet_testbit by done. destruct (replicate n 0 !! _) as [b|] eqn:E; simpl; [|done].
  apply lookup_replicate in E as [-> _]. by rewrite Z.bits_0.
Qed.

(** [setCode] does not panic on any code, from a reset buffer, and every
    position of the code has its bit. *)
Lemma setCode_marks code :
  bytes_ok code → ∃ bm, setCode [] code = Some bm ∧
    zlen bm = zlen code / 8 + 1 ∧ marks code 0 (replicate (length bm) 0) bm.
Proof.
  intros Hc. unfold setCode, bitmapSize. rewrite resize_nil. set (n := Z.to_nat _).
  pose proof (Z.div_pos (zlen code) 8 ltac:(unfold zlen; lia) ltac:(lia)).
  destruct (setCode_loop_marks code Hc (length code) 0 (replicate n 0)) as (bm & -> & Hm).
  - lia.
  - unfold zlen. lia.
  - unfold zlen at 2. rewrite length_replicate. lia.
  - exists bm. pose proof (proj1 Hm) as Hl. rewrite length_replicate in Hl. split_and!; [done| |by rewrite Hl].
    unfold zlen at 1. lia.
Qed.

(** ** setBytes *)

Lemma resize_short {A} n (x : A) l : (length l ≤ n)%nat → resize n x l = l ++ replicate (n - length l) x.
Proof. apply resize_ge. Qed.

Lemma zero_fill_spec dst from to :
  0 ≤ from ≤ to → to ≤ zlen dst →
  zero_fill dst from to =
    Some (take (Z.to_nat from) dst ++ replicate (Z.to_nat (to - from)) 0 ++ drop (Z.to_nat to) dst).
Proof. intros. unfold zero_fill. by rewrite (proj2 (Z.leb_le to _)) by lia. Qed.

(** The window of [size] bytes at [off] of the input extended with zeros. *)
Definition window (input : list Z) (off size : Z) : list Z :=
  resize (Z.to_nat size) 0 (drop (Z.to_nat off) input).

Lemma length_window input off size : 0 ≤ size → zlen (window input off size) = size.
Proof. intros. unfold zlen, window. rewrite length_resize. lia. Qed.

Lemma window_ok input off size : bytes_ok input → bytes_ok (window input off size).
Proof. intros. apply Forall_resize; [split; lia|by apply Forall_drop]. Qed.

Lemma setBytes_window dst input size off :
  u256 off → 0 ≤ size ≤ zlen dst → zlen input < 2 ^ 63 →
  setBytes dst input size off = Some (window input off size ++ drop (Z.to_nat size) dst).
Proof.
  intros [Ho _] Hs Hi. unfold setBytes, window.
  destruct (IsUint64 off) eqn:E; simpl; [apply IsUint64_spec in E|].
  2: { assert (2 ^ 64 ≤ off).
       { destruct (Z.lt_ge_cases off (2 ^ 64)) as [Hlt|]; [|done].
         rewrite (proj2 (IsUint64_spec off)) in E; done. }
       rewrite zero_fill_spec by lia. rewrite (drop_ge input) by (unfold zlen in Hi; lia).
       rewrite resize_nil, Z.sub_0_r. done. }
  rewrite Uint64_small by done. remember (Z.min off (zlen input)) as b eqn:Eb.
  remember (Z.min size (zlen input - b)) as cs eqn:Ec.
  assert (0 ≤ b ≤ zlen input) by (unfold zlen in *; lia).
  assert (drop (Z.to_nat off) input = drop (Z.to_nat b) input) as ->.
  { destruct (Z.le_gt_cases off (zlen input)); [by replace b with off by lia|].
    rewrite !drop_ge by (unfold zlen in *; lia). done. }
  assert (zlen (drop (Z.to_nat b) input) = zlen input - b) as Hlen.
  { unfold zlen in *. rewrite length_drop. lia. }
  set (src := drop (Z.to_nat b) input) in *.
  set (dst' := if 0 <? cs then _ else dst).
  assert (dst' = take (Z.to_nat cs) src ++ drop (Z.to_nat cs) dst) as ->.
  { unfold dst'. destruct (Z.ltb_spec 0 cs).
    - unfold go_copy. rewrite take_ge; rewrite length_take; unfold zlen in *; [|lia].
      f_equal. f_equal. lia.
    - replace (Z.to_nat cs) with 0%nat by lia. done. }
  assert (length (take (Z.to_nat cs) src) = Z.to_nat cs) as Htk.
  { rewrite length_take. unfold zlen in *. lia. }
  destruct (Z.ltb_spec 0 (size - cs)).
  - assert (cs = zlen src) as Ecs by lia.
    rewrite zero_fill_spec; [|lia|unfold zlen in *; rewrite length_app, Htk, length_drop; lia].
    rewrite take_app_length' by done. rewrite drop_app, drop_drop, Htk.
    rewrite (drop_ge (take _ _)) by lia.
    rewrite take_ge by (unfold zlen in *; lia).
    rewrite resize_ge by (unfold zlen in *; lia). rewrite <- app_assoc.
    f_equal. f_equal. f_equal; [f_equal; unfold zlen in *; lia|]. simpl. f_equal. unfold zlen in *; lia.
  - assert (cs = size) as -> by lia. rewrite resize_le by (unfold zlen in *; lia). done.
Qed.

(** ** MSTORE *)

Lemma be_encode_add m n x :
  0 ≤ x → be_encode (m + n) x = be_encode m (x / 256 ^ Z.of_nat n) ++ be_encode n x.
Proof.
  revert x. induction n as [|n IH]; intros x Hx.
  - by rewrite Nat.add_0_r, Z.div_1_r, app_nil_r.
  - rewrite Nat.add_succ_r. cbn [be_encode]. rewrite IH by (apply Z.div_pos; lia).
    rewrite Z.div_div, <- Z.pow_succ_r, <- Nat2Z.inj_succ, app_assoc by lia. done.
Qed.

Lemma mstore_word_spec n i d buf :
  (n ≤ i ≤ length buf)%nat →
  mstore_word n (Z.of_nat i) d buf =
    Some (Z.of_nat (i - n), take (i - n) buf ++ be_encode n d ++ drop i buf).
Proof.
  revert i d buf. induction n as [|n IH]; intros i d buf Hi.
  - rewrite Nat.sub_0_r. simpl. by rewrite take_drop.
  - cbn [mstore_word]. rewrite (proj2 (Z.ltb_ge _ 0)) by lia.
    replace (Z.of_nat i - 1) with (Z.of_nat (i - 1)) by lia.
    rewrite IH by (rewrite length_insert; lia). rewrite Nat2Z.id.
    rewrite Z.shiftr_div_pow2 by lia. change (2 ^ 8) with 256.
    replace (i - 1 - n)%nat with (i - S n)%nat by lia.
    cbn [be_encode]. rewrite take_insert_ge by lia. do 2 f_equal. f_equal.
    rewrite <- app_assoc. f_equal. simpl.
    rewrite (drop_S _ (d mod 256)) by (apply list_lookup_insert_eq; lia).
    f_equal. rewrite drop_insert_lt by lia. f_equal. lia.
Qed.

Lemma mstore_words_spec k i x buf :
  0 ≤ x → (8 * k ≤ i ≤ length buf)%nat →
  mstore_words (le_words k x) (Z.of_nat i) buf =
    Some (Z.of_nat (i - 8 * k), take (i - 8 * k) buf ++ be_encode (8 * k) x ++ drop i buf).
Proof.
  revert i x buf. induction k as [|k IH]; intros i x buf Hx Hi.
  - rewrite Nat.sub_0_r. simpl. by rewrite take_drop.
  - cbn [le_words mstore_words]. rewrite mstore_word_spec by lia.
    rewrite IH; [|apply Z.div_pos; lia|rewrite !length_app, length_take, length_be_encode, length_drop; lia].
    replace (8 * S k)%nat with (8 * k + 8)%nat by lia. rewrite be_encode_add by done.
    change (256 ^ Z.of_nat 8) with (2 ^ 64).
    rewrite <- (be_encode_mod 8 x). change (256 ^ Z.of_nat 8) with (2 ^ 64).
    replace (i - 8 - 8 * k)%nat with (i - (8 * k + 8))%nat by lia. do 2 f_equal.
    rewrite take_app_le by (rewrite length_take; lia).
    rewrite take_take, Nat.min_l by lia. f_equal.
    rewrite drop_app_length' by (rewrite length_take; lia). by rewrite <- app_assoc.
Qed.

Lemma mstore_zeros_spec n buf :
  (n ≤ length buf)%nat → mstore_zeros n buf = replicate n 0 ++ drop n buf.
Proof.
  revert buf. induction n as [|n IH]; intros buf Hn; [done|].
  cbn [mstore_zeros]. rewrite IH by (rewrite length_insert; lia).
  rewrite replicate_S_end, <- app_assoc. f_equal.
  rewrite (drop_S _ 0) by (apply list_lookup_insert_eq; lia). simpl. f_equal.
  by rewrite drop_insert_lt by lia.
Qed.

Lemma be_encode_small m n x :
  0 ≤ x < 256 ^ Z.of_nat n → be_encode (m + n) x = replicate m 0 ++ be_encode n x.
Proof.
  intros Hx. rewrite be_encode_add, Z.div_small by lia. f_equal.
  induction m; [done|]. cbn [be_encode]. by rewrite replicate_S_end, Z.div_0_l, IHm by lia.
Qed.

Lemma mstore_buf_spec v buf :
  u256 v → length buf = 32%nat → mstore_buf v buf = Some (be_encode 32 v).
Proof.
  intros Hv Hb. pose proof (BitLen_u256 _ Hv) as Hl. pose proof (BitLen_nonneg v).
  unfold mstore_buf, Bits. set (k := Z.to_nat ((BitLen v + 63) / 64)).
  pose proof (Z.div_mod (BitLen v + 63) 64 ltac:(lia)). pose proof (Z.mod_pos_bound (BitLen v + 63) 64 ltac:(lia)).
  assert (k ≤ 4)%nat by lia. destruct Hv as [Hv _]. rewrite Z.abs_eq by done.
  rewrite (mstore_words_spec k 32) by lia.
  rewrite Nat2Z.id, mstore_zeros_spec by (rewrite !length_app, length_take; lia).
  rewrite drop_app_length' by (rewrite length_take; lia).
  rewrite (drop_ge buf) by lia. rewrite app_nil_r.
  rewrite <- be_encode_small; [do 2 f_equal; lia|]. split; [done|].
  rewrite <- (Z.abs_eq v) at 1 by done. rewrite pow256 by lia. apply BitLen_spec; lia.
Qed.
