(* ===== verification/EvmLogic.v ===== *)
(** * Reasoning about the virtual machine

    A weakest-precondition calculus for the monad [M] (a computation that
    satisfies [wp m Q s] ends in a state where [Q] holds, or panics and the
    proposition [panic_post] holds: with [False] for it the computation
    cannot panic, with [True] the rules speak of the computations that
    return), the well-formedness invariant [wf] of the machine state, the
    order [frame] between the states before and after an instruction, and
    the rules for gas and memory that every instruction's proof uses. *)

From S2P Require Import Prelude BigInt Chain Types Runtime EvmOpcodes EvmState EvmInstructions.
#[local] Open Scope evm_scope.

(** The price of [w] words of memory, as the source computes it. *)
Definition memCost (w : Z) : Z := u64 (u64 (3 * w) + u64 (w * w) / 512).

Record contract_ok (c : Contract) : Prop := {
  co_address : addr_ok (cAddress c);
  co_caller : addr_ok (Caller c);
  co_value : match Value c with Some v => u256 v | None => True end;
  co_input : bytes_ok (Input c);
  co_inputlen : zlen (Input c) < 2 ^ 63;
}.

#[global] Arguments bind : simpl never.
#[global] Arguments deref : simpl never.

(** What is known when a computation panics. *)
Class PanicPost := panic_post : Prop.

Section logic.
Context {H : Type} `{!Host H, !HostLaws H, !GoRuntime, !Keccak, !Fastrlp} {PP : PanicPost}.
Implicit Types s : state H.

Definition wp {A} (m : M H A) (Q : A → state H → Prop) s : Prop :=
  match m s with
  | Some (a, s') => Q a s'
  | None => panic_post
  end.

#[global] Arguments wp : simpl never.

Lemma wp_bind {A B} (m : M H A) (f : A → M H B) Q s :
  wp m (λ a s', wp (f a) Q s') s → wp (bind m f) Q s.
Proof. unfold wp, bind. destruct (m s) as [[a s']|]; auto. Qed.

Lemma wp_pure {A} (a : A) (Q : A → state H → Prop) s : Q a s → wp (pure a) Q s.
Proof. auto. Qed.

Lemma wp_gets {A} (f : state H → A) Q s : Q (f s) s → wp (gets f) Q s.
Proof. auto. Qed.

Lemma wp_modify f (Q : unit → state H → Prop) s : Q tt (f s) → wp (modify f) Q s.
Proof. auto. Qed.

Lemma wp_deref {A} (p : option A) (x : A) Q s : p = Some x → Q x s → wp (deref p) Q s.
Proof. intros ->. auto. Qed.

Lemma wp_mono {A} (m : M H A) (Q Q' : A → state H → Prop) s :
  wp m Q s → (∀ a s', Q a s' → Q' a s') → wp m Q' s.
Proof. unfold wp. destruct (m s) as [[a s']|]; auto. Qed.

Lemma wp_pop x st (Q : option Z → state H → Prop) s :
  stack s = x :: st → Q (Some x) (set_stack st s) → wp pop Q s.
Proof. intros E HQ. unfold wp, pop. by rewrite E. Qed.

Lemma wp_popHash x st (Q : Hash → state H → Prop) s :
  stack s = x :: st → Q (bigToHash x) (set_stack st s) → wp popHash Q s.
Proof. intros E HQ. unfold wp, popHash, bind, pop, pure, deref. by rewrite E. Qed.

Lemma wp_popAddr x st (Q : Address → state H → Prop) s :
  stack s = x :: st → Q (BytesToAddress (Bytes x)) (set_stack st s) → wp popAddr Q s.
Proof. intros E HQ. unfold wp, popAddr, bind, pop. by rewrite E. Qed.

Lemma wp_top x st (Q : option Z → state H → Prop) s :
  stack s = x :: st → Q (Some x) s → wp top Q s.
Proof. intros E HQ. unfold wp, top, gets. by rewrite E. Qed.

Lemma wp_settop v x st (Q : unit → state H → Prop) s :
  stack s = x :: st → Q tt (set_stack (v :: st) s) → wp (settop v) Q s.
Proof. intros E HQ. unfold wp, settop. by rewrite E. Qed.

(** ** The invariant *)

Record wf s : Prop := {
  wf_words : ip s < zlen (code s) → Forall u256 (stack s);
  wf_mem : bytes_ok (memory s);
  wf_memmod : zlen (memory s) mod 32 = 0;
  wf_memmax : zlen (memory s) ≤ 2 ^ 41;
  wf_cap : zlen (memory s) ≤ memcap s;
  wf_cost : stop s = false → lastGasCost s = memCost (zlen (memory s) / 32);
  wf_gas : 0 ≤ gas s < 2 ^ 64;
  wf_code : bytes_ok (code s);
  wf_codelen : zlen (code s) < 2 ^ 62;
  wf_bitmap : ∀ i, 0 ≤ i < zlen (code s) → is_Some (isSet (bitmap s) i);
  wf_msg : contract_ok (msg s);
  wf_returnData : bytes_ok (returnData s);
  wf_returnDataLen : zlen (returnData s) < 2 ^ 63;
  wf_ret : bytes_ok (ret s);
  wf_ip : -1 ≤ ip s;
  wf_rules : EIP150 (config s) = true;
}.

(** What every operation keeps: the code, the message, the rules and the
    bitmap do not change, gas never increases and memory never shrinks. *)
Record frame s s' : Prop := {
  fr_code : code s' = code s;
  fr_msg : msg s' = msg s;
  fr_config : config s' = config s;
  fr_bitmap : bitmap s' = bitmap s;
  fr_gas : gas s' ≤ gas s;
  fr_mem : zlen (memory s) ≤ zlen (memory s');
  fr_cap : memcap s ≤ memcap s';
}.

#[export] Instance frame_preorder : PreOrder frame.
Proof.
  split.
  - intros s. split; done.
  - intros s1 s2 s3 [] []. split; congruence || lia.
Qed.

(** A gas or memory operation also leaves the rest of the state alone. *)
Record mem_step s s' : Prop := {
  ms_frame : frame s s';
  ms_ip : ip s' = ip s;
  ms_host : host s' = host s;
  ms_stack : stack s' = stack s;
  ms_returnData : returnData s' = returnData s;
  ms_ret : ret s' = ret s;
}.

Lemma mem_step_trans s1 s2 s3 : mem_step s1 s2 → mem_step s2 s3 → mem_step s1 s3.
Proof. intros [] []. split; [by etrans|congruence..]. Qed.

(** ** Gas *)

Lemma wp_consumeGas g s (Q : bool → state H → Prop) :
  wf s → 0 ≤ g →
  (∀ s', mem_step s s' → wf s' → memory s' = memory s → memcap s' = memcap s → gas s' = gas s - g →
     stop s' = stop s → err s' = err s → Q true s') →
  (∀ s', mem_step s s' → wf s' → stop s' = true → Q false s') →
  wp (consumeGas g) Q s.
Proof.
  intros [] Hg Hok Hko. unfold consumeGas. apply wp_bind, wp_modify, wp_bind, wp_gets. cbn.
  destruct (Z.ltb_spec (gas s) g).
  - apply wp_bind, wp_modify, wp_pure, Hko; [| |done].
    + repeat (split; try done).
    + split; try done.
  - apply wp_bind, wp_modify, wp_pure, Hok; try done.
    + repeat (split; try done). cbn. lia.
    + split; try done. cbn. lia.
Qed.

(** ** Memory *)

(** The range an access of [sz] bytes at [o] needs is in memory. *)
Definition allocated (o sz : Z) s : Prop :=
  0 ≤ o < 2 ^ 64 ∧ 0 ≤ sz < 2 ^ 64 ∧
  (sz ≠ 0 → o ≤ 0xffffffffe0 ∧ sz ≤ 0xffffffffe0 ∧ o + sz ≤ zlen (memory s)).

Lemma zlen_resize {A} n (x : A) l : 0 ≤ n → zlen (resize (Z.to_nat n) x l) = n.
Proof. intros. unfold zlen. rewrite length_resize. lia. Qed.

Lemma bytes_ok_resize n l : bytes_ok l → bytes_ok (resize n 0 l).
Proof. intros. apply Forall_resize; [split; lia|done]. Qed.

(** Growing the memory to [w] words and paying for it. *)
Lemma grow_wf s w cap :
  wf s → 0 ≤ w → zlen (memory s) ≤ w * 32 ≤ 2 ^ 41 → w * 32 ≤ cap →
  lastGasCost s = memCost w →
  wf (set_memory (resize (Z.to_nat (w * 32)) 0 (memory s)) cap s).
Proof.
  intros [] Hw Hmax Hcap Hlast. split; cbn; try done; rewrite ?zlen_resize by lia.
  - by apply bytes_ok_resize.
  - by rewrite Z.mod_mul.
  - lia.
  - lia.
  - intros _. by rewrite Z.div_mul.
Qed.

Lemma wf_exit e s : wf s → wf (set_exit e s).
Proof. intros []. split; done. Qed.

Lemma mem_step_exit e s : mem_step s (set_exit e s).
Proof. repeat (split; try done). Qed.

Lemma mem_step_refl s : mem_step s s.
Proof. repeat (split; try done). Qed.

Lemma wp_exit e (Q : unit → state H → Prop) s : Q tt (set_exit e s) → wp (exit e) Q s.
Proof. auto. Qed.

(** Paying for [w] words before the memory is grown: [lastGasCost] is
    ahead of the memory, everything else is as in the invariant. *)
Lemma wp_pay w s (Q : bool → state H → Prop) :
  wf s → 0 ≤ w → zlen (memory s) ≤ w * 32 ≤ 2 ^ 41 →
  (∀ s', mem_step s s' → wf s' → zlen (memory s') = w * 32 →
     stop s' = stop s → Q true s') →
  (∀ s', mem_step s s' → wf s' → stop s' = true → Q false s') →
  wp (last ← gets lastGasCost;
      let cost := u64 (memCost w - last) in
      modify (set_lastGasCost (memCost w));;
      ok ← consumeGas cost;
      if negb ok then exit ErrOutOfGas;; pure false else
      extendByteSlice (u64 (w * 32));;
      pure true) Q s.
Proof.
  intros [] Hw Hmax Hok Hko. apply wp_bind, wp_gets, wp_bind, wp_modify, wp_bind. cbn.
  set (cost := u64 _). pose proof (u64_range (memCost w - lastGasCost s)) as Hcost.
  unfold consumeGas. apply wp_bind, wp_modify, wp_bind, wp_gets. cbn.
  destruct (Z.ltb_spec (gas s) cost).
  - apply wp_bind, wp_modify, wp_pure. cbn. apply wp_bind, wp_exit, wp_pure, Hko; [| |done].
    + repeat (split; try done).
    + split; try done.
  - apply wp_bind, wp_modify, wp_pure. cbn. apply wp_bind, wp_modify, wp_pure.
    rewrite (u64_small (w * 32)) by lia.
    set (cap := if _ <? _ then _ else _).
    assert (w * 32 ≤ cap ∧ memcap s ≤ cap) as [Hc1 Hc2].
    { unfold cap. cbn. pose proof (growslice_ge (memcap s) (w * 32)).
      destruct (Z.ltb_spec (memcap s) (w * 32)); lia. }
    assert (bytes_ok (resize (Z.to_nat (w * 32)) 0 (memory s))) by by apply bytes_ok_resize.
    pose proof (zlen_resize (w * 32) 0 (memory s) ltac:(lia)) as Hlen.
    apply Hok; cbn; try done.
    + repeat (split; try done); cbn; rewrite ?Hlen; lia.
    + split; cbn; rewrite ?Hlen; try done; try lia.
      * by rewrite Z.mod_mul.
      * intros _. by rewrite Z.div_mul.
Qed.

Lemma wp_allocateMemory o sz s (Q : bool → state H → Prop) :
  wf s → 0 ≤ o → 0 ≤ sz →
  (∀ s', mem_step s s' → wf s' → allocated o sz s' → stop s' = stop s → Q true s') →
  (∀ s', mem_step s s' → wf s' → stop s' = true → Q false s') →
  wp (allocateMemory (Some o) (Some sz)) Q s.
Proof.
  intros Hwf Ho Hsz Hok Hko. pose proof Hwf as [].
  unfold allocateMemory. apply wp_bind, (wp_deref _ o); [done|].
  destruct (IsUint64 o) eqn:Eo; simpl;
    [apply IsUint64_spec in Eo | apply wp_bind, wp_exit, wp_pure, Hko; auto using mem_step_exit, wf_exit].
  apply wp_bind, (wp_deref _ sz); [done|].
  destruct (IsUint64 sz) eqn:Es; simpl;
    [apply IsUint64_spec in Es | apply wp_bind, wp_exit, wp_pure, Hko; auto using mem_step_exit, wf_exit].
  destruct (Z.eqb_spec sz 0) as [->|Hnz].
  { apply wp_pure, Hok; auto using mem_step_refl. repeat split; lia. }
  rewrite !Uint64_small by done.
  destruct ((0xffffffffe0 <? o) || (0xffffffffe0 <? sz)) eqn:Eb;
    [apply wp_bind, wp_exit, wp_pure, Hko; auto using mem_step_exit, wf_exit |].
  apply orb_false_iff in Eb as [Eb1 Eb2]. apply Z.ltb_ge in Eb1, Eb2.
  apply wp_bind, wp_gets. rewrite (u64_small (o + sz)) by lia.
  destruct (Z.ltb_spec (zlen (memory s)) (o + sz)) as [Hlt|Hge].
  - rewrite (u64_small (o + sz + 31)) by lia.
    pose proof (Z.div_mod (o + sz + 31) 32 ltac:(lia)).
    pose proof (Z.mod_pos_bound (o + sz + 31) 32 ltac:(lia)).
    apply (wp_pay ((o + sz + 31) / 32)); try done; try lia.
    intros s' Hs' Hwf' Hlen Hst. apply Hok; try done. repeat split; try lia.
  - apply wp_pure, Hok; auto using mem_step_refl. repeat split; lia.
Qed.

(** An access inside the memory costs nothing and changes nothing. *)
Lemma wp_allocated o sz s (Q : bool → state H → Prop) :
  allocated o sz s → Q true s → wp (allocateMemory (Some o) (Some sz)) Q s.
Proof.
  intros (Ho & Hs & Ha) HQ. unfold allocateMemory. apply wp_bind, (wp_deref _ o); [done|].
  rewrite (proj2 (IsUint64_spec o)) by done. apply wp_bind, (wp_deref _ sz); [done|].
  rewrite (proj2 (IsUint64_spec sz)) by done. simpl.
  destruct (Z.eqb_spec sz 0); [by apply wp_pure|]. rewrite !Uint64_small by done. specialize (Ha n).
  rewrite !(proj2 (Z.ltb_ge _ _)) by lia. apply wp_bind, wp_gets.
  rewrite u64_small, (proj2 (Z.ltb_ge _ _)) by lia. by apply wp_pure.
Qed.

(** A slice of memory inside its length. *)
Lemma wp_sliceMemory lo hi s (Q : list Z → state H → Prop) :
  wf s → 0 ≤ lo ≤ hi → hi ≤ memcap s →
  (∀ l, bytes_ok l → zlen l = hi - lo → l = resize (Z.to_nat (hi - lo)) 0 (drop (Z.to_nat lo) (memory s)) → Q l s) →
  wp (sliceMemory lo hi) Q s.
Proof.
  intros [] Hlo Hhi HQ. unfold wp, sliceMemory.
  rewrite (proj2 (Z.leb_le lo hi)), (proj2 (Z.leb_le hi _)) by lia. simpl.
  apply HQ; [|rewrite zlen_resize by lia; lia|done].
  by apply bytes_ok_resize, Forall_drop.
Qed.

(** The slice expressions that do panic out of range. *)
Lemma wp_updateMemoryFrom_panic lo f (Q : unit → state H → Prop) s :
  panic_post → zlen (memory s) < lo → wp (updateMemoryFrom lo f) Q s.
Proof. intros HP Hlo. unfold wp, updateMemoryFrom. by rewrite (proj2 (Z.leb_gt lo _)). Qed.

Lemma wp_copyMemory_panic lo hi d (Q : unit → state H → Prop) s :
  panic_post → memcap s < hi → wp (copyMemory lo hi d) Q s.
Proof. intros HP Hlo. unfold wp, copyMemory. by rewrite (proj2 (Z.leb_gt hi _)), andb_false_r. Qed.

Lemma wp_get2 o l s (Q : list Z * bool → state H → Prop) :
  wf s → 0 ≤ o → 0 ≤ l →
  (∀ s' d, mem_step s s' → wf s' → bytes_ok d → zlen d = l → l < 2 ^ 63 →
     (l ≠ 0 → allocated o l s') → stop s' = stop s →
     d = resize (Z.to_nat l) 0 (drop (Z.to_nat o) (memory s')) → Q (d, true) s') →
  (∀ s', mem_step s s' → wf s' → stop s' = true → Q ([], false) s') →
  wp (get2 (Some o) (Some l)) Q s.
Proof.
  intros Hwf Ho Hl Hok Hko. unfold get2. apply wp_bind, (wp_deref _ l); [done|].
  destruct (Z.eqb_spec l 0) as [->|Hnz].
  { apply wp_pure, Hok; try done; [by apply Forall_nil|by rewrite resize_0]. }
  apply wp_bind, wp_allocateMemory; try done.
  - intros s' Hs' Hwf' Ha Hst. simpl. pose proof Ha as (Ho' & Hl' & Ha').
    specialize (Ha' Hnz). pose proof (wf_cap _ Hwf').
    pose proof (wf_memmax _ Hwf').
    apply wp_bind, (wp_deref _ o); [done|]. rewrite !Uint64_small, (u64_small (o + l)) by lia.
    apply wp_bind, wp_sliceMemory; try done; try lia.
    replace (o + l - o) with l by lia.
    intros d Hd Hlen Ed. apply wp_pure, Hok; auto; lia.
Qed.
End logic.

(** A computation that meets an exact postcondition, without panics. *)
Lemma wp_exact {H A} (m : M H A) (s : state H) (a : A) (s' : state H) :
  wp (PP:=False) m (λ b t, b = a ∧ t = s') s → m s = Some (a, s').
Proof. unfold wp. destruct (m s) as [[??]|]; [by intros [-> ->]|done]. Qed.
