(* ===== verification/EvmSafety.v ===== *)
(** * Every instruction keeps the machine well-formed

    For each instruction: started in a well-formed running state whose stack
    is as deep as the dispatch table asks, it does not panic, it ends in a
    well-formed state, it changes neither code nor message nor rules, memory
    only grows, and gas does not increase (and for the instructions without
    a static price strictly decreases, unless the machine has stopped).

    The proofs are symbolic executions: [inv s0 st g s] describes the state
    [s] in the middle of an instruction that started in [s0] ([st] is the
    stack, [g] the gas used so far), each primitive has a rule that takes one
    such state to the next, and the tactic [evm] applies the rules. *)

From S2P Require Import Prelude BigInt Chain Types Runtime EvmOpcodes EvmState EvmInstructions EvmBuffers EvmLogic.
#[local] Open Scope evm_scope.

Section safety.
Context {H : Type} `{!Host H, !HostLaws H, !GoRuntime, !Keccak, !Fastrlp} {PP : PanicPost}.
Implicit Types s : state H.

(** After an instruction that has used at least [g] gas. *)
Record post (s0 : state H) (g : Z) s : Prop := {
  post_wf : wf s;
  post_frame : frame s0 s;
  post_gas : stop s = true ∨ gas s + g ≤ gas s0;
}.

(** In the middle of an instruction. *)
Record inv (s0 : state H) (st : list Z) (g : Z) s : Prop := {
  inv_wf : wf s;
  inv_frame : frame s0 s;
  inv_ip : ip s = ip s0;
  inv_ip0 : 0 ≤ ip s0 < zlen (code s0);
  inv_stop : stop s = false;
  inv_stack : stack s = st;
  inv_words : Forall u256 st;
  inv_gas : gas s + g ≤ gas s0;
  inv_gas0 : gas s0 < 2 ^ 64;
}.

(** The specification of an instruction that needs [n] stack entries and
    uses at least [g] gas, in the states where [P] holds. *)
Definition inst_ok_if (P : state H → Prop) (n g : Z) (i : instruction H) : Prop :=
  ∀ s, wf s → stop s = false → 0 ≤ ip s < zlen (code s) → n ≤ zlen (stack s) → P s →
  wp i (λ _, post s g) s.

Definition inst_ok : Z → Z → instruction H → Prop := inst_ok_if (λ _, True).

Lemma inv_start s : wf s → stop s = false → 0 ≤ ip s < zlen (code s) → inv s (stack s) 0 s.
Proof. intros Hwf ??. split; try done; [|lia|]; apply Hwf. lia. Qed.

Lemma inv_post s0 st g g' s : inv s0 st g s → g' ≤ g → post s0 g' s.
Proof. intros [] ?. split; try done. right. lia. Qed.

Lemma post_weaken s0 g g' s : post s0 g s → g' ≤ g → post s0 g' s.
Proof. intros [] ?. split; try done. destruct post_gas0; [by left|right; lia]. Qed.

Lemma inv_weaken s0 st g g' s : inv s0 st g s → g' ≤ g → inv s0 st g' s.
Proof. intros [] ?. split; try done. lia. Qed.

Lemma inv_config s0 st g s : inv s0 st g s → config s = config s0.
Proof. intros []. apply inv_frame0. Qed.

Lemma inv_len s0 st g s : inv s0 st g s → ip s < zlen (code s).
Proof. intros []. rewrite inv_ip1, (fr_code _ _ inv_frame0). lia. Qed.

Lemma wf_set_stack st s : wf s → (ip s < zlen (code s) → Forall u256 st) → wf (set_stack st s).
Proof. intros [] ?. split; done. Qed.

Lemma inv_set_stack s0 st st' g s : inv s0 st g s → Forall u256 st' → inv s0 st' g (set_stack st' s).
Proof.
  intros [] ?. split; try done; [by apply wf_set_stack|].
  etrans; [done|]. split; done.
Qed.

Lemma frame_set_stack st s : frame s (set_stack st s).
Proof. split; done. Qed.

Section rules.
Context (s0 : state H) (st : list Z) (g : Z) (s : state H).

Lemma i_pop x (Q : option Z → state H → Prop) :
  inv s0 (x :: st) g s →
  (∀ s', u256 x → inv s0 st g s' → frame s s' → Q (Some x) s') →
  wp pop Q s.
Proof.
  intros Hi HQ. pose proof (inv_words _ _ _ _ Hi) as Hw. inversion_clear Hw.
  eapply wp_pop; [by eapply inv_stack|]. apply HQ; [done|by eapply inv_set_stack|apply frame_set_stack].
Qed.

Lemma i_popHash x (Q : Hash → state H → Prop) :
  inv s0 (x :: st) g s →
  (∀ s', u256 x → inv s0 st g s' → frame s s' → Q (bigToHash x) s') →
  wp popHash Q s.
Proof.
  intros Hi HQ. pose proof (inv_words _ _ _ _ Hi) as Hw. inversion_clear Hw.
  eapply wp_popHash; [by eapply inv_stack|]. apply HQ; [done|by eapply inv_set_stack|apply frame_set_stack].
Qed.

Lemma i_popAddr x (Q : Address → state H → Prop) :
  inv s0 (x :: st) g s →
  (∀ s' a, addr_ok a → inv s0 st g s' → frame s s' → Q a s') →
  wp popAddr Q s.
Proof.
  intros Hi HQ. pose proof (inv_words _ _ _ _ Hi) as Hw. inversion_clear Hw.
  eapply wp_popAddr; [by eapply inv_stack|].
  apply HQ; [auto with word|by eapply inv_set_stack|apply frame_set_stack].
Qed.

Lemma i_top x (Q : option Z → state H → Prop) :
  inv s0 (x :: st) g s → (u256 x → Q (Some x) s) → wp top Q s.
Proof.
  intros Hi HQ. pose proof (inv_words _ _ _ _ Hi) as Hw. inversion_clear Hw.
  eapply wp_top; [by eapply inv_stack|]. auto.
Qed.

Lemma i_settop v x (Q : unit → state H → Prop) :
  inv s0 (x :: st) g s → u256 v → (∀ s', inv s0 (v :: st) g s' → Q tt s') → wp (settop v) Q s.
Proof.
  intros Hi Hv HQ. pose proof (inv_words _ _ _ _ Hi) as Hw. inversion_clear Hw.
  eapply wp_settop; [by eapply inv_stack|]. eapply HQ, inv_set_stack; [done|]. by constructor.
Qed.

Lemma i_push v (Q : unit → state H → Prop) :
  inv s0 st g s → u256 v → (∀ s', inv s0 (v :: st) g s' → frame s s' → Q tt s') → wp (push v) Q s.
Proof.
  intros Hi Hv HQ. pose proof (inv_words _ _ _ _ Hi). unfold push. apply wp_modify.
  rewrite (inv_stack _ _ _ _ Hi).
  eapply HQ; [|apply frame_set_stack]. eapply inv_set_stack; [done|]. by constructor.
Qed.

Lemma i_exit e (Q : unit → state H → Prop) :
  inv s0 st g s → (∀ s', (∀ g', post s0 g' s') → Q tt s') → wp (exit e) Q s.
Proof.
  intros [] HQ. apply wp_exit, HQ. intros g'. split; [by apply wf_exit| |by left].
  etrans; [done|]. split; done.
Qed.

Lemma i_halt (Q : unit → state H → Prop) :
  inv s0 st g s → (∀ s', (∀ g', post s0 g' s') → Q tt s') → wp Halt Q s.
Proof.
  intros [] HQ. apply wp_modify, HQ. intros g'. split; [destruct inv_wf0; split; done| |by left].
  etrans; [done|]. split; done.
Qed.

(** A gas or memory operation that succeeded, or stopped the machine. *)
Lemma inv_mem_step s' g' :
  inv s0 st g s → mem_step s s' → wf s' → stop s' = stop s → gas s' + g' ≤ gas s0 → inv s0 st g' s'.
Proof.
  intros [] [] Hwf Hst Hg. split; try done; congruence || (by etrans).
Qed.

Lemma post_mem_step s' :
  inv s0 st g s → mem_step s s' → wf s' → stop s' = true → ∀ g', post s0 g' s'.
Proof. intros [] [] Hwf Hst g'. split; [done| |by left]. by etrans. Qed.

Lemma i_consumeGas c (Q : bool → state H → Prop) :
  inv s0 st g s → 0 ≤ c →
  (∀ s', inv s0 st (g + c) s' → frame s s' → gas s' = gas s - c → Q true s') →
  (∀ s', (∀ g', post s0 g' s') → Q false s') →
  wp (consumeGas c) Q s.
Proof.
  intros Hi Hc Hok Hko. apply wp_consumeGas; [by eapply inv_wf|done| |].
  - intros s' Hms Hwf _ _ Hg Hst _. pose proof (inv_gas _ _ _ _ Hi).
    apply Hok; [eapply inv_mem_step; eauto; lia|apply Hms|done].
  - intros s' Hms Hwf Hst. apply Hko. by eapply post_mem_step.
Qed.

Lemma i_allocateMemory o sz (Q : bool → state H → Prop) :
  inv s0 st g s → u256 o → u256 sz →
  (∀ s', inv s0 st g s' → frame s s' → allocated o sz s' → Q true s') →
  (∀ s', (∀ g', post s0 g' s') → Q false s') →
  wp (allocateMemory (Some o) (Some sz)) Q s.
Proof.
  intros Hi [Ho _] [Hsz _] Hok Hko. apply wp_allocateMemory; [by eapply inv_wf|done|done| |].
  - intros s' Hms Hwf Ha Hst. pose proof (inv_gas _ _ _ _ Hi).
    pose proof (fr_gas _ _ (ms_frame _ _ Hms)).
    apply Hok; [eapply inv_mem_step; eauto; lia|apply Hms|done].
  - intros s' Hms Hwf Hst. apply Hko. by eapply post_mem_step.
Qed.

Lemma i_get2 o l (Q : list Z * bool → state H → Prop) :
  inv s0 st g s → u256 o → u256 l →
  (∀ s' d, inv s0 st g s' → frame s s' → bytes_ok d → zlen d = l → l < 2 ^ 63 →
     (l ≠ 0 → allocated o l s') → Q (d, true) s') →
  (∀ s', (∀ g', post s0 g' s') → Q ([], false) s') →
  wp (get2 (Some o) (Some l)) Q s.
Proof.
  intros Hi [Ho _] [Hl _] Hok Hko. apply wp_get2; [by eapply inv_wf|done|done| |].
  - intros s' d Hms Hwf Hd Hlen Hmax Ha Hst _. pose proof (inv_gas _ _ _ _ Hi).
    pose proof (fr_gas _ _ (ms_frame _ _ Hms)).
    apply Hok; try done; [eapply inv_mem_step; eauto; lia|apply Hms].
  - intros s' Hms Hwf Hst. apply Hko. by eapply post_mem_step.
Qed.

(** Overwriting part of the memory. *)
Lemma inv_set_memory m :
  inv s0 st g s → bytes_ok m → zlen m = zlen (memory s) →
  inv s0 st g (set_memory m (memcap s) s) ∧ frame s (set_memory m (memcap s) s).
Proof.
  intros [] Hm Hlen. split.
  - split; try done.
    + destruct inv_wf0. split; cbn; rewrite ?Hlen; done.
    + etrans; [done|]. split; cbn; rewrite ?Hlen; done.
  - split; cbn; rewrite ?Hlen; done.
Qed.

Lemma i_updateMemoryFrom lo f (Q : unit → state H → Prop) :
  inv s0 st g s → 0 ≤ lo ≤ zlen (memory s) →
  (∀ dst, bytes_ok dst → zlen dst = zlen (memory s) - lo →
     ∃ dst', f dst = Some dst' ∧ bytes_ok dst' ∧ zlen dst' = zlen dst) →
  (∀ s', inv s0 st g s' → frame s s' → Q tt s') →
  wp (updateMemoryFrom lo f) Q s.
Proof.
  intros Hi Hlo Hf HQ. unfold wp, updateMemoryFrom.
  rewrite (proj2 (Z.leb_le lo _)) by lia. pose proof (wf_mem _ (inv_wf _ _ _ _ Hi)) as Hm.
  destruct (Hf (drop (Z.to_nat lo) (memory s))) as (dst' & -> & Hd & Hl).
  { by apply Forall_drop. }
  { unfold zlen in *. rewrite length_drop. lia. }
  destruct (inv_set_memory (take (Z.to_nat lo) (memory s) ++ dst') Hi); [| |by apply HQ].
  - apply Forall_app. split; [by apply Forall_take|done].
  - unfold zlen in *. rewrite length_app, length_take. rewrite length_drop in Hl. lia.
Qed.

Lemma i_copyMemory lo hi d (Q : unit → state H → Prop) :
  inv s0 st g s → 0 ≤ lo ≤ hi → hi ≤ memcap s → bytes_ok d →
  (∀ s', inv s0 st g s' → frame s s' → Q tt s') →
  wp (copyMemory lo hi d) Q s.
Proof.
  intros Hi Hlo Hhi Hd HQ. unfold wp, copyMemory.
  rewrite (proj2 (Z.leb_le lo hi)), (proj2 (Z.leb_le hi _)) by lia. simpl.
  destruct (inv_set_memory (list_inserts (Z.to_nat lo) (take (Z.to_nat (hi - lo)) d) (memory s)) Hi);
    [| |by apply HQ].
  - apply Forall_inserts; [by eapply wf_mem, inv_wf|by apply Forall_take].
  - unfold zlen. by rewrite length_inserts.
Qed.

Lemma i_storeByte i b (Q : unit → state H → Prop) :
  inv s0 st g s → 0 ≤ i < zlen (memory s) → byte_ok b →
  (∀ s', inv s0 st g s' → frame s s' → Q tt s') →
  wp (storeByte i b) Q s.
Proof.
  intros Hi Hlt Hb HQ. unfold wp, storeByte. rewrite (proj2 (Z.ltb_lt i _)) by lia.
  destruct (inv_set_memory (<[Z.to_nat i := b]> (memory s)) Hi); [| |by apply HQ].
  - apply Forall_insert; [by eapply wf_mem, inv_wf|done].
  - unfold zlen. by rewrite length_insert.
Qed.

Lemma inv_set_host h : inv s0 st g s → inv s0 st g (set_host h s).
Proof.
  intros []. split; try done; [destruct inv_wf0; split; done|].
  etrans; [done|]. split; done.
Qed.

Lemma inv_set_returnData d :
  inv s0 st g s → bytes_ok d → zlen d < 2 ^ 63 → inv s0 st g (set_returnData d s).
Proof.
  intros [] Hd Hl. split; try done; [destruct inv_wf0; split; done|].
  etrans; [done|]. split; done.
Qed.

Lemma i_modify_host f (Q : unit → state H → Prop) :
  inv s0 st g s → (∀ s', inv s0 st g s' → frame s s' → Q tt s') →
  wp (modify (λ s, set_host (f s) s)) Q s.
Proof. intros Hi HQ. apply wp_modify, HQ; [by apply inv_set_host|split; done]. Qed.

Lemma i_hostSetStorage k v (Q : StorageStatus → state H → Prop) :
  inv s0 st g s → (∀ s' x, inv s0 st g s' → frame s s' → Q x s') → wp (hostSetStorage k v) Q s.
Proof.
  intros Hi HQ. unfold wp, hostSetStorage. destruct (SetStorage _ _ _ _ _) as [x h].
  apply HQ; [by apply inv_set_host|split; done].
Qed.

Lemma i_set_returnData d (Q : unit → state H → Prop) :
  inv s0 st g s → bytes_ok d → zlen d < 2 ^ 63 →
  (∀ s', inv s0 st g s' → frame s s' → Q tt s') → wp (modify (set_returnData d)) Q s.
Proof. intros Hi ?? HQ. apply wp_modify, HQ; [by apply inv_set_returnData|split; done]. Qed.

Lemma i_peekAt n v (Q : Z → state H → Prop) :
  inv s0 st g s → st !! (n - 1)%nat = Some v → (u256 v → Q v s) → wp (peekAt n) Q s.
Proof.
  intros Hi Hv HQ. apply wp_bind, wp_gets. rewrite (inv_stack _ _ _ _ Hi).
  apply (wp_deref _ v); [done|]. apply HQ.
  eapply (Forall_lookup_1 u256); [by eapply inv_words|done].
Qed.

Lemma i_swap n (Q : unit → state H → Prop) :
  inv s0 st g s → (n < length st)%nat → (∀ s' st', inv s0 st' g s' → Q tt s') → wp (swap n) Q s.
Proof.
  intros Hi Hn HQ. pose proof (inv_words _ _ _ _ Hi) as Hw.
  destruct (lookup_lt_is_Some_2 st n) as [b Hb]; [done|].
  destruct (lookup_lt_is_Some_2 st 0) as [a Ha]; [lia|].
  unfold swap. apply wp_bind, wp_gets. rewrite (inv_stack _ _ _ _ Hi).
  apply wp_bind, (wp_deref _ a); [done|]. apply wp_bind, wp_gets. rewrite (inv_stack _ _ _ _ Hi).
  apply wp_bind, (wp_deref _ b); [done|]. apply wp_modify. eapply HQ, inv_set_stack; [done|].
  rewrite (inv_stack _ _ _ _ Hi).
  apply Forall_insert; [apply Forall_insert|]; try done; by eapply (Forall_lookup_1 u256).
Qed.

Lemma i_validJumpdest d (Q : bool → state H → Prop) :
  inv s0 st g s → u256 d →
  (∀ b, (b = true → d < zlen (code s) ∧ isSet (bitmap s) d = Some true) → Q b s) →
  wp (validJumpdest (Some d)) Q s.
Proof.
  intros Hi [Hd _] HQ. pose proof (inv_wf _ _ _ _ Hi) as Hwf.
  unfold validJumpdest. apply wp_bind, (wp_deref _ d); [done|]. apply wp_bind, wp_gets.
  destruct (Z.leb_spec 63 (BitLen d)); simpl; [by apply wp_pure, HQ|].
  assert (d < 2 ^ 63).
  { assert (BitLen d ≤ 63) as Hb by lia. apply BitLen_spec in Hb; lia. }
  rewrite Uint64_small by lia. destruct (Z.leb_spec (zlen (code s)) d); [by apply wp_pure, HQ|].
  apply wp_bind, wp_gets. destruct (wf_bitmap _ Hwf d) as [b Hb]; [lia|].
  apply (wp_deref _ b); [done|]. apply HQ. intros ->. done.
Qed.

(** A jump, or the end of a push. *)
Lemma post_set_ip i :
  inv s0 st g s → -1 ≤ i → (∀ g', g' ≤ g → post s0 g' (set_ip i s)).
Proof.
  intros [] Hip g' Hg. split; [destruct inv_wf0; split; try done| |right; simpl; lia].
  - intros _. cbn. by rewrite inv_stack0.
  - etrans; [done|]. split; done.
Qed.

Lemma i_jumpTo d (Q : unit → state H → Prop) :
  inv s0 st g s → 0 ≤ d < zlen (code s) →
  (∀ s', ip s' = d - 1 → post s0 g s' → Q tt s') → wp (jumpTo d) Q s.
Proof.
  intros Hi Hd HQ. pose proof (wf_codelen _ (inv_wf _ _ _ _ Hi)). apply wp_modify.
  assert (i64 (u64 (Uint64 d - 1)) = d - 1) as ->.
  { rewrite Uint64_small by lia. destruct (Z.eq_dec d 0) as [->|]; [done|].
    rewrite u64_small, i64_small; lia. }
  apply HQ; [done|]. apply post_set_ip; [done|lia|lia].
Qed.

Lemma i_callHost c (Q : ExecutionResult → state H → Prop) :
  inv s0 st g s → 0 ≤ Gas c < 2 ^ 64 →
  (∀ r h, 0 ≤ GasLeft r ≤ Gas c → bytes_ok (ReturnValue r) → zlen (ReturnValue r) < 2 ^ 63 →
     inv s0 st g (set_host h s) → Q r (set_host h s)) →
  wp (callHost c) Q s.
Proof.
  intros Hi Hc HQ. unfold wp, callHost. pose proof (Callx_gas c (host s) Hc).
  pose proof (Callx_ret c (host s)) as [??]. destruct (Callx c (host s)) as [r h].
  apply HQ; try done. by apply inv_set_host.
Qed.

Lemma i_addGas x (Q : unit → state H → Prop) :
  inv s0 st g s → 0 ≤ x ≤ g → (∀ s', inv s0 st (g - x) s' → Q tt s') → wp (addGas x) Q s.
Proof.
  intros [] Hx HQ. apply wp_modify, HQ. pose proof (wf_gas _ inv_wf0).
  rewrite u64_small by lia. split; cbn; try done; try lia.
  - destruct inv_wf0; split; try done. cbn. lia.
  - destruct inv_frame0. split; try done. cbn. lia.
Qed.
End rules.

Lemma i_popTopics n s0 st g s (Q : list Hash → state H → Prop) :
  inv s0 st g s → (n ≤ length st)%nat →
  (∀ s' ts, inv s0 (drop n st) g s' → frame s s' → length ts = n → Forall hash_ok ts → Q ts s') →
  wp (popTopics n) Q s.
Proof.
  revert st s Q. induction n as [|n IH]; intros st s Q Hi Hn HQ.
  - apply wp_pure, HQ; auto. reflexivity.
  - destruct st as [|x st]; [simpl in Hn; lia|]. cbn [popTopics]. apply wp_bind.
    eapply i_pop; [done|]. intros s1 Hx Hi1 Hf1. apply wp_bind, (wp_deref _ x); [done|].
    apply wp_bind. eapply IH; [done|simpl in Hn; lia|].
    intros s2 ts Hi2 Hf2 Hlen Hts. apply wp_pure, HQ; [done|by etrans|simpl; lia|].
    constructor; [|done]. unfold bigToHash. auto with word.
Qed.

Lemma post_set_ret s0 r s : bytes_ok r → (∀ g, post s0 g s) → ∀ g, post s0 g (set_ret r s).
Proof.
  intros Hr Hp g. destruct (Hp g) as [Hwf Hf Hg]. split; [destruct Hwf; split; done| |done].
  etrans; [done|]. split; done.
Qed.

Lemma inv_set_ret s0 st g r s : bytes_ok r → inv s0 st g s → inv s0 st g (set_ret r s).
Proof.
  intros Hr []. split; try done; [destruct inv_wf0; split; done|].
  etrans; [done|]. split; done.
Qed.

Lemma allocated_frame o sz s s' : allocated o sz s → frame s s' → allocated o sz s'.
Proof.
  intros (Ho & Hs & Ha) Hf. split_and!; try lia. intros Hnz. specialize (Ha Hnz).
  pose proof (fr_mem _ _ Hf). lia.
Qed.

Lemma inst_ok_intro P n g i :
  (∀ s st, inv s st 0 s → n ≤ zlen st → P s → wp i (λ _, post s g) s) → inst_ok_if P n g i.
Proof. intros HP s Hwf Hst Hip Hn Hs. eapply HP; eauto using inv_start. Qed.
End safety.

(** ** Words *)

Lemma bytes_u256 d : bytes_ok d → zlen d ≤ 32 → u256 (SetBytes d).
Proof.
  intros Hd Hl. pose proof (be_decode_range d Hd). split; [apply H|].
  assert (256 ^ zlen d ≤ 2 ^ 256) by (change (2 ^ 256) with (256 ^ 32); apply Z.pow_le_mono_r; lia).
  unfold SetBytes. lia.
Qed.

Lemma u64_u256 x : u256 (u64 x).
Proof. pose proof (u64_range x). unfold u256. lia. Qed.

Lemma byte_u256 x : u256 (Z.land x 255).
Proof.
  change 255 with (Z.ones 8). rewrite Z.land_ones by lia.
  pose proof (Z.mod_pos_bound x (2 ^ 8)). unfold u256. lia.
Qed.

Lemma exp_word_u256 n d z x : u256 z → u256 x → u256 (exp_word n d z x).1 ∧ u256 (exp_word n d z x).2.
Proof.
  revert d z x. induction n; intros d z x Hz Hx; simpl; [done|].
  apply IHn; [case_match|]; auto with word.
Qed.

Lemma exp_words_u256 ds z x : u256 z → u256 x → u256 (exp_words ds z x).
Proof.
  revert z x. induction ds as [|d ds IH]; intros z x Hz Hx; cbn [exp_words]; [done|].
  pose proof (exp_word_u256 64 d z x Hz Hx) as [??]. destruct (exp_word 64 d z x). auto.
Qed.

Lemma small_u256 x : 0 ≤ x < 2 ^ 63 → u256 x.
Proof. unfold u256. lia. Qed.

Lemma if_u256 (b : bool) x y : u256 x → u256 y → u256 (if b then x else y).
Proof. by destruct b. Qed.

#[export] Hint Constants Opaque : word.
#[export] Hint Resolve bytes_u256 u64_u256 byte_u256 exp_words_u256 : word.
#[export] Hint Extern 1 (u256 (if _ then _ else _)) => (apply if_u256) : word.
#[export] Hint Extern 2 (u256 _) => (apply small_u256; unfold wordSize in *; lia) : word.
#[export] Hint Extern 2 (zlen _ ≤ 32) => (unfold wordSize in *; lia) : word.
#[export] Hint Resolve GetStorage_ok GetBalance_ok GetCodeHash_ok GetBlockHash_ok
  txctx_gasprice txctx_origin txctx_coinbase txctx_difficulty GetTxContext_ok : word.
#[export] Hint Extern 2 (u256 tt256m1) => (unfold u256, tt256m1, tt256; lia) : word.

(** ** The proof automation *)

Ltac word := first [assumption | solve [eauto 6 with word]].

(** Bounds of a gas price: a constant chosen by the rules, or a wrapped sum. *)
Ltac gas_bound :=
  first
    [ lia
    | repeat match goal with
      | |- context [u64 ?x] => let y := fresh "g" in pose proof (u64_range x); set (y := u64 x) in *; clearbody y
      end; repeat case_match; lia ].

Ltac evm_step :=
  lazymatch goal with
  | |- wp (bind _ _) _ _ => apply wp_bind
  | |- wp (pure _) _ _ => apply wp_pure
  | |- wp skip _ _ => apply wp_pure
  | |- wp (gets _) _ _ => apply wp_gets
  | |- wp inStaticCall _ _ => apply wp_gets
  | |- wp (stackAtLeast _) _ _ => apply wp_gets
  | |- wp (deref (Some _)) _ _ => eapply wp_deref; [reflexivity|]
  | |- wp pop _ _ => eapply i_pop; [eassumption|intros ? ? ? ?]
  | |- wp popHash _ _ => eapply i_popHash; [eassumption|intros ? ? ? ?]
  | |- wp popAddr _ _ => eapply i_popAddr; [eassumption|intros ? ? ? ? ?]
  | |- wp top _ _ => eapply i_top; [eassumption|intros ?]
  | |- wp (settop _) _ _ => eapply i_settop; [eassumption|word|intros ? ?]
  | |- wp (push _) _ _ => eapply i_push; [eassumption|word|intros ? ? ?]
  | |- wp (exit _) _ _ => eapply i_exit; [eassumption|intros ? ?]
  | |- wp Halt _ _ => eapply i_halt; [eassumption|intros ? ?]
  | |- wp (consumeGas _) _ _ =>
      eapply i_consumeGas; [eassumption|gas_bound|intros ? ? ? ?|intros ? ?]
  | |- wp (allocateMemory (Some _) (Some _)) _ _ =>
      eapply i_allocateMemory; [eassumption|word|word|intros ? ? ? ?|intros ? ?]
  | |- wp (get2 (Some _) (Some _)) _ _ =>
      eapply i_get2; [eassumption|word|word|intros ? ? ? ? ? ? ? ?|intros ? ?]
  | |- wp (modify (λ _, set_host _ _)) _ _ => eapply i_modify_host; [eassumption|intros ? ? ?]
  | |- wp (hostSetStorage _ _) _ _ => eapply i_hostSetStorage; [eassumption|intros ? ? ? ?]
  | |- wp (modify (set_returnData _)) _ _ =>
      eapply i_set_returnData; [eassumption|assumption|assumption|intros ? ? ?]
  | |- wp resetReturnData _ _ =>
      eapply i_set_returnData; [eassumption|by apply Forall_nil|done|intros ? ? ?]
  | |- wp (addGas _) _ _ => eapply i_addGas; [eassumption|lia|intros ? ?]
  | |- wp (if ?b then _ else _) _ _ => destruct b eqn:?; try discriminate
  | |- wp (match ?x with _ => _ end) _ _ => destruct x eqn:?
  | |- post _ _ _ =>
      first [ solve [eauto] | eapply inv_post; [eassumption|gas_bound] ]
  end; cbn beta iota delta [negb andb orb].

Ltac evm := repeat evm_step.

(** Start an instruction that needs the top [n] entries of the stack. *)
Tactic Notation "evm_start" int_or_var(n) :=
  apply inst_ok_intro; intros s st Hi Hdepth HP;
  do n (destruct st as [|? st]; [exfalso; unfold zlen in Hdepth; simpl in Hdepth; lia|]);
  clear Hdepth.

