(* ===== verification/EvmInstOk.v ===== *)
(** * Each instruction meets its specification

    One lemma per instruction: [inst_ok n g i] for the stack depth [n] the
    dispatch table asks for and the least gas [g] the instruction charges
    itself. The copies of return data ([RETURNDATACOPY], the call family)
    need the condition under which their Go slice expression is in range. *)

From S2P Require Import Prelude BigInt Chain Types Runtime EvmOpcodes EvmState EvmInstructions EvmBuffers.
From S2P Require Import EvmLogic EvmSafety.
#[local] Open Scope evm_scope.

Tactic Notation "inst_proof" int_or_var(n) reference(op) := evm_start n; unfold op; evm.

Section simple.
Context {H : Type} `{!Host H, !HostLaws H, !GoRuntime, !Keccak, !Fastrlp} {PP : PanicPost}.
Implicit Types s : state H.

Lemma opAdd_ok : inst_ok 2 0 (opAdd (H:=H)).
Proof. inst_proof 2 opAdd. Qed.
Lemma opMul_ok : inst_ok 2 0 (opMul (H:=H)).
Proof. inst_proof 2 opMul. Qed.
Lemma opSub_ok : inst_ok 2 0 (opSub (H:=H)).
Proof. inst_proof 2 opSub. Qed.
Lemma opDiv_ok : inst_ok 2 0 (opDiv (H:=H)).
Proof. inst_proof 2 opDiv. Qed.
Lemma opSDiv_ok : inst_ok 2 0 (opSDiv (H:=H)).
Proof. inst_proof 2 opSDiv. Qed.
Lemma opMod_ok : inst_ok 2 0 (opMod (H:=H)).
Proof. inst_proof 2 opMod. Qed.
Lemma opSMod_ok : inst_ok 2 0 (opSMod (H:=H)).
Proof. inst_proof 2 opSMod. Qed.
Lemma opExp_ok : inst_ok 2 0 (opExp (H:=H)).
Proof. inst_proof 2 opExp. Qed.
Lemma opAddMod_ok : inst_ok 3 0 (opAddMod (H:=H)).
Proof. inst_proof 3 opAddMod. Qed.
Lemma opMulMod_ok : inst_ok 3 0 (opMulMod (H:=H)).
Proof. inst_proof 3 opMulMod. Qed.
Lemma opAnd_ok : inst_ok 2 0 (opAnd (H:=H)).
Proof. inst_proof 2 opAnd. Qed.
Lemma opOr_ok : inst_ok 2 0 (opOr (H:=H)).
Proof. inst_proof 2 opOr. Qed.
Lemma opXor_ok : inst_ok 2 0 (opXor (H:=H)).
Proof. inst_proof 2 opXor. Qed.
Lemma opByte_ok : inst_ok 2 0 (opByte (H:=H)).
Proof. inst_proof 2 opByte. Qed.
Lemma opNot_ok : inst_ok 1 0 (opNot (H:=H)).
Proof. inst_proof 1 opNot. Qed.
Lemma opIsZero_ok : inst_ok 1 0 (opIsZero (H:=H)).
Proof. inst_proof 1 opIsZero. Qed.
Lemma opEq_ok : inst_ok 2 0 (opEq (H:=H)).
Proof. inst_proof 2 opEq. Qed.
Lemma opLt_ok : inst_ok 2 0 (opLt (H:=H)).
Proof. inst_proof 2 opLt. Qed.
Lemma opGt_ok : inst_ok 2 0 (opGt (H:=H)).
Proof. inst_proof 2 opGt. Qed.
Lemma opSlt_ok : inst_ok 2 0 (opSlt (H:=H)).
Proof. inst_proof 2 opSlt. Qed.
Lemma opSgt_ok : inst_ok 2 0 (opSgt (H:=H)).
Proof. inst_proof 2 opSgt. Qed.
Lemma opShl_ok : inst_ok 2 0 (opShl (H:=H)).
Proof. inst_proof 2 opShl. Qed.
Lemma opShr_ok : inst_ok 2 0 (opShr (H:=H)).
Proof. inst_proof 2 opShr. Qed.
Lemma opSar_ok : inst_ok 2 0 (opSar (H:=H)).
Proof. inst_proof 2 opSar. Qed.

(** With a single entry on the stack SIGNEXTEND finds nothing under it and
    returns; the dispatch table lets it run. *)
Lemma opSignExtension_ok : inst_ok 1 0 (opSignExtension (H:=H)).
Proof.
  evm_start 1. unfold opSignExtension. apply wp_bind. eapply i_pop; [done|]. intros s1 Hu Hi1 Hf.
  apply wp_bind, wp_gets. rewrite (inv_stack _ _ _ _ Hi1). apply wp_bind, (wp_deref _ z); [done|].
  destruct (wordSize <? z); [evm|]. destruct st; simpl; evm.
Qed.

Lemma opMload_ok : inst_ok 1 0 (opMload (H:=H)).
Proof. inst_proof 1 opMload. Qed.
Lemma opSload_ok : inst_ok 1 1 (opSload (H:=H)).
Proof. inst_proof 1 opSload. Qed.
Lemma opSha3_ok : inst_ok 2 0 (opSha3 (H:=H)).
Proof. inst_proof 2 opSha3. Qed.
Lemma opPop_ok : inst_ok 1 0 (opPop (H:=H)).
Proof. inst_proof 1 opPop. Qed.
Lemma opBalance_ok : inst_ok 1 1 (opBalance (H:=H)).
Proof. inst_proof 1 opBalance. Qed.
Lemma opSelfBalance_ok : inst_ok 0 0 (opSelfBalance (H:=H)).
Proof. inst_proof 0 opSelfBalance. Qed.
Lemma opChainID_ok : inst_ok 0 0 (opChainID (H:=H)).
Proof. inst_proof 0 opChainID. Qed.
Lemma opOrigin_ok : inst_ok 0 0 (opOrigin (H:=H)).
Proof. inst_proof 0 opOrigin. Qed.
Lemma opCallDataSize_ok : inst_ok 0 0 (opCallDataSize (H:=H)).
Proof. inst_proof 0 opCallDataSize. Qed.
Lemma opCodeSize_ok : inst_ok 0 0 (opCodeSize (H:=H)).
Proof. inst_proof 0 opCodeSize. Qed.
Lemma opExtCodeSize_ok : inst_ok 1 1 (opExtCodeSize (H:=H)).
Proof. inst_proof 1 opExtCodeSize. Qed.
Lemma opGasPrice_ok : inst_ok 0 0 (opGasPrice (H:=H)).
Proof. inst_proof 0 opGasPrice. Qed.
Lemma opReturnDataSize_ok : inst_ok 0 0 (opReturnDataSize (H:=H)).
Proof. inst_proof 0 opReturnDataSize. Qed.
Lemma opExtCodeHash_ok : inst_ok 1 1 (opExtCodeHash (H:=H)).
Proof. inst_proof 1 opExtCodeHash. Qed.
Lemma opPC_ok : inst_ok 0 0 (opPC (H:=H)).
Proof. inst_proof 0 opPC. Qed.
Lemma opMSize_ok : inst_ok 0 0 (opMSize (H:=H)).
Proof. inst_proof 0 opMSize. Qed.
Lemma opCoinbase_ok : inst_ok 0 0 (opCoinbase (H:=H)).
Proof. inst_proof 0 opCoinbase. Qed.
Lemma opDifficulty_ok : inst_ok 0 0 (opDifficulty (H:=H)).
Proof. inst_proof 0 opDifficulty. Qed.
Lemma opBlockHash_ok : inst_ok 1 0 (opBlockHash (H:=H)).
Proof. inst_proof 1 opBlockHash. Qed.
Lemma opJumpDest_ok : inst_ok 0 0 (opJumpDest (H:=H)).
Proof. inst_proof 0 opJumpDest. Qed.
Lemma opStop_ok : inst_ok 0 1 (opStop (H:=H)).
Proof. inst_proof 0 opStop. Qed.
End simple.

Section context.
Context {H : Type} `{!Host H, !HostLaws H, !GoRuntime, !Keccak, !Fastrlp} {PP : PanicPost}.
Implicit Types s : state H.

Lemma inv_msg s0 st g s : inv s0 st g s → contract_ok (msg s).
Proof. intros []. by apply wf_msg. Qed.

Lemma opAddress_ok : inst_ok 0 0 (opAddress (H:=H)).
Proof. evm_start 0. unfold opAddress. pose proof (co_address _ (inv_msg _ _ _ _ Hi)). evm. Qed.
Lemma opCaller_ok : inst_ok 0 0 (opCaller (H:=H)).
Proof. evm_start 0. unfold opCaller. pose proof (co_caller _ (inv_msg _ _ _ _ Hi)). evm. Qed.
Lemma opCallValue_ok : inst_ok 0 0 (opCallValue (H:=H)).
Proof.
  evm_start 0. unfold opCallValue. pose proof (co_value _ (inv_msg _ _ _ _ Hi)) as Hv.
  evm_step. evm_step. destruct (Value _); evm.
Qed.

Lemma opCallDataLoad_ok : inst_ok 1 0 (opCallDataLoad (H:=H)).
Proof.
  evm_start 1. unfold opCallDataLoad. pose proof (inv_msg _ _ _ _ Hi) as [].
  do 6 evm_step. rewrite setBytes_window by (try done; unfold zlen; simpl; lia).
  rewrite (drop_ge (replicate _ _)), app_nil_r by done.
  assert (u256 (SetBytes (window (Input (msg s)) z 32))).
  { apply bytes_u256; [by apply window_ok|by rewrite length_window]. }
  evm.
Qed.

Lemma opGas_ok : inst_ok 0 0 (opGas (H:=H)).
Proof.
  evm_start 0. unfold opGas. pose proof (wf_gas _ (inv_wf _ _ _ _ Hi)).
  assert (u256 (gas s)) by (unfold u256; lia). evm.
Qed.

Lemma opTimestamp_ok : inst_ok 0 0 (opTimestamp (H:=H)).
Proof. evm_start 0. unfold opTimestamp. pose proof (GetTxContext_ok (host s)) as []. evm. Qed.
Lemma opNumber_ok : inst_ok 0 0 (opNumber (H:=H)).
Proof. evm_start 0. unfold opNumber. pose proof (GetTxContext_ok (host s)) as []. evm. Qed.
Lemma opGasLimit_ok : inst_ok 0 0 (opGasLimit (H:=H)).
Proof. evm_start 0. unfold opGasLimit. pose proof (GetTxContext_ok (host s)) as []. evm. Qed.

Lemma opSStore_ok : inst_ok 2 1 (opSStore (H:=H)).
Proof. inst_proof 2 opSStore. Qed.

Lemma opSelfDestruct_ok : inst_ok 1 1 (opSelfDestruct (H:=H)).
Proof. inst_proof 1 opSelfDestruct. Qed.

Lemma opJump_ok : inst_ok 1 0 (opJump (H:=H)).
Proof.
  evm_start 1. unfold opJump. do 2 evm_step. evm_step.
  eapply i_validJumpdest; [done..|]. intros b Hb. evm_step; [|evm].
  evm_step. evm_step. eapply i_jumpTo; [done|split; [apply H3|by apply Hb]|]. by intros.
Qed.
End context.

Section memory.
Context {H : Type} `{!Host H, !HostLaws H, !GoRuntime, !Keccak, !Fastrlp} {PP : PanicPost}.
Implicit Types s : state H.

Lemma opMStore_ok : inst_ok 2 0 (opMStore (H:=H)).
Proof.
  evm_start 2. unfold opMStore. evm_step. evm_step. evm_step. evm_step. evm_step. evm_step; [|evm].
  match goal with Ha : allocated _ _ ?s, Hi' : inv _ _ _ ?s |- _ =>
    destruct Ha as (Ho & _ & Ha); specialize (Ha ltac:(done));
    pose proof (inv_wf _ _ _ _ Hi') as Hwf end. pose proof (wf_cap _ Hwf). unfold wordSize in *.
  do 2 evm_step. rewrite !Uint64_small, !(u64_small (z + 32)) by lia. evm_step.
  apply wp_sliceMemory; [done|lia|lia|]. intros buf _ Hlen _. do 2 evm_step.
  rewrite mstore_buf_spec by (try done; unfold zlen in Hlen; lia). do 2 evm_step.
  eapply i_copyMemory; [done|lia|lia|apply be_encode_ok|]. intros. evm.
Qed.

Lemma byte_land x : byte_ok (Z.land x 255).
Proof.
  change 255 with (Z.ones 8). rewrite Z.land_ones by lia. apply Z.mod_pos_bound. lia.
Qed.

Lemma opMStore8_ok : inst_ok 2 0 (opMStore8 (H:=H)).
Proof.
  evm_start 2. unfold opMStore8. evm_step. evm_step. evm_step. evm_step. evm_step. evm_step; [|evm].
  match goal with Ha : allocated _ _ _ |- _ => destruct Ha as (Ho & _ & Ha); specialize (Ha ltac:(done)) end.
  do 4 evm_step. rewrite (Uint64_small z) by lia.
  eapply i_storeByte; [done|lia|apply byte_land|]. intros. evm.
Qed.

(** Copying a window of some input over allocated memory. *)
Lemma i_setBytes o sz input off s0 st g s (Q : unit → state H → Prop) :
  inv s0 st g s → allocated o sz s → sz ≠ 0 → u256 off → bytes_ok input → zlen input < 2 ^ 63 →
  (∀ s', inv s0 st g s' → frame s s' → Q tt s') →
  wp (updateMemoryFrom (Uint64 o) (λ dst, setBytes dst input (Uint64 sz) off)) Q s.
Proof.
  intros Hi (Ho & Hs & Ha) Hnz Hoff Hin Hlen HQ. specialize (Ha Hnz).
  rewrite !Uint64_small by lia. eapply i_updateMemoryFrom; [done|lia| |done].
  intros dst Hd Hdl. rewrite setBytes_window by (try done; lia). eexists. split_and!; [done| |].
  - apply Forall_app. split; [by apply window_ok|by apply Forall_drop].
  - pose proof (length_window input off sz). unfold zlen in *. rewrite length_app, length_drop. lia.
Qed.

Ltac frames := repeat first [eassumption | etrans; [eassumption|]].

Ltac copy_tail :=
  match goal with E : (Uint64 ?sz =? 0) = false, Ha : allocated _ ?sz ?s |- _ =>
    eapply i_setBytes;
      [ eassumption
      | eapply allocated_frame; [exact Ha|frames]
      | let Hz := fresh in intros Hz; rewrite Hz in E; discriminate E
      | assumption | | | intros ? ? ?; evm ] end.

Lemma opCallDataCopy_ok : inst_ok 3 0 (opCallDataCopy (H:=H)).
Proof.
  evm_start 3. unfold opCallDataCopy. evm. copy_tail.
  all: eapply co_input || eapply co_inputlen; eapply inv_msg; eassumption.
Qed.

Lemma opCodeCopy_ok : inst_ok 3 0 (opCodeCopy (H:=H)).
Proof.
  evm_start 3. unfold opCodeCopy. evm.
  match goal with Hi' : inv _ _ _ ?s |- wp _ _ ?s => pose proof (inv_wf _ _ _ _ Hi') as [] end.
  copy_tail; [done|lia].
Qed.

Lemma opExtCodeCopy_ok : inst_ok 4 1 (opExtCodeCopy (H:=H)).
Proof.
  evm_start 4. unfold opExtCodeCopy. evm. copy_tail; apply GetCode_ok.
Qed.
End memory.

Section control.
Context {H : Type} `{!Host H, !HostLaws H, !GoRuntime, !Keccak, !Fastrlp} {PP : PanicPost}.
Implicit Types s : state H.

(** The slice [c.memory[memOffset:]] of RETURNDATACOPY is in range: an
    empty copy allocates nothing, so its offset must lie in memory already. *)
Definition returndata_in_range s : Prop :=
  match stack s with
  | memOffset :: _ :: len :: _ => len = 0 → memOffset ≤ zlen (memory s)
  | _ => True
  end.

Lemma go_copy_ok dst src : bytes_ok dst → bytes_ok src → bytes_ok (go_copy dst src).
Proof. intros. apply Forall_app. split; [by apply Forall_take|by apply Forall_drop]. Qed.

Lemma zlen_go_copy dst src : zlen (go_copy dst src) = zlen dst.
Proof. unfold zlen, go_copy. rewrite length_app, length_take, length_drop. lia. Qed.

Lemma opReturnDataCopy_ok : inst_ok_if (λ s, panic_post ∨ returndata_in_range s) 3 0 (opReturnDataCopy (H:=H)).
Proof.
  evm_start 3. unfold opReturnDataCopy. evm.
  unfold returndata_in_range in HP. rewrite (inv_stack _ _ _ _ Hi) in HP.
  match goal with Ha : allocated _ _ ?a, Hf : frame ?a ?b |- wp _ _ ?b =>
    pose proof (allocated_frame _ _ _ _ Ha Hf) as (Ho & Hs & Ha') end.
  match goal with Hi' : inv _ _ _ ?b |- wp _ _ ?b =>
    pose proof (fr_mem _ _ (inv_frame _ _ _ _ Hi')); pose proof (inv_wf _ _ _ _ Hi') as [];
    destruct (Z.lt_ge_cases (zlen (memory b)) z);
      [|eapply i_updateMemoryFrom; [exact Hi'| | |intros ? ? ?; evm]] end.
  - destruct HP as [HP|HP]; [apply wp_updateMemoryFrom_panic; rewrite ?Uint64_small; done|lia].
  - rewrite Uint64_small by lia. lia.
  - intros dst Hd _. eexists. split_and!; [done| |apply zlen_go_copy].
    apply go_copy_ok; [done|]. by apply Forall_take, Forall_drop.
Qed.

Lemma opJumpi_ok : inst_ok 2 0 (opJumpi (H:=H)).
Proof.
  evm_start 2. unfold opJumpi. do 7 (evm_step; try by evm). evm_step.
  eapply i_validJumpdest; [done..|]. intros b Hb. evm_step; [|evm].
  do 2 evm_step. eapply i_jumpTo; [done|split; [apply H3|by apply Hb]|]. by intros.
Qed.

Lemma opPush_ok n : 1 ≤ n ≤ 32 → inst_ok 0 0 (opPush (H:=H) n).
Proof.
  intros Hn. evm_start 0. unfold opPush. do 4 evm_step.
  pose proof Hi as []. rewrite (proj2 (Z.ltb_ge (ip s + 1) 0)), (proj2 (Z.ltb_ge (zlen (code s)) _)) by lia.
  simpl. evm_step. pose proof (wf_code _ inv_wf) as Hc.
  destruct (Z.ltb_spec (zlen (code s)) (ip s + 1 + n)).
  - unfold push. apply wp_modify, wp_modify. split; [|split; done|right; simpl; lia].
    destruct inv_wf. split; try done; cbn; lia.
  - assert (u256 (SetBytes (take (Z.to_nat n) (drop (Z.to_nat (ip s + 1)) (code s))))).
    { apply bytes_u256; [by apply Forall_take, Forall_drop|]. unfold zlen in *. rewrite length_take. lia. }
    evm_step. apply wp_modify. eapply post_set_ip; [done|lia|lia].
Qed.

Lemma opDup_ok n : 1 ≤ n → inst_ok 0 0 (opDup (H:=H) n).
Proof.
  intros Hn. evm_start 0. unfold opDup. do 2 evm_step. rewrite (inv_stack _ _ _ _ Hi).
  destruct (Z.leb_spec n (zlen st)); simpl; [|evm].
  destruct (lookup_lt_is_Some_2 st (Z.to_nat n - 1)) as [v Hv]; [unfold zlen in *; lia|].
  evm_step. eapply i_peekAt; [done..|]. intros. evm.
Qed.

Lemma opSwap_ok n : 1 ≤ n → inst_ok 0 0 (opSwap (H:=H) n).
Proof.
  intros Hn. evm_start 0. unfold opSwap. do 2 evm_step. rewrite (inv_stack _ _ _ _ Hi).
  destruct (Z.leb_spec (n + 1) (zlen st)); simpl; [|evm].
  eapply i_swap; [done|unfold zlen in *; lia|]. intros. evm.
Qed.

Lemma opLog_ok n : 1 ≤ n → inst_ok 0 0 (opLog (H:=H) n).
Proof.
  intros Hn. evm_start 0. unfold opLog. do 2 evm_step. evm_step; [evm|]. do 2 evm_step.
  rewrite (inv_stack _ _ _ _ Hi). destruct (Z.leb_spec (2 + (n - 1)) (zlen st)) as [Hle|]; simpl; [|evm].
  unfold zlen in Hle. destruct st as [|o st]; [simpl in Hle; lia|].
  destruct st as [|sz st]; [simpl in Hle; lia|]. simpl in Hle. do 5 evm_step.
  eapply i_popTopics; [done|lia|]. intros s3 ts Hi3 Hf3 _ _. evm.
Qed.

Lemma opHalt_ok op : inst_ok 2 1 (opHalt (H:=H) op).
Proof.
  evm_start 2. unfold opHalt. do 2 evm_step. evm_step; [evm|]. do 4 evm_step. evm_step. evm_step.
  - evm_step. apply wp_modify. cbn.
    match goal with Hi' : inv _ _ _ ?s', Hd : bytes_ok ?d |- context [set_ret ?d ?s'] =>
      pose proof (inv_set_ret _ _ _ d _ Hd Hi') end. evm.
  - evm_step. apply wp_modify. cbn. apply wp_pure. apply post_set_ret; [by apply Forall_nil|done].
Qed.
End control.

Section create.
Context {H : Type} `{!Host H, !HostLaws H, !GoRuntime, !Keccak, !Fastrlp} {PP : PanicPost}.
Implicit Types s : state H.

(** What [buildCreateContract] hands to [opCreate]: the gas of the new
    contract has been paid for. *)
Definition create_ok s0 st (r : createResult) s : Prop :=
  match r with
  | CreateNone => ∀ g, post s0 g s
  | CreateErr => inv s0 st 0 s
  | CreateOk c => inv s0 st (Gas c) s ∧ 0 ≤ Gas c < 2 ^ 64 ∧ addr_ok (cAddress c)
  end.

Lemma i_buildCreateContract op v o l salt st s0 s :
  (op = CREATE ∧ inv s0 (v :: o :: l :: st) 0 s) ∨ (op = CREATE2 ∧ inv s0 (v :: o :: l :: salt :: st) 0 s) →
  wp (buildCreateContract op) (create_ok s0 st) s.
Proof.
  intros [[-> Hi]|[-> Hi]]; unfold buildCreateContract; evm.
  all: simpl; try done; try (eapply inv_weaken; [eassumption|lia]).
  all: rewrite wf_rules by (eapply inv_wf; eassumption); simpl; evm; simpl; try done.
  all: split_and!; try apply u64_range; auto with word; (eapply inv_weaken; [eassumption|gas_bound]).
Qed.

Lemma opCreate_ok op n :
  (op = CREATE ∧ n = 3) ∨ (op = CREATE2 ∧ n = 4) → inst_ok n 0 (opCreate (H:=H) op).
Proof.
  intros Hop. apply inst_ok_intro. intros s st Hi Hn _.
  assert (∃ v o l salt st', (op = CREATE ∧ st = v :: o :: l :: st') ∨
                            (op = CREATE2 ∧ st = v :: o :: l :: salt :: st')) as (v & o & l & salt & st' & Hst).
  { destruct Hop as [[-> ->]|[-> ->]]; destruct st as [|? [|? [|? [|? ?]]]];
      unfold zlen in Hn; simpl in Hn; try lia; repeat eexists; eauto. Unshelve. all: exact 0. }
  unfold opCreate. do 2 evm_step. evm_step; [evm|]. do 2 evm_step. evm_step; [evm|].
  do 3 evm_step. eapply wp_mono.
  { apply (i_buildCreateContract op v o l salt st' s).
    destruct Hst as [[-> ->]|[-> ->]]; [left|right]; split; done. }
  intros [| |c] s1 Hr; simpl in Hr; [evm|evm|].
  destruct Hr as (Hi1 & Hg & Ha). cbn. evm_step. eapply i_callHost; [done|done|].
  intros r h Hleft Hret Hlen Hi2. simpl in Hleft. evm_step.
  assert (u256 (SetBytes (cAddress (with_type c Create)))) by auto with word. evm.
Qed.
End create.

(** Under EIP150 a call passes on at most all but one 64th of the gas left
    after its own price, and the sum of price and passed gas does not wrap. *)
Lemma callGas_eip150 have cost ig :
  0 ≤ have < 2 ^ 64 → 0 ≤ cost ≤ 2 ^ 16 → 0 ≤ ig →
  ∃ g, callGas true have cost ig = Some g ∧ 0 ≤ g ∧ cost + g < 2 ^ 64 ∧
    (cost ≤ have → g = Z.min ig (have - cost - (have - cost) / 64)).
Proof.
  intros Hh Hc Hi. unfold callGas.
  assert (∃ a, u64 (have - cost) = a ∧ 0 ≤ a < 2 ^ 64 ∧ (cost ≤ have → a = have - cost)) as (a & -> & Ha & Ha').
  { eexists. split_and!; [done|apply u64_range..|]. intros. rewrite u64_small; lia. }
  assert (0 ≤ a / 64 ∧ 63 * a ≤ 64 * (a - a / 64) ≤ 63 * a + 63) as Ha64 by (Z.div_mod_to_equations; lia).
  rewrite (u64_small (a - a / 64)) by lia.
  destruct (IsUint64 ig) eqn:E; simpl.
  - apply IsUint64_spec in E. rewrite Uint64_small by done.
    destruct (Z.ltb_spec (a - a / 64) ig); eexists; split_and!; try done; try lia;
      intros Hle; rewrite <- (Ha' Hle); lia.
  - assert (2 ^ 64 ≤ ig).
    { destruct (Z.lt_ge_cases ig (2 ^ 64)); [|done]. rewrite (proj2 (IsUint64_spec ig)) in E; done. }
    eexists; split_and!; try done; try lia. intros Hle; rewrite <- (Ha' Hle); lia.
Qed.

Section call.
Context {H : Type} `{!Host H, !HostLaws H, !GoRuntime, !Keccak, !Fastrlp} {PP : PanicPost}.
Implicit Types s : state H.

(** What [buildCallContract] hands to [opCall]: the gas of the callee, and
    more, has been paid for, and the range of the result is allocated. *)
Definition call_ok s0 st ro rs (r : callResult) s : Prop :=
  match r with
  | CallNone => ∀ g, post s0 g s
  | CallErr c => inv s0 st (1 + Gas c) s ∧ 0 ≤ Gas c
  | CallOk c o sz => inv s0 st (1 + Gas c) s ∧ 0 ≤ Gas c < 2 ^ 64 ∧ o = ro ∧ sz = rs ∧ allocated ro rs s
  end.

(** The operands of a call: with a value for CALL and CALLCODE. *)
Definition call_args (op : OpCode) (ig a v io iz ro rs : Z) : list Z :=
  if (op =? CALL) || (op =? CALLCODE) then [ig; a; v; io; iz; ro; rs] else [ig; a; io; iz; ro; rs].

Lemma callCost_bounds op cfg (h : H) a transfers :
  EIP150 cfg = true →
  700 ≤ callCost op cfg h a transfers ≤ 34700 ∧ (transfers = true → 9700 ≤ callCost op cfg h a transfers).
Proof. unfold callCost. intros ->. repeat case_match; lia. Qed.

Lemma call_price op (h : H) a transfers ig s :
  wf s → u256 ig → ∃ g,
  callGas (EIP150 (config s)) (gas s) (callCost op (config s) h a transfers) ig = Some g ∧ 0 ≤ g ∧
  u64 (callCost op (config s) h a transfers + g) = callCost op (config s) h a transfers + g ∧
  700 ≤ callCost op (config s) h a transfers ∧
  (transfers = true → 9700 ≤ callCost op (config s) h a transfers).
Proof.
  intros Hwf [Hig _]. rewrite (wf_rules _ Hwf).
  destruct (callCost_bounds op (config s) h a transfers (wf_rules _ Hwf)) as [Hc Ht].
  destruct (callGas_eip150 (gas s) (callCost op (config s) h a transfers) ig) as (g & Eg & Hg & Hs & _);
    [apply Hwf|lia|done|].
  exists g. split_and!; try done; [|lia]. apply u64_small. lia.
Qed.

(** The 2300 gas of stipend are covered by the price of a value transfer. *)
Lemma call_stipend s0 st c z (t : bool) s :
  inv s0 st (0 + (c + z)) s → 0 ≤ z → 700 ≤ c → (t = true → 9700 ≤ c) →
  inv s0 st (1 + (if t then u64 (z + 2300) else z)) s ∧ 0 ≤ (if t then u64 (z + 2300) else z) < 2 ^ 64.
Proof.
  intros Hi Hz Hc Ht. pose proof (inv_gas _ _ _ _ Hi). pose proof (inv_gas0 _ _ _ _ Hi).
  pose proof (wf_gas _ (inv_wf _ _ _ _ Hi)).
  destruct t; [specialize (Ht eq_refl); rewrite u64_small by lia|];
    (split; [eapply inv_weaken; [done|lia]|lia]).
Qed.

Lemma Gas_callMessage op m a v g code args : Gas (callMessage op m a v g code args) = g.
Proof. unfold callMessage. repeat case_match; done. Qed.

Lemma i_buildCallContract op ig a v io iz ro rs st s0 s :
  In op [CALL; CALLCODE; DELEGATECALL; STATICCALL] →
  inv s0 (call_args op ig a v io iz ro rs ++ st) 0 s →
  wp (buildCallContract op) (call_ok s0 st ro rs) s.
Proof.
  intros Hop Hi. unfold buildCallContract, call_args in *.
  set (hasval := (op =? CALL) || (op =? CALLCODE)) in *.
  destruct hasval; simpl in Hi.
  all: evm; try done.
  all: match goal with E : callGas _ (gas ?s1) (callCost ?op ?cfg ?h ?a ?t) ?ig = _, Hi1 : inv _ _ _ ?s1 |- _ =>
    destruct (call_price op h a t ig s1) as (g & Eg & Hg0 & Hg1 & Hc & Ht);
      [eapply inv_wf; eassumption|assumption|rewrite Eg in E; simplify_eq] end.
  all: match goal with Hp : inv _ _ (0 + u64 (_ + ?z)) ?s' |- _ =>
    rewrite Hg1 in Hp; destruct (call_stipend _ _ _ z _ _ Hp Hg0 Hc Ht) as [Hp1 Hp2] end.
  all: simpl; rewrite Gas_callMessage; try done.
  all: match goal with Ha : allocated _ _ _ |- _ => pose proof Ha as (? & ? & _) end.
  all: rewrite ?Uint64_small by done; split_and!; try apply Hp2; try done; by eapply allocated_frame.
Qed.

(** The slice [c.memory[retOffset:retOffset+retSize]] of a call is in
    range: an empty range allocates nothing, so its offset must lie within
    the capacity already. [k] is the position of [retOffset]. *)
Definition call_in_range (k : nat) s : Prop :=
  match drop k (stack s) with
  | ro :: rs :: _ => rs = 0 → ro ≤ memcap s
  | _ => True
  end.

Lemma opCall_ok op (n : nat) :
  (n = 7%nat ∧ (op = CALL ∨ op = CALLCODE)) ∨ (n = 6%nat ∧ (op = DELEGATECALL ∨ op = STATICCALL)) →
  inst_ok_if (λ s, panic_post ∨ call_in_range (n - 2) s) (Z.of_nat n) 1 (opCall (H:=H) op).
Proof.
  intros Hop. apply inst_ok_intro. intros s st Hi Hn HP. unfold call_in_range in HP.
  rewrite (inv_stack _ _ _ _ Hi) in HP.
  assert (∃ ig a v io iz ro rs st', st = call_args op ig a v io iz ro rs ++ st' ∧ (panic_post ∨ (rs = 0 → ro ≤ memcap s)))
    as (ig & a & v & io & iz & ro & rs & st' & -> & Hr).
  { unfold zlen in Hn. destruct Hop as [[-> [->| ->]]|[-> [->| ->]]];
      do 6 (destruct st as [|? st]; [simpl in Hn; lia|]); try (destruct st as [|? st]; [simpl in Hn; lia|]);
      simpl in HP; repeat eexists; try exact HP; reflexivity. Unshelve. all: exact 0. }
  assert (In op [CALL; CALLCODE; DELEGATECALL; STATICCALL]) as Hin by (destruct Hop as [[_ [->| ->]]|[_ [->| ->]]]; simpl; auto).
  assert (is_Some (callType op)) as [t Et] by (destruct Hop as [[_ [->| ->]]|[_ [->| ->]]]; eexists; done).
  unfold opCall. do 4 evm_step. evm_step. eapply (wp_mono _ (λ _ s1, s1 = s')).
  { destruct ((op =? CALL) && Static (msg s')); [|by apply wp_pure].
    destruct (lookup_lt_is_Some_2 (call_args op ig a v io iz ro rs ++ st') 2) as [w Hw].
    { unfold call_args. rewrite length_app. destruct ((op =? CALL) || _); cbn; lia. }
    evm_step. eapply i_peekAt; [done..|]. intros. by apply wp_pure. }
  intros blocked s1 ->. evm_step; [evm|]. do 2 evm_step. evm_step; [evm|]. evm_step; [evm|].
  rewrite Et. do 3 evm_step. eapply wp_mono; [by eapply i_buildCallContract|].
  intros [|c|c o sz] s2 Hc; simpl in Hc; [evm|destruct Hc; evm|].
  destruct Hc as (Hi2 & Hg & -> & -> & Ha). cbn. evm_step.
  pose proof (inv_frame _ _ _ _ Hi2) as Hf2.
  eapply i_callHost; [done|done|]. intros r h Hleft Hret Hlen Hi3. simpl in Hleft.
  do 4 evm_step; [|evm]. destruct Ha as (Ho & Hs & Ha).
  match goal with Hi' : inv _ _ _ ?s1, Hf' : frame (set_host h s2) ?s1 |- wp _ _ ?s1 =>
    pose proof (wf_cap _ (inv_wf _ _ _ _ Hi')); pose proof (fr_cap _ _ (inv_frame _ _ _ _ Hi'));
    pose proof (fr_mem _ _ Hf'); pose proof (wf_memmax _ (inv_wf _ _ _ _ Hi')) end. simpl in *.
  assert (u64 (ro + rs) = ro + rs) as -> by (apply u64_small; lia).
  match goal with |- wp _ _ ?s1 => destruct (Z.lt_ge_cases (memcap s1) (ro + rs)) end.
  - destruct Hr; [by apply wp_copyMemory_panic|lia].
  - eapply i_copyMemory; [done|lia|lia|done|]. intros. evm.
Qed.
End call.
