(* ===== verification/EvmInterp.v ===== *)
(** * The interpreter loop

    The dispatch table holds exactly what [init] registers, every handler
    in it meets its specification, and one iteration of [Run] keeps the
    loop invariant, makes progress and cannot panic except where a slice of
    an empty range lies outside the memory. *)

From S2P Require Import Prelude BigInt Chain Types Runtime EvmOpcodes EvmState EvmInstructions EvmBuffers.
From S2P Require Import EvmBuffers EvmLogic EvmSafety EvmInstOk EvmRun.
From stdpp Require Import gmap.
#[local] Open Scope Z_scope.
#[local] Open Scope evm_scope.

Create HintDb insts.

Section table.
Context {H : Type} `{!Host H, !HostLaws H, !GoRuntime, !Keccak, !Fastrlp} {PP : PanicPost}.
Implicit Types s : state H.

(** The slices an instruction takes of an empty range are in range. *)
Definition slices_in_range (op : Z) s : Prop :=
  if op =? RETURNDATACOPY then returndata_in_range s
  else if (op =? CALL) || (op =? CALLCODE) then call_in_range 5 s
  else if (op =? DELEGATECALL) || (op =? STATICCALL) then call_in_range 4 s
  else True.

#[export] Instance slices_in_range_dec op s : Decision (slices_in_range op s).
Proof.
  unfold slices_in_range, returndata_in_range, call_in_range.
  repeat (case_match; try apply _).
Defined.

Definition handler_ok (e : OpCode * handler H) : Prop :=
  0 ≤ staticGas e.2 ∧
  ∃ g, 0 ≤ g ∧ 1 ≤ g + staticGas e.2 ∧
    inst_ok_if (λ s, panic_post ∨ slices_in_range e.1 s) (minStack e.2) g (inst e.2).

Lemma handler_ok_intro op i n g sg :
  0 ≤ g → 0 ≤ sg → 1 ≤ g + sg → inst_ok n g i → handler_ok (op, mkHandler i n sg).
Proof.
  intros Hg Hsg Hsum Hi. split; [done|]. exists g. split_and!; try done.
  intros s Hwf Hst Hip Hn _. by apply Hi.
Qed.

Lemma handler_ok_if op i n g sg :
  0 ≤ g → 0 ≤ sg → 1 ≤ g + sg → inst_ok_if (λ s, panic_post ∨ slices_in_range op s) n g i →
  handler_ok (op, mkHandler i n sg).
Proof. intros. split; [done|]. exists g. done. Qed.

Lemma rangeFrom_ok n op c f sg :
  0 < sg → (∀ k, c ≤ k < c + Z.of_nat n → inst_ok 0 0 (f k)) →
  Forall handler_ok (rangeFrom n op c f sg).
Proof.
  revert op c. induction n as [|n IH]; intros op c Hsg Hf; cbn [rangeFrom]; constructor.
  - apply (handler_ok_intro _ _ _ 0); try lia. apply Hf. lia.
  - apply IH; [done|]. intros k Hk. apply Hf. lia.
Qed.

#[local] Hint Resolve opAdd_ok opMul_ok opSub_ok opDiv_ok opSDiv_ok opMod_ok opSMod_ok opExp_ok
  opAddMod_ok opMulMod_ok opAnd_ok opOr_ok opXor_ok opByte_ok opNot_ok opIsZero_ok opEq_ok opLt_ok
  opGt_ok opSlt_ok opSgt_ok opShl_ok opShr_ok opSar_ok opSignExtension_ok opMload_ok opSload_ok
  opSha3_ok opPop_ok opBalance_ok opSelfBalance_ok opChainID_ok opOrigin_ok opCallDataSize_ok
  opCodeSize_ok opExtCodeSize_ok opGasPrice_ok opReturnDataSize_ok opExtCodeHash_ok opPC_ok opMSize_ok
  opCoinbase_ok opDifficulty_ok opBlockHash_ok opJumpDest_ok opStop_ok opAddress_ok opCaller_ok
  opCallValue_ok opCallDataLoad_ok opGas_ok opTimestamp_ok opNumber_ok opGasLimit_ok opSStore_ok
  opSelfDestruct_ok opJump_ok opJumpi_ok opMStore_ok opMStore8_ok opCallDataCopy_ok opCodeCopy_ok
  opExtCodeCopy_ok opHalt_ok opReturnDataCopy_ok : insts.

Lemma registrations_ok : Forall handler_ok registrations.
Proof.
  unfold registrations. repeat (apply Forall_app; split); [|unfold registerRange..|].
  2: apply rangeFrom_ok; [lia|]; intros k Hk; apply opPush_ok;
       change (Z.to_nat (PUSH32 - PUSH1 + 1)) with 32%nat in Hk; lia.
  2: apply rangeFrom_ok; [lia|]; intros k Hk; apply opDup_ok; lia.
  2: apply rangeFrom_ok; [lia|]; intros k Hk; apply opSwap_ok; lia.
  2: apply rangeFrom_ok; [lia|]; intros k Hk; apply opLog_ok; lia.
  all: repeat (apply Forall_cons_2; [|]); try apply Forall_nil_2.
  all: try (eapply handler_ok_intro; [| | |solve [eauto with insts]]; lia).
  1-2: apply (handler_ok_intro _ _ _ 0); try lia; apply opCreate_ok; auto.
  1-2: apply (handler_ok_if _ _ _ 1); try lia; apply (opCall_ok _ 7); auto.
  1-2: apply (handler_ok_if _ _ _ 1); try lia; apply (opCall_ok _ 6); auto.
  apply (handler_ok_if _ _ _ 0); try lia; apply opReturnDataCopy_ok.
Qed.

(** ** The table *)

Lemma register_all t (l : list (OpCode * handler H)) :
  NoDup l.*1 → (∀ k, k ∈ l.*1 → t !! k = None) →
  ∃ t', foldl register (Some t) l = Some t' ∧
    ∀ k h, t' !! k = Some h ↔ t !! k = Some h ∨ (k, h) ∈ l.
Proof.
  revert t. induction l as [|[k0 h0] l IH]; intros t Hnd Hnone; simpl.
  - exists t. split; [done|]. intros k h. rewrite elem_of_nil. tauto.
  - apply NoDup_cons in Hnd as [Hk0 Hnd]. rewrite Hnone by apply list_elem_of_here.
    destruct (IH (<[k0 := h0]> t)) as (t' & -> & Ht'); [done| |].
    { intros k Hk. rewrite lookup_insert_ne by (intros ->; done). apply Hnone. by right. }
    exists t'. split; [done|]. intros k h. rewrite Ht', elem_of_cons.
    destruct (decide (k0 = k)) as [<-|Hne].
    + rewrite lookup_insert_eq. rewrite Hnone by apply list_elem_of_here.
      assert ((k0, h) ∉ l) by (intros Hin; apply Hk0, list_elem_of_fmap; by exists (k0, h)).
      intuition congruence.
    + rewrite lookup_insert_ne by done. intuition congruence.
Qed.

Lemma registrations_NoDup : NoDup (registrations (H:=H)).*1.
Proof. apply (bool_decide_unpack _). vm_compute. exact I. Qed.

(** [init] does not panic, and the table holds what it registers. *)
Lemma dispatchTable_spec :
  is_Some (foldl register (Some ∅) (registrations (H:=H))) ∧
  ∀ op h, dispatchTable (H:=H) !! op = Some h ↔ (op, h) ∈ registrations.
Proof.
  unfold dispatchTable.
  destruct (register_all ∅ registrations) as (t & Et & Ht); [apply registrations_NoDup|done|].
  rewrite Et. split; [done|]. intros op h. simpl. rewrite Ht, lookup_empty. split; [|by right].
  by intros [?|?].
Qed.

Lemma handlers_ok op h : dispatchTable !! op = Some h → handler_ok (op, h).
Proof.
  intros Hl. apply dispatchTable_spec in Hl.
  exact (proj1 (Forall_forall _ _) registrations_ok _ Hl).
Qed.
End table.

Section loop.
Context {H : Type} `{!Host H, !HostLaws H, !GoRuntime, !Keccak, !Fastrlp} {PP : PanicPost}.
Implicit Types s : state H.

(** The invariant at the head of the loop. *)
Record loop_inv s : Prop := {
  li_wf : wf s;
  li_ip : 0 ≤ ip s;
  li_stack : zlen (stack s) ≤ stackSize;
}.

(** The next instruction takes a slice of an empty range outside memory. *)
Definition crashing s : Prop :=
  stop s = false ∧
  match code s !! Z.to_nat (ip s) with
  | Some op => ¬ slices_in_range op s
  | None => False
  end.

#[export] Instance crashing_dec s : Decision (crashing s).
Proof. apply and_dec; [apply _|]. case_match; apply _. Defined.

(** One iteration of [Run]. *)
Definition iteration_ok s (go : bool) s' : Prop :=
  frame s s' ∧ wf s' ∧
  if go then loop_inv s' ∧ (stop s' = true ∨ gas s' < gas s) else stop s' = true.

Lemma slices_mem_step op s s' :
  mem_step s s' → memory s' = memory s → memcap s' = memcap s →
  slices_in_range op s → slices_in_range op s'.
Proof.
  intros [] Hm Hc. unfold slices_in_range, returndata_in_range, call_in_range. by rewrite ms_stack, Hm, Hc.
Qed.

Lemma wf_set_ip1 s : wf s → wf (set_ip (ip s + 1) s).
Proof. intros []. split; try done; cbn; [intros; apply wf_words; lia|lia]. Qed.

Lemma frame_exit e s : frame s (set_exit e s).
Proof. split; done. Qed.

Lemma wf_stop s : wf s → wf (set_stop s).
Proof. intros []. split; done. Qed.

Lemma wp_CurrentOpCode s (Q : option Z → state H → Prop) :
  0 ≤ ip s → (zlen (code s) ≤ ip s → Q None s) →
  (∀ op, ip s < zlen (code s) → code s !! Z.to_nat (ip s) = Some op → Q (Some op) s) →
  wp CurrentOpCode Q s.
Proof.
  intros Hip Hnone Hsome. unfold CurrentOpCode. apply wp_bind, wp_gets, wp_bind, wp_gets.
  destruct (Z.leb_spec (zlen (code s)) (ip s)); [by apply wp_pure, Hnone|].
  rewrite (proj2 (Z.ltb_ge _ _)) by done. apply wp_bind, wp_gets.
  destruct (lookup_lt_is_Some_2 (code s) (Z.to_nat (ip s))) as [op Hop]; [unfold zlen in *; lia|].
  apply wp_bind, (wp_deref _ op); [done|]. apply wp_pure. by apply Hsome.
Qed.

(** The part of the iteration from the instruction on. *)
Lemma wp_execute op h s0 s :
  handler_ok (op, h) → loop_inv s → stop s = false → ip s < zlen (code s) →
  minStack h ≤ zlen (stack s) → panic_post ∨ slices_in_range op s → frame s0 s → gas s + staticGas h ≤ gas s0 →
  wp (inst h;;
      sp ← gets (λ s, zlen (stack s));
      if stackSize <? sp then exit ErrStackOverflow;; pure false else
      modify (λ s, set_ip (ip s + 1) s);;
      pure true) (iteration_ok s0) s.
Proof.
  intros Hh [] Hst Hlt Hn Hr Hf Hg. destruct Hh as (_ & g & Hg0 & Hg1 & Hi). simpl in *.
  apply wp_bind. eapply wp_mono; [by apply Hi|]. intros _ s1 [Hwf1 Hf1 Hg'].
  apply wp_bind, wp_gets. destruct (Z.ltb_spec stackSize (zlen (stack s1))).
  - apply wp_bind, wp_exit, wp_pure. split_and!; [|by apply wf_exit|done].
    etrans; [done|]. etrans; [done|]. apply frame_exit.
  - apply wp_bind, wp_modify, wp_pure. split_and!.
    + etrans; [done|]. etrans; [done|]. split; done.
    + by apply wf_set_ip1.
    + split; [by apply wf_set_ip1| |done]. pose proof (wf_ip _ Hwf1). simpl. lia.
    + destruct Hg' as [?|Hg']; [by left|right]. simpl. lia.
Qed.

Lemma Run_body_ok s :
  loop_inv s → stop s = false → panic_post ∨ ¬ crashing s → wp Run_body (iteration_ok s) s.
Proof.
  intros Hinv Hst Hnc. pose proof Hinv as [Hwf Hip Hsk]. unfold Run_body.
  apply wp_bind, wp_CurrentOpCode; [done| |].
  { intros _. apply wp_bind, wp_modify, wp_pure. split_and!; [split; done|by apply wf_stop|done]. }
  intros op Hlt Hop. destruct (dispatchTable !! op) as [h|] eqn:Hh.
  2: { apply wp_bind, wp_exit, wp_pure. split_and!; [apply frame_exit|by apply wf_exit|done]. }
  apply handlers_ok in Hh. assert (panic_post ∨ slices_in_range op s) as Hr.
  { destruct Hnc as [?|Hnc]; [by left|right].
    destruct (decide (slices_in_range op s)); [done|]. exfalso. apply Hnc. unfold crashing. by rewrite Hop. }
  apply wp_bind, wp_gets. destruct (Z.ltb_spec (zlen (stack s)) (minStack h)).
  { apply wp_bind, wp_exit, wp_pure. split_and!; [apply frame_exit|by apply wf_exit|done]. }
  pose proof Hh as (Hsg & _). simpl in Hsg.
  apply wp_bind, wp_consumeGas; [done|done| |].
  - intros s1 Hms Hwf1 Hm Hc Hg Hst1 _. simpl. pose proof Hms as [].
    apply (wp_execute op); rewrite ?ms_ip, ?ms_stack, ?(fr_code _ _ ms_frame); try done;
      [|congruence|destruct Hr; [by left|right; by eapply slices_mem_step]|lia].
    split; [done|by rewrite ms_ip|by rewrite ms_stack].
  - intros s1 Hms Hwf1 Hst1. simpl. apply wp_bind, wp_exit, wp_pure.
    split_and!; [|by apply wf_exit|done]. etrans; [apply Hms|apply frame_exit].
Qed.

End loop.

Section runs.
Context {H : Type} `{!Host H, !HostLaws H, !GoRuntime, !Keccak, !Fastrlp}.
Implicit Types s : state H.

(** An iteration that returns. *)
Lemma Run_body_returns s go s' :
  loop_inv s → stop s = false → Run_body s = Some (go, s') → iteration_ok s go s'.
Proof.
  intros Hi Hst E. pose proof (Run_body_ok (PP:=True) s Hi Hst (or_introl I)) as Hwp.
  unfold wp in Hwp. by rewrite E in Hwp.
Qed.

(** An iteration that panics. *)
Lemma Run_body_panics s :
  loop_inv s → stop s = false → Run_body s = None → crashing s.
Proof.
  intros Hi Hst E. destruct (decide (crashing s)) as [|Hnc]; [done|].
  pose proof (Run_body_ok (PP:=False) s Hi Hst (or_intror Hnc)) as Hwp.
  unfold wp in Hwp. by rewrite E in Hwp.
Qed.

Definition run_step s s' : Prop := stop s = false ∧ Run_body s = Some (true, s').

Lemma reachable_ok s s' : loop_inv s → rtc run_step s s' → frame s s' ∧ loop_inv s'.
Proof.
  intros Hi Hr. induction Hr as [|s1 s2 s3 [Hst E] _ IH]; [done|].
  destruct (Run_body_returns _ _ _ Hi Hst E) as (Hf & _ & Hi2 & _). destruct (IH Hi2) as [Hf3 Hi3].
  split; [by etrans|done].
Qed.

(** The iterations that are left: gas pays for every one of them. *)
Definition iterations s : nat := if stop s then 1 else Z.to_nat (gas s) + 2.

Lemma Run_loop_S fuel s :
  Run_loop (S fuel) s =
    if stop s then Some (true, s) else
    match Run_body s with
    | Some (true, s') => Run_loop fuel s'
    | Some (false, s') => Some (true, s')
    | None => None
    end.
Proof.
  cbn [Run_loop]. unfold bind, gets. cbv beta iota. destruct (stop s); [done|].
  by destruct (Run_body s) as [[[]]|].
Qed.

Lemma Run_loop_ok fuel s :
  loop_inv s → (iterations s ≤ fuel)%nat →
  (∃ s', Run_loop fuel s = Some (true, s') ∧ wf s' ∧ frame s s' ∧ stop s' = true) ∨
  (Run_loop fuel s = None ∧ ∃ s', rtc run_step s s' ∧ crashing s').
Proof.
  revert s. induction fuel as [|fuel IH]; intros s Hi Hf; unfold iterations in Hf.
  { case_match; lia. }
  rewrite Run_loop_S. destruct (stop s) eqn:Hst.
  { left. exists s. split_and!; [done|apply Hi|done|done]. }
  destruct (Run_body s) as [[go s1]|] eqn:E.
  2: { right. split; [done|]. exists s. split; [done|]. by apply Run_body_panics. }
  destruct (Run_body_returns _ _ _ Hi Hst E) as (Hf1 & Hwf1 & Hgo). destruct go.
  2: { left. exists s1. split_and!; [reflexivity|done..]. }
  destruct Hgo as [Hi1 Hm]. pose proof (wf_gas _ Hwf1).
  destruct (IH s1) as [(s' & -> & Hwf' & Hf' & Hst')|(-> & s' & Hr & Hc)].
  - done.
  - unfold iterations. destruct Hm as [->|Hm]; [lia|]. case_match; lia.
  - left. exists s'. split_and!; try done. by etrans.
  - right. split; [done|]. exists s'. split; [|done]. eapply rtc_l; [|done]. done.
Qed.

(** ** The initial state *)

(** What a caller of the virtual machine provides. *)
Record call_ready (c : Contract) : Prop := {
  cr_contract : contract_ok c;
  cr_code : bytes_ok (Code c);
  cr_codelen : zlen (Code c) < 2 ^ 62;
  cr_gas : 0 ≤ Gas c < 2 ^ 64;
}.

Lemma initState_ok p c h cfg :
  call_ready c → EIP150 cfg = true → 0 ≤ memcap p → ∃ s, initState (reset p) c h cfg = Some s ∧
    loop_inv s ∧ stop s = false ∧ gas s = Gas c ∧ code s = Code c ∧ msg s = c ∧
    setCode [] (Code c) = Some (bitmap s).
Proof.
  intros [] Hrules Hcap. unfold initState. simpl. destruct (setCode_marks (Code c)) as (bm & E & Hlen & _); [done|].
  rewrite E. eexists. split; [done|]. split_and!; try done.
  split; [|done|done]. split; simpl; try done; try by apply Forall_nil_2.
  intros i Hi. apply isSet_in_range; [lia|]. rewrite Hlen.
  pose proof (Z.div_le_mono i (zlen (Code c)) 8). lia.
Qed.
End runs.
