(* ===== verification/EvmArith.v ===== *)
(** * What the arithmetic instructions compute

    First the smallest instances of the interfaces the virtual machine is
    parameterised by: a host without accounts, whose nested calls return at
    once with all their gas, a runtime that allocates exactly what is asked,
    and a constant digest. They show that the interfaces and their laws can
    be met, and the examples and witnesses of the other files run on them.

    Then the stack words an arithmetic instruction leaves, for all operands,
    in terms of integer arithmetic: the results modulo [2^256], the signed
    operations through the two's complement reading [signed], and the
    square-and-multiply loop of EXP as a power. *)

From Stdlib Require Import Zpow_facts.
From S2P Require Import Prelude BigInt Chain Types Runtime EvmOpcodes EvmState EvmInstructions EvmRun.

Lemma ZeroHash_ok : hash_ok ZeroHash.
Proof. split; [done|]. apply Forall_replicate. split; lia. Qed.
Lemma ZeroAddress_ok : addr_ok ZeroAddress.
Proof. split; [done|]. apply Forall_replicate. split; lia. Qed.

#[export] Instance demo_runtime : GoRuntime := {|
  growslice c n := n; growslice_ge c n := Z.le_refl n |}.

#[export] Instance demo_keccak : Keccak := {|
  keccak256 b := ZeroHash; keccak256_ok b := ZeroHash_ok |}.

#[export] Instance demo_rlp : Fastrlp := {|
  rlp_value := list Z; rlp_bytes b := b; rlp_uint n := Bytes n;
  rlp_array vs := mjoin vs; rlp_marshal b := b |}.

Definition demo_ctx : TxContext := {|
  GasPrice := ZeroHash; Origin := ZeroAddress; Coinbase := ZeroAddress;
  Number := 7; Timestamp := 1000; GasLimit := 8000000; ChainID := 20030; Difficulty := ZeroHash |}.

#[export] Instance demo_host : Host unit := {|
  AccountExists _ _ := false;
  GetStorage _ _ _ := ZeroHash;
  SetStorage h _ _ _ _ := (StorageUnchanged, h);
  GetBalance _ _ := 0;
  GetCodeSize _ _ := 0;
  GetCodeHash _ _ := ZeroHash;
  GetCode _ _ := [];
  Selfdestruct h _ _ := h;
  GetTxContext _ := demo_ctx;
  GetBlockHash _ _ := ZeroHash;
  EmitLog h _ _ _ := h;
  Callx c h := ({| ReturnValue := [42]; GasLeft := Gas c; GasUsed := 0; Err := None |}, h);
  Empty _ _ := true;
  GetNonce _ _ := 0 |}.

#[export] Instance demo_laws : HostLaws unit.
Proof.
  split; intros; simpl; try apply ZeroHash_ok; try (unfold u256, zlen; simpl; lia).
  - split; [constructor | vm_compute; reflexivity].
  - split; simpl; try apply ZeroHash_ok; try apply ZeroAddress_ok; lia.
  - split; [repeat constructor; lia | vm_compute; reflexivity].
Qed.

(** A message that runs [code] with [gas]. *)
Definition demo_contract (code : list Z) (gas : Z) : Contract :=
  NewContractCall 0 ZeroAddress ZeroAddress ZeroAddress None gas code [1; 2; 3].

(** A state as the pool hands it out. *)
Definition demo_pooled : state unit :=
  mkState 0 [] tt (demo_contract [] 0) all_rules [] 0 0 [] None false 0 0 [] [] [].

(** A state with a given stack and gas. *)
Definition demo_stack (st : list Z) (g : Z) : state unit := set_gas g (set_stack st demo_pooled).

Definition demo_run (code : list Z) (gas : Z) : outcome (ExecutionResult * unit) :=
  EVM_Run 1000 demo_pooled (demo_contract code gas) tt all_rules.

(** PUSH1 3, PUSH1 4, ADD, PUSH1 0, MSTORE, PUSH1 32, PUSH1 0, RETURN *)
Example run_add :
  demo_run [PUSH1; 3; PUSH1; 4; ADD; PUSH1; 0; MSTORE; PUSH1; 32; PUSH1; 0; RETURN] 100 =
  Done ({| ReturnValue := replicate 31 0 ++ [7]; GasLeft := 76; GasUsed := 24; Err := None |}, tt).
Proof. vm_compute. reflexivity. Qed.
#[local] Open Scope evm_scope.

(** Evaluate an instruction on a known stack. *)
Ltac exec_inst Hst :=
  unfold bind, pop, top, settop, deref, gets, pure, skip; cbn; rewrite Hst; cbn.

Section binary.
Context {H : Type} `{!Host H, !GoRuntime, !Keccak, !Fastrlp}.
Implicit Types s : state H.

(** [i] replaces the words [a] and [b] on top of the stack by [f a b]. *)
Definition computes2 (i : instruction H) (f : Z → Z → Z) : Prop :=
  ∀ s a b st, stack s = a :: b :: st → u256 a → u256 b →
  i s = Some (tt, set_stack (f a b :: st) s).

Definition computes3 (i : instruction H) (f : Z → Z → Z → Z) : Prop :=
  ∀ s a b n st, stack s = a :: b :: n :: st → u256 a → u256 b → u256 n →
  i s = Some (tt, set_stack (f a b n :: st) s).
End binary.

Definition wrap (x : Z) : Z := x mod 2 ^ 256.

Lemma big_div_pos a b : 0 ≤ a → 0 < b → big_div a b = a / b.
Proof. intros. unfold big_div. rewrite Z.sgn_pos, Z.abs_eq by lia. lia. Qed.

Lemma wrap_small x : u256 x → wrap x = x.
Proof. intros. by apply Z.mod_small. Qed.

(** Truncated division through the absolute values, as [opSDiv] does it. *)
Lemma quot_abs a b :
  b ≠ 0 →
  Z.quot a b = if negb (Z.sgn a =? Z.sgn b) then - (Z.abs a / Z.abs b) else Z.abs a / Z.abs b.
Proof.
  intros Hb. rewrite Z.quot_div by done.
  destruct (Z.eqb_spec (Z.sgn a) (Z.sgn b)) as [E|E]; simpl.
  - rewrite E. destruct (Z.sgn_spec b) as [[? ->]|[[? ->]|[? ->]]]; lia.
  - destruct (Z.sgn_spec a) as [[? Ea]|[[<- Ea]|[? Ea]]]; rewrite Ea in E |- *.
    2: { by rewrite Z.abs_0, Z.div_0_l by lia. }
    all: destruct (Z.sgn_spec b) as [[? Eb]|[[? Eb]|[? Eb]]]; rewrite Eb in E |- *; lia.
Qed.

(** The remainder has the sign of the dividend, as in [opSMod]. *)
Lemma rem_abs a b :
  b ≠ 0 →
  Z.rem a b = if Z.sgn a <? 0 then - (Z.abs a mod Z.abs b) else Z.abs a mod Z.abs b.
Proof.
  intros Hb. rewrite Z.rem_mod by done.
  destruct (Z.sgn_spec a) as [[? ->]|[[<- ->]|[? ->]]]; simpl; [lia| |lia].
  by rewrite Z.mod_0_l by lia.
Qed.

Lemma signed_0 b : u256 b → signed b = 0 ↔ b = 0.
Proof. intros [??]. unfold signed. destruct (Z.ltb_spec b (2 ^ 255)); lia. Qed.

(** DIV, MOD, SDIV and SMOD compute the quotient and the remainder,
    truncated towards zero on the two's complement readings in the signed
    case, and 0 when the divisor is 0. *)
Lemma division_ops {H : Type} :
  computes2 (opDiv (H:=H)) (λ a b, if b =? 0 then 0 else a / b) ∧
  computes2 (opMod (H:=H)) (λ a b, if b =? 0 then 0 else a mod b) ∧
  computes2 (opSDiv (H:=H)) (λ a b, if b =? 0 then 0 else wrap (Z.quot (signed a) (signed b))) ∧
  computes2 (opSMod (H:=H)) (λ a b, if b =? 0 then 0 else wrap (Z.rem (signed a) (signed b))).
Proof.
  split_and!; intros s a b st Hst Ha Hb.
  - unfold opDiv. exec_inst Hst. destruct (Z.eqb_spec b 0); rewrite ?Hst; [done|].
    destruct Ha, Hb. rewrite big_div_pos, toU256_mod by lia. fold (wrap (a / b)).
    rewrite wrap_small; [done|]. split; [apply Z.div_pos; lia|].
    pose proof (Z.div_le_upper_bound a b a ltac:(lia) ltac:(nia)). lia.
  - unfold opMod. exec_inst Hst. destruct (Z.eqb_spec b 0); rewrite ?Hst; [done|].
    destruct Ha, Hb. unfold big_mod. rewrite Z.abs_eq, toU256_mod by lia. fold (wrap (a mod b)).
    pose proof (Z.mod_pos_bound a b). rewrite wrap_small; [done|]. unfold u256. lia.
  - unfold opSDiv. exec_inst Hst. rewrite !to256_signed by done.
    pose proof (signed_0 b Hb).
    destruct (Z.eqb_spec (signed b) 0), (Z.eqb_spec b 0); try tauto; rewrite ?Hst; try done.
    rewrite toU256_mod, big_div_pos, quot_abs by lia. done.
  - unfold opSMod. exec_inst Hst. rewrite !to256_signed by done.
    pose proof (signed_0 b Hb).
    destruct (Z.eqb_spec (signed b) 0), (Z.eqb_spec b 0); try tauto; rewrite ?Hst; try done.
    unfold big_mod. rewrite toU256_mod, Z.abs_idemp, rem_abs by lia. done.
Qed.

(** ** Exponentiation *)

Lemma wrap_mul_pow z x n : wrap (z * wrap x ^ n) = wrap (z * x ^ n).
Proof.
  unfold wrap. rewrite <- Z.mul_mod_idemp_r, <- Zpower_mod, Z.mul_mod_idemp_r by lia. done.
Qed.

Lemma wrap_mul_l z x : wrap (wrap z * x) = wrap (z * x).
Proof. unfold wrap. by rewrite Z.mul_mod_idemp_l by lia. Qed.

Lemma wrap_pow x n : wrap (wrap x ^ n) = wrap (x ^ n).
Proof. unfold wrap. by rewrite <- Zpower_mod by lia. Qed.

Lemma mod_pow2_succ d n : 0 ≤ d → d mod 2 ^ Z.of_nat (S n) = d mod 2 + 2 * ((d / 2) mod 2 ^ Z.of_nat n).
Proof.
  intros. rewrite Nat2Z.inj_succ, Z.pow_succ_r by lia. rewrite Z.rem_mul_r; [lia|lia|].
  apply Z.pow_pos_nonneg; lia.
Qed.

Lemma pow_square x n : 0 ≤ n → (x * x) ^ n = x ^ (2 * n).
Proof. intros. rewrite Z.pow_mul_r, Z.pow_2_r by lia. done. Qed.

(** [n] bits of the exponent. *)
Lemma exp_word_spec n d z x :
  0 ≤ d → u256 z → u256 x →
  exp_word n d z x = (wrap (z * x ^ (d mod 2 ^ Z.of_nat n)), wrap (x ^ 2 ^ Z.of_nat n)).
Proof.
  revert d z x. induction n as [|n IH]; intros d z x Hd Hz Hx.
  - simpl. rewrite Z.mod_1_r, Z.pow_0_r, Z.pow_1_r, Z.mul_1_r, !wrap_small by done. done.
  - cbn [exp_word]. rewrite Z.shiftr_div_pow2, !toU256_mod by lia. change (2 ^ 1) with 2.
    fold (wrap (z * x)) (wrap (x * x)). rewrite Z.land_ones with (n := 1) by lia. change (2 ^ 1) with 2.
    pose proof (Z.mod_pos_bound d 2). pose proof (Z.pow_pos_nonneg 2 (Z.of_nat n)).
    pose proof (Z.mod_pos_bound (d / 2) (2 ^ Z.of_nat n)).
    assert (u256 (wrap (x * x)) ∧ u256 (wrap (z * x))) as [? ?] by (split; apply Z.mod_pos_bound; lia).
    rewrite IH; [|apply Z.div_pos; lia|by case_match|done].
    rewrite wrap_mul_pow, wrap_pow, !pow_square by lia. rewrite mod_pow2_succ by done.
    f_equal; [|by rewrite Nat2Z.inj_succ, Z.pow_succ_r by lia].
    destruct (Z.eqb_spec (d mod 2) 1) as [->|].
    + rewrite wrap_mul_l, Z.pow_add_r, Z.pow_1_r by lia. f_equal. lia.
    + replace (d mod 2) with 0 by lia. done.
Qed.

Lemma exp_words_spec k y z x :
  0 ≤ y → u256 z → u256 x → exp_words (le_words k y) z x = wrap (z * x ^ (y mod 2 ^ (64 * Z.of_nat k))).
Proof.
  revert y z x. induction k as [|k IH]; intros y z x Hy Hz Hx.
  - simpl. by rewrite Z.mod_1_r, Z.pow_0_r, Z.mul_1_r, wrap_small.
  - cbn [le_words exp_words]. pose proof (Z.mod_pos_bound y (2 ^ 64)). pose proof (Z.div_pos y (2 ^ 64)).
    rewrite exp_word_spec by (try done; lia). change (Z.of_nat 64) with 64. rewrite Z.mod_mod by lia.
    rewrite IH; [|lia|apply Z.mod_pos_bound; lia..].
    rewrite wrap_mul_pow, wrap_mul_l. f_equal. rewrite <- Z.mul_assoc. f_equal.
    set (h := (y / 2 ^ 64) mod _). assert (0 ≤ h) by (apply Z.mod_pos_bound, Z.pow_pos_nonneg; lia).
    rewrite <- Z.pow_mul_r, <- Z.pow_add_r by lia. f_equal.
    replace (64 * Z.of_nat (S k)) with (64 + 64 * Z.of_nat k) by lia.
    rewrite Z.pow_add_r, Z.rem_mul_r by lia. done.
Qed.

Lemma exp_Bits x y : u256 x → u256 y → exp_words (Bits y) 1 x = wrap (x ^ y).
Proof.
  intros Hx [Hy Hy']. unfold Bits. rewrite Z.abs_eq, exp_words_spec by (try done; split; lia).
  rewrite Z.mul_1_l, Z.mod_small; [done|]. split; [done|]. pose proof (BitLen_nonneg y).
  rewrite <- (Z.abs_eq y) at 1 by done. apply BitLen_spec; [lia|].
  rewrite Z2Nat.id by (apply Z.div_pos; lia). Z.div_mod_to_equations. lia.
Qed.

#[local] Arguments exp_words : simpl never.

(** EXP: with gas for 50 (10 before EIP158) per byte of the exponent,
    the instruction pays it and leaves [x ^ y] modulo [2^256]; the
    square-and-multiply loop over the machine words of the exponent agrees
    with the mathematical power for all operands. *)
Lemma opExp_power {H : Type} (s : state H) (x y : Z) (st : list Z) :
  stack s = x :: y :: st → u256 x → u256 y →
  (if EIP158 (config s) then 50 else 10) * zlen (Bytes y) ≤ gas s →
  ∃ s', opExp s = Some (tt, s') ∧ stack s' = wrap (x ^ y) :: st ∧
    gas s' = gas s - (if EIP158 (config s) then 50 else 10) * zlen (Bytes y) ∧ err s' = err s.
Proof.
  intros Hst Hx Hy Hg. rewrite length_Bytes in *. pose proof (BitLen_u256 y Hy). pose proof (BitLen_nonneg y).
  assert (0 ≤ (BitLen y + 7) / 8 ≤ 32) by (Z.div_mod_to_equations; lia).
  remember (if EIP158 (config s) then 50 else 10) as g eqn:Eg.
  assert (10 ≤ g ≤ 50) by (subst g; case_match; lia).
  assert (u64 (u64 ((BitLen y + 7) / 8) * g) = g * ((BitLen y + 7) / 8)) as Hcost.
  { rewrite (u64_small ((BitLen y + 7) / 8)), u64_small by nia. lia. }
  unfold opExp. exec_inst Hst. rewrite <- Eg, Hcost. unfold consumeGas, bind, modify, gets. cbn.
  rewrite (proj2 (Z.ltb_ge _ _)) by lia. cbn.
  destruct (Bits y) as [|d ds] eqn:E.
  - eexists. split; [done|]. split_and!; try done. simpl. rewrite <- exp_Bits, E by done. done.
  - eexists. split; [done|]. split_and!; try done. simpl stack. by rewrite <- E, exp_Bits.
Qed.

(** ADD, MUL, SUB, ADDMOD and MULMOD compute in the ring of
    integers modulo [2^256]; the intermediate sum or product of ADDMOD and
    MULMOD is not truncated, and a zero modulus gives 0. *)
Lemma ring_ops {H : Type} :
  computes2 (opAdd (H:=H)) (λ a b, wrap (a + b)) ∧
  computes2 (opMul (H:=H)) (λ a b, wrap (a * b)) ∧
  computes2 (opSub (H:=H)) (λ a b, wrap (a - b)) ∧
  computes3 (opAddMod (H:=H)) (λ a b n, if n =? 0 then 0 else (a + b) mod n) ∧
  computes3 (opMulMod (H:=H)) (λ a b n, if n =? 0 then 0 else (a * b) mod n).
Proof.
  split_and!.
  - intros s a b st Hst Ha Hb. unfold opAdd. exec_inst Hst. by rewrite toU256_mod.
  - intros s a b st Hst Ha Hb. unfold opMul. exec_inst Hst. by rewrite toU256_mod.
  - intros s a b st Hst Ha Hb. unfold opSub. exec_inst Hst. by rewrite toU256_mod.
  - intros s a b n st Hst Ha Hb [Hn ?]. unfold opAddMod. exec_inst Hst.
    destruct (Z.eqb_spec n 0); [done|]. unfold big_mod. rewrite toU256_mod, Z.abs_eq by done.
    fold (wrap ((a + b) mod n)). pose proof (Z.mod_pos_bound (a + b) n).
    rewrite wrap_small; [done|]. unfold u256. lia.
  - intros s a b n st Hst Ha Hb [Hn ?]. unfold opMulMod. exec_inst Hst.
    destruct (Z.eqb_spec n 0); [done|]. unfold big_mod. rewrite toU256_mod, Z.abs_eq by done.
    fold (wrap ((a * b) mod n)). pose proof (Z.mod_pos_bound (a * b) n).
    rewrite wrap_small; [done|]. unfold u256. lia.
Qed.

(** ** Shifts, SIGNEXTEND and BYTE *)

Lemma overflows_spec x : u256 x → equalOrOverflowsUint256 x = negb (x <? 256).
Proof.
  intros [Hx _]. unfold equalOrOverflowsUint256. pose proof (BitLen_spec x 8 ltac:(lia)) as Hb.
  rewrite Z.abs_eq in Hb by done. destruct (Z.ltb_spec 8 (BitLen x)), (Z.ltb_spec x 256); simpl; lia.
Qed.

(** An arithmetic shift by 256 or more leaves only the sign. *)
Lemma sar_overflow v n : - 2 ^ 255 ≤ v < 2 ^ 255 → 256 ≤ n →
  wrap (v / 2 ^ n) = if 0 <=? Z.sgn v then 0 else tt256m1.
Proof.
  intros Hv Hn. assert (2 ^ 256 ≤ 2 ^ n) by (apply Z.pow_le_mono_r; lia).
  destruct (Z.sgn_spec v) as [[? ->]|[[<- ->]|[? ->]]]; simpl.
  - by rewrite Z.div_small by lia.
  - by rewrite Z.div_0_l by lia.
  - replace (v / 2 ^ n) with (-1); [done|]. apply (Z.div_unique _ _ _ (2 ^ n + v)); lia.
Qed.

(** SHL, SHR and SAR shift by any 256-bit amount: left modulo [2^256],
    right rounding down, SAR on the two's complement reading; amounts of 256
    and more behave as the mathematical shift does. *)
Lemma shift_ops {H : Type} (s : state H) (n v : Z) (st : list Z) :
  stack s = n :: v :: st → u256 n → u256 v → Constantinople (config s) = true →
  opShl s = Some (tt, set_stack (wrap (v * 2 ^ n) :: st) s) ∧
  opShr s = Some (tt, set_stack (v / 2 ^ n :: st) s) ∧
  opSar s = Some (tt, set_stack (wrap (signed v / 2 ^ n) :: st) s).
Proof.
  intros Hst Hn Hv Hcfg. pose proof Hn as [Hn0 _]. pose proof Hv as [Hv0 Hv1].
  pose proof (signed_range v Hv) as Hs.
  unfold opShl, opShr, opSar, bind, gets. rewrite !Hcfg. cbn [negb].
  exec_inst Hst. rewrite overflows_spec, to256_signed by done.
  destruct (Z.ltb_spec n 256) as [Hlt|Hge]; cbn [negb].
  - rewrite !Uint64_small, !toU256_mod by lia. rewrite Z.shiftl_mul_pow2, !Z.shiftr_div_pow2 by lia.
    split_and!; [done| |done]. fold (wrap (v / 2 ^ n)). rewrite wrap_small; [done|].
    pose proof (shiftr_u256 v n Hn0 Hv) as Hu. by rewrite Z.shiftr_div_pow2 in Hu.
  - assert (2 ^ 256 ≤ 2 ^ n) by (apply Z.pow_le_mono_r; lia). split_and!.
    + replace (wrap (v * 2 ^ n)) with 0; [done|]. unfold wrap.
      replace n with (n - 256 + 256) by lia. rewrite Z.pow_add_r, Z.mul_assoc, Z.mod_mul by lia. done.
    + by rewrite Z.div_small by lia.
    + by rewrite sar_overflow by lia.
Qed.

(** The low [8 * (e + 1)] bits of [x] read as a signed number. *)
Definition signext (e x : Z) : Z :=
  if e <? 32 then
    let n := 8 * e + 8 in
    let v := x mod 2 ^ n in
    wrap (if v <? 2 ^ (n - 1) then v else v - 2 ^ n)
  else x.

Lemma lor_lnot_ones x b : 0 ≤ b → Z.lor x (Z.lnot (Z.ones b)) = x mod 2 ^ b - 2 ^ b.
Proof.
  intros Hb. rewrite <- (Z.lnot_involutive (Z.lor _ _)), Z.lnot_lor, Z.lnot_involutive, Z.land_ones by done.
  pose proof (Z.pow_pos_nonneg 2 b ltac:(lia) Hb). pose proof (Z.mod_pos_bound x (2 ^ b)).
  assert ((Z.lnot x) mod 2 ^ b = 2 ^ b - 1 - x mod 2 ^ b) as ->; [|unfold Z.lnot; lia].
  symmetry. apply (Z.mod_unique _ _ (- (x / 2 ^ b) - 1)); [lia|].
  pose proof (Z.div_mod x (2 ^ b) ltac:(lia)). unfold Z.lnot. lia.
Qed.

Lemma mod_pow2_bit x b : 0 ≤ b → x mod 2 ^ (b + 1) = x mod 2 ^ b + (if Z.testbit x b then 2 ^ b else 0).
Proof.
  intros Hb. pose proof (Z.pow_pos_nonneg 2 b ltac:(lia) Hb).
  rewrite Z.pow_add_r, Z.rem_mul_r, <- Z.testbit_spec' by lia. destruct (Z.testbit x b); simpl; lia.
Qed.

Lemma signext_bits e x :
  0 ≤ e < 32 → signext e x =
    wrap (if Z.testbit x (8 * e + 7) then Z.lor x (Z.lnot (Z.ones (8 * e + 7))) else Z.land x (Z.ones (8 * e + 7))).
Proof.
  intros He. unfold signext. rewrite (proj2 (Z.ltb_lt e 32)) by lia. cbv zeta.
  replace (8 * e + 8 - 1) with (8 * e + 7) by lia. replace (8 * e + 8) with (8 * e + 7 + 1) by lia.
  rewrite lor_lnot_ones, Z.land_ones, mod_pow2_bit by lia. set (b := 8 * e + 7). f_equal.
  pose proof (Z.pow_pos_nonneg 2 b ltac:(lia) ltac:(lia)). pose proof (Z.mod_pos_bound x (2 ^ b)).
  rewrite Z.pow_add_r by lia. change (2 ^ 1) with 2.
  destruct (Z.testbit x b), (Z.ltb_spec (x mod 2 ^ b + 2 ^ b) (2 ^ b)),
    (Z.ltb_spec (x mod 2 ^ b + 0) (2 ^ b)); lia.
Qed.

(** SIGNEXTEND with two words on the stack extends the sign of the low
    [e + 1] bytes for [e] below 32 and leaves the word alone for any larger
    [e]. *)
Lemma opSignExtension_spec {H : Type} :
  computes2 (opSignExtension (H:=H)) signext.
Proof.
  intros s e x st Hst He Hx. pose proof He as [He0 _]. unfold opSignExtension. exec_inst Hst. unfold wordSize.
  destruct (Z.ltb_spec 32 e) as [Hgt|Hle].
  - unfold signext. rewrite (proj2 (Z.ltb_ge e 32)) by lia. done.
  - rewrite Uint64_small, u64_small, toU256_mod, Z.mul_comm by lia. rewrite Z.shiftl_1_l.
    replace (2 ^ (8 * e + 7) - 1) with (Z.ones (8 * e + 7)) by (rewrite Z.ones_equiv; lia).
    destruct (Z.lt_ge_cases e 32); [by rewrite signext_bits by lia|].
    assert (e = 32) as -> by lia. destruct Hx as [Hx0 Hx1]. change (8 * 32 + 7) with 263.
    assert (Z.log2 x < 263).
    { destruct (Z.eq_dec x 0) as [->|]; [done|]. apply Z.log2_lt_pow2; lia. }
    by rewrite Z.bits_above_log2, Z.land_ones, (Z.mod_small x (2 ^ 263)), Z.mod_small by lia.
Qed.

(** ** BYTE *)

Lemma opByte_exec {H : Type} (s : state H) x y st :
  stack s = x :: y :: st →
  opByte s = Some (tt, set_stack ((if 31 <? Int64 x then 0
    else Z.land (Z.shiftr y (u64 (i64 (i64 (31 - Int64 x) * 8)))) 255) :: st) s).
Proof. intros Hst. unfold opByte. exec_inst Hst. destruct (31 <? Int64 x); done. Qed.

(** C36. The arithmetic instructions on all operands: ADD, MUL, SUB, ADDMOD
    and MULMOD compute modulo [2^256] or the given modulus, DIV and MOD the
    quotient and remainder of unsigned words, SDIV and SMOD those of signed
    words rounded towards zero, all of them 0 for a zero divisor or modulus,
    SIGNEXTEND extends the sign of the low bytes, SHL, SHR and SAR shift
    by any 256-bit amount as the mathematical shifts do, and the
    square-and-multiply loop of EXP computes the power modulo [2^256] for 50
    gas (10 before EIP158) per byte of the exponent. *)
Theorem arithmetic_ops {H : Type} :
  (computes2 (opAdd (H:=H)) (λ a b, wrap (a + b)) ∧
   computes2 (opMul (H:=H)) (λ a b, wrap (a * b)) ∧
   computes2 (opSub (H:=H)) (λ a b, wrap (a - b)) ∧
   computes3 (opAddMod (H:=H)) (λ a b n, if n =? 0 then 0 else (a + b) mod n) ∧
   computes3 (opMulMod (H:=H)) (λ a b n, if n =? 0 then 0 else (a * b) mod n)) ∧
  (computes2 (opDiv (H:=H)) (λ a b, if b =? 0 then 0 else a / b) ∧
   computes2 (opMod (H:=H)) (λ a b, if b =? 0 then 0 else a mod b) ∧
   computes2 (opSDiv (H:=H)) (λ a b, if b =? 0 then 0 else wrap (Z.quot (signed a) (signed b))) ∧
   computes2 (opSMod (H:=H)) (λ a b, if b =? 0 then 0 else wrap (Z.rem (signed a) (signed b)))) ∧
  computes2 (opSignExtension (H:=H)) signext ∧
  (∀ (s : state H) (n v : Z) (st : list Z),
     stack s = n :: v :: st → u256 n → u256 v → Constantinople (config s) = true →
     opShl s = Some (tt, set_stack (wrap (v * 2 ^ n) :: st) s) ∧
     opShr s = Some (tt, set_stack (v / 2 ^ n :: st) s) ∧
     opSar s = Some (tt, set_stack (wrap (signed v / 2 ^ n) :: st) s)) ∧
  (∀ (s : state H) (x y : Z) (st : list Z),
     stack s = x :: y :: st → u256 x → u256 y →
     (if EIP158 (config s) then 50 else 10) * zlen (Bytes y) ≤ gas s →
     ∃ s', opExp s = Some (tt, s') ∧ stack s' = wrap (x ^ y) :: st ∧
       gas s' = gas s - (if EIP158 (config s) then 50 else 10) * zlen (Bytes y) ∧ err s' = err s).
Proof.
  split; [apply ring_ops|]. split; [apply division_ops|]. split; [apply opSignExtension_spec|].
  split; [intros; by apply shift_ops|]. intros. by apply opExp_power.
Qed.

(** BYTE returns the byte of the word at a big-endian index, and 0 for
    an index from 32 up to [2^63 - 1]. *)
Lemma opByte_index {H : Type} (s : state H) (x y : Z) (st : list Z) :
  stack s = x :: y :: st → 0 ≤ x < 2 ^ 63 → u256 y →
  opByte s = Some (tt, set_stack ((if x <? 32 then (y / 256 ^ (31 - x)) mod 256 else 0) :: st) s).
Proof.
  intros Hst Hx Hy. rewrite (opByte_exec s x y st Hst). do 4 f_equal.
  assert (Int64 x = x) as ->.
  { unfold Int64. rewrite (proj2 (Z.ltb_ge x 0)), Z.abs_eq, i64_small by lia. done. }
  destruct (Z.ltb_spec 31 x), (Z.ltb_spec x 32); try lia.
  rewrite (i64_small (31 - x)), i64_small, u64_small by lia. change 255 with (Z.ones 8).
  rewrite Z.land_ones, Z.shiftr_div_pow2, pow256, (Z.mul_comm 8) by lia. done.
Qed.

(** For the index [2^64] BYTE returns the most significant byte of the
    word instead of 0: the index is truncated to 64 bits before it is
    compared with 31. *)
Lemma opByte_truncates_index {H : Type} (s : state H) (y : Z) (st : list Z) :
  stack s = 2 ^ 64 :: y :: st → u256 y →
  opByte s = Some (tt, set_stack (y / 2 ^ 248 :: st) s).
Proof.
  intros Hst Hy. rewrite (opByte_exec s (2 ^ 64) y st Hst). do 4 f_equal.
  change (Int64 (2 ^ 64)) with 0. cbn [Z.ltb Z.compare]. change (u64 (i64 (i64 (31 - 0) * 8))) with 248.
  assert (0 ≤ y / 2 ^ 248 < 2 ^ 8).
  { destruct Hy. split; [apply Z.div_pos; lia|apply Z.div_lt_upper_bound; lia]. }
  change 255 with (Z.ones 8). rewrite Z.land_ones, Z.shiftr_div_pow2, Z.mod_small by lia. done.
Qed.

