(* ===== verification/EvmProps.v ===== *)
(** * The guarantees of the virtual machine

    The theorems about whole runs of [EVM.Run]: termination, gas accounting,
    absence of panics, the shape of the states a run goes through, and
    independence from the state the pool hands out. Each comes with an
    instance on the host of EvmArith. *)

From S2P Require Import Prelude BigInt Chain Types Runtime EvmOpcodes EvmState EvmInstructions EvmBuffers.
From S2P Require Import EvmBuffers EvmLogic EvmSafety EvmInstOk EvmRun EvmInterp EvmArith.
From stdpp Require Import gmap.
#[local] Open Scope Z_scope.

Section whole_runs.
Context {H : Type} `{!Host H, !HostLaws H, !GoRuntime, !Keccak, !Fastrlp}.
Implicit Types p s : state H.

(** What [EVM.Run] promises of a result. *)
Definition result_ok (c : Contract) (r : ExecutionResult) : Prop :=
  0 ≤ GasLeft r ≤ Gas c ∧ GasUsed r = Gas c - GasLeft r ∧ bytes_ok (ReturnValue r) ∧
  (Succeeded r = false → Reverted r = false → GasLeft r = 0).

(** A crashing state is reached from the initial state of the call. *)
Definition can_crash p (c : Contract) (h : H) (cfg : ForksInTime) : Prop :=
  ∃ s0 s, initState (reset p) c h cfg = Some s0 ∧ rtc run_step s0 s ∧ crashing s.

Lemma EVM_Run_ok fuel p c h cfg :
  call_ready c → EIP150 cfg = true → 0 ≤ memcap p → (Z.to_nat (Gas c) + 2 ≤ fuel)%nat →
  (∃ r h', EVM_Run fuel (reset p) c h cfg = Done (r, h') ∧ result_ok c r) ∨
  (EVM_Run fuel (reset p) c h cfg = Panicked ∧ can_crash p c h cfg).
Proof.
  intros Hc Hrules Hcap Hfuel. destruct (initState_ok p c h cfg Hc Hrules Hcap) as (s & Es & Hi & Hst & Hg & _).
  unfold EVM_Run, Run. rewrite Es.
  destruct (Run_loop_ok fuel s) as [(s' & -> & Hwf & Hf & _)|(-> & s' & Hr & Hcr)];
    [done|unfold iterations; rewrite Hst, Hg; lia| |].
  - left. eexists _, _. split; [done|]. pose proof (wf_gas _ Hwf). pose proof (fr_gas _ _ Hf).
    pose proof (cr_gas _ Hc). pose proof (wf_ret _ Hwf). unfold result_ok, Succeeded, Reverted. simpl.
    destruct (bool_decide (err s' = None)), (bool_decide (err s' = Some ErrExecutionReverted));
      simpl; rewrite u64_small; split_and!; try done; lia.
  - right. split; [done|]. by exists s, s'.
Qed.

(** The opcodes whose copies can run out of range. *)
Definition copy_ops : list OpCode := [RETURNDATACOPY; CALL; CALLCODE; DELEGATECALL; STATICCALL].

Lemma no_copy_no_crash p c h cfg :
  call_ready c → EIP150 cfg = true → 0 ≤ memcap p → Forall (λ op, op ∉ Code c) copy_ops → ¬ can_crash p c h cfg.
Proof.
  intros Hc Hrules Hcap Hno (s0 & s & Es & Hr & _ & Hcr).
  destruct (initState_ok p c h cfg Hc Hrules Hcap) as (s1 & Es1 & Hi & _ & _ & Hcode & _).
  rewrite Es in Es1. injection Es1 as <-. destruct (reachable_ok _ _ Hi Hr) as [Hf _].
  destruct (code s !! Z.to_nat (ip s)) as [op|] eqn:E; [|done].
  rewrite (fr_code _ _ Hf), Hcode in E. apply list_elem_of_lookup_2 in E.
  unfold slices_in_range in Hcr.
  repeat (match goal with Hn : context [op =? ?k] |- _ => destruct (Z.eqb_spec op k) as [->|] end;
    [by eapply (proj1 (Forall_forall _ _) Hno), E; unfold copy_ops; set_solver|simpl in Hcr]). done.
Qed.
End whole_runs.

(** C1. Under rules that include EIP150, every call of the virtual machine
    ends: with as many loop iterations as it has gas, and two more,
    [EVM.Run] never runs out of fuel. (Under older rules the gas of a nested
    call can wrap around, [call_gas_wraps] below, and no such bound holds.)
    It returns a result whose left-over gas is at most the gas of the call,
    whose used gas is the difference, and which keeps no gas after an error
    other than a revert; or it panics, and then a state was reached whose
    next instruction copies an empty range outside the memory. *)
Theorem EVM_Run_terminates {H : Type} `{!Host H, !HostLaws H, !GoRuntime, !Keccak, !Fastrlp}
    (fuel : nat) (p : state H) (c : Contract) (h : H) (cfg : ForksInTime) :
  call_ready c → EIP150 cfg = true → 0 ≤ memcap p → (Z.to_nat (Gas c) + 2 ≤ fuel)%nat →
  (∃ r h', EVM_Run fuel (reset p) c h cfg = Done (r, h') ∧ result_ok c r) ∨
  (EVM_Run fuel (reset p) c h cfg = Panicked ∧ can_crash p c h cfg).
Proof. apply EVM_Run_ok. Qed.

Ltac demo_bytes := apply (bool_decide_unpack _); vm_compute; exact I.

Lemma demo_ready code gas :
  bytes_ok code → zlen code < 2 ^ 62 → 0 ≤ gas < 2 ^ 64 → call_ready (demo_contract code gas).
Proof.
  intros. split; try done. split; simpl; try apply ZeroAddress_ok; try done. repeat constructor; lia.
Qed.

(** A loop: JUMPDEST, PUSH1 0, JUMP. *)
Definition demo_loop : list Z := [JUMPDEST; PUSH1; 0; JUMP].

Lemma EVM_Run_terminates_witness :
  (∃ r h', EVM_Run 102 (reset demo_pooled) (demo_contract demo_loop 100) tt all_rules = Done (r, h') ∧
     result_ok (demo_contract demo_loop 100) r) ∨
  (EVM_Run 102 (reset demo_pooled) (demo_contract demo_loop 100) tt all_rules = Panicked ∧
     can_crash demo_pooled (demo_contract demo_loop 100) tt all_rules).
Proof.
  apply EVM_Run_terminates; [apply demo_ready; [demo_bytes|done|done]|done|done|].
  apply Nat.leb_le. reflexivity.
Defined.

(** C28. Under rules that include EIP150, a contract whose code contains no
    RETURNDATACOPY and no call instruction cannot panic the virtual machine:
    [EVM.Run] returns a well-formed result. *)
Theorem EVM_Run_no_panic {H : Type} `{!Host H, !HostLaws H, !GoRuntime, !Keccak, !Fastrlp}
    (fuel : nat) (p : state H) (c : Contract) (h : H) (cfg : ForksInTime) :
  call_ready c → EIP150 cfg = true → 0 ≤ memcap p → (Z.to_nat (Gas c) + 2 ≤ fuel)%nat →
  Forall (λ op, op ∉ Code c) copy_ops →
  ∃ r h', EVM_Run fuel (reset p) c h cfg = Done (r, h') ∧ result_ok c r.
Proof.
  intros Hc Hrules Hcap Hfuel Hno. destruct (EVM_Run_ok fuel p c h cfg Hc Hrules Hcap Hfuel) as [|[_ Hcr]]; [done|].
  by apply no_copy_no_crash in Hcr.
Qed.

Lemma EVM_Run_no_panic_witness :
  ∃ r h', EVM_Run 102 (reset demo_pooled) (demo_contract demo_loop 100) tt all_rules = Done (r, h') ∧
    result_ok (demo_contract demo_loop 100) r.
Proof.
  apply EVM_Run_no_panic; [apply demo_ready; [demo_bytes|done|done]|done|done| |demo_bytes].
  apply Nat.leb_le. reflexivity.
Defined.

(** C5. Under rules that include EIP150, in every state the loop of [Run]
    goes through, the stack holds at most 1024 words, all below [2^256] while
    the code has not ended; memory is a whole number of 32-byte words and at
    most [2^41] bytes, paid for by [lastGasCost]; code, message and rules are
    those of the call, and gas is at most the gas of the call. *)
Theorem reachable_states {H : Type} `{!Host H, !HostLaws H, !GoRuntime, !Keccak, !Fastrlp}
    (p : state H) (c : Contract) (h : H) (cfg : ForksInTime) (s0 s : state H) :
  call_ready c → EIP150 cfg = true → 0 ≤ memcap p → initState (reset p) c h cfg = Some s0 → rtc run_step s0 s →
  zlen (stack s) ≤ 1024 ∧ (ip s < zlen (code s) → Forall u256 (stack s)) ∧
  zlen (memory s) mod 32 = 0 ∧ zlen (memory s) ≤ 2 ^ 41 ∧
  (stop s = false → lastGasCost s = memCost (zlen (memory s) / 32)) ∧
  code s = Code c ∧ msg s = c ∧ config s = cfg ∧ 0 ≤ gas s ≤ Gas c.
Proof.
  intros Hc Hrules Hcap Es Hr. destruct (initState_ok p c h cfg Hc Hrules Hcap) as (s1 & Es1 & Hi & _ & Hg & Hcode & Hm & _).
  assert (config s0 = cfg) as Hcfg.
  { unfold initState in Es. by destruct (setCode _ _); simplify_eq/=. }
  rewrite Es in Es1. injection Es1 as <-. destruct (reachable_ok _ _ Hi Hr) as [[] [[] ? ?]].
  unfold stackSize in *. split_and!; try done; try congruence; lia.
Qed.

Lemma reachable_states_witness :
  ∃ s0 s : state unit, initState (reset demo_pooled) (demo_contract demo_loop 100) tt all_rules = Some s0 ∧
    ip s = 3 ∧ zlen (stack s) ≤ 1024.
Proof.
  destruct (initState (reset demo_pooled) (demo_contract demo_loop 100) tt all_rules) as [s0|] eqn:E;
    [|vm_compute in E; discriminate E].
  destruct (Run_body s0) as [[b1 s1]|] eqn:E1;
    [|vm_compute in E; injection E as <-; vm_compute in E1; discriminate E1].
  destruct (Run_body s1) as [[b2 s2]|] eqn:E2;
    [|vm_compute in E; injection E as <-; vm_compute in E1; injection E1 as _ <-; vm_compute in E2; discriminate E2].
  exists s0, s2. split; [done|]. split.
  - vm_compute in E; injection E as <-; vm_compute in E1; injection E1 as _ <-; vm_compute in E2.
    injection E2 as _ <-. reflexivity.
  - eapply (reachable_states demo_pooled (demo_contract demo_loop 100) tt all_rules s0 s2);
      [apply demo_ready; [demo_bytes|done|done]|done|done|done|].
    vm_compute in E; injection E as <-; vm_compute in E1; injection E1 as <- <-; vm_compute in E2;
      injection E2 as <- <-.
    eapply rtc_l; [split; reflexivity|]. eapply rtc_l; [split; vm_compute; reflexivity|]. apply rtc_refl.
Defined.

(** ** Jumps *)

(** The bitmap built from the code of a call marks exactly the positions
    where a JUMPDEST instruction starts, push data skipped, and JUMP goes to
    such a position (the loop then adds one) or ends with the invalid-jump
    error. *)
Theorem opJump_jumpdest {H : Type} `{!GoRuntime} (s : state H) (d : Z) (st : list Z) :
  bytes_ok (code s) → zlen (code s) < 2 ^ 62 → setCode [] (code s) = Some (bitmap s) →
  stack s = d :: st → u256 d →
  (jumpdest (code s) d → opJump s = Some (tt, set_ip (d - 1) (set_stack st s))) ∧
  (¬ jumpdest (code s) d → opJump s = Some (tt, set_exit errInvalidJump (set_stack st s))).
Proof.
  intros Hc Hlen Hbm Hst [Hd _]. destruct (setCode_marks _ Hc) as (bm & E & Hbl & _ & Hm).
  rewrite Hbm in E. injection E as <-.
  assert (∀ j, 0 ≤ j < zlen (code s) → isSet (bitmap s) j = Some true ↔ jumpdest (code s) j) as Hj.
  { intros j Hj. rewrite (Hm j Hj). unfold jumpdest, op_start. split; [|by right].
    intros [Hz|]; [|done]. by apply isSet_zeros in Hz; [|lia]. }
  unfold opJump, bind, pop, validJumpdest, bind, deref, gets, pure, jumpTo, modify. rewrite Hst. cbn.
  destruct (Z.lt_ge_cases d (zlen (code s))) as [Hlt|Hge].
  - assert (BitLen d < 63) as Hbits.
    { assert (BitLen d ≤ 62); [|lia]. apply BitLen_spec; lia. }
    rewrite (proj2 (Z.leb_gt 63 _)), Uint64_small, (proj2 (Z.leb_gt _ d)) by lia. cbn.
    destruct (isSet_in_range (bitmap s) d Hd) as [b Eb].
    { rewrite Hbl. pose proof (Z.div_le_mono d (zlen (code s)) 8). lia. }
    rewrite Eb. specialize (Hj d ltac:(lia)). rewrite Eb in Hj. destruct b; cbn.
    + split; [|intros Hn; exfalso; by apply Hn, Hj]. intros _. do 3 f_equal.
      destruct (Z.eq_dec d 0) as [->|]; [done|]. rewrite u64_small, i64_small; lia.
    + split; [|done]. intros Hjd. apply Hj in Hjd. discriminate Hjd.
  - assert ((63 <=? BitLen d) || (zlen (code s) <=? Uint64 d) = true) as ->.
    { destruct (Z.leb_spec 63 (BitLen d)); [done|]. assert (BitLen d ≤ 63) as Hb by lia.
      apply BitLen_spec in Hb; [|lia]. rewrite Uint64_small by lia. by apply Z.leb_le. }
    cbn. split; [|done]. intros [_ Hl]. apply lookup_lt_Some in Hl. unfold zlen in *. lia.
Qed.

(** PUSH1 0x5b, JUMPDEST: only position 2 is a destination. *)
Definition demo_jump_state (d : Z) : state unit :=
  mkState 0 [PUSH1; 0x5b; JUMPDEST] tt (demo_contract [] 0) all_rules [] 0 0 [d] None false 0 0
    (default [] (setCode [] [PUSH1; 0x5b; JUMPDEST])) [] [].

Lemma opJump_jumpdest_witness :
  jumpdest [PUSH1; 0x5b; JUMPDEST] 2 ∧
  opJump (demo_jump_state 2) = Some (tt, set_ip 1 (set_stack [] (demo_jump_state 2))).
Proof.
  assert (jumpdest [PUSH1; 0x5b; JUMPDEST] 2) as Hj.
  { split; [|done]. eapply rtc_l; [|apply rtc_refl]. by exists PUSH1. }
  split; [done|]. apply (opJump_jumpdest (demo_jump_state 2) 2 []); [demo_bytes|done|done|done|split; lia|done].
Defined.

(** ** Memory *)

Section memory.
#[local] Arguments be_encode : simpl never.
Context {H : Type} `{!GoRuntime}.
Implicit Types s : state H.

Lemma mload_exec s o st :
  wf s → stack s = o :: st → allocated o 32 s →
  opMload s = Some (tt, set_stack (be_decode (take 32 (drop (Z.to_nat o) (memory s))) :: st) s).
Proof.
  intros Hwf Hst Hal. pose proof Hal as (Ho & _ & Ha). specialize (Ha ltac:(done)).
  pose proof (wf_cap _ Hwf). pose proof (wf_memmax _ Hwf). pose proof (wf_words _ Hwf) as Hw. rewrite Hst in Hw.
  apply wp_exact. unfold opMload. apply wp_bind, (wp_pop o st); [done|].
  unfold get2. apply wp_bind, wp_bind, (wp_deref _ 32); [done|].
  apply wp_bind, wp_allocated; [exact Hal|]. simpl.
  apply wp_bind, (wp_deref _ o); [done|]. change (Uint64 32) with 32. rewrite !Uint64_small, u64_small by lia.
  apply wp_bind, wp_sliceMemory; [apply wf_set_stack; [done|]; intros Hlt; by apply Hw, Forall_cons in Hlt as [_ ?]|lia|simpl; lia|]. intros l _ _ ->.
  apply wp_pure. simpl. apply wp_modify. split; [done|]. unfold set_stack. simpl. do 2 f_equal.
  replace (o + 32 - o) with 32 by lia. unfold SetBytes. rewrite resize_le; [done|].
  rewrite length_drop. unfold zlen in *. lia.
Qed.

Lemma drop_list_inserts {A} (l k : list A) i :
  (i + length k ≤ length l)%nat → take (length k) (drop i (list_inserts i k l)) = k.
Proof.
  intros Hle. apply list_eq. intros j. destruct (Nat.lt_ge_cases j (length k)) as [Hlt|Hge].
  - rewrite lookup_take_lt, lookup_drop by done.
    rewrite list_lookup_inserts by lia. f_equal. lia.
  - rewrite !lookup_ge_None_2; [done|lia|rewrite length_take; lia].
Qed.

Lemma wf_set_memory m s : wf s → bytes_ok m → zlen m = zlen (memory s) → wf (set_memory m (memcap s) s).
Proof. intros [] ? E. split; simpl; rewrite ?E; done. Qed.

(** MSTORE ends with an error, or has written the word. *)
Lemma mstore_exec s o v st :
  wf s → stack s = o :: v :: st → u256 o → u256 v →
  ∃ s1, opMStore s = Some (tt, s1) ∧
    (stop s1 = true ∨
     wf s1 ∧ stack s1 = st ∧ allocated o 32 s1 ∧
     take 32 (drop (Z.to_nat o) (memory s1)) = be_encode 32 v ∧ frame s s1).
Proof.
  intros Hwf Hst [Ho _] Hv. pose proof (wf_words _ Hwf) as Hw. rewrite Hst in Hw.
  cut (wp (PP:=False) opMStore (λ _ s1, stop s1 = true ∨
     wf s1 ∧ stack s1 = st ∧ allocated o 32 s1 ∧
     take 32 (drop (Z.to_nat o) (memory s1)) = be_encode 32 v ∧ frame s s1) s).
  { unfold wp. destruct (opMStore s) as [[[] s1]|]; [|done]. intros. by exists s1. }
  unfold opMStore. apply wp_bind, (wp_pop o (v :: st)); [done|]. apply wp_bind, (wp_pop v st); [done|].
  apply wp_bind, wp_allocateMemory; [|done|done| |].
  { apply wf_set_stack; [apply wf_set_stack; [done|]|].
    all: intros Hlt; apply Hw, Forall_cons in Hlt as [_ Hlt]; first [exact Hlt|by apply Forall_cons in Hlt as [_ ?]]. }
  2: { intros s' _ _ Hs'. apply wp_pure. by left. }
  intros s' Hms Hwf' Hal Hstop. simpl. pose proof Hal as (Ho' & _ & Ha). specialize (Ha ltac:(done)).
  pose proof (wf_cap _ Hwf'). pose proof (wf_memmax _ Hwf'). unfold wordSize in *.
  apply wp_bind, (wp_deref _ o); [done|]. rewrite !Uint64_small, !(u64_small (o + 32)) by lia.
  apply wp_bind, wp_sliceMemory; [done|lia|lia|]. intros buf _ Hlen _.
  apply wp_bind, (wp_deref _ v); [done|]. rewrite mstore_buf_spec by (try done; unfold zlen in Hlen; lia).
  apply wp_bind, (wp_deref _ (be_encode 32 v)); [done|].
  unfold wp, copyMemory. rewrite (proj2 (Z.leb_le o (o + 32))), (proj2 (Z.leb_le (o + 32) _)) by lia.
  simpl. right. set (m := list_inserts _ _ _).
  replace (o + 32 - o) with 32 in m by lia.
  assert (m = list_inserts (Z.to_nat o) (be_encode 32 v) (memory s')) as Em.
  { unfold m. rewrite take_ge; [done|]. rewrite length_be_encode. lia. }
  assert (zlen m = zlen (memory s')) as Hm by (rewrite Em; unfold zlen; by rewrite length_inserts).
  split_and!.
  - apply wf_set_memory; [done| |done]. rewrite Em. apply Forall_inserts; [apply Hwf'|apply be_encode_ok].
  - apply (ms_stack _ _ Hms).
  - unfold allocated. simpl. rewrite Hm. apply Hal.
  - simpl. rewrite Em. rewrite <- (length_be_encode 32 v) at 1. apply drop_list_inserts.
    rewrite length_be_encode. unfold zlen in *. lia.
  - destruct (ms_frame _ _ Hms). clear - fr_code fr_msg fr_config fr_bitmap fr_gas fr_mem fr_cap Hm.
    split; cbn [memory set_memory]; rewrite ?Hm; assumption.
Qed.
End memory.

(** Reading back a stored word: after an MSTORE that does not end the
    run, MLOAD at the same offset pushes exactly the stored word, without
    further cost and without touching memory. *)
Theorem mstore_mload {H : Type} `{!GoRuntime} (s : state H) (o v : Z) (st : list Z) :
  wf s → stack s = o :: v :: st → u256 o → u256 v →
  ∃ s1, opMStore s = Some (tt, s1) ∧
    (stop s1 = false → opMload (set_stack (o :: st) s1) = Some (tt, set_stack (v :: st) s1)).
Proof.
  intros Hwf Hst Ho Hv. destruct (mstore_exec s o v st Hwf Hst Ho Hv) as (s1 & E & Hs1).
  exists s1. split; [done|]. intros Hstop. destruct Hs1 as [|(Hwf1 & Hst1 & Hal & Hm & Hf)]; [congruence|].
  rewrite (mload_exec _ o st); [|apply wf_set_stack; [done|]|done|exact Hal].
  - cbn [memory set_stack]. rewrite Hm, be_decode_encode, Z.mod_small by exact Hv. done.
  - intros Hlt. constructor; [done|]. rewrite <- Hst1. by apply Hwf1.
Qed.

Lemma demo_wf st g : Forall u256 st → 0 ≤ g < 2 ^ 64 → wf (demo_stack st g).
Proof.
  intros Hst Hg. split; simpl; try done; try by apply Forall_nil_2; intros; try lia.
  - unfold zlen. simpl. lia.
  - split; simpl; try apply ZeroAddress_ok; try done. demo_bytes.
Qed.

Lemma mstore_mload_witness :
  ∃ s1, opMStore (demo_stack [64; 7] 100) = Some (tt, s1) ∧
    (stop s1 = false → opMload (set_stack [64] s1) = Some (tt, set_stack [7] s1)).
Proof.
  apply mstore_mload; [|done|split; lia|split; lia].
  apply demo_wf; [|lia]. repeat constructor; lia.
Defined.

(** ** Static calls *)

(** In a static call no instruction that changes the host runs: SSTORE,
    SELFDESTRUCT, CREATE, CREATE2, LOG and a CALL with a value end with the
    write-protection error and leave host, stack and gas as they were; and
    every call made from a static call is static. *)
Theorem static_call_protects {H : Type} `{!Host H, !GoRuntime, !Keccak, !Fastrlp} (s : state H) :
  Static (msg s) = true →
  Forall (λ i, i s = Some (tt, set_exit errWriteProtection s))
    ([opSStore; opSelfDestruct; opCreate CREATE; opCreate CREATE2] ++ map opLog [1; 2; 3; 4; 5]) ∧
  (∀ v, stack s !! 2%nat = Some v → 0 < v →
     opCall CALL s = Some (tt, set_exit errWriteProtection (set_returnData [] s))) ∧
  ∀ op a v g code args, Static (callMessage op (msg s) a v g code args) = true.
Proof.
  intros Hst. split_and!.
  - repeat apply Forall_cons_2; try apply Forall_nil_2.
    all: unfold opSStore, opSelfDestruct, opCreate, opLog, inStaticCall, bind, gets; by rewrite Hst.
  - intros v Hv Hpos. apply wp_exact. unfold opCall. apply wp_bind, wp_modify, wp_bind, wp_gets.
    cbn [msg set_returnData]. rewrite Hst. apply wp_bind, wp_bind, wp_bind, wp_gets, (wp_deref _ v); [exact Hv|].
    assert (0 < BitLen v) as Hb.
    { pose proof (BitLen_nonneg v). destruct (Z.eq_dec (BitLen v) 0) as [E|]; [|lia].
      assert (BitLen v ≤ 0) as Hle by lia. apply BitLen_spec in Hle; simpl in Hle; lia. }
    rewrite (proj2 (Z.ltb_lt _ _) Hb). by apply wp_pure, wp_exit.
  - intros. unfold callMessage. repeat case_match; simpl; rewrite Hst; apply orb_true_r.
Qed.

Definition demo_static_state (st : list Z) : state unit :=
  mkState 0 [] tt (with_call (demo_contract [] 0) true ZeroAddress None ZeroAddress) all_rules [] 0 0 st
    None false 100 0 [] [] [].

Lemma static_call_protects_witness :
  opCall CALL (demo_static_state [0; 0; 1; 0; 0; 0; 0]) =
  Some (tt, set_exit errWriteProtection (set_returnData [] (demo_static_state [0; 0; 1; 0; 0; 0; 0]))).
Proof. eapply (static_call_protects (demo_static_state [0; 0; 1; 0; 0; 0; 0])); [done|reflexivity|lia]. Defined.

(** ** The price of memory *)

(** The protocol's price of [w] words of memory. *)
Definition memPrice (w : Z) : Z := 3 * w + w * w / 512.

Lemma memCost_price w : 0 ≤ w < 2 ^ 32 → memCost w = memPrice w.
Proof.
  intros Hw. unfold memCost, memPrice. assert (w * w < 2 ^ 64) by nia.
  assert (0 ≤ w * w / 512 < 2 ^ 55).
  { split; [apply Z.div_pos; nia|apply Z.div_lt_upper_bound; lia]. }
  rewrite (u64_small (3 * w)), (u64_small (w * w)), u64_small by nia. done.
Qed.

Lemma memCost_large w : 2 ^ 32 ≤ w ≤ 2 ^ 36 → 3 * 2 ^ 32 ≤ memCost w.
Proof.
  intros Hw. unfold memCost. pose proof (u64_range (w * w)).
  assert (0 ≤ u64 (w * w) / 512 < 2 ^ 55).
  { split; [apply Z.div_pos; lia|apply Z.div_lt_upper_bound; lia]. }
  rewrite (u64_small (3 * w)), u64_small by lia. lia.
Qed.

Lemma memPrice_mono w w' : 0 ≤ w ≤ w' → memPrice w ≤ memPrice w'.
Proof. intros. unfold memPrice. assert (w * w / 512 ≤ w' * w' / 512) by (apply Z.div_le_mono; nia). lia. Qed.

(** The step that charges for [w] words. *)
Lemma charge_memory w last gas :
  0 ≤ last → 0 ≤ w ≤ 2 ^ 36 → 0 ≤ gas → gas + memPrice last < 3 * 2 ^ 32 → last ≤ w → last < 2 ^ 32 →
  u64 (memCost w - memPrice last) ≤ gas →
  w < 2 ^ 32 ∧ u64 (memCost w - memPrice last) = memPrice w - memPrice last.
Proof.
  intros Hl Hw Hg Hsum Hle Hlast Hcost.
  assert (0 ≤ memPrice last) by (apply (memPrice_mono 0); lia).
  destruct (Z.lt_ge_cases w (2 ^ 32)) as [Hlt|Hge].
  - split; [done|]. rewrite memCost_price by lia. apply u64_small.
    pose proof (memPrice_mono last w). pose proof (memCost_price w ltac:(lia)) as E.
    pose proof (u64_range (u64 (3 * w) + u64 (w * w) / 512)). unfold memCost in E. lia.
  - pose proof (memCost_large w ltac:(lia)).
    pose proof (u64_range (u64 (3 * w) + u64 (w * w) / 512)) as Hr. fold (memCost w) in Hr.
    rewrite u64_small in Hcost; lia.
Qed.

(** Memory is paid for by the formula of the protocol: an allocation
    that succeeds takes [3 w + w^2 / 512] for the new number of words less
    the same for the old one, as long as the gas left and the price of the
    memory so far are together below [3 * 2^32] (no product of the
    computation then exceeds 64 bits). *)
Lemma allocateMemory_price {H : Type} `{!GoRuntime} (s : state H) (o sz : Z) (s' : state H) :
  wf s → stop s = false → 0 ≤ o → 0 ≤ sz → zlen (memory s) < 2 ^ 37 →
  gas s + memPrice (zlen (memory s) / 32) < 3 * 2 ^ 32 →
  allocateMemory (Some o) (Some sz) s = Some (true, s') →
  gas s - gas s' = memPrice (zlen (memory s') / 32) - memPrice (zlen (memory s) / 32).
Proof.
  intros Hwf Hstop Ho Hsz Hmem Hgas E.
  cut (wp (PP:=True) (allocateMemory (Some o) (Some sz)) (λ b s', b = true →
    gas s - gas s' = memPrice (zlen (memory s') / 32) - memPrice (zlen (memory s) / 32)) s).
  { unfold wp. rewrite E. auto. }
  clear E. pose proof (wf_gas _ Hwf) as Hg0. pose proof (wf_cost _ Hwf Hstop) as Hlast.
  pose proof (wf_memmod _ Hwf) as Hmod.
  assert (0 ≤ zlen (memory s) / 32 < 2 ^ 32).
  { split; [apply Z.div_pos; unfold zlen; lia|apply Z.div_lt_upper_bound; lia]. }
  rewrite memCost_price in Hlast by done.
  unfold allocateMemory. apply wp_bind, (wp_deref _ o); [done|].
  destruct (IsUint64 o) eqn:Eo; cbn [negb]; [|by apply wp_bind, wp_exit, wp_pure].
  apply wp_bind, (wp_deref _ sz); [done|].
  destruct (IsUint64 sz) eqn:Es; cbn [negb]; [|by apply wp_bind, wp_exit, wp_pure].
  apply IsUint64_spec in Eo, Es.
  destruct (sz =? 0); [apply wp_pure; intros _; lia|]. rewrite !Uint64_small by done.
  destruct ((0xffffffffe0 <? o) || (0xffffffffe0 <? sz)) eqn:Eb; [by apply wp_bind, wp_exit, wp_pure|].
  apply orb_false_iff in Eb as [Eb1 Eb2]. apply Z.ltb_ge in Eb1, Eb2.
  apply wp_bind, wp_gets. rewrite (u64_small (o + sz)) by lia.
  destruct (Z.ltb_spec (zlen (memory s)) (o + sz)) as [Hlt|Hge]; [|apply wp_pure; intros _; lia].
  rewrite (u64_small (o + sz + 31)) by lia. set (w := (o + sz + 31) / 32).
  assert (zlen (memory s) / 32 ≤ w ≤ 2 ^ 36 ∧ 0 ≤ w) as Hw.
  { unfold w. split; [split|]; [apply Z.div_le_mono; lia|apply Z.div_le_upper_bound; lia|apply Z.div_pos; lia]. }
  fold (memCost w). apply wp_bind, wp_gets, wp_bind, wp_modify, wp_bind. rewrite Hlast.
  unfold consumeGas. apply wp_bind, wp_modify, wp_bind, wp_gets. cbn.
  destruct (Z.ltb_spec (gas s) (u64 (memCost w - memPrice (zlen (memory s) / 32)))) as [Hpoor|Hrich].
  { by apply wp_bind, wp_exit, wp_pure, wp_bind, wp_exit, wp_pure. }
  destruct (charge_memory w (zlen (memory s) / 32) (gas s)) as [Hw32 Ec]; try lia.
  apply wp_bind, wp_modify, wp_pure, wp_bind, wp_modify, wp_pure. intros _. cbn.
  rewrite Ec, (u64_small (w * 32)), zlen_resize, Z.div_mul by lia. lia.
Qed.

Lemma allocateMemory_price_witness :
  gas (demo_stack [] 100) - 97 =
  memPrice 1 - memPrice (zlen (memory (demo_stack [] 100)) / 32).
Proof.
  destruct (allocateMemory (Some 0) (Some 32) (demo_stack [] 100)) as [[b s']|] eqn:E;
    [|vm_compute in E; discriminate E].
  pose proof (allocateMemory_price (demo_stack [] 100) 0 32 s') as Hp.
  vm_compute in E. injection E as <- <-. apply Hp; try done.
  apply demo_wf; [by apply Forall_nil_2|lia].
Defined.

(** ** Gas of nested calls *)

(** The gas a call instruction passes on under EIP150: the smaller of
    what the program asks for (any 256-bit number) and all but one 64th of
    what is left after the price of the call; price and passed gas together
    never exceed the gas at hand and do not wrap. *)
Theorem call_gas_63_64 {H : Type} `{!Host H} (op : OpCode) (cfg : ForksInTime) (h : H) (a : Address)
    (transfers : bool) (have ask : Z) :
  let cost := callCost op cfg h a transfers in
  EIP150 cfg = true → 0 ≤ have < 2 ^ 64 → u256 ask → cost ≤ have →
  ∃ g, callGas (EIP150 cfg) have cost ask = Some g ∧
    g = Z.min ask (have - cost - (have - cost) / 64) ∧ u64 (cost + g) = cost + g ∧ cost + g ≤ have.
Proof.
  intros cost Hcfg Hh [Ha _] Hc. destruct (callCost_bounds op cfg h a transfers Hcfg) as [Hb _].
  rewrite Hcfg. destruct (callGas_eip150 have cost ask) as (g & -> & Hg & Hsum & Hmin); [done|unfold cost; lia|done|].
  specialize (Hmin Hc). exists g. assert (0 ≤ (have - cost) / 64) by (apply Z.div_pos; lia).
  split_and!; [done|done|apply u64_small; unfold cost in *; lia|lia].
Qed.

Lemma call_gas_63_64_witness :
  ∃ g, callGas true 10000 (callCost CALL all_rules tt ZeroAddress false) (2 ^ 200) = Some g ∧
    g = Z.min (2 ^ 200) (9300 - 9300 / 64) ∧ u64 (700 + g) = 700 + g ∧ 700 + g ≤ 10000.
Proof.
  apply (call_gas_63_64 CALL all_rules tt ZeroAddress false 10000 (2 ^ 200));
    [done|lia|split; lia|vm_compute; intros E; discriminate E].
Defined.

(** Before EIP150 the price of a call and the gas it asks for are added
    without a check, so the sum can wrap around: with [cost - 1] gas at hand
    a call that asks for [2^64 - 1] is charged all of it and passes the
    [2^64 - 1] on. *)
Theorem call_gas_wraps {H : Type} `{!Host H} (op : OpCode) (cfg : ForksInTime) (h : H) (a : Address)
    (transfers : bool) (have : Z) :
  let cost := callCost op cfg h a transfers in
  EIP150 cfg = false →
  callGas (EIP150 cfg) have cost (2 ^ 64 - 1) = Some (2 ^ 64 - 1) ∧ u64 (cost + (2 ^ 64 - 1)) = cost - 1.
Proof.
  intros cost Hcfg. rewrite Hcfg. split; [reflexivity|].
  assert (0 < cost < 2 ^ 63) as Hc by (unfold cost, callCost; repeat case_match; lia).
  unfold u64. replace (cost + (2 ^ 64 - 1)) with (cost - 1 + 1 * 2 ^ 64) by lia.
  rewrite Z.mod_add, Z.mod_small; lia.
Qed.

Definition no_rules : ForksInTime := {|
  Homestead := false; Byzantium := false; Constantinople := false; Petersburg := false;
  Istanbul := false; EIP150 := false; EIP158 := false; EIP155 := false |}.

(** A STATICCALL with 39 gas under those rules: the callee gets
    [2^64 - 1]. *)
Example call_gas_wraps_run :
  match buildCallContract STATICCALL
    (mkState 0 [] tt (demo_contract [] 39) no_rules [] 0 0 [2 ^ 64 - 1; 1; 0; 0; 0; 0] None false 39 0 [] [] []) with
  | Some (CallOk c _ _, s) => Gas c = 2 ^ 64 - 1 ∧ gas s = 0
  | _ => False
  end.
Proof. vm_compute. split; reflexivity. Qed.

(** ** The dispatch table *)

(** [init] never registers an opcode twice, so it does not panic, and
    the dispatch table maps an opcode to a handler exactly when [init]
    registers that pair; every opcode with a handler has a name. *)
Lemma dispatch_table_init {H : Type} `{!Host H, !GoRuntime, !Keccak, !Fastrlp} :
  is_Some (foldl register (Some ∅) (registrations (H:=H))) ∧
  (∀ op h, dispatchTable (H:=H) !! op = Some h ↔ (op, h) ∈ registrations) ∧
  ∀ op h, dispatchTable (H:=H) !! op = Some h → is_Some (opCodeToString !! op).
Proof.
  destruct (dispatchTable_spec (H:=H)) as [Hi Ht]. split_and!; [done|done|]. intros op h Hl. apply Ht in Hl.
  assert (Forall (λ op, is_Some (opCodeToString !! op)) (registrations (H:=H)).*1) as Hn.
  { apply (bool_decide_unpack _). vm_compute. exact I. }
  apply (proj1 (Forall_forall _ _) Hn). apply list_elem_of_fmap. by exists (op, h).
Qed.

(** ** Pooled states *)

(** A run does not see what earlier runs left in the pooled state: two
    states that went through [reset] and have the same memory capacity give
    the same outcome, result and host. *)
Lemma EVM_Run_pool {H : Type} `{!Host H, !GoRuntime, !Keccak, !Fastrlp}
    (fuel : nat) (p q : state H) (c : Contract) (h : H) (cfg : ForksInTime) :
  memcap p = memcap q → EVM_Run fuel (reset p) c h cfg = EVM_Run fuel (reset q) c h cfg.
Proof. intros E. unfold EVM_Run, initState, reset. cbn. by rewrite E. Qed.

(** ** Panics *)

(** Where the instructions leave the protocol. BYTE truncates its index to
    64 bits before comparing it with 31: for the index [2^64] it returns the
    most significant byte instead of 0. Empty ranges of return data are not
    treated as empty: RETURNDATACOPY of no bytes to an offset past the end of
    the memory slices the memory out of range, and so does a CALL that asks
    for no bytes of output at an offset past the capacity of the memory when
    the callee returns data; both panic the interpreter. *)
Theorem instruction_deviations :
  (∀ (s : state unit) (y : Z) (st : list Z), stack s = 2 ^ 64 :: y :: st → u256 y →
     opByte s = Some (tt, set_stack (y / 2 ^ 248 :: st) s)) ∧
  demo_run [PUSH1; 0; PUSH1; 0; PUSH1; 1; RETURNDATACOPY] 100 = Panicked ∧
  demo_run [PUSH1; 0; PUSH1; 1; PUSH1; 0; PUSH1; 0; PUSH1; 0; PUSH1; 0; PUSH1; 0; CALL] 1000 = Panicked.
Proof. split; [apply opByte_truncates_index|]. split; vm_compute; reflexivity. Qed.
