(* ===== verification/Rlp.v ===== *)
(** * Reading and writing RLP (umbracle/fastrlp)

    The node builds a tree of values with an arena, prints it, and reads a
    printed tree back. fastrlp is third-party code: [Rlp] adds the rest of
    the operations the node uses to those of [Fastrlp], and [RlpLaws] states
    what the node relies on, that a printed value reads back as itself. A
    value stands for its content: a value and the result of parsing its
    bytes are the same. *)

From S2P Require Import Prelude BigInt Types.

Class Rlp `{Fastrlp} := {
  rlp_bigint : option Z → rlp_value;      (** [Arena.NewBigInt]; [None] is nil *)
  rlp_null : rlp_value;                   (** [Arena.NewNull] *)
  rlp_nullarray : rlp_value;              (** [Arena.NewNullArray] *)
  rlp_parse : list Z → option rlp_value;  (** [Parser.Parse] *)
  rlp_raw : rlp_value → list Z;           (** the bytes [Parser.Hash] digests *)
  rlp_elems : rlp_value → option (list rlp_value);     (** [Value.GetElems] *)
  rlp_get : rlp_value → nat → option rlp_value;        (** [Value.Get] *)
  rlp_getbytes : rlp_value → option (list Z);          (** [Value.Bytes], [Value.GetBytes(dst)] *)
  rlp_getfixed : nat → rlp_value → option (list Z);    (** [Value.GetBytes(dst, n)], [GetHash], [GetAddr] *)
  rlp_getuint : rlp_value → option Z;                  (** [Value.GetUint64] *)
  rlp_getbig : rlp_value → option Z;                   (** [Value.GetBigInt] *)
}.

Class RlpLaws `{Rlp} : Prop := {
  parse_marshal v : rlp_parse (rlp_marshal v) = Some v;
  raw_marshal v : rlp_raw v = rlp_marshal v;
  elems_array l : rlp_elems (rlp_array l) = Some l;
  elems_nullarray : rlp_elems rlp_nullarray = Some [];
  get_array l i : rlp_get (rlp_array l) i = l !! i;
  bytes_bytes b : rlp_getbytes (rlp_bytes b) = Some b;
  bytes_uint n : 0 ≤ n < 2 ^ 64 → rlp_getbytes (rlp_uint n) = Some (Bytes n);
  bytes_null : rlp_getbytes rlp_null = Some [];
  fixed_bytes n b : rlp_getfixed n (rlp_bytes b) = if (length b =? n)%nat then Some b else None;
  uint_uint n : 0 ≤ n < 2 ^ 64 → rlp_getuint (rlp_uint n) = Some n;
  uint_bytes b : (length b ≤ 8)%nat → rlp_getuint (rlp_bytes b) = Some (be_decode b);
  big_big n : 0 ≤ n → rlp_getbig (rlp_bigint (Some n)) = Some n;
  big_nil : rlp_getbig (rlp_bigint None) = Some 0;
}.

Lemma fixed_ok `{RlpLaws} n b : length b = n → rlp_getfixed n (rlp_bytes b) = Some b.
Proof. intros <-. by rewrite fixed_bytes, Nat.eqb_refl. Qed.

Create Rewrite HintDb rlp.
#[export] Hint Rewrite @elems_array @elems_nullarray @get_array @bytes_bytes @bytes_null @big_nil
  @parse_marshal using (typeclasses eauto) : rlp.

(** ** An instance

    Trees with byte strings at the leaves, printed in prefix order with
    their lengths. *)
Section tree_rlp.

Inductive rlp_tree :=
  | Leaf (b : list Z)
  | Node (l : list rlp_tree).

Lemma rlp_tree_nested_ind (P : rlp_tree → Prop) :
  (∀ b, P (Leaf b)) → (∀ l, Forall P l → P (Node l)) → ∀ t, P t.
Proof.
  intros Hb Hl. fix IH 1. intros [b|l]; [apply Hb|]. apply Hl. induction l as [|t l IHl]; constructor; [apply IH|apply IHl].
Qed.

Fixpoint print_tree (t : rlp_tree) : list Z :=
  match t with
  | Leaf b => 0 :: zlen b :: b
  | Node l => 1 :: zlen l :: (fix go l := match l with [] => [] | t :: l => print_tree t ++ go l end) l
  end.

Fixpoint parse_tree (fuel : nat) (s : list Z) : option (rlp_tree * list Z) :=
  match fuel, s with
  | S fuel, tag :: n :: s =>
      if tag =? 0 then Some (Leaf (take (Z.to_nat n) s), drop (Z.to_nat n) s)
      else
        r ← (fix go k s :=
               match k with
               | O => Some ([], s)
               | S k => r ← parse_tree fuel s; q ← go k r.2; Some (r.1 :: q.1, q.2)
               end) (Z.to_nat n) s;
        Some (Node r.1, r.2)
  | _, _ => None
  end.

Fixpoint tree_size (t : rlp_tree) : nat :=
  match t with
  | Leaf _ => 1
  | Node l => S ((fix go l := match l with [] => O | t :: l => (tree_size t + go l)%nat end) l)
  end.

Lemma parse_print t fuel s : (tree_size t ≤ fuel)%nat → parse_tree fuel (print_tree t ++ s) = Some (t, s).
Proof.
  revert fuel s. induction t as [b|l IH] using rlp_tree_nested_ind; intros [|fuel] s Hf; cbn [tree_size] in Hf; try lia.
  - cbn. unfold zlen. rewrite Nat2Z.id, take_app_length, drop_app_length. done.
  - cbn [print_tree app parse_tree]. cbn [Z.eqb]. unfold zlen. rewrite Nat2Z.id.
    assert (∀ s, (fix go (k : nat) (s : list Z) : option (list rlp_tree * list Z) :=
       match k with
       | O => Some ([], s)
       | S k => r ← parse_tree fuel s; q ← go k r.2; Some (r.1 :: q.1, q.2)
       end) (length l) ((fix go l := match l with [] => [] | t :: l => print_tree t ++ go l end) l ++ s) = Some (l, s)) as E.
    { clear s. induction IH as [|t l Ht _ IHl]; intros s; [done|]. cbn [length]. rewrite <- app_assoc.
      rewrite Ht by lia. cbn [mbind option_bind fst snd]. rewrite IHl by lia. done. }
    rewrite E. done.
Qed.

Lemma tree_size_print t : (tree_size t ≤ length (print_tree t))%nat.
Proof.
  induction t as [b|l IH] using rlp_tree_nested_ind; cbn [tree_size print_tree length]; [lia|]. apply le_n_S, le_S.
  induction IH as [|t l Ht _ IHl]; [done|]. rewrite length_app. lia.
Qed.

#[local] Instance tree_fastrlp : Fastrlp := {|
  rlp_value := rlp_tree;
  rlp_bytes := Leaf;
  rlp_uint n := Leaf (Bytes n);
  rlp_array l := Node l;
  rlp_marshal v := print_tree v;
|}.

#[local] Instance tree_rlp : Rlp := {|
  rlp_bigint o := Leaf (Bytes (default 0 o));
  rlp_null := Leaf [];
  rlp_nullarray := Node [];
  rlp_parse b := fst <$> parse_tree (length b) b;
  rlp_raw v := print_tree v;
  rlp_elems v := match v with Node l => Some l | _ => None end;
  rlp_get v i := match v with Node l => l !! i | _ => None end;
  rlp_getbytes v := match v with Leaf b => Some b | _ => None end;
  rlp_getfixed n v := match v with Leaf b => if (length b =? n)%nat then Some b else None | _ => None end;
  rlp_getuint v := match v with Leaf b => if (length b <=? 8)%nat then Some (be_decode b) else None | _ => None end;
  rlp_getbig v := match v with Leaf b => Some (SetBytes b) | _ => None end;
|}.

Lemma length_Bytes_u64 n : 0 ≤ n < 2 ^ 64 → (length (Bytes n) ≤ 8)%nat.
Proof.
  intros Hn. pose proof (length_Bytes n) as E. assert (BitLen n ≤ 64) as HB by (apply BitLen_spec; lia).
  unfold zlen in E. assert ((BitLen n + 7) / 8 < 9) by (apply Z.div_lt_upper_bound; lia). lia.
Qed.

#[local] Instance tree_rlp_laws : RlpLaws.
Proof.
  split; cbn -[Bytes SetBytes be_decode parse_tree print_tree]; try done.
  - intros v. rewrite <- (app_nil_r (print_tree v)) at 2. by rewrite parse_print by apply tree_size_print.
  - intros n Hn. rewrite (proj2 (Nat.leb_le _ _)) by by apply length_Bytes_u64.
    f_equal. apply (SetBytes_Bytes n). lia.
  - intros b Hb. by rewrite (proj2 (Nat.leb_le _ _)).
  - intros n Hn. f_equal. by apply SetBytes_Bytes.
Qed.

End tree_rlp.
