(* ===== verification/BlockTypes.v ===== *)
(** * Transactions, receipts, headers and blocks (package types)

    The records of types/transaction.go, header.go and receipt.go, their
    RLP forms (rlp_marshal.go, rlp_unmarshal.go and the storage variants)
    over the interface of Rlp.v, and the bloom filter of the receipts.

    A [*big.Int] or a pointer that may be nil is an [option]. An unmarshal
    method takes the receiver it overwrites and returns [None] on error.
    [HeaderHash] is the package variable the consensus engine may replace. *)

From S2P Require Import Prelude BigInt Types Rlp.

Definition EmptyRootHash : Hash :=
  be_encode 32 0x56e81f171bcc55a6ff8345e692c0f86e5b48e01b996cadc001622fb5e363b421.
Definition EmptyUncleHash : Hash :=
  be_encode 32 0x1dcc4de8dec75d7aab85b567b6ccd41ad312451b948a7413f0a142fd40d49347.

(** ** transaction.go *)

Record Transaction := mkTx {
  tNonce : Z;
  tGasPrice : option Z;
  tGas : Z;
  tTo : option Address;
  tValue : option Z;
  tInput : list Z;
  tV : option Z;
  tR : option Z;
  tS : option Z;
  tHash : Hash;
  tFrom : Address;
  tSize : option Z;   (** the cached size *)
}.

(** [&Transaction{}] *)
Definition newTransaction : Transaction :=
  mkTx 0 None 0 None None [] None None None ZeroHash ZeroAddress None.

Definition set_tHash (h : Hash) (t : Transaction) : Transaction :=
  mkTx (tNonce t) (tGasPrice t) (tGas t) (tTo t) (tValue t) (tInput t) (tV t) (tR t) (tS t) h (tFrom t) (tSize t).
Definition set_tFrom (a : Address) (t : Transaction) : Transaction :=
  mkTx (tNonce t) (tGasPrice t) (tGas t) (tTo t) (tValue t) (tInput t) (tV t) (tR t) (tS t) (tHash t) a (tSize t).
Definition set_tSize (s : Z) (t : Transaction) : Transaction :=
  mkTx (tNonce t) (tGasPrice t) (tGas t) (tTo t) (tValue t) (tInput t) (tV t) (tR t) (tS t) (tHash t) (tFrom t) (Some s).

Definition IsContractCreation (t : Transaction) : bool := bool_decide (tTo t = None).

(** [big.NewInt(0).SetBits(x.Bits())] drops the sign. *)
Definition Transaction_Copy (t : Transaction) : Transaction :=
  mkTx (tNonce t) (Some (default 0 (tGasPrice t))) (tGas t) (tTo t) (Some (default 0 (tValue t)))
    (tInput t) (tV t) (Z.abs <$> tR t) (Z.abs <$> tS t) (tHash t) (tFrom t) (tSize t).

(** [None] is a nil dereference. *)
Definition Cost (t : Transaction) : option Z :=
  price ← tGasPrice t; value ← tValue t; Some (price * tGas t + value).

Definition ExceedsBlockGasLimit (t : Transaction) (blockGasLimit : Z) : bool := blockGasLimit <? tGas t.

Definition IsUnderpriced (t : Transaction) (priceLimit : Z) : option bool :=
  price ← tGasPrice t; Some (price <? priceLimit).

(** ** receipt.go *)

Record Log := mkLog {
  logAddress : Address;
  Topics : list Hash;
  logData : list Z;
}.

Definition BloomByteLength : nat := 256.

Record Receipt := mkReceipt {
  rRoot : Hash;
  rCumulativeGasUsed : Z;
  rLogsBloom : list Z;
  rLogs : list Log;
  rStatus : option Z;
  rGasUsed : Z;
  rContractAddress : option Address;
  rTxHash : Hash;
}.

Definition ZeroBloom : list Z := replicate BloomByteLength 0.

(** [&Receipt{}] *)
Definition newReceipt : Receipt := mkReceipt ZeroHash 0 ZeroBloom [] None 0 None ZeroHash.

(** ** header.go *)

Record Header := mkHeader {
  hParentHash : Hash;
  hSha3Uncles : Hash;
  hMiner : list Z;
  hStateRoot : Hash;
  hTxRoot : Hash;
  hReceiptsRoot : Hash;
  hLogsBloom : list Z;
  hDifficulty : Z;
  hNumber : Z;
  hGasLimit : Z;
  hGasUsed : Z;
  hTimestamp : Z;
  hExtraData : list Z;
  hMixHash : Hash;
  hNonce : list Z;
  hHash : Hash;
}.

(** [&Header{}] *)
Definition newHeader : Header :=
  mkHeader ZeroHash ZeroHash [] ZeroHash ZeroHash ZeroHash ZeroBloom 0 0 0 0 0 [] ZeroHash (replicate 8 0) ZeroHash.

Definition set_hHash (x : Hash) (h : Header) : Header :=
  mkHeader (hParentHash h) (hSha3Uncles h) (hMiner h) (hStateRoot h) (hTxRoot h) (hReceiptsRoot h) (hLogsBloom h)
    (hDifficulty h) (hNumber h) (hGasLimit h) (hGasUsed h) (hTimestamp h) (hExtraData h) (hMixHash h) (hNonce h) x.

Definition Header_Equal (h hh : Header) : bool := bool_decide (hHash h = hHash hh).

Definition HasBody (h : Header) : bool :=
  negb (bool_decide (hTxRoot h = EmptyRootHash)) || negb (bool_decide (hSha3Uncles h = EmptyUncleHash)).

Definition HasReceipts (h : Header) : bool := negb (bool_decide (hReceiptsRoot h = EmptyRootHash)).

Definition SetNonce (h : Header) (i : Z) : Header :=
  mkHeader (hParentHash h) (hSha3Uncles h) (hMiner h) (hStateRoot h) (hTxRoot h) (hReceiptsRoot h) (hLogsBloom h)
    (hDifficulty h) (hNumber h) (hGasLimit h) (hGasUsed h) (hTimestamp h) (hExtraData h) (hMixHash h)
    (be_encode 8 i) (hHash h).

Definition IsGenesis (h : Header) : bool := negb (bool_decide (hHash h = ZeroHash)) && (hNumber h =? 0).

(** The byte slices are copied, the rest is assigned. *)
Definition Header_Copy (h : Header) : Header :=
  mkHeader (hParentHash h) (hSha3Uncles h) (hMiner h) (hStateRoot h) (hTxRoot h) (hReceiptsRoot h) (hLogsBloom h)
    (hDifficulty h) (hNumber h) (hGasLimit h) (hGasUsed h) (hTimestamp h) (hExtraData h) (hMixHash h) (hNonce h)
    (hHash h).

Record Body := mkBody {
  bdTransactions : list Transaction;
  bdUncles : list Header;
}.

Record Block := mkBlock {
  bHeader : Header;
  bTransactions : list Transaction;
  bUncles : list Header;
  bSize : option Z;   (** the cached size *)
}.

Definition Block_Hash (b : Block) : Hash := hHash (bHeader b).
Definition Block_Number (b : Block) : Z := hNumber (bHeader b).
Definition Block_ParentHash (b : Block) : Hash := hParentHash (bHeader b).
Definition Block_Body (b : Block) : Body := mkBody (bTransactions b) (bUncles b).
Definition WithSeal (b : Block) (header : Header) : Block := mkBlock header (bTransactions b) (bUncles b) None.

(** ** The bloom filter *)

Section bloom.
Context `{Keccak}.

(** The bit a pair of bytes of the digest selects. *)
Definition bloomBit (buf : list Z) (i : nat) : Z :=
  Z.land (default 0 (buf !! S i) + Z.shiftl (default 0 (buf !! i)) 8) 2047.

Definition bloomSet (buf : list Z) (b : list Z) (i : nat) : list Z :=
  let bit := bloomBit buf i in
  let byteLocation := Z.to_nat (256 - 1 - bit / 8) in
  let bitLocation := bit mod 8 in
  alter (λ x, Z.lor x (Z.shiftl 1 bitLocation)) byteLocation b.

(** [b.setEncode(hasher, h)]: the loop runs for i = 0, 2, 4. *)
Definition setEncode (b : list Z) (h : list Z) : list Z :=
  foldl (bloomSet (keccak256 h)) b [0; 2; 4]%nat.

Definition bloomLog (b : list Z) (log : Log) : list Z :=
  foldl setEncode (setEncode b (logAddress log)) (Topics log).

Definition CreateBloom (receipts : list Receipt) : list Z :=
  foldl (λ b r, foldl bloomLog b (rLogs r)) ZeroBloom receipts.

(** [1 << (bitLocation - 1)] as a byte: [bitLocation] is unsigned, so for 0
    the shift count wraps around and the result is 0. *)
Definition presentMask (bitLocation : Z) : Z :=
  let shift := u64 (bitLocation - 1) in
  if 8 <=? shift then 0 else Z.shiftl 1 shift.

Definition bitPresent (buf : list Z) (b : list Z) (i : nat) : bool :=
  let bit := bloomBit buf i in
  let byteLocation := Z.to_nat (256 - 1 - bit / 8) in
  let bitLocation := bit mod 8 in
  let referenceByte := default 0 (b !! byteLocation) in
  negb (Z.land referenceByte (presentMask bitLocation) =? 0).

Definition isByteArrPresent (b : list Z) (data : list Z) : bool :=
  forallb (bitPresent (keccak256 data) b) [0; 2; 4]%nat.

Definition IsLogInBloom (b : list Z) (log : Log) : bool :=
  isByteArrPresent b (logAddress log) && forallb (isByteArrPresent b) (Topics log).

End bloom.

(** ** RLP forms *)

Section rlp.
Context `{Rlp, Keccak} (HeaderHash : Header → Hash).

(** *** Writing *)

Definition Header_MarshalRLPWith (h : Header) : rlp_value :=
  rlp_array [
    rlp_bytes (hParentHash h); rlp_bytes (hSha3Uncles h); rlp_bytes (hMiner h); rlp_bytes (hStateRoot h);
    rlp_bytes (hTxRoot h); rlp_bytes (hReceiptsRoot h); rlp_bytes (hLogsBloom h);
    rlp_uint (hDifficulty h); rlp_uint (hNumber h); rlp_uint (hGasLimit h); rlp_uint (hGasUsed h);
    rlp_uint (hTimestamp h);
    rlp_bytes (hExtraData h); rlp_bytes (hMixHash h); rlp_bytes (hNonce h)].

Definition Transaction_MarshalRLPWith (t : Transaction) : rlp_value :=
  rlp_array [
    rlp_uint (tNonce t); rlp_bigint (tGasPrice t); rlp_uint (tGas t);
    match tTo t with Some a => rlp_bytes a | None => rlp_null end;
    rlp_bigint (tValue t); rlp_bytes (tInput t);
    rlp_bigint (tV t); rlp_bigint (tR t); rlp_bigint (tS t)].

(** A list of values, or the null array when there are none. *)
Definition arrayOrNull (l : list rlp_value) : rlp_value :=
  match l with [] => rlp_nullarray | _ => rlp_array l end.

Definition Block_MarshalRLPWith (b : Block) : rlp_value :=
  rlp_array [
    Header_MarshalRLPWith (bHeader b);
    arrayOrNull (Transaction_MarshalRLPWith <$> bTransactions b);
    arrayOrNull (Header_MarshalRLPWith <$> bUncles b)].

Definition Log_MarshalRLPWith (l : Log) : rlp_value :=
  rlp_array [rlp_bytes (logAddress l); rlp_array (rlp_bytes <$> Topics l); rlp_bytes (logData l)].

Definition MarshalLogsWith (r : Receipt) : rlp_value := arrayOrNull (Log_MarshalRLPWith <$> rLogs r).

Definition Receipt_MarshalRLPWith (r : Receipt) : rlp_value :=
  rlp_array [
    match rStatus r with Some s => rlp_uint s | None => rlp_bytes (rRoot r) end;
    rlp_uint (rCumulativeGasUsed r); rlp_bytes (rLogsBloom r); MarshalLogsWith r].

Definition Receipts_MarshalRLPWith (r : list Receipt) : rlp_value := rlp_array (Receipt_MarshalRLPWith <$> r).

Definition Transaction_MarshalRLP (t : Transaction) : list Z := rlp_marshal (Transaction_MarshalRLPWith t).
Definition Header_MarshalRLP (h : Header) : list Z := rlp_marshal (Header_MarshalRLPWith h).
Definition Block_MarshalRLP (b : Block) : list Z := rlp_marshal (Block_MarshalRLPWith b).
Definition Receipt_MarshalRLP (r : Receipt) : list Z := rlp_marshal (Receipt_MarshalRLPWith r).
Definition Receipts_MarshalRLP (r : list Receipt) : list Z := rlp_marshal (Receipts_MarshalRLPWith r).

(** Hashes and sizes come from the printed form. *)
Definition Transaction_ComputeHash (t : Transaction) : Transaction :=
  set_tHash (keccak256 (Transaction_MarshalRLP t)) t.

Definition defHeaderHash (h : Header) : Hash := keccak256 (Header_MarshalRLP h).

Definition Header_ComputeHash (h : Header) : Header := set_hHash (HeaderHash h) h.

Definition Transaction_Size (t : Transaction) : Z * Transaction :=
  match tSize t with
  | Some size => (size, t)
  | None => let size := zlen (Transaction_MarshalRLP t) in (size, set_tSize size t)
  end.

Definition Block_Size (b : Block) : Z * Block :=
  match bSize b with
  | Some size => (size, b)
  | None =>
      let size := zlen (Block_MarshalRLP b) in
      (size, mkBlock (bHeader b) (bTransactions b) (bUncles b) (Some size))
  end.

(** *** Writing to storage *)

Definition Transaction_MarshalStoreRLPWith (t : Transaction) : rlp_value :=
  rlp_array [Transaction_MarshalRLPWith t; rlp_bytes (tFrom t)].

Definition Body_MarshalRLPWith (b : Body) : rlp_value :=
  rlp_array [
    arrayOrNull (Transaction_MarshalStoreRLPWith <$> bdTransactions b);
    arrayOrNull (Header_MarshalRLPWith <$> bdUncles b)].

Definition Receipt_MarshalStoreRLPWith (r : Receipt) : rlp_value :=
  rlp_array [
    Receipt_MarshalRLPWith r;
    match rContractAddress r with None => rlp_null | Some a => rlp_bytes a end;
    rlp_uint (rGasUsed r); rlp_bytes (rTxHash r)].

Definition Receipts_MarshalStoreRLPWith (r : list Receipt) : rlp_value :=
  rlp_array (Receipt_MarshalStoreRLPWith <$> r).

Definition Body_MarshalRLP (b : Body) : list Z := rlp_marshal (Body_MarshalRLPWith b).
Definition Receipts_MarshalStoreRLP (r : list Receipt) : list Z := rlp_marshal (Receipts_MarshalStoreRLPWith r).

(** *** Reading *)

(** [UnmarshalRlp(obj, input)] *)
Definition UnmarshalRlp {A} (obj : rlp_value → option A) (input : list Z) : option A :=
  v ← rlp_parse input; obj v.

(** [elems, err := v.GetElems()] and the check of their number. *)
Definition atLeast (n : nat) (v : rlp_value) : option (list rlp_value) :=
  elems ← rlp_elems v;
  if (length elems <? n)%nat then None else Some elems.

Definition Header_UnmarshalRLPFrom (h : Header) (v : rlp_value) : option Header :=
  elems ← atLeast 15 v;
  parentHash ← (elems !! 0%nat ≫= rlp_getfixed 32);
  sha3Uncles ← (elems !! 1%nat ≫= rlp_getfixed 32);
  miner ← (elems !! 2%nat ≫= rlp_getbytes);
  stateRoot ← (elems !! 3%nat ≫= rlp_getfixed 32);
  txRoot ← (elems !! 4%nat ≫= rlp_getfixed 32);
  receiptsRoot ← (elems !! 5%nat ≫= rlp_getfixed 32);
  logsBloom ← (elems !! 6%nat ≫= rlp_getfixed 256);
  difficulty ← (elems !! 7%nat ≫= rlp_getuint);
  number ← (elems !! 8%nat ≫= rlp_getuint);
  gasLimit ← (elems !! 9%nat ≫= rlp_getuint);
  gasUsed ← (elems !! 10%nat ≫= rlp_getuint);
  timestamp ← (elems !! 11%nat ≫= rlp_getuint);
  extraData ← (elems !! 12%nat ≫= rlp_getbytes);
  mixHash ← (elems !! 13%nat ≫= rlp_getfixed 32);
  nonce ← (elems !! 14%nat ≫= rlp_getuint);
  let h := mkHeader parentHash sha3Uncles miner stateRoot txRoot receiptsRoot logsBloom difficulty number
    gasLimit gasUsed timestamp extraData mixHash (hNonce h) (hHash h) in
  Some (Header_ComputeHash (SetNonce h nonce)).

(** The hash is [p.Hash(t.Hash[:0], v)], over the bytes [v] was read from. *)
Definition Transaction_UnmarshalRLPFrom (t : Transaction) (v : rlp_value) : option Transaction :=
  elems ← atLeast 9 v;
  let hash := keccak256 (rlp_raw v) in
  nonce ← (elems !! 0%nat ≫= rlp_getuint);
  gasPrice ← (elems !! 1%nat ≫= rlp_getbig);
  gas ← (elems !! 2%nat ≫= rlp_getuint);
  let to :=
    match rlp_get v 3 ≫= rlp_getbytes with
    | Some vv => if (length vv =? 20)%nat then Some (BytesToAddress vv) else None
    | None => None
    end in
  value ← (elems !! 4%nat ≫= rlp_getbig);
  input ← (elems !! 5%nat ≫= rlp_getbytes);
  vV ← (elems !! 6%nat ≫= rlp_getbig);
  vR ← (elems !! 7%nat ≫= rlp_getbig);
  vS ← (elems !! 8%nat ≫= rlp_getbig);
  Some (mkTx nonce (Some gasPrice) gas to (Some value) input (Some vV) (Some vR) (Some vS) hash (tFrom t) (tSize t)).

Definition Block_UnmarshalRLPFrom (b : Block) (v : rlp_value) : option Block :=
  elems ← atLeast 3 v;
  header ← (elems !! 0%nat ≫= Header_UnmarshalRLPFrom newHeader);
  txns ← (elems !! 1%nat ≫= rlp_elems);
  txns ← mapM (Transaction_UnmarshalRLPFrom newTransaction) txns;
  uncles ← (elems !! 2%nat ≫= rlp_elems);
  uncles ← mapM (Header_UnmarshalRLPFrom newHeader) uncles;
  Some (mkBlock header (bTransactions b ++ txns) (bUncles b ++ uncles) (bSize b)).

Definition Log_UnmarshalRLPFrom (v : rlp_value) : option Log :=
  elems ← atLeast 3 v;
  address ← (elems !! 0%nat ≫= rlp_getfixed 20);
  topicElems ← (elems !! 1%nat ≫= rlp_elems);
  topics ← mapM (rlp_getfixed 32) topicElems;
  data ← (elems !! 2%nat ≫= rlp_getbytes);
  Some (mkLog address topics data).

Definition Receipt_UnmarshalRLPFrom (r : Receipt) (v : rlp_value) : option Receipt :=
  elems ← atLeast 4 v;
  buf ← (elems !! 0%nat ≫= rlp_getbytes);
  let '(root, status) :=
    match buf with
    | [b] => (rRoot r, Some b)
    | _ => if (length buf =? 32)%nat then (buf, rStatus r) else (rRoot r, Some 0)
    end in
  cumulativeGasUsed ← (elems !! 1%nat ≫= rlp_getuint);
  logsBloom ← (elems !! 2%nat ≫= rlp_getfixed 256);
  logsElems ← (rlp_get v 3 ≫= rlp_elems);
  logs ← mapM Log_UnmarshalRLPFrom logsElems;
  Some (mkReceipt root cumulativeGasUsed logsBloom (rLogs r ++ logs) status
    (rGasUsed r) (rContractAddress r) (rTxHash r)).

Definition Receipts_UnmarshalRLPFrom (r : list Receipt) (v : rlp_value) : option (list Receipt) :=
  elems ← rlp_elems v;
  l ← mapM (Receipt_UnmarshalRLPFrom newReceipt) elems;
  Some (r ++ l).

(** *** Reading from storage *)

Definition Transaction_UnmarshalStoreRLPFrom (t : Transaction) (v : rlp_value) : option Transaction :=
  elems ← atLeast 2 v;
  t ← (elems !! 0%nat ≫= Transaction_UnmarshalRLPFrom t);
  from ← (elems !! 1%nat ≫= rlp_getfixed 20);
  Some (set_tFrom from t).

Definition Body_UnmarshalRLPFrom (b : Body) (v : rlp_value) : option Body :=
  tuple ← atLeast 2 v;
  txns ← (tuple !! 0%nat ≫= rlp_elems);
  txns ← mapM (Transaction_UnmarshalStoreRLPFrom newTransaction) txns;
  uncles ← (tuple !! 1%nat ≫= rlp_elems);
  uncles ← mapM (Header_UnmarshalRLPFrom newHeader) uncles;
  Some (mkBody (bdTransactions b ++ txns) (bdUncles b ++ uncles)).

(** Old receipts have no transaction hash. *)
Definition Receipt_UnmarshalStoreRLPFrom (r : Receipt) (v : rlp_value) : option Receipt :=
  elems ← atLeast 3 v;
  r ← (elems !! 0%nat ≫= Receipt_UnmarshalRLPFrom r);
  vv ← (elems !! 1%nat ≫= rlp_getbytes);
  let contractAddress := if (length vv =? 20)%nat then Some (BytesToAddress vv) else rContractAddress r in
  gasUsed ← (elems !! 2%nat ≫= rlp_getuint);
  txHash ← (if (length elems =? 4)%nat then vv ← (elems !! 3%nat ≫= rlp_getbytes); Some (BytesToHash vv)
            else Some (rTxHash r));
  Some (mkReceipt (rRoot r) (rCumulativeGasUsed r) (rLogsBloom r) (rLogs r) (rStatus r)
    gasUsed contractAddress txHash).

Definition Receipts_UnmarshalStoreRLPFrom (r : list Receipt) (v : rlp_value) : option (list Receipt) :=
  elems ← rlp_elems v;
  l ← mapM (Receipt_UnmarshalStoreRLPFrom newReceipt) elems;
  Some (r ++ l).

End rlp.
