(* ===== verification/BlockTypesProps.v ===== *)
(** * Round trips of the block types, and the bloom filter

    What is written to the wire or to storage is read back, with the hashes
    recomputed; the bloom filter of a list of receipts has the bits of every
    log set, but the membership test looks at the wrong bit. *)

From S2P Require Import Prelude BigInt Types Rlp BlockTypes.

(** ** Well-formed records *)

Definition u64_ok (x : Z) : Prop := 0 ≤ x < 2 ^ 64.

Definition big_ok (o : option Z) : Prop := 0 ≤ default 0 o.

Record header_ok (h : Header) : Prop := {
  ho_parent : length (hParentHash h) = 32%nat;
  ho_uncles : length (hSha3Uncles h) = 32%nat;
  ho_state : length (hStateRoot h) = 32%nat;
  ho_tx : length (hTxRoot h) = 32%nat;
  ho_receipts : length (hReceiptsRoot h) = 32%nat;
  ho_bloom : length (hLogsBloom h) = 256%nat;
  ho_difficulty : u64_ok (hDifficulty h);
  ho_number : u64_ok (hNumber h);
  ho_gasLimit : u64_ok (hGasLimit h);
  ho_gasUsed : u64_ok (hGasUsed h);
  ho_timestamp : u64_ok (hTimestamp h);
  ho_mix : length (hMixHash h) = 32%nat;
  ho_nonce : length (hNonce h) = 8%nat ∧ bytes_ok (hNonce h);
}.

Record tx_ok (t : Transaction) : Prop := {
  to_nonce : u64_ok (tNonce t);
  to_price : big_ok (tGasPrice t);
  to_gas : u64_ok (tGas t);
  to_to : ∀ a, tTo t = Some a → length a = 20%nat;
  to_value : big_ok (tValue t);
  to_V : big_ok (tV t);
  to_R : big_ok (tR t);
  to_S : big_ok (tS t);
  to_from : length (tFrom t) = 20%nat;
}.

Definition log_ok (l : Log) : Prop := length (logAddress l) = 20%nat ∧ Forall (λ t, length t = 32%nat) (Topics l).

Record receipt_ok (r : Receipt) : Prop := {
  ro_root : length (rRoot r) = 32%nat;
  ro_cumulative : u64_ok (rCumulativeGasUsed r);
  ro_bloom : length (rLogsBloom r) = 256%nat;
  ro_logs : Forall log_ok (rLogs r);
  ro_status : ∀ s, rStatus r = Some s → 0 ≤ s < 256 ∧ rRoot r = ZeroHash;
  ro_gasUsed : u64_ok (rGasUsed r);
  ro_contract : ∀ a, rContractAddress r = Some a → length a = 20%nat;
  ro_txHash : length (rTxHash r) = 32%nat;
}.

(** ** Lemmas *)

Lemma mapM_fmap {A B C} (f : B → option C) (g : A → B) (h : A → C) l :
  (∀ x, x ∈ l → f (g x) = Some (h x)) → mapM f (g <$> l) = Some (h <$> l).
Proof.
  induction l as [|x l IH]; intros Hl; [done|]. cbn [fmap list_fmap mapM].
  rewrite Hl by left. cbn. rewrite IH; [done|]. intros y Hy. apply Hl. by right.
Qed.

Section roundtrips.
Context `{RlpLaws, !Keccak} (HeaderHash : Header → Hash).

Lemma elems_arrayOrNull l : rlp_elems (arrayOrNull l) = Some l.
Proof. destruct l; [apply elems_nullarray|apply elems_array]. Qed.

Lemma atLeast_array n l : (n ≤ length l)%nat → atLeast n (rlp_array l) = Some l.
Proof.
  intros Hl. unfold atLeast. rewrite elems_array. cbn [mbind option_bind]. by rewrite (proj2 (Nat.ltb_ge _ _)).
Qed.

Lemma big_read o : big_ok o → rlp_getbig (rlp_bigint o) = Some (default 0 o).
Proof. destruct o; [apply big_big|]. intros _. apply big_nil. Qed.

Lemma Header_read h0 h :
  header_ok h →
  Header_UnmarshalRLPFrom HeaderHash h0 (Header_MarshalRLPWith h) =
    Some (set_hHash (HeaderHash (set_hHash (hHash h0) h)) h).
Proof.
  intros []. unfold Header_UnmarshalRLPFrom, Header_MarshalRLPWith. rewrite atLeast_array by (cbn; lia).
  cbn -[be_decode]. rewrite !fixed_ok by done. cbn. rewrite !bytes_bytes. cbn. rewrite !uint_uint by done. cbn.
  rewrite uint_bytes by lia. cbn -[be_encode be_decode].
  unfold Header_ComputeHash, SetNonce, set_hHash. cbn -[be_encode be_decode].
  assert (be_encode 8 (be_decode (hNonce h)) = hNonce h) as ->.
  { destruct ho_nonce0 as [<- ?]. by apply be_encode_decode. }
  by destruct h.
Qed.

(** What a reader makes of the transaction [t]: nil numbers come back as
    zero, the hash is that of the bytes read, and the fields that are not
    part of the encoding keep the receiver's value. *)
Definition tx_read (t0 t : Transaction) : Transaction :=
  mkTx (tNonce t) (Some (default 0 (tGasPrice t))) (tGas t) (tTo t) (Some (default 0 (tValue t))) (tInput t)
    (Some (default 0 (tV t))) (Some (default 0 (tR t))) (Some (default 0 (tS t)))
    (keccak256 (Transaction_MarshalRLP t)) (tFrom t0) (tSize t0).

Lemma Transaction_read t0 t :
  tx_ok t → Transaction_UnmarshalRLPFrom t0 (Transaction_MarshalRLPWith t) = Some (tx_read t0 t).
Proof.
  intros []. unfold Transaction_UnmarshalRLPFrom, tx_read, Transaction_MarshalRLP. rewrite raw_marshal.
  unfold Transaction_MarshalRLPWith at 1 3. rewrite atLeast_array by (cbn; lia).
  cbn [mbind option_bind lookup list_lookup]. rewrite !uint_uint by done. cbn [mbind option_bind].
  rewrite !big_read by done. cbn [mbind option_bind]. rewrite get_array, bytes_bytes.
  cbn [mbind option_bind lookup list_lookup]. f_equal. f_equal. destruct (tTo t) as [a|].
  - rewrite bytes_bytes. cbn [mbind option_bind]. rewrite (to_to0 a eq_refl), Nat.eqb_refl.
    f_equal. by apply right_align_id, to_to0.
  - by rewrite bytes_null.
Qed.

Lemma Log_read l : log_ok l → Log_UnmarshalRLPFrom (Log_MarshalRLPWith l) = Some l.
Proof.
  intros [Ha Ht]. unfold Log_UnmarshalRLPFrom, Log_MarshalRLPWith. rewrite atLeast_array by (cbn; lia).
  cbn [mbind option_bind lookup list_lookup]. rewrite fixed_ok by done. cbn [mbind option_bind].
  rewrite elems_array. cbn [mbind option_bind]. rewrite (mapM_fmap _ _ id).
  - cbn [mbind option_bind]. rewrite bytes_bytes. cbn [mbind option_bind]. rewrite list_fmap_id. by destruct l.
  - intros t Hin. apply fixed_ok. by eapply Forall_forall in Ht.
Qed.

(** What a reader makes of a receipt: the consensus fields are those of [r],
    the context fields those of the receiver. *)
Definition receipt_read (r0 r : Receipt) : Receipt :=
  mkReceipt (match rStatus r with Some _ => rRoot r0 | None => rRoot r end) (rCumulativeGasUsed r) (rLogsBloom r)
    (rLogs r0 ++ rLogs r) (match rStatus r with Some s => Some s | None => rStatus r0 end)
    (rGasUsed r0) (rContractAddress r0) (rTxHash r0).

Lemma Bytes_byte s : 0 ≤ s < 256 → Bytes s = if s =? 0 then [] else [s].
Proof.
  intros Hs. destruct (Z.eqb_spec s 0) as [->|Hne]; [done|]. unfold Bytes.
  assert (1 ≤ BitLen s ≤ 8) as HB.
  { split; [|apply BitLen_spec; lia]. unfold BitLen. rewrite (proj2 (Z.eqb_neq s 0)) by done.
    pose proof (Z.log2_nonneg (Z.abs s)). lia. }
  assert ((BitLen s + 7) / 8 = 1) as -> by (Z.div_mod_to_equations; lia).
  rewrite Z.abs_eq by lia. change (Z.to_nat 1) with 1%nat. cbn. f_equal. by rewrite Z.mod_small.
Qed.

Lemma Receipt_read r0 r :
  receipt_ok r → Receipt_UnmarshalRLPFrom r0 (Receipt_MarshalRLPWith r) = Some (receipt_read r0 r).
Proof.
  intros []. unfold Receipt_UnmarshalRLPFrom, Receipt_MarshalRLPWith. rewrite atLeast_array by (cbn; lia).
  cbn [mbind option_bind lookup list_lookup]. rewrite get_array, uint_uint, fixed_ok by done.
  cbn [lookup list_lookup mbind option_bind]. unfold MarshalLogsWith. rewrite elems_arrayOrNull.
  cbn [mbind option_bind]. rewrite (mapM_fmap _ _ id)
    by (intros l Hl; apply Log_read; by eapply Forall_forall in ro_logs0).
  rewrite list_fmap_id. cbn [mbind option_bind]. unfold receipt_read. destruct (rStatus r) as [st|].
  - destruct (ro_status0 st eq_refl) as [Hs _]. rewrite bytes_uint, Bytes_byte by lia.
    by destruct (Z.eqb_spec st 0) as [->|Hne].
  - rewrite bytes_bytes. cbn [mbind option_bind]. rewrite ro_root0. by destruct (rRoot r) as [|? [|? ?]].
Qed.

Lemma Transaction_store_read t0 t :
  tx_ok t →
  Transaction_UnmarshalStoreRLPFrom t0 (Transaction_MarshalStoreRLPWith t) = Some (set_tFrom (tFrom t) (tx_read t0 t)).
Proof.
  intros Ht. unfold Transaction_UnmarshalStoreRLPFrom, Transaction_MarshalStoreRLPWith.
  rewrite atLeast_array by (cbn; lia). cbn [mbind option_bind lookup list_lookup]. rewrite Transaction_read by done.
  cbn [mbind option_bind]. by rewrite fixed_ok by by destruct Ht.
Qed.

Lemma Receipt_store_read r :
  receipt_ok r → Receipt_UnmarshalStoreRLPFrom newReceipt (Receipt_MarshalStoreRLPWith r) = Some r.
Proof.
  intros Hr. unfold Receipt_UnmarshalStoreRLPFrom, Receipt_MarshalStoreRLPWith.
  rewrite atLeast_array by (cbn; lia). cbn [mbind option_bind lookup list_lookup]. rewrite Receipt_read by done.
  destruct Hr. cbn [mbind option_bind]. rewrite uint_uint, (bytes_bytes (rTxHash r)) by done.
  assert (∃ vv, rlp_getbytes (match rContractAddress r with None => rlp_null | Some a => rlp_bytes a end) = Some vv ∧
    (if (length vv =? 20)%nat then Some (BytesToAddress vv) else None) = rContractAddress r) as (vv & -> & Hvv).
  { destruct (rContractAddress r) as [a|].
    - exists a. rewrite (ro_contract0 a eq_refl), Nat.eqb_refl. split; [apply bytes_bytes|].
      f_equal. by apply right_align_id, ro_contract0.
    - exists []. split; [apply bytes_null|done]. }
  cbn [mbind option_bind length Nat.eqb receipt_read rContractAddress newReceipt]. rewrite Hvv.
  unfold BytesToHash. rewrite right_align_id by done. cbn. f_equal.
  destruct r as [root cum bloom logs status gas ca th]. cbn in *.
  destruct status as [st|]; [|done]. by destruct (ro_status0 st eq_refl) as [_ ->].
Qed.

(** ** Whole objects *)

Lemma headers_read l :
  Forall header_ok l →
  mapM (Header_UnmarshalRLPFrom HeaderHash newHeader) (Header_MarshalRLPWith <$> l) =
    Some ((λ h, set_hHash (HeaderHash (set_hHash ZeroHash h)) h) <$> l).
Proof. intros Hl. apply mapM_fmap. intros h Hh. apply Header_read. by eapply Forall_forall in Hl. Qed.

Lemma Block_read b :
  header_ok (bHeader b) → Forall tx_ok (bTransactions b) → Forall header_ok (bUncles b) →
  UnmarshalRlp (Block_UnmarshalRLPFrom HeaderHash (mkBlock newHeader [] [] None)) (Block_MarshalRLP b) =
    Some (mkBlock (set_hHash (HeaderHash (set_hHash ZeroHash (bHeader b))) (bHeader b))
      (tx_read newTransaction <$> bTransactions b)
      ((λ h, set_hHash (HeaderHash (set_hHash ZeroHash h)) h) <$> bUncles b) None).
Proof.
  intros Hh Ht Hu. unfold UnmarshalRlp, Block_MarshalRLP. rewrite parse_marshal. cbn [mbind option_bind].
  unfold Block_UnmarshalRLPFrom, Block_MarshalRLPWith. rewrite atLeast_array by (cbn; lia).
  cbn [mbind option_bind lookup list_lookup]. rewrite Header_read by done. cbn [mbind option_bind].
  rewrite !elems_arrayOrNull. cbn [mbind option_bind].
  rewrite (mapM_fmap _ _ (tx_read newTransaction))
    by (intros t Hin; apply Transaction_read; by eapply Forall_forall in Ht).
  cbn [mbind option_bind]. by rewrite headers_read.
Qed.

(** A transaction as storage holds it: complete, with its hash. *)
Record tx_stored (t : Transaction) : Prop := {
  ts_ok : tx_ok t;
  ts_big : Forall is_Some [tGasPrice t; tValue t; tV t; tR t; tS t];
  ts_hash : tHash t = keccak256 (Transaction_MarshalRLP t);
  ts_size : tSize t = None;
}.

Definition header_stored (h : Header) : Prop := header_ok h ∧ hHash h = HeaderHash (set_hHash ZeroHash h).

Lemma tx_stored_read t : tx_stored t → set_tFrom (tFrom t) (tx_read newTransaction t) = t.
Proof.
  intros [_ Hb Hh Hs]. unfold tx_read, set_tFrom. rewrite <- Hh. rewrite !Forall_cons in Hb.
  destruct Hb as ([? E1] & [? E2] & [? E3] & [? E4] & [? E5] & _). destruct t. cbn in *. by subst.
Qed.

Lemma Body_read b :
  Forall tx_stored (bdTransactions b) → Forall header_stored (bdUncles b) →
  UnmarshalRlp (Body_UnmarshalRLPFrom HeaderHash (mkBody [] [])) (Body_MarshalRLP b) = Some b.
Proof.
  intros Ht Hu. unfold UnmarshalRlp, Body_MarshalRLP. rewrite parse_marshal. cbn [mbind option_bind].
  unfold Body_UnmarshalRLPFrom, Body_MarshalRLPWith. rewrite atLeast_array by (cbn; lia).
  cbn [mbind option_bind lookup list_lookup]. rewrite !elems_arrayOrNull. cbn [mbind option_bind].
  rewrite (mapM_fmap (Transaction_UnmarshalStoreRLPFrom newTransaction) _ id), list_fmap_id.
  2:{ intros t Hin. eapply Forall_forall in Ht; [|exact Hin]. rewrite Transaction_store_read by by destruct Ht.
      by rewrite tx_stored_read. }
  cbn [mbind option_bind]. rewrite (mapM_fmap _ _ id), list_fmap_id.
  2:{ intros h Hin. eapply Forall_forall in Hu as [Hok Hh]; [|done]. rewrite Header_read by done.
      f_equal. unfold newHeader at 1. cbn [hHash]. rewrite <- Hh. by destruct h. }
  by destruct b.
Qed.

Lemma Receipts_store_read rs :
  Forall receipt_ok rs →
  UnmarshalRlp (Receipts_UnmarshalStoreRLPFrom []) (Receipts_MarshalStoreRLP rs) = Some rs.
Proof.
  intros Hr. unfold UnmarshalRlp, Receipts_MarshalStoreRLP. rewrite parse_marshal. cbn [mbind option_bind].
  unfold Receipts_UnmarshalStoreRLPFrom, Receipts_MarshalStoreRLPWith. rewrite elems_array. cbn [mbind option_bind].
  rewrite (mapM_fmap _ _ id), list_fmap_id; [done|].
  intros r Hin. apply Receipt_store_read. by eapply Forall_forall in Hr.
Qed.
End roundtrips.

(** A block sent over the wire is read back with the same header,
    transactions and uncles: every field of the encoding survives, nil
    numbers come back as zero, header hashes are recomputed with the
    engine's hash function and transaction hashes from the bytes. *)
Theorem block_roundtrip `{RlpLaws, !Keccak} (HeaderHash : Header → Hash) (b : Block) :
  header_ok (bHeader b) → Forall tx_ok (bTransactions b) → Forall header_ok (bUncles b) →
  UnmarshalRlp (Block_UnmarshalRLPFrom HeaderHash (mkBlock newHeader [] [] None)) (Block_MarshalRLP b) =
    Some (mkBlock (set_hHash (HeaderHash (set_hHash ZeroHash (bHeader b))) (bHeader b))
      (tx_read newTransaction <$> bTransactions b)
      ((λ h, set_hHash (HeaderHash (set_hHash ZeroHash h)) h) <$> bUncles b) None).
Proof. apply Block_read. Qed.

(** What the node stores comes back unchanged: a body whose transactions
    are complete and whose hashes are those of their encodings, and any list
    of well-formed receipts, with status, contract address, gas and
    transaction hash. *)
Theorem storage_roundtrip `{RlpLaws, !Keccak} (HeaderHash : Header → Hash) (b : Body) (rs : list Receipt) :
  Forall tx_stored (bdTransactions b) → Forall (header_stored HeaderHash) (bdUncles b) → Forall receipt_ok rs →
  UnmarshalRlp (Body_UnmarshalRLPFrom HeaderHash (mkBody [] [])) (Body_MarshalRLP b) = Some b ∧
  UnmarshalRlp (Receipts_UnmarshalStoreRLPFrom []) (Receipts_MarshalStoreRLP rs) = Some rs.
Proof. intros Ht Hu Hr. split; [by apply Body_read|by apply Receipts_store_read]. Qed.

(** ** The bloom filter *)

Section bloom_bits.
Context `{Keccak}.

(** The position of a bit in the filter, and whether it is set. *)
Definition bloomByte (bit : Z) : nat := Z.to_nat (256 - 1 - bit / 8).
Definition hasBit (b : list Z) (bit : Z) : Prop :=
  ∃ x, b !! bloomByte bit = Some x ∧ Z.testbit x (bit mod 8) = true.

Lemma bloomBit_range buf i : 0 ≤ bloomBit buf i < 2048.
Proof. unfold bloomBit. change 2047 with (Z.ones 11). rewrite Z.land_ones by lia. apply Z.mod_pos_bound. lia. Qed.

Lemma bloomSet_spec buf b i bit :
  length b = 256%nat → bit = bloomBit buf i ∨ hasBit b bit → hasBit (bloomSet buf b i) bit.
Proof.
  intros Hl Hbit. unfold bloomSet. pose proof (bloomBit_range buf i) as Hr.
  fold (bloomByte (bloomBit buf i)).
  assert (0 ≤ bloomBit buf i mod 8) by (apply Z.mod_pos_bound; lia).
  destruct (decide (bloomByte bit = bloomByte (bloomBit buf i))) as [E|E].
  - destruct (lookup_lt_is_Some_2 b (bloomByte (bloomBit buf i))) as [x Hx].
    { unfold bloomByte. Z.div_mod_to_equations. lia. }
    exists (Z.lor x (Z.shiftl 1 (bloomBit buf i mod 8))). rewrite E, list_lookup_alter_eq, Hx. split; [done|].
    rewrite Z.lor_spec. apply orb_true_iff. destruct Hbit as [->|(y & Hy & Ht)].
    + right. by rewrite Z.shiftl_spec, Z.sub_diag by done.
    + left. rewrite E, Hx in Hy. by simplify_eq.
  - destruct Hbit as [->|(y & Hy & Ht)]; [done|]. exists y. by rewrite list_lookup_alter_ne by done.
Qed.

Lemma length_bloomSet buf b i : length (bloomSet buf b i) = length b.
Proof. apply length_alter. Qed.

(** [all] of the bits of a byte string are set. *)
Definition hasBits (b data : list Z) : Prop := ∀ i, i ∈ [0; 2; 4]%nat → hasBit b (bloomBit (keccak256 data) i).

Lemma setEncode_spec b h :
  length b = 256%nat →
  length (setEncode b h) = 256%nat ∧ hasBits (setEncode b h) h ∧ ∀ bit, hasBit b bit → hasBit (setEncode b h) bit.
Proof.
  intros Hl. unfold setEncode. cbn [foldl]. set (buf := keccak256 h).
  assert (length (bloomSet buf b 0) = 256%nat) as H0 by by rewrite length_bloomSet.
  assert (length (bloomSet buf (bloomSet buf b 0) 2) = 256%nat) as H2 by by rewrite length_bloomSet.
  split; [by rewrite length_bloomSet|]. split.
  - intros i Hi. rewrite !elem_of_cons, elem_of_nil in Hi. destruct Hi as [->|[->|[->|[]]]].
    + apply bloomSet_spec; [done|]. right. apply bloomSet_spec; [done|]. right. apply bloomSet_spec; [done|by left].
    + apply bloomSet_spec; [done|]. right. apply bloomSet_spec; [done|by left].
    + apply bloomSet_spec; [done|by left].
  - intros bit Hb. do 3 (apply bloomSet_spec; [done|right]). done.
Qed.

(** Folding a filter over data keeps bits and adds those of every element. *)
Lemma fold_bloom {A} (f : list Z → A → list Z) (data : A → list Z → Prop) l b :
  (∀ b x, length b = 256%nat → length (f b x) = 256%nat ∧ (∀ d, data x d → hasBits (f b x) d) ∧
     ∀ bit, hasBit b bit → hasBit (f b x) bit) →
  length b = 256%nat →
  length (foldl f b l) = 256%nat ∧ (∀ x d, x ∈ l → data x d → hasBits (foldl f b l) d) ∧
  ∀ bit, hasBit b bit → hasBit (foldl f b l) bit.
Proof.
  intros Hf. revert b. induction l as [|x l IH]; intros b Hb; cbn [foldl].
  - split; [done|]. split; [|done]. intros x d Hx. by apply elem_of_nil in Hx.
  - destruct (Hf b x Hb) as (Hl & Hd & Hk). destruct (IH _ Hl) as (Hl' & Hd' & Hk').
    split; [done|]. split; [|by eauto]. intros y d Hy Hyd. apply elem_of_cons in Hy as [->|Hy]; [|by eapply Hd'].
    intros i Hi. by apply Hk', Hd.
Qed.

Lemma bloomLog_spec b log :
  length b = 256%nat →
  length (bloomLog b log) = 256%nat ∧
  (∀ d, d = logAddress log ∨ d ∈ Topics log → hasBits (bloomLog b log) d) ∧
  ∀ bit, hasBit b bit → hasBit (bloomLog b log) bit.
Proof.
  intros Hb. unfold bloomLog. destruct (setEncode_spec b (logAddress log) Hb) as (Hl & Ha & Hk).
  destruct (fold_bloom setEncode (λ t d, d = t) (Topics log) (setEncode b (logAddress log))) as (Hl' & Ht & Hk').
  - intros b' t Hb'. destruct (setEncode_spec b' t Hb') as (? & ? & ?). split_and!; try done. by intros d ->.
  - done.
  - split; [done|]. split; [|by eauto]. intros d [->|Hd]; [|by eapply Ht]. intros i Hi. by apply Hk', Ha.
Qed.
End bloom_bits.

(** The bloom filter of a list of receipts has no false negatives by
    construction: the three bits of the address and of every topic of every
    log are set. *)
Lemma CreateBloom_complete `{Keccak} (receipts : list Receipt) (r : Receipt) (log : Log) (d : list Z) :
  r ∈ receipts → log ∈ rLogs r → d = logAddress log ∨ d ∈ Topics log →
  hasBits (CreateBloom receipts) d.
Proof.
  intros Hr Hlog Hd. unfold CreateBloom.
  destruct (fold_bloom (λ b r, foldl bloomLog b (rLogs r))
    (λ r d, ∃ log, log ∈ rLogs r ∧ (d = logAddress log ∨ d ∈ Topics log)) receipts ZeroBloom) as (_ & Hall & _).
  - intros b x Hb.
    destruct (fold_bloom bloomLog (λ log d, d = logAddress log ∨ d ∈ Topics log) (rLogs x) b) as (? & Hlogs & ?);
      [apply bloomLog_spec|done|]. split_and!; try done. intros d' (log' & ? & ?). by eapply Hlogs.
  - done.
  - eapply Hall; eauto.
Qed.

(** The membership test reads the bit below the one [CreateBloom] sets,
    and no bit at all when that one is the lowest of its byte: whatever the
    filter holds, a log whose address or topic selects such a bit is
    reported absent. *)
Lemma IsLogInBloom_misses `{Keccak} (b : list Z) (log : Log) (i : nat) :
  i ∈ [0; 2; 4]%nat → bloomBit (keccak256 (logAddress log)) i mod 8 = 0 → IsLogInBloom b log = false.
Proof.
  intros Hi Hbit. unfold IsLogInBloom. apply andb_false_iff. left. unfold isByteArrPresent.
  apply not_true_iff_false. intros Hall. rewrite forallb_forall in Hall. specialize (Hall i (proj1 (list_elem_of_In _ _) Hi)).
  unfold bitPresent in Hall. rewrite Hbit in Hall. change (presentMask 0) with 0 in Hall. rewrite Z.land_0_r in Hall.
  done.
Qed.

(** The bloom filter. Creating it has no false negatives: the three bits
    of the address and of every topic of every log are set. But the
    membership test reads the bit below the one [CreateBloom] sets, and no
    bit at all when that one is the lowest of its byte: whatever the filter
    holds, a log whose address selects such a bit is reported absent. *)
Theorem bloom_filter `{Keccak} :
  (∀ (receipts : list Receipt) (r : Receipt) (log : Log) (d : list Z),
     r ∈ receipts → log ∈ rLogs r → d = logAddress log ∨ d ∈ Topics log → hasBits (CreateBloom receipts) d) ∧
  (∀ (b : list Z) (log : Log) (i : nat),
     i ∈ [0; 2; 4]%nat → bloomBit (keccak256 (logAddress log)) i mod 8 = 0 → IsLogInBloom b log = false).
Proof. split; [apply CreateBloom_complete|apply IsLogInBloom_misses]. Qed.

(** ** Instances *)

(** A digest that depends on the length of its input only. *)
Definition length_keccak : Keccak.
Proof.
  refine {| keccak256 := λ b, BytesToHash [zlen b mod 256] |}. intros b. apply BytesToHash_ok.
  apply Forall_singleton. apply Z.mod_pos_bound. lia.
Defined.

#[local] Existing Instances tree_fastrlp tree_rlp tree_rlp_laws length_keccak.

Definition demo_tx : Transaction :=
  Transaction_ComputeHash (mkTx 7 (Some 10) 21000 (Some ZeroAddress) (Some 5) [1; 2] (Some 27) (Some 1) (Some 1)
    ZeroHash ZeroAddress None).

Definition demo_receipt : Receipt :=
  mkReceipt ZeroHash 21000 ZeroBloom [mkLog ZeroAddress [ZeroHash] [9]] (Some 1) 21000 None ZeroHash.

Lemma demo_tx_ok : tx_ok demo_tx.
Proof. split; try (cbv; split; congruence); try done. by intros a [= <-]. Qed.

Lemma newHeader_ok : header_ok newHeader.
Proof. split; try done. split; [done|]. apply Forall_replicate. split; lia. Qed.

Lemma demo_receipt_ok : receipt_ok demo_receipt.
Proof. split; try done; [by repeat constructor|by intros s [= <-]]. Qed.

Lemma block_roundtrip_witness :
  UnmarshalRlp (Block_UnmarshalRLPFrom defHeaderHash (mkBlock newHeader [] [] None))
    (Block_MarshalRLP (mkBlock newHeader [demo_tx] [] None)) =
  Some (mkBlock (set_hHash (defHeaderHash newHeader) newHeader) [tx_read newTransaction demo_tx] [] None).
Proof.
  apply (block_roundtrip defHeaderHash (mkBlock newHeader [demo_tx] [] None)).
  - apply newHeader_ok.
  - apply Forall_singleton, demo_tx_ok.
  - constructor.
Defined.

Lemma storage_roundtrip_witness :
  UnmarshalRlp (Body_UnmarshalRLPFrom defHeaderHash (mkBody [] [])) (Body_MarshalRLP (mkBody [demo_tx] [])) =
    Some (mkBody [demo_tx] []) ∧
  UnmarshalRlp (Receipts_UnmarshalStoreRLPFrom []) (Receipts_MarshalStoreRLP [demo_receipt]) = Some [demo_receipt].
Proof.
  apply (storage_roundtrip defHeaderHash (mkBody [demo_tx] []) [demo_receipt]).
  - apply Forall_singleton. split; [apply demo_tx_ok|by repeat constructor|reflexivity|reflexivity].
  - constructor.
  - apply Forall_singleton, demo_receipt_ok.
Defined.

