(* ===== verification/Heap.v ===== *)
(** * Binary heaps (Go's container/heap)

    The transaction queues are slices ordered by the standard library's
    heap operations. [up], [down], [Push], [Pop] and [Remove] are those of
    container/heap over a slice whose [Less] compares elements by [less];
    the lemmas give the heap invariant and the multiset of elements. Every
    index the operations compute is in range, so [Swap] outside the slice,
    a panic in Go, does not arise; it leaves the slice alone here. The class
    [Interface] is heap.Interface, for heaps whose [Swap] does more than
    exchange two entries; [Viewed] relates such a heap to the slice in it,
    and the lemmas on slices carry over. *)

From S2P Require Import Prelude.

Section heap.
Context {A : Type} (less : A → A → bool).

Definition Less (l : list A) (i j : nat) : bool :=
  match l !! i, l !! j with
  | Some x, Some y => less x y
  | _, _ => false
  end.

Definition Swap (i j : nat) (l : list A) : list A :=
  match l !! i, l !! j with
  | Some x, Some y => <[i := y]> (<[j := x]> l)
  | _, _ => l
  end.

(** [up(h, j)]: the parent of [j] is smaller than [j] unless [j] is the
    root, so [j + 1] rounds are enough. *)
Fixpoint up (fuel : nat) (l : list A) (j : nat) : list A :=
  match fuel with
  | O => l
  | S fuel =>
      let i := ((j - 1) / 2)%nat in
      if (i =? j)%nat || negb (Less l j i) then l
      else up fuel (Swap i j l) i
  end.

(** [down(h, i, n)]: [i] grows in every round. *)
Fixpoint down (fuel : nat) (l : list A) (i n : nat) : list A :=
  match fuel with
  | O => l
  | S fuel =>
      let j1 := (2 * i + 1)%nat in
      if (n <=? j1)%nat then l else
      let j2 := (j1 + 1)%nat in
      let j := if (j2 <? n)%nat && Less l j2 j1 then j2 else j1 in
      if negb (Less l j i) then l
      else down fuel (Swap i j l) j n
  end.

Definition Push (l : list A) (x : A) : list A :=
  let l := l ++ [x] in up (length l) l (length l - 1).

(** [heap.Pop(h)] on a queue that is not empty. *)
Definition Pop (l : list A) : option (A * list A) :=
  let n := (length l - 1)%nat in
  let l := down n (Swap 0 n l) 0 n in
  match l !! n with
  | Some x => Some (x, take n l)
  | None => None
  end.

(** Whether [down] moves the element at [i]: it reports that it ended at a
    larger index. *)
Definition moves (l : list A) (i n : nat) : bool :=
  let j1 := (2 * i + 1)%nat in
  if (n <=? j1)%nat then false else
  let j2 := (j1 + 1)%nat in
  let j := if (j2 <? n)%nat && Less l j2 j1 then j2 else j1 in
  Less l j i.

(** [heap.Remove(h, i)] *)
Definition Remove (l : list A) (i : nat) : option (A * list A) :=
  let n := (length l - 1)%nat in
  let l := if (n =? i)%nat then l
           else let l := Swap i n l in
                if moves l i n then down n l i n else up n l i in
  match l !! n with
  | Some x => Some (x, take n l)
  | None => None
  end.

(** ** The order *)

Class StrictWeak : Prop := {
  less_irrefl x : less x x = false;
  less_total_trans x y z : less y x = false → less z y = false → less z x = false;
  less_asym x y : less x y = true → less y x = false;
}.

(** [x] may come before [y]. *)
Definition before (x y : A) : Prop := less y x = false.

(** ** The invariant *)

Definition parent (i j : nat) : Prop := j = (2 * i + 1)%nat ∨ j = (2 * i + 2)%nat.

(** Two positions below [n] are in order. *)
Definition edge (n : nat) (l : list A) (i j : nat) : Prop :=
  ∀ x y, (j < n)%nat → l !! i = Some x → l !! j = Some y → before x y.

Definition heap (n : nat) (l : list A) : Prop := ∀ i j, parent i j → edge n l i j.

(** The heap invariant on the whole slice. *)
Definition heap_ok (l : list A) : Prop := heap (length l) l.

Lemma parent_div j : j = 0%nat ∨ parent ((j - 1) / 2) j.
Proof.
  unfold parent. pose proof (Nat.div_mod_eq (j - 1) 2). pose proof (Nat.mod_upper_bound (j - 1) 2). lia.
Qed.

(** ** Swaps *)

Lemma length_Swap i j l : length (Swap i j l) = length l.
Proof. unfold Swap. destruct (l !! i), (l !! j); rewrite ?length_insert; done. Qed.

Lemma Swap_spec i j l x y k :
  l !! i = Some x → l !! j = Some y →
  Swap i j l !! k = if decide (k = i) then Some y else if decide (k = j) then Some x else l !! k.
Proof.
  intros Hi Hj. unfold Swap. rewrite Hi, Hj. apply lookup_lt_Some in Hi as Li, Hj as Lj.
  repeat case_decide; subst.
  - by rewrite list_lookup_insert_eq by (rewrite length_insert; lia).
  - by rewrite list_lookup_insert_ne, list_lookup_insert_eq by done.
  - by rewrite !list_lookup_insert_ne by done.
Qed.

Lemma Swap_perm i j l : Swap i j l ≡ₚ l.
Proof.
  unfold Swap. destruct (l !! i) eqn:Hi; [|done]. destruct (l !! j) eqn:Hj; [|done].
  by apply Permutation_insert_swap.
Qed.

Lemma up_perm fuel l j : up fuel l j ≡ₚ l.
Proof.
  revert l j. induction fuel as [|fuel IH]; intros l j; [done|]. cbn [up].
  case_match; [done|]. by rewrite IH, Swap_perm.
Qed.

Lemma down_perm fuel l i n : down fuel l i n ≡ₚ l.
Proof.
  revert l i. induction fuel as [|fuel IH]; intros l i; [done|]. cbn [down]. cbv zeta.
  destruct (n <=? _)%nat; [done|]. destruct (negb _); [done|]. by rewrite IH, Swap_perm.
Qed.

(** ** Sifting

    A sift step works on a heap with a hole: the order may fail at one
    position, and the neighbours of that position are in order with one
    another. *)

Context `{!StrictWeak}.

Lemma before_trans x y z : before x y → before y z → before x z.
Proof. apply less_total_trans. Qed.

Lemma less_before x y : less x y = true → before x y.
Proof. apply less_asym. Qed.

Lemma Less_spec l i j x y : l !! i = Some x → l !! j = Some y → Less l i j = less x y.
Proof. unfold Less. by intros -> ->. Qed.

(** Reading a slice after a swap. *)
Ltac swapped :=
  repeat match goal with
  | H : Swap ?i ?j ?l !! ?k = Some _ |- _ =>
      erewrite (Swap_spec i j l) in H by eassumption; repeat case_decide; subst
  end; simplify_eq; try lia.

Definition hole_up (l : list A) (j : nat) : Prop :=
  (∀ p c, parent p c → c ≠ j → edge (length l) l p c) ∧
  (∀ p c, parent p j → parent j c → edge (length l) l p c).

Lemma up_step l i j x y :
  parent i j → l !! i = Some x → l !! j = Some y → less y x = true → hole_up l j → hole_up (Swap i j l) i.
Proof.
  intros Hij Hi Hj Hlt [H1 H2]. apply less_before in Hlt as Hle.
  unfold hole_up, edge, parent in *. rewrite length_Swap. split; intros p c.
  - intros Hpc Hci a b Hb Ha Hb'. swapped; try done.
    + eapply before_trans; [exact Hle|]. eapply (H1 i c); eauto; lia.
    + eapply (H2 i c); eauto; lia.
    + eapply (H1 p c); eauto; lia.
  - intros Hpi Hic a b Hb Ha Hb'. swapped.
    + eapply (H1 p i); eauto; lia.
    + eapply before_trans; [eapply (H1 p i)|eapply (H1 i c)]; eauto; lia.
Qed.

Lemma up_ok fuel l j : (j < fuel)%nat → (j < length l)%nat → hole_up l j → heap_ok (up fuel l j).
Proof.
  revert l j. induction fuel as [|fuel IH]; intros l j Hf Hj Hhole; [lia|]. cbn [up]. cbv zeta.
  destruct ((j - 1) / 2 =? j)%nat eqn:E0; cbn [orb].
  - apply Nat.eqb_eq in E0. destruct (parent_div j) as [->|Hp]; [|unfold parent in Hp; lia].
    intros p c Hpc. apply (proj1 Hhole); [done|]. unfold parent in Hpc. lia.
  - apply Nat.eqb_neq in E0. set (i := ((j - 1) / 2)%nat) in *.
    assert (parent i j ∧ (i < j)%nat) as [Hij Hlt] by (destruct (parent_div j) as [->|?]; [by destruct E0|unfold parent, i in *; lia]).
    destruct (lookup_lt_is_Some_2 l i) as [x Hx]; [lia|]. destruct (lookup_lt_is_Some_2 l j) as [y Hy]; [lia|].
    rewrite (Less_spec l j i y x) by done. destruct (less y x) eqn:E; cbn [negb].
    + apply IH; [lia|rewrite length_Swap; lia|]. by eapply up_step.
    + intros p c Hpc. destruct (decide (c = j)) as [->|Hne]; [|by apply (proj1 Hhole)].
      assert (p = i) as -> by (unfold parent in *; lia). intros a b _ Ha Hb. by simplify_eq.
Qed.

(** The hole of [down]: position [i] of the first [n]. *)
Definition hole_down (n : nat) (l : list A) (i : nat) : Prop :=
  (∀ p c, parent p c → p ≠ i → edge n l p c) ∧
  (∀ p c, parent p i → parent i c → edge n l p c).

Lemma down_step n l i j x y :
  (n ≤ length l)%nat → parent i j → (j < n)%nat → l !! i = Some x → l !! j = Some y → less y x = true →
  (∀ c z, parent i c → (c < n)%nat → l !! c = Some z → before y z) →
  hole_down n l i → hole_down n (Swap i j l) j.
Proof.
  intros Hn Hij Hjn Hi Hj Hlt Hmin [H1 H2]. apply less_before in Hlt as Hle.
  unfold hole_down, edge, parent in *. split; intros p c.
  - intros Hpc Hpj a b Hb Ha Hb'. swapped; first [done | by eapply (H2 p j); eauto | by eapply (H1 p c); eauto | by eapply Hmin; eauto].
  - intros Hpi Hic a b Hb Ha Hb'. swapped. eapply (H1 j c); eauto; lia.
Qed.
(** The smaller child of [i]. *)
Lemma smaller_child n l i :
  (n ≤ length l)%nat → (2 * i + 1 < n)%nat →
  ∃ j y, (if (2 * i + 1 + 1 <? n)%nat && Less l (2 * i + 1 + 1) (2 * i + 1) then 2 * i + 1 + 1 else 2 * i + 1)%nat = j ∧
    parent i j ∧ (j < n)%nat ∧ l !! j = Some y ∧
    ∀ c z, parent i c → (c < n)%nat → l !! c = Some z → before y z.
Proof.
  intros Hn Hi. destruct (lookup_lt_is_Some_2 l (2 * i + 1)) as [y1 H1]; [lia|].
  destruct (Nat.ltb_spec (2 * i + 1 + 1) n) as [Hlt|Hge]; cbn [andb].
  - destruct (lookup_lt_is_Some_2 l (2 * i + 1 + 1)) as [y2 H2]; [lia|]. rewrite (Less_spec _ _ _ y2 y1) by done.
    destruct (less y2 y1) eqn:E; (eexists _, _; split; [done|]); unfold parent; (split; [lia|]); (split; [lia|]);
      (split; [done|]); intros c z [->| ->] Hc Hz.
    + simplify_eq. by apply less_before.
    + replace (2 * i + 2)%nat with (2 * i + 1 + 1)%nat in Hz by lia. simplify_eq. apply less_irrefl.
    + simplify_eq. apply less_irrefl.
    + replace (2 * i + 2)%nat with (2 * i + 1 + 1)%nat in Hz by lia. by simplify_eq.
  - eexists _, _. split; [done|]. unfold parent. split; [lia|]. split; [lia|]. split; [done|].
    intros c z [->| ->] Hc Hz; [|lia]. simplify_eq. apply less_irrefl.
Qed.

Lemma down_ok fuel n l i :
  (n ≤ length l)%nat → (n ≤ i + fuel)%nat → hole_down n l i → heap n (down fuel l i n).
Proof.
  revert l i. induction fuel as [|fuel IH]; intros l i Hn Hf Hhole.
  - intros p c Hpc x y Hc. destruct (decide (p = i)) as [->|Hne]; [unfold parent in Hpc; lia|].
    by apply (proj1 Hhole).
  - cbn [down]. cbv zeta. destruct (Nat.leb_spec n (2 * i + 1)) as [Hle|Hgt].
    + intros p c Hpc x y Hc. destruct (decide (p = i)) as [->|Hne]; [unfold parent in Hpc; lia|].
      by apply (proj1 Hhole).
    + destruct (smaller_child n l i Hn Hgt) as (j & y & -> & Hij & Hjn & Hy & Hmin).
      destruct (lookup_lt_is_Some_2 l i) as [x Hx]; [lia|]. rewrite (Less_spec l j i y x) by done.
      destruct (less y x) eqn:E; cbn [negb].
      * apply IH; [by rewrite length_Swap|unfold parent in Hij; lia|]. by eapply down_step.
      * intros p c Hpc a b Hc Ha Hb. destruct (decide (p = i)) as [->|Hne]; [|by eapply (proj1 Hhole)].
        simplify_eq. eapply before_trans; [exact E|]. by eapply Hmin.
Qed.

Lemma down_above fuel l i n k : (n ≤ length l)%nat → (i < n)%nat → (n ≤ k)%nat → down fuel l i n !! k = l !! k.
Proof.
  revert l i. induction fuel as [|fuel IH]; intros l i Hn Hi Hk; [done|]. cbn [down]. cbv zeta.
  destruct (Nat.leb_spec n (2 * i + 1)) as [Hle|Hgt]; [done|].
  destruct (smaller_child n l i Hn Hgt) as (j & y & -> & Hij & Hjn & Hy & _). destruct (negb _); [done|].
  rewrite IH by (rewrite ?length_Swap; done). destruct (lookup_lt_is_Some_2 l i) as [x Hx]; [lia|].
  rewrite (Swap_spec i j l x y) by done. repeat case_decide; (done || lia).
Qed.

(** ** Push and Pop *)

Lemma Push_perm l x : Push l x ≡ₚ x :: l.
Proof. unfold Push. by rewrite up_perm, <- Permutation_cons_append. Qed.

Lemma Push_ok l x : heap_ok l → heap_ok (Push l x).
Proof.
  intros Hl. unfold Push. rewrite length_app. cbn [length]. rewrite Nat.add_sub. apply up_ok.
  - lia.
  - rewrite length_app. cbn. lia.
  - split; intros p c Hpc.
    + intros Hc a b Hlt Ha Hb. rewrite length_app in Hlt. cbn in Hlt. unfold parent in Hpc.
      rewrite lookup_app_l in Ha, Hb by lia. eapply (Hl p c); eauto. lia.
    + intros Hc a b Hlt. rewrite length_app in Hlt. cbn in Hlt. unfold parent in *. lia.
Qed.

(** The root comes before every element. *)
Lemma root_min l x y : heap_ok l → l !! 0%nat = Some x → y ∈ l → before x y.
Proof.
  intros Hl Hx Hy. apply list_elem_of_lookup in Hy as [k Hk]. revert y Hk.
  induction k as [k IH] using lt_wf_ind. intros y Hk. destruct (parent_div k) as [->|Hp].
  - simplify_eq. apply less_irrefl.
  - set (i := ((k - 1) / 2)%nat) in *. apply lookup_lt_Some in Hk as Hlt. unfold parent in Hp.
    destruct (lookup_lt_is_Some_2 l i) as [z Hz]; [lia|]. eapply before_trans; [eapply IH; [|exact Hz]; lia|].
    by eapply (Hl i k).
Qed.

Lemma Pop_spec l :
  heap_ok l → l ≠ [] →
  ∃ x l', Pop l = Some (x, l') ∧ l !! 0%nat = Some x ∧ l ≡ₚ x :: l' ∧ heap_ok l' ∧ (∀ y, y ∈ l → before x y).
Proof.
  intros Hl Hne. unfold Pop. destruct (lookup_lt_is_Some_2 l 0) as [x Hx]; [destruct l; [done|cbn; lia]|].
  apply lookup_lt_Some in Hx as Hlen. set (n := (length l - 1)%nat).
  destruct (lookup_lt_is_Some_2 l n) as [y Hy]; [lia|].
  set (l0 := Swap 0 n l). set (l1 := down n l0 0 n).
  assert (length l1 = length l) as Hlen1.
  { unfold l1. rewrite (Permutation_length (down_perm n l0 0 n)). apply length_Swap. }
  assert (l0 !! n = Some x) as Hn0.
  { unfold l0. rewrite (Swap_spec 0 n l x y) by done. repeat case_decide; [|done|done].
    replace n with 0%nat in Hy by lia. by simplify_eq. }
  assert (l1 !! n = Some x) as Hn1.
  { unfold l1. destruct (decide (n = 0%nat)) as [E|E]; [by rewrite E in *|].
    rewrite down_above; [done|unfold l0; rewrite length_Swap; lia|lia|lia]. }
  assert (heap n l1) as Hheap.
  { unfold l1. apply down_ok; [unfold l0; rewrite length_Swap; lia|lia|].
    split; intros p c Hpc; [|unfold parent in *; lia].
    intros Hp a b Hc. unfold l0. rewrite !(Swap_spec 0 n l x y) by done. unfold parent in Hpc.
    repeat case_decide; try lia. intros Ha Hb. eapply (Hl p c); eauto; (unfold parent; lia). }
  rewrite Hn1. exists x, (take n l1). split_and!; [done|done| | |by intros; eapply root_min].
  - transitivity l1; [unfold l1, l0; by rewrite down_perm, Swap_perm|].
    rewrite <- (take_drop n l1) at 1. rewrite (drop_S _ _ _ Hn1), drop_ge by lia. by rewrite <- Permutation_cons_append.
  - intros p c Hpc a b Hc. rewrite length_take in Hc. unfold parent in Hpc. rewrite !lookup_take_lt by lia.
    apply (Hheap p c); [done|lia].
Qed.
(** ** Remove *)

(** [up] touches the ancestors of [j] only. *)
Lemma Swap_app i j l k : (i < length l)%nat → (j < length l)%nat → Swap i j (l ++ k) = Swap i j l ++ k.
Proof.
  intros Hi Hj. destruct (lookup_lt_is_Some_2 l i Hi) as [x Hx]. destruct (lookup_lt_is_Some_2 l j Hj) as [y Hy].
  unfold Swap. rewrite !lookup_app_l, Hx, Hy by done. by rewrite !insert_app_l by (rewrite ?length_insert; done).
Qed.

Lemma up_app fuel l k j : (j < length l)%nat → up fuel (l ++ k) j = up fuel l j ++ k.
Proof.
  revert l j. induction fuel as [|fuel IH]; intros l j Hj; [done|]. cbn [up]. cbv zeta.
  assert ((j - 1) / 2 ≤ j)%nat as Hle by (destruct (parent_div j) as [->|Hp]; [done|unfold parent in Hp; lia]).
  unfold Less. rewrite !lookup_app_l by lia. destruct (_ || _); [done|].
  rewrite Swap_app by lia. apply IH. rewrite length_Swap. lia.
Qed.

(** The order may fail on either side of [i], among the first [n]. *)
Definition hole (n : nat) (l : list A) (i : nat) : Prop :=
  (∀ p c, parent p c → p ≠ i → c ≠ i → edge n l p c) ∧
  (∀ p c, parent p i → parent i c → edge n l p c).

Lemma hole_moves fuel n l i :
  (n ≤ length l)%nat → (n ≤ fuel)%nat → (i < n)%nat → hole n l i → moves l i n = true → heap n (down fuel l i n).
Proof.
  intros Hn Hf Hi [H1 H2]. unfold moves. cbv zeta. destruct (Nat.leb_spec n (2 * i + 1)) as [Hle|Hgt]; [done|].
  destruct fuel as [|fuel]; [lia|]. cbn [down]. cbv zeta. rewrite (proj2 (Nat.leb_gt n (2 * i + 1))) by lia.
  destruct (smaller_child n l i Hn Hgt) as (j & y & -> & Hij & Hjn & Hy & Hmin). intros Hless. rewrite Hless. cbn [negb].
  destruct (lookup_lt_is_Some_2 l i) as [x Hx]; [lia|]. rewrite (Less_spec l j i y x) in Hless by done.
  apply less_before in Hless as Hle. apply down_ok; [by rewrite length_Swap|unfold parent in Hij; lia|].
  unfold hole_down, edge, parent in *. split; intros p c.
  - intros Hpc Hpj a b Hb Ha Hb'. swapped; first
      [done | by eapply Hmin; eauto; lia | by eapply (H2 p j); eauto; lia | by eapply (H1 p c); eauto; lia].
  - intros Hpi Hic a b Hb Ha Hb'. swapped. eapply (H1 j c); eauto; lia.
Qed.

Lemma hole_stays n l i :
  (n ≤ length l)%nat → (i < n)%nat → hole n l i → moves l i n = false → heap n (up n l i).
Proof.
  intros Hn Hi [H1 H2] Hm. rewrite <- (take_drop n l). assert (length (take n l) = n) as Hlen by (rewrite length_take; lia).
  rewrite up_app by lia. assert (heap_ok (up n (take n l) i)) as Hok.
  { apply up_ok; [done|lia|]. split; intros p c Hpc Hc a b Hlt; rewrite Hlen in Hlt;
      unfold parent in Hpc; rewrite !lookup_take_lt by (unfold parent in *; lia); intros Ha Hb.
    - destruct (decide (p = i)) as [->|]; [|eapply (H1 p c); eauto]. revert Hm. unfold moves. cbv zeta.
      rewrite (proj2 (Nat.leb_gt n (2 * i + 1))) by lia.
      destruct (smaller_child n l i Hn) as (j & y & -> & Hij & Hjn & Hy & Hmin); [lia|].
      rewrite (Less_spec l j i y a) by done. intros Hle. eapply before_trans; [exact Hle|]. by apply (Hmin c b).
    - by eapply (H2 p c). }
  pose proof (Permutation_length (up_perm n (take n l) i)) as Hup. rewrite Hlen in Hup.
  intros p c Hpc a b Hc. unfold parent in Hpc. rewrite !lookup_app_l by lia. intros Ha Hb.
  eapply (Hok p c); eauto. lia.
Qed.

Lemma Remove_spec l i x :
  heap_ok l → l !! i = Some x → ∃ l', Remove l i = Some (x, l') ∧ l ≡ₚ x :: l' ∧ heap_ok l'.
Proof.
  intros Hl Hx. apply lookup_lt_Some in Hx as Hi. unfold Remove. set (n := (length l - 1)%nat). cbv zeta.
  set (l1 := if (n =? i)%nat then _ else _).
  assert (l1 ≡ₚ l ∧ l1 !! n = Some x ∧ heap n l1) as (Hperm & Hn1 & Hheap).
  { unfold l1. destruct (Nat.eqb_spec n i) as [<-|Hne].
    - split_and!; [done|done|]. intros p c Hpc a b Hc. apply (Hl p c); [done|lia].
    - destruct (lookup_lt_is_Some_2 l n) as [y Hy]; [lia|]. set (l0 := Swap i n l).
      assert (length l0 = length l) as Hlen by apply length_Swap.
      assert (l0 !! n = Some x) as Hn0 by (unfold l0; rewrite (Swap_spec i n l x y) by done; by repeat case_decide).
      assert (hole n l0 i) as Hhole.
      { split; intros p c Hpc.
        - intros Hp Hc a b Hlt. unfold l0. rewrite !(Swap_spec i n l x y) by done. unfold parent in Hpc.
          repeat case_decide; try lia. intros Ha Hb. eapply (Hl p c); eauto; (unfold parent; lia).
        - intros Hic a b Hlt. unfold l0. rewrite !(Swap_spec i n l x y) by done. unfold parent in *.
          repeat case_decide; try lia. intros Ha Hb. eapply before_trans; [eapply (Hl p i)|eapply (Hl i c)];
            eauto; (unfold parent; lia). }
      destruct (moves l0 i n) eqn:Em.
      + split_and!; [unfold l0; by rewrite down_perm, Swap_perm| |apply hole_moves; [lia|lia|lia|done|done]].
        rewrite down_above; [done|lia|lia|lia].
      + split_and!; [unfold l0; by rewrite up_perm, Swap_perm| |apply hole_stays; [lia|lia|done|done]].
        rewrite <- (take_drop n l0), up_app by (rewrite length_take; lia).
        assert (length (up n (take n l0) i) = n) as Hup
          by (rewrite (Permutation_length (up_perm n (take n l0) i)), length_take; lia).
        rewrite lookup_app_r, Hup, Nat.sub_diag by lia. rewrite lookup_drop. by rewrite Nat.add_0_r. }
  rewrite Hn1. exists (take n l1). pose proof (Permutation_length Hperm) as Hlen. split_and!; [done| |].
  - rewrite <- Hperm. rewrite <- (take_drop n l1) at 1. rewrite (drop_S _ _ _ Hn1), drop_ge by lia.
    by rewrite <- Permutation_cons_append.
  - intros p c Hpc a b Hc. rewrite length_take in Hc. unfold parent in Hpc. rewrite !lookup_take_lt by lia.
    apply (Hheap p c); [done|lia].
Qed.
End heap.

(** ** The interface

    container/heap works on a value with [Len], [Less] and [Swap], and the
    methods may do more than order a slice. [up_on], [down_on] and
    [Remove_on] are written against the interface; [down_on] also returns the
    index it ends at. [Remove_on] is [heap.Remove] up to its call of [Pop]. *)

Class Interface (S : Type) := {
  h_Len : S → nat;
  h_Less : S → nat → nat → bool;
  h_Swap : nat → nat → S → S;
}.

Section interface.
Context {S : Type} `{!Interface S}.

Fixpoint up_on (fuel : nat) (s : S) (j : nat) : S :=
  match fuel with
  | O => s
  | Datatypes.S fuel =>
      let i := ((j - 1) / 2)%nat in
      if (i =? j)%nat || negb (h_Less s j i) then s else up_on fuel (h_Swap i j s) i
  end.

Fixpoint down_on (fuel : nat) (s : S) (i n : nat) : S * nat :=
  match fuel with
  | O => (s, i)
  | Datatypes.S fuel =>
      let j1 := (2 * i + 1)%nat in
      if (n <=? j1)%nat then (s, i) else
      let j2 := (j1 + 1)%nat in
      let j := if (j2 <? n)%nat && h_Less s j2 j1 then j2 else j1 in
      if negb (h_Less s j i) then (s, i) else down_on fuel (h_Swap i j s) j n
  end.

Definition Remove_on (s : S) (i : nat) : S :=
  let n := (h_Len s - 1)%nat in
  if (n =? i)%nat then s
  else
    let s := h_Swap i n s in
    let '(s, i') := down_on n s i n in
    if (i <? i')%nat then s else up_on n s i.
End interface.

(** The value is the slice [view s] as far as the heap is concerned, as long
    as [inv s] holds. *)
Class Viewed {S A : Type} `{!Interface S} (less : A → A → bool) (view : S → list A) (inv : S → Prop) : Prop := {
  view_Len s : inv s → h_Len s = length (view s);
  view_Less s i j : inv s → h_Less s i j = Less less (view s) i j;
  view_Swap s i j x y : inv s → i ≠ j → view s !! i = Some x → view s !! j = Some y →
    view (h_Swap i j s) = Swap i j (view s) ∧ inv (h_Swap i j s);
}.

Section viewed.
Context {S A : Type} `{!Interface S} (less : A → A → bool) (view : S → list A) (inv : S → Prop).
Context `{!Viewed less view inv, !StrictWeak less}.

Lemma view_swapped s i j :
  inv s → i ≠ j → (i < length (view s))%nat → (j < length (view s))%nat →
  view (h_Swap i j s) = Swap i j (view s) ∧ inv (h_Swap i j s).
Proof.
  intros Hs Hne Hi Hj. destruct (lookup_lt_is_Some_2 _ _ Hi) as [x Hx]. destruct (lookup_lt_is_Some_2 _ _ Hj) as [y Hy].
  by eapply view_Swap.
Qed.

Lemma up_on_view fuel s j :
  inv s → (j < length (view s))%nat →
  view (up_on fuel s j) = up less fuel (view s) j ∧ inv (up_on fuel s j).
Proof.
  revert s j. induction fuel as [|fuel IH]; intros s j Hs Hj; [done|]. cbn [up_on up]. cbv zeta.
  rewrite (view_Less s) by done. destruct (Nat.eqb_spec ((j - 1) / 2) j) as [|Hne]; [done|]. cbn [orb].
  destruct (negb _); [done|].
  assert ((j - 1) / 2 < j)%nat by (destruct (parent_div j) as [->|Hp]; [done|unfold parent in Hp; lia]).
  destruct (view_swapped s ((j - 1) / 2) j) as [Ev Hinv]; [done|done|lia|done|].
  rewrite <- Ev. apply IH; [done|]. rewrite Ev, length_Swap. lia.
Qed.

Lemma down_on_view fuel s i n :
  inv s → (i < n)%nat → (n ≤ length (view s))%nat →
  view (down_on fuel s i n).1 = down less fuel (view s) i n ∧ inv (down_on fuel s i n).1 ∧
  (i ≤ (down_on fuel s i n).2)%nat ∧
  ((0 < fuel)%nat → (i <? (down_on fuel s i n).2)%nat = moves less (view s) i n) ∧
  ((down_on fuel s i n).2 = i → (down_on fuel s i n).1 = s).
Proof.
  revert s i. induction fuel as [|fuel IH]; intros s i Hs Hi Hn; [cbn; split_and!; (done || lia)|].
  cbn [down_on down]. unfold moves. cbv zeta. rewrite !(view_Less s) by done.
  destruct (Nat.leb_spec n (2 * i + 1)) as [|Hgt]; [cbn [fst snd]; rewrite Nat.ltb_irrefl; split_and!; (done || lia)|].
  destruct (smaller_child less n (view s) i Hn Hgt) as (j & y & -> & Hij & Hjn & Hy & _).
  destruct (Less less (view s) j i); cbn [negb fst snd]; [|rewrite Nat.ltb_irrefl; split_and!; (done || lia)].
  unfold parent in Hij. destruct (view_swapped s i j) as [Ev Hinv]; [done|lia..|].
  destruct (IH (h_Swap i j s) j) as (E1 & E2 & E3 & _); [done|done|by rewrite Ev, length_Swap|].
  rewrite Ev in E1. split_and!; [done|done|lia| |lia]. intros _. apply Nat.ltb_lt. lia.
Qed.

(** [heap.Remove] brings the element to the end of the slice. *)
Lemma Remove_on_view s i x :
  inv s → heap_ok less (view s) → view s !! i = Some x →
  ∃ l', view (Remove_on s i) = l' ++ [x] ∧ inv (Remove_on s i) ∧ view s ≡ₚ x :: l' ∧ heap_ok less l'.
Proof.
  intros Hs Hh Hx. apply lookup_lt_Some in Hx as Hi.
  destruct (Remove_spec less (view s) i x Hh Hx) as (l' & Er & Hp & Hl'). exists l'.
  unfold Remove in Er. unfold Remove_on. rewrite (view_Len s) by done. cbv zeta in *.
  set (n := (length (view s) - 1)%nat) in *.
  assert (∀ l, l ≡ₚ view s → (match l !! n with Some x => Some (x, take n l) | None => None end) = Some (x, l') → l = l' ++ [x])
    as Hend.
  { intros l Hl E. destruct (l !! n) as [z|] eqn:Ez; [|done]. injection E as <- <-.
    pose proof (Permutation_length Hl). rewrite <- (take_drop n l) at 1. f_equal.
    rewrite (drop_S _ _ _ Ez), drop_ge by lia. done. }
  destruct (Nat.eqb_spec n i) as [|Hne]; [split_and!; auto|].
  destruct (view_swapped s i n) as [Ev Hinv]; [done|lia..|].
  destruct (down_on_view n (h_Swap i n s) i n) as (D1 & D2 & D3 & D4 & D5); [done|lia|rewrite Ev, length_Swap; lia|].
  destruct (down_on n (h_Swap i n s) i n) as [s' i'] eqn:Ed. cbn [fst snd] in *.
  specialize (D4 ltac:(lia)). rewrite D4, Ev. rewrite Ev in D1, D4.
  destruct (moves less (Swap i n (view s)) i n) eqn:Em.
  - split_and!; [|done..]. rewrite D1. apply Hend; [by rewrite down_perm, Swap_perm|done].
  - assert (s' = h_Swap i n s) as -> by (apply D5; apply Nat.ltb_ge in D4; lia).
    destruct (up_on_view n (h_Swap i n s) i) as [U1 U2]; [done|rewrite Ev, length_Swap; lia|].
    split_and!; [|done..]. rewrite U1, Ev. apply Hend; [by rewrite up_perm, Swap_perm|done].
Qed.
End viewed.
