(* ===== verification/TxQueue.v ===== *)
(** * The queues and accounts of the transaction pool
      (txpool/queue.go, account.go, slot_gauge.go, lookup_map.go)

    A queue is the slice under the heap operations of Heap.v. Locks are left
    out: every operation holds the locks of the queues it changes from its
    start to its end, so operations of different goroutines do not
    interleave. The gas price of a queued transaction is not nil; [price]
    reads a nil price, on which the comparison would panic, as zero. *)

From stdpp Require Import gmap.
From S2P Require Import Prelude BigInt Types Rlp BlockTypes Heap.
#[local] Open Scope Z_scope.

(** ** queue.go *)

Definition price (tx : Transaction) : Z := default 0 (tGasPrice tx).

(** [minNonceQueue.Less] *)
Definition nonceLess (x y : Transaction) : bool :=
  if tNonce x =? tNonce y then price y <? price x else tNonce x <? tNonce y.

(** [maxPriceQueue.Less] *)
Definition priceLess (x y : Transaction) : bool := Uint64 (price y) <? Uint64 (price x).

Definition accountQueue := list Transaction.

Definition newAccountQueue : accountQueue := [].

Definition push (q : accountQueue) (tx : Transaction) : accountQueue := Push nonceLess q tx.

Definition peek (q : accountQueue) : option Transaction := head q.

Definition pop (q : accountQueue) : option Transaction * accountQueue :=
  match q with
  | [] => (None, q)
  | _ => match Pop nonceLess q with Some (tx, q') => (Some tx, q') | None => (None, q) end
  end.

Definition queue_length (q : accountQueue) : Z := zlen q.

(** The loop of [prune]; every round pops a transaction, so the length of
    the queue bounds the rounds. *)
Fixpoint prune_loop (fuel : nat) (q : accountQueue) (nonce : Z) : list Transaction * accountQueue :=
  match fuel with
  | O => ([], q)
  | S fuel =>
      match peek q with
      | None => ([], q)
      | Some tx =>
          if nonce <=? tNonce tx then ([], q) else
          let '(popped, q) := pop q in
          let '(pruned, q) := prune_loop fuel q nonce in
          (option_list popped ++ pruned, q)
      end
  end.

Definition prune (q : accountQueue) (nonce : Z) : list Transaction * accountQueue :=
  prune_loop (length q) q nonce.

(** [clear] *)
Definition queue_clear (q : accountQueue) : list Transaction * accountQueue := (q, []).

(** [pricedQueue] *)
Definition pricedQueue := list Transaction.
Definition newPricedQueue : pricedQueue := [].
Definition priced_clear (q : pricedQueue) : pricedQueue := [].
Definition priced_push (q : pricedQueue) (tx : Transaction) : pricedQueue := Push priceLess q tx.
Definition priced_pop (q : pricedQueue) : option Transaction * pricedQueue :=
  match q with
  | [] => (None, q)
  | _ => match Pop priceLess q with Some (tx, q') => (Some tx, q') | None => (None, q) end
  end.

(** ** account.go *)

Record account := mkAccount {
  enqueued : accountQueue;
  promoted : accountQueue;
  nextNonce : Z;
  demotions : Z;
  skips : Z;
  maxEnqueued : Z;
}.

Definition getNonce (a : account) : Z := nextNonce a.
Definition setNonce (nonce : Z) (a : account) : account :=
  mkAccount (enqueued a) (promoted a) nonce (demotions a) (skips a) (maxEnqueued a).
Definition set_queues (e p : accountQueue) (a : account) : account :=
  mkAccount e p (nextNonce a) (demotions a) (skips a) (maxEnqueued a).
Definition resetDemotions (a : account) : account :=
  mkAccount (enqueued a) (promoted a) (nextNonce a) 0 (skips a) (maxEnqueued a).
Definition incrementDemotions (a : account) : account :=
  mkAccount (enqueued a) (promoted a) (nextNonce a) (u64 (demotions a + 1)) (skips a) (maxEnqueued a).
Definition resetSkips (a : account) : account :=
  mkAccount (enqueued a) (promoted a) (nextNonce a) (demotions a) 0 (maxEnqueued a).
Definition incrementSkips (a : account) : account :=
  mkAccount (enqueued a) (promoted a) (nextNonce a) (demotions a) (u64 (skips a + 1)) (maxEnqueued a).

(** [a.reset(nonce, promoteCh)]: the pruned transactions, the account a
    promotion is signalled for, and the account. *)
Definition reset (a : account) (nonce : Z)
    : list Transaction * list Transaction * option Address * account :=
  let '(prunedPromoted, p) := prune (promoted a) nonce in
  if nonce <=? getNonce a then (prunedPromoted, [], None, set_queues (enqueued a) p a) else
  let '(prunedEnqueued, e) := prune (enqueued a) nonce in
  let a := setNonce nonce (set_queues e p a) in
  let signal :=
    match peek e with
    | Some first => if tNonce first =? nonce then Some (tFrom first) else None
    | None => None
    end in
  (prunedPromoted, prunedEnqueued, signal, a).

Inductive txpool_error := ErrMaxEnqueuedLimitReached | ErrNonceTooLow.

(** [a.enqueue(tx)] *)
Definition enqueue (a : account) (tx : Transaction) : option txpool_error * account :=
  if queue_length (enqueued a) =? maxEnqueued a then (Some ErrMaxEnqueuedLimitReached, a) else
  if tNonce tx <? getNonce a then (Some ErrNonceTooLow, a) else
  (None, set_queues (push (enqueued a) tx) (promoted a) a).

(** The loop of [promote]: what is promoted and pruned, the queues and the
    next nonce. *)
Fixpoint promote_loop (fuel : nat) (e p : accountQueue) (next : Z)
    : list Transaction * list Transaction * accountQueue * accountQueue * Z :=
  match fuel with
  | O => ([], [], e, p, next)
  | S fuel =>
      match peek e with
      | None => ([], [], e, p, next)
      | Some tx =>
          if negb (tNonce tx =? next) then ([], [], e, p, next) else
          match pop e with
          | (None, e) => ([], [], e, p, next)
          | (Some tx, e) =>
              let p := push p tx in
              let next := u64 (tNonce tx + 1) in
              let '(pr, e) := prune e next in
              let '(promoted, pruned, e, p, next) := promote_loop fuel e p next in
              (tx :: promoted, pr ++ pruned, e, p, next)
          end
      end
  end.

(** [a.promote()]: the promoted and the pruned transactions. *)
Definition promote (a : account) : list Transaction * list Transaction * account :=
  let currentNonce := getNonce a in
  match peek (enqueued a) with
  | None => ([], [], a)
  | Some first =>
      if currentNonce <? tNonce first then ([], [], a) else
      let '(promoted, pruned, e, p, next) :=
        promote_loop (length (enqueued a)) (enqueued a) (promoted a) (tNonce first) in
      let a := set_queues e p a in
      (promoted, pruned, if currentNonce <? next then setNonce next a else a)
  end.

Definition getLowestTx (a : account) : option Transaction :=
  match peek (promoted a) with
  | Some tx => Some tx
  | None => peek (enqueued a)
  end.

(** *** The accounts *)

Record accountsMap := mkAccounts {
  accounts : gmap Address account;
  count : Z;
  maxEnqueuedLimit : Z;
}.

(** [m.initOnce(addr, nonce)] *)
Definition initOnce (m : accountsMap) (addr : Address) (nonce : Z) : account * accountsMap :=
  match accounts m !! addr with
  | Some a => (a, m)
  | None =>
      let a := mkAccount newAccountQueue newAccountQueue nonce 0 0 (maxEnqueuedLimit m) in
      (a, mkAccounts (<[addr := a]> (accounts m)) (u64 (count m + 1)) (maxEnqueuedLimit m))
  end.

Definition accounts_exists (m : accountsMap) (addr : Address) : bool := bool_decide (is_Some (accounts m !! addr)).
Definition accounts_get (m : accountsMap) (addr : Address) : option account := accounts m !! addr.

(** [Range] visits the accounts in some order, here that of [map_to_list]. *)
Definition getPrimaries (m : accountsMap) : list Transaction :=
  omap (λ ka, peek (promoted ka.2)) (map_to_list (accounts m)).

Definition promotedCount (m : accountsMap) : Z :=
  foldr (λ ka n, u64 (queue_length (promoted ka.2) + n)) 0 (map_to_list (accounts m)).

Definition allTxs (m : accountsMap) (includeEnqueued : bool)
    : gmap Address (list Transaction) * gmap Address (list Transaction) :=
  (omap (λ a, if queue_length (promoted a) =? 0 then None else Some (promoted a)) (accounts m),
   if includeEnqueued then
     omap (λ a, if queue_length (enqueued a) =? 0 then None else Some (enqueued a)) (accounts m)
   else ∅).

(** ** slot_gauge.go *)

Record slotGauge := mkGauge { height : Z; gmax : Z }.

Definition highPressureMark : Z := 80.

Definition gauge_read (g : slotGauge) : Z := height g.
Definition increase (g : slotGauge) (slots : Z) : slotGauge := mkGauge (u64 (height g + slots)) (gmax g).

(** [^(slots - 1)] is the complement of the wrapped difference. *)
Definition decrease (g : slotGauge) (slots : Z) : slotGauge :=
  mkGauge (u64 (height g + (2 ^ 64 - 1 - u64 (slots - 1)))) (gmax g).

Definition highPressure (g : slotGauge) : bool := u64 (highPressureMark * gmax g) / 100 <? gauge_read g.

(** [txSlotSize] is not declared in the sources. *)
Definition slotsRequired `{Rlp} (txSlotSize : Z) (txs : list Transaction) : Z :=
  foldl (λ slots tx, u64 (slots + u64 (u64 ((Transaction_Size tx).1 + txSlotSize) - 1) / txSlotSize)) 0 txs.

(** ** lookup_map.go *)

Definition lookupMap := gmap Hash Transaction.

Definition lookup_add (m : lookupMap) (tx : Transaction) : bool * lookupMap :=
  match m !! tHash tx with
  | Some _ => (false, m)
  | None => (true, <[tHash tx := tx]> m)
  end.

Definition lookup_remove (m : lookupMap) (txs : list Transaction) : lookupMap :=
  foldl (λ m tx, delete (tHash tx) m) m txs.

Definition lookup_get (m : lookupMap) (hash : Hash) : option Transaction := m !! hash.
