(* ===== verification/TxQueueProps.v ===== *)
(** * What the queues and accounts of the pool guarantee

    Queues give transactions out by nonce, the best price first among equal
    nonces. Promotion moves exactly the run of consecutive nonces that starts
    at the account's next nonce, keeps the best-priced transaction of every
    nonce and drops the others; any sequence of operations keeps the account
    consistent. *)

From Stdlib Require Import Sorting.Sorted.
From stdpp Require Import gmap.
From S2P Require Import Prelude BigInt Types Rlp BlockTypes Heap TxQueue.
#[local] Open Scope Z_scope.

(** ** The orders *)

#[export] Instance nonceLess_strict : StrictWeak nonceLess.
Proof.
  split; unfold nonceLess; intros; repeat case_match; rewrite ?Z.eqb_eq, ?Z.eqb_neq, ?Z.ltb_ge, ?Z.ltb_lt in *;
    rewrite ?Z.ltb_irrefl in *; try done; try lia.
Qed.

#[export] Instance priceLess_strict : StrictWeak priceLess.
Proof. split; unfold priceLess; intros; rewrite ?Z.ltb_ge, ?Z.ltb_lt in *; lia. Qed.

(** [x] may leave the queue before [y]. *)
Lemma before_nonce x y :
  before nonceLess x y ↔ tNonce x < tNonce y ∨ tNonce x = tNonce y ∧ price y ≤ price x.
Proof.
  unfold before, nonceLess. destruct (Z.eqb_spec (tNonce y) (tNonce x)) as [E|E]; rewrite Z.ltb_ge; lia.
Qed.

Lemma StronglySorted_mono {A} (R R' : A → A → Prop) :
  (∀ x y, R x y → R' x y) → ∀ l, StronglySorted R l → StronglySorted R' l.
Proof.
  intros HR. induction 1 as [|x l _ IH Hx]; constructor; [done|]. eapply Forall_impl; [exact Hx|]. apply HR.
Qed.

(** ** Queues *)

Definition queue_ok (q : accountQueue) : Prop := heap_ok nonceLess q.

Lemma queue_ok_nil : queue_ok [].
Proof. intros i j _ x y _. by rewrite lookup_nil. Qed.

Lemma push_ok q tx : queue_ok q → queue_ok (push q tx).
Proof. apply Push_ok. apply _. Qed.

Lemma push_perm q tx : push q tx ≡ₚ tx :: q.
Proof. apply Push_perm. Qed.

Lemma pop_spec q tx :
  queue_ok q → peek q = Some tx →
  ∃ q', pop q = (Some tx, q') ∧ q ≡ₚ tx :: q' ∧ queue_ok q' ∧ ∀ y, y ∈ q → before nonceLess tx y.
Proof.
  intros Hq Hp. destruct (Pop_spec nonceLess q Hq) as (x & q' & HPop & Hx & Hperm & Hok & Hmin).
  { by destruct q. }
  assert (x = tx) as ->. { destruct q; [done|]. cbn in *. congruence. }
  exists q'. unfold pop. rewrite HPop. by destruct q.
Qed.

Lemma peek_None q : peek q = None → q = [].
Proof. by destruct q. Qed.

Lemma prune_loop_spec fuel q n :
  queue_ok q → (length q ≤ fuel)%nat →
  ∃ pr q', prune_loop fuel q n = (pr, q') ∧ q ≡ₚ pr ++ q' ∧ queue_ok q' ∧
    (∀ y, y ∈ pr → tNonce y < n) ∧ (∀ y, y ∈ q' → n ≤ tNonce y).
Proof.
  revert q. induction fuel as [|fuel IH]; intros q Hq Hl; cbn [prune_loop].
  - assert (q = []) as -> by (apply nil_length_inv; lia). exists [], []. split_and!; try done; by intros y ?%elem_of_nil.
  - destruct (peek q) as [tx|] eqn:Hp.
    2:{ apply peek_None in Hp as ->. exists [], []. split_and!; try done; by intros y ?%elem_of_nil. }
    destruct (pop_spec q tx Hq Hp) as (q1 & Hpop & Hperm & Hq1 & Hmin).
    destruct (Z.leb_spec n (tNonce tx)) as [Hle|Hlt].
    + exists [], q. split_and!; try done; [by intros y ?%elem_of_nil|].
      intros y Hy. apply Hmin, before_nonce in Hy. lia.
    + rewrite Hpop. destruct (IH q1 Hq1) as (pr & q' & -> & Hperm' & Hq' & Hpr & Hge).
      { apply Permutation_length in Hperm. cbn in Hperm. lia. }
      exists (tx :: pr), q'. split_and!; try done.
      * cbn. by rewrite Hperm, Hperm'.
      * intros y [->|Hy]%elem_of_cons; [done|by apply Hpr].
Qed.

Lemma prune_spec q n :
  queue_ok q →
  ∃ pr q', prune q n = (pr, q') ∧ q ≡ₚ pr ++ q' ∧ queue_ok q' ∧
    (∀ y, y ∈ pr → tNonce y < n) ∧ (∀ y, y ∈ q' → n ≤ tNonce y).
Proof. intros Hq. by apply prune_loop_spec. Qed.

(** ** Promotion *)

Definition nonce_ok (tx : Transaction) : Prop := 0 ≤ tNonce tx < 2 ^ 64 - 1.

(** The outcome of a promotion that starts with the next nonce [n] and the
    queues [e] and [p]. *)
Record promoted_run (e p : accountQueue) (n : Z)
    (ptx pruned : list Transaction) (e' p' : accountQueue) (n' : Z) : Prop := {
  pr_nonces : tNonce <$> ptx = seqZ n (zlen ptx);
  pr_next : n' = n + zlen ptx;
  pr_e : e ≡ₚ ptx ++ pruned ++ e';
  pr_p : p' ≡ₚ ptx ++ p;
  pr_best : ∀ tx, tx ∈ pruned → ∃ x, x ∈ ptx ∧ tNonce x = tNonce tx ∧ price tx ≤ price x;
  pr_rest : ∀ tx, tx ∈ e' → n' < tNonce tx;
  pr_e_ok : queue_ok e';
  pr_p_ok : queue_ok p';
}.

(** Nothing to promote. *)
Lemma promoted_run_nil e p n :
  queue_ok e → queue_ok p → (∀ tx, tx ∈ e → n < tNonce tx) → promoted_run e p n [] [] e p n.
Proof.
  intros He Hp Hall. split; try done; [unfold zlen; cbn; lia|]. by intros tx ?%elem_of_nil.
Qed.

(** One round of the loop before the rest of the run. *)
Lemma promoted_run_cons e p n tx pr e2 ptx pruned e' p' n' :
  tNonce tx = n → e ≡ₚ tx :: pr ++ e2 →
  (∀ y, y ∈ pr → tNonce y = n ∧ price y ≤ price tx) →
  promoted_run e2 (push p tx) (n + 1) ptx pruned e' p' n' →
  promoted_run e p n (tx :: ptx) (pr ++ pruned) e' p' n'.
Proof.
  intros Htx He Hpr []. split; try done.
  - cbn [fmap list_fmap]. rewrite pr_nonces0, Htx. unfold zlen. cbn [length].
    rewrite Nat2Z.inj_succ, (seqZ_cons n) by lia. by rewrite Z.pred_succ.
  - unfold zlen in *. cbn [length]. lia.
  - rewrite He, pr_e0. cbn. constructor. rewrite <- !app_assoc, !(app_assoc pr), (Permutation_app_comm pr ptx).
    by rewrite <- !app_assoc.
  - rewrite pr_p0, push_perm. cbn. by rewrite Permutation_middle.
  - intros y [Hy|Hy]%elem_of_app.
    + exists tx. destruct (Hpr y Hy). split; [by left|]. split; [congruence|done].
    + destruct (pr_best0 y Hy) as (x & ? & ? & ?). exists x. split; [by right|done].
Qed.

Lemma promote_loop_spec fuel e p n :
  queue_ok e → queue_ok p → (length e ≤ fuel)%nat → (∀ tx, tx ∈ e → nonce_ok tx ∧ n ≤ tNonce tx) →
  ∃ ptx pruned e' p' n', promote_loop fuel e p n = (ptx, pruned, e', p', n') ∧
    promoted_run e p n ptx pruned e' p' n'.
Proof.
  revert e p n. induction fuel as [|fuel IH]; intros e p n He Hp Hl Hall; cbn [promote_loop].
  - assert (e = []) as -> by (apply nil_length_inv; lia). eexists [], [], [], p, n. split; [done|].
    apply promoted_run_nil; try done. by intros tx ?%elem_of_nil.
  - destruct (peek e) as [tx|] eqn:Hpk.
    2:{ apply peek_None in Hpk as ->. eexists [], [], [], p, n. split; [done|].
        apply promoted_run_nil; try done. by intros tx ?%elem_of_nil. }
    destruct (pop_spec e tx He Hpk) as (e1 & Hpop & Hperm & He1 & Hmin).
    assert (tx ∈ e) as Htx by (rewrite Hperm; by left). destruct (Hall tx Htx) as [Hok Hn].
    destruct (Z.eqb_spec (tNonce tx) n) as [E|E]; cbn [negb].
    + rewrite Hpop, u64_small by (unfold nonce_ok in Hok; lia).
      destruct (prune_spec e1 (tNonce tx + 1) He1) as (pr & e2 & -> & Hperm2 & He2 & Hpr & Hge).
      assert (∀ y, y ∈ pr ∨ y ∈ e2 → y ∈ e) as Hin.
      { intros y Hy. rewrite Hperm, Hperm2. right. by apply elem_of_app. }
      destruct (IH e2 (push p tx) (tNonce tx + 1)) as (ptx & pruned & e' & p' & n' & -> & Hrun); try done.
      { by apply push_ok. }
      { apply Permutation_length in Hperm, Hperm2. cbn in Hperm. rewrite length_app in Hperm2. lia. }
      { intros y Hy. split; [apply Hall, Hin; by right|by apply Hge]. }
      eexists _, _, _, _, _. split; [done|]. rewrite E in Hrun. apply promoted_run_cons with e2; try done.
      * by rewrite Hperm, Hperm2.
      * intros y Hy. assert (y ∈ e) as Hye by (apply Hin; by left). pose proof (proj1 (before_nonce _ _) (Hmin y Hye)).
        apply Hall in Hye as [_ ?]. apply Hpr in Hy. lia.
    + eexists [], [], e, p, n. split; [done|]. apply promoted_run_nil; try done.
      intros y Hy. pose proof (proj1 (before_nonce _ _) (Hmin y Hy)). lia.
Qed.

(** ** The invariant of an account *)

(** The promoted transactions have the nonces from some [lo] up to the next
    one, each once. *)
Definition contiguous (p : accountQueue) (n : Z) : Prop :=
  ∃ lo, NoDup (tNonce <$> p) ∧ ∀ m, m ∈ tNonce <$> p ↔ lo ≤ m < n.

Record account_ok (a : account) : Prop := {
  ao_enqueued : queue_ok (enqueued a);
  ao_promoted : queue_ok (promoted a);
  ao_range : ∀ tx, tx ∈ enqueued a → nonce_ok tx ∧ nextNonce a ≤ tNonce tx;
  ao_contiguous : contiguous (promoted a) (nextNonce a);
  ao_max : zlen (enqueued a) ≤ maxEnqueued a;
}.

Lemma promote_run a :
  account_ok a →
  ∃ ptx pruned a', promote a = (ptx, pruned, a') ∧ maxEnqueued a' = maxEnqueued a ∧
    promoted_run (enqueued a) (promoted a) (nextNonce a) ptx pruned (enqueued a') (promoted a') (nextNonce a').
Proof.
  intros [He Hp Hr _ _]. unfold promote, getNonce. destruct (peek (enqueued a)) as [first|] eqn:Hpk.
  2:{ exists [], [], a. split_and!; try done. apply promoted_run_nil; try done.
      apply peek_None in Hpk as ->. by intros tx ?%elem_of_nil. }
  destruct (pop_spec _ _ He Hpk) as (q' & _ & Hperm & _ & Hmin).
  assert (first ∈ enqueued a) as Hf by (rewrite Hperm; by left). destruct (Hr first Hf) as [Hok Hge].
  destruct (Z.ltb_spec (nextNonce a) (tNonce first)) as [Hlt|Hle].
  - exists [], [], a. split_and!; try done. apply promoted_run_nil; try done.
    intros y Hy. pose proof (proj1 (before_nonce _ _) (Hmin y Hy)). lia.
  - assert (tNonce first = nextNonce a) as -> by lia.
    destruct (promote_loop_spec (length (enqueued a)) (enqueued a) (promoted a) (nextNonce a))
      as (ptx & pruned & e' & p' & n' & -> & Hrun); try done.
    eexists _, _, _. split; [done|]. destruct (Z.ltb_spec (nextNonce a) n') as [Hn|Hn]; [done|].
    assert (n' = nextNonce a) as -> by (destruct Hrun; unfold zlen in *; lia). done.
Qed.

Lemma contiguous_run p n ptx p' n' :
  contiguous p n → tNonce <$> ptx = seqZ n (zlen ptx) → n' = n + zlen ptx → p' ≡ₚ ptx ++ p → contiguous p' n'.
Proof.
  intros (lo & Hnd & Hlo) Hptx -> Hp'. exists (Z.min lo n). split.
  - rewrite Hp', fmap_app, Hptx. apply NoDup_app. split_and!; [apply NoDup_seqZ| |done]. intros m Hm Hm'. apply elem_of_seqZ in Hm.
    apply Hlo in Hm'. lia.
  - intros m. rewrite Hp', fmap_app, Hptx, elem_of_app, elem_of_seqZ, Hlo. unfold zlen.
    lia.
Qed.

(** Pruning keeps the invariant of the promoted queue. *)
Lemma contiguous_prune p n pr p' m :
  contiguous p n → p ≡ₚ pr ++ p' → (∀ y, y ∈ pr → tNonce y < m) → (∀ y, y ∈ p' → m ≤ tNonce y) →
  contiguous p' n.
Proof.
  intros (lo & Hnd & Hlo) Hperm Hpr Hge. exists (Z.max lo m). rewrite Hperm, fmap_app in Hnd.
  apply NoDup_app in Hnd as (_ & _ & Hnd). split; [done|]. intros k. rewrite Z.max_lub_iff.
  assert (k ∈ tNonce <$> p' ↔ k ∈ tNonce <$> p ∧ m ≤ k) as ->; [|rewrite Hlo; lia].
  rewrite Hperm, fmap_app, elem_of_app, !list_elem_of_fmap. split.
  - intros (y & -> & Hy). split; [right; by eauto|by apply Hge].
  - intros [[(y & -> & Hy)|?] Hk]; [apply Hpr in Hy; lia|done].
Qed.

(** ** Sequences of operations *)

Inductive account_op :=
  | OpEnqueue (tx : Transaction)
  | OpPromote
  | OpReset (nonce : Z).

Definition account_step (a : account) (o : account_op) : account :=
  match o with
  | OpEnqueue tx => (enqueue a tx).2
  | OpPromote => (promote a).2
  | OpReset nonce => (reset a nonce).2
  end.

Definition account_op_ok (o : account_op) : Prop :=
  match o with OpEnqueue tx => nonce_ok tx | _ => True end.

Lemma enqueue_ok a tx : account_ok a → nonce_ok tx → account_ok (enqueue a tx).2.
Proof.
  intros [He Hp Hr Hc Hm] Htx. unfold enqueue, queue_length, getNonce.
  destruct (Z.eqb_spec (zlen (enqueued a)) (maxEnqueued a)) as [E|E]; [by split|].
  destruct (Z.ltb_spec (tNonce tx) (nextNonce a)) as [Hlt|Hge]; [by split|]. cbn. split; cbn; try done.
  - by apply push_ok.
  - intros y. rewrite push_perm. intros [->|Hy]%elem_of_cons; [done|by apply Hr].
  - unfold zlen in *. rewrite push_perm. cbn. lia.
Qed.

Lemma promote_ok a : account_ok a → account_ok (promote a).2.
Proof.
  intros Ha. destruct (promote_run a Ha) as (ptx & pruned & a' & -> & Hmax & []). destruct Ha. cbn. split; try done.
  - intros y Hy. split; [|apply pr_rest0 in Hy; lia]. apply ao_range0. rewrite pr_e0, !elem_of_app. auto.
  - by eapply contiguous_run.
  - rewrite Hmax. etrans; [|exact ao_max0]. unfold zlen. rewrite pr_e0, !length_app. lia.
Qed.

Lemma reset_ok a nonce : account_ok a → account_ok (reset a nonce).2.
Proof.
  intros [He Hp Hr Hc Hm]. unfold reset, getNonce.
  destruct (prune_spec (promoted a) nonce Hp) as (pp & p' & -> & Hpp & Hp' & Hplt & Hpge).
  destruct (Z.leb_spec nonce (nextNonce a)) as [Hle|Hgt].
  - split; cbn; try done. by eapply contiguous_prune.
  - destruct (prune_spec (enqueued a) nonce He) as (pe & e' & -> & Hpe & He' & Helt & Hege). split; cbn; try done.
    + intros y Hy. split; [|by apply Hege]. apply Hr. rewrite Hpe. apply elem_of_app. by right.
    + destruct (contiguous_prune _ _ _ _ nonce Hc Hpp Hplt Hpge) as (lo & Hnd & Hlo). exists nonce.
      split; [done|]. intros k. split; [|lia]. intros Hk. apply list_elem_of_fmap in Hk as (y & -> & Hy).
      assert (tNonce y ∈ tNonce <$> p') as Hy' by (apply list_elem_of_fmap; eauto). apply Hlo in Hy'.
      apply Hpge in Hy. lia.
    + etrans; [|exact Hm]. unfold zlen. rewrite Hpe, length_app. lia.
Qed.

Lemma account_step_ok a o : account_ok a → account_op_ok o → account_ok (account_step a o).
Proof. destruct o; cbn; [apply enqueue_ok|by intros; apply promote_ok|by intros; apply reset_ok]. Qed.

Lemma new_account_ok n m : 0 ≤ m → account_ok (mkAccount newAccountQueue newAccountQueue n 0 0 m).
Proof.
  intros Hm. split; cbn; try done; try apply queue_ok_nil; try by intros tx ?%elem_of_nil.
  exists n. split; [constructor|]. intros k. rewrite elem_of_nil. lia.
Qed.

(** ** The theorems *)

(** Popping until the queue is empty. *)
Fixpoint drain (fuel : nat) (q : accountQueue) : list Transaction :=
  match fuel with
  | O => []
  | S fuel => match pop q with (Some tx, q) => tx :: drain fuel q | (None, _) => [] end
  end.

Lemma drain_spec fuel q :
  queue_ok q → (length q ≤ fuel)%nat →
  drain fuel q ≡ₚ q ∧ StronglySorted (before nonceLess) (drain fuel q).
Proof.
  revert q. induction fuel as [|fuel IH]; intros q Hq Hl; cbn [drain].
  - assert (q = []) as -> by (apply nil_length_inv; lia). split; [done|constructor].
  - destruct (peek q) as [tx|] eqn:Hp.
    + destruct (pop_spec q tx Hq Hp) as (q' & -> & Hperm & Hq' & Hmin).
      destruct (IH q' Hq') as [Hd Hs]; [apply Permutation_length in Hperm; cbn in Hperm; lia|].
      split; [by rewrite Hd|]. constructor; [done|]. apply Forall_forall. intros y Hy. apply Hmin.
      rewrite Hperm. right. by rewrite Hd in Hy.
    + apply peek_None in Hp as ->. split; [done|constructor].
Qed.

(** A queue gives out what was put in, ordered: whatever the order of the
    pushes, popping until the queue is empty returns exactly the pushed
    transactions, by increasing nonce and, among equal nonces, by decreasing
    gas price. *)
Lemma queue_drains_sorted (txs : list Transaction) :
  let q := foldl push newAccountQueue txs in
  drain (length txs) q ≡ₚ txs ∧
  StronglySorted (λ x y, tNonce x < tNonce y ∨ tNonce x = tNonce y ∧ price y ≤ price x) (drain (length txs) q).
Proof.
  assert (∀ q, queue_ok q → queue_ok (foldl push q txs) ∧ foldl push q txs ≡ₚ txs ++ q) as Hpush.
  { induction txs as [|tx txs IH]; intros q Hq; cbn; [done|]. destruct (IH (push q tx)) as [? E]; [by apply push_ok|].
    split; [done|]. by rewrite E, push_perm, Permutation_middle. }
  destruct (Hpush [] queue_ok_nil) as [Hok Hperm]. rewrite app_nil_r in Hperm. intros q.
  destruct (drain_spec (length txs) q Hok) as [Hd Hs]; [unfold q; by rewrite Hperm|]. unfold q in *.
  split; [by rewrite Hd|]. revert Hs. apply StronglySorted_mono. intros x y. apply before_nonce.
Qed.

(** Promotion moves exactly the run of consecutive nonces that starts at
    the next nonce: the promoted transactions have the nonces n, n+1, ...,
    n'-1 and n' becomes the next nonce; every pruned transaction lost to a
    promoted one with the same nonce and at least its price; the queues hold
    the rest, and no transaction with nonce n' is left waiting. *)
Theorem promote_spec (a : account) :
  account_ok a →
  ∃ ptx pruned a', promote a = (ptx, pruned, a') ∧
    tNonce <$> ptx = seqZ (nextNonce a) (zlen ptx) ∧ nextNonce a' = nextNonce a + zlen ptx ∧
    enqueued a ≡ₚ ptx ++ pruned ++ enqueued a' ∧ promoted a' ≡ₚ ptx ++ promoted a ∧
    (∀ tx, tx ∈ pruned → ∃ x, x ∈ ptx ∧ tNonce x = tNonce tx ∧ price tx ≤ price x) ∧
    (∀ tx, tx ∈ enqueued a' → nextNonce a' < tNonce tx).
Proof.
  intros Ha. destruct (promote_run a Ha) as (ptx & pruned & a' & E & _ & []). exists ptx, pruned, a'. done.
Qed.

(** Any sequence of enqueue, promote and reset operations keeps an
    account consistent: both queues are heaps, every waiting transaction has
    at least the next nonce, the promoted ones have the nonces of an
    interval that ends at the next nonce, each once, and the waiting ones
    stay within the limit of the account. *)
Theorem account_invariant (n limit : Z) (ops : list account_op) :
  0 ≤ limit → Forall account_op_ok ops →
  account_ok (foldl account_step (mkAccount newAccountQueue newAccountQueue n 0 0 limit) ops).
Proof.
  intros Hl Hops. generalize (new_account_ok n limit Hl).
  generalize (mkAccount newAccountQueue newAccountQueue n 0 0 limit).
  induction Hops as [|o ops Ho _ IH]; intros a Ha; cbn; [done|]. by apply IH, account_step_ok.
Qed.

(** A waiting transaction with the next nonce does not wait for long: the
    next promotion moves it, or one with the same nonce and at least its
    price, to the promoted queue, and advances the next nonce. *)
Theorem promotion_progress (a : account) (tx : Transaction) :
  account_ok a → tx ∈ enqueued a → tNonce tx = nextNonce a →
  ∃ ptx pruned a' x, promote a = (ptx, pruned, a') ∧ nextNonce a < nextNonce a' ∧
    x ∈ promoted a' ∧ tNonce x = tNonce tx ∧ price tx ≤ price x.
Proof.
  intros Ha Htx Hn. destruct (promote_run a Ha) as (ptx & pruned & a' & E & _ & []).
  rewrite pr_e0, !elem_of_app in Htx.
  assert (∃ x, x ∈ ptx ∧ tNonce x = tNonce tx ∧ price tx ≤ price x) as (x & Hx & Hxn & Hxp).
  { destruct Htx as [Hin|[Hin|Hin]]; [by exists tx|by apply pr_best0|].
    apply pr_rest0 in Hin. unfold zlen in *. lia. }
  exists ptx, pruned, a', x. split_and!; try done.
  - unfold zlen in *. destruct ptx; [by apply elem_of_nil in Hx|]. cbn in pr_next0. lia.
  - rewrite pr_p0. apply elem_of_app. by left.
Qed.

(** ** Instances *)

Definition queued_tx (nonce gasPrice : Z) : Transaction :=
  mkTx nonce (Some gasPrice) 21000 None (Some 0) [] None None None ZeroHash ZeroAddress None.

Definition demo_account : account :=
  foldl account_step (mkAccount newAccountQueue newAccountQueue 5 0 0 10)
    [OpEnqueue (queued_tx 6 1); OpEnqueue (queued_tx 5 1); OpEnqueue (queued_tx 5 3); OpEnqueue (queued_tx 8 1)].

Lemma queue_demo_ops_ok : Forall account_op_ok
  [OpEnqueue (queued_tx 6 1); OpEnqueue (queued_tx 5 1); OpEnqueue (queued_tx 5 3); OpEnqueue (queued_tx 8 1)].
Proof. repeat constructor; cbn; lia. Qed.

Lemma demo_account_ok : account_ok demo_account.
Proof.
  unfold demo_account. repeat apply account_step_ok; try (cbn; unfold nonce_ok; cbn; lia). by apply new_account_ok.
Qed.

Lemma promote_spec_witness :
  ∃ ptx pruned a', promote demo_account = (ptx, pruned, a') ∧
    tNonce <$> ptx = seqZ (nextNonce demo_account) (zlen ptx) ∧ nextNonce a' = 7.
Proof.
  destruct (promote_spec demo_account demo_account_ok) as (ptx & pruned & a' & E & Hp & _).
  exists ptx, pruned, a'. split; [exact E|]. split; [exact Hp|]. vm_compute in E. by injection E as <- <- <-.
Defined.

Lemma account_invariant_witness :
  account_ok (foldl account_step (mkAccount newAccountQueue newAccountQueue 5 0 0 10)
    [OpEnqueue (queued_tx 6 1); OpEnqueue (queued_tx 5 1); OpEnqueue (queued_tx 5 3); OpEnqueue (queued_tx 8 1)]).
Proof. apply (account_invariant 5 10); [lia|apply queue_demo_ops_ok]. Defined.

Lemma promotion_progress_witness :
  ∃ ptx pruned a' x, promote demo_account = (ptx, pruned, a') ∧ nextNonce demo_account < nextNonce a' ∧
    x ∈ promoted a' ∧ tNonce x = 5 ∧ 1 ≤ price x.
Proof.
  apply (promotion_progress demo_account (queued_tx 5 1) demo_account_ok); [|reflexivity].
  vm_compute. repeat (left || right).
Defined.
