(* ===== verification/TxPool.v ===== *)
(** * The transaction pool (txpool/txpool.go)

    The pool indexes its transactions by sender, in nonce order, and by
    hash. [Hash()], [Sender()] and [Timestamp] of a transaction, which the
    pool uses and package types does not declare, are the parameter
    [TxMembers]. Times are nanoseconds on the clock's internal scale; every
    method that reads the clock takes it as [now]. *)

From stdpp Require Import gmap.
From S2P Require Import Prelude BigInt Types Rlp BlockTypes TxQueue.
#[local] Open Scope Z_scope.

Definition MaxTxPoolSize : Z := 100000.
Definition ParallelExecutionThreshold : Z := 5000.
Definition MinGasPrice : Z := 1.
Definition MaxRejectedTxsSize : Z := 10000.

Definition nanosecond : Z := 1.
Definition second : Z := 1000000000 * nanosecond.
Definition minute : Z := 60 * second.
Definition TxExpiration : Z := 30 * minute.
Definition MaxFutureTimeDrift : Z := 15 * minute.

Inductive pool_error :=
  | ErrPreviouslyRejected
  | ErrInvalidTx
  | ErrGasLimitExceeded
  | ErrGasPriceTooLow
  | ErrSender
  | ErrTxPoolOverflow
  | ErrFutureTimestamp
  | ErrReplacementUnderpriced.

(** The members of a transaction the pool relies on. *)
Class TxMembers := {
  txHash : Transaction → Hash;
  Sender : Transaction → option Address;   (** [None] is an error *)
  Timestamp : Transaction → Z;
}.

(** The sender is recovered from what the hash covers. *)
Class TxMembersLaws `{TxMembers} : Prop := {
  Sender_hash t t' : txHash t = txHash t' → Sender t = Sender t';
}.

(** *** Time *)

(** [time.Unix(sec, 0)] counts seconds from year 1 in an [int64]. *)
Definition unixToInternal : Z := 62135596800.
Definition Unix (sec : Z) : Z := i64 (i64 sec + unixToInternal) * second.

(** [t.Sub(u)] saturates at the ends of a [Duration]. *)
Definition Sub (t u : Z) : Z := Z.max (- 2 ^ 63) (Z.min (2 ^ 63 - 1) (t - u)).

(** *** The pool *)

Record TxPool := mkPool {
  pending : gmap Address (list Transaction);
  poolTxs : gmap Hash Transaction;
  rejectedTxs : gset Hash;
  blockGasLimit : Z;
  nonceCache : gmap Address Z;
  lastCleanup : Z;
}.

Definition set_txs (p : gmap Address (list Transaction)) (a : gmap Hash Transaction) (tp : TxPool) : TxPool :=
  mkPool p a (rejectedTxs tp) (blockGasLimit tp) (nonceCache tp) (lastCleanup tp).
Definition set_rejected (r : gset Hash) (tp : TxPool) : TxPool :=
  mkPool (pending tp) (poolTxs tp) r (blockGasLimit tp) (nonceCache tp) (lastCleanup tp).

Section pool.
Context `{TxMembers}.

Definition NewTxPool (now limit : Z) : TxPool := mkPool ∅ ∅ ∅ limit ∅ now.

Definition validateTransaction (tx : Transaction) (limit : Z) : option pool_error :=
  if (tGas tx =? 0) || bool_decide (tGasPrice tx = None) || bool_decide (tTo tx = None) then Some ErrInvalidTx else
  if limit <? tGas tx then Some ErrGasLimitExceeded else
  if Uint64 (price tx) <? MinGasPrice then Some ErrGasPriceTooLow else
  match Sender tx with None => Some ErrSender | Some _ => None end.

Definition pruneRejectedTxs (tp : TxPool) : TxPool :=
  if MaxRejectedTxsSize <=? Z.of_nat (size (rejectedTxs tp)) then set_rejected ∅ tp else tp.

Definition reject (tx : Transaction) (tp : TxPool) : TxPool :=
  set_rejected ({[txHash tx]} ∪ rejectedTxs tp) tp.

(** [sort.SliceStable] by nonce. *)
Fixpoint insertByNonce (tx : Transaction) (txs : list Transaction) : list Transaction :=
  match txs with
  | [] => [tx]
  | y :: txs => if tNonce y <? tNonce tx then y :: insertByNonce tx txs else tx :: y :: txs
  end.

Definition sortStable (txs : list Transaction) : list Transaction := foldr insertByNonce [] txs.

Definition sortAccountTransactions (addr : Address) (p : gmap Address (list Transaction))
    : gmap Address (list Transaction) :=
  let txs := default [] (p !! addr) in
  if zlen txs <=? 1 then p else <[addr := sortStable txs]> p.

(** The loop over the sender's transactions: [None] when no transaction has
    the nonce, else the list with the replacement and the replaced
    transaction, or the refusal. *)
Fixpoint replaceTx (tx : Transaction) (txs : list Transaction) : option (option (list Transaction * Transaction)) :=
  match txs with
  | [] => None
  | existing :: txs =>
      if tNonce existing =? tNonce tx then
        if price existing <? price tx then Some (Some (tx :: txs, existing)) else Some None
      else
        match replaceTx tx txs with
        | None => None
        | Some None => Some None
        | Some (Some (txs, old)) => Some (Some (existing :: txs, old))
        end
  end.

Definition AddTransaction (now : Z) (tp : TxPool) (tx : Transaction) : option pool_error * TxPool :=
  if bool_decide (is_Some (poolTxs tp !! txHash tx)) then (None, tp) else
  if bool_decide (txHash tx ∈ rejectedTxs tp) then (Some ErrPreviouslyRejected, tp) else
  match validateTransaction tx (blockGasLimit tp) with
  | Some err =>
      let tp := if MaxRejectedTxsSize <=? Z.of_nat (size (rejectedTxs tp)) then pruneRejectedTxs tp else tp in
      (Some err, reject tx tp)
  | None =>
      match Sender tx with
      | None => (Some ErrSender, reject tx tp)
      | Some from =>
          if MaxTxPoolSize <=? Z.of_nat (size (poolTxs tp)) then (Some ErrTxPoolOverflow, tp) else
          if now + MaxFutureTimeDrift <? Unix (Timestamp tx) then (Some ErrFutureTimestamp, reject tx tp) else
          match replaceTx tx (default [] (pending tp !! from)) with
          | Some (Some (txs, old)) =>
              (None, set_txs (<[from := txs]> (pending tp))
                (<[txHash tx := tx]> (delete (txHash old) (poolTxs tp))) tp)
          | Some None => (Some ErrReplacementUnderpriced, tp)
          | None =>
              let p := <[from := default [] (pending tp !! from) ++ [tx]]> (pending tp) in
              (None, set_txs (sortAccountTransactions from p) (<[txHash tx := tx]> (poolTxs tp)) tp)
          end
      end
  end.

Definition GetPending (tp : TxPool) : gmap Address (list Transaction) :=
  omap (λ txs, if 0 <? zlen txs then Some txs else None) (pending tp).

(** Keeping the transactions of [txs] that satisfy [keep]: what is left of
    the entry, none when it is empty, and of the index by hash. *)
Definition keepTxs (keep : Transaction → bool) (txs : list Transaction) : option (list Transaction) :=
  match List.filter keep txs with [] => None | l => Some l end.

Definition dropTxs (keep : Transaction → bool) (txs : list Transaction) (a : gmap Hash Transaction)
    : gmap Hash Transaction :=
  foldl (λ a tx, if keep tx then a else delete (txHash tx) a) a txs.

(** [RemoveStale]: the accounts are visited in some order, here that of
    [map_to_list]. *)
Definition RemoveStale (now : Z) (tp : TxPool) : TxPool :=
  let keep tx := Sub now (Unix (Timestamp tx)) <? TxExpiration in
  let tp := set_txs (omap (keepTxs keep) (pending tp))
    (foldl (λ a kv, dropTxs keep kv.2 a) (poolTxs tp) (map_to_list (pending tp))) tp in
  if TxExpiration <? Sub now (lastCleanup tp) then
    let tp := pruneRejectedTxs tp in
    mkPool (pending tp) (poolTxs tp) (rejectedTxs tp) (blockGasLimit tp) (nonceCache tp) now
  else tp.

Definition EnableParallelExecution (tp : TxPool) : bool :=
  ParallelExecutionThreshold <=? Z.of_nat (size (poolTxs tp)).

(** Removing the first transaction with the hash. *)
Fixpoint removeHash (hash : Hash) (txs : list Transaction) : list Transaction :=
  match txs with
  | [] => []
  | tx :: txs => if bool_decide (txHash tx = hash) then txs else tx :: removeHash hash txs
  end.

(** One round of [RemoveTransactions]. *)
Definition removeTx (tp : TxPool) (tx : Transaction) : TxPool :=
  let hash := txHash tx in
  match poolTxs tp !! hash with
  | None => tp
  | Some _ =>
      let p :=
        match Sender tx with
        | None => pending tp
        | Some from =>
            match removeHash hash (default [] (pending tp !! from)) with
            | [] => delete from (pending tp)
            | txs => <[from := txs]> (pending tp)
            end
        end in
      set_txs p (delete hash (poolTxs tp)) tp
  end.

Definition RemoveTransactions (tp : TxPool) (txs : list Transaction) : TxPool := foldl removeTx tp txs.

Definition UpdateNonce (tp : TxPool) (addr : Address) (nonce : Z) : TxPool :=
  let txs := default [] (pending tp !! addr) in
  let keep tx := nonce <=? tNonce tx in
  mkPool
    (match keepTxs keep txs with Some l => <[addr := l]> (pending tp) | None => delete addr (pending tp) end)
    (dropTxs keep txs (poolTxs tp)) (rejectedTxs tp) (blockGasLimit tp)
    (<[addr := nonce]> (nonceCache tp)) (lastCleanup tp).

Definition pool_GetNonce (tp : TxPool) (addr : Address) : Z := default 0 (nonceCache tp !! addr).

Definition Size (tp : TxPool) : Z := Z.of_nat (size (poolTxs tp)).

Definition Clear (tp : TxPool) : TxPool := set_txs ∅ ∅ tp.

End pool.
