(* ===== verification/TxPoolProps.v ===== *)
(** * What the transaction pool guarantees

    The two indices of the pool agree: by hash it holds exactly the
    transactions it holds by sender. Every sender's transactions are in
    strictly increasing nonce order and have passed validation, and the pool
    never exceeds its size. Adding a transaction fills one slot, that of its
    sender and nonce, or changes nothing. *)

From stdpp Require Import gmap sorting.
From S2P Require Import Prelude BigInt Types Rlp BlockTypes TxQueue TxPool.
#[local] Open Scope Z_scope.

(** ** Lists in nonce order *)

Definition nonce_lt (x y : Transaction) : Prop := tNonce x < tNonce y.
Definition nonce_le (x y : Transaction) : Prop := tNonce x ≤ tNonce y.

Lemma insertByNonce_perm tx txs : insertByNonce tx txs ≡ₚ tx :: txs.
Proof.
  induction txs as [|y txs IH]; [done|]. cbn. case_match; [|done]. by rewrite IH, Permutation_swap.
Qed.

Lemma sortStable_perm txs : sortStable txs ≡ₚ txs.
Proof. induction txs as [|x txs IH]; [done|]. cbn. by rewrite insertByNonce_perm, IH. Qed.

Lemma insertByNonce_sorted tx txs :
  StronglySorted nonce_le txs → StronglySorted nonce_le (insertByNonce tx txs).
Proof.
  induction 1 as [|y txs Hs IH Hy]; cbn; [repeat constructor|].
  destruct (Z.ltb_spec (tNonce y) (tNonce tx)) as [Hlt|Hge]; constructor; try done.
  - rewrite insertByNonce_perm. constructor; [unfold nonce_le; lia|done].
  - by constructor.
  - constructor; [done|]. eapply Forall_impl; [exact Hy|]. unfold nonce_le. lia.
Qed.

Lemma sortStable_sorted txs : StronglySorted nonce_le (sortStable txs).
Proof. induction txs as [|x txs IH]; [constructor|]. by apply insertByNonce_sorted. Qed.

Lemma sorted_strict txs :
  StronglySorted nonce_le txs → NoDup (tNonce <$> txs) → StronglySorted nonce_lt txs.
Proof.
  induction 1 as [|x txs Hs IH Hx]; intros Hnd; [constructor|]. cbn in Hnd. apply NoDup_cons in Hnd as [Hnin Hnd].
  constructor; [by apply IH|]. rewrite Forall_forall in *. intros y Hy. specialize (Hx y Hy).
  unfold nonce_le, nonce_lt in *. assert (tNonce x ≠ tNonce y); [|lia]. intros E. apply Hnin. rewrite E.
  apply list_elem_of_fmap. eauto.
Qed.

Lemma strict_NoDup txs : StronglySorted nonce_lt txs → NoDup (tNonce <$> txs).
Proof.
  induction 1 as [|x txs Hs IH Hx]; cbn; [constructor|]. apply NoDup_cons. split; [|done].
  intros (y & E & Hy)%list_elem_of_fmap. rewrite Forall_forall in Hx. specialize (Hx y Hy). unfold nonce_lt in Hx. lia.
Qed.

Lemma strict_filter f txs : StronglySorted nonce_lt txs → StronglySorted nonce_lt (List.filter f txs).
Proof.
  induction 1 as [|x txs Hs IH Hx]; cbn; [constructor|]. destruct (f x); [|done]. constructor; [done|].
  rewrite Forall_forall in *. intros y Hy. apply Hx. apply list_elem_of_In in Hy. apply filter_In in Hy as [Hy _].
  by apply list_elem_of_In.
Qed.

Lemma elem_of_List_filter (f : Transaction → bool) x txs : x ∈ List.filter f txs ↔ x ∈ txs ∧ f x = true.
Proof. rewrite !list_elem_of_In. apply filter_In. Qed.

(** Two transactions of one sender with the same nonce are the same. *)
Lemma strict_inj txs x y : StronglySorted nonce_lt txs → x ∈ txs → y ∈ txs → tNonce x = tNonce y → x = y.
Proof.
  induction 1 as [|z txs Hs IH Hz]; intros Hx Hy E; [by apply elem_of_nil in Hx|].
  rewrite Forall_forall in Hz. unfold nonce_lt in Hz.
  apply elem_of_cons in Hx as [->|Hx], Hy as [->|Hy]; [done|..|by apply IH].
  - specialize (Hz y Hy). lia.
  - specialize (Hz x Hx). lia.
Qed.

(** ** The replacement loop *)

Lemma replaceTx_spec tx txs :
  match replaceTx tx txs with
  | None => ∀ y, y ∈ txs → tNonce y ≠ tNonce tx
  | Some None => ∃ y, y ∈ txs ∧ tNonce y = tNonce tx ∧ price tx ≤ price y
  | Some (Some (l, old)) =>
      ∃ l1 l2, txs = l1 ++ old :: l2 ∧ l = l1 ++ tx :: l2 ∧ tNonce old = tNonce tx ∧ price old < price tx
  end.
Proof.
  induction txs as [|y txs IH]; cbn; [by intros y ?%elem_of_nil|].
  destruct (Z.eqb_spec (tNonce y) (tNonce tx)) as [E|E].
  - destruct (Z.ltb_spec (price y) (price tx)) as [Hlt|Hge].
    + by exists [], txs.
    + exists y. split; [by left|lia].
  - destruct (replaceTx tx txs) as [[[l old]|]|].
    + destruct IH as (l1 & l2 & -> & -> & ? & ?). by exists (y :: l1), l2.
    + destruct IH as (z & Hz & ?). exists z. split; [by right|done].
    + intros z [->|Hz]%elem_of_cons; [done|by apply IH].
Qed.

(** ** The invariant *)

Section invariant.
Context `{TxMembers}.

Definition in_pool (p : gmap Address (list Transaction)) (tx : Transaction) : Prop :=
  ∃ addr txs, p !! addr = Some txs ∧ tx ∈ txs.

Record entry_ok (limit : Z) (addr : Address) (txs : list Transaction) : Prop := {
  eo_nonempty : txs ≠ [];
  eo_sorted : StronglySorted nonce_lt txs;
  eo_valid : ∀ tx, tx ∈ txs → Sender tx = Some addr ∧ validateTransaction tx limit = None;
}.

Record pool_ok (tp : TxPool) : Prop := {
  po_entries : ∀ addr txs, pending tp !! addr = Some txs → entry_ok (blockGasLimit tp) addr txs;
  po_index : ∀ h tx, poolTxs tp !! h = Some tx ↔ txHash tx = h ∧ in_pool (pending tp) tx;
  po_size : Z.of_nat (size (poolTxs tp)) ≤ MaxTxPoolSize;
}.

(** Operations that only drop transactions: those that [keep] admits stay,
    in both indices. *)
Lemma pool_ok_shrink tp p a (keep : Transaction → Prop) :
  pool_ok tp →
  (∀ addr txs, p !! addr = Some txs → entry_ok (blockGasLimit tp) addr txs) →
  (∀ tx, in_pool p tx ↔ in_pool (pending tp) tx ∧ keep tx) →
  (∀ h tx, a !! h = Some tx ↔ poolTxs tp !! h = Some tx ∧ keep tx) →
  pool_ok (set_txs p a tp).
Proof.
  intros [He Hi Hs] Hp Hin Ha. split; cbn; [done| |].
  - intros h tx. rewrite Ha, Hi, Hin. tauto.
  - etrans; [|exact Hs]. apply inj_le, map_subseteq_size, map_subseteq_spec. intros h tx. rewrite Ha. tauto.
Qed.

(** An entry of the pool with some of its transactions dropped. *)
Lemma entry_ok_filter limit addr txs f :
  entry_ok limit addr txs → List.filter f txs ≠ [] → entry_ok limit addr (List.filter f txs).
Proof.
  intros [Hne Hs Hv] Hf. split; [done|by apply strict_filter|].
  intros tx [Htx _]%elem_of_List_filter. by apply Hv.
Qed.

Lemma keepTxs_spec f txs l : keepTxs f txs = Some l ↔ l = List.filter f txs ∧ l ≠ [].
Proof. unfold keepTxs. destruct (List.filter f txs) as [|x l'] eqn:E; naive_solver. Qed.

(** The index without the dropped transactions. *)
Lemma dropTxs_spec f txs a h tx :
  dropTxs f txs a !! h = Some tx ↔ a !! h = Some tx ∧ ∀ y, y ∈ txs → txHash y = h → f y = true.
Proof.
  unfold dropTxs. revert a. induction txs as [|x txs IH]; intros a; cbn [foldl].
  - split; [|tauto]. intros Ha. split; [done|]. by intros y ?%elem_of_nil.
  - rewrite IH. setoid_rewrite elem_of_cons. destruct (f x) eqn:Ef.
    + split; [intros [? Hall]|naive_solver]. split; [done|]. intros y [->|Hy] E; [done|by apply Hall].
    + rewrite lookup_delete_Some. split.
      * intros [[Hne ?] Hall]. split; [done|]. intros y [->|Hy] E; [done|by apply Hall].
      * intros [? Hall]. split; [|naive_solver]. split; [|done]. intros E.
        specialize (Hall x (or_introl eq_refl) E). congruence.
Qed.

(** A transaction of the pool is found under its own sender, and its hash is
    no other's. *)
Lemma pool_in_sender tp tx : pool_ok tp → in_pool (pending tp) tx →
  ∃ from txs, Sender tx = Some from ∧ pending tp !! from = Some txs ∧ tx ∈ txs.
Proof.
  intros [He _ _] (addr & txs & Hp & Htx). exists addr, txs. split; [|done].
  by apply (eo_valid _ _ _ (He _ _ Hp)).
Qed.

Lemma pool_hash_inj tp x y : pool_ok tp → in_pool (pending tp) x → in_pool (pending tp) y → txHash x = txHash y → x = y.
Proof.
  intros [_ Hi _] Hx Hy E.
  assert (poolTxs tp !! txHash x = Some x) as H1 by by apply Hi.
  assert (poolTxs tp !! txHash x = Some y) as H2 by by apply Hi. congruence.
Qed.

Lemma pruneRejected_ok tp : pool_ok tp → pool_ok (pruneRejectedTxs tp).
Proof. unfold pruneRejectedTxs. case_match; [|done]. by intros []. Qed.

Lemma reject_ok tx tp : pool_ok tp → pool_ok (reject tx tp).
Proof. by intros []. Qed.

(** *** One entry of the index by sender *)

Section entries.
Context (limit : Z) (p : gmap Address (list Transaction)).
Context (Hp : ∀ addr txs, p !! addr = Some txs → entry_ok limit addr txs).

Definition entry_of (addr : Address) : list Transaction := default [] (p !! addr).

Lemma in_entry addr tx : tx ∈ entry_of addr ↔ in_pool p tx ∧ Sender tx = Some addr.
Proof.
  unfold entry_of. split.
  - destruct (p !! addr) as [l|] eqn:E; cbn; [|by intros ?%elem_of_nil].
    intros Hl. split; [by exists addr, l|by apply (eo_valid _ _ _ (Hp _ _ E))].
  - intros [(addr' & l & Hl & Htx) Hsd]. destruct (eo_valid _ _ _ (Hp _ _ Hl) tx Htx) as [E _].
    simplify_eq. by rewrite Hl.
Qed.

Lemma entry_sorted addr : StronglySorted nonce_lt (entry_of addr).
Proof. unfold entry_of. destruct (p !! addr) eqn:E; [by apply (Hp _ _ E)|constructor]. Qed.

Lemma in_pool_insert from l tx :
  in_pool (<[from := l]> p) tx ↔ tx ∈ l ∨ in_pool p tx ∧ Sender tx ≠ Some from.
Proof.
  split.
  - intros (addr & txs & Ha & Htx). apply lookup_insert_Some in Ha as [[<- <-]|[Hne Ha]]; [by left|]. right.
    split; [by exists addr, txs|]. destruct (eo_valid _ _ _ (Hp _ _ Ha) tx Htx). congruence.
  - intros [Htx|[(addr & txs & Ha & Htx) Hsd]].
    + exists from, l. by rewrite lookup_insert_eq.
    + exists addr, txs. destruct (eo_valid _ _ _ (Hp _ _ Ha) tx Htx). by rewrite lookup_insert_ne by congruence.
Qed.

Lemma in_pool_delete from tx : in_pool (delete from p) tx ↔ in_pool p tx ∧ Sender tx ≠ Some from.
Proof.
  split.
  - intros (addr & txs & [Hne Ha]%lookup_delete_Some & Htx). split; [by exists addr, txs|].
    destruct (eo_valid _ _ _ (Hp _ _ Ha) tx Htx). congruence.
  - intros [(addr & txs & Ha & Htx) Hsd]. exists addr, txs. destruct (eo_valid _ _ _ (Hp _ _ Ha) tx Htx).
    by rewrite lookup_delete_ne by congruence.
Qed.

Lemma entries_insert from l addr txs :
  entry_ok limit from l → <[from := l]> p !! addr = Some txs → entry_ok limit addr txs.
Proof. intros Hl [[<- <-]|[_ Ha]]%lookup_insert_Some; [done|by apply Hp]. Qed.

(** The entry without the transactions that [f] refuses. *)
Definition filter_entry (f : Transaction → bool) (addr : Address) : gmap Address (list Transaction) :=
  match keepTxs f (entry_of addr) with Some l => <[addr := l]> p | None => delete addr p end.

Lemma filter_entry_ok f from addr txs : filter_entry f from !! addr = Some txs → entry_ok limit addr txs.
Proof.
  unfold filter_entry. destruct (keepTxs f (entry_of from)) as [l|] eqn:E.
  - apply keepTxs_spec in E as [-> Hne]. apply entries_insert. unfold entry_of in *.
    destruct (p !! from) as [l|] eqn:Hl; [|done]. apply entry_ok_filter; [by apply Hp|done].
  - intros [_ Ha]%lookup_delete_Some. by apply Hp.
Qed.

Lemma filter_entry_in f from tx :
  in_pool (filter_entry f from) tx ↔ in_pool p tx ∧ (Sender tx = Some from → f tx = true).
Proof.
  assert (tx ∈ List.filter f (entry_of from) ↔ (in_pool p tx ∧ Sender tx = Some from) ∧ f tx = true) as Hf
    by by rewrite elem_of_List_filter, in_entry.
  destruct (decide (Sender tx = Some from)) as [E|E].
  - unfold filter_entry. destruct (keepTxs f (entry_of from)) as [l|] eqn:El.
    + apply keepTxs_spec in El as [-> _]. rewrite in_pool_insert, Hf. naive_solver.
    + rewrite in_pool_delete. unfold keepTxs in El. destruct (List.filter f (entry_of from)); [|done].
      rewrite elem_of_nil in Hf. naive_solver.
  - unfold filter_entry. destruct (keepTxs f (entry_of from)) as [l|] eqn:El.
    + apply keepTxs_spec in El as [-> _]. rewrite in_pool_insert, Hf. naive_solver.
    + rewrite in_pool_delete. naive_solver.
Qed.
End entries.

(** The index by hash follows. *)
Lemma drop_entry_index tp f addr h tx :
  pool_ok tp →
  dropTxs f (entry_of (pending tp) addr) (poolTxs tp) !! h = Some tx ↔
  poolTxs tp !! h = Some tx ∧ (Sender tx = Some addr → f tx = true).
Proof.
  intros Hok. pose proof Hok as [He Hi Hs]. rewrite dropTxs_spec, Hi. split.
  - intros [[Hh Hin] Hall]. split; [done|]. intros Hsd. apply Hall; [by eapply in_entry|done].
  - intros [[Hh Hin] Hk]. split; [done|]. intros y Hy E. eapply in_entry in Hy as [Hy Hsd]; [|done].
    assert (y = tx) as -> by (apply (pool_hash_inj tp); [done..|congruence]). auto.
Qed.

Lemma filter_entry_pool_ok tp f addr a :
  pool_ok tp →
  (∀ h tx, a !! h = Some tx ↔ poolTxs tp !! h = Some tx ∧ (Sender tx = Some addr → f tx = true)) →
  pool_ok (set_txs (filter_entry (pending tp) f addr) a tp).
Proof.
  intros Hok Ha. pose proof Hok as [He Hi Hs].
  apply pool_ok_shrink with (λ tx, Sender tx = Some addr → f tx = true); try done.
  - by apply filter_entry_ok.
  - intros tx. by eapply filter_entry_in.
Qed.

Lemma UpdateNonce_ok tp addr nonce : pool_ok tp → pool_ok (UpdateNonce tp addr nonce).
Proof.
  intros Hok. destruct (filter_entry_pool_ok tp (λ tx, nonce <=? tNonce tx) addr
    (dropTxs (λ tx, nonce <=? tNonce tx) (entry_of (pending tp) addr) (poolTxs tp)) Hok) as [He Hi Hs].
  - intros h tx. by apply drop_entry_index.
  - by split.
Qed.

Lemma fold_dropTxs f (l : list (Address * list Transaction)) a h tx :
  foldl (λ a kv, dropTxs f kv.2 a) a l !! h = Some tx ↔
  a !! h = Some tx ∧ ∀ kv y, kv ∈ l → y ∈ kv.2 → txHash y = h → f y = true.
Proof.
  revert a. induction l as [|kv l IH]; intros a; cbn [foldl].
  - split; [|tauto]. intros Ha. split; [done|]. by intros kv y ?%elem_of_nil.
  - rewrite IH, dropTxs_spec. setoid_rewrite elem_of_cons. naive_solver.
Qed.

Lemma RemoveStale_ok now tp : pool_ok tp → pool_ok (RemoveStale now tp).
Proof.
  intros Hok. pose proof Hok as [He Hi Hs]. unfold RemoveStale. set (keep := λ tx, _).
  set (tp' := set_txs _ _ tp). assert (pool_ok tp') as Hok'.
  { apply pool_ok_shrink with (λ tx, keep tx = true); [done|..].
    - intros addr txs. rewrite lookup_omap. destruct (pending tp !! addr) as [l|] eqn:El; [|done]. cbn.
      intros [-> Hne]%keepTxs_spec. apply entry_ok_filter; [by apply He|done].
    - intros tx. split.
      + intros (addr & txs & Ha & Htx). rewrite lookup_omap in Ha.
        destruct (pending tp !! addr) as [l|] eqn:El; [|done]. cbn in Ha. apply keepTxs_spec in Ha as [-> _].
        apply elem_of_List_filter in Htx as [Htx Hk]. split; [by exists addr, l|done].
      + intros [(addr & l & Hl & Htx) Hk]. exists addr, (List.filter keep l).
        assert (tx ∈ List.filter keep l) as Hin by by apply elem_of_List_filter. split; [|done].
        rewrite lookup_omap, Hl. cbn. apply keepTxs_spec. split; [done|]. intros E. rewrite E in Hin.
        by apply elem_of_nil in Hin.
    - intros h tx. rewrite fold_dropTxs, Hi. split.
      + intros [[Hh Hin] Hall]. split; [done|]. pose proof Hin as (addr & l & Hl & Htx).
        eapply (Hall (addr, l)); [|done|done]. by apply elem_of_map_to_list.
      + intros [[Hh Hin] Hk]. split; [done|]. intros [addr l] y Hl Hy E. apply elem_of_map_to_list in Hl.
        assert (y = tx) as ->; [|done]. apply (pool_hash_inj tp); [done|by exists addr, l|done|congruence]. }
  case_match; [|done]. by destruct (pruneRejected_ok tp' Hok').
Qed.

(** *** Removing by hash *)

Lemma removeHash_filter h txs :
  NoDup (txHash <$> txs) → removeHash h txs = List.filter (λ y, negb (bool_decide (txHash y = h))) txs.
Proof.
  induction txs as [|x txs IH]; intros Hnd; [done|]. cbn in *. apply NoDup_cons in Hnd as [Hnin Hnd].
  case_bool_decide as E; cbn; [|by rewrite IH]. subst h. symmetry. clear IH.
  induction txs as [|y txs IH]; [done|]. cbn in *. rewrite not_elem_of_cons in Hnin. destruct Hnin as [Hne Hnin].
  rewrite bool_decide_eq_false_2 by congruence. cbn. apply NoDup_cons in Hnd as [_ Hnd]. by rewrite IH.
Qed.

Lemma entry_hash_NoDup tp addr : pool_ok tp → NoDup (txHash <$> entry_of (pending tp) addr).
Proof.
  intros Hok. pose proof Hok as [He _ _]. apply NoDup_fmap_2_strong.
  - intros x y Hx Hy. eapply in_entry in Hx as [Hx _], Hy as [Hy _]; [|done..]. by apply (pool_hash_inj tp).
  - eapply NoDup_fmap_1, strict_NoDup. by eapply entry_sorted.
Qed.

Lemma removeTx_ok `{!TxMembersLaws} tp tx : pool_ok tp → pool_ok (removeTx tp tx).
Proof.
  intros Hok. pose proof Hok as [He Hi Hs]. unfold removeTx.
  destruct (poolTxs tp !! txHash tx) as [tx'|] eqn:Etx; [|done].
  apply Hi in Etx as Htx. destruct Htx as [Hh Hin].
  destruct (pool_in_sender tp tx' Hok Hin) as (from & txs & Hsd & _ & _).
  rewrite <- (Sender_hash tx' tx Hh), Hsd. fold (entry_of (pending tp) from).
  rewrite removeHash_filter by by apply entry_hash_NoDup. set (f := λ y, _).
  assert (pool_ok (set_txs (filter_entry (pending tp) f from) (delete (txHash tx) (poolTxs tp)) tp)) as Hok'.
  { apply filter_entry_pool_ok; [done|]. intros h y. rewrite lookup_delete_Some. unfold f. split.
    - intros [Hne Hy]. split; [done|]. intros _. apply Hi in Hy as [Hy _].
      rewrite bool_decide_eq_false_2; [done|congruence].
    - intros [Hy Hk]. split; [|done]. intros <-. assert (y = tx') as -> by congruence.
      specialize (Hk Hsd). by rewrite bool_decide_eq_true_2 in Hk. }
  unfold filter_entry, keepTxs in Hok'. by destruct (List.filter f (entry_of (pending tp) from)).
Qed.

Lemma RemoveTransactions_ok `{!TxMembersLaws} tp txs : pool_ok tp → pool_ok (RemoveTransactions tp txs).
Proof. revert tp. induction txs as [|x txs IH]; intros tp Hok; cbn; [done|]. by apply IH, removeTx_ok. Qed.

(** *** Adding *)

Lemma sortAccount_insert p from l :
  sortAccountTransactions from (<[from := l]> p) = <[from := sortStable l]> p.
Proof.
  unfold sortAccountTransactions. rewrite lookup_insert_eq. cbn [default from_option id].
  destruct (Z.leb_spec (zlen l) 1) as [Hle|Hgt]; [|by rewrite insert_insert_eq].
  destruct l as [|x [|y l]]; [done|done|]. unfold zlen in Hle. cbn in Hle. lia.
Qed.

(** Putting [tx] in the entry of its sender, where [l'] is the entry with
    [tx] and without [dropped]. *)
Lemma pool_ok_add tp tx from l' (dropped : Transaction → Prop) a :
  pool_ok tp → Sender tx = Some from → validateTransaction tx (blockGasLimit tp) = None →
  poolTxs tp !! txHash tx = None → Z.of_nat (size (poolTxs tp)) < MaxTxPoolSize →
  StronglySorted nonce_lt l' → l' ≠ [] →
  (∀ y, y ∈ l' ↔ y = tx ∨ y ∈ entry_of (pending tp) from ∧ ¬ dropped y) →
  (∀ y, dropped y → Sender y = Some from) →
  (∀ h y, a !! h = Some y ↔ poolTxs tp !! h = Some y ∧ ¬ dropped y) →
  pool_ok (set_txs (<[from := l']> (pending tp)) (<[txHash tx := tx]> a) tp).
Proof.
  intros Hok Hsd Hval Hnew Hsize Hsort Hne Hl' Hdrop Ha. pose proof Hok as [He Hi Hs]. split; cbn.
  - intros addr txs. eapply entries_insert; [done|]. split; [done..|].
    intros y [->|[Hy _]]%Hl'; [done|]. eapply in_entry in Hy as [(addr' & l & Hl & Hy) Hy']; [|done].
    by destruct (eo_valid _ _ _ (He _ _ Hl) y Hy).
  - intros h y. rewrite lookup_insert_Some, Ha, Hi. rewrite (in_pool_insert _ _ He), Hl', (in_entry _ _ He).
    split.
    + intros [[<- <-]|(Hh & (Hy & Hin) & Hnd)]; [by auto|]. split; [done|].
      destruct (decide (Sender y = Some from)); auto.
    + intros [Hh [[->|[[Hin Hyf] Hnd]]|[Hin Hyf]]]; [by left|..]; right; (split; [|split; [done|]]).
      * intros E. assert (poolTxs tp !! txHash tx = Some y) as Ey by (apply Hi; split; [congruence|done]). congruence.
      * done.
      * intros E. assert (poolTxs tp !! txHash tx = Some y) as Ey by (apply Hi; split; [congruence|done]). congruence.
      * intros Hd. by apply Hyf, Hdrop.
  - assert (size a ≤ size (poolTxs tp))%nat.
    { apply map_subseteq_size, map_subseteq_spec. intros h y. rewrite Ha. tauto. }
    rewrite map_size_insert. destruct (a !! txHash tx); cbn; lia.
Qed.

(** What a transaction displaces: the one of the same sender and nonce. *)
Definition rival (tx y : Transaction) : Prop := Sender y = Sender tx ∧ tNonce y = tNonce tx.

(** The outcome of adding a transaction the pool does not know. *)
Definition added (tp : TxPool) (tx : Transaction) (res : option pool_error * TxPool) : Prop :=
  match res with
  | (None, tp') =>
      pool_ok tp' ∧ is_Some (Sender tx) ∧
      (∀ y, in_pool (pending tp') y ↔ y = tx ∨ in_pool (pending tp) y ∧ ¬ rival tx y) ∧
      (∀ y, in_pool (pending tp) y → rival tx y → price y < price tx)
  | (Some _, tp') => pool_ok tp' ∧ pending tp' = pending tp ∧ poolTxs tp' = poolTxs tp
  end.

Section add.
Context (tp : TxPool) (Hok : pool_ok tp) (tx : Transaction) (from : Address).
Context (Hsd : Sender tx = Some from) (Hval : validateTransaction tx (blockGasLimit tp) = None).
Context (Hnew : poolTxs tp !! txHash tx = None) (Hsize : Z.of_nat (size (poolTxs tp)) < MaxTxPoolSize).

(** The rivals are the transactions of the sender's entry with the nonce. *)
Lemma rival_entry y : in_pool (pending tp) y → rival tx y → y ∈ entry_of (pending tp) from.
Proof. intros Hin [E _]. eapply in_entry; [apply Hok|]. split; [done|congruence]. Qed.

Lemma add_replace txs old :
  replaceTx tx (entry_of (pending tp) from) = Some (Some (txs, old)) →
  added tp tx (None, set_txs (<[from := txs]> (pending tp)) (<[txHash tx := tx]> (delete (txHash old) (poolTxs tp))) tp).
Proof.
  intros E. pose proof (replaceTx_spec tx (entry_of (pending tp) from)) as HR. rewrite E in HR.
  destruct HR as (l1 & l2 & El & -> & Hn & Hprice). pose proof Hok as [He Hi _].
  pose proof (entry_sorted _ _ He from) as Hsort. rewrite El in Hsort.
  assert (old ∈ entry_of (pending tp) from) as Hold by (rewrite El; set_solver).
  assert (∀ y, y ∈ entry_of (pending tp) from → tNonce y = tNonce tx → y = old) as Huniq.
  { intros y Hy Hyn. apply (strict_inj (entry_of (pending tp) from)); [by eapply entry_sorted|done..|congruence]. }
  assert (∀ y, y ∈ l1 ++ tx :: l2 ↔ y = tx ∨ y ∈ entry_of (pending tp) from ∧ y ≠ old) as Hl'.
  { intros y. rewrite El. apply strict_NoDup, NoDup_fmap_1 in Hsort.
    apply NoDup_app in Hsort as (_ & Hd1 & Hd2). apply NoDup_cons in Hd2 as [Hd2 _]. set_solver. }
  eapply in_entry in Hold as [Holdin Holds]; [|done].
  split; [|split; [by eauto|split]].
  - apply pool_ok_add with (λ y, y = old); try done.
    + apply StronglySorted_app in Hsort as (H12 & H1 & H2). apply StronglySorted_cons in H2 as [H2 H2'].
      apply StronglySorted_app. split_and!; [|done|apply StronglySorted_cons; split; [|done]].
      * intros x y Hx [->|Hy]%elem_of_cons; [|by apply H12; [done|right]].
        specialize (H12 x old Hx (list_elem_of_here _ _)). unfold nonce_lt in *. lia.
      * eapply Forall_impl; [exact H2|]. unfold nonce_lt. lia.
    + by destruct l1.
    + by intros y ->.
    + intros h y. rewrite lookup_delete_Some. split.
      * intros [Hne Hy]. split; [done|]. intros ->. apply Hi in Hy as [? _]. done.
      * intros [Hy Hne]. split; [|done]. intros <-. apply Hne. apply Hi in Hy as [? ?].
        by apply (pool_hash_inj tp).
  - intros y. cbn. rewrite (in_pool_insert _ _ He), Hl'. split.
    + intros [[->|[Hy Hne]]|[Hy Hyf]]; [by left|right..].
      * eapply in_entry in Hy as Hy'; [|done]. split; [by destruct Hy'|]. intros [_ Hyn]. by apply Hne, Huniq.
      * split; [done|]. intros [Hys _]. congruence.
    + intros [->|[Hy Hnr]]; [by left; left|]. destruct (decide (Sender y = Some from)) as [Hys|Hys]; [left; right|by right].
      split; [by eapply in_entry|]. intros ->. apply Hnr. split; congruence.
  - intros y Hy Hr. pose proof (rival_entry y Hy Hr) as Hin. destruct Hr as [_ Hyn]. by rewrite (Huniq y Hin Hyn).
Qed.

Lemma add_fresh :
  replaceTx tx (entry_of (pending tp) from) = None →
  added tp tx (None, set_txs (sortAccountTransactions from (<[from := entry_of (pending tp) from ++ [tx]]> (pending tp)))
    (<[txHash tx := tx]> (poolTxs tp)) tp).
Proof.
  intros E. pose proof (replaceTx_spec tx (entry_of (pending tp) from)) as HR. rewrite E in HR.
  pose proof Hok as [He Hi _]. rewrite sortAccount_insert. set (l' := sortStable _).
  assert (∀ y, y ∈ l' ↔ y = tx ∨ y ∈ entry_of (pending tp) from) as Hl'.
  { intros y. unfold l'. rewrite sortStable_perm. set_solver. }
  split; [|split; [by eauto|split]].
  - apply pool_ok_add with (λ y, False); try done.
    + apply sorted_strict; [apply sortStable_sorted|]. unfold l'. rewrite sortStable_perm, fmap_app.
      apply NoDup_app. split_and!; [eapply strict_NoDup; by eapply entry_sorted| |apply NoDup_singleton].
      intros n (y & -> & Hy)%list_elem_of_fmap Hn. cbn in Hn. apply list_elem_of_singleton in Hn. by apply (HR y).
    + intros El. assert (tx ∈ l') as Hin by (apply Hl'; by left). rewrite El in Hin. by apply elem_of_nil in Hin.
    + intros y. rewrite Hl'. tauto.
    + intros h y. tauto.
  - intros y. cbn. rewrite (in_pool_insert _ _ He), Hl'. split.
    + intros [[->|Hy]|[Hy Hyf]]; [by left|right..].
      * eapply in_entry in Hy as Hy'; [|done]. split; [by destruct Hy'|]. intros [_ Hyn]. by apply (HR y).
      * split; [done|]. intros [Hys _]. congruence.
    + intros [->|[Hy Hnr]]; [by left; left|]. destruct (decide (Sender y = Some from)) as [Hys|Hys]; [left; right|by right].
      by eapply in_entry.
  - intros y Hy Hr. pose proof (rival_entry y Hy Hr) as Hin. destruct Hr as [_ Hyn]. by apply HR in Hyn.
Qed.
End add.

(** A refused transaction is at most remembered as such. *)
Lemma added_reject tp tx err : pool_ok tp → added tp tx (Some err, reject tx tp).
Proof. intros Hok. split; [by apply reject_ok|done]. Qed.

Lemma added_prune tp tx err : pool_ok tp → added tp tx (Some err, reject tx (pruneRejectedTxs tp)).
Proof.
  intros Hok. split; [by apply reject_ok, pruneRejected_ok|]. unfold pruneRejectedTxs. by destruct (_ <=? _).
Qed.

Lemma AddTransaction_added now tp tx :
  pool_ok tp → poolTxs tp !! txHash tx = None → added tp tx (AddTransaction now tp tx).
Proof.
  intros Hok Hnew. unfold AddTransaction. rewrite Hnew, bool_decide_eq_false_2 by (by intros []).
  case_bool_decide; [done|]. destruct (validateTransaction tx (blockGasLimit tp)) as [err|] eqn:Hval.
  { destruct (_ <=? _); [by apply added_prune|by apply added_reject]. }
  destruct (Sender tx) as [from|] eqn:Hsd; [|by apply added_reject].
  destruct (Z.leb_spec MaxTxPoolSize (Z.of_nat (size (poolTxs tp)))); [done|].
  destruct (_ <? Unix _); [by apply added_reject|]. fold (entry_of (pending tp) from).
  destruct (replaceTx tx (entry_of (pending tp) from)) as [[[txs old]|]|] eqn:E.
  - by apply add_replace.
  - done.
  - by apply add_fresh.
Qed.

Lemma AddTransaction_ok now tp tx : pool_ok tp → pool_ok (AddTransaction now tp tx).2.
Proof.
  intros Hok. destruct (poolTxs tp !! txHash tx) eqn:E.
  - unfold AddTransaction. rewrite E. by rewrite bool_decide_eq_true_2 by eauto.
  - pose proof (AddTransaction_added now tp tx Hok E) as Hadd.
    destruct (AddTransaction now tp tx) as [[err|] tp']; by destruct Hadd.
Qed.

Lemma NewTxPool_ok now limit : pool_ok (NewTxPool now limit).
Proof.
  split; cbn.
  - intros addr txs. by rewrite lookup_empty.
  - intros h tx. rewrite lookup_empty. split; [done|]. intros (_ & addr & txs & Ha & _). by rewrite lookup_empty in Ha.
  - rewrite map_size_empty. unfold MaxTxPoolSize. lia.
Qed.

Lemma Clear_ok tp : pool_ok (Clear tp).
Proof. destruct (NewTxPool_ok 0 (blockGasLimit tp)). by split. Qed.
End invariant.

(** ** The theorems *)

Inductive pool_op :=
  | OpAdd (now : Z) (tx : Transaction)
  | OpRemove (txs : list Transaction)
  | OpRemoveStale (now : Z)
  | OpUpdateNonce (addr : Address) (nonce : Z)
  | OpClear.

Definition pool_step `{TxMembers} (tp : TxPool) (o : pool_op) : TxPool :=
  match o with
  | OpAdd now tx => (AddTransaction now tp tx).2
  | OpRemove txs => RemoveTransactions tp txs
  | OpRemoveStale now => RemoveStale now tp
  | OpUpdateNonce addr nonce => UpdateNonce tp addr nonce
  | OpClear => Clear tp
  end.

(** C9. Whatever operations run on a pool: the index by hash holds exactly
    the transactions of the index by sender, every sender's entry is not
    empty, has strictly increasing nonces and only valid transactions of
    that sender, and the pool holds at most [MaxTxPoolSize] transactions. *)
Theorem pool_invariant `{TxMembersLaws} (now limit : Z) (ops : list pool_op) :
  pool_ok (foldl pool_step (NewTxPool now limit) ops).
Proof.
  generalize (NewTxPool_ok now limit). generalize (NewTxPool now limit).
  induction ops as [|o ops IH]; intros tp Hok; cbn; [done|]. apply IH. destruct o; cbn.
  - by apply AddTransaction_ok.
  - by apply RemoveTransactions_ok.
  - by apply RemoveStale_ok.
  - by apply UpdateNonce_ok.
  - apply Clear_ok.
Qed.

(** Adding a transaction the pool does not know either fails and leaves
    all transactions in place, or puts it in the slot of its sender and
    nonce: every other slot is as before, and the transaction it replaces,
    if there is one, had a lower gas price. *)
Theorem AddTransaction_slot `{TxMembers} (now : Z) (tp : TxPool) (tx : Transaction) :
  pool_ok tp → poolTxs tp !! txHash tx = None →
  match AddTransaction now tp tx with
  | (None, tp') =>
      is_Some (Sender tx) ∧
      (∀ y, in_pool (pending tp') y ↔ y = tx ∨ in_pool (pending tp) y ∧ ¬ rival tx y) ∧
      (∀ y, in_pool (pending tp) y → rival tx y → price y < price tx)
  | (Some _, tp') => pending tp' = pending tp ∧ poolTxs tp' = poolTxs tp
  end.
Proof.
  intros Hok Hnew. pose proof (AddTransaction_added now tp tx Hok Hnew) as Hadd.
  destruct (AddTransaction now tp tx) as [[err|] tp']; cbn in *; tauto.
Qed.

(** ** An instance: hashes and senders are fields of the transaction *)

#[local] Instance field_members : TxMembers := {|
  txHash tx := tHash tx ++ tFrom tx;
  Sender tx := Some (drop 32 (tHash tx ++ tFrom tx));
  Timestamp tx := 0;
|}.

#[local] Instance field_members_laws : TxMembersLaws.
Proof. split. cbn. by intros t t' ->. Qed.

Definition pool_tx (nonce gasPrice h : Z) : Transaction :=
  mkTx nonce (Some gasPrice) 21000 (Some ZeroAddress) (Some 0) [] None None None (BytesToHash [h]) ZeroAddress None.

Lemma pool_invariant_witness :
  pool_ok (foldl pool_step (NewTxPool 0 30000)
    [OpAdd (Unix 0) (pool_tx 1 5 1); OpAdd (Unix 0) (pool_tx 0 5 2); OpAdd (Unix 0) (pool_tx 1 7 3); OpRemove [pool_tx 0 5 2]]).
Proof. apply pool_invariant. Defined.

Lemma AddTransaction_slot_witness :
  match AddTransaction (Unix 0) (NewTxPool 0 30000) (pool_tx 1 5 1) with
  | (None, tp') => ∀ y, in_pool (pending tp') y ↔ y = pool_tx 1 5 1 ∨
      in_pool (pending (NewTxPool 0 30000)) y ∧ ¬ rival (pool_tx 1 5 1) y
  | (Some _, tp') => False
  end.
Proof.
  pose proof (AddTransaction_slot (Unix 0) (NewTxPool 0 30000) (pool_tx 1 5 1) (NewTxPool_ok 0 30000)
    (lookup_empty _)) as H.
  destruct (AddTransaction (Unix 0) (NewTxPool 0 30000) (pool_tx 1 5 1)) as [[err|] tp'] eqn:E.
  - vm_compute in E. discriminate.
  - apply H.
Defined.
