(* ===== verification/Hex.v ===== *)
(** * Text encodings (helper/hex/hex.go, types/types.go, types/encoding.go)

    A Go string is its list of bytes. The functions of [encoding/hex],
    [strconv] and [strings] the node uses are written out, with what they
    return beside an error: [hex.DecodeString] returns the bytes it decoded
    before the offending one, and [stringToBytes] relies on it. *)

From Stdlib Require Import Ascii String.
From S2P Require Import Prelude BigInt Types.
#[local] Open Scope Z_scope.

(** A string literal. *)
Definition lit (s : string) : list Z := (λ a, Z.of_N (N_of_ascii a)) <$> list_ascii_of_string s.
Arguments lit s%_string.

(** ** The standard library *)

(** [strings.HasPrefix] and [strings.TrimPrefix] *)
Definition HasPrefix (s prefix : list Z) : bool := bool_decide (take (length prefix) s = prefix).
Definition TrimPrefix (s prefix : list Z) : list Z := if HasPrefix s prefix then drop (length prefix) s else s.

(** [strings.Split(s, sep)] for a separator of one byte. *)
Fixpoint SplitByte (s : list Z) (sep : Z) : list (list Z) :=
  match s with
  | [] => [[]]
  | c :: s =>
      if c =? sep then [] :: SplitByte s sep
      else match SplitByte s sep with
           | w :: ws => (c :: w) :: ws
           | [] => [[c]]
           end
  end.

(** The character of a digit, and the digit of a character. *)
Definition hexDigit (n : Z) : Z := if n <? 10 then 48 + n else 87 + n.

Definition fromHexChar (c : Z) : option Z :=
  if (48 <=? c) && (c <=? 57) then Some (c - 48) else
  if (97 <=? c) && (c <=? 102) then Some (c - 97 + 10) else
  if (65 <=? c) && (c <=? 70) then Some (c - 65 + 10) else None.

(** [encoding/hex.EncodeToString] *)
Definition EncodeToString (b : list Z) : list Z := b ≫= (λ x, [hexDigit (x / 16); hexDigit (x mod 16)]).

(** [encoding/hex.DecodeString]: the bytes decoded and whether there was no
    error. *)
Fixpoint DecodeString (s : list Z) : list Z * bool :=
  match s with
  | [] => ([], true)
  | [_] => ([], false)
  | p :: q :: s =>
      match fromHexChar p, fromHexChar q with
      | Some a, Some b => let '(r, ok) := DecodeString s in (16 * a + b :: r, ok)
      | _, _ => ([], false)
      end
  end.

(** [strconv.AppendUint(nil, x, base)] for a base up to 16, with [n]
    digits at most. *)
Fixpoint digits (n : nat) (base x : Z) : list Z :=
  match n with
  | O => []
  | S n => (if x <? base then [] else digits n base (x / base)) ++ [hexDigit (x mod base)]
  end.

Definition AppendUint (base x : Z) : list Z := digits 64 base x.

(** [strconv.ParseUint(s, base, 64)]: the value, and whether there was no
    error. The value of a string out of range is the largest one. *)
Fixpoint parse_digits (base : Z) (s : list Z) (acc : Z) : Z * bool :=
  match s with
  | [] => (acc, true)
  | c :: s =>
      match fromHexChar c with
      | Some d =>
          if d <? base then
            if 2 ^ 64 <=? acc * base + d then (2 ^ 64 - 1, false) else parse_digits base s (acc * base + d)
          else (0, false)
      | None => (0, false)
      end
  end.

Definition ParseUint (s : list Z) (base : Z) : Z * bool :=
  match s with [] => (0, false) | _ => parse_digits base s 0 end.

(** ** helper/hex/hex.go *)

Definition prefix0x : list Z := lit "0x".

Definition EncodeToHex (b : list Z) : list Z := prefix0x ++ EncodeToString b.

Definition DecodeHex (s : list Z) : list Z * bool := DecodeString (TrimPrefix s prefix0x).

(** [None] is a panic. *)
Definition MustDecodeHex (s : list Z) : option (list Z) :=
  let '(buf, ok) := DecodeHex s in if ok then Some buf else None.

Definition hex_EncodeUint64 (i : Z) : list Z := prefix0x ++ AppendUint 16 i.

Definition DecodeUint64 (s : list Z) : Z * bool := ParseUint (TrimPrefix s prefix0x) 16.

Definition BadNibble : Z := 2 ^ 64 - 1.

Definition DecodeNibble (c : Z) : Z :=
  if (48 <=? c) && (c <=? 57) then c - 48 else
  if (65 <=? c) && (c <=? 70) then c - 65 + 10 else
  if (97 <=? c) && (c <=? 102) then c - 97 + 10 else BadNibble.

(** [fmt.Sprintf] with the verb [%#x] writes the sign before the prefix. *)
Definition EncodeBig (bigint : Z) : list Z :=
  if BitLen bigint =? 0 then lit "0x0"
  else (if bigint <? 0 then lit "-" else []) ++ prefix0x
         ++ digits (Z.to_nat (BitLen bigint)) 16 (Z.abs bigint).

(** [None] is a panic. *)
Definition DropHexPrefix (input : list Z) : option (list Z) :=
  if zlen input <? 2 then None else Some (drop 2 input).

(** ** types/types.go *)

Definition stringToBytes (s : list Z) : list Z :=
  let s := TrimPrefix s prefix0x in
  let s := if zlen s mod 2 =? 1 then lit "0" ++ s else s in
  (DecodeString s).1.

Definition StringToHash (s : list Z) : Hash := BytesToHash (stringToBytes s).
Definition StringToAddress (s : list Z) : Address := BytesToAddress (stringToBytes s).

Definition Hash_String (h : Hash) : list Z := EncodeToHex h.

(** [unicode.ToUpper] on the characters of a hex string. *)
Definition ToUpper (c : Z) : Z := if (97 <=? c) && (c <=? 122) then c - 32 else c.

(** One character of the checksummed address. *)
Definition checksumChar (ch h : Z) : Z :=
  if ((48 <=? ch) && (ch <=? 57)) || ((48 <=? h) && (h <=? 55)) then ch else ToUpper ch.

Definition checksumEncode `{Keccak} (a : Address) : list Z :=
  let lowercaseHex := drop 2 (EncodeToHex a) in
  let hashedAddress := drop 2 (EncodeToHex (keccak256 lowercaseHex)) in
  prefix0x ++ zip_with checksumChar lowercaseHex hashedAddress.

Definition Address_String `{Keccak} (a : Address) : list Z := checksumEncode a.

Definition Hash_UnmarshalText (input : list Z) : Hash := BytesToHash (stringToBytes input).

(** [None] is an error. *)
Definition Address_UnmarshalText (input : list Z) : option Address :=
  let buf := stringToBytes input in
  if negb (length buf =? AddressLength)%nat then None else Some (BytesToAddress buf).

(** ** types/encoding.go *)

(** The prefix selects the base. *)
Definition ParseUint64orHex (val : option (list Z)) : Z * bool :=
  match val with
  | None => (0, true)
  | Some s => if HasPrefix s prefix0x then ParseUint (drop 2 s) 16 else ParseUint s 10
  end.

Definition ParseInt64orHex (val : option (list Z)) : Z * bool :=
  let '(i, ok) := ParseUint64orHex val in (i64 i, ok).

Definition ParseBytes (val : option (list Z)) : list Z * bool :=
  match val with
  | None => ([], true)
  | Some s => DecodeString (TrimPrefix s prefix0x)
  end.

Definition types_EncodeUint64 (b : Z) : list Z := prefix0x ++ AppendUint 16 b.
Definition EncodeBytes (b : list Z) : list Z := prefix0x ++ EncodeToString b.

(** ** Reading back what was written *)

Lemma fromHexChar_digit n : 0 ≤ n < 16 → fromHexChar (hexDigit n) = Some n.
Proof.
  intros Hn. assert (n ∈ seqZ 0 16) as Hin by (apply elem_of_seqZ; lia).
  clear Hn. revert n Hin. apply Forall_forall. by repeat constructor.
Qed.

Lemma fromHexChar_checksum n h : 0 ≤ n < 16 → fromHexChar (checksumChar (hexDigit n) h) = Some n.
Proof.
  intros Hn. unfold checksumChar. case_match; [by apply fromHexChar_digit|]. clear H.
  assert (n ∈ seqZ 0 16) as Hin by (apply elem_of_seqZ; lia).
  clear Hn. revert n Hin. apply Forall_forall. by repeat constructor.
Qed.

Lemma nibbles_ok x : byte_ok x → 0 ≤ x / 16 < 16 ∧ 0 ≤ x mod 16 < 16.
Proof.
  unfold byte_ok. intros Hx. split; [split; [apply Z.div_pos; lia|apply Z.div_lt_upper_bound; lia]|].
  apply Z.mod_pos_bound. lia.
Qed.

(** A string of two characters per byte that stand for the byte's digits. *)
Inductive spells : list Z → list Z → Prop :=
  | spells_nil : spells [] []
  | spells_cons x p q b s :
      fromHexChar p = Some (x / 16) → fromHexChar q = Some (x mod 16) → spells b s → spells (x :: b) (p :: q :: s).

Lemma DecodeString_spells b s : spells b s → DecodeString s = (b, true).
Proof.
  induction 1 as [|x p q b s Hp Hq _ IH]; [done|]. simpl. rewrite Hp, Hq, IH.
  by rewrite <- Z.div_mod by lia.
Qed.

Lemma spells_encode b : bytes_ok b → spells b (EncodeToString b).
Proof.
  induction 1 as [|x b Hx _ IH]; [constructor|]. apply nibbles_ok in Hx as [H1 H2].
  constructor; [by apply fromHexChar_digit..|apply IH].
Qed.

Lemma length_spells b s : spells b s → length s = (2 * length b)%nat.
Proof. induction 1; simpl; lia. Qed.

Lemma spells_checksum b hs :
  bytes_ok b → (2 * length b ≤ length hs)%nat → spells b (zip_with checksumChar (EncodeToString b) hs).
Proof.
  intros Hb. revert hs. induction Hb as [|x b Hx _ IH]; intros hs Hl; [constructor|].
  destruct hs as [|h1 [|h2 hs]]; simpl in Hl; [lia..|]. apply nibbles_ok in Hx as [H1 H2].
  constructor; [by apply fromHexChar_checksum..|apply IH; lia].
Qed.

Lemma length_EncodeToString b : length (EncodeToString b) = (2 * length b)%nat.
Proof.
  induction b as [|x b IH]; [done|]. unfold EncodeToString in *. rewrite bind_cons, length_app, IH. simpl. lia.
Qed.

Lemma TrimPrefix_app p s : TrimPrefix (p ++ s) p = s.
Proof. unfold TrimPrefix, HasPrefix. rewrite take_app_length, bool_decide_true by done. apply drop_app_length. Qed.

Lemma DecodeString_EncodeToString b : bytes_ok b → DecodeString (EncodeToString b) = (b, true).
Proof. intros. by apply DecodeString_spells, spells_encode. Qed.

Lemma DecodeHex_EncodeToHex b : bytes_ok b → DecodeHex (EncodeToHex b) = (b, true).
Proof. intros. unfold DecodeHex, EncodeToHex. rewrite TrimPrefix_app. by apply DecodeString_EncodeToString. Qed.

Lemma stringToBytes_spells b s : spells b s → stringToBytes (prefix0x ++ s) = b.
Proof.
  intros Hs. unfold stringToBytes. rewrite TrimPrefix_app. unfold zlen. rewrite (length_spells _ _ Hs).
  replace (Z.of_nat (2 * length b)) with (Z.of_nat (length b) * 2) by lia. rewrite Z.mod_mul by lia.
  cbn [Z.eqb]. by rewrite (DecodeString_spells _ _ Hs).
Qed.

Lemma right_align_full n b : length b = n → right_align n b = b.
Proof. intros <-. unfold right_align. by rewrite Nat.min_id, Nat.sub_diag. Qed.

Lemma checksum_spells `{Keccak} a : addr_ok a → ∃ s, spells a s ∧ Address_String a = prefix0x ++ s.
Proof.
  intros [Hl Ha]. eexists; split; [|done]. unfold EncodeToHex. change (length prefix0x) with 2%nat.
  rewrite !(drop_app_length' prefix0x) by done. apply spells_checksum; [done|].
  destruct (keccak256_ok (EncodeToString a)) as [Hk _].
  rewrite length_EncodeToString, Hk, Hl. lia.
Qed.

Lemma StringToAddress_String `{Keccak} a : addr_ok a → StringToAddress (Address_String a) = a.
Proof.
  intros Ha. destruct (checksum_spells a Ha) as (s & Hs & ->). destruct Ha as [Hl _].
  unfold StringToAddress. rewrite (stringToBytes_spells _ _ Hs). by apply right_align_full.
Qed.

Lemma Address_UnmarshalText_String `{Keccak} a : addr_ok a → Address_UnmarshalText (Address_String a) = Some a.
Proof.
  intros Ha. destruct (checksum_spells a Ha) as (s & Hs & ->). destruct Ha as [Hl _].
  unfold Address_UnmarshalText. rewrite (stringToBytes_spells _ _ Hs), Hl. cbn [Nat.eqb negb AddressLength].
  by rewrite (right_align_full AddressLength).
Qed.

Lemma StringToHash_String h : hash_ok h → StringToHash (Hash_String h) = h.
Proof.
  intros [Hl Hh]. unfold StringToHash, Hash_String, EncodeToHex.
  rewrite (stringToBytes_spells h) by by apply spells_encode. by apply right_align_full.
Qed.

(** *** Numbers *)

Lemma parse_digits_app base s k acc :
  parse_digits base (s ++ k) acc =
  let '(v, ok) := parse_digits base s acc in if ok then parse_digits base k v else (v, false).
Proof.
  revert acc. induction s as [|c s IH]; intros acc; [done|]. simpl.
  destruct (fromHexChar c); [|done]. case_match; [|done]. case_match; [done|]. apply IH.
Qed.

Lemma parse_digits_digits n base x :
  2 ≤ base ≤ 16 → 0 ≤ x < 2 ^ 64 → x < base ^ Z.of_nat n → parse_digits base (digits n base x) 0 = (x, true).
Proof.
  intros Hb. revert x. induction n as [|n IH]; intros x Hx Hn.
  - change (base ^ Z.of_nat 0) with 1 in Hn. simpl. by replace x with 0 by lia.
  - cbn [digits]. rewrite parse_digits_app.
    assert (0 ≤ x mod base < base) as Hm by (apply Z.mod_pos_bound; lia).
    pose proof (Z.div_mod x base ltac:(lia)) as Hd.
    assert (parse_digits base (if x <? base then [] else digits n base (x / base)) 0 = (x / base, true)) as ->.
    { destruct (Z.ltb_spec x base); [simpl; by rewrite Z.div_small by lia|].
      rewrite Nat2Z.inj_succ, Z.pow_succ_r in Hn by lia.
      apply IH; [split; [apply Z.div_pos; lia|]|apply Z.div_lt_upper_bound; lia].
      apply Z.div_lt_upper_bound; nia. }
    simpl. rewrite fromHexChar_digit by lia. rewrite (proj2 (Z.ltb_lt _ _)) by lia.
    rewrite (proj2 (Z.leb_gt _ _)) by lia. f_equal. lia.
Qed.

Lemma digits_cons n base x : (0 < n)%nat → digits n base x ≠ [].
Proof. destruct n; [lia|]. intros _ E. cbn in E. by destruct (if x <? base then _ else _). Qed.

Lemma ParseUint_AppendUint base x :
  2 ≤ base ≤ 16 → 0 ≤ x < 2 ^ 64 → ParseUint (AppendUint base x) base = (x, true).
Proof.
  intros Hb Hx. unfold ParseUint, AppendUint. destruct (digits 64 base x) eqn:E.
  - by apply digits_cons in E; [|lia].
  - rewrite <- E. apply parse_digits_digits; [done..|].
    apply Z.lt_le_trans with (2 ^ Z.of_nat 64); [apply Hx|]. apply Z.pow_le_mono_l. lia.
Qed.

Lemma DecodeUint64_Encode i : 0 ≤ i < 2 ^ 64 → DecodeUint64 (hex_EncodeUint64 i) = (i, true).
Proof.
  intros Hi. unfold DecodeUint64, hex_EncodeUint64. rewrite TrimPrefix_app. by apply ParseUint_AppendUint.
Qed.

Lemma ParseUint64orHex_Encode i : 0 ≤ i < 2 ^ 64 → ParseUint64orHex (Some (types_EncodeUint64 i)) = (i, true).
Proof.
  intros Hi. unfold ParseUint64orHex, types_EncodeUint64, HasPrefix.
  rewrite take_app_length, bool_decide_true by done. change 2%nat with (length prefix0x).
  rewrite drop_app_length. by apply ParseUint_AppendUint.
Qed.
