(* ===== verification/Result.v ===== *)
(** * Fallible code

    A Go function that returns a value and an error, and that may panic, is
    a computation with three outcomes. The bind stops at the first error or
    panic, as the code's [if err != nil] does. *)

From S2P Require Import Prelude.

Inductive result (E A : Type) :=
  | Returns (a : A)
  | Errors (e : E)
  | Panics.
Arguments Returns {E A} a.
Arguments Errors {E A} e.
Arguments Panics {E A}.

#[export] Instance result_ret {E} : MRet (result E) := @Returns E.
#[export] Instance result_bind {E} : MBind (result E) := λ A B f m,
  match m with Returns a => f a | Errors e => Errors e | Panics => Panics end.

#[export] Instance result_eq_dec {E A} `{EqDecision E, EqDecision A} : EqDecision (result E A).
Proof. solve_decision. Defined.

(** [if err != nil { return e }] around a call that only reports failure. *)
Definition or_error {E A} (e : E) (o : option A) : result E A :=
  match o with Some a => Returns a | None => Errors e end.

(** An index or a slice expression that must be in range. *)
Definition or_panic {E A} (o : option A) : result E A :=
  match o with Some a => Returns a | None => Panics end.

Lemma result_bind_returns {E A B} (m : result E A) (f : A → result E B) b :
  (a ← m; f a) = Returns b ↔ ∃ a, m = Returns a ∧ f a = Returns b.
Proof. split; [destruct m; cbn; naive_solver|]. by intros (a & -> & Hf). Qed.

(** Case analysis on the computations a hypothesis [... = Returns _] runs. *)
Ltac invert_result H :=
  repeat match type of H with
  | (_ ≫= _) = Returns _ =>
      let a := fresh "a" in let Ha := fresh "Ha" in
      apply result_bind_returns in H as (a & Ha & H)
  | (if ?b then _ else _) = Returns _ => let E := fresh "E" in destruct b eqn:E; try discriminate H
  | match ?o with _ => _ end = Returns _ => let E := fresh "E" in destruct o eqn:E; try discriminate H
  end.
