(* ===== verification/Validators.v ===== *)
(** * Validators and validator sets (validators/*.go)

    The two kinds of validators behind the interface [Validator], and [Set],
    the one implementation of the interface [Validators]. JSON forms, which
    encoding/json derives by reflection, are left out. *)

From Stdlib Require Import String.
From S2P Require Import Prelude BigInt Types Rlp BlockTypes Hex Result.
#[local] Open Scope Z_scope.

(** ** types.go *)

Definition ValidatorType : Type := list Z.

Definition ECDSAValidatorType : ValidatorType := lit "ecdsa".
Definition BLSValidatorType : ValidatorType := lit "bls".

Inductive verror :=
  | ErrInvalidValidatorType
  | ErrMismatchValidatorType
  | ErrMismatchValidatorsType
  | ErrValidatorAlreadyExists
  | ErrValidatorNotFound
  | ErrInvalidBLSValidatorFormat
  | ErrParse     (** a hex string that does not decode *)
  | ErrDecode.   (** an RLP value of the wrong shape *)

#[export] Instance verror_eq_dec : EqDecision verror.
Proof. solve_decision. Defined.

Definition ParseValidatorType (s : list Z) : result verror ValidatorType :=
  if bool_decide (s = ECDSAValidatorType) then Returns ECDSAValidatorType else
  if bool_decide (s = BLSValidatorType) then Returns BLSValidatorType else Errors ErrInvalidValidatorType.

(** ** ecdsa.go and bls.go *)

Inductive Validator :=
  | ECDSAValidator (Address : Address)
  | BLSValidator (Address : Address) (BLSPublicKey : list Z).

#[export] Instance Validator_eq_dec : EqDecision Validator.
Proof. solve_decision. Defined.

(** The method [Type]. *)
Definition vType (v : Validator) : ValidatorType :=
  match v with ECDSAValidator _ => ECDSAValidatorType | BLSValidator _ _ => BLSValidatorType end.

Definition Addr (v : Validator) : Address :=
  match v with ECDSAValidator a => a | BLSValidator a _ => a end.

(** A fresh object with the same fields. *)
Definition Validator_Copy (v : Validator) : Validator :=
  match v with ECDSAValidator a => ECDSAValidator a | BLSValidator a k => BLSValidator a k end.

Definition Validator_Equal (v vr : Validator) : bool :=
  match v, vr with
  | ECDSAValidator a, ECDSAValidator b => bool_decide (a = b)
  | BLSValidator a k, BLSValidator b l => bool_decide (a = b) && bool_decide (k = l)
  | _, _ => false
  end.

Definition Validator_String `{Keccak} (v : Validator) : list Z :=
  match v with
  | ECDSAValidator a => Address_String a
  | BLSValidator a k => Address_String a ++ lit ":" ++ EncodeToHex k
  end.

(** *** RLP *)
Section rlp.
Context `{Rlp}.

Definition Validator_MarshalRLPWith (v : Validator) : rlp_value :=
  match v with
  | ECDSAValidator a => rlp_bytes a
  | BLSValidator a k => rlp_array [rlp_bytes a; rlp_bytes k]
  end.

(** [v] is the receiver, which selects the implementation. *)
Definition Validator_UnmarshalRLPFrom (v : Validator) (val : rlp_value) : result verror Validator :=
  match v with
  | ECDSAValidator _ => a ← or_error ErrDecode (rlp_getfixed 20 val); Returns (ECDSAValidator a)
  | BLSValidator _ _ =>
      elems ← or_error ErrDecode (rlp_elems val);
      match elems with
      | e0 :: e1 :: _ =>
          a ← or_error ErrDecode (rlp_getfixed 20 e0);
          k ← or_error ErrDecode (rlp_getbytes e1);
          Returns (BLSValidator a k)
      | _ => Errors ErrDecode
      end
  end.

Definition Validator_Bytes (v : Validator) : list Z :=
  match v with
  | ECDSAValidator a => a
  | BLSValidator _ _ => rlp_marshal (Validator_MarshalRLPWith v)
  end.

Definition SetFromBytes (v : Validator) (input : list Z) : result verror Validator :=
  match v with
  | ECDSAValidator _ => Returns (ECDSAValidator (BytesToAddress input))
  | BLSValidator _ _ => val ← or_error ErrDecode (rlp_parse input); Validator_UnmarshalRLPFrom v val
  end.

End rlp.

(** ** set.go *)

Record VSet := mkSet {
  vsType : ValidatorType;
  vsVals : list Validator;
}.

#[export] Instance VSet_eq_dec : EqDecision VSet.
Proof. solve_decision. Defined.

Definition Len (s : VSet) : Z := zlen (vsVals s).

Fixpoint equal_all (l k : list Validator) : bool :=
  match l, k with
  | v :: l, w :: k => Validator_Equal v w && equal_all l k
  | _, _ => true
  end.

Definition Set_Equal (s ss : VSet) : bool :=
  if negb (bool_decide (vsType s = vsType ss)) then false else
  if negb (Len s =? Len ss) then false else equal_all (vsVals s) (vsVals ss).

Definition Set_Copy (s : VSet) : VSet := mkSet (vsType s) (Validator_Copy <$> vsVals s).

(** [None] is a panic. *)
Definition Set_At (s : VSet) (index : Z) : option Validator := vsVals s !! Z.to_nat index.

Fixpoint index_loop (l : list Validator) (addr : Address) (i : Z) : Z :=
  match l with
  | [] => -1
  | v :: l => if bool_decide (Addr v = addr) then i else index_loop l addr (i + 1)
  end.

Definition Index (s : VSet) (addr : Address) : Z := index_loop (vsVals s) addr 0.

Definition Includes (s : VSet) (addr : Address) : bool := negb (Index s addr =? -1).

Definition Add (s : VSet) (val : Validator) : result verror VSet :=
  if negb (bool_decide (vsType s = vType val)) then Errors ErrMismatchValidatorType else
  if Includes s (Addr val) then Errors ErrValidatorAlreadyExists else
  Returns (mkSet (vsType s) (vsVals s ++ [val])).

Definition Del (s : VSet) (val : Validator) : result verror VSet :=
  if negb (bool_decide (vsType s = vType val)) then Errors ErrMismatchValidatorType else
  let index := Index s (Addr val) in
  if index =? -1 then Errors ErrValidatorNotFound else
  Returns (mkSet (vsType s) (take (Z.to_nat index) (vsVals s) ++ drop (Z.to_nat (index + 1)) (vsVals s))).

Fixpoint merge_loop (s : VSet) (l : list Validator) : result verror VSet :=
  match l with
  | [] => Returns s
  | newVal :: l =>
      if Includes s (Addr newVal) then merge_loop s l
      else s ← Add s newVal; merge_loop s l
  end.

Definition Merge (s ss : VSet) : result verror VSet :=
  if negb (bool_decide (vsType s = vsType ss)) then Errors ErrMismatchValidatorsType
  else merge_loop s (vsVals ss).

(** ** helper.go *)

Definition NewValidatorFromType (t : ValidatorType) : result verror Validator :=
  if bool_decide (t = ECDSAValidatorType) then Returns (ECDSAValidator ZeroAddress) else
  if bool_decide (t = BLSValidatorType) then Returns (BLSValidator ZeroAddress []) else
  Errors ErrInvalidValidatorType.

Definition NewECDSAValidatorSet (addrs : list Address) : VSet := mkSet ECDSAValidatorType (ECDSAValidator <$> addrs).
Definition NewBLSValidatorSet (vals : list (Address * list Z)) : VSet :=
  mkSet BLSValidatorType ((λ p, BLSValidator p.1 p.2) <$> vals).

(** [None] is nil. *)
Definition NewValidatorSetFromType (t : ValidatorType) : option VSet :=
  if bool_decide (t = ECDSAValidatorType) then Some (NewECDSAValidatorSet []) else
  if bool_decide (t = BLSValidatorType) then Some (NewBLSValidatorSet []) else None.

Section set_rlp.
Context `{Rlp}.

Definition Set_MarshalRLPWith (s : VSet) : rlp_value := rlp_array (Validator_MarshalRLPWith <$> vsVals s).

Fixpoint unmarshal_all (t : ValidatorType) (elems : list rlp_value) : result verror (list Validator) :=
  match elems with
  | [] => Returns []
  | e :: elems =>
      v ← NewValidatorFromType t;
      v ← Validator_UnmarshalRLPFrom v e;
      vs ← unmarshal_all t elems;
      Returns (v :: vs)
  end.

Definition Set_UnmarshalRLPFrom (s : VSet) (val : rlp_value) : result verror VSet :=
  elems ← or_error ErrDecode (rlp_elems val);
  vs ← unmarshal_all (vsType s) elems;
  Returns (mkSet (vsType s) vs).

End set_rlp.

Definition ParseECDSAValidator (validator : list Z) : Validator := ECDSAValidator (StringToAddress validator).

Definition ParseBLSValidator (validator : list Z) : result verror Validator :=
  match SplitByte validator 58 with
  | [s0; s1] =>
      let '(addrBytes, ok) := DecodeString (TrimPrefix s0 prefix0x) in
      if negb ok then Errors ErrParse else
      let '(pubKeyBytes, ok) := DecodeString (TrimPrefix s1 prefix0x) in
      if negb ok then Errors ErrParse else
      Returns (BLSValidator (BytesToAddress addrBytes) pubKeyBytes)
  | _ => Errors ErrInvalidBLSValidatorFormat
  end.

Definition ParseValidator (t : ValidatorType) (validator : list Z) : result verror Validator :=
  if bool_decide (t = ECDSAValidatorType) then Returns (ParseECDSAValidator validator) else
  if bool_decide (t = BLSValidatorType) then ParseBLSValidator validator else Errors ErrInvalidValidatorType.

Fixpoint parse_loop (t : ValidatorType) (raw : list (list Z)) (set : VSet) : result verror VSet :=
  match raw with
  | [] => Returns set
  | s :: raw =>
      validator ← ParseValidator t s;
      set ← Add set validator;
      parse_loop t raw set
  end.

Definition ParseValidators (t : ValidatorType) (raw : list (list Z)) : result verror VSet :=
  match NewValidatorSetFromType t with
  | None => Errors ErrInvalidValidatorType
  | Some set => parse_loop t raw set
  end.
