(* ===== verification/ValidatorsProps.v ===== *)
(** * Validator sets are sets

    [set_ok] is the invariant of a validator set: one kind of validator, no
    address twice. [Add], [Del] and [Merge] keep it and are insertion,
    removal and union of addresses; text and RLP forms read back. *)

From Stdlib Require Import String.
From S2P Require Import Prelude BigInt Types Rlp BlockTypes Hex Result Validators.
#[local] Open Scope Z_scope.

Definition set_ok (s : VSet) : Prop :=
  Forall (λ v, vType v = vsType s) (vsVals s) ∧ NoDup (Addr <$> vsVals s).

(** The addresses of a set. *)
Definition addrs (s : VSet) : list Address := Addr <$> vsVals s.

(** ** Equality *)

Lemma Validator_Equal_eq v w : Validator_Equal v w = true ↔ v = w.
Proof.
  destruct v, w; simpl; rewrite ?andb_true_iff, ?bool_decide_eq_true; naive_solver.
Qed.

Lemma equal_all_eq l k : length l = length k → equal_all l k = true ↔ l = k.
Proof.
  revert k. induction l as [|v l IH]; intros [|w k] Hl; simpl in Hl; [done..|]. simpl.
  rewrite andb_true_iff, Validator_Equal_eq, IH by lia. naive_solver.
Qed.

Lemma Set_Equal_eq s t : Set_Equal s t = true ↔ s = t.
Proof.
  destruct s as [ty l], t as [ty' l']. unfold Set_Equal, Len, zlen; simpl.
  case_bool_decide as Ht; simpl; [subst|naive_solver].
  destruct (Z.eqb_spec (Z.of_nat (length l)) (Z.of_nat (length l'))) as [Hl|Hl]; simpl.
  - rewrite equal_all_eq by lia. naive_solver.
  - split; [done|]. intros E. simplify_eq.
Qed.

Lemma Validator_Copy_id v : Validator_Copy v = v.
Proof. by destruct v. Qed.

Lemma Set_Copy_id s : Set_Copy s = s.
Proof.
  destruct s as [t l]. unfold Set_Copy; simpl. f_equal.
  induction l as [|v l IH]; [done|]. rewrite fmap_cons, IH. by rewrite Validator_Copy_id.
Qed.

(** ** Index and Includes *)

Lemma index_loop_spec l addr i :
  0 ≤ i →
  (index_loop l addr i = -1 ∧ addr ∉ Addr <$> l) ∨
  (∃ l1 w l2, l = l1 ++ w :: l2 ∧ Addr w = addr ∧ addr ∉ Addr <$> l1 ∧ index_loop l addr i = i + zlen l1).
Proof.
  revert i. induction l as [|v l IH]; intros i Hi; simpl.
  - left. split; [done|apply not_elem_of_nil].
  - case_bool_decide as Hv.
    + right. exists [], v, l. repeat split; [done|apply not_elem_of_nil|unfold zlen; simpl; lia].
    + destruct (IH (i + 1) ltac:(lia)) as [[-> Hn]|(l1 & w & l2 & -> & Hw & Hn & ->)].
      * left. split; [done|]. rewrite not_elem_of_cons. done.
      * right. exists (v :: l1), w, l2. repeat split; [done| |unfold zlen; simpl; lia].
        rewrite fmap_cons, not_elem_of_cons. done.
Qed.

Lemma Includes_spec s addr : Includes s addr = true ↔ addr ∈ addrs s.
Proof.
  unfold Includes, Index, addrs.
  destruct (index_loop_spec (vsVals s) addr 0 ltac:(lia)) as [[-> Hn]|(l1 & w & l2 & -> & <- & Hn & ->)].
  - simpl. naive_solver.
  - rewrite (proj2 (Z.eqb_neq _ _)) by (unfold zlen; lia). split; [|done]. intros _.
    rewrite fmap_app, fmap_cons. apply elem_of_app. right. apply list_elem_of_here.
Qed.

Lemma Includes_false s addr : Includes s addr = false ↔ addr ∉ addrs s.
Proof. rewrite <- Includes_spec. by destruct (Includes s addr). Qed.

(** ** Add, Del, Merge *)

Lemma Add_spec s v s' :
  Add s v = Returns s' ↔
  vType v = vsType s ∧ Addr v ∉ addrs s ∧ s' = mkSet (vsType s) (vsVals s ++ [v]).
Proof.
  unfold Add. case_bool_decide; simpl; [|naive_solver].
  destruct (Includes s (Addr v)) eqn:E.
  - apply Includes_spec in E. naive_solver.
  - apply Includes_false in E. naive_solver.
Qed.

Lemma Del_spec s v s' :
  Del s v = Returns s' ↔
  vType v = vsType s ∧ ∃ l1 w l2, vsVals s = l1 ++ w :: l2 ∧ Addr w = Addr v ∧ Addr v ∉ Addr <$> l1 ∧
    s' = mkSet (vsType s) (l1 ++ l2).
Proof.
  unfold Del. case_bool_decide as Ht; simpl; [|naive_solver]. unfold Index.
  destruct (index_loop_spec (vsVals s) (Addr v) 0 ltac:(lia)) as [[-> Hn]|(l1 & w & l2 & E & Hw & Hn & ->)].
  - simpl. split; [done|]. intros (_ & l1 & w & l2 & E & Hw & _). destruct Hn.
    rewrite E, fmap_app, fmap_cons, <- Hw. apply elem_of_app. right. apply list_elem_of_here.
  - rewrite (proj2 (Z.eqb_neq _ _)), E by (unfold zlen; lia).
    replace (Z.to_nat (0 + zlen l1)) with (length l1) by (unfold zlen; lia).
    replace (Z.to_nat (0 + zlen l1 + 1)) with (length (l1 ++ [w]) + 0)%nat
      by (unfold zlen; rewrite length_app; simpl; lia).
    rewrite take_app_length. replace (l1 ++ w :: l2) with ((l1 ++ [w]) ++ l2) by by rewrite <- app_assoc.
    rewrite drop_app_add. cbn [drop]. rewrite <- app_assoc. split.
    + intros [= <-]. split; [done|]. by exists l1, w, l2.
    + intros (_ & l1' & w' & l2' & E' & Hw' & Hn' & ->). f_equal. f_equal.
      change ([w] ++ l2) with (w :: l2) in E'. revert l1' Hn' E'. clear E Ht. revert Hn.
      induction l1 as [|u l1 IH]; intros Hn l1' Hn' E'; destruct l1' as [|u' l1']; simplify_eq/=; [done| | |].
      * destruct Hn'. rewrite Hw. apply list_elem_of_here.
      * destruct Hn. rewrite Hw'. apply list_elem_of_here.
      * f_equal. apply not_elem_of_cons in Hn as [_ Hn]. apply not_elem_of_cons in Hn' as [_ Hn']. by apply IH.
Qed.

Lemma Add_ok s v s' : set_ok s → Add s v = Returns s' → set_ok s' ∧ addrs s' = addrs s ++ [Addr v].
Proof.
  intros [Ht Hn] (Hv & Hi & ->)%Add_spec. unfold set_ok, addrs in *; simpl. rewrite !fmap_app. simpl.
  repeat split; [apply Forall_app; split; [done|by repeat constructor]|].
  apply NoDup_app. split; [done|]. split; [|apply NoDup_singleton].
  intros a Ha ->%list_elem_of_singleton. done.
Qed.

Lemma Del_ok s v s' :
  set_ok s → Del s v = Returns s' → set_ok s' ∧ addrs s ≡ₚ Addr v :: addrs s'.
Proof.
  intros [Ht Hn] (Hv & l1 & w & l2 & E & Hw & Hi & ->)%Del_spec. unfold set_ok, addrs in *; simpl.
  rewrite E in Ht, Hn |- *. rewrite fmap_app, fmap_cons in Hn. rewrite !fmap_app, fmap_cons, Hw. repeat split.
  - apply Forall_app in Ht as [? Ht]. apply Forall_app. split; [done|]. by apply Forall_cons in Ht as [_ ?].
  - assert (Addr w :: (Addr <$> l1) ++ (Addr <$> l2) ≡ₚ (Addr <$> l1) ++ Addr w :: (Addr <$> l2)) as Hp
      by apply Permutation_middle.
    rewrite <- Hp in Hn. by apply NoDup_cons in Hn as [_ Hn].
  - by rewrite Permutation_middle.
Qed.

Lemma Del_total s v : vType v = vsType s → Addr v ∈ addrs s → ∃ s', Del s v = Returns s'.
Proof.
  intros Ht Ha. unfold Del. rewrite bool_decide_true by done. cbn [negb].
  apply Includes_spec in Ha. unfold Includes in Ha. destruct (Index s (Addr v) =? -1); [done|]. by eexists.
Qed.

Lemma Add_total s v : vType v = vsType s → Addr v ∉ addrs s → ∃ s', Add s v = Returns s'.
Proof. intros Ht Ha. eexists. by apply Add_spec. Qed.

Lemma merge_loop_spec l s :
  set_ok s → Forall (λ v, vType v = vsType s) l →
  ∃ s', merge_loop s l = Returns s' ∧ set_ok s' ∧ vsType s' = vsType s ∧
    ∀ a, a ∈ addrs s' ↔ a ∈ addrs s ∨ a ∈ Addr <$> l.
Proof.
  revert s. induction l as [|v l IH]; intros s Hs Hl; simpl.
  - exists s. repeat split; [apply Hs..| |]; [naive_solver|]. intros [?|[]%elem_of_nil]; done.
  - apply Forall_cons in Hl as [Hv Hl]. destruct (Includes s (Addr v)) eqn:Ei.
    + destruct (IH s Hs Hl) as (s' & E & Hok & Ht & Ha). exists s'. repeat split; [done|apply Hok..|done| |].
      * intros [?|?]%Ha; [by left|]. right. by apply list_elem_of_further.
      * intros [?|[->|?]%elem_of_cons]; apply Ha; [by left| |by right]. left. by apply Includes_spec.
    + destruct (Add_total s v Hv) as [s1 E1]; [by apply Includes_false|]. rewrite E1. cbn.
      destruct (Add_ok s v s1 Hs E1) as [Hok1 Ha1]. assert (vsType s1 = vsType s) as Ht1.
      { apply Add_spec in E1 as (_ & _ & ->). done. }
      destruct (IH s1) as (s' & E & Hok & Ht & Ha); [done|by rewrite Ht1|].
      exists s'. repeat split; [done|apply Hok..|by rewrite Ht| |].
      * rewrite Ha, Ha1, elem_of_app, list_elem_of_singleton, elem_of_cons. tauto.
      * rewrite Ha, Ha1, elem_of_app, list_elem_of_singleton, elem_of_cons. tauto.
Qed.

(** Merging two sets of a kind never fails, keeps the invariant, and gives
    the union of the addresses. *)
Lemma Merge_spec s ss :
  set_ok s → set_ok ss → vsType s = vsType ss →
  ∃ s', Merge s ss = Returns s' ∧ set_ok s' ∧ ∀ a, a ∈ addrs s' ↔ a ∈ addrs s ∨ a ∈ addrs ss.
Proof.
  intros Hs [Ht Hn] E. unfold Merge. rewrite bool_decide_true by done. cbn [negb].
  destruct (merge_loop_spec (vsVals ss) s) as (s' & Em & Hok & _ & Ha); [done|by rewrite E|].
  by exists s'.
Qed.

(** ** Text *)

(** A validator whose fields are byte strings of the right length. *)
Definition validator_ok (v : Validator) : Prop :=
  addr_ok (Addr v) ∧ match v with ECDSAValidator _ => True | BLSValidator _ k => bytes_ok k end.

(** A set of one of the two kinds, of well-formed validators. *)
Definition vset_ok (s : VSet) : Prop :=
  set_ok s ∧ Forall validator_ok (vsVals s) ∧ (vsType s = ECDSAValidatorType ∨ vsType s = BLSValidatorType).

Lemma SplitByte_none s sep : sep ∉ s → SplitByte s sep = [s].
Proof.
  induction s as [|c s IH]; intros Hs; [done|]. apply not_elem_of_cons in Hs as [Hc Hs]. simpl.
  rewrite (proj2 (Z.eqb_neq _ _)) by done. by rewrite IH.
Qed.

Lemma SplitByte_one s k sep : sep ∉ s → sep ∉ k → SplitByte (s ++ sep :: k) sep = [s; k].
Proof.
  intros Hs Hk. induction s as [|c s IH]; simpl.
  - rewrite Z.eqb_refl. by rewrite SplitByte_none.
  - apply not_elem_of_cons in Hs as [Hc Hs]. rewrite (proj2 (Z.eqb_neq _ _)) by done. by rewrite IH.
Qed.

Lemma spells_no_colon b s : spells b s → 58 ∉ prefix0x ++ s.
Proof.
  intros Hs. apply not_elem_of_app. split; [by vm_compute; inversion 1 as [|? ? ? Hi]; inversion Hi as [|? ? ? Hj]; inversion Hj|].
  induction Hs as [|x p q b s Hp Hq _ IH]; [apply not_elem_of_nil|].
  rewrite !not_elem_of_cons. repeat split; [by intros <-..|done].
Qed.

Section text.
Context `{Keccak}.

Lemma ParseBLSValidator_String a k :
  addr_ok a → bytes_ok k → ParseBLSValidator (Validator_String (BLSValidator a k)) = Returns (BLSValidator a k).
Proof.
  intros Ha Hk. destruct (checksum_spells a Ha) as (s & Hs & Es). destruct Ha as [Hl _].
  unfold ParseBLSValidator, Validator_String. rewrite Es. change (lit ":") with [58]. cbn [app].
  unfold EncodeToHex. rewrite SplitByte_one by (eapply spells_no_colon; (done || by apply spells_encode)).
  rewrite TrimPrefix_app, (DecodeString_spells _ _ Hs), TrimPrefix_app, DecodeString_EncodeToString by done.
  cbn [negb]. unfold BytesToAddress. by rewrite right_align_full.
Qed.

Lemma ParseValidator_String v :
  validator_ok v → ParseValidator (vType v) (Validator_String v) = Returns v.
Proof.
  intros [Ha Hk]. destruct v as [a|a k]; unfold ParseValidator; simpl in *.
  - unfold ParseECDSAValidator. by rewrite StringToAddress_String.
  - by rewrite <- (ParseBLSValidator_String a k).
Qed.

Lemma parse_loop_String l s :
  set_ok (mkSet (vsType s) (vsVals s ++ l)) → Forall validator_ok l →
  parse_loop (vsType s) (Validator_String <$> l) s = Returns (mkSet (vsType s) (vsVals s ++ l)).
Proof.
  revert s. induction l as [|v l IH]; intros s [Ht Hn] Hl; simpl in *.
  - rewrite app_nil_r. by destruct s.
  - apply Forall_cons in Hl as [Hv Hl].
    assert (vType v = vsType s) as Hvt.
    { apply Forall_app in Ht as [_ Ht]. by apply Forall_cons in Ht as [? _]. }
    rewrite <- Hvt at 1. rewrite ParseValidator_String by done. cbn [mbind result_bind].
    rewrite (proj2 (Add_spec s v (mkSet (vsType s) (vsVals s ++ [v])))); [cbn [mbind result_bind]|].
    + etransitivity; [apply (IH (mkSet (vsType s) (vsVals s ++ [v]))); [|done]|]; simpl; by rewrite <- app_assoc.
    + repeat split; [done|]. rewrite fmap_app, fmap_cons in Hn. apply NoDup_app in Hn as (_ & Hn & _).
      intros Hi. apply (Hn _ Hi). apply list_elem_of_here.
Qed.

Lemma ParseValidators_String s :
  vset_ok s → ParseValidators (vsType s) (Validator_String <$> vsVals s) = Returns s.
Proof.
  intros (Hok & Hv & Ht). unfold ParseValidators.
  assert (NewValidatorSetFromType (vsType s) = Some (mkSet (vsType s) [])) as ->.
  { destruct Ht as [-> | ->]; by vm_compute. }
  destruct s as [t l]. by apply (parse_loop_String l (mkSet t [])).
Qed.

End text.

(** ** RLP *)

Lemma NewValidatorFromType_type t v : NewValidatorFromType t = Returns v → vType v = t.
Proof.
  unfold NewValidatorFromType. case_bool_decide; [naive_solver|]. case_bool_decide; naive_solver.
Qed.

Section rlp_laws.
Context `{RlpLaws}.

Lemma Validator_rlp v r :
  validator_ok v → vType r = vType v →
  Validator_UnmarshalRLPFrom r (Validator_MarshalRLPWith v) = Returns v.
Proof.
  intros [[Hl _] _] Ht. destruct v as [a|a k], r as [a'|a' k']; try discriminate Ht; simpl in *.
  - by rewrite (fixed_ok 20).
  - rewrite elems_array. cbn. by rewrite (fixed_ok 20), bytes_bytes by done.
Qed.

Lemma SetFromBytes_Bytes v r :
  validator_ok v → vType r = vType v → SetFromBytes r (Validator_Bytes v) = Returns v.
Proof.
  intros Hv Ht. destruct v as [a|a k], r as [a'|a' k']; try discriminate Ht; simpl.
  - unfold BytesToAddress. rewrite right_align_full; [done|apply Hv].
  - rewrite parse_marshal. exact (Validator_rlp (BLSValidator a k) (BLSValidator a' k') Hv eq_refl).
Qed.

Lemma unmarshal_all_ok t l :
  (t = ECDSAValidatorType ∨ t = BLSValidatorType) → Forall (λ v, vType v = t) l → Forall validator_ok l →
  unmarshal_all t (Validator_MarshalRLPWith <$> l) = Returns l.
Proof.
  intros Hk Ht Hv. assert (∃ r, NewValidatorFromType t = Returns r) as [r Hr].
  { destruct Hk as [-> | ->]; by eexists. }
  induction l as [|v l IH]; [done|]. apply Forall_cons in Ht as [Ht ?]. apply Forall_cons in Hv as [Hv ?].
  rewrite fmap_cons. cbn [unmarshal_all]. rewrite Hr. cbn [mbind result_bind]. rewrite Validator_rlp; [|done|].
  - cbn [mbind result_bind]. by rewrite IH.
  - by rewrite (NewValidatorFromType_type t r).
Qed.

Lemma Set_rlp s :
  vset_ok s → Set_UnmarshalRLPFrom (mkSet (vsType s) []) (Set_MarshalRLPWith s) = Returns s.
Proof.
  intros ([Ht _] & Hv & Hk). unfold Set_UnmarshalRLPFrom, Set_MarshalRLPWith.
  rewrite elems_array. cbn [or_error mbind result_bind vsType].
  rewrite unmarshal_all_ok by done. cbn. by destruct s.
Qed.

End rlp_laws.
