(* ===== verification/Quorum.v ===== *)
(** * Quorums and proposers of IBFT (consensus/ibft/validators.go)

    [OptimalQuorumSize] goes through [float64]: a positive float is a
    significand of 53 bits and an exponent, and each operation rounds its
    exact result to the nearest, ties to even. The sizes of validator sets
    stay far from the ends of the exponent range, so overflow and subnormal
    numbers do not occur. *)

From S2P Require Import Prelude BigInt Types Rlp BlockTypes Hex Result Validators ValidatorsProps.

Definition CalcMaxFaultyNodes (s : VSet) : Z := Z.quot (Len s - 1) 3.

Definition LegacyQuorumSize (set : VSet) : Z := 2 * CalcMaxFaultyNodes set + 1.

(** ** float64 *)

(** The integer nearest to [p / q]. *)
Definition round_half_even (p q : Z) : Z :=
  let d := p / q in
  let r := p mod q in
  if 2 * r <? q then d else if q <? 2 * r then d + 1 else if Z.even d then d else d + 1.

(** [fm * 2 ^ fe] *)
Record float64 := Float { fm : Z; fe : Z }.

(** The float nearest to [p / q], for [q ≤ p]. *)
Definition round53 (p q : Z) : float64 :=
  let e := Z.log2 (p / q) - 52 in
  Float (if e <? 0 then round_half_even (p * 2 ^ (- e)) q else round_half_even p (q * 2 ^ e)) e.

Definition float_num (x : float64) : Z := if fe x <? 0 then fm x else fm x * 2 ^ fe x.
Definition float_den (x : float64) : Z := if fe x <? 0 then 2 ^ (- fe x) else 1.

(** [float64(n)], [2 * x], [x / k] and [math.Ceil(x)] *)
Definition float_of_int (n : Z) : float64 := round53 n 1.
Definition float_double (x : float64) : float64 := Float (fm x) (fe x + 1).
Definition float_div (x : float64) (k : Z) : float64 := round53 (float_num x) (float_den x * k).
Definition float_ceil (x : float64) : Z := - (- float_num x / float_den x).

Definition OptimalQuorumSize (set : VSet) : Z :=
  if CalcMaxFaultyNodes set =? 0 then Len set
  else i64 (float_ceil (float_div (float_double (float_of_int (Len set))) 3)).

(** [None] is a panic: the division by the length of an empty set. *)
Definition CalcProposer (s : VSet) (round : Z) (lastProposer : Address) : option Validator :=
  let seed :=
    if bool_decide (lastProposer = ZeroAddress) then round
    else
      let index := Index s lastProposer in
      let offset := if index =? -1 then 0 else index in
      u64 (u64 (u64 offset + round) + 1) in
  if Len s =? 0 then None else Set_At s (seed mod Len s).

(** ** The quorum size *)

(** Rounding moves a value by at most a half. *)
Lemma round_half_even_bound p q : 0 < q → 2 * Z.abs (round_half_even p q * q - p) ≤ q.
Proof.
  intros Hq. unfold round_half_even. pose proof (Z.div_mod p q ltac:(lia)) as E.
  pose proof (Z.mod_pos_bound p q Hq) as Hr. set (r := p mod q) in *. set (d := p / q) in *.
  destruct (Z.ltb_spec (2 * r) q); [nia|]. destruct (Z.ltb_spec q (2 * r)); [nia|]. destruct (Z.even d); nia.
Qed.

Lemma round_half_even_exact d q : 0 < q → round_half_even (d * q) q = d.
Proof. intros Hq. unfold round_half_even. rewrite Z.div_mul, Z.mod_mul, (proj2 (Z.ltb_lt _ _)) by lia. done. Qed.

Lemma log2_lt n k : 0 < n < 2 ^ k → 0 ≤ Z.log2 n < k.
Proof. intros Hn. split; [apply Z.log2_nonneg|]. apply Z.log2_lt_pow2; lia. Qed.

(** Doubling an exactly represented integer. *)
Lemma float_double_of_int n :
  0 < n < 2 ^ 50 →
  let x := float_double (float_of_int n) in 0 < float_den x ∧ float_num x = 2 * n * float_den x.
Proof.
  intros Hn x. pose proof (log2_lt n 50 Hn) as Hl.
  assert (fe x = Z.log2 n - 51) as He.
  { unfold x, float_double, float_of_int, round53; simpl. rewrite Z.div_1_r. lia. }
  assert (fm x = n * 2 ^ (52 - Z.log2 n)) as Hm.
  { unfold x, float_double, float_of_int, round53; simpl. rewrite Z.div_1_r.
    rewrite (proj2 (Z.ltb_lt _ _)) by lia. rewrite <- (Z.mul_1_r (n * _)), round_half_even_exact by lia.
    f_equal. f_equal. lia. }
  unfold float_num, float_den. rewrite He, Hm. rewrite (proj2 (Z.ltb_lt _ _)) by lia.
  split; [apply Z.pow_pos_nonneg; lia|].
  replace (52 - Z.log2 n) with (Z.succ (- (Z.log2 n - 51))) by lia. rewrite Z.pow_succ_r by lia. lia.
Qed.

(** The ceiling of a rounded third is the ceiling of the third. *)
Lemma ceil_round53_third p q n :
  4 ≤ n < 2 ^ 50 → 0 < q → p = 2 * n * q → float_ceil (round53 p (q * 3)) = - (- (2 * n) / 3).
Proof.
  intros Hn Hq Hp. assert (p / (q * 3) = 2 * n / 3) as Hd.
  { rewrite Hp, (Z.mul_comm q), Z.div_mul_cancel_r by lia. done. }
  assert (0 < 2 * n / 3 < 2 ^ 50) as Hb.
  { split; [apply Z.div_str_pos; lia|apply Z.div_lt_upper_bound; lia]. }
  pose proof (log2_lt _ _ Hb) as Hl. set (K := 52 - Z.log2 (2 * n / 3)).
  assert (2 ≤ 2 ^ K) as HK by (change 2 with (2 ^ 1) at 1; apply Z.pow_le_mono_r; lia).
  unfold round53. rewrite Hd. replace (Z.log2 (2 * n / 3) - 52) with (- K) by lia.
  rewrite (proj2 (Z.ltb_lt _ _)) by lia. rewrite Z.opp_involutive.
  pose proof (round_half_even_bound (p * 2 ^ K) (q * 3) ltac:(lia)) as Hm.
  set (m := round_half_even _ _) in *. assert (Z.abs (3 * m - 2 * n * 2 ^ K) ≤ 1) as Hm3.
  { replace (m * (q * 3) - p * 2 ^ K) with (q * (3 * m - 2 * n * 2 ^ K)) in Hm by (rewrite Hp; ring).
    rewrite Z.abs_mul, (Z.abs_eq q) in Hm by lia. nia. }
  unfold float_ceil, float_num, float_den; simpl. rewrite (proj2 (Z.ltb_lt _ _)) by lia.
  rewrite Z.opp_involutive. f_equal. set (c := - (2 * n) / 3).
  pose proof (Z.div_mod (- (2 * n)) 3 ltac:(lia)) as Ec. fold c in Ec.
  pose proof (Z.mod_pos_bound (- (2 * n)) 3 ltac:(lia)) as Hr.
  symmetry. apply Z.div_unique with (r := - m - 2 ^ K * c); [left|lia]. nia.
Qed.

Lemma Len_nonneg s : 0 ≤ Len s.
Proof. unfold Len, zlen. lia. Qed.

Lemma CalcMaxFaultyNodes_div s : 0 < Len s → CalcMaxFaultyNodes s = (Len s - 1) / 3.
Proof. intros. unfold CalcMaxFaultyNodes. apply Z.quot_div_nonneg; lia. Qed.

(** The detour through floats computes the ceiling of two thirds. *)
Lemma OptimalQuorumSize_eq s :
  0 < Len s < 2 ^ 50 → OptimalQuorumSize s = if Len s <? 4 then Len s else - (- (2 * Len s) / 3).
Proof.
  intros Hn. unfold OptimalQuorumSize. rewrite CalcMaxFaultyNodes_div by lia.
  destruct (Z.ltb_spec (Len s) 4).
  - rewrite (Z.div_small (Len s - 1) 3) by lia. done.
  - assert (0 < (Len s - 1) / 3) by (apply Z.div_str_pos; lia).
    rewrite (proj2 (Z.eqb_neq _ _)) by lia. unfold float_div.
    destruct (float_double_of_int (Len s)) as [Hd Hx]; [lia|].
    rewrite (ceil_round53_third _ _ (Len s)) by done || lia.
    apply i64_small. assert (- (2 * Len s) / 3 < 0) by (apply Z.div_lt_upper_bound; lia).
    assert (- (2 * Len s) ≤ - (2 * Len s) / 3) by (apply Z.div_le_lower_bound; lia). lia.
Qed.

(** The three inequalities a quorum size must satisfy. *)
Lemma optimal_quorum_bounds s :
  0 < Len s < 2 ^ 50 →
  let q := OptimalQuorumSize s in let f := CalcMaxFaultyNodes s in
  Len s + f < 2 * q ∧ q ≤ Len s - f ∧ 3 * f < Len s.
Proof.
  intros Hn. cbn zeta. rewrite OptimalQuorumSize_eq, CalcMaxFaultyNodes_div by lia.
  pose proof (Z.div_mod (Len s - 1) 3 ltac:(lia)). pose proof (Z.mod_pos_bound (Len s - 1) 3 ltac:(lia)).
  destruct (Z.ltb_spec (Len s) 4); [lia|].
  pose proof (Z.div_mod (- (2 * Len s)) 3 ltac:(lia)). pose proof (Z.mod_pos_bound (- (2 * Len s)) 3 ltac:(lia)).
  lia.
Qed.

(** Two duplicate-free lists of members overlap by at least the excess of
    their sizes over the size of the whole. *)
Lemma overlap {A} `{EqDecision A} (l k whole : list A) :
  NoDup l → NoDup k → (∀ a, a ∈ l → a ∈ whole) → (∀ a, a ∈ k → a ∈ whole) →
  zlen l + zlen k - zlen whole ≤ zlen (filter (λ a, a ∈ k) l).
Proof.
  intros Hl Hk Hlw Hkw.
  assert (zlen l = zlen (filter (λ a, a ∈ k) l) + zlen (filter (λ a, a ∉ k) l)) as ->.
  { unfold zlen. clear. induction l as [|a l IH]; [done|]. rewrite !filter_cons.
    destruct (decide (a ∈ k)); [rewrite (decide_False (P:=a ∉ k)) by tauto|rewrite (decide_True (P:=a ∉ k)) by done];
      cbn [length]; lia. }
  assert (NoDup (filter (λ a, a ∉ k) l ++ k)) as Hnd.
  { apply NoDup_app. split; [by apply NoDup_filter|]. split; [|done].
    intros a [Ha _]%list_elem_of_filter. done. }
  assert (length (filter (λ a, a ∉ k) l ++ k) ≤ length whole)%nat as Hle.
  { apply submseteq_length, NoDup_submseteq; [done|].
    intros a [[_ Ha]%list_elem_of_filter|Ha]%elem_of_app; auto. }
  rewrite length_app in Hle. unfold zlen. lia.
Qed.

(** Two quorums of validators share more members than can be faulty, so
    at least one honest one; and a quorum can be formed without the faulty
    ones. A quorum is a duplicate-free list of at least [OptimalQuorumSize]
    member addresses, the faulty ones are at most [CalcMaxFaultyNodes], less
    than a third of the set. *)
Theorem quorum_intersection (s : VSet) (A B : list Address) :
  0 < Len s < 2 ^ 50 →
  NoDup A → NoDup B → (∀ a, a ∈ A → a ∈ addrs s) → (∀ a, a ∈ B → a ∈ addrs s) →
  OptimalQuorumSize s ≤ zlen A → OptimalQuorumSize s ≤ zlen B →
  CalcMaxFaultyNodes s < zlen (filter (λ a, a ∈ B) A) ∧
  OptimalQuorumSize s ≤ Len s - CalcMaxFaultyNodes s ∧ 3 * CalcMaxFaultyNodes s < Len s.
Proof.
  intros Hn HA HB HAs HBs HqA HqB. pose proof (optimal_quorum_bounds s Hn) as (H1 & H2 & H3).
  split; [|done]. pose proof (overlap A B (addrs s) HA HB HAs HBs) as Ho.
  assert (zlen (addrs s) = Len s) as E by (unfold zlen, addrs, Len, zlen; by rewrite length_fmap). lia.
Qed.

(** ** The proposer *)

(** The seed of a round, when it does not wrap around. *)
Definition proposer_offset (s : VSet) (lastProposer : Address) : Z :=
  if bool_decide (lastProposer = ZeroAddress) then 0
  else if Index s lastProposer =? -1 then 1 else Index s lastProposer + 1.

Lemma Index_range s a : -1 ≤ Index s a < Len s.
Proof.
  unfold Index, Len. destruct (index_loop_spec (vsVals s) a 0 ltac:(lia)) as [[-> _]|(l1 & w & l2 & E & _ & _ & ->)].
  - unfold zlen; lia.
  - rewrite E. unfold zlen. rewrite length_app. simpl. lia.
Qed.

Lemma CalcProposer_eq s round last :
  0 < Len s → 0 ≤ round → round + Len s < 2 ^ 64 →
  CalcProposer s round last = vsVals s !! Z.to_nat ((proposer_offset s last + round) mod Len s).
Proof.
  intros Hl Hr Hb. pose proof (Index_range s last) as Hi. unfold CalcProposer, proposer_offset, Set_At.
  rewrite (proj2 (Z.eqb_neq (Len s) 0)) by lia. case_bool_decide; [by rewrite Z.add_0_l|].
  assert (∀ o, 0 ≤ o < Len s → u64 (u64 (u64 o + round) + 1) = o + 1 + round) as Hu.
  { intros o Hok. rewrite (u64_small o), (u64_small (o + round)), u64_small by lia. lia. }
  destruct (Z.eqb_spec (Index s last) (-1)); rewrite Hu by lia; [|done]. by rewrite Z.add_0_l.
Qed.

(** Reading a list cyclically from a position is rotating it. *)
Lemma rotation {A} (l : list A) (k i : nat) :
  (i < length l)%nat → (k < length l)%nat →
  l !! ((k + i) mod length l)%nat = (drop k l ++ take k l) !! i.
Proof.
  intros Hi Hk. destruct (decide (k + i < length l)%nat).
  - rewrite Nat.mod_small by done. rewrite lookup_app_l by (rewrite length_drop; lia). by rewrite lookup_drop.
  - replace (k + i)%nat with ((k + i - length l) + 1 * length l)%nat by lia.
    rewrite Nat.Div0.mod_add, Nat.mod_small by lia.
    rewrite lookup_app_r by (rewrite length_drop; lia). rewrite length_drop, lookup_take_lt by lia.
    f_equal. lia.
Qed.

(** C27. The proposers of as many consecutive rounds as there are validators
    are the validators in their order, starting from some position: every
    validator gets its turn exactly once. In the first round after a block
    with a known proposer the position is the one after that proposer. *)
Theorem proposer_round_robin (s : VSet) (round : Z) (last : Address) :
  0 < Len s → 0 ≤ round → round + 2 * Len s < 2 ^ 64 →
  ∃ k, (k < length (vsVals s))%nat ∧
    ((λ i, CalcProposer s (round + i) last) <$> seqZ 0 (Len s)) =
      Some <$> drop k (vsVals s) ++ take k (vsVals s) ∧
    (∀ i v, round = 0 → last ≠ ZeroAddress → vsVals s !! i = Some v → Index s last = Z.of_nat i →
       k = ((i + 1) mod length (vsVals s))%nat).
Proof.
  intros Hl Hr Hb. set (n := length (vsVals s)). assert (Len s = Z.of_nat n) as En by done.
  assert (0 ≤ proposer_offset s last) as Ho.
  { unfold proposer_offset. pose proof (Index_range s last). case_bool_decide; [lia|]. case_match; lia. }
  set (k := Z.to_nat ((proposer_offset s last + round) mod Len s)).
  pose proof (Z.mod_pos_bound (proposer_offset s last + round) (Len s) Hl) as Hm.
  exists k. split; [lia|]. split.
  - apply list_eq. intros i. rewrite list_lookup_fmap. destruct (decide (i < n)%nat) as [Hi|Hi].
    + rewrite lookup_seqZ_lt by lia. cbn [fmap option_fmap option_map].
      rewrite CalcProposer_eq by lia. rewrite list_lookup_fmap, <- (rotation (vsVals s) k i) by (fold n; lia).
      fold n. replace (Z.to_nat ((proposer_offset s last + (round + (0 + Z.of_nat i))) mod Len s))
        with ((k + i) mod n)%nat.
      * destruct (lookup_lt_is_Some_2 (vsVals s) ((k + i) mod n)) as [v Hv]; [apply Nat.mod_upper_bound; lia|].
        by rewrite Hv.
      * apply Nat2Z.inj. rewrite Nat2Z.inj_mod, Nat2Z.inj_add, <- En. unfold k.
        pose proof (Z.mod_pos_bound (proposer_offset s last + (round + (0 + Z.of_nat i))) (Len s) Hl).
        rewrite !Z2Nat.id, Z.add_mod_idemp_l by lia. f_equal. lia.
    + rewrite lookup_seqZ_ge by lia. symmetry. apply lookup_ge_None_2.
      rewrite length_fmap, length_app, length_drop, length_take. fold n. lia.
  - intros i v -> Hz Hv Hidx. unfold k, proposer_offset. rewrite bool_decide_false by done.
    rewrite (proj2 (Z.eqb_neq _ _)) by lia. apply Nat2Z.inj.
    rewrite Z2Nat.id by (apply Z.mod_pos_bound; lia). rewrite Nat2Z.inj_mod, <- En. f_equal. lia.
Qed.

(** ** Examples *)

(** [n] validators with the addresses 1, 2, ... *)
Definition demo_set (n : nat) : VSet := NewECDSAValidatorSet ((λ i, be_encode 20 (Z.of_nat i)) <$> seq 1 n).

(** The legacy quorum of 6 validators is 3: two quorums can be disjoint,
    although one validator may be faulty. *)
Lemma legacy_quorums_disjoint :
  LegacyQuorumSize (demo_set 6) = 3 ∧
  filter (λ a, a ∈ drop 3 (addrs (demo_set 6))) (take 3 (addrs (demo_set 6))) = [].
Proof. split; by vm_compute. Qed.

Lemma quorum_intersection_witness :
  let s := demo_set 4 in
  CalcMaxFaultyNodes s < zlen (filter (λ a, a ∈ drop 1 (addrs s)) (take 3 (addrs s))) ∧
  OptimalQuorumSize s ≤ Len s - CalcMaxFaultyNodes s ∧ 3 * CalcMaxFaultyNodes s < Len s.
Proof.
  cbn zeta. apply (quorum_intersection (demo_set 4)).
  - vm_compute. by split.
  - apply (bool_decide_eq_true_1 (NoDup _)). by vm_compute.
  - apply (bool_decide_eq_true_1 (NoDup _)). by vm_compute.
  - intros a Ha. rewrite <- (take_drop 3 (addrs (demo_set 4))). apply elem_of_app. by left.
  - intros a Ha. rewrite <- (take_drop 1 (addrs (demo_set 4))). apply elem_of_app. by right.
  - by vm_compute.
  - by vm_compute.
Defined.

Lemma proposer_round_robin_witness :
  let s := demo_set 4 in
  ∃ k, (k < length (vsVals s))%nat ∧
    ((λ i, CalcProposer s (0 + i) (be_encode 20 2)) <$> seqZ 0 (Len s)) =
      Some <$> drop k (vsVals s) ++ take k (vsVals s) ∧
    (∀ i v, 0 = 0 → be_encode 20 2 ≠ ZeroAddress → vsVals s !! i = Some v →
       Index s (be_encode 20 2) = Z.of_nat i → k = ((i + 1) mod length (vsVals s))%nat).
Proof. apply (proposer_round_robin (demo_set 4) 0 (be_encode 20 2)); by vm_compute. Defined.
