(* ===== verification/Crypto.v ===== *)
(** * Signatures of transactions (crypto/crypto.go, crypto/txsigner.go)

    Recovery of the sender of a transaction from its signature, with and
    without the chain id of EIP155. The curve operations of btcec are the
    parameter [Secp256k1]; what the node does around them, the bytes of [R],
    [S] and [V] and the checks on them, is here. *)

From S2P Require Import Prelude BigInt Types Rlp BlockTypes Hex Result Chain.
#[local] Open Scope Z_scope.

Class Secp256k1 := {
  privkey : Type;
  pubkey : Type;
  public : privkey → pubkey;                           (** the field [PublicKey] *)
  MarshalPublicKey : pubkey → list Z;                  (** [elliptic.Marshal] *)
  SignCompact : privkey → list Z → option (list Z);    (** [btcec.SignCompact], uncompressed *)
  RecoverCompact : list Z → list Z → option pubkey;    (** [btcec.RecoverCompact] *)
}.

(** A compact signature is a header byte and [R] and [S], 32 bytes each, and
    the key that made it is recovered from it. *)
Class Secp256k1Laws `{Secp256k1} : Prop := {
  SignCompact_form k h sig : SignCompact k h = Some sig → length sig = 65%nat ∧ bytes_ok sig;
  RecoverCompact_sign k h sig : SignCompact k h = Some sig → RecoverCompact sig h = Some (public k);
}.

(** ** crypto.go *)

(** [bytes.Compare] *)
Fixpoint bytes_Compare (a b : list Z) : comparison :=
  match a, b with
  | [], [] => Eq
  | [], _ => Lt
  | _, [] => Gt
  | x :: a, y :: b => match x ?= y with Eq => bytes_Compare a b | c => c end
  end.

Definition secp256k1N_int : Z := 0xfffffffffffffffffffffffffffffffebaaedce6af48a03bbfd25e8cd0364141.
Definition secp256k1N : list Z := be_encode 32 secp256k1N_int.
Definition one : list Z := [1].

(** The loop variable stays at the last index when all bytes are zero. *)
Fixpoint trimLeftZeros (b : list Z) : list Z :=
  match b with
  | [] => []
  | [x] => [x]
  | x :: b' => if x =? 0 then trimLeftZeros b' else b
  end.

(** The check of [R] and of [S]. *)
Definition validScalar (x : Z) : bool :=
  let b := trimLeftZeros (Bytes x) in
  match bytes_Compare b secp256k1N with
  | Lt => match bytes_Compare b one with Lt => false | _ => true end
  | _ => false
  end.

Definition ValidateSignatureValues (v : Z) (r s : option Z) : bool :=
  match r, s with
  | Some r, Some s => if 1 <? v then false else validScalar r && validScalar s
  | _, _ => false
  end.

(** ** Recovering and signing *)
Section signing.
Context `{Keccak, Rlp, Secp256k1}.

(** [None] is an error. *)
Definition RecoverPubkey (signature hash : list Z) : option pubkey :=
  match last signature with
  | None => None
  | Some l =>
      let term := if l =? 1 then 28 else 27 in
      RecoverCompact (term :: take (length signature - 1) signature) hash
  end.

Definition Ecrecover (hash sig : list Z) : option (list Z) :=
  pub ← RecoverPubkey sig hash; Some (MarshalPublicKey pub).

(** A signature from the library has a first byte. *)
Definition Sign (priv : privkey) (hash : list Z) : option (list Z) :=
  sig ← SignCompact priv hash;
  let term := if bool_decide (head sig = Some 28) then 1 else 0 in
  Some (drop 1 (sig ++ [term])).

Definition PubKeyToAddress (pub : pubkey) : Address :=
  BytesToAddress (drop 12 (keccak256 (drop 1 (MarshalPublicKey pub)))).

(** ** txsigner.go *)

Definition calcTxHash (tx : Transaction) (chainID : Z) : Hash :=
  BytesToHash (keccak256 (rlp_raw (rlp_array (
    [rlp_uint (tNonce tx); rlp_bigint (tGasPrice tx); rlp_uint (tGas tx);
     match tTo tx with None => rlp_null | Some to => rlp_bytes to end;
     rlp_bigint (tValue tx); rlp_bytes (tInput tx)]
    ++ if negb (chainID =? 0) then [rlp_uint chainID; rlp_uint 0; rlp_uint 0] else [])))).

(** The slice [sig[n-len(b):n]] panics for a longer [b]. *)
Definition encodeSignature (R S : option Z) (V : Z) : result unit (list Z) :=
  if negb (ValidateSignatureValues V R S) then Errors tt else
  let r := Bytes (default 0 R) in
  let s := Bytes (default 0 S) in
  if (32 <? zlen r) || (32 <? zlen s) then Panics else
  Returns (replicate (32 - length r) 0 ++ r ++ replicate (32 - length s) 0 ++ s ++ [V]).

(** The common end of both [Sender] methods. *)
Definition senderOf (hash : Hash) (tx : Transaction) (V : Z) : result unit Address :=
  sig ← encodeSignature (tR tx) (tS tx) V;
  pub ← or_error tt (Ecrecover hash sig);
  Returns (BytesToAddress (drop 12 (keccak256 (drop 1 pub)))).

(** [byte(x.Int64())] *)
Definition byteOf (x : Z) : Z := Int64 x mod 256.

(** [refV.SetBytes(tx.V.Bytes())], 0 for nil. *)
Definition refV (tx : Transaction) : Z := SetBytes (Bytes (default 0 (tV tx))).

Definition set_signature (v r s : Z) (tx : Transaction) : Transaction :=
  mkTx (tNonce tx) (tGasPrice tx) (tGas tx) (tTo tx) (tValue tx) (tInput tx) (Some v) (Some r) (Some s) (tHash tx)
    (tFrom tx) (tSize tx).

(** The common part of both [SignTx] methods. *)
Definition signTx (hash : Transaction → Hash) (CalculateV : Z → list Z) (tx : Transaction) (priv : privkey)
    : option Transaction :=
  let tx := Transaction_Copy tx in
  sig ← Sign priv (hash tx);
  parity ← sig !! 64%nat;
  Some (set_signature (SetBytes (CalculateV parity)) (SetBytes (take 32 sig)) (SetBytes (take 32 (drop 32 sig))) tx).

(** *** FrontierSigner *)

Definition Frontier_Hash (tx : Transaction) : Hash := calcTxHash tx 0.
Definition Frontier_Sender (tx : Transaction) : result unit Address :=
  senderOf (Frontier_Hash tx) tx (byteOf (refV tx - 27)).
Definition Frontier_CalculateV (parity : Z) : list Z := Bytes (parity + 27).
Definition Frontier_SignTx := signTx Frontier_Hash Frontier_CalculateV.

(** *** EIP155Signer *)

Definition EIP155_Hash (chainID : Z) (tx : Transaction) : Hash := calcTxHash tx chainID.

Definition EIP155_Sender (chainID : Z) (tx : Transaction) : result unit Address :=
  let bigV := refV tx in
  let vv := Uint64 bigV in
  let protected := if BitLen vv <=? 8 then negb (vv =? 27) && negb (vv =? 28) else true in
  if negb protected then Frontier_Sender tx
  else senderOf (EIP155_Hash chainID tx) tx (byteOf (bigV - i64 chainID * 2 - 35)).

Definition EIP155_CalculateV (chainID parity : Z) : list Z := Bytes (parity + 35 + i64 chainID * 2).
Definition EIP155_SignTx (chainID : Z) := signTx (EIP155_Hash chainID) (EIP155_CalculateV chainID).

(** NewSigner: the signer a block's rules select. *)
Inductive TxSigner := FrontierSigner | EIP155Signer (chainID : Z).

Definition NewSigner (forks : ForksInTime) (chainID : Z) : TxSigner :=
  if EIP155 forks then EIP155Signer chainID else FrontierSigner.

Definition signer_Sender (s : TxSigner) : Transaction → result unit Address :=
  match s with FrontierSigner => Frontier_Sender | EIP155Signer c => EIP155_Sender c end.
Definition signer_SignTx (s : TxSigner) : Transaction → privkey → option Transaction :=
  match s with FrontierSigner => Frontier_SignTx | EIP155Signer c => EIP155_SignTx c end.

End signing.
