(* ===== verification/CryptoProps.v ===== *)
(** * Signed transactions name their sender

    Signing a transaction and recovering its sender, and what the check of
    the signature's values accepts. *)

From S2P Require Import Prelude BigInt Types Rlp BlockTypes Hex Result Chain Crypto.
#[local] Open Scope Z_scope.

(** ** Bytes of numbers *)

Lemma be_decode_cons x l : be_decode (x :: l) = x * 256 ^ zlen l + be_decode l.
Proof. change (x :: l) with ([x] ++ l). by rewrite be_decode_app. Qed.

(** Byte strings of one length compare as the numbers they spell. *)
Lemma bytes_Compare_be a b :
  bytes_ok a → bytes_ok b → length a = length b → bytes_Compare a b = (be_decode a ?= be_decode b).
Proof.
  intros Ha. revert b. induction Ha as [|x a Hx Ha IH]; intros [|y b] Hb Hl; simpl in Hl; [done..|].
  apply Forall_cons in Hb as [Hy Hb]. cbn [bytes_Compare]. rewrite !be_decode_cons.
  assert (zlen a = zlen b) as E by (unfold zlen; lia). rewrite E.
  pose proof (be_decode_range a Ha) as H1. pose proof (be_decode_range b Hb) as H2. rewrite E in H1.
  red in Hx, Hy. destruct (Z.compare_spec x y) as [->|Hlt|Hgt].
  - rewrite IH by (done || lia). rewrite Z.add_compare_mono_l. done.
  - symmetry. apply Z.compare_lt_iff. nia.
  - symmetry. apply Z.compare_gt_iff. nia.
Qed.

Lemma zlen_Bytes_le x n : 0 ≤ n → 0 ≤ x < 256 ^ n → zlen (Bytes x) ≤ n.
Proof.
  intros Hn Hx. rewrite length_Bytes. rewrite pow256 in Hx by done.
  assert (BitLen x ≤ 8 * n) by (apply BitLen_spec; lia).
  assert ((BitLen x + 7) / 8 < n + 1) by (apply Z.div_lt_upper_bound; lia). lia.
Qed.

(** A byte string is its number's bytes, padded with zeros. *)
Lemma pad_Bytes l :
  bytes_ok l → replicate (length l - length (Bytes (SetBytes l))) 0 ++ Bytes (SetBytes l) = l.
Proof.
  intros Hl. unfold SetBytes. pose proof (be_decode_range l Hl) as Hr.
  pose proof (zlen_Bytes_le (be_decode l) (zlen l) ltac:(unfold zlen; lia) Hr) as Hz.
  set (k := replicate _ 0 ++ Bytes (be_decode l)). assert (length k = length l) as Hk.
  { unfold k. rewrite length_app, length_replicate. unfold zlen in Hz. lia. }
  assert (bytes_ok k) as Hbk.
  { apply Forall_app. split; [apply Forall_replicate; unfold byte_ok; lia|apply Bytes_ok]. }
  assert (be_decode k = be_decode l) as E.
  { unfold k. rewrite be_decode_app, be_decode_zeros. apply SetBytes_Bytes. lia. }
  by rewrite <- (be_encode_decode l Hl), <- (be_encode_decode k Hbk), Hk, E.
Qed.

(** ** The check of the values *)

Lemma trimLeftZeros_nonzero x b : x ≠ 0 → trimLeftZeros (x :: b) = x :: b.
Proof. intros Hx. simpl. destruct b; [done|]. by rewrite (proj2 (Z.eqb_neq _ _)). Qed.

(** The first byte of a number is not zero. *)
Lemma Bytes_full x : 2 ^ 248 ≤ x < 2 ^ 256 → ∃ y b, Bytes x = y :: b ∧ y ≠ 0 ∧ length b = 31%nat.
Proof.
  intros Hx. pose proof (length_Bytes x) as Hl. pose proof (SetBytes_Bytes x ltac:(lia)) as Hs.
  assert (BitLen x ≤ 256) by (apply BitLen_spec; lia).
  assert (¬ BitLen x ≤ 248) by (rewrite BitLen_spec by lia; lia).
  assert ((BitLen x + 7) / 8 = 32) as E by (symmetry; apply Z.div_unique with (r := BitLen x - 249); lia).
  rewrite E in Hl. pose proof (Bytes_ok x) as Hb. destruct (Bytes x) as [|y b]; [done|].
  exists y, b. split; [done|]. unfold zlen in Hl. simpl in Hl. split; [|lia]. intros ->.
  unfold SetBytes in Hs. rewrite be_decode_cons in Hs. apply Forall_cons in Hb as [_ Hb].
  pose proof (be_decode_range b Hb) as Hr. unfold zlen in Hr.
  replace (Z.of_nat (length b)) with 31 in Hr by lia. lia.
Qed.

(** For numbers of 32 bytes the check is the range of the group order. *)
Lemma validScalar_full x : 2 ^ 248 ≤ x < 2 ^ 256 → validScalar x = (x <? secp256k1N_int).
Proof.
  intros Hx. destruct (Bytes_full x Hx) as (y & b & E & Hy & Hl). unfold validScalar.
  assert (be_decode (Bytes x) = x) as Hd by (apply SetBytes_Bytes; lia).
  pose proof (Bytes_ok x) as Hb. rewrite E in Hb, Hd |- *. rewrite trimLeftZeros_nonzero by done.
  assert (be_decode secp256k1N = secp256k1N_int) as HN by by vm_compute.
  rewrite bytes_Compare_be; [|done|apply be_encode_ok|unfold secp256k1N; rewrite length_be_encode; simpl; lia].
  rewrite Hd, HN. apply Forall_cons in Hb as [Hy' _]. red in Hy'.
  destruct (Z.compare_spec x secp256k1N_int); [by rewrite (proj2 (Z.ltb_ge _ _)) by lia| |by rewrite (proj2 (Z.ltb_ge _ _)) by lia].
  rewrite (proj2 (Z.ltb_lt _ _)) by lia. cbn [bytes_Compare one]. destruct (Z.compare_spec y 1); [by destruct b|lia|done].
Qed.

(** The check of a signature's values compares byte strings in
    dictionary order. It is the intended range check for values of 32 bytes;
    but it refuses the value of 31 bytes 0xff, which is below the group
    order, and accepts [2 ^ 256], above it, for which writing the signature
    panics. *)
Theorem signature_values :
  (∀ v r s, 0 ≤ v ≤ 1 → 2 ^ 248 ≤ r < 2 ^ 256 → 2 ^ 248 ≤ s < 2 ^ 256 →
     ValidateSignatureValues v (Some r) (Some s) = (r <? secp256k1N_int) && (s <? secp256k1N_int)) ∧
  2 ^ 248 - 1 < secp256k1N_int ∧ ValidateSignatureValues 0 (Some (2 ^ 248 - 1)) (Some 1) = false ∧
  ValidateSignatureValues 0 (Some (2 ^ 256)) (Some 1) = true ∧
  encodeSignature (Some (2 ^ 256)) (Some 1) 0 = Panics.
Proof.
  split; [|by vm_compute]. intros v r s Hv Hr Hs. unfold ValidateSignatureValues.
  by rewrite (proj2 (Z.ltb_ge 1 v)), !validScalar_full by lia.
Qed.

(** ** Signing and recovering *)

Section signing.
Context `{Keccak, Rlp, Secp256k1Laws}.

(** The signature of a key, as the transaction stores it. *)
Lemma encodeSignature_parts r s v :
  length r = 32%nat → length s = 32%nat → bytes_ok r → bytes_ok s → 0 ≤ v ≤ 1 →
  validScalar (SetBytes r) = true → validScalar (SetBytes s) = true →
  encodeSignature (Some (SetBytes r)) (Some (SetBytes s)) v = Returns (r ++ s ++ [v]).
Proof.
  intros Hr Hs Hbr Hbs Hv Hvr Hvs. unfold encodeSignature, ValidateSignatureValues.
  rewrite (proj2 (Z.ltb_ge 1 v)), Hvr, Hvs by lia. cbn [andb negb from_option id].
  assert (∀ l, bytes_ok l → length l = 32%nat → (32 <? zlen (Bytes (SetBytes l))) = false) as Hlen.
  { intros l Hl Hl32. apply Z.ltb_ge. apply zlen_Bytes_le; [lia|]. replace 32 with (zlen l) by (unfold zlen; lia).
    by apply be_decode_range. }
  rewrite !Hlen by done. cbn [orb]. f_equal. rewrite (app_assoc (replicate _ 0)), (app_assoc (replicate _ 0)).
  pose proof (pad_Bytes r Hbr) as Er. pose proof (pad_Bytes s Hbs) as Es. rewrite Hr in Er. rewrite Hs in Es.
  by rewrite Er, Es.
Qed.

(** [Sign] moves the header byte to the end, and [RecoverPubkey] back. *)
Lemma Sign_recover k h sig :
  (∀ sig, SignCompact k h = Some sig → head sig = Some 27 ∨ head sig = Some 28) → Sign k h = Some sig →
  ∃ r s v, sig = r ++ s ++ [v] ∧ length r = 32%nat ∧ length s = 32%nat ∧ bytes_ok r ∧ bytes_ok s ∧ 0 ≤ v ≤ 1 ∧
    RecoverPubkey sig h = Some (public k).
Proof.
  intros Hh Hs. unfold Sign in Hs. destruct (SignCompact k h) as [c|] eqn:Ec; [|done]. cbn [mbind option_bind] in Hs.
  destruct (SignCompact_form k h c Ec) as [Hl Hb]. pose proof (RecoverCompact_sign k h c Ec) as Hr.
  specialize (Hh c eq_refl). destruct c as [|x c]; [done|]. simpl in Hl. injection Hl as Hl.
  apply Forall_cons in Hb as [_ Hb]. set (v := if bool_decide _ then 1 else 0) in Hs. change (drop 1 ((x :: c) ++ [v])) with (c ++ [v]) in Hs. injection Hs as <-.
  assert (0 ≤ v ≤ 1) as Hv by (unfold v; case_bool_decide; lia).
  exists (take 32 c), (drop 32 c), v. rewrite length_take, length_drop, app_assoc, take_drop.
  split; [done|]. split; [lia|]. split; [lia|]. split; [by apply Forall_take|]. split; [by apply Forall_drop|]. split; [done|].
  unfold RecoverPubkey. rewrite last_snoc. rewrite length_app. replace (length c + length [v] - 1)%nat with (length c) by (simpl; lia).
  rewrite take_app_length. rewrite <- Hr. f_equal. f_equal. unfold v; simpl in Hh |- *.
  destruct Hh as [[= ->]|[= ->]]; [by rewrite bool_decide_false|by rewrite bool_decide_true].
Qed.

(** The hash does not cover the signature. *)
Lemma calcTxHash_set_signature v r s tx c : calcTxHash (set_signature v r s tx) c = calcTxHash tx c.
Proof. done. Qed.

(** The tail of [Sender] on what [SignTx] stored. *)
Lemma senderOf_signTx hash CalcV tx k tx' V :
  (∀ h sig, SignCompact k h = Some sig → head sig = Some 27 ∨ head sig = Some 28) →
  (∀ v r s t, hash (set_signature v r s t) = hash t) →
  signTx hash CalcV tx k = Some tx' → validScalar <$> tR tx' = Some true → validScalar <$> tS tx' = Some true →
  (∀ parity, 0 ≤ parity ≤ 1 → tV tx' = Some (SetBytes (CalcV parity)) → V = parity) →
  senderOf (hash tx') tx' V = Returns (PubKeyToAddress (public k)).
Proof.
  intros Hh Hhash Hs HR HS HV. unfold signTx in Hs. destruct (Sign k _) as [sig|] eqn:Es; [|done]. cbn [mbind option_bind] in Hs.
  destruct (Sign_recover k _ sig (Hh _) Es) as (r & s & v & -> & Hr & Hl & Hbr & Hbs & Hv & Hrec).
  assert ((r ++ s ++ [v]) !! 64%nat = Some v) as Hp.
  { rewrite lookup_app_r, lookup_app_r by lia. replace (64 - length r - length s)%nat with 0%nat by lia. done. }
  rewrite Hp in Hs. cbn [mbind option_bind] in Hs. replace 32%nat with (length r) in Hs by lia.
  rewrite take_app_length, drop_app_length, Hr in Hs. replace 32%nat with (length s) in Hs by lia.
  rewrite take_app_length in Hs. injection Hs as <-. simpl in HR, HS, HV. injection HR as HR. injection HS as HS.
  rewrite (HV v Hv eq_refl), Hhash. unfold senderOf; simpl. rewrite encodeSignature_parts by done.
  cbn [mbind result_bind]. unfold Ecrecover. rewrite Hrec. done.
Qed.

Lemma byteOf_small v : 0 ≤ v ≤ 1 → byteOf v = v.
Proof.
  intros Hv. unfold byteOf, Int64. rewrite Z.abs_eq, (i64_small v) by lia. rewrite (proj2 (Z.ltb_ge v 0)) by lia.
  by rewrite Z.mod_small by lia.
Qed.

(** C29. The sender of a signed transaction is the key that signed it: both
    signers recover the address of the private key from the transaction
    their [SignTx] returns. The chain id is small enough for [V] to fit in
    64 bits, the library's header byte is 27 or 28, and the values pass
    [ValidateSignatureValues]. *)
Theorem sender_roundtrip (s : TxSigner) (tx : Transaction) (k : privkey) (tx' : Transaction) :
  match s with FrontierSigner => True | EIP155Signer c => 0 ≤ c ∧ 2 * c + 36 < 2 ^ 64 end →
  (∀ h sig, SignCompact k h = Some sig → head sig = Some 27 ∨ head sig = Some 28) →
  signer_SignTx s tx k = Some tx' → validScalar <$> tR tx' = Some true → validScalar <$> tS tx' = Some true →
  signer_Sender s tx' = Returns (PubKeyToAddress (public k)).
Proof.
  intros Hc Hh Hs HR HS. destruct s as [|c]; simpl in *.
  - apply (senderOf_signTx Frontier_Hash Frontier_CalculateV tx); [done..|]. intros p Hp HV.
    unfold refV. rewrite HV. cbn [from_option id]. unfold Frontier_CalculateV.
    rewrite (SetBytes_Bytes (p + 27)), SetBytes_Bytes by lia. rewrite Z.add_simpl_r. by apply byteOf_small.
  - assert (∃ p, 0 ≤ p ≤ 1 ∧ tV tx' = Some (SetBytes (EIP155_CalculateV c p))) as (p & Hp & HV).
    { unfold EIP155_SignTx, signTx in Hs. destruct (Sign k _) as [sig|] eqn:Es; [|done]. cbn [mbind option_bind] in Hs.
      destruct (Sign_recover k _ sig (Hh _) Es) as (r & s & v & -> & Hr & Hl & _ & _ & Hv & _).
      rewrite lookup_app_r, lookup_app_r in Hs by lia. replace (64 - length r - length s)%nat with 0%nat in Hs by lia.
      cbn [mbind option_bind lookup list_lookup] in Hs. injection Hs as <-. by exists v. }
    assert (i64 c = c) as Ei by (apply i64_small; lia).
    assert (refV tx' = p + 35 + c * 2) as Ev.
    { unfold refV. rewrite HV. cbn [from_option id]. unfold EIP155_CalculateV. rewrite Ei, (SetBytes_Bytes (p + 35 + c * 2)), SetBytes_Bytes by lia. done. }
    unfold EIP155_Sender. rewrite Ev, Uint64_small by lia.
    rewrite (proj2 (Z.eqb_neq _ 27)), (proj2 (Z.eqb_neq _ 28)) by lia. cbn [negb andb].
    replace (if BitLen _ <=? 8 then true else true) with true by by case_match. cbn [negb].
    apply (senderOf_signTx (EIP155_Hash c) (EIP155_CalculateV c) tx); [done..|]. intros p' Hp' HV'.
    rewrite HV in HV'. injection HV' as HV'. unfold EIP155_CalculateV in HV'. rewrite Ei, !SetBytes_Bytes in HV' by lia.
    rewrite Ei. replace (p + 35 + c * 2 - c * 2 - 35) with p by lia. rewrite byteOf_small by done. lia.
Qed.

End signing.

(** ** A signed transaction

    A stand-in for the curve that writes the key into the signature. *)

#[local] Existing Instances tree_fastrlp tree_rlp.

#[local] Instance plain_curve : Secp256k1 := {|
  privkey := Z;
  pubkey := Z;
  public k := k mod 256 ^ 32;
  MarshalPublicKey p := 4 :: be_encode 64 p;
  SignCompact k h := Some (27 :: be_encode 32 k ++ be_encode 32 1);
  RecoverCompact sig h := Some (be_decode (take 32 (drop 1 sig)));
|}.

#[local] Instance plain_curve_laws : Secp256k1Laws.
Proof.
  split; intros k h sig E; apply Some_inj in E as <-.
  - split; [exact (f_equal S (length_be_encode 64 0))|].
    constructor; [red; lia|]. apply Forall_app. split; apply be_encode_ok.
  - apply (f_equal Some). change (drop 1 (27 :: ?l)) with l.
    replace 32%nat with (length (be_encode 32 k)) at 1 by by rewrite length_be_encode.
    rewrite take_app_length. by rewrite be_decode_encode.
Qed.

#[local] Instance zero_keccak : Keccak.
Proof. refine {| keccak256 _ := replicate 32 0 |}. intros _. split; [done|]. apply Forall_replicate. red. lia. Defined.

Definition demo_key : @privkey plain_curve := 5.

(** A transfer signed by key 5 for chain 100, with [V = 235]. *)
Definition signed_transfer : Transaction :=
  set_signature 235 5 1 (Transaction_Copy (mkTx 7 (Some 1) 21000 (Some (be_encode 20 9)) (Some 10) [] None None None ZeroHash ZeroAddress None)).

Lemma sender_roundtrip_witness :
  signer_Sender (EIP155Signer 100) signed_transfer = Returns (PubKeyToAddress (public demo_key)).
Proof.
  apply (sender_roundtrip (EIP155Signer 100)
           (mkTx 7 (Some 1) 21000 (Some (be_encode 20 9)) (Some 10) [] None None None ZeroHash ZeroAddress None) demo_key).
  - lia.
  - intros h sig E. apply Some_inj in E as <-. by left.
  - by vm_compute.
  - by vm_compute.
  - by vm_compute.
Defined.
