(* ===== verification/Signer.v ===== *)
(** * The IBFT signer (consensus/ibft/signer)

    The extra data of a header carries the validators, the seal of the
    proposer, and the committed seals of the block and of its parent.
    [SignerImpl] reads and writes them and verifies the seals, with ECDSA or
    BLS signatures as its key manager says. The curves are the parameters
    [Secp256k1] and [Bls]. A Go map that is ranged over is the list of its
    entries in the order of the iteration. Loading keys from the secrets
    manager is left out. *)

From stdpp Require Import gmap.
From S2P Require Import Prelude BigInt Types Rlp BlockTypes Hex Result Chain Crypto Validators.
#[local] Open Scope Z_scope.

(** bls_sig of kryptology; [None] is an error. *)
Class Bls := {
  bls_secret : Type;
  bls_public : Type;
  bls_signature : Type;
  bls_multipublic : Type;
  bls_multisignature : Type;
  blsSign : bls_secret → list Z → option (list Z);                 (** [Sign] and [MarshalBinary] *)
  blsUnmarshalPublic : list Z → option bls_public;
  blsUnmarshalSignature : list Z → option bls_signature;
  blsVerify : bls_public → list Z → bls_signature → option bool;
  blsAggregatePublic : list bls_public → option bls_multipublic;
  blsAggregateSignatures : list bls_signature → option (list Z);   (** and [MarshalBinary] *)
  blsUnmarshalMulti : list Z → option bls_multisignature;
  blsVerifyMulti : bls_multipublic → list Z → bls_multisignature → option bool;
}.

Inductive sgerror :=
  | ErrEmptyCommittedSeals
  | ErrEmptyParentCommittedSeals
  | ErrInvalidCommittedSealLength
  | ErrInvalidCommittedSealType
  | ErrRepeatedCommittedSeal
  | ErrNonValidatorCommittedSeal
  | ErrNotEnoughCommittedSeals
  | ErrSignerMismatch
  | ErrSgValidatorNotFound
  | ErrInvalidValidators
  | ErrInvalidSignature
  | ErrExtraSize
  | ErrExtraRlp                 (** a value of the wrong shape *)
  | ErrCurve                    (** an error of the curve libraries *)
  | ErrSgValidators (e : verror).

Definition of_verror {A} (r : result verror A) : result sgerror A :=
  match r with Returns a => Returns a | Errors e => Errors (ErrSgValidators e) | Panics => Panics end.

Definition IstanbulExtraVanity : nat := 32.
Definition IstanbulExtraSeal : Z := 65.
Definition legacyCommitCode : Z := 2.

(** ** Seals *)

Inductive Seals :=
  | SerializedSeal (seals : list (list Z))
  | AggregatedSeal (Bitmap : option Z) (Signature : option (list Z)).   (** [None] is nil *)

(** [None] is a panic: the length of a nil bitmap. *)
Definition Seals_Num (s : Seals) : option Z :=
  match s with
  | SerializedSeal l => Some (zlen l)
  | AggregatedSeal b _ => BitLen <$> b
  end.

Section rlp.
Context `{Rlp}.

Definition bytesOrNull (b : list Z) : rlp_value := match b with [] => rlp_null | _ => rlp_bytes b end.

Definition Seals_MarshalRLPWith (s : Seals) : rlp_value :=
  match s with
  | SerializedSeal [] => rlp_nullarray
  | SerializedSeal l => rlp_array (bytesOrNull <$> l)
  | AggregatedSeal b sig =>
      rlp_array [match b with None => rlp_null | Some b => rlp_bytes (Bytes b) end;
                 match sig with None => rlp_null | Some sig => rlp_bytes sig end]
  end.

(** [s] is the receiver. *)
Definition Seals_UnmarshalRLPFrom (s : Seals) (v : rlp_value) : result sgerror Seals :=
  vals ← or_error ErrExtraRlp (rlp_elems v);
  match s with
  | SerializedSeal _ => l ← or_error ErrExtraRlp (mapM rlp_getbytes vals); Returns (SerializedSeal l)
  | AggregatedSeal _ _ =>
      match vals with
      | [] => Returns s
      | [_] => Errors ErrExtraRlp
      | v0 :: v1 :: _ =>
          rawBitMap ← or_error ErrExtraRlp (rlp_getbytes v0);
          sig ← or_error ErrExtraRlp (rlp_getbytes v1);
          Returns (AggregatedSeal (Some (SetBytes rawBitMap)) (Some sig))
      end
  end.

(** ** extra.go *)

Record IstanbulExtra := mkExtra {
  exValidators : VSet;
  exProposerSeal : list Z;
  exCommittedSeals : Seals;
  exParentCommittedSeals : option Seals;   (** [None] is nil *)
}.

Definition Extra_MarshalRLPWith (i : IstanbulExtra) : rlp_value :=
  rlp_array ([Set_MarshalRLPWith (exValidators i); bytesOrNull (exProposerSeal i);
              Seals_MarshalRLPWith (exCommittedSeals i)]
             ++ match exParentCommittedSeals i with None => [] | Some s => [Seals_MarshalRLPWith s] end).

(** [i] is the receiver. *)
Definition Extra_UnmarshalRLPFrom (i : IstanbulExtra) (v : rlp_value) : result sgerror IstanbulExtra :=
  elems ← or_error ErrExtraRlp (rlp_elems v);
  match elems with
  | e0 :: e1 :: e2 :: rest =>
      vals ← of_verror (Set_UnmarshalRLPFrom (exValidators i) e0);
      seal ← or_error ErrExtraRlp (rlp_getbytes e1);
      cs ← Seals_UnmarshalRLPFrom (exCommittedSeals i) e2;
      match rest, exParentCommittedSeals i with
      | e3 :: _, Some ps => ps ← Seals_UnmarshalRLPFrom ps e3; Returns (mkExtra vals seal cs (Some ps))
      | _, ps => Returns (mkExtra vals seal cs ps)
      end
  | _ => Errors ErrExtraRlp
  end.

(** Only the parent's seals, into the receiver [ps]. *)
Definition unmarshalRLPFromForParentCS (ps : Seals) (v : rlp_value) : result sgerror Seals :=
  elems ← or_error ErrExtraRlp (rlp_elems v);
  match elems !! 3%nat with
  | Some e3 => Seals_UnmarshalRLPFrom ps e3
  | None => Returns ps
  end.

Definition set_extra (extra : list Z) (h : Header) : Header :=
  mkHeader (hParentHash h) (hSha3Uncles h) (hMiner h) (hStateRoot h) (hTxRoot h) (hReceiptsRoot h) (hLogsBloom h)
    (hDifficulty h) (hNumber h) (hGasLimit h) (hGasUsed h) (hTimestamp h) extra (hMixHash h) (hNonce h) (hHash h).

Definition putIbftExtra (h : Header) (istanbulExtra : IstanbulExtra) : Header :=
  let extra := hExtraData h in
  let extra :=
    if (length extra <? IstanbulExtraVanity)%nat then extra ++ replicate (IstanbulExtraVanity - length extra) 0
    else take IstanbulExtraVanity extra in
  set_extra (extra ++ rlp_marshal (Extra_MarshalRLPWith istanbulExtra)) h.

(** The values [packFn] sets are lost when the old ones do not parse.
    [None] is a panic. *)
Definition packFieldsIntoExtra (extraBytes : list Z) (packFn : list rlp_value → list rlp_value) : option (list Z) :=
  if (length extraBytes <? IstanbulExtraVanity)%nat then None else
  let vv :=
    match rlp_parse (drop IstanbulExtraVanity extraBytes) ≫= rlp_elems with
    | Some elems => if (length elems <? 3)%nat then [] else packFn elems
    | None => []
    end in
  Some (take IstanbulExtraVanity extraBytes ++ rlp_marshal (rlp_array vv)).

(** A field of the extra data replaced. *)
Definition packProposerSealIntoExtra (extraBytes proposerSeal : list Z) : option (list Z) :=
  packFieldsIntoExtra extraBytes (λ old,
    match old with
    | o0 :: _ :: o2 :: rest => [o0; rlp_bytes proposerSeal; o2] ++ take 1 rest
    | _ => []
    end).

Definition packCommittedSealsIntoExtra (extraBytes : list Z) (committedSeal : Seals) : option (list Z) :=
  packFieldsIntoExtra extraBytes (λ old,
    match old with
    | o0 :: o1 :: _ :: rest => [o0; o1; Seals_MarshalRLPWith committedSeal] ++ take 1 rest
    | _ => []
    end).

End rlp.

(** ** Key managers: ecdsa.go, bls.go and helper.go *)

Section signer.
Context `{Keccak, Rlp, Secp256k1, Bls}.

Inductive KeyManager :=
  | ECDSAKeyManager (key : privkey) (address : Address)
  | BLSKeyManager (ecdsaKey : privkey) (blsKey : bls_secret) (address : Address).

Definition NewECDSAKeyManagerFromKey (key : privkey) : KeyManager := ECDSAKeyManager key (PubKeyToAddress (public key)).
Definition NewBLSKeyManagerFromKeys (ecdsaKey : privkey) (blsKey : bls_secret) : KeyManager :=
  BLSKeyManager ecdsaKey blsKey (PubKeyToAddress (public ecdsaKey)).

Definition kmType (s : KeyManager) : ValidatorType :=
  match s with ECDSAKeyManager _ _ => ECDSAValidatorType | BLSKeyManager _ _ _ => BLSValidatorType end.

Definition kmAddress (s : KeyManager) : Address :=
  match s with ECDSAKeyManager _ a => a | BLSKeyManager _ _ a => a end.

Definition NewEmptyValidators (s : KeyManager) : VSet :=
  match s with ECDSAKeyManager _ _ => NewECDSAValidatorSet [] | BLSKeyManager _ _ _ => NewBLSValidatorSet [] end.

Definition NewEmptyCommittedSeals (s : KeyManager) : Seals :=
  match s with ECDSAKeyManager _ _ => SerializedSeal [] | BLSKeyManager _ _ _ => AggregatedSeal None None end.

Definition ecdsaKeyOf (s : KeyManager) : privkey :=
  match s with ECDSAKeyManager k _ => k | BLSKeyManager k _ _ => k end.

(** [SignProposerSeal] and [SignIBFTMessage] *)
Definition SignProposerSeal (s : KeyManager) (message : list Z) : option (list Z) := Sign (ecdsaKeyOf s) message.
Definition km_SignIBFTMessage (s : KeyManager) (msg : list Z) : option (list Z) := Sign (ecdsaKeyOf s) msg.

Definition SignCommittedSeal (s : KeyManager) (message : list Z) : option (list Z) :=
  match s with
  | ECDSAKeyManager key _ => Sign key message
  | BLSKeyManager _ key _ => blsSign key message
  end.

(** ecrecover of helper.go, for both managers. *)
Definition ecrecover (sig msg : list Z) : option Address := PubKeyToAddress <$> RecoverPubkey sig msg.

(** crypto.VerifyBLSSignatureFromBytes *)
Definition VerifyBLSSignatureFromBytes (rawPubkey rawSig message : list Z) : result sgerror unit :=
  pubkey ← or_error ErrCurve (blsUnmarshalPublic rawPubkey);
  signature ← or_error ErrCurve (blsUnmarshalSignature rawSig);
  ok ← or_error ErrCurve (blsVerify pubkey message signature);
  if (ok : bool) then Returns tt else Errors ErrCurve.

Definition km_VerifyCommittedSeal (s : KeyManager) (vals : VSet) (address : Address) (signature message : list Z)
    : result sgerror unit :=
  if negb (bool_decide (vsType vals = kmType s)) then Errors ErrInvalidValidators else
  match s with
  | ECDSAKeyManager _ _ =>
      signer ← or_error ErrInvalidSignature (ecrecover signature message);
      if negb (bool_decide (address = signer)) then Errors ErrSignerMismatch else
      if negb (Includes vals address) then Errors ErrNonValidatorCommittedSeal else Returns tt
  | BLSKeyManager _ _ _ =>
      let validatorIndex := Index vals address in
      if validatorIndex =? -1 then Errors ErrSgValidatorNotFound else
      v ← or_panic (Set_At vals validatorIndex);
      match v with
      | BLSValidator _ key => VerifyBLSSignatureFromBytes key signature message
      | ECDSAValidator _ => Errors ErrInvalidValidators
      end
  end.

(** getBLSSignatures *)
Fixpoint getBLSSignatures (sealMap : list (Address * list Z)) (vals : VSet) (bitMap : Z)
    : result sgerror (list bls_signature * Z) :=
  match sealMap with
  | [] => Returns ([], bitMap)
  | (addr, seal) :: sealMap =>
      let index := Index vals addr in
      if index =? -1 then Errors ErrNonValidatorCommittedSeal else
      bsig ← or_error ErrCurve (blsUnmarshalSignature seal);
      r ← getBLSSignatures sealMap vals (Z.setbit bitMap index);
      Returns (bsig :: r.1, r.2)
  end.

Definition GenerateCommittedSeals (s : KeyManager) (sealMap : list (Address * list Z)) (set : VSet)
    : result sgerror Seals :=
  match s with
  | ECDSAKeyManager _ _ =>
      if forallb (λ p, zlen p.2 =? IstanbulExtraSeal) sealMap then Returns (SerializedSeal (sealMap.*2))
      else Errors ErrInvalidCommittedSealLength
  | BLSKeyManager _ _ _ =>
      if negb (bool_decide (vsType set = kmType s)) then Errors ErrInvalidValidators else
      r ← getBLSSignatures sealMap set 0;
      multiSignatureBytes ← or_error ErrCurve (blsAggregateSignatures r.1);
      Returns (AggregatedSeal (Some r.2) (Some multiSignatureBytes))
  end.

(** The loop of verifyCommittedSealsImpl. *)
Fixpoint verify_seals (seals : list (list Z)) (msg : list Z) (vals : VSet) (visited : gset Address)
    : result sgerror unit :=
  match seals with
  | [] => Returns tt
  | seal :: seals =>
      addr ← or_error ErrCurve (ecrecover seal msg);
      if bool_decide (addr ∈ visited) then Errors ErrRepeatedCommittedSeal else
      if negb (Includes vals addr) then Errors ErrNonValidatorCommittedSeal else
      verify_seals seals msg vals ({[addr]} ∪ visited)
  end.

Definition verifyCommittedSealsImpl (seals : list (list Z)) (msg : list Z) (vals : VSet) : result sgerror Z :=
  let numSeals := zlen seals in
  if numSeals =? 0 then Errors ErrEmptyCommittedSeals else
  _ ← verify_seals seals msg vals ∅; Returns numSeals.

(** The loop of createAggregatedBLSPubKeys, from index [idx] on. *)
Fixpoint aggregated_keys (vals : list Validator) (bitMap idx : Z) : result sgerror (list bls_public) :=
  match vals with
  | [] => Returns []
  | v :: vals =>
      if negb (Z.testbit bitMap idx) then aggregated_keys vals bitMap (idx + 1) else
      match v with
      | ECDSAValidator _ => Errors ErrInvalidValidators
      | BLSValidator _ key =>
          pubKey ← or_error ErrCurve (blsUnmarshalPublic key);
          keys ← aggregated_keys vals bitMap (idx + 1);
          Returns (pubKey :: keys)
      end
  end.

Definition createAggregatedBLSPubKeys (vals : VSet) (bitMap : Z) : result sgerror (bls_multipublic * Z) :=
  pubkeys ← aggregated_keys (vsVals vals) bitMap 0;
  key ← or_error ErrCurve (blsAggregatePublic pubkeys);
  Returns (key, zlen pubkeys).

Definition verifyBLSCommittedSealsImpl (Bitmap : option Z) (Signature : option (list Z)) (msg : list Z) (vals : VSet)
    : result sgerror Z :=
  match Bitmap with
  | None => Errors ErrEmptyCommittedSeals
  | Some b =>
      if (zlen (default [] Signature) =? 0) || (BitLen b =? 0) then Errors ErrEmptyCommittedSeals else
      r ← createAggregatedBLSPubKeys vals b;
      signature ← or_error ErrCurve (blsUnmarshalMulti (default [] Signature));
      ok ← or_error ErrCurve (blsVerifyMulti r.1 msg signature);
      if negb ok then Errors ErrInvalidSignature else Returns r.2
  end.

Definition km_VerifyCommittedSeals (s : KeyManager) (raw : Seals) (digest : list Z) (vals : VSet) : result sgerror Z :=
  match s, raw with
  | ECDSAKeyManager _ _, SerializedSeal l =>
      if negb (bool_decide (vsType vals = kmType s)) then Errors ErrInvalidValidators
      else verifyCommittedSealsImpl l digest vals
  | BLSKeyManager _ _ _, AggregatedSeal b sig =>
      if negb (bool_decide (vsType vals = kmType s)) then Errors ErrInvalidValidators
      else verifyBLSCommittedSealsImpl b sig digest vals
  | _, _ => Errors ErrInvalidCommittedSealType
  end.

Definition wrapCommitHash (data : list Z) : list Z := keccak256 (data ++ [legacyCommitCode]).

Definition calculateHeaderHash (h : Header) : Hash :=
  BytesToHash (keccak256 (rlp_raw (rlp_array [
    rlp_bytes (hParentHash h); rlp_bytes (hSha3Uncles h); rlp_bytes (hMiner h); rlp_bytes (hStateRoot h);
    rlp_bytes (hTxRoot h); rlp_bytes (hReceiptsRoot h); rlp_bytes (hLogsBloom h); rlp_uint (hDifficulty h);
    rlp_uint (hNumber h); rlp_uint (hGasLimit h); rlp_uint (hGasUsed h); rlp_uint (hTimestamp h);
    rlp_bytes (hExtraData h)]))).

Definition verifyIBFTExtraSize (header : Header) : result sgerror unit :=
  if (length (hExtraData header) <? IstanbulExtraVanity)%nat then Errors ErrExtraSize else Returns tt.

(** ** signer.go *)

Record SignerImpl := NewSignerImpl {
  keyManager : KeyManager;
  parentKeyManager : option KeyManager;   (** [None] is nil *)
}.

Definition initIbftExtra (s : SignerImpl) (header : Header) (validators : VSet) (parentCommittedSeal : option Seals)
    : Header :=
  putIbftExtra header (mkExtra validators [] (NewEmptyCommittedSeals (keyManager s)) parentCommittedSeal).

Definition GetIBFTExtra (s : SignerImpl) (header : Header) : result sgerror IstanbulExtra :=
  _ ← verifyIBFTExtraSize header;
  ps ← (if 1 <? hNumber header then k ← or_panic (parentKeyManager s); Returns (Some (NewEmptyCommittedSeals k))
        else Returns None);
  v ← or_error ErrExtraRlp (rlp_parse (drop IstanbulExtraVanity (hExtraData header)));
  Extra_UnmarshalRLPFrom
    (mkExtra (NewEmptyValidators (keyManager s)) [] (NewEmptyCommittedSeals (keyManager s)) ps) v.

Definition GetValidators (s : SignerImpl) (header : Header) : result sgerror VSet :=
  extra ← GetIBFTExtra s header; Returns (exValidators extra).

Definition GetParentCommittedSeals (s : SignerImpl) (header : Header) : result sgerror Seals :=
  _ ← verifyIBFTExtraSize header;
  v ← or_error ErrExtraRlp (rlp_parse (drop IstanbulExtraVanity (hExtraData header)));
  unmarshalRLPFromForParentCS (NewEmptyCommittedSeals (keyManager s)) v.

Definition filterHeaderForHash (s : SignerImpl) (header : Header) : result sgerror Header :=
  let clone := Header_Copy header in
  extra ← GetIBFTExtra s header;
  ps ← match exParentCommittedSeals extra with
       | None => Returns None
       | Some ps => n ← or_panic (Seals_Num ps); Returns (if n =? 0 then None else Some ps)
       end;
  Returns (initIbftExtra s clone (exValidators extra) ps).

Definition CalculateHeaderHash (s : SignerImpl) (header : Header) : result sgerror Hash :=
  filteredHeader ← filterHeaderForHash s header; Returns (calculateHeaderHash filteredHeader).

Definition WriteProposerSeal (s : SignerImpl) (header : Header) : result sgerror Header :=
  hash ← CalculateHeaderHash s header;
  seal ← or_error ErrCurve (SignProposerSeal (keyManager s) (keccak256 hash));
  extra ← or_panic (packProposerSealIntoExtra (hExtraData header) seal);
  Returns (set_extra extra header).

Definition EcrecoverFromHeader (s : SignerImpl) (header : Header) : result sgerror Address :=
  extra ← GetIBFTExtra s header;
  or_error ErrCurve (ecrecover (exProposerSeal extra) (keccak256 (hHash header))).

Definition CreateCommittedSeal (s : SignerImpl) (hash : list Z) : option (list Z) :=
  SignCommittedSeal (keyManager s) (keccak256 (wrapCommitHash hash)).

Definition VerifyCommittedSeal (s : SignerImpl) (vals : VSet) (signer : Address) (signature hash : list Z)
    : result sgerror unit :=
  km_VerifyCommittedSeal (keyManager s) vals signer signature (keccak256 (wrapCommitHash hash)).

Definition WriteCommittedSeals (s : SignerImpl) (header : Header) (sealMap : list (Address * list Z))
    : result sgerror Header :=
  if zlen sealMap =? 0 then Errors ErrEmptyCommittedSeals else
  validators ← GetValidators s header;
  committedSeal ← GenerateCommittedSeals (keyManager s) sealMap validators;
  extra ← or_panic (packCommittedSealsIntoExtra (hExtraData header) committedSeal);
  Returns (set_extra extra header).

Definition VerifyCommittedSeals (s : SignerImpl) (header : Header) (vals : VSet) (quorumSize : Z)
    : result sgerror unit :=
  extra ← GetIBFTExtra s header;
  hash ← CalculateHeaderHash s header;
  numSeals ← km_VerifyCommittedSeals (keyManager s) (exCommittedSeals extra) (keccak256 (wrapCommitHash hash)) vals;
  if numSeals <? quorumSize then Errors ErrNotEnoughCommittedSeals else Returns tt.

Definition VerifyParentCommittedSeals (s : SignerImpl) (parent header : Header) (parentValidators : VSet) (quorum : Z)
    (mustExist : bool) : result sgerror unit :=
  parentCommittedSeals ← GetParentCommittedSeals s header;
  num ← or_panic (Seals_Num parentCommittedSeals);
  if num =? 0 then if mustExist then Errors ErrEmptyParentCommittedSeals else Returns tt else
  numSeals ← km_VerifyCommittedSeals (keyManager s) parentCommittedSeals
               (keccak256 (wrapCommitHash (hHash parent))) parentValidators;
  if numSeals <? quorum then Errors ErrNotEnoughCommittedSeals else Returns tt.

Definition SignIBFTMessage (s : SignerImpl) (msg : list Z) : option (list Z) :=
  km_SignIBFTMessage (keyManager s) (keccak256 msg).

Definition EcrecoverFromIBFTMessage (s : SignerImpl) (signature digest : list Z) : option Address :=
  ecrecover signature (keccak256 digest).

End signer.
