(* ===== verification/SignerProps.v ===== *)
(** * What the seals of a header prove

    A header whose committed seals verify was sealed by distinct validators,
    as many as the quorum; two such headers share more sealers than can be
    faulty. Writing seals into a header changes neither its hash nor the
    rest of its extra data, and the proposer's seal names the proposer. *)

From stdpp Require Import gmap.
From S2P Require Import Prelude BigInt Types Rlp BlockTypes Hex Result Chain Crypto CryptoProps Validators ValidatorsProps Quorum Signer.
#[local] Open Scope Z_scope.

Section sealers.
Context `{Keccak, Rlp, Secp256k1, Bls}.

(** ** Who sealed *)

(** The validators whose bit is set, from index [idx] on. *)
Fixpoint bit_vals (vals : list Validator) (bitMap idx : Z) : list Validator :=
  match vals with
  | [] => []
  | v :: vals => if Z.testbit bitMap idx then v :: bit_vals vals bitMap (idx + 1) else bit_vals vals bitMap (idx + 1)
  end.

(** A BLS validator with its public key. *)
Definition has_key (v : Validator) (key : bls_public) : Prop :=
  match v with
  | BLSValidator _ raw => blsUnmarshalPublic raw = Some key
  | ECDSAValidator _ => False
  end.

(** The seals are signatures of [signers] for the message: one signature
    each, or one aggregated signature that verifies against the aggregate of
    exactly their keys. *)
Definition signed_by (raw : Seals) (msg : list Z) (vals : VSet) (signers : list Address) : Prop :=
  match raw with
  | SerializedSeal l => Forall2 (λ seal a, ecrecover seal msg = Some a) l signers
  | AggregatedSeal b sig =>
      ∃ bits keys aggregated signature,
        b = Some bits ∧ signers = Addr <$> bit_vals (vsVals vals) bits 0 ∧
        Forall2 has_key (bit_vals (vsVals vals) bits 0) keys ∧
        blsAggregatePublic keys = Some aggregated ∧
        blsUnmarshalMulti (default [] sig) = Some signature ∧
        blsVerifyMulti aggregated msg signature = Some true
  end.

Lemma verify_seals_spec seals msg vals visited :
  verify_seals seals msg vals visited = Returns tt →
  ∃ signers, Forall2 (λ seal a, ecrecover seal msg = Some a) seals signers ∧
    NoDup signers ∧ (∀ a, a ∈ signers → a ∈ addrs vals ∧ a ∉ visited).
Proof.
  revert visited. induction seals as [|seal seals IH]; intros visited Hv.
  - exists []. split; [constructor|]. split; [constructor|]. intros a []%elem_of_nil.
  - cbn [verify_seals] in Hv. destruct (ecrecover seal msg) as [addr|] eqn:Er; [|done].
    cbn [or_error mbind result_bind] in Hv. case_bool_decide as Hnew; [done|].
    destruct (Includes vals addr) eqn:Ei; [|done]. cbn [negb] in Hv.
    destruct (IH _ Hv) as (l & Hl & Hn & Hin). exists (addr :: l). split; [by constructor|]. split.
    + apply NoDup_cons. split; [|done]. intros Ha%Hin. set_solver.
    + intros a [->|Ha]%elem_of_cons; [by split; [apply Includes_spec|]|]. apply Hin in Ha. set_solver.
Qed.

Lemma aggregated_keys_spec vals bitMap idx keys :
  aggregated_keys vals bitMap idx = Returns keys → Forall2 has_key (bit_vals vals bitMap idx) keys.
Proof.
  revert idx keys. induction vals as [|v vals IH]; intros idx keys E; cbn [aggregated_keys bit_vals] in *;
    [by simplify_eq; constructor|].
  destruct (Z.testbit bitMap idx); cbn [negb] in E; [|by apply IH]. destruct v as [a|a key]; [done|].
  destruct (blsUnmarshalPublic key) as [pk|] eqn:Ek; [|done]. cbn [or_error mbind result_bind] in E.
  apply result_bind_returns in E as (ks & Eks & E). injection E as <-. constructor; [done|by apply IH].
Qed.

Lemma bit_vals_sublist vals bitMap idx : sublist (bit_vals vals bitMap idx) vals.
Proof.
  revert idx. induction vals as [|v vals IH]; intros idx; cbn [bit_vals]; [constructor|].
  destruct (Z.testbit bitMap idx); by constructor.
Qed.

(** Verified seals are signatures of as many distinct validators as are
    counted. *)
Lemma km_VerifyCommittedSeals_spec km raw msg vals n :
  set_ok vals → km_VerifyCommittedSeals km raw msg vals = Returns n →
  ∃ signers, signed_by raw msg vals signers ∧
    zlen signers = n ∧ NoDup signers ∧ ∀ a, a ∈ signers → a ∈ addrs vals.
Proof.
  intros [_ Hnd] Hv. unfold km_VerifyCommittedSeals in Hv. destruct km, raw as [l|b sig]; try discriminate Hv.
  - destruct (negb _); [done|]. unfold verifyCommittedSealsImpl in Hv. destruct (zlen l =? 0); [done|].
    destruct (verify_seals l msg vals ∅) as [[]| |] eqn:E; cbn [mbind result_bind] in Hv; [|done..]. injection Hv as <-.
    apply verify_seals_spec in E as (signers & Hl & Hn & Hin). exists signers. split; [done|].
    apply Forall2_length in Hl. unfold zlen. rewrite Hl.
    split; [done|]. split; [done|]. intros a Ha. by apply Hin in Ha as [? _].
  - destruct (negb _); [done|]. unfold verifyBLSCommittedSealsImpl in Hv. destruct b as [b|]; [|done].
    destruct (_ || _); [done|]. apply result_bind_returns in Hv as ([key k] & Hk & Hv).
    unfold createAggregatedBLSPubKeys in Hk. apply result_bind_returns in Hk as (keys & Ekeys & Hk).
    destruct (blsAggregatePublic keys) as [agg|] eqn:Eagg; [|done]. cbn in Hk. injection Hk as <- <-.
    destruct (blsUnmarshalMulti _) as [sg|] eqn:Esg; [|done]. cbn in Hv.
    destruct (blsVerifyMulti _ _ _) as [[]|] eqn:Ev; [|done..]. cbn in Hv. injection Hv as <-.
    apply aggregated_keys_spec in Ekeys. pose proof (bit_vals_sublist (vsVals vals) b 0) as Hs.
    apply (fmap_sublist Addr) in Hs. exists (Addr <$> bit_vals (vsVals vals) b 0). split; [by exists b, keys, agg, sg|].
    split; [unfold zlen; by rewrite length_fmap, (Forall2_length _ _ _ Ekeys)|].
    split; [by eapply sublist_NoDup|]. intros a Ha. by eapply elem_of_sublist.
Qed.

(** The committed seals of a header are signatures of [signers] for the
    commit message of its hash. *)
Definition header_sealed (s : SignerImpl) (header : Header) (vals : VSet) (signers : list Address) : Prop :=
  ∃ extra hash, GetIBFTExtra s header = Returns extra ∧ CalculateHeaderHash s header = Returns hash ∧
    signed_by (exCommittedSeals extra) (keccak256 (wrapCommitHash hash)) vals signers.

Lemma VerifyCommittedSeals_spec s header vals quorum :
  set_ok vals → VerifyCommittedSeals s header vals quorum = Returns tt →
  ∃ signers, header_sealed s header vals signers ∧
    quorum ≤ zlen signers ∧ NoDup signers ∧ ∀ a, a ∈ signers → a ∈ addrs vals.
Proof.
  intros Hok Hv. unfold VerifyCommittedSeals in Hv. unfold header_sealed.
  destruct (GetIBFTExtra s header) as [extra| |]; [|done..]. cbn [mbind result_bind] in Hv.
  destruct (CalculateHeaderHash s header) as [hash| |]; [|done..]. cbn [mbind result_bind] in Hv.
  apply result_bind_returns in Hv as (n & En & Hv).
  apply km_VerifyCommittedSeals_spec in En as (signers & Hs & <- & Hn & Hin); [|done].
  destruct (Z.ltb_spec (zlen signers) quorum); [done|]. exists signers. split; [by exists extra, hash|done].
Qed.

(** C21. Two headers whose committed seals verify against the same validators
    with the optimal quorum were both sealed by more validators than can be
    faulty. The sealers of each header are distinct validators, and its seals
    are their signatures over the commit message of the header's hash: an
    ECDSA signature that recovers to each of them, or an aggregated BLS
    signature that verifies against the aggregate of exactly their keys. So
    without a double seal of an honest validator there are no two such
    headers. *)
Theorem committed_headers_overlap (s1 s2 : SignerImpl) (h1 h2 : Header) (vals : VSet) :
  set_ok vals → 0 < Len vals < 2 ^ 50 →
  VerifyCommittedSeals s1 h1 vals (OptimalQuorumSize vals) = Returns tt →
  VerifyCommittedSeals s2 h2 vals (OptimalQuorumSize vals) = Returns tt →
  ∃ signers1 signers2,
    header_sealed s1 h1 vals signers1 ∧ header_sealed s2 h2 vals signers2 ∧
    NoDup signers1 ∧ NoDup signers2 ∧
    (∀ a, a ∈ signers1 ∨ a ∈ signers2 → a ∈ addrs vals) ∧
    CalcMaxFaultyNodes vals < zlen (filter (λ a, a ∈ signers2) signers1).
Proof.
  intros Hok Hn Hv1 Hv2. apply VerifyCommittedSeals_spec in Hv1 as (l1 & Hs1 & Hq1 & Hn1 & Hi1); [|done].
  apply VerifyCommittedSeals_spec in Hv2 as (l2 & Hs2 & Hq2 & Hn2 & Hi2); [|done].
  exists l1, l2. split_and!; [done..|naive_solver|].
  pose proof (optimal_quorum_bounds vals Hn) as (Hb & _ & _).
  pose proof (overlap _ _ (addrs vals) Hn1 Hn2 Hi1 Hi2) as Ho.
  assert (zlen (addrs vals) = Len vals) as E by (unfold zlen, addrs, Len, zlen; by rewrite length_fmap). lia.
Qed.

End sealers.

(** ** Writing seals *)

Section sealing.
Context `{Keccak, RlpLaws, Secp256k1, Bls}.

Definition set_proposer_seal (seal : list Z) (e : IstanbulExtra) : IstanbulExtra :=
  mkExtra (exValidators e) seal (exCommittedSeals e) (exParentCommittedSeals e).
Definition set_committed_seals (cs : Seals) (e : IstanbulExtra) : IstanbulExtra :=
  mkExtra (exValidators e) (exProposerSeal e) cs (exParentCommittedSeals e).

Lemma getbytes_bytesOrNull b : rlp_getbytes (bytesOrNull b) = Some b.
Proof. destruct b; [apply bytes_null|apply bytes_bytes]. Qed.

Lemma mapM_bytesOrNull l : mapM rlp_getbytes (bytesOrNull <$> l) = Some l.
Proof.
  induction l as [|b l IH]; [done|]. rewrite fmap_cons. cbn [mapM]. rewrite getbytes_bytesOrNull.
  cbn [mbind option_bind]. rewrite IH. done.
Qed.

(** Seals a manager generates read back. *)
Lemma getBLSSignatures_bitmap m vals b r : getBLSSignatures m vals b = Returns r → 0 ≤ b → 0 ≤ r.2.
Proof.
  revert b r. induction m as [|[addr seal] m IH]; intros b r E Hb; cbn [getBLSSignatures] in E; [by simplify_eq|].
  destruct (_ =? _); [done|]. apply result_bind_returns in E as (sg & _ & E). apply result_bind_returns in E as (r' & Er & E).
  injection E as <-. simpl. eapply IH; [exact Er|]. unfold Z.setbit. apply Z.lor_nonneg. split; [done|by apply Z.shiftl_nonneg].
Qed.

Lemma GenerateCommittedSeals_rlp km m vals cs :
  GenerateCommittedSeals km m vals = Returns cs →
  Seals_UnmarshalRLPFrom (NewEmptyCommittedSeals km) (Seals_MarshalRLPWith cs) = Returns cs.
Proof.
  intros E. destruct km as [k a|k b a]; cbn [GenerateCommittedSeals NewEmptyCommittedSeals] in *.
  - destruct (forallb _ m); [|done]. injection E as <-. unfold Seals_UnmarshalRLPFrom, Seals_MarshalRLPWith.
    destruct (m.*2) as [|seal l]; [by rewrite elems_nullarray|]. rewrite elems_array. cbn [or_error mbind result_bind].
    by rewrite mapM_bytesOrNull.
  - destruct (negb _); [done|]. apply result_bind_returns in E as (r & Er & E). apply result_bind_returns in E as (sig & _ & E).
    injection E as <-. apply getBLSSignatures_bitmap in Er; [|done]. unfold Seals_UnmarshalRLPFrom, Seals_MarshalRLPWith.
    rewrite elems_array. cbn [or_error mbind result_bind]. rewrite !bytes_bytes. cbn [or_error mbind result_bind].
    by rewrite SetBytes_Bytes.
Qed.

(** What [GetIBFTExtra] reads from. *)
Lemma GetIBFTExtra_inv s header e :
  GetIBFTExtra s header = Returns e →
  (IstanbulExtraVanity ≤ length (hExtraData header))%nat ∧
  ∃ v e0 e1 e2 rest, rlp_parse (drop IstanbulExtraVanity (hExtraData header)) = Some v ∧
    rlp_elems v = Some (e0 :: e1 :: e2 :: rest).
Proof.
  unfold GetIBFTExtra, verifyIBFTExtraSize. destruct (Nat.ltb_spec (length (hExtraData header)) IstanbulExtraVanity); [done|].
  cbn [mbind result_bind]. intros E. split; [done|]. apply result_bind_returns in E as (ps & _ & E).
  apply result_bind_returns in E as (v & Ev & E). destruct (rlp_parse _) as [v'|]; [|done]. injection Ev as ->.
  unfold Extra_UnmarshalRLPFrom in E. destruct (rlp_elems v) as [[|e0 [|e1 [|e2 rest]]]|] eqn:El; try done.
  by exists v, e0, e1, e2, rest.
Qed.

(** The extra data with the values [f] makes of the old ones. *)
Lemma packFields_parse extra v elems f :
  (IstanbulExtraVanity ≤ length extra)%nat → rlp_parse (drop IstanbulExtraVanity extra) = Some v →
  rlp_elems v = Some elems → (3 ≤ length elems)%nat →
  packFieldsIntoExtra extra f = Some (take IstanbulExtraVanity extra ++ rlp_marshal (rlp_array (f elems))).
Proof.
  intros Hl Hp He Hn. unfold packFieldsIntoExtra. rewrite (proj2 (Nat.ltb_ge _ _)), Hp by done.
  cbn [mbind option_bind]. rewrite He. by rewrite (proj2 (Nat.ltb_ge _ _)).
Qed.

(** Reading a header whose extra data is a vanity and an array. *)
Lemma GetIBFTExtra_array s header vanity elems :
  length vanity = IstanbulExtraVanity →
  GetIBFTExtra s (set_extra (vanity ++ rlp_marshal (rlp_array elems)) header) =
  (ps ← (if 1 <? hNumber header then k ← or_panic (parentKeyManager s); Returns (Some (NewEmptyCommittedSeals k))
         else Returns None);
   Extra_UnmarshalRLPFrom
     (mkExtra (NewEmptyValidators (keyManager s)) [] (NewEmptyCommittedSeals (keyManager s)) ps) (rlp_array elems)).
Proof.
  intros Hv. unfold GetIBFTExtra, verifyIBFTExtraSize. simpl hExtraData. simpl hNumber.
  rewrite (proj2 (Nat.ltb_ge _ _)) by (rewrite length_app; lia). cbn [mbind result_bind].
  rewrite <- Hv, drop_app_length, parse_marshal. done.
Qed.

(** Replacing one field of the extra data. *)
Lemma GetIBFTExtra_replace s header e v e0 e1 e2 rest e1' e2' e' :
  GetIBFTExtra s header = Returns e →
  rlp_parse (drop IstanbulExtraVanity (hExtraData header)) = Some v → rlp_elems v = Some (e0 :: e1 :: e2 :: rest) →
  (∀ seal cs, rlp_getbytes e1 = Some seal → Seals_UnmarshalRLPFrom (NewEmptyCommittedSeals (keyManager s)) e2 = Returns cs →
     exProposerSeal e = seal → exCommittedSeals e = cs →
     rlp_getbytes e1' = Some (exProposerSeal e') ∧
     Seals_UnmarshalRLPFrom (NewEmptyCommittedSeals (keyManager s)) e2' = Returns (exCommittedSeals e')) →
  exValidators e' = exValidators e → exParentCommittedSeals e' = exParentCommittedSeals e →
  GetIBFTExtra s (set_extra (take IstanbulExtraVanity (hExtraData header) ++
    rlp_marshal (rlp_array ([e0; e1'; e2'] ++ take 1 rest))) header) = Returns e'.
Proof.
  intros He Hp Hel Hf Hvals Hps. destruct (GetIBFTExtra_inv s header e He) as [Hl _].
  rewrite GetIBFTExtra_array by (rewrite length_take; lia).
  unfold GetIBFTExtra, verifyIBFTExtraSize in He. rewrite (proj2 (Nat.ltb_ge _ _)) in He by done.
  cbn [mbind result_bind] in He. apply result_bind_returns in He as (ps & -> & He). cbn [mbind result_bind].
  rewrite Hp in He. cbn [or_error mbind result_bind] in He. unfold Extra_UnmarshalRLPFrom in *. rewrite Hel in He.
  rewrite elems_array. cbn [or_error mbind result_bind app] in *. cbn [exValidators exCommittedSeals exParentCommittedSeals] in *.
  apply result_bind_returns in He as (vals & -> & He). cbn [mbind result_bind].
  destruct (rlp_getbytes e1) as [seal|]; [|done]. cbn [or_error mbind result_bind] in He.
  apply result_bind_returns in He as (cs & Ecs & He).
  destruct rest as [|e3 rest], ps as [ps|]; cbn [take] in *.
  - injection He as <-. destruct (Hf seal cs) as [-> E2]; [done..|]. cbn [or_error mbind result_bind]. rewrite E2.
    destruct e'. simpl in *. by subst.
  - injection He as <-. destruct (Hf seal cs) as [-> E2]; [done..|]. cbn [or_error mbind result_bind]. rewrite E2.
    destruct e'. simpl in *. by subst.
  - apply result_bind_returns in He as (ps' & Eps & He). injection He as <-.
    destruct (Hf seal cs) as [-> E2]; [done..|]. cbn [or_error mbind result_bind]. rewrite E2. cbn [mbind result_bind].
    rewrite Eps. destruct e'. simpl in *. by subst.
  - injection He as <-. destruct (Hf seal cs) as [-> E2]; [done..|]. cbn [or_error mbind result_bind]. rewrite E2.
    destruct e'. simpl in *. by subst.
Qed.

(** The hash covers the vanity, the validators and the parent's seals. *)
Lemma CalculateHeaderHash_extra s header rest e e' :
  GetIBFTExtra s header = Returns e →
  GetIBFTExtra s (set_extra (take IstanbulExtraVanity (hExtraData header) ++ rest) header) = Returns e' →
  exValidators e' = exValidators e → exParentCommittedSeals e' = exParentCommittedSeals e →
  CalculateHeaderHash s (set_extra (take IstanbulExtraVanity (hExtraData header) ++ rest) header)
  = CalculateHeaderHash s header.
Proof.
  intros He He' Hv Hp. destruct (GetIBFTExtra_inv s header e He) as [Hl _].
  unfold CalculateHeaderHash, filterHeaderForHash. rewrite He, He'. cbn [mbind result_bind]. rewrite Hv, Hp.
  assert (∀ vals ps, initIbftExtra s (Header_Copy (set_extra (take IstanbulExtraVanity (hExtraData header) ++ rest) header)) vals ps
            = initIbftExtra s (Header_Copy header) vals ps) as E.
  { intros vals ps. unfold initIbftExtra, putIbftExtra. simpl hExtraData.
    rewrite (proj2 (Nat.ltb_ge (length (_ ++ _)) _)) by (rewrite length_app, length_take; lia).
    rewrite (proj2 (Nat.ltb_ge (length (hExtraData header)) _)) by done.
    rewrite take_app_le by (rewrite length_take; lia). by rewrite take_take, Nat.min_id. }
  destruct (exParentCommittedSeals e) as [ps|]; cbn [mbind result_bind]; [|by rewrite E].
  destruct (Seals_Num ps); [|done]. cbn [or_panic mbind result_bind]. by rewrite E.
Qed.

(** Committing seals to a header: [WriteCommittedSeals] replaces the
    committed seals of the extra data and nothing else of it, the seals read
    back as they were generated, and the hash of the header, which the seals
    sign, is unchanged. *)
Theorem committed_seals_written (s : SignerImpl) (header header' : Header) (m : list (Address * list Z)) :
  WriteCommittedSeals s header m = Returns header' →
  ∃ e cs, GetIBFTExtra s header = Returns e ∧
    GenerateCommittedSeals (keyManager s) m (exValidators e) = Returns cs ∧
    GetIBFTExtra s header' = Returns (set_committed_seals cs e) ∧
    CalculateHeaderHash s header' = CalculateHeaderHash s header.
Proof.
  unfold WriteCommittedSeals. destruct (zlen m =? 0); [done|]. intros E.
  apply result_bind_returns in E as (vals & Ev & E). unfold GetValidators in Ev.
  apply result_bind_returns in Ev as (e & He & Ev). injection Ev as <-. apply result_bind_returns in E as (cs & Ecs & E).
  destruct (GetIBFTExtra_inv s header e He) as (Hl & v & e0 & e1 & e2 & rest & Hp & Hel).
  apply result_bind_returns in E as (extra & Ex & E). unfold packCommittedSealsIntoExtra in Ex.
  rewrite (packFields_parse _ v _ _ Hl Hp Hel) in Ex by (simpl; lia). injection Ex as <-. injection E as <-.
  assert (GetIBFTExtra s (set_extra (take IstanbulExtraVanity (hExtraData header) ++
    rlp_marshal (rlp_array ([e0; e1; Seals_MarshalRLPWith cs] ++ take 1 rest))) header)
    = Returns (set_committed_seals cs e)) as He'.
  { apply (GetIBFTExtra_replace s header e v e0 e1 e2 rest); [done..| |done|done].
    intros seal cs' -> _ <- _. split; [done|]. by apply (GenerateCommittedSeals_rlp _ m (exValidators e)). }
  exists e, cs. split; [done|]. split; [done|]. split; [done|]. by eapply CalculateHeaderHash_extra.
Qed.

Lemma EcrecoverFromHeader_set_hHash s hash header e :
  GetIBFTExtra s header = Returns e →
  EcrecoverFromHeader s (set_hHash hash header) = or_error ErrCurve (ecrecover (exProposerSeal e) (keccak256 hash)).
Proof.
  intros He. unfold EcrecoverFromHeader. change (GetIBFTExtra s (set_hHash hash header)) with (GetIBFTExtra s header).
  by rewrite He.
Qed.

(** The proposer's seal names the proposer: from the header
    [WriteProposerSeal] returns, once its hash is set to the hash the signer
    calculates, [EcrecoverFromHeader] recovers the address of the signing key;
    and the seal does not change that hash. *)
Theorem proposer_recovered `{!Secp256k1Laws} (s : SignerImpl) (header header' : Header) :
  let key := ecdsaKeyOf (keyManager s) in
  (∀ h sig, SignCompact key h = Some sig → head sig = Some 27 ∨ head sig = Some 28) →
  WriteProposerSeal s header = Returns header' →
  ∃ hash, CalculateHeaderHash s header = Returns hash ∧ CalculateHeaderHash s header' = Returns hash ∧
    EcrecoverFromHeader s (set_hHash hash header') = Returns (PubKeyToAddress (public key)).
Proof.
  intros key Hh E. unfold WriteProposerSeal in E. apply result_bind_returns in E as (hash & Ehash & E).
  apply result_bind_returns in E as (seal & Es & E). unfold SignProposerSeal in Es.
  destruct (Sign (ecdsaKeyOf (keyManager s)) (keccak256 hash)) as [sig|] eqn:Esig; [|done]. injection Es as ->.
  assert (∃ e, GetIBFTExtra s header = Returns e) as [e He].
  { unfold CalculateHeaderHash, filterHeaderForHash in Ehash. apply result_bind_returns in Ehash as (f & Ef & _).
    apply result_bind_returns in Ef as (e & He & _). by exists e. }
  destruct (GetIBFTExtra_inv s header e He) as (Hl & v & e0 & e1 & e2 & rest & Hp & Hel).
  apply result_bind_returns in E as (extra & Ex & E). unfold packProposerSealIntoExtra in Ex.
  rewrite (packFields_parse _ v _ _ Hl Hp Hel) in Ex by (simpl; lia). injection Ex as <-. injection E as <-.
  assert (GetIBFTExtra s (set_extra (take IstanbulExtraVanity (hExtraData header) ++
    rlp_marshal (rlp_array ([e0; rlp_bytes seal; e2] ++ take 1 rest))) header) = Returns (set_proposer_seal seal e)) as He'.
  { apply (GetIBFTExtra_replace s header e v e0 e1 e2 rest); [done..| |done|done].
    intros seal' cs' _ -> _ <-. split; [apply bytes_bytes|done]. }
  exists hash. split; [done|]. split; [by rewrite <- Ehash; eapply CalculateHeaderHash_extra|].
  rewrite (EcrecoverFromHeader_set_hHash _ _ _ _ He'). simpl. destruct (Sign_recover _ _ _ (Hh _) Esig) as (? & ? & ? & _ & _ & _ & _ & _ & _ & Hrec).
  unfold ecrecover. by rewrite Hrec.
Qed.

(** ** A header without its parent's seals *)

Lemma empty_seals_rlp km :
  ∃ cs, Seals_UnmarshalRLPFrom (NewEmptyCommittedSeals km) (Seals_MarshalRLPWith (NewEmptyCommittedSeals km)) = Returns cs.
Proof.
  destruct km; unfold Seals_UnmarshalRLPFrom, Seals_MarshalRLPWith, NewEmptyCommittedSeals.
  - rewrite elems_nullarray. by eexists.
  - rewrite elems_array. cbn [or_error mbind result_bind]. rewrite bytes_null. by eexists.
Qed.

(** When the parent of a header was sealed with BLS, calculating the hash
    of a header that carries no parent seals panics: the empty seals read in
    their place have a nil bitmap, whose length [Num] takes. The code around
    the call means to treat empty parent seals as absent. *)
Theorem bls_missing_parent_seals_panic (s : SignerImpl) (header : Header) (vals : VSet) k b a :
  parentKeyManager s = Some (BLSKeyManager k b a) → vset_ok vals → vsType vals = kmType (keyManager s) →
  1 < hNumber header →
  CalculateHeaderHash s (initIbftExtra s header vals None) = Panics.
Proof.
  intros Hp Hv Ht Hn. unfold initIbftExtra, putIbftExtra.
  set (vanity := if (_ <? _)%nat then _ else _). assert (length vanity = IstanbulExtraVanity) as Hl.
  { unfold vanity. destruct (Nat.ltb_spec (length (hExtraData header)) IstanbulExtraVanity);
      rewrite ?length_app, ?length_replicate, ?length_take; lia. }
  unfold CalculateHeaderHash, filterHeaderForHash, Extra_MarshalRLPWith. rewrite GetIBFTExtra_array by done.
  rewrite (proj2 (Z.ltb_lt _ _)), Hp by done. cbn [or_panic mbind result_bind]. unfold Extra_UnmarshalRLPFrom.
  rewrite elems_array. cbn [or_error mbind result_bind app exValidators exCommittedSeals exParentCommittedSeals exProposerSeal].
  replace (NewEmptyValidators (keyManager s)) with (mkSet (vsType vals) []) by by rewrite Ht; destruct (keyManager s).
  rewrite Set_rlp by done. cbn [of_verror mbind result_bind]. rewrite getbytes_bytesOrNull. cbn [or_error mbind result_bind].
  by destruct (empty_seals_rlp (keyManager s)) as [cs ->].
Qed.

End sealing.

(** ** Sealed headers

    The theorems on seals at concrete headers: four validators with the
    keys 1 to 4, the stand-in curve that writes the key into a signature, and
    a hash that keeps the last 32 bytes. *)

Module SignerExamples.

#[local] Existing Instances tree_fastrlp tree_rlp tree_rlp_laws plain_curve plain_curve_laws.

#[local] Instance low_keccak : Keccak.
Proof.
  refine {| keccak256 b := be_encode 32 (be_decode b) |}.
  intros b. split; [apply length_be_encode|apply be_encode_ok].
Defined.

#[local] Instance unit_bls : Bls := {|
  bls_secret := unit; bls_public := unit; bls_signature := unit; bls_multipublic := unit; bls_multisignature := unit;
  blsSign _ _ := Some [1]; blsUnmarshalPublic _ := Some tt; blsUnmarshalSignature _ := Some tt;
  blsVerify _ _ _ := Some true; blsAggregatePublic _ := Some tt; blsAggregateSignatures _ := Some [1];
  blsUnmarshalMulti _ := Some tt; blsVerifyMulti _ _ _ := Some true;
|}.

Definition demo_privkey (i : Z) : @privkey plain_curve := i.

Definition demo_signer_impl (i : Z) : SignerImpl := NewSignerImpl (NewECDSAKeyManagerFromKey (demo_privkey i)) None.

Definition returned {E A} (d : A) (r : result E A) : A := match r with Returns a => a | _ => d end.

(** A header at height 1 with the validators in its extra data. *)
Definition unsealed (timestamp : Z) : Header :=
  initIbftExtra (demo_signer_impl 1)
    (mkHeader ZeroHash ZeroHash ZeroAddress ZeroHash ZeroHash ZeroHash ZeroBloom 1 1 0 0 timestamp [] ZeroHash
       (replicate 8 0) ZeroHash) (demo_set 4) None.

(** The seals of some validators for a header. *)
Definition demo_seals (h : Header) (keys : list Z) : list (Address * list Z) :=
  (λ i, (be_encode 20 i,
         default [] (CreateCommittedSeal (demo_signer_impl i)
                       (returned ZeroHash (CalculateHeaderHash (demo_signer_impl i) h))))) <$> keys.

Definition sealed (timestamp : Z) (keys : list Z) : Header :=
  returned newHeader (WriteCommittedSeals (demo_signer_impl 1) (unsealed timestamp) (demo_seals (unsealed timestamp) keys)).

Lemma demo_set_ok : vset_ok (demo_set 4).
Proof.
  split; [split|split].
  - by repeat constructor.
  - apply (bool_decide_eq_true_1 (NoDup _)). by vm_compute.
  - unfold demo_set. apply Forall_fmap, Forall_fmap, Forall_true. intros i.
    split; [split; [apply length_be_encode|apply be_encode_ok]|done].
  - by left.
Qed.

Lemma committed_headers_overlap_witness :
  let s := demo_signer_impl 1 in
  ∃ signers1 signers2,
    header_sealed s (sealed 5 [1; 2; 3]) (demo_set 4) signers1 ∧
    header_sealed s (sealed 6 [2; 3; 4]) (demo_set 4) signers2 ∧
    CalcMaxFaultyNodes (demo_set 4) < zlen (filter (λ a, a ∈ signers2) signers1).
Proof.
  destruct (committed_headers_overlap (demo_signer_impl 1) (demo_signer_impl 1) (sealed 5 [1; 2; 3])
    (sealed 6 [2; 3; 4]) (demo_set 4)) as (l1 & l2 & H1 & H2 & _ & _ & _ & Hf).
  - apply demo_set_ok.
  - by vm_compute.
  - by vm_compute.
  - by vm_compute.
  - exists l1, l2. split; [exact H1|]. split; [exact H2|exact Hf].
Defined.

Lemma committed_seals_written_witness :
  let s := demo_signer_impl 1 in
  let m := demo_seals (unsealed 5) [1; 2; 3] in
  ∃ e cs, GetIBFTExtra s (unsealed 5) = Returns e ∧
    GenerateCommittedSeals (keyManager s) m (exValidators e) = Returns cs ∧
    GetIBFTExtra s (sealed 5 [1; 2; 3]) = Returns (set_committed_seals cs e) ∧
    CalculateHeaderHash s (sealed 5 [1; 2; 3]) = CalculateHeaderHash s (unsealed 5).
Proof.
  apply (committed_seals_written (demo_signer_impl 1) (unsealed 5) (sealed 5 [1; 2; 3])). by vm_compute.
Defined.

Lemma proposer_recovered_witness :
  let s := demo_signer_impl 2 in
  let header' := returned newHeader (WriteProposerSeal s (unsealed 5)) in
  ∃ hash, CalculateHeaderHash s (unsealed 5) = Returns hash ∧ CalculateHeaderHash s header' = Returns hash ∧
    EcrecoverFromHeader s (set_hHash hash header') = Returns (PubKeyToAddress (public (demo_privkey 2))).
Proof.
  apply (proposer_recovered (demo_signer_impl 2) (unsealed 5)).
  - intros h sig E. apply Some_inj in E as <-. by left.
  - by vm_compute.
Defined.

(** A signer after a switch from BLS to ECDSA validators. *)
Definition switched_signer : SignerImpl :=
  NewSignerImpl (NewECDSAKeyManagerFromKey (demo_privkey 1)) (Some (NewBLSKeyManagerFromKeys (demo_privkey 1) tt)).

Lemma bls_missing_parent_seals_panic_witness :
  CalculateHeaderHash switched_signer (initIbftExtra switched_signer
    (mkHeader ZeroHash ZeroHash ZeroAddress ZeroHash ZeroHash ZeroHash ZeroBloom 2 2 0 0 0 [] ZeroHash
       (replicate 8 0) ZeroHash) (demo_set 4) None) = Panics.
Proof. by eapply bls_missing_parent_seals_panic; [done|apply demo_set_ok|done|by vm_compute]. Defined.

End SignerExamples.
