(* ===== verification/Snapshot.v ===== *)
(** * The snapshot validator store (validators/store/snapshot)

    Proof-of-authority validator sets: every header may carry one vote to
    add or remove a validator, votes are tallied in a snapshot, a snapshot is
    stored when a header changes it, and the set at a height is the one of
    the closest stored snapshot. A snapshot is deep-copied before it is
    changed, so stored ones are values here. The logger and the locks, held
    throughout each operation, are left out. The blockchain, the signers and
    the order [sort.Sort] gives equal elements are parameters. *)

From stdpp Require Import sorting.
From S2P Require Import Prelude BigInt Types Rlp BlockTypes Hex Result Validators.
#[local] Open Scope Z_scope.

(** ** store/types.go *)

Record Vote := mkVote {
  voter : Address;        (** [Validator] *)
  voteFor : Validator;    (** [Candidate] *)
  voteAuth : bool;        (** [Authorize] *)
}.

Definition Vote_Equal (v vv : Vote) : bool :=
  if negb (bool_decide (voter v = voter vv)) then false else
  if negb (Validator_Equal (voteFor v) (voteFor vv)) then false else
  if negb (bool_decide (voteAuth v = voteAuth vv)) then false else true.

Definition Vote_Copy (v : Vote) : Vote := mkVote (voter v) (Validator_Copy (voteFor v)) (voteAuth v).

Record Candidate := mkCandidate {
  cdValidator : Validator;
  cdAuth : bool;
}.

(** ** types.go: snapshots *)

Record Snapshot := mkSnap {
  snNumber : Z;
  snHash : list Z;
  snVotes : list Vote;
  snSet : VSet;
}.

Definition set_votes (votes : list Vote) (s : Snapshot) : Snapshot := mkSnap (snNumber s) (snHash s) votes (snSet s).
Definition set_set (set : VSet) (s : Snapshot) : Snapshot := mkSnap (snNumber s) (snHash s) (snVotes s) set.

Fixpoint votes_equal (l k : list Vote) : bool :=
  match l, k with
  | v :: l, w :: k => Vote_Equal v w && votes_equal l k
  | _, _ => true
  end.

Definition Snapshot_Equal (s ss : Snapshot) : bool :=
  if negb (zlen (snVotes s) =? zlen (snVotes ss)) then false else
  if negb (votes_equal (snVotes s) (snVotes ss)) then false else Set_Equal (snSet s) (snSet ss).

Definition Count (h : Vote → bool) (s : Snapshot) : Z := zlen (filter (λ v, h v = true) (snVotes s)).

Definition AddVote (voter : Address) (candidate : Validator) (authorize : bool) (s : Snapshot) : Snapshot :=
  set_votes (snVotes s ++ [mkVote voter candidate authorize]) s.

(** The number and the hash are not copied. *)
Definition Snapshot_Copy (s : Snapshot) : Snapshot := mkSnap 0 [] (Vote_Copy <$> snVotes s) (Set_Copy (snSet s)).

Definition CountByVoterAndCandidate (voter_ : Address) (candidate : Validator) (s : Snapshot) : Z :=
  Count (λ v, bool_decide (voter v = voter_) && Validator_Equal (voteFor v) candidate) s.

Definition CountByCandidate (candidate : Validator) (s : Snapshot) : Z :=
  Count (λ v, Validator_Equal (voteFor v) candidate) s.

Definition RemoveVotes (shouldRemove : Vote → bool) (s : Snapshot) : Snapshot :=
  set_votes (filter (λ v, shouldRemove v = false) (snVotes s)) s.

Definition RemoveVotesByVoter (address : Address) (s : Snapshot) : Snapshot :=
  RemoveVotes (λ v, bool_decide (voter v = address)) s.

Definition RemoveVotesByCandidate (candidate : Validator) (s : Snapshot) : Snapshot :=
  RemoveVotes (λ v, Validator_Equal (voteFor v) candidate) s.

(** ** types.go: the store of snapshots *)

(** [sort.Search(n, f)] *)
Fixpoint search_loop (fuel : nat) (f : nat → bool) (i j : nat) : nat :=
  match fuel with
  | O => i
  | S fuel =>
      if (i <? j)%nat then
        let h := ((i + j) / 2)%nat in
        if f h then search_loop fuel f i h else search_loop fuel f (S h) j
      else i
  end.

Definition sortSearch (n : nat) (f : nat → bool) : nat := search_loop n f 0 n.

(** [sort.Sort] of a list of snapshots by number: documented to sort, not
    to keep the order of equal elements. *)
Class SortSnaps := sortSnaps : list Snapshot → list Snapshot.

Class SortSnapsLaws `{SortSnaps} : Prop := {
  sortSnaps_perm l : sortSnaps l ≡ₚ l;
  sortSnaps_sorted l : Sorted Z.le (snNumber <$> sortSnaps l);
}.

Record snapshotStore := mkStore {
  lastNumber : Z;
  snaps : list Snapshot;   (** [list] *)
}.

Definition updateLastBlock (num : Z) (s : snapshotStore) : snapshotStore := mkStore num (snaps s).
Definition set_snaps (l : list Snapshot) (s : snapshotStore) : snapshotStore := mkStore (lastNumber s) l.

(** A test on the element at an index. *)
Definition at_index (f : Snapshot → bool) (l : list Snapshot) (i : nat) : bool :=
  match l !! i with Some x => f x | None => false end.

(** [None] is nil. *)
Definition find (num : Z) (s : snapshotStore) : option Snapshot :=
  match last (snaps s) with
  | None => None
  | Some l =>
      if snNumber l <? num then Some l else
      let i := sortSearch (length (snaps s)) (at_index (λ x, num <=? snNumber x) (snaps s)) in
      match snaps s !! i with
      | Some x =>
          if (i =? 0)%nat then Some x else
          if snNumber x =? num then Some x else snaps s !! (i - 1)%nat
      | None => None
      end
  end.

(** The binary search: the position of the number, or the two positions it
    lies between. [None] is an index out of range. *)
Fixpoint closest_loop (fuel : nat) (l : list Snapshot) (num low high : Z) : option (Z + Z * Z) :=
  match fuel with
  | O => None
  | S fuel =>
      if high <? low then Some (inr (low, high)) else
      let mid := Z.quot (high + low) 2 in
      x ← l !! Z.to_nat mid;
      if num <? snNumber x then closest_loop fuel l num low (mid - 1)
      else if snNumber x <? num then closest_loop fuel l num (mid + 1) high
      else Some (inl mid)
  end.

(** [None] is a panic. *)
Definition findClosestSnapshotIndex (num : Z) (s : snapshotStore) : option Z :=
  first ← snaps s !! 0%nat;
  if num <? snNumber first then Some 0 else
  lst ← last (snaps s);
  if snNumber lst <? num then Some (zlen (snaps s) - 1) else
  r ← closest_loop (S (length (snaps s))) (snaps s) num 0 (zlen (snaps s) - 1);
  match r with
  | inl mid => Some mid
  | inr (low, high) =>
      if high <? 0 then None else
      xl ← snaps s !! Z.to_nat low;
      xh ← snaps s !! Z.to_nat high;
      if u64 (snNumber xl - num) <? u64 (num - snNumber xh) then Some high else Some low
  end.

Definition deleteLower (num : Z) (s : snapshotStore) : option snapshotStore :=
  pruneIndex ← findClosestSnapshotIndex num s;
  Some (set_snaps (drop (Z.to_nat pruneIndex) (snaps s)) s).

Section store.
Context `{SortSnaps}.

(** [add] *)
Definition addSnap (snap : Snapshot) (s : snapshotStore) : snapshotStore :=
  set_snaps (sortSnaps (snaps s ++ [snap])) s.

Definition putByNumber (snap : Snapshot) (s : snapshotStore) : snapshotStore :=
  let i := sortSearch (length (snaps s)) (at_index (λ x, snNumber x =? snNumber snap) (snaps s)) in
  if (i <? length (snaps s))%nat then set_snaps (<[i := snap]> (snaps s)) s
  else set_snaps (sortSnaps (snaps s ++ [snap])) s.

Definition loadData (metadata : option Z) (snapshots : list Snapshot) (s : snapshotStore) : snapshotStore :=
  let s := match metadata with Some LastBlock => updateLastBlock LastBlock s | None => s end in
  fold_left (λ s snap, addSnap snap s) snapshots s.

Definition newSnapshotStore (metadata : option Z) (snapshots : list Snapshot) : snapshotStore :=
  loadData metadata snapshots (mkStore 0 []).

End store.

(** ** snapshot.go and helper.go *)

Definition nonceAuthVote : list Z := replicate 8 255.
Definition nonceDropVote : list Z := replicate 8 0.

Inductive serror :=
  | ErrInvalidNonce
  | ErrSnapshotNotFound
  | ErrUnauthorizedProposer
  | ErrIncorrectNonce
  | ErrAlreadyCandidate
  | ErrCandidateIsValidator
  | ErrCandidateNotExistInSet
  | ErrAlreadyVoted
  | ErrMultipleVotesBySameValidator
  | ErrHeaderNotFound
  | ErrGetSigner
  | ErrSignerNotFound
  | ErrEcrecover
  | ErrGetValidators
  | ErrValidators (e : verror).

(** An error of package validators. *)
Definition lift_verror {A} (r : result verror A) : result serror A :=
  match r with Returns a => Returns a | Errors e => Errors (ErrValidators e) | Panics => Panics end.

(** [SignerInterface]; [None] is an error. *)
Record SignerInterface := {
  sgType : ValidatorType;
  sgEcrecoverFromHeader : Header → option Address;
  sgGetValidators : Header → option VSet;
}.

(** [HeaderGetter] *)
Record HeaderGetter := {
  hgHeader : Header;
  hgGetHeaderByNumber : Z → option Header;
}.

Record SnapshotValidatorStore := mkSVS {
  svStore : snapshotStore;
  svCandidates : list Candidate;
}.

Definition set_store (s : snapshotStore) (sv : SnapshotValidatorStore) : SnapshotValidatorStore :=
  mkSVS s (svCandidates sv).
Definition set_candidates (c : list Candidate) (sv : SnapshotValidatorStore) : SnapshotValidatorStore :=
  mkSVS (svStore sv) c.

Definition isAuthorize (nonce : list Z) : result serror bool :=
  if bool_decide (nonce = nonceAuthVote) then Returns true else
  if bool_decide (nonce = nonceDropVote) then Returns false else Errors ErrIncorrectNonce.

Definition shouldProcessVote (validators : VSet) (candidate : Address) (voteAction : bool) : bool :=
  negb (eqb voteAction (Includes validators candidate)).

Definition addsOrDelsCandidate (validators : VSet) (candidate : Validator) (updateAction : bool) : result verror VSet :=
  if updateAction then Add validators candidate else Del validators candidate.

Section snapshot.
Context `{Rlp, SortSnaps}.
(** The fields of the store that never change. *)
Variable blockchain : HeaderGetter.
Variable getSigner : Z → option (option SignerInterface).   (** [None] is an error, [Some None] nil *)
Variable epochSize : Z.

Definition validatorToMiner (validator : Validator) : list Z :=
  match validator with
  | ECDSAValidator a => a
  | BLSValidator _ _ => Validator_Bytes validator
  end.

Definition minerToValidator (t : ValidatorType) (miner : list Z) : result verror Validator :=
  validator ← NewValidatorFromType t;
  match validator with
  | ECDSAValidator _ => Returns (ECDSAValidator (BytesToAddress miner))
  | BLSValidator _ _ => SetFromBytes validator miner
  end.

Definition processVote (snapshot : Snapshot) (header : Header) (candidateType : ValidatorType) (proposer : Address)
    : result serror Snapshot :=
  authorize ← isAuthorize (hNonce header);
  candidate ← lift_verror (minerToValidator candidateType (hMiner header));
  if negb (shouldProcessVote (snSet snapshot) (Addr candidate) authorize) then Returns snapshot else
  let voteCount := CountByVoterAndCandidate proposer candidate snapshot in
  if 1 <? voteCount then Errors ErrMultipleVotesBySameValidator else
  let snapshot := if voteCount =? 0 then AddVote proposer candidate authorize snapshot else snapshot in
  let totalVotes := CountByCandidate candidate snapshot in
  if Len (snSet snapshot) / 2 <? totalVotes then
    set ← lift_verror (addsOrDelsCandidate (snSet snapshot) candidate authorize);
    let snapshot := set_set set snapshot in
    let snapshot := if negb authorize then RemoveVotesByVoter (Addr candidate) snapshot else snapshot in
    Returns (RemoveVotesByCandidate candidate snapshot)
  else Returns snapshot.

Definition saveSnapshotIfChanged (parentSnapshot snapshot : Snapshot) (header : Header) (s : snapshotStore)
    : snapshotStore :=
  if Snapshot_Equal snapshot parentSnapshot then s
  else addSnap (mkSnap (hNumber header) (Hash_String (hHash header)) (snVotes snapshot) (snSet snapshot)) s.

Definition resetSnapshot (parentSnapshot snapshot : Snapshot) (header : Header) (s : snapshotStore) : snapshotStore :=
  saveSnapshotIfChanged parentSnapshot (set_votes [] snapshot) header s.

(** [None] is a panic. *)
Definition removeLowerSnapshots (currentHeight : Z) (s : snapshotStore) : option snapshotStore :=
  let lowerEpoch := i64 (i64 (currentHeight / epochSize) - 2) in
  if 0 <? lowerEpoch then deleteLower (u64 (u64 lowerEpoch * epochSize)) s else Some s.

(** The calls [getSigner(number)] and the test for nil. *)
Definition signerAt (number : Z) : result serror SignerInterface :=
  o ← or_error ErrGetSigner (getSigner number); or_error ErrSignerNotFound o.

(** On an error the store is unchanged. *)
Definition ProcessHeader (header : Header) (sv : SnapshotValidatorStore) : result serror SnapshotValidatorStore :=
  signer ← signerAt (hNumber header);
  proposer ← or_error ErrEcrecover (sgEcrecoverFromHeader signer header);
  parentSnap ← or_error ErrSnapshotNotFound (find (u64 (hNumber header - 1)) (svStore sv));
  if negb (Includes (snSet parentSnap) proposer) then Errors ErrUnauthorizedProposer else
  let snap := Snapshot_Copy parentSnap in
  if epochSize =? 0 then Panics else
  if hNumber header mod epochSize =? 0 then
    s ← or_panic (removeLowerSnapshots (hNumber header) (resetSnapshot parentSnap snap header (svStore sv)));
    Returns (set_store (updateLastBlock (hNumber header) s) sv)
  else if bool_decide (hMiner header = ZeroAddress) then
    Returns (set_store (updateLastBlock (hNumber header) (svStore sv)) sv)
  else
    snap ← processVote snap header (sgType signer) proposer;
    let s := updateLastBlock (hNumber header) (svStore sv) in
    Returns (set_store (saveSnapshotIfChanged parentSnap snap header s) sv).

(** The iterations of the loop from [i], [n] at most; the headers before a
    failing one have been processed. *)
Fixpoint process_range (n : nat) (i : Z) (sv : SnapshotValidatorStore)
    : result (serror * SnapshotValidatorStore) SnapshotValidatorStore :=
  match n with
  | O => Returns sv
  | S n =>
      if i =? 0 then process_range n (i + 1) sv else
      match hgGetHeaderByNumber blockchain i with
      | None => Errors (ErrHeaderNotFound, sv)
      | Some header =>
          match ProcessHeader header sv with
          | Returns sv => process_range n (i + 1) sv
          | Errors e => Errors (e, sv)
          | Panics => Panics
          end
      end
  end.

(** For [to < 2 ^ 64 - 1]; the loop does not end at the largest number. *)
Definition ProcessHeadersInRange (from to : Z) (sv : SnapshotValidatorStore)
    : result (serror * SnapshotValidatorStore) SnapshotValidatorStore :=
  process_range (Z.to_nat (to - from + 1)) from sv.

Definition addHeaderSnap (header : Header) (sv : SnapshotValidatorStore) : result serror SnapshotValidatorStore :=
  signer ← signerAt (hNumber header);
  validators ← or_error ErrGetValidators (sgGetValidators signer header);
  Returns (set_store (addSnap (mkSnap (hNumber header) (Hash_String (hHash header)) [] validators) (svStore sv)) sv).

(** The part of [initialize] that catches up from the last block. *)
Definition catch_up (header : Header) (sv : SnapshotValidatorStore) : result serror SnapshotValidatorStore :=
  let lastBlock := lastNumber (svStore sv) in
  if lastBlock <? hNumber header then
    match ProcessHeadersInRange (u64 (lastBlock + 1)) (hNumber header) sv with
    | Returns sv => Returns sv
    | Errors (e, _) => Errors e
    | Panics => Panics
    end
  else Returns sv.

Definition initialize (sv : SnapshotValidatorStore) : result serror SnapshotValidatorStore :=
  let header := hgHeader blockchain in
  let metaLastBlock := lastNumber (svStore sv) in
  sv ← (if hNumber header =? 0 then addHeaderSnap header sv else Returns sv);
  if epochSize =? 0 then Panics else
  let currentEpoch := hNumber header / epochSize in
  let metaEpoch := metaLastBlock / epochSize in
  let snapshot := find (hNumber header) (svStore sv) in
  if bool_decide (snNumber <$> snapshot = None) || (metaEpoch <? currentEpoch) then
    let beginHeight := u64 (currentEpoch * epochSize) in
    beginHeader ← or_error ErrHeaderNotFound (hgGetHeaderByNumber blockchain beginHeight);
    sv ← addHeaderSnap beginHeader sv;
    catch_up header (set_store (updateLastBlock beginHeight (svStore sv)) sv)
  else catch_up header sv.

Definition NewSnapshotValidatorStore (metadata : option Z) (snapshots : list Snapshot)
    : result serror SnapshotValidatorStore :=
  initialize (mkSVS (newSnapshotStore metadata snapshots) []).

Definition GetValidatorsByHeight (height : Z) (sv : SnapshotValidatorStore) : result serror VSet :=
  snapshot ← or_error ErrSnapshotNotFound (find height (svStore sv)); Returns (snSet snapshot).

Definition Votes (height : Z) (sv : SnapshotValidatorStore) : result serror (list Vote) :=
  snapshot ← or_error ErrSnapshotNotFound (find height (svStore sv)); Returns (snVotes snapshot).

Definition UpdateValidatorSet (newValidators : VSet) (fromHeight : Z) (sv : SnapshotValidatorStore)
    : result serror SnapshotValidatorStore :=
  let snapshotHeight := u64 (fromHeight - 1) in
  header ← or_error ErrHeaderNotFound (hgGetHeaderByNumber blockchain snapshotHeight);
  Returns (set_store (putByNumber (mkSnap (hNumber header) (Hash_String (hHash header)) [] newValidators)
                        (svStore sv)) sv).

(** *** Candidates *)

Definition cleanObsoleteCandidates (set : VSet) (sv : SnapshotValidatorStore) : SnapshotValidatorStore :=
  set_candidates
    (filter (λ c, eqb (cdAuth c) (Includes set (Addr (cdValidator c))) = false) (svCandidates sv)) sv.

Definition pickOneCandidate (snap : Snapshot) (proposer : Address) (sv : SnapshotValidatorStore) : option Candidate :=
  List.find (λ c,
    Count (λ v, bool_decide (Addr (voteFor v) = Addr (cdValidator c)) && bool_decide (voter v = proposer)) snap =? 0)
    (svCandidates sv).

Definition getNextCandidate (snap : Snapshot) (proposer : Address) (sv : SnapshotValidatorStore)
    : option Candidate * SnapshotValidatorStore :=
  let sv := cleanObsoleteCandidates (snSet snap) sv in (pickOneCandidate snap proposer sv, sv).

Definition set_vote_fields (miner nonce : list Z) (h : Header) : Header :=
  mkHeader (hParentHash h) (hSha3Uncles h) miner (hStateRoot h) (hTxRoot h) (hReceiptsRoot h) (hLogsBloom h)
    (hDifficulty h) (hNumber h) (hGasLimit h) (hGasUsed h) (hTimestamp h) (hExtraData h) (hMixHash h) nonce (hHash h).

Definition ModifyHeader (header : Header) (proposer : Address) (sv : SnapshotValidatorStore)
    : result serror (Header * SnapshotValidatorStore) :=
  snapshot ← or_error ErrSnapshotNotFound (find (hNumber header) (svStore sv));
  let '(candidate, sv) := getNextCandidate snapshot proposer sv in
  match candidate with
  | Some c =>
      Returns (set_vote_fields (validatorToMiner (cdValidator c))
                 (if cdAuth c then nonceAuthVote else nonceDropVote) header, sv)
  | None => Returns (header, sv)
  end.

Definition svVerifyHeader (header : Header) : result serror unit :=
  if negb (bool_decide (hNonce header = nonceAuthVote)) && negb (bool_decide (hNonce header = nonceDropVote))
  then Errors ErrInvalidNonce else Returns tt.

Definition addCandidate (validators : VSet) (candidate : Validator) (authorize : bool) (sv : SnapshotValidatorStore)
    : result serror SnapshotValidatorStore :=
  if authorize then Returns (set_candidates (svCandidates sv ++ [mkCandidate candidate authorize]) sv) else
  let validatorIndex := Index validators (Addr candidate) in
  if validatorIndex =? -1 then Errors ErrCandidateNotExistInSet else
  v ← or_panic (Set_At validators validatorIndex);
  Returns (set_candidates (svCandidates sv ++ [mkCandidate v authorize]) sv).

Definition Propose (candidate : Validator) (auth : bool) (proposer : Address) (sv : SnapshotValidatorStore)
    : result serror SnapshotValidatorStore :=
  if existsb (λ c, bool_decide (Addr (cdValidator c) = Addr candidate)) (svCandidates sv)
  then Errors ErrAlreadyCandidate else
  snap ← or_error ErrSnapshotNotFound (find (lastNumber (svStore sv)) (svStore sv));
  let included := Includes (snSet snap) (Addr candidate) in
  if auth && included then Errors ErrCandidateIsValidator else
  if negb auth && negb included then Errors ErrCandidateNotExistInSet else
  if CountByVoterAndCandidate proposer candidate snap =? 1 then Errors ErrAlreadyVoted else
  addCandidate (snSet snap) candidate auth sv.

End snapshot.
