(* ===== verification/SnapshotProps.v ===== *)
(** * The snapshot store keeps the history of the votes

    The two binary searches of the store on a list in strictly increasing
    order of numbers: [find] returns the last snapshot at or below the
    number, or the first one; [findClosestSnapshotIndex] returns an index of
    the list. [vote_step] is what a header does to the validators and the
    pending votes. The store, which saves only changes, prunes old snapshots
    and searches the rest, answers for every height from its oldest snapshot
    on as if the state after each header had been recorded. *)

From stdpp Require Import sorting.
From S2P Require Import Prelude BigInt Types Rlp BlockTypes Hex Result Validators ValidatorsProps Quorum Snapshot.
#[local] Open Scope Z_scope.

(** Strictly increasing numbers. *)
Definition increasing (l : list Snapshot) : Prop := StronglySorted Z.lt (snNumber <$> l).

Lemma increasing_cons x l :
  increasing (x :: l) ↔ increasing l ∧ Forall (λ y, snNumber x < snNumber y) l.
Proof.
  unfold increasing. rewrite fmap_cons, StronglySorted_cons, Forall_fmap. tauto.
Qed.

Lemma increasing_app l k :
  increasing (l ++ k) ↔ increasing l ∧ increasing k ∧ ∀ x y, x ∈ l → y ∈ k → snNumber x < snNumber y.
Proof.
  induction l as [|z l IH]; simpl.
  - split; [|tauto]. intros Hk. split_and!; [constructor|done|]. intros x y []%elem_of_nil.
  - rewrite !increasing_cons, IH, Forall_app, !Forall_forall. split.
    + intros ((Hl & Hk & Hlk) & Hzl & Hzk). split_and!; [done..|].
      intros x y [->|Hx]%elem_of_cons Hy; auto.
    + intros ((Hl & Hzl) & Hk & Hlk). split_and!; [done|done| |done|].
      * intros x y Hx Hy. apply Hlk; [by apply list_elem_of_further|done].
      * intros y Hy. apply Hlk; [apply list_elem_of_here|done].
Qed.

Lemma increasing_lookup l i j x y :
  increasing l → l !! i = Some x → l !! j = Some y → (i < j)%nat → snNumber x < snNumber y.
Proof.
  intros Hl Hi Hj Hij. rewrite <- (take_drop j l) in Hl. apply increasing_app in Hl as (_ & _ & Hl).
  apply Hl; apply list_elem_of_lookup.
  - exists i. by rewrite lookup_take_lt.
  - exists 0%nat. by rewrite lookup_drop, Nat.add_0_r.
Qed.

(** A sorted permutation of a list in strictly increasing order is the list
    itself, whatever the order given to equal elements. *)
Lemma sorted_increasing l l' :
  increasing l → l' ≡ₚ l → Sorted Z.le (snNumber <$> l') → l' = l.
Proof.
  revert l'. induction l as [|x l IH]; intros l' Hl Hp Hs; [by apply Permutation_nil_r in Hp|].
  destruct l' as [|y l']; [by apply Permutation_nil_l in Hp|]. apply increasing_cons in Hl as [Hl Hx].
  apply Sorted_StronglySorted in Hs; [|intros ? ? ?; lia].
  rewrite fmap_cons in Hs. apply StronglySorted_cons in Hs as [Hy Hs]. rewrite Forall_fmap in Hy.
  assert (y = x) as ->.
  { assert (y ∈ x :: l) as [->|Hyl]%elem_of_cons by (rewrite <- Hp; apply list_elem_of_here); [done|].
    assert (x ∈ y :: l') as [->|Hxl]%elem_of_cons by (rewrite Hp; apply list_elem_of_here); [done|].
    rewrite Forall_forall in Hx, Hy. specialize (Hx _ Hyl). specialize (Hy _ Hxl). simpl in Hy. lia. }
  f_equal. apply IH; [done|by apply Permutation_cons_inv in Hp|by apply StronglySorted_Sorted].
Qed.

(** ** find *)

Lemma search_loop_spec fuel f i j k :
  (i ≤ k ≤ j)%nat → (j - i ≤ fuel)%nat →
  (∀ h, (i ≤ h < k)%nat → f h = false) → (∀ h, (k ≤ h < j)%nat → f h = true) →
  search_loop fuel f i j = k.
Proof.
  revert i j. induction fuel as [|fuel IH]; intros i j Hk Hf Hlo Hhi; [simpl; lia|]. cbn [search_loop].
  destruct (Nat.ltb_spec i j); [|lia].
  assert (i ≤ (i + j) / 2 < j)%nat as Hh.
  { pose proof (Nat.div_mod_eq (i + j) 2). pose proof (Nat.mod_upper_bound (i + j) 2 ltac:(lia)). lia. }
  set (h := ((i + j) / 2)%nat) in *. destruct (f h) eqn:E.
  - apply IH; [|lia|done|intros; apply Hhi; lia]. split; [lia|].
    destruct (decide (k ≤ h)%nat); [done|]. by rewrite Hlo in E by lia.
  - apply IH; [|lia|intros; apply Hlo; lia|done]. split; [|lia].
    destruct (decide (S h ≤ k)%nat); [done|]. by rewrite Hhi in E by lia.
Qed.

Lemma sortSearch_spec n f k :
  (k ≤ n)%nat → (∀ h, (h < k)%nat → f h = false) → (∀ h, (k ≤ h < n)%nat → f h = true) → sortSearch n f = k.
Proof. intros Hk Hlo Hhi. apply search_loop_spec; [lia|lia|intros; apply Hlo; lia|done]. Qed.

(** The split of a list at the snapshot that serves a number. *)
Definition serves (num : Z) (l l1 : list Snapshot) (x : Snapshot) (l2 : list Snapshot) : Prop :=
  l = l1 ++ x :: l2 ∧ (l1 = [] ∨ snNumber x ≤ num) ∧ Forall (λ y, num < snNumber y) l2.

Lemma serves_exists num l : increasing l → l ≠ [] → ∃ l1 x l2, serves num l l1 x l2.
Proof.
  induction l as [|x l IH]; intros Hl Hne; [done|]. apply increasing_cons in Hl as [Hl Hx].
  destruct l as [|y l]; [exists [], x, []; repeat split; by left||constructor|].
  destruct (decide (snNumber y ≤ num)) as [Hy|Hy].
  - destruct IH as (l1 & z & l2 & E & Hz & Hl2); [done..|]. exists (x :: l1), z, l2.
    split; [by rewrite E|]. split; [|done]. right. destruct Hz as [->|Hz]; [|done]. by simplify_eq/=.
  - exists [], x, (y :: l). split; [done|]. split; [by left|].
    apply increasing_cons in Hl as [_ Hl]. constructor; [lia|]. eapply Forall_impl; [exact Hl|]. simpl. lia.
Qed.

(** The index [sort.Search] returns for a number. *)
Lemma search_serves num l l1 x l2 :
  increasing l → serves num l l1 x l2 →
  sortSearch (length l) (at_index (λ y, num <=? snNumber y) l)
  = if snNumber x <? num then S (length l1) else length l1.
Proof.
  intros Hl (-> & Hx & Hl2). apply increasing_app in Hl as (_ & Hxl & Hlx).
  assert (∀ h, (h < length l1)%nat → snNumber x ≤ num → at_index (λ y, num <=? snNumber y) (l1 ++ x :: l2) h = false) as Hlo.
  { intros h Hh Hxn. destruct (lookup_lt_is_Some_2 l1 h Hh) as [y Hy]. unfold at_index.
    rewrite lookup_app_l, Hy by done. apply Z.leb_gt.
    pose proof (Hlx y x (list_elem_of_lookup_2 _ _ _ Hy) (list_elem_of_here _ _)). lia. }
  assert (∀ h, (length l1 < h < length (l1 ++ x :: l2))%nat → at_index (λ y, num <=? snNumber y) (l1 ++ x :: l2) h = true) as Hhi.
  { intros h Hh. unfold at_index. rewrite lookup_app_r by lia. rewrite length_app in Hh. cbn [length] in Hh.
    destruct (h - length l1)%nat as [|m] eqn:Em; [lia|]. change ((x :: l2) !! S m) with (l2 !! m).
    destruct (lookup_lt_is_Some_2 l2 m) as [y Hy]; [lia|]. rewrite Hy. apply Z.leb_le.
    rewrite Forall_forall in Hl2. pose proof (Hl2 y (list_elem_of_lookup_2 _ _ _ Hy)). lia. }
  assert (at_index (λ y, num <=? snNumber y) (l1 ++ x :: l2) (length l1) = (num <=? snNumber x)) as Hat.
  { unfold at_index. by rewrite list_lookup_middle. }
  destruct (Z.ltb_spec (snNumber x) num) as [Hlt|Hge].
  - apply sortSearch_spec; [rewrite length_app; simpl; lia| |intros; apply Hhi; lia].
    intros h Hh. destruct (decide (h = length l1)) as [->|]; [rewrite Hat; apply Z.leb_gt; lia|]. apply Hlo; lia.
  - apply sortSearch_spec; [rewrite length_app; simpl; lia| |].
    + intros h Hh. destruct Hx as [->|Hx]; [simpl in Hh; lia|]. by apply Hlo.
    + intros h Hh. destruct (decide (h = length l1)) as [->|]; [rewrite Hat; by apply Z.leb_le|]. apply Hhi; lia.
Qed.

Lemma last_split (l : list Snapshot) l1 x l2 y :
  l = l1 ++ x :: l2 → last l = Some y → (l2 = [] ∧ y = x) ∨ y ∈ l2.
Proof.
  intros ->. rewrite last_app_cons. destruct l2 as [|z l2]; [intros [= ->]; by left|].
  intros Hy. right. rewrite last_cons_cons in Hy. apply list_elem_of_lookup. rewrite last_lookup in Hy. by eexists.
Qed.

Lemma find_serves num s l1 x l2 :
  increasing (snaps s) → serves num (snaps s) l1 x l2 → find num s = Some x.
Proof.
  intros Hl Hs. pose proof (search_serves num _ l1 x l2 Hl Hs) as Hi. destruct Hs as (E & Hx & Hl2).
  unfold find. destruct (last (snaps s)) as [y|] eqn:Elast.
  2:{ apply last_None in Elast. rewrite Elast in E. by destruct l1. }
  destruct (last_split _ _ _ _ _ E Elast) as [[-> ->]|Hy].
  - destruct (Z.ltb_spec (snNumber x) num) as [Hlt|Hge]; [done|]. rewrite Hi, E, list_lookup_middle by done.
    destruct Hx as [->|Hx]; [done|]. destruct l1; [done|]. cbn [length Nat.eqb]. by rewrite (proj2 (Z.eqb_eq _ _)) by lia.
  - rewrite Forall_forall in Hl2. pose proof (Hl2 _ Hy) as Hny. rewrite (proj2 (Z.ltb_ge _ _)) by lia. rewrite Hi.
    destruct (Z.ltb_spec (snNumber x) num) as [Hlt|Hge].
    + rewrite E. destruct l2 as [|z l2]; [by apply elem_of_nil in Hy|].
      rewrite lookup_app_r by lia. replace (S (length l1) - length l1)%nat with 1%nat by lia. cbn [lookup list_lookup Nat.eqb].
      pose proof (Hl2 z (list_elem_of_here _ _)). rewrite (proj2 (Z.eqb_neq _ _)) by lia.
      replace (S (length l1) - 1)%nat with (length l1) by lia. by apply list_lookup_middle.
    + rewrite E, list_lookup_middle by done. destruct Hx as [->|Hx]; [done|]. destruct l1; [done|].
      cbn [length Nat.eqb]. by rewrite (proj2 (Z.eqb_eq _ _)) by lia.
Qed.

(** ** findClosestSnapshotIndex *)

(** The searched interval and what lies outside it. *)
Definition between (l : list Snapshot) (num low high : Z) : Prop :=
  0 ≤ low ≤ high + 1 ∧ high < zlen l ∧
  (∀ i x, l !! i = Some x → Z.of_nat i < low → snNumber x < num) ∧
  (∀ i x, l !! i = Some x → high < Z.of_nat i → num < snNumber x).

Lemma closest_loop_spec fuel l num low high :
  increasing l → between l num low high → high - low + 1 < Z.of_nat fuel →
  (∃ mid, closest_loop fuel l num low high = Some (inl mid) ∧ 0 ≤ mid < zlen l) ∨
  (∃ low' high', closest_loop fuel l num low high = Some (inr (low', high')) ∧ low' = high' + 1 ∧ between l num low' high').
Proof.
  intros Hl. revert low high. induction fuel as [|fuel IH]; intros low high Hb Hf; [destruct Hb; lia|].
  cbn [closest_loop]. destruct (Z.ltb_spec high low) as [Hlt|Hge].
  - right. exists low, high. split; [done|]. split; [destruct Hb; lia|done].
  - destruct Hb as (Hlh & Hhl & Hlo & Hhi). set (mid := Z.quot (high + low) 2).
    assert (low ≤ mid ≤ high) as Hm.
    { unfold mid. rewrite Z.quot_div_nonneg by lia. split; [apply Z.div_le_lower_bound; lia|].
      apply Z.div_le_upper_bound; lia. }
    destruct (lookup_lt_is_Some_2 l (Z.to_nat mid)) as [x Hx]; [unfold zlen in *; lia|].
    rewrite Hx. cbn [mbind option_bind]. destruct (Z.ltb_spec num (snNumber x)) as [Hn|Hn].
    + apply IH; [|lia]. repeat split; [lia..|done|]. intros i y Hy Hi.
      destruct (decide (i = Z.to_nat mid)) as [->|]; [by simplify_eq|].
      pose proof (increasing_lookup l (Z.to_nat mid) i x y Hl Hx Hy). lia.
    + destruct (Z.ltb_spec (snNumber x) num) as [Hn'|Hn'].
      * apply IH; [|lia]. repeat split; [lia..| |done]. intros i y Hy Hi.
        destruct (decide (i = Z.to_nat mid)) as [->|]; [by simplify_eq|].
        pose proof (increasing_lookup l i (Z.to_nat mid) y x Hl Hy Hx). lia.
      * left. exists mid. split; [done|lia].
Qed.

(** The index is one of the list: pruning never panics on a non-empty list. *)
Lemma findClosest_range num s :
  increasing (snaps s) → snaps s ≠ [] → ∃ i, findClosestSnapshotIndex num s = Some i ∧ 0 ≤ i < zlen (snaps s).
Proof.
  intros Hl Hne. unfold findClosestSnapshotIndex. set (l := snaps s) in *. assert (0 < zlen l) as Hz.
  { unfold zlen. destruct l; [done|]. simpl. lia. }
  destruct (lookup_lt_is_Some_2 l 0%nat) as [x0 H0]; [unfold zlen in *; lia|]. rewrite H0. cbn [mbind option_bind].
  destruct (Z.ltb_spec num (snNumber x0)); [exists 0; split; [done|lia]|].
  destruct (last l) as [y|] eqn:Ey; [|by apply last_None in Ey]. cbn [mbind option_bind].
  destruct (Z.ltb_spec (snNumber y) num); [exists (zlen l - 1); split; [done|lia]|].
  rewrite last_lookup in Ey.
  destruct (closest_loop_spec (S (length l)) l num 0 (zlen l - 1) Hl) as [(m & E & Hm)|(lo & hi & E & Hlh & Hb)].
  - repeat split; [lia..| |]; intros i z Hz' Hi; [lia|]. apply lookup_lt_Some in Hz'. unfold zlen in *. lia.
  - unfold zlen. lia.
  - rewrite E. cbn. by exists m.
  - rewrite E. cbn [mbind option_bind]. destruct Hb as (Hlo & Hhi & Hl1 & Hl2).
    assert (0 ≤ hi) as Hhi0.
    { destruct (decide (0 ≤ hi)); [done|]. pose proof (Hl2 0%nat x0 H0). lia. }
    assert (lo < zlen l) as Hlo0.
    { destruct (decide (lo < zlen l)); [done|]. pose proof (Hl1 _ y Ey). unfold zlen in *. lia. }
    rewrite (proj2 (Z.ltb_ge _ _)) by lia. unfold zlen in *.
    destruct (lookup_lt_is_Some_2 l (Z.to_nat lo)) as [xl Hxl]; [lia|].
    destruct (lookup_lt_is_Some_2 l (Z.to_nat hi)) as [xh Hxh]; [lia|].
    rewrite Hxl, Hxh. cbn [mbind option_bind]. case_match; eexists; (split; [done|lia]).
Qed.

(** What a snapshot records. *)
Abbreviation vstate := (VSet * list Vote)%type (only parsing).
Definition content (x : Snapshot) : vstate := (snSet x, snVotes x).

(** The history after one more header. *)
Definition record (n : Z) (a : vstate) (H : Z → vstate) : Z → vstate := λ h, if h =? n then a else H h.

(** ** Snapshots as values *)

Lemma Vote_Equal_eq v w : Vote_Equal v w = true ↔ v = w.
Proof.
  unfold Vote_Equal. destruct v as [a c b], w as [a' c' b']; simpl. pose proof (Validator_Equal_eq c c').
  repeat case_bool_decide; destruct (Validator_Equal c c'); simpl; naive_solver.
Qed.

Lemma votes_equal_eq l k : length l = length k → votes_equal l k = true ↔ l = k.
Proof.
  revert k. induction l as [|v l IH]; intros [|w k] Hl; simpl in Hl; [done..|]. simpl.
  rewrite andb_true_iff, Vote_Equal_eq, IH by lia. naive_solver.
Qed.

Lemma Snapshot_Equal_content s t : Snapshot_Equal s t = true ↔ content s = content t.
Proof.
  unfold Snapshot_Equal, content, zlen.
  destruct (Z.eqb_spec (Z.of_nat (length (snVotes s))) (Z.of_nat (length (snVotes t)))) as [Hl|Hl]; simpl.
  - pose proof (votes_equal_eq (snVotes s) (snVotes t) ltac:(lia)) as Hv.
    destruct (votes_equal _ _); simpl.
    + rewrite Set_Equal_eq. destruct Hv as [Hv _]. rewrite (Hv eq_refl). split; [by intros ->|by intros [= ?]].
    + split; [done|]. intros [= _ E]. by apply Hv in E.
  - split; [done|]. intros [= _ E]. rewrite E in Hl. done.
Qed.

Lemma Vote_Copy_id v : Vote_Copy v = v.
Proof. destruct v. unfold Vote_Copy. by rewrite Validator_Copy_id. Qed.

Lemma Snapshot_Copy_eq s : Snapshot_Copy s = mkSnap 0 [] (snVotes s) (snSet s).
Proof.
  unfold Snapshot_Copy. rewrite Set_Copy_id. f_equal.
  induction (snVotes s) as [|v l IH]; [done|]. by rewrite fmap_cons, IH, Vote_Copy_id.
Qed.

(** ** What a store records *)

Definition oldest (s : snapshotStore) : Z := default 0 (snNumber <$> head (snaps s)).

Record records (s : snapshotStore) (H : Z → vstate) : Prop := {
  rec_increasing : increasing (snaps s);
  rec_nonempty : snaps s ≠ [];
  rec_range : ∀ x, x ∈ snaps s → 0 ≤ snNumber x ≤ lastNumber s;
  rec_find : ∀ h, oldest s ≤ h ≤ lastNumber s → content <$> find h s = Some (H h);
}.

Lemma oldest_le s x : increasing (snaps s) → x ∈ snaps s → oldest s ≤ snNumber x.
Proof.
  intros Hi Hx. unfold oldest. destruct (snaps s) as [|y l]; [by apply elem_of_nil in Hx|]. simpl.
  apply increasing_cons in Hi as [_ Hi]. rewrite Forall_forall in Hi.
  apply elem_of_cons in Hx as [->|Hx]; [done|]. specialize (Hi _ Hx). lia.
Qed.

Lemma oldest_range s H : records s H → 0 ≤ oldest s ≤ lastNumber s.
Proof.
  intros Hr. unfold oldest. pose proof (rec_range _ _ Hr) as Hx. pose proof (rec_nonempty _ _ Hr) as Hne.
  destruct (snaps s) as [|x l]; [done|]. apply Hx, list_elem_of_here.
Qed.

(** The split at the snapshot for a height at or above the oldest one. *)
Lemma serves_ge s h : increasing (snaps s) → snaps s ≠ [] → oldest s ≤ h →
  ∃ l1 x l2, serves h (snaps s) l1 x l2 ∧ snNumber x ≤ h ∧ find h s = Some x.
Proof.
  intros Hi Hne Hh. destruct (serves_exists h (snaps s) Hi Hne) as (l1 & x & l2 & Hs).
  exists l1, x, l2. split; [done|]. split; [|by eapply find_serves].
  destruct Hs as (E & [->|Hx] & _); [|done]. unfold oldest in Hh. rewrite E in Hh. done.
Qed.

(** Nothing saved: the new height is served by the snapshot of the old one. *)
Lemma records_keep s H N a :
  records s H → N = lastNumber s + 1 → a = H (lastNumber s) → records (updateLastBlock N s) (record N a H).
Proof.
  intros Hr -> ->. pose proof (oldest_range _ _ Hr) as Ho. destruct Hr as [Hi Hne Hrange Hfind].
  split; simpl; [done..| |].
  - intros x Hx. specialize (Hrange x Hx). lia.
  - intros h Hh. change (oldest (updateLastBlock (lastNumber s + 1) s)) with (oldest s) in Hh.
    change (find h (updateLastBlock _ s)) with (find h s). unfold record.
    destruct (Z.eqb_spec h (lastNumber s + 1)) as [->|Hne']; [|apply Hfind; lia].
    rewrite <- Hfind by lia. destruct (serves_ge s (lastNumber s) Hi Hne ltac:(lia)) as (l1 & x & l2 & (E & Hx & Hl2) & Hle & ->).
    f_equal. apply (find_serves _ _ l1 x l2 Hi). split; [done|]. split; [right; lia|].
    apply Forall_forall. intros y Hy. rewrite Forall_forall in Hl2. specialize (Hl2 y Hy).
    assert (y ∈ snaps s) as Hys by (rewrite E; apply elem_of_app; right; by apply list_elem_of_further).
    specialize (Hrange y Hys). lia.
Qed.

(** Pruning from an index: heights from the new oldest snapshot on are
    served as before. *)
Lemma records_drop s H i :
  records s H → 0 ≤ i < zlen (snaps s) → records (set_snaps (drop (Z.to_nat i) (snaps s)) s) H.
Proof.
  intros [Hi Hne Hrange Hfind] Hk. set (k := Z.to_nat i). unfold zlen in Hk.
  destruct (lookup_lt_is_Some_2 (snaps s) k) as [z Hz]; [lia|].
  assert (drop k (snaps s) = z :: drop (S k) (snaps s)) as Hd by by apply drop_S.
  assert (increasing (drop k (snaps s))) as Hid.
  { rewrite <- (take_drop k (snaps s)) in Hi. by apply increasing_app in Hi as (_ & ? & _). }
  assert (oldest (set_snaps (drop k (snaps s)) s) = snNumber z) as Ho by (unfold oldest; simpl; by rewrite Hd).
  split; [done|simpl; by rewrite Hd| |].
  - intros x Hx. apply Hrange. simpl in Hx. rewrite <- (take_drop k (snaps s)). apply elem_of_app. by right.
  - intros h Hh. rewrite Ho in Hh. simpl in Hh.
    pose proof (oldest_le s z Hi (list_elem_of_lookup_2 _ _ _ Hz)) as Hoz.
    rewrite <- Hfind by lia. destruct (serves_ge s h Hi Hne ltac:(lia)) as (l1 & x & l2 & (E & Hx & Hl2) & Hle & ->).
    f_equal. assert (k ≤ length l1)%nat as Hkl.
    { destruct (decide (k ≤ length l1)%nat); [done|]. rewrite Forall_forall in Hl2.
      rewrite E, lookup_app_r in Hz by lia. destruct (k - length l1)%nat as [|m] eqn:Em; [lia|].
      specialize (Hl2 z (list_elem_of_lookup_2 l2 m z Hz)). lia. }
    apply (find_serves _ _ (drop k l1) x l2); simpl; [done|]. split; [|by split; [right|]].
    rewrite E. by rewrite drop_app_le.
Qed.

Section sorted.
Context `{SortSnapsLaws}.

(** A snapshot with a new highest number goes to the end. *)
Lemma addSnap_end x s :
  increasing (snaps s ++ [x]) → addSnap x s = set_snaps (snaps s ++ [x]) s.
Proof.
  intros Hi. unfold addSnap. f_equal.
  apply sorted_increasing; [done|apply sortSnaps_perm|apply sortSnaps_sorted].
Qed.

Lemma records_add s Hh N x :
  records s Hh → N = lastNumber s + 1 → snNumber x = N →
  records (updateLastBlock N (addSnap x s)) (record N (content x) Hh).
Proof.
  intros Hr -> Hx. pose proof (oldest_range _ _ Hr) as Ho. destruct Hr as [Hi Hne Hrange Hfind].
  assert (increasing (snaps s ++ [x])) as Hi'.
  { apply increasing_app. split; [done|]. split; [by apply increasing_cons; split; constructor|].
    intros y z Hy ->%list_elem_of_singleton. specialize (Hrange y Hy). lia. }
  rewrite addSnap_end by done.
  assert (oldest (updateLastBlock (lastNumber s + 1) (set_snaps (snaps s ++ [x]) s)) = oldest s) as Eo.
  { unfold oldest; simpl. by destruct (snaps s). }
  split; simpl; [done|by destruct (snaps s)| |].
  - intros y Hy. apply elem_of_app in Hy as [Hy|Hy]; [specialize (Hrange y Hy); lia|].
    apply list_elem_of_singleton in Hy as ->. lia.
  - intros h. rewrite Eo. intros Hle. unfold record. destruct (Z.eqb_spec h (lastNumber s + 1)) as [->|Hn].
    + rewrite (find_serves _ _ (snaps s) x []); [done|done|]. split; [done|]. split; [right; lia|constructor].
    + rewrite <- Hfind by lia. destruct (serves_ge s h Hi Hne ltac:(lia)) as (l1 & y & l2 & (E & Hy & Hl2) & Hley & ->).
      f_equal. apply (find_serves _ _ l1 y (l2 ++ [x])); [done|]. split; [simpl; by rewrite E, <- app_assoc|].
      split; [done|]. apply Forall_app. split; [done|]. constructor; [lia|constructor].
Qed.

(** Saving what differs from the parent. *)
Lemma records_save s Hh header parent a :
  records s Hh → hNumber header = lastNumber s + 1 → content parent = Hh (lastNumber s) →
  records (updateLastBlock (hNumber header)
             (saveSnapshotIfChanged parent (mkSnap 0 [] a.2 a.1) header s)) (record (hNumber header) a Hh).
Proof.
  intros Hr HN Hp. unfold saveSnapshotIfChanged. destruct (Snapshot_Equal _ parent) eqn:E.
  - apply Snapshot_Equal_content in E. apply records_keep; [done|done|]. rewrite <- Hp, <- E. by destruct a.
  - destruct a as [set votes]. by apply (records_add s Hh (hNumber header) (mkSnap _ _ votes set)).
Qed.

End sorted.

Lemma records_prune epochSize N s H :
  records s H → ∃ s', removeLowerSnapshots epochSize N s = Some s' ∧ records s' H ∧ lastNumber s' = lastNumber s.
Proof.
  intros Hr. unfold removeLowerSnapshots. destruct (0 <? _); [|by exists s].
  set (num := u64 _). destruct (findClosest_range num s (rec_increasing _ _ Hr) (rec_nonempty _ _ Hr)) as (i & E & Hi).
  unfold deleteLower. rewrite E. cbn [mbind option_bind]. eexists. split; [done|]. split; [|done].
  by apply records_drop.
Qed.

(** ** The refinement *)

Section refinement.
Context `{Rlp, SortSnapsLaws}.
Variable blockchain : HeaderGetter.
Variable getSigner : Z → option (option SignerInterface).
Variable epochSize : Z.

(** What a header does to the validators and the votes: its proposer must
    be a validator, the first header of an epoch clears the votes, and any
    other one carries a vote unless its miner field is zero. *)
Definition vote_step (header : Header) (a : vstate) : result serror vstate :=
  signer ← signerAt getSigner (hNumber header);
  proposer ← or_error ErrEcrecover (sgEcrecoverFromHeader signer header);
  if negb (Includes a.1 proposer) then Errors ErrUnauthorizedProposer else
  if hNumber header mod epochSize =? 0 then Returns (a.1, []) else
  if bool_decide (hMiner header = ZeroAddress) then Returns a else
  snap ← processVote (mkSnap 0 [] a.2 a.1) header (sgType signer) proposer;
  Returns (content snap).

(** The history after [n] headers from height [i] on. *)
Fixpoint replay (n : nat) (i : Z) (H : Z → vstate) : result serror (Z → vstate) :=
  match n with
  | O => Returns H
  | S n =>
      header ← or_error ErrHeaderNotFound (hgGetHeaderByNumber blockchain i);
      a ← vote_step header (H (i - 1));
      replay n (i + 1) (record i a H)
  end.

Lemma processVote_fields snap header t proposer snap' :
  processVote snap header t proposer = Returns snap' → snNumber snap' = snNumber snap ∧ snHash snap' = snHash snap.
Proof.
  intros Hp. unfold processVote in Hp. invert_result Hp; [by simplify_eq| |]; repeat case_match; by simplify_eq/=.
Qed.

(** The last block and the list of snapshots are updated independently. *)
Lemma prune_updateLastBlock n k s s' :
  removeLowerSnapshots epochSize n (updateLastBlock k s) = Some s' →
  removeLowerSnapshots epochSize n s = Some (updateLastBlock (lastNumber s) s').
Proof.
  unfold removeLowerSnapshots, deleteLower. destruct (0 <? _); [|intros [= <-]; by destruct s].
  change (findClosestSnapshotIndex ?num (updateLastBlock k s)) with (findClosestSnapshotIndex num s).
  destruct (findClosestSnapshotIndex _ s); [|done]. cbn [mbind option_bind]. by intros [= <-].
Qed.

Lemma save_updateLastBlock parent snap header n s :
  saveSnapshotIfChanged parent snap header (updateLastBlock n s)
  = updateLastBlock n (saveSnapshotIfChanged parent snap header s).
Proof. unfold saveSnapshotIfChanged. by destruct (Snapshot_Equal snap parent). Qed.

Lemma ProcessHeader_step header sv Hh :
  records (svStore sv) Hh → hNumber header = lastNumber (svStore sv) + 1 → hNumber header < 2 ^ 64 → 0 < epochSize →
  match vote_step header (Hh (lastNumber (svStore sv))) with
  | Returns a =>
      ∃ sv', ProcessHeader getSigner epochSize header sv = Returns sv' ∧
        records (svStore sv') (record (hNumber header) a Hh) ∧ lastNumber (svStore sv') = hNumber header ∧
        svCandidates sv' = svCandidates sv
  | Errors e => ProcessHeader getSigner epochSize header sv = Errors e
  | Panics => ProcessHeader getSigner epochSize header sv = Panics
  end.
Proof.
  intros Hr HN Hb He. pose proof (oldest_range _ _ Hr) as Ho.
  pose proof (rec_find _ _ Hr (lastNumber (svStore sv)) ltac:(lia)) as Hf.
  destruct (find (lastNumber (svStore sv)) (svStore sv)) as [parent|] eqn:Ep; [|done].
  injection Hf as Hf. rewrite <- Hf. unfold vote_step, ProcessHeader.
  destruct (signerAt getSigner (hNumber header)) as [sg|e|]; cbn [mbind result_bind]; [|done..].
  destruct (or_error ErrEcrecover _) as [proposer|e|]; cbn [mbind result_bind]; [|done..].
  rewrite HN, Z.add_simpl_r, u64_small, Ep, <- HN by lia. cbn [or_error mbind result_bind content fst snd].
  destruct (Includes (snSet parent) proposer); cbn [negb]; [|done].
  rewrite (proj2 (Z.eqb_neq epochSize 0)) by lia. rewrite Snapshot_Copy_eq.
  destruct (hNumber header mod epochSize =? 0).
  - pose proof (records_save (svStore sv) Hh header parent (snSet parent, []) Hr HN Hf) as Hs. unfold resetSnapshot.
    destruct (records_prune epochSize (hNumber header) _ _ Hs) as (s' & E & Hs' & Hlast).
    apply prune_updateLastBlock in E. cbn [fst snd] in E. change (set_votes [] _) with (mkSnap 0 [] [] (snSet parent)).
    rewrite E. cbn [or_panic mbind result_bind]. eexists. split; [done|]. split; [|done]. simpl in Hlast |- *.
    destruct s' as [n l]. simpl in Hlast. by rewrite Hlast in Hs'.
  - destruct (bool_decide _).
    + eexists. split; [done|]. split; [|done]. by apply records_keep.
    + destruct (processVote _ _ _ _) as [snap|e|] eqn:Epv; cbn [mbind result_bind]; [|done..].
      apply processVote_fields in Epv as [En Eh]. destruct snap as [n h votes set]. simpl in En, Eh. subst n h.
      eexists. split; [done|]. simpl. rewrite save_updateLastBlock. split; [|done].
      exact (records_save (svStore sv) Hh header parent (set, votes) Hr HN Hf).
Qed.

(** Processing a range of headers replays it on the history. *)
Lemma process_range_replay n sv Hh :
  records (svStore sv) Hh → 0 < epochSize → lastNumber (svStore sv) + Z.of_nat n < 2 ^ 64 →
  (∀ i header, hgGetHeaderByNumber blockchain i = Some header → hNumber header = i) →
  match replay n (lastNumber (svStore sv) + 1) Hh with
  | Returns Hh' =>
      ∃ sv', process_range blockchain getSigner epochSize n (lastNumber (svStore sv) + 1) sv = Returns sv' ∧
        records (svStore sv') Hh' ∧ lastNumber (svStore sv') = lastNumber (svStore sv) + Z.of_nat n
  | Errors e =>
      ∃ sv', process_range blockchain getSigner epochSize n (lastNumber (svStore sv) + 1) sv = Errors (e, sv')
  | Panics => process_range blockchain getSigner epochSize n (lastNumber (svStore sv) + 1) sv = Panics
  end.
Proof.
  intros Hr He Hb Hnum. revert sv Hh Hr Hb.
  induction n as [|n IH]; intros sv Hh Hr Hb; cbn [replay process_range].
  - exists sv. split; [done|]. split; [done|lia].
  - pose proof (oldest_range _ _ Hr) as Ho. rewrite (proj2 (Z.eqb_neq _ 0)) by lia.
    destruct (hgGetHeaderByNumber blockchain _) as [header|] eqn:Eh; cbn [or_error mbind result_bind]; [|by eexists].
    apply Hnum in Eh as HN. pose proof (ProcessHeader_step header sv Hh Hr HN ltac:(lia) He) as Hstep.
    rewrite Z.add_simpl_r. destruct (vote_step header _) as [a|e|]; cbn [mbind result_bind].
    + destruct Hstep as (sv' & -> & Hr' & Hlast & _). rewrite <- HN. specialize (IH sv' _ Hr' ltac:(lia)).
      rewrite Hlast in IH. destruct (replay n (hNumber header + 1) _); [|done..].
      destruct IH as (sv'' & -> & Hr'' & Hl''). exists sv''. split; [done|]. split; [done|lia].
    + rewrite Hstep. by eexists.
    + by rewrite Hstep.
Qed.

(** C7. The snapshot store refines the history of votes. Whatever headers
    are processed in order, the store accepts them exactly when the history
    can be replayed, with the same error otherwise; and afterwards it
    returns, for every height from its oldest snapshot up to the last
    header, the validators and the pending votes that the history has at
    that height, although it saves only the snapshots that differ from their
    parent and prunes old ones. *)
Theorem snapshot_refines (n : nat) (sv : SnapshotValidatorStore) (Hh : Z → vstate) :
  let first := lastNumber (svStore sv) + 1 in
  records (svStore sv) Hh → 0 < epochSize → lastNumber (svStore sv) + Z.of_nat n < 2 ^ 64 - 1 →
  (∀ i header, hgGetHeaderByNumber blockchain i = Some header → hNumber header = i) →
  match replay n first Hh with
  | Returns Hh' =>
      ∃ sv', ProcessHeadersInRange blockchain getSigner epochSize first (lastNumber (svStore sv) + Z.of_nat n) sv
               = Returns sv' ∧
        ∀ h, oldest (svStore sv') ≤ h ≤ lastNumber (svStore sv) + Z.of_nat n →
          GetValidatorsByHeight h sv' = Returns (Hh' h).1 ∧ Votes h sv' = Returns (Hh' h).2
  | Errors e =>
      ∃ sv', ProcessHeadersInRange blockchain getSigner epochSize first (lastNumber (svStore sv) + Z.of_nat n) sv
               = Errors (e, sv')
  | Panics =>
      ProcessHeadersInRange blockchain getSigner epochSize first (lastNumber (svStore sv) + Z.of_nat n) sv = Panics
  end.
Proof.
  intros first Hr He Hb Hnum. unfold ProcessHeadersInRange, first.
  replace (Z.to_nat _) with n by lia. pose proof (process_range_replay n sv Hh Hr He ltac:(lia) Hnum) as Hp.
  destruct (replay n _ Hh) as [Hh'|e|]; [|done..]. destruct Hp as (sv' & E & Hr' & Hl). exists sv'. split; [done|].
  intros h Hle. pose proof (rec_find _ _ Hr' h ltac:(lia)) as Hf. unfold GetValidatorsByHeight, Votes.
  destruct (find h (svStore sv')) as [x|]; [|done]. injection Hf as <-. done.
Qed.

End refinement.
