(* ===== verification/SnapshotVotes.v ===== *)
(** * Votes on the validator set

    The invariant of the pending votes, and the rule by which a header's
    vote changes the validators: a strict majority of the current ones, each
    counted once. *)

From stdpp Require Import sorting.
From S2P Require Import Prelude BigInt Types Rlp BlockTypes Hex Result Validators ValidatorsProps Quorum Snapshot SnapshotProps.
#[local] Open Scope Z_scope.

(** The ballot of a vote: who voted for whom. *)
Definition ballot (v : Vote) : Address * Validator := (voter v, voteFor v).

(** The validators form a set, the pending votes are theirs, and nobody has
    voted twice for a candidate. *)
Definition snap_ok (s : Snapshot) : Prop :=
  set_ok (snSet s) ∧ (∀ v, v ∈ snVotes s → voter v ∈ addrs (snSet s)) ∧ NoDup (ballot <$> snVotes s).

(** Those who have voted for a candidate. *)
Definition supporters (cand : Validator) (s : Snapshot) : list Address :=
  voter <$> filter (λ v, Validator_Equal (voteFor v) cand = true) (snVotes s).

(** ... once [proposer] has voted. *)
Definition supporters_with (proposer : Address) (cand : Validator) (s : Snapshot) : list Address :=
  if decide (proposer ∈ supporters cand s) then supporters cand s else supporters cand s ++ [proposer].

Lemma elem_of_supporters a cand s :
  a ∈ supporters cand s ↔ ∃ v, v ∈ snVotes s ∧ voter v = a ∧ voteFor v = cand.
Proof.
  unfold supporters. rewrite list_elem_of_fmap. split.
  - intros (v & -> & [Hv Hin]%list_elem_of_filter). apply Validator_Equal_eq in Hv. by exists v.
  - intros (v & Hin & <- & <-). exists v. split; [done|]. apply list_elem_of_filter. by rewrite Validator_Equal_eq.
Qed.

Lemma NoDup_supporters cand s : NoDup (ballot <$> snVotes s) → NoDup (supporters cand s).
Proof.
  unfold supporters. induction (snVotes s) as [|v l IH]; intros Hn; [constructor|].
  rewrite fmap_cons in Hn. apply NoDup_cons in Hn as [Hv Hn]. rewrite filter_cons. destruct (decide _) as [E|]; [|by apply IH].
  rewrite fmap_cons. apply NoDup_cons. split; [|by apply IH].
  intros (w & Ew & [Hw Hin]%list_elem_of_filter)%list_elem_of_fmap. apply Hv.
  apply Validator_Equal_eq in E, Hw. apply list_elem_of_fmap. exists w. split; [|done]. unfold ballot. by rewrite Ew, E, Hw.
Qed.

Lemma CountByCandidate_supporters cand s : CountByCandidate cand s = zlen (supporters cand s).
Proof. unfold CountByCandidate, Count, supporters, zlen. by rewrite length_fmap. Qed.

(** A ballot is counted at most once. *)
Lemma CountByVoterAndCandidate_eq proposer cand s :
  NoDup (ballot <$> snVotes s) →
  CountByVoterAndCandidate proposer cand s = if decide (proposer ∈ supporters cand s) then 1 else 0.
Proof.
  intros Hn. unfold CountByVoterAndCandidate, Count.
  set (l := filter _ (snVotes s)).
  assert (∀ v, v ∈ l ↔ v ∈ snVotes s ∧ ballot v = (proposer, cand)) as Hl.
  { intros v. unfold l, ballot. rewrite list_elem_of_filter, andb_true_iff, bool_decide_eq_true, Validator_Equal_eq.
    naive_solver. }
  assert (NoDup (ballot <$> l)) as Hnl.
  { eapply sublist_NoDup; [exact Hn|]. apply fmap_sublist, sublist_filter. }
  destruct l as [|v [|w l]].
  - rewrite decide_False; [done|]. intros (v & Hv & E1 & E2)%elem_of_supporters.
    apply (not_elem_of_nil v), Hl. split; [done|]. unfold ballot. by rewrite E1, E2.
  - rewrite decide_True; [done|]. apply elem_of_supporters. exists v.
    destruct (proj1 (Hl v) (list_elem_of_here _ _)) as [Hv [= <- <-]]. done.
  - exfalso. rewrite !fmap_cons in Hnl. apply NoDup_cons in Hnl as [Hnv _]. apply Hnv.
    destruct (proj1 (Hl v) (list_elem_of_here _ _)) as [_ ->].
    destruct (proj1 (Hl w) (list_elem_of_further _ _ _ (list_elem_of_here _ _))) as [_ ->]. apply list_elem_of_here.
Qed.

(** ** Casting a vote *)

Definition cast (proposer : Address) (cand : Validator) (auth : bool) (s : Snapshot) : Snapshot :=
  if CountByVoterAndCandidate proposer cand s =? 0 then AddVote proposer cand auth s else s.

Lemma supporters_AddVote proposer cand auth s :
  supporters cand (AddVote proposer cand auth s) = supporters cand s ++ [proposer].
Proof.
  unfold supporters, AddVote; simpl. rewrite filter_app, filter_cons, filter_nil, fmap_app. simpl.
  by rewrite decide_True by by apply Validator_Equal_eq.
Qed.

Lemma cast_spec proposer cand auth s :
  snap_ok s → proposer ∈ addrs (snSet s) →
  let s' := cast proposer cand auth s in
  snap_ok s' ∧ snSet s' = snSet s ∧ supporters cand s' = supporters_with proposer cand s.
Proof.
  intros (Hset & Hvot & Hn) Hp. cbn zeta. unfold cast, supporters_with. rewrite CountByVoterAndCandidate_eq by done.
  destruct (decide (proposer ∈ supporters cand s)) as [Hin|Hin]; [done|]. cbn [Z.eqb].
  split; [|split; [done|apply supporters_AddVote]]. unfold snap_ok, AddVote; simpl. split; [done|]. split.
  - intros v Hv. apply elem_of_app in Hv as [Hv|Hv]; [by apply Hvot|]. by apply list_elem_of_singleton in Hv as ->.
  - rewrite fmap_app. apply NoDup_app. split; [done|]. split; [|apply NoDup_singleton].
    intros b (v & -> & Hv)%list_elem_of_fmap E%list_elem_of_singleton. apply Hin, elem_of_supporters.
    exists v. unfold ballot in E. simpl in E. by injection E as -> ->.
Qed.

(** ** Removing votes *)

Lemma RemoveVotes_ok f s : snap_ok s → snap_ok (RemoveVotes f s).
Proof.
  intros (Hset & Hvot & Hn). unfold snap_ok, RemoveVotes; simpl. split; [done|]. split.
  - intros v [_ Hv]%list_elem_of_filter. by apply Hvot.
  - eapply sublist_NoDup; [exact Hn|]. apply fmap_sublist, sublist_filter.
Qed.

(** Adding a validator keeps every vote valid; removing one, only together
    with its votes. *)
Lemma add_ok s cand set : snap_ok s → Add (snSet s) cand = Returns set → snap_ok (set_set set s).
Proof.
  intros (Hset & Hvot & Hn) Ha. destruct (Add_ok _ _ _ Hset Ha) as [Hok Ea]. split; [done|]. split; [|done].
  simpl. intros v Hv. rewrite Ea. apply elem_of_app. left. by apply Hvot.
Qed.

Lemma del_ok s cand set :
  snap_ok s → Del (snSet s) cand = Returns set → snap_ok (RemoveVotesByVoter (Addr cand) (set_set set s)).
Proof.
  intros (Hset & Hvot & Hn) Hd. destruct (Del_ok _ _ _ Hset Hd) as [Hok Ea].
  unfold snap_ok, RemoveVotesByVoter, RemoveVotes; simpl. split; [done|]. split.
  - intros v [Hv Hin]%list_elem_of_filter. apply bool_decide_eq_false in Hv. specialize (Hvot v Hin).
    rewrite Ea in Hvot. by apply elem_of_cons in Hvot as [?|?].
  - eapply sublist_NoDup; [exact Hn|]. apply fmap_sublist, sublist_filter.
Qed.

Lemma RemoveVotesByCandidate_none cand s : supporters cand (RemoveVotesByCandidate cand s) = [].
Proof.
  destruct (supporters cand _) as [|a l] eqn:E; [done|].
  assert (a ∈ supporters cand (RemoveVotesByCandidate cand s)) as Ha by (rewrite E; apply list_elem_of_here).
  apply elem_of_supporters in Ha as (v & Hv & _ & Hc). simpl in Hv. apply list_elem_of_filter in Hv as [Hf _].
  rewrite <- Hc in Hf. rewrite (proj2 (Validator_Equal_eq _ _) eq_refl) in Hf. done.
Qed.

Lemma RemoveVotesByCandidate_in cand s v :
  v ∈ snVotes (RemoveVotesByCandidate cand s) → v ∈ snVotes s ∧ voteFor v ≠ cand.
Proof.
  simpl. intros [Hf Hv]%list_elem_of_filter. split; [done|]. intros E.
  by rewrite (proj2 (Validator_Equal_eq _ _) E) in Hf.
Qed.

(** ** Votes for the change that is still open *)

(** Every pending vote is of the set's kind and for what can still happen to
    its candidate: to add one that is not in the set, or to remove one that
    is. *)
Definition votes_open (s : Snapshot) : Prop :=
  ∀ v, v ∈ snVotes s → vType (voteFor v) = vsType (snSet s) ∧ voteAuth v = negb (Includes (snSet s) (Addr (voteFor v))).

(** The pending votes on the address of the candidate are on the candidate
    itself, not on the same address with another BLS key. *)
Definition one_key (cand : Validator) (s : Snapshot) : Prop :=
  ∀ v, v ∈ snVotes s → Addr (voteFor v) = Addr cand → voteFor v = cand.

(** An ECDSA validator is its address. *)
Lemma ecdsa_one_key cand s :
  vsType (snSet s) = ECDSAValidatorType → vType cand = ECDSAValidatorType → votes_open s → one_key cand s.
Proof.
  intros Hs Hc Ho v Hv E. destruct (Ho v Hv) as [Ht _]. rewrite Hs in Ht.
  destruct (voteFor v) as [a|a k], cand as [b|b l]; try discriminate Ht; try discriminate Hc.
  by f_equal.
Qed.

(** Those who have voted to add, or to remove, a candidate. *)
Definition voters (auth : bool) (cand : Validator) (s : Snapshot) : list Address :=
  voter <$> filter (λ v, voteFor v = cand ∧ voteAuth v = auth) (snVotes s).

(** ... once [proposer] has voted. *)
Definition voters_with (proposer : Address) (auth : bool) (cand : Validator) (s : Snapshot) : list Address :=
  if decide (proposer ∈ voters auth cand s) then voters auth cand s else voters auth cand s ++ [proposer].

Lemma voters_supporters auth cand s :
  votes_open s → auth ≠ Includes (snSet s) (Addr cand) → voters auth cand s = supporters cand s.
Proof.
  intros Ho Ha. unfold voters, supporters, votes_open in *. induction (snVotes s) as [|v l IH]; [done|].
  rewrite !filter_cons. specialize (IH ltac:(intros; apply Ho; by right)). destruct (decide (voteFor v = cand)) as [E|E].
  - rewrite !decide_True, !fmap_cons, IH; [done|by apply Validator_Equal_eq|].
    split; [done|]. destruct (Ho v) as [_ ->]; [by left|]. rewrite E. by destruct auth, (Includes _ _).
  - rewrite !decide_False, IH; [done|by rewrite Validator_Equal_eq|by intros [? _]].
Qed.

Lemma voters_sub auth cand s a : a ∈ voters auth cand s → a ∈ supporters cand s.
Proof.
  intros (v & -> & [[Hc _] Hv]%list_elem_of_filter)%list_elem_of_fmap. apply elem_of_supporters. by exists v.
Qed.

Lemma NoDup_voters auth cand s : NoDup (ballot <$> snVotes s) → NoDup (voters auth cand s).
Proof.
  intros Hn. apply (NoDup_supporters cand) in Hn. eapply sublist_NoDup; [exact Hn|].
  unfold voters, supporters. apply fmap_sublist. induction (snVotes s) as [|v l IH]; [constructor|].
  rewrite !filter_cons. destruct (decide (voteFor v = cand ∧ _)) as [[E _]|].
  - rewrite decide_True by by apply Validator_Equal_eq. by constructor.
  - destruct (decide _); [by constructor|done].
Qed.

Lemma voters_with_ok proposer auth cand s :
  snap_ok s → proposer ∈ addrs (snSet s) →
  NoDup (voters_with proposer auth cand s) ∧ ∀ a, a ∈ voters_with proposer auth cand s → a ∈ addrs (snSet s).
Proof.
  intros (Hset & Hvot & Hn) Hp. pose proof (NoDup_voters auth cand s Hn) as Hs.
  assert (∀ a, a ∈ voters auth cand s → a ∈ addrs (snSet s)) as Hin.
  { intros a (v & Hv & <- & _)%voters_sub%elem_of_supporters. by apply Hvot. }
  unfold voters_with. destruct (decide _) as [Hd|Hd]; [done|]. split.
  - apply NoDup_app. split; [done|]. split; [|apply NoDup_singleton]. by intros a Ha ->%list_elem_of_singleton.
  - intros a Ha. apply elem_of_app in Ha as [Ha|Ha]; [by apply Hin|]. by apply list_elem_of_singleton in Ha as ->.
Qed.

Lemma cast_open proposer cand auth s :
  vType cand = vsType (snSet s) → auth ≠ Includes (snSet s) (Addr cand) → votes_open s → one_key cand s →
  votes_open (cast proposer cand auth s) ∧ one_key cand (cast proposer cand auth s).
Proof.
  intros Ht Ha Ho Hk. unfold cast. destruct (_ =? 0); [|done].
  assert (∀ v, v ∈ snVotes (AddVote proposer cand auth s) → v ∈ snVotes s ∨ v = mkVote proposer cand auth) as Hin.
  { intros v Hv. simpl in Hv. apply elem_of_app in Hv as [Hv|Hv]; [by left|]. right. by apply list_elem_of_singleton in Hv. }
  split.
  - intros v [Hv| ->]%Hin; [by apply Ho|]. simpl. split; [done|]. by destruct auth, (Includes _ _).
  - intros v [Hv| ->]%Hin; [by apply Hk|done].
Qed.

(** ** The majority rule *)

Section majority.
Context `{Rlp}.

Lemma minerToValidator_type t miner cand : minerToValidator t miner = Returns cand → vType cand = t.
Proof.
  unfold minerToValidator. intros E. apply result_bind_returns in E as (r & Er & E).
  apply NewValidatorFromType_type in Er as <-. destruct r as [a|a k]; [by simplify_eq|].
  cbn [SetFromBytes] in E. apply result_bind_returns in E as (v & _ & E). cbn [Validator_UnmarshalRLPFrom] in E.
  invert_result E. by simplify_eq.
Qed.

(** The set after a vote that passed. *)
Definition outcome (auth : bool) (cand : Validator) (set set' : VSet) : Prop :=
  if auth then addrs set' = addrs set ++ [Addr cand] else addrs set ≡ₚ Addr cand :: addrs set'.

(** The votes a passed vote leaves. *)
Definition settled (auth : bool) (cand : Validator) (s' : Snapshot) : Prop :=
  supporters cand s' = [] ∧ (auth = false → ∀ v, v ∈ snVotes s' → voter v ≠ Addr cand).

(** The votes are settled and the set updated without error. *)
Lemma pass_spec s cand auth :
  snap_ok s → vType cand = vsType (snSet s) → auth ≠ Includes (snSet s) (Addr cand) →
  ∃ set, addsOrDelsCandidate (snSet s) cand auth = Returns set ∧ outcome auth cand (snSet s) set ∧
    let s' := RemoveVotesByCandidate cand
                (if negb auth then RemoveVotesByVoter (Addr cand) (set_set set s) else set_set set s) in
    snap_ok s' ∧ snSet s' = set ∧ settled auth cand s'.
Proof.
  intros Hok Ht Ha. cbn zeta. destruct auth; simpl.
  - destruct (Add_total (snSet s) cand Ht) as [set E]; [by apply Includes_false; destruct (Includes _ _)|].
    exists set. split; [done|]. split; [by apply Add_ok in E as [_ ?]; [|apply Hok]|].
    split; [by apply RemoveVotes_ok, (add_ok s cand)|]. split; [done|]. by split; [apply RemoveVotesByCandidate_none|].
  - destruct (Del_total (snSet s) cand Ht) as [set E]; [by apply Includes_spec; destruct (Includes _ _)|].
    exists set. split; [done|]. split; [by apply Del_ok in E as [_ ?]; [|apply Hok]|].
    split; [by apply RemoveVotes_ok, (del_ok s cand)|]. split; [done|].
    split; [apply RemoveVotesByCandidate_none|]. intros _ v Hv. simpl in Hv.
    apply list_elem_of_filter in Hv as [_ Hv]. by apply list_elem_of_filter in Hv as [Hv%bool_decide_eq_false _].
Qed.

(** What is left after a passed vote is open again. *)
Lemma pass_open s s' cand auth set :
  votes_open s → one_key cand s → outcome auth cand (snSet s) set → vsType set = vsType (snSet s) →
  NoDup (addrs (snSet s)) → snSet s' = set → (∀ v, v ∈ snVotes s' → v ∈ snVotes s ∧ voteFor v ≠ cand) →
  votes_open s'.
Proof.
  intros Ho Hk Hout Ht Hnd Hset Hv v Hin. apply Hv in Hin as [Hin Hne]. destruct (Ho v Hin) as [Hty ->].
  rewrite Hset, Ht. split; [done|]. f_equal.
  assert (Addr (voteFor v) ≠ Addr cand) as Ha by (intros E; by apply Hne, Hk).
  apply eq_true_iff_eq. rewrite !Includes_spec. unfold outcome in Hout. destruct auth.
  - rewrite Hout, elem_of_app, list_elem_of_singleton. naive_solver.
  - rewrite Hout, elem_of_cons. naive_solver.
Qed.

Lemma addsOrDels_type set cand auth set' : addsOrDelsCandidate set cand auth = Returns set' → vsType set' = vsType set.
Proof.
  unfold addsOrDelsCandidate, Add, Del. intros E. repeat case_match; simplify_eq; done.
Qed.

(** C8. The majority rule. The pending votes are open: each is to add a
    candidate that is not a validator or to remove one that is. A
    validator's vote, with a nonce that says to add or to remove and a
    candidate of the set's kind, is always accepted and keeps both
    invariants. The validators change exactly when the candidate is not
    already as voted and those who voted for this very change, the proposer
    included, are more than half of the current validators, every one of
    them a validator counted once: then the candidate is added or removed,
    nobody else, and no votes on it remain, nor votes of a removed validator.
    This is for ECDSA validators, and for BLS validators as long as no vote
    on the same address with another key is pending ([stale_votes_counted] in
    SnapshotExamples shows what such a vote does). *)
Theorem vote_majority (s : Snapshot) (header : Header) (proposer : Address) (auth : bool) (cand : Validator) :
  snap_ok s → votes_open s → proposer ∈ addrs (snSet s) → isAuthorize (hNonce header) = Returns auth →
  minerToValidator (vsType (snSet s)) (hMiner header) = Returns cand →
  vsType (snSet s) = ECDSAValidatorType ∨ one_key cand s →
  let vs := voters_with proposer auth cand s in
  NoDup vs ∧ (∀ a, a ∈ vs → a ∈ addrs (snSet s)) ∧
  ∃ s', processVote s header (vsType (snSet s)) proposer = Returns s' ∧ snap_ok s' ∧ votes_open s' ∧
    if bool_decide (auth ≠ Includes (snSet s) (Addr cand)) && (Len (snSet s) / 2 <? zlen vs)
    then outcome auth cand (snSet s) (snSet s') ∧ settled auth cand s'
    else snSet s' = snSet s.
Proof.
  intros Hok Hopen Hp Hauth Hcand Hkey vs. pose proof (minerToValidator_type _ _ _ Hcand) as Ht.
  assert (one_key cand s) as Hone by (destruct Hkey as [E|]; [apply ecdsa_one_key; [done|by rewrite Ht|done]|done]).
  destruct (voters_with_ok proposer auth cand s Hok Hp) as [Hs1 Hs2]. split; [done|]. split; [done|].
  unfold processVote. rewrite Hauth, Hcand. cbn [mbind result_bind lift_verror].
  unfold shouldProcessVote. destruct (eqb auth (Includes (snSet s) (Addr cand))) eqn:Eq.
  - apply eqb_prop in Eq. cbn [negb]. exists s. rewrite bool_decide_false by naive_solver. done.
  - apply eqb_false_iff in Eq. cbn [negb]. rewrite bool_decide_true by done. cbn [andb].
    assert (vs = supporters_with proposer cand s) as ->.
    { unfold vs, voters_with, supporters_with. by rewrite (voters_supporters auth cand s). }
    pose proof (CountByVoterAndCandidate_eq proposer cand s (proj2 (proj2 Hok))) as Hc.
    rewrite (proj2 (Z.ltb_ge 1 _)) by (rewrite Hc; case_match; lia).
    fold (cast proposer cand auth s). destruct (cast_spec proposer cand auth s Hok Hp) as (Hok' & Eset & Esup).
    destruct (cast_open proposer cand auth s Ht Eq Hopen Hone) as [Hopen' Hone'].
    rewrite CountByCandidate_supporters, Esup, Eset. destruct (Len (snSet s) / 2 <? _).
    + destruct (pass_spec (cast proposer cand auth s) cand auth) as (set & E & Ho & Hok'' & Eset' & Hst);
        [done|by rewrite Eset|by rewrite Eset|]. pose proof (addsOrDels_type _ _ _ _ E) as Hty.
      assert (votes_open (RemoveVotesByCandidate cand (if negb auth then RemoveVotesByVoter (Addr cand)
        (set_set set (cast proposer cand auth s)) else set_set set (cast proposer cand auth s)))) as Hopen''.
      { eapply pass_open; [done..|apply Hok'|exact Eset'|]. intros v Hv. apply RemoveVotesByCandidate_in in Hv as [Hv Hne].
        split; [|done]. by destruct auth; [|apply list_elem_of_filter in Hv as [_ Hv]]. }
      rewrite Eset in E, Ho. rewrite E. cbn [mbind result_bind lift_verror]. eexists. split; [done|].
      split; [done|]. split; [done|]. by rewrite Eset'.
    + by exists (cast proposer cand auth s).
Qed.

End majority.
