(* ===== verification/SnapshotExamples.v ===== *)
(** * Snapshots: instances and examples

    An instance of the sorting interface, the theorems at concrete headers,
    and three behaviours of the store that differ from what it is for. *)

From stdpp Require Import sorting.
From S2P Require Import Prelude BigInt Types Rlp BlockTypes Hex Result Validators ValidatorsProps Quorum Snapshot SnapshotProps SnapshotVotes.
#[local] Open Scope Z_scope.
#[local] Existing Instances tree_fastrlp tree_rlp tree_rlp_laws.

(** ** Sorting *)

Definition by_number (x y : Snapshot) : Prop := snNumber x ≤ snNumber y.
#[local] Instance by_number_dec : RelDecision by_number := λ x y, Z_le_dec (snNumber x) (snNumber y).

#[local] Instance merge_sort_snaps : SortSnaps := merge_sort by_number.

#[local] Instance merge_sort_snaps_laws : SortSnapsLaws.
Proof.
  split; [apply merge_sort_Permutation|]. intros l.
  assert (Sorted by_number (merge_sort by_number l)) as Hs
    by (apply Sorted_merge_sort; intros x y; unfold by_number; lia).
  unfold sortSnaps, merge_sort_snaps. induction Hs as [|x k Hk IH Hx]; [constructor|].
  rewrite fmap_cons. constructor; [done|]. destruct Hx; by constructor.
Qed.

(** ** A chain *)

(** A signer that finds the proposer in the extra data. *)
Definition demo_signer (t : ValidatorType) : SignerInterface := {|
  sgType := t;
  sgEcrecoverFromHeader h := Some (hExtraData h);
  sgGetValidators _ := None;
|}.

Definition addr_of (i : Z) : Address := be_encode 20 i.

(** A header with a vote. *)
Definition vote_header (number proposer : Z) (auth : bool) (miner : list Z) : Header :=
  mkHeader ZeroHash ZeroHash miner ZeroHash ZeroHash ZeroHash ZeroBloom 0 number 0 0 0 (addr_of proposer) ZeroHash
    (if auth then nonceAuthVote else nonceDropVote) ZeroHash.

(** Three validators vote for address 9, at heights 1 to 3. *)
Definition demo_chain : HeaderGetter := {|
  hgHeader := newHeader;
  hgGetHeaderByNumber i :=
    if (1 <=? i) && (i <=? 3) then Some (vote_header i i true (addr_of 9)) else None;
|}.

Definition demo_getSigner (_ : Z) : option (option SignerInterface) := Some (Some (demo_signer ECDSAValidatorType)).

Definition genesis_snap : Snapshot := mkSnap 0 [] [] (demo_set 4).
Definition genesis_store : SnapshotValidatorStore := mkSVS (mkStore 0 [genesis_snap]) [].

(** A store with one snapshot records it. *)
Lemma records_single x : 0 ≤ snNumber x → records (mkStore (snNumber x) [x]) (λ _, content x).
Proof.
  intros Hx. assert (increasing [x]) as Hi by (apply increasing_cons; split; constructor). split; simpl; [done..| |].
  - intros y ->%list_elem_of_singleton. lia.
  - intros h Hh. rewrite (find_serves h _ [] x []); [done|done|]. split; [done|]. split; [by left|constructor].
Qed.

Lemma snapshot_refines_witness :
  match replay demo_chain demo_getSigner 10 3 (0 + 1) (λ _, content genesis_snap) with
  | Returns Hh' =>
      ∃ sv', ProcessHeadersInRange demo_chain demo_getSigner 10 (0 + 1) (0 + Z.of_nat 3) genesis_store = Returns sv' ∧
        ∀ h, oldest (svStore sv') ≤ h ≤ 0 + Z.of_nat 3 →
          GetValidatorsByHeight h sv' = Returns (Hh' h).1 ∧ Votes h sv' = Returns (Hh' h).2
  | Errors e =>
      ∃ sv', ProcessHeadersInRange demo_chain demo_getSigner 10 (0 + 1) (0 + Z.of_nat 3) genesis_store = Errors (e, sv')
  | Panics => ProcessHeadersInRange demo_chain demo_getSigner 10 (0 + 1) (0 + Z.of_nat 3) genesis_store = Panics
  end.
Proof.
  apply (snapshot_refines demo_chain demo_getSigner 10 3 genesis_store).
  - by apply (records_single genesis_snap).
  - lia.
  - by vm_compute.
  - intros i header. unfold demo_chain; simpl. destruct (_ && _); [|done]. by intros [= <-].
Defined.

(** The history in the example: after the third vote the candidate is a
    validator. *)
Lemma demo_replay :
  (λ H, (λ h, Includes (H h).1 (addr_of 9)) <$> [0; 1; 2; 3]) <$>
    match replay demo_chain demo_getSigner 10 3 1 (λ _, content genesis_snap) with Returns H => Some H | _ => None end
  = Some [false; false; false; true].
Proof. by vm_compute. Qed.

(** Two votes for address 9 in a set of four. *)
Definition demo_votes : Snapshot :=
  mkSnap 0 [] [mkVote (addr_of 1) (ECDSAValidator (addr_of 9)) true; mkVote (addr_of 2) (ECDSAValidator (addr_of 9)) true]
    (demo_set 4).

Lemma vote_majority_witness :
  ∃ s', processVote demo_votes (vote_header 3 3 true (addr_of 9)) ECDSAValidatorType (addr_of 3) = Returns s' ∧
    votes_open s' ∧ addrs (snSet s') = addrs (demo_set 4) ++ [addr_of 9].
Proof.
  destruct (vote_majority demo_votes (vote_header 3 3 true (addr_of 9)) (addr_of 3) true (ECDSAValidator (addr_of 9)))
    as (_ & _ & s' & E & _ & Ho & Hs).
  - split; [split|split].
    + by repeat constructor.
    + apply (bool_decide_eq_true_1 (NoDup _)). by vm_compute.
    + intros v Hv. apply (bool_decide_eq_true_1 (_ ∈ _)).
      apply elem_of_cons in Hv as [->|Hv]; [by vm_compute|]. apply list_elem_of_singleton in Hv as ->. by vm_compute.
    + apply (bool_decide_eq_true_1 (NoDup _)). by vm_compute.
  - intros v Hv. apply elem_of_cons in Hv as [->|Hv]; [by vm_compute|].
    apply list_elem_of_singleton in Hv as ->. by vm_compute.
  - apply (bool_decide_eq_true_1 (_ ∈ _)). by vm_compute.
  - done.
  - done.
  - by left.
  - exists s'. split; [exact E|]. split; [exact Ho|].
    replace (bool_decide _ && _) with true in Hs by by vm_compute. exact (proj1 Hs).
Defined.

(** ** Votes for another key *)

Definition bls (i : Z) (key : list Z) : Validator := BLSValidator (addr_of i) key.

Definition bls_header (number proposer : Z) (auth : bool) (cand : Validator) : Header :=
  vote_header number proposer auth (validatorToMiner cand).

(** The votes of a list of headers. *)
Fixpoint vote_all (headers : list Header) (s : Snapshot) : result serror Snapshot :=
  match headers with
  | [] => Returns s
  | h :: headers => s ← processVote s h BLSValidatorType (hExtraData h); vote_all headers s
  end.

Definition bls_genesis : Snapshot := mkSnap 0 [] [] (NewBLSValidatorSet [(addr_of 1, [1]); (addr_of 2, [2]); (addr_of 3, [3])]).

(** Validator 1 votes to add address 9 with one key, 2 and 3 with another. *)
Definition adding : list Header :=
  [bls_header 1 1 true (bls 9 [10]); bls_header 2 2 true (bls 9 [11]); bls_header 3 3 true (bls 9 [11])].
(** Validators 2 and 3 vote to remove it. *)
Definition removing : list Header := [bls_header 4 2 false (bls 9 [10]); bls_header 5 3 false (bls 9 [10])].

(** With BLS validators, a vote to add a candidate can count as a vote
    to remove it. A vote for an address with another key stays when the
    address is added, and the tally does not look at what a vote is for: two
    of four validators vote to remove address 9, and the first one's vote to
    add it makes the majority. *)
Lemma stale_votes_counted :
  (λ s, (Len (snSet s), Includes (snSet s) (addr_of 9), voteAuth <$> snVotes s))
    <$> (match vote_all adding bls_genesis with Returns s => Some s | _ => None end) = Some (4, true, [true]) ∧
  length removing = 2%nat ∧
  (λ s, Includes (snSet s) (addr_of 9))
    <$> (match vote_all (adding ++ removing) bls_genesis with Returns s => Some s | _ => None end) = Some false.
Proof. split; [|split]; by vm_compute. Qed.

(** ** Pruning and replacing *)

Definition snap_at (n : Z) (validators : nat) : Snapshot := mkSnap n [] [] (demo_set validators).

(** Pruning can change the validators of heights it is to keep. With
    snapshots at 0 and 25, [deleteLower] for block 10 takes the farther of the
    two, 25, for the closest one and drops the snapshot at 0: the validators
    at height 12, which it served, become those of height 25. And
    [putByNumber], which looks for a number by binary search with an equality
    test, misses the snapshot at 0 among three and stores a second one. *)
Lemma prune_and_put_defects :
  (let s := mkStore 30 [snap_at 0 4; snap_at 25 5] in
   snSet <$> find 12 s = Some (demo_set 4) ∧
   snSet <$> (s' ← deleteLower 10 s; find 12 s') = Some (demo_set 5)) ∧
  snNumber <$> snaps (putByNumber (snap_at 0 7) (mkStore 30 [snap_at 0 4; snap_at 10 5; snap_at 20 6])) = [0; 0; 10; 20].
Proof. split; [split|]; by vm_compute. Qed.

(** Three defects of the snapshot store. With BLS validators, a vote to
    add an address with one key stays pending when the address is added with
    another, and then counts as a vote to remove it: two of four validators
    vote to remove address 9 and it is removed. Pruning for block 10 with
    snapshots at 0 and 25 takes the farther one for the closest and changes
    the validators at height 12. And replacing the snapshot at 0 among three
    stores a second one. *)
Theorem snapshot_defects :
  ((λ s, (Len (snSet s), Includes (snSet s) (addr_of 9), voteAuth <$> snVotes s))
     <$> (match vote_all adding bls_genesis with Returns s => Some s | _ => None end) = Some (4, true, [true]) ∧
   length removing = 2%nat ∧
   (λ s, Includes (snSet s) (addr_of 9))
     <$> (match vote_all (adding ++ removing) bls_genesis with Returns s => Some s | _ => None end) = Some false) ∧
  (let s := mkStore 30 [snap_at 0 4; snap_at 25 5] in
   snSet <$> find 12 s = Some (demo_set 4) ∧
   snSet <$> (s' ← deleteLower 10 s; find 12 s') = Some (demo_set 5)) ∧
  snNumber <$> snaps (putByNumber (snap_at 0 7) (mkStore 30 [snap_at 0 4; snap_at 10 5; snap_at 20 6])) = [0; 0; 10; 20].
Proof. split; [apply stale_votes_counted|apply prune_and_put_defects]. Qed.
