(* ===== verification/Radix.v ===== *)
(** * The third-party containers of the state package

    [go-immutable-radix] and [golang-lru] as interfaces with the part of
    their documented behaviour the state package relies on. A radix
    transaction is a map from byte strings to values whose [Walk] visits
    every entry exactly once; committing it yields an immutable tree and
    opening a transaction on a tree never changes the tree, so trees and
    transactions are values here. An LRU cache returns only what was added
    under the same key, and returns what was added last.

    The instances, a finite map and an association list, show that the
    laws can be met. *)

From S2P Require Import Prelude.
From stdpp Require Import gmap.
#[local] Open Scope Z_scope.

Class Radix := {
  tree : Type → Type;
  tnew : ∀ {V}, tree V;
  tget : ∀ {V}, tree V → list Z → option V;
  tinsert : ∀ {V}, tree V → list Z → V → tree V;
  tdelete : ∀ {V}, tree V → list Z → tree V;
  twalk : ∀ {V}, tree V → list (list Z * V);
}.

Class RadixLaws `{Radix} := {
  tget_new : ∀ V k, tget (tnew (V:=V)) k = None;
  tget_insert_eq : ∀ V (t : tree V) k v, tget (tinsert t k v) k = Some v;
  tget_insert_ne : ∀ V (t : tree V) k k' v, k ≠ k' → tget (tinsert t k v) k' = tget t k';
  tget_delete_eq : ∀ V (t : tree V) k, tget (tdelete t k) k = None;
  tget_delete_ne : ∀ V (t : tree V) k k', k ≠ k' → tget (tdelete t k) k' = tget t k';
  twalk_get : ∀ V (t : tree V) k v, (k, v) ∈ twalk t ↔ tget t k = Some v;
  twalk_nodup : ∀ V (t : tree V), NoDup (twalk t).*1;
}.

Class Lru (K V : Type) := {
  cache : Type;
  lru_new : cache;
  lru_get : cache → K → option V * cache;   (** a lookup refreshes the entry *)
  lru_add : cache → K → V → cache;
}.
Arguments cache K V {_}.

Class LruLaws K V `{Lru K V} := {
  lru_new_get : ∀ k, (lru_get lru_new k).1 = None;
  lru_add_get : ∀ c k v, (lru_get (lru_add c k v) k).1 = Some v;
  lru_add_sound : ∀ c k v k' v',
    (lru_get (lru_add c k v) k').1 = Some v' → (k' = k ∧ v' = v) ∨ (lru_get c k').1 = Some v';
  lru_get_sound : ∀ c k k' v', (lru_get (lru_get c k).2 k').1 = Some v' → (lru_get c k').1 = Some v';
}.

(** ** Instances *)

#[export] Instance map_radix : Radix := {|
  tree V := gmap (list Z) V;
  tnew V := ∅;
  tget V t k := t !! k;
  tinsert V t k v := <[k := v]> t;
  tdelete V t k := delete k t;
  twalk V t := map_to_list t;
|}.

#[export] Instance map_radix_laws : RadixLaws.
Proof.
  split; simpl; intros.
  - apply lookup_empty.
  - apply lookup_insert_eq.
  - by apply lookup_insert_ne.
  - apply lookup_delete_eq.
  - by apply lookup_delete_ne.
  - apply elem_of_map_to_list.
  - apply NoDup_fst_map_to_list.
Qed.

Section assoc.
Context {K V : Type} `{EqDecision K}.

Fixpoint assoc (l : list (K * V)) (k : K) : option V :=
  match l with
  | [] => None
  | (k', v) :: l => if decide (k = k') then Some v else assoc l k
  end.

(** An LRU cache that never evicts. *)
#[export] Instance list_lru : Lru K V := {|
  cache := list (K * V);
  lru_new := [];
  lru_get c k := (assoc c k, c);
  lru_add c k v := (k, v) :: c;
|}.

#[export] Instance list_lru_laws : LruLaws K V.
Proof.
  split; simpl.
  - done.
  - intros c k v. by rewrite decide_True.
  - intros c k v k' v'. destruct (decide (k' = k)) as [->|]; [|by right].
    intros E. injection E as ->. by left.
  - done.
Qed.
End assoc.
