(* ===== verification/Txn.v ===== *)
(** * Accounts and the transient state (state/state.go, state/txn.go)

    [Txn] is the state of a block under execution: a radix transaction over
    a read-only snapshot. Under a 20-byte address it holds the modified
    account, under the 32-byte [logIndex] and [refundIndex] the logs and the
    refund counter. Every read hands out a copy, so the pointers of the Go
    code are values here; TxnHeap.v has the pointers and shows that this is
    the same. The snapshot is the interface [readSnapshot]. *)

From S2P Require Import Prelude BigInt Chain Types Runtime Rlp BlockTypes Radix.
From stdpp Require Import gmap.
#[local] Open Scope Z_scope.

(** ** state.go *)

Record Account := mkAccount {
  Nonce : Z;           (** uint64 *)
  Balance : Z;         (** [*big.Int] *)
  Root : Hash;
  CodeHash : list Z;
}.

(** [a.Copy()]: the balance goes through its bytes, which drops its sign. *)
Definition Account_Copy (a : Account) : Account :=
  mkAccount (Nonce a) (SetBytes (Bytes (Balance a))) (Root a) (CodeHash a).

Definition emptyCodeHash `{Keccak} : list Z := keccak256 [].

(** keccak256 of the RLP encoding of the empty string. *)
Definition emptyStateHash : Hash :=
  be_encode 32 0x56e81f171bcc55a6ff8345e692c0f86e5b48e01b996cadc001622fb5e363b421.

(** A modified account. The storage changes are a radix transaction; a nil
    value in it is a deleted slot. *)
Record StateObject `{Radix} := mkObject {
  oAccount : Account;
  oCode : list Z;
  Suicide : bool;
  oDeleted : bool;
  DirtyCode : bool;
  oTxn : option (tree (option (list Z)));
}.
Arguments mkObject {_}.

Section objects.
Context `{!Radix, !Keccak}.

(** [s.Empty()] *)
Definition Object_Empty (s : StateObject) : bool :=
  (Nonce (oAccount s) =? 0) && (Z.sgn (Balance (oAccount s)) =? 0) &&
  bool_decide (CodeHash (oAccount s) = emptyCodeHash).

(** [s.Copy()] *)
Definition Object_Copy (s : StateObject) : StateObject :=
  mkObject (Account_Copy (oAccount s)) (oCode s) (Suicide s) (oDeleted s) (DirtyCode s) (oTxn s).

(** [newStateObject(txn)], also written out in [upsertAccount] and [CreateAccount]. *)
Definition newStateObject : StateObject :=
  mkObject (mkAccount 0 0 emptyStateHash emptyCodeHash) [] false false false None.

Definition set_account (a : Account) (s : StateObject) : StateObject :=
  mkObject a (oCode s) (Suicide s) (oDeleted s) (DirtyCode s) (oTxn s).
Definition set_balance (b : Z) (s : StateObject) : StateObject :=
  set_account (mkAccount (Nonce (oAccount s)) b (Root (oAccount s)) (CodeHash (oAccount s))) s.
Definition set_nonce (n : Z) (s : StateObject) : StateObject :=
  set_account (mkAccount n (Balance (oAccount s)) (Root (oAccount s)) (CodeHash (oAccount s))) s.
Definition set_suicide (s : StateObject) : StateObject :=
  mkObject (oAccount s) (oCode s) true (oDeleted s) (DirtyCode s) (oTxn s).
Definition set_deleted (s : StateObject) : StateObject :=
  mkObject (oAccount s) (oCode s) (Suicide s) true (DirtyCode s) (oTxn s).
Definition set_storage (t : tree (option (list Z))) (s : StateObject) : StateObject :=
  mkObject (oAccount s) (oCode s) (Suicide s) (oDeleted s) (DirtyCode s) (Some t).
Definition set_code (h code : list Z) (s : StateObject) : StateObject :=
  mkObject (mkAccount (Nonce (oAccount s)) (Balance (oAccount s)) (Root (oAccount s)) h)
    code (Suicide s) (oDeleted s) true (oTxn s).
End objects.

(** What [Commit] hands to the trie. *)
Record StorageObject := mkStorageObject {
  sDeleted : bool;
  sKey : list Z;
  sVal : list Z;
}.

Record Object := mkCommitted {
  cAddr : Address;
  cCodeHash : Hash;
  cBalance : Z;
  cRoot : Hash;
  cNonce : Z;
  cDeleted : bool;
  cDirtyCode : bool;
  cCode : list Z;
  cStorage : list StorageObject;
}.

(** ** txn.go *)

(** The snapshot of the last block: account, storage slot of an account with
    a given storage root, and code by hash. *)
Class readSnapshot := {
  snap_GetStorage : Address → Hash → Hash → Hash;
  snap_GetAccount : Address → option Account;      (** nil account or an error: [None] *)
  snap_GetCode : Hash → list Z;                    (** the missing code is the nil slice *)
}.

Definition logIndex : list Z := BytesToHash [2].
Definition refundIndex : list Z := BytesToHash [3].

(** The values of the radix transaction ([interface{}] in Go). *)
Inductive rvalue `{Radix} :=
  | VObject (o : StateObject)
  | VLogs (logs : list Log)
  | VRefund (gas : Z).

Record Txn `{Radix} `{Lru Address (list Z)} := mkTxn {
  snapshots : list (tree rvalue);
  txn : tree rvalue;
  codeCache : cache Address (list Z);
}.
Arguments mkTxn {_ _}.

Section txn.
Context `{!Radix, !Lru Address (list Z), !Keccak, !readSnapshot}.
Implicit Types t : Txn.

Definition set_txn r t : Txn := mkTxn (snapshots t) r (codeCache t).

Definition newTxn : Txn := mkTxn [] tnew lru_new.

(** [txn.Snapshot()] *)
Definition Snapshot t : Z * Txn :=
  (zlen (snapshots t), mkTxn (snapshots t ++ [txn t]) (txn t) (codeCache t)).

(** [txn.RevertToSnapshot(id)]; [None] is a panic. The check lets
    [id = len(txn.snapshots)] through, which is an index out of range. *)
Definition RevertToSnapshot t (id : Z) : option Txn :=
  if (id <? 0) || (zlen (snapshots t) <? id) then None else
  match snapshots t !! Z.to_nat id with
  | Some r => Some (set_txn r t)
  | None => None
  end.

(** An address key never holds logs or the refund, whose keys are longer. *)
Definition getStateObject t (addr : Address) : option StateObject :=
  match tget (txn t) addr with
  | Some (VObject obj) => if oDeleted obj then None else Some (Object_Copy obj)
  | _ =>
      match snap_GetAccount addr with
      | Some account => Some (mkObject (Account_Copy account) [] false false false None)
      | None => None
      end
  end.

Definition GetAccount t (addr : Address) : option Account := oAccount <$> getStateObject t addr.

(** [txn.upsertAccount(addr, create, f)] *)
Definition upsertAccount t (addr : Address) (create : bool)
    (f : option StateObject → option StateObject) : Txn :=
  let object :=
    match getStateObject t addr with
    | Some o => Some o
    | None => if create then Some newStateObject else None
    end in
  match f object with
  | Some o => set_txn (tinsert (txn t) addr (VObject o)) t
  | None => t
  end.

(** With [create] the callback always has an object to work on. *)
Definition update t (addr : Address) (f : StateObject → StateObject) : Txn :=
  upsertAccount t addr true (fmap f).

Definition AddSealingReward t (addr : Address) (balance : Z) : Txn :=
  update t addr (λ o,
    if Suicide o then set_balance (SetBytes (Bytes balance)) newStateObject
    else set_balance (Balance (oAccount o) + balance) o).

Definition AddBalance t (addr : Address) (balance : Z) : Txn :=
  update t addr (λ o, set_balance (Balance (oAccount o) + balance) o).

Definition GetBalance t (addr : Address) : Z :=
  match getStateObject t addr with
  | Some o => Balance (oAccount o)
  | None => 0
  end.

(** [Some] of an error and the unchanged state, or no error. *)
Definition SubBalance t (addr : Address) (amount : Z) : option error * Txn :=
  if Z.sgn amount =? 0 then (None, t) else
  if GetBalance t addr <? amount then (Some ErrNotEnoughFunds, t) else
  (None, update t addr (λ o, set_balance (Balance (oAccount o) - amount) o)).

Definition SetBalance t (addr : Address) (balance : Z) : Txn :=
  update t addr (set_balance (SetBytes (Bytes balance))).

Definition currentLogs t : list Log :=
  match tget (txn t) logIndex with
  | Some (VLogs logs) => logs
  | _ => []
  end.

Definition AddLog t (log : Log) : Txn :=
  set_txn (tinsert (txn t) logIndex (VLogs (currentLogs t ++ [log]))) t.

Definition EmitLog t (addr : Address) (topics : list Hash) (data : list Z) : Txn :=
  AddLog t (mkLog addr topics data).

(** [txn.Logs()] takes the logs out. *)
Definition Logs t : list Log * Txn :=
  match tget (txn t) logIndex with
  | Some (VLogs logs) => (logs, set_txn (tdelete (txn t) logIndex) t)
  | _ => ([], t)
  end.

Definition GetRefund t : Z :=
  match tget (txn t) refundIndex with
  | Some (VRefund g) => g
  | _ => 0
  end.

Definition AddRefund t (gas : Z) : Txn :=
  set_txn (tinsert (txn t) refundIndex (VRefund (u64 (GetRefund t + gas)))) t.

Definition SubRefund t (gas : Z) : Txn :=
  set_txn (tinsert (txn t) refundIndex (VRefund (u64 (GetRefund t - gas)))) t.

(** *** Storage *)

Definition SetState t (addr : Address) (key value : Hash) : Txn :=
  update t addr (λ o,
    let st := default tnew (oTxn o) in
    set_storage (tinsert st key (if bool_decide (value = ZeroHash) then None else Some value)) o).

Definition GetState t (addr : Address) (key : Hash) : Hash :=
  match getStateObject t addr with
  | None => ZeroHash
  | Some o =>
      match (match oTxn o with Some st => tget st key | None => None end) with
      | Some None => ZeroHash
      | Some (Some val) => BytesToHash val
      | None => snap_GetStorage addr (Root (oAccount o)) key
      end
  end.

Definition GetCommittedState t (addr : Address) (key : Hash) : Hash :=
  match getStateObject t addr with
  | None => ZeroHash
  | Some o => snap_GetStorage addr (Root (oAccount o)) key
  end.

Definition legacyGasMetering (config : ForksInTime) : bool :=
  negb (Istanbul config) && (Petersburg config || negb (Constantinople config)).

Definition txn_SetStorage t (addr : Address) (key value : Hash) (config : ForksInTime)
    : StorageStatus * Txn :=
  let oldValue := GetState t addr key in
  if bool_decide (oldValue = value) then (StorageUnchanged, t) else
  let current := oldValue in
  let original := GetCommittedState t addr key in
  let t := SetState t addr key value in
  if legacyGasMetering config then
    if bool_decide (oldValue = ZeroHash) then (StorageAdded, t)
    else if bool_decide (value = ZeroHash) then (StorageDeleted, AddRefund t 15000)
    else (StorageModified, t)
  else if bool_decide (original = current) then
    if bool_decide (original = ZeroHash) then (StorageAdded, t)
    else if bool_decide (value = ZeroHash) then (StorageDeleted, AddRefund t 15000)
    else (StorageModified, t)
  else
    let t :=
      if negb (bool_decide (original = ZeroHash)) then
        if bool_decide (current = ZeroHash) then SubRefund t 15000
        else if bool_decide (value = ZeroHash) then AddRefund t 15000
        else t
      else t in
    let t :=
      if bool_decide (original = value) then
        if bool_decide (original = ZeroHash) then
          if Istanbul config then AddRefund t 19200 else AddRefund t 19800
        else if Istanbul config then AddRefund t 4200 else AddRefund t 4800
      else t in
    (StorageModifiedAgain, t).

(** *** Nonce and code *)

Definition IncrNonce t (addr : Address) : Txn :=
  update t addr (λ o, set_nonce (u64 (Nonce (oAccount o) + 1)) o).

Definition SetNonce t (addr : Address) (nonce : Z) : Txn := update t addr (set_nonce nonce).

Definition GetNonce t (addr : Address) : Z :=
  match getStateObject t addr with
  | Some o => Nonce (oAccount o)
  | None => 0
  end.

Definition SetCode t (addr : Address) (code : list Z) : Txn :=
  update t addr (set_code (keccak256 code) code).

(** [txn.GetCode(addr)], which may fill the cache. *)
Definition GetCode t (addr : Address) : list Z * Txn :=
  match getStateObject t addr with
  | None => ([], t)
  | Some o =>
      if DirtyCode o then (oCode o, t) else
      match lru_get (codeCache t) addr with
      | (Some v, c) => (v, mkTxn (snapshots t) (txn t) c)
      | (None, c) =>
          let code := snap_GetCode (BytesToHash (CodeHash (oAccount o))) in
          (code, mkTxn (snapshots t) (txn t) (lru_add c addr code))
      end
  end.

Definition GetCodeSize t (addr : Address) : Z * Txn :=
  let '(code, t) := GetCode t addr in (zlen code, t).

Definition GetCodeHash t (addr : Address) : Hash :=
  match getStateObject t addr with
  | Some o => BytesToHash (CodeHash (oAccount o))
  | None => ZeroHash
  end.

(** *** Existence *)

(** The callback of [txn.Suicide(addr)]: whether it marks the account now,
    and the account it leaves. *)
Definition suicide_callback (o : option StateObject) : bool * option StateObject :=
  match o with
  | None => (false, None)
  | Some o =>
      let o' := if Suicide o then o else set_suicide o in
      (negb (Suicide o), Some (set_balance 0 o'))
  end.

Definition txn_Suicide t (addr : Address) : bool * Txn :=
  ((suicide_callback (getStateObject t addr)).1,
   upsertAccount t addr false (λ o, (suicide_callback o).2)).

Definition HasSuicided t (addr : Address) : bool :=
  match getStateObject t addr with
  | Some o => Suicide o
  | None => false
  end.

Definition TouchAccount t (addr : Address) : Txn := update t addr id.

Definition Exist t (addr : Address) : bool := bool_decide (is_Some (getStateObject t addr)).

Definition Empty t (addr : Address) : bool :=
  match getStateObject t addr with
  | Some o => Object_Empty o
  | None => true
  end.

Definition CreateAccount t (addr : Address) : Txn :=
  let obj :=
    match getStateObject t addr with
    | Some prev => set_balance (SetBytes (Bytes (Balance (oAccount prev)))) newStateObject
    | None => newStateObject
    end in
  set_txn (tinsert (txn t) addr (VObject obj)) t.

(** *** End of a transaction and of a block *)

(** The keys the first walk of [CleanDeleteObjects] collects. *)
Definition removable (deleteEmptyObjects : bool) (r : tree rvalue) : list (list Z) :=
  omap (λ '(k, v),
    match v with
    | VObject a => if Suicide a || (Object_Empty a && deleteEmptyObjects) then Some k else None
    | _ => None
    end) (twalk r).

(** One round of its loop; [None] is the panic of a key that is gone. *)
Definition markDeleted (r : option (tree rvalue)) (k : list Z) : option (tree rvalue) :=
  match r with
  | None => None
  | Some r =>
      match tget r k with
      | Some (VObject obj) => Some (tinsert r k (VObject (set_deleted (Object_Copy obj))))
      | _ => None
      end
  end.

Definition CleanDeleteObjects t (deleteEmptyObjects : bool) : option Txn :=
  match foldl markDeleted (Some (txn t)) (removable deleteEmptyObjects (txn t)) with
  | Some r => Some (set_txn (tdelete r refundIndex) t)
  | None => None
  end.

(** The storage entries of a committed object. *)
Definition storageObjects (st : tree (option (list Z))) : list StorageObject :=
  (λ '(k, v), match v with
              | None => mkStorageObject true k []
              | Some val => mkStorageObject false k val
              end) <$> twalk st.

Definition committed (k : list Z) (a : StateObject) : Object := {|
  cNonce := Nonce (oAccount a); cAddr := BytesToAddress k; cBalance := Balance (oAccount a);
  cRoot := Root (oAccount a); cCodeHash := BytesToHash (CodeHash (oAccount a));
  cDirtyCode := DirtyCode a; cCode := oCode a; cDeleted := oDeleted a;
  cStorage := if oDeleted a then [] else
    match oTxn a with
    | Some st => storageObjects st
    | None => []
    end;
|}.

(** [txn.Commit(deleteEmptyObjects)] *)
Definition Commit t (deleteEmptyObjects : bool) : option (list Object * Txn) :=
  match CleanDeleteObjects t deleteEmptyObjects with
  | None => None
  | Some t =>
      Some (omap (λ '(k, v), match v with VObject a => Some (committed k a) | _ => None end) (twalk (txn t)), t)
  end.
End txn.
