(* ===== verification/TxnProps.v ===== *)
(** * What the transient state guarantees

    The accounts a [Txn] shows ([getStateObject]) as a function of the
    operations applied to it: balances, nonces, code and storage read back
    what was written and leave every other account alone; a snapshot
    restores everything; the refund counter stays in range within a
    transaction; the end of a transaction removes exactly the accounts it
    should and a commit lists exactly the modified ones. *)

From S2P Require Import Prelude BigInt Chain Types Runtime Rlp BlockTypes Radix Txn.
From stdpp Require Import gmap.
#[local] Open Scope Z_scope.

(** What the snapshot of a block provides. *)
Class SnapshotLaws `{!readSnapshot, !Keccak} := {
  snap_balance : ∀ a acc, snap_GetAccount a = Some acc → 0 ≤ Balance acc;
  snap_storage_ok : ∀ a r k, hash_ok (snap_GetStorage a r k);
  snap_storage_empty : ∀ a k, snap_GetStorage a emptyStateHash k = ZeroHash;
  snap_code_empty : snap_GetCode (BytesToHash emptyCodeHash) = [];
}.

Section views.
Context `{!Radix, !RadixLaws, !Lru Address (list Z), !Keccak, !readSnapshot, !SnapshotLaws}.
Implicit Types t : Txn.
Implicit Types o : StateObject.

(** Copying an object keeps it when its balance is not negative. *)
Lemma Object_Copy_id o : 0 ≤ Balance (oAccount o) → Object_Copy o = o.
Proof.
  intros Hb. destruct o as [[n b r c] ? ? ? ? ?]. unfold Object_Copy, Account_Copy. simpl in *.
  by rewrite SetBytes_Bytes.
Qed.

(** Every object the transaction holds has a balance that is not negative,
    and the trees kept as snapshots too. *)
Definition tree_ok (r : tree rvalue) : Prop :=
  ∀ k o, tget r k = Some (VObject o) → 0 ≤ Balance (oAccount o).

Definition txn_ok t : Prop := tree_ok (txn t) ∧ Forall tree_ok (snapshots t).

Lemma getStateObject_balance t a o : getStateObject t a = Some o → 0 ≤ Balance (oAccount o).
Proof.
  assert (∀ b, 0 ≤ SetBytes (Bytes b)) as Hb.
  { intros b. apply be_decode_range, Bytes_ok. }
  unfold getStateObject. destruct (tget (txn t) a) as [[o'| |]|]; [case_match; [done|]|..].
  1: intros E; injection E as <-; apply Hb.
  all: destruct (snap_GetAccount a) as [acc|]; [|done]; intros E; injection E as <-; apply Hb.
Qed.

Lemma getStateObject_not_deleted t a o : getStateObject t a = Some o → oDeleted o = false.
Proof.
  unfold getStateObject. destruct (tget (txn t) a) as [[o'| |]|]; [destruct (oDeleted o') eqn:E; [done|]|..].
  1: intros E'; injection E' as <-; done.
  all: destruct (snap_GetAccount a) as [acc|]; [|done]; intros E'; injection E' as <-; done.
Qed.

(** The object an update starts from. *)
Definition object t a : StateObject := default newStateObject (getStateObject t a).

Lemma object_balance t a : 0 ≤ Balance (oAccount (object t a)).
Proof.
  unfold object. destruct (getStateObject t a) eqn:E; simpl; [by eapply getStateObject_balance|lia].
Qed.

Lemma object_not_deleted t a : oDeleted (object t a) = false.
Proof.
  unfold object. destruct (getStateObject t a) eqn:E; simpl; [by eapply getStateObject_not_deleted|done].
Qed.

Lemma update_txn t a f : update t a f = set_txn (tinsert (txn t) a (VObject (f (object t a)))) t.
Proof. unfold update, upsertAccount, object. by destruct (getStateObject t a). Qed.

Lemma get_insert_eq t a o :
  getStateObject (set_txn (tinsert (txn t) a (VObject o)) t) a =
    if oDeleted o then None else Some (Object_Copy o).
Proof. unfold getStateObject. simpl. by rewrite tget_insert_eq. Qed.

Lemma get_insert_ne t a b v : a ≠ b → getStateObject (set_txn (tinsert (txn t) a v) t) b = getStateObject t b.
Proof. intros Hne. unfold getStateObject. simpl. by rewrite tget_insert_ne. Qed.

(** An update that keeps the balance non-negative and does not delete. *)
Definition keeps f : Prop :=
  ∀ o, 0 ≤ Balance (oAccount o) → oDeleted o = false →
    0 ≤ Balance (oAccount (f o)) ∧ oDeleted (f o) = false.

Lemma get_update_eq t a f :
  keeps f → getStateObject (update t a f) a = Some (f (object t a)).
Proof.
  intros Hf. destruct (Hf (object t a)) as [Hb Hd]; [apply object_balance|apply object_not_deleted|].
  by rewrite update_txn, get_insert_eq, Hd, Object_Copy_id.
Qed.

Lemma get_update_ne t a b f : a ≠ b → getStateObject (update t a f) b = getStateObject t b.
Proof. intros. by rewrite update_txn, get_insert_ne. Qed.

Lemma object_update_eq t a f : keeps f → object (update t a f) a = f (object t a).
Proof. intros. unfold object at 1. by rewrite get_update_eq. Qed.

Lemma object_update_ne t a b f : a ≠ b → object (update t a f) b = object t b.
Proof. intros. unfold object. by rewrite get_update_ne. Qed.

Lemma GetBalance_object t a : GetBalance t a = Balance (oAccount (object t a)).
Proof. unfold GetBalance, object. by destruct (getStateObject t a). Qed.

Lemma GetNonce_object t a : GetNonce t a = Nonce (oAccount (object t a)).
Proof. unfold GetNonce, object. by destruct (getStateObject t a). Qed.

(** ** Balances *)

Lemma keeps_add v : 0 ≤ v → keeps (λ o, set_balance (Balance (oAccount o) + v) o).
Proof. intros Hv o Hb Hd. simpl. split; [lia|done]. Qed.

Lemma AddBalance_balance t a v b :
  0 ≤ v → GetBalance (AddBalance t a v) b = GetBalance t b + (if decide (a = b) then v else 0).
Proof.
  intros Hv. rewrite !GetBalance_object. unfold AddBalance. destruct (decide (a = b)) as [<-|Hne].
  - by rewrite object_update_eq by by apply keeps_add.
  - rewrite object_update_ne by done. lia.
Qed.

Lemma SubBalance_balance t a v t' b :
  0 ≤ v → SubBalance t a v = (None, t') →
  v ≤ GetBalance t a ∧ GetBalance t' b = GetBalance t b - (if decide (a = b) then v else 0).
Proof.
  intros Hv. unfold SubBalance. pose proof (object_balance t a) as Hb. rewrite <- GetBalance_object in Hb.
  destruct (Z.eqb_spec (Z.sgn v) 0) as [E|E].
  - intros E'. injection E' as <-. assert (v = 0) as -> by lia. split; [done|]. case_decide; lia.
  - destruct (Z.ltb_spec (GetBalance t a) v) as [|Hle]; [done|]. intros E'. injection E' as <-. split; [done|].
    rewrite !GetBalance_object in *. destruct (decide (a = b)) as [<-|Hne].
    + rewrite update_txn. unfold object at 1. rewrite get_insert_eq. simpl.
      rewrite object_not_deleted. simpl. by rewrite SetBytes_Bytes by lia.
    + rewrite object_update_ne by done. lia.
Qed.

(** The total of the balances of some accounts. *)
Definition total t (l : list Address) : Z := sumZ (GetBalance t) l.

Lemma total_shift t t' a v l :
  NoDup l → a ∈ l → (∀ b, GetBalance t' b = GetBalance t b + (if decide (a = b) then v else 0)) →
  total t' l = total t l + v.
Proof.
  intros Hnd Ha Hb. unfold total. rewrite (sumZ_update (GetBalance t) (GetBalance t') a) by
    (try done; intros b _ Hne; rewrite Hb, decide_False by done; lia).
  rewrite decide_True, Hb, decide_True by done. lia.
Qed.
End views.

(** ** Snapshots *)

Section snapshots.
Context `{!Radix, !RadixLaws, !Lru Address (list Z), !Keccak, !readSnapshot}.
Implicit Types t : Txn.

(** The operations a transaction applies to the state. *)
Inductive txn_op :=
  | OAddBalance (a : Address) (v : Z)
  | OSubBalance (a : Address) (v : Z)
  | OSetBalance (a : Address) (v : Z)
  | OAddSealingReward (a : Address) (v : Z)
  | OIncrNonce (a : Address)
  | OSetNonce (a : Address) (n : Z)
  | OSetCode (a : Address) (code : list Z)
  | OGetCode (a : Address)
  | OSetState (a : Address) (k v : Hash)
  | OSetStorage (a : Address) (k v : Hash) (config : ForksInTime)
  | OEmitLog (a : Address) (topics : list Hash) (data : list Z)
  | OLogs
  | OAddRefund (g : Z)
  | OSubRefund (g : Z)
  | OSuicide (a : Address)
  | OTouchAccount (a : Address)
  | OCreateAccount (a : Address)
  | OCleanDeleteObjects (deleteEmpty : bool)
  | OSnapshot
  | ORevertToSnapshot (id : Z).

Definition run_op (o : txn_op) t : option Txn :=
  match o with
  | OAddBalance a v => Some (AddBalance t a v)
  | OSubBalance a v => Some (SubBalance t a v).2
  | OSetBalance a v => Some (SetBalance t a v)
  | OAddSealingReward a v => Some (AddSealingReward t a v)
  | OIncrNonce a => Some (IncrNonce t a)
  | OSetNonce a n => Some (SetNonce t a n)
  | OSetCode a code => Some (SetCode t a code)
  | OGetCode a => Some (GetCode t a).2
  | OSetState a k v => Some (SetState t a k v)
  | OSetStorage a k v config => Some (txn_SetStorage t a k v config).2
  | OEmitLog a topics data => Some (EmitLog t a topics data)
  | OLogs => Some (Logs t).2
  | OAddRefund g => Some (AddRefund t g)
  | OSubRefund g => Some (SubRefund t g)
  | OSuicide a => Some (txn_Suicide t a).2
  | OTouchAccount a => Some (TouchAccount t a)
  | OCreateAccount a => Some (CreateAccount t a)
  | OCleanDeleteObjects d => CleanDeleteObjects t d
  | OSnapshot => Some (Snapshot t).2
  | ORevertToSnapshot id => RevertToSnapshot t id
  end.

Definition run_ops (ops : list txn_op) t : option Txn :=
  foldl (λ r o, match r with Some t => run_op o t | None => None end) (Some t) ops.

Lemma snapshots_update t a f : snapshots (update t a f) = snapshots t.
Proof. by rewrite update_txn. Qed.

(** No operation drops or changes a snapshot that was taken. *)
Lemma run_op_snapshots o t t' : run_op o t = Some t' → snapshots t `prefix_of` snapshots t'.
Proof.
  assert (∀ t' : Txn, snapshots t' = snapshots t → snapshots t `prefix_of` snapshots t') as Heq.
  { intros ? ->. done. }
  destruct o; simpl; intros E; try (injection E as <-; apply Heq; try apply snapshots_update; reflexivity).
  - injection E as <-. apply Heq. unfold SubBalance. repeat case_match; simpl; rewrite ?snapshots_update; done.
  - injection E as <-. apply Heq. unfold GetCode. repeat case_match; done.
  - injection E as <-. apply Heq. unfold txn_SetStorage, SetState.
    repeat case_match; simpl; rewrite ?snapshots_update; done.
  - injection E as <-. apply Heq. unfold Logs. repeat case_match; done.
  - injection E as <-. apply Heq. unfold txn_Suicide, upsertAccount. simpl. repeat case_match; done.
  - unfold CleanDeleteObjects in E. case_match; [|done]. injection E as <-. by apply Heq.
  - injection E as <-. simpl. by apply prefix_app_r.
  - unfold RevertToSnapshot in E. repeat case_match; try done. injection E as <-. by apply Heq.
Qed.

Lemma run_ops_snapshots ops t t' : run_ops ops t = Some t' → snapshots t `prefix_of` snapshots t'.
Proof.
  revert t. induction ops as [|o ops IH]; intros t; unfold run_ops; simpl.
  - intros E. by injection E as <-.
  - destruct (run_op o t) as [t1|] eqn:E1.
    + intros E. etrans; [by eapply run_op_snapshots|]. by apply IH.
    + intros E. exfalso. clear -E. induction ops; simpl in *; [done|auto].
Qed.
End snapshots.

(** A snapshot of the values restores the whole transient state: whatever
    operations run after [Snapshot], nested snapshots and reverts included,
    [RevertToSnapshot] with its id does not panic and brings back every
    account, the logs and the refund counter as they were. TxnHeap.v carries
    this over to the objects and slices of the code. *)
Theorem snapshot_revert `{!Radix, !RadixLaws, !Lru Address (list Z), !Keccak, !readSnapshot}
    (t : Txn) (ops : list txn_op) (t2 : Txn) :
  let '(id, t1) := Snapshot t in
  run_ops ops t1 = Some t2 →
  ∃ t3, RevertToSnapshot t2 id = Some t3 ∧
    (∀ a, getStateObject t3 a = getStateObject t a) ∧
    (∀ a k, GetState t3 a k = GetState t a k) ∧
    currentLogs t3 = currentLogs t ∧ GetRefund t3 = GetRefund t.
Proof.
  intros E. apply run_ops_snapshots in E as [l E]. simpl in E.
  assert (snapshots t2 !! length (snapshots t) = Some (txn t)) as Hl.
  { rewrite E, <- app_assoc. simpl. by rewrite lookup_app_r, Nat.sub_diag by lia. }
  exists (set_txn (txn t) t2). split; [|done]. unfold RevertToSnapshot.
  pose proof (lookup_lt_Some _ _ _ Hl). unfold zlen.
  rewrite (proj2 (Z.ltb_ge _ 0)), (proj2 (Z.ltb_ge _ _)), Nat2Z.id, Hl by lia. done.
Qed.

(** ** Storage *)

Section storage.
Context `{!Radix, !RadixLaws, !Lru Address (list Z), !Keccak, !readSnapshot, !SnapshotLaws}.
Implicit Types t : Txn.
Implicit Types o : StateObject.

Lemma addr_not_index a : addr_ok a → logIndex ≠ a ∧ refundIndex ≠ a.
Proof. intros [Hl _]. split; intros <-; discriminate Hl. Qed.

Lemma index_ne : logIndex ≠ refundIndex.
Proof. intros E. vm_compute in E. discriminate E. Qed.

(** The value of a slot of an object. *)
Definition slot (a : Address) o (k : Hash) : Hash :=
  match (match oTxn o with Some st => tget st k | None => None end) with
  | Some None => ZeroHash
  | Some (Some val) => BytesToHash val
  | None => snap_GetStorage a (Root (oAccount o)) k
  end.

Lemma GetState_object t a k : GetState t a k = slot a (object t a) k.
Proof.
  unfold GetState, object. destruct (getStateObject t a); simpl; [done|].
  unfold slot. simpl. by rewrite snap_storage_empty.
Qed.

Lemma GetCommittedState_object t a k : GetCommittedState t a k = snap_GetStorage a (Root (oAccount (object t a))) k.
Proof.
  unfold GetCommittedState, object. destruct (getStateObject t a); simpl; [done|]. by rewrite snap_storage_empty.
Qed.

Lemma BytesToHash_id h : hash_ok h → BytesToHash h = h.
Proof. intros [Hl _]. by apply right_align_id. Qed.

Lemma slot_set a o k v k' :
  hash_ok v →
  slot a (set_storage (tinsert (default tnew (oTxn o)) k (if bool_decide (v = ZeroHash) then None else Some v)) o) k' =
    if decide (k = k') then v else slot a o k'.
Proof.
  intros Hv. unfold slot. simpl. destruct (decide (k = k')) as [<-|Hne].
  - rewrite tget_insert_eq. case_bool_decide; [done|by apply BytesToHash_id].
  - rewrite tget_insert_ne by done. destruct (oTxn o); simpl; [done|]. by rewrite tget_new.
Qed.

Lemma keeps_storage (f : StateObject → tree (option (list Z))) : keeps (λ o, set_storage (f o) o).
Proof. intros o Hb Hd. done. Qed.

Lemma SetState_state t a k v b k' :
  hash_ok v → GetState (SetState t a k v) b k' = if decide ((a, k) = (b, k')) then v else GetState t b k'.
Proof.
  intros Hv. rewrite !GetState_object. unfold SetState. destruct (decide (a = b)) as [<-|Hne].
  - rewrite object_update_eq by apply (keeps_storage (λ o, tinsert (default tnew (oTxn o)) k _)).
    rewrite slot_set by done. destruct (decide (k = k')); [rewrite decide_True|rewrite decide_False]; congruence.
  - rewrite object_update_ne, decide_False by congruence. done.
Qed.

Lemma SetState_committed t a k v b k' : GetCommittedState (SetState t a k v) b k' = GetCommittedState t b k'.
Proof.
  rewrite !GetCommittedState_object. unfold SetState. destruct (decide (a = b)) as [<-|Hne].
  - by rewrite object_update_eq by apply (keeps_storage (λ o, tinsert (default tnew (oTxn o)) k _)).
  - by rewrite object_update_ne.
Qed.

Lemma GetRefund_insert_obj t a o : addr_ok a → GetRefund (set_txn (tinsert (txn t) a (VObject o)) t) = GetRefund t.
Proof. intros Ha. unfold GetRefund. simpl. rewrite tget_insert_ne; [done|]. by apply not_eq_sym, addr_not_index. Qed.

Lemma SetState_refund t a k v : addr_ok a → GetRefund (SetState t a k v) = GetRefund t.
Proof. intros. unfold SetState. rewrite update_txn. by apply GetRefund_insert_obj. Qed.

(** The refund counter does not show in any account. *)
Definition same_accounts t t' : Prop := ∀ a, addr_ok a → getStateObject t' a = getStateObject t a.

#[export] Instance same_accounts_equiv : Equivalence same_accounts.
Proof.
  split.
  - by intros t a.
  - intros t t' Ht a Ha. symmetry. by apply Ht.
  - intros t1 t2 t3 H12 H23 a Ha. rewrite H23, H12 by done. done.
Qed.

Lemma AddRefund_same t g : same_accounts t (AddRefund t g).
Proof. intros a Ha. apply get_insert_ne. by apply addr_not_index. Qed.

Lemma SubRefund_same t g : same_accounts t (SubRefund t g).
Proof. intros a Ha. apply get_insert_ne. by apply addr_not_index. Qed.

Lemma AddRefund_refund t g : GetRefund (AddRefund t g) = u64 (GetRefund t + g).
Proof. unfold GetRefund at 1, AddRefund. simpl. by rewrite tget_insert_eq. Qed.

Lemma SubRefund_refund t g : GetRefund (SubRefund t g) = u64 (GetRefund t - g).
Proof. unfold GetRefund at 1, SubRefund. simpl. by rewrite tget_insert_eq. Qed.

Lemma same_state t t' a k : same_accounts t t' → addr_ok a → GetState t' a k = GetState t a k.
Proof. intros Hs Ha. unfold GetState. by rewrite Hs. Qed.

Lemma same_committed t t' a k :
  same_accounts t t' → addr_ok a → GetCommittedState t' a k = GetCommittedState t a k.
Proof. intros Hs Ha. unfold GetCommittedState. by rewrite Hs. Qed.

(** [SetStorage] is [SetState] as far as the accounts are concerned. *)
Lemma SetStorage_same t a k v cfg :
  GetState t a k ≠ v → same_accounts (SetState t a k v) (txn_SetStorage t a k v cfg).2.
Proof.
  intros Hne. unfold txn_SetStorage. rewrite bool_decide_false by done.
  repeat case_match; simpl; try reflexivity; try apply AddRefund_same; try apply SubRefund_same.
  all: etrans; [|apply AddRefund_same]; try apply AddRefund_same; apply SubRefund_same.
Qed.

Lemma SetStorage_state t a k v cfg b k' :
  addr_ok b → hash_ok v →
  GetState (txn_SetStorage t a k v cfg).2 b k' = if decide ((a, k) = (b, k')) then v else GetState t b k'.
Proof.
  intros Hb Hv. destruct (decide (GetState t a k = v)) as [E|Hne].
  - unfold txn_SetStorage. rewrite bool_decide_true by done. simpl. case_decide; [|done]. congruence.
  - rewrite (same_state _ _ b k' (SetStorage_same t a k v cfg Hne)) by done. by apply SetState_state.
Qed.

Lemma SetStorage_committed t a k v cfg b k' :
  addr_ok b → GetCommittedState (txn_SetStorage t a k v cfg).2 b k' = GetCommittedState t b k'.
Proof.
  intros Hb. destruct (decide (GetState t a k = v)) as [E|Hne].
  - unfold txn_SetStorage. by rewrite bool_decide_true.
  - rewrite (same_committed _ _ b k' (SetStorage_same t a k v cfg Hne)) by done. apply SetState_committed.
Qed.

(** ** Refunds *)

(** The change of the refund counter under EIP-1283 and EIP-2200, for a slot
    with committed value [orig] and current value [cur] that is set to [v]. *)
Definition refund_delta (cfg : ForksInTime) (orig cur v : Hash) : Z :=
  if decide (cur = v) then 0 else
  (if decide (orig = ZeroHash) then 0 else
   if decide (cur = ZeroHash) then -15000 else if decide (v = ZeroHash) then 15000 else 0) +
  (if decide (orig = cur) then 0 else if decide (orig = v) then
     if decide (orig = ZeroHash) then if Istanbul cfg then 19200 else 19800
     else if Istanbul cfg then 4200 else 4800
   else 0).

(** A slot that had a value at the start and is now zero. *)
Definition cleared t (s : Address * Hash) : Prop :=
  GetCommittedState t s.1 s.2 ≠ ZeroHash ∧ GetState t s.1 s.2 = ZeroHash.

#[export] Instance cleared_dec t s : Decision (cleared t s).
Proof. apply _. Defined.

Lemma SetStorage_refund t a k v cfg :
  legacyGasMetering cfg = false → addr_ok a → 0 ≤ GetRefund t < 2 ^ 63 →
  (cleared t (a, k) → 15000 ≤ GetRefund t) →
  GetRefund (txn_SetStorage t a k v cfg).2 =
    GetRefund t + refund_delta cfg (GetCommittedState t a k) (GetState t a k) v.
Proof.
  intros Hleg Ha Hr Hc. unfold txn_SetStorage, refund_delta, cleared in *. simpl in Hc. rewrite Hleg.
  set (cur := GetState t a k) in *. set (orig := GetCommittedState t a k) in *.
  repeat case_bool_decide; repeat case_decide; try congruence; try (specialize (Hc ltac:(done)));
    destruct (Istanbul cfg); simpl;
    rewrite ?AddRefund_refund, ?SubRefund_refund, ?SetState_refund by done;
    rewrite ?(u64_small (GetRefund t + 15000)), ?(u64_small (GetRefund t - 15000)) by lia;
    rewrite ?u64_small by lia; lia.
Qed.

(** The storage writes of one transaction. *)
Fixpoint writes (cfg : ForksInTime) t (l : list (Address * Hash * Hash)) : Txn :=
  match l with
  | [] => t
  | (a, k, v) :: l => writes cfg (txn_SetStorage t a k v cfg).2 l
  end.

(** The refunds they earn, as an integer. *)
Fixpoint earned (cfg : ForksInTime) t (l : list (Address * Hash * Hash)) : Z :=
  match l with
  | [] => 0
  | (a, k, v) :: l =>
      refund_delta cfg (GetCommittedState t a k) (GetState t a k) v +
      earned cfg (txn_SetStorage t a k v cfg).2 l
  end.

Definition clearedCount t (l : list (Address * Hash)) : Z :=
  sumZ (λ s, if decide (cleared t s) then 1 else 0) l.

(** Every cleared slot is covered by the refund counter. *)
Definition covered t : Prop :=
  ∀ l, NoDup l → Forall (λ s, addr_ok s.1) l → 15000 * clearedCount t l ≤ GetRefund t.

Lemma cleared_write t a k v cfg s :
  addr_ok s.1 → hash_ok v →
  cleared (txn_SetStorage t a k v cfg).2 s ↔
    GetCommittedState t s.1 s.2 ≠ ZeroHash ∧ (if decide ((a, k) = s) then v else GetState t s.1 s.2) = ZeroHash.
Proof.
  intros Hs Hv. unfold cleared. rewrite SetStorage_committed, SetStorage_state by done.
  by destruct s as [b k'].
Qed.

(** Clearing a slot earns what un-clearing it takes back. *)
Lemma refund_delta_cleared t a k v cfg :
  addr_ok a → hash_ok v →
  15000 * ((if decide (cleared (txn_SetStorage t a k v cfg).2 (a, k)) then 1 else 0) -
           (if decide (cleared t (a, k)) then 1 else 0)) ≤
    refund_delta cfg (GetCommittedState t a k) (GetState t a k) v ≤ 20000.
Proof.
  intros Ha Hv. unfold refund_delta.
  rewrite (decide_ext _ _ _ _ (cleared_write t a k v cfg (a, k) Ha Hv)).
  unfold cleared. simpl. rewrite (decide_True (P:=(a, k) = (a, k))) by done.
  repeat case_decide; destruct (Istanbul cfg); try tauto; try congruence; try lia;
    exfalso; destruct_and?; congruence.
Qed.

Lemma covered_write t a k v cfg :
  legacyGasMetering cfg = false → addr_ok a → hash_ok v → 0 ≤ GetRefund t < 2 ^ 63 → covered t →
  covered (txn_SetStorage t a k v cfg).2 ∧
  GetRefund (txn_SetStorage t a k v cfg).2 =
    GetRefund t + refund_delta cfg (GetCommittedState t a k) (GetState t a k) v.
Proof.
  intros Hleg Ha Hv Hr Hcov. set (t' := (txn_SetStorage t a k v cfg).2).
  set (ind t s := if decide (cleared t s) then 1 else 0).
  assert (∀ t l, clearedCount t l = sumZ (ind t) l) as Hcount by done.
  assert (GetRefund t' = GetRefund t + refund_delta cfg (GetCommittedState t a k) (GetState t a k) v) as Eref.
  { apply SetStorage_refund; try done. intros Hc. specialize (Hcov [(a, k)]).
    rewrite Hcount in Hcov. simpl in Hcov. unfold ind in Hcov. rewrite decide_True in Hcov by done.
    apply Hcov; [apply NoDup_singleton|by apply Forall_singleton]. }
  split; [|done]. intros l Hnd Hok. rewrite Eref, Hcount.
  pose proof (refund_delta_cleared t a k v cfg Ha Hv) as Hd. fold t' in Hd.
  fold (ind t' (a, k)) (ind t (a, k)) in Hd.
  assert (0 ≤ ind t' (a, k)) by (unfold ind; case_decide; lia).
  rewrite (sumZ_update (ind t) (ind t') (a, k)); [|done|].
  - destruct (decide ((a, k) ∈ l)) as [Hin|Hnin].
    + specialize (Hcov l Hnd Hok). rewrite Hcount in Hcov. lia.
    + specialize (Hcov ((a, k) :: l)). rewrite Hcount in Hcov. simpl in Hcov.
      specialize (Hcov ltac:(by apply NoDup_cons) ltac:(by apply Forall_cons)). lia.
  - intros s Hs Hne. unfold ind, t'.
    rewrite (decide_ext _ _ _ _ (cleared_write t a k v cfg s (proj1 (Forall_forall _ _) Hok s Hs) Hv)).
    by rewrite (decide_False (P:=(a, k) = s)) by done.
Qed.

Lemma writes_covered cfg l t :
  legacyGasMetering cfg = false → Forall (λ w, addr_ok w.1.1 ∧ hash_ok w.2) l → covered t →
  0 ≤ GetRefund t → GetRefund t + 20000 * zlen l < 2 ^ 63 →
  covered (writes cfg t l) ∧ GetRefund (writes cfg t l) = GetRefund t + earned cfg t l.
Proof.
  intros Hleg Hok. revert t. induction Hok as [|[[a k] v] l [Ha Hv] Hok IH]; intros t Hcov Hr0 Hr.
  - simpl. split; [done|lia].
  - unfold zlen in *. cbn [length] in Hr. cbn [writes earned].
    destruct (covered_write t a k v cfg Hleg Ha Hv ltac:(lia) Hcov) as [Hcov' Eref].
    pose proof (refund_delta_cleared t a k v cfg Ha Hv) as [_ Hd].
    assert (0 ≤ GetRefund (txn_SetStorage t a k v cfg).2).
    { specialize (Hcov' [] (NoDup_nil_2) (Forall_nil_2 _)). simpl in Hcov'. lia. }
    destruct (IH (txn_SetStorage t a k v cfg).2 Hcov') as [? ->]; try lia. split; [done|]. lia.
Qed.
End storage.

(** Within one transaction the refund counter is exact and never wraps:
    from a state without pending storage writes and with refund zero, any
    sequence of [SetStorage] calls under the Constantinople or Istanbul
    rules leaves a counter equal to the sum of the EIP-1283/EIP-2200 refunds
    of the single writes, and at least 15000 for every slot that had a value
    and is now zero. *)
Theorem refund_counter `{!Radix, !RadixLaws, !Lru Address (list Z), !Keccak, !readSnapshot, !SnapshotLaws}
    (cfg : ForksInTime) (t : Txn) (l : list (Address * Hash * Hash)) :
  legacyGasMetering cfg = false → Forall (λ w, addr_ok w.1.1 ∧ hash_ok w.2) l → zlen l < 2 ^ 40 →
  GetRefund t = 0 → (∀ a k, addr_ok a → GetState t a k = GetCommittedState t a k) →
  GetRefund (writes cfg t l) = earned cfg t l ∧
  ∀ slots, NoDup slots → Forall (λ s, addr_ok s.1) slots →
    15000 * clearedCount (writes cfg t l) slots ≤ GetRefund (writes cfg t l).
Proof.
  intros Hleg Hok Hlen Hr Hclean. assert (covered t) as Hcov.
  { intros slots _ Hs. rewrite Hr. unfold clearedCount.
    rewrite (sumZ_ext _ (λ _, 0)); [rewrite sumZ_zero; lia|].
    intros s Hin. rewrite decide_False; [done|]. intros [Hc Hz].
    rewrite Hclean in Hz by by apply (proj1 (Forall_forall _ _) Hs s). done. }
  destruct (writes_covered cfg l t Hleg Hok Hcov) as [Hc E]; [lia|lia|]. rewrite Hr in E. split; [done|exact Hc].
Qed.

(** ** A concrete snapshot *)

(** One contract at [demo_addr], with balance 100, code [[0x60]] and the
    value 1 in slot 7. The digest is constant. *)
Module Demo.
Definition demo_addr : Address := BytesToAddress [1].
Definition demo_addr2 : Address := BytesToAddress [2].
Definition demo_root : Hash := BytesToHash [9].
Definition demo_slot : Hash := BytesToHash [7].

#[export] Instance demo_keccak : Keccak.
Proof.
  refine {| keccak256 := λ _, ZeroHash |}. intros _. split; [done|]. apply Forall_replicate. split; lia.
Defined.

#[export] Instance demo_snapshot : readSnapshot := {|
  snap_GetStorage a r k :=
    if bool_decide (a = demo_addr) && bool_decide (r = demo_root) && bool_decide (k = demo_slot)
    then BytesToHash [1] else ZeroHash;
  snap_GetAccount a :=
    if bool_decide (a = demo_addr) then Some (mkAccount 1 100 demo_root (BytesToHash [5])) else None;
  snap_GetCode h := if bool_decide (h = BytesToHash [5]) then [0x60] else [];
|}.

#[export] Instance demo_snapshot_laws : SnapshotLaws.
Proof.
  split.
  - intros a acc. simpl. case_bool_decide; [|done]. intros E. by injection E as <-.
  - intros a r k. simpl. case_match; apply (bool_decide_unpack _); vm_compute; exact I.
  - intros a k. assert (bool_decide (emptyStateHash = demo_root) = false) as E by (vm_compute; reflexivity).
    unfold snap_GetStorage, demo_snapshot. by rewrite E, andb_false_r.
  - reflexivity.
Qed.
End Demo.
Import Demo.

Lemma demo_addr_ok : addr_ok demo_addr.
Proof. apply (bool_decide_unpack _). vm_compute. exact I. Qed.

Lemma demo_clean a k : GetState newTxn a k = GetCommittedState newTxn a k.
Proof.
  unfold GetState, GetCommittedState. destruct (getStateObject newTxn a) as [o|] eqn:E; [|done].
  unfold getStateObject in E. change (tget (txn newTxn) a) with (@None rvalue) in E. cbv iota in E.
  destruct (snap_GetAccount a); [|done]. by injection E as <-.
Qed.

Lemma refund_counter_witness :
  GetRefund (writes all_rules newTxn [(demo_addr, demo_slot, ZeroHash)]) =
    earned all_rules newTxn [(demo_addr, demo_slot, ZeroHash)] ∧
  15000 * clearedCount (writes all_rules newTxn [(demo_addr, demo_slot, ZeroHash)]) [(demo_addr, demo_slot)] ≤
    GetRefund (writes all_rules newTxn [(demo_addr, demo_slot, ZeroHash)]).
Proof.
  destruct (refund_counter all_rules newTxn [(demo_addr, demo_slot, ZeroHash)]) as [E Hc].
  - done.
  - apply Forall_singleton. split; [apply demo_addr_ok|]. apply (bool_decide_unpack _). vm_compute. exact I.
  - done.
  - done.
  - intros a k _. apply demo_clean.
  - split; [exact E|]. apply Hc; [apply NoDup_singleton|]. apply Forall_singleton, demo_addr_ok.
Defined.

(** Moving value conserves it: [SubBalance] followed by [AddBalance]
    keeps the total of any set of accounts that contains sender and
    receiver (which may be the same), no balance becomes negative, and a
    [SubBalance] that fails does so because the balance is too small and
    changes nothing. *)
Theorem transfer_conserves `{!Radix, !RadixLaws, !Lru Address (list Z), !Keccak, !readSnapshot}
    (t : Txn) (from to : Address) (v : Z) (l : list Address) :
  0 ≤ v → NoDup l → from ∈ l → to ∈ l →
  match SubBalance t from v with
  | (None, t1) =>
      v ≤ GetBalance t from ∧ total (AddBalance t1 to v) l = total t l ∧
      ∀ a, 0 ≤ GetBalance (AddBalance t1 to v) a
  | (Some e, t1) => e = ErrNotEnoughFunds ∧ t1 = t ∧ GetBalance t from < v
  end.
Proof.
  intros Hv Hnd Hfrom Hto. destruct (SubBalance t from v) as [[e|] t1] eqn:E.
  - unfold SubBalance in E. repeat case_match; try done.
    match goal with Hlt : (_ <? _) = true |- _ => apply Z.ltb_lt in Hlt end. by injection E as <- <-.
  - split_and!.
    + by apply (SubBalance_balance t from v t1 from Hv E).
    + rewrite (total_shift t1 _ to v) by (try done; intros; by apply AddBalance_balance).
      rewrite (total_shift t t1 from (- v)); [lia|done|done|].
      intros b. rewrite (proj2 (SubBalance_balance t from v t1 b Hv E)). case_decide; lia.
    + intros a. rewrite GetBalance_object. apply object_balance.
Qed.

Lemma transfer_conserves_witness :
  match SubBalance newTxn demo_addr 30 with
  | (None, t1) =>
      30 ≤ GetBalance newTxn demo_addr ∧
      total (AddBalance t1 demo_addr2 30) [demo_addr; demo_addr2] = total newTxn [demo_addr; demo_addr2] ∧
      ∀ a, 0 ≤ GetBalance (AddBalance t1 demo_addr2 30) a
  | (Some e, t1) => e = ErrNotEnoughFunds ∧ t1 = newTxn ∧ GetBalance newTxn demo_addr < 30
  end.
Proof.
  apply (transfer_conserves newTxn demo_addr demo_addr2 30 [demo_addr; demo_addr2]);
    [lia|apply (bool_decide_unpack _); vm_compute; exact I|set_solver|set_solver].
Defined.

(** [SetStorage] writes one slot: reading it back gives the value,
    every other slot of every account, the committed values and the nonce
    and balance of every account are as before, and the status is
    "unchanged" exactly when the slot already had the value. *)
Lemma storage_write `{!Radix, !RadixLaws, !Lru Address (list Z), !Keccak, !readSnapshot, !SnapshotLaws}
    (t : Txn) (a : Address) (k v : Hash) (cfg : ForksInTime) :
  addr_ok a → hash_ok v →
  let '(status, t') := txn_SetStorage t a k v cfg in
  GetState t' a k = v ∧
  (∀ b k', addr_ok b → (a, k) ≠ (b, k') → GetState t' b k' = GetState t b k') ∧
  (∀ b k', addr_ok b → GetCommittedState t' b k' = GetCommittedState t b k') ∧
  (∀ b, addr_ok b → GetNonce t' b = GetNonce t b ∧ GetBalance t' b = GetBalance t b) ∧
  (status = StorageUnchanged ↔ GetState t a k = v).
Proof.
  intros Ha Hv. pose proof (SetStorage_same t a k v cfg) as Hsame.
  pose proof (SetStorage_state t a k v cfg) as Hst. pose proof (SetStorage_committed t a k v cfg) as Hco.
  assert ((txn_SetStorage t a k v cfg).1 = StorageUnchanged ↔ GetState t a k = v) as Hun.
  { unfold txn_SetStorage. case_bool_decide; [done|]. repeat case_match; simpl; split; done. }
  assert (∀ b, addr_ok b → object (txn_SetStorage t a k v cfg).2 b = object t b ∨
    ∃ st, object (txn_SetStorage t a k v cfg).2 b = set_storage st (object t b)) as Hobj.
  { intros b Hb. destruct (decide (GetState t a k = v)) as [E|Hne].
    - left. unfold txn_SetStorage. by rewrite bool_decide_true.
    - unfold object at 1 3. rewrite (Hsame Hne b Hb). fold (object (SetState t a k v) b).
      unfold SetState. destruct (decide (a = b)) as [<-|Hab].
      + right. rewrite object_update_eq by apply (keeps_storage (λ o, tinsert (default tnew (oTxn o)) k _)).
        by eexists.
      + left. by rewrite object_update_ne. }
  destruct (txn_SetStorage t a k v cfg) as [status t']. simpl in *. split_and!; try done.
  - by rewrite Hst, decide_True.
  - intros b k' Hb Hne. by rewrite Hst, decide_False.
  - intros b Hb. rewrite !GetNonce_object, !GetBalance_object. by destruct (Hobj b Hb) as [->|[st ->]].
Qed.

(** Two values outlive the transaction they belong to. The refund counter
    underflows across two transactions of a block: [SetStorage] takes the
    value of the last block for the value at the start of the transaction,
    so a slot cleared by one transaction and set again by the next, after
    [CleanDeleteObjects] has dropped the counter, takes 15000 from zero. And
    the code cache, keyed by address, is not invalidated: after a contract
    whose code was read has destructed itself, an account created at its
    address by receiving value has the empty code hash but [GetCode] returns
    the old code. *)
Theorem values_outlive_transaction :
  (let t1 := (txn_SetStorage newTxn demo_addr demo_slot ZeroHash all_rules).2 in
   (t2 ← CleanDeleteObjects t1 true;
    Some (GetRefund t1, GetRefund t2,
      GetRefund (txn_SetStorage t2 demo_addr demo_slot (BytesToHash [2]) all_rules).2)) =
   Some (15000, 0, 2 ^ 64 - 15000)) ∧
  (let t1 := (txn_Suicide (GetCode newTxn demo_addr).2 demo_addr).2 in
   (t2 ← CleanDeleteObjects t1 true;
    let t3 := AddBalance t2 demo_addr 5 in
    Some (Exist t2 demo_addr, GetCodeHash t3 demo_addr, (GetCode t3 demo_addr).1)) =
   Some (false, BytesToHash emptyCodeHash, [0x60])).
Proof. split; vm_compute; reflexivity. Qed.

(** ** End of a transaction and of a block *)

Section finish.
Context `{!Radix, !RadixLaws, !Lru Address (list Z), !Keccak, !readSnapshot}.
Implicit Types t : Txn.

(** An object the end of a transaction removes. *)
Definition doomed (deleteEmpty : bool) (o : StateObject) : bool :=
  Suicide o || (Object_Empty o && deleteEmpty).

Lemma removable_spec d r k :
  k ∈ removable d r ↔ ∃ o, tget r k = Some (VObject o) ∧ doomed d o = true.
Proof.
  unfold removable. rewrite list_elem_of_omap. split.
  - intros ([k' v] & Hin & E). apply twalk_get in Hin. destruct v as [o| |]; try done.
    fold (doomed d o) in E. destruct (doomed d o) eqn:Ed; [|done]. injection E as ->. eauto.
  - intros (o & Hg & Hd). exists (k, VObject o). split; [by apply twalk_get|]. fold (doomed d o). by rewrite Hd.
Qed.

Lemma NoDup_omap_fst {A B} (f : A * B → option A) (l : list (A * B)) :
  (∀ p a, f p = Some a → a = p.1) → NoDup l.*1 → NoDup (omap f l).
Proof.
  intros Hf. induction l as [|p l IH]; simpl; intros Hnd; [constructor|].
  apply NoDup_cons in Hnd as [Hp Hnd]. destruct (f p) as [a|] eqn:E; [|by apply IH].
  apply NoDup_cons. split; [|by apply IH]. intros Hin. apply list_elem_of_omap in Hin as (q & Hq & Eq).
  apply Hp. rewrite <- (Hf _ _ E), (Hf _ _ Eq). by apply list_elem_of_fmap_2.
Qed.

Lemma removable_NoDup d r : NoDup (removable d r).
Proof.
  apply NoDup_omap_fst; [|apply twalk_nodup]. intros [k v] a. simpl. repeat case_match; congruence.
Qed.

Lemma markDeleted_fold ks r :
  NoDup ks → (∀ k, k ∈ ks → ∃ o, tget r k = Some (VObject o)) →
  ∃ r', foldl markDeleted (Some r) ks = Some r' ∧
    (∀ k, k ∉ ks → tget r' k = tget r k) ∧
    (∀ k o, k ∈ ks → tget r k = Some (VObject o) → tget r' k = Some (VObject (set_deleted (Object_Copy o)))).
Proof.
  intros Hnd. revert r. induction Hnd as [|k ks Hk Hnd IH]; intros r Hobj.
  - exists r. split_and!; [done|done|]. by intros k o ?%elem_of_nil.
  - destruct (Hobj k) as [o Ho]; [apply list_elem_of_here|]. simpl. rewrite Ho.
    destruct (IH (tinsert r k (VObject (set_deleted (Object_Copy o))))) as (r' & -> & Hout & Hin).
    { intros k' Hk'. rewrite tget_insert_ne by (intros ->; done). apply Hobj. by apply list_elem_of_further. }
    exists r'. split_and!; [done| |].
    + intros k' Hk'. rewrite elem_of_cons in Hk'. rewrite Hout, tget_insert_ne by (try tauto; intros ->; tauto). done.
    + intros k' o' Hk' Ho'. destruct (decide (k = k')) as [<-|Hne].
      * rewrite Hout, tget_insert_eq by done. congruence.
      * apply elem_of_cons in Hk' as [|Hk']; [congruence|]. apply Hin; [done|]. by rewrite tget_insert_ne.
Qed.

Lemma storageObjects_keys (st : tree (option (list Z))) k :
  k ∈ sKey <$> storageObjects st ↔ is_Some (tget st k).
Proof.
  unfold storageObjects. rewrite <- list_fmap_compose, list_elem_of_fmap. split.
  - intros ([k' v] & -> & Hin). apply twalk_get in Hin. simpl. destruct v; simpl; rewrite Hin; eauto.
  - intros [v Hv]. exists (k, v). split; [by destruct v|by apply twalk_get].
Qed.

Lemma CleanDeleteObjects_spec t d :
  ∃ t', CleanDeleteObjects t d = Some t' ∧ snapshots t' = snapshots t ∧ codeCache t' = codeCache t ∧
    tget (txn t') refundIndex = None ∧
    ∀ k, k ≠ refundIndex → tget (txn t') k =
      match tget (txn t) k with
      | Some (VObject o) => Some (VObject (if doomed d o then set_deleted (Object_Copy o) else o))
      | v => v
      end.
Proof.
  unfold CleanDeleteObjects.
  destruct (markDeleted_fold (removable d (txn t)) (txn t)) as (r' & -> & Hout & Hin).
  - apply removable_NoDup.
  - intros k Hk. apply removable_spec in Hk as (o & Ho & _). eauto.
  - eexists. split; [done|]. split_and!; [done|done|apply tget_delete_eq|].
    intros k Hk. simpl. rewrite tget_delete_ne by done.
    destruct (decide (k ∈ removable d (txn t))) as [Hr|Hr].
    + pose proof Hr as (o & Ho & Hd)%removable_spec. rewrite (Hin k o Hr Ho), Ho, Hd. done.
    + rewrite (Hout k Hr). destruct (tget (txn t) k) as [[o| |]|] eqn:E; [|done..].
      destruct (doomed d o) eqn:Hd; [|done]. exfalso. apply Hr, removable_spec. eauto.
Qed.
End finish.

(** The end of a transaction: [CleanDeleteObjects] does not panic; an
    account modified since the last block is gone afterwards if it has
    destructed itself or, with [deleteEmptyObjects], is empty; every other
    account and the logs are as before; the refund counter is zero. *)
Lemma clean_delete `{!Radix, !RadixLaws, !Lru Address (list Z), !Keccak, !readSnapshot}
    (t : Txn) (deleteEmpty : bool) :
  ∃ t', CleanDeleteObjects t deleteEmpty = Some t' ∧ GetRefund t' = 0 ∧ currentLogs t' = currentLogs t ∧
    ∀ a, addr_ok a → getStateObject t' a =
      match tget (txn t) a with
      | Some (VObject o) => if doomed deleteEmpty o then None else getStateObject t a
      | _ => getStateObject t a
      end.
Proof.
  destruct (CleanDeleteObjects_spec t deleteEmpty) as (t' & E & _ & _ & Href & Hget). exists t'.
  split_and!; [done| | |].
  - unfold GetRefund. by rewrite Href.
  - unfold currentLogs. rewrite Hget by apply index_ne. by destruct (tget (txn t) logIndex) as [[]|].
  - intros a Ha. unfold getStateObject. rewrite Hget by by apply not_eq_sym, addr_not_index.
    destruct (tget (txn t) a) as [[o| |]|]; [|done..]. by destruct (doomed deleteEmpty o).
Qed.

(** A commit lists every account modified since the last block exactly
    as the transient state shows it: an account that exists appears with its
    nonce, balance, storage root and code hash, not marked deleted, and its
    storage entries are exactly the slots written, with the value [GetState]
    returns; an account that was removed appears marked deleted, without
    storage. *)
Theorem commit_objects `{!Radix, !RadixLaws, !Lru Address (list Z), !Keccak, !readSnapshot}
    (t : Txn) (deleteEmpty : bool) :
  ∃ objs t', Commit t deleteEmpty = Some (objs, t') ∧
    (∀ ob, ob ∈ objs → ∃ a o, tget (txn t') a = Some (VObject o) ∧ ob = committed a o) ∧
    ∀ a o, addr_ok a → tget (txn t') a = Some (VObject o) →
      ∃ ob, ob ∈ objs ∧ cAddr ob = a ∧ cDeleted ob = oDeleted o ∧
        (cDeleted ob = true → getStateObject t' a = None ∧ cStorage ob = []) ∧
        (cDeleted ob = false → 0 ≤ Balance (oAccount o) →
           GetAccount t' a = Some (mkAccount (cNonce ob) (cBalance ob) (cRoot ob) (CodeHash (oAccount o))) ∧
           cCodeHash ob = GetCodeHash t' a ∧
           (∀ k, k ∈ sKey <$> cStorage ob ↔ is_Some (st ← oTxn o; tget st k)) ∧
           ∀ e, e ∈ cStorage ob → GetState t' a (sKey e) = if sDeleted e then ZeroHash else BytesToHash (sVal e)).
Proof.
  unfold Commit. destruct (CleanDeleteObjects_spec t deleteEmpty) as (t' & -> & _). eexists _, t'.
  split_and!; [done| |].
  { intros ob Hob. apply list_elem_of_omap in Hob as ([k v] & Hk & E). apply twalk_get in Hk.
    destruct v as [o| |]; [|done..]. injection E as <-. eauto. }
  intros a o Ha Ho. exists (committed a o). split_and!.
  - apply list_elem_of_omap. exists (a, VObject o). split; [by apply twalk_get|done].
  - by apply right_align_id, Ha.
  - done.
  - simpl. intros Hd. unfold getStateObject. by rewrite Ho, Hd.
  - simpl. intros Hd Hb. rewrite Hd.
    assert (getStateObject t' a = Some o) as Hg.
    { unfold getStateObject. by rewrite Ho, Hd, Object_Copy_id. }
    unfold GetAccount, GetCodeHash, GetState. rewrite Hg. split_and!; [simpl; by destruct (oAccount o)|done| |].
    { intros k. destruct (oTxn o) as [st|]; simpl; [|by split; [intros Hk; apply elem_of_nil in Hk|intros [? [=]]]].
      apply storageObjects_keys. }
    intros e He. destruct (oTxn o) as [st|]; [|by apply elem_of_nil in He].
    apply list_elem_of_fmap in He as ([k v] & -> & Hk). apply twalk_get in Hk.
    by destruct v as [val|]; simpl; rewrite Hk.
Qed.

Lemma snapshot_revert_witness :
  ∃ t3, RevertToSnapshot (AddBalance (Snapshot newTxn).2 demo_addr 5) 0 = Some t3 ∧
    (∀ a, getStateObject t3 a = getStateObject newTxn a) ∧ GetRefund t3 = 0.
Proof.
  destruct (snapshot_revert newTxn [OAddBalance demo_addr 5]
    (AddBalance (Snapshot newTxn).2 demo_addr 5) eq_refl) as (t3 & E & Ha & _ & _ & Hr).
  exists t3. split_and!; [exact E|exact Ha|exact Hr].
Defined.

Lemma clean_delete_witness :
  ∃ t', CleanDeleteObjects (txn_Suicide newTxn demo_addr).2 true = Some t' ∧ getStateObject t' demo_addr = None.
Proof.
  destruct (clean_delete (txn_Suicide newTxn demo_addr).2 true) as (t' & E & _ & _ & Ha).
  exists t'. split; [exact E|]. rewrite (Ha demo_addr demo_addr_ok). vm_compute. reflexivity.
Defined.

Lemma commit_objects_witness :
  ∃ objs t', Commit (AddBalance newTxn demo_addr 5) true = Some (objs, t') ∧
    ∀ ob, ob ∈ objs → ∃ a o, tget (txn t') a = Some (VObject o) ∧ ob = committed a o.
Proof.
  destruct (commit_objects (AddBalance newTxn demo_addr 5) true) as (objs & t' & E & Hob & _).
  exists objs, t'. split; [exact E|exact Hob].
Defined.
