(* ===== verification/TxnHeap.v ===== *)
(** * The transient state with its pointers (state/state.go, state/txn.go)

    Txn.v has the accounts of a transaction as values. In the code they are
    objects the radix trees point to: an update copies the object, changes
    the copy in place ([Balance.Add], [Txn.Insert], [Account.Nonce++]) and
    enters it in the current tree, while the snapshots still point to the
    original. Here a pointer is a position in a heap, [Copy] allocates, and
    the operations write through pointers, so that a missing or shallow copy
    is a different program. The logs are slices: [append] writes into the
    array behind a slice when it has room, and the snapshots share arrays.

    [pointers_refine]: whatever is run, the accounts, storage and refund the
    program shows are those of the values of Txn.v. [snapshot_restores]: a
    snapshot restores them, and the logs too when reverts nest. *)

From S2P Require Import Prelude BigInt Chain Types Runtime Rlp BlockTypes Radix EvmState Txn TxnProps.
From stdpp Require Import gmap.
#[local] Open Scope Z_scope.

(** ** The heap *)

(** [Account], with a pointer to the balance. *)
Record pAccount := mkPAccount {
  pNonce : Z;
  pBalance : nat;
  pRoot : Hash;
  pCodeHash : list Z;
}.

(** [StateObject], with pointers to the account and the storage
    transaction. *)
Record pObject := mkPObject {
  pAcc : nat;
  pCode : list Z;
  pSuicide : bool;
  pDeleted : bool;
  pDirtyCode : bool;
  pTxn : option nat;
}.

(** A slice of logs: the array behind it and the length; the capacity is the
    length of the array. *)
Record slice := mkSlice {
  sArray : nat;
  sLen : nat;
}.

(** The values of the radix transaction. *)
Inductive pvalue :=
  | PObject (p : nat)
  | PLogs (s : slice)
  | PRefund (gas : Z).

#[export] Instance pAccount_inhabited : Inhabited pAccount := populate (mkPAccount 0 0 [] []).
#[export] Instance pObject_inhabited : Inhabited pObject := populate (mkPObject 0 [] false false false None).

Record heap `{Radix} := mkHeap {
  hObjects : list pObject;
  hAccounts : list pAccount;
  hInts : list Z;                                  (** [big.Int] *)
  hTxns : list (tree (option (list Z)));           (** [iradix.Txn] of a storage *)
  hArrays : list (list (option Log));              (** arrays behind slices of logs *)
}.
Arguments mkHeap {_}.

Section heap.
Context `{!Radix}.

(** A computation with the heap. *)
Definition Mem (A : Type) : Type := heap → A * heap.

#[export] Instance mem_ret : MRet Mem := λ A a h, (a, h).
#[export] Instance mem_bind : MBind Mem := λ A B f m h, let '(a, h) := m h in f a h.

#[export] Instance tree_inhabited V : Inhabited (tree V) := populate tnew.

Definition get_object (p : nat) : Mem pObject := λ h, (hObjects h !!! p, h).
Definition get_account (p : nat) : Mem pAccount := λ h, (hAccounts h !!! p, h).
Definition get_int (p : nat) : Mem Z := λ h, (hInts h !!! p, h).
Definition get_txn (p : nat) : Mem (tree (option (list Z))) := λ h, (hTxns h !!! p, h).

Definition put_object (p : nat) (o : pObject) : Mem unit := λ h,
  (tt, mkHeap (<[p := o]> (hObjects h)) (hAccounts h) (hInts h) (hTxns h) (hArrays h)).
Definition put_account (p : nat) (a : pAccount) : Mem unit := λ h,
  (tt, mkHeap (hObjects h) (<[p := a]> (hAccounts h)) (hInts h) (hTxns h) (hArrays h)).
Definition put_int (p : nat) (z : Z) : Mem unit := λ h,
  (tt, mkHeap (hObjects h) (hAccounts h) (<[p := z]> (hInts h)) (hTxns h) (hArrays h)).
Definition put_txn (p : nat) (t : tree (option (list Z))) : Mem unit := λ h,
  (tt, mkHeap (hObjects h) (hAccounts h) (hInts h) (<[p := t]> (hTxns h)) (hArrays h)).

Definition new_object (o : pObject) : Mem nat := λ h,
  (length (hObjects h), mkHeap (hObjects h ++ [o]) (hAccounts h) (hInts h) (hTxns h) (hArrays h)).
Definition new_account (a : pAccount) : Mem nat := λ h,
  (length (hAccounts h), mkHeap (hObjects h) (hAccounts h ++ [a]) (hInts h) (hTxns h) (hArrays h)).
Definition new_int (z : Z) : Mem nat := λ h,
  (length (hInts h), mkHeap (hObjects h) (hAccounts h) (hInts h ++ [z]) (hTxns h) (hArrays h)).
Definition new_txn (t : tree (option (list Z))) : Mem nat := λ h,
  (length (hTxns h), mkHeap (hObjects h) (hAccounts h) (hInts h) (hTxns h ++ [t]) (hArrays h)).

Definition get_array (p : nat) : Mem (list (option Log)) := λ h, (hArrays h !!! p, h).
Definition put_array (p : nat) (l : list (option Log)) : Mem unit := λ h,
  (tt, mkHeap (hObjects h) (hAccounts h) (hInts h) (hTxns h) (<[p := l]> (hArrays h))).
Definition new_array (l : list (option Log)) : Mem nat := λ h,
  (length (hArrays h), mkHeap (hObjects h) (hAccounts h) (hInts h) (hTxns h) (hArrays h ++ [l])).

(** ** state.go *)

Context `{!Keccak}.

(** [a.Copy()] *)
Definition Account_Copy (p : nat) : Mem nat :=
  a ← get_account p;
  balance ← get_int (pBalance a);
  b ← new_int (SetBytes (Bytes balance));
  new_account (mkPAccount (pNonce a) b (pRoot a) (pCodeHash a)).

(** [s.Copy()]; [s.Txn.CommitOnly().Txn()] is a new transaction with the
    content of the old one. *)
Definition Object_Copy (p : nat) : Mem nat :=
  s ← get_object p;
  account ← Account_Copy (pAcc s);
  txn ← match pTxn s with
        | Some q => t ← get_txn q; r ← new_txn t; mret (Some r)
        | None => mret None
        end;
  new_object (mkPObject account (pCode s) (pSuicide s) (pDeleted s) (pDirtyCode s) txn).

(** [s.Empty()] *)
Definition Object_Empty (h : heap) (p : nat) : bool :=
  let account := hAccounts h !!! pAcc (hObjects h !!! p) in
  (pNonce account =? 0) && (Z.sgn (hInts h !!! pBalance account) =? 0) && bool_decide (pCodeHash account = emptyCodeHash).

(** [newStateObject(txn)], also written out in [upsertAccount] and [CreateAccount]. *)
Definition newStateObject : Mem nat :=
  b ← new_int 0;
  account ← new_account (mkPAccount 0 b emptyStateHash emptyCodeHash);
  new_object (mkPObject account [] false false false None).

(** An account of the snapshot, copied. *)
Definition Account_load (a : Account) : Mem nat :=
  b ← new_int (SetBytes (Bytes (Balance a)));
  new_account (mkPAccount (Nonce a) b (Root a) (CodeHash a)).

(** [object.Account.Balance] *)
Definition balance_of (p : nat) : Mem nat :=
  s ← get_object p; a ← get_account (pAcc s); mret (pBalance a).
End heap.

(** ** txn.go *)

Record pState `{Radix} `{Lru Address (list Z)} := mkPState {
  pHeap : heap;
  pSnapshots : list (tree pvalue);
  pTree : tree pvalue;
  pCache : cache Address (list Z);
}.
Arguments mkPState {_ _}.

Section txn.
Context `{!Radix, !Lru Address (list Z), !Keccak, !readSnapshot, !GoRuntime}.
Implicit Types s : pState.

Definition set_heap (h : heap) s : pState := mkPState h (pSnapshots s) (pTree s) (pCache s).
Definition set_tree (t : tree pvalue) s : pState := mkPState (pHeap s) (pSnapshots s) t (pCache s).

Definition newState : pState := mkPState (mkHeap [] [] [] [] []) [] tnew lru_new.

Definition Snapshot s : Z * pState :=
  (zlen (pSnapshots s), mkPState (pHeap s) (pSnapshots s ++ [pTree s]) (pTree s) (pCache s)).

Definition RevertToSnapshot s (id : Z) : option pState :=
  if (id <? 0) || (zlen (pSnapshots s) <? id) then None else
  match pSnapshots s !! Z.to_nat id with
  | Some r => Some (set_tree r s)
  | None => None
  end.

(** An address key never holds logs or the refund, whose keys are longer. *)
Definition getStateObject (t : tree pvalue) (addr : Address) : Mem (option nat) :=
  match tget t addr with
  | Some (PObject p) =>
      s ← get_object p;
      if pDeleted s then mret None else q ← Object_Copy p; mret (Some q)
  | _ =>
      match snap_GetAccount addr with
      | Some account =>
          a ← Account_load account;
          q ← new_object (mkPObject a [] false false false None); mret (Some q)
      | None => mret None
      end
  end.

(** A read: the object is a copy, which stays in the heap. *)
Definition read {A} (f : nat → Mem A) (absent : A) s (addr : Address) : A * pState :=
  let '(r, h) :=
    (object ← getStateObject (pTree s) addr;
     match object with Some p => f p | None => mret absent end) (pHeap s) in
  (r, set_heap h s).

(** [txn.upsertAccount(addr, create, f)]; the callback may report a value. *)
Definition upsertAccount {B} s (addr : Address) (create : bool) (f : option nat → Mem B) : B * pState :=
  let '(object, h) :=
    (object ← getStateObject (pTree s) addr;
     match object with
     | Some p => mret (Some p)
     | None => if create then p ← newStateObject; mret (Some p) else mret None
     end) (pHeap s) in
  let '(r, h) := f object h in
  let s := set_heap h s in
  match object with
  | Some p => (r, set_tree (tinsert (pTree s) addr (PObject p)) s)
  | None => (r, s)
  end.

(** With [create] the callback always has an object to work on. *)
Definition update s (addr : Address) (f : nat → Mem unit) : pState :=
  (upsertAccount s addr true (λ o, match o with Some p => f p | None => mret tt end)).2.

(** [object.Account.Balance.Add(object.Account.Balance, v)] *)
Definition add_in_place (v : Z) (object : nat) : Mem unit :=
  b ← balance_of object; z ← get_int b; put_int b (z + v).

(** [object.Account.Balance.SetBytes(v.Bytes())] *)
Definition set_in_place (v : Z) (object : nat) : Mem unit :=
  b ← balance_of object; put_int b (SetBytes (Bytes v)).

(** [*object = *newStateObject(txn)] copies the fields of a new object, whose
    account is then that of both. *)
Definition AddSealingReward s (addr : Address) (balance : Z) : pState :=
  update s addr (λ object,
    o ← get_object object;
    if pSuicide o then
      fresh ← newStateObject;
      o' ← get_object fresh;
      _ ← put_object object o';
      set_in_place balance object
    else add_in_place balance object).

Definition AddBalance s (addr : Address) (balance : Z) : pState := update s addr (add_in_place balance).

Definition GetBalance s (addr : Address) : Z * pState := read (λ p, b ← balance_of p; get_int b) 0 s addr.

Definition SubBalance s (addr : Address) (amount : Z) : option error * pState :=
  if Z.sgn amount =? 0 then (None, s) else
  let '(balance, s) := GetBalance s addr in
  if balance <? amount then (Some ErrNotEnoughFunds, s) else
  (None, update s addr (λ object, b ← balance_of object; z ← get_int b; put_int b (z - amount))).

Definition SetBalance s (addr : Address) (balance : Z) : pState := update s addr (set_in_place balance).

(** *** Logs *)

Definition slice_at (t : tree pvalue) : option slice :=
  match tget t logIndex with Some (PLogs sl) => Some sl | _ => None end.

(** [append(logs, log)]: in place when there is room. *)
Definition append_log (sl : slice) (log : Log) : Mem slice :=
  l ← get_array (sArray sl);
  if (sLen sl <? length l)%nat then
    _ ← put_array (sArray sl) (<[sLen sl := Some log]> l); mret (mkSlice (sArray sl) (S (sLen sl)))
  else
    let newCap := Z.to_nat (growslice (zlen l) (Z.of_nat (sLen sl) + 1)) in
    p ← new_array (take (sLen sl) l ++ Some log :: replicate (newCap - S (sLen sl)) None);
    mret (mkSlice p (S (sLen sl))).

(** [AddLog]; [EmitLog] does the same with a new log. *)
Definition AddLog s (log : Log) : pState :=
  let '(sl, h) :=
    (logs ← match slice_at (pTree s) with
            | Some sl => mret sl
            | None => p ← new_array []; mret (mkSlice p 0)
            end;
     append_log logs log) (pHeap s) in
  set_tree (tinsert (pTree s) logIndex (PLogs sl)) (set_heap h s).

Definition EmitLog s (addr : Address) (topics : list Hash) (data : list Z) : pState := AddLog s (mkLog addr topics data).

(** The logs of a slice. *)
Definition slice_logs (h : heap) (sl : option slice) : list Log :=
  match sl with Some sl => omap id (take (sLen sl) (hArrays h !!! sArray sl)) | None => [] end.

Definition currentLogs s : list Log := slice_logs (pHeap s) (slice_at (pTree s)).

Definition Logs s : list Log * pState :=
  match slice_at (pTree s) with
  | Some sl => (slice_logs (pHeap s) (Some sl), set_tree (tdelete (pTree s) logIndex) s)
  | None => ([], s)
  end.

(** *** Refund *)

Definition GetRefund s : Z := match tget (pTree s) refundIndex with Some (PRefund g) => g | _ => 0 end.
Definition AddRefund s (gas : Z) : pState := set_tree (tinsert (pTree s) refundIndex (PRefund (u64 (GetRefund s + gas)))) s.
Definition SubRefund s (gas : Z) : pState := set_tree (tinsert (pTree s) refundIndex (PRefund (u64 (GetRefund s - gas)))) s.

(** *** Storage *)

(** [object.Txn.Insert(key, ...)] writes into the transaction of the object. *)
Definition SetState s (addr : Address) (key value : Hash) : pState :=
  update s addr (λ object,
    o ← get_object object;
    q ← match pTxn o with
        | Some q => mret q
        | None =>
            q ← new_txn tnew;
            _ ← put_object object (mkPObject (pAcc o) (pCode o) (pSuicide o) (pDeleted o) (pDirtyCode o) (Some q));
            mret q
        end;
    t ← get_txn q;
    put_txn q (tinsert t key (if bool_decide (value = ZeroHash) then None else Some value))).

Definition GetState s (addr : Address) (key : Hash) : Hash * pState :=
  read (λ object,
    o ← get_object object;
    val ← match pTxn o with Some q => t ← get_txn q; mret (tget t key) | None => mret None end;
    a ← get_account (pAcc o);
    mret (match val with
          | Some None => ZeroHash
          | Some (Some val) => BytesToHash val
          | None => snap_GetStorage addr (pRoot a) key
          end)) ZeroHash s addr.

Definition GetCommittedState s (addr : Address) (key : Hash) : Hash * pState :=
  read (λ object, o ← get_object object; a ← get_account (pAcc o); mret (snap_GetStorage addr (pRoot a) key))
    ZeroHash s addr.

Definition SetStorage s (addr : Address) (key value : Hash) (config : ForksInTime) : StorageStatus * pState :=
  let '(oldValue, s) := GetState s addr key in
  if bool_decide (oldValue = value) then (StorageUnchanged, s) else
  let current := oldValue in
  let '(original, s) := GetCommittedState s addr key in
  let s := SetState s addr key value in
  if legacyGasMetering config then
    if bool_decide (oldValue = ZeroHash) then (StorageAdded, s)
    else if bool_decide (value = ZeroHash) then (StorageDeleted, AddRefund s 15000)
    else (StorageModified, s)
  else if bool_decide (original = current) then
    if bool_decide (original = ZeroHash) then (StorageAdded, s)
    else if bool_decide (value = ZeroHash) then (StorageDeleted, AddRefund s 15000)
    else (StorageModified, s)
  else
    let s :=
      if negb (bool_decide (original = ZeroHash)) then
        if bool_decide (current = ZeroHash) then SubRefund s 15000
        else if bool_decide (value = ZeroHash) then AddRefund s 15000
        else s
      else s in
    let s :=
      if bool_decide (original = value) then
        if bool_decide (original = ZeroHash) then
          if Istanbul config then AddRefund s 19200 else AddRefund s 19800
        else if Istanbul config then AddRefund s 4200 else AddRefund s 4800
      else s in
    (StorageModifiedAgain, s).

(** *** Nonce and code *)

(** An assignment to a field of [object.Account]. *)
Definition assign_account (f : pAccount → pAccount) (object : nat) : Mem unit :=
  o ← get_object object; a ← get_account (pAcc o); put_account (pAcc o) (f a).

Definition IncrNonce s (addr : Address) : pState :=
  update s addr (assign_account (λ a, mkPAccount (u64 (pNonce a + 1)) (pBalance a) (pRoot a) (pCodeHash a))).

Definition SetNonce s (addr : Address) (nonce : Z) : pState :=
  update s addr (assign_account (λ a, mkPAccount nonce (pBalance a) (pRoot a) (pCodeHash a))).

Definition SetCode s (addr : Address) (code : list Z) : pState :=
  update s addr (λ object,
    _ ← assign_account (λ a, mkPAccount (pNonce a) (pBalance a) (pRoot a) (keccak256 code)) object;
    o ← get_object object;
    put_object object (mkPObject (pAcc o) code (pSuicide o) (pDeleted o) true (pTxn o))).

Definition GetCode s (addr : Address) : list Z * pState :=
  let '(r, s) :=
    read (λ object,
      o ← get_object object; a ← get_account (pAcc o); mret (Some (pDirtyCode o, pCode o, pCodeHash a))) None s addr in
  match r with
  | None => ([], s)
  | Some (dirtyCode, code, codeHash) =>
      if dirtyCode then (code, s) else
      match lru_get (pCache s) addr with
      | (Some v, c) => (v, mkPState (pHeap s) (pSnapshots s) (pTree s) c)
      | (None, c) =>
          let code := snap_GetCode (BytesToHash codeHash) in
          (code, mkPState (pHeap s) (pSnapshots s) (pTree s) (lru_add c addr code))
      end
  end.

(** *** Existence *)

(** The callback of [txn.Suicide(addr)]. The balance is a new integer. *)
Definition suicide_callback (object : option nat) : Mem bool :=
  match object with
  | None => mret false
  | Some p =>
      o ← get_object p;
      _ ← (if pSuicide o then mret tt else
           put_object p (mkPObject (pAcc o) (pCode o) true (pDeleted o) (pDirtyCode o) (pTxn o)));
      b ← new_int 0;
      _ ← assign_account (λ a, mkPAccount (pNonce a) b (pRoot a) (pCodeHash a)) p;
      mret (negb (pSuicide o))
  end.

Definition txn_Suicide s (addr : Address) : bool * pState := upsertAccount s addr false suicide_callback.

Definition TouchAccount s (addr : Address) : pState := update s addr (λ _, mret tt).

Definition CreateAccount s (addr : Address) : pState :=
  let '(obj, h) :=
    (obj ← newStateObject;
     prev ← getStateObject (pTree s) addr;
     _ ← match prev with
         | Some p => b ← balance_of p; z ← get_int b; set_in_place z obj
         | None => mret tt
         end;
     mret obj) (pHeap s) in
  set_tree (tinsert (pTree s) addr (PObject obj)) (set_heap h s).

(** *** End of a transaction *)

(** The keys the walk of [CleanDeleteObjects] collects. *)
Definition removable (deleteEmptyObjects : bool) (h : heap) (r : tree pvalue) : list (list Z) :=
  omap (λ '(k, v),
    match v with
    | PObject p =>
        if pSuicide (hObjects h !!! p) || (Object_Empty h p && deleteEmptyObjects) then Some k else None
    | _ => None
    end) (twalk r).

(** Its loop; [None] is the panic of a key that is gone. *)
Fixpoint markDeleted (ks : list (list Z)) (r : tree pvalue) : Mem (option (tree pvalue)) :=
  match ks with
  | [] => mret (Some r)
  | k :: ks =>
      match tget r k with
      | Some (PObject obj) =>
          obj2 ← Object_Copy obj;
          o ← get_object obj2;
          _ ← put_object obj2 (mkPObject (pAcc o) (pCode o) (pSuicide o) true (pDirtyCode o) (pTxn o));
          markDeleted ks (tinsert r k (PObject obj2))
      | _ => mret None
      end
  end.

Definition CleanDeleteObjects s (deleteEmptyObjects : bool) : option pState :=
  match markDeleted (removable deleteEmptyObjects (pHeap s) (pTree s)) (pTree s) (pHeap s) with
  | (Some r, h) => Some (set_tree (tdelete r refundIndex) (set_heap h s))
  | (None, _) => None
  end.

(** ** Running operations *)

Definition run_op (o : txn_op) s : option pState :=
  match o with
  | OAddBalance a v => Some (AddBalance s a v)
  | OSubBalance a v => Some (SubBalance s a v).2
  | OSetBalance a v => Some (SetBalance s a v)
  | OAddSealingReward a v => Some (AddSealingReward s a v)
  | OIncrNonce a => Some (IncrNonce s a)
  | OSetNonce a n => Some (SetNonce s a n)
  | OSetCode a code => Some (SetCode s a code)
  | OGetCode a => Some (GetCode s a).2
  | OSetState a k v => Some (SetState s a k v)
  | OSetStorage a k v config => Some (SetStorage s a k v config).2
  | OEmitLog a topics data => Some (EmitLog s a topics data)
  | OLogs => Some (Logs s).2
  | OAddRefund g => Some (AddRefund s g)
  | OSubRefund g => Some (SubRefund s g)
  | OSuicide a => Some (txn_Suicide s a).2
  | OTouchAccount a => Some (TouchAccount s a)
  | OCreateAccount a => Some (CreateAccount s a)
  | OCleanDeleteObjects d => CleanDeleteObjects s d
  | OSnapshot => Some (Snapshot s).2
  | ORevertToSnapshot id => RevertToSnapshot s id
  end.

Definition run_ops (ops : list txn_op) s : option pState :=
  foldl (λ r o, match r with Some s => run_op o s | None => None end) (Some s) ops.
End txn.

(** ** Cells and ownership *)

Section cells.
Context `{!Radix, !RadixLaws, !Keccak}.
Implicit Types h : heap.

(** The value of the object at [p]: every pointer in it is valid. *)
Definition deref h (p : nat) : option StateObject :=
  o ← hObjects h !! p;
  a ← hAccounts h !! pAcc o;
  b ← hInts h !! pBalance a;
  t ← match pTxn o with Some q => Some <$> hTxns h !! q | None => Some None end;
  Some (mkObject (mkAccount (pNonce a) b (pRoot a) (pCodeHash a)) (pCode o) (pSuicide o) (pDeleted o) (pDirtyCode o) t).

(** [h'] has everything [h] has, unchanged; the arrays of logs apart. *)
Definition extends h h' : Prop :=
  hObjects h `prefix_of` hObjects h' ∧ hAccounts h `prefix_of` hAccounts h' ∧
  hInts h `prefix_of` hInts h' ∧ hTxns h `prefix_of` hTxns h'.

#[export] Instance extends_preorder : PreOrder extends.
Proof.
  split; [by intros h|]. intros h1 h2 h3 (?&?&?&?) (?&?&?&?). unfold extends. split_and!; by etrans.
Qed.

Lemma lookup_extends {A} (l l' : list A) i x : l `prefix_of` l' → l !! i = Some x → l' !! i = Some x.
Proof. intros. by eapply prefix_lookup_Some. Qed.

Lemma deref_extends h h' p o : extends h h' → deref h p = Some o → deref h' p = Some o.
Proof.
  intros (Ho & Ha & Hi & Ht). unfold deref. intros (o' & Eo & E)%bind_Some.
  apply bind_Some in E as (a & Ea & (b & Eb & (t & Et & E)%bind_Some)%bind_Some).
  rewrite (lookup_extends _ _ _ _ Ho Eo). simpl. rewrite (lookup_extends _ _ _ _ Ha Ea). simpl.
  rewrite (lookup_extends _ _ _ _ Hi Eb). simpl. destruct (pTxn o') as [q|]; [|by simplify_eq/=].
  apply fmap_Some in Et as (t' & Et & ->). by rewrite (lookup_extends _ _ _ _ Ht Et).
Qed.

(** The object at [p] has the value [v], and its cells, from the object to
    its balance and storage, are not in [h0]. *)
Record own h0 h (p : nat) (v : StateObject) : Prop := mkOwn {
  own_extends : extends h0 h;
  own_deref : deref h p = Some v;
  own_object : (length (hObjects h0) ≤ p)%nat;
  own_account : (length (hAccounts h0) ≤ pAcc (hObjects h !!! p))%nat;
  own_balance : (length (hInts h0) ≤ pBalance (hAccounts h !!! pAcc (hObjects h !!! p)))%nat;
  own_txn : ∀ q, pTxn (hObjects h !!! p) = Some q → (length (hTxns h0) ≤ q)%nat;
}.

Lemma prefix_insert {A} (l l' : list A) i x : l `prefix_of` l' → (length l ≤ i)%nat → l `prefix_of` <[i := x]> l'.
Proof. intros [k ->] Hi. rewrite insert_app_r_alt by done. by apply prefix_app_r. Qed.

(** The value read cell by cell. *)
Definition cells h (p : nat) (v : StateObject) : Prop :=
  let o := hObjects h !!! p in
  let a := hAccounts h !!! pAcc o in
  (p < length (hObjects h))%nat ∧ (pAcc o < length (hAccounts h))%nat ∧ (pBalance a < length (hInts h))%nat ∧
  oAccount v = mkAccount (pNonce a) (hInts h !!! pBalance a) (pRoot a) (pCodeHash a) ∧
  oCode v = pCode o ∧ Suicide v = pSuicide o ∧ oDeleted v = pDeleted o ∧ DirtyCode v = pDirtyCode o ∧
  match pTxn o with
  | Some q => (q < length (hTxns h))%nat ∧ oTxn v = Some (hTxns h !!! q)
  | None => oTxn v = None
  end.

Lemma lookup_total_Some {A} `{!Inhabited A} (l : list A) i : (i < length l)%nat → l !! i = Some (l !!! i).
Proof. intros [x Hx]%lookup_lt_is_Some. by rewrite (list_lookup_total_correct _ _ _ Hx). Qed.

Lemma deref_cells h p v : deref h p = Some v ↔ cells h p v.
Proof.
  unfold deref, cells. split.
  - intros (o & Eo & E)%bind_Some. apply bind_Some in E as (a & Ea & (b & Eb & (t & Et & E)%bind_Some)%bind_Some).
    rewrite (list_lookup_total_correct _ _ _ Eo), (list_lookup_total_correct _ _ _ Ea).
    rewrite (list_lookup_total_correct _ _ _ Eb). apply lookup_lt_Some in Eo, Ea, Eb.
    injection E as <-. split_and!; try done. destruct (pTxn o) as [q|]; [|by injection Et as <-].
    apply fmap_Some in Et as (t' & Et & ->). rewrite (list_lookup_total_correct _ _ _ Et).
    by apply lookup_lt_Some in Et.
  - intros (Ho & Ha & Hb & Ev & ? & ? & ? & ? & Ht). rewrite (lookup_total_Some _ _ Ho). simpl.
    rewrite (lookup_total_Some _ _ Ha). simpl. rewrite (lookup_total_Some _ _ Hb). simpl.
    destruct v; simpl in *; subst.
    destruct (pTxn (hObjects h !!! p)) as [q|]; [destruct Ht as [Hq ->]; by rewrite (lookup_total_Some _ _ Hq)|].
    by rewrite Ht.
Qed.

Lemma own_cells h0 h p v :
  own h0 h p v ↔ extends h0 h ∧ cells h p v ∧ (length (hObjects h0) ≤ p)%nat ∧
    (length (hAccounts h0) ≤ pAcc (hObjects h !!! p))%nat ∧
    (length (hInts h0) ≤ pBalance (hAccounts h !!! pAcc (hObjects h !!! p)))%nat ∧
    (∀ q, pTxn (hObjects h !!! p) = Some q → (length (hTxns h0) ≤ q)%nat).
Proof.
  rewrite <- deref_cells. split; [by intros []|]. intros (?&?&?&?&?&?). by split.
Qed.

Lemma total_app_new {A} `{!Inhabited A} (l : list A) x : (l ++ [x]) !!! length l = x.
Proof. by rewrite lookup_total_app_r, Nat.sub_diag by lia. Qed.
End cells.

(** Evaluates reads of the cells just written or allocated. *)
Ltac cells_simpl :=
  repeat first
    [ progress (cbn [hObjects hAccounts hInts hTxns hArrays pAcc pCode pSuicide pDeleted pDirtyCode pTxn
                     pNonce pBalance pRoot pCodeHash fst snd oAccount oCode Suicide oDeleted DirtyCode oTxn
                     Nonce Balance Root CodeHash] in *)
    | rewrite total_app_new in *
    | rewrite length_insert in *
    | rewrite length_app in *
    | rewrite list_lookup_total_insert_eq in * by (rewrite ?length_app; cbn [length]; lia)
    | rewrite lookup_total_app_l in * by lia ].

Ltac mem_unfold :=
  unfold get_object, get_account, get_int, get_txn, put_object, put_account, put_int, put_txn,
    new_object, new_account, new_int, new_txn, mbind, mem_bind, mret, mem_ret.

(** A callback is run on the cells of its object. *)
Ltac own_intro :=
  let h0 := fresh "h0" in let h := fresh "h" in let p := fresh "p" in let v := fresh "v" in
  intros h0 h p v; rewrite !own_cells; unfold cells, extends; cbv zeta; intros; destruct_and!.

Ltac own_solve :=
  mem_unfold; unfold set_balance, set_account, set_code, set_suicide, set_storage; cells_simpl;
  repeat match goal with E : oAccount _ = _ |- _ => rewrite E; clear E end; cells_simpl;
  split_and!; eauto using prefix_insert, prefix_app_r, prefix_length; try (cbn [length]; lia).

Section callbacks.
Context `{!Radix, !RadixLaws, !Keccak}.
Implicit Types h : heap.

(** A callback that changes the object it is given, if its cells are new,
    from [v] to [F v], reports [r v] and keeps the arrays of logs. *)
Definition modifies {B} (f : nat → Mem B) (F : StateObject → StateObject) (r : StateObject → B) : Prop :=
  ∀ h0 h p v, own h0 h p v →
    own h0 (f p h).2 p (F v) ∧ (f p h).1 = r v ∧ hArrays (f p h).2 = hArrays h.

Lemma add_modifies z : modifies (add_in_place z) (λ o, set_balance (Balance (oAccount o) + z) o) (λ _, tt).
Proof. own_intro. unfold add_in_place, balance_of. own_solve. Qed.

Lemma sub_modifies z :
  modifies (λ p, b ← balance_of p; x ← get_int b; put_int b (x - z)) (λ o, set_balance (Balance (oAccount o) - z) o)
    (λ _, tt).
Proof. own_intro. unfold balance_of. own_solve. Qed.

Lemma set_modifies z : modifies (set_in_place z) (set_balance (SetBytes (Bytes z))) (λ _, tt).
Proof. own_intro. unfold set_in_place, balance_of. own_solve. Qed.

Lemma assign_modifies f F :
  (∀ a, pBalance (f a) = pBalance a) →
  (∀ a z, mkAccount (pNonce (f a)) z (pRoot (f a)) (pCodeHash (f a)) =
          F (mkAccount (pNonce a) z (pRoot a) (pCodeHash a))) →
  modifies (assign_account f) (λ o, set_account (F (oAccount o)) o) (λ _, tt).
Proof.
  intros Hb HF. own_intro. unfold assign_account. own_solve; by rewrite ?Hb, ?HF.
Qed.

Lemma touch_modifies : modifies (λ _, mret tt) id (λ _, tt).
Proof. intros h0 h p v Hown. done. Qed.

Lemma code_modifies hash code :
  modifies (λ object,
    _ ← assign_account (λ a, mkPAccount (pNonce a) (pBalance a) (pRoot a) hash) object;
    o ← get_object object;
    put_object object (mkPObject (pAcc o) code (pSuicide o) (pDeleted o) true (pTxn o))) (set_code hash code) (λ _, tt).
Proof. own_intro. unfold assign_account. own_solve. Qed.

Lemma suicide_modifies :
  modifies (λ p, suicide_callback (Some p)) (λ o, set_balance 0 (if Suicide o then o else set_suicide o))
    (λ o, negb (Suicide o)).
Proof.
  own_intro. unfold suicide_callback, assign_account. mem_unfold.
  destruct (pSuicide (hObjects h !!! p)) eqn:Es; cells_simpl;
    match goal with E : Suicide v = _ |- _ => rewrite E end; rewrite ?Es; own_solve.
Qed.

Lemma deleted_modifies :
  modifies (λ p,
    o ← get_object p;
    put_object p (mkPObject (pAcc o) (pCode o) (pSuicide o) true (pDirtyCode o) (pTxn o))) set_deleted (λ _, tt).
Proof. own_intro. unfold set_deleted. own_solve. Qed.

Lemma storage_modifies key x :
  modifies (λ object,
    o ← get_object object;
    q ← match pTxn o with
        | Some q => mret q
        | None =>
            q ← new_txn tnew;
            _ ← put_object object (mkPObject (pAcc o) (pCode o) (pSuicide o) (pDeleted o) (pDirtyCode o) (Some q));
            mret q
        end;
    t ← get_txn q;
    put_txn q (tinsert t key x)) (λ o, set_storage (tinsert (default tnew (oTxn o)) key x) o) (λ _, tt).
Proof.
  own_intro. mem_unfold. destruct (pTxn (hObjects h !!! p)) as [q|] eqn:Eq; destruct_and?; own_solve; rewrite ?Eq; cells_simpl.
  - split; [done|]. by match goal with E : oTxn v = _ |- _ => rewrite E end.
  - naive_solver.
  - by match goal with E : oTxn v = _ |- _ => rewrite E end.
  - intros q [= <-]. eauto using prefix_length.
Qed.

(** ** Allocation *)

(** A computation that returns a new object with value [v], all of whose
    cells are new. *)
Definition allocates (m : Mem nat) h (v : StateObject) : Prop :=
  own h (m h).2 (m h).1 v ∧ hArrays (m h).2 = hArrays h.

Lemma own_weaken h0 h h' p v : extends h0 h → own h h' p v → own h0 h' p v.
Proof.
  intros He [Hx Hd Ho Ha Hb Ht]. pose proof He as (?%prefix_length & ?%prefix_length & ?%prefix_length & ?%prefix_length).
  split; [by etrans|done|lia|lia|lia|]. intros q Hq. specialize (Ht q Hq). lia.
Qed.

Lemma newStateObject_allocates h : allocates newStateObject h Txn.newStateObject.
Proof.
  unfold allocates, newStateObject. rewrite own_cells. unfold cells, extends. own_solve. by intros q [=].
Qed.

Lemma load_allocates h a :
  allocates (l ← Account_load a; new_object (mkPObject l [] false false false None)) h
    (mkObject (Txn.Account_Copy a) [] false false false None).
Proof.
  unfold allocates, Account_load. rewrite own_cells. unfold cells, extends. own_solve. by intros q [=].
Qed.

Lemma Object_Copy_allocates h p v : deref h p = Some v → allocates (Object_Copy p) h (Txn.Object_Copy v).
Proof.
  rewrite deref_cells. unfold allocates. rewrite own_cells. unfold cells, extends. intros. destruct_and!.
  unfold Object_Copy, Account_Copy, Txn.Object_Copy, Txn.Account_Copy. mem_unfold.
  destruct (pTxn (hObjects h !!! p)) as [q|] eqn:Eq; destruct_and?; own_solve.
  - intros q' [= <-]. lia.
  - by intros q' [=].
Qed.

(** [*object = *newStateObject(txn)] *)
Lemma renew_modifies :
  modifies (λ object, fresh ← newStateObject; o ← get_object fresh; put_object object o)
    (λ _, Txn.newStateObject) (λ _, tt).
Proof. own_intro. unfold newStateObject. own_solve. by intros q [=]. Qed.

Lemma reward_modifies z :
  modifies (λ object,
    o ← get_object object;
    if pSuicide o then
      fresh ← newStateObject; o' ← get_object fresh; _ ← put_object object o'; set_in_place z object
    else add_in_place z object)
    (λ o, if Suicide o then set_balance (SetBytes (Bytes z)) Txn.newStateObject
          else set_balance (Balance (oAccount o) + z) o) (λ _, tt).
Proof.
  intros h0 h p v Hown. pose proof (own_deref _ _ _ _ Hown) as (_ & _ & _ & _ & _ & Es & _)%deref_cells.
  unfold mbind, mem_bind, get_object. rewrite Es. destruct (pSuicide (hObjects h !!! p)).
  - destruct (renew_modifies h0 h p v Hown) as (Hown1 & _ & Ha).
    destruct (set_modifies z h0 _ p _ Hown1) as (Hown2 & Hr & Ha2).
    split_and!; [exact Hown2|exact Hr|exact (eq_trans Ha2 Ha)].
  - by apply add_modifies.
Qed.
End callbacks.

(** ** Simulation *)

Section simulation.
Context `{!Radix, !RadixLaws, !Lru Address (list Z), !Keccak, !readSnapshot, !GoRuntime}.
Implicit Types (h : heap) (s : pState) (t : Txn.Txn).

(** What the entries of the two trees have to do with each other; the logs
    are compared further down. *)
Definition rel_value h (v : pvalue) (w : rvalue) : Prop :=
  match v, w with
  | PObject p, VObject o => deref h p = Some o
  | PLogs _, VLogs _ => True
  | PRefund g, VRefund g' => g = g'
  | _, _ => False
  end.

Definition rel_tree h (r : tree pvalue) (r' : tree rvalue) : Prop :=
  ∀ k, option_Forall2 (rel_value h) (tget r k) (tget r' k).

Record sim s t : Prop := mkSim {
  sim_tree : rel_tree (pHeap s) (pTree s) (txn t);
  sim_snapshots : Forall2 (rel_tree (pHeap s)) (pSnapshots s) (snapshots t);
  sim_cache : pCache s = codeCache t;
}.

Lemma rel_tree_extends h h' r r' : extends h h' → rel_tree h r r' → rel_tree h' r r'.
Proof.
  intros He Hr k. destruct (Hr k) as [v w Hv|]; constructor.
  destruct v, w; simpl in *; try done. by eapply deref_extends.
Qed.

Lemma rel_tree_insert h r r' k v w : rel_value h v w → rel_tree h r r' → rel_tree h (tinsert r k v) (tinsert r' k w).
Proof.
  intros Hv Hr k'. destruct (decide (k = k')) as [<-|]; [rewrite !tget_insert_eq; by constructor|].
  by rewrite !tget_insert_ne.
Qed.

Lemma rel_tree_delete h r r' k : rel_tree h r r' → rel_tree h (tdelete r k) (tdelete r' k).
Proof.
  intros Hr k'. destruct (decide (k = k')) as [<-|]; [rewrite !tget_delete_eq; constructor|].
  by rewrite !tget_delete_ne.
Qed.

(** The entry under [logIndex] was there before. *)
Definition keeps_entry {V} (r r' : tree V) (logs : V → Prop) : Prop :=
  ∀ v, logs v → tget r' logIndex = Some v → tget r logIndex = Some v.

Definition is_slice (v : pvalue) : Prop := match v with PLogs _ => True | _ => False end.
Definition is_logs (v : rvalue) : Prop := match v with VLogs _ => True | _ => False end.

Lemma keeps_insert {V} (r : tree V) logs k v : ¬ logs v → keeps_entry r (tinsert r k v) logs.
Proof.
  intros Hv w Hw. destruct (decide (k = logIndex)) as [->|]; [rewrite tget_insert_eq; congruence|].
  by rewrite tget_insert_ne.
Qed.

Lemma keeps_delete {V} (r : tree V) logs k : keeps_entry r (tdelete r k) logs.
Proof.
  intros w _. destruct (decide (k = logIndex)) as [->|]; [by rewrite tget_delete_eq|]. by rewrite tget_delete_ne.
Qed.

(** A pair of steps from [s] and [t] that keeps the simulation and does not
    touch logs or snapshots. *)
Record quiet s t s' t' : Prop := mkQuiet {
  quiet_sim : sim s' t';
  quiet_extends : extends (pHeap s) (pHeap s');
  quiet_arrays : hArrays (pHeap s') = hArrays (pHeap s);
  quiet_snaps : pSnapshots s' = pSnapshots s;
  quiet_snaps' : snapshots t' = snapshots t;
  quiet_slices : keeps_entry (pTree s) (pTree s') is_slice;
  quiet_logs : keeps_entry (txn t) (txn t') is_logs;
}.

Lemma quiet_refl s t : sim s t → quiet s t s t.
Proof. intros Hs. split; try done; by intros v Hv. Qed.

Lemma quiet_trans s1 t1 s2 t2 s3 t3 : quiet s1 t1 s2 t2 → quiet s2 t2 s3 t3 → quiet s1 t1 s3 t3.
Proof.
  intros [] []. split; try congruence; [by etrans|..].
  all: intros v Hv E; eauto.
Qed.

(** A step that allocates and does nothing else. *)
Lemma quiet_heap s t h : sim s t → extends (pHeap s) h → hArrays h = hArrays (pHeap s) → quiet s t (set_heap h s) t.
Proof.
  intros [Ht Hs Hc] He Ha. split; [split|..]; simpl; try done; [by eapply rel_tree_extends| |by intros ?..].
  eapply Forall2_impl; [done|]. intros r r'. by apply rel_tree_extends.
Qed.

(** A step that enters an object, or a refund, in both trees. *)
Lemma quiet_insert s t k v w :
  sim s t → rel_value (pHeap s) v w → ¬ is_slice v → ¬ is_logs w →
  quiet s t (set_tree (tinsert (pTree s) k v) s) (Txn.set_txn (tinsert (txn t) k w) t).
Proof.
  intros [Ht Hs Hc] Hv Hnv Hnw. split; [split|..]; simpl; try done; try by apply keeps_insert. by apply rel_tree_insert.
Qed.

(** ** Reading *)

Lemma getStateObject_spec s t addr :
  sim s t →
  match Txn.getStateObject t addr with
  | Some v => ∃ q h, getStateObject (pTree s) addr (pHeap s) = (Some q, h) ∧
                     own (pHeap s) h q v ∧ hArrays h = hArrays (pHeap s)
  | None => getStateObject (pTree s) addr (pHeap s) = (None, pHeap s)
  end.
Proof.
  intros [Ht _ _]. specialize (Ht addr). unfold getStateObject, Txn.getStateObject.
  assert (∀ a, ∃ q h, (l ← Account_load a; q ← new_object (mkPObject l [] false false false None); mret (Some q)) (pHeap s) =
      (Some q, h) ∧ own (pHeap s) h q (mkObject (Txn.Account_Copy a) [] false false false None) ∧
      hArrays h = hArrays (pHeap s)) as Hload.
  { intros a. destruct (load_allocates (pHeap s) a) as [Hown Ha]. eexists _, _. split; [reflexivity|]. done. }
  inversion Ht as [v w Hv Ev Ew|Ev Ew]; [destruct v as [p| |], w as [o| |]; try done|].
  - simpl in Hv. pose proof Hv as (_ & _ & _ & _ & _ & _ & Ed & _)%deref_cells.
    unfold mbind, mem_bind, get_object. rewrite Ed. destruct (pDeleted (hObjects (pHeap s) !!! p)); [done|].
    destruct (Object_Copy_allocates _ _ _ Hv) as [Hown Ha].
    destruct (Object_Copy p (pHeap s)) as [q h] eqn:E. by exists q, h.
  - destruct (snap_GetAccount addr) as [a|]; [apply Hload|done].
  - destruct (snap_GetAccount addr) as [a|]; [apply Hload|done].
  - destruct (snap_GetAccount addr) as [a|]; [apply Hload|done].
Qed.

(** A function that reads an object and changes nothing. *)
Definition reads {A} (f : nat → Mem A) (F : StateObject → A) : Prop :=
  ∀ h p v, deref h p = Some v → f p h = (F v, h).

Lemma read_quiet {A} (f : nat → Mem A) F absent s t addr :
  reads f F → sim s t →
  (read f absent s addr).1 = match Txn.getStateObject t addr with Some v => F v | None => absent end ∧
  quiet s t (read f absent s addr).2 t.
Proof.
  intros Hf Hs. pose proof (getStateObject_spec s t addr Hs) as Hg. unfold read, mbind, mem_bind.
  destruct (Txn.getStateObject t addr) as [v|].
  - destruct Hg as (q & h & -> & Hown & Ha). rewrite (Hf h q v) by apply Hown. simpl.
    split; [done|]. apply quiet_heap; [done|apply Hown|done].
  - rewrite Hg. split; [done|]. by apply quiet_heap.
Qed.

Lemma balance_reads : reads (λ p, b ← balance_of p; get_int b) (λ o, Balance (oAccount o)).
Proof. intros h p v (_ & _ & _ & E & _)%deref_cells. by rewrite E. Qed.

Lemma GetBalance_quiet s t addr :
  sim s t → (GetBalance s addr).1 = Txn.GetBalance t addr ∧ quiet s t (GetBalance s addr).2 t.
Proof. intros. by apply (read_quiet _ _ 0 s t addr balance_reads). Qed.

Lemma GetState_quiet s t addr key :
  sim s t → (GetState s addr key).1 = Txn.GetState t addr key ∧ quiet s t (GetState s addr key).2 t.
Proof.
  intros. unfold GetState, Txn.GetState. apply (read_quiet _ (λ o,
    match (match oTxn o with Some st => tget st key | None => None end) with
    | Some None => ZeroHash
    | Some (Some val) => BytesToHash val
    | None => snap_GetStorage addr (Root (oAccount o)) key
    end)); [|done].
  intros h p v (_ & _ & _ & E & _ & _ & _ & _ & Et)%deref_cells. rewrite E. mem_unfold.
  destruct (pTxn (hObjects h !!! p)); [destruct Et as [_ Et]|]; by rewrite Et.
Qed.

Lemma GetCommittedState_quiet s t addr key :
  sim s t →
  (GetCommittedState s addr key).1 = Txn.GetCommittedState t addr key ∧ quiet s t (GetCommittedState s addr key).2 t.
Proof.
  intros. unfold GetCommittedState, Txn.GetCommittedState.
  apply (read_quiet _ (λ o, snap_GetStorage addr (Root (oAccount o)) key)); [|done].
  intros h p v (_ & _ & _ & E & _)%deref_cells. by rewrite E.
Qed.

(** ** Writing *)

(** An update runs its callback on new cells, so that the value it leaves is
    the value of the callback and no other object changes. *)
Lemma upsertAccount_quiet {B} s t addr (create : bool) (f : option nat → Mem B) F r absent :
  modifies (λ p, f (Some p)) F r → (∀ h, f None h = (absent, h)) → sim s t →
  let object :=
    match Txn.getStateObject t addr with
    | Some o => Some o
    | None => if create then Some Txn.newStateObject else None
    end in
  (upsertAccount s addr create f).1 = match object with Some o => r o | None => absent end ∧
  quiet s t (upsertAccount s addr create f).2 (Txn.upsertAccount t addr create (fmap F)).
Proof.
  intros Hf Hn Hs object. pose proof (getStateObject_spec s t addr Hs) as Hg.
  assert (∀ q h v, own (pHeap s) h q v → hArrays h = hArrays (pHeap s) →
    let '(x, h') := f (Some q) h in
    x = r v ∧ quiet s t (set_tree (tinsert (pTree s) addr (PObject q)) (set_heap h' s))
                        (Txn.set_txn (tinsert (txn t) addr (VObject (F v))) t)) as Hstep.
  { intros q h v Hown Ha. destruct (Hf _ _ _ _ Hown) as (Hown' & Hr & Ha').
    destruct (f (Some q) h) as [x h']. simpl in *. split; [done|].
    assert (quiet s t (set_heap h' s) t) as Hq by (apply quiet_heap; [done|apply Hown'|congruence]).
    eapply quiet_trans; [apply Hq|].
    apply (quiet_insert (set_heap h' s) t addr (PObject q) (VObject (F v))); [apply Hq|apply Hown'|simpl; tauto..]. }
  unfold upsertAccount, Txn.upsertAccount, mbind, mem_bind. subst object.
  destruct (Txn.getStateObject t addr) as [v|]; [destruct Hg as (q & h & -> & Hown & Ha)|rewrite Hg; destruct create].
  - specialize (Hstep q h v Hown Ha). unfold mret, mem_ret. by destruct (f (Some q) h).
  - destruct (newStateObject_allocates (pHeap s)) as [Hown Ha]. specialize (Hstep _ _ _ Hown Ha).
    destruct (newStateObject (pHeap s)) as [q h]. unfold mret, mem_ret. simpl in *. by destruct (f (Some q) h).
  - unfold mret, mem_ret. rewrite Hn. split; [done|]. by apply quiet_heap.
Qed.

Lemma update_quiet s t addr f F : modifies f F (λ _, tt) → sim s t → quiet s t (update s addr f) (Txn.update t addr F).
Proof.
  intros Hf Hs. unfold update, Txn.update.
  by apply (upsertAccount_quiet s t addr true (λ o : option nat, match o with Some p => f p | None => mret tt end) F (λ _, tt) tt).
Qed.

Lemma AddRefund_quiet s t g : sim s t → quiet s t (AddRefund s g) (Txn.AddRefund t g) ∧ GetRefund s = Txn.GetRefund t.
Proof.
  intros Hs. assert (GetRefund s = Txn.GetRefund t) as E.
  { unfold GetRefund, Txn.GetRefund. destruct (sim_tree _ _ Hs refundIndex) as [v w Hv|]; [|done]. by destruct v, w. }
  split; [|done]. unfold AddRefund, Txn.AddRefund. rewrite E. apply quiet_insert; simpl; tauto.
Qed.

Lemma SubRefund_quiet s t g : sim s t → quiet s t (SubRefund s g) (Txn.SubRefund t g).
Proof.
  intros Hs. unfold SubRefund, Txn.SubRefund. rewrite (proj2 (AddRefund_quiet s t g Hs)).
  apply quiet_insert; simpl; tauto.
Qed.

Lemma SubBalance_quiet s t a v :
  sim s t → (SubBalance s a v).1 = (Txn.SubBalance t a v).1 ∧ quiet s t (SubBalance s a v).2 (Txn.SubBalance t a v).2.
Proof.
  intros Hs. unfold SubBalance, Txn.SubBalance. case_match; [split; [done|by apply quiet_refl]|].
  destruct (GetBalance_quiet s t a Hs) as [E Hq]. destruct (GetBalance s a) as [b s1]. simpl in *. subst b.
  case_match; [done|]. split; [done|]. eapply quiet_trans; [done|]. apply update_quiet; [apply sub_modifies|apply Hq].
Qed.

Lemma SetState_quiet s t a k v : sim s t → quiet s t (SetState s a k v) (Txn.SetState t a k v).
Proof. apply update_quiet, storage_modifies. Qed.

Lemma SetStorage_quiet s t a k v cfg :
  sim s t →
  (SetStorage s a k v cfg).1 = (txn_SetStorage t a k v cfg).1 ∧
  quiet s t (SetStorage s a k v cfg).2 (txn_SetStorage t a k v cfg).2.
Proof.
  intros Hs. unfold SetStorage, txn_SetStorage.
  destruct (GetState_quiet s t a k Hs) as [<- Hq1]. destruct (GetState s a k) as [old s1]. simpl in *.
  case_match; [done|]. destruct (GetCommittedState_quiet s1 t a k (quiet_sim _ _ _ _ Hq1)) as [<- Hq2].
  destruct (GetCommittedState s1 a k) as [orig s2]. simpl in *.
  pose proof (SetState_quiet s2 t a k v (quiet_sim _ _ _ _ Hq2)) as Hq3.
  assert (quiet s t (SetState s2 a k v) (Txn.SetState t a k v)) as Hq by eauto using quiet_trans.
  assert (∀ s' t' g, quiet s t s' t' → quiet s t (AddRefund s' g) (Txn.AddRefund t' g)) as Hadd.
  { intros s' t' g Hq'. eapply quiet_trans; [done|]. apply AddRefund_quiet, Hq'. }
  assert (∀ s' t' g, quiet s t s' t' → quiet s t (SubRefund s' g) (Txn.SubRefund t' g)) as Hsub.
  { intros s' t' g Hq'. eapply quiet_trans; [done|]. apply SubRefund_quiet, Hq'. }
  repeat case_match; split; simpl; auto.
Qed.

Lemma quiet_cache s t s' t' c :
  quiet s t s' t' →
  quiet s t (mkPState (pHeap s') (pSnapshots s') (pTree s') c) (mkTxn (snapshots t') (txn t') c).
Proof. intros [[] ]. by split. Qed.

Lemma GetCode_quiet s t a : sim s t → (GetCode s a).1 = (Txn.GetCode t a).1 ∧ quiet s t (GetCode s a).2 (Txn.GetCode t a).2.
Proof.
  intros Hs. unfold GetCode, Txn.GetCode.
  destruct (read_quiet (λ object,
      o ← get_object object; a ← get_account (pAcc o); mret (Some (pDirtyCode o, pCode o, pCodeHash a)))
    (λ o, Some (DirtyCode o, oCode o, CodeHash (oAccount o))) None s t a) as [E Hq]; [|done|].
  { intros h p v (_ & _ & _ & E & Ec & _ & _ & Ed & _)%deref_cells. by rewrite E, Ec, Ed. }
  destruct (read _ None s a) as [r s1]. simpl in E, Hq. subst r.
  destruct (Txn.getStateObject t a) as [o|]; [|done]. destruct (DirtyCode o); [done|].
  rewrite (sim_cache _ _ (quiet_sim _ _ _ _ Hq)).
  destruct (lru_get (codeCache t) a) as [[v|] c]; (split; [done|]); by apply quiet_cache.
Qed.

Lemma Suicide_quiet s t a :
  sim s t → (txn_Suicide s a).1 = (Txn.txn_Suicide t a).1 ∧ quiet s t (txn_Suicide s a).2 (Txn.txn_Suicide t a).2.
Proof.
  intros Hs. destruct (upsertAccount_quiet s t a false suicide_callback _ _ false suicide_modifies (λ _, eq_refl) Hs) as [E Hq].
  unfold txn_Suicide, Txn.txn_Suicide. rewrite E. simpl. split; [by destruct (Txn.getStateObject t a)|].
  assert (∀ t, Txn.upsertAccount t a false (λ o, (Txn.suicide_callback o).2) =
    Txn.upsertAccount t a false (fmap (λ o, set_balance 0 (if Suicide o then o else set_suicide o)))) as ->; [|done].
  intros t'. unfold Txn.upsertAccount. by destruct (Txn.getStateObject t' a).
Qed.

(** A new object is not affected by further allocation. *)
Lemma own_later h0 h h' p v : own h0 h p v → extends h h' → own h0 h' p v.
Proof.
  intros [He Hd Ho Ha Hb Ht] He'. pose proof Hd as (Ho' & Ha' & _)%deref_cells.
  assert (hObjects h' !!! p = hObjects h !!! p) as Eo.
  { apply list_lookup_total_correct. eapply prefix_lookup_Some, He'. by apply lookup_total_Some. }
  assert (hAccounts h' !!! pAcc (hObjects h !!! p) = hAccounts h !!! pAcc (hObjects h !!! p)) as Ea.
  { apply list_lookup_total_correct. eapply prefix_lookup_Some, He'. by apply lookup_total_Some. }
  split; rewrite ?Eo, ?Ea; try done; [by etrans|by eapply deref_extends].
Qed.

Lemma CreateAccount_quiet s t a : sim s t → quiet s t (CreateAccount s a) (Txn.CreateAccount t a).
Proof.
  intros Hs. unfold CreateAccount, Txn.CreateAccount, mbind, mem_bind.
  destruct (newStateObject_allocates (pHeap s)) as [Hown Ha]. destruct (newStateObject (pHeap s)) as [obj h1]. simpl in *.
  assert (quiet s t (set_heap h1 s) t) as Hq1 by (apply quiet_heap; [done|apply Hown|done]).
  pose proof (getStateObject_spec (set_heap h1 s) t a (quiet_sim _ _ _ _ Hq1)) as Hg. simpl in Hg.
  assert (∀ h v, own (pHeap s) h obj v → hArrays h = hArrays (pHeap s) →
    quiet s t (set_tree (tinsert (pTree s) a (PObject obj)) (set_heap h s))
              (Txn.set_txn (tinsert (txn t) a (VObject v)) t)) as Hstep.
  { intros h v Hown' Ha'. assert (quiet s t (set_heap h s) t) as Hq by (apply quiet_heap; [done|apply Hown'|done]).
    eapply quiet_trans; [apply Hq|].
    apply (quiet_insert (set_heap h s) t a (PObject obj) (VObject v)); [apply Hq|apply Hown'|simpl; tauto..]. }
  destruct (Txn.getStateObject t a) as [v|].
  - destruct Hg as (q & h2 & -> & Hown2 & Ha2).
    pose proof (own_deref _ _ _ _ Hown2) as (_ & _ & _ & Ev & _)%deref_cells.
    rewrite Ev. cbn [Balance]. set (z := hInts h2 !!! _).
    pose proof (own_later _ _ _ _ _ Hown (own_extends _ _ _ _ Hown2)) as Hown3.
    destruct (set_modifies z _ _ _ _ Hown3) as (Hown4 & _ & Ha4).
    destruct (set_in_place z obj h2) as [[] h3]. apply Hstep; [done|]. simpl in Ha4. congruence.
  - rewrite Hg. by apply Hstep.
Qed.

(** ** The end of a transaction *)

Lemma rel_tree_object h r r' k p :
  rel_tree h r r' → tget r k = Some (PObject p) → ∃ o, tget r' k = Some (VObject o) ∧ deref h p = Some o.
Proof. intros Hr E. specialize (Hr k). rewrite E in Hr. inversion Hr as [v w Hv|]. destruct w; try done. eauto. Qed.

Lemma rel_tree_object' h r r' k o :
  rel_tree h r r' → tget r' k = Some (VObject o) → ∃ p, tget r k = Some (PObject p) ∧ deref h p = Some o.
Proof. intros Hr E. specialize (Hr k). rewrite E in Hr. inversion Hr as [v w Hv|]. destruct v; try done. eauto. Qed.

Lemma removable_sim s t d k : sim s t → k ∈ removable d (pHeap s) (pTree s) ↔ k ∈ Txn.removable d (txn t).
Proof.
  intros Hs. rewrite removable_spec. unfold removable. rewrite list_elem_of_omap.
  assert (∀ p o, deref (pHeap s) p = Some o →
    pSuicide (hObjects (pHeap s) !!! p) || (Object_Empty (pHeap s) p && d) = doomed d o) as Hd.
  { intros p o (_ & _ & _ & Ea & _ & Es & _)%deref_cells. unfold doomed, Object_Empty, Txn.Object_Empty.
    by rewrite Ea, Es. }
  split.
  - intros ([k' v] & Hin & E). apply twalk_get in Hin. destruct v as [p| |]; try done.
    destruct (rel_tree_object _ _ _ _ _ (sim_tree _ _ Hs) Hin) as (o & Ho & Hp). exists o.
    rewrite <- (Hd p o Hp). case_match; [|done]. by injection E as <-.
  - intros (o & Ho & Hdo). destruct (rel_tree_object' _ _ _ _ _ (sim_tree _ _ Hs) Ho) as (p & Hp & Hpo).
    exists (k, PObject p). split; [by apply twalk_get|]. by rewrite (Hd p o Hpo), Hdo.
Qed.

Lemma markDeleted_spec ks h r :
  NoDup ks → (∀ k, k ∈ ks → ∃ p o, tget r k = Some (PObject p) ∧ deref h p = Some o) →
  ∃ r2 h2, markDeleted ks r h = (Some r2, h2) ∧ extends h h2 ∧ hArrays h2 = hArrays h ∧
    (∀ k, k ∉ ks → tget r2 k = tget r k) ∧
    (∀ k p o, k ∈ ks → tget r k = Some (PObject p) → deref h p = Some o →
       ∃ q, tget r2 k = Some (PObject q) ∧ deref h2 q = Some (set_deleted (Txn.Object_Copy o))).
Proof.
  intros Hnd. revert h r. induction Hnd as [|k ks Hk Hnd IH]; intros h r Hobj.
  { exists r, h. split_and!; try done. by intros k p o ?%elem_of_nil. }
  destruct (Hobj k) as (p & o & Hp & Ho); [apply list_elem_of_here|].
  destruct (Object_Copy_allocates h p o Ho) as [Hown Ha].
  destruct (deleted_modifies _ _ _ _ Hown) as (Hown' & _ & Ha').
  cbn [markDeleted]. rewrite Hp. unfold mbind, mem_bind in *.
  destruct (Object_Copy p h) as [q h1]. cbn [fst snd] in *. destruct (get_object q h1) as [o1 h1'] eqn:Eg.
  injection Eg as <- <-. destruct (put_object q _ h1) as [[] h2]. cbn [fst snd] in *.
  destruct (IH h2 (tinsert r k (PObject q))) as (r3 & h3 & -> & He & Ha3 & Hout & Hin).
  { intros k' Hk'. rewrite tget_insert_ne by (intros ->; done).
    destruct (Hobj k') as (p' & o' & ? & Ho'); [by apply list_elem_of_further|]. exists p', o'.
    split; [done|]. eapply deref_extends, Ho'. apply Hown'. }
  exists r3, h3. split_and!; [done|by etrans; [apply Hown'|]|congruence| |].
  - intros k' Hk'. rewrite elem_of_cons in Hk'. rewrite Hout, tget_insert_ne by (try tauto; intros ->; tauto). done.
  - intros k' p' o' Hk' Hp' Ho'. destruct (decide (k = k')) as [<-|Hne].
    + assert (o' = o) as -> by congruence. exists q. rewrite Hout, tget_insert_eq by done.
      split; [done|]. eapply deref_extends, Hown'. done.
    + apply elem_of_cons in Hk' as [|Hk']; [congruence|].
      eapply Hin; [done|by rewrite tget_insert_ne|]. eapply deref_extends, Ho'. apply Hown'.
Qed.

Lemma CleanDeleteObjects_quiet s t d :
  sim s t → ∃ s' t', CleanDeleteObjects s d = Some s' ∧ Txn.CleanDeleteObjects t d = Some t' ∧ quiet s t s' t'.
Proof.
  intros Hs. destruct (CleanDeleteObjects_spec t d) as (t' & Et & Esn & Ec & Eref & Eget).
  destruct (markDeleted_spec (removable d (pHeap s) (pTree s)) (pHeap s) (pTree s)) as (r & h & Em & He & Ha & Hout & Hin).
  { apply NoDup_omap_fst; [|apply twalk_nodup]. intros [k v] a. simpl. repeat case_match; congruence. }
  { intros k (o & Ho & _)%(removable_sim s t d k Hs)%removable_spec.
    destruct (rel_tree_object' _ _ _ _ _ (sim_tree _ _ Hs) Ho) as (p & ? & ?). eauto. }
  unfold CleanDeleteObjects. rewrite Em, Et. eexists _, t'. split_and!; [done|done|].
  destruct (quiet_heap s t h Hs He Ha) as [[Ht Hsn _] _ _ _ _ _ _]. split; simpl; try done.
  - split; simpl; [|by rewrite Esn|by rewrite Ec; apply Hs]. intros k.
    destruct (decide (k = refundIndex)) as [->|Hne]; [rewrite Eref, tget_delete_eq; constructor|].
    rewrite tget_delete_ne, Eget by congruence.
    destruct (decide (k ∈ removable d (pHeap s) (pTree s))) as [Hk|Hk].
    + pose proof Hk as (o & Ho & Hd)%(removable_sim s t d k Hs)%removable_spec. rewrite Ho, Hd.
      destruct (rel_tree_object' _ _ _ _ _ (sim_tree _ _ Hs) Ho) as (p & Hp & Hpo).
      destruct (Hin k p o Hk Hp Hpo) as (q & -> & Hq). by constructor.
    + rewrite (Hout k Hk). specialize (Ht k). simpl in Ht.
      destruct (tget (txn t) k) as [[o| |]|] eqn:Ek; try done.
      destruct (doomed d o) eqn:Hd; [|done]. exfalso. apply Hk, (removable_sim s t d k Hs), removable_spec. eauto.
  - intros v Hv. rewrite tget_delete_ne by apply not_eq_sym, index_ne.
    destruct (decide (logIndex ∈ removable d (pHeap s) (pTree s))) as [Hk|Hk]; [|by rewrite Hout].
    pose proof Hk as (o & Ho & _)%(removable_sim s t d _ Hs)%removable_spec.
    destruct (rel_tree_object' _ _ _ _ _ (sim_tree _ _ Hs) Ho) as (p & Hp & Hpo).
    destruct (Hin _ p o Hk Hp Hpo) as (q & -> & _). by intros [= <-].
  - intros v Hv. rewrite Eget by apply index_ne. destruct (tget (txn t) logIndex) as [[]|]; try done. by intros [= <-].
Qed.
End simulation.

(** ** Logs *)

Section logs.
Context `{!Radix, !RadixLaws, !Lru Address (list Z), !Keccak, !readSnapshot, !GoRuntime}.
Implicit Types (h : heap) (s : pState) (t : Txn.Txn).

(** The slice shows these logs. *)
Definition holds h (sl : slice) (logs : list Log) : Prop :=
  ∃ arr, hArrays h !! sArray sl = Some arr ∧ sLen sl = length logs ∧ take (sLen sl) arr = Some <$> logs.

Definition logs_ok h (r : tree pvalue) (r' : tree rvalue) : Prop :=
  ∀ sl, tget r logIndex = Some (PLogs sl) → ∃ logs, tget r' logIndex = Some (VLogs logs) ∧ holds h sl logs.

(** Slices on the same array: what the later tree appends is behind the
    logs of the earlier one. *)
Definition behind (r1 r2 : tree pvalue) : Prop :=
  ∀ sl1 sl2, tget r1 logIndex = Some (PLogs sl1) → tget r2 logIndex = Some (PLogs sl2) →
    sArray sl1 = sArray sl2 → (sLen sl1 ≤ sLen sl2)%nat.

(** Reverts that nest: only to a snapshot that no revert has passed since.
    [n] is the next id, [live] are the ids a revert may still name. *)
Fixpoint nested (n : nat) (live : list nat) (ops : list txn_op) : bool :=
  match ops with
  | [] => true
  | OSnapshot :: ops => nested (S n) (n :: live) ops
  | ORevertToSnapshot id :: ops =>
      bool_decide (0 ≤ id ∧ Z.to_nat id ∈ live) &&
      nested n (filter (λ i, (i ≤ Z.to_nat id)%nat) live) ops
  | _ :: ops => nested n live ops
  end.

Record log_inv (live : list nat) s t : Prop := mkLogInv {
  inv_current : logs_ok (pHeap s) (pTree s) (txn t);
  inv_live : ∀ i, i ∈ live → ∃ r r', pSnapshots s !! i = Some r ∧ snapshots t !! i = Some r' ∧
    logs_ok (pHeap s) r r' ∧ behind r (pTree s);
  inv_order : ∀ i j r1 r2, i ∈ live → j ∈ live → (i < j)%nat →
    pSnapshots s !! i = Some r1 → pSnapshots s !! j = Some r2 → behind r1 r2;
}.

Lemma logs_ok_arrays h h' r r' : hArrays h' = hArrays h → logs_ok h r r' → logs_ok h' r r'.
Proof. intros E Hl sl Hsl. destruct (Hl sl Hsl) as (logs & ? & arr & ?). exists logs. split; [done|]. exists arr. by rewrite E. Qed.

Lemma log_inv_quiet live s t s' t' : quiet s t s' t' → log_inv live s t → log_inv live s' t'.
Proof.
  intros [Hs _ Ea Esn Esn' Hsl Hlo] [Hc Hl Ho]. split.
  - intros sl E. destruct (Hc sl) as (logs & El & Hh); [by apply Hsl|].
    specialize (sim_tree _ _ Hs logIndex) as Hr. rewrite E in Hr. inversion Hr as [v w Hv Ev Ew|].
    destruct w as [|logs'|]; try done. assert (tget (txn t) logIndex = Some (VLogs logs')) as E' by by apply Hlo.
    exists logs'. split; [done|]. rewrite El in E'. injection E' as ->. destruct Hh as (arr & ?). exists arr. by rewrite Ea.
  - intros i Hi. destruct (Hl i Hi) as (r & r' & ? & ? & ? & Hb). exists r, r'. rewrite Esn, Esn'.
    split_and!; [done|done|by eapply logs_ok_arrays|]. intros sl1 sl2 E1 E2. apply Hb; [done|]. by apply Hsl.
  - intros i j r1 r2. rewrite Esn. apply Ho.
Qed.

(** The slice of the current tree has its logs, or there are none. *)
Lemma current_slice s t :
  sim s t → logs_ok (pHeap s) (pTree s) (txn t) →
  match slice_at (pTree s) with
  | Some sl => holds (pHeap s) sl (Txn.currentLogs t) ∧ tget (pTree s) logIndex = Some (PLogs sl) ∧
               tget (txn t) logIndex = Some (VLogs (Txn.currentLogs t))
  | None => Txn.currentLogs t = [] ∧ Txn.Logs t = ([], t)
  end.
Proof.
  intros Hs Hl. unfold slice_at, Txn.currentLogs, Txn.Logs. pose proof (sim_tree _ _ Hs logIndex) as Hr.
  destruct (tget (pTree s) logIndex) as [v|] eqn:E.
  - inversion Hr as [? w Hv Ev Ew|]. destruct v as [|sl|]; [by destruct w| |by destruct w].
    destruct (Hl sl E) as (logs & El & Hh). rewrite El in Ew. injection Ew as ->. done.
  - by inversion Hr.
Qed.

Lemma currentLogs_eq s t : sim s t → logs_ok (pHeap s) (pTree s) (txn t) → currentLogs s = Txn.currentLogs t.
Proof.
  intros Hs Hl. pose proof (current_slice s t Hs Hl) as Hc. unfold currentLogs.
  destruct (slice_at (pTree s)) as [sl|]; simpl; [|by destruct Hc].
  destruct Hc as [(arr & Ea & _ & Et) _]. rewrite (list_lookup_total_correct _ _ _ Ea), Et.
  generalize (Txn.currentLogs t). intros l. induction l as [|x l IH]; simpl; [done|]. f_equal. exact IH.
Qed.

(** Appending: the new slice has one more log, and slices that are behind
    it keep theirs. *)
Lemma append_log_spec h sl logs log :
  holds h sl logs →
  let '(sl', h') := append_log sl log h in
  holds h' sl' (logs ++ [log]) ∧ extends h h' ∧
  (∀ sl0 logs0, holds h sl0 logs0 → (sArray sl0 = sArray sl → (sLen sl0 ≤ sLen sl)%nat) →
     holds h' sl0 logs0 ∧ (sArray sl0 = sArray sl' → (sLen sl0 ≤ sLen sl')%nat)).
Proof.
  intros (arr & Ea & El & Et). unfold append_log, mbind, mem_bind, get_array, put_array, new_array, mret, mem_ret.
  rewrite (list_lookup_total_correct _ _ _ Ea).
  assert (length (take (sLen sl) arr) = sLen sl) as Elen by (rewrite Et, length_fmap; done).
  pose proof (lookup_lt_Some _ _ _ Ea) as Hlt.
  destruct (Nat.ltb_spec (sLen sl) (length arr)) as [Hroom|Hfull].
  - split_and!; [|done|].
    + exists (<[sLen sl := Some log]> arr). simpl. split_and!; [by rewrite list_lookup_insert_eq|rewrite length_app; simpl; lia|].
      rewrite (take_S_r _ _ (Some log)) by by rewrite list_lookup_insert_eq.
      by rewrite take_insert_ge, Et, fmap_app by lia.
    + intros sl0 logs0 (arr0 & Ea0 & El0 & Et0) Hle. simpl. split; [|intros E; specialize (Hle E); lia].
      destruct (decide (sArray sl0 = sArray sl)) as [E|Hne].
      * exists (<[sLen sl := Some log]> arr). specialize (Hle E). simpl. rewrite E, list_lookup_insert_eq by done.
        split_and!; [done|done|]. rewrite take_insert_ge by lia. congruence.
      * exists arr0. simpl. by rewrite list_lookup_insert_ne.
  - split_and!; [|done|].
    + eexists. simpl. split_and!; [by rewrite lookup_app_r, Nat.sub_diag by lia|rewrite length_app; simpl; lia|].
      rewrite (take_S_r _ _ (Some log)) by by rewrite lookup_app_r, Elen, Nat.sub_diag by lia.
      by rewrite take_app_le, take_take, Nat.min_id, Et, fmap_app by lia.
    + intros sl0 logs0 (arr0 & Ea0 & El0 & Et0) Hle. simpl. pose proof (lookup_lt_Some _ _ _ Ea0).
      split; [|lia]. exists arr0. simpl. by rewrite lookup_app_l.
Qed.

Lemma sim_heap s t h r r' :
  sim s t → extends (pHeap s) h → rel_tree h r r' → sim (set_tree r (set_heap h s)) (Txn.set_txn r' t).
Proof.
  intros [Ht Hs Hc] He Hr. split; simpl; [done| |done].
  eapply Forall2_impl; [done|]. intros ??. by apply rel_tree_extends.
Qed.

Lemma AddLog_sim s t log : sim s t → sim (AddLog s log) (Txn.AddLog t log).
Proof.
  intros Hs. unfold AddLog, Txn.AddLog.
  match goal with |- sim (let '(_, _) := ?m in _) _ => assert (extends (pHeap s) m.2) as He; [|destruct m as [sl h]] end.
  { unfold append_log, mbind, mem_bind. mem_unfold. unfold get_array, put_array, new_array.
    destruct (slice_at (pTree s)); case_match; done. }
  apply sim_heap; [done|done|]. apply rel_tree_insert; [done|]. eapply rel_tree_extends, Hs. done.
Qed.

Lemma AddLog_snapshots s log : pSnapshots (AddLog s log) = pSnapshots s.
Proof. unfold AddLog. by match goal with |- context [let '(_, _) := ?m in _] => destruct m end. Qed.

(** What an append does to the invariant, from a slice of the current tree
    or a new one. *)
Lemma log_inv_append live s t sl h sl' h' log :
  sim s t → log_inv live s t → (∃ l, hArrays h = hArrays (pHeap s) ++ l) → holds h sl (Txn.currentLogs t) →
  ((sArray sl < length (hArrays (pHeap s)))%nat → tget (pTree s) logIndex = Some (PLogs sl)) →
  append_log sl log h = (sl', h') →
  log_inv live (set_tree (tinsert (pTree s) logIndex (PLogs sl')) (set_heap h' s)) (Txn.AddLog t log).
Proof.
  intros Hs [Hc Hl Ho] [l Eh] Hh Hold E. pose proof (append_log_spec h sl _ log Hh) as Ha. rewrite E in Ha.
  destruct Ha as (Hh' & _ & Hkeep). split; simpl.
  - intros sl0. rewrite tget_insert_eq. intros [= <-]. eexists. split; [apply tget_insert_eq|done].
  - intros i Hi. destruct (Hl i Hi) as (r & r' & Er & Er' & Hok & Hb).
    assert (∀ sl0, tget r logIndex = Some (PLogs sl0) → ∃ logs, tget r' logIndex = Some (VLogs logs) ∧
      holds h' sl0 logs ∧ (sArray sl0 = sArray sl' → (sLen sl0 ≤ sLen sl')%nat)) as Hsl.
    { intros sl0 E0. destruct (Hok sl0 E0) as (logs & El & arr & Earr & Hrest). exists logs. split; [done|].
      pose proof (lookup_lt_Some _ _ _ Earr) as Hlt. apply Hkeep.
      - exists arr. rewrite Eh. split; [by apply lookup_app_l_Some|done].
      - intros Esl. apply (Hb sl0 sl); [done| |done]. apply Hold. by rewrite <- Esl. }
    exists r, r'. split_and!; [done|done| |].
    + intros sl0 E0. destruct (Hsl sl0 E0) as (logs & ? & ? & _). eauto.
    + intros sl1 sl2 E1 E2. rewrite tget_insert_eq in E2. injection E2 as <-.
      by destruct (Hsl sl1 E1) as (logs & _ & _ & ?).
  - apply Ho.
Qed.

Lemma AddLog_inv live s t log : sim s t → log_inv live s t → log_inv live (AddLog s log) (Txn.AddLog t log).
Proof.
  intros Hs Hi. pose proof (current_slice s t Hs (inv_current _ _ _ Hi)) as Hc. unfold AddLog, mbind, mem_bind.
  destruct (slice_at (pTree s)) as [sl|]; unfold mret, mem_ret.
  - destruct (append_log sl log (pHeap s)) as [sl' h'] eqn:E. destruct Hc as (Hh & Et & _).
    eapply (log_inv_append live s t sl (pHeap s)); try done. exists []. by rewrite app_nil_r.
  - unfold new_array at 1. match goal with |- context [append_log ?sl log ?h] => set (sl0 := sl); set (h0 := h) end.
    destruct (append_log sl0 log h0) as [sl' h'] eqn:E.
    eapply (log_inv_append live s t sl0 h0); try done; [by eexists| |simpl; lia].
    destruct Hc as [-> _]. exists []. simpl. by rewrite lookup_app_r, Nat.sub_diag by lia.
Qed.

Lemma Logs_sim s t : sim s t → sim (Logs s).2 (Txn.Logs t).2.
Proof.
  intros Hs. unfold Logs, slice_at, Txn.Logs. destruct (sim_tree _ _ Hs logIndex) as [v w Hv|]; [|done].
  destruct v, w; try done. simpl. destruct Hs as [Ht Hsn Hc]. split; simpl; try done. by apply rel_tree_delete.
Qed.

Lemma Logs_inv live s t : sim s t → log_inv live s t → log_inv live (Logs s).2 (Txn.Logs t).2.
Proof.
  intros Hs Hi. pose proof (current_slice s t Hs (inv_current _ _ _ Hi)) as Hc. unfold Logs.
  destruct (slice_at (pTree s)) as [sl|]; [|by destruct Hc as [_ ->]]. destruct Hc as (_ & _ & E).
  unfold Txn.Logs. rewrite E. destruct Hi as [_ Hl Ho]. split; simpl; [|clear Ho|done].
  - intros sl'. by rewrite tget_delete_eq.
  - intros i Hi. destruct (Hl i Hi) as (r & r' & ? & ? & ? & _). exists r, r'. split_and!; try done.
    intros sl1 sl2 _. by rewrite tget_delete_eq.
Qed.

Lemma Snapshot_sim s t : sim s t → sim (Snapshot s).2 (Txn.Snapshot t).2.
Proof. intros [Ht Hs Hc]. split; simpl; try done. apply Forall2_app; [done|]. by constructor. Qed.

Lemma RevertToSnapshot_sim s t id :
  sim s t → option_Forall2 sim (RevertToSnapshot s id) (Txn.RevertToSnapshot t id).
Proof.
  intros [Ht Hs Hc]. unfold RevertToSnapshot, Txn.RevertToSnapshot, zlen. rewrite (Forall2_length _ _ _ Hs).
  case_match; [constructor|]. destruct (pSnapshots s !! Z.to_nat id) as [r|] eqn:E.
  - destruct (Forall2_lookup_l _ _ _ _ _ Hs E) as (r' & -> & Hr). constructor. by split.
  - pose proof (Forall2_length _ _ _ Hs). apply lookup_ge_None in E. rewrite lookup_ge_None_2 by lia. constructor.
Qed.

(** ** Runs *)

(** The operations on logs and snapshots. *)
Definition logs_op (o : txn_op) : bool :=
  match o with OEmitLog _ _ _ | OLogs | OSnapshot | ORevertToSnapshot _ => true | _ => false end.

Lemma run_op_quiet o s t :
  sim s t → logs_op o = false →
  ∃ s' t', run_op o s = Some s' ∧ TxnProps.run_op o t = Some t' ∧ quiet s t s' t'.
Proof.
  intros Hs Ho. destruct o; try done; simpl; try (eexists _, _; split_and!; [reflexivity|reflexivity|]).
  - by apply update_quiet; [apply add_modifies|].
  - by apply SubBalance_quiet.
  - by apply update_quiet; [apply set_modifies|].
  - by apply update_quiet; [apply reward_modifies|].
  - by apply update_quiet; [apply (assign_modifies _ (λ a, mkAccount (u64 (Nonce a + 1)) (Balance a) (Root a) (CodeHash a)))|].
  - by apply update_quiet; [apply (assign_modifies _ (λ a, mkAccount n (Balance a) (Root a) (CodeHash a)))|].
  - by apply update_quiet; [apply code_modifies|].
  - by apply GetCode_quiet.
  - by apply SetState_quiet.
  - by apply SetStorage_quiet.
  - by apply AddRefund_quiet.
  - by apply SubRefund_quiet.
  - by apply Suicide_quiet.
  - by apply update_quiet; [apply touch_modifies|].
  - by apply CreateAccount_quiet.
  - by apply CleanDeleteObjects_quiet.
Qed.

Lemma run_op_sim o s t : sim s t → option_Forall2 sim (run_op o s) (TxnProps.run_op o t).
Proof.
  intros Hs. destruct (logs_op o) eqn:Ho.
  - destruct o; try done; simpl; [constructor; by apply AddLog_sim|constructor; by apply Logs_sim|..].
    + constructor. by apply Snapshot_sim.
    + by apply RevertToSnapshot_sim.
  - destruct (run_op_quiet o s t Hs Ho) as (s' & t' & -> & -> & Hq). constructor. apply Hq.
Qed.

Lemma run_ops_none ops : foldl (λ r o, match r with Some s => run_op o s | None => None end) None ops = None.
Proof. by induction ops. Qed.

Lemma run_ops_none' ops :
  foldl (λ r o, match r with Some t => TxnProps.run_op o t | None => None end) None ops = None.
Proof. by induction ops. Qed.

Lemma run_ops_sim ops s t : sim s t → option_Forall2 sim (run_ops ops s) (TxnProps.run_ops ops t).
Proof.
  revert s t. induction ops as [|o ops IH]; intros s t Hs; [by constructor|].
  unfold run_ops, TxnProps.run_ops. simpl. destruct (run_op_sim o s t Hs) as [s' t' Hs'|]; [by apply IH|].
  rewrite run_ops_none, run_ops_none'. constructor.
Qed.

Lemma newState_sim : sim newState newTxn.
Proof. split; simpl; [|constructor|done]. intros k. rewrite !tget_new. constructor. Qed.

Lemma snapshot_inv live s t :
  sim s t → (∀ i, i ∈ live → (i < length (pSnapshots s))%nat) → log_inv live s t →
  log_inv (length (pSnapshots s) :: live) (Snapshot s).2 (Txn.Snapshot t).2.
Proof.
  intros Hs Hn [Hc Hl Ho]. pose proof (Forall2_length _ _ _ (sim_snapshots _ _ Hs)) as El. split; simpl; [done|..].
  - intros i [->|Hi]%elem_of_cons.
    + exists (pTree s), (txn t). rewrite lookup_app_r, Nat.sub_diag by lia. rewrite El, lookup_app_r, Nat.sub_diag by lia.
      split_and!; try done. intros sl1 sl2 E1 E2 _. rewrite E1 in E2. by injection E2 as ->.
    + destruct (Hl i Hi) as (r & r' & ? & ? & ?). exists r, r'. split_and!; try (by apply lookup_app_l_Some); tauto.
  - intros i j r1 r2 Hi Hj Hij E1 E2. assert ((i < length (pSnapshots s))%nat) as Hlt.
    { apply elem_of_cons in Hj as [->|Hj%Hn]; lia. }
    rewrite lookup_app_l in E1 by done. apply elem_of_cons in Hi as [->|Hi]; [lia|].
    apply elem_of_cons in Hj as [->|Hj].
    + rewrite lookup_app_r, Nat.sub_diag in E2 by lia. injection E2 as <-.
      destruct (Hl i Hi) as (r & r' & E & _ & _ & Hb). rewrite E1 in E. by injection E as ->.
    + rewrite lookup_app_l in E2 by by apply Hn. by apply (Ho i j).
Qed.

Lemma revert_inv live s t id s' t' :
  log_inv live s t → 0 ≤ id → Z.to_nat id ∈ live →
  RevertToSnapshot s id = Some s' → Txn.RevertToSnapshot t id = Some t' →
  log_inv (filter (λ i, (i ≤ Z.to_nat id)%nat) live) s' t'.
Proof.
  intros [Hc Hl Ho] Hid Hin. unfold RevertToSnapshot, Txn.RevertToSnapshot.
  destruct (Hl _ Hin) as (r & r' & Er & Er' & Hok & _). rewrite Er, Er'.
  case_match; [done|]. case_match; [done|]. intros [= <-] [= <-]. split; simpl; [done|..].
  - intros i [Hle Hi]%list_elem_of_filter. destruct (Hl i Hi) as (r1 & r1' & E1 & E1' & Hok1 & _).
    exists r1, r1'. split_and!; try done. destruct (decide (i = Z.to_nat id)) as [->|Hne].
    + intros sl1 sl2 S1 S2 _. rewrite Er in E1. injection E1 as <-. rewrite S1 in S2. by injection S2 as ->.
    + apply (Ho i (Z.to_nat id)); [done|done|lia|done|done].
  - intros i j r1 r2 [_ Hi]%list_elem_of_filter [_ Hj]%list_elem_of_filter. by apply Ho.
Qed.

(** In a nested run the current slice always has the logs of the values. *)
Lemma run_ops_logs ops live s t s' t' :
  sim s t → log_inv live s t → (∀ i, i ∈ live → (i < length (pSnapshots s))%nat) →
  nested (length (pSnapshots s)) live ops = true →
  run_ops ops s = Some s' → TxnProps.run_ops ops t = Some t' → logs_ok (pHeap s') (pTree s') (txn t').
Proof.
  revert live s t. induction ops as [|o ops IH]; intros live s t Hs Hi Hn Hnest.
  { intros [= <-] [= <-]. apply Hi. }
  unfold run_ops, TxnProps.run_ops. cbn [foldl].
  pose proof (run_op_sim o s t Hs) as Hsim.
  destruct (run_op o s) as [s1|] eqn:E1; [|by rewrite run_ops_none]. destruct (TxnProps.run_op o t) as [t1|] eqn:E1'; [|by inversion Hsim].
  assert (sim s1 t1) as Hs1 by by inversion Hsim. destruct (logs_op o) eqn:Ho.
  - destruct o; try done; simpl in *.
    + injection E1 as <-. injection E1' as <-. apply (IH live); [done|by apply AddLog_inv|..].
      all: unfold EmitLog; by rewrite AddLog_snapshots.
    + injection E1 as <-. injection E1' as <-. apply (IH live); [done|by apply Logs_inv|..].
      all: unfold Logs in *; by destruct (slice_at _).
    + injection E1 as <-. injection E1' as <-. apply (IH (length (pSnapshots s) :: live)); [done|by apply snapshot_inv|..]; simpl.
      * rewrite length_app. simpl. intros i [->|?%Hn]%elem_of_cons; lia.
      * by rewrite length_app, Nat.add_1_r.
    + apply andb_prop in Hnest as [[Hid Hin]%bool_decide_eq_true Hnest].
      assert (pSnapshots s1 = pSnapshots s) as Esn.
      { unfold RevertToSnapshot in E1. repeat case_match; try done. by injection E1 as <-. }
      eapply IH; [done|by eapply revert_inv|rewrite Esn|by rewrite Esn]. intros i [_ Hi']%list_elem_of_filter. auto.
  - destruct (run_op_quiet o s t Hs Ho) as (s2 & t2 & E2 & E2' & Hq). rewrite E1 in E2. injection E2 as <-.
    rewrite E1' in E2'. injection E2' as <-. apply (IH live); [done|by eapply log_inv_quiet|..].
    all: rewrite (quiet_snaps _ _ _ _ Hq); try done. by destruct o.
Qed.
End logs.

(** ** What the program shows *)

(** The object a read of the account returns, as a value. *)
Definition view `{!Radix, !Lru Address (list Z), !Keccak, !readSnapshot} (s : pState) (addr : Address) : option StateObject :=
  let '(object, h) := getStateObject (pTree s) addr (pHeap s) in
  p ← object; deref h p.

Section shown.
Context `{!Radix, !RadixLaws, !Lru Address (list Z), !Keccak, !readSnapshot, !GoRuntime}.
Implicit Types (s : pState) (t : Txn.Txn).

Lemma view_sim s t addr : sim s t → view s addr = Txn.getStateObject t addr.
Proof.
  intros Hs. unfold view. pose proof (getStateObject_spec s t addr Hs) as Hg.
  destruct (Txn.getStateObject t addr) as [v|]; [|by rewrite Hg].
  destruct Hg as (q & h & -> & Hown & _). simpl. apply Hown.
Qed.

(** Both show the same accounts, storage and refund. *)
Definition shows s t : Prop :=
  (∀ a, view s a = Txn.getStateObject t a) ∧ (∀ a, (GetBalance s a).1 = Txn.GetBalance t a) ∧
  (∀ a k, (GetState s a k).1 = Txn.GetState t a k) ∧ (∀ a, (GetCode s a).1 = (Txn.GetCode t a).1) ∧
  GetRefund s = Txn.GetRefund t.

Lemma sim_shows s t : sim s t → shows s t.
Proof.
  intros Hs. split_and!; intros.
  - by apply view_sim.
  - by apply GetBalance_quiet.
  - by apply GetState_quiet.
  - by apply GetCode_quiet.
  - by apply (AddRefund_quiet s t 0).
Qed.

Lemma newState_logs : log_inv [] newState newTxn.
Proof.
  split; simpl.
  - intros sl. by rewrite tget_new.
  - by intros i ?%elem_of_nil.
  - by intros i j r1 r2 ?%elem_of_nil.
Qed.

Lemma run_new_logs ops s t :
  nested 0 [] ops = true → run_ops ops newState = Some s → TxnProps.run_ops ops newTxn = Some t →
  currentLogs s = Txn.currentLogs t.
Proof.
  intros Hn Es Et. pose proof (run_ops_sim ops _ _ newState_sim) as Hs. rewrite Es, Et in Hs.
  apply currentLogs_eq; [by inversion Hs|].
  apply (run_ops_logs ops [] newState newTxn); try done; [apply newState_sim|apply newState_logs|].
  by intros i ?%elem_of_nil.
Qed.

Lemma nested_prefix ops1 ops2 n live : nested n live (ops1 ++ ops2) = true → nested n live ops1 = true.
Proof.
  revert n live. induction ops1 as [|o ops1 IH]; intros n live; [done|]. destruct o; cbn [nested app]; try apply IH.
  intros [Hid Hn]%andb_prop. rewrite Hid. eauto.
Qed.

Lemma run_ops_app ops1 ops2 s s1 : run_ops ops1 s = Some s1 → run_ops (ops1 ++ ops2) s = run_ops ops2 s1.
Proof. intros E. unfold run_ops in *. by rewrite foldl_app, E. Qed.

Lemma run_ops_app' ops1 ops2 t t1 :
  TxnProps.run_ops ops1 t = Some t1 → TxnProps.run_ops (ops1 ++ ops2) t = TxnProps.run_ops ops2 t1.
Proof. intros E. unfold TxnProps.run_ops in *. by rewrite foldl_app, E. Qed.
End shown.

(** C4. The transient state may be taken for a collection of values although
    the code works on objects it shares by pointer: any operations, nested
    snapshots and reverts included, run on the heap and on the values of
    Txn.v from a new state, panic in the same cases, and otherwise every
    account, balance, slot and code and the refund counter a read returns are
    those of the values; so no update writes through a pointer into an object
    that a snapshot or another account still shows. The logs, slices that
    share arrays, agree as well when reverts nest (each is to a snapshot that
    no revert has passed). *)
Theorem pointers_refine `{!Radix, !RadixLaws, !Lru Address (list Z), !Keccak, !readSnapshot, !GoRuntime}
    (ops : list txn_op) :
  match run_ops ops newState, TxnProps.run_ops ops newTxn with
  | Some s, Some t => shows s t ∧ (nested 0 [] ops = true → currentLogs s = Txn.currentLogs t)
  | None, None => True
  | _, _ => False
  end.
Proof.
  pose proof (run_ops_sim ops _ _ newState_sim) as Hs.
  destruct (run_ops ops newState) as [s|] eqn:Es, (TxnProps.run_ops ops newTxn) as [t|] eqn:Et;
    try done; try (by inversion Hs). split; [apply sim_shows; by inversion Hs|]. intros Hn. by eapply run_new_logs.
Qed.

(** C3. A snapshot restores the transient state, although it only keeps
    pointers to objects and slices: from any state the operations reach and
    whatever runs after [Snapshot], nested snapshots and reverts included,
    [RevertToSnapshot] with its id does not panic and brings back every
    account, every storage slot and the refund counter as they were; and the
    logs, when all reverts nest. *)
Theorem snapshot_restores `{!Radix, !RadixLaws, !Lru Address (list Z), !Keccak, !readSnapshot, !GoRuntime}
    (before after : list txn_op) (s s2 : pState) :
  run_ops before newState = Some s →
  let '(id, s1) := Snapshot s in
  run_ops after s1 = Some s2 →
  ∃ s3, RevertToSnapshot s2 id = Some s3 ∧
    (∀ a, view s3 a = view s a) ∧ (∀ a k, (GetState s3 a k).1 = (GetState s a k).1) ∧
    GetRefund s3 = GetRefund s ∧
    (nested 0 [] (before ++ OSnapshot :: after ++ [ORevertToSnapshot id]) = true → currentLogs s3 = currentLogs s).
Proof.
  intros Es. destruct (Snapshot s) as [id s1] eqn:E1. intros Es2.
  pose proof (run_ops_sim before _ _ newState_sim) as Hs. rewrite Es in Hs.
  destruct (TxnProps.run_ops before newTxn) as [t|] eqn:Et; [|by inversion Hs].
  assert (sim s t) as Hst by by inversion Hs. clear Hs.
  pose proof (Snapshot_sim s t Hst) as Hs1. rewrite E1 in Hs1. cbn [snd] in Hs1.
  assert (id = (Txn.Snapshot t).1) as ->.
  { injection E1 as <- _. unfold zlen. by rewrite (Forall2_length _ _ _ (sim_snapshots _ _ Hst)). }
  pose proof (run_ops_sim after _ _ Hs1) as Hs. rewrite Es2 in Hs.
  destruct (TxnProps.run_ops after (Txn.Snapshot t).2) as [t2|] eqn:Et2; [|by inversion Hs].
  assert (sim s2 t2) as Hs2 by by inversion Hs. clear Hs.
  destruct (snapshot_revert t after t2 Et2) as (t3 & Er & Hobj & Hst3 & Hlogs & Href).
  pose proof (RevertToSnapshot_sim s2 t2 (Txn.Snapshot t).1 Hs2) as Hs. simpl in Hs, Er. rewrite Er in Hs. simpl.
  destruct (RevertToSnapshot s2 (zlen (snapshots t))) as [s3|] eqn:Er'; [|by inversion Hs].
  assert (sim s3 t3) as Hs3 by by inversion Hs. exists s3. split_and!; [done|..].
  - intros a. by rewrite (view_sim s3 t3), (view_sim s t).
  - intros a k. by rewrite (proj1 (GetState_quiet s3 t3 a k Hs3)), (proj1 (GetState_quiet s t a k Hst)).
  - by rewrite (proj2 (AddRefund_quiet s3 t3 0 Hs3)), (proj2 (AddRefund_quiet s t 0 Hst)).
  - intros Hn. rewrite (run_new_logs before s t (nested_prefix _ _ _ _ Hn) Es Et), <- Hlogs.
    apply (run_new_logs _ s3 t3 Hn).
    + rewrite (run_ops_app _ _ _ _ Es). unfold run_ops. cbn [foldl run_op]. rewrite E1. cbn [snd].
      fold (run_ops (after ++ [ORevertToSnapshot (zlen (snapshots t))]) s1). by rewrite (run_ops_app _ _ _ _ Es2).
    + rewrite (run_ops_app' _ _ _ _ Et). unfold TxnProps.run_ops. cbn [foldl TxnProps.run_op].
      fold (TxnProps.run_ops (after ++ [ORevertToSnapshot (zlen (snapshots t))]) (Txn.Snapshot t).2).
      by rewrite (run_ops_app' _ _ _ _ Et2).
Qed.

(** ** Examples *)

Module TxnHeapExamples.
Import Demo.

(** Slices that double their capacity. *)
#[export] Instance doubling : GoRuntime := {| growslice c n := Z.max n (2 * c); growslice_ge c n := Z.le_max_l n (2 * c) |}.

Definition log_n (n : Z) : txn_op := OEmitLog demo_addr [] [n].

(** Three logs and a balance before the snapshot; after it a log, which goes
    into the shared array, and writes to the account the snapshot shows. *)
Definition setup : list txn_op := [OAddBalance demo_addr 5; log_n 1; log_n 2; log_n 3].
Definition changes : list txn_op :=
  [log_n 4; OAddBalance demo_addr 7; OIncrNonce demo_addr; OSetState demo_addr demo_slot ZeroHash; OSuicide demo_addr].

Definition state1 : pState := default newState (run_ops setup newState).
Definition state2 : pState := default newState (run_ops changes (Snapshot state1).2).

Lemma snapshot_restores_witness :
  ∃ s3, RevertToSnapshot state2 0 = Some s3 ∧ (∀ a, view s3 a = view state1 a) ∧ currentLogs s3 = currentLogs state1 ∧
    (Balance ∘ oAccount <$> view s3 demo_addr) = Some 105 ∧ (GetBalance state2 demo_addr).1 = 0.
Proof.
  destruct (snapshot_restores setup changes state1 state2) as (s3 & E & Hv & _ & _ & Hl); [vm_compute; reflexivity..|].
  exists s3. split_and!; [exact E|exact Hv|apply Hl; vm_compute; reflexivity| |vm_compute; reflexivity].
  rewrite Hv. vm_compute. reflexivity.
Defined.

Lemma pointers_refine_witness :
  match run_ops (setup ++ OSnapshot :: changes) newState, TxnProps.run_ops (setup ++ OSnapshot :: changes) newTxn with
  | Some s, Some t => shows s t ∧ currentLogs s = Txn.currentLogs t
  | _, _ => False
  end.
Proof.
  pose proof (pointers_refine (setup ++ OSnapshot :: changes)) as Hr.
  assert (match run_ops (setup ++ OSnapshot :: changes) newState with Some _ => true | None => false end = true) as Es
    by (vm_compute; reflexivity).
  destruct (run_ops (setup ++ OSnapshot :: changes) newState) as [s|]; [|done]. clear Es. destruct (TxnProps.run_ops (setup ++ OSnapshot :: changes) newTxn) as [t|]; [|done].
  destruct Hr as [Hs Hl]. split; [exact Hs|]. apply Hl. vm_compute. reflexivity.
Defined.

(** A revert to a snapshot that an earlier revert has passed restores the
    accounts but not the logs: the log appended in between has been written
    into the array both slices share. The values of Txn.v show [4] last. *)
Example shared_logs :
  let ops := setup ++ [OSnapshot; log_n 4; OSnapshot; ORevertToSnapshot 0; log_n 5; ORevertToSnapshot 1] in
  nested 0 [] ops = false ∧
  (currentLogs <$> run_ops ops newState) = Some ((λ n, mkLog demo_addr [] [n]) <$> [1; 2; 3; 5]) ∧
  (Txn.currentLogs <$> TxnProps.run_ops ops newTxn) = Some ((λ n, mkLog demo_addr [] [n]) <$> [1; 2; 3; 4]).
Proof. vm_compute. done. Qed.
End TxnHeapExamples.
