(* ===== verification/Trie.v ===== *)
(** * The Merkle trie (state/immutable-trie: encoding.go, trie.go)

    Nodes hold their content only: the cached hash of a node and the epoch
    that decides whether a branch is copied or updated in place never change
    what a lookup returns, and are left out. A [nil] node is [None]. A
    [ValueNode] with [hash] set stands for a stored node; reading it goes
    through the storage and the RLP parser, the parameter [GetNode].

    [lookup], [insert] and [delete] recurse on nodes that storage may
    produce, so they take fuel; [None] is a panic or the end of the fuel. *)

From S2P Require Import Prelude.

(** ** encoding.go *)

Definition hasTerminator (hex : list Z) : bool :=
  match last hex with
  | Some x => x =? 16
  | None => false
  end.

(** The loop that packs pairs of nibbles. *)
Fixpoint packNibbles (hex : list Z) : list Z :=
  match hex with
  | a :: b :: hex => Z.lor (Z.shiftl a 4 mod 256) b :: packNibbles hex
  | _ => []
  end.

Definition encodeCompact (hex : list Z) : list Z :=
  let '(hex, terminator) :=
    if hasTerminator hex then (take (length hex - 1) hex, 1) else (hex, 0) in
  let oddLen := zlen hex mod 2 in
  let flag := 2 * terminator + oddLen in
  let hex := if oddLen =? 1 then flag :: hex else flag :: 0 :: hex in
  packNibbles hex.

Definition splitBytes (bytes : list Z) : list Z := mjoin ((λ b, [b / 16; b mod 16]) <$> bytes).

Definition bytesToHexNibbles (bytes : list Z) : list Z := splitBytes bytes ++ [16].

(** [base[0]] always exists: [bytesToHexNibbles] ends with the terminator.
    [base[2:]] is out of range on the empty input. *)
Definition decodeCompact (compact : list Z) : option (list Z) :=
  let base := bytesToHexNibbles compact in
  let b0 := default 16 (head base) in
  let base := if b0 <? 2 then take (length base - 1) base else base in
  if Z.land b0 1 =? 1 then Some (drop 1 base)
  else if (length base <? 2)%nat then None else Some (drop 2 base).

(** ** trie.go *)

Inductive node :=
  | ValueNode (hash : bool) (buf : list Z)
  | ShortNode (key : list Z) (child : option node)
  | FullNode (value : option node) (children : list (option node)).

(** [GetNode(buf, storage)]: [None] is an error, [Some None] a missing node. *)
Class TrieStorage := { GetNode : list Z → option (option node) }.

(** [f.getEdge(idx)]; [None] is an index out of range. *)
Definition getEdge (value : option node) (children : list (option node)) (idx : Z) : option (option node) :=
  if idx =? 16 then Some value else children !! Z.to_nat idx.

(** [f.setEdge(idx, e)] *)
Definition setEdge (value : option node) (children : list (option node)) (idx : Z) (e : option node)
    : option node :=
  if idx =? 16 then Some (FullNode e children)
  else if idx <? zlen children then Some (FullNode value (<[Z.to_nat idx := e]> children)) else None.

Fixpoint prefixLen (k1 k2 : list Z) : nat :=
  match k1, k2 with
  | x :: k1, y :: k2 => if x =? y then S (prefixLen k1 k2) else O
  | _, _ => O
  end.

Section trie.
Context `{TrieStorage}.

(** [t.lookup(node, key)]: the value found, and whether a stored node was
    loaded, which its parent then keeps in place of the hash. Keeping it in
    slot 16 of a branch is an index out of range. *)
Fixpoint lookup (fuel : nat) (n : option node) (key : list Z) : option (bool * option (list Z)) :=
  match fuel with
  | O => None
  | S fuel =>
      match n with
      | None => Some (false, None)
      | Some (ValueNode true buf) =>
          match GetNode buf with
          | None => None
          | Some None => Some (false, None)
          | Some (Some nc) =>
              match lookup fuel (Some nc) key with
              | Some (_, res) => Some (true, res)
              | None => None
              end
          end
      | Some (ValueNode false buf) =>
          Some (false, match key with [] => Some buf | _ => None end)
      | Some (ShortNode nkey child) =>
          let plen := length nkey in
          if bool_decide (length key < plen)%nat || negb (bool_decide (take plen key = nkey))
          then Some (false, None)
          else
            match lookup fuel child (drop plen key) with
            | Some (_, res) => Some (false, res)
            | None => None
            end
      | Some (FullNode value children) =>
          match key with
          | [] => lookup fuel value key
          | k :: key =>
              match getEdge value children k with
              | None => None
              | Some child =>
                  match lookup fuel child key with
                  | Some (loaded, res) => if loaded && (k =? 16) then None else Some (false, res)
                  | None => None
                  end
              end
          end
      end
  end.

Definition newValue (value : list Z) : node := ValueNode false value.

(** [t.insert(node, search, value)] *)
Fixpoint insert (fuel : nat) (n : option node) (search value : list Z) : option (option node) :=
  match fuel with
  | O => None
  | S fuel =>
      match n with
      | None =>
          match search with
          | [] => Some (Some (newValue value))
          | _ =>
              match insert fuel None [] value with
              | Some child => Some (Some (ShortNode search child))
              | None => None
              end
          end
      | Some (ValueNode true buf) =>
          match GetNode buf with
          | None => None
          | Some None => Some None
          | Some (Some nc) => insert fuel (Some nc) search value
          end
      | Some (ValueNode false buf) =>
          match search with
          | [] => Some (Some (newValue value))
          | _ => insert fuel (Some (FullNode n (replicate 16 None))) search value
          end
      | Some (ShortNode key nchild) =>
          let plen := prefixLen search key in
          if (plen =? length key)%nat then
            match insert fuel nchild (drop plen search) value with
            | Some child => Some (Some (ShortNode key child))
            | None => None
            end
          else
            let edge :=
              if (plen + 1 <? length key)%nat then Some (ShortNode (drop (plen + 1) key) nchild)
              else nchild in
            match key !! plen with
            | None => None
            | Some kp =>
                match setEdge None (replicate 16 None) kp edge with
                | None => None
                | Some b =>
                    match insert fuel (Some b) (drop plen search) value with
                    | Some child =>
                        if (plen =? 0)%nat then Some child
                        else Some (Some (ShortNode (take plen search) child))
                    | None => None
                    end
                end
            end
      | Some (FullNode fvalue children) =>
          match search with
          | [] =>
              match insert fuel fvalue [] value with
              | Some v => Some (Some (FullNode v children))
              | None => None
              end
          | k :: search =>
              match getEdge fvalue children k with
              | None => None
              | Some child =>
                  match insert fuel child search value with
                  | Some newChild => match setEdge fvalue children k newChild with
                                     | Some b => Some (Some b)
                                     | None => None
                                     end
                  | None => None
                  end
              end
          end
      end
  end.

(** The scan for the remaining children in [delete]: the first child and
    whether there is a second one. *)
Fixpoint scanChildren (i : Z) (children : list (option node)) (indx : Z) : Z * bool :=
  match children with
  | [] => (indx, false)
  | None :: children => scanChildren (i + 1) children indx
  | Some _ :: children => if negb (indx =? -1) then (indx, true) else scanChildren (i + 1) children i
  end.

(** What a branch turns into after a child has been removed; the flag is
    the [ok] of [delete]. *)
Definition shrink (value : option node) (children : list (option node)) : option (option node * bool) :=
  let '(indx, two) := scanChildren 0 children (-1) in
  let notEmpty := two || (negb (indx =? -1) && bool_decide (is_Some value)) in
  if notEmpty then Some (Some (FullNode value children), true) else
  if indx =? -1 then
    match value with
    | None => Some (None, true)
    | Some _ => Some (Some (ShortNode [16] value), true)
    end
  else
    let nc := default None (children !! Z.to_nat indx) in
    let nc :=
      match nc with
      | Some (ValueNode true buf) =>
          match GetNode buf with
          | None => None              (** panic *)
          | Some None => Some None    (** not found *)
          | Some (Some aux) => Some (Some aux)
          end
      | _ => Some nc
      end in
    match nc with
    | None => None
    | Some None => Some (None, false)
    | Some (Some (ShortNode key child)) => Some (Some (ShortNode (indx :: key) child), true)
    | Some (Some nc) => Some (Some (ShortNode [indx] (Some nc)), true)
    end.

(** [t.delete(node, search)] *)
Fixpoint delete (fuel : nat) (n : option node) (search : list Z) : option (option node * bool) :=
  match fuel with
  | O => None
  | S fuel =>
      match n with
      | None => Some (None, false)
      | Some (ShortNode key nchild) =>
          let plen := prefixLen search key in
          if (plen =? length search)%nat then Some (None, true) else
          if (plen =? 0)%nat then Some (None, false) else
          match delete fuel nchild (drop plen search) with
          | None => None
          | Some (_, false) => Some (None, false)
          | Some (None, true) => Some (None, true)
          | Some (Some (ShortNode skey schild), true) => Some (Some (ShortNode (key ++ skey) schild), true)
          | Some (Some child, true) => Some (Some (ShortNode key (Some child)), true)
          end
      | Some (ValueNode true buf) =>
          match GetNode buf with
          | None => None
          | Some None => Some (None, false)
          | Some (Some nc) => delete fuel (Some nc) search
          end
      | Some (ValueNode false buf) =>
          match search with
          | [] => Some (None, true)
          | _ => Some (None, false)
          end
      | Some (FullNode value children) =>
          match search with
          | [] => None      (** [search[0]] *)
          | key :: search =>
              match getEdge value children key with
              | None => None
              | Some child =>
                  match delete fuel child search with
                  | None => None
                  | Some (_, false) => Some (None, false)
                  | Some (newChild, true) =>
                      match setEdge value children key newChild with
                      | Some (FullNode value children) => shrink value children
                      | _ => None
                      end
                  end
              end
          end
      end
  end.

(** ** Transactions: the root of a trie *)

Definition Lookup (fuel : nat) (root : option node) (key : list Z) : option (option (list Z)) :=
  snd <$> lookup fuel root (bytesToHexNibbles key).

Definition Insert (fuel : nat) (root : option node) (key value : list Z) : option (option node) :=
  match insert fuel root (bytesToHexNibbles key) value with
  | None => None
  | Some None => Some root
  | Some root' => Some root'
  end.

Definition Delete (fuel : nat) (root : option node) (key : list Z) : option (option node) :=
  match delete fuel root (bytesToHexNibbles key) with
  | None => None
  | Some (root', true) => Some root'
  | Some (_, false) => Some root
  end.

(** [t.TryUpdate(key, value)]: the new root, and whether the call returned
    the error. *)
Definition TryUpdate (fuel : nat) (root : option node) (key value : list Z) : option (option node * bool) :=
  let k := bytesToHexNibbles key in
  if negb (zlen value =? 0) then
    match insert fuel root k value with
    | None => None
    | Some n => Some (n, false)
    end
  else
    match delete fuel root k with
    | None => None
    | Some (_, false) => Some (root, true)
    | Some (n, true) => Some (n, false)
    end.
End trie.
