(* ===== verification/TrieMap.v ===== *)
(** * The trie as a set of entries

    [has n k v] says that the trie [n] holds the value [v] at the path [k].
    [wf L n] is the form of a trie loaded in memory all of whose paths have
    length [L]: values at the end of the paths, branches with at least two
    children, extensions that do not follow one another. The lemmas give
    what [lookup], [insert] and [delete] do to the entries of such a trie,
    and that the entries determine it. *)

From S2P Require Import Prelude Trie.

Definition nibble (x : Z) : Prop := 0 ≤ x < 16.

(** A segment of a path followed by [L] more symbols: nibbles, with the
    terminator 16 at the very end of the path and only there. *)
Definition seg (L : nat) (k : list Z) : Prop :=
  ∀ i x, k !! i = Some x → if bool_decide (S i = length k + L)%nat then x = 16 else nibble x.

Definition key_ok (L : nat) (k : list Z) : Prop := length k = L ∧ seg 0 k.

Definition is_short (n : node) : bool := match n with ShortNode _ _ => true | _ => false end.

Inductive wf : nat → node → Prop :=
  | wf_value buf : wf 0 (ValueNode false buf)
  | wf_short key c L :
      key ≠ [] → seg L key → is_short c = false → wf L c →
      wf (length key + L) (ShortNode key (Some c))
  | wf_full ch L :
      length ch = 16%nat →
      (∃ i j, i ≠ j ∧ is_Some (mjoin (ch !! i)) ∧ is_Some (mjoin (ch !! j))) →
      (∀ i c, ch !! i = Some (Some c) → wf (S L) c) →
      wf (S (S L)) (FullNode None ch).

Inductive has : node → list Z → list Z → Prop :=
  | has_value buf : has (ValueNode false buf) [] buf
  | has_short key c k v : has c k v → has (ShortNode key (Some c)) (key ++ k) v
  | has_full ch i c k v : ch !! i = Some (Some c) → has c k v → has (FullNode None ch) (Z.of_nat i :: k) v.

Create HintDb trie.
#[export] Hint Constructors wf has : trie.

(** ** Segments and keys *)

Lemma seg_cons L x k :
  seg L (x :: k) ↔ (if bool_decide (length k + L = 0)%nat then x = 16 else nibble x) ∧ seg L k.
Proof.
  split.
  - intros H. split.
    + specialize (H 0%nat x eq_refl). cbn in H. repeat case_bool_decide; (done || lia).
    + intros i y Hi. specialize (H (S i) y Hi). cbn in H. repeat case_bool_decide; (done || lia).
  - intros [Hx Hk] [|i] y Hi; cbn in Hi.
    + simplify_eq. cbn. repeat case_bool_decide; (done || lia).
    + specialize (Hk i y Hi). cbn. repeat case_bool_decide; (done || lia).
Qed.

Lemma seg_app L k k' : seg L (k ++ k') ↔ seg (length k' + L) k ∧ seg L k'.
Proof.
  induction k as [|x k IH]; cbn [app].
  - split; [|tauto]. intros H. split; [|done]. intros ??; by rewrite lookup_nil.
  - rewrite !seg_cons, IH, length_app, <- Nat.add_assoc. tauto.
Qed.

Lemma key_ok_app k k' L : key_ok (length k + L) (k ++ k') ↔ seg L k ∧ key_ok L k'.
Proof.
  unfold key_ok. rewrite seg_app, length_app. split.
  - intros (Hl & Hk & Hk'). assert (length k' = L) by lia. subst L. rewrite Nat.add_0_r in Hk. done.
  - intros (Hk & Hl & Hk'). subst L. rewrite Nat.add_0_r. done.
Qed.

Lemma key_ok_cons x k L :
  key_ok (S L) (x :: k) ↔ (if bool_decide (L = 0)%nat then x = 16 else nibble x) ∧ key_ok L k.
Proof.
  unfold key_ok. rewrite seg_cons, Nat.add_0_r. cbn [length]. split.
  - intros (Hl & Hx & Hk). assert (length k = L) by lia. by subst L.
  - intros (Hx & Hl & Hk). by subst L.
Qed.

Lemma key_ok_nil : key_ok 0 [].
Proof. split; [done|]. intros ??; by rewrite lookup_nil. Qed.

Lemma key_ok_0 k : key_ok 0 k → k = [].
Proof. intros [H _]. by apply nil_length_inv. Qed.

Lemma prefixLen_split a b :
  ∃ c a' b', a = c ++ a' ∧ b = c ++ b' ∧ prefixLen a b = length c ∧ (a' = [] ∨ b' = [] ∨ head a' ≠ head b').
Proof.
  revert b; induction a as [|x a IH]; intros b.
  { exists [], [], b. split_and!; (done || by left). }
  destruct b as [|y b].
  { exists [], (x :: a), []. split_and!; (done || by right; left). }
  cbn [prefixLen].
  destruct (Z.eqb_spec x y) as [->|Hne].
  - destruct (IH b) as (c & a' & b' & -> & -> & E & Hd). rewrite E. by exists (y :: c), a', b'.
  - exists [], (x :: a), (y :: b). split_and!; try done. right. right. cbn. congruence.
Qed.

Lemma prefixLen_ne c x a y b : x ≠ y → prefixLen (c ++ x :: a) (c ++ y :: b) = length c.
Proof.
  intros Hne. induction c as [|z c IH]; cbn; [by rewrite (proj2 (Z.eqb_neq x y))|].
  rewrite Z.eqb_refl. by f_equal.
Qed.

Lemma prefixLen_app c a : prefixLen (c ++ a) c = length c.
Proof. induction c as [|z c IH]; cbn; [by destruct a|]. rewrite Z.eqb_refl. by f_equal. Qed.

(** ** Entries of a well-formed trie *)

Lemma has_key_ok L n k v : wf L n → has n k v → key_ok L k.
Proof.
  intros Hwf. revert k v. induction Hwf as [buf|key c L Hk Hs Hc Hwf IH|ch L Hl Htwo Hch IH]; intros k v Hh;
    inversion Hh; subst.
  - apply key_ok_nil.
  - rewrite key_ok_app. split; [done|]. by eapply IH.
  - rewrite key_ok_cons. rewrite bool_decide_eq_false_2 by lia. split; [|by eapply IH].
    match goal with H : ch !! _ = _ |- _ => apply lookup_lt_Some in H end. unfold nibble. lia.
Qed.

Lemma wf_nonempty L n : wf L n → ∃ k v, has n k v.
Proof.
  induction 1 as [buf|key c L Hk Hs Hc Hwf (k & v & IH)|ch L Hl (i & j & Hij & Hi & Hj) Hch IH].
  - eauto with trie.
  - eauto with trie.
  - destruct Hi as [c Hi]. destruct (ch !! i) as [c'|] eqn:E; [|done]. cbn in Hi. subst c'.
    destruct (IH i c E) as (k & v & Hh). eauto with trie.
Qed.

Lemma wf_0 n : wf 0 n → ∃ buf, n = ValueNode false buf.
Proof.
  inversion 1 as [buf|key c L Hk Hs Hc Hwf E|]; [eauto|]. destruct key; [done|]. cbn in E. lia.
Qed.

Lemma has_fun L n k v v' : wf L n → has n k v → has n k v' → v = v'.
Proof.
  intros Hwf. revert k. induction Hwf as [buf|key c L Hk Hs Hc Hwf IH|ch L Hl Htwo Hch IH]; intros k H1 H2;
    inversion H1; inversion H2; subst; try done.
  - match goal with H : _ ++ _ = _ ++ _ |- _ => apply app_inv_head in H; subst end. eauto.
  - simplify_eq. eauto.
Qed.

(** ** Lookup *)

Section operations.
Context `{TrieStorage}.

Lemma lookup_has L n k fuel :
  wf L n → key_ok L k → (L < fuel)%nat →
  ∃ r, lookup fuel (Some n) k = Some (false, r) ∧ ∀ v, r = Some v ↔ has n k v.
Proof.
  intros Hwf. revert k fuel.
  induction Hwf as [buf|key c L Hk Hs Hc Hwf IH|ch L Hl Htwo Hch IH]; intros k [|fuel] Hkey Hfuel; try lia.
  - apply key_ok_0 in Hkey as ->. exists (Some buf). split; [done|]. intros v. split.
    + intros [= ->]. constructor.
    + by inversion 1.
  - cbn [lookup]. destruct (decide (take (length key) k = key)) as [E|E].
    + rewrite <- (take_drop (length key) k), E in Hkey. rewrite key_ok_app in Hkey.
      destruct Hkey as [_ Hrest].
      assert (length key ≤ length k)%nat by (rewrite <- E at 1; rewrite length_take; lia).
      destruct (IH (drop (length key) k) fuel Hrest) as (r & Hr & Hiff).
      { destruct key; [done|]. cbn in Hfuel. lia. }
      exists r. rewrite bool_decide_eq_false_2, bool_decide_eq_true_2 by (done || lia). cbn. rewrite Hr.
      split; [done|]. intros v. rewrite Hiff. split.
      * intros Hh. rewrite <- (take_drop (length key) k), E. by constructor.
      * inversion 1; subst. by rewrite drop_app_length in *.
    + exists None. rewrite (bool_decide_eq_false_2 _ E), orb_true_r. split; [done|].
      intros v. split; [done|]. inversion 1; subst. by rewrite take_app_length in E.
  - destruct k as [|x k]; [by destruct Hkey|]. rewrite key_ok_cons in Hkey. destruct Hkey as [Hx Hk].
    rewrite bool_decide_eq_false_2 in Hx by lia. cbn [lookup]. unfold getEdge, nibble in *.
    rewrite (proj2 (Z.eqb_neq x 16)) by lia.
    destruct (lookup_lt_is_Some_2 ch (Z.to_nat x)) as [[c|] Hc]; [lia|..]; rewrite Hc.
    + destruct (IH _ _ Hc k fuel Hk) as (r & -> & Hiff); [lia|]. exists r. split; [done|].
      intros v. rewrite Hiff. split.
      * intros Hh. rewrite <- (Z2Nat.id x) by lia. by econstructor.
      * inversion 1; subst. rewrite Nat2Z.id in Hc. by simplify_eq.
    + exists None. destruct fuel; [lia|]. split; [done|]. intros v. split; [done|].
      inversion 1; subst. rewrite Nat2Z.id in Hc. by simplify_eq.
Qed.

(** ** Insert *)

(** The entries of [n'] are those of [n] with [v] at [k]. *)
Definition updated (n n' : node) (k v : list Z) : Prop :=
  ∀ k' v', has n' k' v' ↔ (k' = k ∧ v' = v) ∨ (k' ≠ k ∧ has n k' v').

Lemma has_short_iff key c k v :
  has (ShortNode key (Some c)) k v ↔ ∃ k', k = key ++ k' ∧ has c k' v.
Proof. split; [inversion 1; subst; eauto|]. intros (k' & -> & ?). by constructor. Qed.

Lemma has_full_iff ch k v :
  has (FullNode None ch) k v ↔ ∃ i c k', k = Z.of_nat i :: k' ∧ ch !! i = Some (Some c) ∧ has c k' v.
Proof. split; [inversion 1; subst; eauto 10|]. intros (i & c & k' & -> & ? & ?). by econstructor. Qed.

Lemma wf_leaf L k v : key_ok (S L) k → wf (S L) (ShortNode k (Some (newValue v))).
Proof.
  intros [Hl Hs]. rewrite <- Hl, <- (Nat.add_0_r (length k)). constructor; [by destruct k|done..|constructor].
Qed.

Lemma has_leaf k v k' v' : has (ShortNode k (Some (newValue v))) k' v' ↔ k' = k ∧ v' = v.
Proof.
  rewrite has_short_iff. split.
  - intros (r & -> & Hr). inversion Hr; subst. by rewrite app_nil_r.
  - intros [-> ->]. exists []. rewrite app_nil_r. split; [done|constructor].
Qed.

Lemma insert_leaf L k v fuel :
  key_ok (S L) k → (2 ≤ fuel)%nat → insert fuel None k v = Some (Some (ShortNode k (Some (newValue v)))).
Proof. intros [Hl _] Hf. destruct k; [done|]. by destruct fuel as [|[|fuel]]; try lia. Qed.

Lemma getEdge_nibble ch x : nibble x → getEdge None ch x = ch !! Z.to_nat x.
Proof. unfold nibble, getEdge. intros. by rewrite (proj2 (Z.eqb_neq x 16)) by lia. Qed.

Lemma setEdge_nibble ch x e :
  nibble x → length ch = 16%nat → setEdge None ch x e = Some (FullNode None (<[Z.to_nat x := e]> ch)).
Proof.
  unfold nibble, setEdge, zlen. intros ? ->. rewrite (proj2 (Z.eqb_neq x 16)) by lia.
  by rewrite (proj2 (Z.ltb_lt _ _)) by lia.
Qed.

Lemma insert_full ch x k v fuel :
  length ch = 16%nat → nibble x →
  insert (S fuel) (Some (FullNode None ch)) (x :: k) v =
    match insert fuel (default None (ch !! Z.to_nat x)) k v with
    | Some c => Some (Some (FullNode None (<[Z.to_nat x := c]> ch)))
    | None => None
    end.
Proof.
  intros Hl Hx. cbn [insert]. rewrite getEdge_nibble by done.
  destruct (lookup_lt_is_Some_2 ch (Z.to_nat x)) as [c Hc]; [unfold nibble in Hx; lia|]. rewrite Hc. cbn [default from_option id].
  destruct (insert fuel c k v); [|done]. by rewrite setEdge_nibble.
Qed.

(** Replacing one child of a branch by a trie with one more entry. *)
Lemma updated_full ch x k v c c' :
  length ch = 16%nat → nibble x → ch !! Z.to_nat x = Some c →
  (∀ k' v', has c' k' v' ↔ (k' = k ∧ v' = v) ∨ (k' ≠ k ∧ ∃ c0, c = Some c0 ∧ has c0 k' v')) →
  updated (FullNode None ch) (FullNode None (<[Z.to_nat x := Some c']> ch)) (x :: k) v.
Proof.
  unfold nibble. intros Hl Hx Hc Hiff k' v'. rewrite !has_full_iff. split.
  - intros (i & c0 & r & -> & Hi & Hr). destruct (decide (i = Z.to_nat x)) as [->|Hne].
    + rewrite list_lookup_insert_eq in Hi by lia. simplify_eq. rewrite Z2Nat.id by lia.
      apply Hiff in Hr as [[-> ->]|(Hr & c1 & -> & Hh)]; [by left|]. right. split; [congruence|].
      exists (Z.to_nat x), c1, r. by rewrite Z2Nat.id by lia.
    + rewrite list_lookup_insert_ne in Hi by done. right. split; [intros [= ??]; lia|]. eauto 10.
  - intros [[-> ->]|(Hne & i & c0 & r & -> & Hi & Hr)].
    + exists (Z.to_nat x), c', k. rewrite Z2Nat.id, list_lookup_insert_eq by lia. split_and!; try done.
      apply Hiff. by left.
    + destruct (decide (i = Z.to_nat x)) as [->|Hne'].
      * exists (Z.to_nat x), c', r. rewrite list_lookup_insert_eq by lia. split_and!; try done.
        apply Hiff. right. rewrite Hc in Hi. simplify_eq. split; [|by eauto]. intros ->.
        by rewrite Z2Nat.id in Hne by lia.
      * exists i, c0, r. by rewrite list_lookup_insert_ne by done.
Qed.

Lemma updated_short key c c' k v :
  updated c c' k v → updated (ShortNode key (Some c)) (ShortNode key (Some c')) (key ++ k) v.
Proof.
  intros Hupd k' v'. rewrite !has_short_iff. split.
  - intros (r & -> & Hr). apply Hupd in Hr as [[-> ->]|[Hne Hr]]; [by left|]. right.
    split; [by intros ?%app_inv_head|by eauto].
  - intros [[-> ->]|(Hne & r & -> & Hr)].
    + exists k. split; [done|]. apply Hupd. by left.
    + exists r. split; [done|]. apply Hupd. right. split; [congruence|done].
Qed.

Lemma updated_ext n1 n1' n2 n2' k v :
  (∀ k' v', has n1 k' v' ↔ has n2 k' v') → (∀ k' v', has n1' k' v' ↔ has n2' k' v') →
  updated n2 n2' k v → updated n1 n1' k v.
Proof. intros H1 H2 Hupd k' v'. by rewrite H1, H2, (Hupd k' v'). Qed.

Lemma has_short_app key key' c k v :
  has (ShortNode (key ++ key') (Some c)) k v ↔ has (ShortNode key (Some (ShortNode key' (Some c)))) k v.
Proof.
  rewrite !has_short_iff. setoid_rewrite has_short_iff. split.
  - intros (r & -> & ?). rewrite <- app_assoc. eauto.
  - intros (? & -> & r & -> & ?). rewrite app_assoc. eauto.
Qed.

(** Filling a slot of a branch keeps it well-formed. *)
Lemma wf_full_insert L ch i c :
  length ch = 16%nat → (i < 16)%nat →
  (∃ i j, i ≠ j ∧ is_Some (mjoin (ch !! i)) ∧ is_Some (mjoin (ch !! j))) →
  (∀ i c, ch !! i = Some (Some c) → wf (S L) c) → wf (S L) c →
  wf (S (S L)) (FullNode None (<[i := Some c]> ch)).
Proof.
  intros Hl Hi (p & q & Hpq & Hp & Hq) Hch Hc. constructor.
  - by rewrite length_insert.
  - exists p, q. split; [done|]. split; rewrite list_lookup_insert; case_decide; by eauto.
  - intros j c' Hj. apply list_lookup_insert_Some in Hj as [(_ & Hj & _)|(_ & Hj)]; [by simplify_eq|by eauto].
Qed.

(** What is left of an extension [b] below the branch that replaces its
    first symbol. *)
Definition rest (b : list Z) (c : node) : node :=
  match b with [] => c | _ => ShortNode b (Some c) end.

Lemma has_rest b c k v : has (rest b c) k v ↔ has (ShortNode b (Some c)) k v.
Proof. destruct b; [|done]. rewrite has_short_iff. cbn. split; [eauto|]. by intros (? & -> & ?). Qed.

Lemma wf_rest L b c : seg L b → is_short c = false → wf L c → wf (length b + L) (rest b c).
Proof. destruct b; [done|]. intros. by constructor. Qed.

(** The branch before the new entry goes in. *)
Definition branch (y : Z) (n : node) : list (option node) := <[Z.to_nat y := Some n]> (replicate 16 None).

Lemma has_branch y b c k v :
  nibble y → has (FullNode None (branch y (rest b c))) k v ↔ has (ShortNode (y :: b) (Some c)) k v.
Proof.
  unfold nibble, branch. intros Hy. rewrite has_full_iff, has_short_iff. split.
  - intros (i & c0 & r & -> & Hi & Hr). apply list_lookup_insert_Some in Hi as [(<- & Hi & _)|(_ & Hi)].
    + simplify_eq. rewrite has_rest, has_short_iff in Hr. destruct Hr as (r' & -> & ?).
      exists r'. by rewrite Z2Nat.id by lia.
    + by apply lookup_replicate in Hi as [? _].
  - intros (r & -> & Hr). exists (Z.to_nat y), (rest b c), (b ++ r).
    rewrite Z2Nat.id, list_lookup_insert_eq, has_rest, has_short_iff by (rewrite ?length_replicate; lia).
    by eauto.
Qed.

Lemma wf_branch M x y n n' :
  nibble x → nibble y → x ≠ y → wf (S M) n → wf (S M) n' →
  wf (S (S M)) (FullNode None (<[Z.to_nat x := Some n']> (branch y n))).
Proof.
  unfold nibble, branch. intros Hx Hy Hne Hn Hn'. constructor.
  - by rewrite !length_insert, length_replicate.
  - exists (Z.to_nat x), (Z.to_nat y). split; [lia|].
    rewrite (list_lookup_insert_eq _ (Z.to_nat x)) by (rewrite length_insert, length_replicate; lia).
    rewrite list_lookup_insert_ne, list_lookup_insert_eq by (rewrite ?length_replicate; lia). done.
  - intros i c Hi. apply list_lookup_insert_Some in Hi as [(_ & Hi & _)|(_ & Hi)]; [by simplify_eq|].
    apply list_lookup_insert_Some in Hi as [(_ & Hi & _)|(_ & Hi)]; [by simplify_eq|].
    by apply lookup_replicate in Hi as [? _].
Qed.

(** Splitting an extension: the two paths part at [x] and [y], neither of
    which is the terminator. *)
Lemma insert_split L cm x a y b c v fuel :
  x ≠ y → seg L (cm ++ y :: b) → key_ok (length (cm ++ y :: b) + L) (cm ++ x :: a) →
  is_short c = false → wf L c → (4 ≤ fuel)%nat →
  ∃ n', insert fuel (Some (ShortNode (cm ++ y :: b) (Some c))) (cm ++ x :: a) v = Some (Some n') ∧
    wf (length (cm ++ y :: b) + L) n' ∧
    updated (ShortNode (cm ++ y :: b) (Some c)) n' (cm ++ x :: a) v.
Proof.
  intros Hne Hseg Hkey Hc Hwf Hf. apply seg_app in Hseg as [Hcm Hyb].
  rewrite length_app, <- Nat.add_assoc, key_ok_app in Hkey. destruct Hkey as [_ Hxa].
  cbn [length Nat.add] in Hxa, Hcm. rewrite key_ok_cons in Hxa. destruct Hxa as [Hx Ha].
  rewrite seg_cons in Hyb. destruct Hyb as [Hy Hb].
  case_bool_decide as HM; [congruence|].
  destruct (length b + L)%nat as [|M] eqn:EM; [done|].
  destruct fuel as [|fuel]; [lia|]. cbn [insert].
  rewrite prefixLen_ne by done. rewrite length_app, drop_app_length, take_app_length. cbn [length].
  rewrite (proj2 (Nat.eqb_neq _ _)) by lia. rewrite list_lookup_middle by done.
  set (edge := if (_ <? _)%nat then _ else _). assert (edge = Some (rest b c)) as ->.
  { unfold edge. rewrite drop_app_add. destruct b; cbn [length rest drop].
    - by rewrite (proj2 (Nat.ltb_ge _ _)) by lia.
    - by rewrite (proj2 (Nat.ltb_lt _ _)) by lia. }
  rewrite setEdge_nibble by done. fold (branch y (rest b c)). destruct fuel as [|fuel]; [lia|].
  assert (branch y (rest b c) !! Z.to_nat x = Some None) as Ex.
  { unfold branch. unfold nibble in Hx, Hy. rewrite list_lookup_insert_ne by lia. apply lookup_replicate. split; [done|lia]. }
  rewrite insert_full, Ex by (done || apply length_insert). cbn [default from_option id].
  rewrite (insert_leaf M) by (done || lia).
  set (full := FullNode None _).
  assert (wf (S (S M)) full) as Hfull.
  { apply wf_branch; [done..| |by apply wf_leaf]. rewrite <- EM. by apply wf_rest. }
  assert (updated (ShortNode (y :: b) (Some c)) full (x :: a) v) as Hupd.
  { intros k' v'. rewrite <- has_branch by done. apply updated_full with None; [apply length_insert|done..|].
    intros k'' v''. rewrite has_leaf. split; [by left|]. by intros [?|(_ & ? & ? & _)]. }
  exists (rest cm full). split_and!.
  - by destruct cm.
  - rewrite <- Nat.add_assoc. cbn [Nat.add]. rewrite EM. by apply wf_rest.
  - apply updated_ext with (ShortNode cm (Some (ShortNode (y :: b) (Some c)))) (ShortNode cm (Some full)).
    + intros k' v'. apply has_short_app.
    + intros k' v'. apply has_rest.
    + by apply updated_short.
Qed.

Lemma insert_spec L n k v fuel :
  wf L n → key_ok L k → (L + 4 ≤ fuel)%nat →
  ∃ n', insert fuel (Some n) k v = Some (Some n') ∧ wf L n' ∧ updated n n' k v ∧
        (is_short n = false → is_short n' = false).
Proof.
  intros Hwf. revert k fuel.
  induction Hwf as [buf|key c L Hk Hs Hc Hwf IH|ch L Hl Htwo Hch IH]; intros k fuel Hkey Hfuel.
  - apply key_ok_0 in Hkey as ->. destruct fuel; [lia|]. exists (newValue v). split_and!; try done; [constructor|].
    intros k' v'. split.
    + inversion 1; auto.
    + intros [[-> ->]|[Hne Hh]]; [constructor|]. by inversion Hh; subst.
  - destruct (prefixLen_split k key) as (cm & a & b & -> & -> & _ & Hd). destruct b as [|y b].
    + rewrite app_nil_r in *. apply key_ok_app in Hkey as [_ Ha]. destruct fuel as [|fuel]; [lia|].
      destruct (IH a fuel Ha) as (c' & Hins & Hwf' & Hupd & Hsh).
      { destruct cm; [done|]. cbn in Hfuel. lia. }
      cbn [insert]. rewrite prefixLen_app, Nat.eqb_refl, drop_app_length, Hins.
      eexists. split; [done|]. split; [by constructor; auto|]. split; [by apply updated_short|done].
    + destruct a as [|x a].
      { destruct Hkey as [Hkey _]. rewrite !length_app in Hkey. cbn in Hkey. lia. }
      destruct Hd as [?|[?|Hd]]; [done..|]. cbn in Hd.
      destruct (insert_split L cm x a y b c v fuel) as (n' & Hins & Hwf' & Hupd); try done; [congruence|lia|].
      exists n'. done.
  - destruct k as [|x k]; [by destruct Hkey|]. rewrite key_ok_cons in Hkey. destruct Hkey as [Hx Hk].
    rewrite bool_decide_eq_false_2 in Hx by done. destruct fuel as [|fuel]; [lia|]. rewrite insert_full by done.
    destruct (lookup_lt_is_Some_2 ch (Z.to_nat x)) as [c Hc]; [unfold nibble in Hx; lia|]. rewrite Hc.
    cbn [default from_option id].
    assert (∃ c', insert fuel c k v = Some (Some c') ∧ wf (S L) c' ∧
      ∀ k' v', has c' k' v' ↔ (k' = k ∧ v' = v) ∨ (k' ≠ k ∧ ∃ c0, c = Some c0 ∧ has c0 k' v'))
      as (c' & -> & Hwf' & Hiff).
    { destruct c as [c|].
      - destruct (IH _ _ Hc k fuel Hk) as (c' & ? & ? & Hupd & _); [lia|]. exists c'. split_and!; try done.
        intros k' v'. rewrite (Hupd k' v'). naive_solver.
      - rewrite (insert_leaf L) by (done || lia). eexists. split_and!; [done|by apply wf_leaf|].
        intros k' v'. rewrite has_leaf. naive_solver. }
    eexists. split; [done|]. split; [|split; [by eapply updated_full|done]].
    apply wf_full_insert; try done. unfold nibble in Hx. lia.
Qed.

(** ** Delete *)

(** A path longer than those of the trie is not found, whichever way the
    comparison with an extension ends. *)
Lemma delete_long L n s fuel :
  wf L n → (L < length s)%nat → (L < fuel)%nat → Forall (λ x, 0 ≤ x ≤ 16) s →
  delete fuel (Some n) s = Some (None, false).
Proof.
  intros Hwf. revert s fuel.
  induction Hwf as [buf|key c L Hk Hs Hc Hwf IH|ch L Hl Htwo Hch IH]; intros s [|fuel] Hlen Hfuel Hs'; try lia.
  - by destruct s; [cbn in Hlen; lia|].
  - cbn [delete]. destruct (prefixLen_split s key) as (cm & a & b & -> & -> & -> & _).
    rewrite !length_app in *. rewrite (proj2 (Nat.eqb_neq _ _)) by lia.
    case_match; [done|]. rewrite drop_app_length, IH; [done|lia| |by apply Forall_app in Hs' as [_ ?]].
    rewrite Nat.eqb_neq in *. lia.
  - destruct s as [|x s]; [cbn in Hlen; lia|]. cbn in Hlen. inversion_clear Hs' as [|?? Hx Hs]. cbn [delete].
    destruct (decide (x = 16)) as [->|Hne]; [by destruct fuel; [lia|]|].
    rewrite getEdge_nibble by (unfold nibble; lia).
    destruct (lookup_lt_is_Some_2 ch (Z.to_nat x)) as [[c|] E]; [lia|..]; rewrite E.
    + rewrite (IH _ _ E) by (done || lia). done.
    + by destruct fuel; [lia|].
Qed.

Lemma key_ok_le L k : key_ok L k → Forall (λ x, 0 ≤ x ≤ 16) k.
Proof.
  intros [_ Hs]. apply Forall_lookup. intros i x Hi. specialize (Hs i x Hi). unfold nibble in Hs.
  case_match; lia.
Qed.

(** ** The scan of the children *)

Lemma scan_found i ch indx : indx ≠ -1 → scanChildren i ch indx = (indx, bool_decide (Exists is_Some ch)).
Proof.
  intros Hne. revert i. induction ch as [|[c|] ch IH]; intros i; cbn [scanChildren].
  - by rewrite bool_decide_eq_false_2 by (intros H'; inversion H').
  - rewrite (proj2 (Z.eqb_neq _ _)) by done. cbn. by rewrite bool_decide_eq_true_2 by (left; done).
  - rewrite IH. f_equal. apply bool_decide_ext. rewrite Exists_cons. unfold is_Some at 2. naive_solver.
Qed.

(** The scan finds no child, exactly one, or at least two. *)
Definition scan_result (ch : list (option node)) (r : Z * bool) (i : Z) : Prop :=
  (r = (-1, false) ∧ ∀ j c, ch !! j ≠ Some (Some c)) ∨
  (∃ p c, r = (i + Z.of_nat p, false) ∧ ch !! p = Some (Some c) ∧ ∀ j c', ch !! j = Some (Some c') → j = p) ∨
  (∃ x p q, r = (x, true) ∧ p ≠ q ∧ is_Some (mjoin (ch !! p)) ∧ is_Some (mjoin (ch !! q))).

Lemma scan_spec ch i : 0 ≤ i → scan_result ch (scanChildren i ch (-1)) i.
Proof.
  revert i. induction ch as [|[c|] ch IH]; intros i Hi; cbn [scanChildren].
  - left. split; [done|]. intros j c. by rewrite lookup_nil.
  - cbn [Z.eqb negb]. rewrite scan_found by lia. case_bool_decide as HE; right.
    + right. apply Exists_exists in HE as (o & Ho & c' & ->). apply list_elem_of_lookup in Ho as [j Hj].
      exists i, 0%nat, (S j). split_and!; [done|done|by eexists|].
      change (is_Some (mjoin (ch !! j))). rewrite Hj. by eexists.
    + left. exists 0%nat, c. split; [by rewrite Z.add_0_r|]. split; [done|]. intros [|j] c' Hj; [done|].
      destruct HE. apply Exists_exists. exists (Some c'). split; [|done]. by eapply list_elem_of_lookup_2.
  - destruct (IH (i + 1)) as [(-> & Hn)|[(p & c & -> & Hp & Hu)|(x & p & q & -> & Hpq & Hp & Hq)]]; [lia|..].
    + left. split; [done|]. intros [|j] c Hj; [done|]. by apply (Hn j c).
    + right. left. exists (S p), c. split; [f_equal; lia|]. split; [done|].
      intros [|j] c' Hj; [done|]. f_equal. by eapply Hu.
    + right. right. exists x, (S p), (S q). split_and!; (done || lia).
Qed.

Definition has_opt (r : option node) (k v : list Z) : Prop := ∃ n, r = Some n ∧ has n k v.
Definition wf_opt (L : nat) (r : option node) : Prop := ∀ n, r = Some n → wf L n.

Lemma has_opt_Some n k v : has_opt (Some n) k v ↔ has n k v.
Proof. unfold has_opt. naive_solver. Qed.

Lemma wf_cons_short L x c :
  nibble x → wf (S L) c → is_short c = false → wf (S (S L)) (ShortNode [x] (Some c)).
Proof.
  intros Hx Hc Hs. apply (wf_short [x]); try done. apply seg_cons. split; [done|]. intros ??. by rewrite lookup_nil.
Qed.

(** A branch that has lost a child, whatever is left of it, turns into a
    trie with the same entries. *)
Lemma shrink_spec L ch :
  length ch = 16%nat → (∀ i c, ch !! i = Some (Some c) → wf (S L) c) →
  ∃ r, shrink None ch = Some (r, true) ∧ wf_opt (S (S L)) r ∧ ∀ k v, has_opt r k v ↔ has (FullNode None ch) k v.
Proof.
  intros Hl Hch. unfold shrink.
  destruct (scan_spec ch 0) as [(-> & Hn)|[(p & c & -> & Hp & Hu)|(x & p & q & -> & Hpq & Hp & Hq)]]; [done|..].
  - exists None. split; [done|]. split; [done|]. intros k v. rewrite has_full_iff. unfold has_opt. naive_solver.
  - rewrite Z.add_0_l, bool_decide_eq_false_2, andb_false_r by (by intros [??]). cbn [orb].
    rewrite (proj2 (Z.eqb_neq _ _)), Nat2Z.id, Hp by lia. cbn [default from_option id].
    assert (nibble (Z.of_nat p)) as Hnp by (apply lookup_lt_Some in Hp; unfold nibble; lia).
    pose proof (Hch _ _ Hp) as Hwf.
    assert (∀ k v, has (FullNode None ch) k v ↔ has (ShortNode [Z.of_nat p] (Some c)) k v) as Heq.
    { intros k v. rewrite has_full_iff, has_short_iff. split.
      - intros (i & c' & r & -> & Hi & Hr). pose proof (Hu _ _ Hi) as ->. simplify_eq. by exists r.
      - intros (r & -> & Hr). by exists p, c, r. }
    destruct c as [h buf|key c|value ch'].
    + inversion Hwf.
    + inversion Hwf as [|? c' L' Hk Hs Hc Hwf' EL|]; subst. eexists. split; [done|]. split.
      * intros ? [= <-]. change (S (length key + L')) with (length (Z.of_nat p :: key) + L')%nat.
        constructor; try done. apply seg_cons. rewrite bool_decide_eq_false_2 by (destruct key; [done|cbn; lia]). done.
      * intros k v. rewrite Heq, <- has_short_app. cbn [app]. unfold has_opt. naive_solver.
    + eexists. split; [done|]. split.
      * intros ? [= <-]. by apply wf_cons_short.
      * intros k v. rewrite Heq. unfold has_opt. naive_solver.
  - cbn [orb]. eexists. split; [done|]. split.
    + intros ? [= <-]. constructor; try done. by eauto.
    + unfold has_opt. naive_solver.
Qed.

(** The entries of [r] are those of [n] without the one at [k]. *)
Definition removed (n : node) (r : option node) (k : list Z) : Prop :=
  ∀ k' v', has_opt r k' v' ↔ k' ≠ k ∧ has n k' v'.

(** The two outcomes of a deletion. *)
Definition delete_result (L : nat) (n : node) (k : list Z) (res : option node * bool) : Prop :=
  if res.2 then (∃ v, has n k v) ∧ wf_opt L res.1 ∧ removed n res.1 k else ∀ v, ¬ has n k v.

(** Removing an entry below an extension: [r] is what is left of the child
    and the result is rebuilt from it. *)
Lemma removed_short key c r r' k :
  removed c r k → (∀ k' v', has_opt r' k' v' ↔ ∃ r0, k' = key ++ r0 ∧ has_opt r r0 v') →
  removed (ShortNode key (Some c)) r' (key ++ k).
Proof.
  intros Hrem Hr' k' v'. rewrite Hr', has_short_iff. split.
  - intros (r0 & -> & Hh). apply Hrem in Hh as [Hne Hh]. split; [by intros ?%app_inv_head|by eauto].
  - intros (Hne & r0 & -> & Hh). exists r0. split; [done|]. apply Hrem. split; [congruence|done].
Qed.

(** The extension rebuilt over what is left of its child. *)
Definition extend (key : list Z) (r : option node) : option node :=
  match r with
  | None => None
  | Some (ShortNode skey sc) => Some (ShortNode (key ++ skey) sc)
  | Some n => Some (ShortNode key (Some n))
  end.

Lemma has_extend L key r k v :
  wf_opt L r → has_opt (extend key r) k v ↔ ∃ r0, k = key ++ r0 ∧ has_opt r r0 v.
Proof.
  intros Hwf. destruct r as [n|].
  - setoid_rewrite (has_opt_Some n). rewrite <- has_short_iff.
    destruct n as [h buf|skey sc|value ch]; cbn [extend]; rewrite ?has_opt_Some; [done| |done].
    specialize (Hwf _ eq_refl). inversion Hwf; subst. by rewrite has_short_app.
  - cbn. unfold has_opt. naive_solver.
Qed.

Lemma wf_extend L key r :
  key ≠ [] → seg L key → wf_opt L r → wf_opt (length key + L) (extend key r).
Proof.
  intros Hk Hs Hwf n Hn. destruct r as [m|]; [|done]. specialize (Hwf m eq_refl).
  destruct m as [h buf|skey sc|value ch]; cbn in Hn; simplify_eq; [by constructor| |by constructor].
  inversion Hwf as [|? c L' Hk' Hs' Hc Hwf' EL|]; subst. rewrite Nat.add_assoc, <- length_app.
  constructor; try done; [by destruct key|]. by apply seg_app.
Qed.

Lemma delete_extension L key c k fuel res :
  key ≠ [] → seg L key → is_short c = false → wf L c → k ≠ [] →
  delete fuel (Some c) k = Some res → delete_result L c k res →
  ∃ res', delete (S fuel) (Some (ShortNode key (Some c))) (key ++ k) = Some res' ∧
          delete_result (length key + L) (ShortNode key (Some c)) (key ++ k) res'.
Proof.
  intros Hkey Hs Hc Hwf Hk Hdel Hres. cbn [delete]. rewrite prefixLen_app, drop_app_length, Hdel, length_app.
  rewrite (proj2 (Nat.eqb_neq _ _)) by (destruct k; [done|cbn; lia]).
  rewrite (proj2 (Nat.eqb_neq _ _)) by (destruct key; [done|cbn; lia]).
  destruct res as [r [|]]; unfold delete_result in *; cbn [fst snd] in *.
  - destruct Hres as ((v & Hv) & Hr & Hrem). exists (extend key r, true). split; [by destruct r as [[]|]|].
    cbn [fst snd]. split_and!.
    + exists v. by constructor.
    + by apply wf_extend.
    + apply removed_short with (1 := Hrem). intros k' v'. by eapply has_extend.
  - exists (None, false). split; [by destruct r as [[]|]|]. intros v. cbn. rewrite has_short_iff.
    intros (r0 & ->%app_inv_head & Hh). by eapply Hres.
Qed.

(** Removing the only entry of a leaf. *)
Lemma delete_leaf cm buf fuel :
  ∃ res, delete (S fuel) (Some (ShortNode cm (Some (ValueNode false buf)))) (cm ++ []) = Some res ∧
         delete_result (length cm + 0) (ShortNode cm (Some (ValueNode false buf))) (cm ++ []) res.
Proof.
  exists (None, true). cbn [delete]. rewrite prefixLen_app, app_nil_r, Nat.eqb_refl. split; [done|].
  split_and!; cbn; try done.
  - exists buf. rewrite <- (app_nil_r cm) at 2. repeat constructor.
  - intros k' v'. unfold has_opt. rewrite (has_leaf cm buf). naive_solver.
Qed.

(** Paths that part inside an extension: the search goes on below the
    extension, with more symbols than any path there has. *)
Lemma delete_mismatch L cm x a y b c fuel :
  x ≠ y → key_ok (length (cm ++ y :: b) + L) (cm ++ x :: a) → wf L c → (L < fuel)%nat →
  ∃ res, delete (S fuel) (Some (ShortNode (cm ++ y :: b) (Some c))) (cm ++ x :: a) = Some res ∧
         delete_result (length (cm ++ y :: b) + L) (ShortNode (cm ++ y :: b) (Some c)) (cm ++ x :: a) res.
Proof.
  intros Hne Hkey Hwf Hfuel. exists (None, false). split.
  - cbn [delete]. rewrite prefixLen_ne, drop_app_length by done. pose proof (key_ok_le _ _ Hkey) as Hle.
    destruct Hkey as [Hlen _]. rewrite !length_app in *. cbn [length] in *.
    rewrite (proj2 (Nat.eqb_neq _ _)) by lia. case_match; [done|].
    rewrite (delete_long L); try done; [cbn; lia|]. by apply Forall_app in Hle as [_ ?].
  - intros v. cbn. rewrite has_short_iff. intros (r & E & _). rewrite <- app_assoc in E.
    apply app_inv_head in E. cbn in E. congruence.
Qed.

Lemma removed_full ch x k r c :
  length ch = 16%nat → nibble x → ch !! Z.to_nat x = Some (Some c) → removed c r k →
  ∀ k' v', has (FullNode None (<[Z.to_nat x := r]> ch)) k' v' ↔ k' ≠ x :: k ∧ has (FullNode None ch) k' v'.
Proof.
  unfold nibble. intros Hl Hx Hc Hrem k' v'. rewrite !has_full_iff. split.
  - intros (i & c' & r0 & -> & Hi & Hr). apply list_lookup_insert_Some in Hi as [(<- & -> & _)|(Hne & Hi)].
    + apply has_opt_Some, Hrem in Hr as [Hne Hr]. rewrite Z2Nat.id by lia. split; [congruence|].
      exists (Z.to_nat x), c, r0. by rewrite Z2Nat.id by lia.
    + split; [intros [= ??]; lia|]. by exists i, c', r0.
  - intros (Hne & i & c' & r0 & -> & Hi & Hr). destruct (decide (i = Z.to_nat x)) as [->|Hix].
    + rewrite Z2Nat.id in Hne by lia. rewrite Hc in Hi. simplify_eq.
      destruct (proj2 (Hrem r0 v')) as (n & -> & Hn); [split; [congruence|done]|].
      exists (Z.to_nat x), n, r0. by rewrite list_lookup_insert_eq by lia.
    + exists i, c', r0. by rewrite list_lookup_insert_ne by done.
Qed.

(** Removing an entry below a branch. *)
Lemma delete_branch L ch x k fuel c res :
  length ch = 16%nat → nibble x → (∀ i c, ch !! i = Some (Some c) → wf (S L) c) →
  ch !! Z.to_nat x = Some (Some c) →
  delete fuel (Some c) k = Some res → delete_result (S L) c k res →
  ∃ res', delete (S fuel) (Some (FullNode None ch)) (x :: k) = Some res' ∧
          delete_result (S (S L)) (FullNode None ch) (x :: k) res'.
Proof.
  intros Hl Hx Hch Hc Hdel Hres. cbn [delete]. rewrite getEdge_nibble, Hc, Hdel by done.
  destruct res as [r [|]]; unfold delete_result in *; cbn [fst snd] in *.
  - destruct Hres as ((v & Hv) & Hr & Hrem). rewrite setEdge_nibble by done.
    destruct (shrink_spec L (<[Z.to_nat x := r]> ch)) as (r' & -> & Hwf' & Hiff).
    { by rewrite length_insert. }
    { intros i c' Hi. apply list_lookup_insert_Some in Hi as [(_ & -> & _)|(_ & Hi)]; eauto. }
    exists (r', true). split; [done|]. cbn [fst snd]. split_and!; [|done|].
    + exists v. unfold nibble in Hx. rewrite <- (Z2Nat.id x) by lia. by econstructor.
    + intros k' v'. rewrite Hiff. by apply removed_full with c.
  - exists (None, false). split; [done|]. intros v Hh. apply has_full_iff in Hh as (i & c' & r0 & E & Hi & Hh).
    simplify_eq. rewrite Nat2Z.id in Hc. simplify_eq. by eapply Hres.
Qed.

Lemma delete_spec L n k fuel :
  wf L n → key_ok L k → (L < fuel)%nat →
  ∃ res, delete fuel (Some n) k = Some res ∧ delete_result L n k res.
Proof.
  intros Hwf. revert k fuel.
  induction Hwf as [buf|key c L Hk Hs Hc Hwf IH|ch L Hl Htwo Hch IH]; intros k [|fuel] Hkey Hfuel; try lia.
  - apply key_ok_0 in Hkey as ->. exists (None, true). split; [done|]. split_and!; cbn; try done.
    + exists buf. constructor.
    + intros k' v'. unfold has_opt. split; [naive_solver|]. intros [Hne Hh]. by inversion Hh; subst.
  - destruct (prefixLen_split k key) as (cm & a & b & -> & -> & _ & Hd). destruct b as [|y b].
    + rewrite app_nil_r in *. apply key_ok_app in Hkey as [_ Ha]. destruct a as [|x a].
      * destruct Ha as [E _]. cbn in E. subst L. apply wf_0 in Hwf as [buf ->]. apply delete_leaf.
      * destruct (IH (x :: a) fuel Ha) as (res & Hdel & Hres); [destruct cm; [done|cbn in Hfuel; lia]|].
        by eapply delete_extension.
    + destruct a as [|x a].
      { destruct Hkey as [Hkey _]. rewrite !length_app in Hkey. cbn in Hkey. lia. }
      destruct Hd as [?|[?|Hd]]; [done..|]. cbn in Hd. apply delete_mismatch; try done; [congruence|].
      rewrite length_app in Hfuel. cbn in Hfuel. lia.
  - destruct k as [|x k]; [by destruct Hkey|]. rewrite key_ok_cons in Hkey. destruct Hkey as [Hx Hk].
    rewrite bool_decide_eq_false_2 in Hx by done.
    destruct (lookup_lt_is_Some_2 ch (Z.to_nat x)) as [[c|] Hc]; [unfold nibble in Hx; lia|..].
    + destruct (IH _ _ Hc k fuel Hk) as (res & Hdel & Hres); [lia|]. by eapply delete_branch.
    + exists (None, false). cbn [delete]. rewrite getEdge_nibble, Hc by done. destruct fuel; [lia|].
      split; [done|]. intros v Hh. apply has_full_iff in Hh as (i & c' & r0 & E & Hi & Hh).
      simplify_eq. rewrite Nat2Z.id in Hc. simplify_eq.
Qed.

End operations.

(** ** The entries determine the trie *)

Definition same (n1 n2 : node) : Prop := ∀ k v, has n1 k v ↔ has n2 k v.

Lemma same_sym n1 n2 : same n1 n2 → same n2 n1.
Proof. intros H k v. by rewrite (H k v). Qed.

Lemma same_short key c c' : same (ShortNode key (Some c)) (ShortNode key (Some c')) → same c c'.
Proof.
  intros Hsame k v. specialize (Hsame (key ++ k) v). rewrite !has_short_iff in Hsame. split; intros Hh.
  - destruct (proj1 Hsame) as (k' & ->%app_inv_head & ?); [by eauto|done].
  - destruct (proj2 Hsame) as (k' & ->%app_inv_head & ?); [by eauto|done].
Qed.

(** The child of a branch holds what the branch holds below its symbol. *)
Lemma has_child ch i o k v : ch !! i = Some o → has (FullNode None ch) (Z.of_nat i :: k) v ↔ has_opt o k v.
Proof.
  intros Hi. rewrite has_full_iff. unfold has_opt. split.
  - intros (j & c & r & E & Hj & Hr). simplify_eq. by exists c.
  - intros (c & -> & Hc). by exists i, c, k.
Qed.

(** A branch has paths with different first symbols, an extension does not. *)
Lemma full_heads L ch x :
  wf L (FullNode None ch) → ∃ y k v, y ≠ x ∧ has (FullNode None ch) (y :: k) v.
Proof.
  inversion 1 as [| |? L' Hl (i & j & Hij & [ci Hi] & [cj Hj]) Hch]; subst.
  destruct (ch !! i) as [o|] eqn:Ei; [cbn in Hi; subst o|done].
  destruct (ch !! j) as [o|] eqn:Ej; [cbn in Hj; subst o|done].
  destruct (wf_nonempty _ _ (Hch _ _ Ei)) as (ki & vi & Hki).
  destruct (wf_nonempty _ _ (Hch _ _ Ej)) as (kj & vj & Hkj).
  destruct (decide (Z.of_nat i = x)) as [<-|Hne].
  - exists (Z.of_nat j), kj, vj. split; [lia|]. by econstructor.
  - exists (Z.of_nat i), ki, vi. split; [done|]. by econstructor.
Qed.

Lemma not_same_full L ch x key c : wf L (FullNode None ch) → ¬ same (FullNode None ch) (ShortNode (x :: key) (Some c)).
Proof.
  intros Hwf Hsame. destruct (full_heads _ _ x Hwf) as (y & k & v & Hne & Hh).
  apply Hsame, has_short_iff in Hh as (r & E & _). cbn in E. congruence.
Qed.

(** Two extensions with the same entries have the same key. *)
Lemma short_key_prefix L L' key key' c c' :
  wf L (ShortNode key (Some c)) → wf L' (ShortNode key' (Some c')) → 
  same (ShortNode key (Some c)) (ShortNode key' (Some c')) → L = L' → key' `prefix_of` key.
Proof.
  intros H1 H2 Hsame EL. destruct (prefixLen_split key key') as (cm & a & b & -> & -> & _ & Hd).
  destruct b as [|y b]; [rewrite app_nil_r; by apply prefix_app_r|]. exfalso.
  destruct (wf_nonempty _ _ H1) as (k & v & Hh). pose proof (proj1 (Hsame _ _) Hh) as Hh'.
  apply has_short_iff in Hh as (r & -> & Hr), Hh' as (r' & E & _).
  rewrite <- !app_assoc in E. apply app_inv_head in E. destruct a as [|x a].
  - rewrite app_nil_r in H1, Hsame. assert (same c (ShortNode (y :: b) (Some c'))) as Hc.
    { apply same_short with cm. intros k' v'. by rewrite (Hsame k' v'), has_short_app. }
    inversion H1 as [|? ? M Hk1 Hs1 Hc1 Hwf1 EL1|]; inversion H2 as [|? ? M' Hk2 Hs2 Hc2 Hwf2 EL2|]; subst.
    inversion Hwf1; subst; [|done|by eapply not_same_full].
    rewrite length_app in EL2. cbn in EL2. lia.
  - destruct Hd as [?|[?|Hd]]; [done..|]. cbn in E, Hd. congruence.
Qed.

Lemma wf_unique L n1 n2 : wf L n1 → wf L n2 → same n1 n2 → n1 = n2.
Proof.
  intros H1. revert n2. induction H1 as [buf|key c L Hk Hs Hc Hwf IH|ch L Hl Htwo Hch IH]; intros n2 H2 Hsame.
  - apply wf_0 in H2 as [buf' ->]. destruct (Hsame [] buf) as [Hh _]. 
    assert (has (ValueNode false buf') [] buf) as H' by (apply Hh; constructor). by inversion H'.
  - assert (wf (length key + L) (ShortNode key (Some c))) as H1 by by constructor.
    inversion H2 as [buf E|key' c' L' Hk' Hs' Hc' Hwf' E|ch' L' Hl' Htwo' Hch' E]; subst.
    + destruct key; [done|]. cbn in E. lia.
    + assert (key' = key) as ->.
      { apply (anti_symm prefix); [eapply short_key_prefix; [exact H1|exact H2|done|done]|].
        eapply short_key_prefix; [exact H2|exact H1|by apply same_sym|done]. }
      assert (L' = L) as -> by lia. do 2 f_equal. apply IH; [done|]. by apply same_short with key.
    + destruct key as [|x key]; [done|]. exfalso. eapply not_same_full; [exact H2|by apply same_sym].
  - assert (wf (S (S L)) (FullNode None ch)) as H1 by by constructor.
    inversion H2 as [|key' c' L' Hk' Hs' Hc' Hwf' E|ch' L' Hl' Htwo' Hch' E]; subst.
    + exfalso. destruct key' as [|x key']; [done|]. by eapply not_same_full.
    + f_equal. apply list_eq_same_length with 16%nat; [done..|]. intros i o1 o2 _ Ho1 Ho2.
      assert (∀ k v, has_opt o1 k v ↔ has_opt o2 k v) as Ho.
      { intros k v. by rewrite <- (has_child ch i), <- (has_child ch' i). }
      destruct o1 as [c1|], o2 as [c2|]; [| | |done].
      * f_equal. eapply IH; [done|by eauto|]. intros k v. by rewrite <- !has_opt_Some.
      * destruct (wf_nonempty _ _ (Hch _ _ Ho1)) as (k & v & Hh). by apply has_opt_Some, Ho in Hh as (? & ? & _).
      * destruct (wf_nonempty _ _ (Hch' _ _ Ho2)) as (k & v & Hh). by apply has_opt_Some, Ho in Hh as (? & ? & _).
Qed.
