(* ===== verification/TrieProps.v ===== *)
(** * Correctness of the Merkle trie

    The compact encoding of a path is undone by its decoding. On keys of one
    length, the case of the account and storage tries, whose keys are
    hashes, a trie refines a finite map, and its shape is a function of that
    map alone. *)

From stdpp Require Import gmap.
From S2P Require Import Prelude Trie TrieMap.
#[local] Open Scope Z_scope.

(** ** The compact encoding *)

Lemma packed_byte a b : nibble a → nibble b → Z.lor (Z.shiftl a 4 mod 256) b = 16 * a + b.
Proof.
  unfold nibble. intros Ha Hb. rewrite Z.shiftl_mul_pow2 by lia. change (2 ^ 4) with 16.
  rewrite Z.mod_small by lia. rewrite <- Z.add_nocarry_lor; [lia|].
  change (a * 16) with (a * 2 ^ 4). rewrite <- Z.shiftl_mul_pow2 by lia.
  apply Z.bits_inj'. intros n Hn. rewrite Z.land_spec, Z.bits_0.
  destruct (Z.lt_ge_cases n 4) as [H|H].
  - by rewrite Z.shiftl_spec_low.
  - rewrite <- (Z.mod_small b (2 ^ 4)) by lia. rewrite Z.mod_pow2_bits_high by lia. apply andb_false_r.
Qed.

Lemma splitBytes_cons x b : splitBytes (x :: b) = x / 16 :: x mod 16 :: splitBytes b.
Proof. done. Qed.

Lemma split_pack l :
  Forall nibble l → Nat.Even (length l) → splitBytes (packNibbles l) = l.
Proof.
  induction l as [l IH] using (induction_ltof1 _ (@length Z)). unfold ltof in IH.
  intros Hl He. destruct l as [|a [|b l]]; [done| |].
  - destruct He as [m He]. cbn in He. lia.
  - inversion_clear Hl as [|?? Ha Hl']. inversion_clear Hl' as [|?? Hb Hl].
    cbn [packNibbles]. rewrite packed_byte, splitBytes_cons by done. unfold nibble in Ha, Hb.
    f_equal; [|f_equal]; [Z.div_mod_to_equations; lia..|].
    apply IH; [cbn; lia|done|]. destruct He as [m He]. exists (m - 1)%nat. cbn in He. lia.
Qed.

Lemma length_splitBytes b : length (splitBytes b) = (2 * length b)%nat.
Proof. induction b as [|x b IH]; [done|]. rewrite splitBytes_cons. cbn [length]. lia. Qed.

Lemma last_snoc_ne (l : list Z) : Forall nibble l → hasTerminator l = false.
Proof.
  intros Hl. unfold hasTerminator. destruct (last l) as [x|] eqn:E; [|done].
  apply last_Some in E as [l' ->]. apply Forall_app in Hl as [_ Hx]. inversion_clear Hx as [|?? Hn].
  apply Z.eqb_neq. unfold nibble in Hn. lia.
Qed.

Lemma take_snoc (l : list Z) x : take (length (l ++ [x]) - 1) (l ++ [x]) = l.
Proof. rewrite length_app. cbn. rewrite Nat.add_sub. by rewrite take_app_length. Qed.

(** The body shared by both kinds of path: [t] says whether there is a
    terminator. *)
Lemma decode_packed (l : list Z) (t : bool) :
  Forall nibble l →
  let odd := zlen l mod 2 in
  let flag := 2 * Z.b2z t + odd in
  decodeCompact (packNibbles (if odd =? 1 then flag :: l else flag :: 0 :: l))
  = Some (if t then l ++ [16] else l).
Proof.
  intros Hl. cbv zeta.
  pose proof (Z.div_mod (zlen l) 2) as Hm. pose proof (Z.mod_pos_bound (zlen l) 2) as Hodd.
  remember (zlen l / 2) as m eqn:Em. remember (zlen l mod 2) as odd eqn:Eo. clear Em Eo.
  assert (odd = 0 ∨ odd = 1) as Ho by lia. clear Hodd.
  assert (nibble (2 * Z.b2z t + odd)) as Hf by (unfold nibble; destruct t; cbn [Z.b2z]; lia).
  unfold decodeCompact, bytesToHexNibbles. unfold zlen in Hm.
  rewrite split_pack.
  - destruct Ho as [-> | ->]; destruct t; cbn -[take drop length Nat.sub]; try done;
      rewrite ?app_comm_cons, take_snoc; done.
  - destruct Ho as [-> | ->]; cbn [Z.eqb Pos.eqb]; repeat apply Forall_cons_2; try done; unfold nibble; lia.
  - destruct Ho as [-> | ->]; cbn; exists (Z.to_nat (m + 1)); lia.
Qed.

(** A path of nibbles, with the terminator at its end or without. *)
Definition path (hex : list Z) : Prop := ∃ l (t : bool), Forall nibble l ∧ hex = if t then l ++ [16] else l.

(** The compact encoding of a path of a trie node is undone by
    [decodeCompact]: the nibbles come back in order, and the terminator is
    there exactly when the path had one, for paths of even and of odd
    length. *)
Lemma compact_roundtrip (hex : list Z) :
  path hex → decodeCompact (encodeCompact hex) = Some hex.
Proof.
  intros (l & t & Hl & ->). unfold encodeCompact. destruct t.
  - unfold hasTerminator. rewrite last_snoc. cbn [Z.eqb Pos.eqb]. rewrite take_snoc.
    apply (decode_packed l true Hl).
  - rewrite last_snoc_ne by done. apply (decode_packed l false Hl).
Qed.

(** ** Keys *)

Lemma pack_split b : bytes_ok b → packNibbles (splitBytes b) = b.
Proof.
  induction 1 as [|x b Hx Hb IH]; [done|]. rewrite splitBytes_cons. cbn [packNibbles]. unfold byte_ok in Hx.
  rewrite packed_byte, IH by (unfold nibble; Z.div_mod_to_equations; lia). f_equal. Z.div_mod_to_equations; lia.
Qed.

Lemma splitBytes_nibbles b : bytes_ok b → Forall nibble (splitBytes b).
Proof.
  induction 1 as [|x b Hx Hb IH]; [constructor|]. rewrite splitBytes_cons. unfold byte_ok in Hx.
  repeat apply Forall_cons_2; [..|done]; unfold nibble; Z.div_mod_to_equations; lia.
Qed.

Lemma packNibbles_ok l : Forall nibble l → bytes_ok (packNibbles l).
Proof.
  induction l as [l IH] using (induction_ltof1 _ (@length Z)). unfold ltof in IH.
  destruct l as [|a [|b l]]; intros Hl; [constructor..|].
  inversion_clear Hl as [|?? Ha Hl']. inversion_clear Hl' as [|?? Hb Hl].
  cbn [packNibbles]. rewrite packed_byte by done. unfold nibble in *. constructor; [unfold byte_ok; lia|].
  apply IH; [cbn; lia|done].
Qed.

Lemma seg_nibbles M l : seg (S M) l ↔ Forall nibble l.
Proof.
  induction l as [|x l IH].
  - split; [by constructor|]. intros _ ??. by rewrite lookup_nil.
  - rewrite seg_cons, Forall_cons, IH. rewrite bool_decide_eq_false_2 by lia. done.
Qed.

Lemma key_ok_nibbles N l : key_ok (2 * N + 1) (l ++ [16]) ↔ length l = (2 * N)%nat ∧ Forall nibble l.
Proof.
  unfold key_ok. rewrite seg_app, length_app, (seg_nibbles 0). cbn [length].
  assert (seg 0 [16]) by (apply seg_cons; split; [done|]; intros ??; by rewrite lookup_nil).
  split; [intros (? & ? & ?)|intros (? & ?)]; repeat split; try done; lia.
Qed.

(** The keys of length [N] are the paths of length [2N+1]. *)
Lemma nibbles_key_ok N key : bytes_ok key → length key = N → key_ok (2 * N + 1) (bytesToHexNibbles key).
Proof.
  intros Hb <-. apply key_ok_nibbles. rewrite length_splitBytes. by split; [|apply splitBytes_nibbles].
Qed.

Lemma key_ok_bytes N k :
  key_ok (2 * N + 1) k → ∃ key, bytes_ok key ∧ length key = N ∧ k = bytesToHexNibbles key.
Proof.
  intros Hk. destruct (decide (k = [])) as [->|Hne]; [by destruct Hk as [? _]; cbn in *; lia|].
  destruct k as [|x l _] using rev_ind; [done|].
  assert (x = 16) as ->.
  { destruct Hk as [_ Hs]. specialize (Hs (length l) x). rewrite list_lookup_middle in Hs by done.
    specialize (Hs eq_refl). rewrite bool_decide_eq_true_2 in Hs by (rewrite length_app; cbn; lia). done. }
  apply key_ok_nibbles in Hk as [Hl Hn]. exists (packNibbles l).
  assert (splitBytes (packNibbles l) = l) as E by (apply split_pack; [done|by exists N]).
  split; [by apply packNibbles_ok|]. unfold bytesToHexNibbles. rewrite E. split; [|done].
  pose proof (length_splitBytes (packNibbles l)) as E'. rewrite E in E'. lia.
Qed.

Lemma nibbles_inj key key' :
  bytes_ok key → bytes_ok key' → bytesToHexNibbles key = bytesToHexNibbles key' → key = key'.
Proof.
  intros H H' E. unfold bytesToHexNibbles in E. apply app_inj_tail in E as [E _].
  by rewrite <- (pack_split key), <- (pack_split key'), E.
Qed.

(** ** Refinement of a finite map *)

(** The trie at [root] holds the entries of [m], whose keys have [N] bytes. *)
Definition refines (N : nat) (root : option node) (m : gmap (list Z) (list Z)) : Prop :=
  wf_opt (2 * N + 1) root ∧
  (∀ key v, m !! key = Some v → bytes_ok key ∧ length key = N) ∧
  (∀ key v, bytes_ok key → length key = N → has_opt root (bytesToHexNibbles key) v ↔ m !! key = Some v).

Lemma refines_empty N : refines N None ∅.
Proof. split_and!; [done|done|]. intros key v _ _. rewrite lookup_empty. by split; [intros (? & ? & _)|]. Qed.

Section trie_map.
Context `{TrieStorage}.
Context (N fuel : nat) (Hfuel : (2 * N + 5 ≤ fuel)%nat).

Lemma Lookup_refines root m key :
  refines N root m → bytes_ok key → length key = N → Lookup fuel root key = Some (m !! key).
Proof.
  intros (Hwf & _ & Hiff) Hb Hl. unfold Lookup. destruct root as [n|].
  - destruct (lookup_has (2 * N + 1) n (bytesToHexNibbles key) fuel) as (r & -> & Hr);
      [by apply Hwf|by apply nibbles_key_ok|lia|]. cbn. f_equal. apply option_eq. intros v.
    by rewrite Hr, <- Hiff, has_opt_Some.
  - destruct fuel; [lia|]. cbn. f_equal. symmetry. apply eq_None_not_Some. intros [v Hv].
    by apply Hiff in Hv as (? & ? & _).
Qed.

Lemma Insert_refines root m key v :
  refines N root m → bytes_ok key → length key = N →
  ∃ root', Insert fuel root key v = Some root' ∧ refines N root' (<[key := v]> m).
Proof.
  intros (Hwf & Hdom & Hiff) Hb Hl. pose proof (nibbles_key_ok _ _ Hb Hl) as Hk. unfold Insert.
  assert (∃ n', insert fuel root (bytesToHexNibbles key) v = Some (Some n') ∧ wf (2 * N + 1) n' ∧
    ∀ k' v', has n' k' v' ↔ (k' = bytesToHexNibbles key ∧ v' = v) ∨ (k' ≠ bytesToHexNibbles key ∧ has_opt root k' v'))
    as (n' & -> & Hwf' & Hupd).
  { destruct root as [n|].
    - destruct (insert_spec (2 * N + 1) n _ v fuel (Hwf n eq_refl) Hk) as (n' & ? & ? & Hu & _); [lia|].
      exists n'. split_and!; try done. intros k' v'. by rewrite has_opt_Some.
    - rewrite (insert_leaf (2 * N)) by (rewrite ?Nat.add_1_r in Hk; done || lia). eexists. split; [done|].
      rewrite Nat.add_1_r in *. split; [by apply wf_leaf|]. intros k' v'. rewrite has_leaf.
      split; [by left|]. intros [?|(_ & ? & ? & _)]; done. }
  eexists. split; [done|]. split_and!.
  - intros ? [= <-]. done.
  - intros key' v' Hkv. apply lookup_insert_Some in Hkv as [[<- _]|[_ Hkv]]; [done|by eauto].
  - intros key' v' Hb' Hl'. rewrite has_opt_Some, Hupd, Hiff, lookup_insert_Some by done. split.
    + intros [[->%nibbles_inj ->]|[Hne ?]]; auto. right. split; [congruence|done].
    + intros [[-> ->]|[Hne ?]]; [by left|]. right. split; [|done]. intros E%nibbles_inj; done.
Qed.

Lemma Delete_refines root m key :
  refines N root m → bytes_ok key → length key = N →
  ∃ root', Delete fuel root key = Some root' ∧ refines N root' (base.delete key m).
Proof.
  intros (Hwf & Hdom & Hiff) Hb Hl. pose proof (nibbles_key_ok _ _ Hb Hl) as Hk. unfold Delete.
  assert (delete fuel root (bytesToHexNibbles key) = Some (None, false) ∧ root = None ∨
    ∃ n res, root = Some n ∧ delete fuel (Some n) (bytesToHexNibbles key) = Some res ∧
      delete_result (2 * N + 1) n (bytesToHexNibbles key) res) as [(-> & ->)|(n & [r ok] & -> & -> & Hres)].
  { destruct root as [n|]; [right|by left; destruct fuel; [lia|]].
    destruct (delete_spec (2 * N + 1) n _ fuel (Hwf n eq_refl) Hk) as (res & ? & ?); [lia|]. by eauto. }
  - exists None. split; [done|]. rewrite delete_id; [done|]. apply eq_None_not_Some. intros [v Hv].
    by apply Hiff in Hv as (? & ? & _).
  - unfold delete_result in Hres. destruct ok; cbn [fst snd] in Hres.
    + destruct Hres as (_ & Hwf' & Hrem). exists r. split; [done|]. split_and!; [done|..].
      * intros key' v' [_ Hkv]%lookup_delete_Some. by eauto.
      * intros key' v' Hb' Hl'. rewrite (Hrem _ v'), <- has_opt_Some, Hiff, lookup_delete_Some by done.
        split; intros [Hne ?]; (split; [|done]); [congruence|]. intros E%nibbles_inj; done.
    + exists (Some n). split; [done|]. rewrite delete_id; [done|]. apply eq_None_not_Some. intros [v Hv].
      apply Hiff in Hv; [|done..]. apply has_opt_Some in Hv. by eapply Hres.
Qed.
End trie_map.

(** Tries with the same entries are equal. *)
Lemma refines_unique N root root' m : refines N root m → refines N root' m → root = root'.
Proof.
  intros (Hwf & _ & Hiff) (Hwf' & _ & Hiff').
  assert (∀ r, wf_opt (2 * N + 1) r → ∀ k v, has_opt r k v → key_ok (2 * N + 1) k) as Hok.
  { intros r Hr k v (n & -> & Hh). eapply has_key_ok; [by apply Hr|done]. }
  assert (∀ k v, has_opt root k v ↔ has_opt root' k v) as Hsame.
  { intros k v. split; intros Hh; (destruct (key_ok_bytes N k) as (key & ? & ? & ->); [by eapply Hok, Hh|]).
    - apply Hiff', Hiff; done.
    - apply Hiff, Hiff'; done. }
  destruct root as [n|], root' as [n'|]; [| | |done].
  - f_equal. eapply wf_unique; [by apply Hwf|by apply Hwf'|]. intros k v. by rewrite <- !has_opt_Some.
  - destruct (wf_nonempty _ _ (Hwf n eq_refl)) as (k & v & Hh). by apply has_opt_Some, Hsame in Hh as (? & ? & _).
  - destruct (wf_nonempty _ _ (Hwf' n' eq_refl)) as (k & v & Hh). by apply has_opt_Some, Hsame in Hh as (? & ? & _).
Qed.

(** ** Sequences of operations *)

Inductive trie_op :=
  | Put (key value : list Z)
  | Del (key : list Z).

Definition op_key (o : trie_op) : list Z := match o with Put key _ | Del key => key end.

Definition run_op `{TrieStorage} (fuel : nat) (root : option node) (o : trie_op) : option (option node) :=
  match o with
  | Put key value => Insert fuel root key value
  | Del key => Delete fuel root key
  end.

Fixpoint run_ops `{TrieStorage} (fuel : nat) (root : option node) (ops : list trie_op) : option (option node) :=
  match ops with
  | [] => Some root
  | o :: ops => match run_op fuel root o with Some root => run_ops fuel root ops | None => None end
  end.

(** The same operations on a finite map. *)
Definition map_op (m : gmap (list Z) (list Z)) (o : trie_op) : gmap (list Z) (list Z) :=
  match o with
  | Put key value => <[key := value]> m
  | Del key => base.delete key m
  end.

Definition keys_ok (N : nat) (ops : list trie_op) : Prop :=
  Forall (λ o, bytes_ok (op_key o) ∧ length (op_key o) = N) ops.

Lemma run_ops_refines `{TrieStorage} N fuel ops root m :
  (2 * N + 5 ≤ fuel)%nat → keys_ok N ops → refines N root m →
  ∃ root', run_ops fuel root ops = Some root' ∧ refines N root' (foldl map_op m ops).
Proof.
  intros Hf Hops. revert root m. induction Hops as [|o ops [Hb Hl] _ IH]; intros root m Href; [by eauto|].
  assert (∃ r, run_op fuel root o = Some r ∧ refines N r (map_op m o)) as (r & Hr & Href').
  { destruct o; [by apply Insert_refines|by apply Delete_refines]. }
  cbn [run_ops]. rewrite Hr. by apply IH.
Qed.

(** C2. A trie with keys of one length behaves as a finite map, operation by
    operation: [Insert] and [Delete] succeed and act on the entries as on
    the map, and [Lookup] returns what the map holds. Depth is bounded by
    the key: twice its length plus five recursive calls are enough. *)
Theorem trie_refines_map `{TrieStorage} N fuel root m key value :
  (2 * N + 5 ≤ fuel)%nat → refines N root m → bytes_ok key → length key = N →
  Lookup fuel root key = Some (m !! key) ∧
  (∃ root', Insert fuel root key value = Some root' ∧ refines N root' (<[key := value]> m)) ∧
  (∃ root', Delete fuel root key = Some root' ∧ refines N root' (base.delete key m)).
Proof.
  intros Hf Href Hb Hl. split_and!;
    [by apply Lookup_refines with N|by apply Insert_refines|by apply Delete_refines].
Qed.

(** A storage with no nodes. *)
#[export] Instance no_storage : TrieStorage := {| GetNode := λ _, Some None |}.

Lemma trie_refines_map_witness :
  Lookup 9 None [18; 52] = Some None ∧
  ∃ root', Insert 9 None [18; 52] [7] = Some root' ∧ refines 2 root' {[ [18; 52] := [7] ]}.
Proof.
  destruct (trie_refines_map 2 9 None ∅ [18; 52] [7]) as (H1 & H2 & _).
  - lia.
  - apply refines_empty.
  - repeat constructor; unfold byte_ok; lia.
  - reflexivity.
  - split; [exact H1|exact H2].
Defined.

Definition demo_ops : list trie_op :=
  [Put [18; 52] [1]; Put [18; 86] [2]; Put [33; 0] [3]; Del [18; 52]; Put [18; 86] [4]].

Lemma demo_ops_ok : keys_ok 2 demo_ops.
Proof. repeat constructor; unfold byte_ok; cbn; lia. Qed.

(** C6. The trie, and with it the root hash computed from its nodes, depends
    only on the entries: two sequences of operations that leave the same
    entries leave the very same nodes, in whatever order and through
    whatever intermediate tries they went. *)
Theorem trie_canonical `{TrieStorage} N fuel ops ops' :
  (2 * N + 5 ≤ fuel)%nat → keys_ok N ops → keys_ok N ops' → foldl map_op ∅ ops = foldl map_op ∅ ops' →
  run_ops fuel None ops = run_ops fuel None ops' ∧ is_Some (run_ops fuel None ops).
Proof.
  intros Hf H1 H2 E.
  destruct (run_ops_refines N fuel ops None ∅) as (r1 & -> & Href1); [done..|apply refines_empty|].
  destruct (run_ops_refines N fuel ops' None ∅) as (r2 & -> & Href2); [done..|apply refines_empty|].
  rewrite E in Href1. by rewrite (refines_unique N r1 r2 _ Href1 Href2).
Qed.

Lemma trie_canonical_witness :
  run_ops 9 None demo_ops = run_ops 9 None [Put [33; 0] [3]; Put [18; 86] [4]] ∧
  is_Some (run_ops 9 None demo_ops).
Proof.
  apply (trie_canonical 2).
  - lia.
  - apply demo_ops_ok.
  - repeat constructor; unfold byte_ok; cbn; lia.
  - vm_compute. reflexivity.
Defined.

(** Keys of different lengths break deletion: removing the absent key
    0x1234 removes the entry of 0x156234, because the search continues below
    an extension it has left. The other entry stays. *)
Theorem delete_mixed_lengths `{TrieStorage} :
  let ops := [Put [21; 98; 52] [1]; Put [21; 103; 137] [2]] in
  (∃ root, run_ops 12 None ops = Some root ∧
     Lookup 12 root [18; 52] = Some None ∧ Lookup 12 root [21; 98; 52] = Some (Some [1])) ∧
  (∃ root, run_ops 12 None (ops ++ [Del [18; 52]]) = Some root ∧
     Lookup 12 root [21; 98; 52] = Some None ∧ Lookup 12 root [21; 103; 137] = Some (Some [2])).
Proof. split; (eexists; split; [reflexivity|]); split; reflexivity. Qed.
