(* ===== verification/Parallel.v ===== *)
(** * Parallel execution of transactions (parallel/parallel_executor.go)

    The executor sorts transactions into groups without conflicting accesses
    and hands one group after the other to an accelerator, which runs the
    members of a group concurrently. [conflicts] compares pointers, so a
    [*ParallelTx] is kept with its address; nil is [None]. The concurrency of
    [executeBatchCPU] is a step relation over the goroutines, and the
    definition [executeBatchCPU] is what every one of its schedules leaves in
    the results. The package accelerator.go declares the same names again and
    is not modelled. [Transaction.Hash()] and [Hash.Hex()], which the package
    types does not declare, are the parameters of [TransactionMethods]. *)

From Stdlib Require Import String.
From stdpp Require Import gmap.
From S2P Require Import Prelude Types Rlp BlockTypes Hex Result.
#[local] Open Scope Z_scope.

Class TransactionMethods := {
  Transaction_Hash : Transaction → Hash;
  Hash_Hex : Hash → list Z;
}.

(** ** Transactions with declared accesses *)

(** A pointer that is not nil: its address and what it points to. *)
Record pointer (A : Type) := Ptr { address : Z; deref : A }.
Arguments Ptr {A} _ _.
Arguments address {A} _.
Arguments deref {A} _.

Record ParallelTx := mkParallelTx {
  ptTx : option Transaction;
  ReadSet : list (list Z);
  WriteSet : list (list Z);
}.

Definition ptxRef := option (pointer ParallelTx).

Inductive parallelError :=
  | errBatchNil | errListNil | errNilValue | errZeroHash
  | errExecutionFailed (e : parallelError).

Record ExecutionResult := mkExecutionResult {
  erTx : ptxRef;
  erResult : option (list Z);
  erErr : option parallelError;
}.

(** ** Conflicts *)

(** The smaller slice becomes the keys of a map, the other one is looked up
    in it. *)
Definition intersects (a b : list (list Z)) : bool :=
  if (length a =? 0)%nat || (length b =? 0)%nat then false else
  let '(a, b) := if (length b <? length a)%nat then (b, a) else (a, b) in
  let set : gset (list Z) := foldl (λ set s, {[s]} ∪ set) ∅ a in
  existsb (λ s, bool_decide (s ∈ set)) b.

Definition conflicts (tx1 tx2 : pointer ParallelTx) : bool :=
  if address tx1 =? address tx2 then false
  else if intersects (WriteSet (deref tx1)) (WriteSet (deref tx2)) then true
  else if intersects (ReadSet (deref tx1)) (WriteSet (deref tx2))
          || intersects (WriteSet (deref tx1)) (ReadSet (deref tx2)) then true
  else false.

Definition conflictsWithGroup (tx : ptxRef) (group : list ptxRef) : bool :=
  match tx with
  | None => false
  | Some tx => existsb (λ other, match other with None => false | Some other => conflicts tx other end) group
  end.

(** The loop over the groups for one transaction: it joins the first group
    it does not conflict with, or starts one. *)
Fixpoint placeTransaction (tx : ptxRef) (groups : list (list ptxRef)) : list (list ptxRef) :=
  match groups with
  | [] => [[tx]]
  | g :: groups =>
      if negb (conflictsWithGroup tx g) then (g ++ [tx]) :: groups
      else g :: placeTransaction tx groups
  end.

Definition groupTransactions (txs : list ptxRef) : list (list ptxRef) :=
  foldl (λ groups tx, placeTransaction tx groups) [] txs.

(** ** Running a group *)

Definition executeTx `{TransactionMethods} (tx : ptxRef) : option (list Z) * option parallelError :=
  match tx ≫= ptTx ∘ deref with
  | None => (None, Some errNilValue)
  | Some t =>
      let hash := Transaction_Hash t in
      if bool_decide (hash = ZeroHash) then (None, Some errZeroHash)
      else (Some (lit "ACC-20 transaction " ++ Hash_Hex hash ++ lit " executed successfully"), None)
  end.

(** What the goroutine of a transaction stores at its index. *)
Definition executionResult `{TransactionMethods} (tx : ptxRef) : ExecutionResult :=
  let '(res, err) := executeTx tx in mkExecutionResult tx res err.

(** The state of [executeBatchCPU]: the iterations of its loop done so far,
    the goroutines that have not finished, the results. *)
Record batch := mkBatch {
  started : nat;
  running : gset nat;
  results : list (option ExecutionResult);
}.

Definition batch_init (txs : list ptxRef) : batch := mkBatch 0 ∅ (replicate (length txs) None).

Inductive batch_step `{TransactionMethods} (txs : list ptxRef) : batch → batch → Prop :=
  | batch_start b :
      (started b < length txs)%nat →
      batch_step txs b (mkBatch (S (started b)) ({[started b]} ∪ running b) (results b))
  | batch_finish b i tx :
      i ∈ running b → txs !! i = Some tx →
      batch_step txs b (mkBatch (started b) (running b ∖ {[i]}) (<[i:=Some (executionResult tx)]> (results b))).

(** [wg.Wait()] has returned. *)
Definition batch_done (txs : list ptxRef) (b : batch) : Prop := started b = length txs ∧ running b = ∅.

Definition executeBatchCPU `{TransactionMethods} (txs : list ptxRef) : list ExecutionResult :=
  executionResult <$> txs.

(** ** Accelerators and the executor *)

(** An accelerator; a nil slice is [None]. *)
Definition Accelerator := option (list ptxRef) → result parallelError (list ExecutionResult).

(** [CPUSIMDAccelerator.ExecuteBatch] *)
Definition CPUSIMDAccelerator `{TransactionMethods} : Accelerator := λ txs,
  match txs with
  | None => Errors errBatchNil
  | Some txs => Returns (executeBatchCPU txs)
  end.

Definition GetAccelerator `{TransactionMethods} : Accelerator := CPUSIMDAccelerator.

(** The loop over the groups; on an error the results so far are returned
    with it. *)
Fixpoint executeGroups (accelerator : Accelerator) (groups : list (list ptxRef)) (allResults : list ExecutionResult) :
    result (list ExecutionResult * parallelError) (list ExecutionResult) :=
  match groups with
  | [] => Returns allResults
  | group :: groups =>
      match accelerator (Some group) with
      | Returns groupResults => executeGroups accelerator groups (allResults ++ groupResults)
      | Errors err => Errors (allResults, errExecutionFailed err)
      | Panics => Panics
      end
  end.

Definition validTx (tx : ptxRef) : bool := bool_decide (is_Some (tx ≫= ptTx ∘ deref)).

Definition ExecuteTransactions (accelerator : Accelerator) (txs : option (list ptxRef)) :
    result (list ExecutionResult * parallelError) (list ExecutionResult) :=
  match txs with
  | None => Errors ([], errListNil)
  | Some txs =>
      let validTxs := filter validTx txs in
      if (length validTxs =? 0)%nat then Returns []
      else executeGroups accelerator (groupTransactions validTxs) []
  end.
