(* ===== verification/ParallelProps.v ===== *)
(** * Properties of the parallel execution of transactions

    The groups split the transactions without conflicts inside a group, and
    every schedule of the goroutines gives the same results. The order of
    conflicting transactions is not kept. *)

From Stdlib Require Import String.
From stdpp Require Import gmap sorting.
From S2P Require Import Prelude Types Rlp BlockTypes Hex Result Parallel.
#[local] Open Scope Z_scope.

(** ** Conflicts *)

Lemma elem_of_key_set a (s : list Z) :
  s ∈ foldl (λ set s, {[s]} ∪ set) (∅ : gset (list Z)) a ↔ s ∈ a.
Proof.
  induction a as [|x a IH] using rev_ind; [set_solver|].
  rewrite foldl_app. cbn [foldl]. rewrite elem_of_union, IH, elem_of_singleton, elem_of_app, list_elem_of_singleton.
  tauto.
Qed.

Lemma intersects_true a b : intersects a b = true ↔ ∃ s, s ∈ a ∧ s ∈ b.
Proof.
  unfold intersects. destruct a as [|x a]; [set_solver|]. destruct b as [|y b]; [set_solver|].
  cbn [length Nat.eqb orb].
  assert (∀ c d, existsb (λ s, bool_decide (s ∈ foldl (λ set s, {[s]} ∪ set) (∅ : gset (list Z)) c)) d = true
    ↔ ∃ s, s ∈ c ∧ s ∈ d) as Hset.
  { intros c d. rewrite existsb_exists. setoid_rewrite bool_decide_eq_true. setoid_rewrite elem_of_key_set.
    setoid_rewrite <-list_elem_of_In. naive_solver. }
  destruct (_ <? _)%nat; rewrite Hset; naive_solver.
Qed.

(** Two transactions access a key and one of them writes it. *)
Definition access_conflict (t1 t2 : ParallelTx) : Prop :=
  ∃ k, (k ∈ WriteSet t1 ∧ k ∈ WriteSet t2) ∨ (k ∈ ReadSet t1 ∧ k ∈ WriteSet t2)
       ∨ (k ∈ WriteSet t1 ∧ k ∈ ReadSet t2).

Lemma conflicts_true tx1 tx2 :
  conflicts tx1 tx2 = true ↔ address tx1 ≠ address tx2 ∧ access_conflict (deref tx1) (deref tx2).
Proof.
  unfold conflicts, access_conflict. destruct (Z.eqb_spec (address tx1) (address tx2)); [naive_solver|].
  transitivity (intersects (WriteSet (deref tx1)) (WriteSet (deref tx2)) = true
    ∨ intersects (ReadSet (deref tx1)) (WriteSet (deref tx2)) = true
    ∨ intersects (WriteSet (deref tx1)) (ReadSet (deref tx2)) = true).
  { repeat destruct (intersects _ _); cbn; naive_solver. }
  rewrite !intersects_true. naive_solver.
Qed.

Lemma conflicts_sym tx1 tx2 : conflicts tx1 tx2 = conflicts tx2 tx1.
Proof. apply eq_true_iff_eq. rewrite !conflicts_true. unfold access_conflict. naive_solver. Qed.

(** [conflicts] on pointers that may be nil. *)
Definition conflictRef (tx1 tx2 : ptxRef) : bool :=
  match tx1, tx2 with Some tx1, Some tx2 => conflicts tx1 tx2 | _, _ => false end.

Lemma conflictRef_sym tx1 tx2 : conflictRef tx1 tx2 = conflictRef tx2 tx1.
Proof. destruct tx1, tx2; cbn; auto using conflicts_sym. Qed.

Lemma conflictRef_self tx : conflictRef tx tx = false.
Proof. destruct tx; [|done]. cbn. unfold conflicts. by rewrite Z.eqb_refl. Qed.

Lemma conflictsWithGroup_true tx g :
  conflictsWithGroup tx g = true ↔ ∃ other, other ∈ g ∧ conflictRef tx other = true.
Proof.
  destruct tx as [tx|]; cbn [conflictsWithGroup]; [|naive_solver].
  rewrite existsb_exists. setoid_rewrite <-list_elem_of_In. split; intros ([other|] & ? & ?); eauto.
Qed.

Lemma conflictsWithGroup_false tx g :
  conflictsWithGroup tx g = false → ∀ other, other ∈ g → conflictRef tx other = false.
Proof.
  intros Hg other Ho. apply not_true_is_false. intros Hc.
  apply not_true_iff_false in Hg. apply Hg, conflictsWithGroup_true; eauto.
Qed.

(** ** Groups *)

(** The two ways to place a transaction: into the first group without a
    conflict, or into a new one. *)
Lemma placeTransaction_cases tx groups :
  (Forall (λ g, conflictsWithGroup tx g = true) groups ∧ placeTransaction tx groups = groups ++ [[tx]]) ∨
  (∃ gs1 g gs2, groups = gs1 ++ g :: gs2 ∧ Forall (λ g, conflictsWithGroup tx g = true) gs1 ∧
     conflictsWithGroup tx g = false ∧ placeTransaction tx groups = gs1 ++ (g ++ [tx]) :: gs2).
Proof.
  induction groups as [|g groups IH]; [by left|]. cbn [placeTransaction].
  destruct (conflictsWithGroup tx g) eqn:Hg; cbn [negb].
  - destruct IH as [[Hall ->]|(gs1 & g' & gs2 & -> & Hall & Hg' & ->)]; [left; by auto|].
    right. exists (g :: gs1), g', gs2. auto.
  - right. by exists [], g, groups.
Qed.

(** A group of the transactions: some of them, in their order, none in
    conflict with another. *)
Definition group_ok (txs g : list ptxRef) : Prop :=
  g ≠ [] ∧ g `sublist_of` txs ∧ ∀ tx1 tx2, tx1 ∈ g → tx2 ∈ g → conflictRef tx1 tx2 = false.

(** Every member of a later group conflicts with an earlier group. *)
Definition blocked_by (g h : list ptxRef) : Prop := Forall (λ tx, conflictsWithGroup tx g = true) h.

Record groups_ok (txs : list ptxRef) (groups : list (list ptxRef)) : Prop := {
  groups_perm : concat groups ≡ₚ txs;
  groups_each : Forall (group_ok txs) groups;
  groups_blocked : StronglySorted blocked_by groups;
}.

Lemma group_ok_snoc_other txs g tx : group_ok txs g → group_ok (txs ++ [tx]) g.
Proof. intros (? & ? & ?). split_and!; [done| |done]. by apply sublist_inserts_r. Qed.

Lemma group_ok_new txs tx : group_ok (txs ++ [tx]) [tx].
Proof.
  split_and!; [done|by apply sublist_inserts_l|].
  intros tx1 tx2 ->%list_elem_of_singleton ->%list_elem_of_singleton. apply conflictRef_self.
Qed.

Lemma group_ok_add txs g tx :
  group_ok txs g → conflictsWithGroup tx g = false → group_ok (txs ++ [tx]) (g ++ [tx]).
Proof.
  intros (Hne & Hsub & Hpair) Hg. split_and!; [by destruct g|by apply sublist_app|].
  intros tx1 tx2. rewrite !elem_of_app, !list_elem_of_singleton.
  intros [H1| ->] [H2| ->]; [auto| | |apply conflictRef_self].
  - rewrite conflictRef_sym. eauto using conflictsWithGroup_false.
  - eauto using conflictsWithGroup_false.
Qed.

Lemma conflictsWithGroup_app tx g g' :
  conflictsWithGroup tx g = true → conflictsWithGroup tx (g ++ g') = true.
Proof. rewrite !conflictsWithGroup_true. intros (o & ? & ?). exists o. by rewrite elem_of_app; auto. Qed.

Lemma StronglySorted_pair {A} (R : A → A → Prop) l i j x y :
  StronglySorted R l → (i < j)%nat → l !! i = Some x → l !! j = Some y → R x y.
Proof.
  intros Hs. revert i j. induction Hs as [|z l Hs IH Hall]; intros i j Hij Hx Hy; [done|].
  destruct j as [|j]; [lia|]. destruct i as [|i]; cbn in Hx, Hy.
  - injection Hx as ->. apply (proj1 (Forall_forall _ _) Hall). by eapply list_elem_of_lookup_2.
  - apply (IH i j); [lia|done..].
Qed.

Lemma place_blocked tx gs1 g gs2 :
  StronglySorted blocked_by (gs1 ++ g :: gs2) → Forall (λ g, conflictsWithGroup tx g = true) gs1 →
  StronglySorted blocked_by (gs1 ++ (g ++ [tx]) :: gs2).
Proof.
  rewrite !StronglySorted_app, !StronglySorted_cons. intros (H12 & Hs1 & Hg & Hs2) Htx.
  split_and!; [|done| |done].
  - intros x y Hx Hy. apply elem_of_cons in Hy as [->|Hy]; [|apply H12; set_solver].
    apply Forall_app. split; [apply H12; set_solver|]. apply Forall_singleton.
    by apply (proj1 (Forall_forall _ _) Htx).
  - eapply Forall_impl; [exact Hg|]. intros h Hh. eapply Forall_impl; [exact Hh|].
    intros other. apply conflictsWithGroup_app.
Qed.

Lemma new_blocked tx groups :
  StronglySorted blocked_by groups → Forall (λ g, conflictsWithGroup tx g = true) groups →
  StronglySorted blocked_by (groups ++ [[tx]]).
Proof.
  intros Hs Hall. rewrite StronglySorted_app. split_and!; [|done|by repeat constructor].
  intros x y Hx ->%list_elem_of_singleton. apply Forall_singleton. by apply (proj1 (Forall_forall _ _) Hall).
Qed.

Lemma placeTransaction_ok txs groups tx :
  groups_ok txs groups → groups_ok (txs ++ [tx]) (placeTransaction tx groups).
Proof.
  intros [Hperm Heach Hblk].
  destruct (placeTransaction_cases tx groups) as [[Hall ->]|(gs1 & g & gs2 & -> & Hall & Hg & ->)]; split.
  - rewrite concat_app. cbn. by rewrite Hperm.
  - apply Forall_app; split; [|apply Forall_singleton, group_ok_new].
    eauto using Forall_impl, group_ok_snoc_other.
  - by apply new_blocked.
  - rewrite concat_app in *. cbn in *. rewrite <-Hperm. solve_Permutation.
  - apply Forall_app in Heach as [H1 [H2 H3]%Forall_cons]. apply Forall_app; split; [|constructor].
    all: eauto using Forall_impl, group_ok_snoc_other, group_ok_add.
  - by apply place_blocked.
Qed.

Lemma groupTransactions_ok txs : groups_ok txs (groupTransactions txs).
Proof.
  unfold groupTransactions. induction txs as [|tx txs IH] using rev_ind; [by repeat constructor|].
  rewrite foldl_app. by apply placeTransaction_ok.
Qed.

(** Each group a transaction is blocked by holds one of its conflicts. *)
Lemma blocked_count tx groups :
  Forall (λ g, conflictsWithGroup tx g = true) groups →
  (length groups ≤ length (filter (λ other, conflictRef tx other = true) (concat groups)))%nat.
Proof.
  induction 1 as [|g groups Hg _ IH]; [done|]. cbn [concat]. rewrite filter_app, length_app. cbn [length].
  apply conflictsWithGroup_true in Hg as (other & Ho & Hc).
  assert (other ∈ filter (λ other, conflictRef tx other = true) g) as Hin by (by apply list_elem_of_filter).
  destruct (filter _ g); [by apply not_elem_of_nil in Hin|]. cbn [length]. lia.
Qed.

Lemma groups_bound txs groups :
  groups_ok txs groups → txs ≠ [] →
  ∃ tx, tx ∈ txs ∧ (length groups ≤ S (length (filter (λ other, conflictRef tx other = true) txs)))%nat.
Proof.
  intros [Hperm Heach Hblk] Hne. destruct groups as [|h gs _] using rev_ind.
  { by apply Permutation_nil_l in Hperm. }
  apply Forall_app in Heach as [_ [(Hh & _ & _) _]%Forall_cons]. destruct h as [|tx h]; [done|].
  apply StronglySorted_app in Hblk as (Hlast & _ & _).
  assert (Forall (λ g, conflictsWithGroup tx g = true) gs) as Htx.
  { apply Forall_forall. intros g Hg. specialize (Hlast g (tx :: h) Hg). unfold blocked_by in Hlast.
    rewrite Forall_cons in Hlast. apply Hlast. set_solver. }
  exists tx. rewrite concat_app in Hperm. cbn in Hperm. split.
  - rewrite <-Hperm. set_solver.
  - rewrite <-Hperm, filter_app, !length_app. apply blocked_count in Htx. cbn [length]. lia.
Qed.

(** ** Schedules of a batch *)

Section schedules.
  Context `{TransactionMethods}.

(** The goroutines started and not running have stored their results. *)
Definition batch_ok (txs : list ptxRef) (b : batch) : Prop :=
  (started b ≤ length txs)%nat ∧ (∀ i, i ∈ running b → (i < started b)%nat) ∧
  length (results b) = length txs ∧
  ∀ i tx, txs !! i = Some tx → (i < started b)%nat → i ∉ running b →
    results b !! i = Some (Some (executionResult tx)).

Lemma batch_init_ok txs : batch_ok txs (batch_init txs).
Proof. split_and!; cbn; [lia|set_solver|apply length_replicate|lia]. Qed.

Lemma batch_step_ok txs b b' : batch_ok txs b → batch_step txs b b' → batch_ok txs b'.
Proof.
  intros (Hst & Hrun & Hlen & Hres). destruct 1 as [b Hlt|b i tx Hi Htx]; split_and!; cbn.
  - lia.
  - intros i. rewrite elem_of_union, elem_of_singleton. intros [->|Hi%Hrun]; lia.
  - done.
  - intros i tx Htx Hi. rewrite not_elem_of_union, not_elem_of_singleton. intros [??]. apply Hres; [done|lia|done].
  - done.
  - set_solver.
  - by rewrite length_insert.
  - intros j tx' Htx' Hj. rewrite elem_of_difference, elem_of_singleton. intros Hnot.
    destruct (decide (j = i)) as [->|Hji].
    + rewrite list_lookup_insert_eq; [congruence|]. rewrite Hlen. eauto using lookup_lt_Some.
    + rewrite list_lookup_insert_ne by congruence. apply Hres; [done..|]. tauto.
Qed.

Lemma batch_steps_ok txs b b' : rtc (batch_step txs) b b' → batch_ok txs b → batch_ok txs b'.
Proof. induction 1; eauto using batch_step_ok. Qed.

Lemma batch_done_results txs b :
  batch_ok txs b → batch_done txs b → results b = Some <$> executeBatchCPU txs.
Proof.
  intros (_ & _ & Hlen & Hres) [Hst Hrun]. apply list_eq_same_length with (length txs); [|done|].
  { unfold executeBatchCPU. by rewrite !length_fmap. }
  intros i x y Hi Hx Hy. destruct (lookup_lt_is_Some_2 txs i Hi) as [tx Htx].
  rewrite (Hres i tx) in Hx by (rewrite ?Hst, ?Hrun; set_solver || done || lia).
  unfold executeBatchCPU in Hy. rewrite !list_lookup_fmap, Htx in Hy. cbn in Hy. congruence.
Qed.

(** The steps a batch has left: a start and a finish for each transaction. *)
Definition batch_left (txs : list ptxRef) (b : batch) : nat := 2 * (length txs - started b) + size (running b).

Lemma batch_step_left txs b b' : batch_ok txs b → batch_step txs b b' → batch_left txs b = S (batch_left txs b').
Proof.
  intros (Hst & Hrun & _ & _). unfold batch_left. destruct 1 as [b Hlt|b i tx Hi Htx]; cbn [started running].
  - rewrite size_union, size_singleton; [lia|]. apply disjoint_singleton_l. intros Hin%Hrun. lia.
  - rewrite size_difference, size_singleton by set_solver.
    assert (size (running b) ≠ 0)%nat by (rewrite size_non_empty_iff; set_solver). lia.
Qed.

Lemma batch_nsteps_left txs n b b' :
  nsteps (batch_step txs) n b b' → batch_ok txs b → batch_left txs b = (n + batch_left txs b')%nat.
Proof.
  induction 1 as [|n b b1 b' Hs _ IH]; intros Hok; [done|].
  rewrite (batch_step_left _ _ _ Hok Hs), IH; [done|]. eauto using batch_step_ok.
Qed.

Lemma batch_progress txs b : batch_ok txs b → batch_done txs b ∨ ∃ b', batch_step txs b b'.
Proof.
  intros (Hst & Hrun & _ & _). destruct (decide (started b = length txs)) as [Heq|Hne].
  - destruct (set_choose_or_empty (running b)) as [[i Hi]|He]; [right|left; split; [done|by apply leibniz_equiv]].
    destruct (lookup_lt_is_Some_2 txs i) as [tx Htx]; [apply Hrun in Hi; lia|]. eexists. by econstructor.
  - right. eexists. constructor. lia.
Qed.

End schedules.

(** ** The executor *)

Lemma executeGroups_cpu `{TransactionMethods} groups rs :
  executeGroups CPUSIMDAccelerator groups rs = Returns (rs ++ (executionResult <$> concat groups)).
Proof.
  revert rs. induction groups as [|g groups IH]; intros rs; cbn [executeGroups CPUSIMDAccelerator concat].
  - by rewrite app_nil_r.
  - rewrite IH. unfold executeBatchCPU. by rewrite fmap_app, app_assoc.
Qed.

Lemma ExecuteTransactions_cpu `{TransactionMethods} txs :
  ExecuteTransactions GetAccelerator (Some txs)
  = Returns (executionResult <$> concat (groupTransactions (filter validTx txs))).
Proof.
  unfold ExecuteTransactions, GetAccelerator. destruct (filter validTx txs) as [|tx l] eqn:Hl; [done|].
  cbn [length Nat.eqb]. by rewrite executeGroups_cpu.
Qed.

(** A transaction of a sender with a nonce, and the keys it writes. *)
Definition example_tx (addr nonce : Z) (keys : list (list Z)) : ptxRef :=
  Some (Ptr addr (mkParallelTx (Some (mkTx nonce None 0 None None [] None None None ZeroHash ZeroAddress None)) keys keys)).

#[local] Instance example_methods : TransactionMethods :=
  {| Transaction_Hash := λ tx, replicate 31 0 ++ [tNonce tx + 1]; Hash_Hex := Hash_String |}.

(** ** Claims *)

(** C30. [groupTransactions] splits the transactions into groups that may run
    at the same time: every transaction is in exactly one group, a group
    keeps the order of its members, and no two members of a group access a
    key that one of them writes. No transaction is put off without a reason:
    it conflicts with a member of every earlier group. So there are at most
    as many groups as one transaction has conflicts, plus one. *)
Theorem parallel_groups (txs : list ptxRef) :
  let groups := groupTransactions txs in
  concat groups ≡ₚ txs ∧
  (∀ g, g ∈ groups → g ≠ [] ∧ g `sublist_of` txs ∧
     ∀ tx1 tx2, Some tx1 ∈ g → Some tx2 ∈ g → address tx1 ≠ address tx2 →
       ¬ access_conflict (deref tx1) (deref tx2)) ∧
  (∀ i j g h tx, (i < j)%nat → groups !! i = Some g → groups !! j = Some h → tx ∈ h →
     ∃ other, other ∈ g ∧ conflictRef tx other = true) ∧
  (txs ≠ [] → ∃ tx, tx ∈ txs ∧
     (length groups ≤ S (length (filter (λ other, conflictRef tx other = true) txs)))%nat).
Proof.
  intros groups. pose proof (groupTransactions_ok txs) as Hok. split_and!; [apply Hok| | |by apply groups_bound].
  - intros g Hg. destruct (proj1 (Forall_forall _ _) (groups_each _ _ Hok) g Hg) as (? & ? & Hpair).
    split_and!; [done..|]. intros tx1 tx2 H1 H2 Hne Hc. specialize (Hpair _ _ H1 H2). cbn in Hpair.
    by rewrite (proj2 (conflicts_true tx1 tx2) (conj Hne Hc)) in Hpair.
  - intros i j g h tx Hij Hg Hh Htx. apply conflictsWithGroup_true.
    pose proof (StronglySorted_pair _ _ _ _ _ _ (groups_blocked _ _ Hok) Hij Hg Hh) as Hb.
    by apply (proj1 (Forall_forall _ _) Hb).
Qed.

(** The goroutines of a batch may be scheduled in any way: after at most
    two steps per transaction nothing is left to do, until then some step is
    possible, and when [wg.Wait] returns the results are those of the
    transactions, each at its own index, whatever the order was. *)
Theorem batch_schedules `{TransactionMethods} (txs : list ptxRef) (n : nat) (b : batch) :
  nsteps (batch_step txs) n (batch_init txs) b →
  (n ≤ 2 * length txs)%nat ∧ (batch_done txs b ∨ ∃ b', batch_step txs b b') ∧
  (batch_done txs b → results b = Some <$> executeBatchCPU txs).
Proof.
  intros Hn. assert (batch_ok txs b) as Hok by eauto using batch_steps_ok, rtc_nsteps_2, batch_init_ok.
  split_and!; [|by apply batch_progress|by apply batch_done_results].
  apply batch_nsteps_left in Hn; [|apply batch_init_ok].
  unfold batch_left at 1 in Hn. cbn [batch_init started running] in Hn. rewrite size_empty in Hn. lia.
Qed.

Lemma batch_schedules_witness :
  let b := mkBatch 2 {[0%nat]} [None; Some (executionResult (example_tx 2 0 []))] in
  ∃ b', batch_step [example_tx 1 0 []; example_tx 2 0 []] b b'.
Proof.
  set (txs := [example_tx 1 0 []; example_tx 2 0 []]). intros b.
  destruct (batch_schedules txs 3 b) as (_ & [[_ Hrun]|Hstep] & _).
  - assert (∃ b1 b2 b3, batch_step txs (batch_init txs) b1 ∧ batch_step txs b1 b2 ∧ batch_step txs b2 b3 ∧ b = b3)
      as (b1 & b2 & b3 & H1 & H2 & H3 & ->); [|eauto using nsteps_once, nsteps_l].
    do 3 eexists. split_and!; [apply batch_start; cbn; lia|apply batch_start; cbn; lia| |].
    + apply batch_finish with (i := 1%nat) (tx := example_tx 2 0 []); [set_solver|done].
    + vm_compute. reflexivity.
  - exfalso. vm_compute in Hrun. discriminate Hrun.
  - exact Hstep.
Defined.

(** The executor runs every transaction that is not nil exactly once,
    but not in an order that respects conflicts: of three transactions of
    which the second conflicts with both others, the third runs before the
    second. Here they are the transactions of one sender with the nonces 0
    and 1, and nonce 1 comes first. *)
Theorem execution_order :
  (∀ (M : TransactionMethods) (txs : list ptxRef), ∃ rs,
     ExecuteTransactions GetAccelerator (Some txs) = Returns rs ∧
     rs ≡ₚ executionResult <$> filter validTx txs) ∧
  (∃ tx1 tx2 tx3 : ptxRef, conflictRef tx2 tx3 = true ∧
     (tNonce <$> (tx2 ≫= ptTx ∘ deref)) = Some 0 ∧ (tNonce <$> (tx3 ≫= ptTx ∘ deref)) = Some 1 ∧
     ∀ M : TransactionMethods, ExecuteTransactions GetAccelerator (Some [tx1; tx2; tx3])
       = Returns (executionResult <$> [tx1; tx3; tx2])).
Proof.
  split.
  - intros M txs. rewrite ExecuteTransactions_cpu. eexists. split; [done|].
    apply fmap_Permutation, groupTransactions_ok.
  - exists (example_tx 1 0 [[66]; [67]]), (example_tx 2 0 [[65]; [66]]), (example_tx 3 1 [[65]; [68]]).
    split_and!; [vm_compute; reflexivity..|]. intros M. rewrite ExecuteTransactions_cpu. do 2 f_equal.
Qed.
