(* ===== verification/Rewards.v ===== *)
(** * Block rewards and slashing (rewards/reward.go)

    The package reads and writes balances through two methods,
    [GetBalance] and [SetBalance], that it expects of [state.State] and that
    the interface in state/state.go does not declare; they are the
    parameters of [BalanceState], with the laws of a map from addresses to
    balances. A failed [SetBalance] returns an error beside the state.
    Logging is left out. *)

From stdpp Require Import gmap.
From S2P Require Import Prelude BigInt Types Result.
#[local] Open Scope Z_scope.

Class BalanceState (S E : Type) := {
  state_GetBalance : S → Address → option Z;
  state_SetBalance : S → Address → Z → S * option E;
}.

Class BalanceLaws (S E : Type) `{BalanceState S E} := {
  SetBalance_same s a v s' : state_SetBalance s a v = (s', None) → state_GetBalance s' a = Some v;
  SetBalance_other s a v s' b : state_SetBalance s a v = (s', None) → b ≠ a →
    state_GetBalance s' b = state_GetBalance s b;
}.

Inductive rewardError (E : Type) :=
  | ErrInsufficientFunds | ErrInvalidSlashPercentage | ErrSlashingTooHigh
  | ErrNilState | ErrNilReward | ErrZeroAddress
  | errNilLogger | errNegativeReward | errZeroValidator | errNoStake
  | errState (e : E).
Arguments ErrInsufficientFunds {E}.
Arguments ErrInvalidSlashPercentage {E}.
Arguments ErrSlashingTooHigh {E}.
Arguments ErrNilState {E}.
Arguments ErrNilReward {E}.
Arguments ErrZeroAddress {E}.
Arguments errNilLogger {E}.
Arguments errNegativeReward {E}.
Arguments errZeroValidator {E}.
Arguments errNoStake {E}.
Arguments errState {E} e.

Record RewardCalculator := mkRewardCalculator { rewardPerBlock : Z }.

(** [hasLogger] is [logger != nil]. *)
Definition NewRewardCalculator {E} (hasLogger : bool) (reward : option Z) : result (rewardError E) RewardCalculator :=
  if negb hasLogger then Errors errNilLogger else
  match reward with
  | None => Errors ErrNilReward
  | Some reward => if Z.sgn reward <? 0 then Errors errNegativeReward else Returns (mkRewardCalculator reward)
  end.

Section rewards.
  Context {S E : Type} `{!BalanceState S E}.

(** Reading a balance, nil as zero, and adding to it. *)
Definition credit (s : S) (addr : Address) (amount : Z) : S * option (rewardError E) :=
  let currentBalance := default 0 (state_GetBalance s addr) in
  let '(s, err) := state_SetBalance s addr (currentBalance + amount) in
  (s, errState <$> err).

(** The loop over the validators. *)
Fixpoint payValidators (s : S) (blockProducer : Address) (validatorShare : Z) (validators : list Address) :
    S * option (rewardError E) :=
  match validators with
  | [] => (s, None)
  | addr :: validators =>
      if bool_decide (addr = ZeroAddress) then payValidators s blockProducer validatorShare validators
      else if bool_decide (addr = blockProducer) then payValidators s blockProducer validatorShare validators
      else match credit s addr validatorShare with
           | (s, Some err) => (s, Some err)
           | (s, None) => payValidators s blockProducer validatorShare validators
           end
  end.

(** The state after the call and the error; a nil state is [None]. *)
Definition DistributeBlockReward (rc : RewardCalculator) (s : option S) (blockProducer : Address)
    (validators : list Address) : option S * option (rewardError E) :=
  match s with
  | None => (None, Some ErrNilState)
  | Some s =>
      if bool_decide (blockProducer = ZeroAddress) then (Some s, Some ErrZeroAddress) else
      if zlen validators =? 0 then
        let '(s, err) := credit s blockProducer (rewardPerBlock rc) in (Some s, err)
      else
        let producerShare := big_div (rewardPerBlock rc * 80) 100 in
        let validatorShareTotal := rewardPerBlock rc - producerShare in
        match credit s blockProducer producerShare with
        | (s, Some err) => (Some s, Some err)
        | (s, None) =>
            if 0 <? zlen validators then
              let validatorShare := big_div validatorShareTotal (i64 (zlen validators)) in
              if 0 <? Z.sgn validatorShare then
                let '(s, err) := payValidators s blockProducer validatorShare validators in (Some s, err)
              else (Some s, None)
            else (Some s, None)
        end
  end.

Definition ApplySlashing (s : option S) (validator : Address) (slashPercentage : Z) :
    option S * option (rewardError E) :=
  match s with
  | None => (None, Some ErrNilState)
  | Some s =>
      if bool_decide (validator = ZeroAddress) then (Some s, Some errZeroValidator)
      else if 100 <? slashPercentage then (Some s, Some ErrInvalidSlashPercentage)
      else if slashPercentage =? 0 then (Some s, None)
      else match state_GetBalance s validator with
           | None => (Some s, Some errNoStake)
           | Some currentStake =>
               if Z.sgn currentStake <=? 0 then (Some s, Some errNoStake) else
               let slashAmount := big_div (currentStake * i64 slashPercentage) 100 in
               if currentStake <? slashAmount then (Some s, Some ErrSlashingTooHigh) else
               let '(s, err) := state_SetBalance s validator (currentStake - slashAmount) in
               (Some s, errState <$> err)
           end
  end.

End rewards.

Definition GetRewardPerBlock (rc : RewardCalculator) : Z := rewardPerBlock rc.

Definition UpdateRewardPerBlock {E} (rc : RewardCalculator) (newReward : option Z) :
    RewardCalculator * option (rewardError E) :=
  match newReward with
  | None => (rc, Some ErrNilReward)
  | Some newReward =>
      if Z.sgn newReward <? 0 then (rc, Some errNegativeReward) else (mkRewardCalculator newReward, None)
  end.

(** ** Balances after a distribution *)

Section balances.
  Context {S E : Type} `{!BalanceState S E, !BalanceLaws S E}.

Definition balance (s : S) (a : Address) : Z := default 0 (state_GetBalance s a).

Lemma credit_balance s a v s' b :
  credit s a v = (s', None) → balance s' b = balance s b + (if decide (b = a) then v else 0).
Proof.
  unfold credit, balance. destruct (state_SetBalance s a _) as [s1 [err|]] eqn:Es; [done|]. intros [= <-].
  destruct (decide (b = a)) as [->|Hne].
  - by rewrite (SetBalance_same _ _ _ _ Es).
  - rewrite (SetBalance_other _ _ _ _ b Es Hne). lia.
Qed.

(** The validators that are paid. *)
Definition paid (blockProducer : Address) (validators : list Address) : list Address :=
  filter (λ a, a ≠ ZeroAddress ∧ a ≠ blockProducer) validators.

(** How often an address is in a list. *)
Definition occurrences (a : Address) (l : list Address) : Z := zlen (filter (a =.) l).

Lemma occurrences_cons a b l : occurrences a (b :: l) = (if decide (a = b) then 1 else 0) + occurrences a l.
Proof. unfold occurrences, zlen. rewrite filter_cons. repeat case_decide; cbn [length]; lia. Qed.

Lemma payValidators_balance producer share vals s s' b :
  payValidators s producer share vals = (s', None) →
  balance s' b = balance s b + share * occurrences b (paid producer vals).
Proof.
  revert s. induction vals as [|a vals IH]; intros s; cbn [payValidators].
  { intros [= ->]. unfold occurrences, zlen. cbn. lia. }
  unfold paid. rewrite filter_cons.
  destruct (bool_decide_reflect (a = ZeroAddress)) as [Ha|Ha]; [rewrite decide_False by tauto; apply IH|].
  destruct (bool_decide_reflect (a = producer)) as [Hp|Hp]; [rewrite decide_False by tauto; apply IH|].
  rewrite decide_True by done. destruct (credit s a share) as [s1 [err|]] eqn:Ec; [done|].
  intros ->%IH. rewrite (credit_balance _ _ _ _ _ Ec), occurrences_cons.
  fold (paid producer vals). case_decide; lia.
Qed.

(** A sum over distinct addresses counts each occurrence at most once. *)
Lemma sum_occurrences l addrs : NoDup addrs → sumZ (λ a, occurrences a l) addrs ≤ zlen l.
Proof.
  intros Hnd. induction l as [|b l IH].
  - rewrite (sumZ_ext _ (λ _, 0)), sumZ_zero by done. unfold zlen. cbn [length]. lia.
  - rewrite (sumZ_update (λ a, occurrences a l) (λ a, occurrences a (b :: l)) b); [|done|].
    + cbv beta. rewrite occurrences_cons, (decide_True (P:=b = b)) by done. unfold zlen in *. cbn [length]. case_decide; lia.
    + intros a _ Ha. rewrite occurrences_cons, decide_False by done. lia.
Qed.

(** The share of the producer and of each validator. *)
Definition producerReward (rc : RewardCalculator) (vals : list Address) : Z :=
  if zlen vals =? 0 then rewardPerBlock rc else rewardPerBlock rc * 80 / 100.
Definition validatorReward (rc : RewardCalculator) (vals : list Address) : Z :=
  (rewardPerBlock rc - producerReward rc vals) / zlen vals.

Lemma shares_nonneg rc vals :
  0 ≤ rewardPerBlock rc → 0 ≤ producerReward rc vals ≤ rewardPerBlock rc ∧ 0 ≤ validatorReward rc vals.
Proof.
  intros Hr. unfold validatorReward, producerReward, zlen. destruct (Z.eqb_spec (Z.of_nat (length vals)) 0) as [->|Hn].
  - rewrite Zdiv_0_r. lia.
  - assert (0 ≤ rewardPerBlock rc * 80 / 100 ≤ rewardPerBlock rc) by (Z.div_mod_to_equations; lia).
    split; [done|]. apply Z.div_pos; lia.
Qed.

Lemma paid_length producer vals : zlen (paid producer vals) ≤ zlen vals.
Proof. unfold paid, zlen. pose proof (length_filter (λ a, a ≠ ZeroAddress ∧ a ≠ producer) vals). lia. Qed.

Lemma share_total rc vals :
  0 ≤ rewardPerBlock rc →
  0 ≤ rewardPerBlock rc - (producerReward rc vals + validatorReward rc vals * zlen vals) < zlen vals `max` 1.
Proof.
  intros Hr. pose proof (shares_nonneg rc vals Hr). unfold validatorReward, producerReward, zlen in *.
  destruct (Z.eqb_spec (Z.of_nat (length vals)) 0) as [->|Hn]; [lia|]. Z.div_mod_to_equations. nia.
Qed.

Lemma DistributeBlockReward_balance rc s producer vals s' a :
  0 ≤ rewardPerBlock rc → zlen vals < 2 ^ 63 →
  DistributeBlockReward rc (Some s) producer vals = (Some s', None) →
  balance s' a = balance s a + (if decide (a = producer) then producerReward rc vals else 0)
                 + validatorReward rc vals * occurrences a (paid producer vals).
Proof.
  intros Hr Hlen. pose proof (shares_nonneg rc vals Hr) as [_ Hv]. revert Hv.
  unfold DistributeBlockReward, validatorReward, producerReward. destruct (bool_decide _); [done|].
  destruct (Z.eqb_spec (zlen vals) 0) as [H0|Hne].
  - intros _. destruct (credit _ _ _) as [s1 [err|]] eqn:Ec; [done|]. intros [= ->]. rewrite (credit_balance _ _ _ _ _ Ec).
    rewrite H0, Zdiv_0_r. lia.
  - assert (0 < zlen vals) by (unfold zlen in *; lia). rewrite (proj2 (Z.ltb_lt _ _)) by done.
    rewrite i64_small by lia. unfold big_div. rewrite (Z.sgn_pos (zlen vals)), (Z.abs_eq (zlen vals)) by lia.
    change (Z.sgn 100) with 1. change (Z.abs 100) with 100. rewrite !Z.mul_1_l. intros Hv.
    destruct (credit _ _ _) as [s1 [err|]] eqn:Ec; [done|]. apply (credit_balance _ _ _ _ a) in Ec.
    set (share := (_ - _) / _) in *. destruct (Z.ltb_spec 0 (Z.sgn share)) as [Hpos|Hpos].
    + destruct (payValidators _ _ _ _) as [s2 [err|]] eqn:Ep; [done|]. intros [= ->].
      rewrite (payValidators_balance _ _ _ _ _ _ Ep), Ec. done.
    + intros [= <-]. rewrite Ec. assert (share = 0) as -> by lia. lia.
Qed.

Lemma sumZ_add {A} (f g : A → Z) l : sumZ (λ a, f a + g a) l = sumZ f l + sumZ g l.
Proof. induction l as [|a l IH]; [done|]. unfold sumZ in *. cbn [foldr]. lia. Qed.

Lemma sumZ_scale {A} (c : Z) (f : A → Z) l : sumZ (λ a, c * f a) l = c * sumZ f l.
Proof. induction l as [|a l IH]; [cbn; lia|]. unfold sumZ in *. cbn [foldr]. lia. Qed.

Lemma sumZ_single (p : Address) (v : Z) l :
  NoDup l → 0 ≤ v → sumZ (λ a, if decide (a = p) then v else 0) l ≤ v.
Proof.
  intros Hnd Hv. rewrite (sumZ_update (λ _, 0) _ p); [|done|].
  - cbv beta. rewrite sumZ_zero, (decide_True (P:=p = p)) by done. case_decide; lia.
  - intros b _ Hb. by rewrite decide_False.
Qed.

Lemma distribution_total rc producer vals (f g : Address → Z) addrs :
  0 ≤ rewardPerBlock rc → NoDup addrs →
  (∀ a, g a = f a + (if decide (a = producer) then producerReward rc vals else 0)
              + validatorReward rc vals * occurrences a (paid producer vals)) →
  sumZ g addrs ≤ sumZ f addrs + rewardPerBlock rc.
Proof.
  intros Hr Hnd Hg. rewrite (sumZ_ext g _ addrs (λ a _, Hg a)), !sumZ_add, sumZ_scale.
  pose proof (shares_nonneg rc vals Hr) as [Hp Hv]. pose proof (share_total rc vals Hr).
  pose proof (sumZ_single producer (producerReward rc vals) addrs Hnd ltac:(lia)).
  pose proof (sum_occurrences (paid producer vals) addrs Hnd). pose proof (paid_length producer vals). nia.
Qed.

(** ** Slashing *)

Lemma slash_amount stake pct :
  0 < stake → 0 ≤ pct ≤ 100 →
  big_div (stake * i64 pct) 100 = stake * pct / 100 ∧ 0 ≤ stake * pct / 100 ≤ stake.
Proof.
  intros Hs Hp. rewrite i64_small by lia. unfold big_div. change (Z.sgn 100) with 1. change (Z.abs 100) with 100.
  rewrite Z.mul_1_l. split; [done|]. Z.div_mod_to_equations. nia.
Qed.

Lemma slashing_allowed s v pct :
  0 ≤ pct < 2 ^ 64 → snd (ApplySlashing (E:=E) (Some s) v pct) ≠ Some ErrSlashingTooHigh.
Proof.
  intros Hp. unfold ApplySlashing. destruct (bool_decide _); [done|].
  destruct (Z.ltb_spec 100 pct); [done|]. destruct (pct =? 0); [done|].
  destruct (state_GetBalance s v) as [stake|]; [|done]. destruct (Z.leb_spec (Z.sgn stake) 0); [done|].
  destruct (slash_amount stake pct) as [-> Hb]; [lia..|]. rewrite (proj2 (Z.ltb_ge _ _)) by lia.
  destruct (state_SetBalance _ _ _) as [s' [err|]]; done.
Qed.

Lemma ApplySlashing_balance s v pct s' :
  0 ≤ pct < 2 ^ 64 → ApplySlashing (E:=E) (Some s) v pct = (Some s', None) →
  pct ≤ 100 ∧ balance s' v = balance s v - balance s v * pct / 100 ∧
  (pct ≠ 0 → 0 ≤ balance s' v ≤ balance s v) ∧ ∀ a, a ≠ v → balance s' a = balance s a.
Proof.
  intros Hp. unfold ApplySlashing, balance. destruct (bool_decide _); [done|].
  destruct (Z.ltb_spec 100 pct); [done|]. destruct (Z.eqb_spec pct 0) as [->|Hne].
  { intros [= ->]. rewrite Z.mul_0_r, Z.div_0_l by done. split_and!; [lia|lia|done|done]. }
  destruct (state_GetBalance s v) as [stake|]; [|done]. destruct (Z.leb_spec (Z.sgn stake) 0); [done|].
  destruct (slash_amount stake pct) as [-> Hb]; [lia..|]. rewrite (proj2 (Z.ltb_ge _ _)) by lia.
  destruct (state_SetBalance _ _ _) as [s1 [err|]] eqn:Es; [done|]. intros [= ->].
  rewrite (SetBalance_same _ _ _ _ Es). split_and!; [done|done|cbn; lia|].
  intros a Ha. by rewrite (SetBalance_other _ _ _ _ _ Es Ha).
Qed.

End balances.

(** ** Claims *)

(** A successful distribution credits the producer with the whole reward
    when there are no validators and with 80% of it, rounded down, otherwise,
    and credits every other validator with an equal part of the rest for each
    time it is listed; no other balance changes. The parts add up to the
    reward but for a remainder smaller than the number of validators, and
    whatever accounts are summed up, their balances grow by no more than the
    reward. A successful slashing takes the given percentage, rounded down,
    from the validator's balance, which stays between zero and what it was,
    and nothing from others; the check for slashing too much never fires. *)
Theorem reward_balances {S E : Type} `{!BalanceState S E, !BalanceLaws S E}
    (rc : RewardCalculator) (s : S) (producer : Address) (vals : list Address) (pct : Z) :
  0 ≤ rewardPerBlock rc → zlen vals < 2 ^ 63 → 0 ≤ pct < 2 ^ 64 →
  (∀ s', DistributeBlockReward rc (Some s) producer vals = (Some s', None) →
     (∀ a, balance s' a = balance s a + (if decide (a = producer) then producerReward rc vals else 0)
             + validatorReward rc vals * occurrences a (paid producer vals)) ∧
     0 ≤ rewardPerBlock rc - (producerReward rc vals + validatorReward rc vals * zlen vals) < zlen vals `max` 1 ∧
     ∀ addrs, NoDup addrs → sumZ (balance s') addrs ≤ sumZ (balance s) addrs + rewardPerBlock rc) ∧
  snd (ApplySlashing (Some s) producer pct) ≠ Some ErrSlashingTooHigh ∧
  (∀ s', ApplySlashing (Some s) producer pct = (Some s', None) →
     pct ≤ 100 ∧ balance s' producer = balance s producer - balance s producer * pct / 100 ∧
     (pct ≠ 0 → 0 ≤ balance s' producer ≤ balance s producer) ∧
     ∀ a, a ≠ producer → balance s' a = balance s a).
Proof.
  intros Hr Hlen Hpct. split_and!; [|by apply slashing_allowed|intros s'; by apply ApplySlashing_balance].
  intros s' Hd. pose proof (λ a, DistributeBlockReward_balance rc s producer vals s' a Hr Hlen Hd) as Hbal.
  split_and!; [exact Hbal|by apply share_total|by apply share_total|].
  intros addrs Hnd. by eapply distribution_total.
Qed.

#[local] Instance map_balances : BalanceState (gmap Address Z) Empty_set :=
  {| state_GetBalance := λ s a, s !! a; state_SetBalance := λ s a v, (<[a:=v]> s, None) |}.

#[local] Instance map_balances_laws : BalanceLaws (gmap Address Z) Empty_set.
Proof.
  split; cbn.
  - intros s a v s' [= <-]. apply lookup_insert_eq.
  - intros s a v s' b [= <-] Hb. by apply lookup_insert_ne.
Qed.

(** A reward of 101 to a producer and three validators, one of them the
    producer: 80 to the producer, 7 to each of the others. *)
Lemma reward_balances_witness :
  let addr n := replicate 19 0 ++ [n] in
  let vals := [addr 1; addr 2; addr 3] in
  ∃ s', DistributeBlockReward (mkRewardCalculator 101) (Some (∅ : gmap Address Z)) (addr 1) vals = (Some s', None) ∧
    balance s' (addr 1) = 80 ∧ balance s' (addr 3) = 7 ∧
    sumZ (balance s') vals ≤ 101.
Proof.
  intros addr vals. eexists. split; [reflexivity|]. split; [vm_compute; reflexivity|]. split; [vm_compute; reflexivity|].
  destruct (reward_balances (mkRewardCalculator 101) ∅ (addr 1) vals 10) as [Hd _]; [done..|].
  apply (Hd _ eq_refl), (bool_decide_eq_true_1 (NoDup _)). vm_compute. reflexivity.
Defined.
