(* ===== verification/Blake2.v ===== *)
(** * The compression function of BLAKE2b
      (state/runtime/precompiled/blake2f.go)

    [F] is the code's: sixteen variables and, in every round, the half steps
    of the eight mixings interleaved, with the table of message indexes
    reordered to match. [rfc_F] is the definition of RFC 7693: a vector of
    sixteen words, the mixing function G and the table SIGMA. They compute
    the same. *)

From Stdlib Require Import String.
From S2P Require Import Prelude BigInt Types Hex.

(** [bits.RotateLeft64(x, k)]; a negative [k] rotates right. *)
Definition RotateLeft64 (x k : Z) : Z :=
  let s := Z.land k 63 in
  Z.lor (u64 (Z.shiftl x s)) (Z.shiftr x (64 - s)).

Definition IV : list Z :=
  [0x6a09e667f3bcc908; 0xbb67ae8584caa73b; 0x3c6ef372fe94f82b; 0xa54ff53a5f1d36f1;
   0x510e527fade682d1; 0x9b05688c2b3e6c1f; 0x1f83d9abfb41bd6b; 0x5be0cd19137e2179].

Definition precomputed : list (list nat) :=
  ([[0; 2; 4; 6; 1; 3; 5; 7; 8; 10; 12; 14; 9; 11; 13; 15];
   [14; 4; 9; 13; 10; 8; 15; 6; 1; 0; 11; 5; 12; 2; 7; 3];
   [11; 12; 5; 15; 8; 0; 2; 13; 10; 3; 7; 9; 14; 6; 1; 4];
   [7; 3; 13; 11; 9; 1; 12; 14; 2; 5; 4; 15; 6; 10; 0; 8];
   [9; 5; 2; 10; 0; 7; 4; 15; 14; 11; 6; 3; 1; 12; 8; 13];
   [2; 6; 0; 8; 12; 10; 11; 3; 4; 7; 15; 1; 13; 5; 14; 9];
   [12; 1; 14; 4; 5; 15; 13; 10; 0; 6; 9; 8; 7; 3; 2; 11];
   [13; 7; 12; 3; 11; 14; 1; 9; 5; 15; 8; 2; 0; 4; 6; 10];
   [6; 14; 11; 0; 15; 9; 3; 8; 12; 13; 1; 10; 2; 7; 4; 5];
   [10; 8; 7; 1; 2; 4; 6; 5; 15; 9; 3; 13; 11; 14; 12; 0]])%nat.

(** The sixteen variables. *)
Record vars := V { x0 : Z; x1 : Z; x2 : Z; x3 : Z; x4 : Z; x5 : Z; x6 : Z; x7 : Z; x8 : Z; x9 : Z; x10 : Z; x11 : Z; x12 : Z; x13 : Z; x14 : Z; x15 : Z }.

(** The body of the loop over the rounds. *)
Definition F_round (m : list Z) (s : list nat) (v : vars) : vars :=
  let '(V v0 v1 v2 v3 v4 v5 v6 v7 v8 v9 v10 v11 v12 v13 v14 v15) := v in
  let v0 := u64 (v0 + m !!! (s !!! 0%nat)) in
  let v0 := u64 (v0 + v4) in
  let v12 := Z.lxor v12 v0 in
  let v12 := RotateLeft64 v12 (-32) in
  let v8 := u64 (v8 + v12) in
  let v4 := Z.lxor v4 v8 in
  let v4 := RotateLeft64 v4 (-24) in
  let v1 := u64 (v1 + m !!! (s !!! 1%nat)) in
  let v1 := u64 (v1 + v5) in
  let v13 := Z.lxor v13 v1 in
  let v13 := RotateLeft64 v13 (-32) in
  let v9 := u64 (v9 + v13) in
  let v5 := Z.lxor v5 v9 in
  let v5 := RotateLeft64 v5 (-24) in
  let v2 := u64 (v2 + m !!! (s !!! 2%nat)) in
  let v2 := u64 (v2 + v6) in
  let v14 := Z.lxor v14 v2 in
  let v14 := RotateLeft64 v14 (-32) in
  let v10 := u64 (v10 + v14) in
  let v6 := Z.lxor v6 v10 in
  let v6 := RotateLeft64 v6 (-24) in
  let v3 := u64 (v3 + m !!! (s !!! 3%nat)) in
  let v3 := u64 (v3 + v7) in
  let v15 := Z.lxor v15 v3 in
  let v15 := RotateLeft64 v15 (-32) in
  let v11 := u64 (v11 + v15) in
  let v7 := Z.lxor v7 v11 in
  let v7 := RotateLeft64 v7 (-24) in
  let v0 := u64 (v0 + m !!! (s !!! 4%nat)) in
  let v0 := u64 (v0 + v4) in
  let v12 := Z.lxor v12 v0 in
  let v12 := RotateLeft64 v12 (-16) in
  let v8 := u64 (v8 + v12) in
  let v4 := Z.lxor v4 v8 in
  let v4 := RotateLeft64 v4 (-63) in
  let v1 := u64 (v1 + m !!! (s !!! 5%nat)) in
  let v1 := u64 (v1 + v5) in
  let v13 := Z.lxor v13 v1 in
  let v13 := RotateLeft64 v13 (-16) in
  let v9 := u64 (v9 + v13) in
  let v5 := Z.lxor v5 v9 in
  let v5 := RotateLeft64 v5 (-63) in
  let v2 := u64 (v2 + m !!! (s !!! 6%nat)) in
  let v2 := u64 (v2 + v6) in
  let v14 := Z.lxor v14 v2 in
  let v14 := RotateLeft64 v14 (-16) in
  let v10 := u64 (v10 + v14) in
  let v6 := Z.lxor v6 v10 in
  let v6 := RotateLeft64 v6 (-63) in
  let v3 := u64 (v3 + m !!! (s !!! 7%nat)) in
  let v3 := u64 (v3 + v7) in
  let v15 := Z.lxor v15 v3 in
  let v15 := RotateLeft64 v15 (-16) in
  let v11 := u64 (v11 + v15) in
  let v7 := Z.lxor v7 v11 in
  let v7 := RotateLeft64 v7 (-63) in
  let v0 := u64 (v0 + m !!! (s !!! 8%nat)) in
  let v0 := u64 (v0 + v5) in
  let v15 := Z.lxor v15 v0 in
  let v15 := RotateLeft64 v15 (-32) in
  let v10 := u64 (v10 + v15) in
  let v5 := Z.lxor v5 v10 in
  let v5 := RotateLeft64 v5 (-24) in
  let v1 := u64 (v1 + m !!! (s !!! 9%nat)) in
  let v1 := u64 (v1 + v6) in
  let v12 := Z.lxor v12 v1 in
  let v12 := RotateLeft64 v12 (-32) in
  let v11 := u64 (v11 + v12) in
  let v6 := Z.lxor v6 v11 in
  let v6 := RotateLeft64 v6 (-24) in
  let v2 := u64 (v2 + m !!! (s !!! 10%nat)) in
  let v2 := u64 (v2 + v7) in
  let v13 := Z.lxor v13 v2 in
  let v13 := RotateLeft64 v13 (-32) in
  let v8 := u64 (v8 + v13) in
  let v7 := Z.lxor v7 v8 in
  let v7 := RotateLeft64 v7 (-24) in
  let v3 := u64 (v3 + m !!! (s !!! 11%nat)) in
  let v3 := u64 (v3 + v4) in
  let v14 := Z.lxor v14 v3 in
  let v14 := RotateLeft64 v14 (-32) in
  let v9 := u64 (v9 + v14) in
  let v4 := Z.lxor v4 v9 in
  let v4 := RotateLeft64 v4 (-24) in
  let v0 := u64 (v0 + m !!! (s !!! 12%nat)) in
  let v0 := u64 (v0 + v5) in
  let v15 := Z.lxor v15 v0 in
  let v15 := RotateLeft64 v15 (-16) in
  let v10 := u64 (v10 + v15) in
  let v5 := Z.lxor v5 v10 in
  let v5 := RotateLeft64 v5 (-63) in
  let v1 := u64 (v1 + m !!! (s !!! 13%nat)) in
  let v1 := u64 (v1 + v6) in
  let v12 := Z.lxor v12 v1 in
  let v12 := RotateLeft64 v12 (-16) in
  let v11 := u64 (v11 + v12) in
  let v6 := Z.lxor v6 v11 in
  let v6 := RotateLeft64 v6 (-63) in
  let v2 := u64 (v2 + m !!! (s !!! 14%nat)) in
  let v2 := u64 (v2 + v7) in
  let v13 := Z.lxor v13 v2 in
  let v13 := RotateLeft64 v13 (-16) in
  let v8 := u64 (v8 + v13) in
  let v7 := Z.lxor v7 v8 in
  let v7 := RotateLeft64 v7 (-63) in
  let v3 := u64 (v3 + m !!! (s !!! 15%nat)) in
  let v3 := u64 (v3 + v4) in
  let v14 := Z.lxor v14 v3 in
  let v14 := RotateLeft64 v14 (-16) in
  let v9 := u64 (v9 + v14) in
  let v4 := Z.lxor v4 v9 in
  let v4 := RotateLeft64 v4 (-63) in
  V v0 v1 v2 v3 v4 v5 v6 v7 v8 v9 v10 v11 v12 v13 v14 v15.

(** [n] rounds from round [j] on. *)
Fixpoint F_rounds (m : list Z) (n : nat) (j : Z) (v : vars) : vars :=
  match n with
  | O => v
  | S n => F_rounds m n (j + 1) (F_round m (precomputed !!! Z.to_nat (j mod 10)) v)
  end.

Definition F (h m c : list Z) (f : bool) (rounds : Z) : list Z :=
  let v12 := Z.lxor (IV !!! 4%nat) (c !!! 0%nat) in
  let v13 := Z.lxor (IV !!! 5%nat) (c !!! 1%nat) in
  let v14 := if f then Z.lxor (IV !!! 6%nat) 0xffffffffffffffff else IV !!! 6%nat in
  let '(V v0 v1 v2 v3 v4 v5 v6 v7 v8 v9 v10 v11 v12 v13 v14 v15) := F_rounds m (Z.to_nat rounds) 0
    (V (h !!! 0%nat) (h !!! 1%nat) (h !!! 2%nat) (h !!! 3%nat) (h !!! 4%nat) (h !!! 5%nat) (h !!! 6%nat) (h !!! 7%nat)
       (IV !!! 0%nat) (IV !!! 1%nat) (IV !!! 2%nat) (IV !!! 3%nat) v12 v13 v14 (IV !!! 7%nat)) in
  [Z.lxor (h !!! 0%nat) (Z.lxor v0 v8); Z.lxor (h !!! 1%nat) (Z.lxor v1 v9);
   Z.lxor (h !!! 2%nat) (Z.lxor v2 v10); Z.lxor (h !!! 3%nat) (Z.lxor v3 v11);
   Z.lxor (h !!! 4%nat) (Z.lxor v4 v12); Z.lxor (h !!! 5%nat) (Z.lxor v5 v13);
   Z.lxor (h !!! 6%nat) (Z.lxor v6 v14); Z.lxor (h !!! 7%nat) (Z.lxor v7 v15)].

(** ** RFC 7693 *)

(** [(x ^ y) >>> n] *)
Definition xor_rotr (x y n : Z) : Z :=
  let w := Z.lxor x y in Z.lor (Z.shiftr w n) (Z.shiftl w (64 - n) mod 2 ^ 64).

(** Half of the mixing function G: positions [a b c d] of the vector, the
    word [x] and the two rotations. G is the half with 32 and 24 followed by
    the half with 16 and 63. *)
Definition rfc_half (v : list Z) (a b c d : nat) (x r1 r2 : Z) : list Z :=
  let v := <[a := (v !!! a + v !!! b + x) mod 2 ^ 64]> v in
  let v := <[d := xor_rotr (v !!! d) (v !!! a) r1]> v in
  let v := <[c := (v !!! c + v !!! d) mod 2 ^ 64]> v in
  <[b := xor_rotr (v !!! b) (v !!! c) r2]> v.

Definition rfc_G (v : list Z) (a b c d : nat) (x y : Z) : list Z :=
  rfc_half (rfc_half v a b c d x 32 24) a b c d y 16 63.

Definition SIGMA : list (list nat) :=
  ([[0; 1; 2; 3; 4; 5; 6; 7; 8; 9; 10; 11; 12; 13; 14; 15];
    [14; 10; 4; 8; 9; 15; 13; 6; 1; 12; 0; 2; 11; 7; 5; 3];
    [11; 8; 12; 0; 5; 2; 15; 13; 10; 14; 3; 6; 7; 1; 9; 4];
    [7; 9; 3; 1; 13; 12; 11; 14; 2; 6; 5; 10; 4; 0; 15; 8];
    [9; 0; 5; 7; 2; 4; 10; 15; 14; 1; 11; 12; 6; 8; 3; 13];
    [2; 12; 6; 10; 0; 11; 8; 3; 4; 13; 7; 5; 15; 14; 1; 9];
    [12; 5; 1; 15; 14; 13; 4; 10; 0; 7; 6; 3; 9; 2; 8; 11];
    [13; 11; 7; 14; 12; 1; 3; 9; 5; 0; 15; 4; 8; 6; 2; 10];
    [6; 15; 14; 9; 11; 3; 0; 8; 12; 2; 13; 7; 1; 4; 10; 5];
    [10; 2; 8; 4; 7; 6; 1; 5; 15; 11; 9; 14; 3; 12; 13; 0]])%nat.

Definition rfc_round (m : list Z) (s : list nat) (v : list Z) : list Z :=
  let w i := m !!! (s !!! i) in
  let v := rfc_G v 0 4 8 12 (w 0%nat) (w 1%nat) in
  let v := rfc_G v 1 5 9 13 (w 2%nat) (w 3%nat) in
  let v := rfc_G v 2 6 10 14 (w 4%nat) (w 5%nat) in
  let v := rfc_G v 3 7 11 15 (w 6%nat) (w 7%nat) in
  let v := rfc_G v 0 5 10 15 (w 8%nat) (w 9%nat) in
  let v := rfc_G v 1 6 11 12 (w 10%nat) (w 11%nat) in
  let v := rfc_G v 2 7 8 13 (w 12%nat) (w 13%nat) in
  rfc_G v 3 4 9 14 (w 14%nat) (w 15%nat).

(** The rounds [0 .. r - 1] in order. *)
Definition rfc_rounds (m : list Z) (r : nat) (v : list Z) : list Z :=
  foldl (λ v i, rfc_round m (SIGMA !!! (i mod 10)%nat) v) v (seq 0 r).

Definition rfc_F (h m t : list Z) (f : bool) (r : nat) : list Z :=
  let v := h ++ IV in
  let v := <[12%nat := Z.lxor (v !!! 12%nat) (t !!! 0%nat)]> v in
  let v := <[13%nat := Z.lxor (v !!! 13%nat) (t !!! 1%nat)]> v in
  let v := if f then <[14%nat := Z.lxor (v !!! 14%nat) (2 ^ 64 - 1)]> v else v in
  let v := rfc_rounds m r v in
  imap (λ i x, Z.lxor x (Z.lxor (v !!! i) (v !!! (i + 8)%nat))) h.

(** ** The two agree *)

Lemma RotateLeft64_xor x y n :
  0 < n < 64 → xor_rotr x y n = RotateLeft64 (Z.lxor x y) (- n).
Proof.
  intros Hn. unfold RotateLeft64, xor_rotr. assert (Z.land (- n) 63 = 64 - n) as ->.
  { change 63 with (Z.ones 6). rewrite Z.land_ones by lia. change (2 ^ 6) with 64.
    symmetry. apply Z.mod_unique with (-1); lia. }
  rewrite Z.lor_comm. f_equal. f_equal. lia.
Qed.

Lemma add_word a b x : (a + b + x) mod 2 ^ 64 = u64 (u64 (a + x) + b).
Proof. unfold u64. rewrite Z.add_mod_idemp_l by lia. f_equal. lia. Qed.

(** The same with the operations in the code's form. *)
Definition code_half (v : list Z) (a b c d : nat) (x r1 r2 : Z) : list Z :=
  let v := <[a := u64 (u64 (v !!! a + x) + v !!! b)]> v in
  let v := <[d := RotateLeft64 (Z.lxor (v !!! d) (v !!! a)) (- r1)]> v in
  let v := <[c := u64 (v !!! c + v !!! d)]> v in
  <[b := RotateLeft64 (Z.lxor (v !!! b) (v !!! c)) (- r2)]> v.

Lemma rfc_half_code v a b c d x r1 r2 :
  0 < r1 < 64 → 0 < r2 < 64 → rfc_half v a b c d x r1 r2 = code_half v a b c d x r1 r2.
Proof.
  intros Hr1 Hr2. unfold rfc_half, code_half. cbv zeta. rewrite add_word. fold (u64).
  by rewrite !RotateLeft64_xor.
Qed.

Lemma rfc_G_code v a b c d x y :
  rfc_G v a b c d x y = code_half (code_half v a b c d x 32 24) a b c d y 16 63.
Proof. unfold rfc_G. by rewrite !rfc_half_code by lia. Qed.

(** The table of the code is SIGMA in the order of the half steps. *)
Definition half_steps (s : list nat) : list nat :=
  (λ i, s !!! i) <$> [0; 2; 4; 6; 1; 3; 5; 7; 8; 10; 12; 14; 9; 11; 13; 15]%nat.

Lemma precomputed_SIGMA : precomputed = half_steps <$> SIGMA.
Proof. vm_compute. reflexivity. Qed.

Definition vector (v : vars) : list Z :=
  [x0 v; x1 v; x2 v; x3 v; x4 v; x5 v; x6 v; x7 v; x8 v; x9 v; x10 v; x11 v; x12 v; x13 v; x14 v; x15 v].

Lemma F_round_rfc m s v : vector (F_round m (half_steps s) v) = rfc_round m s (vector v).
Proof.
  unfold rfc_round. rewrite !rfc_G_code. destruct v as [v0 v1 v2 v3 v4 v5 v6 v7 v8 v9 v10 v11 v12 v13 v14 v15].
  unfold F_round.
  change (half_steps s) with
    [s !!! 0; s !!! 2; s !!! 4; s !!! 6; s !!! 1; s !!! 3; s !!! 5; s !!! 7;
     s !!! 8; s !!! 10; s !!! 12; s !!! 14; s !!! 9; s !!! 11; s !!! 13; s !!! 15]%nat.
  cbn [lookup_total list_lookup_total].
  generalize (m !!! (s !!! 0%nat)), (m !!! (s !!! 1%nat)), (m !!! (s !!! 2%nat)), (m !!! (s !!! 3%nat)),
    (m !!! (s !!! 4%nat)), (m !!! (s !!! 5%nat)), (m !!! (s !!! 6%nat)), (m !!! (s !!! 7%nat)),
    (m !!! (s !!! 8%nat)), (m !!! (s !!! 9%nat)), (m !!! (s !!! 10%nat)), (m !!! (s !!! 11%nat)),
    (m !!! (s !!! 12%nat)), (m !!! (s !!! 13%nat)), (m !!! (s !!! 14%nat)), (m !!! (s !!! 15%nat)).
  intros.
  cbv -[u64 RotateLeft64 Z.lxor Z.add]. reflexivity.
Qed.

Lemma precomputed_row j : precomputed !!! (j mod 10)%nat = half_steps (SIGMA !!! (j mod 10)%nat).
Proof.
  rewrite precomputed_SIGMA. apply list_lookup_total_fmap. change (length SIGMA) with 10%nat.
  by apply Nat.mod_upper_bound.
Qed.

Lemma F_rounds_rfc m n j v :
  vector (F_rounds m n (Z.of_nat j) v)
  = foldl (λ v i, rfc_round m (SIGMA !!! (i mod 10)%nat) v) (vector v) (seq j n).
Proof.
  revert j v. induction n as [|n IH]; intros j v; [done|]. cbn [F_rounds seq foldl].
  replace (Z.of_nat j + 1) with (Z.of_nat (S j)) by lia. rewrite IH. f_equal.
  replace (Z.to_nat (Z.of_nat j mod 10)) with (j mod 10)%nat
    by (rewrite <- (Nat2Z.id (j mod 10)), Nat2Z.inj_mod; done).
  by rewrite precomputed_row, F_round_rfc.
Qed.

(** The code's compression function is that of the RFC. *)
Lemma F_rfc h m c f rounds :
  length h = 8%nat → 0 ≤ rounds → F h m c f rounds = rfc_F h m c f (Z.to_nat rounds).
Proof.
  intros Hh Hr. unfold rfc_F, rfc_rounds.
  do 8 (destruct h as [|? h]; [discriminate Hh|]). destruct h; [|discriminate Hh].
  set (v := V z z0 z1 z2 z3 z4 z5 z6 (IV !!! 0%nat) (IV !!! 1%nat) (IV !!! 2%nat) (IV !!! 3%nat)
    (Z.lxor (IV !!! 4%nat) (c !!! 0%nat)) (Z.lxor (IV !!! 5%nat) (c !!! 1%nat))
    (if f then Z.lxor (IV !!! 6%nat) 0xffffffffffffffff else IV !!! 6%nat) (IV !!! 7%nat)).
  match goal with |- _ = imap ?g _ => set (w := foldl _ _ _) end.
  assert (w = vector (F_rounds m (Z.to_nat rounds) 0 v)) as ->.
  { change 0 with (Z.of_nat 0). rewrite F_rounds_rfc. subst w. f_equal. by destruct f. }
  unfold F. cbv zeta. match goal with |- context [F_rounds m _ 0 ?u] => change u with v end.
  destruct (F_rounds m (Z.to_nat rounds) 0 v). reflexivity.
Qed.
