(* ===== verification/Precompiled.v ===== *)
(** * Precompiled contracts (state/runtime/precompiled)

    The contracts at the addresses 1 to 9: their prices, their code, and the
    runtime that dispatches to them. SHA-256, RIPEMD-160 and the curve
    bn256 come from other packages and are the operations of
    [PrecompiledLibs]; [maxAlloc] is the largest slice the Go runtime can
    allocate, above which [make] panics.

    All contracts copy their input through one buffer, [Precompiled.buf].
    [buf] is the array behind it up to its capacity; [get] returns the new
    array, the view [p.buf] and the rest of the input. [None] is a panic. *)

From Stdlib Require Import String.
From stdpp Require Import gmap.
From S2P Require Import Prelude BigInt Chain Types Runtime Rlp BlockTypes Hex Result Crypto Blake2.
#[local] Open Scope Z_scope.

Class PrecompiledLibs := {
  Sum256 : list Z → list Z;               (** [sha256.Sum256] *)
  ripemd160_Sum : list Z → list Z;        (** [ripemd160.New], [Write], [Sum] *)
  G1 : Type;
  G2 : Type;
  G1_Unmarshal : list Z → option G1;
  G1_Marshal : G1 → list Z;
  G1_Add : G1 → G1 → G1;
  G1_ScalarMult : G1 → Z → G1;
  G2_Unmarshal : list Z → option G2;
  PairingCheck : list G1 → list G2 → bool;
  maxAlloc : Z;
}.

(** What a contract's [run] returns: bytes or an error. *)
Definition runResult := result error (list Z).

Section precompiled.
Context `{Keccak, Rlp, Secp256k1, PrecompiledLibs}.

(** ** The buffer *)

(** The array grown to [needLen] bytes when it is smaller. *)
Definition extendByteSlice (b : list Z) (needLen : Z) : option (list Z) :=
  if (needLen <? 0) || (maxAlloc <? needLen) then None else
  Some (b ++ replicate (Z.to_nat (needLen - zlen b)) 0).

Definition leftPad (buf : list Z) (n : Z) : option (list Z) :=
  let l := zlen buf in
  if n <? l then Some buf else
  if maxAlloc <? n then None else
  Some (replicate (Z.to_nat (n - l)) 0 ++ buf).

(** [copy(dst[i:], src)] *)
Definition copyAt (dst : list Z) (i : nat) (src : list Z) : list Z :=
  take i dst ++ take (length dst - i) src ++ drop (i + length src) dst.

Definition get (buf input : list Z) (size : Z) : option (list Z * list Z * list Z) :=
  buf ← extendByteSlice buf size;
  let n := if zlen input <? size then zlen input else size in
  let view := take (Z.to_nat size) buf in
  let view := copyAt view 0 (take (Z.to_nat n) input) in
  let view := if n <? size then copyAt view (Z.to_nat n) (replicate (Z.to_nat (size - n)) 0) else view in
  Some (copyAt buf 0 view, view, drop (Z.to_nat n) input).

Definition getUint64 (buf input : list Z) : option (list Z * Z * list Z) :=
  '(buf, view, input) ← get buf input 32;
  Some (buf, be_decode (take 8 (drop 24 view)), input).

(** ** base.go *)

Definition baseGasCalc (input : list Z) (base word : Z) : Z :=
  u64 (base + u64 ((zlen input + 31) / 32 * word)).

Definition ecrecover_gas : Z := 3000.

Definition ecrecover_run (buf input : list Z) : option runResult :=
  '(_, input, _) ← get buf input 128;
  if existsb (λ x, negb (x =? 0)) (take 31 (drop 32 input)) then Some (Returns []) else
  let v := (input !!! 63%nat - 27) mod 256 in
  let r := SetBytes (take 32 (drop 64 input)) in
  let s := SetBytes (take 32 (drop 96 input)) in
  if negb (ValidateSignatureValues v (Some r) (Some s)) then Some (Returns []) else
  match Ecrecover (take 32 input) (take 64 (drop 64 input) ++ [v]) with
  | None => Some (Returns [])
  | Some pubKey =>
      if zlen pubKey <? 1 then None else
      Returns <$> leftPad (drop 12 (keccak256 (drop 1 pubKey))) 32
  end.

Definition identity_gas (input : list Z) : Z := baseGasCalc input 15 3.
Definition identity_run (input : list Z) : option runResult := Some (Returns input).

Definition sha256h_gas (input : list Z) : Z := baseGasCalc input 60 12.
Definition sha256h_run (input : list Z) : option runResult := Some (Returns (Sum256 input)).

Definition ripemd160h_gas (input : list Z) : Z := baseGasCalc input 600 120.
Definition ripemd160h_run (input : list Z) : option runResult := Returns <$> leftPad (ripemd160_Sum input) 32.

(** ** modexp.go *)

Definition adjustedExponentLength (expLen head : Z) : Z :=
  let bitlength := if negb (Z.sgn head =? 0) then u64 (BitLen head - 1) else 0 in
  if expLen <=? 32 then bitlength else (expLen - 32) * 8 + bitlength.

Definition subMul (x a b c : Z) : Z := x * b - c + big_div (x * x) a.

Definition multComplexity (x : Z) : Z :=
  if x <=? 64 then x * x
  else if x <=? 1024 then subMul x 4 96 3072
  else subMul x 16 480 199680.

Definition modExp_gas (buf input : list Z) : option Z :=
  '(buf, val, tail) ← get buf input 32;
  let baseLen := SetBytes val in
  '(buf, val, tail) ← get buf tail 32;
  let expLen := SetBytes val in
  '(buf, val, _) ← get buf tail 32;
  let modLen := SetBytes val in
  let input := if 96 <? zlen input then drop 96 input else [] in
  let expHeadLen := if expLen <? 32 then Uint64 expLen else 32 in
  let bLen := Uint64 baseLen in
  expHead ← (if bLen <? zlen input then
               '(_, val, _) ← get buf (drop (Z.to_nat bLen) input) (i64 expHeadLen); Some (SetBytes val)
             else Some 0);
  let gasCost := if baseLen <=? modLen then modLen else baseLen in
  let gasCost := multComplexity gasCost in
  let adjExpLen := adjustedExponentLength expLen expHead in
  let gasCost := if 1 <=? adjExpLen then gasCost * adjExpLen else gasCost * 1 in
  let gasCost := big_div gasCost 20 in
  Some (if negb (IsUint64 gasCost) then 2 ^ 64 - 1 else Uint64 gasCost).

(** [base.Exp(base, exponent, modulus)] for natural numbers and a modulus
    that is not zero. *)
Definition big_Exp (base exponent modulus : Z) : Z := base ^ exponent mod modulus.

Definition modExp_run (buf input : list Z) : option runResult :=
  '(buf, baseLen, input) ← getUint64 buf input;
  '(buf, exponentLen, input) ← getUint64 buf input;
  '(buf, modulusLen, input) ← getUint64 buf input;
  if (baseLen =? 0) && (modulusLen =? 0) then Some (Returns []) else
  '(buf, val, input) ← get buf input (i64 baseLen);
  let base := SetBytes val in
  '(buf, val, input) ← get buf input (i64 exponentLen);
  let exponent := SetBytes val in
  '(buf, val, _) ← get buf input (i64 modulusLen);
  let modulus := SetBytes val in
  let res := if negb (Z.sgn modulus =? 0) then Bytes (big_Exp base exponent modulus) else [] in
  Returns <$> leftPad res (i64 modulusLen).

(** ** bn256.go *)

Definition bn256Add_gas (config : ForksInTime) : Z := if Istanbul config then 150 else 500.

Definition bn256Add_run (buf input : list Z) : option runResult :=
  '(buf, val, input) ← get buf input 64;
  match G1_Unmarshal val with
  | None => Some (Errors errOther)
  | Some b1 =>
      '(_, val, _) ← get buf input 64;
      match G1_Unmarshal val with
      | None => Some (Errors errOther)
      | Some b2 => Some (Returns (G1_Marshal (G1_Add b1 b2)))
      end
  end.

Definition bn256Mul_gas (config : ForksInTime) : Z := if Istanbul config then 6000 else 40000.

Definition bn256Mul_run (buf input : list Z) : option runResult :=
  '(buf, v, input) ← get buf input 64;
  match G1_Unmarshal v with
  | None => Some (Errors errOther)
  | Some b0 =>
      '(_, v, _) ← get buf input 32;
      Some (Returns (G1_Marshal (G1_ScalarMult b0 (SetBytes v))))
  end.

Definition falseBytes : list Z := replicate 32 0.
Definition trueBytes : list Z := replicate 31 0 ++ [1].

Definition bn256Pairing_gas (input : list Z) (config : ForksInTime) : Z :=
  let '(baseGas, pointGas) := if Istanbul config then (45000, 34000) else (100000, 80000) in
  u64 (baseGas + u64 (pointGas * (zlen input / 192))).

(** The loop that reads [num] pairs of points. *)
Fixpoint readPairs (num : nat) (buf input : list Z) : option (result error (list G1 * list G2)) :=
  match num with
  | O => Some (Returns ([], []))
  | S num =>
      '(buf, view, input) ← get buf input 64;
      match G1_Unmarshal view with
      | None => Some (Errors errOther)
      | Some a0 =>
          '(buf, view, input) ← get buf input 128;
          match G2_Unmarshal view with
          | None => Some (Errors errOther)
          | Some b0 =>
              rest ← readPairs num buf input;
              Some ('(ar, br) ← rest; Returns (a0 :: ar, b0 :: br))
          end
      end
  end.

Definition bn256Pairing_run (buf input : list Z) : option runResult :=
  if zlen input =? 0 then Some (Returns trueBytes) else
  if negb (zlen input mod 192 =? 0) then Some (Errors errOther) else
  pairs ← readPairs (Z.to_nat (zlen input / 192)) buf input;
  Some ('(ar, br) ← pairs; Returns (if PairingCheck ar br then trueBytes else falseBytes)).

(** ** blake2f.go *)

Definition blake2f_gas (input : list Z) : Z :=
  if negb (zlen input =? 213) then 0 else be_decode (take 4 input).

(** [n] little-endian words of eight bytes. *)
Fixpoint le_uint64s (n : nat) (input : list Z) : list Z :=
  match n with
  | O => []
  | S n => be_decode (rev (take 8 input)) :: le_uint64s n (drop 8 input)
  end.

Definition PutUint64_le (x : Z) : list Z := rev (be_encode 8 x).

Definition blake2f_run (input : list Z) : option runResult :=
  if negb (zlen input =? 213) then Some (Errors errOther) else
  let lastByte := input !!! 212%nat in
  if negb (lastByte =? 0) && negb (lastByte =? 1) then Some (Errors errOther) else
  let rounds := be_decode (take 4 input) in
  let h := le_uint64s 8 (drop 4 input) in
  let m := le_uint64s 16 (drop 68 input) in
  let c := le_uint64s 2 (drop 196 input) in
  let flag := drop 196 input !!! 16%nat in
  Some (Returns (F h m c (flag =? 1) rounds ≫= PutUint64_le)).

(** ** precompiled.go *)

(** The values registered in [Precompiled.contracts]. *)
Inductive contract :=
  | ecrecover | sha256h | ripemd160h | identity
  | modExp | bn256Add | bn256Mul | bn256Pairing | blake2f.

(** The methods of the interface [contract]. *)
Definition contract_gas (c : contract) (buf input : list Z) (config : ForksInTime) : option Z :=
  match c with
  | ecrecover => Some ecrecover_gas
  | sha256h => Some (sha256h_gas input)
  | ripemd160h => Some (ripemd160h_gas input)
  | identity => Some (identity_gas input)
  | modExp => modExp_gas buf input
  | bn256Add => Some (bn256Add_gas config)
  | bn256Mul => Some (bn256Mul_gas config)
  | bn256Pairing => Some (bn256Pairing_gas input config)
  | blake2f => Some (blake2f_gas input)
  end.

Definition contract_run (c : contract) (buf input : list Z) : option runResult :=
  match c with
  | ecrecover => ecrecover_run buf input
  | sha256h => sha256h_run input
  | ripemd160h => ripemd160h_run input
  | identity => identity_run input
  | modExp => modExp_run buf input
  | bn256Add => bn256Add_run buf input
  | bn256Mul => bn256Mul_run buf input
  | bn256Pairing => bn256Pairing_run buf input
  | blake2f => blake2f_run input
  end.

Definition register (addrStr : list Z) (b : contract) (contracts : gmap Address contract) : gmap Address contract :=
  <[StringToAddress addrStr := b]> contracts.

Definition setupContracts : gmap Address contract :=
  register (lit "9") blake2f (register (lit "8") bn256Pairing (register (lit "7") bn256Mul
  (register (lit "6") bn256Add (register (lit "5") modExp (register (lit "4") identity
  (register (lit "3") ripemd160h (register (lit "2") sha256h (register (lit "1") ecrecover ∅)))))))).

Definition CanRun (c : Contract) (config : ForksInTime) : bool :=
  match setupContracts !! CodeAddress c with
  | None => false
  | Some _ =>
      if bool_decide (CodeAddress c ∈ StringToAddress <$> [lit "5"; lit "6"; lit "7"; lit "8"]) then Byzantium config
      else if bool_decide (CodeAddress c = StringToAddress (lit "9")) then Istanbul config
      else true
  end.

(** The array behind the buffer is that of before for the price and for the
    code; which one it is makes no difference. *)
Definition Precompiled_Run (buf buf' : list Z) (c : Contract) (config : ForksInTime) : option ExecutionResult :=
  contract ← setupContracts !! CodeAddress c;
  gasCost ← contract_gas contract buf (Input c) config;
  if Gas c <? gasCost then
    Some {| ReturnValue := []; GasLeft := 0; GasUsed := 0; Err := Some ErrOutOfGas |}
  else
    let gas := u64 (Gas c - gasCost) in
    r ← contract_run contract buf' (Input c);
    match r with
    | Returns returnValue => Some {| ReturnValue := returnValue; GasLeft := gas; GasUsed := 0; Err := None |}
    | Errors err => Some {| ReturnValue := []; GasLeft := 0; GasUsed := 0; Err := Some err |}
    | Panics => None
    end.

End precompiled.
