(* ===== verification/PrecompiledProps.v ===== *)
(** * Properties of the precompiled contracts

    [get] reads the input as if it were followed by zeros, whatever the
    shared buffer holds. The contract for modular exponentiation computes
    and prices what EIP-198 defines, the contract for the compression
    function of BLAKE2b what EIP-152 defines. *)

From Stdlib Require Import String.
From stdpp Require Import gmap.
From S2P Require Import Prelude BigInt Chain Types Runtime Rlp BlockTypes Hex Result Crypto CryptoProps Blake2 Precompiled.
#[local] Open Scope Z_scope.

(** ** Reading the input *)

(** The first [n] bytes of [l] followed by zeros. *)
Definition padded (n : nat) (l : list Z) : list Z := take n l ++ replicate (n - length l) 0.

Lemma length_padded n l : length (padded n l) = n.
Proof. unfold padded. rewrite length_app, length_take, length_replicate. lia. Qed.

Lemma padded_ok n l : bytes_ok l → bytes_ok (padded n l).
Proof. intros Hl. apply Forall_app. split; [by apply Forall_take|]. apply Forall_replicate. red. lia. Qed.

Lemma padded_nil n : padded n [] = replicate n 0.
Proof. unfold padded. rewrite take_nil. cbn [length]. by rewrite Nat.sub_0_r. Qed.

Lemma copyAt_start dst src : (length src ≤ length dst)%nat → copyAt dst 0 src = src ++ drop (length src) dst.
Proof. intros Hl. unfold copyAt. rewrite take_0, (take_ge src) by lia. done. Qed.

Lemma copyAt_end l1 l2 src :
  length l2 = length src → copyAt (l1 ++ l2) (length l1) src = l1 ++ src.
Proof.
  intros Hl. unfold copyAt. rewrite take_app_length, length_app, take_ge by lia.
  rewrite drop_ge by (rewrite length_app; lia). by rewrite app_nil_r.
Qed.

Section reading.
Context `{Keccak, Rlp, Secp256k1, PrecompiledLibs}.

Lemma get_spec buf input size :
  0 ≤ size ≤ maxAlloc →
  ∃ buf', get buf input size = Some (buf', padded (Z.to_nat size) input, drop (Z.to_nat size) input).
Proof.
  intros Hs. unfold get, extendByteSlice.
  rewrite (proj2 (Z.ltb_ge size 0)), (proj2 (Z.ltb_ge maxAlloc size)) by lia. cbn [orb mbind option_bind].
  set (b := buf ++ _). set (n := if zlen input <? size then _ else _). set (view := take (Z.to_nat size) b).
  assert (length view = Z.to_nat size) as Hview.
  { unfold view, b, zlen. rewrite length_take, length_app, length_replicate. lia. }
  assert (n = size `min` zlen input) as Hn by (unfold n, zlen; destruct (Z.ltb_spec (Z.of_nat (length input)) size); lia).
  assert (length (take (Z.to_nat n) input) = Z.to_nat n) as Hk by (rewrite length_take; unfold zlen in Hn; lia).
  unfold zlen in Hn. eexists. f_equal. apply f_equal2; [apply f_equal2; [reflexivity|]|].
  - rewrite copyAt_start, Hk by lia. unfold padded. destruct (Z.ltb_spec n size) as [Hlt|Hge].
    + rewrite <-Hk at 3. rewrite copyAt_end by (rewrite length_drop, length_replicate; lia).
      rewrite (take_ge input), (take_ge input) by lia. do 2 f_equal. lia.
    + rewrite drop_ge by lia. replace (Z.to_nat size - length input)%nat with 0%nat by lia.
      replace n with size by lia. done.
  - destruct (Z.le_gt_cases size (Z.of_nat (length input))); [f_equal; lia|].
    rewrite !drop_ge by lia. done.
Qed.

(** The bytes [off .. off + len - 1] of the input as a number. *)
Definition word_at (data : list Z) (off len : Z) : Z :=
  be_decode (padded (Z.to_nat len) (drop (Z.to_nat off) data)).

Lemma word_at_range data off len : bytes_ok data → 0 ≤ len → 0 ≤ word_at data off len < 256 ^ len.
Proof.
  intros Hd Hl. unfold word_at. pose proof (be_decode_range (padded (Z.to_nat len) (drop (Z.to_nat off) data))) as Hr.
  unfold zlen in Hr. rewrite length_padded, Z2Nat.id in Hr by lia. apply Hr, padded_ok. by apply Forall_drop.
Qed.

Lemma word_at_beyond data off len : zlen data ≤ off → word_at data off len = 0.
Proof.
  intros Ho. unfold word_at. rewrite drop_ge by (unfold zlen in Ho; lia). rewrite padded_nil. apply be_decode_zeros.
Qed.

Lemma get_word buf data off len off' :
  0 ≤ off → 0 ≤ len ≤ maxAlloc → off' = off + len →
  ∃ buf', get buf (drop (Z.to_nat off) data) len
    = Some (buf', padded (Z.to_nat len) (drop (Z.to_nat off) data), drop (Z.to_nat off') data).
Proof.
  intros Ho Hl ->. destruct (get_spec buf (drop (Z.to_nat off) data) len Hl) as [buf' ->].
  exists buf'. rewrite drop_drop. do 4 f_equal. lia.
Qed.

End reading.

(** ** EIP-198 *)

Definition eip198_complexity (x : Z) : Z :=
  if x <=? 64 then x ^ 2 else if x <=? 1024 then x ^ 2 / 4 + 96 * x - 3072 else x ^ 2 / 16 + 480 * x - 199680.

(** The index of the highest bit, zero for zero. *)
Definition highest_bit (x : Z) : Z := if x =? 0 then 0 else Z.log2 x.

(** Price for a base and a modulus of at most [x] bytes and an exponent of
    [E] bytes whose first 32 bytes are [head]. *)
Definition eip198_price (x E head : Z) : Z :=
  eip198_complexity x * (8 * (E - 32) `max` 0 + highest_bit head) `max` 1 / 20.

(** The lengths in the first three words, and the numbers that follow. *)
Definition eip198_B (data : list Z) : Z := word_at data 0 32.
Definition eip198_E (data : list Z) : Z := word_at data 32 32.
Definition eip198_M (data : list Z) : Z := word_at data 64 32.

Definition eip198_gas (data : list Z) : Z :=
  let B := eip198_B data in let E := eip198_E data in
  eip198_price (B `max` eip198_M data) E (word_at data (96 + B) (E `min` 32)).

Definition eip198_output (data : list Z) : list Z :=
  let B := eip198_B data in let E := eip198_E data in let M := eip198_M data in
  let base := word_at data 96 B in
  let exponent := word_at data (96 + B) E in
  let modulus := word_at data (96 + B + E) M in
  if (B =? 0) && (M =? 0) then [] else
  be_encode (Z.to_nat M) (if modulus =? 0 then 0 else base ^ exponent mod modulus).

Lemma multComplexity_eip x : multComplexity x = eip198_complexity x.
Proof.
  unfold multComplexity, eip198_complexity, subMul, big_div. rewrite !Z.pow_2_r.
  change (Z.sgn 4) with 1. change (Z.sgn 16) with 1. change (Z.abs 4) with 4. change (Z.abs 16) with 16.
  repeat case_match; lia.
Qed.

Lemma complexity_ge x : 0 ≤ x → x ≤ eip198_complexity x.
Proof.
  intros Hx. unfold eip198_complexity. rewrite Z.pow_2_r.
  destruct (Z.leb_spec x 64); [nia|]. destruct (Z.leb_spec x 1024).
  - pose proof (Z.div_pos (x * x) 4 ltac:(nia) ltac:(lia)). lia.
  - pose proof (Z.div_pos (x * x) 16 ltac:(nia) ltac:(lia)). lia.
Qed.

Lemma complexity_large x : 2 ^ 64 ≤ x → 20 * 2 ^ 64 ≤ eip198_complexity x.
Proof.
  intros Hx. unfold eip198_complexity. rewrite (proj2 (Z.leb_gt x 64)), (proj2 (Z.leb_gt x 1024)) by lia.
  rewrite Z.pow_2_r. pose proof (Z.div_le_lower_bound (x * x) 16 (2 ^ 64) ltac:(lia) ltac:(nia)). lia.
Qed.

Lemma adjustedExponentLength_eip E head :
  0 ≤ E → 0 ≤ head < 2 ^ 256 →
  adjustedExponentLength E head = 8 * (E - 32) `max` 0 + highest_bit head.
Proof.
  intros HE Hh. unfold adjustedExponentLength, highest_bit, BitLen.
  assert ((Z.sgn head =? 0) = (head =? 0)) as -> by (destruct (Z.eqb_spec (Z.sgn head) 0), (Z.eqb_spec head 0); lia).
  destruct (Z.eqb_spec head 0) as [->|Hne]; cbn [negb].
  - destruct (Z.leb_spec E 32); lia.
  - rewrite Z.abs_eq, Z.add_simpl_r by lia. pose proof (Z.log2_nonneg head).
    assert (Z.log2 head < 256) by (apply Z.log2_lt_pow2; lia). rewrite u64_small by lia.
    destruct (Z.leb_spec E 32); lia.
Qed.

(** The end of [modExp_gas]. *)
Lemma price_eip B M E head :
  0 ≤ B → 0 ≤ M → 0 ≤ E → 0 ≤ head < 2 ^ 256 →
  (let gasCost := multComplexity (if B <=? M then M else B) in
   let adj := adjustedExponentLength E head in
   let gasCost := big_div (if 1 <=? adj then gasCost * adj else gasCost * 1) 20 in
   if negb (IsUint64 gasCost) then 2 ^ 64 - 1 else Uint64 gasCost)
  = (2 ^ 64 - 1) `min` eip198_price (B `max` M) E head.
Proof.
  intros HB HM HE Hh. cbv zeta. rewrite multComplexity_eip, adjustedExponentLength_eip by done.
  replace (if B <=? M then M else B) with (B `max` M) by (destruct (Z.leb_spec B M); lia).
  unfold eip198_price, big_div. change (Z.sgn 20) with 1. change (Z.abs 20) with 20. rewrite Z.mul_1_l.
  set (adj := _ + _). set (c := eip198_complexity _).
  replace (if 1 <=? adj then c * adj else c * 1) with (c * adj `max` 1) by (destruct (Z.leb_spec 1 adj); nia).
  assert (0 ≤ c) by (pose proof (complexity_ge (B `max` M)); lia).
  set (g := c * _ / 20). assert (0 ≤ g) by (apply Z.div_pos; nia).
  destruct (IsUint64 g) eqn:E64; cbn [negb].
  - apply IsUint64_spec in E64. rewrite Uint64_small by done. lia.
  - assert (¬ 0 ≤ g < 2 ^ 64) by (rewrite <-IsUint64_spec, E64; done). lia.
Qed.

Section modexp.
Context `{Keccak, Rlp, Secp256k1, PrecompiledLibs}.
Variable data : list Z.
Hypothesis Hdata : bytes_ok data.
Hypothesis Halloc : 32 ≤ maxAlloc < 2 ^ 63.

Lemma length_word_range off : 0 ≤ word_at data off 32 < 2 ^ 256.
Proof. apply (word_at_range data off 32 Hdata). lia. Qed.

Lemma after_lengths : (if 96 <? zlen data then drop 96 data else []) = drop 96 data.
Proof. unfold zlen. destruct (Z.ltb_spec 96 (Z.of_nat (length data))); [done|]. by rewrite drop_ge by lia. Qed.

(** The head of the exponent as [gas] reads it, for a base that fits. *)
Lemma exponent_head buf B n :
  0 ≤ B → 0 ≤ n ≤ 32 →
  ∃ head, (if B <? zlen (drop 96 data) then
             '(_, val, _) ← get buf (drop (Z.to_nat B) (drop 96 data)) n; Some (SetBytes val)
           else Some 0) = Some head ∧ head = word_at data (96 + B) n.
Proof.
  intros HB Hn. unfold zlen. rewrite length_drop. destruct (Z.ltb_spec B (Z.of_nat (length data - 96))) as [Hlt|Hge].
  - rewrite drop_drop. replace (96 + Z.to_nat B)%nat with (Z.to_nat (96 + B)) by lia.
    destruct (get_word buf data (96 + B) n (96 + B + n)) as (buf' & ->); [lia..|done|]. cbn. eauto.
  - exists 0. split; [done|]. symmetry. apply word_at_beyond. unfold zlen. lia.
Qed.

Lemma modExp_gas_eip buf :
  modExp_gas buf data = Some ((2 ^ 64 - 1) `min` eip198_gas data).
Proof.
  unfold modExp_gas. change (get buf data 32) with (get buf (drop (Z.to_nat 0) data) 32).
  destruct (get_word buf data 0 32 32) as (b1 & ->); [lia..|done|]. cbn [mbind option_bind].
  destruct (get_word b1 data 32 32 64) as (b2 & ->); [lia..|done|]. cbn [mbind option_bind].
  destruct (get_word b2 data 64 32 96) as (b3 & ->); [lia..|done|]. cbn [mbind option_bind].
  change (SetBytes (padded (Z.to_nat 32) (drop (Z.to_nat 0) data))) with (eip198_B data).
  change (SetBytes (padded (Z.to_nat 32) (drop (Z.to_nat 32) data))) with (eip198_E data).
  change (SetBytes (padded (Z.to_nat 32) (drop (Z.to_nat 64) data))) with (eip198_M data).
  rewrite after_lengths. unfold eip198_gas.
  pose proof (length_word_range 0) as HB. fold (eip198_B data) in HB.
  pose proof (length_word_range 32) as HE. fold (eip198_E data) in HE.
  pose proof (length_word_range 64) as HM. fold (eip198_M data) in HM.
  set (B := eip198_B data) in *. set (E := eip198_E data) in *. set (M := eip198_M data) in *.
  replace (i64 (if E <? 32 then Uint64 E else 32)) with (E `min` 32).
  2: { destruct (Z.ltb_spec E 32); [rewrite Uint64_small by lia|]; rewrite i64_small by lia; lia. }
  destruct (exponent_head b3 (Uint64 B) (E `min` 32)) as (head & -> & Hhead);
    [pose proof (Uint64_range B); lia|lia|]. cbn [mbind option_bind]. f_equal.
  assert (0 ≤ head < 2 ^ 256) as Hhr.
  { subst head. pose proof (word_at_range data (96 + Uint64 B) (E `min` 32) Hdata ltac:(lia)) as Hw.
    pose proof (Z.pow_le_mono_r 256 (E `min` 32) 32 ltac:(lia) ltac:(lia)). change (256 ^ 32) with (2 ^ 256) in *. lia. }
  etransitivity; [apply (price_eip B M E head); lia|].
  destruct (Z.lt_ge_cases B (2 ^ 64)) as [Hlt|Hge].
  - rewrite Uint64_small in Hhead by lia. by rewrite Hhead.
  - assert (∀ h, 2 ^ 64 ≤ eip198_price (B `max` M) E h) as Hbig; [|by rewrite !Z.min_l by (apply Z.lt_le_incl, Z.lt_le_trans with (2 ^ 64); [lia|apply Hbig])].
    intros h. unfold eip198_price. apply Z.div_le_lower_bound; [lia|].
    pose proof (complexity_large (B `max` M) ltac:(lia)). nia.
Qed.

(** What the price bounds. *)
Lemma price_bounds x E head :
  1 ≤ x → x ≤ 20 * eip198_price x E head + 19 ∧ 8 * (E - 32) ≤ 20 * eip198_price x E head + 19.
Proof.
  intros Hx. unfold eip198_price. pose proof (complexity_ge x ltac:(lia)).
  assert (0 ≤ highest_bit head) by (unfold highest_bit; case_match; [lia|apply Z.log2_nonneg]).
  set (a := (_ + _) `max` 1). set (c := eip198_complexity x) in *.
  assert (1 ≤ a ∧ 8 * (E - 32) ≤ a) as [Ha1 Ha2] by lia. pose proof (Z.mul_succ_div_gt (c * a) 20 ltac:(lia)). nia.
Qed.

(** A length below [2^64] is read in full. *)
Lemma getUint64_word buf off off' :
  0 ≤ off → off' = off + 32 →
  ∃ buf' n, getUint64 buf (drop (Z.to_nat off) data) = Some (buf', n, drop (Z.to_nat off') data) ∧
    (word_at data off 32 < 2 ^ 64 → n = word_at data off 32).
Proof.
  intros Ho Ho'. unfold getUint64. destruct (get_word buf data off 32 off') as (b & ->); [lia..|].
  cbn [mbind option_bind]. eexists b, _. split; [done|]. unfold word_at. set (v := padded _ _).
  assert (length v = 32%nat) as Hlen by apply length_padded.
  assert (bytes_ok v) as Hok by (by apply padded_ok, Forall_drop).
  rewrite (take_ge (drop 24 v)) by (rewrite length_drop; lia).
  rewrite <-(take_drop 24 v) at 1 3. rewrite be_decode_app. unfold zlen. rewrite length_drop, Hlen.
  pose proof (be_decode_range (take 24 v) (Forall_take _ _ _ Hok)).
  pose proof (be_decode_range (drop 24 v) (Forall_drop _ _ _ Hok)). change (256 ^ Z.of_nat (32 - 24)) with (2 ^ 64). nia.
Qed.

Lemma leftPad_number x n :
  0 ≤ n ≤ maxAlloc → 0 ≤ x < 256 ^ n → leftPad (Bytes x) n = Some (be_encode (Z.to_nat n) x).
Proof.
  intros Hn Hx. unfold leftPad. pose proof (length_Bytes x) as Hl.
  assert (zlen (Bytes x) ≤ n) as Hle.
  { rewrite Hl. assert (BitLen x ≤ 8 * n) by (apply BitLen_spec; [lia|]; rewrite Z.abs_eq, <-pow256 by lia; lia).
    apply Z.lt_succ_r, Z.div_lt_upper_bound; lia. }
  rewrite (proj2 (Z.ltb_ge _ _)), (proj2 (Z.ltb_ge maxAlloc n)) by lia. f_equal.
  assert (bytes_ok (replicate (Z.to_nat (n - zlen (Bytes x))) 0 ++ Bytes x)) as Hok.
  { apply Forall_app; split; [apply Forall_replicate; red; lia|apply Bytes_ok]. }
  rewrite <-(be_encode_decode _ Hok). f_equal.
  - unfold zlen in *. rewrite length_app, length_replicate. lia.
  - rewrite be_decode_app, be_decode_zeros, Z.mul_0_l. apply SetBytes_Bytes. lia.
Qed.

Lemma modExp_run_eip buf :
  20 * (eip198_gas data + 1) + 32 ≤ maxAlloc →
  modExp_run buf data = Some (Returns (eip198_output data)).
Proof.
  intros Hgas. unfold eip198_gas in Hgas. unfold modExp_run, eip198_output.
  change (getUint64 buf data) with (getUint64 buf (drop (Z.to_nat 0) data)).
  pose proof (length_word_range 0) as HB. pose proof (length_word_range 32) as HE. pose proof (length_word_range 64) as HM.
  fold (eip198_B data) in HB. fold (eip198_E data) in HE. fold (eip198_M data) in HM.
  set (B := eip198_B data) in *. set (E := eip198_E data) in *. set (M := eip198_M data) in *.
  assert (B = 0 ∧ M = 0 ∨ B `max` M ≠ 0 ∧ B ≤ maxAlloc ∧ M ≤ maxAlloc ∧ E ≤ maxAlloc) as Hsmall.
  { destruct (Z.eq_dec (B `max` M) 0); [left; lia|right].
    destruct (price_bounds (B `max` M) E (word_at data (96 + B) (E `min` 32))) as [H1' H2']; [lia|]. lia. }
  destruct (getUint64_word buf 0 32) as (b1 & nB & -> & HnB); [lia..|]. cbn [mbind option_bind].
  destruct (getUint64_word b1 32 64) as (b2 & nE & -> & HnE); [lia..|]. cbn [mbind option_bind].
  destruct (getUint64_word b2 64 96) as (b3 & nM & -> & HnM); [lia..|]. cbn [mbind option_bind].
  fold (eip198_B data) in HnB. fold (eip198_E data) in HnE. fold (eip198_M data) in HnM. fold B in HnB. fold E in HnE. fold M in HnM.
  rewrite HnB, HnM by (destruct Hsmall; lia). destruct Hsmall as [[-> ->]|(Hne & HB' & HM' & HE')]; [done|].
  rewrite HnE by lia. rewrite (i64_small B), (i64_small E), (i64_small M) by lia.
  destruct ((B =? 0) && (M =? 0)) eqn:Hz; [apply andb_true_iff in Hz as [?%Z.eqb_eq ?%Z.eqb_eq]; lia|].
  destruct (get_word b3 data 96 B (96 + B)) as (b4 & ->); [lia..|]. cbn [mbind option_bind].
  destruct (get_word b4 data (96 + B) E (96 + B + E)) as (b5 & ->); [lia..|]. cbn [mbind option_bind].
  destruct (get_word b5 data (96 + B + E) M (96 + B + E + M)) as (b6 & ->); [lia..|]. cbn [mbind option_bind].
  change (SetBytes (padded (Z.to_nat ?n) (drop (Z.to_nat ?o) data))) with (word_at data o n).
  pose proof (word_at_range data (96 + B + E) M Hdata ltac:(lia)) as Hm.
  set (m := word_at data (96 + B + E) M) in *.
  assert ((Z.sgn m =? 0) = (m =? 0)) as -> by (destruct (Z.eqb_spec (Z.sgn m) 0), (Z.eqb_spec m 0); lia).
  destruct (Z.eqb_spec m 0) as [Hm0|Hm0]; cbn [negb].
  - change ([] : list Z) with (Bytes 0). rewrite leftPad_number by lia. done.
  - unfold big_Exp. rewrite leftPad_number; [done|lia|]. pose proof (Z.mod_pos_bound (word_at data 96 B ^ word_at data (96 + B) E) m). lia.
Qed.

End modexp.

(** ** All contracts *)

(** A marshalled public key has a first byte, and slices of 128 bytes can be
    allocated. *)
Class PrecompiledLaws `{Secp256k1, PrecompiledLibs} : Prop := {
  MarshalPublicKey_length k : length (MarshalPublicKey k) = 65%nat;
  maxAlloc_range : 128 ≤ maxAlloc < 2 ^ 63;
}.

Section total.
Context `{!Keccak, !Fastrlp, !Rlp, !Secp256k1, !PrecompiledLibs, !PrecompiledLaws}.

(** The computation is the same for every buffer, and does not panic. *)
Definition settled {A} (f : list Z → option A) (P : A → Prop) : Prop := ∃ a, P a ∧ ∀ buf, f buf = Some a.

Lemma settled_const {A} (a : A) (P : A → Prop) : P a → settled (λ _, Some a) P.
Proof. intros Ha. by exists a. Qed.

Lemma settled_get {A} input size (k : list Z → list Z → list Z → option A) P :
  0 ≤ size ≤ 128 →
  settled (λ buf, k buf (padded (Z.to_nat size) input) (drop (Z.to_nat size) input)) P →
  settled (λ buf, '(buf, view, rest) ← get buf input size; k buf view rest) P.
Proof.
  intros Hs (a & Ha & Hk). exists a. split; [done|]. intros buf. pose proof maxAlloc_range.
  destruct (get_spec buf input size) as [buf' ->]; [lia|]. apply Hk.
Qed.

Lemma leftPad_total l n : 0 ≤ n ≤ 128 → ∃ l', leftPad l n = Some l'.
Proof.
  intros Hn. unfold leftPad. pose proof maxAlloc_range. destruct (n <? zlen l); [eauto|].
  rewrite (proj2 (Z.ltb_ge maxAlloc n)) by lia. eauto.
Qed.

Definition no_panic (r : runResult) : Prop := r ≠ Panics.

Lemma settled_leftPad l n : 0 ≤ n ≤ 128 → settled (λ _, Returns <$> leftPad l n) no_panic.
Proof. intros Hn. destruct (leftPad_total l n Hn) as [l' ->]. by apply settled_const. Qed.

Lemma readPairs_total num input : settled (λ buf, readPairs num buf input) (λ r, r ≠ Panics).
Proof.
  revert input. induction num as [|num IH]; intros input; cbn [readPairs]; [by apply settled_const|].
  apply settled_get; [lia|]. destruct (G1_Unmarshal _); [|by apply settled_const].
  apply settled_get; [lia|]. destruct (G2_Unmarshal _); [|by apply settled_const].
  destruct (IH (drop (Z.to_nat 128) (drop (Z.to_nat 64) input))) as (r & Hr & Hk).
  eexists. split; [|intros buf; rewrite Hk; reflexivity]. by destruct r as [[]| |].
Qed.

Lemma contract_run_total c input :
  bytes_ok input → (c = modExp → 20 * (eip198_gas input + 1) + 32 ≤ maxAlloc) →
  settled (λ buf, contract_run c buf input) no_panic.
Proof.
  intros Hin Hmod. destruct c; cbn [contract_run].
  - unfold ecrecover_run. apply settled_get; [lia|]. destruct (existsb _ _); [by apply settled_const|].
    destruct (ValidateSignatureValues _ _ _); cbn [negb]; [|by apply settled_const].
    unfold Ecrecover. destruct (RecoverPubkey _ _) as [pub|]; cbn [mbind option_bind]; [|by apply settled_const].
    unfold zlen. rewrite MarshalPublicKey_length. cbn [Z.of_nat Z.ltb Z.compare]. by apply settled_leftPad.
  - by apply settled_const.
  - by apply settled_leftPad.
  - by apply settled_const.
  - exists (Returns (eip198_output input)). split; [done|]. intros buf. pose proof maxAlloc_range.
    apply modExp_run_eip; [done|lia|auto].
  - unfold bn256Add_run. apply settled_get; [lia|]. destruct (G1_Unmarshal _); [|by apply settled_const].
    apply settled_get; [lia|]. destruct (G1_Unmarshal _); by apply settled_const.
  - unfold bn256Mul_run. apply settled_get; [lia|]. destruct (G1_Unmarshal _); [|by apply settled_const].
    apply settled_get; [lia|]. by apply settled_const.
  - unfold bn256Pairing_run. destruct (_ =? 0); [by apply settled_const|]. destruct (negb _); [by apply settled_const|].
    destruct (readPairs_total (Z.to_nat (zlen input / 192)) input) as (r & Hr & Hk).
    eexists. split; [|intros buf; rewrite Hk; reflexivity]. by destruct r as [[]| |].
  - unfold blake2f_run. destruct (negb _); [by apply settled_const|]. destruct (_ && _); by apply settled_const.
Qed.

Lemma contract_gas_total c input config :
  bytes_ok input →
  settled (λ buf, contract_gas c buf input config)
    (λ g, 0 ≤ g ∧ (c = modExp → g = (2 ^ 64 - 1) `min` eip198_gas input)).
Proof.
  intros Hin. pose proof maxAlloc_range.
  assert (∀ g, 0 ≤ g → c ≠ modExp → settled (λ _, Some g) (λ g, 0 ≤ g ∧ (c = modExp → g = (2 ^ 64 - 1) `min` eip198_gas input)))
    as Hconst by (intros g Hg Hc; by apply settled_const).
  destruct c; cbn [contract_gas]; try (apply Hconst; [|done]).
  all: try (unfold ecrecover_gas, bn256Add_gas, bn256Mul_gas; case_match; lia).
  all: try apply u64_range.
  - done.
  - eexists. split; [|intros buf; apply modExp_gas_eip; [done|lia]]. split; [|done].
    assert (0 ≤ eip198_gas input); [|lia]. unfold eip198_gas, eip198_price.
    pose proof (complexity_ge (eip198_B input `max` eip198_M input)) as Hc.
    pose proof (word_at_range input 0 32 Hin). fold (eip198_B input) in *. apply Z.div_pos; [|lia].
    specialize (Hc ltac:(lia)). nia.
  - unfold bn256Pairing_gas. case_match. apply u64_range.
  - unfold blake2f_gas. case_match; [lia|]. apply (be_decode_range (take 4 input)). by apply Forall_take.
Qed.

(** A run of a contract with the price [g] and the outcome [r]. *)
Definition charged (gas g : Z) (r : runResult) : ExecutionResult :=
  if gas <? g then {| ReturnValue := []; GasLeft := 0; GasUsed := 0; Err := Some ErrOutOfGas |} else
  match r with
  | Returns v => {| ReturnValue := v; GasLeft := gas - g; GasUsed := 0; Err := None |}
  | Errors e => {| ReturnValue := []; GasLeft := 0; GasUsed := 0; Err := Some e |}
  | Panics => {| ReturnValue := []; GasLeft := 0; GasUsed := 0; Err := None |}
  end.

Lemma Precompiled_Run_charged buf buf' c config k g r :
  setupContracts !! CodeAddress c = Some k → contract_gas k buf (Input c) config = Some g →
  0 ≤ g → Gas c < 2 ^ 64 → (g ≤ Gas c → contract_run k buf' (Input c) = Some r ∧ r ≠ Panics) →
  Precompiled_Run buf buf' c config = Some (charged (Gas c) g r).
Proof.
  intros Hk Hg Hg0 Hgas Hr. unfold Precompiled_Run, charged. rewrite Hk. cbn [mbind option_bind]. rewrite Hg.
  cbn [mbind option_bind]. destruct (Z.ltb_spec (Gas c) g); [done|]. destruct Hr as [-> Hr]; [lia|].
  cbn [mbind option_bind]. rewrite u64_small by lia. by destruct r.
Qed.

End total.

(** ** BLAKE2b *)

Lemma blake2f_cases `{!Keccak, !Fastrlp, !Rlp, !Secp256k1, !PrecompiledLibs} buf buf' c config :
  setupContracts !! CodeAddress c = Some blake2f → (zlen (Input c) =? 213) = true → bytes_ok (Input c) →
  0 ≤ be_decode (take 4 (Input c)) → Gas c < 2 ^ 64 →
  let input := Input c in
  let rounds := be_decode (take 4 input) in
  Precompiled_Run buf buf' c config = Some (
    if input !!! 212%nat <=? 1 then
      charged (Gas c) rounds (Returns (rfc_F (le_uint64s 8 (drop 4 input)) (le_uint64s 16 (drop 68 input))
        (le_uint64s 2 (drop 196 input)) (input !!! 212%nat =? 1) (Z.to_nat rounds) ≫= PutUint64_le))
    else charged (Gas c) rounds (Errors errOther)).
Proof.
  intros Hk Hlen Hin Hr Hgas input rounds. fold input in Hlen, Hin.
  assert (length input = 213%nat) as Hl by (apply Z.eqb_eq in Hlen; unfold zlen in Hlen; lia).
  assert (byte_ok (input !!! 212%nat)) as Hb.
  { apply (proj1 (Forall_forall _ _) Hin), list_elem_of_lookup_total_2. lia. }
  assert (drop 196 input !!! 16%nat = input !!! 212%nat) as Hflag.
  { apply Some_inj. rewrite <-!list_lookup_lookup_total_lt by (rewrite ?length_drop; lia). by rewrite lookup_drop. }
  assert (contract_gas blake2f buf input config = Some rounds) as Hg.
  { cbn [contract_gas]. unfold blake2f_gas. by rewrite Hlen. }
  assert (∀ r, r ≠ Panics → contract_run blake2f buf' input = Some r →
    Precompiled_Run buf buf' c config = Some (charged (Gas c) rounds r)) as Hrun.
  { intros r Hr1 Hr2. apply (Precompiled_Run_charged _ _ _ _ blake2f); done. }
  destruct (Z.leb_spec (input !!! 212%nat) 1) as [Hle|Hgt]; apply Hrun; [done| |done|];
    cbn [contract_run]; unfold blake2f_run; fold input; rewrite Hlen; cbn [negb]; red in Hb.
  - replace (negb (input !!! 212%nat =? 0) && negb (input !!! 212%nat =? 1)) with false
      by (destruct (Z.eqb_spec (input !!! 212%nat) 0), (Z.eqb_spec (input !!! 212%nat) 1); lia || done).
    rewrite Hflag, F_rfc; done.
  - replace (negb (input !!! 212%nat =? 0) && negb (input !!! 212%nat =? 1)) with true
      by (destruct (Z.eqb_spec (input !!! 212%nat) 0), (Z.eqb_spec (input !!! 212%nat) 1); lia || done).
    done.
Qed.

(** ** Claims *)

(** C10. A precompiled contract that can run never panics, and its outcome
    is settled by the input: for any input and any gas that could have paid
    for at most a twentieth of the largest slice, the registered contract has
    one price and one outcome whatever the shared buffer holds from earlier
    runs. With less gas than the price the run is out of gas and leaves none;
    otherwise the contract's code runs, and the call returns its output with
    exactly the price taken from the gas, or its error with no gas left and
    nothing returned. *)
Theorem precompiled_runs `{!Keccak, !Fastrlp, !Rlp, !Secp256k1, !PrecompiledLibs, !PrecompiledLaws}
    (c : Contract) (config : ForksInTime) :
  CanRun c config = true → bytes_ok (Input c) → 0 ≤ Gas c → 20 * (Gas c + 1) + 32 ≤ maxAlloc →
  ∃ k g, setupContracts !! CodeAddress c = Some k ∧ 0 ≤ g ∧
    (∀ buf, contract_gas k buf (Input c) config = Some g) ∧
    (Gas c < g → ∀ buf buf', Precompiled_Run buf buf' c config =
       Some {| ReturnValue := []; GasLeft := 0; GasUsed := 0; Err := Some ErrOutOfGas |}) ∧
    (g ≤ Gas c →
       (∃ output, ∀ buf buf', contract_run k buf' (Input c) = Some (Returns output) ∧
          Precompiled_Run buf buf' c config =
            Some {| ReturnValue := output; GasLeft := Gas c - g; GasUsed := 0; Err := None |}) ∨
       (∃ e, ∀ buf buf', contract_run k buf' (Input c) = Some (Errors e) ∧
          Precompiled_Run buf buf' c config =
            Some {| ReturnValue := []; GasLeft := 0; GasUsed := 0; Err := Some e |})).
Proof.
  intros Hcan Hin Hgas Hmax. pose proof maxAlloc_range. unfold CanRun in Hcan.
  destruct (setupContracts !! CodeAddress c) as [k|] eqn:Hk; [|done].
  destruct (contract_gas_total k (Input c) config Hin) as (g & [Hg0 Hgm] & Hg).
  exists k, g. split_and!; [done|done|apply Hg| |].
  - intros Hlt buf buf'. rewrite (Precompiled_Run_charged buf buf' c config k g Panics) by (done || lia || apply Hg).
    unfold charged. by rewrite (proj2 (Z.ltb_lt _ _)) by lia.
  - intros Hle.
    destruct (contract_run_total k (Input c) Hin) as (r & Hr & Hk'); [intros E; specialize (Hgm E); lia|].
    assert (∀ b b', Precompiled_Run b b' c config = Some (charged (Gas c) g r)) as Hrun.
    { intros b b'. apply (Precompiled_Run_charged b b' c config k); [done|apply Hg|lia|lia|by split]. }
    unfold charged in Hrun. rewrite (proj2 (Z.ltb_ge _ _)) in Hrun by lia. destruct r as [v|e|]; [left|right|done]; eauto.
Qed.

(** C11. The contract at address 5 is modular exponentiation as EIP-198
    defines it: a call pays the price of the EIP, and returns the power of
    the base modulo the modulus in as many bytes as the modulus has, all
    three numbers read from the input as if it were followed by zeros. *)
Theorem modexp_eip198 `{!Keccak, !Fastrlp, !Rlp, !Secp256k1, !PrecompiledLibs, !PrecompiledLaws}
    (buf buf' : list Z) (c : Contract) (config : ForksInTime) :
  CodeAddress c = StringToAddress (lit "5") → bytes_ok (Input c) → 0 ≤ Gas c → 20 * (Gas c + 1) + 32 ≤ maxAlloc →
  Precompiled_Run buf buf' c config = Some (charged (Gas c) (eip198_gas (Input c)) (Returns (eip198_output (Input c)))).
Proof.
  intros Hc Hin Hgas Hmax. pose proof maxAlloc_range.
  destruct (contract_gas_total modExp (Input c) config Hin) as (g & [Hg0 Hgm] & Hg). specialize (Hgm eq_refl).
  rewrite (Precompiled_Run_charged buf buf' c config modExp g (Returns (eip198_output (Input c))));
    [|by rewrite Hc; vm_compute|apply Hg|done|lia|].
  - unfold charged. f_equal. destruct (Z.ltb_spec (Gas c) g), (Z.ltb_spec (Gas c) (eip198_gas (Input c))); try lia; try done.
    do 2 f_equal. lia.
  - intros Hle. split; [|done]. apply modExp_run_eip; [done|lia|lia].
Qed.

(** C12. The contract at address 9 is the compression function of BLAKE2b as
    EIP-152 and RFC 7693 define it: an input that has not 213 bytes, or whose
    last byte is not 0 or 1, is an error; otherwise a call pays one unit of
    gas for each round and returns the state after the rounds. The unrolled
    rounds of the code compute what the mixing function of the RFC does, for
    every number of rounds. *)
Theorem blake2f_eip152 `{!Keccak, !Fastrlp, !Rlp, !Secp256k1, !PrecompiledLibs}
    (buf buf' : list Z) (c : Contract) (config : ForksInTime) :
  CodeAddress c = StringToAddress (lit "9") → bytes_ok (Input c) → 0 ≤ Gas c < 2 ^ 64 →
  Precompiled_Run buf buf' c config = Some (
    let input := Input c in
    if negb (zlen input =? 213) then charged (Gas c) 0 (Errors errOther) else
    let rounds := be_decode (take 4 input) in
    if input !!! 212%nat <=? 1 then
      charged (Gas c) rounds (Returns (rfc_F (le_uint64s 8 (drop 4 input)) (le_uint64s 16 (drop 68 input))
        (le_uint64s 2 (drop 196 input)) (input !!! 212%nat =? 1) (Z.to_nat rounds) ≫= PutUint64_le))
    else charged (Gas c) rounds (Errors errOther)).
Proof.
  intros Hc Hin Hgas.
  assert (setupContracts !! CodeAddress c = Some blake2f) as Hk by (rewrite Hc; by vm_compute).
  assert (0 ≤ blake2f_gas (Input c)) as Hg0.
  { unfold blake2f_gas. case_match; [lia|]. apply (be_decode_range (take 4 (Input c))). by apply Forall_take. }
  cbv zeta. destruct (zlen (Input c) =? 213) eqn:Hlen; cbn [negb].
  2: { apply (Precompiled_Run_charged _ _ _ _ blake2f); [done| |lia|lia|].
       - cbn [contract_gas]. unfold blake2f_gas. by rewrite Hlen.
       - intros _. cbn [contract_run]. unfold blake2f_run. by rewrite Hlen. }
  unfold blake2f_gas in Hg0. rewrite Hlen in Hg0. cbn [negb] in Hg0.
  apply (blake2f_cases buf buf' c config Hk Hlen Hin); lia.
Qed.

(** ** Instances *)

#[local] Existing Instances tree_fastrlp tree_rlp plain_curve zero_keccak.

#[local] Instance zero_libs : PrecompiledLibs := {|
  Sum256 _ := replicate 32 0; ripemd160_Sum _ := replicate 20 0;
  G1 := unit; G2 := unit; G1_Unmarshal _ := Some tt; G1_Marshal _ := replicate 64 0;
  G1_Add _ _ := tt; G1_ScalarMult _ _ := tt; G2_Unmarshal _ := Some tt; PairingCheck _ _ := true;
  maxAlloc := 2 ^ 48;
|}.

#[local] Instance zero_libs_laws : PrecompiledLaws.
Proof. split; [|done]. intros k. exact (f_equal S (length_be_encode 64 k)). Qed.

Definition all_forks : ForksInTime := Build_ForksInTime true true true true true true true true.

Definition demo_call (address input : list Z) (gas : Z) : Contract :=
  NewContractCall 0 ZeroAddress ZeroAddress (StringToAddress address) None gas [] input.

(** 3 ^ 5 mod 100, with one byte for each number. *)
Definition modexp_input : list Z := be_encode 32 1 ++ be_encode 32 1 ++ be_encode 32 1 ++ [3; 5; 100].

(** The fifth test vector of EIP-152: BLAKE2b of the string abc. *)
Definition blake2f_input : list Z :=
  be_encode 4 12 ++
  (([0x6a09e667f2bdc948] ++ drop 1 IV) ≫= PutUint64_le) ++ lit "abc" ++ replicate 125 0 ++
  PutUint64_le 3 ++ PutUint64_le 0 ++ [1].

Ltac bytes_by_compute := apply (bool_decide_eq_true_1 (Forall _ _)); vm_compute; reflexivity.

Lemma precompiled_runs_witness :
  ∃ g, 0 ≤ g ∧ ∀ buf buf', Precompiled_Run buf buf' (demo_call (lit "2") [1; 2; 3] 100) all_forks =
    Some {| ReturnValue := replicate 32 0; GasLeft := 100 - g; GasUsed := 0; Err := None |}.
Proof.
  destruct (precompiled_runs (demo_call (lit "2") [1; 2; 3] 100) all_forks) as (k & g & Hk & Hg & Hgas & _ & Hrun);
    [vm_compute; reflexivity|bytes_by_compute|cbn; lia|cbn; lia|].
  vm_compute in Hk. injection Hk as <-. specialize (Hgas []). vm_compute in Hgas. injection Hgas as <-.
  exists 72. split; [done|]. intros buf buf'. destruct Hrun as [(v & Hv)|(e & He)]; [cbn; lia| |].
  - destruct (Hv buf buf') as [E ->]. vm_compute in E. by injection E as <-.
  - destruct (He buf buf') as [E _]. vm_compute in E. discriminate E.
Defined.

Lemma modexp_eip198_witness :
  Precompiled_Run [] [] (demo_call (lit "5") modexp_input 1000) all_forks
  = Some (charged 1000 0 (Returns [43])).
Proof.
  rewrite (modexp_eip198 [] [] (demo_call (lit "5") modexp_input 1000) all_forks);
    [vm_compute; reflexivity|reflexivity|bytes_by_compute|cbn; lia|cbn; lia].
Defined.

Lemma blake2f_eip152_witness :
  Precompiled_Run [] [] (demo_call (lit "9") blake2f_input 1000) all_forks
  = Some (charged 1000 12 (Returns (be_encode 64
      0xba80a53f981c4d0d6a2797b69f12f6e94c212f14685ac4b74b12bb6fdbffa2d17d87c5392aab792dc252d5de4533cc9518d38aa8dbf1925ab92386edd4009923))).
Proof.
  rewrite (blake2f_eip152 [] [] (demo_call (lit "9") blake2f_input 1000) all_forks);
    [vm_compute; reflexivity|reflexivity|bytes_by_compute|cbn; lia].
Defined.
