(* ===== verification/Staking.v ===== *)
(** * The genesis account of the staking contract
      (helper/staking/staking.go, PadLeftOrTrim of helper/common/common.go)

    The storage of the contract is written directly, in the layout the
    Solidity compiler gives its variables: a slot for each plain variable, an
    array of addresses from the hash of its slot on, mappings at the hash of
    key and slot, and byte strings inside a slot or, from 32 bytes on, from
    the hash of the slot on. The bytecode of the contract, a constant of the
    source, is an argument. *)

From Stdlib Require Import String.
From stdpp Require Import gmap.
From S2P Require Import Prelude BigInt Types Rlp BlockTypes Hex Result Validators.
#[local] Open Scope Z_scope.

Definition PadLeftOrTrim (bb : list Z) (size : Z) : list Z :=
  let l := zlen bb in
  if l =? size then bb
  else if size <? l then drop (Z.to_nat (l - size)) bb
  else replicate (Z.to_nat (size - l)) 0 ++ bb.

(** [uint64(math.Pow(2, 53) - 2)] *)
Definition MaxSafeJSInt : Z := 2 ^ 53 - 2.

Definition MinValidatorCount : Z := 1.
Definition MaxValidatorCount : Z := MaxSafeJSInt.

Definition validatorsSlot : Z := 0.
Definition addressToIsValidatorSlot : Z := 1.
Definition addressToStakedAmountSlot : Z := 2.
Definition addressToValidatorIndexSlot : Z := 3.
Definition stakedAmountSlot : Z := 4.
Definition minNumValidatorSlot : Z := 5.
Definition maxNumValidatorSlot : Z := 6.
Definition addressToBLSPublicKeySlot : Z := 7.

Record PredeployParams := mkParams {
  ppMinValidatorCount : Z;
  ppMaxValidatorCount : Z;
}.

(** [chain.GenesisAccount], without the private key for tests. *)
Record GenesisAccount := mkGenesisAccount {
  gaCode : list Z;
  gaStorage : gmap Hash Hash;
  gaBalance : option Z;
  gaNonce : Z;
}.

Record StorageIndexes := mkIndexes {
  ValidatorsIndex : list Z;
  ValidatorBLSPublicKeyIndex : list Z;
  AddressToIsValidatorIndex : list Z;
  AddressToStakedAmountIndex : list Z;
  AddressToValidatorIndexIndex : list Z;
}.

Section staking.
Context `{Keccak}.

Definition getAddressMapping (address : Address) (slot : Z) : list Z :=
  keccak256 (PadLeftOrTrim address 32 ++ PadLeftOrTrim (Bytes slot) 32).

Definition getIndexWithOffset (keccakHash : list Z) (offset : Z) : list Z :=
  Bytes (SetBytes keccakHash + i64 offset).

Definition getStorageIndexes (validator : Validator) (index : Z) : StorageIndexes :=
  let address := Addr validator in {|
    AddressToIsValidatorIndex := getAddressMapping address addressToIsValidatorSlot;
    AddressToStakedAmountIndex := getAddressMapping address addressToStakedAmountSlot;
    AddressToValidatorIndexIndex := getAddressMapping address addressToValidatorIndexSlot;
    ValidatorBLSPublicKeyIndex := getAddressMapping address addressToBLSPublicKeySlot;
    ValidatorsIndex := getIndexWithOffset (keccak256 (PadLeftOrTrim (Bytes validatorsSlot) 32)) (u64 index);
  |}.

(** The body of the loop over the bytes of a long string. *)
Definition setByte (zeroIndex : list Z) (storageMap : gmap Hash Hash) (i : nat) (x : Z) : gmap Hash Hash :=
  let offset := Z.of_nat i / 32 in
  let slotIndex := BytesToHash (getIndexWithOffset zeroIndex (u64 offset)) in
  let byteIndex := (i mod 32)%nat in
  let slot := default ZeroHash (storageMap !! slotIndex) in
  <[slotIndex := <[byteIndex := x]> slot]> storageMap.

Definition setBytesToStorage (storageMap : gmap Hash Hash) (baseIndexBytes data : list Z) : gmap Hash Hash :=
  let dataLen := zlen data in
  let baseIndex := BytesToHash baseIndexBytes in
  if dataLen <=? 31 then
    let bytes := data ++ drop (length data) ZeroHash in
    <[baseIndex := <[31%nat := (dataLen * 2) mod 256]> bytes]> storageMap
  else
    let storageMap := <[baseIndex := <[31%nat := (2 * dataLen + 1) mod 256]> ZeroHash]> storageMap in
    let zeroIndex := keccak256 baseIndexBytes in
    foldl (λ m '(i, x), setByte zeroIndex m i x) storageMap (zip (seq 0 (length data)) data).

(** [DefaultStakedBalance], "0x0", parsed. *)
Definition bigDefaultStakedBalance : Z := 0.

(** The body of the loop over the validators. *)
Definition predeployValidator (st : Z * gmap Hash Hash) (idx : Z) (validator : Validator) : Z * gmap Hash Hash :=
  let '(stakedAmount, m) := st in
  let stakedAmount := stakedAmount + bigDefaultStakedBalance in
  let storageIndexes := getStorageIndexes validator idx in
  let m := <[BytesToHash (ValidatorsIndex storageIndexes) := BytesToHash (Addr validator)]> m in
  let m := match validator with
           | BLSValidator _ BLSPublicKey => setBytesToStorage m (ValidatorBLSPublicKeyIndex storageIndexes) BLSPublicKey
           | ECDSAValidator _ => m
           end in
  let m := <[BytesToHash (AddressToIsValidatorIndex storageIndexes) := BytesToHash (Bytes 1)]> m in
  let m := <[BytesToHash (AddressToStakedAmountIndex storageIndexes) :=
               StringToHash (EncodeBig bigDefaultStakedBalance)]> m in
  let m := <[BytesToHash (AddressToValidatorIndexIndex storageIndexes) := StringToHash (hex_EncodeUint64 (u64 idx))]> m in
  (stakedAmount, m).

Definition PredeployStakingSC (scHex : list Z) (vals : option VSet) (params : PredeployParams) : GenesisAccount :=
  let bigMinNumValidators := i64 (ppMinValidatorCount params) in
  let bigMaxNumValidators := i64 (ppMaxValidatorCount params) in
  let '(valsLen, (stakedAmount, m)) :=
    match vals with
    | None => (0, (0, ∅))
    | Some vals =>
        (Len vals, foldl (λ st '(idx, v), predeployValidator st (Z.of_nat idx) v) (0, ∅)
                     (zip (seq 0 (length (vsVals vals))) (vsVals vals)))
    end in
  let m := <[BytesToHash (Bytes stakedAmountSlot) := BytesToHash (Bytes stakedAmount)]> m in
  let m := <[BytesToHash (Bytes validatorsSlot) := BytesToHash (Bytes valsLen)]> m in
  let m := <[BytesToHash (Bytes minNumValidatorSlot) := BytesToHash (Bytes bigMinNumValidators)]> m in
  let m := <[BytesToHash (Bytes maxNumValidatorSlot) := BytesToHash (Bytes bigMaxNumValidators)]> m in
  mkGenesisAccount scHex m (Some stakedAmount) 0.

End staking.
