(* ===== verification/StakingProps.v ===== *)
(** * The predeployed staking contract as Solidity reads it

    The storage layout of Solidity for the variables of the contract, and the
    theorem that the genesis account holds, read in that layout, the
    validators and nothing else. *)

From Stdlib Require Import String.
From stdpp Require Import gmap.
From S2P Require Import Prelude BigInt Types Rlp BlockTypes Hex Result Validators Staking.
#[local] Open Scope Z_scope.

(** ** Storage layout

    Slots and words are 256-bit numbers, taken modulo [2 ^ 256]. *)

Definition word (x : Z) : Hash := be_encode 32 x.

Definition load (m : gmap Hash Hash) (slot : Z) : Z := be_decode (default ZeroHash (m !! word slot)).

Section layout.
Context `{Keccak}.

(** Element [i] of a dynamic array is at [sol_data p + i], the value of a key
    of a mapping at [sol_mapping key p]. *)
Definition sol_data (p : Z) : Z := be_decode (keccak256 (word p)).
Definition sol_mapping (a : Address) (p : Z) : Z := be_decode (keccak256 (word (be_decode a) ++ word p)).

(** Byte strings: up to 31 bytes are in the slot itself, with twice the
    length in the lowest byte; longer ones from [sol_data p] on, and the slot
    holds twice the length plus one. *)
Definition sol_bytes (m : gmap Hash Hash) (p : Z) : list Z :=
  let w := load m p in
  if Z.even w then take (Z.to_nat (w mod 256 / 2)) (word w)
  else let n := Z.to_nat (w / 2) in
    take n (seq 0 ((n + 31) / 32) ≫= λ o, word (load m (sol_data p + Z.of_nat o))).

(** The slots of a string of [n] bytes at [p], and of a validator. *)
Definition bytes_slots (p : Z) (n : nat) : list Z :=
  if (n <=? 31)%nat then [p] else p :: ((λ o, sol_data p + Z.of_nat o) <$> seq 0 ((n + 31) / 32)).

Definition validator_slots (i : Z) (v : Validator) : list Z :=
  let a := Addr v in
  (sol_data 0 + i) :: match v with BLSValidator _ k => bytes_slots (sol_mapping a 7) (length k) | ECDSAValidator _ => [] end
  ++ [sol_mapping a 1; sol_mapping a 2; sol_mapping a 3].

Fixpoint validators_slots (i : Z) (vs : list Validator) : list Z :=
  match vs with
  | [] => []
  | v :: vs => validator_slots i v ++ validators_slots (i + 1) vs
  end.

Definition staking_slots (vs : list Validator) : list Z := validators_slots 0 vs ++ [4; 0; 5; 6].

(** What the contract should find about a validator. *)
Definition holds_validator (m : gmap Hash Hash) (i : Z) (v : Validator) : Prop :=
  let a := Addr v in
  load m (sol_data 0 + i) = be_decode a ∧ load m (sol_mapping a 1) = 1 ∧ load m (sol_mapping a 2) = 0 ∧
  load m (sol_mapping a 3) = i ∧
  match v with BLSValidator _ k => sol_bytes m (sol_mapping a 7) = k | ECDSAValidator _ => True end.

End layout.

(** ** Words *)

Lemma word_eq b : bytes_ok b → BytesToHash b = word (be_decode b).
Proof.
  intros Hb. unfold word, BytesToHash. rewrite <- (be_encode_decode (right_align HashLength b)) by by apply right_align_ok.
  rewrite length_right_align. change 32%nat with HashLength.
  rewrite <- (be_encode_mod _ (be_decode b)). f_equal.
  destruct (decide (length b ≤ HashLength)%nat) as [Hl|Hl].
  - rewrite right_align_value by done. symmetry. apply Z.mod_small.
    pose proof (be_decode_range b Hb) as Hr. unfold zlen in Hr.
    split; [lia|]. eapply Z.lt_le_trans; [apply Hr|]. apply Z.pow_le_mono_r; lia.
  - unfold right_align. rewrite Nat.min_r, Nat.sub_diag by lia. cbn [replicate app].
    replace (be_decode b) with (be_decode (take (length b - HashLength) b ++ drop (length b - HashLength) b))
      by by rewrite take_drop.
    rewrite be_decode_app, Z.add_comm.
    replace (zlen (drop (length b - HashLength) b)) with (Z.of_nat HashLength) by (unfold zlen; rewrite length_drop; lia).
    rewrite Z.mod_add by (apply Z.pow_nonzero; lia). symmetry. apply Z.mod_small.
    pose proof (be_decode_range (drop (length b - HashLength) b) ltac:(by apply Forall_drop)) as Hr.
    unfold zlen in Hr. rewrite length_drop in Hr. by replace (length b - (length b - HashLength))%nat with HashLength in Hr by lia.
Qed.

Lemma word_Bytes x : 0 ≤ x → BytesToHash (Bytes x) = word x.
Proof. intros Hx. rewrite word_eq by apply Bytes_ok. f_equal. by apply SetBytes_Bytes. Qed.

Lemma word_decode h : hash_ok h → word (be_decode h) = h.
Proof. intros [Hl Hh]. unfold word. rewrite <- Hl. by apply be_encode_decode. Qed.

Lemma word_value x : 0 ≤ x < 2 ^ 256 → be_decode (word x) = x.
Proof. intros Hx. unfold word. rewrite be_decode_encode. apply Z.mod_small. by change (256 ^ Z.of_nat 32) with (2 ^ 256). Qed.

Lemma pad_right_align b n : PadLeftOrTrim b (Z.of_nat n) = right_align n b.
Proof.
  unfold PadLeftOrTrim, right_align, zlen. cbv zeta.
  destruct (Z.eqb_spec (Z.of_nat (length b)) (Z.of_nat n)) as [E|E].
  - replace (length b) with n by lia. by rewrite Nat.min_id, Nat.sub_diag.
  - destruct (Z.ltb_spec (Z.of_nat n) (Z.of_nat (length b))).
    + rewrite Nat.min_r, Nat.sub_diag by lia. cbn. f_equal. lia.
    + rewrite Nat.min_l, Nat.sub_diag, drop_0 by lia. do 2 f_equal. lia.
Qed.

Lemma pad_word b : bytes_ok b → PadLeftOrTrim b 32 = word (be_decode b).
Proof. intros. change 32 with (Z.of_nat 32) at 1. rewrite pad_right_align. by apply (word_eq b). Qed.

Lemma storage_pad_Bytes x : 0 ≤ x → PadLeftOrTrim (Bytes x) 32 = word x.
Proof. intros. rewrite pad_word by apply Bytes_ok. f_equal. by apply SetBytes_Bytes. Qed.

Section indexes.
Context `{Keccak}.

Lemma mapping_value a slot : addr_ok a → 0 ≤ slot → be_decode (getAddressMapping a slot) = sol_mapping a slot.
Proof. intros [_ Ha] Hs. unfold getAddressMapping. by rewrite (pad_word a), storage_pad_Bytes by done. Qed.

Lemma address_mapping a slot : addr_ok a → 0 ≤ slot → BytesToHash (getAddressMapping a slot) = word (sol_mapping a slot).
Proof.
  intros Ha Hs. rewrite <- mapping_value by done. apply word_eq, keccak256_ok.
Qed.

Lemma index_offset h o : hash_ok h → 0 ≤ o < 2 ^ 63 → BytesToHash (getIndexWithOffset h (u64 o)) = word (be_decode h + o).
Proof.
  intros [_ Hh] Ho. unfold getIndexWithOffset. rewrite u64_small, i64_small by lia.
  apply word_Bytes. unfold SetBytes. pose proof (be_decode_range h Hh). lia.
Qed.

End indexes.

(** ** Numbers in hexadecimal *)

Definition hex_char (c : Z) : Prop := fromHexChar c ≠ None.
Definition hex_value (s : list Z) (acc : Z) : Z := fold_left (λ a c, a * 16 + default 0 (fromHexChar c)) s acc.

Lemma DecodeString_value n s acc :
  length s = (2 * n)%nat → Forall hex_char s →
  fold_left (λ a b, a * 256 + b) (DecodeString s).1 acc = hex_value s acc.
Proof.
  revert s acc. induction n as [|n IH]; intros s acc Hl Hs.
  - by apply nil_length_inv in Hl as ->.
  - destruct s as [|p [|q s]]; cbn in Hl; [lia..|].
    inversion_clear Hs as [|? ? Hp Hs']. inversion_clear Hs' as [|? ? Hq Hs]. unfold hex_char in *. cbn [DecodeString].
    destruct (fromHexChar p) as [a|] eqn:Ea; [|done]. destruct (fromHexChar q) as [b|] eqn:Eb; [|done].
    specialize (IH s (acc * 256 + (16 * a + b)) ltac:(lia) Hs).
    destruct (DecodeString s) as [r ok]. cbn [fst fold_left] in *. rewrite IH. unfold hex_value. cbn [fold_left].
    rewrite Ea, Eb. cbn. f_equal. lia.
Qed.

Lemma DecodeString_ok s : bytes_ok (DecodeString s).1.
Proof.
  assert (∀ n s, (length s ≤ n)%nat → bytes_ok (DecodeString s).1) as Hn; [|by apply (Hn (length s))].
  clear s. induction n as [|n IH]; intros [|p [|q s]] Hl; cbn in Hl; try (constructor || lia). cbn [DecodeString].
  specialize (IH s ltac:(lia)). destruct (fromHexChar p) as [a|] eqn:Ea; [|constructor].
  destruct (fromHexChar q) as [b|] eqn:Eb; [|constructor]. destruct (DecodeString s). constructor; [|exact IH].
  unfold fromHexChar in *. red. repeat case_match; simplify_eq; lia.
Qed.

Lemma hex_value_app s k acc : hex_value (s ++ k) acc = hex_value k (hex_value s acc).
Proof. apply fold_left_app. Qed.

Lemma digits_hex n x : 0 ≤ x < 16 ^ Z.of_nat n → Forall hex_char (digits n 16 x) ∧ hex_value (digits n 16 x) 0 = x.
Proof.
  revert x. induction n as [|n IH]; intros x Hx.
  - change (16 ^ Z.of_nat 0) with 1 in Hx. split; [constructor|]. cbn. lia.
  - cbn [digits]. rewrite hex_value_app.
    assert (0 ≤ x mod 16 < 16) as Hm by (apply Z.mod_pos_bound; lia).
    pose proof (Z.div_mod x 16 ltac:(lia)) as Hd.
    assert (hex_char (hexDigit (x mod 16))) as Hc by (red; by rewrite fromHexChar_digit).
    rewrite Nat2Z.inj_succ, Z.pow_succ_r in Hx by lia.
    assert (Forall hex_char (if x <? 16 then [] else digits n 16 (x / 16)) ∧
            hex_value (if x <? 16 then [] else digits n 16 (x / 16)) 0 = x / 16) as [H1 ->].
    { destruct (Z.ltb_spec x 16); [split; [constructor|]; cbn; by rewrite Z.div_small by lia|].
      apply IH. split; [apply Z.div_pos; lia|apply Z.div_lt_upper_bound; lia]. }
    split; [apply Forall_app; split; [done|by constructor]|].
    cbn. rewrite fromHexChar_digit by lia. cbn. lia.
Qed.

Lemma StringToHash_digits i : 0 ≤ i < 2 ^ 64 → StringToHash (hex_EncodeUint64 i) = word i.
Proof.
  intros Hi. unfold StringToHash, hex_EncodeUint64, stringToBytes. rewrite TrimPrefix_app. cbv zeta.
  unfold AppendUint. destruct (digits_hex 64 i) as [Hf Hv].
  { split; [lia|]. apply Z.lt_le_trans with (16 ^ 16); [lia|]. apply Z.pow_le_mono_r; lia. }
  set (s := digits 64 16 i) in *.
  set (t := if zlen s mod 2 =? 1 then lit "0" ++ s else s).
  assert (Forall hex_char t ∧ hex_value t 0 = i ∧ ∃ n, length t = (2 * n)%nat) as (Ht & Htv & n & Htl).
  { unfold t. destruct (Z.eqb_spec (zlen s mod 2) 1) as [E|E]; unfold zlen in E;
      pose proof (Z.div_mod (Z.of_nat (length s)) 2 ltac:(lia)); pose proof (Z.mod_pos_bound (Z.of_nat (length s)) 2 ltac:(lia)).
    - split; [apply Forall_app; split; [by constructor|done]|]. split; [by rewrite hex_value_app|].
      exists (S (Z.to_nat (Z.of_nat (length s) / 2))). rewrite length_app. change (length (lit "0")) with 1%nat. lia.
    - split; [done|]. split; [done|]. exists (Z.to_nat (Z.of_nat (length s) / 2)). lia. }
  rewrite word_eq by apply DecodeString_ok. f_equal. unfold be_decode. by rewrite (DecodeString_value n).
Qed.

(** ** Sequences of writes *)

Definition put (m : gmap Hash Hash) (kvs : list (Hash * Hash)) : gmap Hash Hash :=
  foldl (λ m '(k, v), <[k := v]> m) m kvs.

Lemma put_app m l k : put m (l ++ k) = put (put m l) k.
Proof. apply foldl_app. Qed.

Lemma put_snoc m l k v : put m (l ++ [(k, v)]) = <[k := v]> (put m l).
Proof. apply put_app. Qed.

Lemma lookup_put_ne m l k : k ∉ l.*1 → put m l !! k = m !! k.
Proof.
  revert m. induction l as [|[k' v] l IH]; intros m Hk; [done|]. cbn in Hk. cbn.
  rewrite IH by set_solver. apply lookup_insert_ne. set_solver.
Qed.

Lemma lookup_put m l k v : NoDup l.*1 → (k, v) ∈ l → put m l !! k = Some v.
Proof.
  revert m. induction l as [|[k' v'] l IH]; intros m Hd Hk; [by apply not_elem_of_nil in Hk|].
  cbn in Hd. apply NoDup_cons in Hd as [Hk' Hd]. cbn.
  apply elem_of_cons in Hk as [[= -> ->]|Hk]; [|by apply IH].
  rewrite lookup_put_ne by done. by rewrite lookup_insert_eq.
Qed.

(** ** Byte strings *)

Definition padR (l : list Z) : list Z := l ++ drop (length l) ZeroHash.
Definition chunk (data : list Z) (o : nat) : list Z := take 32 (drop (32 * o) data).
Definition chunks (n : nat) : nat := (n + 31) / 32.

Lemma length_padR l : (length l ≤ 32)%nat → length (padR l) = 32%nat.
Proof. intros. unfold padR. rewrite length_app, length_drop. unfold ZeroHash, HashLength. rewrite length_replicate. lia. Qed.

Lemma padR_ok l : bytes_ok l → bytes_ok (padR l).
Proof. intros. apply Forall_app. split; [done|]. apply Forall_drop, Forall_replicate. split; lia. Qed.

Lemma padR_snoc l x : (length l < 32)%nat → <[length l := x]> (padR l) = padR (l ++ [x]).
Proof.
  intros Hl. unfold padR. rewrite insert_app_r_alt, Nat.sub_diag by lia. rewrite <- app_assoc. f_equal.
  unfold ZeroHash, HashLength. rewrite !drop_replicate, length_app. cbn [length].
  replace (32 - length l)%nat with (S (32 - (length l + 1))) by lia. done.
Qed.

Lemma chunk_concat k data :
  (length data ≤ 32 * k)%nat → (seq 0 k ≫= λ o, padR (chunk data o)) = data ++ replicate (32 * k - length data) 0.
Proof.
  revert data. induction k as [|k IH]; intros data Hl.
  - destruct data; [done|cbn in Hl; lia].
  - cbn [seq]. rewrite bind_cons, <- fmap_S_seq, list_fmap_bind.
    assert ((seq 0 k ≫= (λ o, padR (chunk data o)) ∘ S) = seq 0 k ≫= λ o, padR (chunk (drop 32 data) o)) as ->.
    { apply list_bind_ext; [|done]. intros o. unfold compose, chunk. rewrite drop_drop. by replace (32 * S o)%nat with (32 + 32 * o)%nat by lia. }
    rewrite IH by (rewrite length_drop; lia). unfold chunk, padR. rewrite Nat.mul_0_r, drop_0, length_take, length_drop.
    rewrite <- app_assoc. transitivity (take 32 data ++ drop 32 data ++ replicate (32 * S k - length data) 0);
      [f_equal|by rewrite app_assoc, take_drop].
    unfold ZeroHash, HashLength. rewrite drop_replicate.
    destruct (decide (32 ≤ length data)%nat).
    + rewrite Nat.min_l, Nat.sub_diag by lia. cbn [replicate app]. do 2 f_equal. lia.
    + rewrite drop_ge by lia. cbn [app]. rewrite <- replicate_add. f_equal. lia.
Qed.

Lemma chunks_div n : (32 * chunks n < n + 32)%nat ∧ (n ≤ 32 * chunks n)%nat.
Proof. unfold chunks. pose proof (Nat.div_mod_eq (n + 31) 32). pose proof (Nat.mod_upper_bound (n + 31) 32). lia. Qed.

Section bytes.
Context `{Keccak}.

Definition chunk_writes (z : list Z) (data : list Z) : list (Hash * Hash) :=
  (λ o, (word (be_decode z + Z.of_nat o), padR (chunk data o))) <$> seq 0 (chunks (length data)).

Definition bytes_writes (p : Z) (data : list Z) : list (Hash * Hash) :=
  if (length data <=? 31)%nat then [(word p, <[31%nat := (zlen data * 2) mod 256]> (padR data))]
  else (word p, <[31%nat := (2 * zlen data + 1) mod 256]> ZeroHash) :: chunk_writes (keccak256 (word p)) data.

Lemma bytes_writes_slots p data : (bytes_writes p data).*1 = word <$> bytes_slots p (length data).
Proof.
  unfold bytes_writes, bytes_slots. case_match; [done|]. cbn. f_equal.
  unfold chunk_writes. rewrite <- !list_fmap_compose. apply list_fmap_ext. done.
Qed.

(** One more byte, in a slot that is new or holds the last chunk. *)
Lemma chunk_writes_snoc z data x m :
  hash_ok z → Z.of_nat (length data) < 2 ^ 62 →
  NoDup (chunk_writes z (data ++ [x])).*1 → (∀ k, k ∈ (chunk_writes z (data ++ [x])).*1 → m !! k = None) →
  setByte z (put m (chunk_writes z data)) (length data) x = put m (chunk_writes z (data ++ [x])).
Proof.
  intros Hz Hlen Hd Hfresh. set (q := (length data / 32)%nat). set (r := (length data mod 32)%nat).
  pose proof (Nat.div_mod_eq (length data) 32) as Hqr. pose proof (Nat.mod_upper_bound (length data) 32 ltac:(lia)) as Hr.
  fold q in Hqr. fold r in Hqr, Hr.
  unfold setByte. replace (Z.of_nat (length data) / 32) with (Z.of_nat q) by (unfold q; rewrite Nat2Z.inj_div; done).
  rewrite index_offset by (done || lia). fold r.
  assert (chunks (length (data ++ [x])) = S q) as Hc.
  { rewrite length_app. cbn [length]. pose proof (chunks_div (length data + 1)). lia. }
  assert (∀ d, (32 * q ≤ length d)%nat →
    ((λ o, (word (be_decode z + Z.of_nat o), padR (chunk d o))) <$> seq 0 q) =
    ((λ o, (word (be_decode z + Z.of_nat o), padR (chunk (take (32 * q) d) o))) <$> seq 0 q)) as Hpre.
  { intros d Hd'. apply list_fmap_ext. intros i o Ho%lookup_seq. f_equal. f_equal. unfold chunk.
    rewrite skipn_firstn_comm, take_take. f_equal. lia. }
  assert (chunk (data ++ [x]) q = drop (32 * q) data ++ [x]) as Hlast.
  { unfold chunk. rewrite drop_app_le by lia. apply take_ge. rewrite length_app, length_drop. cbn [length]. lia. }
  unfold chunk_writes in *. rewrite Hc, seq_S, fmap_app in *. cbn [fmap list_fmap Nat.add] in *.
  rewrite (Hpre (data ++ [x])) in * by (rewrite length_app; lia). rewrite take_app_le in * by lia.
  rewrite put_snoc, Hlast. set (pre := _ <$> seq 0 q) in *.
  assert (word (be_decode z + Z.of_nat q) ∉ pre.*1) as Hnew.
  { rewrite fmap_app in Hd. apply NoDup_app in Hd as (_ & Hd & _). intros Hin. by apply (Hd _ Hin); left. }
  assert (Hl : length (drop (32 * q) data) = r) by (rewrite length_drop; lia).
  destruct (decide (r = 0%nat)) as [E|E].
  - replace (chunks (length data)) with q by (pose proof (chunks_div (length data)); lia).
    rewrite (Hpre data) by lia. fold pre.
    rewrite lookup_put_ne, Hfresh by (done || (rewrite fmap_app; set_solver)).
    rewrite (nil_length_inv (drop (32 * q) data)) by lia. by rewrite E.
  - replace (chunks (length data)) with (S q) by (pose proof (chunks_div (length data)); lia).
    rewrite seq_S, fmap_app. cbn [fmap list_fmap Nat.add]. rewrite (Hpre data) by lia. fold pre.
    rewrite put_snoc, lookup_insert_eq, insert_insert_eq. cbn [default]. unfold chunk.
    rewrite take_ge by lia. rewrite <- Hl at 1. by rewrite padR_snoc by lia.
Qed.

End bytes.

(** ** The contract *)

Section contract.
Context `{Keccak}.

Lemma setByte_loop z data m :
  hash_ok z → Z.of_nat (length data) < 2 ^ 62 →
  NoDup (chunk_writes z data).*1 → (∀ k, k ∈ (chunk_writes z data).*1 → m !! k = None) →
  foldl (λ m '(i, x), setByte z m i x) m (zip (seq 0 (length data)) data) = put m (chunk_writes z data).
Proof.
  intros Hz. induction data as [|x data IH] using rev_ind; intros Hlen Hd Hf; [done|].
  assert (∃ k, (chunk_writes z (data ++ [x])).*1 = (chunk_writes z data).*1 ++ k) as [k Hk].
  { unfold chunk_writes. rewrite <- !list_fmap_compose.
    exists ((λ o, word (be_decode z + Z.of_nat o)) <$>
      seq (chunks (length data)) (chunks (length (data ++ [x])) - chunks (length data))).
    rewrite <- fmap_app, <- seq_app. rewrite length_app. cbn [length].
    replace (chunks (length data) + _)%nat with (chunks (length data + 1))
      by (pose proof (chunks_div (length data)); pose proof (chunks_div (length data + 1)); lia). done. }
  pose proof Hd as Hd'. rewrite Hk in Hd. apply NoDup_app in Hd as (Hd & _ & _). rewrite length_app in *. cbn [length] in *.
  rewrite Nat.add_1_r, seq_S, zip_with_app by by rewrite length_seq. rewrite foldl_app. cbn [zip_with foldl Nat.add].
  rewrite IH; [|lia|done|intros j Hj; apply Hf; rewrite Hk; apply elem_of_app; by left].
  by apply chunk_writes_snoc; [|lia|..].
Qed.

Lemma setBytes_put m base data :
  hash_ok base → Z.of_nat (length data) < 2 ^ 62 →
  NoDup (word <$> bytes_slots (be_decode base) (length data)) →
  (∀ k, k ∈ word <$> bytes_slots (be_decode base) (length data) → m !! k = None) →
  setBytesToStorage m base data = put m (bytes_writes (be_decode base) data).
Proof.
  intros Hb Hlen. rewrite <- bytes_writes_slots. unfold setBytesToStorage, bytes_writes. cbv zeta.
  rewrite word_eq, word_decode by apply Hb || done.
  destruct (Z.leb_spec (zlen data) 31) as [Hs|Hs], (Nat.leb_spec (length data) 31) as [Hn|Hn]; unfold zlen in Hs; try lia.
  - intros _ _. done.
  - intros Hd Hf. cbn in Hd. apply NoDup_cons in Hd as [Hk Hd]. cbn [put foldl].
    apply setByte_loop; [apply keccak256_ok|done|done|].
    intros k Hk'. rewrite lookup_insert_ne by (intros ->; done). apply Hf. cbn. set_solver.
Qed.

(** Read back, for strings whose length fits into the byte that holds it. *)
Lemma sol_bytes_read m p data :
  bytes_ok data → (length data < 128)%nat →
  (∀ k v, (k, v) ∈ bytes_writes p data → m !! k = Some v) → sol_bytes m p = data.
Proof.
  intros Hb Hlen Hm. unfold bytes_writes in Hm. unfold sol_bytes, load. cbv zeta.
  destruct (Nat.leb_spec (length data) 31) as [Hs|Hs].
  - rewrite (Hm (word p) _ ltac:(by left)). cbn [from_option id].
    set (w := <[31%nat := _]> _).
    assert (w = take 31 (padR data) ++ [(zlen data * 2) mod 256]) as Hw.
    { unfold w. rewrite insert_take_drop by (rewrite length_padR; lia). rewrite drop_ge by (rewrite length_padR; lia). done. }
    assert (hash_ok w) as Hwok.
    { split; [unfold w; rewrite length_insert; apply length_padR; lia|]. rewrite Hw. apply Forall_app.
      split; [by apply Forall_take, padR_ok|]. constructor; [|constructor]. apply Z.mod_pos_bound. lia. }
    rewrite Z.mod_small in Hw by (unfold zlen; lia).
    assert (be_decode w = be_decode (take 31 (padR data)) * 256 + zlen data * 2) as Hv by (rewrite Hw; apply be_decode_snoc).
    rewrite word_decode by done. rewrite Hv.
    replace (Z.even _) with true by (symmetry; apply Z.even_spec; exists (be_decode (take 31 (padR data)) * 128 + zlen data); lia).
    rewrite Z.add_comm, Z.mod_add, Z.mod_small, Z.div_mul by (unfold zlen; lia). unfold zlen. rewrite Nat2Z.id, Hw.
    rewrite take_app_le by (rewrite length_take, length_padR; lia). rewrite take_take, Nat.min_l by lia.
    unfold padR. by rewrite take_app_length.
  - rewrite (Hm (word p) _ ltac:(by left)). cbn [from_option id].
    rewrite Z.mod_small by (unfold zlen; lia).
    replace (be_decode (<[31%nat := 2 * zlen data + 1]> ZeroHash)) with (2 * zlen data + 1) by (cbn; lia).
    rewrite Z.even_odd.
    replace ((2 * zlen data + 1) / 2) with (zlen data) by (Z.to_euclidean_division_equations; lia).
    unfold zlen. rewrite Nat2Z.id. fold (chunks (length data)).
    transitivity (take (length data) (data ++ replicate (32 * chunks (length data) - length data) 0));
      [|by rewrite take_app_length].
    f_equal. rewrite <- chunk_concat by (pose proof (chunks_div (length data)); lia).
    apply Forall_bind_ext, Forall_forall. intros o Ho.
    rewrite (Hm (word (sol_data p + Z.of_nat o)) (padR (chunk data o))).
    + apply word_decode. split; [apply length_padR; unfold chunk; rewrite length_take; lia|].
      by apply padR_ok, Forall_take, Forall_drop.
    + right. unfold chunk_writes. apply list_elem_of_fmap. by exists o.
Qed.
(** The writes of a validator and of all of them, in the order of the code. *)
Definition validator_writes (i : Z) (v : Validator) : list (Hash * Hash) :=
  let a := Addr v in
  (word (sol_data 0 + i), word (be_decode a)) ::
  match v with BLSValidator _ k => bytes_writes (sol_mapping a 7) k | ECDSAValidator _ => [] end
  ++ [(word (sol_mapping a 1), word 1); (word (sol_mapping a 2), word 0); (word (sol_mapping a 3), word i)].

Fixpoint validators_writes (i : Z) (vs : list Validator) : list (Hash * Hash) :=
  match vs with
  | [] => []
  | v :: vs => validator_writes i v ++ validators_writes (i + 1) vs
  end.

(** A validator whose key the length byte can describe. *)
Definition stakable (v : Validator) : Prop :=
  addr_ok (Addr v) ∧ match v with BLSValidator _ k => bytes_ok k ∧ (length k < 128)%nat | ECDSAValidator _ => True end.

Lemma validator_writes_slots i v : (validator_writes i v).*1 = word <$> validator_slots i v.
Proof.
  unfold validator_writes, validator_slots. destruct v as [a|a k]; [done|]. rewrite !fmap_cons, !fmap_app. cbn [fst].
  by rewrite bytes_writes_slots.
Qed.

Lemma validators_writes_slots i vs : (validators_writes i vs).*1 = word <$> validators_slots i vs.
Proof.
  revert i. induction vs as [|v vs IH]; intros i; [done|]. cbn [validators_writes validators_slots].
  by rewrite !fmap_app, validator_writes_slots, IH.
Qed.

Lemma predeployValidator_put s m i v :
  stakable v → 0 ≤ i < 2 ^ 63 → NoDup (word <$> validator_slots i v) →
  (∀ k, k ∈ word <$> validator_slots i v → m !! k = None) →
  predeployValidator (s, m) i v = (s, put m (validator_writes i v)).
Proof.
  intros [Ha Hv] Hi Hd Hf. unfold predeployValidator, getStorageIndexes. cbv zeta.
  cbn [ValidatorsIndex ValidatorBLSPublicKeyIndex AddressToIsValidatorIndex AddressToStakedAmountIndex AddressToValidatorIndexIndex].
  rewrite !address_mapping by (done || by vm_compute). rewrite index_offset by (apply keccak256_ok || done).
  replace (StringToHash (EncodeBig bigDefaultStakedBalance)) with (word 0) by by vm_compute.
  rewrite (word_Bytes 1) by lia.
  rewrite u64_small, StringToHash_digits by lia. rewrite (word_eq (Addr v)) by apply Ha.
  f_equal; [unfold bigDefaultStakedBalance; lia|].
  rewrite storage_pad_Bytes by done. fold (sol_data validatorsSlot). change validatorsSlot with 0.
  unfold validator_writes. cbv zeta. cbn [put foldl]. fold (put (<[word (sol_data 0 + i) := word (be_decode (Addr v))]> m)).
  rewrite put_app. cbn [put foldl]. do 3 f_equal. destruct v as [a|a k]; [done|]. cbn [Addr] in *.
  unfold validator_slots in Hd, Hf. cbn [Addr] in *. rewrite fmap_cons, fmap_app in Hd, Hf.
  apply NoDup_cons in Hd as [Hn Hd]. apply NoDup_app in Hd as (Hd & _ & _).
  assert (sol_mapping a 7 = be_decode (getAddressMapping a addressToBLSPublicKeySlot)) as E
    by (symmetry; by apply mapping_value).
  rewrite E in *. apply setBytes_put; [apply keccak256_ok|lia|done|].
  intros j Hj. rewrite lookup_insert_ne by (intros <-; apply Hn, elem_of_app; by left).
  apply Hf. right. apply elem_of_app. by left.
Qed.

Lemma predeploy_loop s m i vs :
  Forall stakable vs → Z.of_nat i + zlen vs < 2 ^ 63 → NoDup (word <$> validators_slots (Z.of_nat i) vs) →
  (∀ k, k ∈ word <$> validators_slots (Z.of_nat i) vs → m !! k = None) →
  foldl (λ st '(idx, v), predeployValidator st (Z.of_nat idx) v) (s, m) (zip (seq i (length vs)) vs) =
  (s, put m (validators_writes (Z.of_nat i) vs)).
Proof.
  intros Hvs. revert i m. induction Hvs as [|v vs Hv _ IH]; intros i m Hi Hd Hf; [done|].
  unfold zlen in *. cbn [length] in Hi. cbn [validators_slots validators_writes length seq zip_with foldl] in *.
  rewrite fmap_app in Hd, Hf. apply NoDup_app in Hd as (Hd & Hx & Hd').
  rewrite predeployValidator_put; [|done|lia|done|intros k Hk; apply Hf, elem_of_app; by left].
  rewrite put_app. replace (Z.of_nat i + 1) with (Z.of_nat (S i)) in * by lia. apply IH; [lia|done|].
  intros k Hk. rewrite lookup_put_ne; [apply Hf, elem_of_app; by right|].
  rewrite validator_writes_slots. intros Hk'. by apply (Hx k).
Qed.

(** All writes of the account. *)
Definition staking_writes (vs : list Validator) (min max : Z) : list (Hash * Hash) :=
  validators_writes 0 vs ++ [(word 4, word 0); (word 0, word (zlen vs)); (word 5, word min); (word 6, word max)].

Lemma staking_storage code vals params :
  let vs := default [] (vsVals <$> vals) in
  Forall stakable vs → zlen vs < 2 ^ 63 → NoDup (word <$> staking_slots vs) →
  0 ≤ ppMinValidatorCount params < 2 ^ 63 → 0 ≤ ppMaxValidatorCount params < 2 ^ 63 →
  PredeployStakingSC code vals params =
  mkGenesisAccount code (put ∅ (staking_writes vs (ppMinValidatorCount params) (ppMaxValidatorCount params))) (Some 0) 0.
Proof.
  intros vs Hvs Hlen Hd Hmin Hmax. unfold staking_slots in Hd. rewrite fmap_app in Hd. apply NoDup_app in Hd as (Hd & _ & _).
  unfold PredeployStakingSC, staking_writes. rewrite !i64_small by done. rewrite put_app. cbn [put foldl].
  destruct vals as [vals|]; cbn [default fmap option_fmap option_map from_option id] in *; subst vs.
  - rewrite (predeploy_loop 0 ∅ 0 (vsVals vals)); [|done|done|done|intros; apply lookup_empty].
    rewrite !word_Bytes by (unfold Len, zlen; lia || by vm_compute). done.
  - rewrite !word_Bytes by (lia || by vm_compute). done.
Qed.
Lemma load_word m slot x : m !! word slot = Some (word x) → 0 ≤ x < 2 ^ 256 → load m slot = x.
Proof. intros E Hx. unfold load. rewrite E. by apply word_value. Qed.

Lemma validators_writes_at s vs i v :
  vs !! i = Some v → validator_writes (s + Z.of_nat i) v ⊆ validators_writes s vs.
Proof.
  revert s i. induction vs as [|v' vs IH]; intros s [|i] Hi; [done..| |]; cbn [validators_writes].
  - cbn in Hi. simplify_eq. rewrite Z.add_0_r. intros x Hx. apply elem_of_app. by left.
  - intros x Hx. apply elem_of_app. right. apply (IH (s + 1) i); [done|].
    by replace (s + 1 + Z.of_nat i) with (s + Z.of_nat (S i)) by lia.
Qed.

Lemma holds_writes m i v :
  stakable v → 0 ≤ i < 2 ^ 63 → (∀ k x, (k, x) ∈ validator_writes i v → m !! k = Some x) → holds_validator m i v.
Proof.
  intros [Ha Hv] Hi Hm. pose proof (addr_value _ Ha) as Hav. unfold SetBytes in Hav.
  unfold holds_validator, validator_writes in *. cbv zeta in *.
  assert (∀ k x, (k, x) ∈ [(word (sol_mapping (Addr v) 1), word 1); (word (sol_mapping (Addr v) 2), word 0);
    (word (sol_mapping (Addr v) 3), word i)] → m !! k = Some x) as Hl.
  { intros k x Hk. apply Hm. right. apply elem_of_app. by right. }
  split_and!.
  - apply load_word; [apply Hm; by left|lia].
  - apply load_word; [apply Hl; by left|lia].
  - apply load_word; [apply Hl; by right; left|lia].
  - apply load_word; [apply Hl; by right; right; left|lia].
  - destruct v as [a|a k]; [done|]. destruct Hv as [Hk Hlk]. apply sol_bytes_read; [done..|].
    intros j x Hj. apply Hm. right. apply elem_of_app. by left.
Qed.

Lemma staking_writes_slots vs min max : (staking_writes vs min max).*1 = word <$> staking_slots vs.
Proof. unfold staking_writes, staking_slots. by rewrite !fmap_app, validators_writes_slots. Qed.

(** A string of 128 bytes or more is read back shorter than it is: the slot
    has a byte for twice its length plus one. *)
Lemma sol_bytes_long m base data :
  hash_ok base → 128 ≤ zlen data < 2 ^ 62 →
  NoDup (word <$> bytes_slots (be_decode base) (length data)) →
  (∀ k, k ∈ word <$> bytes_slots (be_decode base) (length data) → m !! k = None) →
  (length (sol_bytes (setBytesToStorage m base data) (be_decode base)) < 128)%nat.
Proof.
  intros Hb Hlen Hd Hf. unfold zlen in Hlen. rewrite setBytes_put by (done || lia). rewrite <- bytes_writes_slots in Hd.
  unfold sol_bytes, load. cbv zeta.
  rewrite (lookup_put _ _ _ (<[31%nat := (2 * zlen data + 1) mod 256]> ZeroHash) Hd).
  2: { unfold bytes_writes. rewrite (proj2 (Nat.leb_gt _ _)) by lia. by left. }
  cbn [from_option id].
  replace (be_decode (<[31%nat := (2 * zlen data + 1) mod 256]> ZeroHash)) with ((2 * zlen data + 1) mod 256) by (cbn; lia).
  pose proof (Z.mod_pos_bound (2 * zlen data + 1) 256 ltac:(lia)) as Hw. set (w := _ mod 256) in *.
  assert (0 ≤ w / 2 < 128) by (split; [apply Z.div_pos|apply Z.div_lt_upper_bound]; lia).
  assert (w mod 256 = w) as -> by (apply Z.mod_small; lia).
  case_match; rewrite length_take; lia.
Qed.

End contract.

(** ** Claim *)

(** C33. The genesis account of the staking contract holds, in the layout
    Solidity gives the contract's variables, exactly the given validators:
    their number and the limits, for each its address at its place in the
    array, the flag, a stake of zero, its index and, with BLS, its public
    key. No other slot is written. The hypotheses are that the hash gives
    different slots to the variables and that keys are shorter than 128
    bytes (a BLS key has 48). *)
Theorem staking_predeployed `{!Keccak} (code : list Z) (vals : option VSet) (params : PredeployParams) :
  let vs := default [] (vsVals <$> vals) in
  Forall stakable vs → zlen vs < 2 ^ 63 → NoDup (word <$> staking_slots vs) →
  0 ≤ ppMinValidatorCount params < 2 ^ 63 → 0 ≤ ppMaxValidatorCount params < 2 ^ 63 →
  let a := PredeployStakingSC code vals params in
  let m := gaStorage a in
  gaCode a = code ∧ gaBalance a = Some 0 ∧
  load m 0 = zlen vs ∧ load m 4 = 0 ∧ load m 5 = ppMinValidatorCount params ∧ load m 6 = ppMaxValidatorCount params ∧
  (∀ i v, vs !! i = Some v → holds_validator m (Z.of_nat i) v) ∧
  (∀ k, k ∉ word <$> staking_slots vs → m !! k = None).
Proof.
  intros vs Hvs Hlen Hd Hmin Hmax. cbv zeta. rewrite staking_storage by done. fold vs.
  cbn [gaCode gaBalance gaStorage]. rewrite <- (staking_writes_slots vs (ppMinValidatorCount params) (ppMaxValidatorCount params)) in *.
  set (ws := staking_writes _ _ _) in *.
  assert (∀ k x, (k, x) ∈ [(word 4, word 0); (word 0, word (zlen vs)); (word 5, word (ppMinValidatorCount params));
    (word 6, word (ppMaxValidatorCount params))] → put ∅ ws !! k = Some x) as Hl.
  { intros k x Hk. apply lookup_put; [done|]. apply elem_of_app. by right. }
  assert (0 ≤ zlen vs) by (unfold zlen; lia).
  split_and!; [done|done| | | | | |].
  - apply load_word; [apply Hl; by right; left|lia].
  - apply load_word; [apply Hl; by left|lia].
  - apply load_word; [apply Hl; by right; right; left|lia].
  - apply load_word; [apply Hl; by right; right; right; left|lia].
  - intros i v Hi. apply holds_writes; [by eapply Forall_lookup_1|apply lookup_lt_Some in Hi; unfold zlen in *; lia|].
    intros k x Hk. apply lookup_put; [done|]. apply elem_of_app. left. by apply (validators_writes_at 0 vs i v Hi).
  - intros k Hk. rewrite lookup_put_ne by done. apply lookup_empty.
Qed.

(** A stand-in hash that keeps the sum of the words. *)
#[local] Instance sum_keccak : Keccak.
Proof.
  refine {| keccak256 b := be_encode 32 (1000 * (1 + be_decode b mod (2 ^ 256 - 1))) |}.
  intros b. split; [apply length_be_encode|apply be_encode_ok].
Defined.

Definition demo_stakers : VSet := mkSet BLSValidatorType
  [BLSValidator (be_encode 20 100) (replicate 48 7); BLSValidator (be_encode 20 200) (replicate 20 9)].

Lemma staking_predeployed_witness :
  let m := gaStorage (PredeployStakingSC [] (Some demo_stakers) (mkParams 1 MaxValidatorCount)) in
  load m 0 = 2 ∧ sol_bytes m (sol_mapping (be_encode 20 100) 7) = replicate 48 7 ∧ m !! word 1 = None.
Proof.
  destruct (staking_predeployed [] (Some demo_stakers) (mkParams 1 MaxValidatorCount)) as (_ & _ & H0 & _ & _ & _ & Hv & Hn).
  - repeat constructor; by vm_compute || (apply be_encode_ok) || (apply Forall_replicate; split; lia).
  - by vm_compute.
  - apply (bool_decide_eq_true_1 (NoDup _)). by vm_compute.
  - by vm_compute.
  - by vm_compute.
  - split; [exact H0|]. split; [by destruct (Hv 0%nat _ eq_refl) as (_ & _ & _ & _ & Hb)|]. apply Hn.
    apply (bool_decide_eq_true_1 (_ ∉ _)). by vm_compute.
Defined.
