(* ===== verification/KeyValue.v ===== *)
(** * The block storage
      (blockchain/storage: storage.go, keyvalue.go, utils.go,
      memory/memory.go, leveldb/leveldb.go)

    Headers, bodies, receipts and the indexes of the chain are entries of a
    key-value database, each kind of entry below a prefix of its own. The
    database is an interface, [KV]; its laws are what the storage relies on,
    and both implementations of the repository have them. *)

From Stdlib Require Import String.
From stdpp Require Import gmap.
From S2P Require Import Prelude BigInt Types Rlp BlockTypes Hex Result.
#[local] Open Scope Z_scope.

(** ** The interface of a database *)

Class KV := {
  kv_db : Type;
  kv_error : Type;
  kv_Set : kv_db → list Z → list Z → result kv_error kv_db;
  kv_Get : kv_db → list Z → result kv_error (option (list Z));  (** [None]: not found *)
}.

Class KVLaws `{KV} : Prop := {
  get_set db p v db' q :
    bytes_ok p → bytes_ok q → kv_Set db p v = Returns db' →
    kv_Get db' q = if bool_decide (q = p) then Returns (Some v) else kv_Get db q;
}.

(** ** memory/memory.go *)

Definition memory_Set (db : gmap (list Z) (list Z)) (p v : list Z) : result unit (gmap (list Z) (list Z)) :=
  Returns (<[EncodeToHex p := v]> db).

Definition memory_Get (db : gmap (list Z) (list Z)) (p : list Z) : result unit (option (list Z)) :=
  Returns (db !! EncodeToHex p).

Definition memoryKV : KV := {| kv_Set := memory_Set; kv_Get := memory_Get |}.

(** ** leveldb/leveldb.go

    The library goleveldb: [Put] and [Get], with the texts of their errors. *)

Class LevelDB := {
  ldb : Type;
  ldb_Put : ldb → list Z → list Z → result (list Z) ldb;
  ldb_Get : ldb → list Z → result (list Z) (list Z);
}.

(** [err.Error() == "leveldb: not found"] *)
Definition levelDB_Get `{LevelDB} (l : ldb) (p : list Z) : result (list Z) (option (list Z)) :=
  match ldb_Get l p with
  | Errors err => if bool_decide (err = lit "leveldb: not found") then Returns None else Errors err
  | Returns data => Returns (Some data)
  | Panics => Panics
  end.

Definition levelDBKV `{LevelDB} : KV := {| kv_Set := ldb_Put; kv_Get := levelDB_Get |}.

(** ** keyvalue.go *)

Definition DIFFICULTY : list Z := lit "d".
Definition HEADER : list Z := lit "h".
Definition HEAD : list Z := lit "o".
Definition FORK : list Z := lit "f".
Definition CANONICAL : list Z := lit "c".
Definition BODY : list Z := lit "b".
Definition RECEIPTS : list Z := lit "r".
Definition TX_LOOKUP_PREFIX : list Z := lit "l".
Definition HASH : list Z := lit "hash".
Definition NUMBER : list Z := lit "number".
Definition EMPTY : list Z := lit "empty".

Inductive storage_error `{KV} :=
  | ErrDB (e : kv_error)
  | ErrNotFound
  | ErrUnmarshal.

Section storage.
Context `{KV, Rlp, Keccak} (HeaderHash : Header → Hash).

Definition encodeUint (n : Z) : list Z := be_encode 8 n.
Definition decodeUint (b : list Z) : Z := be_decode b.

(** The writes: the new database or the error of the old one. *)
Definition set (s : kv_db) (p k v : list Z) : result kv_error kv_db := kv_Set s (p ++ k) v.

Definition get (s : kv_db) (p k : list Z) : option (list Z) :=
  match kv_Get s (p ++ k) with Returns data => data | _ => None end.

Definition db_result {A} (r : result kv_error A) : result storage_error A :=
  match r with Returns a => Returns a | Errors e => Errors (ErrDB e) | Panics => Panics end.

(** [readRLP] with the unmarshaller of the object, in its store format where
    it has one. *)
Definition readRLP {A} (s : kv_db) (p k : list Z) (unmarshal : rlp_value → option A) : result storage_error A :=
  data ← db_result (kv_Get s (p ++ k));
  data ← or_error ErrNotFound data;
  or_error ErrUnmarshal (UnmarshalRlp unmarshal data).

Definition read2 (s : kv_db) (p k : list Z) : option rlp_value := data ← get s p k; rlp_parse data.

Definition write2 (s : kv_db) (p k : list Z) (v : rlp_value) : result kv_error kv_db := set s p k (rlp_marshal v).

(** Canonical hashes *)
Definition ReadCanonicalHash (s : kv_db) (n : Z) : option Hash := BytesToHash <$> get s CANONICAL (encodeUint n).
Definition WriteCanonicalHash (s : kv_db) (n : Z) (hash : Hash) : result kv_error kv_db := set s CANONICAL (encodeUint n) hash.

(** The head *)
Definition ReadHeadHash (s : kv_db) : option Hash := BytesToHash <$> get s HEAD HASH.

Definition ReadHeadNumber (s : kv_db) : option Z :=
  data ← get s HEAD NUMBER;
  if negb (zlen data =? 8) then None else Some (decodeUint data).

Definition WriteHeadHash (s : kv_db) (h : Hash) : result kv_error kv_db := set s HEAD HASH h.
Definition WriteHeadNumber (s : kv_db) (n : Z) : result kv_error kv_db := set s HEAD NUMBER (encodeUint n).

(** Forks, with the RLP forms of utils.go *)
Definition Forks_MarshalRLPWith (f : list Hash) : rlp_value := arrayOrNull (rlp_bytes <$> f).

Definition Forks_UnmarshalRLPFrom (v : rlp_value) : option (list Hash) :=
  elems ← rlp_elems v;
  mapM (rlp_getfixed 32) elems.

Definition WriteForks (s : kv_db) (forks : list Hash) : result kv_error kv_db :=
  set s FORK EMPTY (rlp_marshal (Forks_MarshalRLPWith forks)).
Definition ReadForks (s : kv_db) : result storage_error (list Hash) := readRLP s FORK EMPTY Forks_UnmarshalRLPFrom.

(** Total difficulties *)
Definition WriteTotalDifficulty (s : kv_db) (hash : Hash) (diff : Z) : result kv_error kv_db := set s DIFFICULTY hash (Bytes diff).
Definition ReadTotalDifficulty (s : kv_db) (hash : Hash) : option Z := SetBytes <$> get s DIFFICULTY hash.

(** Headers *)
Definition WriteHeader (s : kv_db) (h : Header) : result kv_error kv_db := set s HEADER (hHash h) (Header_MarshalRLP h).
Definition ReadHeader (s : kv_db) (hash : Hash) : result storage_error Header :=
  readRLP s HEADER hash (Header_UnmarshalRLPFrom HeaderHash newHeader).

Definition WriteCanonicalHeader (s : kv_db) (h : Header) (diff : Z) : result kv_error kv_db :=
  s ← WriteHeader s h;
  s ← WriteHeadHash s (hHash h);
  s ← WriteHeadNumber s (hNumber h);
  s ← WriteCanonicalHash s (hNumber h) (hHash h);
  WriteTotalDifficulty s (hHash h) diff.

(** Bodies *)
Definition WriteBody (s : kv_db) (hash : Hash) (body : Body) : result kv_error kv_db := set s BODY hash (Body_MarshalRLP body).
Definition ReadBody (s : kv_db) (hash : Hash) : result storage_error Body :=
  readRLP s BODY hash (Body_UnmarshalRLPFrom HeaderHash (mkBody [] [])).

(** Receipts *)
Definition WriteReceipts (s : kv_db) (hash : Hash) (receipts : list Receipt) : result kv_error kv_db :=
  set s RECEIPTS hash (Receipts_MarshalStoreRLP receipts).
Definition ReadReceipts (s : kv_db) (hash : Hash) : result storage_error (list Receipt) :=
  readRLP s RECEIPTS hash (Receipts_UnmarshalStoreRLPFrom []).

(** The block of a transaction; reading panics on an entry that has not 32
    bytes. *)
Definition WriteTxLookup (s : kv_db) (hash blockHash : Hash) : result kv_error kv_db :=
  write2 s TX_LOOKUP_PREFIX hash (rlp_bytes blockHash).

Definition ReadTxLookup (s : kv_db) (hash : Hash) : result storage_error (option Hash) :=
  match read2 s TX_LOOKUP_PREFIX hash with
  | None => Returns None
  | Some v => blockHash ← or_panic (rlp_getfixed 32 v); Returns (Some (BytesToHash blockHash))
  end.

End storage.
