(* ===== verification/KeyValueProps.v ===== *)
(** * The block storage refines a record of maps

    Every read returns what the last write of its entry stored, whatever
    was written to other entries in between, over any database with the laws
    of [KV]; and both databases of the repository have them. *)

From Stdlib Require Import String.
From stdpp Require Import gmap.
From S2P Require Import Prelude BigInt Types Rlp BlockTypes BlockTypesProps Hex Result KeyValue.
#[local] Open Scope Z_scope.

(** ** The databases *)

Lemma EncodeToHex_inj p q : bytes_ok p → bytes_ok q → EncodeToHex p = EncodeToHex q → p = q.
Proof. intros Hp Hq E. apply DecodeHex_EncodeToHex in Hp, Hq. rewrite E in Hp. congruence. Qed.

#[export] Instance memoryKV_laws : @KVLaws memoryKV.
Proof.
  split. intros db p v db' q Hp Hq [= <-]. cbn. unfold memory_Get.
  destruct (bool_decide_reflect (q = p)) as [->|Hne]; [by rewrite lookup_insert_eq|].
  rewrite lookup_insert_ne; [done|]. intros E. by apply Hne, EncodeToHex_inj.
Qed.

(** What goleveldb documents: a key reads as it was last put. *)
Class LevelDBLaws `{LevelDB} : Prop := {
  ldb_get_put l p v l' q :
    ldb_Put l p v = Returns l' → ldb_Get l' q = if bool_decide (q = p) then Returns v else ldb_Get l q;
}.

#[export] Instance levelDBKV_laws `{LevelDBLaws} : @KVLaws levelDBKV.
Proof.
  split. intros db p v db' q _ _ E. cbn in *. unfold levelDB_Get. rewrite (ldb_get_put _ _ _ _ q E).
  by case_bool_decide.
Qed.

(** ** The specification *)

Record chain_spec := mkSpec {
  sCanonical : gmap Z Hash;
  sHeadHash : option Hash;
  sHeadNumber : option Z;
  sForks : option (list Hash);
  sDifficulty : gmap Hash Z;
  sHeaders : gmap Hash Header;
  sBodies : gmap Hash Body;
  sReceipts : gmap Hash (list Receipt);
  sTxLookup : gmap Hash Hash;
}.

Definition empty_spec : chain_spec := mkSpec ∅ None None None ∅ ∅ ∅ ∅ ∅.

Inductive op :=
  | OCanonical (n : Z) (h : Hash)
  | OHeadHash (h : Hash)
  | OHeadNumber (n : Z)
  | OForks (l : list Hash)
  | ODifficulty (h : Hash) (d : Z)
  | OHeader (h : Header)
  | OBody (h : Hash) (b : Body)
  | OReceipts (h : Hash) (rs : list Receipt)
  | OTxLookup (h b : Hash)
  | OCanonicalHeader (h : Header) (d : Z).

(** The entry an operation writes. *)
Definition write (sp : chain_spec) (o : op) : chain_spec :=
  let '(mkSpec c hh hn f d hs bs rs tx) := sp in
  match o with
  | OCanonical n h => mkSpec (<[n := h]> c) hh hn f d hs bs rs tx
  | OHeadHash h => mkSpec c (Some h) hn f d hs bs rs tx
  | OHeadNumber n => mkSpec c hh (Some n) f d hs bs rs tx
  | OForks l => mkSpec c hh hn (Some l) d hs bs rs tx
  | ODifficulty h x => mkSpec c hh hn f (<[h := x]> d) hs bs rs tx
  | OHeader h => mkSpec c hh hn f d (<[hHash h := h]> hs) bs rs tx
  | OBody h b => mkSpec c hh hn f d hs (<[h := b]> bs) rs tx
  | OReceipts h r => mkSpec c hh hn f d hs bs (<[h := r]> rs) tx
  | OTxLookup h b => mkSpec c hh hn f d hs bs rs (<[h := b]> tx)
  | OCanonicalHeader h x =>
      mkSpec (<[hNumber h := hHash h]> c) (Some (hHash h)) (Some (hNumber h)) f (<[hHash h := x]> d) (<[hHash h := h]> hs)
        bs rs tx
  end.

(** ** Entries *)

Inductive entry :=
  | ECanonical (n : Z) | EHeadHash | EHeadNumber | EForks
  | EDifficulty (h : Hash) | EHeader (h : Hash) | EBody (h : Hash) | EReceipts (h : Hash) | ETxLookup (h : Hash).

#[export] Instance entry_eq_dec : EqDecision entry.
Proof. solve_decision. Defined.

Definition entry_key (e : entry) : list Z :=
  match e with
  | ECanonical n => CANONICAL ++ encodeUint n
  | EHeadHash => HEAD ++ HASH
  | EHeadNumber => HEAD ++ NUMBER
  | EForks => FORK ++ EMPTY
  | EDifficulty h => DIFFICULTY ++ h
  | EHeader h => HEADER ++ h
  | EBody h => BODY ++ h
  | EReceipts h => RECEIPTS ++ h
  | ETxLookup h => TX_LOOKUP_PREFIX ++ h
  end.

Definition entry_ok (e : entry) : Prop :=
  match e with
  | ECanonical n => u64_ok n
  | EDifficulty h | EHeader h | EBody h | EReceipts h | ETxLookup h => hash_ok h
  | _ => True
  end.

Lemma encodeUint_inj n m : u64_ok n → u64_ok m → encodeUint n = encodeUint m → n = m.
Proof.
  intros Hn Hm E. unfold encodeUint in E. apply (f_equal be_decode) in E. rewrite !be_decode_encode in E.
  change (256 ^ Z.of_nat 8) with (2 ^ 64) in E. by rewrite !Z.mod_small in E.
Qed.

Lemma entry_key_inj e e' : entry_ok e → entry_ok e' → entry_key e = entry_key e' → e = e'.
Proof.
  destruct e, e'; cbn -[encodeUint]; intros H1 H2 E; try discriminate E; try done;
    apply (f_equal (drop 1)) in E; cbn -[encodeUint] in E.
  all: rewrite ?drop_0 in E; subst; done || (f_equal; by apply encodeUint_inj).
Qed.

Lemma entry_key_ok e : entry_ok e → bytes_ok (entry_key e).
Proof.
  destruct e; intros He; cbn -[encodeUint]; repeat (apply Forall_cons; split; [by split|]);
    try (apply Forall_nil_2 || apply be_encode_ok || apply He).
Qed.

Section refinement.
Context `{KVLaws, RlpLaws, !Keccak} (HeaderHash : Header → Hash).

Definition entry_data (sp : chain_spec) (e : entry) : option (list Z) :=
  match e with
  | ECanonical n => sCanonical sp !! n
  | EHeadHash => sHeadHash sp
  | EHeadNumber => encodeUint <$> sHeadNumber sp
  | EForks => (λ f, rlp_marshal (Forks_MarshalRLPWith f)) <$> sForks sp
  | EDifficulty h => Bytes <$> sDifficulty sp !! h
  | EHeader h => Header_MarshalRLP <$> sHeaders sp !! h
  | EBody h => Body_MarshalRLP <$> sBodies sp !! h
  | EReceipts h => Receipts_MarshalStoreRLP <$> sReceipts sp !! h
  | ETxLookup h => (λ b, rlp_marshal (rlp_bytes b)) <$> sTxLookup sp !! h
  end.

Definition represents (db : kv_db) (sp : chain_spec) : Prop :=
  ∀ e, entry_ok e → kv_Get db (entry_key e) = Returns (entry_data sp e).

Definition exec (db : kv_db) (o : op) : result kv_error kv_db :=
  match o with
  | OCanonical n h => WriteCanonicalHash db n h
  | OHeadHash h => WriteHeadHash db h
  | OHeadNumber n => WriteHeadNumber db n
  | OForks l => WriteForks db l
  | ODifficulty h d => WriteTotalDifficulty db h d
  | OHeader h => WriteHeader db h
  | OBody h b => WriteBody db h b
  | OReceipts h rs => WriteReceipts db h rs
  | OTxLookup h b => WriteTxLookup db h b
  | OCanonicalHeader h d => WriteCanonicalHeader db h d
  end.

(** What may be written: entries with the hashes of their contents. *)
Definition op_ok (o : op) : Prop :=
  match o with
  | OCanonical n h => u64_ok n ∧ hash_ok h
  | OHeadHash h => hash_ok h
  | OHeadNumber n => u64_ok n
  | OForks l => Forall hash_ok l
  | ODifficulty h d => hash_ok h ∧ 0 ≤ d
  | OHeader h => header_stored HeaderHash h ∧ hash_ok (hHash h)
  | OBody h b => hash_ok h ∧ Forall tx_stored (bdTransactions b) ∧ Forall (header_stored HeaderHash) (bdUncles b)
  | OReceipts h rs => hash_ok h ∧ Forall receipt_ok rs
  | OTxLookup h b => hash_ok h ∧ hash_ok b
  | OCanonicalHeader h d => header_stored HeaderHash h ∧ hash_ok (hHash h) ∧ 0 ≤ d
  end.

Lemma set_represents db sp e v db' sp' :
  represents db sp → entry_ok e → kv_Set db (entry_key e) v = Returns db' →
  entry_data sp' e = Some v → (∀ e', e' ≠ e → entry_data sp' e' = entry_data sp e') → represents db' sp'.
Proof.
  intros Hr He Hs Hv Hne e' He'. rewrite (get_set _ _ _ _ _ (entry_key_ok e He) (entry_key_ok e' He') Hs).
  case_bool_decide as E.
  - apply entry_key_inj in E as ->; [|done..]. by rewrite Hv.
  - rewrite Hne by (intros ->; done). by apply Hr.
Qed.

(** An operation that writes one entry. *)
Definition op_entry (o : op) : option entry :=
  match o with
  | OCanonical n _ => Some (ECanonical n) | OHeadHash _ => Some EHeadHash | OHeadNumber _ => Some EHeadNumber
  | OForks _ => Some EForks | ODifficulty h _ => Some (EDifficulty h) | OHeader h => Some (EHeader (hHash h))
  | OBody h _ => Some (EBody h) | OReceipts h _ => Some (EReceipts h) | OTxLookup h _ => Some (ETxLookup h)
  | OCanonicalHeader _ _ => None
  end.

Lemma exec_one db sp o e db' :
  represents db sp → op_ok o → op_entry o = Some e → exec db o = Returns db' → represents db' (write sp o).
Proof.
  intros Hr Ho He Hx. destruct sp.
  destruct o; cbn in He; try discriminate He; injection He as He; cbn in Ho, Hx;
    (eapply (set_represents _ _ e); [exact Hr|rewrite <- He|rewrite <- He; exact Hx|rewrite <- He|rewrite <- He]);
    try (cbn; destruct_and?; done); try (cbn; by rewrite ?lookup_insert_eq).
  all: intros e' Hne; destruct e'; cbn; rewrite ?lookup_insert_ne by congruence; done.
Qed.

Lemma exec_represents db sp o db' :
  represents db sp → op_ok o → exec db o = Returns db' → represents db' (write sp o).
Proof.
  intros Hr Ho Hx. destruct (op_entry o) as [e|] eqn:He; [by eapply exec_one|].
  destruct o as [| | | | | | | | |h d]; try discriminate He. cbn in Ho, Hx. destruct Ho as (Hh & Hok & Hd).
  unfold WriteCanonicalHeader in Hx. invert_result Hx.
  assert (u64_ok (hNumber h)) as Hn by apply Hh.
  assert (write sp (OCanonicalHeader h d) = foldl write sp [OHeader h; OHeadHash (hHash h); OHeadNumber (hNumber h);
    OCanonical (hNumber h) (hHash h); ODifficulty (hHash h) d]) as -> by by destruct sp.
  cbn [foldl].
  eapply (exec_one _ _ (ODifficulty (hHash h) d)); [|by split|done|exact Hx].
  eapply (exec_one _ _ (OCanonical (hNumber h) (hHash h))); [|by split|done|done].
  eapply (exec_one _ _ (OHeadNumber (hNumber h))); [|done|done|done].
  eapply (exec_one _ _ (OHeadHash (hHash h))); [|done|done|done].
  by eapply (exec_one _ _ (OHeader h)).
Qed.

(** The values of a specification state are those operations may write. *)
Record spec_ok (sp : chain_spec) : Prop := {
  so_canonical : map_Forall (λ _ h, hash_ok h) (sCanonical sp);
  so_headhash : ∀ h, sHeadHash sp = Some h → hash_ok h;
  so_headnumber : ∀ n, sHeadNumber sp = Some n → u64_ok n;
  so_forks : ∀ l, sForks sp = Some l → Forall hash_ok l;
  so_difficulty : map_Forall (λ _ d, 0 ≤ d) (sDifficulty sp);
  so_headers : map_Forall (λ _ h, header_stored HeaderHash h) (sHeaders sp);
  so_bodies : map_Forall (λ _ b, Forall tx_stored (bdTransactions b) ∧ Forall (header_stored HeaderHash) (bdUncles b)) (sBodies sp);
  so_receipts : map_Forall (λ _ r, Forall receipt_ok r) (sReceipts sp);
  so_txlookup : map_Forall (λ _ b, hash_ok b) (sTxLookup sp);
}.

Lemma spec_ok_empty : spec_ok empty_spec.
Proof. split; cbn; try apply map_Forall_empty; done. Qed.

Lemma write_ok sp o : spec_ok sp → op_ok o → spec_ok (write sp o).
Proof.
  intros [] Ho. destruct sp, o; cbn in *; destruct_and?; split; cbn; try done;
    try (apply map_Forall_insert_2; [|done]); try done; try (by intros ? [= <-]); try (by split).
  intros n [= <-]. by match goal with Hh : header_stored _ _ |- _ => apply Hh end.
Qed.

(** All reads, against a specification state. *)
Definition reads_agree (db : kv_db) (sp : chain_spec) : Prop :=
  (∀ n, u64_ok n → ReadCanonicalHash db n = sCanonical sp !! n) ∧
  ReadHeadHash db = sHeadHash sp ∧ ReadHeadNumber db = sHeadNumber sp ∧
  ReadForks db = or_error ErrNotFound (sForks sp) ∧
  ∀ h, hash_ok h →
    ReadTotalDifficulty db h = sDifficulty sp !! h ∧
    ReadHeader HeaderHash db h = or_error ErrNotFound (sHeaders sp !! h) ∧
    ReadBody HeaderHash db h = or_error ErrNotFound (sBodies sp !! h) ∧
    ReadReceipts db h = or_error ErrNotFound (sReceipts sp !! h) ∧
    ReadTxLookup db h = Returns (sTxLookup sp !! h).

Lemma get_represents db sp e p k :
  represents db sp → entry_ok e → entry_key e = p ++ k → get db p k = entry_data sp e.
Proof. intros Hr He E. unfold get. by rewrite <- E, Hr. Qed.

Lemma readRLP_represents {A} db sp e p k (o : option A) unmarshal marshal :
  represents db sp → entry_ok e → entry_key e = p ++ k → entry_data sp e = marshal <$> o →
  (∀ a, o = Some a → UnmarshalRlp unmarshal (marshal a) = Some a) →
  readRLP db p k unmarshal = or_error ErrNotFound o.
Proof.
  intros Hr He E Ho Hm. unfold readRLP. rewrite <- E, Hr, Ho by done. destruct o as [a|]; [|done]. cbn.
  by rewrite Hm.
Qed.

Lemma Forks_read l : Forall hash_ok l → UnmarshalRlp Forks_UnmarshalRLPFrom (rlp_marshal (Forks_MarshalRLPWith l)) = Some l.
Proof.
  intros Hl. unfold UnmarshalRlp. rewrite parse_marshal. cbn [mbind option_bind].
  unfold Forks_UnmarshalRLPFrom, Forks_MarshalRLPWith. rewrite elems_arrayOrNull. cbn [mbind option_bind].
  rewrite (mapM_fmap _ _ id), list_fmap_id; [done|].
  intros h Hh. apply fixed_ok. eapply Forall_forall in Hl; [|exact Hh]. apply Hl.
Qed.

Lemma header_stored_read h :
  header_stored HeaderHash h → UnmarshalRlp (Header_UnmarshalRLPFrom HeaderHash newHeader) (Header_MarshalRLP h) = Some h.
Proof.
  intros [Hok Hh]. unfold UnmarshalRlp, Header_MarshalRLP. rewrite parse_marshal. cbn [mbind option_bind].
  rewrite Header_read by done. f_equal. unfold newHeader at 1. cbn [hHash]. rewrite <- Hh. by destruct h.
Qed.

Lemma hash_bytes (o : option Hash) : (∀ h, o = Some h → hash_ok h) → BytesToHash <$> o = o.
Proof. destruct o as [h|]; intros Ho; [|done]. cbn. f_equal. by apply right_align_id, Ho. Qed.

Lemma represents_reads db sp : represents db sp → spec_ok sp → reads_agree db sp.
Proof.
  intros Hr []. unfold reads_agree. split_and!.
  - intros n Hn. unfold ReadCanonicalHash. rewrite (get_represents db sp (ECanonical n)) by done.
    apply hash_bytes. intros h. apply so_canonical0.
  - unfold ReadHeadHash. rewrite (get_represents db sp EHeadHash) by done. by apply hash_bytes.
  - unfold ReadHeadNumber. rewrite (get_represents db sp EHeadNumber) by done. cbn.
    destruct (sHeadNumber sp) as [n|]; [|done]. cbn -[decodeUint encodeUint]. f_equal.
    unfold decodeUint, encodeUint. rewrite be_decode_encode. apply Z.mod_small. by apply so_headnumber0.
  - eapply (readRLP_represents db sp EForks); [done..|]. intros l Hl. apply Forks_read. by apply so_forks0.
  - intros h Hh. split_and!.
    + unfold ReadTotalDifficulty. rewrite (get_represents db sp (EDifficulty h)) by done. cbn.
      destruct (sDifficulty sp !! h) as [d|] eqn:E; [|done]. cbn. f_equal. apply SetBytes_Bytes. by apply so_difficulty0 in E.
    + eapply (readRLP_represents db sp (EHeader h)); [done..|]. intros x Hx. apply header_stored_read. by apply so_headers0 in Hx.
    + eapply (readRLP_represents db sp (EBody h)); [done..|]. intros x [? ?]%so_bodies0. by apply Body_read.
    + eapply (readRLP_represents db sp (EReceipts h)); [done..|]. intros x Hx%so_receipts0. by apply Receipts_store_read.
    + unfold ReadTxLookup, read2. rewrite (get_represents db sp (ETxLookup h)) by done. cbn.
      destruct (sTxLookup sp !! h) as [b|] eqn:E; [|done]. cbn. apply so_txlookup0 in E as [Hl _].
      rewrite parse_marshal, fixed_ok by done. cbn. do 2 f_equal. by apply right_align_id.
Qed.

(** A run of operations, stopped by the first error. *)
Fixpoint execs (db : kv_db) (ops : list op) : result kv_error kv_db :=
  match ops with
  | [] => Returns db
  | o :: ops => db ← exec db o; execs db ops
  end.

Lemma execs_reads ops : ∀ db sp db',
  represents db sp → spec_ok sp → Forall op_ok ops → execs db ops = Returns db' → reads_agree db' (foldl write sp ops).
Proof.
  induction ops as [|o ops IH]; intros db sp db' Hr Hs Ho Hx.
  - injection Hx as <-. by apply represents_reads.
  - apply Forall_cons in Ho as [Ho Hos]. cbn in Hx. apply result_bind_returns in Hx as (d & Hd & Hx).
    eapply IH; [by eapply exec_represents|by apply write_ok|done|done].
Qed.

End refinement.

(** ** Claim *)

(** C16. The block storage refines a record of maps: starting from an empty
    database, after any sequence of writes that all succeeded, every read of
    a canonical hash, the head, the forks, a difficulty, header, body, list
    of receipts or transaction index returns the value last written there,
    or reports that there is none. Writing a canonical header sets five
    entries at once. This holds for every database with the laws of [KV]. *)
Theorem storage_refines `{KVLaws, RlpLaws, !Keccak} (HeaderHash : Header → Hash) (db db' : kv_db) (ops : list op) :
  (∀ k, kv_Get db k = Returns None) → Forall (op_ok HeaderHash) ops → execs db ops = Returns db' →
  reads_agree HeaderHash db' (foldl write empty_spec ops).
Proof.
  intros He Ho Hx. apply (execs_reads HeaderHash ops db empty_spec); [|apply spec_ok_empty|done|done].
  intros e _. rewrite He. by destruct e.
Qed.

#[local] Existing Instances tree_fastrlp tree_rlp tree_rlp_laws length_keccak memoryKV.

(** A chain of one header, with its body and receipts, in memory. *)
Definition demo_header : Header := set_hHash (defHeaderHash newHeader) newHeader.

Definition demo_ops : list op :=
  [OCanonicalHeader demo_header 5; OBody (hHash demo_header) (mkBody [demo_tx] []);
   OReceipts (hHash demo_header) [demo_receipt]; OTxLookup (tHash demo_tx) (hHash demo_header); OHeadNumber 7].

Definition demo_db : kv_db := match execs ∅ demo_ops with Returns db => db | _ => ∅ end.

Lemma storage_refines_witness :
  execs ∅ demo_ops = Returns demo_db ∧
  ReadCanonicalHash demo_db 0 = Some (hHash demo_header) ∧ ReadHeadNumber demo_db = Some 7 ∧
  ReadHeader defHeaderHash demo_db (hHash demo_header) = Returns demo_header ∧
  ReadBody defHeaderHash demo_db (hHash demo_header) = Returns (mkBody [demo_tx] []) ∧
  ReadReceipts demo_db (hHash demo_header) = Returns [demo_receipt].
Proof.
  assert (hash_ok (hHash demo_header)) as Hh by apply keccak256_ok.
  assert (header_stored defHeaderHash demo_header) as Hs by (split; [by destruct newHeader_ok; split|reflexivity]).
  destruct (storage_refines defHeaderHash ∅ demo_db demo_ops) as (Hc & _ & Hn & _ & Hr).
  - intros k. exact (f_equal Returns (lookup_empty (M := gmap (list Z)) (EncodeToHex k))).
  - assert (tx_stored demo_tx) as Ht by (split; [apply demo_tx_ok|by repeat constructor|reflexivity|reflexivity]).
    unfold demo_ops. apply Forall_cons_2; [split; [exact Hs|split; [exact Hh|lia]]|].
    apply Forall_cons_2; [exact (conj Hh (conj (Forall_cons_2 _ _ _ Ht (Forall_nil_2 _)) (Forall_nil_2 _)))|].
    apply Forall_cons_2; [exact (conj Hh (Forall_cons_2 _ _ _ demo_receipt_ok (Forall_nil_2 _)))|].
    apply Forall_cons_2; [exact (conj (keccak256_ok _) Hh)|].
    apply Forall_cons_2; [split; lia|apply Forall_nil_2].
  - reflexivity.
  - destruct (Hr _ Hh) as (_ & H1 & H2 & H3 & _). split; [reflexivity|].
    split; [transitivity (sCanonical (foldl write empty_spec demo_ops) !! 0); [apply Hc; split; lia|by vm_compute]|].
    split; [etransitivity; [exact Hn|by vm_compute]|]. split; [etransitivity; [exact H1|by vm_compute]|].
    split; [etransitivity; [exact H2|by vm_compute]|]. etransitivity; [exact H3|by vm_compute].
Defined.
