(* ===== verification/Hasher.v ===== *)
(** * The hash of a trie (state/immutable-trie/hasher.go)

    Every node that takes 32 bytes or more is replaced in its parent by the
    Keccak hash of its RLP form and put into the batch of the commit under
    that hash. Nodes of the model have no cached hash, so that every node is
    hashed; the code skips the ones hashed before. The batch is the list of
    its puts; without a batch ([t.batch == nil]) they are dropped. *)

From Stdlib Require Import String.
From S2P Require Import Prelude BigInt Types Rlp Hex Trie.
#[local] Open Scope Z_scope.

(** The parts of fastrlp the hasher uses beyond those of [Rlp]. *)
Class RlpValues `{Rlp} := {
  rlp_isbytes : rlp_value → bool;      (** [Value.Type() == TypeBytes] *)
  rlp_len : rlp_value → Z;             (** [Value.Len] *)
  rlp_Raw : rlp_value → list Z;        (** [Value.Raw] *)
}.

Definition emptyRoot : list Z := StringToHash (lit "56e81f171bcc55a6ff8345e692c0f86e5b48e01b996cadc001622fb5e363b421").

Section hasher.
Context `{Keccak, RlpValues}.

Definition puts : Type := list (list Z * list Z).

(** The end of [hash]: a short node stays, a long one is hashed. *)
Definition hashValue (val : rlp_value) (w : puts) : rlp_value * puts :=
  if rlp_len val <? 32 then (val, w)
  else
    let buf := rlp_marshal val in
    let tmp := keccak256 buf in
    (rlp_bytes tmp, w ++ [(tmp, buf)]).

(** [t.hash(node, h, a, d)]; [None] is a panic on a nil child. *)
Fixpoint hash (n : node) : option (rlp_value * puts) :=
  match n with
  | ValueNode _ buf => Some (rlp_bytes buf, [])
  | ShortNode key child =>
      match child with
      | None => None
      | Some child =>
          '(child, w) ← hash child;
          Some (hashValue (rlp_array [rlp_bytes (encodeCompact key); child]) w)
      end
  | FullNode value children =>
      '(vals, w) ← (fix go (children : list (option node)) : option (list rlp_value * puts) :=
        match children with
        | [] => Some ([], [])
        | None :: children => '(vals, w) ← go children; Some (rlp_null :: vals, w)
        | Some i :: children =>
            '(v, w) ← hash i;
            '(vals, w') ← go children;
            Some (v :: vals, w ++ w')
        end) children;
      '(v, w') ← match value with None => Some (rlp_null, []) | Some value => hash value end;
      Some (hashValue (rlp_array (vals ++ [v])) (w ++ w'))
  end.

(** [t.Hash()]: the root and the puts. *)
Definition Txn_Hash (root : option node) : option (list Z * puts) :=
  match root with
  | None => Some (emptyRoot, [])
  | Some n =>
      '(val, w) ← hash n;
      if rlp_isbytes val then
        if negb (rlp_len val =? 32) then
          let root := keccak256 (rlp_Raw val) in Some (root, w ++ [(root, rlp_Raw val)])
        else Some (take 32 (rlp_Raw val), w)
      else
        let tmp := rlp_marshal val in
        let root := keccak256 tmp in Some (root, w ++ [(root, tmp)])
  end.

End hasher.
