(* ===== verification/BuildRoot.v ===== *)
(** * Roots of transactions and receipts
      (types/buildroot: buildroot.go, buildroot_fast.go)

    The root of a list is that of the trie that maps the RLP form of each
    index to the item. Up to 128 items the [FastHasher] computes it without
    building the trie. Its buffers are emptied before each use, so that they
    are local here; [dst] is threaded as in the code. [None] stands for the
    [false] of the fast hasher, which makes the caller fall back to the
    trie. *)

From S2P Require Import Prelude BigInt Types Rlp BlockTypes Trie Hasher.
#[local] Open Scope Z_scope.

Section fast.
Context `{Keccak}.

(** ** RLP headers *)

Definition intsize (val : Z) : Z :=
  if val <? Z.shiftl 1 8 then 1 else if val <? Z.shiftl 1 16 then 2 else if val <? Z.shiftl 1 24 then 3
  else if val <? Z.shiftl 1 32 then 4 else if val <? Z.shiftl 1 40 then 5 else if val <? Z.shiftl 1 48 then 6
  else if val <? Z.shiftl 1 56 then 7 else 8.

Definition getRlpSize (size : Z) : Z := if size <? 56 then 1 else intsize size + 1.

Definition marshalRlpSize (dst : list Z) (size short long : Z) : list Z :=
  if size <? 56 then dst ++ [(short + size mod 256) mod 256]
  else
    let intSize := intsize size in
    let buf := be_encode 8 size in
    dst ++ [(long + intSize mod 256) mod 256] ++ drop (Z.to_nat (8 - intSize)) buf.

Definition marshalItemRlpSize (dst : list Z) (size : Z) : list Z := marshalRlpSize dst (u64 size) 0x80 0xB7.
Definition marshalListRlpSize (dst : list Z) (size : Z) : list Z := marshalRlpSize dst (u64 size) 0xC0 0xF7.

(** ** The hasher *)

Definition leafVal : list Z := [0x20].
Definition rlpEmptyValue : list Z := [0x80].
Definition rlpHashPrefix : list Z := [0xa0].
Definition zeroKey : list Z := [0x30].
Definition oneKey : list Z := [0x31].
Definition singleKey : list Z := [0x82; 0x20; 0x80].

(** [f.hash(dst, b)] *)
Definition fast_hash (dst b : list Z) : list Z := dst ++ keccak256 b.

Section callback.
Context (num : Z) (cb : Z → list Z).

Definition getCb (i : Z) : option (list Z) :=
  if num <? i then None
  else
    let val := cb i in
    if zlen val <? 32 then None else Some val.

Definition encodeOneItem (dst : list Z) : option (list Z) :=
  val ← getCb 0;
  let n := getRlpSize (zlen val) in
  let buf2 := marshalListRlpSize [] (n + zlen val + zlen singleKey) in
  let buf2 := buf2 ++ singleKey in
  let buf2 := marshalItemRlpSize buf2 (zlen val) in
  let buf2 := buf2 ++ val in
  Some (fast_hash dst buf2).

Definition encodeSingle (dst v : list Z) (b : bool) : list Z :=
  let num := zlen v in
  let n := getRlpSize num in
  let buf2 := marshalListRlpSize [] (n + num + 1) in
  let buf2 := buf2 ++ (if b then oneKey else zeroKey) in
  let buf2 := marshalItemRlpSize buf2 num in
  let buf2 := buf2 ++ v in
  fast_hash dst buf2.

(** The body of the loop of [deriveGroup]. *)
Definition groupItem (buf : list Z) (i : Z) : option (list Z) :=
  val ← getCb i;
  let buf := buf ++ rlpHashPrefix in
  let n := getRlpSize (zlen val) in
  let buf2 := marshalListRlpSize [] (n + 1 + zlen val) in
  let buf2 := buf2 ++ leafVal in
  let buf2 := marshalItemRlpSize buf2 (zlen val) in
  let buf2 := buf2 ++ val in
  Some (fast_hash buf buf2).

Fixpoint groupItems (buf : list Z) (l : list Z) : option (list Z) :=
  match l with
  | [] => Some buf
  | i :: l => buf ← groupItem buf i; groupItems buf l
  end.

(** [n] times [append(b, rlpEmptyValue...)] *)
Definition appendEmpty (b : list Z) (n : Z) : list Z := b ++ mjoin (replicate (Z.to_nat n) rlpEmptyValue).

Definition deriveGroup (dst : list Z) (from to : Z) : option (list Z) :=
  let num := to - from in
  if num =? 1 then
    val ← getCb from;
    Some (encodeSingle dst val (from =? 1))
  else
    let buf := if from =? 1 then rlpEmptyValue else [] in
    buf ← groupItems buf (seqZ from (to - from));
    let buf :=
      if num <? 16 then appendEmpty buf ((if negb (from =? 1) then 16 else 15) - num) else buf in
    let buf := buf ++ rlpEmptyValue in
    let buf2 := marshalListRlpSize [] (zlen buf) in
    let buf2 := buf2 ++ buf in
    Some (fast_hash dst buf2).

(** The groups: [for i := 0; i < step1; i += 16]. *)
Fixpoint deriveGroups (dst : list Z) (step1 : Z) (l : list Z) : option (list Z) :=
  match l with
  | [] => Some dst
  | i :: l =>
      let ini := if i =? 0 then 1 else i in
      let dst := dst ++ rlpHashPrefix in
      dst ← deriveGroup dst ini (Z.min step1 (i + 16));
      deriveGroups dst step1 l
  end.

Definition FastHasher_Hash : option (list Z) :=
  if num =? 1 then encodeOneItem []
  else
    let step1 := Z.min num 128 in
    dst ← deriveGroups [] step1 (Z.mul 16 <$> seqZ 0 ((step1 + 15) / 16));
    let dst := appendEmpty dst ((128 - step1) / 16) in
    let dst := dst ++ rlpHashPrefix in
    val ← getCb 0;
    let dst := encodeSingle dst val false in
    let dst := appendEmpty dst 8 in
    let buf2 := marshalListRlpSize [] (zlen dst) in
    let buf2 := buf2 ++ dst in
    Some (fast_hash [] buf2).

End callback.

(** ** buildroot.go *)

Context `{!Fastrlp, !Rlp, !RlpValues, !TrieStorage}.

(** Recursion depth for the insertions: keys have at most nine bytes. *)
Definition slowFuel : nat := 64.

Fixpoint insertAll (root : option node) (h : Z → list Z) (l : list Z) : option (option node) :=
  match l with
  | [] => Some root
  | i :: l => root ← Insert slowFuel root (rlp_marshal (rlp_uint (u64 i))) (h i); insertAll root h l
  end.

Definition deriveSlow (num : Z) (h : Z → list Z) : option (list Z) :=
  root ← insertAll None h (seqZ 0 num);
  fst <$> Txn_Hash root.

Definition CalculateRoot (num : Z) (h : Z → list Z) : option Hash :=
  if num =? 0 then Some EmptyRootHash
  else
    match (if num <=? 128 then FastHasher_Hash num h else None) with
    | Some dst => Some (BytesToHash dst)
    | None => BytesToHash <$> deriveSlow num h
    end.

Definition calculateRootWithRlp (num : Z) (h : Z → rlp_value) : option Hash := CalculateRoot num (λ i, rlp_marshal (h i)).

(** The callbacks index the slice, within its bounds. *)
Definition CalculateReceiptsRoot (receipts : list Receipt) : option Hash :=
  calculateRootWithRlp (zlen receipts) (λ i, Receipt_MarshalRLPWith (default newReceipt (receipts !! Z.to_nat i))).

Definition CalculateTransactionsRoot (transactions : list Transaction) : option Hash :=
  calculateRootWithRlp (zlen transactions)
    (λ i, Transaction_MarshalRLPWith (default newTransaction (transactions !! Z.to_nat i))).

Definition CalculateUncleRoot (uncles : list Header) : Hash :=
  match uncles with
  | [] => EmptyUncleHash
  | _ => BytesToHash (keccak256 (rlp_marshal (rlp_array (Header_MarshalRLPWith <$> uncles))))
  end.

End fast.
