(* ===== verification/BuildRootProps.v ===== *)
(** * The fast hasher computes the root of the trie

    The root the fast hasher writes down directly is the hash of the trie
    that the slow path builds: the trie of up to 128 items is given
    explicitly, insertion by insertion, and its RLP form is that of the fast
    hasher, header by header. *)

From stdpp Require Import gmap.
From S2P Require Import Prelude BigInt Types Rlp BlockTypes Trie TrieMap TrieProps Hasher BuildRoot.
#[local] Open Scope Z_scope.

(** ** RLP *)

(** The encoding as Ethereum defines it. *)
Definition rlp_size (short long n : Z) : list Z :=
  if n <? 56 then [short + n] else let l := Bytes n in (long + zlen l) :: l.

Definition rlp_string (b : list Z) : list Z :=
  match b with
  | [x] => if x <? 128 then [x] else rlp_size 0x80 0xb7 1 ++ b
  | _ => rlp_size 0x80 0xb7 (zlen b) ++ b
  end.

Definition rlp_list (items : list (list Z)) : list Z :=
  let payload := mjoin items in rlp_size 0xc0 0xf7 (zlen payload) ++ payload.

(** fastrlp writes it; [Len] of an array is no less than its items take. *)
Class RlpEncoding `{RlpValues} : Prop := {
  marshal_bytes b : rlp_marshal (rlp_bytes b) = rlp_string b;
  marshal_uint n : 0 ≤ n < 2 ^ 64 → rlp_marshal (rlp_uint n) = rlp_string (Bytes n);
  marshal_null : rlp_marshal rlp_null = [0x80];
  marshal_array l : rlp_marshal (rlp_array l) = rlp_list (rlp_marshal <$> l);
  isbytes_bytes b : rlp_isbytes (rlp_bytes b) = true;
  len_bytes b : rlp_len (rlp_bytes b) = zlen b;
  Raw_bytes b : rlp_Raw (rlp_bytes b) = b;
  len_array l : zlen (mjoin (rlp_marshal <$> l)) ≤ rlp_len (rlp_array l);
}.

Lemma be_encode_app m k x : be_encode (m + k) x = be_encode m (x / 256 ^ Z.of_nat k) ++ be_encode k x.
Proof.
  revert x. induction k as [|k IH]; intros x; [by rewrite Nat.add_0_r, Z.div_1_r, app_nil_r|].
  rewrite Nat.add_succ_r. cbn [be_encode]. rewrite IH, app_assoc. do 3 f_equal.
  rewrite Z.div_div by lia. rewrite Nat2Z.inj_succ, Z.pow_succ_r by lia. done.
Qed.

Lemma intsize_bytes n : 0 < n < 2 ^ 64 → intsize n = (BitLen n + 7) / 8 ∧ 1 ≤ intsize n ≤ 8.
Proof.
  intros Hn.
  assert (∀ k, 0 ≤ k → BitLen n ≤ 8 * k ↔ n < 2 ^ (8 * k)) as Hb.
  { intros k Hk. rewrite BitLen_spec, Z.abs_eq by lia. done. }
  assert (∀ k lo hi, 1 ≤ k ≤ 8 → 2 ^ (8 * (k - 1)) = lo → 2 ^ (8 * k) = hi → lo ≤ n → n < hi → k = (BitLen n + 7) / 8) as Hk.
  { intros k lo hi Hk <- <- Hlo Hhi. apply Hb in Hhi; [|lia]. assert (¬ BitLen n ≤ 8 * (k - 1)) by (rewrite Hb; lia).
    apply Z.div_unique with (BitLen n + 7 - 8 * k); lia. }
  unfold intsize. rewrite !Z.shiftl_1_l.
  repeat case_match; (split; [|lia]); eapply Hk; (reflexivity || lia).
Qed.

Lemma marshal_header dst n short long :
  0 ≤ n < 2 ^ 64 → 0 ≤ short < 200 → 0 ≤ long < 248 → marshalRlpSize dst n short long = dst ++ rlp_size short long n.
Proof.
  intros Hn Hs Hl. unfold marshalRlpSize, rlp_size. destruct (Z.ltb_spec n 56) as [Hlt|Hlt].
  - do 2 f_equal. rewrite (Z.mod_small n), Z.mod_small by lia. done.
  - destruct (intsize_bytes n) as [Hi Hr]; [lia|]. f_equal. cbv zeta. cbn [app].
    assert (zlen (Bytes n) = intsize n) as HB by by rewrite length_Bytes, Hi.
    f_equal; [rewrite (Z.mod_small (intsize n)), Z.mod_small by lia; by rewrite HB|].
    unfold Bytes. rewrite <- Hi, Z.abs_eq by lia.
    replace 8%nat with (Z.to_nat (8 - intsize n) + Z.to_nat (intsize n))%nat at 1 by lia.
    rewrite be_encode_app. apply drop_app_length'. by rewrite length_be_encode.
Qed.

Lemma length_header n short long : 0 ≤ n < 2 ^ 64 → zlen (rlp_size short long n) = getRlpSize n.
Proof.
  intros Hn. unfold rlp_size, getRlpSize. destruct (Z.ltb_spec n 56); [done|].
  destruct (intsize_bytes n) as [Hi _]; [lia|]. rewrite Hi, <- length_Bytes. unfold zlen. cbn [length]. lia.
Qed.

Lemma zlen_app {A} (l k : list A) : zlen (l ++ k) = zlen l + zlen k.
Proof. unfold zlen. rewrite length_app. lia. Qed.

Lemma mjoin_cons {A} (x : list A) l : mjoin (x :: l) = x ++ mjoin l.
Proof. done. Qed.

Lemma rlp_string_long v : 32 ≤ zlen v → rlp_string v = rlp_size 0x80 0xb7 (zlen v) ++ v.
Proof. intros Hv. unfold rlp_string. destruct v as [|x [|y v]]; [done| |done]. unfold zlen in Hv. cbn in Hv. lia. Qed.

Lemma rlp_string_hash h : length h = 32%nat → rlp_string h = 0xa0 :: h.
Proof. intros Hh. rewrite rlp_string_long by (unfold zlen; lia). unfold zlen. by rewrite Hh. Qed.

(** The RLP form of a leaf, as the fast hasher writes it. *)
Lemma fast_leaf k v size :
  32 ≤ zlen v < 2 ^ 60 → zlen k ≤ 8 → size = getRlpSize (zlen v) + zlen v + zlen k →
  marshalItemRlpSize (marshalListRlpSize [] size ++ k) (zlen v) ++ v = rlp_list [k; rlp_string v].
Proof.
  intros Hv Hk ->. unfold rlp_list. cbv zeta. cbn [mjoin list_join]. rewrite app_nil_r.
  assert (0 ≤ zlen k) by (unfold zlen; lia).
  rewrite rlp_string_long by lia. rewrite !zlen_app, length_header by lia.
  assert (1 ≤ getRlpSize (zlen v) ≤ 9).
  { unfold getRlpSize. destruct (Z.ltb_spec (zlen v) 56); [lia|]. destruct (intsize_bytes (zlen v)); lia. }
  unfold marshalItemRlpSize, marshalListRlpSize. rewrite !u64_small by lia.
  rewrite !marshal_header by lia. cbn [app]. rewrite <- !app_assoc. do 2 f_equal. lia.
Qed.

(** ** The trie of up to 128 items *)

Definition leaf (v : list Z) : node := ShortNode [16] (Some (newValue v)).
Definition tail_leaf (x : Z) (v : list Z) : node := ShortNode [x; 16] (Some (newValue v)).

(** The items from [from] to [to], which agree in all but the last nibble. *)
Definition group (cb : Z → list Z) (from to : Z) : node :=
  if to - from =? 1 then tail_leaf (from mod 16) (cb from)
  else FullNode None (replicate (Z.to_nat (from mod 16)) None ++ ((λ i, Some (leaf (cb i))) <$> seqZ from (to - from))
    ++ replicate (Z.to_nat (16 - from mod 16 - (to - from))) None).

Definition starts (num : Z) : list Z := Z.mul 16 <$> seqZ 0 ((num + 15) / 16).

Definition fast_trie (num : Z) (cb : Z → list Z) : node :=
  if num =? 1 then ShortNode [8; 0; 16] (Some (newValue (cb 0)))
  else FullNode None (((λ i, Some (group cb (if i =? 0 then 1 else i) (Z.min num (i + 16)))) <$> starts num)
    ++ replicate (Z.to_nat ((128 - num) / 16)) None ++ [Some (tail_leaf 0 (cb 0))] ++ replicate 7 None).

Definition index_key (i : Z) : list Z := if i =? 0 then [0x80] else [i].

Lemma fast_trie_step `{TrieStorage} (n : nat) cb :
  (1 ≤ n < 128)%nat →
  Insert slowFuel (Some (fast_trie (Z.of_nat n) cb)) (index_key (Z.of_nat n)) (cb (Z.of_nat n)) =
  Some (Some (fast_trie (Z.of_nat (S n)) cb)).
Proof.
  intros Hn. destruct n as [|n]; [lia|].
  do 127 (destruct n as [|n]; [vm_compute; reflexivity|]). lia.
Qed.

Section roots.
Context `{Keccak, RlpEncoding, !TrieStorage}.

Lemma marshal_index i : 0 ≤ i < 128 → rlp_marshal (rlp_uint (u64 i)) = index_key i.
Proof.
  intros Hi. rewrite u64_small, marshal_uint by lia. unfold index_key.
  destruct (Z.eqb_spec i 0) as [->|Hne]; [done|].
  assert (BitLen i ≤ 8) by (apply BitLen_spec; lia). assert (¬ BitLen i ≤ 0) by (rewrite BitLen_spec; lia).
  assert (Bytes i = [i]) as ->.
  { unfold Bytes. replace ((BitLen i + 7) / 8) with 1 by (apply Z.div_unique with (BitLen i - 1); lia).
    change (Z.to_nat 1) with 1%nat. cbn [be_encode app]. by rewrite Z.abs_eq, Z.mod_small by lia. }
  unfold rlp_string. by rewrite (proj2 (Z.ltb_lt _ _)) by lia.
Qed.

Lemma insertAll_app r cb l k : insertAll r cb (l ++ k) = (r ← insertAll r cb l; insertAll r cb k).
Proof. revert r. induction l as [|i l IH]; intros r; [done|]. cbn. by destruct (Insert _ _ _ _); cbn. Qed.

Lemma insert_first cb : Insert slowFuel None (index_key 0) (cb 0) = Some (Some (fast_trie 1 cb)).
Proof. vm_compute. reflexivity. Qed.

Lemma insertAll_one r cb i : insertAll r cb [i] = Insert slowFuel r (rlp_marshal (rlp_uint (u64 i))) (cb i).
Proof. cbn [insertAll]. by destruct (Insert _ _ _ _). Qed.

#[local] Opaque Insert fast_trie.

Lemma insertAll_fast (n : nat) cb :
  (1 ≤ n ≤ 128)%nat → insertAll None cb (seqZ 0 (Z.of_nat n)) = Some (Some (fast_trie (Z.of_nat n) cb)).
Proof.
  induction n as [|n IH]; [lia|]. intros Hn. rewrite Nat2Z.inj_succ, <- Z.add_1_r, seqZ_app by lia.
  rewrite insertAll_app, Z.add_0_l. assert (seqZ (Z.of_nat n) 1 = [Z.of_nat n]) as -> by (by unfold seqZ).
  destruct (decide (n = 0)%nat) as [->|Hne].
  - change (seqZ 0 (Z.of_nat 0)) with (@nil Z). change (insertAll None cb []) with (Some (None (A := node))).
    cbn [mbind option_bind]. by rewrite insertAll_one, marshal_index, insert_first by lia.
  - rewrite IH by lia. cbn [mbind option_bind]. rewrite insertAll_one, marshal_index, fast_trie_step by lia.
    by rewrite Nat2Z.inj_succ, <- Z.add_1_r.
Qed.

#[local] Transparent fast_trie.

(** ** Hashes of nodes *)

(** The node is long, and replaced by the hash [h]. *)
Definition hashes_to (n : node) (h : list Z) : Prop :=
  length h = 32%nat ∧ ∃ w, Hasher.hash n = Some (rlp_bytes h, w).

Lemma hashValue_long l w :
  32 ≤ zlen (mjoin (rlp_marshal <$> l)) →
  ∃ w', hashValue (rlp_array l) w = (rlp_bytes (keccak256 (rlp_list (rlp_marshal <$> l))), w').
Proof.
  intros Hl. pose proof (len_array l) as Hlen. unfold hashValue.
  rewrite (proj2 (Z.ltb_ge _ _)) by lia. rewrite marshal_array. by eexists.
Qed.

Lemma hashes_leaf key v :
  32 ≤ zlen v →
  hashes_to (ShortNode key (Some (newValue v))) (keccak256 (rlp_list [rlp_string (encodeCompact key); rlp_string v])).
Proof.
  intros Hv. split; [apply keccak256_ok|]. cbn [Hasher.hash mbind option_bind newValue].
  destruct (hashValue_long [rlp_bytes (encodeCompact key); rlp_bytes v] []) as [w Hw].
  - cbn [fmap list_fmap mjoin list_join]. rewrite !marshal_bytes, (rlp_string_long v) by done. rewrite app_nil_r, !zlen_app.
    pose proof (Nat2Z.is_nonneg (length (rlp_string (encodeCompact key)))).
    pose proof (Nat2Z.is_nonneg (length (rlp_size 128 183 (zlen v)))). unfold zlen in *. lia.
  - rewrite Hw. cbn [fmap list_fmap]. rewrite !marshal_bytes. by eexists.
Qed.

(** What a child of a branch contributes to its RLP form. *)
Definition item (c : option node) (b : list Z) : Prop :=
  match c with
  | None => b = [0x80]
  | Some n => ∃ h, b = 0xa0 :: h ∧ hashes_to n h
  end.

Lemma hashes_full ch items :
  Forall2 item ch items → 32 ≤ zlen (mjoin items) →
  hashes_to (FullNode None ch) (keccak256 (rlp_list (items ++ [[0x80]]))).
Proof.
  intros Hi Hl. split; [apply keccak256_ok|]. cbn [Hasher.hash].
  set (go := fix go (children : list (option node)) : option (list rlp_value * puts) := _).
  assert (∃ vals w, go ch = Some (vals, w) ∧ rlp_marshal <$> vals = items) as (vals & w & -> & Hvals).
  { clear Hl. induction Hi as [|c b ch items Hc _ (vals & w & IH & Hvals)]; [by eexists [], []|].
    destruct c as [n|]; cbn in Hc.
    - destruct Hc as (h & -> & Hh & w' & Hn). exists (rlp_bytes h :: vals), (w' ++ w). cbn. rewrite Hn. cbn. rewrite IH. cbn.
      split; [done|]. by rewrite marshal_bytes, rlp_string_hash, Hvals.
    - exists (rlp_null :: vals), w. cbn. rewrite IH. cbn. split; [done|]. by rewrite marshal_null, Hc, Hvals. }
  cbn [mbind option_bind]. destruct (hashValue_long (vals ++ [rlp_null]) (w ++ [])) as [w' Hw].
  - rewrite fmap_app, Hvals, join_app, zlen_app. unfold zlen in *. lia.
  - rewrite Hw, fmap_app, Hvals. cbn [fmap list_fmap]. rewrite marshal_null. by eexists.
Qed.

Lemma Txn_Hash_hashes n h : hashes_to n h → fst <$> Txn_Hash (Some n) = Some h.
Proof.
  intros [Hl [w Hw]]. cbn [Txn_Hash]. rewrite Hw. cbn [mbind option_bind].
  rewrite isbytes_bytes, len_bytes, Raw_bytes. unfold zlen. rewrite Hl. change (negb (Z.of_nat 32 =? 32)) with false.
  change (Some (take 32 h) = Some h). f_equal. apply take_ge. lia.
Qed.

(** ** The fast hasher *)

Definition long (cb : Z → list Z) (i : Z) : Prop := 32 ≤ zlen (cb i) < 2 ^ 60.

Lemma getCb_long num cb i : i ≤ num → long cb i → getCb num cb i = Some (cb i).
Proof. intros Hi Hl. unfold getCb. rewrite (proj2 (Z.ltb_ge num i)), (proj2 (Z.ltb_ge (zlen _) 32)) by (red in Hl; lia). done. Qed.

Lemma encodeSingle_hash dst v (b : bool) :
  32 ≤ zlen v < 2 ^ 60 → ∃ h, encodeSingle dst v b = dst ++ h ∧ hashes_to (tail_leaf (if b then 1 else 0) v) h.
Proof.
  intros Hv. eexists. split; [reflexivity|]. cbv zeta.
  rewrite (fast_leaf (if b then oneKey else zeroKey)) by (done || by destruct b).
  destruct b; apply hashes_leaf, Hv.
Qed.

Lemma groupItems_hash num cb l : ∀ buf,
  Forall (λ i, i ≤ num ∧ long cb i) l →
  ∃ items, groupItems num cb buf l = Some (buf ++ mjoin items) ∧ Forall2 item ((λ i, Some (leaf (cb i))) <$> l) items.
Proof.
  induction l as [|i l IH]; intros buf Hl; [exists []; rewrite app_nil_r; by repeat constructor|].
  apply Forall_cons in Hl as [[Hi Hv] Hl]. cbn [groupItems]. unfold groupItem at 1.
  rewrite getCb_long by done. cbn [mbind option_bind]. cbv zeta. unfold fast_hash.
  rewrite (fast_leaf leafVal) by (done || (change (zlen leafVal) with 1; lia)).
  destruct (IH ((buf ++ rlpHashPrefix) ++ keccak256 (rlp_list [leafVal; rlp_string (cb i)])) Hl) as (items & -> & Hitems).
  exists ((0xa0 :: keccak256 (rlp_list [leafVal; rlp_string (cb i)])) :: items). split.
  - rewrite mjoin_cons. by rewrite <- !app_assoc.
  - constructor; [|done]. eexists. split; [done|]. apply hashes_leaf. apply Hv.
Qed.

Lemma items_empty n : Forall2 item (replicate n None) (replicate n [0x80]).
Proof. induction n; constructor; done. Qed.

Lemma appendEmpty_join b n : appendEmpty b n = b ++ mjoin (replicate (Z.to_nat n) [0x80]).
Proof. done. Qed.

Lemma zlen_item c b : item c b → 1 ≤ zlen b ∧ (is_Some c → zlen b = 33).
Proof.
  destruct c as [n|]; cbn.
  - intros (h & -> & Hh & _). unfold zlen. cbn [length]. rewrite Hh. done.
  - intros ->. split; [done|]. by intros [? ?].
Qed.

(** A branch with a child is long, and its form is short enough for the
    length to be written. *)
Lemma zlen_items ch items :
  Forall2 item ch items → (∃ c, Some c ∈ ch) → 33 ≤ zlen (mjoin items) ≤ 33 * zlen ch.
Proof.
  intros Hi [c Hc].
  assert (∀ ch items, Forall2 item ch items → 0 ≤ zlen (mjoin items) ≤ 33 * zlen ch) as Hle.
  { clear. induction 1 as [|c b ch items Hb _ IH]; [done|]. rewrite mjoin_cons, zlen_app.
    assert (1 ≤ zlen b ≤ 33) by (destruct c; cbn in Hb; [destruct Hb as (h & -> & Hh & _)|subst b]; unfold zlen; cbn [length]; lia).
    unfold zlen in *. cbn [length]. lia. }
  split; [|by apply Hle]. induction Hi as [|c' b ch items Hb Hi IH]; [by apply elem_of_nil in Hc|].
  rewrite mjoin_cons, zlen_app. apply elem_of_cons in Hc as [<-|Hc].
  - apply zlen_item in Hb as [_ Hb]. rewrite Hb by done. pose proof (Hle ch items Hi). lia.
  - specialize (IH Hc). unfold zlen in *. lia.
Qed.

Lemma deriveGroup_hash num cb dst from to :
  (from = 1 ∨ from mod 16 = 0) → 1 ≤ from < to → to - from ≤ 16 - from mod 16 → to ≤ num →
  (∀ i, from ≤ i < to → long cb i) →
  ∃ h, deriveGroup num cb dst from to = Some (dst ++ h) ∧ hashes_to (group cb from to) h.
Proof.
  intros Hfrom Hft Hto Hnum Hlong. unfold deriveGroup, group. cbv zeta.
  assert (from mod 16 = if from =? 1 then 1 else 0) as Hmod.
  { destruct (Z.eqb_spec from 1) as [->|]; [done|]. by destruct Hfrom. }
  destruct (Z.eqb_spec (to - from) 1) as [Hone|Hone].
  - rewrite getCb_long by (lia || (apply Hlong; lia)). cbn [mbind option_bind]. rewrite Hmod.
    destruct (encodeSingle_hash dst (cb from) (from =? 1)) as (h & -> & Hh); [apply Hlong; lia|]. by exists h.
  - destruct (groupItems_hash num cb (seqZ from (to - from)) (if from =? 1 then rlpEmptyValue else [])) as (items & -> & Hitems).
    { apply Forall_forall. intros i Hi%elem_of_seqZ. split; [lia|]. apply Hlong. lia. }
    cbn [mbind option_bind]. set (pre := Z.to_nat (from mod 16)). set (post := Z.to_nat (16 - from mod 16 - (to - from))).
    set (all := replicate pre [0x80] ++ items ++ replicate post [0x80]).
    assert ((if to - from <? 16 then appendEmpty ((if from =? 1 then rlpEmptyValue else []) ++ mjoin items)
      ((if negb (from =? 1) then 16 else 15) - (to - from)) else (if from =? 1 then rlpEmptyValue else []) ++ mjoin items)
      = mjoin all) as ->.
    { unfold all, pre, post. rewrite Hmod, !join_app, app_assoc.
      destruct (Z.ltb_spec (to - from) 16) as [Hlt|Hge].
      - rewrite appendEmpty_join. f_equal; [by destruct (from =? 1)|]. do 2 f_equal. destruct (from =? 1); cbn [negb]; f_equal; lia.
      - rewrite Hmod in Hto. destruct (from =? 1); [lia|]. replace (Z.to_nat (16 - 0 - (to - from))) with 0%nat by lia.
        by rewrite app_nil_r. }
    assert (Forall2 item (replicate pre None ++ ((λ i, Some (leaf (cb i))) <$> seqZ from (to - from)) ++ replicate post None) all)
      as Hall by (apply Forall2_app; [apply items_empty|apply Forall2_app; [done|apply items_empty]]).
    assert (33 ≤ zlen (mjoin all) ≤ 33 * 16) as Hsize.
    { pose proof (zlen_items _ _ Hall) as Hz. rewrite !zlen_app in Hz. unfold zlen in *.
      rewrite !length_replicate, length_fmap, length_seqZ in Hz. unfold pre, post in *.
      assert (0 ≤ from mod 16 < 16) by (apply Z.mod_pos_bound; lia).
      destruct Hz as [? ?]; [|lia]. exists (leaf (cb from)). apply elem_of_app. right. apply elem_of_app. left.
      apply list_elem_of_fmap. exists from. split; [done|]. apply elem_of_seqZ. lia. }
    eexists. split; [reflexivity|]. apply hashes_full in Hall; [|lia].
    replace (marshalListRlpSize [] (zlen (mjoin all ++ rlpEmptyValue)) ++ mjoin all ++ rlpEmptyValue)
      with (rlp_list (all ++ [[0x80]])); [done|].
    unfold rlp_list. cbv zeta. rewrite join_app. change (mjoin [[0x80]]) with rlpEmptyValue.
    unfold marshalListRlpSize. rewrite zlen_app. change (zlen rlpEmptyValue) with 1.
    by rewrite u64_small, marshal_header by lia.
Qed.

Definition group_at (num : Z) (cb : Z → list Z) (i : Z) : node := group cb (if i =? 0 then 1 else i) (Z.min num (i + 16)).

Lemma deriveGroups_hash num cb l : ∀ dst,
  2 ≤ num ≤ 128 → Forall (λ i, 0 ≤ i < num ∧ i mod 16 = 0) l → (∀ i, 0 ≤ i < num → long cb i) →
  ∃ items, deriveGroups num cb dst num l = Some (dst ++ mjoin items) ∧ Forall2 item ((λ i, Some (group_at num cb i)) <$> l) items.
Proof.
  induction l as [|i l IH]; intros dst Hnum Hl Hlong; [exists []; rewrite app_nil_r; by repeat constructor|].
  apply Forall_cons in Hl as [[Hi Hm] Hl]. cbn [deriveGroups]. cbv zeta.
  destruct (deriveGroup_hash num cb (dst ++ rlpHashPrefix) (if i =? 0 then 1 else i) (Z.min num (i + 16))) as (h & -> & Hh).
  - destruct (i =? 0); auto.
  - destruct (Z.eqb_spec i 0); lia.
  - destruct (Z.eqb_spec i 0); [change (1 mod 16) with 1|rewrite Hm]; lia.
  - lia.
  - intros j Hj. apply Hlong. destruct (Z.eqb_spec i 0); lia.
  - cbn [mbind option_bind]. destruct (IH ((dst ++ rlpHashPrefix) ++ h) Hnum Hl Hlong) as (items & -> & Hitems).
    exists ((0xa0 :: h) :: items). split; [rewrite mjoin_cons; by rewrite <- !app_assoc|].
    constructor; [by exists h|done].
Qed.

Lemma starts_ok num : 2 ≤ num ≤ 128 →
  Forall (λ i, 0 ≤ i < num ∧ i mod 16 = 0) (starts num) ∧ zlen (starts num) + (128 - num) / 16 = 8 ∧ 0 ∈ starts num.
Proof.
  intros Hnum. unfold starts. split_and!.
  - apply Forall_fmap, Forall_forall. intros k Hk%elem_of_seqZ. cbn. rewrite Z.mul_comm, Z.mod_mul by lia.
    split; [|done]. Z.to_euclidean_division_equations. lia.
  - unfold zlen. rewrite length_fmap, length_seqZ. Z.to_euclidean_division_equations. lia.
  - apply list_elem_of_fmap. exists 0. split; [done|]. apply elem_of_seqZ. Z.to_euclidean_division_equations. lia.
Qed.

Lemma FastHasher_hash num cb :
  1 ≤ num ≤ 128 → (∀ i, 0 ≤ i < num → long cb i) →
  ∃ h, FastHasher_Hash num cb = Some h ∧ hashes_to (fast_trie num cb) h.
Proof.
  intros Hnum Hlong. assert (long cb 0) as Hz0 by (apply Hlong; lia).
  unfold FastHasher_Hash, fast_trie. destruct (Z.eqb_spec num 1) as [->|Hne].
  - unfold encodeOneItem. rewrite getCb_long by (done || lia). cbn [mbind option_bind]. cbv zeta.
    rewrite (fast_leaf singleKey) by done. eexists. split; [reflexivity|]. apply hashes_leaf, Hz0.
  - rewrite Z.min_l by lia. cbv zeta. destruct (starts_ok num ltac:(lia)) as (Hst & Hlen & Hin).
    destruct (deriveGroups_hash num cb (starts num) [] ltac:(lia) Hst Hlong) as (items & Hg & Hitems).
    change (Z.mul 16 <$> seqZ 0 ((num + 15) / 16)) with (starts num). rewrite Hg. cbn [mbind option_bind app].
    rewrite getCb_long by (done || lia). cbn [mbind option_bind].
    destruct (encodeSingle_hash (appendEmpty (mjoin items) ((128 - num) / 16) ++ rlpHashPrefix) (cb 0) false Hz0)
      as (h & -> & Hh).
    set (all := items ++ replicate (Z.to_nat ((128 - num) / 16)) [0x80] ++ [0xa0 :: h] ++ replicate 7 [0x80]).
    assert (appendEmpty ((appendEmpty (mjoin items) ((128 - num) / 16) ++ rlpHashPrefix) ++ h) 8 = mjoin (all ++ [[0x80]])) as ->.
    { unfold all. rewrite !appendEmpty_join, !join_app, mjoin_cons. by rewrite <- !app_assoc. }
    assert (Forall2 item (((λ i, Some (group_at num cb i)) <$> starts num)
      ++ replicate (Z.to_nat ((128 - num) / 16)) None ++ [Some (tail_leaf 0 (cb 0))] ++ replicate 7 None) all) as Hall.
    { apply Forall2_app; [done|]. apply Forall2_app; [apply items_empty|]. apply Forall2_app; [|apply (items_empty 7)].
      constructor; [by exists h|constructor]. }
    assert (33 ≤ zlen (mjoin all) ≤ 33 * 16) as Hsize.
    { pose proof (zlen_items _ _ Hall) as Hz. rewrite !zlen_app in Hz. unfold zlen in *.
      rewrite !length_replicate, length_fmap in Hz. cbn [length] in Hz.
      assert (0 ≤ (128 - num) / 16) by (apply Z.div_pos; lia).
      destruct Hz as [? ?]; [|lia]. exists (tail_leaf 0 (cb 0)). do 2 (apply elem_of_app; right). by left. }
    eexists. split; [reflexivity|]. apply hashes_full in Hall; [|lia].
    replace (marshalListRlpSize [] (zlen (mjoin (all ++ [[0x80]]))) ++ mjoin (all ++ [[0x80]]))
      with (rlp_list (all ++ [[0x80]])); [done|].
    unfold rlp_list. cbv zeta. unfold marshalListRlpSize. rewrite join_app, zlen_app. change (zlen (mjoin [[0x80]])) with 1.
    by rewrite u64_small, marshal_header by lia.
Qed.

(** *** When it gives up *)

Lemma getCb_inv num cb i v : getCb num cb i = Some v → 32 ≤ zlen (cb i).
Proof. unfold getCb. case_match; [done|]. cbv zeta. case_match; [done|]. lia. Qed.

Lemma groupItems_inv num cb l : ∀ buf b, groupItems num cb buf l = Some b → Forall (λ i, 32 ≤ zlen (cb i)) l.
Proof.
  induction l as [|i l IH]; intros buf b Hb; [constructor|]. cbn [groupItems] in Hb. unfold groupItem at 1 in Hb.
  destruct (getCb num cb i) eqn:E; [|done]. constructor; [by eapply getCb_inv|exact (IH _ _ Hb)].
Qed.

Lemma deriveGroup_inv num cb dst from to r i :
  deriveGroup num cb dst from to = Some r → from ≤ i < to → 32 ≤ zlen (cb i).
Proof.
  unfold deriveGroup. cbv zeta. destruct (Z.eqb_spec (to - from) 1); intros Hr Hi.
  - replace i with from by lia. destruct (getCb num cb from) eqn:E; [|done]. by eapply getCb_inv.
  - destruct (groupItems _ _ _ _) as [b|] eqn:E; [|done]. apply groupItems_inv in E. rewrite Forall_forall in E.
    apply E, elem_of_seqZ. lia.
Qed.

Lemma deriveGroups_inv num cb step l : ∀ dst r s i,
  deriveGroups num cb dst step l = Some r → s ∈ l → (if s =? 0 then 1 else s) ≤ i < Z.min step (s + 16) → 32 ≤ zlen (cb i).
Proof.
  induction l as [|s' l IH]; intros dst r s i Hr Hs Hi; [by apply elem_of_nil in Hs|].
  cbn [deriveGroups] in Hr. cbv zeta in Hr. destruct (deriveGroup _ _ _ _ _) as [d|] eqn:E; [|done].
  apply elem_of_cons in Hs as [->|Hs]; [by eapply deriveGroup_inv|exact (IH _ _ _ _ Hr Hs Hi)].
Qed.

Lemma FastHasher_inv num cb r i :
  1 ≤ num ≤ 128 → FastHasher_Hash num cb = Some r → 0 ≤ i < num → 32 ≤ zlen (cb i).
Proof.
  intros Hnum. unfold FastHasher_Hash, encodeOneItem. destruct (Z.eqb_spec num 1) as [->|Hne].
  - intros Hr Hi. replace i with 0 by lia. destruct (getCb 1 cb 0) eqn:E; [|done]. by eapply getCb_inv.
  - cbv zeta. rewrite Z.min_l by lia. intros Hr Hi.
    destruct (deriveGroups _ _ _ _ _) as [d|] eqn:E; [|done]. cbn [mbind option_bind] in Hr.
    destruct (decide (i = 0)) as [->|Hi0].
    + destruct (getCb num cb 0) eqn:E0; [|done]. by eapply getCb_inv.
    + eapply (deriveGroups_inv _ _ _ _ _ _ (16 * (i / 16))); [exact E| |].
      * apply list_elem_of_fmap. exists (i / 16). split; [done|]. apply elem_of_seqZ. Z.to_euclidean_division_equations. lia.
      * pose proof (Z.div_mod i 16). pose proof (Z.mod_pos_bound i 16). destruct (Z.eqb_spec (16 * (i / 16)) 0); lia.
Qed.

(** *** The slow path always has a result *)

Lemma hash_wf L n : wf L n → is_Some (Hasher.hash n).
Proof.
  induction 1 as [buf|key c L _ _ _ _ [[v w] IH]|ch L _ _ _ IH]; [by eexists|cbn; rewrite IH; by eexists|].
  cbn [Hasher.hash]. set (go := fix go (children : list (option node)) : option (list rlp_value * puts) := _).
  assert (is_Some (go ch)) as [[vals w] ->]; [|cbn [mbind option_bind]; by eexists].
  assert (∀ c, Some c ∈ ch → is_Some (Hasher.hash c)) as Hc by (intros c [i Hi]%list_elem_of_lookup; by apply (IH i)).
  clear IH. induction ch as [|[c|] ch IH]; [by eexists| |].
  - destruct (Hc c) as [[v w] Hv]; [by left|]. destruct IH as [[vals w'] IH]; [intros; apply Hc; by right|].
    cbn. rewrite Hv. cbn. rewrite IH. by eexists.
  - destruct IH as [[vals w'] IH]; [intros; apply Hc; by right|]. cbn. rewrite IH. by eexists.
Qed.

Lemma index_key_ok i : 0 ≤ i < 128 → bytes_ok (index_key i) ∧ length (index_key i) = 1%nat.
Proof. intros Hi. unfold index_key. case_match; (split; [apply Forall_singleton; split; lia|done]). Qed.

Lemma insertAll_refines cb l : ∀ root m,
  refines 1 root m → Forall (λ i, 0 ≤ i < 128) l → ∃ r m', insertAll root cb l = Some r ∧ refines 1 r m'.
Proof.
  induction l as [|i l IH]; intros root m Hr Hl; [by eauto|]. apply Forall_cons in Hl as [Hi Hl].
  destruct (index_key_ok i Hi) as [Hb Hk].
  destruct (Insert_refines 1 slowFuel ltac:(unfold slowFuel; lia) root m (index_key i) (cb i) Hr Hb Hk) as (r & Hr' & Href).
  cbn [insertAll]. rewrite marshal_index by done. rewrite Hr'. by eapply IH.
Qed.

Lemma deriveSlow_total num cb : 1 ≤ num ≤ 128 → is_Some (deriveSlow num cb).
Proof.
  intros Hnum. unfold deriveSlow. destruct (insertAll_refines cb (seqZ 0 num) None ∅) as (r & m & -> & Href).
  - apply refines_empty.
  - apply Forall_forall. intros i Hi%elem_of_seqZ. lia.
  - cbn [mbind option_bind]. destruct r as [n|]; [|by eexists]. destruct Href as [Hwf _].
    destruct (hash_wf _ _ (Hwf n eq_refl)) as [[v w] Hv]. cbn [Txn_Hash]. rewrite Hv. cbn [mbind option_bind].
    repeat case_match; by eexists.
Qed.

Lemma deriveSlow_fast num cb :
  1 ≤ num ≤ 128 → (∀ i, 0 ≤ i < num → long cb i) → deriveSlow num cb = FastHasher_Hash num cb.
Proof.
  intros Hnum Hlong. destruct (FastHasher_hash num cb Hnum Hlong) as (h & -> & Hh). unfold deriveSlow.
  pose proof (insertAll_fast (Z.to_nat num) cb ltac:(lia)) as Hi. rewrite Z2Nat.id in Hi by lia. rewrite Hi.
  cbn [mbind option_bind]. by apply Txn_Hash_hashes.
Qed.

End roots.

(** ** Claim *)

(** C13. The fast hasher is correct: for up to 128 items it computes exactly
    the root of the Merkle trie that maps the RLP form of every index to its
    item, whenever all items have 32 bytes or more, and it gives up
    otherwise. The root of a list is therefore always that of the trie,
    whichever path the code takes, and the trie always has one. *)
Theorem fast_root `{!Keccak, RlpEncoding, !TrieStorage} (num : Z) (h : Z → list Z) :
  0 < num ≤ 128 → (∀ i, 0 ≤ i < num → zlen (h i) < 2 ^ 60) →
  ∃ root, deriveSlow num h = Some root ∧ CalculateRoot num h = Some (BytesToHash root) ∧
    FastHasher_Hash num h = if forallb (λ i, 32 <=? zlen (h i)) (seqZ 0 num) then Some root else None.
Proof.
  intros Hnum Hh. destruct (deriveSlow_total num h ltac:(lia)) as [root Hroot]. exists root. split; [done|].
  assert (FastHasher_Hash num h = if forallb (λ i, 32 <=? zlen (h i)) (seqZ 0 num) then Some root else None) as Hfast.
  { destruct (forallb _ _) eqn:E.
    - rewrite <- Hroot. symmetry. apply deriveSlow_fast; [lia|]. intros i Hi. split; [|by apply Hh].
      rewrite forallb_forall in E. apply Z.leb_le, E, list_elem_of_In, elem_of_seqZ. lia.
    - destruct (FastHasher_Hash num h) as [r|] eqn:Er; [|done]. exfalso. apply not_true_iff_false in E. apply E.
      apply forallb_forall. intros i Hi%list_elem_of_In%elem_of_seqZ. apply Z.leb_le. eapply FastHasher_inv; [|done|]; lia. }
  split; [|done]. unfold CalculateRoot. rewrite (proj2 (Z.eqb_neq _ _)), (proj2 (Z.leb_le _ _)) by lia.
  rewrite Hfast. case_match; [done|]. by rewrite Hroot.
Qed.

(** An instance that writes the encoding. *)
Fixpoint rlp_print (t : rlp_tree) : list Z :=
  match t with
  | Leaf b => rlp_string b
  | Node l => rlp_list (map rlp_print l)
  end.

#[local] Instance plain_fastrlp : Fastrlp := {|
  rlp_value := rlp_tree; rlp_bytes := Leaf; rlp_uint n := Leaf (Bytes n); rlp_array := Node; rlp_marshal := rlp_print;
|}.

#[local] Instance plain_rlp : Rlp := {|
  rlp_bigint o := Leaf (Bytes (default 0 o)); rlp_null := Leaf []; rlp_nullarray := Node [];
  rlp_parse _ := None; rlp_raw := rlp_print; rlp_elems t := match t with Node l => Some l | Leaf _ => None end;
  rlp_get t i := match t with Node l => l !! i | Leaf _ => None end;
  rlp_getbytes t := match t with Leaf b => Some b | Node _ => None end;
  rlp_getfixed n t := match t with Leaf b => if (length b =? n)%nat then Some b else None | Node _ => None end;
  rlp_getuint t := match t with Leaf b => Some (be_decode b) | Node _ => None end;
  rlp_getbig t := match t with Leaf b => Some (be_decode b) | Node _ => None end;
|}.

#[local] Instance plain_values : RlpValues := {|
  rlp_isbytes t := match t with Leaf _ => true | Node _ => false end;
  rlp_len t := match t with Leaf b => zlen b | Node l => zlen (mjoin (map rlp_print l)) end;
  rlp_Raw t := match t with Leaf b => b | Node l => mjoin (map rlp_print l) end;
|}.

#[local] Instance plain_encoding : RlpEncoding.
Proof. split; try done. Qed.

#[local] Instance last_keccak : Keccak.
Proof.
  refine {| keccak256 b := be_encode 32 (be_decode b) |}.
  intros b. split; [apply length_be_encode|apply be_encode_ok].
Defined.

(** Eighteen items of forty bytes: a full group, a group of two and item 0. *)
Lemma fast_root_witness : ∃ root,
  deriveSlow 18 (replicate 40) = Some root ∧ FastHasher_Hash 18 (replicate 40) = Some root.
Proof.
  destruct (fast_root 18 (replicate 40)) as (root & Hs & _ & Hf); [lia|intros; by vm_compute|].
  exists root. split; [exact Hs|]. etransitivity; [exact Hf|]. vm_compute. reflexivity.
Defined.
