(* ===== verification/Executor.v ===== *)
(** * The executors of blocks (state/executor.go and executor.go)

    state/executor.go writes the genesis state and processes the transactions
    of a block one after the other; the executor of the module root hands
    them to the parallel executor with the accesses it reads off their input.

    A Go map is visited in any order: the functions that range over one take
    the order as a parameter, [MapRange]. The snapshots of the state are those
    of Txn.v; the transition that applies a transaction is declared in neither
    package and is the parameter [TransitionMethods], as are the methods of
    transactions the package types lacks ([TransactionSecurity]). *)

From Stdlib Require Import String.
From stdpp Require Import gmap.
From S2P Require Import Prelude BigInt Chain Types Runtime Rlp BlockTypes Hex Result Radix Txn Staking Parallel.
#[local] Open Scope Z_scope.

(** The order in which [range] visits the entries of a map. *)
Class MapRange := {
  range_alloc : gmap Address GenesisAccount → list (Address * GenesisAccount);
  range_storage : gmap Hash Hash → list (Hash * Hash);
}.

(** ** state/executor.go *)

Section genesis.
Context `{!Radix, !Lru Address (list Z), !Keccak, !MapRange}.

(** The body of the loop over the accounts. *)
Definition writeGenesisAccount `{!readSnapshot} (txn : Txn) (addr : Address) (account : GenesisAccount) : Txn :=
  let txn := match gaBalance account with Some balance => AddBalance txn addr balance | None => txn end in
  let txn := if negb (gaNonce account =? 0) then SetNonce txn addr (gaNonce account) else txn in
  let txn := if negb (zlen (gaCode account) =? 0) then SetCode txn addr (gaCode account) else txn in
  foldl (λ txn '(key, value), SetState txn addr key value) txn (range_storage (gaStorage account)).

Definition writeAlloc `{!readSnapshot} (alloc : gmap Address GenesisAccount) : Txn :=
  foldl (λ txn '(addr, account), writeGenesisAccount txn addr account) newTxn (range_alloc alloc).

(** [snap.Commit(objs)] returns the root; [None] of the result is a panic. *)
Definition WriteGenesis `{!readSnapshot} (snap_Commit : list Object → list Z) (alloc : option (gmap Address GenesisAccount)) :
    option Hash :=
  match alloc with
  | None => Some ZeroHash
  | Some alloc =>
      '(objs, _) ← Commit (writeAlloc alloc) false;
      Some (BytesToHash (snap_Commit objs))
  end.

End genesis.

(** What the executor knows of a transition when it begins one. *)
Record Transition `{!Radix, !Lru Address (list Z)} := mkTransition {
  trCtx : TxContext;
  trState : Txn;
  trSnap : readSnapshot;
  trConfig : ForksInTime;
  trGasPool : Z;
  trReceipts : list Receipt;
  trTotalGas : Z;
}.
Arguments mkTransition {_ _}.

Inductive executorError :=
  | errNilBlock | errNilHeader | errNilTransaction | errZeroDestination | errTokenStandard
  | errSnapshot | errParallel
  | errWrite | errWriteFailedReceipt | errTransition.

Class TransactionSecurity := {
  GetSecurityInfo : Transaction → option (list Z);  (** the token standard, where there is one *)
  GetSender : Transaction → Address;                (** the zero address with an error *)
}.

Class TransitionMethods `{!Radix, !Lru Address (list Z)} := {
  T_Write : Transition → Transaction → result executorError Transition;
  T_WriteFailedReceipt : Transition → Transaction → result executorError Transition;
}.

(** Wrap the error of a call: [fmt.Errorf] of it. *)
Definition wrap {A} (e : executorError) (r : result executorError A) : result executorError A :=
  match r with Errors _ => Errors e | _ => r end.

Section executor.
Context `{!Radix, !Lru Address (list Z), !Keccak, !TransactionSecurity, !TransitionMethods}.
(** [e.config] and [e.state] *)
Context (forks : Forks) (chainID : Z) (NewSnapshotAt : Hash → option readSnapshot).

Definition validateTransactionSecurity (tx : option Transaction) : option executorError :=
  match tx with
  | None => Some errNilTransaction
  | Some tx =>
      if bool_decide (tTo tx = Some ZeroAddress) then Some errZeroDestination
      else match GetSecurityInfo tx with
           | Some standard => if bool_decide (standard = lit "ACC-20") then None else Some errTokenStandard
           | None => None
           end
  end.

Definition StateAt (root : Hash) : result executorError readSnapshot :=
  if bool_decide (root = ZeroHash) then Errors errSnapshot else or_error errSnapshot (NewSnapshotAt root).

Definition GetForksInTime (blockNumber : Z) : ForksInTime := At forks blockNumber.

Definition BeginTxn (parentRoot : Hash) (header : option Header) (coinbaseReceiver : Address) :
    result executorError Transition :=
  header ← or_error errNilHeader header;
  let forkConfig := At forks (hNumber header) in
  auxSnap ← or_error errSnapshot (NewSnapshotAt parentRoot);
  let txCtx := {|
    GasPrice := ZeroHash; Origin := ZeroAddress;
    Coinbase := coinbaseReceiver; Timestamp := i64 (hTimestamp header); Number := i64 (hNumber header);
    Difficulty := BytesToHash (Bytes (hDifficulty header)); GasLimit := i64 (hGasLimit header); ChainID := i64 chainID |} in
  Returns (mkTransition txCtx newTxn auxSnap forkConfig (u64 (GasLimit txCtx)) [] 0).

(** The loop of [ProcessBlock]. *)
Fixpoint processTransactions (gasLimit : Z) (txn : Transition) (txs : list Transaction) : result executorError Transition :=
  match txs with
  | [] => Returns txn
  | t :: txs =>
      if ExceedsBlockGasLimit t gasLimit then
        txn ← wrap errWriteFailedReceipt (T_WriteFailedReceipt txn t);
        processTransactions gasLimit txn txs
      else
        match validateTransactionSecurity (Some t) with
        | Some _ =>
            txn ← wrap errWriteFailedReceipt (T_WriteFailedReceipt txn t);
            processTransactions gasLimit txn txs
        | None =>
            txn ← wrap errWrite (T_Write txn t);
            processTransactions gasLimit txn txs
        end
  end.

Definition ProcessBlock (parentRoot : Hash) (block : option Block) (blockCreator : Address) :
    result executorError Transition :=
  block ← or_error errNilBlock block;
  txn ← wrap errTransition (BeginTxn parentRoot (Some (bHeader block)) blockCreator);
  processTransactions (hGasLimit (bHeader block)) txn (bTransactions block).

(** ** executor.go: declared accesses *)

Definition isMethod (id methodID : list Z) : bool := bool_decide (take 4 methodID = id).

Definition isTransferMethod : list Z → bool := isMethod [0xa9; 0x05; 0x9c; 0xbb].
Definition isApproveMethod : list Z → bool := isMethod [0x09; 0x5e; 0xa7; 0xb3].
Definition isTransferFromMethod : list Z → bool := isMethod [0x23; 0xb8; 0x72; 0xdd].
Definition isBalanceOfMethod : list Z → bool := isMethod [0x70; 0xa0; 0x82; 0x31].
Definition isAllowanceMethod : list Z → bool := isMethod [0xdd; 0x62; 0xed; 0x3e].
Definition isTotalSupplyMethod : list Z → bool := isMethod [0x18; 0x16; 0x0d; 0xdd].
Definition isMintMethod : list Z → bool := isMethod [0x40; 0xc1; 0x0f; 0x19].
Definition isBurnMethod : list Z → bool := isMethod [0x42; 0x96; 0x6c; 0x68].

(** [fmt.Sprintf("0x%x", input[offset+12 : offset+32])] *)
Definition extractAddressFromInput (input : list Z) (offset : Z) : list Z :=
  if zlen input <? offset + 32 then []
  else prefix0x ++ EncodeToString (take 20 (drop (Z.to_nat (offset + 12)) input)).

Definition balanceKey (account : list Z) : list Z := lit "acc20:balance:" ++ account.
Definition allowanceKey (owner spender : list Z) : list Z := lit "acc20:allowance:" ++ owner ++ lit ":" ++ spender.
Definition supplyKey (token : list Z) : list Z := lit "acc20:supply:" ++ token.

Definition extractReadSet (t : Transaction) : list (list Z) :=
  let sender := GetSender t in
  let readSet := [Address_String sender] in
  let readSet := match tTo t with Some to => readSet ++ [Address_String to] | None => readSet end in
  let input := tInput t in
  if 4 <=? zlen input then
    let methodID := take 4 input in
    if isBalanceOfMethod methodID then
      if 36 <=? zlen input then readSet ++ [balanceKey (extractAddressFromInput input 4)] else readSet
    else if isAllowanceMethod methodID then
      if 68 <=? zlen input then
        readSet ++ [allowanceKey (extractAddressFromInput input 4) (extractAddressFromInput input 36)] else readSet
    else if isTotalSupplyMethod methodID then
      match tTo t with Some to => readSet ++ [supplyKey (Address_String to)] | None => readSet end
    else readSet
  else readSet.

(** [None] is the panic of [t.Value.Sign()] on a nil value. *)
Definition extractWriteSet (t : Transaction) : option (list (list Z)) :=
  let sender := Address_String (GetSender t) in
  let writeSet := [sender] in
  writeSet ← match tTo t with
             | Some to => v ← tValue t; Some (if 0 <? v then writeSet ++ [Address_String to] else writeSet)
             | None => Some writeSet
             end;
  let input := tInput t in
  Some (
    if 4 <=? zlen input then
      let methodID := take 4 input in
      if isTransferMethod methodID then
        if 36 <=? zlen input then
          writeSet ++ [balanceKey sender] ++ [balanceKey (extractAddressFromInput input 4)] else writeSet
      else if isApproveMethod methodID then
        if 36 <=? zlen input then writeSet ++ [allowanceKey sender (extractAddressFromInput input 4)] else writeSet
      else if isTransferFromMethod methodID then
        if 68 <=? zlen input then
          let from := extractAddressFromInput input 4 in
          let to := extractAddressFromInput input 36 in
          writeSet ++ [balanceKey from] ++ [balanceKey to] ++ [allowanceKey from sender] else writeSet
      else if isMintMethod methodID then
        match tTo t with
        | Some token =>
            if 36 <=? zlen input then
              writeSet ++ [balanceKey (extractAddressFromInput input 4)] ++ [supplyKey (Address_String token)] else writeSet
        | None => writeSet
        end
      else if isBurnMethod methodID then
        match tTo t with
        | Some token =>
            if 36 <=? zlen input then
              writeSet ++ [balanceKey (extractAddressFromInput input 4)] ++ [supplyKey (Address_String token)] else writeSet
        | None => writeSet
        end
      else writeSet
    else writeSet).

(** ** executor.go: blocks *)

Context `{!TransactionMethods}.

(** The allocation of the [ParallelTx] of each transaction, at the addresses
    from [base] on. *)
Fixpoint wrapTransactions (base : Z) (txs : list Transaction) : option (list ptxRef) :=
  match txs with
  | [] => Some []
  | t :: txs =>
      writeSet ← extractWriteSet t;
      ptxs ← wrapTransactions (base + 1) txs;
      Some (Some (Ptr base (mkParallelTx (Some t) (extractReadSet t) writeSet)) :: ptxs)
  end.

(** The loop over the results; a result without a transaction is skipped. *)
Fixpoint writeResults (txn : Transition) (results : list ExecutionResult) : result executorError Transition :=
  match results with
  | [] => Returns txn
  | res :: results =>
      match erTx res ≫= ptTx ∘ deref with
      | None => writeResults txn results
      | Some t =>
          txn ← match erErr res with
                | Some _ => wrap errWriteFailedReceipt (T_WriteFailedReceipt txn t)
                | None => wrap errWrite (T_Write txn t)
                end;
          writeResults txn results
      end
  end.

Definition parallel_ProcessBlock (parentRoot : Hash) (block : option Block) (blockCreator : Address) :
    result executorError Transition :=
  block ← or_error errNilBlock block;
  txn ← wrap errTransition (BeginTxn parentRoot (Some (bHeader block)) blockCreator);
  if (length (bTransactions block) =? 0)%nat then Returns txn else
  ptxs ← or_panic (wrapTransactions 0 (bTransactions block));
  match ExecuteTransactions GetAccelerator (Some ptxs) with
  | Returns results => writeResults txn results
  | Errors _ => Errors errParallel
  | Panics => Panics
  end.

End executor.
