(* ===== verification/ExecutorProps.v ===== *)
(** * The genesis state, and conflicts between the transactions of a block *)

From Stdlib Require Import String.
From stdpp Require Import gmap.
From S2P Require Import Prelude BigInt Chain Types Runtime Rlp BlockTypes Hex Result Radix Txn TxnProps Staking Parallel ParallelProps Executor.
#[local] Open Scope Z_scope.

(** Whatever the order, every entry of the map is visited once. *)
Class MapRangeLaws `{MapRange} : Prop := {
  range_alloc_perm m : range_alloc m ≡ₚ map_to_list m;
  range_storage_perm m : range_storage m ≡ₚ map_to_list m;
}.

(** ** Genesis *)

Section genesis.
Context `{!Radix, !RadixLaws, !Lru Address (list Z), !LruLaws Address (list Z), !Keccak}.
Context `{!readSnapshot, !SnapshotLaws, !MapRange, !MapRangeLaws}.
Implicit Types t : Txn.

(** The updates an account makes to its object. *)
Definition genesis_updates (acc : GenesisAccount) : list (StateObject → StateObject) :=
  match gaBalance acc with Some b => [λ o, set_balance (Balance (oAccount o) + b) o] | None => [] end
  ++ (if negb (gaNonce acc =? 0) then [set_nonce (gaNonce acc)] else [])
  ++ (if negb (zlen (gaCode acc) =? 0) then [set_code (keccak256 (gaCode acc)) (gaCode acc)] else [])
  ++ ((λ '(k, v), λ o, set_storage (tinsert (default tnew (oTxn o)) k (if bool_decide (v = ZeroHash) then None else Some v)) o)
      <$> range_storage (gaStorage acc)).

Definition updates t a (fs : list (StateObject → StateObject)) : Txn := foldl (λ t f, update t a f) t fs.

Lemma writeGenesisAccount_updates t a acc : writeGenesisAccount t a acc = updates t a (genesis_updates acc).
Proof.
  unfold writeGenesisAccount, updates, genesis_updates. rewrite !foldl_app.
  assert (∀ l t, foldl (λ txn '(key, value), SetState txn a key value) t l = foldl (λ t f, update t a f) t
    ((λ '(k, v), λ o, set_storage (tinsert (default tnew (oTxn o)) k (if bool_decide (v = ZeroHash) then None else Some v)) o) <$> l))
    as Hl by (induction l as [|[k v] l IH]; intros t'; [done|]; cbn; by rewrite IH).
  rewrite Hl. destruct (gaBalance acc), (negb (gaNonce acc =? 0)), (negb (zlen (gaCode acc) =? 0)); done.
Qed.

Definition apply_all (fs : list (StateObject → StateObject)) (o : StateObject) : StateObject := foldl (λ o f, f o) o fs.

Lemma updates_tree t a fs k :
  Forall keeps fs →
  tget (txn (updates t a fs)) k =
    (if bool_decide (k = a ∧ fs ≠ []) then Some (VObject (apply_all fs (object t a))) else tget (txn t) k) ∧
  codeCache (updates t a fs) = codeCache t.
Proof.
  intros Hfs. revert t. induction Hfs as [|f fs Hf Hfs IH]; intros t.
  - cbn. rewrite bool_decide_false by tauto. done.
  - change (updates t a (f :: fs)) with (updates (update t a f) a fs). destruct (IH (update t a f)) as [-> ->].
    rewrite object_update_eq by done. rewrite update_txn. cbn [txn set_txn codeCache]. split; [|done].
    destruct (decide (k = a)) as [->|Hne].
    + rewrite (bool_decide_true (a = a ∧ f :: fs ≠ [])) by done. case_bool_decide as E; [done|].
      rewrite tget_insert_eq. destruct fs; [done|]. exfalso. by apply E.
    + rewrite !bool_decide_false by tauto. by apply tget_insert_ne.
Qed.

(** Accounts as a genesis file may give them. *)
Definition alloc_ok (acc : GenesisAccount) : Prop :=
  0 ≤ default 0 (gaBalance acc) ∧ map_Forall (λ _ v, hash_ok v) (gaStorage acc).

Lemma genesis_keeps acc : alloc_ok acc → Forall keeps (genesis_updates acc).
Proof.
  intros [Hb _]. unfold genesis_updates. rewrite !Forall_app. split_and!.
  - destruct (gaBalance acc); constructor; [by apply keeps_add|constructor].
  - case_match; constructor; [by intros o ?|constructor].
  - case_match; constructor; [by intros o ?|constructor].
  - apply Forall_fmap, Forall_forall. intros [k v] _. by intros o ?.
Qed.

(** The object of an account. *)
Definition genesis_object (acc : GenesisAccount) : StateObject := apply_all (genesis_updates acc) newStateObject.

Lemma storage_fold l : ∀ o : StateObject, NoDup l.*1 →
  ∃ st, apply_all ((λ '(k, v), λ o, set_storage (tinsert (default tnew (oTxn o)) k (if bool_decide (v = ZeroHash) then None else Some v)) o) <$> l) o
    = mkObject (oAccount o) (oCode o) (Suicide o) (oDeleted o) (DirtyCode o) st ∧
  ∀ k : Hash, match st with Some st => tget st k | None => None end =
    match (list_to_map l : gmap Hash Hash) !! k with
    | Some v => Some (if bool_decide (v = ZeroHash) then None else Some v)
    | None => match oTxn o with Some st => tget st k | None => None end
    end.
Proof.
  induction l as [|[k v] l IH]; intros o Hd.
  - exists (oTxn o). split; [by destruct o|]. intros k. by rewrite list_to_map_nil, lookup_empty.
  - cbn in Hd. apply NoDup_cons in Hd as [Hk Hd].
    destruct (IH (set_storage (tinsert (default tnew (oTxn o)) k (if bool_decide (v = ZeroHash) then None else Some v)) o) Hd)
      as (st & Hst & Hget). exists st. split; [exact Hst|]. intros k'. rewrite Hget, list_to_map_cons.
    destruct (decide (k = k')) as [<-|Hne].
    + rewrite lookup_insert_eq.
      rewrite not_elem_of_list_to_map_1 by done. cbn. apply tget_insert_eq.
    + rewrite lookup_insert_ne by done.
      destruct ((list_to_map l : gmap Hash Hash) !! k'); [done|]. cbn. rewrite tget_insert_ne by done. destruct (oTxn o); cbn; [done|]. by rewrite tget_new.
Qed.

Lemma range_storage_map m : NoDup (range_storage m).*1 ∧ (list_to_map (range_storage m) : gmap Hash Hash) = m.
Proof.
  assert (NoDup (range_storage m).*1) as Hd by (rewrite range_storage_perm; apply NoDup_fst_map_to_list).
  split; [done|]. rewrite <- (list_to_map_to_list m) at 2. apply list_to_map_proper; [done|apply range_storage_perm].
Qed.

Lemma genesis_object_spec acc :
  ∃ st, genesis_object acc =
    mkObject (mkAccount (gaNonce acc) (default 0 (gaBalance acc)) emptyStateHash
      (if zlen (gaCode acc) =? 0 then emptyCodeHash else keccak256 (gaCode acc)))
      (gaCode acc) false false (negb (zlen (gaCode acc) =? 0)) st ∧
    ∀ k : Hash, match st with Some st => tget st k | None => None end =
      (λ v, if bool_decide (v = ZeroHash) then None else Some v) <$> gaStorage acc !! k.
Proof.
  destruct (range_storage_map (gaStorage acc)) as [Hd Hm].
  unfold genesis_object, genesis_updates, apply_all. rewrite !foldl_app.
  destruct (storage_fold (range_storage (gaStorage acc)) (foldl (λ o f, f o)
    (foldl (λ o f, f o) (foldl (λ o f, f o) newStateObject
      (match gaBalance acc with Some b => [λ o, set_balance (Balance (oAccount o) + b) o] | None => [] end))
      (if negb (gaNonce acc =? 0) then [set_nonce (gaNonce acc)] else []))
      (if negb (zlen (gaCode acc) =? 0) then [set_code (keccak256 (gaCode acc)) (gaCode acc)] else [])) Hd) as (st & Hst & Hget).
  exists st. unfold apply_all in Hst. rewrite Hst. rewrite Hm in Hget. split.
  - destruct (gaBalance acc), (Z.eqb_spec (gaNonce acc) 0) as [->|], (Z.eqb_spec (zlen (gaCode acc)) 0) as [Hc|]; cbn; try done;
      unfold zlen in Hc; by rewrite (nil_length_inv (gaCode acc)) by lia.
  - intros k. rewrite Hget.
    destruct (gaStorage acc !! k); [done|]. cbn.
    by destruct (gaBalance acc), (negb (gaNonce acc =? 0)), (negb (zlen (gaCode acc) =? 0)).
Qed.

(** An account with nothing to write leaves no trace. *)
Definition touched (acc : GenesisAccount) : bool :=
  bool_decide (is_Some (gaBalance acc)) || negb (gaNonce acc =? 0) || negb (zlen (gaCode acc) =? 0)
  || negb (bool_decide (gaStorage acc = ∅)).

Lemma touched_updates acc : touched acc = true ↔ genesis_updates acc ≠ [].
Proof.
  unfold touched, genesis_updates. destruct (gaBalance acc); [done|]. cbn.
  destruct (negb (gaNonce acc =? 0)); [done|]. destruct (negb (zlen (gaCode acc) =? 0)); [done|]. cbn.
  rewrite negb_true_iff, bool_decide_eq_false. pose proof (range_storage_perm (gaStorage acc)) as Hp.
  destruct (range_storage (gaStorage acc)) as [|kv l].
  - apply Permutation_nil_l, eq_sym, map_to_list_empty_iff in Hp. cbn. by rewrite Hp.
  - cbn. split; [done|]. intros _ E. rewrite E, map_to_list_empty in Hp. by apply Permutation_nil_r in Hp.
Qed.

Context (Hempty : ∀ a, snap_GetAccount a = None).

Lemma object_new t a : tget (txn t) a = None → object t a = newStateObject.
Proof. intros Ha. unfold object, getStateObject. by rewrite Ha, Hempty. Qed.

Lemma alloc_fold l : ∀ t, NoDup l.*1 → Forall (alloc_ok ∘ snd) l → (∀ a, a ∈ l.*1 → tget (txn t) a = None) →
  let t' := foldl (λ txn '(addr, account), writeGenesisAccount txn addr account) t l in
  codeCache t' = codeCache t ∧
  ∀ k : Address, tget (txn t') k =
    match (list_to_map l : gmap Address GenesisAccount) !! k with
    | Some acc => if touched acc then Some (VObject (genesis_object acc)) else None
    | None => tget (txn t) k
    end.
Proof.
  induction l as [|[a acc] l IH]; intros t Hd Hok Hnone; cbv zeta.
  { split; [done|]. intros k. by rewrite list_to_map_nil, lookup_empty. }
  cbn in Hd. apply NoDup_cons in Hd as [Ha Hd]. apply Forall_cons in Hok as [Hacc Hok]. cbn in Hacc. cbn [foldl].
  pose proof (λ k, updates_tree t a (genesis_updates acc) k (genesis_keeps acc Hacc)) as Hup.
  setoid_rewrite <- writeGenesisAccount_updates in Hup.
  destruct (IH (writeGenesisAccount t a acc) Hd Hok) as [Hc Hget].
  { intros b Hb. destruct (Hup b) as [-> _]. rewrite bool_decide_false by (intros [-> _]; done).
    apply Hnone. cbn. by right. }
  split; [rewrite Hc; apply (Hup a)|]. intros k. rewrite Hget, list_to_map_cons. destruct (Hup k) as [-> _].
  rewrite object_new by (apply Hnone; by left).
  destruct (decide (a = k)) as [<-|Hne].
  - rewrite lookup_insert_eq, not_elem_of_list_to_map_1 by done.
    destruct (touched acc) eqn:Et.
    + apply touched_updates in Et. by rewrite bool_decide_true.
    + rewrite bool_decide_false; [apply Hnone; by left|]. intros [_ Hf%touched_updates]. congruence.
  - rewrite lookup_insert_ne by done. rewrite (bool_decide_false (k = a ∧ _)) by (intros [-> _]; done). done.
Qed.

Lemma writeAlloc_tree alloc :
  map_Forall (λ _ acc, alloc_ok acc) alloc →
  codeCache (writeAlloc alloc) = lru_new ∧
  ∀ k : Address, tget (txn (writeAlloc alloc)) k =
    match alloc !! k with
    | Some acc => if touched acc then Some (VObject (genesis_object acc)) else None
    | None => None
    end.
Proof.
  intros Hok.
  assert (NoDup (range_alloc alloc).*1) as Hd by (rewrite range_alloc_perm; apply NoDup_fst_map_to_list).
  assert ((list_to_map (range_alloc alloc) : gmap Address GenesisAccount) = alloc) as Hm.
  { rewrite <- (list_to_map_to_list alloc) at 2. apply list_to_map_proper; [done|apply range_alloc_perm]. }
  destruct (alloc_fold (range_alloc alloc) newTxn Hd) as [Hc Hget].
  - rewrite range_alloc_perm. apply Forall_forall. intros [a acc] Ha%elem_of_map_to_list. by apply Hok in Ha.
  - intros a _. apply tget_new.
  - split; [done|]. intros k. rewrite Hget, Hm. case_match; [done|]. apply tget_new.
Qed.

(** What reads of the state find of an account. *)
Definition account_reads t (a : Address) (acc : GenesisAccount) : Prop :=
  GetBalance t a = default 0 (gaBalance acc) ∧ GetNonce t a = gaNonce acc ∧ (GetCode t a).1 = gaCode acc ∧
  (∀ k, GetState t a k = default ZeroHash (gaStorage acc !! k)) ∧ Exist t a = touched acc.

Lemma genesis_reads alloc a :
  map_Forall (λ _ acc, alloc_ok acc) alloc →
  match alloc !! a with
  | Some acc => account_reads (writeAlloc alloc) a acc
  | None => getStateObject (writeAlloc alloc) a = None
  end.
Proof.
  intros Hok. destruct (writeAlloc_tree alloc Hok) as [Hc Hget]. specialize (Hget a).
  destruct (alloc !! a) as [acc|] eqn:E; [|unfold getStateObject; by rewrite Hget, Hempty].
  apply Hok in E as [Hb Hs]. destruct (touched acc) eqn:Et.
  - destruct (genesis_object_spec acc) as (st & Ho & Hst). rewrite Ho in Hget.
    set (o := mkObject _ _ _ _ _ _) in Hget.
    assert (getStateObject (writeAlloc alloc) a = Some o) as Hg.
    { unfold getStateObject. rewrite Hget. cbn. f_equal. by apply Object_Copy_id. }
    unfold account_reads, GetBalance, GetNonce, GetCode, GetState, Exist. rewrite Hg, Et. split_and!; [done|done| |..].
    + unfold o. cbn. destruct (Z.eqb_spec (zlen (gaCode acc)) 0) as [Hz|]; cbn; [|done].
      rewrite Hc. pose proof (lru_new_get (K := Address) (V := list Z) a) as Hl.
      destruct (lru_get lru_new a) as [[v|] c]; cbn in Hl; [done|]. cbn. etransitivity; [exact snap_code_empty|].
      unfold zlen in Hz. by rewrite (nil_length_inv (gaCode acc)) by lia.
    + intros k. cbn. rewrite Hst. destruct (gaStorage acc !! k) as [v|] eqn:Ek; cbn; [|apply snap_storage_empty].
      apply Hs in Ek. case_bool_decide; [done|]. by apply BytesToHash_id.
    + by rewrite bool_decide_true.
  - assert (getStateObject (writeAlloc alloc) a = None) as Hg by (unfold getStateObject; by rewrite Hget, Hempty).
    unfold account_reads, GetBalance, GetNonce, GetCode, GetState, Exist. rewrite Hg, Et.
    unfold touched in Et. rewrite !orb_false_iff, !negb_false_iff in Et. destruct Et as [[[E1 E2] E3] E4].
    apply bool_decide_eq_false in E1. apply bool_decide_eq_true in E4. apply Z.eqb_eq in E2, E3.
    destruct (gaBalance acc); [by destruct E1|]. split_and!; [done|done| | |by rewrite bool_decide_false].
    + unfold zlen in E3. by rewrite (nil_length_inv (gaCode acc)) by lia.
    + intros k. by rewrite E4, lookup_empty.
Qed.

(** What the commit hands to the trie for an account. *)
Record describes (a : Address) (acc : GenesisAccount) (ob : Object) : Prop := {
  de_addr : cAddr ob = a;
  de_nonce : cNonce ob = gaNonce acc;
  de_balance : cBalance ob = default 0 (gaBalance acc);
  de_root : cRoot ob = emptyStateHash;
  de_code : cCode ob = gaCode acc;
  de_dirty : cDirtyCode ob = negb (zlen (gaCode acc) =? 0);
  de_codehash : cCodeHash ob = BytesToHash (if zlen (gaCode acc) =? 0 then emptyCodeHash else keccak256 (gaCode acc));
  de_deleted : cDeleted ob = false;
  de_nodup : NoDup (sKey <$> cStorage ob);
  de_storage : ∀ e, e ∈ cStorage ob ↔ ∃ k v, gaStorage acc !! k = Some v ∧
    e = if bool_decide (v = ZeroHash) then mkStorageObject true k [] else mkStorageObject false k v;
}.

Lemma committed_describes a acc : addr_ok a → describes a acc (committed a (genesis_object acc)).
Proof.
  intros Ha. destruct (genesis_object_spec acc) as (st & -> & Hst). split; try done.
  - by apply right_align_id, Ha.
  - cbn [cStorage committed oDeleted oTxn]. destruct st as [st|]; [|constructor]. unfold storageObjects. rewrite <- list_fmap_compose.
    assert (sKey ∘ (λ '(k, v), match v with None => mkStorageObject true k [] | Some val => mkStorageObject false k val end)
      <$> twalk st = (twalk st).*1) as -> by (apply list_fmap_ext; intros _ [k [v|]] _; done).
    apply twalk_nodup.
  - intros e. cbn [cStorage committed oDeleted oTxn]. destruct st as [st|].
    + unfold storageObjects. rewrite list_elem_of_fmap. split.
      * intros ([k o] & -> & Hk%twalk_get). rewrite Hst in Hk. destruct (gaStorage acc !! k) as [v|] eqn:E; [|done].
        cbn [fmap option_fmap option_map] in Hk. injection Hk as <-. exists k, v. split; [done|].
        by destruct (bool_decide (v = ZeroHash)).
      * intros (k & v & Hk & ->). exists (k, if bool_decide (v = ZeroHash) then None else Some v).
        split; [by destruct (bool_decide (v = ZeroHash))|]. apply twalk_get. by rewrite Hst, Hk.
    + split; [by intros He%elem_of_nil|]. intros (k & v & Hk & _). specialize (Hst k). by rewrite Hk in Hst.
Qed.

Lemma NoDup_omap_key {A B C} (f : A * B → option C) (g : C → A) l :
  (∀ p c, p ∈ l → f p = Some c → g c = p.1) → NoDup l.*1 → NoDup (g <$> omap f l).
Proof.
  induction l as [|p l IH]; intros Hf Hd; [constructor|]. cbn in Hd. apply NoDup_cons in Hd as [Hp Hd].
  specialize (IH (λ q c Hq, Hf q c (list_elem_of_further _ _ _ Hq)) Hd). cbn. destruct (f p) as [c|] eqn:E; [|done].
  cbn. apply NoDup_cons. split; [|done]. rewrite (Hf p c) by (done || by left).
  intros (c' & Ec & Hc)%list_elem_of_fmap. apply list_elem_of_omap in Hc as (q & Hq & Eq).
  rewrite (Hf q c') in Ec by (done || by right). apply Hp. rewrite Ec. by apply list_elem_of_fmap_2.
Qed.

Lemma genesis_commit alloc :
  map_Forall (λ a acc, addr_ok a ∧ alloc_ok acc) alloc →
  ∃ objs t', Commit (writeAlloc alloc) false = Some (objs, t') ∧ NoDup (cAddr <$> objs) ∧
    (∀ ob, ob ∈ objs → ∃ a acc, alloc !! a = Some acc ∧ touched acc = true ∧ describes a acc ob) ∧
    (∀ a acc, alloc !! a = Some acc → touched acc = true → ∃ ob, ob ∈ objs ∧ describes a acc ob).
Proof.
  intros Hok. assert (map_Forall (λ _ acc, alloc_ok acc) alloc) as Hok' by (by intros a acc [_ ?]%Hok).
  destruct (writeAlloc_tree alloc Hok') as [_ Hget].
  unfold Commit. destruct (CleanDeleteObjects_spec (writeAlloc alloc) false) as (t' & -> & _ & _ & Href & Ht').
  assert (∀ k v, tget (txn t') k = Some v ↔ ∃ acc, alloc !! k = Some acc ∧ touched acc = true ∧ v = VObject (genesis_object acc)) as Hiff.
  { intros k v. destruct (decide (k = refundIndex)) as [->|Hk].
    - rewrite Href. split; [done|]. intros (acc & Ha%Hok & _). destruct Ha as [[Hl _] _]. discriminate Hl.
    - rewrite Ht', Hget by done. destruct (alloc !! k) as [acc|]; [|by split; [|intros (? & ? & _)]].
      destruct (touched acc) eqn:E; [|split; [done|]; intros (acc' & [= <-] & ? & _); congruence].
      destruct (genesis_object_spec acc) as (st & Ho & _).
      replace (doomed false (genesis_object acc)) with false by (by rewrite Ho; cbn; rewrite andb_false_r).
      split; [intros [= <-]; by eauto|]. by intros (acc' & [= <-] & _ & ->). }
  eexists _, t'. split; [done|]. split_and!.
  - apply NoDup_omap_key; [|apply twalk_nodup]. intros [k v] ob Hk%twalk_get E. apply Hiff in Hk as (acc & Ha & _ & ->).
    injection E as <-. apply committed_describes. by apply Hok in Ha as [? _].
  - intros ob Hob. apply list_elem_of_omap in Hob as ([k v] & Hk%twalk_get & E). apply Hiff in Hk as (acc & Ha & Ht & ->).
    injection E as <-. exists k, acc. split_and!; [done..|]. apply committed_describes. by apply Hok in Ha as [? _].
  - intros a acc Ha Ht. exists (committed a (genesis_object acc)). split.
    + apply list_elem_of_omap. exists (a, VObject (genesis_object acc)). split; [|done]. apply twalk_get, Hiff. eauto.
    + apply committed_describes. by apply Hok in Ha as [? _].
Qed.

End genesis.

(** ** Blocks in parallel *)

Section parallel.
Context `{!Radix, !Lru Address (list Z), !Keccak, !TransactionSecurity, !TransitionMethods, !TransactionMethods}.

(** Who is paid by a transaction. *)
Definition pays (t : Transaction) (a : Address) : Prop := tTo t = Some a ∧ 0 < default 0 (tValue t).

(** Two transactions have the same sender, one sends value to the sender of
    the other, or both send value to one address. What the code they call
    does to other accounts is not looked at, neither here nor by the
    executor. *)
Definition native_conflict (t u : Transaction) : Prop :=
  GetSender t = GetSender u ∨ pays t (GetSender u) ∨ pays u (GetSender t) ∨ ∃ a, pays t a ∧ pays u a.

Definition value_ok (t : Transaction) : Prop := is_Some (tTo t) → is_Some (tValue t).

Lemma extractWriteSet_ok t : value_ok t →
  ∃ ws, extractWriteSet t = Some ws ∧ Address_String (GetSender t) ∈ ws ∧ ∀ a, pays t a → Address_String a ∈ ws.
Proof.
  intros Hv. unfold extractWriteSet.
  assert (∃ ws, match tTo t with
      | Some to => v ← tValue t; Some (if 0 <? v then [Address_String (GetSender t)] ++ [Address_String to] else [Address_String (GetSender t)])
      | None => Some [Address_String (GetSender t)] end = Some ws ∧
    Address_String (GetSender t) ∈ ws ∧ ∀ a, pays t a → Address_String a ∈ ws) as (ws & -> & Hs & Ha).
  { unfold value_ok, pays in *. destruct (tTo t) as [to|]; cbn.
    - destruct (tValue t) as [v|]; [|by destruct Hv]. cbn. eexists. split; [done|]. split.
      + case_match; by left.
      + intros a [[= <-] Hp]. rewrite (proj2 (Z.ltb_lt _ _)) by done. by right; left.
    - eexists. split; [done|]. split; [by left|]. by intros a [? _]. }
  cbn [mbind option_bind]. eexists. split; [reflexivity|].
  split; [|intros a Hp; specialize (Ha a Hp)]; cbv zeta; repeat case_match; rewrite ?elem_of_app; auto.
Qed.

Lemma native_access t u wt wu rt ru p q :
  value_ok t → value_ok u → extractWriteSet t = Some wt → extractWriteSet u = Some wu → native_conflict t u →
  access_conflict (mkParallelTx p rt wt) (mkParallelTx q ru wu).
Proof.
  intros Ht Hu Et Eu Hc. destruct (extractWriteSet_ok t Ht) as (wt' & Et' & Hst & Hpt).
  destruct (extractWriteSet_ok u Hu) as (wu' & Eu' & Hsu & Hpu). rewrite Et in Et'. rewrite Eu in Eu'.
  injection Et' as <-. injection Eu' as <-.
  destruct Hc as [E|[Hp|[Hp|(a & Hp & Hq)]]].
  - exists (Address_String (GetSender t)). left. split; [exact Hst|]. rewrite E. exact Hsu.
  - exists (Address_String (GetSender u)). left. split; [exact (Hpt _ Hp)|exact Hsu].
  - exists (Address_String (GetSender t)). left. split; [exact Hst|exact (Hpu _ Hp)].
  - exists (Address_String a). left. split; [exact (Hpt _ Hp)|exact (Hpu _ Hq)].
Qed.

(** What a wrapped transaction holds. *)
Definition wrapped (t : Transaction) (p : ptxRef) : Prop :=
  ∃ i ws, extractWriteSet t = Some ws ∧ p = Some (Ptr i (mkParallelTx (Some t) (extractReadSet t) ws)).

Lemma wrapTransactions_ok txs : ∀ base, Forall value_ok txs →
  ∃ ptxs, wrapTransactions base txs = Some ptxs ∧ Forall2 wrapped txs ptxs ∧
    ∀ i p, ptxs !! i = Some p → address <$> p = Some (base + Z.of_nat i).
Proof.
  induction txs as [|t txs IH]; intros base Hv; [exists []; by repeat constructor|].
  apply Forall_cons in Hv as [Ht Hv]. destruct (extractWriteSet_ok t Ht) as (ws & Ews & _).
  destruct (IH (base + 1) Hv) as (ptxs & Hw & Hf & Ha). cbn [wrapTransactions]. rewrite Ews. cbn [mbind option_bind].
  rewrite Hw. cbn [mbind option_bind]. eexists. split; [reflexivity|]. split.
  - constructor; [|done]. exists base, ws. done.
  - intros [|i] p Hi; cbn in Hi.
    + injection Hi as <-. cbn. f_equal. lia.
    + rewrite (Ha i p Hi). f_equal. lia.
Qed.

(** The transaction behind a pointer. *)
Definition tx_of (p : ptxRef) : Transaction := default newTransaction (p ≫= ptTx ∘ deref).

Lemma wrapped_tx t p : wrapped t p → p ≫= ptTx ∘ deref = Some t.
Proof. by intros (i & ws & _ & ->). Qed.

(** Apply the transactions in the given order; one without a hash gets a
    failed receipt. *)
Fixpoint applyAll (txn : Transition) (txs : list Transaction) : result executorError Transition :=
  match txs with
  | [] => Returns txn
  | t :: txs =>
      txn ← (if bool_decide (Transaction_Hash t = ZeroHash) then wrap errWriteFailedReceipt (T_WriteFailedReceipt txn t)
             else wrap errWrite (T_Write txn t));
      applyAll txn txs
  end.

Lemma writeResults_apply l : ∀ txn,
  Forall (λ p, is_Some (p ≫= ptTx ∘ deref)) l → writeResults txn (executionResult <$> l) = applyAll txn (tx_of <$> l).
Proof.
  induction l as [|p l IH]; intros txn Hl; [done|]. apply Forall_cons in Hl as [[t Ht] Hl].
  cbn [fmap list_fmap writeResults applyAll].
  assert (erTx (executionResult p) = p) as -> by (unfold executionResult; by destruct (executeTx p)).
  assert (tx_of p = t) as -> by (unfold tx_of; by rewrite Ht). rewrite Ht.
  assert (match erErr (executionResult p) with
          | Some _ => wrap errWriteFailedReceipt (T_WriteFailedReceipt txn t) | None => wrap errWrite (T_Write txn t) end =
    (if bool_decide (Transaction_Hash t = ZeroHash) then wrap errWriteFailedReceipt (T_WriteFailedReceipt txn t)
     else wrap errWrite (T_Write txn t))) as ->.
  { unfold executionResult, executeTx. rewrite Ht. cbv zeta. by case_bool_decide. }
  destruct (if bool_decide _ then _ else _) as [x| |]; [|done..]. cbn. by apply IH.
Qed.

Lemma wrapped_txs txs ptxs : Forall2 wrapped txs ptxs → tx_of <$> ptxs = txs ∧ filter validTx ptxs = ptxs.
Proof.
  induction 1 as [|t p txs ptxs Hp _ [IH1 IH2]]; [done|]. apply wrapped_tx in Hp. split.
  - cbn. rewrite IH1. f_equal. unfold tx_of. by rewrite Hp.
  - rewrite filter_cons_True; [by rewrite IH2|]. unfold validTx. rewrite Hp. by apply bool_decide_pack.
Qed.

Lemma wrapTransactions_panics txs base : ¬ Forall value_ok txs → wrapTransactions base txs = None.
Proof.
  revert base. induction txs as [|t txs IH]; intros base Hn; [destruct Hn; constructor|]. cbn [wrapTransactions].
  destruct (extractWriteSet t) as [ws|] eqn:E; [|done]. cbn [mbind option_bind].
  rewrite IH; [done|]. intros Hv. apply Hn. constructor; [|done]. intros [to Hto].
  unfold extractWriteSet in E. rewrite Hto in E. by destruct (tValue t).
Qed.

(** The groups of a block's transactions, as they are written. *)
Lemma parallel_apply forks chainID NewSnapshotAt parentRoot block creator txn ptxs :
  BeginTxn forks chainID NewSnapshotAt parentRoot (Some (bHeader block)) creator = Returns txn →
  wrapTransactions 0 (bTransactions block) = Some ptxs → Forall2 wrapped (bTransactions block) ptxs →
  parallel_ProcessBlock forks chainID NewSnapshotAt parentRoot (Some block) creator
  = applyAll txn (concat ((λ g : list ptxRef, tx_of <$> g) <$> groupTransactions ptxs)).
Proof.
  intros Hb Hw Hf. unfold parallel_ProcessBlock. cbn [or_error mbind result_bind]. rewrite Hb. cbn [wrap mbind result_bind].
  destruct (bTransactions block) as [|t txs] eqn:Et.
  { cbn in Hw. injection Hw as <-. done. }
  cbn [length Nat.eqb]. rewrite Hw. cbn [or_panic mbind result_bind]. rewrite ExecuteTransactions_cpu.
  destruct (wrapped_txs _ _ Hf) as [_ ->]. rewrite writeResults_apply.
  - f_equal. generalize (groupTransactions ptxs). induction l as [|g l IH]; [done|]. cbn. by rewrite fmap_app, IH.
  - rewrite (groups_perm _ _ (groupTransactions_ok ptxs)). clear -Hf.
    induction Hf as [|? ? ? ? Hp]; constructor; [|done]. by rewrite (wrapped_tx _ _ Hp).
Qed.

Lemma wrapped_of txs ptxs g p : Forall2 wrapped txs ptxs → g `sublist_of` ptxs → p ∈ g → wrapped (tx_of p) p ∧ tx_of p ∈ txs.
Proof.
  intros Hf Hs Hp. pose proof (elem_of_sublist _ _ _ Hp Hs) as Hin.
  apply list_elem_of_lookup in Hin as [i Hi]. destruct (Forall2_lookup_r _ _ _ _ _ Hf Hi) as (t & Ht & Hw).
  assert (tx_of p = t) as -> by (unfold tx_of; by rewrite (wrapped_tx _ _ Hw)).
  split; [done|]. by apply list_elem_of_lookup_2 in Ht.
Qed.

(** Two members of a group do not touch the account of one address. *)
Lemma group_native txs ptxs g i j p q :
  Forall value_ok txs → Forall2 wrapped txs ptxs →
  (∀ i p, ptxs !! i = Some p → address <$> p = Some (0 + Z.of_nat i)) →
  group_ok ptxs g → i ≠ j → g !! i = Some p → g !! j = Some q → ¬ native_conflict (tx_of p) (tx_of q).
Proof.
  intros Hv Hf Ha (_ & Hs & Hg) Hij Hp Hq Hc.
  destruct (wrapped_of _ _ _ p Hf Hs) as [(ip & wp & Ewp & Hwp) Htp]; [by eapply list_elem_of_lookup_2|].
  destruct (wrapped_of _ _ _ q Hf Hs) as [(iq & wq & Ewq & Hwq) Htq]; [by eapply list_elem_of_lookup_2|].
  assert (NoDup ptxs) as Hnd.
  { apply NoDup_alt. intros x y r Hx Hy. apply Ha in Hx. apply Ha in Hy. rewrite Hx in Hy. injection Hy. lia. }
  assert (p ≠ q) as Hne.
  { intros <-. apply Hij. eapply NoDup_lookup; [|exact Hp|exact Hq]. eapply sublist_NoDup; eauto. }
  assert (∀ k r, r ∈ g → address <$> r = Some k → ptxs !! Z.to_nat k = Some r) as Hat.
  { intros k r Hr Hk. pose proof (elem_of_sublist _ _ _ Hr Hs) as [n Hn]%list_elem_of_lookup.
    pose proof (Ha _ _ Hn) as E. rewrite Hk in E. injection E as ->. rewrite Z.add_0_l, Nat2Z.id. done. }
  assert (conflictRef p q = true) as E.
  { rewrite Hwp, Hwq. cbn [conflictRef]. apply conflicts_true. cbn [address deref]. split.
    - intros ->. apply Hne. pose proof (Hat iq p) as E1. pose proof (Hat iq q) as E2.
      rewrite E1 in E2; [|by eapply list_elem_of_lookup_2|by rewrite Hwp].
      assert (Some p = Some q) as [= ->]; [|done]. apply E2; [by eapply list_elem_of_lookup_2|by rewrite Hwq].
    - rewrite Forall_forall in Hv. exact (native_access _ _ _ _ _ _ _ _ (Hv _ Htp) (Hv _ Htq) Ewp Ewq Hc). }
  rewrite (Hg p q) in E; [done|by eapply list_elem_of_lookup_2..].
Qed.

(** ** Keys *)

Lemma StringToAddress_hex a : addr_ok a → StringToAddress (prefix0x ++ EncodeToString a) = a.
Proof.
  intros [Hl Hb]. unfold StringToAddress. rewrite (stringToBytes_spells _ _ (spells_encode _ Hb)). by apply right_align_full.
Qed.

Lemma Address_String_inj a b : addr_ok a → addr_ok b → Address_String a = Address_String b → a = b.
Proof. intros Ha Hb E%(f_equal StringToAddress). by rewrite !StringToAddress_String in E. Qed.

Lemma Address_String_hex a b : addr_ok a → addr_ok b → Address_String a = prefix0x ++ EncodeToString b → a = b.
Proof. intros Ha Hb E%(f_equal StringToAddress). by rewrite StringToAddress_String, StringToAddress_hex in E. Qed.

Lemma hex_inj a b : addr_ok a → addr_ok b → prefix0x ++ EncodeToString a = prefix0x ++ EncodeToString b → a = b.
Proof. intros Ha Hb E%(f_equal StringToAddress). by rewrite !StringToAddress_hex in E. Qed.

Lemma Address_String_balance a s : addr_ok a → Address_String a ≠ balanceKey s.
Proof. intros (s' & _ & ->)%checksum_spells. discriminate. Qed.

(** Two pointers with keys apart do not conflict. *)
Lemma conflicts_apart p q :
  (∀ k, k ∈ WriteSet (deref p) ++ ReadSet (deref p) → k ∉ WriteSet (deref q)) →
  (∀ k, k ∈ WriteSet (deref p) → k ∉ ReadSet (deref q)) → conflicts p q = false.
Proof.
  intros Hw Hr. apply not_true_is_false. intros [_ (k & [[? ?]|[[? ?]|[? ?]]])]%conflicts_true.
  - eapply Hw; [|done]. by apply elem_of_app; left.
  - eapply Hw; [|done]. by apply elem_of_app; right.
  - by eapply Hr.
Qed.

(** A payment of the native token from [a] to [b]. *)
Definition payment (t : Transaction) (a b : Address) : Prop :=
  GetSender t = a ∧ tTo t = Some b ∧ tInput t = [] ∧ 0 < default 0 (tValue t).

Lemma payment_sets t a b : payment t a b →
  extractWriteSet t = Some [Address_String a; Address_String b] ∧ extractReadSet t = [Address_String a; Address_String b].
Proof.
  intros (<- & Ht & Hi & Hv). unfold extractWriteSet, extractReadSet. rewrite Ht, Hi. destruct (tValue t) as [v|]; [|done].
  cbn [default from_option id] in Hv. cbn [mbind option_bind]. rewrite (proj2 (Z.ltb_lt _ _) Hv). done.
Qed.

(** A call of the method [transfer] of the ACC-20 token at [tok]: [a] sends
    an amount of it to [b]. *)
Definition token_transfer (t : Transaction) (tok a b : Address) : Prop :=
  GetSender t = a ∧ tTo t = Some tok ∧ tValue t = Some 0 ∧
  ∃ amount, length amount = 32%nat ∧ tInput t = [0xa9; 0x05; 0x9c; 0xbb] ++ replicate 12 0 ++ b ++ amount.

Lemma token_transfer_sets t tok a b : addr_ok b → token_transfer t tok a b →
  extractWriteSet t = Some [Address_String a; balanceKey (Address_String a); balanceKey (prefix0x ++ EncodeToString b)] ∧
  extractReadSet t = [Address_String a; Address_String tok].
Proof.
  intros [Hl _] (<- & Ht & Hv & amount & Ha & Hi). unfold extractWriteSet, extractReadSet. rewrite Ht, Hi, Hv.
  assert (zlen ([0xa9; 0x05; 0x9c; 0xbb] ++ replicate 12 0 ++ b ++ amount) = 68) as E68.
  { unfold zlen. by rewrite !length_app, length_replicate, Hl, Ha. }
  assert (extractAddressFromInput ([0xa9; 0x05; 0x9c; 0xbb] ++ replicate 12 0 ++ b ++ amount) 4 = prefix0x ++ EncodeToString b) as Eb.
  { unfold extractAddressFromInput. rewrite E68. f_equal. f_equal.
    change (drop _ _) with (b ++ amount). by rewrite take_app_length'. }
  rewrite E68, Eb. done.
Qed.

End parallel.

(** ** Examples *)

(** A state with no account, a digest of ones, maps visited in the order of
    [map_to_list]. *)
Module Empty.
#[export] Instance ones_keccak : Keccak.
Proof.
  refine {| keccak256 := λ _, replicate 32 255 |}. intros _. split; [done|]. apply Forall_replicate. split; lia.
Defined.

#[export] Instance empty_snapshot : readSnapshot :=
  {| snap_GetStorage _ _ _ := ZeroHash; snap_GetAccount _ := None; snap_GetCode _ := [] |}.

#[export] Instance empty_snapshot_laws : SnapshotLaws.
Proof. split; try done. intros a r k. split; [done|]. apply Forall_replicate. split; lia. Qed.

#[export] Instance list_range : MapRange := {| range_alloc := map_to_list; range_storage := map_to_list |}.

#[export] Instance list_range_laws : MapRangeLaws.
Proof. by split. Qed.

#[export] Instance from_security : TransactionSecurity := {| GetSecurityInfo _ := None; GetSender := tFrom |}.

#[export] Instance counting_transition : TransitionMethods := {|
  T_Write := λ t tx, Returns (mkTransition (trCtx t) (trState t) (trSnap t) (trConfig t) (trGasPool t) (trReceipts t) (trTotalGas t + tNonce tx));
  T_WriteFailedReceipt := λ t tx, Returns t |}.

#[export] Instance nonce_methods : TransactionMethods :=
  {| Transaction_Hash := λ tx, replicate 31 0 ++ [tNonce tx + 1]; Hash_Hex := Hash_String |}.

Definition address_of (x : Z) : Address := BytesToAddress [x].

(** A transaction from [a] to [b]. *)
Definition example_transaction (nonce value : Z) (input : list Z) (a b : Z) : Transaction :=
  mkTx nonce None 0 (Some (address_of b)) (Some value) input None None None ZeroHash (address_of a) None.

(** [b] pays [c], then [a] pays [b] and [d]. *)
Definition example_payments : list Transaction :=
  [example_transaction 0 5 [] 2 3; example_transaction 0 5 [] 1 2; example_transaction 1 5 [] 1 4].

Definition example_block : Block := mkBlock newHeader example_payments [] None.

Definition example_transition : Transition :=
  mkTransition {| GasPrice := ZeroHash; Origin := ZeroAddress; Coinbase := ZeroAddress; Timestamp := 0; Number := 0;
    Difficulty := ZeroHash; GasLimit := 0; ChainID := 1 |} newTxn empty_snapshot (At AllForksEnabled 0) 0 [] 0.

Lemma example_begin : BeginTxn AllForksEnabled 1 (λ _, Some empty_snapshot) ZeroHash (Some newHeader) ZeroAddress
  = Returns example_transition.
Proof. vm_compute. reflexivity. Qed.
End Empty.
Import Empty.

(** ** Claims *)

(** C31. [WriteGenesis] writes the allocation of the genesis file. In whatever
    order Go visits the maps, a read of the state finds the balance, the
    nonce, the code and every storage slot of each account as the file gives
    them, and no other account; the commit succeeds and hands the trie one
    object per account with exactly these values, the storage slots each
    once and those with a zero value as deletions, and an account for which
    the file gives nothing is not written at all. *)
Theorem genesis_state `{!Radix, !RadixLaws, !Lru Address (list Z), !LruLaws Address (list Z), !Keccak,
    !readSnapshot, !SnapshotLaws, !MapRange, !MapRangeLaws}
    (snap_Commit : list Object → list Z) (alloc : gmap Address GenesisAccount) :
  (∀ a, snap_GetAccount a = None) → map_Forall (λ a acc, addr_ok a ∧ alloc_ok acc) alloc →
  (∀ a, match alloc !! a with
        | Some acc => account_reads (writeAlloc alloc) a acc
        | None => getStateObject (writeAlloc alloc) a = None
        end) ∧
  ∃ objs, WriteGenesis snap_Commit (Some alloc) = Some (BytesToHash (snap_Commit objs)) ∧
    NoDup (cAddr <$> objs) ∧
    (∀ ob, ob ∈ objs → ∃ a acc, alloc !! a = Some acc ∧ touched acc = true ∧ describes a acc ob) ∧
    (∀ a acc, alloc !! a = Some acc → touched acc = true → ∃ ob, ob ∈ objs ∧ describes a acc ob).
Proof.
  intros Hempty Hok. split; [intros a; apply (genesis_reads Hempty); by intros ? ? [_ ?]%Hok|].
  destruct (genesis_commit Hempty alloc Hok) as (objs & t' & Hc & Hnd & Hall & Hex). exists objs.
  split_and!; [|done..]. unfold WriteGenesis. by rewrite Hc.
Qed.

Definition example_account : GenesisAccount :=
  mkGenesisAccount [0x60] {[ BytesToHash [1] := BytesToHash [5]; BytesToHash [2] := ZeroHash ]} (Some 100) 1.

Lemma genesis_state_witness :
  account_reads (writeAlloc {[ address_of 7 := example_account ]}) (address_of 7) example_account.
Proof.
  pose proof (genesis_state (λ _, []) {[ address_of 7 := example_account ]}) as H.
  destruct H as [H _].
  - intros a. reflexivity.
  - apply map_Forall_singleton. split; [apply (bool_decide_unpack _); vm_compute; exact I|]. split; [cbn; lia|].
    apply map_Forall_insert_2; [|apply map_Forall_singleton]; apply (bool_decide_unpack _); vm_compute; exact I.
  - specialize (H (address_of 7)). rewrite lookup_singleton_eq in H. exact H.
Defined.

(** C32. The executor of the module root applies every transaction of a block
    exactly once, group after group, each group in the order of the block; a
    transaction with the zero hash gets a failed receipt, any other is
    written. Any two transactions of a group have different senders, neither
    sends value to the sender of the other, and they do not send value to the
    same address; what the code they call does to other accounts is not part
    of this. A block with a transaction to an address that has no value makes
    it panic. *)
Theorem parallel_block `{!Radix, !Lru Address (list Z), !Keccak, !TransactionSecurity, !TransitionMethods, !TransactionMethods}
    (forks : Forks) (chainID : Z) (NewSnapshotAt : Hash → option readSnapshot)
    (parentRoot : Hash) (block : Block) (blockCreator : Address) (txn : Transition) :
  BeginTxn forks chainID NewSnapshotAt parentRoot (Some (bHeader block)) blockCreator = Returns txn →
  let processed := parallel_ProcessBlock forks chainID NewSnapshotAt parentRoot (Some block) blockCreator in
  (Forall value_ok (bTransactions block) → ∃ groups,
     concat groups ≡ₚ bTransactions block ∧ processed = applyAll txn (concat groups) ∧
     ∀ g, g ∈ groups → g `sublist_of` bTransactions block ∧
       ∀ i j t u, i ≠ j → g !! i = Some t → g !! j = Some u → ¬ native_conflict t u) ∧
  (¬ Forall value_ok (bTransactions block) → processed = Panics).
Proof.
  intros Hb processed. split.
  - intros Hv. destruct (wrapTransactions_ok _ 0 Hv) as (ptxs & Hw & Hf & Ha).
    pose proof (groupTransactions_ok ptxs) as Hok. destruct (wrapped_txs _ _ Hf) as [Htxs _].
    exists ((λ g : list ptxRef, tx_of <$> g) <$> groupTransactions ptxs).
    split_and!; [|by apply parallel_apply|].
    + transitivity (tx_of <$> concat (groupTransactions ptxs)); [|by rewrite (groups_perm _ _ Hok), Htxs]. clear.
      induction (groupTransactions ptxs) as [|g l IH]; [done|]. cbn. by rewrite fmap_app, IH.
    + intros g (g' & -> & Hg')%list_elem_of_fmap.
      pose proof (proj1 (Forall_forall _ _) (groups_each _ _ Hok) _ Hg') as Hg. split.
      * rewrite <- Htxs. apply fmap_sublist, Hg.
      * intros i j t u Hij Ht Hu. apply list_lookup_fmap_Some in Ht as (p & -> & Hp).
        apply list_lookup_fmap_Some in Hu as (q & -> & Hq). by eapply group_native.
  - intros Hn. unfold processed, parallel_ProcessBlock. cbn [or_error mbind result_bind]. rewrite Hb. cbn [wrap mbind result_bind].
    destruct (bTransactions block) as [|t txs]; [destruct Hn; constructor|]. by rewrite wrapTransactions_panics.
Qed.

Lemma parallel_block_witness : ∃ groups,
  concat groups ≡ₚ example_payments ∧
  parallel_ProcessBlock AllForksEnabled 1 (λ _, Some empty_snapshot) ZeroHash (Some example_block) ZeroAddress
  = applyAll example_transition (concat groups).
Proof.
  destruct (parallel_block AllForksEnabled 1 (λ _, Some empty_snapshot) ZeroHash example_block ZeroAddress
    example_transition example_begin) as [H _].
  destruct H as (groups & Hp & He & _).
  - repeat constructor; intros _; by eexists.
  - exists groups. split; [exact Hp|exact He].
Defined.

(** The groups do not keep the order of a sender's transactions. When [b]
    pays [c], then [a] pays [b], then [a] pays [d], the executor applies
    [a]'s second transaction before the first, whatever their nonces. *)
Theorem sender_order_lost `{!Radix, !Lru Address (list Z), !Keccak, !TransactionSecurity, !TransitionMethods, !TransactionMethods}
    (forks : Forks) (chainID : Z) (NewSnapshotAt : Hash → option readSnapshot)
    (parentRoot : Hash) (block : Block) (blockCreator : Address) (txn : Transition) (t1 t2 t3 : Transaction) (a b c d : Address) :
  BeginTxn forks chainID NewSnapshotAt parentRoot (Some (bHeader block)) blockCreator = Returns txn →
  bTransactions block = [t1; t2; t3] → Forall addr_ok [a; b; c; d] → NoDup [a; b; c; d] →
  payment t1 b c → payment t2 a b → payment t3 a d →
  parallel_ProcessBlock forks chainID NewSnapshotAt parentRoot (Some block) blockCreator = applyAll txn [t1; t3; t2].
Proof.
  intros Hbegin Htxs Hok Hnd P1 P2 P3. decompose_Forall_hyps.
  destruct (payment_sets _ _ _ P1) as [W1 R1], (payment_sets _ _ _ P2) as [W2 R2], (payment_sets _ _ _ P3) as [W3 R3].
  set (p1 := Ptr 0 (mkParallelTx (Some t1) (extractReadSet t1) [Address_String b; Address_String c])).
  set (p2 := Ptr (0 + 1) (mkParallelTx (Some t2) (extractReadSet t2) [Address_String a; Address_String b])).
  set (p3 := Ptr (0 + 1 + 1) (mkParallelTx (Some t3) (extractReadSet t3) [Address_String a; Address_String d])).
  assert (groupTransactions [Some p1; Some p2; Some p3] = [[Some p1; Some p3]; [Some p2]]) as Eg.
  { unfold groupTransactions. cbn [foldl placeTransaction conflictsWithGroup existsb].
    assert (conflicts p2 p1 = true) as ->.
    { apply conflicts_true. split; [done|]. exists (Address_String b). left. cbn. split; [by right; left|by left]. }
    cbn [orb negb placeTransaction conflictsWithGroup existsb].
    assert (conflicts p3 p1 = false) as ->; [|done].
    assert (∀ k, k ∈ [Address_String a; Address_String d] → k ∉ [Address_String b; Address_String c]) as Hap.
    { rewrite !NoDup_cons, !not_elem_of_cons in Hnd. intros k. rewrite !elem_of_cons, !elem_of_nil. intros Hk Hk'.
      destruct Hk as [->|[->|[]]], Hk' as [E|[E|[]]]; apply Address_String_inj in E; try done; naive_solver. }
    apply conflicts_apart; cbn [deref p1 p3 ReadSet WriteSet].
    - intros k. rewrite R3, elem_of_app. intros [?|?]; by apply Hap.
    - rewrite R1. apply Hap. }
  erewrite parallel_apply; [|done| |].
  - rewrite Eg. reflexivity.
  - rewrite Htxs. cbn [wrapTransactions]. rewrite W1, W2, W3. reflexivity.
  - rewrite Htxs. repeat constructor; unfold wrapped; eauto.
Qed.

Lemma sender_order_lost_witness :
  parallel_ProcessBlock AllForksEnabled 1 (λ _, Some empty_snapshot) ZeroHash (Some example_block) ZeroAddress
  = applyAll example_transition [example_transaction 0 5 [] 2 3; example_transaction 1 5 [] 1 4; example_transaction 0 5 [] 1 2].
Proof.
  apply (sender_order_lost AllForksEnabled 1 (λ _, Some empty_snapshot) ZeroHash example_block ZeroAddress example_transition
    (example_transaction 0 5 [] 2 3) (example_transaction 0 5 [] 1 2) (example_transaction 1 5 [] 1 4)
    (address_of 1) (address_of 2) (address_of 3) (address_of 4)).
  - exact example_begin.
  - reflexivity.
  - apply (bool_decide_unpack _). vm_compute. exact I.
  - apply (bool_decide_unpack _). vm_compute. exact I.
  - split_and!; [reflexivity..|cbn; lia].
  - split_and!; [reflexivity..|cbn; lia].
  - split_and!; [reflexivity..|cbn; lia].
Defined.

(** Two equal keys are of equal addresses. *)
Ltac same_key E :=
  lazymatch type of E with
  | Address_String _ = Address_String _ => apply Address_String_inj in E
  | Address_String _ = prefix0x ++ _ => apply Address_String_hex in E
  | prefix0x ++ _ = prefix0x ++ _ => apply hex_inj in E
  | prefix0x ++ _ = Address_String _ => symmetry in E; apply Address_String_hex in E
  | Address_String _ = balanceKey _ => apply Address_String_balance in E
  | balanceKey _ = Address_String _ => symmetry in E; apply Address_String_balance in E
  | balanceKey _ = balanceKey _ => apply (app_inv_head (lit "acc20:balance:")) in E; same_key E
  end.

(** C37. The executor does not see that two transfers of one ACC-20 token
    change the same balance: when [a] sends [b] an amount and [b] sends it on
    to [c], the key of [b]'s balance is spelled with lower-case digits in the
    first transaction and with the checksummed address in the second, so the
    two are put into one group as independent, unless the two spellings of
    [b] agree. *)
Theorem token_conflict_missed `{!Keccak, !TransactionSecurity} (t u : Transaction) (tok a b c : Address) :
  Forall addr_ok [tok; a; b; c] → NoDup [tok; a; b; c] →
  Address_String b ≠ prefix0x ++ EncodeToString b →
  token_transfer t tok a b → token_transfer u tok b c →
  ∃ p q, wrapTransactions 0 [t; u] = Some [p; q] ∧ groupTransactions [p; q] = [[p; q]].
Proof.
  intros Hok Hnd Hsp Ht Hu. rewrite !Forall_cons in Hok. destruct_and! Hok.
  destruct (token_transfer_sets t tok a b) as [W1 R1]; [done..|].
  destruct (token_transfer_sets u tok b c) as [W2 R2]; [done..|].
  cbn [wrapTransactions]. rewrite W1, W2. cbn [mbind option_bind]. do 2 eexists. split; [reflexivity|].
  unfold groupTransactions. cbn [foldl placeTransaction conflictsWithGroup existsb].
  rewrite !NoDup_cons, !not_elem_of_cons in Hnd. destruct_and! Hnd.
  rewrite conflicts_apart; [done|..]; cbn [deref WriteSet ReadSet app]; rewrite ?R1, ?R2; intros k;
    cbn [app]; rewrite !elem_of_cons, !elem_of_nil; intros Hk Hk'; destruct_or! Hk; destruct_or! Hk'; try done.
  all: subst k; try (apply (app_inv_head (lit "acc20:balance:")) in Hk'; congruence).
  all: same_key Hk'; try assumption; congruence.
Qed.

Lemma token_conflict_missed_witness :
  let transfer n a b := example_transaction n 0 ([0xa9; 0x05; 0x9c; 0xbb] ++ replicate 12 0 ++ address_of b ++ BytesToHash [5]) a 9 in
  ∃ p q, wrapTransactions 0 [transfer 0 1 171; transfer 0 171 2] = Some [p; q] ∧ groupTransactions [p; q] = [[p; q]].
Proof.
  apply (token_conflict_missed _ _ (address_of 9) (address_of 1) (address_of 171) (address_of 2)).
  - apply (bool_decide_unpack _). vm_compute. exact I.
  - apply (bool_decide_unpack _). vm_compute. exact I.
  - apply (bool_decide_unpack _). vm_compute. exact I.
  - split_and!; [reflexivity..|]. exists (BytesToHash [5]). split; reflexivity.
  - split_and!; [reflexivity..|]. exists (BytesToHash [5]). split; reflexivity.
Defined.
