(* ===== verification/TrieStore.v ===== *)
(** * The stored state
      (state/immutable-trie: storage.go, state.go, snapshot.go and the commit
      of trie.go; the RLP form of accounts of state/state.go)

    The nodes of a committed trie are entries of a key-value storage, under
    the hash of their RLP form; a trie loaded from it holds hashes in place
    of the nodes not read yet. A snapshot of the state is the trie of the
    accounts; each account names the root of the trie of its storage. Tries
    are kept in an LRU cache under their root hash.

    A trie is its root node. The storage is an interface with the two
    implementations of the repository. The mutation of a loaded node that
    replaces a hash by the node read for it does not change what a trie
    holds and is left out. *)

From Stdlib Require Import String.
From stdpp Require Import gmap.
From S2P Require Import Prelude BigInt Types Rlp BlockTypes Hex Result Radix Txn Trie Hasher KeyValue.
#[local] Open Scope Z_scope.

(** ** storage.go: the interface *)

Class Storage := {
  store : Type;
  batch : Type;
  st_Get : store → list Z → result unit (option (list Z));    (** [None]: not found *)
  st_Batch : store → batch;
  st_SetCode : store → Hash → list Z → store;
  st_GetCode : store → Hash → result unit (option (list Z));
  ba_Put : store → batch → list Z → list Z → store * batch;
  ba_Write : store → batch → store;
}.

(** ** storage.go: in memory

    A batch writes at once. *)

Record memStorage := mkMem { mem_db : gmap (list Z) (list Z); mem_code : gmap (list Z) (list Z) }.

Definition mem_Get (m : memStorage) (p : list Z) : result unit (option (list Z)) := Returns (mem_db m !! EncodeToHex p).

Definition mem_SetCode (m : memStorage) (hash : Hash) (code : list Z) : memStorage :=
  mkMem (mem_db m) (<[Hash_String hash := code]> (mem_code m)).

Definition mem_GetCode (m : memStorage) (hash : Hash) : result unit (option (list Z)) :=
  Returns (mem_code m !! Hash_String hash).

Definition mem_Put (m : memStorage) (p v : list Z) : memStorage :=
  mkMem (<[EncodeToHex p := v]> (mem_db m)) (mem_code m).

Definition memoryStorage : Storage := {|
  store := memStorage; batch := unit;
  st_Get := mem_Get; st_Batch := λ _, tt; st_SetCode := mem_SetCode; st_GetCode := mem_GetCode;
  ba_Put := λ m _ p v, (mem_Put m p v, tt); ba_Write := λ m _, m |}.

(** ** storage.go: LevelDB

    The errors of writes are dropped; an error of a read other than a
    missing entry panics. *)

Class LevelDBBatch `{LevelDB} := {
  ldb_Write : ldb → list (list Z * list Z) → result (list Z) ldb;    (** [db.Write(batch, nil)] *)
}.

Section kv.
Context `{LevelDBBatch}.

Definition codePrefix : list Z := lit "code".

Definition kv_Put (db : ldb) (k v : list Z) : ldb := match ldb_Put db k v with Returns db => db | _ => db end.

Definition kv_get (db : ldb) (k : list Z) : result unit (option (list Z)) :=
  match ldb_Get db k with
  | Returns data => Returns (Some data)
  | Errors err => if bool_decide (err = lit "leveldb: not found") then Returns None else Panics
  | Panics => Panics
  end.

Definition kv_Write (db : ldb) (b : list (list Z * list Z)) : ldb := match ldb_Write db b with Returns db => db | _ => db end.

Definition levelDBStorage : Storage := {|
  store := ldb; batch := list (list Z * list Z);
  st_Get := kv_get; st_Batch := λ _, [];
  st_SetCode := λ db hash code, kv_Put db (codePrefix ++ hash) code;
  st_GetCode := λ db hash, kv_get db (codePrefix ++ hash);
  ba_Put := λ db b k v, (db, b ++ [(k, v)]); ba_Write := kv_Write |}.

End kv.

(** ** storage.go: nodes *)

(** A loop that stops at the first error. *)
Fixpoint mapResult {E A B} (f : A → result E B) (l : list A) : result E (list B) :=
  match l with
  | [] => Returns []
  | a :: l => b ← f a; bs ← mapResult f l; Returns (b :: bs)
  end.

(** The calls in a row of the functions below on one trie: more than the
    depth of a trie with keys of 32 bytes, with a load before each node. *)
Definition trieFuel : nat := 150.

Section nodes.
Context `{RlpValues}.

(** [decodeNode(v, s)]; the depth of the value bounds the recursion. *)
Fixpoint decodeNode (fuel : nat) (v : rlp_value) : result unit node :=
  match fuel with
  | O => Panics
  | S fuel =>
      if rlp_isbytes v then Returns (ValueNode true (rlp_Raw v)) else
      match default [] (rlp_elems v) with
      | [key; val] =>
          if negb (rlp_isbytes key) then Errors () else
          nckey ← or_panic (decodeCompact (rlp_Raw key));
          if hasTerminator nckey then
            if negb (rlp_isbytes val) then Errors ()
            else Returns (ShortNode nckey (Some (ValueNode false (rlp_Raw val))))
          else
            child ← decodeNode fuel val;
            Returns (ShortNode nckey (Some child))
      | elems =>
          if (length elems =? 17)%nat then
            children ← mapResult (λ e,
              if rlp_isbytes e && (zlen (rlp_Raw e) =? 0) then Returns None
              else c ← decodeNode fuel e; Returns (Some c)) (take 16 elems);
            let value := default rlp_null (last elems) in
            if negb (rlp_isbytes value) then Errors ()
            else Returns (FullNode (if negb (zlen (rlp_Raw value) =? 0) then Some (ValueNode false (rlp_Raw value)) else None) children)
          else Errors ()
      end
  end.

(** [GetNode(root, storage)]: a missing node is [None]. A stored value that
    is no array is refused. *)
Definition storage_GetNode `{Storage} (s : store) (root : list Z) : result unit (option node) :=
  data ← st_Get s root;
  match data with
  | None => Returns None
  | Some data =>
      v ← or_error () (rlp_parse data);
      if rlp_isbytes v then Errors () else
      n ← decodeNode trieFuel v;
      Returns (Some n)
  end.

(** The nodes as the trie reads them: it panics on an error. *)
Definition nodes_of `{Storage} (s : store) : TrieStorage :=
  {| GetNode := λ root, match storage_GetNode s root with Returns n => Some n | _ => None end |}.

End nodes.

(** ** state.go: the RLP form of accounts *)

Section accounts.
Context `{Rlp}.

Definition Account_MarshalWith (a : Account) : rlp_value :=
  rlp_array [rlp_uint (Nonce a); rlp_bigint (Some (Balance a)); rlp_bytes (Root a); rlp_bytes (CodeHash a)].

Definition Account_UnmarshalRlp (b : list Z) : option Account :=
  v ← rlp_parse b;
  elems ← rlp_elems v;
  match elems with
  | e0 :: e1 :: e2 :: e3 :: _ =>
      nonce ← rlp_getuint e0;
      balance ← rlp_getbig e1;
      root ← rlp_getfixed 32 e2;
      codeHash ← rlp_getbytes e3;
      Some (mkAccount nonce balance root codeHash)
  | _ => None
  end.

End accounts.

(** ** state.go, snapshot.go and the commit of trie.go *)

Notation trie := (option node).

Definition EmptyRootHash : Hash := StringToHash (lit "0x56e81f171bcc55a6ff8345e692c0f86e5b48e01b996cadc001622fb5e363b421").

Inductive stateError := errStorageRoot | errStateNotFound | errAccount.

Section state.
Context `{Keccak, RlpValues, Storage, !Lru Hash trie}.

Record State := mkState { sStorage : store; sCache : cache Hash trie }.

(** [s.newTrieAt(root)]: a lookup refreshes the entry of the cache. *)
Definition newTrieAt (s : State) (root : Hash) : result stateError (trie * State) :=
  if bool_decide (root = EmptyRootHash) then Returns (None, s) else
  let '(cached, c) := lru_get (sCache s) root in
  let s := mkState (sStorage s) c in
  match cached with
  | Some t => Returns (t, s)
  | None =>
      match storage_GetNode (sStorage s) root with
      | Returns (Some n) => Returns (Some n, s)
      | Returns None => Errors errStateNotFound
      | Errors _ => Errors errStorageRoot
      | Panics => Panics
      end
  end.

Definition AddState (s : State) (root : Hash) (t : trie) : State := mkState (sStorage s) (lru_add (sCache s) root t).

(** [t.Get(k)]; an entry of a committed trie is never empty, so that its
    bytes are not nil. *)
Definition Trie_Get (s : store) (t : trie) (k : list Z) : result stateError (option (list Z)) :=
  or_panic (Lookup (H := nodes_of s) trieFuel t k).

(** [snap.GetStorage(addr, root, rawkey)] *)
Definition Snapshot_GetStorage (s : State) (addr : Address) (root rawkey : Hash) : result stateError (Hash * State) :=
  match (if bool_decide (root = emptyStateHash) then Returns (None, s) else newTrieAt s root) with
  | Panics => Panics
  | Errors _ => Returns (ZeroHash, s)
  | Returns (t, s) =>
      val ← Trie_Get (sStorage s) t (keccak256 rawkey);
      Returns (match val with
               | None => ZeroHash
               | Some val =>
                   match rlp_parse val ≫= rlp_getbytes with
                   | Some res => BytesToHash res
                   | None => ZeroHash
                   end
               end, s)
  end.

(** [snap.GetAccount(addr)]; [None] is the account that is not there. *)
Definition Snapshot_GetAccount (s : State) (t : trie) (addr : Address) : result stateError (option Account) :=
  data ← Trie_Get (sStorage s) t (keccak256 addr);
  match data with
  | None => Returns None
  | Some data => account ← or_error errAccount (Account_UnmarshalRlp data); Returns (Some account)
  end.

(** [snap.GetCode(hash)] *)
Definition Snapshot_GetCode (s : State) (hash : Hash) : result unit (option (list Z)) := st_GetCode (sStorage s) hash.

Definition NewSnapshotAt (s : State) (root : Hash) : result stateError (trie * State) := newTrieAt s root.

(** [bytes.TrimLeft(b, "\x00")] *)
Fixpoint TrimLeft0 (b : list Z) : list Z :=
  match b with
  | [] => []
  | x :: b => if x =? 0 then TrimLeft0 b else x :: b
  end.

(** [hashit(k)] is the Keccak hash. One entry of the storage of an account:
    [None] is a panic. *)
Definition commitEntry (s : store) (t : trie) (entry : StorageObject) : option trie :=
  let k := keccak256 (sKey entry) in
  if sDeleted entry then Delete (H := nodes_of s) trieFuel t k
  else Insert (H := nodes_of s) trieFuel t k (rlp_marshal (rlp_bytes (TrimLeft0 (sVal entry)))).

Fixpoint commitEntries (s : store) (t : trie) (entries : list StorageObject) : option trie :=
  match entries with
  | [] => Some t
  | e :: entries => t ← commitEntry s t e; commitEntries s t entries
  end.

(** The puts of [Hash] into the batch. *)
Definition putAll (s : store) (b : batch) (w : puts) : store * batch :=
  foldl (λ '(s, b) '(k, v), ba_Put s b k v) (s, b) w.

(** The storage of an account: its new root, with the trie in the cache and
    its nodes in the batch. *)
Definition commitStorage (s : State) (b : batch) (root : Hash) (entries : list StorageObject) :
    option (Hash * State * batch) :=
  match newTrieAt s root with
  | Returns (t, s) =>
      t ← commitEntries (sStorage s) t entries;
      '(accountStateRoot, w) ← Txn_Hash t;
      let '(st, b) := putAll (sStorage s) b w in
      let s := AddState (mkState st (sCache s)) (BytesToHash accountStateRoot) t in
      Some (BytesToHash accountStateRoot, s, b)
  | _ => None
  end.

(** One account: the trie of the accounts, the state and the batch. *)
Definition commitObject (t : trie) (s : State) (b : batch) (obj : Object) : option (trie * State * batch) :=
  if cDeleted obj then
    t ← Delete (H := nodes_of (sStorage s)) trieFuel t (keccak256 (cAddr obj));
    Some (t, s, b)
  else
    '(root, s, b) ← (if negb (length (cStorage obj) =? 0)%nat then commitStorage s b (cRoot obj) (cStorage obj)
                     else Some (cRoot obj, s, b));
    let account := mkAccount (cNonce obj) (cBalance obj) root (cCodeHash obj) in
    let s := if cDirtyCode obj then mkState (st_SetCode (sStorage s) (cCodeHash obj) (cCode obj)) (sCache s) else s in
    t ← Insert (H := nodes_of (sStorage s)) trieFuel t (keccak256 (cAddr obj)) (rlp_marshal (Account_MarshalWith account));
    Some (t, s, b).

Fixpoint commitObjects (t : trie) (s : State) (b : batch) (objs : list Object) : option (trie * State * batch) :=
  match objs with
  | [] => Some (t, s, b)
  | obj :: objs => '(t, s, b) ← commitObject t s b obj; commitObjects t s b objs
  end.

(** [t.Commit(objs)] and [snap.Commit(objs)]: the new trie, the root and the
    state. *)
Definition Snapshot_Commit (s : State) (t : trie) (objs : list Object) : option (trie * list Z * State) :=
  let b := st_Batch (sStorage s) in
  '(t, s, b) ← commitObjects t s b objs;
  '(root, w) ← Txn_Hash t;
  let '(st, b) := putAll (sStorage s) b w in
  let s := AddState (mkState (ba_Write st b) (sCache s)) (BytesToHash root) t in
  Some (t, root, s).

End state.
Arguments State {_ _}.
Arguments mkState {_ _}.
