(* ===== verification/TrieStoreRep.v ===== *)
(** * Tries partly in storage

    [rep c n] says that the trie [c], some of whose nodes are hashes of
    stored ones, stands for the trie [n] in memory. What [lookup], [insert],
    [delete] and the hasher do on [c] is what they do on [n]; a node read
    from the storage stands for the node whose hash it is. *)

From stdpp Require Import gmap.
From S2P Require Import Prelude BigInt Types Rlp Hex Result Radix Txn Trie TrieMap TrieProps Hasher KeyValue TrieStore.
#[local] Open Scope Z_scope.

(** What the trie relies on of fastrlp: the kinds of values and their bytes;
    a null value reads as the empty string. *)
Class RlpNodes `{RlpValues} : Prop := {
  node_bytes b : rlp_isbytes (rlp_bytes b) = true;
  node_null : rlp_isbytes rlp_null = true;
  node_array l : rlp_isbytes (rlp_array l) = false;
  node_Raw_bytes b : rlp_Raw (rlp_bytes b) = b;
  node_Raw_null : rlp_Raw rlp_null = [];
  node_len_bytes b : rlp_len (rlp_bytes b) = zlen b;
}.

Definition is_hash (n : node) : bool := match n with ValueNode h _ => h | _ => false end.
Definition is_value (n : node) : bool := match n with ValueNode _ _ => true | _ => false end.

(** ** The value of a node before it is hashed *)

Section values.
Context `{Keccak, RlpValues}.

Fixpoint hashChildren (children : list (option node)) : option (list rlp_value * puts) :=
  match children with
  | [] => Some ([], [])
  | None :: children => '(vals, w) ← hashChildren children; Some (rlp_null :: vals, w)
  | Some i :: children =>
      '(v, w) ← hash i;
      '(vals, w') ← hashChildren children;
      Some (v :: vals, w ++ w')
  end.

Definition node_value (n : node) : option (rlp_value * puts) :=
  match n with
  | ValueNode _ _ | ShortNode _ None | FullNode (Some _) _ => None
  | ShortNode key (Some child) =>
      '(v, w) ← hash child; Some (rlp_array [rlp_bytes (encodeCompact key); v], w)
  | FullNode None children =>
      '(vals, w) ← hashChildren children; Some (rlp_array (vals ++ [rlp_null]), w)
  end.

Lemma hash_full ch : hash (FullNode None ch) = '(vals, w) ← hashChildren ch; Some (hashValue (rlp_array (vals ++ [rlp_null])) w).
Proof.
  cbn [hash]. match goal with |- (?go ch ≫= _) = _ => assert (∀ l, go l = hashChildren l) as -> end.
  { induction l as [|[i|] l IH]; cbn; [done| |]; rewrite IH; done. }
  destruct (hashChildren ch) as [[vals w]|]; [|done]. cbn. by rewrite app_nil_r.
Qed.

Lemma hash_node_value L n : wf L n → is_value n = false → hash n = '(val, w) ← node_value n; Some (hashValue val w).
Proof.
  destruct 1 as [|key c L|ch L]; intros Hv; [done|cbn; by destruct (hash c) as [[]|]|]. rewrite hash_full. cbn [node_value].
  by destruct (hashChildren ch) as [[]|].
Qed.

Lemma node_value_array n val w : node_value n = Some (val, w) → ∃ l, val = rlp_array l.
Proof.
  destruct n as [|key [c|]|[] ch]; cbn; intros E; try done.
  - destruct (hash c) as [[v w']|]; [|done]. injection E as <- <-. eauto.
  - destruct (hashChildren ch) as [[v w']|]; [|done]. injection E as <- <-. eauto.
Qed.

Lemma hashChildren_total ch : (∀ i c, ch !! i = Some (Some c) → is_Some (hash c)) → is_Some (hashChildren ch).
Proof.
  induction ch as [|[c|] ch IH]; intros Hc; [by eexists| |].
  - destruct (Hc 0%nat c eq_refl) as [[v w] E]. destruct IH as [[vals w'] E']; [by intros i; apply (Hc (S i))|].
    cbn. rewrite E. cbn. rewrite E'. by eexists.
  - destruct IH as [[vals w'] E']; [by intros i; apply (Hc (S i))|]. cbn. rewrite E'. by eexists.
Qed.

Lemma hash_total L n : wf L n → is_Some (hash n).
Proof.
  induction 1 as [buf|key c L Hk Hs Hc Hwf [[v w] E]|ch L Hl Htwo Hch IH]; [by eexists|cbn; rewrite E; by eexists|].
  rewrite hash_full. destruct (hashChildren_total ch IH) as [[vals w] ->]. by eexists.
Qed.

(** The puts of the children are puts of the branch. *)
Lemma hashChildren_lookup ch vals w : hashChildren ch = Some (vals, w) →
  length vals = length ch ∧
  (∀ i, ch !! i = Some None → vals !! i = Some rlp_null) ∧
  (∀ i c, ch !! i = Some (Some c) → ∃ v w', hash c = Some (v, w') ∧ vals !! i = Some v ∧ ∀ x, x ∈ w' → x ∈ w) ∧
  (∀ x, x ∈ w → ∃ i c v w', ch !! i = Some (Some c) ∧ hash c = Some (v, w') ∧ x ∈ w').
Proof.
  revert vals w. induction ch as [|o ch IH]; intros vals w E.
  { injection E as <- <-. split_and!; try done. intros x Hx. by apply elem_of_nil in Hx. }
  cbn [hashChildren] in E. destruct o as [c|].
  - destruct (hash c) as [[v wc]|] eqn:Ec; [|done]. cbn in E. destruct (hashChildren ch) as [[vs ws]|]; [|done].
    injection E as <- <-. destruct (IH _ _ eq_refl) as (Hl & Hn & Hs & Hx). split_and!; [cbn; lia|..].
    + intros [|i] Hi; [done|]. by apply Hn.
    + intros [|i] c' Hi; cbn in Hi.
      * injection Hi as <-. exists v, wc. split_and!; [done..|]. intros x ?. apply elem_of_app. by left.
      * destruct (Hs i c' Hi) as (v' & w' & ? & ? & Hin). exists v', w'. split_and!; [done..|].
        intros x ?. apply elem_of_app. right. by apply Hin.
    + intros x [Hx'|Hx']%elem_of_app; [by exists 0%nat, c, v, wc|].
      destruct (Hx x Hx') as (i & c' & v' & w' & ?). by exists (S i), c', v', w'.
  - destruct (hashChildren ch) as [[vs ws]|]; [|done]. injection E as <- <-.
    destruct (IH _ _ eq_refl) as (Hl & Hn & Hs & Hx). split_and!; [cbn; lia|..].
    + intros [|i] Hi; [done|]. by apply Hn.
    + intros [|i] c' Hi; [done|]. by apply (Hs i c').
    + intros x Hx'. destruct (Hx x Hx') as (i & c' & v' & w' & ?). by exists (S i), c', v', w'.
Qed.

End values.

(** ** The representation relation *)

Section rep.
Context `{Keccak, RlpValues, Storage} (s : store).

(** The entry [(k, v)] is in the storage. *)
Definition stored (kv : list Z * list Z) : Prop := st_Get s kv.1 = Returns (Some kv.2).

(** The slots of a branch are its value and its children. A hash stands for
    a node whose encoding, and that of every node below it, is stored. *)
Inductive rep : node → node → Prop :=
  | rep_value buf : rep (ValueNode false buf) (ValueNode false buf)
  | rep_short key c n : rep c n → rep (ShortNode key (Some c)) (ShortNode key (Some n))
  | rep_full value ch value' ch' :
      length ch = length ch' →
      (∀ i, (value :: ch) !! i = Some None ↔ (value' :: ch') !! i = Some None) →
      (∀ i c n, (value :: ch) !! i = Some (Some c) → (value' :: ch') !! i = Some (Some n) → rep c n) →
      rep (FullNode value ch) (FullNode value' ch')
  | rep_hash L h n w :
      wf L n → (L < trieFuel)%nat → is_value n = false → hash n = Some (rlp_bytes h, w) → Forall stored w →
      rep (ValueNode true h) n.

Definition rep_opt : option node → option node → Prop := option_Forall2 rep.

Lemma rep_slots l l' :
  length l = length l' → (∀ i, l !! i = Some None ↔ l' !! i = Some None) →
  (∀ i c n, l !! i = Some (Some c) → l' !! i = Some (Some n) → rep c n) → Forall2 rep_opt l l'.
Proof.
  intros Hl Hn Hs. apply Forall2_same_length_lookup_2; [done|]. intros i o o' Ho Ho'.
  destruct o as [c|], o' as [n|]; [constructor; by eapply Hs|..|constructor].
  - apply Hn in Ho'. congruence.
  - apply Hn in Ho. congruence.
Qed.

Lemma rep_full_iff value ch value' ch' :
  rep (FullNode value ch) (FullNode value' ch') ↔ rep_opt value value' ∧ Forall2 rep_opt ch ch'.
Proof.
  split.
  - inversion 1 as [| |? ? ? ? Hl Hn Hs|]; subst. apply Forall2_cons. apply rep_slots; [cbn; lia|done|done].
  - intros Hv%Forall2_cons. pose proof (Forall2_length _ _ _ Hv) as Hl. cbn in Hl. constructor; [lia|..].
    + intros i. split; intros Hi.
      * destruct (Forall2_lookup_l _ _ _ _ _ Hv Hi) as (o & Ho & Hr). by inversion Hr; subst.
      * destruct (Forall2_lookup_r _ _ _ _ _ Hv Hi) as (o & Ho & Hr). by inversion Hr; subst.
    + intros i c n Hc Hn. pose proof (Forall2_lookup_lr _ _ _ _ _ _ Hv Hc Hn) as Hr. by inversion Hr; subst.
Qed.

Context `{!RlpLaws, !RlpNodes}.

(** ** Reading a node *)

Lemma hash_shape L n : wf L n → is_value n = false →
  ∃ val w, node_value n = Some (val, w) ∧
    (hash n = Some (val, w) ∨ hash n = Some (rlp_bytes (keccak256 (rlp_marshal val)), w ++ [(keccak256 (rlp_marshal val), rlp_marshal val)])).
Proof.
  intros Hwf Hv. pose proof (hash_total L n Hwf) as [[v w] E]. rewrite (hash_node_value L) in E by done.
  rewrite (hash_node_value L) by done. destruct (node_value n) as [[val w']|]; [|done]. exists val, w'. split; [done|].
  cbn. unfold hashValue. destruct (rlp_len val <? 32); auto.
Qed.

(** The value of a child in its parent, read back. *)
Definition reads_as (fuel : nat) (n : node) : Prop :=
  ∀ v w, hash n = Some (v, w) → Forall stored w →
    ∃ c, decodeNode fuel v = Returns c ∧ rep c n ∧ ¬ (rlp_isbytes v = true ∧ rlp_Raw v = []).

Lemma reads_value L n fuel :
  wf L n → is_value n = false → (L < trieFuel)%nat → (0 < fuel)%nat →
  (∀ val w, node_value n = Some (val, w) → Forall stored w →
     ∃ c, decodeNode fuel val = Returns c ∧ rep c n ∧ is_hash c = false) → reads_as fuel n.
Proof.
  intros Hwf Hv HL Hf Hdec v w Hh Hw. destruct (hash_shape L n Hwf Hv) as (val & w' & Hval & [E|E]).
  - rewrite E in Hh. injection Hh as <- <-. destruct (Hdec _ _ Hval Hw) as (c & Hd & Hr & _). exists c.
    split_and!; [done..|]. destruct (node_value_array _ _ _ Hval) as [l ->]. rewrite node_array. by intros [? _].
  - pose proof Hh as Hh'. rewrite E in Hh. injection Hh as <- <-. destruct fuel; [lia|]. cbn [decodeNode]. rewrite node_bytes, node_Raw_bytes.
    eexists. split; [done|]. split; [by eapply rep_hash|]. intros [_ Hr].
    pose proof (proj1 (keccak256_ok (rlp_marshal val))) as Hl. rewrite Hr in Hl. discriminate Hl.
Qed.

Lemma mapResult_reads fuel ch vals :
  length vals = length ch → (∀ i, ch !! i = Some None → vals !! i = Some rlp_null) →
  (∀ i n, ch !! i = Some (Some n) → ∃ v, vals !! i = Some v ∧
     ∃ c, decodeNode fuel v = Returns c ∧ rep c n ∧ ¬ (rlp_isbytes v = true ∧ rlp_Raw v = [])) →
  ∃ cs, mapResult (λ e, if rlp_isbytes e && (zlen (rlp_Raw e) =? 0) then Returns None
              else c ← decodeNode fuel e; Returns (Some c)) vals = Returns cs ∧ Forall2 rep_opt cs ch.
Proof.
  revert vals. induction ch as [|o ch IH]; intros [|v vals] Hl Hn Hs; [by exists []|done..|].
  destruct (IH vals) as (cs & Hcs & Hr); [by injection Hl|by intros i; apply (Hn (S i))|by intros i; apply (Hs (S i))|].
  destruct o as [n|]; cbn [mapResult].
  - destruct (Hs 0%nat n eq_refl) as (v' & [= <-] & c & Hd & Hrep & Hne). exists (Some c :: cs). split.
    + replace (rlp_isbytes v && (zlen (rlp_Raw v) =? 0)) with false; [rewrite Hd; cbn; by rewrite Hcs|].
      symmetry. apply not_true_is_false. intros [? Hz]%andb_true_iff. apply Hne. split; [done|].
      destruct (rlp_Raw v); [done|]. apply Z.eqb_eq in Hz. unfold zlen in Hz. cbn [length] in Hz. lia.
    + constructor; [by constructor|done].
  - specialize (Hn 0%nat eq_refl). injection Hn as ->. exists (None :: cs). split.
    + rewrite node_null, node_Raw_null. cbn. by rewrite Hcs.
    + constructor; [constructor|done].
Qed.

Lemma seg_path L key : seg L key → path key ∧ hasTerminator key = bool_decide (L = 0%nat ∧ key ≠ []).
Proof.
  intros Hs. destruct L as [|L].
  - destruct key as [|x l _] using rev_ind; [split; [by exists [], false|done]|].
    apply seg_app in Hs as [Hl Hx]. apply (seg_nibbles 0) in Hl. apply seg_cons in Hx as [-> _].
    split; [by exists l, true|]. unfold hasTerminator. rewrite last_snoc. symmetry. apply bool_decide_eq_true_2. by destruct l.
  - apply seg_nibbles in Hs. split; [by exists key, false|]. rewrite last_snoc_ne by done.
    symmetry. apply bool_decide_eq_false_2. lia.
Qed.

Lemma decode_rep L n : wf L n → is_value n = false → (L < trieFuel)%nat →
  ∀ fuel val w, (L < fuel)%nat → node_value n = Some (val, w) → Forall stored w →
  ∃ c, decodeNode fuel val = Returns c ∧ rep c n ∧ is_hash c = false.
Proof.
  induction 1 as [buf|key n L Hk Hs Hc Hwf IH|ch L Hl Htwo Hch IH]; [done|..]; intros Hv HL [|fuel] val w Hf Hval Hw; try lia.
  - cbn in Hval. destruct (hash n) as [[v wn]|] eqn:En; [|done]. injection Hval as <- <-.
    destruct (seg_path L key Hs) as [Hp Ht]. cbn [decodeNode].
    rewrite node_array, elems_array. cbn [default from_option id]. rewrite node_bytes, node_Raw_bytes, compact_roundtrip by done.
    cbn [negb or_panic mbind result_bind]. rewrite Ht. destruct L as [|L].
    + apply wf_0 in Hwf as [buf ->]. injection En as <- <-. rewrite bool_decide_eq_true_2 by done.
      rewrite node_bytes, node_Raw_bytes. eexists. split; [done|]. split; [by repeat constructor|done].
    + rewrite bool_decide_eq_false_2 by lia.
      assert (is_value n = false) as Hnv by (by inversion Hwf; subst).
      destruct (reads_value (S L) n fuel Hwf Hnv) with v wn as (c & Hd & Hr & _); try done.
      * lia.
      * destruct key; [done|]. cbn in Hf. lia.
      * intros val' w' Hval' Hw'. apply (IH Hnv) with w'; try done; [lia|]. destruct key; [done|]. cbn in Hf. lia.
      * rewrite Hd. cbn. eexists. split; [done|]. split; [by constructor|done].
  - cbn in Hval. destruct (hashChildren ch) as [[vals wc]|] eqn:Ec; [|done]. injection Hval as <- <-.
    destruct (hashChildren_lookup _ _ _ Ec) as (Hlv & Hnone & Hsome & _).
    cbn [decodeNode]. rewrite node_array, elems_array. cbn [default from_option id].
    assert (length (vals ++ [rlp_null]) = 17%nat) as E17 by (rewrite length_app; cbn; lia).
    destruct (vals ++ [rlp_null]) as [|e0 [|e1 [|e2 es]]] eqn:Ee; [done..|]. rewrite E17, <- Ee. cbn [Nat.eqb].
    rewrite take_app_length' by lia. rewrite last_snoc. cbn [default from_option id].
    destruct (mapResult_reads fuel ch vals) as (cs & -> & Hcs); [done..| |].
    { intros i n Hi. destruct (Hsome i n Hi) as (v & w' & Hh & Hvi & Hsub). exists v. split; [done|].
      assert (is_value n = false) as Hnv by (by pose proof (Hch _ _ Hi) as Hw'; inversion Hw'; subst).
      apply (reads_value (S L) n fuel (Hch _ _ Hi) Hnv) with w'; try done; [lia|lia|..].
      - intros val' w'' Hval' Hw''. apply (IH i n Hi Hnv) with w''; (done || lia).
      - apply Forall_forall. intros x Hx. rewrite Forall_forall in Hw. by apply Hw, Hsub. }
    cbn. rewrite node_null, node_Raw_null. cbn. eexists. split; [done|]. split; [|done].
    apply rep_full_iff. split; [constructor|done].
Qed.

Lemma stored_node L n val w :
  wf L n → is_value n = false → (L < trieFuel)%nat → node_value n = Some (val, w) → Forall stored w →
  stored (keccak256 (rlp_marshal val), rlp_marshal val) →
  ∃ c, storage_GetNode s (keccak256 (rlp_marshal val)) = Returns (Some c) ∧ rep c n ∧ is_hash c = false.
Proof.
  intros Hwf Hv HL Hval Hw Hst. destruct (decode_rep L n Hwf Hv HL trieFuel val w HL Hval Hw) as (c & Hd & Hr & Hh).
  exists c. split_and!; [|done..]. unfold storage_GetNode. unfold stored in Hst. cbn [fst snd] in Hst. rewrite Hst. cbn [mbind result_bind snd].
  rewrite parse_marshal. cbn [or_error mbind result_bind]. destruct (node_value_array _ _ _ Hval) as [l ->].
  rewrite node_array, Hd. done.
Qed.

(** A hash is loaded as a node. *)
Lemma rep_load h n : rep (ValueNode true h) n →
  ∃ c, storage_GetNode s h = Returns (Some c) ∧ rep c n ∧ is_hash c = false.
Proof.
  inversion 1 as [| | |L h' n' w Hwf HL Hv Hh Hw]; subst. destruct (hash_shape L n Hwf Hv) as (val & w' & Hval & [E|E]).
  - rewrite E in Hh. injection Hh as E' _. destruct (node_value_array _ _ _ Hval) as [l ->].
    pose proof (node_array l) as Ha. rewrite E', node_bytes in Ha. done.
  - rewrite E in Hh. injection Hh as E' <-. apply Forall_app in Hw as [Hw Hst]. rewrite Forall_singleton in Hst.
    apply (f_equal rlp_Raw) in E'. rewrite !node_Raw_bytes in E'. subst h. exact (stored_node L n val w' Hwf Hv HL Hval Hw Hst).
Qed.

(** A representation is a hash or has the constructor of the node. *)
Lemma rep_cases c n : rep c n →
  is_hash c = false ∨ ∃ h c', c = ValueNode true h ∧ storage_GetNode s h = Returns (Some c') ∧ rep c' n ∧ is_hash c' = false.
Proof.
  intros Hr. destruct c as [[] h| |]; [right|by left..]. destruct (rep_load h n Hr) as (c' & ? & ? & ?). by exists h, c'.
Qed.

Lemma GetNode_load h c : storage_GetNode s h = Returns (Some c) → @GetNode (nodes_of s) h = Some (Some c).
Proof. intros E. cbn. by rewrite E. Qed.

(** ** Lookup *)

Notation s_lookup := (@lookup (nodes_of s)).
Notation s_insert := (@insert (nodes_of s)).
Notation s_delete := (@delete (nodes_of s)).

Lemma lookup_load fuel h c k r b : storage_GetNode s h = Returns (Some c) →
  s_lookup fuel (Some c) k = Some (b, r) → s_lookup (S fuel) (Some (ValueNode true h)) k = Some (true, r).
Proof. intros Hg Hl. cbn [lookup]. rewrite (GetNode_load h c) by done. by rewrite Hl. Qed.

Definition load_cost (c : node) : nat := if is_hash c then 1 else 0.

Definition looks_up (L : nat) (n c : node) : Prop := ∀ k fuel, key_ok L k → (2 * L + load_cost c < fuel)%nat →
  ∃ r, s_lookup fuel (Some c) k = Some (is_hash c, r) ∧ ∀ v, r = Some v ↔ has n k v.

Lemma lookup_unhash L n : (∀ c, rep c n → is_hash c = false → looks_up L n c) → ∀ c, rep c n → looks_up L n c.
Proof.
  intros Hnh c Hr. destruct (rep_cases _ _ Hr) as [Hh|(h & c' & -> & Hg & Hr' & Hh)]; [by apply Hnh|].
  intros k [|fuel] Hkey Hf; [lia|]. unfold load_cost in Hf. cbn [is_hash] in *.
  destruct (Hnh c' Hr' Hh k fuel Hkey) as (r & Hlk & Hiff); [unfold load_cost; rewrite Hh; lia|].
  exists r. split; [by eapply lookup_load|done].
Qed.

Lemma lookup_rep L n : wf L n → ∀ c, rep c n → looks_up L n c.
Proof.
  intros Hwf. induction Hwf as [buf|key n L Hk Hs Hc Hwf IH|ch L Hl Htwo Hch IH]; apply lookup_unhash;
    intros c Hr Hh k [|fuel] Hkey Hf; try lia; unfold load_cost in Hf; rewrite Hh in *.
  - inversion Hr; subst; [|done]. apply key_ok_0 in Hkey as ->. exists (Some buf). split; [done|]. intros v. split.
    + intros [= ->]. constructor.
    + by inversion 1.
  - inversion Hr as [|? c0 ? Hr0| |]; subst; [|done]. cbn [lookup]. destruct (decide (take (length key) k = key)) as [E|E].
    + rewrite <- (take_drop (length key) k), E in Hkey. rewrite key_ok_app in Hkey. destruct Hkey as [_ Hrest].
      assert (length key ≤ length k)%nat by (rewrite <- E at 1; rewrite length_take; lia).
      destruct (IH c0 Hr0 (drop (length key) k) fuel Hrest) as (r & Hlk & Hiff).
      { unfold load_cost. destruct key; [done|]. cbn in Hf. case_match; lia. }
      exists r. rewrite bool_decide_eq_false_2, bool_decide_eq_true_2 by (done || lia). cbn [negb orb]. rewrite Hlk.
      split; [done|]. intros v. rewrite Hiff. split.
      * intros Hn. rewrite <- (take_drop (length key) k), E. by constructor.
      * inversion 1; subst. by rewrite drop_app_length in *.
    + exists None. rewrite (bool_decide_eq_false_2 _ E), orb_true_r. split; [done|].
      intros v. split; [done|]. inversion 1; subst. by rewrite take_app_length in E.
  - destruct c as [| |value cs]; [by inversion Hr; subst|by inversion Hr|]. apply rep_full_iff in Hr as [Hv Hcs]. inversion Hv; subst.
    destruct k as [|x k]; [by destruct Hkey|]. rewrite key_ok_cons in Hkey. destruct Hkey as [Hx Hk].
    rewrite bool_decide_eq_false_2 in Hx by lia. cbn [lookup]. unfold getEdge, nibble in *. rewrite (proj2 (Z.eqb_neq x 16)) by lia.
    destruct (lookup_lt_is_Some_2 ch (Z.to_nat x)) as [o Ho]; [lia|].
    destruct (Forall2_lookup_r _ _ _ _ _ Hcs Ho) as (o' & Ho' & Hro). rewrite Ho'. inversion Hro as [c n Hcn|]; subst.
    + destruct (IH _ _ Ho c Hcn k fuel Hk) as (r & -> & Hiff); [unfold load_cost; case_match; lia|]. exists r.
      rewrite andb_false_r. split; [done|]. intros v. rewrite Hiff. split.
      * intros Hn. rewrite <- (Z2Nat.id x) by lia. by econstructor.
      * inversion 1; subst. rewrite Nat2Z.id in Ho. by simplify_eq.
    + exists None. destruct fuel; [lia|]. split; [done|]. intros v. split; [done|].
      inversion 1; subst. rewrite Nat2Z.id in Ho. by simplify_eq.
Qed.

(** ** Insertion

    [a_insert] and [a_delete] work on tries in memory. *)

Notation a_insert := (@insert no_storage).
Notation a_delete := (@delete no_storage).

Lemma rep_none16 : Forall2 rep_opt (replicate 16 None) (replicate 16 None).
Proof. apply Forall2_replicate. constructor. Qed.

Lemma insert_none fuel k v o m : a_insert fuel None k v = Some o → (fuel ≤ m)%nat →
  ∃ n, o = Some n ∧ s_insert m None k v = Some (Some n) ∧ rep n n ∧ is_hash n = false.
Proof.
  destruct fuel as [|fuel]; [done|]. destruct m as [|m]; [lia|]. intros E Hm. cbn [insert] in *. destruct k as [|x k].
  - injection E as <-. eexists. split_and!; [done..|constructor|done].
  - destruct fuel as [|fuel]; [done|]. destruct m as [|m]; [lia|]. cbn [insert] in *. injection E as <-.
    eexists. split_and!; [done..|by repeat constructor|done].
Qed.

Lemma getEdge_rep value ch value' ch' k o :
  rep_opt value value' → Forall2 rep_opt ch ch' → getEdge value' ch' k = Some o →
  ∃ c, getEdge value ch k = Some c ∧ rep_opt c o.
Proof.
  intros Hv Hch. unfold getEdge. destruct (k =? 16); [intros [= <-]; by eauto|]. intros Ho.
  by destruct (Forall2_lookup_r _ _ _ _ _ Hch Ho) as (c & ? & ?); eauto.
Qed.

Lemma setEdge_rep value ch value' ch' k c o r :
  rep_opt value value' → Forall2 rep_opt ch ch' → rep_opt c o → setEdge value' ch' k o = Some r →
  ∃ v1 c1 v2 c2, setEdge value ch k c = Some (FullNode v1 c1) ∧ r = FullNode v2 c2 ∧ rep_opt v1 v2 ∧ Forall2 rep_opt c1 c2.
Proof.
  intros Hv Hch Hc. unfold setEdge, zlen. rewrite (Forall2_length _ _ _ Hch). destruct (k =? 16).
  - intros [= <-]. by repeat eexists.
  - destruct (k <? Z.of_nat (length ch')); [|done]. intros [= <-]. repeat eexists; [done|]. by apply Forall2_insert.
Qed.

Definition insert_sim (fuel : nat) (c n : node) : Prop := ∀ k v o m, a_insert fuel (Some n) k v = Some o →
  (2 * fuel + load_cost c ≤ S m)%nat →
  ∃ n' c', o = Some n' ∧ s_insert m (Some c) k v = Some (Some c') ∧ rep c' n' ∧ is_hash c' = false.

Lemma insert_sim_opt fuel c n k v o m : (∀ c n, rep c n → insert_sim fuel c n) → rep_opt c n →
  a_insert fuel n k v = Some o → (2 * fuel ≤ m)%nat →
  ∃ n' c', o = Some n' ∧ s_insert m c k v = Some (Some c') ∧ rep c' n' ∧ is_hash c' = false.
Proof.
  intros IH Hr E Hm. destruct Hr as [c n Hr|].
  - eapply IH; [done..|]. unfold load_cost. case_match; lia.
  - destruct (insert_none fuel k v o m E) as (n & -> & ? & ? & ?); [lia|]. by exists n, n.
Qed.

Lemma insert_full_sim fuel value ch value' ch' k v o m : (∀ c n, rep c n → insert_sim fuel c n) →
  rep_opt value value' → Forall2 rep_opt ch ch' →
  a_insert (S fuel) (Some (FullNode value' ch')) k v = Some o → (2 * fuel ≤ m)%nat →
  ∃ n' c', o = Some n' ∧ s_insert (S m) (Some (FullNode value ch)) k v = Some (Some c') ∧ rep c' n' ∧ is_hash c' = false.
Proof.
  intros IH Hv Hch E Hm. cbn [insert] in *. destruct k as [|x k].
  - destruct (a_insert fuel value' [] v) as [o'|] eqn:E'; [|done]. injection E as <-.
    destruct (insert_sim_opt fuel value value' [] v o' m) as (n' & c' & -> & -> & Hr & _); [done..|].
    eexists _, _. split_and!; [done..| |done]. apply rep_full_iff. split; [by constructor|done].
  - destruct (getEdge value' ch' x) as [o0|] eqn:Eg; [|done].
    destruct (getEdge_rep value ch value' ch' x o0 Hv Hch Eg) as (c0 & -> & Hr0).
    destruct (a_insert fuel o0 k v) as [o'|] eqn:E'; [|done].
    destruct (insert_sim_opt fuel c0 o0 k v o' m) as (n' & c' & -> & -> & Hr & _); [done..|].
    destruct (setEdge value' ch' x (Some n')) as [r|] eqn:Es; [|done]. injection E as <-.
    destruct (setEdge_rep value ch value' ch' x (Some c') (Some n') r) as (v1 & c1 & v2 & c2 & -> & -> & ? & ?); [done..|by constructor|done|].
    eexists _, _. split_and!; [done..| |done]. by apply rep_full_iff.
Qed.

Lemma insert_short_sim fuel key c0 n0 k v o m : (∀ c n, rep c n → insert_sim fuel c n) → rep c0 n0 →
  a_insert (S fuel) (Some (ShortNode key (Some n0))) k v = Some o → (2 * fuel ≤ m)%nat →
  ∃ n' c', o = Some n' ∧ s_insert (S m) (Some (ShortNode key (Some c0))) k v = Some (Some c') ∧ rep c' n' ∧ is_hash c' = false.
Proof.
  intros IH Hr E Hm. cbn [insert] in *. destruct (prefixLen k key =? length key)%nat.
  - destruct (a_insert fuel (Some n0) (drop (prefixLen k key) k) v) as [o'|] eqn:E'; [|done]. injection E as <-.
    destruct (insert_sim_opt fuel (Some c0) (Some n0) (drop (prefixLen k key) k) v o' m) as (n' & c' & -> & -> & Hr' & _); [done|by constructor|done..|].
    eexists _, _. split_and!; [done..|by constructor|done].
  - destruct (key !! prefixLen k key) as [kp|]; [|done].
    set (e := if (prefixLen k key + 1 <? length key)%nat then Some (ShortNode (drop (prefixLen k key + 1) key) (Some c0)) else Some c0).
    destruct (setEdge None (replicate 16 None) kp _) as [b|] eqn:Eb in E; [|done].
    edestruct (setEdge_rep None (replicate 16 None) None (replicate 16 None) kp e) with (4 := Eb)
      as (v1 & c1 & v2 & c2 & -> & -> & Hv & Hch); [constructor|apply rep_none16|unfold e; destruct (_ <? _)%nat; by repeat constructor|].
    destruct (a_insert fuel _ _ v) as [o'|] eqn:E' in E; [|done].
    edestruct (insert_sim_opt fuel (Some (FullNode v1 c1))) with (3 := E')
      as (n' & c' & -> & -> & Hr' & Hh); [done|constructor; by apply rep_full_iff|done|].
    destruct (prefixLen k key =? 0)%nat; injection E as <-; eexists _, _; (split_and!; [done..| |]); try done. by constructor.
Qed.

Lemma insert_rep fuel : ∀ c n, rep c n → insert_sim fuel c n.
Proof.
  induction fuel as [|fuel IH]; intros c n Hr k v o m E Hm; [done|].
  assert (∀ c m, rep c n → is_hash c = false → (2 * fuel < m)%nat →
    ∃ n' c', o = Some n' ∧ s_insert m (Some c) k v = Some (Some c') ∧ rep c' n' ∧ is_hash c' = false) as Hnh.
  { clear c m Hr Hm. intros c [|m] Hr Hh Hm; [lia|]. destruct Hr as [buf|key c n Hr|value ch value' ch' A1 A2 A3|]; [| | |done].
    - cbn [insert] in *. destruct k as [|x k].
      + injection E as <-. eexists _, _. split_and!; [done..|constructor|done].
      + eapply (insert_sim_opt fuel (Some _) (Some _)); [done| |exact E|lia]. constructor. apply rep_full_iff.
        split; [by repeat constructor|apply rep_none16].
    - eapply insert_short_sim; [done..|lia].
    - pose proof (rep_full value ch value' ch' A1 A2 A3) as Hr. apply rep_full_iff in Hr as [? ?].
      eapply insert_full_sim; [done..|lia]. }
  unfold load_cost in Hm. destruct (rep_cases _ _ Hr) as [Hh|(h & c' & -> & Hg & Hr' & Hh)].
  - rewrite Hh in Hm. apply Hnh; (done || lia).
  - cbn [is_hash] in Hm. destruct m as [|m]; [lia|]. cbn [insert]. rewrite (GetNode_load h c') by done. apply Hnh; (done || lia).
Qed.

(** ** Deletion *)

Definition loaded (o : option node) : Prop := match o with Some c => is_hash c = false | None => True end.

(** The result of a deletion on a representation. *)
Definition delete_rep_result (r : option (option node * bool)) (o : option node) (b : bool) : Prop :=
  ∃ co, r = Some (co, b) ∧ (b = true → rep_opt co o ∧ loaded co).

Lemma scan_rep ch ch' i indx : Forall2 rep_opt ch ch' → scanChildren i ch indx = scanChildren i ch' indx.
Proof.
  intros Hch. revert i indx. induction Hch as [|o o' ch ch' Ho _ IH]; intros i indx; [done|].
  destruct Ho; cbn; [|apply IH]. by destruct (negb (indx =? -1)).
Qed.

Lemma rep_child ch ch' i : Forall2 rep_opt ch ch' → rep_opt (default None (ch !! i)) (default None (ch' !! i)).
Proof.
  intros Hch. pose proof (proj1 (Forall2_lookup _ _ _) Hch i) as Hi. destruct Hi; [done|constructor].
Qed.

Lemma rep_is_hash c n : rep c n → is_hash n = false.
Proof. destruct 1 as [| | |L h n w _ _ Hv]; try done. by destruct n. Qed.

Lemma shrink_rep value ch value' ch' o b : rep_opt value value' → Forall2 rep_opt ch ch' →
  @shrink no_storage value' ch' = Some (o, b) → delete_rep_result (@shrink (nodes_of s) value ch) o b.
Proof.
  intros Hv Hch E. unfold shrink in *. rewrite (scan_rep ch ch') by done.
  destruct (scanChildren 0 ch' (-1)) as [indx two].
  assert (bool_decide (is_Some value) = bool_decide (is_Some value')) as ->.
  { apply bool_decide_ext. destruct Hv; split; intros [? [=]]; by eexists. }
  destruct (two || _).
  { injection E as <- <-. eexists. split; [done|]. intros _. split; [|done]. constructor. by apply rep_full_iff. }
  destruct (indx =? -1).
  { destruct Hv as [c n Hr|]; injection E as <- <-; (eexists; split; [done|]); intros _; (split; [|done]); by repeat constructor. }
  pose proof (rep_child ch ch' (Z.to_nat indx) Hch) as Hc. destruct Hc as [c n Hr|].
  2: { injection E as <- <-. by eexists. }
  assert (∃ c', match Some c with
    | Some (ValueNode true buf) => match @GetNode (nodes_of s) buf with None => None | Some None => Some None | Some (Some aux) => Some (Some aux) end
    | _ => Some (Some c) end = Some (Some c') ∧ rep c' n ∧ is_hash c' = false) as (c' & -> & Hr' & Hh').
  { destruct (rep_cases _ _ Hr) as [Hh|(h & c' & -> & Hg & Hr' & Hh)].
    - exists c. destruct c as [[]| |]; done.
    - exists c'. rewrite (GetNode_load h c') by done. done. }
  pose proof (rep_is_hash _ _ Hr) as Hnh. clear Hr.
  destruct Hr' as [buf|key c1 n1 Hr1|v1 ch1 v2 ch2 A1 A2 A3|]; [| | |done]; injection E as <- <-; eexists; (split; [done|]); intros _;
    (split; [|done]); constructor; constructor; first [done|by apply rep_full|by constructor].
Qed.

Definition delete_sim (fuel : nat) (c n : node) : Prop := ∀ k o b m, a_delete fuel (Some n) k = Some (o, b) →
  (2 * fuel + load_cost c ≤ S m)%nat → delete_rep_result (s_delete m (Some c) k) o b.

Lemma delete_sim_opt fuel c n k o b m : (∀ c n, rep c n → delete_sim fuel c n) → rep_opt c n →
  a_delete fuel n k = Some (o, b) → (2 * fuel ≤ m)%nat → delete_rep_result (s_delete m c k) o b.
Proof.
  intros IH Hr E Hm. destruct Hr as [c n Hr|].
  - eapply IH; [done..|]. unfold load_cost. case_match; lia.
  - destruct fuel; [done|]. destruct m; [lia|]. injection E as <- <-. by eexists.
Qed.

Lemma delete_short_sim fuel key c0 n0 k o b m : (∀ c n, rep c n → delete_sim fuel c n) → rep c0 n0 →
  a_delete (S fuel) (Some (ShortNode key (Some n0))) k = Some (o, b) → (2 * fuel ≤ m)%nat →
  delete_rep_result (s_delete (S m) (Some (ShortNode key (Some c0))) k) o b.
Proof.
  intros IH Hr E Hm. cbn [delete] in *.
  destruct (prefixLen k key =? length k)%nat; [injection E as <- <-; eexists; split; [done|]; by repeat constructor|].
  destruct (prefixLen k key =? 0)%nat; [injection E as <- <-; by eexists|].
  destruct (a_delete fuel (Some n0) (drop (prefixLen k key) k)) as [[o' b']|] eqn:E'; [|done].
  destruct (delete_sim_opt fuel (Some c0) (Some n0) (drop (prefixLen k key) k) o' b' m) as (co & -> & Hco); [done|by constructor|done..|].
  destruct b'; [|destruct o' as [[]|]; injection E as <- <-; eexists; (split; [by destruct co as [[]|]|done])].
  destruct (Hco eq_refl) as [Hro Hh]. destruct Hro as [c n Hcn|]; [|injection E as <- <-; eexists; split; [done|]; by repeat constructor].
  cbn in Hh. destruct Hcn as [buf|key1 c1 n1 Hr1|v1 ch1 v2 ch2 A1 A2 A3|]; [| | |done]; injection E as <- <-; eexists; (split; [done|]); intros _;
    (split; [|done]); constructor; constructor; first [done|by apply rep_full|by constructor].
Qed.

Lemma delete_full_sim fuel value ch value' ch' k o b m : (∀ c n, rep c n → delete_sim fuel c n) →
  rep_opt value value' → Forall2 rep_opt ch ch' →
  a_delete (S fuel) (Some (FullNode value' ch')) k = Some (o, b) → (2 * fuel ≤ m)%nat →
  delete_rep_result (s_delete (S m) (Some (FullNode value ch)) k) o b.
Proof.
  intros IH Hv Hch E Hm. cbn [delete] in *. destruct k as [|x k]; [done|].
  destruct (getEdge value' ch' x) as [o0|] eqn:Eg; [|done].
  destruct (getEdge_rep value ch value' ch' x o0 Hv Hch Eg) as (c0 & -> & Hr0).
  destruct (a_delete fuel o0 k) as [[o' b']|] eqn:E'; [|done].
  destruct (delete_sim_opt fuel c0 o0 k o' b' m) as (co & -> & Hco); [done..|].
  destruct b'; [|injection E as <- <-; by eexists]. destruct (Hco eq_refl) as [Hro _].
  destruct (setEdge value' ch' x o') as [r|] eqn:Es; [|done].
  destruct (setEdge_rep value ch value' ch' x co o' r) as (v1 & c1 & v2 & c2 & -> & -> & ? & ?); [done..|].
  by eapply shrink_rep.
Qed.

Lemma delete_rep fuel : ∀ c n, rep c n → delete_sim fuel c n.
Proof.
  induction fuel as [|fuel IH]; intros c n Hr k o b m E Hm; [done|].
  assert (∀ c m, rep c n → is_hash c = false → (2 * fuel < m)%nat → delete_rep_result (s_delete m (Some c) k) o b) as Hnh.
  { clear c m Hr Hm. intros c [|m] Hr Hh Hm; [lia|]. destruct Hr as [buf|key c n Hr|value ch value' ch' A1 A2 A3|]; [| | |done].
    - cbn [delete] in *. destruct k; injection E as <- <-; eexists; (split; [done|]); [|done]. by repeat constructor.
    - eapply delete_short_sim; [done..|lia].
    - pose proof (rep_full value ch value' ch' A1 A2 A3) as Hr. apply rep_full_iff in Hr as [? ?].
      eapply delete_full_sim; [done..|lia]. }
  unfold load_cost in Hm. destruct (rep_cases _ _ Hr) as [Hh|(h & c' & -> & Hg & Hr' & Hh)].
  - rewrite Hh in Hm. apply Hnh; (done || lia).
  - cbn [is_hash] in Hm. destruct m as [|m]; [lia|]. cbn [delete]. rewrite (GetNode_load h c') by done. apply Hnh; (done || lia).
Qed.

(** ** Hashing

    The hasher computes the same value on a representation, and puts every
    node that is not stored yet. *)

Definition hash_sim (c n : node) : Prop := ∀ v w, hash n = Some (v, w) →
  ∃ w', hash c = Some (v, w') ∧ (∀ x, x ∈ w → x ∈ w' ∨ stored x) ∧ (∀ x, x ∈ w' → x ∈ w).

Lemma hashChildren_rep cs ch vals w : Forall2 (option_Forall2 hash_sim) cs ch → hashChildren ch = Some (vals, w) →
  ∃ w', hashChildren cs = Some (vals, w') ∧ (∀ x, x ∈ w → x ∈ w' ∨ stored x) ∧ (∀ x, x ∈ w' → x ∈ w).
Proof.
  intros Hch. revert vals w. induction Hch as [|o o' cs ch Ho _ IH]; intros vals w E.
  { injection E as <- <-. exists []. split_and!; [done|..]; intros x Hx; by apply elem_of_nil in Hx. }
  destruct Ho as [c n Hs|]; cbn [hashChildren] in *.
  - destruct (hash n) as [[v wn]|] eqn:En; [|done]. cbn [mbind option_bind] in E.
    destruct (hashChildren ch) as [[vs ws]|]; [|done]. injection E as <- <-.
    destruct (Hs _ _ En) as (wc & -> & Hin & Hsub). destruct (IH _ _ eq_refl) as (ws' & E' & Hin' & Hsub').
    cbn [mbind option_bind]. rewrite E'. eexists. split; [done|]. split; intros x; rewrite !elem_of_app.
    + intros [Hx|Hx]; [destruct (Hin x Hx)|destruct (Hin' x Hx)]; auto.
    + intros [Hx|Hx]; auto.
  - destruct (hashChildren ch) as [[vs ws]|]; [|done]. injection E as <- <-.
    destruct (IH _ _ eq_refl) as (ws' & E' & Hin' & Hsub'). rewrite E'. by eexists.
Qed.

Lemma hashValue_sim val w w' v wv : (∀ x, x ∈ w → x ∈ w' ∨ stored x) → (∀ x, x ∈ w' → x ∈ w) → hashValue val w = (v, wv) →
  ∃ w2, hashValue val w' = (v, w2) ∧ (∀ x, x ∈ wv → x ∈ w2 ∨ stored x) ∧ (∀ x, x ∈ w2 → x ∈ wv).
Proof.
  intros Hin Hsub. unfold hashValue. destruct (rlp_len val <? 32); intros [= <- <-]; [by eexists|].
  eexists. split; [done|]. split; intros x; rewrite !elem_of_app; [|naive_solver]. intros [Hx|Hx]; [destruct (Hin x Hx)|]; auto.
Qed.

Lemma hash_sim_hash h n : rep (ValueNode true h) n → hash_sim (ValueNode true h) n.
Proof.
  inversion 1 as [| | |L h' n' w' _ _ _ Hh Hw]; subst. intros v w E. rewrite Hh in E. injection E as <- <-. exists [].
  rewrite Forall_forall in Hw. split_and!; [done|by auto|by intros x ?%elem_of_nil].
Qed.

Lemma hash_rep L n : wf L n → ∀ c, rep c n → hash_sim c n.
Proof.
  induction 1 as [buf|key n L Hk Hs Hc Hwf IH|ch L Hl Htwo Hch IH]; intros c Hr;
    (destruct (is_hash c) eqn:Eh; [by destruct c as [[]| |]; try done; apply hash_sim_hash|]); intros v w Hh.
  - inversion Hr; subst; [|done]. exists w. auto.
  - inversion Hr as [|? c0 ? Hr0| |]; subst; [|done]. cbn in Hh |- *. destruct (hash n) as [[vn wn]|] eqn:En; [|done].
    destruct (IH c0 Hr0 _ _ En) as (w' & -> & Hin & Hsub). cbn [mbind option_bind] in *. injection Hh as Hh.
    destruct (hashValue_sim _ _ w' _ _ Hin Hsub Hh) as (w2 & -> & ?). by exists w2.
  - destruct c as [| |value cs]; [by inversion Hr; subst|by inversion Hr|].
    apply rep_full_iff in Hr as [Hv Hcs]. inversion Hv; subst. rewrite hash_full in *.
    destruct (hashChildren ch) as [[vals wn]|] eqn:En; [|done]. cbn [mbind option_bind] in Hh. injection Hh as Hh.
    destruct (hashChildren_rep cs ch vals wn) as (w' & -> & Hin & Hsub); [|done|].
    { apply Forall2_same_length_lookup_2; [by eapply Forall2_length|]. intros i o o' Ho Ho'.
      pose proof (Forall2_lookup_lr _ _ _ _ _ _ Hcs Ho Ho') as Hoo. destruct Hoo; constructor. by eapply IH. }
    cbn [mbind option_bind]. destruct (hashValue_sim _ _ w' _ _ Hin Hsub Hh) as (w2 & -> & ?). by exists w2.
Qed.

(** A trie stands for one trie in memory. *)
Definition stands_for (n : node) : Prop := ∀ c n', rep c n → rep c n' → n' = n.

Lemma rep_fun_load n : (∀ c n', rep c n → rep c n' → is_hash c = false → n' = n) → stands_for n.
Proof.
  intros Hnh c n' Hr Hr'. destruct (is_hash c) eqn:Eh; [|by eapply Hnh]. destruct c as [[] h| |]; [|done..].
  destruct (rep_load _ _ Hr) as (c & Hg & Hc & Hh), (rep_load _ _ Hr') as (c' & Hg' & Hc' & _).
  rewrite Hg in Hg'. injection Hg' as <-. by eapply Hnh.
Qed.

Lemma rep_fun L n : wf L n → stands_for n.
Proof.
  induction 1 as [buf|key n L Hk Hs Hc Hwf IH|ch L Hl Htwo Hch IH]; apply rep_fun_load; intros c n' Hr Hr' Hh.
  - inversion Hr; subst; [|done]. by inversion Hr'.
  - inversion Hr as [|? c0 ? Hr0| |]; subst; [|done]. inversion Hr' as [|? ? n1 Hr1| |]; subst. by rewrite (IH c0 n1 Hr0 Hr1).
  - destruct c as [| |value cs]; [by inversion Hr; subst|by inversion Hr|].
    destruct n' as [| |value' ch']; [by inversion Hr'|by inversion Hr'|].
    apply rep_full_iff in Hr as [Hv Hcs], Hr' as [Hv' Hcs']. inversion Hv; subst. inversion Hv'; subst. f_equal.
    apply list_eq_same_length with (length ch); [|by rewrite <- (Forall2_length _ _ _ Hcs), (Forall2_length _ _ _ Hcs')|].
    { done. }
    intros i o' o Hi Ho' Ho. destruct (Forall2_lookup_r _ _ _ _ _ Hcs Ho) as (c & Hc & Hco).
    pose proof (Forall2_lookup_lr _ _ _ _ _ _ Hcs' Hc Ho') as Hco'.
    destruct Hco as [c n Hcn|]; inversion Hco' as [? n'' Hcn'|]; subst; [|done]. f_equal. by eapply IH.
Qed.

End rep.

(** ** Tries and their roots *)

Section roots.
Context `{Keccak, RlpValues, !RlpLaws, !RlpNodes}.

(** A node is put under the hash of its encoding. *)
Definition put_ok (kv : list Z * list Z) : Prop := kv.1 = keccak256 kv.2.

Lemma hash_puts L n : wf L n → ∀ v w, hash n = Some (v, w) → Forall put_ok w.
Proof.
  induction 1 as [buf|key n L Hk Hs Hc Hwf IH|ch L Hl Htwo Hch IH]; intros v w E.
  - injection E as <- <-. constructor.
  - cbn in E. destruct (hash n) as [[vn wn]|]; [|done]. cbn [mbind option_bind] in E. specialize (IH _ _ eq_refl).
    unfold hashValue in E. case_match; injection E as <- <-; [done|]. apply Forall_app. by split; [|constructor].
  - rewrite hash_full in E. destruct (hashChildren ch) as [[vals wn]|] eqn:En; [|done]. cbn [mbind option_bind] in E.
    assert (Forall put_ok wn) as Hwn.
    { apply Forall_forall. intros x Hx. destruct (hashChildren_lookup _ _ _ En) as (_ & _ & _ & Hin).
      destruct (Hin x Hx) as (i & c & vc & wc & Hi & Hhc & Hxc). pose proof (IH i c Hi _ _ Hhc) as Hw. by rewrite Forall_forall in Hw; apply Hw. }
    unfold hashValue in E. case_match; injection E as <- <-; [done|]. apply Forall_app. by split; [|constructor].
Qed.

Lemma Txn_Hash_spec L n : wf L n → is_value n = false →
  ∃ val w0 w, node_value n = Some (val, w0) ∧ Txn_Hash (Some n) = Some (keccak256 (rlp_marshal val), w) ∧
    w = w0 ++ [(keccak256 (rlp_marshal val), rlp_marshal val)].
Proof.
  intros Hwf Hv. destruct (hash_shape L n Hwf Hv) as (val & w0 & Hval & [E|E]); exists val, w0.
  - eexists. split; [done|]. split; [|reflexivity]. cbn. rewrite E. cbn. destruct (node_value_array _ _ _ Hval) as [l ->].
    by rewrite node_array.
  - eexists. split; [done|]. split; [|reflexivity]. cbn. rewrite E. cbn. rewrite node_bytes, node_len_bytes, node_Raw_bytes.
    pose proof (proj1 (keccak256_ok (rlp_marshal val))) as Hl. unfold zlen. rewrite Hl. cbn. by rewrite take_ge by (by rewrite Hl).
Qed.

Lemma Txn_Hash_puts L n r w : wf L n → is_value n = false → Txn_Hash (Some n) = Some (r, w) → Forall put_ok w.
Proof.
  intros Hwf Hv E. destruct (Txn_Hash_spec L n Hwf Hv) as (val & w0 & w' & Hval & E' & ->). rewrite E' in E. injection E as <- <-.
  destruct (hash_shape L n Hwf Hv) as (val' & w1 & Hval' & [E|E]); rewrite Hval in Hval'; injection Hval' as <- <-;
    pose proof (hash_puts L n Hwf _ _ E) as Hw; [|done]. apply Forall_app. by split; [|constructor].
Qed.

Context `{Storage}.

(** A trie is loaded from its root once its nodes are stored. *)
Lemma root_load s L n r w : wf L n → is_value n = false → (L < trieFuel)%nat →
  Txn_Hash (Some n) = Some (r, w) → Forall (stored s) w →
  ∃ c, storage_GetNode s r = Returns (Some c) ∧ rep s c n ∧ is_hash c = false.
Proof.
  intros Hwf Hv HL E Hw. destruct (Txn_Hash_spec L n Hwf Hv) as (val & w0 & w' & Hval & E' & ->). rewrite E' in E. injection E as <- <-.
  apply Forall_app in Hw as [Hw Hst]. rewrite Forall_singleton in Hst. by eapply stored_node.
Qed.

(** The root of a representation. *)
Lemma Txn_Hash_rep s L c n r w : wf L n → is_value n = false → rep s c n → Txn_Hash (Some n) = Some (r, w) →
  ∃ w', Txn_Hash (Some c) = Some (r, w') ∧ (∀ x, x ∈ w → x ∈ w' ∨ stored s x) ∧ (∀ x, x ∈ w' → x ∈ w).
Proof.
  intros Hwf Hv Hr E. unfold Txn_Hash in *. destruct (hash n) as [[v wn]|] eqn:En; [|done].
  destruct (hash_rep s L n Hwf c Hr v wn En) as (wc & -> & Hin & Hsub). cbn [mbind option_bind] in *.
  assert (∀ kv x, (x ∈ wn ++ [kv] → x ∈ wc ++ [kv] ∨ stored s x) ∧ (x ∈ wc ++ [kv] → x ∈ wn ++ [kv])) as Happ.
  { intros kv x. rewrite !elem_of_app. split; [|naive_solver]. intros [Hx|Hx]; [destruct (Hin x Hx)|]; auto. }
  destruct (rlp_isbytes v); [destruct (negb (rlp_len v =? 32))|]; injection E as <- <-; eexists;
    (split; [done|]); (split; [|]); try done; intros x Hx; by apply Happ.
Qed.

(** Storing more keeps what a trie stands for. *)
Lemma rep_mono s s' c n : (∀ kv, put_ok kv → stored s kv → stored s' kv) → rep s c n → rep s' c n.
Proof.
  intros Hmono. induction 1 as [| |value ch value' ch' Hl Hn _ IH|L h n w Hwf HL Hv Hh Hw]; [by constructor..|].
  eapply rep_hash; [done..|]. pose proof (hash_puts L n Hwf _ _ Hh) as Hp. rewrite Forall_forall in *. intros x Hx. auto.
Qed.

End roots.
