(* ===== verification/TrieStoreProps.v ===== *)
(** * The stored state refines a map of accounts

    A world is a finite map of accounts with their storage. [represents]
    relates a snapshot of the stored state to a world; a commit writes the
    changes of a block to it, every world committed before stays readable,
    and a state opened later at the root of a world reads that world. *)

From Stdlib Require Import String.
From stdpp Require Import gmap.
From S2P Require Import Prelude BigInt Types Rlp BlockTypes Hex Result Radix Txn Trie TrieMap TrieProps Hasher KeyValue KeyValueProps TrieStore TrieStoreRep.
#[local] Open Scope Z_scope.

(** ** Tries of finite maps *)

Section maps.
Context `{Keccak, RlpValues, !RlpLaws, !RlpNodes, Storage}.

Definition keys32 (m : gmap (list Z) (list Z)) : Prop := map_Forall (λ k _, hash_ok k) m.

(** The trie in memory that holds the entries of [m], its root and the nodes
    the hasher puts for it. *)
Definition trie_of (m : gmap (list Z) (list Z)) : trie :=
  default None (run_ops (H := no_storage) 69 None ((λ kv, Put kv.1 kv.2) <$> map_to_list m)).

Definition root_of (m : gmap (list Z) (list Z)) : list Z := default [] (fst <$> Txn_Hash (trie_of m)).
Definition puts_of (m : gmap (list Z) (list Z)) : puts := default [] (snd <$> Txn_Hash (trie_of m)).

Lemma foldl_puts l m :
  foldl map_op m ((λ kv : list Z * list Z, Put kv.1 kv.2) <$> l) = list_to_map (reverse l) ∪ m.
Proof.
  revert m. induction l as [|[k v] l IH]; intros m; [by rewrite reverse_nil, list_to_map_nil, (left_id_L ∅ (∪))|].
  cbn [fmap list_fmap foldl map_op fst snd]. rewrite IH, reverse_cons, list_to_map_app, list_to_map_cons, list_to_map_nil, insert_empty.
  rewrite <- (assoc_L (∪)). by rewrite <- insert_union_singleton_l.
Qed.

Lemma trie_of_refines m : keys32 m → refines 32 (trie_of m) m.
Proof.
  intros Hk. unfold trie_of.
  destruct (run_ops_refines (H := no_storage) 32 69 ((λ kv, Put kv.1 kv.2) <$> map_to_list m) None ∅) as (r & -> & Hr).
  - lia.
  - apply Forall_fmap, Forall_forall. intros [k v] Hin%elem_of_map_to_list. apply Hk in Hin as [? ?]. by split.
  - apply refines_empty.
  - rewrite foldl_puts, (right_id_L ∅ (∪)) in Hr. cbn [default from_option id].
    assert (list_to_map (reverse (map_to_list m)) = m) as E; [|by rewrite E in Hr].
    rewrite <- (list_to_map_to_list m) at 2. symmetry. apply list_to_map_proper; [apply NoDup_fst_map_to_list|].
    symmetry. apply reverse_Permutation.
Qed.

Lemma trie_of_wf m n : keys32 m → trie_of m = Some n → wf 65 n ∧ is_value n = false.
Proof.
  intros Hk E. destruct (trie_of_refines m Hk) as (Hwf & _ & _). rewrite E in Hwf. specialize (Hwf n eq_refl). cbn in Hwf.
  split; [done|]. by inversion Hwf.
Qed.

Lemma trie_of_None m : keys32 m → trie_of m = None ↔ m = ∅.
Proof.
  intros Hk. split; [|by intros ->]. intros E. destruct (trie_of_refines m Hk) as (_ & Hdom & Hiff). rewrite E in Hiff.
  apply map_empty. intros k. apply eq_None_not_Some. intros [v Hv]. destruct (Hdom k v Hv). by apply Hiff in Hv as (? & ? & _).
Qed.

(** The trie [t] stands for [m]. *)
Definition tracks (s : store) (t : trie) (m : gmap (list Z) (list Z)) : Prop := rep_opt s t (trie_of m).

Lemma tracks_empty s : tracks s None ∅.
Proof. constructor. Qed.

Lemma tracks_refines s t n m : keys32 m → rep_opt s t n → refines 32 n m → tracks s t m.
Proof. intros Hk Hr Hn. unfold tracks. by rewrite (refines_unique 32 _ _ _ (trie_of_refines m Hk) Hn). Qed.

Lemma tracks_lookup s t m k : keys32 m → tracks s t m → hash_ok k → @Lookup (nodes_of s) trieFuel t k = Some (m !! k).
Proof.
  intros Hm Ht [Hl Hb]. destruct (trie_of_refines m Hm) as (Hwf & _ & Hiff). unfold Lookup, tracks in *.
  destruct (trie_of m) as [n|] eqn:En; inversion Ht as [c ? Hr|]; subst.
  - destruct (lookup_rep s 65 n (Hwf n eq_refl) c Hr (bytesToHexNibbles k) trieFuel) as (r & -> & Hr').
    + by apply (nibbles_key_ok 32).
    + unfold load_cost, trieFuel. case_match; lia.
    + cbn. f_equal. apply option_eq. intros v. by rewrite Hr', <- has_opt_Some, Hiff.
  - cbn. f_equal. symmetry. apply eq_None_not_Some. intros [v Hv]. by apply Hiff in Hv as (? & ? & _).
Qed.

Lemma keys32_insert m k v : keys32 m → hash_ok k → keys32 (<[k := v]> m).
Proof. intros Hm Hk. by apply map_Forall_insert_2. Qed.

Lemma keys32_delete m k : keys32 m → keys32 (base.delete k m).
Proof. intros Hm. by apply map_Forall_delete. Qed.

Lemma insert_tracks f g s t m k v : (69 ≤ f)%nat → (2 * f ≤ g)%nat → keys32 m → tracks s t m → hash_ok k →
  ∃ t', @Insert (nodes_of s) g t k v = Some t' ∧ tracks s t' (<[k := v]> m).
Proof.
  intros Hf Hg Hm Ht Hk. pose proof Hk as [Hl Hb].
  destruct (Insert_refines (H := no_storage) 32 f ltac:(lia) (trie_of m) m k v) as (r & E & Hr); [by apply trie_of_refines|done..|].
  unfold Insert in *. destruct (@insert no_storage f (trie_of m) (bytesToHexNibbles k) v) as [o|] eqn:Ei; [|done].
  destruct (insert_sim_opt s f t (trie_of m) (bytesToHexNibbles k) v o g) as (n' & c' & -> & -> & Hrep & _);
    [by apply insert_rep|done..|]. injection E as <-. eexists. split; [done|].
  eapply tracks_refines; [by apply keys32_insert| |exact Hr]. by constructor.
Qed.

Lemma delete_tracks f g s t m k : (69 ≤ f)%nat → (2 * f ≤ g)%nat → keys32 m → tracks s t m → hash_ok k →
  ∃ t', @Delete (nodes_of s) g t k = Some t' ∧ tracks s t' (base.delete k m).
Proof.
  intros Hf Hg Hm Ht Hk. pose proof Hk as [Hl Hb].
  destruct (Delete_refines (H := no_storage) 32 f ltac:(lia) (trie_of m) m k) as (r & E & Hr); [by apply trie_of_refines|done..|].
  unfold Delete in *. destruct (@delete no_storage f (trie_of m) (bytesToHexNibbles k)) as [[o b]|] eqn:Ei; [|done].
  destruct (delete_sim_opt s f t (trie_of m) (bytesToHexNibbles k) o b g) as (co & -> & Hco);
    [by apply delete_rep|done..|].
  destruct b; injection E as <-; (eexists; split; [done|]); (eapply tracks_refines; [by apply keys32_delete| |exact Hr]); [|done].
  by apply Hco.
Qed.

Lemma trieFuel_enough : (69 ≤ 69)%nat ∧ (2 * 69 ≤ trieFuel)%nat.
Proof. unfold trieFuel. lia. Qed.

Definition tracks_insert s t m k v := insert_tracks 69 trieFuel s t m k v (proj1 trieFuel_enough) (proj2 trieFuel_enough).
Definition tracks_delete s t m k := delete_tracks 69 trieFuel s t m k (proj1 trieFuel_enough) (proj2 trieFuel_enough).

(** The hasher on a trie that stands for [m]. *)
Lemma tracks_hash s t m : keys32 m → tracks s t m →
  ∃ w, Txn_Hash t = Some (root_of m, w) ∧ (∀ x, x ∈ puts_of m → x ∈ w ∨ stored s x) ∧ (∀ x, x ∈ w → x ∈ puts_of m).
Proof.
  intros Hm Ht. unfold tracks, root_of, puts_of in *. destruct (trie_of m) as [n|] eqn:En; inversion Ht as [c ? Hr|]; subst.
  - destruct (trie_of_wf m n Hm En) as [Hwf Hv]. destruct (Txn_Hash_spec 65 n Hwf Hv) as (val & w0 & w & _ & E & _).
    rewrite E. destruct (Txn_Hash_rep s 65 c n _ w Hwf Hv Hr E) as (w' & E' & ?). exists w'. by split.
  - exists []. split_and!; [done|by intros x ?%elem_of_nil..].
Qed.

Lemma puts_ok m : keys32 m → Forall put_ok (puts_of m).
Proof.
  intros Hm. unfold puts_of. destruct (trie_of m) as [n|] eqn:En; [|constructor]. destruct (trie_of_wf m n Hm En) as [Hwf Hv].
  destruct (Txn_Hash (Some n)) as [[r w]|] eqn:E; [|constructor]. by eapply Txn_Hash_puts.
Qed.

(** The root of a map that is not empty is the key of one of its nodes. *)
Lemma root_put m : keys32 m → m ≠ ∅ → ∃ v, root_of m = keccak256 v ∧ (root_of m, v) ∈ puts_of m.
Proof.
  intros Hm Hne. unfold root_of, puts_of. destruct (trie_of m) as [n|] eqn:En; [|by apply trie_of_None in En].
  destruct (trie_of_wf m n Hm En) as [Hwf Hv]. destruct (Txn_Hash_spec 65 n Hwf Hv) as (val & w0 & w & _ & E & ->).
  rewrite E. cbn. eexists. split; [done|]. apply elem_of_app. right. by left.
Qed.

Lemma root_empty : root_of ∅ = emptyRoot.
Proof. reflexivity. Qed.

(** Loading the trie of a map whose nodes are stored. *)
Lemma tracks_load s m : keys32 m → m ≠ ∅ → Forall (stored s) (puts_of m) →
  ∃ n, storage_GetNode s (root_of m) = Returns (Some n) ∧ tracks s (Some n) m.
Proof.
  intros Hm Hne Hw. unfold root_of, puts_of, tracks in *. destruct (trie_of m) as [n|] eqn:En; [|by apply trie_of_None in En].
  destruct (trie_of_wf m n Hm En) as [Hwf Hv]. destruct (Txn_Hash (Some n)) as [[r w]|] eqn:E.
  - destruct (root_load s 65 n r w Hwf Hv) as (c & Hg & Hr & _); [unfold trieFuel; lia|done..|]. exists c. split; [done|by constructor].
  - destruct (Txn_Hash_spec 65 n Hwf Hv) as (? & ? & ? & _ & E' & _). congruence.
Qed.

(** One trie stands for one map. *)
Lemma trie_of_inj m m' : keys32 m → keys32 m' → trie_of m = trie_of m' → m = m'.
Proof.
  intros Hm Hm' E. destruct (trie_of_refines m Hm) as (_ & Hdom & Hiff), (trie_of_refines m' Hm') as (_ & Hdom' & Hiff').
  rewrite E in Hiff. apply map_eq. intros k. apply option_eq. intros v. split; intros Hv.
  - destruct (Hdom k v Hv). by apply Hiff', Hiff.
  - destruct (Hdom' k v Hv). by apply Hiff, Hiff'.
Qed.

Lemma tracks_fun s t m m' : keys32 m → keys32 m' → tracks s t m → tracks s t m' → m = m'.
Proof.
  intros Hm Hm' Ht Ht'. apply trie_of_inj; [done..|]. unfold tracks in *.
  destruct (trie_of m) as [n|] eqn:En; inversion Ht as [c ? Hr|]; subst; inversion Ht' as [? n' Hr'|]; subst; [|done].
  f_equal. symmetry. destruct (trie_of_wf m n Hm En) as [Hwf _]. by eapply rep_fun.
Qed.

(** Two maps with the same root, both stored, are equal. *)
Lemma root_fun s m m' : keys32 m → keys32 m' → m ≠ ∅ → m' ≠ ∅ →
  Forall (stored s) (puts_of m) → Forall (stored s) (puts_of m') → root_of m = root_of m' → m = m'.
Proof.
  intros Hm Hm' Hne Hne' Hw Hw' E. destruct (tracks_load s m Hm Hne Hw) as (n & Hg & Ht).
  destruct (tracks_load s m' Hm' Hne' Hw') as (n' & Hg' & Ht'). rewrite E, Hg' in Hg. injection Hg as <-. by eapply tracks_fun.
Qed.

Lemma tracks_mono s s' t m : (∀ kv, put_ok kv → stored s kv → stored s' kv) → tracks s t m → tracks s' t m.
Proof. intros Hmono Ht. unfold tracks in *. destruct Ht; constructor. by eapply rep_mono. Qed.

End maps.

(** ** The storages *)

(** What the state relies on: a batch that is written holds its puts, before
    that they may or may not be visible; codes have keys of their own. *)
Class StorageLaws `{Storage} := {
  write_batch s q : st_Get (ba_Write s (st_Batch s)) q = st_Get s q;
  write_put s b k v q : hash_ok k → hash_ok q →
    let '(s', b') := ba_Put s b k v in
    st_Get (ba_Write s' b') q = if bool_decide (q = k) then Returns (Some v) else st_Get (ba_Write s b) q;
  get_put s b k v q : hash_ok k → hash_ok q →
    let '(s', b') := ba_Put s b k v in
    st_Get s' q = st_Get s q ∨ st_Get s' q = st_Get (ba_Write s' b') q;
  get_setcode s h c q : hash_ok h → hash_ok q → st_Get (st_SetCode s h c) q = st_Get s q;
  write_setcode s b h c q : hash_ok h → hash_ok q → st_Get (ba_Write (st_SetCode s h c) b) q = st_Get (ba_Write s b) q;
  clean : batch → Prop;    (** holds nodes only *)
  clean_batch s : clean (st_Batch s);
  clean_put s b k v : hash_ok k → clean b → clean (ba_Put s b k v).2;
  code_put s b k v h : hash_ok k → hash_ok h → st_GetCode (ba_Put s b k v).1 h = st_GetCode s h;
  code_write s b h : clean b → hash_ok h → st_GetCode (ba_Write s b) h = st_GetCode s h;
  code_setcode s h c h' : hash_ok h → hash_ok h' →
    st_GetCode (st_SetCode s h c) h' = if bool_decide (h' = h) then Returns (Some c) else st_GetCode s h';
}.

(** ** Worlds *)

Record world_account := mkWorldAccount {
  waNonce : Z;
  waBalance : Z;
  waCodeHash : Hash;
  waStorage : gmap Hash Hash;
}.

Definition world : Type := gmap Address world_account.

Section worlds.
Context `{Keccak, RlpValues}.

(** The entries of a map, encoded, under the hashes of their keys. *)
Definition hashed {A} (f : A → list Z) (m : gmap (list Z) A) : gmap (list Z) (list Z) :=
  list_to_map ((λ kx, (keccak256 kx.1, f kx.2)) <$> map_to_list m).

Definition slot_enc (v : Hash) : list Z := rlp_marshal (rlp_bytes (TrimLeft0 v)).
Definition storage_map (σ : gmap Hash Hash) : gmap (list Z) (list Z) := hashed slot_enc σ.
Definition storage_root (σ : gmap Hash Hash) : Hash := BytesToHash (root_of (storage_map σ)).

Definition to_account (a : world_account) : Account :=
  mkAccount (waNonce a) (waBalance a) (storage_root (waStorage a)) (waCodeHash a).
Definition account_enc (a : world_account) : list Z := rlp_marshal (Account_MarshalWith (to_account a)).
Definition account_map (W : world) : gmap (list Z) (list Z) := hashed account_enc W.
Definition state_root (W : world) : Hash := BytesToHash (root_of (account_map W)).

(** The objects of a commit change a world. An object names the root of the
    storage its entries change: that of the account before, or none. *)
Definition base_storage (W : world) (obj : Object) : gmap Hash Hash :=
  if bool_decide (cRoot obj = EmptyRootHash) then ∅ else default ∅ (waStorage <$> W !! cAddr obj).

Definition apply_entry (σ : gmap Hash Hash) (e : StorageObject) : gmap Hash Hash :=
  if sDeleted e then base.delete (sKey e) σ else <[sKey e := sVal e]> σ.

Definition object_account (W : world) (obj : Object) : world_account :=
  mkWorldAccount (cNonce obj) (cBalance obj) (cCodeHash obj) (foldl apply_entry (base_storage W obj) (cStorage obj)).

Definition apply_object (W0 W : world) (obj : Object) : world :=
  if cDeleted obj then base.delete (cAddr obj) W else <[cAddr obj := object_account W0 obj]> W.

Definition apply_objects (W : world) (objs : list Object) : world := foldl (apply_object W) W objs.

(** The codes the objects set. *)
Definition apply_code (C : gmap Hash (list Z)) (obj : Object) : gmap Hash (list Z) :=
  if negb (cDeleted obj) && cDirtyCode obj then <[cCodeHash obj := cCode obj]> C else C.

Definition new_codes (objs : list Object) : gmap Hash (list Z) := foldl apply_code ∅ objs.

(** ** Collisions

    [D] holds the byte strings that are hashed: addresses, storage keys and
    encodings of nodes. No two of them have the same hash, and none has the
    hash of the empty trie. *)
Context (D : list Z → Prop).

Definition collision_free : Prop :=
  (∀ x y, D x → D y → keccak256 x = keccak256 y → x = y) ∧ (∀ x, D x → keccak256 x ≠ EmptyRootHash).

(** The nodes of the trie of [m] are among the byte strings hashed. *)
Definition covered (m : gmap (list Z) (list Z)) : Prop := Forall (λ kv, D kv.2) (puts_of m).

Definition slots_ok (σ : gmap Hash Hash) : Prop := map_Forall (λ k v, D k ∧ hash_ok v ∧ v ≠ ZeroHash) σ.

Definition account_ok (a : world_account) : Prop :=
  0 ≤ waNonce a < 2 ^ 64 ∧ 0 ≤ waBalance a ∧ hash_ok (waCodeHash a) ∧ slots_ok (waStorage a).

Definition world_ok (W : world) : Prop := map_Forall (λ a acc, D a ∧ account_ok acc) W.

Definition entry_ok (e : StorageObject) : Prop :=
  D (sKey e) ∧ (sDeleted e = false → hash_ok (sVal e) ∧ sVal e ≠ ZeroHash).

(** An object of a commit on the world [W]. *)
Record object_ok (W : world) (obj : Object) : Prop := {
  ob_addr : D (cAddr obj);
  ob_nonce : 0 ≤ cNonce obj < 2 ^ 64;
  ob_balance : 0 ≤ cBalance obj;
  ob_codehash : hash_ok (cCodeHash obj);
  ob_root : cDeleted obj = false → cRoot obj = storage_root (base_storage W obj);
  ob_entries : Forall entry_ok (cStorage obj);
  ob_covered : cDeleted obj = false → covered (storage_map (waStorage (object_account W obj)));
}.

End worlds.

Section hashed_maps.
Context `{Keccak} (D : list Z → Prop) (Hinj : ∀ x y, D x → D y → keccak256 x = keccak256 y → x = y).
Context {A : Type} (f : A → list Z).
Implicit Types m : gmap (list Z) A.

Definition in_D m : Prop := ∀ k x, m !! k = Some x → D k.

Lemma hashed_Some m h v : in_D m → hashed f m !! h = Some v ↔ ∃ k x, m !! k = Some x ∧ h = keccak256 k ∧ v = f x.
Proof.
  intros Hm. unfold hashed. rewrite <- elem_of_list_to_map.
  - rewrite list_elem_of_fmap. split.
    + intros ([k x] & [= -> ->] & Hk%elem_of_map_to_list). eauto.
    + intros (k & x & Hk & -> & ->). exists (k, x). split; [done|]. by apply elem_of_map_to_list.
  - rewrite <- list_fmap_compose. apply NoDup_fmap_2_strong; [|apply NoDup_map_to_list].
    intros [k x] [k' x'] Hk%elem_of_map_to_list Hk'%elem_of_map_to_list E. cbn in E.
    apply Hinj in E as ->; [|by eapply Hm..]. by simplify_eq.
Qed.

Lemma hashed_lookup m k : in_D m → D k → hashed f m !! keccak256 k = f <$> m !! k.
Proof.
  intros Hm Hk. apply option_eq. intros v. rewrite hashed_Some, fmap_Some by done. split.
  - intros (k' & x & Hx & E & ->). apply Hinj in E as ->; [by eauto|done|by eapply Hm].
  - intros (x & Hx & ->). eauto.
Qed.

Lemma hashed_insert m k x : in_D m → D k → hashed f (<[k := x]> m) = <[keccak256 k := f x]> (hashed f m).
Proof.
  intros Hm Hk. apply map_eq. intros h. apply option_eq. intros v.
  assert (in_D (<[k := x]> m)) as Hm' by (intros k' x' [[<- _]|[_ ?]]%lookup_insert_Some; [done|by eapply Hm]).
  rewrite hashed_Some, lookup_insert_Some, hashed_Some by done. split.
  - intros (k' & x' & [[<- <-]|[Hne Hx]]%lookup_insert_Some & -> & ->); [by left|]. right. split; [|by eauto].
    intros E. apply Hinj in E; [done..|by eapply Hm].
  - intros [[<- <-]|[Hne (k' & x' & Hx & -> & ->)]]; [exists k, x; by rewrite lookup_insert_eq|].
    exists k', x'. split_and!; [|done..]. apply lookup_insert_Some. right. split; [congruence|done].
Qed.

Lemma hashed_delete m k : in_D m → D k → hashed f (base.delete k m) = base.delete (keccak256 k) (hashed f m).
Proof.
  intros Hm Hk. apply map_eq. intros h. apply option_eq. intros v.
  assert (in_D (base.delete k m)) as Hm' by (intros k' x' [_ ?]%lookup_delete_Some; by eapply Hm).
  rewrite hashed_Some, lookup_delete_Some, hashed_Some by done. split.
  - intros (k' & x' & [Hne Hx]%lookup_delete_Some & -> & ->). split; [|by eauto]. intros E. apply Hinj in E; [done..|by eapply Hm].
  - intros [Hne (k' & x' & Hx & -> & ->)]. exists k', x'. split_and!; [|done..]. apply lookup_delete_Some. split; [congruence|done].
Qed.

Lemma hashed_keys m : in_D m → keys32 (hashed f m).
Proof. intros Hm h v (k & x & _ & -> & _)%hashed_Some; [|done]. apply keccak256_ok. Qed.

Lemma hashed_empty m : in_D m → hashed f m = ∅ ↔ m = ∅.
Proof.
  intros Hm. split; [|by intros ->]. intros E. apply map_empty. intros k. apply eq_None_not_Some. intros [x Hx].
  assert (hashed f m !! keccak256 k = Some (f x)) as Hk by (apply hashed_Some; eauto). by rewrite E, lookup_empty in Hk.
Qed.

End hashed_maps.

(** ** The invariant of the state *)

Section state.
Context `{Keccak, RlpValues, !RlpLaws, !RlpNodes, Storage, !StorageLaws, !Lru Hash trie, !LruLaws Hash trie}.
Context (D : list Z → Prop) (Hcf : collision_free D).

(** Entries are nodes under their hashes. *)
Definition store_ok (s : store) : Prop := ∀ q v, hash_ok q → st_Get s q = Returns (Some v) → q = keccak256 v ∧ D v.

(** Every node stored in [s] is stored in [s']. *)
Definition grows (s s' : store) : Prop := ∀ kv, put_ok kv → stored s kv → stored s' kv.

(** A store with a batch that is going to be written, and the cache: a cached
    trie stands for the map whose root is its key. *)
Record inv (s : store) (b : batch) (c : cache Hash trie) : Prop := {
  inv_store : store_ok s;
  inv_view : store_ok (ba_Write s b);
  inv_grows : grows s (ba_Write s b);
  inv_cache r t : (lru_get c r).1 = Some t →
    ∃ m, keys32 m ∧ tracks s t m ∧ Forall (stored (ba_Write s b)) (puts_of m) ∧ r = BytesToHash (root_of m);
}.

Lemma put_hash_ok kv : put_ok kv → hash_ok kv.1.
Proof. intros ->. apply keccak256_ok. Qed.

Lemma grows_refl s : grows s s.
Proof. by intros ?. Qed.

Lemma grows_trans s1 s2 s3 : grows s1 s2 → grows s2 s3 → grows s1 s3.
Proof. intros H1' H2' kv Hkv Hs. auto. Qed.

Lemma grows_puts s s' m : keys32 m → grows s s' → Forall (stored s) (puts_of m) → Forall (stored s') (puts_of m).
Proof. intros Hm Hg Hw. pose proof (puts_ok m Hm) as Hp. rewrite Forall_forall in *. intros x Hx. auto. Qed.

Lemma grows_tracks s s' t m : grows s s' → tracks s t m → tracks s' t m.
Proof. intros Hg. by apply tracks_mono. Qed.

Lemma stored_covered s m : store_ok s → keys32 m → Forall (stored s) (puts_of m) → covered D m.
Proof.
  intros Hs Hm Hw. pose proof (puts_ok m Hm) as Hp. unfold covered. rewrite Forall_forall in *. intros kv Hkv.
  by apply (Hs kv.1 kv.2); [apply put_hash_ok; auto|apply Hw].
Qed.

(** A put of a node. *)
Lemma inv_put s b c kv s' b' : inv s b c → put_ok kv → D kv.2 → ba_Put s b kv.1 kv.2 = (s', b') →
  inv s' b' c ∧ grows s s' ∧ grows (ba_Write s b) (ba_Write s' b') ∧ stored (ba_Write s' b') kv.
Proof.
  intros Hi Hkv HD E. destruct kv as [k v]. cbn [fst snd] in *. pose proof (put_hash_ok _ Hkv) as Hk. cbn in Hk.
  assert (∀ q, hash_ok q → st_Get (ba_Write s' b') q = if bool_decide (q = k) then Returns (Some v) else st_Get (ba_Write s b) q) as Hw.
  { intros q Hq. pose proof (write_put s b k v q Hk Hq) as Hp. by rewrite E in Hp. }
  assert (∀ q, hash_ok q → st_Get s' q = st_Get s q ∨ st_Get s' q = st_Get (ba_Write s' b') q) as Hg.
  { intros q Hq. pose proof (get_put s b k v q Hk Hq) as Hp. by rewrite E in Hp. }
  assert (grows (ba_Write s b) (ba_Write s' b')) as Hgw.
  { intros [k' v'] Hkv' Hst. unfold stored in *. cbn [fst snd] in *. pose proof (put_hash_ok _ Hkv') as Hk'. cbn in Hk'.
    rewrite Hw by done. case_bool_decide as Ek; [|done]. destruct (inv_view _ _ _ Hi k' v' Hk' Hst) as [_ HD'].
    do 2 f_equal. apply Hcf; [done..|]. unfold put_ok in *. cbn in *. congruence. }
  assert (store_ok (ba_Write s' b')) as Hvok.
  { intros q v' Hq Hst. rewrite Hw in Hst by done. case_bool_decide as Eq; [|by eapply inv_view].
    injection Hst as <-. subst q. by split. }
  assert (grows s s') as Hgs.
  { intros [k' v'] Hkv' Hst. unfold stored. cbn [fst snd]. pose proof (put_hash_ok _ Hkv') as Hk'. cbn in Hk'.
    destruct (Hg k' Hk') as [->| ->]; [exact Hst|]. apply (Hgw (k', v') Hkv'). by apply (inv_grows _ _ _ Hi). }
  assert (stored (ba_Write s' b') (k, v)) as Hkvs.
  { unfold stored. cbn [fst snd]. rewrite Hw by done. by rewrite bool_decide_eq_true_2. }
  split; [|done]. split; [|done|..].
  - intros q v' Hq Hst. destruct (Hg q Hq) as [Eq|Eq]; rewrite Eq in Hst; [by eapply inv_store|by apply Hvok].
  - intros [k' v'] Hkv' Hst. pose proof (put_hash_ok _ Hkv') as Hk'. unfold stored in *. cbn [fst snd] in *.
    destruct (Hg k' Hk') as [Eq|Eq]; rewrite Eq in Hst; [|done]. apply (Hgw (k', v') Hkv'). by apply (inv_grows _ _ _ Hi).
  - intros r t Hr. destruct (inv_cache _ _ _ Hi r t Hr) as (m & Hm & Ht & Hp & Er). exists m.
    split_and!; [done|by eapply grows_tracks|by eapply grows_puts|done].
Qed.

Lemma inv_putAll w : ∀ s b c s' b', inv s b c → Forall put_ok w → Forall (λ kv, D kv.2) w → putAll s b w = (s', b') →
  inv s' b' c ∧ grows s s' ∧ grows (ba_Write s b) (ba_Write s' b') ∧ Forall (stored (ba_Write s' b')) w.
Proof.
  induction w as [|[k v] w IH]; intros s b c s' b' Hi Hw HD E.
  { injection E as <- <-. split_and!; [done|apply grows_refl..|constructor]. }
  apply Forall_cons in Hw as [Hk Hw], HD as [Hd HD]. unfold putAll in *. cbn [foldl] in E.
  destruct (ba_Put s b k v) as [s1 b1] eqn:E1.
  destruct (inv_put s b c (k, v) s1 b1 Hi Hk Hd E1) as (Hi1 & G1 & G1' & Hst).
  destruct (IH s1 b1 c s' b' Hi1 Hw HD E) as (Hi2 & G2 & G2' & Hws).
  split_and!; [done|by eapply grows_trans..|]. constructor; [by apply G2'|done].
Qed.

Lemma inv_setcode s b c h code : inv s b c → hash_ok h → 
  inv (st_SetCode s h code) b c ∧ grows s (st_SetCode s h code) ∧ grows (ba_Write s b) (ba_Write (st_SetCode s h code) b).
Proof.
  intros Hi Hh. set (s' := st_SetCode s h code).
  assert (∀ q, hash_ok q → st_Get s' q = st_Get s q) as Hg by (intros q Hq; by apply get_setcode).
  assert (∀ q, hash_ok q → st_Get (ba_Write s' b) q = st_Get (ba_Write s b) q) as Hw by (intros q Hq; by apply write_setcode).
  assert (grows s s') as Hgs.
  { intros kv Hkv Hst. unfold stored in *. by rewrite Hg by by apply put_hash_ok. }
  assert (grows (ba_Write s b) (ba_Write s' b)) as Hgw.
  { intros kv Hkv Hst. unfold stored in *. by rewrite Hw by by apply put_hash_ok. }
  split; [|done]. split.
  - intros q v Hq Hst. rewrite Hg in Hst by done. by eapply inv_store.
  - intros q v Hq Hst. rewrite Hw in Hst by done. by eapply inv_view.
  - intros kv Hkv Hst. apply Hgw; [done|]. apply (inv_grows _ _ _ Hi); [done|]. unfold stored in *.
    by rewrite <- Hg by by apply put_hash_ok.
  - intros r t Hr. destruct (inv_cache _ _ _ Hi r t Hr) as (m & Hm & Ht & Hp & Er). exists m.
    split_and!; [done|by eapply grows_tracks|by eapply grows_puts|done].
Qed.

Lemma inv_add s b c r t m : inv s b c → keys32 m → tracks s t m → Forall (stored (ba_Write s b)) (puts_of m) →
  r = BytesToHash (root_of m) → inv s b (lru_add c r t).
Proof.
  intros Hi Hm Ht Hp Er. split; [apply Hi..|]. intros r' t' Hr. apply lru_add_sound in Hr as [[-> ->]|Hr]; [by eauto|].
  by apply (inv_cache _ _ _ Hi).
Qed.

Lemma inv_get s b c r : inv s b c → inv s b (lru_get c r).2.
Proof. intros Hi. split; [apply Hi..|]. intros r' t' Hr. apply lru_get_sound in Hr. by apply (inv_cache _ _ _ Hi). Qed.

(** Writing the batch. *)
Lemma inv_write s b c : inv s b c → inv (ba_Write s b) (st_Batch (ba_Write s b)) c.
Proof.
  intros Hi. assert (∀ kv, stored (ba_Write (ba_Write s b) (st_Batch (ba_Write s b))) kv ↔ stored (ba_Write s b) kv) as Hw.
  { intros kv. unfold stored. by rewrite write_batch. }
  split.
  - apply Hi.
  - intros q v Hq Hst. rewrite write_batch in Hst. by apply (inv_view _ _ _ Hi).
  - intros kv _. apply Hw.
  - intros r t Hr. destruct (inv_cache _ _ _ Hi r t Hr) as (m & Hm & Ht & Hp & Er). exists m.
    split_and!; [done|eapply grows_tracks; [apply Hi|done]| |done]. eapply Forall_impl; [exact Hp|]. intros kv. apply Hw.
Qed.

(** ** Opening a trie *)

Lemma empty_roots : EmptyRootHash = emptyStateHash ∧ BytesToHash emptyRoot = EmptyRootHash.
Proof. split; vm_compute; reflexivity. Qed.

Lemma root_hash_ok m : keys32 m → length (root_of m) = 32%nat.
Proof.
  intros Hm. destruct (decide (m = ∅)) as [->|Hne]; [by vm_compute|].
  destruct (root_put m Hm Hne) as (v & -> & _). apply keccak256_ok.
Qed.

Lemma BytesToHash_root m : keys32 m → BytesToHash (root_of m) = root_of m.
Proof. intros Hm. apply right_align_id, root_hash_ok, Hm. Qed.

Lemma root_not_empty m : keys32 m → covered D m → BytesToHash (root_of m) = EmptyRootHash ↔ m = ∅.
Proof.
  intros Hm Hc. split.
  - intros E. destruct (decide (m = ∅)) as [|Hne]; [done|exfalso]. rewrite BytesToHash_root in E by done.
    destruct (root_put m Hm Hne) as (v & Er & Hin). unfold covered in Hc. rewrite Forall_forall in Hc.
    apply Hc in Hin. cbn in Hin. destruct Hcf as [_ He]. apply (He v); [done|congruence].
  - intros ->. rewrite root_empty. apply empty_roots.
Qed.

(** The trie of a stored map, from the cache or from the storage. *)
Lemma newTrieAt_spec s b m : inv (sStorage s) b (sCache s) → keys32 m → Forall (stored (sStorage s)) (puts_of m) →
  ∃ t s', newTrieAt s (BytesToHash (root_of m)) = Returns (t, s') ∧ tracks (sStorage s) t m ∧
    sStorage s' = sStorage s ∧ inv (sStorage s) b (sCache s').
Proof.
  intros Hi Hm Hp. destruct s as [st c]. cbn [sStorage sCache] in *. unfold newTrieAt.
  pose proof (stored_covered st m (inv_store _ _ _ Hi) Hm Hp) as Hc. pose proof (root_not_empty m Hm Hc) as He.
  case_bool_decide as Er.
  { apply He in Er as ->. exists None, (mkState st c). split_and!; [done|apply tracks_empty|done..]. }
  assert (m ≠ ∅) as Hne by tauto. cbn [sCache sStorage]. pose proof (inv_get st b c (BytesToHash (root_of m)) Hi) as Hi'.
  pose proof (inv_cache st b c Hi (BytesToHash (root_of m))) as Hcache.
  destruct (lru_get c (BytesToHash (root_of m))) as [[t|] c']; cbn [fst snd] in *.
  - destruct (Hcache t eq_refl) as (m' & Hm' & Ht & Hp' & Er'). exists t, (mkState st c'). split_and!; try done.
    assert (m' ≠ ∅) as Hne' by (intros ->; apply Er; rewrite Er', root_empty; apply empty_roots).
    replace m with m'; [done|]. apply (root_fun (ba_Write st b)); try done.
    + eapply grows_puts; [done|apply Hi|done].
    + by rewrite !BytesToHash_root in Er'.
  - rewrite BytesToHash_root by done. destruct (tracks_load st m Hm Hne Hp) as (n & -> & Ht).
    exists (Some n), (mkState st c'). by split_and!.
Qed.

Lemma Trie_Get_spec s t m k : keys32 m → tracks s t m → hash_ok k → Trie_Get s t k = Returns (m !! k).
Proof. intros Hm Ht Hk. unfold Trie_Get. by rewrite (tracks_lookup s t m k). Qed.

(** ** Reading *)

Lemma storage_keys σ : slots_ok D σ → in_D D σ.
Proof. intros Hσ k v Hk. by apply Hσ in Hk as [? _]. Qed.

Lemma world_keys W : world_ok D W → in_D D W.
Proof. intros HW k v Hk. by apply HW in Hk as [? _]. Qed.

Lemma keys_storage σ : slots_ok D σ → keys32 (storage_map σ).
Proof. intros Hσ. apply (hashed_keys D (proj1 Hcf)). by apply storage_keys. Qed.

Lemma keys_world W : world_ok D W → keys32 (account_map W).
Proof. intros HW. apply (hashed_keys D (proj1 Hcf)). by apply world_keys. Qed.

Lemma TrimLeft0_spec v : v = replicate (length v - length (TrimLeft0 v)) 0 ++ TrimLeft0 v ∧ (length (TrimLeft0 v) ≤ length v)%nat.
Proof.
  induction v as [|x v [IH Hl]]; [done|]. cbn [TrimLeft0]. destruct (Z.eqb_spec x 0) as [->|Hx].
  - cbn [length]. split; [|lia]. replace (S (length v) - length (TrimLeft0 v))%nat with (S (length v - length (TrimLeft0 v))) by lia.
    cbn. by f_equal.
  - rewrite Nat.sub_diag. done.
Qed.

Lemma BytesToHash_Trim v : length v = 32%nat → BytesToHash (TrimLeft0 v) = v.
Proof.
  intros Hv. destruct (TrimLeft0_spec v) as [E Hl]. unfold BytesToHash, right_align, HashLength. rewrite Hv in *.
  rewrite Nat.min_l, Nat.sub_diag by lia. by rewrite drop_0, <- E.
Qed.

Lemma account_roundtrip acc : account_ok D acc → Account_UnmarshalRlp (account_enc acc) = Some (to_account acc).
Proof.
  intros (Hn & Hb & [Hc _] & Hs). unfold Account_UnmarshalRlp, account_enc, Account_MarshalWith.
  rewrite parse_marshal. cbn [mbind option_bind]. rewrite elems_array. cbn [mbind option_bind to_account Nonce Balance Root CodeHash].
  rewrite uint_uint, big_big by done. cbn [mbind option_bind]. rewrite fixed_ok by apply length_right_align. cbn [mbind option_bind].
  rewrite bytes_bytes. done.
Qed.

(** The storage of every account is stored. *)
Definition persisted (s : store) (W : world) : Prop :=
  map_Forall (λ _ acc, Forall (stored s) (puts_of (storage_map (waStorage acc)))) W.

(** The snapshot [t] shows the world [W]. *)
Definition represents (s : store) (t : trie) (W : world) : Prop :=
  world_ok D W ∧ tracks s t (account_map W) ∧ persisted s W.

Lemma GetAccount_spec s t W a : represents (sStorage s) t W → D a →
  Snapshot_GetAccount s t a = Returns (to_account <$> W !! a).
Proof.
  intros (HW & Ht & _) Ha. unfold Snapshot_GetAccount. rewrite (Trie_Get_spec _ t (account_map W)) by
    (done || by apply keys_world || apply keccak256_ok). cbn [mbind result_bind].
  assert (account_map W !! keccak256 a = account_enc <$> W !! a) as -> by (by apply (hashed_lookup D (proj1 Hcf)), Ha; apply world_keys).
  destruct (W !! a) as [acc|] eqn:E; [|done]. cbn [fmap option_fmap option_map]. rewrite account_roundtrip; [done|]. by eapply HW.
Qed.

Lemma GetStorage_spec s b a σ k : inv (sStorage s) b (sCache s) → slots_ok D σ → Forall (stored (sStorage s)) (puts_of (storage_map σ)) → D k →
  ∃ s', Snapshot_GetStorage s a (storage_root σ) k = Returns (default ZeroHash (σ !! k), s') ∧
    sStorage s' = sStorage s ∧ inv (sStorage s) b (sCache s').
Proof.
  intros Hi Hσ Hp Hk. pose proof (keys_storage σ Hσ) as Hm. unfold Snapshot_GetStorage, storage_root.
  assert (∃ t s', (if bool_decide (BytesToHash (root_of (storage_map σ)) = emptyStateHash) then Returns (None, s)
      else newTrieAt s (BytesToHash (root_of (storage_map σ)))) = Returns (t, s') ∧ tracks (sStorage s) t (storage_map σ) ∧
    sStorage s' = sStorage s ∧ inv (sStorage s) b (sCache s')) as (t & s' & -> & Ht & Es & Hi').
  { case_bool_decide as Er; [|by apply newTrieAt_spec]. rewrite <- (proj1 empty_roots) in Er.
    apply root_not_empty in Er; [|done|by eapply stored_covered; [apply Hi|..]]. rewrite Er.
    exists None, s. split_and!; [done|apply tracks_empty|done..]. }
  exists s'. rewrite Es. split; [|done]. rewrite (Trie_Get_spec _ t (storage_map σ)) by (done || apply keccak256_ok).
  cbn [mbind result_bind].
  assert (storage_map σ !! keccak256 k = slot_enc <$> σ !! k) as -> by (by apply (hashed_lookup D (proj1 Hcf)), Hk; apply storage_keys).
  destruct (σ !! k) as [v|] eqn:E; [|done]. cbn [fmap option_fmap option_map default from_option id]. unfold slot_enc.
  rewrite parse_marshal. cbn [mbind option_bind]. rewrite bytes_bytes. apply Hσ in E as (_ & [Hl _] & _).
  by rewrite BytesToHash_Trim.
Qed.

End state.
