(* ===== verification/StateCommit.v ===== *)
(** * Commits of the stored state *)

From Stdlib Require Import String.
From stdpp Require Import gmap.
From S2P Require Import Prelude BigInt Types Rlp BlockTypes Hex Result Radix Txn Trie TrieMap TrieProps Hasher KeyValue KeyValueProps TrieStore TrieStoreRep TrieStoreProps.
#[local] Open Scope Z_scope.
#[local] Opaque Insert Delete Lookup Txn_Hash trie_of puts_of root_of.

Section commit.
Context `{Keccak, RlpValues, !RlpLaws, !RlpNodes, Storage, !StorageLaws, !Lru Hash trie, !LruLaws Hash trie}.
Context (D : list Z → Prop) (Hcf : collision_free D).

(** ** The storage of an account *)

Lemma apply_entry_ok σ e : slots_ok D σ → entry_ok D e → slots_ok D (apply_entry σ e).
Proof.
  intros Hσ [Hk Hv]. unfold apply_entry. destruct (sDeleted e); [by apply map_Forall_delete|].
  apply map_Forall_insert_2; [|done]. by destruct (Hv eq_refl).
Qed.

Lemma commitEntry_spec s t σ e : tracks s t (storage_map σ) → slots_ok D σ → entry_ok D e →
  ∃ t', commitEntry s t e = Some t' ∧ tracks s t' (storage_map (apply_entry σ e)).
Proof.
  intros Ht Hσ [Hk Hv]. pose proof (keys_storage D Hcf σ Hσ) as Hm. unfold commitEntry, apply_entry, storage_map.
  pose proof (storage_keys D σ Hσ) as Hin. destruct (sDeleted e).
  - rewrite (hashed_delete D (proj1 Hcf)) by done. apply tracks_delete; [done..|apply keccak256_ok].
  - rewrite (hashed_insert D (proj1 Hcf)) by done. apply tracks_insert; [done..|apply keccak256_ok].
Qed.

Lemma commitEntries_spec s entries : ∀ t σ, tracks s t (storage_map σ) → slots_ok D σ → Forall (entry_ok D) entries →
  ∃ t', commitEntries s t entries = Some t' ∧ tracks s t' (storage_map (foldl apply_entry σ entries)) ∧
    slots_ok D (foldl apply_entry σ entries).
Proof.
  induction entries as [|e entries IH]; intros t σ Ht Hσ He; [by eexists|]. apply Forall_cons in He as [He Hes].
  destruct (commitEntry_spec s t σ e Ht Hσ He) as (t1 & E1 & Ht1). cbn [commitEntries foldl]. rewrite E1. cbn [mbind option_bind].
  apply IH; [done|by apply apply_entry_ok|done].
Qed.

(** The storages of the accounts of the world before are stored. *)
Definition base_ok (s : store) (σ : gmap Hash Hash) : Prop := slots_ok D σ ∧ Forall (stored s) (puts_of (storage_map σ)).

(** From [(s, b)] to [(s', b')] nothing is lost. *)
Definition extends (s : store) (b : batch) (s' : store) (b' : batch) : Prop := grows s s' ∧ grows (ba_Write s b) (ba_Write s' b').

Lemma extends_refl s b : extends s b s b.
Proof. split; apply grows_refl. Qed.

Lemma extends_trans s1 b1 s2 b2 s3 b3 : extends s1 b1 s2 b2 → extends s2 b2 s3 b3 → extends s1 b1 s3 b3.
Proof. intros [? ?] [? ?]. split; by eapply grows_trans. Qed.

(** No code changes. *)
Definition keeps_code (s : store) (b : batch) (s' : store) (b' : batch) : Prop :=
  (clean b → clean b') ∧ ∀ h, hash_ok h → st_GetCode s' h = st_GetCode s h.

Lemma putAll_code w : ∀ s b s' b', Forall put_ok w → putAll s b w = (s', b') → keeps_code s b s' b'.
Proof.
  induction w as [|[k v] w IH]; intros s b s' b' Hw E; [by injection E as <- <-|].
  apply Forall_cons in Hw as [Hk%put_hash_ok Hw]. unfold putAll in *. cbn [foldl] in E.
  pose proof (clean_put s b k v Hk) as Hc. pose proof (λ h, code_put s b k v h Hk) as Hg.
  destruct (ba_Put s b k v) as [s1 b1]. destruct (IH s1 b1 s' b' Hw E) as [Hc' Hg']. split; [by auto|].
  intros h Hh. by rewrite Hg', Hg.
Qed.

(** Hashing a trie into the batch. *)
Lemma putAll_map s b c t m w s' b' : inv D s b c → keys32 m → covered D m →
  (∀ x, x ∈ puts_of m → x ∈ w ∨ stored s x) → (∀ x, x ∈ w → x ∈ puts_of m) → putAll s b w = (s', b') →
  tracks s t m →
  inv D s' b' c ∧ extends s b s' b' ∧ keeps_code s b s' b' ∧ tracks s' t m ∧ Forall (stored (ba_Write s' b')) (puts_of m).
Proof.
  intros Hi Hm Hc Hin Hsub E Ht. pose proof (puts_ok m Hm) as Hp. unfold covered in Hc. rewrite Forall_forall in Hp, Hc.
  destruct (inv_putAll D Hcf w s b c s' b' Hi) as (Hi' & G & G' & Hw); [apply Forall_forall; by auto..|done|].
  split_and!; [done|done| |by eapply grows_tracks|].
  { eapply putAll_code; [|done]. apply Forall_forall. auto. }
  rewrite Forall_forall in Hw |- *. intros x Hx.
  destruct (Hin x Hx) as [?|Hst]; [by apply Hw|]. apply G'; [by apply Hp|]. apply (inv_grows _ _ _ _ Hi); [by apply Hp|done].
Qed.

Lemma commitStorage_spec s b σ entries : inv D (sStorage s) b (sCache s) → base_ok (sStorage s) σ → Forall (entry_ok D) entries →
  let σ' := foldl apply_entry σ entries in covered D (storage_map σ') →
  ∃ s' b', commitStorage s b (storage_root σ) entries = Some (storage_root σ', s', b') ∧
    inv D (sStorage s') b' (sCache s') ∧ extends (sStorage s) b (sStorage s') b' ∧ keeps_code (sStorage s) b (sStorage s') b' ∧
    Forall (stored (ba_Write (sStorage s') b')) (puts_of (storage_map σ')) ∧ slots_ok D σ'.
Proof.
  intros Hi [Hσ Hp] He σ' Hc. pose proof (keys_storage D Hcf σ Hσ) as Hm.
  destruct (newTrieAt_spec D Hcf s b (storage_map σ) Hi Hm Hp) as (t & s1 & En & Ht & Es & Hi1).
  destruct (commitEntries_spec (sStorage s) entries t σ Ht Hσ He) as (t1 & Ec & Ht1 & Hσ').
  pose proof (keys_storage D Hcf _ Hσ') as Hm'. destruct (tracks_hash _ _ _ Hm' Ht1) as (w & Eh & Hin & Hsub).
  unfold commitStorage, storage_root. rewrite En, Es, Ec. cbn [mbind option_bind]. rewrite Eh. cbn [mbind option_bind].
  destruct (putAll (sStorage s) b w) as [st b'] eqn:Ep.
  destruct (putAll_map (sStorage s) b (sCache s1) t1 _ w st b' Hi1 Hm' Hc Hin Hsub Ep Ht1) as (Hi2 & Hext & Hcode & Ht2 & Hst).
  eexists _, b'. split; [done|]. cbn [AddState sStorage sCache]. split_and!; try done. by eapply inv_add.
Qed.

(** ** One account *)

(** The world [W] in the midst of a commit on the world [W0]. *)
Record committing (W0 W : world) (t : trie) (s : State) (b : batch) : Prop := {
  co_inv : inv D (sStorage s) b (sCache s);
  co_base : map_Forall (λ _ acc, base_ok (sStorage s) (waStorage acc)) W0;
  co_world : world_ok D W;
  co_tracks : tracks (sStorage s) t (account_map W);
  co_view : persisted (ba_Write (sStorage s) b) W;
}.

Lemma committing_extends W0 W t s b s' b' :
  committing W0 W t s b → inv D (sStorage s') b' (sCache s') → extends (sStorage s) b (sStorage s') b' → committing W0 W t s' b'.
Proof.
  intros Hco Hi [G G']. split; [done|..].
  - intros a acc Ha. destruct (co_base _ _ _ _ _ Hco a acc Ha) as [Hσ Hp]. split; [done|].
    eapply grows_puts; [by apply (keys_storage D Hcf)|done..].
  - apply Hco.
  - eapply grows_tracks; [done|apply Hco].
  - intros a acc Ha. pose proof (co_world _ _ _ _ _ Hco a acc Ha) as [_ (_ & _ & _ & Hσ)].
    eapply grows_puts; [by apply (keys_storage D Hcf)|done|by apply (co_view _ _ _ _ _ Hco a)].
Qed.

Lemma base_storage_ok W0 s obj : map_Forall (λ _ acc, base_ok s (waStorage acc)) W0 → base_ok s (base_storage W0 obj).
Proof.
  intros HW. unfold base_storage.
  assert (base_ok s ∅) as Hempty by (split; [apply map_Forall_empty|vm_compute; constructor]).
  case_bool_decide; [done|]. destruct (W0 !! cAddr obj) as [acc|] eqn:E; [|done]. by apply (HW (cAddr obj)).
Qed.

(** The storage of the new account. *)
Lemma object_storage W0 W t s b obj : committing W0 W t s b → object_ok D W0 obj → cDeleted obj = false →
  ∃ s' b', (if negb (length (cStorage obj) =? 0)%nat then commitStorage s b (cRoot obj) (cStorage obj) else Some (cRoot obj, s, b))
      = Some (storage_root (waStorage (object_account W0 obj)), s', b') ∧
    inv D (sStorage s') b' (sCache s') ∧ extends (sStorage s) b (sStorage s') b' ∧ keeps_code (sStorage s) b (sStorage s') b' ∧
    Forall (stored (ba_Write (sStorage s') b')) (puts_of (storage_map (waStorage (object_account W0 obj)))) ∧
    slots_ok D (waStorage (object_account W0 obj)).
Proof.
  intros Hco Hob Hdel. pose proof (base_storage_ok W0 _ obj (co_base _ _ _ _ _ Hco)) as Hbase.
  rewrite (ob_root D W0 obj Hob Hdel). cbn [object_account waStorage]. destruct (cStorage obj) as [|e es] eqn:Ee; cbn [length Nat.eqb negb].
  - exists s, b. destruct Hbase as [Hσ Hp]. split_and!; [done|apply Hco|apply extends_refl|done| |done].
    eapply grows_puts; [by apply (keys_storage D Hcf)|apply Hco|done].
  - rewrite <- Ee. pose proof (ob_covered D W0 obj Hob Hdel) as Hc. cbn [object_account waStorage] in Hc.
    apply commitStorage_spec; [apply Hco|done|apply (ob_entries D W0 obj Hob)|done].
Qed.

Lemma account_enc_object W0 obj :
  rlp_marshal (Account_MarshalWith (mkAccount (cNonce obj) (cBalance obj) (storage_root (waStorage (object_account W0 obj))) (cCodeHash obj)))
  = account_enc (object_account W0 obj).
Proof. reflexivity. Qed.

Lemma account_map_insert W a acc : world_ok D W → D a → account_map (<[a := acc]> W) = <[keccak256 a := account_enc acc]> (account_map W).
Proof. intros HW Ha. apply (hashed_insert D (proj1 Hcf)); [by apply world_keys|done]. Qed.

Lemma account_map_delete W a : world_ok D W → D a → account_map (base.delete a W) = base.delete (keccak256 a) (account_map W).
Proof. intros HW Ha. apply (hashed_delete D (proj1 Hcf)); [by apply world_keys|done]. Qed.

Lemma commit_deleted W0 W t s b obj : committing W0 W t s b → object_ok D W0 obj → cDeleted obj = true →
  ∃ t', commitObject t s b obj = Some (t', s, b) ∧ committing W0 (base.delete (cAddr obj) W) t' s b.
Proof.
  intros Hco Hob Ed. pose proof (ob_addr D W0 obj Hob) as Ha. pose proof (co_world _ _ _ _ _ Hco) as HW.
  pose proof (keys_world D Hcf W HW) as Hm. unfold commitObject. rewrite Ed.
  destruct (tracks_delete _ _ _ (keccak256 (cAddr obj)) Hm (co_tracks _ _ _ _ _ Hco) (keccak256_ok _)) as (t' & -> & Ht').
  exists t'. split; [done|]. split; [apply Hco..| | |].
  - by apply map_Forall_delete.
  - by rewrite account_map_delete.
  - apply map_Forall_delete, Hco.
Qed.

(** Writing the code. *)
Definition code_state (s : State) (obj : Object) : State :=
  if cDirtyCode obj then mkState (st_SetCode (sStorage s) (cCodeHash obj) (cCode obj)) (sCache s) else s.

Lemma commitObject_account t s b obj root s1 b1 : cDeleted obj = false →
  (if negb (length (cStorage obj) =? 0)%nat then commitStorage s b (cRoot obj) (cStorage obj) else Some (cRoot obj, s, b)) = Some (root, s1, b1) →
  commitObject t s b obj =
    match Insert (H := nodes_of (sStorage (code_state s1 obj))) trieFuel t (keccak256 (cAddr obj))
      (rlp_marshal (Account_MarshalWith (mkAccount (cNonce obj) (cBalance obj) root (cCodeHash obj)))) with
    | Some t' => Some (t', code_state s1 obj, b1)
    | None => None
    end.
Proof. intros Ed E1. unfold commitObject. rewrite Ed, E1. reflexivity. Qed.

Lemma commit_code s b obj : inv D (sStorage s) b (sCache s) → hash_ok (cCodeHash obj) →
  inv D (sStorage (code_state s obj)) b (sCache (code_state s obj)) ∧ extends (sStorage s) b (sStorage (code_state s obj)) b ∧
  ∀ h, hash_ok h → st_GetCode (sStorage (code_state s obj)) h =
    if cDirtyCode obj && bool_decide (h = cCodeHash obj) then Returns (Some (cCode obj)) else st_GetCode (sStorage s) h.
Proof.
  intros Hi Hh. unfold code_state. destruct (cDirtyCode obj); [|split_and!; [done|apply extends_refl|done]].
  destruct (inv_setcode D _ b _ (cCodeHash obj) (cCode obj) Hi Hh) as (? & ? & ?).
  split_and!; [done..|]. intros h Hh'. by apply code_setcode.
Qed.

Lemma object_account_ok W0 obj : object_ok D W0 obj → slots_ok D (waStorage (object_account W0 obj)) →
  account_ok D (object_account W0 obj).
Proof.
  intros Hob Hσ. split; [exact (ob_nonce D W0 obj Hob)|]. split; [exact (ob_balance D W0 obj Hob)|].
  split; [exact (ob_codehash D W0 obj Hob)|exact Hσ].
Qed.

(** Writing the account. *)
Lemma commit_account W0 W t s b a acc : committing W0 W t s b → D a → account_ok D acc →
  Forall (stored (ba_Write (sStorage s) b)) (puts_of (storage_map (waStorage acc))) →
  ∃ t', Insert (H := nodes_of (sStorage s)) trieFuel t (keccak256 a) (account_enc acc) = Some t' ∧
    committing W0 (<[a := acc]> W) t' s b.
Proof.
  intros Hco Ha Hacc Hst. pose proof (co_world _ _ _ _ _ Hco) as HW. pose proof (keys_world D Hcf W HW) as Hm.
  destruct (tracks_insert (sStorage s) t _ (keccak256 a) (account_enc acc) Hm (co_tracks _ _ _ _ _ Hco) (keccak256_ok _)) as (t' & Ei & Ht').
  exists t'. split; [exact Ei|]. split; [apply Hco..| | |].
  - by apply map_Forall_insert_2.
  - by rewrite account_map_insert.
  - apply map_Forall_insert_2; [exact Hst|apply Hco].
Qed.

Lemma commitObject_spec W0 W t s b obj : committing W0 W t s b → object_ok D W0 obj →
  ∃ t' s' b', commitObject t s b obj = Some (t', s', b') ∧ committing W0 (apply_object W0 W obj) t' s' b' ∧
    extends (sStorage s) b (sStorage s') b' ∧
    (clean b → clean b') ∧
    ∀ h, hash_ok h → st_GetCode (sStorage s') h =
      match apply_code ∅ obj !! h with Some c => Returns (Some c) | None => st_GetCode (sStorage s) h end.
Proof.
  intros Hco Hob. unfold apply_object, apply_code. destruct (cDeleted obj) eqn:Ed.
  { destruct (commit_deleted W0 W t s b obj Hco Hob Ed) as (t' & E & Hco'). exists t', s, b. split_and!; [done..|apply extends_refl|done|done]. }
  destruct (object_storage W0 W t s b obj Hco Hob Ed) as (s1 & b1 & E1 & Hi1 & Hext1 & [Hclean1 Hcode1] & Hst & Hσ).
  destruct (commit_code s1 b1 obj Hi1 (ob_codehash D W0 obj Hob)) as (Hi2 & Hext2 & Hcode2).
  rewrite (commitObject_account t s b obj _ s1 b1 Ed E1).
  set (s2 := code_state s1 obj) in *.
  pose proof (extends_trans _ _ _ _ _ _ Hext1 Hext2) as Hext.
  destruct (commit_account W0 W t s2 b1 (cAddr obj) (object_account W0 obj)) as (t' & Ei & Hco').
  - by eapply committing_extends.
  - apply (ob_addr D W0 obj Hob).
  - by apply object_account_ok.
  - eapply grows_puts; [by apply (keys_storage D Hcf)|apply Hext2|exact Hst].
  - rewrite account_enc_object, Ei. exists t', s2, b1. split_and!; [done..|]. intros h Hh. rewrite (Hcode2 h Hh), (Hcode1 h Hh).
    cbn [negb andb]. destruct (cDirtyCode obj); [|done]. cbn [andb].
    case_bool_decide as Eh; [by rewrite Eh, (lookup_insert_eq (M := gmap Hash))|by rewrite (lookup_insert_ne (M := gmap Hash))].
Qed.

Lemma apply_codes objs : ∀ (C : gmap Hash (list Z)) h,
  foldl apply_code C objs !! h = match foldl apply_code ∅ objs !! h with Some c => Some c | None => C !! h end.
Proof.
  induction objs as [|obj objs IH]; intros C h; [done|]. cbn [foldl]. rewrite (IH (apply_code C obj)), (IH (apply_code ∅ obj)).
  destruct (foldl apply_code ∅ objs !! h); [done|]. unfold apply_code. case_match; [|done].
  destruct (decide (cCodeHash obj = h)) as [<-|]; [by rewrite !lookup_insert_eq|by rewrite !lookup_insert_ne].
Qed.

Lemma commitObjects_spec W0 objs : ∀ W t s b, committing W0 W t s b → Forall (object_ok D W0) objs →
  ∃ t' s' b', commitObjects t s b objs = Some (t', s', b') ∧ committing W0 (foldl (apply_object W0) W objs) t' s' b' ∧
    extends (sStorage s) b (sStorage s') b' ∧
    (clean b → clean b') ∧
    ∀ h, hash_ok h → st_GetCode (sStorage s') h =
      match new_codes objs !! h with Some c => Returns (Some c) | None => st_GetCode (sStorage s) h end.
Proof.
  induction objs as [|obj objs IH]; intros W t s b Hco Hobs.
  { exists t, s, b. split_and!; [done..|apply extends_refl|done|done]. }
  apply Forall_cons in Hobs as [Hob Hobs]. destruct (commitObject_spec W0 W t s b obj Hco Hob) as (t1 & s1 & b1 & E1 & Hco1 & Hext1 & Hcl1 & Hc1).
  cbn [commitObjects foldl]. rewrite E1. cbn [mbind option_bind].
  destruct (IH _ t1 s1 b1 Hco1 Hobs) as (t2 & s2 & b2 & E2 & Hco2 & Hext2 & Hcl2 & Hc2). exists t2, s2, b2. split_and!; [done..| | |].
  - by eapply extends_trans.
  - auto.
  - intros h Hh. rewrite (Hc2 h Hh). unfold new_codes. cbn [foldl]. rewrite (apply_codes objs (apply_code ∅ obj)).
    destruct (foldl apply_code ∅ objs !! h); [done|]. by rewrite (Hc1 h Hh).
Qed.

(** ** A commit *)

(** The world [W] is in the storage: the nodes of its tries are entries. *)
Definition saved (s : store) (W : world) : Prop :=
  world_ok D W ∧ Forall (stored s) (puts_of (account_map W)) ∧ persisted s W.

Definition state_ok (s : State) : Prop := inv D (sStorage s) (st_Batch (sStorage s)) (sCache s).

Lemma saved_grows s s' W : grows s s' → saved s W → saved s' W.
Proof.
  intros Hg (HW & Hp & Hs). split; [done|]. split; [eapply grows_puts; [by apply (keys_world D Hcf)|done..]|].
  intros a acc Ha. destruct (HW a acc Ha) as [_ (_ & _ & _ & Hσ)].
  eapply grows_puts; [by apply (keys_storage D Hcf)|done|by eapply Hs].
Qed.

Lemma represents_grows s s' t W : grows s s' → represents D s t W → represents D s' t W.
Proof.
  intros Hg (HW & Ht & Hs). split; [done|]. split; [by eapply grows_tracks|].
  intros a acc Ha. destruct (HW a acc Ha) as [_ (_ & _ & _ & Hσ)].
  eapply grows_puts; [by apply (keys_storage D Hcf)|done|by eapply Hs].
Qed.

Lemma begin_commit W t s : state_ok s → represents D (sStorage s) t W →
  committing W W t s (st_Batch (sStorage s)).
Proof.
  intros Hi (HW & Ht & Hs). split; try done.
  - intros a acc Ha. destruct (HW a acc Ha) as [_ (_ & _ & _ & Hσ)]. split; [done|by eapply Hs].
  - intros a acc Ha. eapply Forall_impl; [by eapply Hs|]. intros kv. unfold stored. by rewrite write_batch.
Qed.

Lemma Snapshot_Commit_spec s t W objs : state_ok s → represents D (sStorage s) t W → Forall (object_ok D W) objs →
  let W' := apply_objects W objs in covered D (account_map W') →
  ∃ t' s', Snapshot_Commit s t objs = Some (t', root_of (account_map W'), s') ∧ state_ok s' ∧
    represents D (sStorage s') t' W' ∧ saved (sStorage s') W' ∧ grows (sStorage s) (sStorage s') ∧
    ∀ h, hash_ok h → st_GetCode (sStorage s') h =
      match new_codes objs !! h with Some c => Returns (Some c) | None => st_GetCode (sStorage s) h end.
Proof.
  intros Hi Hr Hobs W' Hc. pose proof (begin_commit W t s Hi Hr) as Hco.
  destruct (commitObjects_spec W objs W t s _ Hco Hobs) as (t1 & s1 & b1 & E1 & Hco1 & Hext1 & Hclean1 & Hcode1).
  pose proof (co_world _ _ _ _ _ Hco1) as HW'. fold (apply_objects W objs) in HW'. pose proof (keys_world D Hcf _ HW') as Hm.
  destruct (tracks_hash _ _ _ Hm (co_tracks _ _ _ _ _ Hco1)) as (w & Eh & Hin & Hsub).
  unfold Snapshot_Commit. rewrite E1. cbn [mbind option_bind]. rewrite Eh. cbn [mbind option_bind].
  destruct (putAll (sStorage s1) b1 w) as [st b2] eqn:Ep.
  destruct (putAll_map (sStorage s1) b1 (sCache s1) t1 _ w st b2 (co_inv _ _ _ _ _ Hco1) Hm Hc Hin Hsub Ep (co_tracks _ _ _ _ _ Hco1))
    as (Hi2 & Hext2 & [Hclean2 Hcode2] & Ht2 & Hst).
  assert (committing W W' t1 (mkState st (sCache s1)) b2) as Hco2 by (by eapply committing_extends).
  eexists t1, _. split; [reflexivity|]. cbn [AddState sStorage sCache].
  assert (saved (ba_Write st b2) W') as Hsaved by (split; [done|split; [done|apply Hco2]]).
  assert (tracks (ba_Write st b2) t1 (account_map W')) as Ht by (eapply grows_tracks; [apply Hi2|done]).
  split_and!; [|split; [done|split; [done|apply Hco2]]|done| |].
  - eapply inv_add; [by apply inv_write|done|done| |done]. eapply Forall_impl; [exact Hst|]. intros kv. unfold stored. by rewrite write_batch.
  - eapply grows_trans; [apply (inv_grows _ _ _ _ Hi)|]. eapply grows_trans; [apply Hext1|apply Hext2].
  - intros h Hh. rewrite code_write, (Hcode2 h Hh), (Hcode1 h Hh); [done| |done]. apply Hclean2, Hclean1, clean_batch.
Qed.

End commit.

(** ** The storages have the laws *)

#[export] Instance memoryStorage_laws : StorageLaws (H := memoryStorage).
Proof.
  assert (∀ (m : gmap (list Z) (list Z)) k v q, bytes_ok k → bytes_ok q →
    (Returns (<[EncodeToHex k := v]> m !! EncodeToHex q) : result unit _) =
    if bool_decide (q = k) then Returns (Some v) else Returns (m !! EncodeToHex q)) as Hins.
  { intros m k v q Hk Hq. case_bool_decide as E; [by rewrite E, lookup_insert_eq|]. rewrite lookup_insert_ne; [done|].
    intros E'. by apply E, EncodeToHex_inj. }
  unshelve refine {| clean := λ _, True |}; cbn; try done.
  - intros [db code] _ k v q [_ Hk] [_ Hq]. by apply Hins.
  - intros [db code] _ k v q _ _. by right.
  - intros [db code] h c h' [_ Hh] [_ Hh']. by apply Hins.
Defined.

(** What the state relies on of goleveldb: writes succeed, since their errors
    are dropped, and a batch is written in its order. *)
Definition batch_get (b : list (list Z * list Z)) (q : list Z) : option (list Z) :=
  (list_to_map (reverse b) : gmap (list Z) (list Z)) !! q.

Class LevelDBBatchLaws `{LevelDBBatch, !LevelDBLaws} : Prop := {
  ldb_put_ok l p v : ∃ l', ldb_Put l p v = Returns l';
  ldb_write_ok l b : ∃ l', ldb_Write l b = Returns l' ∧
    ∀ q, ldb_Get l' q = match batch_get b q with Some v => Returns v | None => ldb_Get l q end;
}.

Lemma batch_get_snoc b k v q : batch_get (b ++ [(k, v)]) q = if bool_decide (q = k) then Some v else batch_get b q.
Proof.
  unfold batch_get. rewrite reverse_snoc. cbn [list_to_map foldr curry]. case_bool_decide as E.
  - subst q. apply (lookup_insert_eq (M := gmap (list Z))).
  - by apply (lookup_insert_ne (M := gmap (list Z))).
Qed.

Section leveldb.
Context `{LevelDBBatchLaws}.

Lemma kv_get_Put db k v q : kv_get (kv_Put db k v) q = if bool_decide (q = k) then Returns (Some v) else kv_get db q.
Proof.
  unfold kv_Put, kv_get. destruct (ldb_put_ok db k v) as [db' E]. rewrite E, (ldb_get_put _ _ _ _ q E). by case_bool_decide.
Qed.

Lemma kv_get_Write db b q : kv_get (kv_Write db b) q = match batch_get b q with Some v => Returns (Some v) | None => kv_get db q end.
Proof.
  unfold kv_Write, kv_get. destruct (ldb_write_ok db b) as (db' & -> & Hg). rewrite Hg. by destruct (batch_get b q).
Qed.

(** The key of a code is no hash. *)
Lemma code_key h q : length h = 32%nat → length q = 32%nat → codePrefix ++ h ≠ q.
Proof. intros Hh Hq <-. rewrite length_app, Hh in Hq. discriminate Hq. Qed.

(** A batch of nodes. *)
Definition node_batch (b : list (list Z * list Z)) : Prop := Forall (λ kv, hash_ok kv.1) b.

#[export] Instance levelDBStorage_laws : StorageLaws (H := levelDBStorage).
Proof.
  unshelve refine {| clean := (node_batch : @batch levelDBStorage → Prop) |}; cbn [st_Get st_Batch st_SetCode st_GetCode ba_Put ba_Write levelDBStorage fst snd]; unfold node_batch.
  - intros db q. by rewrite kv_get_Write.
  - intros db b k v q _ _. rewrite !kv_get_Write, batch_get_snoc. by case_bool_decide.
  - intros db b k v q _ _. by left.
  - intros db h c q [Hh _] [Hq _]. rewrite kv_get_Put, bool_decide_false; [done|]. intros E. by apply (code_key h q).
  - intros db b h c q [Hh _] [Hq _]. rewrite !kv_get_Write, kv_get_Put, (bool_decide_false (q = _)); [done|]. intros E. by apply (code_key h q).
  - constructor.
  - intros db b k v Hk Hb. apply Forall_app. by split; [|constructor].
  - done.
  - intros db b h Hb [Hh _]. rewrite kv_get_Write. destruct (batch_get b (codePrefix ++ h)) as [v|] eqn:E; [exfalso|done].
    unfold batch_get in E. apply elem_of_list_to_map_2 in E. rewrite elem_of_reverse in E. rewrite Forall_forall in Hb.
    apply Hb in E as [E _]. by apply (code_key h (codePrefix ++ h)).
  - intros db h c h' [Hh _] [Hh' _]. rewrite kv_get_Put. case_bool_decide as E; case_bool_decide as E'; try done; [|congruence].
    exfalso. by eapply E', app_inv_head.
Defined.
End leveldb.

(** ** Claims *)

Section claims.
Context `{Keccak, RlpValues, !RlpLaws, !RlpNodes, Storage, !StorageLaws, !Lru Hash trie, !LruLaws Hash trie}.

(** Reads on the snapshot [t] find the accounts and the storage of [W], at
    the keys of [D]. *)
Definition shows (D : list Z → Prop) (s : State) (t : trie) (W : world) : Prop :=
  ∀ a, D a → Snapshot_GetAccount s t a = Returns (to_account <$> W !! a) ∧
    ∀ acc k, W !! a = Some acc → D k →
      ∃ s', Snapshot_GetStorage s a (Root (to_account acc)) k = Returns (default ZeroHash (waStorage acc !! k), s').

Lemma represents_shows D s b t W : collision_free D → inv D (sStorage s) b (sCache s) → represents D (sStorage s) t W → shows D s t W.
Proof.
  intros Hcf Hi Hr a Ha. split; [by apply (GetAccount_spec D Hcf)|]. intros acc k Hacc Hk. destruct Hr as (HW & _ & Hs).
  destruct (HW a acc Hacc) as [_ (_ & _ & _ & Hσ)].
  destruct (GetStorage_spec D Hcf s b a (waStorage acc) k Hi Hσ (Hs a acc Hacc) Hk) as (s' & E & _). by exists s'.
Qed.

Lemma inv_restart D s b c : inv D s b c → inv D s b lru_new.
Proof. intros Hi. split; [apply Hi..|]. intros r t Hr. by rewrite lru_new_get in Hr. Qed.

(** A saved world is opened at its root. *)
Lemma saved_opens D s b W : collision_free D → inv D (sStorage s) b (sCache s) → saved D (sStorage s) W →
  ∃ t s', NewSnapshotAt s (state_root W) = Returns (t, s') ∧ shows D s' t W.
Proof.
  intros Hcf Hi (HW & Hp & Hs).
  destruct (newTrieAt_spec D Hcf s b (account_map W) Hi (keys_world D Hcf W HW) Hp) as (t & s' & E & Ht & Es & Hi').
  exists t, s'. split; [done|]. eapply represents_shows; [done|by rewrite Es|]. rewrite Es. by split.
Qed.

End claims.

(** C14. Committing the accounts of a block to the state database. On a
    snapshot that shows a world, [Commit] succeeds and returns the root of
    the changed world; the new snapshot shows it, and every snapshot before
    still shows what it showed. The codes are those set. Everything is in the
    storage: also with an empty cache, as after a restart, the state opened
    at the root of the new world, or of any world saved before, shows that
    world. The storage may be LevelDB or memory, the cache may evict at will;
    of Keccak only that the strings hashed do not collide is assumed. *)
Theorem state_commit `{Keccak, RlpValues, !RlpLaws, !RlpNodes, Storage, !StorageLaws, !Lru Hash trie, !LruLaws Hash trie}
    (D : list Z → Prop) (s : State) (t : trie) (W : world) (objs : list Object) :
  collision_free D → state_ok D s → represents D (sStorage s) t W → Forall (object_ok D W) objs →
  let W' := apply_objects W objs in covered D (account_map W') →
  ∃ t' root s', Snapshot_Commit s t objs = Some (t', root, s') ∧ BytesToHash root = state_root W' ∧
    state_ok D s' ∧ represents D (sStorage s') t' W' ∧ shows D s' t' W' ∧
    (∀ t0 V, represents D (sStorage s) t0 V → represents D (sStorage s') t0 V ∧ shows D s' t0 V) ∧
    (∀ h, hash_ok h → st_GetCode (sStorage s') h =
       match new_codes objs !! h with Some c => Returns (Some c) | None => st_GetCode (sStorage s) h end) ∧
    (∀ V, V = W' ∨ saved D (sStorage s) V → saved D (sStorage s') V ∧
       ∃ t1 s1, NewSnapshotAt (mkState (sStorage s') lru_new) (state_root V) = Returns (t1, s1) ∧ shows D s1 t1 V).
Proof.
  intros Hcf Hi Hr Hobs W' Hc. destruct (Snapshot_Commit_spec D Hcf s t W objs Hi Hr Hobs Hc) as (t' & s' & E & Hi' & Hr' & Hs' & Hg & Hcode).
  exists t', (root_of (account_map W')), s'. split_and!; try done.
  - by eapply represents_shows.
  - intros t0 V HV. apply (represents_grows D Hcf _ _ _ _ Hg) in HV. split; [done|]. by eapply represents_shows.
  - intros V HV. assert (saved D (sStorage s') V) as HsV by (destruct HV as [->|HV]; [done|by eapply saved_grows]).
    split; [done|]. by eapply (saved_opens D (mkState (sStorage s') lru_new)), HsV; [|apply inv_restart in Hi'].
Qed.

(** An account with a code and a slot, committed to an empty state in
    memory; the digest of a string is its last 32 bytes. *)
Module CommitExample.
#[local] Existing Instances tree_fastrlp tree_rlp tree_rlp_laws memoryStorage.

#[export] Instance suffix_keccak : Keccak.
Proof.
  refine {| keccak256 b := be_encode 32 (be_decode b) |}. intros b. split; [apply length_be_encode|apply be_encode_ok].
Defined.

#[export] Instance tree_values : RlpValues := {|
  rlp_isbytes t := match t with Leaf _ => true | Node _ => false end;
  rlp_len t := match t with Leaf b => zlen b | Node l => zlen (print_tree t) end;
  rlp_Raw t := match t with Leaf b => b | Node l => print_tree t end;
|}.

#[export] Instance tree_nodes : RlpNodes.
Proof. by split. Qed.

Definition addr : Address := BytesToAddress [7].
Definition slot : Hash := BytesToHash [1].
Definition object : Object :=
  mkCommitted addr (BytesToHash [9]) 100 EmptyRootHash 1 false true [0x60] [mkStorageObject false slot (BytesToHash [5])].
Definition after : world := apply_objects ∅ [object].

Definition strings : list (list Z) :=
  [addr; slot] ++ (snd <$> puts_of (storage_map {[ slot := BytesToHash [5] ]})) ++ (snd <$> puts_of (account_map after)).
Definition hashed_strings (x : list Z) : Prop := x ∈ strings.

Definition start : State := mkState (mkMem ∅ ∅) lru_new.

Lemma start_ok : state_ok hashed_strings start.
Proof. split; try (intros q v _ E; discriminate E). - intros kv _ E. exact E. - intros r t E. discriminate E. Qed.

Lemma strings_free : collision_free hashed_strings.
Proof.
  assert (Forall (λ x, Forall (λ y, keccak256 x = keccak256 y → x = y) strings ∧ keccak256 x ≠ EmptyRootHash) strings) as Hall.
  { apply (bool_decide_unpack _). vm_compute. exact I. }
  rewrite Forall_forall in Hall. split.
  - intros x y Hx Hy. destruct (Hall x Hx) as [Hx' _]. rewrite Forall_forall in Hx'. by apply Hx'.
  - intros x Hx. by apply Hall.
Qed.

Lemma start_shows : represents hashed_strings (sStorage start) None ∅.
Proof. split; [apply map_Forall_empty|]. split; [constructor|apply map_Forall_empty]. Qed.

Lemma covered_strings m : bool_decide (Forall (λ kv, kv.2 ∈ strings) (puts_of m)) = true → covered hashed_strings m.
Proof. intros E. by apply bool_decide_eq_true in E. Qed.

Lemma object_fits : object_ok hashed_strings ∅ object.
Proof.
  split.
  - by left.
  - cbn; lia.
  - cbn; lia.
  - apply (bool_decide_unpack _). vm_compute. exact I.
  - intros _. vm_compute. reflexivity.
  - constructor; [|constructor]. split; [by right; left|]. intros _. split; apply (bool_decide_unpack _); vm_compute; exact I.
  - intros _. apply covered_strings. vm_compute. reflexivity.
Qed.
End CommitExample.
Import CommitExample.
#[local] Existing Instances tree_fastrlp tree_rlp tree_rlp_laws memoryStorage.

Lemma state_commit_witness : ∃ (t : trie) (root : list Z) (s : @State memoryStorage list_lru),
  Snapshot_Commit start None [object] = Some (t, root, s) ∧
  Snapshot_GetAccount s t addr = Returns (to_account <$> after !! addr).
Proof.
  destruct (state_commit hashed_strings start None ∅ [object])
    as (t & root & s & E & _ & _ & _ & Hsh & _).
  - exact strings_free.
  - exact start_ok.
  - exact start_shows.
  - constructor; [exact object_fits|constructor].
  - apply covered_strings. vm_compute. reflexivity.
  - exists t, root, s. split; [exact E|]. apply Hsh. unfold hashed_strings. by left.
Defined.
