(* ===== verification/JsonRpc.v ===== *)
(** * Requests and answers of the JSON-RPC server (package jsonrpc)

    The text forms of numbers and bytes, block numbers and log queries
    (types.go, codec.go, query.go), the conversion of blocks, transactions
    and receipts to their RPC form (types.go, eth_endpoint.go), the helpers
    that resolve a block and build a transaction from its arguments
    (helper.go), and the methods of the [eth] endpoint that read the chain
    (eth_endpoint.go); EstimateGas.v holds the search for a gas limit and
    FilterManager.v the filters.

    The interface [ethStore] of the endpoint is a class. JSON itself is not
    modelled: a decoded [interface{}] value is [any], an object is the record
    the source unmarshals into. A nil byte slice differs from an empty one
    where the source tests for it, so [argBytes] is an option. *)

From Stdlib Require Import String.
From S2P Require Import Prelude BigInt Chain Types Runtime Rlp BlockTypes Hex Result.
#[local] Open Scope Z_scope.

(** ** Errors *)

Inductive rpcError :=
  (* filter_manager.go *)
  | ErrFilterNotFound | ErrWSFilterDoesNotSupportGetChanges | ErrCastingFilterToLogFilter
  | ErrBlockNotFound | ErrIncorrectBlockRange | ErrBlockRangeTooHigh | ErrNoWSConnection
  (* helper.go *)
  | ErrHeaderNotFound | ErrLatestNotFound | ErrNegativeBlockNumber | ErrFailedFetchGenesis
  | ErrNoDataInContractCreation
  (* eth_endpoint.go, errors.go *)
  | ErrInsufficientFunds | ErrStateNotFound
  (* state: the transaction has less gas than its intrinsic cost *)
  | ErrNotEnoughIntrinsicGas
  (* an error of the virtual machine *)
  | errRuntime (e : error)
  (* [fmt.Errorf] without and with a wrapped error *)
  | errText | errWrap (e : rpcError)
  (* any other error of the store *)
  | errStore.

#[export] Instance rpcError_eq_dec : EqDecision rpcError.
Proof. solve_decision. Defined.

(** [errors.Is(err, target)] for a target that wraps nothing. *)
Fixpoint Is (err target : rpcError) : bool :=
  bool_decide (err = target) || match err with errWrap e => Is e target | _ => false end.

(** ** types.go: numbers and bytes as text *)

Definition argBytes : Type := option (list Z).

Definition decodeToHex (b : list Z) : list Z * bool :=
  let str := TrimPrefix b prefix0x in
  let str := if negb (zlen str mod 2 =? 0) then lit "0" ++ str else str in
  DecodeString str.

Definition encodeToHex (b : list Z) : list Z :=
  let str := EncodeToString b in
  let str := if negb (zlen str mod 2 =? 0) then lit "0" ++ str else str in
  prefix0x ++ str.

(** [b.Text(16)] *)
Definition Text16 (b : Z) : list Z :=
  (if b <? 0 then lit "-" else []) ++ digits (S (Z.to_nat (BitLen b))) 16 (Z.abs b).

(** [None] is an error. *)
Definition argBig_UnmarshalText (input : list Z) : option Z :=
  let '(buf, ok) := decodeToHex input in if ok then Some (SetBytes buf) else None.

Definition argBig_MarshalText (a : Z) : list Z := prefix0x ++ Text16 a.

Definition argUint64_MarshalText (u : Z) : list Z := prefix0x ++ AppendUint 16 u.

Definition argUint64_UnmarshalText (input : list Z) : option Z :=
  let '(num, ok) := ParseUint (TrimPrefix input prefix0x) 16 in if ok then Some num else None.

Definition argBytes_MarshalText (b : argBytes) : list Z := encodeToHex (default [] b).

(** The receiver is left alone when the text is no hex string. *)
Definition argBytes_UnmarshalText (b : argBytes) (input : list Z) : argBytes :=
  let '(hh, ok) := decodeToHex input in if ok then Some hh else b.

(** ** codec.go: block numbers *)

Definition PendingBlockNumber : Z := -3.
Definition LatestBlockNumber : Z := -2.
Definition EarliestBlockNumber : Z := -1.

Record BlockNumberOrHash := mkBlockNumberOrHash {
  bnhBlockNumber : option Z;
  bnhBlockHash : option Hash;
}.

(** [strings.Trim(str, cut)] for a cut set of one byte. *)
Fixpoint TrimLeft (str : list Z) (cut : Z) : list Z :=
  match str with
  | c :: rest => if c =? cut then TrimLeft rest cut else str
  | [] => []
  end.

Definition Trim (str : list Z) (cut : Z) : list Z := reverse (TrimLeft (reverse (TrimLeft str cut)) cut).

(** The double quote. *)
Definition quote : Z := 34.

(** A [BlockNumber] is an [int64]. *)
Definition stringToBlockNumber (str : list Z) : result rpcError Z :=
  if bool_decide (str = []) then Errors errText else
  let str := Trim str quote in
  if bool_decide (str = lit "pending") || bool_decide (str = lit "latest") then Returns LatestBlockNumber else
  if bool_decide (str = lit "earliest") then Returns EarliestBlockNumber else
  let '(n, ok) := ParseUint64orHex (Some str) in
  if ok then Returns (i64 n) else Errors errText.

(** [json.Unmarshal] of the request into the struct, [None] where it fails;
    the text is then read as a number. *)
Definition BlockNumberOrHash_UnmarshalJSON (data : list Z) (placeholder : option BlockNumberOrHash) :
    result rpcError BlockNumberOrHash :=
  bnh ← match placeholder with
        | Some bnh => Returns bnh
        | None => number ← stringToBlockNumber data; Returns (mkBlockNumberOrHash (Some number) None)
        end;
  match bnhBlockNumber bnh, bnhBlockHash bnh with
  | Some _, Some _ | None, None => Errors errText
  | _, _ => Returns bnh
  end.

(** ** query.go *)

Record LogQuery := mkLogQuery {
  qBlockHash : option Hash;
  fromBlock : Z;
  toBlockNumber : Z;
  Addresses : list Address;
  qTopics : list (list Hash);
}.

Definition newLogQuery : LogQuery := mkLogQuery None 0 0 [] [].

(** A decoded [interface{}]. *)
Inductive any :=
  | anyNil
  | anyString (s : list Z)
  | anyArray (l : list any)
  | anyOther.

(** The text of a hash is never refused. *)
Definition addTopicSet (q : LogQuery) (set : list (list Z)) : LogQuery :=
  mkLogQuery (qBlockHash q) (fromBlock q) (toBlockNumber q) (Addresses q) (qTopics q ++ [Hash_UnmarshalText <$> set]).

Definition addAddress (q : LogQuery) (raw : list Z) : result rpcError LogQuery :=
  addr ← or_error errText (Address_UnmarshalText raw);
  Returns (mkLogQuery (qBlockHash q) (fromBlock q) (toBlockNumber q) (Addresses q ++ [addr]) (qTopics q)).

(** The object a query is unmarshalled from. *)
Record logQueryObj := mkLogQueryObj {
  oBlockHash : option Hash;
  oFromBlock : list Z;
  oToBlock : list Z;
  oAddress : any;
  oTopics : list any;
}.

Definition readBlock (str : list Z) : result rpcError Z :=
  if bool_decide (str = []) then Returns LatestBlockNumber else stringToBlockNumber str.

Fixpoint readAddresses (q : LogQuery) (raw : list any) : result rpcError LogQuery :=
  match raw with
  | [] => Returns q
  | anyString item :: raw => q ← addAddress q item; readAddresses q raw
  | _ :: _ => Errors errText
  end.

Fixpoint readStrings (raw : list any) : option (list (list Z)) :=
  match raw with
  | [] => Some []
  | anyString item :: raw => res ← readStrings raw; Some (item :: res)
  | _ :: _ => None
  end.

Fixpoint readTopics (q : LogQuery) (topics : list any) : result rpcError LogQuery :=
  match topics with
  | [] => Returns q
  | anyString raw :: topics => readTopics (addTopicSet q [raw]) topics
  | anyArray raw :: topics => res ← or_error errText (readStrings raw); readTopics (addTopicSet q res) topics
  | anyNil :: topics => readTopics (addTopicSet q []) topics
  | anyOther :: _ => Errors errText
  end.

Definition LogQuery_UnmarshalJSON (q : LogQuery) (obj : logQueryObj) : result rpcError LogQuery :=
  from ← readBlock (oFromBlock obj);
  to ← readBlock (oToBlock obj);
  let q := mkLogQuery (oBlockHash obj) from to (Addresses q) (qTopics q) in
  q ← match oAddress obj with
      | anyNil => Returns q
      | anyString raw => addAddress q raw
      | anyArray raw => readAddresses q raw
      | anyOther => Errors errText
      end;
  readTopics q (oTopics obj).

(** The loop over the topic sets, at position [i]. The number of sets was
    compared with the number of topics before. *)
Fixpoint matchTopics (i : nat) (sets : list (list Hash)) (topics : list Hash) : bool :=
  match sets with
  | [] => true
  | sub :: sets =>
      ((length sub =? 0)%nat || existsb (λ topic, bool_decide (topics !! i = Some topic)) sub)
      && matchTopics (S i) sets topics
  end.

Definition Match (q : LogQuery) (log : Log) : bool :=
  if (0 <? zlen (Addresses q)) && negb (existsb (λ addr, bool_decide (addr = logAddress log)) (Addresses q)) then false
  else if zlen (Topics log) <? zlen (qTopics q) then false
  else matchTopics 0 (qTopics q) (Topics log).

(** ** types.go: transactions, blocks, receipts and logs *)

Record transaction := mkTransaction {
  xNonce : Z;
  xGasPrice : Z;
  xGas : Z;
  xTo : option Address;
  xValue : Z;
  xInput : list Z;
  xV : Z;
  xR : Z;
  xS : Z;
  xHash : Hash;
  xFrom : Address;
  xBlockHash : option Hash;
  xBlockNumber : option Z;
  xTxIndex : option Z;
}.

Inductive transactionOrHash :=
  | asTransaction (t : transaction)
  | asHash (h : Hash).

Definition getHash (t : transactionOrHash) : Hash :=
  match t with asTransaction t => xHash t | asHash h => h end.

(** The pointers of a transaction are dereferenced: nil panics. *)
Definition toTransaction (t : Transaction) (blockNumber : option Z) (blockHash : option Hash) (txIndex : option Z) :
    result rpcError transaction :=
  gasPrice ← or_panic (tGasPrice t);
  value ← or_panic (tValue t);
  v ← or_panic (tV t); r ← or_panic (tR t); s ← or_panic (tS t);
  Returns (mkTransaction (tNonce t) gasPrice (tGas t) (tTo t) value (tInput t) v r s (tHash t) (tFrom t)
             blockHash blockNumber (u64 <$> txIndex)).

Definition toPendingTransaction (t : Transaction) : result rpcError transaction := toTransaction t None None None.

Record block := mkRpcBlock {
  kParentHash : Hash;
  kSha3Uncles : Hash;
  kMiner : list Z;
  kStateRoot : Hash;
  kTxRoot : Hash;
  kReceiptsRoot : Hash;
  kLogsBloom : list Z;
  kDifficulty : Z;
  kTotalDifficulty : Z;
  kSize : Z;
  kNumber : Z;
  kGasLimit : Z;
  kGasUsed : Z;
  kTimestamp : Z;
  kExtraData : list Z;
  kMixHash : Hash;
  kNonce : list Z;
  kHash : Hash;
  kTransactions : list transactionOrHash;
  kUncles : list Hash;
}.

(** The byte slices are copied, the rest is assigned. *)
Definition block_Copy (b : block) : block :=
  mkRpcBlock (kParentHash b) (kSha3Uncles b) (kMiner b) (kStateRoot b) (kTxRoot b) (kReceiptsRoot b) (kLogsBloom b)
    (kDifficulty b) (kTotalDifficulty b) (kSize b) (kNumber b) (kGasLimit b) (kGasUsed b) (kTimestamp b) (kExtraData b)
    (kMixHash b) (kNonce b) (kHash b) (kTransactions b) (kUncles b).

(** A log of the types package with its position in the chain. *)
Record rpcLog := mkRpcLog {
  lAddress : Address;
  lTopics : list Hash;
  lData : list Z;
  lBlockNumber : Z;
  lTxHash : Hash;
  lTxIndex : Z;
  lBlockHash : Hash;
  lLogIndex : Z;
  lRemoved : bool;
}.

Record receipt := mkRpcReceipt {
  cRoot : Hash;
  cCumulativeGasUsed : Z;
  cLogsBloom : list Z;
  cLogs : list rpcLog;
  cStatus : Z;
  cTxHash : Hash;
  cTxIndex : Z;
  cBlockHash : Hash;
  cBlockNumber : Z;
  cGasUsed : Z;
  cContractAddress : option Address;
  cFromAddr : Address;
  cToAddr : option Address;
}.

Section conversion.
Context `{Rlp, Keccak}.

(** The loop over the transactions of [toBlock], from position [idx]. *)
Fixpoint toTransactions (b : Block) (fullTx : bool) (idx : Z) (txs : list Transaction) :
    result rpcError (list transactionOrHash) :=
  match txs with
  | [] => Returns []
  | txn :: txs =>
      t ← (if fullTx then
             t ← toTransaction txn (Some (Block_Number b)) (Some (Block_Hash b)) (Some idx);
             Returns (asTransaction t)
           else Returns (asHash (tHash txn)));
      rest ← toTransactions b fullTx (idx + 1) txs;
      Returns (t :: rest)
  end.

Definition toBlock (b : Block) (fullTx : bool) : result rpcError block :=
  let h := bHeader b in
  transactions ← toTransactions b fullTx 0 (bTransactions b);
  Returns (mkRpcBlock (hParentHash h) (hSha3Uncles h) (hMiner h) (hStateRoot h) (hTxRoot h) (hReceiptsRoot h)
    (hLogsBloom h) (hDifficulty h) (hDifficulty h) (Block_Size b).1 (hNumber h) (hGasLimit h) (hGasUsed h)
    (hTimestamp h) (hExtraData h) (hMixHash h) (hNonce h) (hHash h) transactions (hHash <$> bUncles b)).
End conversion.

(** ** The stores of the endpoints *)

Record Account := mkAccount {
  acBalance : Z;
  acNonce : Z;
}.

(** [ethTxPoolStore], [ethStateStore] and [ethBlockchainStore]; [Header] may
    return nil. *)
Class ethStore := {
  store_GetPendingTx : Hash → option Transaction;
  store_GetNonce : Address → Z;
  store_GetAccount : Hash → Address → result rpcError Account;
  store_GetStorage : Hash → Address → Hash → result rpcError (list Z);
  store_GetForksInTime : Z → ForksInTime;
  store_GetCode : Hash → Address → result rpcError (list Z);
  store_Header : option Header;
  store_GetHeaderByNumber : Z → option Header;
  store_GetBlockByHash : Hash → bool → option Block;
  store_GetBlockByNumber : Z → bool → option Block;
  store_ReadTxLookup : Hash → option Hash;
  store_GetReceiptsByHash : Hash → option (list Receipt);
  store_GetAvgGasPrice : Z;
  store_ApplyTxn : Header → Transaction → result rpcError ExecutionResult;
}.

(** txnArgs *)
Record txnArgs := mkTxnArgs {
  argFrom : option Address;
  argTo : option Address;
  argGas : option Z;
  argGasPrice : option argBytes;
  argValue : option argBytes;
  argData : option argBytes;
  argInput : option argBytes;
  argNonce : option Z;
}.

(** ** helper.go *)

Section helper.
Context `{!ethStore}.

Definition GetNumericBlockNumber (number : Z) : result rpcError Z :=
  if (number =? LatestBlockNumber) || (number =? PendingBlockNumber) then
    latest ← or_error ErrLatestNotFound store_Header; Returns (hNumber latest)
  else if number =? EarliestBlockNumber then Returns 0
  else if number <? 0 then Errors ErrNegativeBlockNumber
  else Returns (u64 number).

(** The header may be nil. *)
Definition GetBlockHeader (number : Z) : result rpcError (option Header) :=
  if (number =? PendingBlockNumber) || (number =? LatestBlockNumber) then Returns store_Header
  else if number =? EarliestBlockNumber then
    header ← or_error ErrFailedFetchGenesis (store_GetHeaderByNumber 0); Returns (Some header)
  else header ← or_error errText (store_GetHeaderByNumber (u64 number)); Returns (Some header).

Definition GetTxAndBlockByTxHash (txHash : Hash) : option (Transaction * Block) :=
  blockHash ← store_ReadTxLookup txHash;
  block ← store_GetBlockByHash blockHash true;
  '(_, txn) ← list_find (λ txn, tHash txn = txHash) (bTransactions block);
  Some (txn, block).

(** [createBlockNumberPointer(latest)] drops its error. *)
Definition GetHeaderFromBlockNumberOrHash (bnh : BlockNumberOrHash) : result rpcError (option Header) :=
  match bnhBlockNumber bnh, bnhBlockHash bnh with
  | None, Some hash => block ← or_error errText (store_GetBlockByHash hash false); Returns (Some (bHeader block))
  | number, _ =>
      match GetBlockHeader (default LatestBlockNumber number) with
      | Errors e => Errors (errWrap e)
      | r => r
      end
  end.

Definition GetNextNonce (address : Address) (number : Z) : result rpcError Z :=
  if number =? PendingBlockNumber then Returns (store_GetNonce address) else
  header ← GetBlockHeader number;
  header ← or_panic header;
  match store_GetAccount (hStateRoot header) address with
  | Returns acc => Returns (acNonce acc)
  | Errors e => if Is e ErrStateNotFound then Returns 0 else Errors e
  | Panics => Panics
  end.

Context `{Rlp, Keccak}.

(** A nil argument panics. *)
Definition DecodeTxn (arg : option txnArgs) : result rpcError Transaction :=
  arg ← or_panic arg;
  '(from, nonce) ← match argFrom arg, argNonce arg with
                   | None, _ => Returns (ZeroAddress, 0)
                   | Some from, Some nonce => Returns (from, nonce)
                   | Some from, None => nonce ← GetNextNonce from LatestBlockNumber; Returns (from, nonce)
                   end;
  let value := default (Some []) (argValue arg) in
  let gasPrice := default (Some []) (argGasPrice arg) in
  let input := match argData arg, argInput arg with
               | Some data, _ => data
               | None, Some input => input
               | None, None => None
               end in
  if bool_decide (argTo arg = None) && bool_decide (input = None) then Errors ErrNoDataInContractCreation else
  let txn := mkTx nonce (Some (SetBytes (default [] gasPrice))) (default 0 (argGas arg)) (argTo arg)
               (Some (SetBytes (default [] value))) (default [] input) None None None ZeroHash from None in
  Returns (Transaction_ComputeHash txn).
End helper.

(** ** eth_endpoint.go

    A method that answers [nil, nil] returns [None]. *)

Section eth.
Context `{!ethStore, Rlp, Keccak} (priceLimit : Z).

Definition Eth_GetBlockByNumber (number : Z) (fullTx : bool) : result rpcError (option block) :=
  num ← GetNumericBlockNumber number;
  match store_GetBlockByNumber num true with
  | None => Returns None
  | Some b => res ← toBlock b fullTx; Returns (Some res)
  end.

Definition Eth_GetBlockByHash (hash : Hash) (fullTx : bool) : result rpcError (option block) :=
  match store_GetBlockByHash hash true with
  | None => Returns None
  | Some b => res ← toBlock b fullTx; Returns (Some res)
  end.

Definition GetBlockTransactionCountByNumber (number : Z) : result rpcError (option Z) :=
  num ← GetNumericBlockNumber number;
  Returns (b ← store_GetBlockByNumber num true; Some (zlen (bTransactions b))).

Definition Eth_BlockNumber : result rpcError Z :=
  h ← or_error errText store_Header; Returns (hNumber h).

(** [AddTx] is the method of the pool. *)
Definition SendRawTransaction {S} (AddTx : Transaction → S → option rpcError * S) (buf : list Z) (pool : S) :
    result rpcError (list Z) * S :=
  match UnmarshalRlp (Transaction_UnmarshalRLPFrom newTransaction) buf with
  | None => (Errors errText, pool)
  | Some tx =>
      let tx := Transaction_ComputeHash tx in
      match AddTx tx pool with
      | (Some err, pool) => (Errors err, pool)
      | (None, pool) => (Returns (Hash_String (tHash tx)), pool)
      end
  end.

Definition findSealedTx (hash : Hash) : result rpcError (option transaction) :=
  match (blockHash ← store_ReadTxLookup hash;
         block ← store_GetBlockByHash blockHash true;
         '(idx, txn) ← list_find (λ txn, tHash txn = hash) (bTransactions block);
         Some (block, idx, txn)) with
  | None => Returns None
  | Some (block, idx, txn) =>
      t ← toTransaction txn (Some (Block_Number block)) (Some (Block_Hash block)) (Some (Z.of_nat idx));
      Returns (Some t)
  end.

Definition findPendingTx (hash : Hash) : result rpcError (option transaction) :=
  match store_GetPendingTx hash with
  | Some pendingTx => t ← toPendingTransaction pendingTx; Returns (Some t)
  | None => Returns None
  end.

Definition GetTransactionByHash (hash : Hash) : result rpcError (option transaction) :=
  sealed ← findSealedTx hash;
  match sealed with Some t => Returns (Some t) | None => findPendingTx hash end.

(** The loop variable of the logs hides the index of the transaction. *)
Definition receiptLog (block : Block) (txn : Transaction) (indx : nat) (elem : Log) : rpcLog :=
  mkRpcLog (logAddress elem) (Topics elem) (logData elem) (Block_Number block) (tHash txn) (Z.of_nat indx)
    (Block_Hash block) (Z.of_nat indx) false.

Definition GetTransactionReceipt (hash : Hash) : result rpcError (option receipt) :=
  match (blockHash ← store_ReadTxLookup hash;
         block ← store_GetBlockByHash blockHash true;
         receipts ← store_GetReceiptsByHash blockHash;
         Some (block, receipts)) with
  | None => Returns None
  | Some (block, receipts) =>
      if (length receipts =? 0)%nat then Returns None else
      match list_find (λ txn, tHash txn = hash) (bTransactions block) with
      | None => Returns None
      | Some (indx, txn) =>
          raw ← or_panic (receipts !! indx);
          status ← or_panic (rStatus raw);
          let logs := imap (receiptLog block txn) (rLogs raw) in
          Returns (Some (mkRpcReceipt (rRoot raw) (rCumulativeGasUsed raw) (rLogsBloom raw) logs status (tHash txn)
            (Z.of_nat indx) (Block_Hash block) (Block_Number block) (rGasUsed raw) (rContractAddress raw)
            (tFrom txn) (tTo txn)))
      end
  end.

Definition GetStorageAt (address : Address) (index : Hash) (filter : BlockNumberOrHash) : result rpcError (list Z) :=
  header ← GetHeaderFromBlockNumberOrHash filter;
  header ← or_panic header;
  match store_GetStorage (hStateRoot header) address index with
  | Errors e => if Is e ErrStateNotFound then Returns ZeroHash else Errors e
  | Panics => Panics
  | Returns res =>
      match (v ← rlp_parse res; rlp_getbytes v) with
      | None => Returns ZeroHash
      | Some data => Returns (BytesToHash data)
      end
  end.

(** [common.Max] *)
Definition Max (a b : Z) : Z := if b <? a then a else b.

(** [x.Uint64()] of the average price. *)
Definition Eth_GasPrice : result rpcError Z := Returns (Max priceLimit (u64 store_GetAvgGasPrice)).

(** [abi.UnpackRevertError] finds a message or not; either way the error
    is the one of the result. *)
Definition constructErrorFromRevert (unpacked : option (list Z)) (err : rpcError) : rpcError :=
  match unpacked with None => err | Some _ => errWrap err end.

Definition set_tGas (gas : Z) (t : Transaction) : Transaction :=
  mkTx (tNonce t) (tGasPrice t) gas (tTo t) (tValue t) (tInput t) (tV t) (tR t) (tS t) (tHash t) (tFrom t) (tSize t).

Definition Eth_Call (UnpackRevertError : list Z → option (list Z)) (arg : option txnArgs) (filter : BlockNumberOrHash) :
    result rpcError (list Z) :=
  header ← GetHeaderFromBlockNumberOrHash filter;
  txn ← DecodeTxn arg;
  header ← or_panic header;
  let txn := if tGas txn =? 0 then set_tGas (hGasLimit header) txn else txn in
  res ← store_ApplyTxn header txn;
  match Err res with
  | Some err =>
      if Reverted res then Errors (constructErrorFromRevert (UnpackRevertError (ReturnValue res)) (errRuntime err))
      else Errors (errWrap (errRuntime err))
  | None => Returns (ReturnValue res)
  end.

Definition Eth_GetBalance (address : Address) (filter : BlockNumberOrHash) : result rpcError Z :=
  header ← GetHeaderFromBlockNumberOrHash filter;
  header ← or_panic header;
  match store_GetAccount (hStateRoot header) address with
  | Errors e => if Is e ErrStateNotFound then Returns 0 else Errors e
  | Panics => Panics
  | Returns acc => Returns (acBalance acc)
  end.

Definition GetTransactionCount (address : Address) (filter : BlockNumberOrHash) : result rpcError Z :=
  blockNumber ← match bnhBlockNumber filter, bnhBlockHash filter with
                | None, Some _ =>
                    match GetHeaderFromBlockNumberOrHash filter with
                    | Returns header => header ← or_panic header; Returns (i64 (hNumber header))
                    | Errors e => Errors (errWrap e)
                    | Panics => Panics
                    end
                | None, None => Returns LatestBlockNumber
                | Some number, _ => Returns number
                end;
  match GetNextNonce address blockNumber with
  | Errors e => if Is e ErrStateNotFound then Returns 0 else Errors e
  | r => r
  end.

(** An account that is not there has the text [0x] as its code. *)
Definition Eth_GetCode (address : Address) (filter : BlockNumberOrHash) : result rpcError (list Z) :=
  header ← GetHeaderFromBlockNumberOrHash filter;
  header ← or_panic header;
  match store_GetCode (hStateRoot header) address with
  | Errors e => if Is e ErrStateNotFound then Returns [] else Errors e
  | r => r
  end.
End eth.
