(* ===== verification/EstimateGas.v ===== *)
(** * eth_estimateGas (jsonrpc/eth_endpoint.go)

    [EstimateGas] looks for the least gas limit a transaction succeeds with,
    by binary search between the standard gas of a transaction and a ceiling:
    the gas the caller passed, or else the gas limit of the block, capped by
    what the sender can pay. The search adds the two ends as [uint64]s.

    [estimate_minimal] is the search where the sum does not wrap around: it
    ends, and answers the least gas that succeeds. [estimate_diverges] is a
    ceiling of [2^64 - 1]: the sum wraps, the middle falls below both ends and
    the search never ends. *)

From stdpp Require Import list.
From S2P Require Import Prelude BigInt Chain Types Runtime Rlp BlockTypes Result JsonRpc.
#[local] Open Scope Z_scope.

Definition TxGas : Z := 21000.
Definition TxGasContractCreation : Z := 53000.

Section estimate.
Context `{!ethStore, Rlp, Keccak}.
(** [abi.UnpackRevertError] *)
Context (UnpackRevertError : list Z → option (list Z)).

Definition isGasApplyError (err : rpcError) : bool := Is err ErrNotEnoughIntrinsicGas.

Definition isGasEVMError (err : rpcError) : bool :=
  Is err (errRuntime ErrOutOfGas) || Is err (errRuntime ErrCodeStoreOutOfGas).

Definition isEVMRevertError (err : rpcError) : bool := Is err (errRuntime ErrExecutionReverted).

(** The status tells whether the transaction failed, and with which error;
    the outer result is a panic of the store. *)
Definition testTransaction (header : Header) (transaction : Transaction) (gas : Z) (shouldOmitErr : bool) :
    result rpcError (bool * option rpcError) :=
  let txn := set_tGas gas (Transaction_Copy transaction) in
  match store_ApplyTxn header txn with
  | Panics => Panics
  | Errors applyErr =>
      if isGasApplyError applyErr && shouldOmitErr then Returns (true, None) else Returns (true, Some applyErr)
  | Returns res =>
      match Err res with
      | Some err =>
          let err := errRuntime err in
          if isGasEVMError err && shouldOmitErr then Returns (true, None)
          else if isEVMRevertError err then
            Returns (true, Some (constructErrorFromRevert (UnpackRevertError (ReturnValue res)) err))
          else Returns (true, Some err)
      | None => Returns (false, None)
      end
  end.

(** The search; [None] when the fuel runs out. *)
Fixpoint search (fuel : nat) (header : Header) (transaction : Transaction) (lowEnd highEnd : Z) :
    option (result rpcError Z) :=
  match fuel with
  | O => None
  | S fuel =>
      if lowEnd <? highEnd then
        let mid := u64 (lowEnd + highEnd) / 2 in
        match testTransaction header transaction mid true with
        | Returns (failed, testErr) =>
            match (e ← testErr; if isEVMRevertError e then None else Some e) with
            | Some e => Some (Errors e)
            | None =>
                if failed then search fuel header transaction (u64 (mid + 1)) highEnd
                else search fuel header transaction lowEnd mid
            end
        | Errors e => Some (Errors e)
        | Panics => Some Panics
        end
      else Some (Returns highEnd)
  end.

Definition standardGas (transaction : Transaction) (forksInTime : ForksInTime) : Z :=
  if IsContractCreation transaction && Homestead forksInTime then TxGasContractCreation else TxGas.

(** What the sender has left beside the value of the transaction; no balance
    is looked up for the zero address. *)
Definition availableBalance (header : Header) (transaction : Transaction) (valueInt : Z) :
    result rpcError (option Z) :=
  if bool_decide (tFrom transaction = ZeroAddress) then Returns None else
  accountBalance ← match store_GetAccount (hStateRoot header) (tFrom transaction) with
                   | Returns acc => Returns (acBalance acc)
                   | Errors e => if negb (Is e ErrStateNotFound) then Errors e else Returns 0
                   | Panics => Panics
                   end;
  if accountBalance <? valueInt then Errors ErrInsufficientFunds else Returns (Some (accountBalance - valueInt)).

(** The ceiling, capped by the gas the balance pays for. *)
Definition gasCeiling (header : Header) (transaction : Transaction) (standardGas gasPriceInt : Z)
    (availableBalance : option Z) : Z :=
  let highEnd := if negb (tGas transaction =? 0) && (standardGas <=? tGas transaction) then tGas transaction
                 else hGasLimit header in
  match availableBalance with
  | Some balance =>
      if negb (BitLen gasPriceInt =? 0) && (0 <? balance) then
        let gasAllowance := balance / gasPriceInt in
        if IsUint64 gasAllowance && (gasAllowance <? highEnd) then gasAllowance else highEnd
      else highEnd
  | None => highEnd
  end.

(** Everything before the search: the transaction, the header it runs on and
    the two ends. [transaction.GasPrice] and [transaction.Value] are set by
    [DecodeTxn]. *)
Definition estimateBounds (arg : option txnArgs) (rawNum : option Z) :
    result rpcError (Transaction * Header * Z * Z) :=
  transaction ← DecodeTxn arg;
  let number := default LatestBlockNumber rawNum in
  header ← GetBlockHeader number;
  header ← or_panic header;
  let standard := standardGas transaction (store_GetForksInTime (u64 number)) in
  gasPriceInt ← or_panic (tGasPrice transaction);
  valueInt ← or_panic (tValue transaction);
  balance ← availableBalance header transaction valueInt;
  Returns (transaction, header, standard, gasCeiling header transaction standard gasPriceInt balance).

Definition EstimateGas (fuel : nat) (arg : option txnArgs) (rawNum : option Z) : option (result rpcError Z) :=
  match estimateBounds arg rawNum with
  | Errors e => Some (Errors e)
  | Panics => Some Panics
  | Returns (transaction, header, lowEnd, highEnd) =>
      match search fuel header transaction lowEnd highEnd with
      | Some (Returns highEnd) =>
          match testTransaction header transaction highEnd false with
          | Returns (true, err) => Some (Errors (errWrap (default errText err)))
          | Returns (false, _) => Some (Returns highEnd)
          | Errors e => Some (Errors e)
          | Panics => Some Panics
          end
      | r => r
      end
  end.

(** ** The search *)

Section proofs.
Context (header : Header) (transaction : Transaction).

(** The transaction succeeds with this gas. *)
Definition passes (gas : Z) : Prop :=
  ∃ res, store_ApplyTxn header (set_tGas gas (Transaction_Copy transaction)) = Returns res ∧ Err res = None.

(** It fails for the lack of gas, or reverts. *)
Definition short (gas : Z) : Prop :=
  store_ApplyTxn header (set_tGas gas (Transaction_Copy transaction)) = Errors ErrNotEnoughIntrinsicGas ∨
  ∃ res err, store_ApplyTxn header (set_tGas gas (Transaction_Copy transaction)) = Returns res ∧ Err res = Some err ∧
    err ∈ [ErrOutOfGas; ErrCodeStoreOutOfGas; ErrExecutionReverted].

Lemma test_passes gas omit : passes gas → testTransaction header transaction gas omit = Returns (false, None).
Proof. intros (res & E & N). unfold testTransaction. cbv zeta. by rewrite E, N. Qed.

Lemma passes_test gas omit e : testTransaction header transaction gas omit = Returns (false, e) → passes gas.
Proof.
  unfold testTransaction, passes. cbv zeta. intros T1.
  destruct (store_ApplyTxn _ _) as [res|err|]; [|by destruct (_ && _)|done].
  destruct (Err res) eqn:E; [by repeat case_match|]. by exists res.
Qed.

Lemma test_short gas :
  short gas → ∃ e, testTransaction header transaction gas true = Returns (true, e) ∧
    (e' ← e; if isEVMRevertError e' then None else Some e') = None.
Proof.
  unfold testTransaction. cbv zeta. intros [-> |(res & err & -> & -> & Hin)]; [by eexists|].
  set_unfold. destruct Hin as [-> |[-> |[-> |[]]]]; [by eexists..|].
  eexists. split; [reflexivity|]. by destruct (UnpackRevertError _).
Qed.

Lemma short_test gas : short gas → ∃ e, testTransaction header transaction gas false = Returns (true, e).
Proof.
  unfold testTransaction. cbv zeta. intros [-> |(res & err & -> & -> & Hin)]; [by eexists|].
  set_unfold. destruct Hin as [-> |[-> |[-> |[]]]]; by eexists.
Qed.

Lemma short_fails gas : short gas → ¬ passes gas.
Proof. intros [E|(res & err & E & N & _)] (res' & E' & N'); congruence. Qed.

(** One round of the search, where the sum of the ends does not wrap. *)
Lemma search_round fuel low high :
  0 ≤ low → low < high < 2 ^ 63 →
  let mid := (low + high) / 2 in
  low ≤ mid < high ∧
  (passes mid → search (S fuel) header transaction low high = search fuel header transaction low mid) ∧
  (short mid → search (S fuel) header transaction low high = search fuel header transaction (mid + 1) high).
Proof.
  intros Hl Hh mid. assert (low ≤ mid < high) as Hm by (unfold mid; Z.to_euclidean_division_equations; lia).
  split; [done|]. cbn [search]. rewrite (proj2 (Z.ltb_lt low high)) by lia. rewrite (u64_small (low + high)) by lia.
  fold mid. cbv zeta. split; intros T1.
  - by rewrite (test_passes mid true T1).
  - destruct (test_short mid T1) as (e & -> & ->). by rewrite u64_small by lia.
Qed.

(** The search ends, and finds the least gas that passes when success is
    monotone. *)
Lemma search_least fuel low high :
  0 ≤ low → low ≤ high < 2 ^ 63 → high - low < 2 ^ Z.of_nat fuel →
  (∀ gas, low ≤ gas ≤ high → passes gas ∨ short gas) →
  (∀ g g', low ≤ g ≤ g' → g' ≤ high → passes g → passes g') →
  ∃ g, search (S fuel) header transaction low high = Some (Returns g) ∧ low ≤ g ≤ high ∧
    (∀ g', low ≤ g' < g → ¬ passes g') ∧ (g < high → passes g).
Proof.
  revert low high. induction fuel as [|fuel IH]; intros low high Hl Hh Hf Hdec Hmono.
  - exists high. cbn [search]. change (2 ^ Z.of_nat 0) with 1 in Hf. rewrite (proj2 (Z.ltb_ge low high)) by lia.
    split_and!; [done|lia..|by intros; lia|lia].
  - destruct (Z_lt_ge_dec low high) as [Hlt|Hge].
    + destruct (search_round (S fuel) low high) as (Hm & Hp & Hs); [done|lia|]. set (mid := (low + high) / 2) in *.
      rewrite Nat2Z.inj_succ, Z.pow_succ_r in Hf by lia.
      assert (mid - low < 2 ^ Z.of_nat fuel ∧ high - (mid + 1) < 2 ^ Z.of_nat fuel) as [F1 F2]
        by (unfold mid; Z.to_euclidean_division_equations; lia).
      destruct (Hdec mid) as [P|P]; [lia| |].
      * rewrite (Hp P). destruct (IH low mid) as (g & E & Hg & Hmin & Hpass); [lia..|intros; apply Hdec; lia|intros g1 g2 ? ? ?; apply (Hmono g1); [lia..|done]|].
        exists g. split_and!; [done|lia|lia|done|]. intros _. destruct (decide (g = mid)) as [->|]; [done|apply Hpass; lia].
      * rewrite (Hs P). destruct (IH (mid + 1) high) as (g & E & Hg & Hmin & Hpass); [lia..|intros; apply Hdec; lia|intros g1 g2 ? ? ?; apply (Hmono g1); [lia..|done]|].
        exists g. split_and!; [done|lia|lia| |done]. intros g' Hg' Q.
        destruct (Z_le_gt_dec g' mid); [|by apply (Hmin g'); [lia|]].
        apply (short_fails mid P). apply (Hmono g'); [lia..|done].
    + exists high. cbn [search]. rewrite (proj2 (Z.ltb_ge low high)) by lia.
      split_and!; [done|lia..|by intros; lia|lia].
Qed.

(** With a ceiling of [2^64 - 1] the middle is below the low end. *)
Lemma search_wraps fuel low :
  1 ≤ low < 2 ^ 63 → (∀ gas, 0 ≤ gas < low → short gas) → search fuel header transaction low (2 ^ 64 - 1) = None.
Proof.
  revert low. induction fuel as [|fuel IH]; intros low Hl Hs; [done|].
  cbn [search]. rewrite (proj2 (Z.ltb_lt low (2 ^ 64 - 1))) by lia.
  assert (u64 (low + (2 ^ 64 - 1)) = low - 1) as ->.
  { unfold u64. replace (low + (2 ^ 64 - 1)) with (low - 1 + 1 * 2 ^ 64) by lia. rewrite Z.mod_add by lia.
    apply Z.mod_small. lia. }
  set (mid := (low - 1) / 2). assert (0 ≤ mid ∧ 2 * mid ≤ low - 1) as Hm by (unfold mid; Z.to_euclidean_division_equations; lia).
  destruct (test_short mid) as (e & -> & ->); [apply Hs; lia|].
  rewrite u64_small by lia. apply IH; [lia|]. intros gas Hg. apply Hs. lia.
Qed.
End proofs.

End estimate.

(** ** The theorems *)

Section theorems.
Context `{!ethStore, Rlp, Keccak} (UnpackRevertError : list Z → option (list Z)).

Lemma estimateBounds_low arg rawNum transaction header low high :
  estimateBounds arg rawNum = Returns (transaction, header, low, high) → low = TxGas ∨ low = TxGasContractCreation.
Proof.
  unfold estimateBounds. intros E. invert_result E. injection E as <- <- <- <-. unfold standardGas.
  case_match; [by right|by left].
Qed.

(** C19. eth_estimateGas answers the least gas limit the transaction succeeds
    with, after at most 64 rounds. The transaction, the header, the standard
    gas [low] and the ceiling [high] are those the method computes from its
    arguments. Where the ceiling is below 2^63, success is monotone in the
    gas, and every failure between the ends is a lack of gas or a revert, the
    answer is between the ends, succeeds, and nothing below it does; and an
    error means that no gas between the ends is enough. *)
Theorem estimate_minimal fuel arg rawNum transaction header low high :
  estimateBounds arg rawNum = Returns (transaction, header, low, high) →
  low ≤ high < 2 ^ 63 → (64 ≤ fuel)%nat →
  (∀ gas, low ≤ gas ≤ high → passes header transaction gas ∨ short header transaction gas) →
  (∀ g g', low ≤ g ≤ g' → g' ≤ high → passes header transaction g → passes header transaction g') →
  match EstimateGas UnpackRevertError fuel arg rawNum with
  | Some (Returns g) =>
      low ≤ g ≤ high ∧ passes header transaction g ∧ ∀ g', low ≤ g' < g → ¬ passes header transaction g'
  | Some (Errors _) => ∀ g, low ≤ g ≤ high → ¬ passes header transaction g
  | _ => False
  end.
Proof.
  intros E Hh Hf Hdec Hmono. unfold EstimateGas. rewrite E.
  assert (0 ≤ low) as Hl by (apply estimateBounds_low in E as [->| ->]; done).
  destruct fuel as [|fuel]; [lia|].
  destruct (search_least UnpackRevertError header transaction fuel low high) as (g & -> & Hg & Hmin & Hpass);
    [done..| |done|done|].
  { assert (2 ^ 63 ≤ 2 ^ Z.of_nat fuel); [apply Z.pow_le_mono_r; lia|lia]. }
  destruct (Hdec g) as [P|P]; [done| |].
  - by rewrite (test_passes UnpackRevertError header transaction g false P).
  - destruct (short_test UnpackRevertError header transaction g P) as (e & ->).
    assert (g = high) as -> by (destruct (decide (g = high)); [done|destruct (short_fails header transaction g P); apply Hpass; lia]).
    intros g' Hg' Q. destruct (decide (g' = high)) as [->|]; [by apply (short_fails header transaction high)|by apply (Hmin g'); [lia|]].
Qed.

(** C40. A call of eth_estimateGas that passes 2^64 - 1 as its gas never
    returns. The caller names a recipient and no sender; transactions with
    less gas than the standard 21000 are refused for it, as the store does.
    Then the sum of the two ends wraps around, the middle is below the low
    end, and the search is still running after any number of rounds. *)
Theorem estimate_diverges arg rawNum header :
  argFrom arg = None → argTo arg ≠ None → argGas arg = Some (2 ^ 64 - 1) →
  GetBlockHeader (default LatestBlockNumber rawNum) = Returns (Some header) →
  (∀ txn, tGas txn < TxGas → store_ApplyTxn header txn = Errors ErrNotEnoughIntrinsicGas) →
  ∀ fuel, EstimateGas UnpackRevertError fuel (Some arg) rawNum = None.
Proof.
  intros Hfrom Hto Hgas Hheader Hstore fuel. unfold EstimateGas.
  assert (∃ txn, estimateBounds (Some arg) rawNum = Returns (txn, header, TxGas, 2 ^ 64 - 1)) as (txn & ->).
  { unfold estimateBounds, DecodeTxn. cbn [or_panic mbind result_bind]. rewrite Hfrom, Hgas.
    rewrite (bool_decide_false (argTo arg = None)) by done. cbn [andb]. cbv zeta. rewrite Hheader.
    eexists. cbn -[Z.pow BitLen SetBytes]. unfold availableBalance, standardGas, IsContractCreation, Transaction_ComputeHash.
    cbn -[Z.pow BitLen SetBytes]. rewrite (bool_decide_false (argTo arg = None)) by done. done. }
  rewrite search_wraps; [done|unfold TxGas; lia|]. intros gas Hg. left. apply Hstore. cbn. lia.
Qed.
End theorems.

(** ** Instances *)

Module EstimateExample.
#[export] Existing Instances tree_fastrlp tree_rlp.

#[export] Instance zeros_keccak : Keccak.
Proof. refine {| keccak256 := λ _, ZeroHash |}. intros b. split; [done|]. by apply Forall_replicate. Defined.

Definition head : Header :=
  mkHeader ZeroHash ZeroHash [] ZeroHash ZeroHash ZeroHash ZeroBloom 0 7 100000 0 0 [] ZeroHash (replicate 8 0) ZeroHash.

(** A chain of one block; a transaction needs 30000 gas. *)
#[export] Instance needs_30000 : ethStore := {|
  store_GetPendingTx _ := None;
  store_GetNonce _ := 0;
  store_GetAccount _ _ := Errors ErrStateNotFound;
  store_GetStorage _ _ _ := Errors ErrStateNotFound;
  store_GetForksInTime n := At AllForksEnabled n;
  store_GetCode _ _ := Errors ErrStateNotFound;
  store_Header := Some head;
  store_GetHeaderByNumber n := if n =? 7 then Some head else None;
  store_GetBlockByHash _ _ := None;
  store_GetBlockByNumber _ _ := None;
  store_ReadTxLookup _ := None;
  store_GetReceiptsByHash _ := None;
  store_GetAvgGasPrice := 0;
  store_ApplyTxn _ tx :=
    if tGas tx <? TxGas then Errors ErrNotEnoughIntrinsicGas
    else if tGas tx <? 30000 then
      Returns {| ReturnValue := []; GasLeft := 0; GasUsed := tGas tx; Err := Some ErrOutOfGas |}
    else Returns {| ReturnValue := []; GasLeft := tGas tx - 30000; GasUsed := 30000; Err := None |};
|}.

Definition call (gas : option Z) : txnArgs :=
  mkTxnArgs None (Some ZeroAddress) gas None None None None None.

Definition call_tx : Transaction :=
  mkTx 0 (Some 0) 0 (Some ZeroAddress) (Some 0) [] None None None ZeroHash ZeroAddress None.

Lemma passes_30000 gas : passes head call_tx gas ↔ 30000 ≤ gas.
Proof.
  unfold passes. cbn. destruct (Z.ltb_spec gas TxGas) as [L|L]; [unfold TxGas in L; split; [by intros (? & ? & ?)|lia]|].
  destruct (Z.ltb_spec gas 30000) as [K|K]; (split; [|lia || by eexists]).
  - intros (? & [= <-] & ?). done.
  - done.
Qed.

Lemma short_30000 gas : gas < 30000 → short head call_tx gas.
Proof.
  intros L. unfold short. cbn. destruct (gas <? TxGas); [by left|]. right. rewrite (proj2 (Z.ltb_lt _ _)) by done.
  eexists _, ErrOutOfGas. split_and!; [done|done|]. apply list_elem_of_here.
Qed.
End EstimateExample.
Import EstimateExample.

Lemma estimate_minimal_witness :
  match EstimateGas (λ _, None) 64 (Some (call None)) None with
  | Some (Returns g) =>
      21000 ≤ g ≤ 100000 ∧ passes head call_tx g ∧
      ∀ g', 21000 ≤ g' < g → ¬ passes head call_tx g'
  | Some (Errors _) => ∀ g, 21000 ≤ g ≤ 100000 → ¬ passes head call_tx g
  | _ => False
  end.
Proof.
  apply (estimate_minimal (λ _, None) 64 (Some (call None)) None call_tx
           head 21000 100000).
  - vm_compute. reflexivity.
  - lia.
  - lia.
  - intros gas _. destruct (Z_lt_ge_dec gas 30000); [right; by apply short_30000|].
    left. apply passes_30000. lia.
  - intros g g' Hg _. rewrite !passes_30000. lia.
Defined.

Lemma estimate_diverges_witness :
  EstimateGas (λ _, None) 1000 (Some (call (Some (2 ^ 64 - 1)))) None = None.
Proof.
  apply (estimate_diverges (λ _, None) _ None head).
  - reflexivity.
  - discriminate.
  - reflexivity.
  - reflexivity.
  - intros txn L. cbn. by rewrite (proj2 (Z.ltb_lt _ _)).
Defined.
