(* ===== verification/FilterManager.v ===== *)
(** * The filter manager (jsonrpc/filter_manager.go)

    A filter collects the new blocks, or the new logs that match a query,
    until the client asks for them or they are written to its web socket.
    Filters without a socket expire: the manager keeps them in a heap ordered
    by the time they expire at, and every filter knows its index there.

    The filters are objects shared by the map of filters, the heap and the
    calls in flight: a pointer is a position in [objects]. The elements of the
    block stream are a linked list in the same way. The ids ([uuid.New]), the
    clock, the order in which [range] visits the map and the outcome of writes
    to a socket are arguments. A message is what is sent, not its JSON text.
    [emitSignalToUpdateCh] wakes the worker and has no other effect. *)

From stdpp Require Import gmap list.
From S2P Require Import Prelude BigInt Types Runtime Rlp BlockTypes Result Heap JsonRpc.
#[local] Open Scope Z_scope.

Definition NoIndexInHeap : Z := -1.

(** One minute, in nanoseconds. *)
Definition defaultTimeout : Z := 60 * 10 ^ 9.

(** ** Filters *)

Record filterBase := mkFilterBase {
  fid : list Z;
  heapIndex : Z;
  expiresAt : Z;
  ws : option nat;
}.

Definition newFilterBase (uuid : list Z) (conn : option nat) : filterBase := mkFilterBase uuid NoIndexInHeap 0 conn.

Definition hasWSConn (f : filterBase) : bool := bool_decide (ws f ≠ None).

(** A block filter points into the stream. *)
Inductive filterKind :=
  | blockFilter (elem : nat)
  | logFilter (query : LogQuery) (logs : list rpcLog).

Record filter := mkFilter {
  getFilterBase : filterBase;
  fkind : filterKind;
}.

(** ** The block stream *)

Record headElem := mkHeadElem {
  elHeader : option block;
  elNext : option nat;
}.

Record blockStream := mkBlockStream {
  elems : list headElem;
  head : nat;
}.

Definition newBlockStream (b : block) : blockStream := mkBlockStream [mkHeadElem (Some b) None] 0.

Definition getHead (s : blockStream) : nat := head s.

Definition push (s : blockStream) (header : block) : blockStream :=
  let newHead := length (elems s) in
  mkBlockStream
    (alter (λ e, mkHeadElem (elHeader e) (Some newHead)) (head s) (elems s) ++ [mkHeadElem (Some (block_Copy header)) None])
    newHead.

(** [h.getUpdates()]: every step follows a pointer to a later element, so the
    number of elements is enough fuel. *)
Fixpoint elemUpdates (fuel : nat) (s : list headElem) (cur : nat) : list block * nat :=
  match fuel with
  | O => ([], cur)
  | S fuel =>
      match (e ← s !! cur; elNext e) with
      | None => ([], cur)
      | Some next =>
          let '(res, last) := elemUpdates fuel s next in
          (match (e ← s !! next; elHeader e) with Some b => b :: res | None => res end, last)
      end
  end.

Definition headElem_getUpdates (s : blockStream) (h : nat) : list block * nat :=
  elemUpdates (length (elems s)) (elems s) h.

(** ** The manager *)

Record FilterManager := mkFilterManager {
  blockRangeLimit : Z;
  timeout : Z;
  stream : blockStream;
  objects : list filter;
  filters : gmap (list Z) nat;
  timeouts : list nat;
  wsFilterID : gmap nat (list Z);
}.

Definition set_stream (s : blockStream) (m : FilterManager) : FilterManager :=
  mkFilterManager (blockRangeLimit m) (timeout m) s (objects m) (filters m) (timeouts m) (wsFilterID m).
Definition set_objects (o : list filter) (m : FilterManager) : FilterManager :=
  mkFilterManager (blockRangeLimit m) (timeout m) (stream m) o (filters m) (timeouts m) (wsFilterID m).
Definition set_filters (f : gmap (list Z) nat) (m : FilterManager) : FilterManager :=
  mkFilterManager (blockRangeLimit m) (timeout m) (stream m) (objects m) f (timeouts m) (wsFilterID m).
Definition set_timeouts (t : list nat) (m : FilterManager) : FilterManager :=
  mkFilterManager (blockRangeLimit m) (timeout m) (stream m) (objects m) (filters m) t (wsFilterID m).

(** Assignments through a pointer. *)
Definition update_base (f : filterBase → filterBase) (p : nat) (m : FilterManager) : FilterManager :=
  set_objects (alter (λ o, mkFilter (f (getFilterBase o)) (fkind o)) p (objects m)) m.
Definition update_kind (k : filterKind) (p : nat) (m : FilterManager) : FilterManager :=
  set_objects (alter (λ o, mkFilter (getFilterBase o) k) p (objects m)) m.
Definition set_heapIndex (i : Z) (p : nat) (m : FilterManager) : FilterManager :=
  update_base (λ b, mkFilterBase (fid b) i (expiresAt b) (ws b)) p m.
Definition set_expiresAt (t : Z) (p : nat) (m : FilterManager) : FilterManager :=
  update_base (λ b, mkFilterBase (fid b) (heapIndex b) t (ws b)) p m.

Definition base_of (m : FilterManager) (p : nat) : option filterBase := getFilterBase <$> objects m !! p.

(** ** The heap of timeouts *)

Definition expiry (m : FilterManager) (p : nat) : Z := default 0 (expiresAt <$> base_of m p).

Definition timeHeap_Less (m : FilterManager) (i j : nat) : bool :=
  match timeouts m !! i, timeouts m !! j with
  | Some p, Some q => expiry m p <? expiry m q
  | _, _ => false
  end.

Definition timeHeap_Swap (i j : nat) (m : FilterManager) : FilterManager :=
  match timeouts m !! i, timeouts m !! j with
  | Some p, Some q =>
      set_heapIndex (Z.of_nat j) p (set_heapIndex (Z.of_nat i) q (set_timeouts (<[i := q]> (<[j := p]> (timeouts m))) m))
  | _, _ => m
  end.

#[export] Instance timeHeapImpl : Interface FilterManager := {|
  h_Len m := length (timeouts m);
  h_Less := timeHeap_Less;
  h_Swap := timeHeap_Swap;
|}.

Definition timeHeap_Push (m : FilterManager) (p : nat) : FilterManager :=
  set_timeouts (timeouts m ++ [p]) (set_heapIndex (zlen (timeouts m)) p m).

Definition timeHeap_Pop (m : FilterManager) : FilterManager :=
  let n := length (timeouts m) in
  match timeouts m !! (n - 1)%nat with
  | Some p => set_timeouts (take (n - 1) (timeouts m)) (set_heapIndex (-1) p m)
  | None => m
  end.

(** [heap.Push(t, filter)] *)
Definition timeHeap_addFilter (m : FilterManager) (p : nat) : FilterManager :=
  let m := timeHeap_Push m p in up_on (h_Len m) m (h_Len m - 1).

(** [heap.Remove(t, filter.heapIndex)] *)
Definition timeHeap_removeFilter (m : FilterManager) (p : nat) : bool * FilterManager :=
  match base_of m p with
  | None => (false, m)
  | Some f =>
      if heapIndex f =? NoIndexInHeap then (false, m)
      else (true, timeHeap_Pop (Remove_on m (Z.to_nat (heapIndex f))))
  end.

(** ** Adding and removing filters *)

Definition addFilterTimeout (now : Z) (p : nat) (m : FilterManager) : FilterManager :=
  timeHeap_addFilter (set_expiresAt (now + timeout m) p m) p.

Definition refreshFilterTimeout (now : Z) (p : nat) (m : FilterManager) : FilterManager :=
  addFilterTimeout now p (timeHeap_removeFilter m p).2.

(** The object is allocated here. *)
Definition addFilter (now : Z) (f : filter) (m : FilterManager) : list Z * FilterManager :=
  let base := getFilterBase f in
  let p := length (objects m) in
  let m := set_filters (<[fid base := p]> (filters m)) (set_objects (objects m ++ [f]) m) in
  (fid base, if hasWSConn base then m else addFilterTimeout now p m).

(** [ws.SetFilterID(filter.id)] *)
Definition setFilterID (conn : option nat) (id : list Z) (m : FilterManager) : FilterManager :=
  match conn with
  | Some c =>
      mkFilterManager (blockRangeLimit m) (timeout m) (stream m) (objects m) (filters m) (timeouts m)
        (<[c := id]> (wsFilterID m))
  | None => m
  end.

Definition NewBlockFilter (uuid : list Z) (now : Z) (conn : option nat) (m : FilterManager) : list Z * FilterManager :=
  let f := mkFilter (newFilterBase uuid conn) (blockFilter (getHead (stream m))) in
  addFilter now f (setFilterID conn uuid m).

Definition NewLogFilter (uuid : list Z) (now : Z) (logQuery : LogQuery) (conn : option nat) (m : FilterManager) :
    list Z * FilterManager :=
  let f := mkFilter (newFilterBase uuid conn) (logFilter logQuery []) in
  addFilter now f (setFilterID conn uuid m).

Definition Exists (id : list Z) (m : FilterManager) : bool := bool_decide (filters m !! id ≠ None).

Definition removeFilterByID (id : list Z) (m : FilterManager) : bool * FilterManager :=
  match filters m !! id with
  | None => (false, m)
  | Some p => (true, (timeHeap_removeFilter (set_filters (delete id (filters m)) m) p).2)
  end.

Definition Uninstall (id : list Z) (m : FilterManager) : bool * FilterManager := removeFilterByID id m.

(** The id of a connection that never subscribed is the empty string. *)
Definition RemoveFilterByWs (conn : nat) (m : FilterManager) : FilterManager :=
  (removeFilterByID (default [] (wsFilterID m !! conn)) m).2.

Definition nextTimeoutFilter (m : FilterManager) : list Z * Z :=
  match timeouts m with
  | [] => ([], 0)
  | p :: _ => match base_of m p with Some b => (fid b, expiresAt b) | None => ([], 0) end
  end.

(** ** Updates *)

Inductive update :=
  | updateBlock (b : block)
  | updateLog (l : rpcLog).

Definition setHeadElem (newHead : nat) (p : nat) (m : FilterManager) : FilterManager :=
  update_kind (blockFilter newHead) p m.

(** [takeBlockUpdates] and [takeLogUpdates] *)
Definition takeUpdates (p : nat) (m : FilterManager) : list update * FilterManager :=
  match fkind <$> objects m !! p with
  | Some (blockFilter elem) =>
      let '(updates, newHead) := headElem_getUpdates (stream m) elem in
      (updateBlock <$> updates, setHeadElem newHead p m)
  | Some (logFilter query logs) => (updateLog <$> logs, update_kind (logFilter query []) p m)
  | None => ([], m)
  end.

(** The read-locked half of [GetFilterChanges]: the filter, and its updates. *)
Definition getFilterAndChanges (id : list Z) (m : FilterManager) :
    result rpcError (nat * list update) * FilterManager :=
  match filters m !! id with
  | None => (Errors ErrFilterNotFound, m)
  | Some p =>
      match base_of m p with
      | None => (Panics, m)
      | Some base =>
          if hasWSConn base then (Errors ErrWSFilterDoesNotSupportGetChanges, m)
          else let '(res, m) := takeUpdates p m in (Returns (p, res), m)
      end
  end.

(** The other half takes the write lock again. *)
Definition GetFilterChanges (id : list Z) (now : Z) (m : FilterManager) : result rpcError (list update) * FilterManager :=
  match getFilterAndChanges id m with
  | (Returns (p, res), m) => (Returns res, refreshFilterTimeout now p m)
  | (Errors e, m) => (Errors e, m)
  | (Panics, m) => (Panics, m)
  end.

Definition GetLogFilterFromID (id : list Z) (m : FilterManager) : result rpcError LogQuery :=
  match filters m !! id with
  | None => Errors ErrFilterNotFound
  | Some p =>
      match fkind <$> objects m !! p with
      | Some (logFilter query _) => Returns query
      | _ => Errors ErrCastingFilterToLogFilter
      end
  end.

(** ** Events *)

Inductive wsError := ErrCloseSent | net_ErrClosed | otherWsError.

(** A message: the connection, the id of the filter and the update. *)
Definition message : Type := nat * list Z * update.

(** The loop of [sendUpdates]: it stops at the first error. [write k] is the
    outcome of the [k]th message of the filter. *)
Fixpoint sendAll (conn : nat) (id : list Z) (write : nat → option wsError) (k : nat) (updates : list update) :
    list message * option wsError :=
  match updates with
  | [] => ([], None)
  | u :: updates =>
      match write k with
      | Some err => ([], Some err)
      | None => let '(sent, err) := sendAll conn id write (S k) updates in ((conn, id, u) :: sent, err)
      end
  end.

(** [filter.sendUpdates()] of a filter with a connection. *)
Definition sendUpdates (write : nat → option wsError) (p : nat) (m : FilterManager) :
    list message * option wsError * FilterManager :=
  let '(updates, m) := takeUpdates p m in
  match base_of m p with
  | Some (mkFilterBase id _ _ (Some conn)) => (sendAll conn id write 0 updates, m)
  | _ => ([], None, m)
  end.

(** The loop of [flushWsFilters] over the map: the messages, and the filters
    whose connection is closed. *)
Fixpoint flushLoop (order : list (list Z)) (write : list Z → nat → option wsError) (m : FilterManager) :
    list message * list (list Z) * FilterManager :=
  match order with
  | [] => ([], [], m)
  | id :: order =>
      match p ← filters m !! id; b ← base_of m p; Some (p, b) with
      | None => flushLoop order write m
      | Some (p, b) =>
          if negb (hasWSConn b) then flushLoop order write m else
          let '(sent, flushErr, m) := sendUpdates (write id) p m in
          let '(rest, closedFilterIDs, m) := flushLoop order write m in
          (sent ++ rest,
           match flushErr with
           | Some ErrCloseSent | Some net_ErrClosed => id :: closedFilterIDs
           | _ => closedFilterIDs
           end, m)
      end
  end.

Definition removeClosed (closedFilterIDs : list (list Z)) (m : FilterManager) : FilterManager :=
  foldl (λ m id, (removeFilterByID id m).2) m closedFilterIDs.

Definition flushWsFilters (order : list (list Z)) (write : list Z → nat → option wsError) (m : FilterManager) :
    list message * FilterManager :=
  let '(sent, closedFilterIDs, m) := flushLoop order write m in
  (sent, removeClosed closedFilterIDs m).

(** [f.appendLog(log)] *)
Definition appendLog (log : rpcLog) (p : nat) (m : FilterManager) : FilterManager :=
  match fkind <$> objects m !! p with
  | Some (logFilter query logs) => update_kind (logFilter query (logs ++ [log])) p m
  | _ => m
  end.

(** The log filters, in the order of the map. *)
Definition logFilters (order : list (list Z)) (m : FilterManager) : list nat :=
  omap (λ id, p ← filters m !! id; o ← objects m !! p;
        match fkind o with logFilter _ _ => Some p | blockFilter _ => None end) order.

Definition matches (m : FilterManager) (log : Log) (p : nat) : bool :=
  match fkind <$> objects m !! p with Some (logFilter query _) => Match query log | _ => false end.

(** One log of a receipt, for every filter. *)
Definition appendToMatching (header : block) (txHash : Hash) (indx : nat) (ps : list nat) (log : Log) (m : FilterManager) :
    FilterManager :=
  foldl (λ m p, if matches m log p then
      appendLog (mkRpcLog (logAddress log) (Topics log) (logData log) (kNumber header) txHash (Z.of_nat indx)
                   (kHash header) 0 false) p m
    else m) m ps.

(** The loop over the receipts, from position [indx]. *)
Fixpoint appendReceipts (header : block) (b : Block) (ps : list nat) (indx : nat) (receipts : list Receipt)
    (m : FilterManager) : result rpcError FilterManager :=
  match receipts with
  | [] => Returns m
  | receipt :: receipts =>
      txHash ← (if bool_decide (rTxHash receipt = ZeroHash) then
                  txn ← or_panic (bTransactions b !! indx); Returns (tHash txn)
                else Returns (rTxHash receipt));
      appendReceipts header b ps (S indx) receipts
        (foldl (λ m log, appendToMatching header txHash indx ps log m) m (rLogs receipt))
  end.

Section store.
Context `{!ethStore, Rlp, Keccak}.

(** An error is logged by the caller, as is a block the store does not have. *)
Definition appendLogsToFilters (order : list (list Z)) (header : block) (m : FilterManager) :
    result rpcError FilterManager :=
  match store_GetReceiptsByHash (kHash header) with
  | None => Returns m
  | Some receipts =>
      let ps := logFilters order m in
      if (length ps =? 0)%nat then Returns m else
      match store_GetBlockByHash (kHash header) true with
      | None => Returns m
      | Some b => appendReceipts header b ps 0 receipts m
      end
  end.

(** The RPC form of a header alone: [&types.Block{Header: header}]. *)
Definition headerBlock (header : Header) : result rpcError block := toBlock (mkBlock header [] [] None) false.

Fixpoint processEvent (order : list (list Z)) (NewChain : list Header) (m : FilterManager) :
    result rpcError FilterManager :=
  match NewChain with
  | [] => Returns m
  | header :: NewChain =>
      b ← headerBlock header;
      m ← appendLogsToFilters order b (set_stream (push (stream m) b) m);
      processEvent order NewChain m
  end.

(** [flushWsFilters] returns no error. *)
Definition dispatchEvent (order : list (list Z)) (write : list Z → nat → option wsError) (NewChain : list Header)
    (m : FilterManager) : result rpcError (list message * FilterManager) :=
  m ← processEvent order NewChain m;
  Returns (flushWsFilters order write m).

Definition NewFilterManager (limit : Z) : result rpcError FilterManager :=
  header ← or_panic store_Header;
  b ← headerBlock header;
  Returns (mkFilterManager limit defaultTimeout (newBlockStream b) [] ∅ [] ∅).

(** ** Queries for the logs of blocks *)

Definition queryLog (b : Block) (txHash : Hash) (idx logIdx : nat) (log : Log) : rpcLog :=
  mkRpcLog (logAddress log) (Topics log) (logData log) (hNumber (bHeader b)) txHash (Z.of_nat idx) (hHash (bHeader b))
    (Z.of_nat logIdx) false.

Fixpoint receiptLogs (query : LogQuery) (b : Block) (idx logIdx : nat) (logs : list Log) : result rpcError (list rpcLog) :=
  match logs with
  | [] => Returns []
  | log :: logs =>
      found ← (if Match query log then
                 txn ← or_panic (bTransactions b !! idx); Returns [queryLog b (tHash txn) idx logIdx log]
               else Returns []);
      rest ← receiptLogs query b idx (S logIdx) logs;
      Returns (found ++ rest)
  end.

Fixpoint receiptsLogs (query : LogQuery) (b : Block) (idx : nat) (receipts : list Receipt) : result rpcError (list rpcLog) :=
  match receipts with
  | [] => Returns []
  | receipt :: receipts =>
      found ← receiptLogs query b idx 0 (rLogs receipt);
      rest ← receiptsLogs query b (S idx) receipts;
      Returns (found ++ rest)
  end.

Definition getLogsFromBlock (query : LogQuery) (b : Block) : result rpcError (list rpcLog) :=
  receipts ← or_error errStore (store_GetReceiptsByHash (hHash (bHeader b)));
  receiptsLogs query b 0 receipts.

(** The loop of [getLogsFromBlocks]: [n] is the number of blocks left. *)
Fixpoint blocksLogs (query : LogQuery) (n : nat) (i : Z) : result rpcError (list rpcLog) :=
  match n with
  | O => Returns []
  | S n =>
      match store_GetBlockByNumber i true with
      | None => Returns []
      | Some b =>
          blockLogs ← (if (length (bTransactions b) =? 0)%nat then Returns [] else getLogsFromBlock query b);
          rest ← blocksLogs query n (u64 (i + 1));
          Returns (blockLogs ++ rest)
      end
  end.

(** The loop runs while [i <= to]. *)
Definition getLogsFromBlocks (query : LogQuery) (m : FilterManager) : result rpcError (list rpcLog) :=
  from ← GetNumericBlockNumber (fromBlock query);
  to ← GetNumericBlockNumber (toBlockNumber query);
  if to <? from then Errors ErrIncorrectBlockRange else
  let from := if from =? 0 then 1 else from in
  if negb (blockRangeLimit m =? 0) && (blockRangeLimit m <? u64 (to - from)) then Errors ErrBlockRangeTooHigh else
  blocksLogs query (Z.to_nat (to + 1 - from)) from.

Definition GetLogsForQuery (query : LogQuery) (m : FilterManager) : result rpcError (list rpcLog) :=
  match qBlockHash query with
  | Some hash =>
      b ← or_error ErrBlockNotFound (store_GetBlockByHash hash true);
      if (length (bTransactions b) =? 0)%nat then Returns [] else getLogsFromBlock query b
  | None => getLogsFromBlocks query m
  end.

(** [eth_getFilterLogs] *)
Definition GetFilterLogs (id : list Z) (m : FilterManager) : result rpcError (list rpcLog) :=
  query ← GetLogFilterFromID id m; GetLogsForQuery query m.
End store.
