(* ===== verification/FilterState.v ===== *)
(** * The heap and the states of the filter manager

    The operations of the heap of timeouts keep the index of every filter
    equal to its position, order the heap by the time of expiry, and change
    nothing else of the manager ([frame]). The block stream as a list, the
    well-formedness [wf] of a manager, what a client sees of it ([abs]), and
    the effect of every operation on both. *)

From stdpp Require Import gmap list.
From S2P Require Import Prelude BigInt Types Runtime Rlp BlockTypes Result Heap JsonRpc FilterManager.
#[local] Open Scope Z_scope.

(** ** What the heap operations leave alone *)

(** A filter without its index. *)
Definition forget (o : filter) : list Z * Z * option nat * filterKind :=
  (fid (getFilterBase o), expiresAt (getFilterBase o), ws (getFilterBase o), fkind o).

Record frame (m m' : FilterManager) : Prop := {
  frame_limit : blockRangeLimit m' = blockRangeLimit m;
  frame_timeout : timeout m' = timeout m;
  frame_stream : stream m' = stream m;
  frame_filters : filters m' = filters m;
  frame_ws : wsFilterID m' = wsFilterID m;
  frame_objects : forget <$> objects m' = forget <$> objects m;
}.

#[export] Instance frame_preorder : PreOrder frame.
Proof.
  split; [done|]. intros m1 m2 m3 [] []. split; congruence.
Qed.

Lemma frame_sym m m' : frame m m' → frame m' m.
Proof. intros []. by split. Qed.

Lemma frame_lookup m m' p : frame m m' → forget <$> objects m' !! p = forget <$> objects m !! p.
Proof. intros [_ _ _ _ _ E]. by rewrite <- !list_lookup_fmap, E. Qed.

Lemma frame_base m m' p b :
  frame m m' → base_of m p = Some b →
  ∃ b', base_of m' p = Some b' ∧ fid b' = fid b ∧ expiresAt b' = expiresAt b ∧ ws b' = ws b.
Proof.
  intros F. apply (frame_lookup m m' p) in F. unfold base_of in *.
  destruct (objects m !! p) as [o|], (objects m' !! p) as [o'|]; try done. cbn. intros [= <-]. injection F as ? ? ? ?.
  by exists (getFilterBase o').
Qed.

Lemma frame_kind m m' p : frame m m' → fkind <$> objects m' !! p = fkind <$> objects m !! p.
Proof.
  intros F. apply (frame_lookup m m' p) in F.
  destruct (objects m !! p) as [o|], (objects m' !! p) as [o'|]; try done. cbn. by injection F as ? ? ? ->.
Qed.

Lemma frame_expiry m m' p : frame m m' → expiry m' p = expiry m p.
Proof.
  intros F. apply (frame_lookup m m' p) in F. unfold expiry, base_of.
  destruct (objects m !! p) as [o|], (objects m' !! p) as [o'|]; try done. cbn. by injection F as ? -> ? ?.
Qed.

Lemma frame_length m m' : frame m m' → length (objects m') = length (objects m).
Proof. intros [_ _ _ _ _ E]. apply (f_equal length) in E. by rewrite !length_fmap in E. Qed.

(** ** Indices *)

Definition index_of (m : FilterManager) (p : nat) : Z := default (-1) (heapIndex <$> base_of m p).

(** The index of a filter is its position in the heap, or -1. *)
Record indexed (m : FilterManager) : Prop := {
  indexed_position i p : timeouts m !! i = Some p → index_of m p = Z.of_nat i;
  indexed_present p : index_of m p = -1 ∨ ∃ i, index_of m p = Z.of_nat i ∧ timeouts m !! i = Some p;
}.

Lemma base_of_update f p q m :
  base_of (update_base f p m) q = (if decide (q = p) then f else id) <$> base_of m q.
Proof.
  unfold base_of, update_base. cbn. destruct (decide (q = p)) as [->|Hne].
  - rewrite list_lookup_alter_eq. by destruct (objects m !! p).
  - rewrite list_lookup_alter_ne by done. by destruct (objects m !! q).
Qed.

Lemma index_of_set i p q m :
  (p < length (objects m))%nat → index_of (set_heapIndex i p m) q = if decide (q = p) then i else index_of m q.
Proof.
  intros Hp. unfold index_of, set_heapIndex. rewrite base_of_update. case_decide as E.
  - subst q. unfold base_of. destruct (lookup_lt_is_Some_2 _ _ Hp) as [o ->]. done.
  - by destruct (base_of m q).
Qed.

Lemma frame_set_heapIndex i p m : frame m (set_heapIndex i p m).
Proof.
  split; try done. cbn. apply list_eq. intros k. rewrite !list_lookup_fmap.
  destruct (decide (k = p)) as [->|].
  - rewrite list_lookup_alter_eq. by destruct (objects m !! p).
  - by rewrite list_lookup_alter_ne.
Qed.

Lemma frame_set_timeouts t m : frame m (set_timeouts t m).
Proof. done. Qed.

Lemma indexed_allocated m i p : indexed m → timeouts m !! i = Some p → (p < length (objects m))%nat.
Proof.
  intros Hi Hp. apply (indexed_position m Hi) in Hp. unfold index_of, base_of in Hp.
  destruct (objects m !! p) eqn:E; [by eapply lookup_lt_Some|]. cbn in Hp. lia.
Qed.

Lemma indexed_NoDup m : indexed m → NoDup (timeouts m).
Proof.
  intros Hi. apply NoDup_alt. intros i j p Hp Hq. apply (indexed_position m Hi) in Hp, Hq. lia.
Qed.

Lemma indexed_absent m p : indexed m → index_of m p = -1 ↔ p ∉ timeouts m.
Proof.
  intros Hi. split.
  - intros E [i Hp]%list_elem_of_lookup. apply (indexed_position m Hi) in Hp. lia.
  - intros Hp. destruct (indexed_present m Hi p) as [|(i & _ & Hl)]; [done|].
    destruct Hp. by eapply list_elem_of_lookup_2.
Qed.

(** ** The order *)

Definition sooner (m : FilterManager) (p q : nat) : bool := expiry m p <? expiry m q.

#[export] Instance sooner_strict m : StrictWeak (sooner m).
Proof. unfold sooner. split; intros; rewrite ?Z.ltb_lt, ?Z.ltb_ge in *; lia. Qed.

Lemma heap_ok_ext {A} (less less' : A → A → bool) (l : list A) :
  (∀ x y, x ∈ l → y ∈ l → less x y = less' x y) → heap_ok less l → heap_ok less' l.
Proof.
  intros E Hl i j Hij x y Hj Hx Hy. unfold before.
  rewrite <- E by by eapply list_elem_of_lookup_2. by apply (Hl i j Hij x y).
Qed.

Lemma frame_heap m m' l : frame m m' → heap_ok (sooner m) l → heap_ok (sooner m') l.
Proof. intros F. apply heap_ok_ext. intros. unfold sooner. by rewrite !(frame_expiry m m'). Qed.

(** ** The interface *)

Definition heap_inv (m0 m : FilterManager) : Prop := indexed m ∧ frame m0 m.

Lemma Swap_indexed m i j p q :
  indexed m → i ≠ j → timeouts m !! i = Some p → timeouts m !! j = Some q → indexed (h_Swap i j m).
Proof.
  intros Hi Hne Hp Hq. cbn. unfold timeHeap_Swap. rewrite Hp, Hq.
  assert (p ≠ q) as Hpq by (intros ->; apply (indexed_position m Hi) in Hp, Hq; lia).
  pose proof (indexed_allocated m i p Hi Hp) as Lp. pose proof (indexed_allocated m j q Hi Hq) as Lq.
  set (t := <[i:=q]> (<[j:=p]> (timeouts m))).
  assert (∀ k, t !! k = if decide (k = i) then Some q else if decide (k = j) then Some p else timeouts m !! k) as Ht.
  { intros k. pose proof (Swap_spec i j (timeouts m) p q k Hp Hq) as E. unfold Swap in E. by rewrite Hp, Hq in E. }
  assert (∀ k, index_of (set_heapIndex (Z.of_nat j) p (set_heapIndex (Z.of_nat i) q (set_timeouts t m))) k =
    if decide (k = p) then Z.of_nat j else if decide (k = q) then Z.of_nat i else index_of m k) as Hx.
  { intros k. rewrite index_of_set by (cbn; by rewrite length_alter). by rewrite index_of_set. }
  split.
  - intros k r. cbn. rewrite Ht, Hx. repeat case_decide; intros E; simplify_eq; try done.
    + apply (indexed_position m Hi) in E, Hp. lia.
    + apply (indexed_position m Hi) in E, Hq. lia.
    + by apply (indexed_position m Hi).
  - intros r. rewrite Hx. case_decide; [|case_decide].
    + right. exists j. cbn. rewrite Ht. split; [done|]. repeat case_decide; congruence.
    + right. exists i. cbn. rewrite Ht. split; [done|]. repeat case_decide; congruence.
    + destruct (indexed_present m Hi r) as [|(k & E & Hk)]; [by left|right]. exists k. cbn. rewrite Ht.
      split; [done|]. repeat case_decide; congruence.
Qed.

Lemma frame_Swap i j m : frame m (h_Swap i j m).
Proof.
  cbn. unfold timeHeap_Swap. destruct (timeouts m !! i), (timeouts m !! j); try done.
  etrans; [|apply frame_set_heapIndex]. etrans; [|apply frame_set_heapIndex]. apply frame_set_timeouts.
Qed.

#[export] Instance timeHeap_viewed m0 : Viewed (sooner m0) timeouts (heap_inv m0).
Proof.
  split.
  - done.
  - intros m i j [_ F]. cbn. unfold timeHeap_Less, Less, sooner. by destruct (timeouts m !! i), (timeouts m !! j); rewrite ?(frame_expiry m0 m).
  - intros m i j p q [Hi F] Hne Hp Hq. split.
    + cbn. unfold timeHeap_Swap, Swap. by rewrite Hp, Hq.
    + split; [by eapply Swap_indexed|]. etrans; [done|apply frame_Swap].
Qed.

(** ** Adding and removing *)

(** [m'] is [m] with another heap. *)
Record reheaped (m m' : FilterManager) : Prop := {
  reheaped_indexed : indexed m';
  reheaped_frame : frame m m';
  reheaped_heap : heap_ok (sooner m') (timeouts m');
}.

Lemma timeHeap_addFilter_spec m p :
  indexed m → heap_ok (sooner m) (timeouts m) → (p < length (objects m))%nat → p ∉ timeouts m →
  reheaped m (timeHeap_addFilter m p) ∧ timeouts (timeHeap_addFilter m p) ≡ₚ p :: timeouts m.
Proof.
  intros Hi Hh Lp Hp. unfold timeHeap_addFilter. cbv zeta. set (m1 := timeHeap_Push m p).
  assert (timeouts m1 = timeouts m ++ [p]) as Et by done.
  assert (frame m m1) as F1
    by (etrans; [apply (frame_set_heapIndex (zlen (timeouts m)) p)|apply frame_set_timeouts]).
  assert (∀ k, index_of m1 k = if decide (k = p) then zlen (timeouts m) else index_of m k) as Hx
    by (intros k; unfold m1; exact (index_of_set _ p k m Lp)).
  assert (indexed m1) as Hi1.
  { split.
    - intros i q. rewrite Et, Hx. intros E. apply lookup_app_Some in E as [E|[L E]].
      + case_decide; [|by apply (indexed_position m Hi)]. subst q. destruct Hp. by eapply list_elem_of_lookup_2.
      + apply list_lookup_singleton_Some in E as [E <-]. rewrite decide_True by done. unfold zlen. lia.
    - intros q. rewrite Hx, Et. case_decide.
      + right. exists (length (timeouts m)). subst q. by rewrite lookup_app_r, Nat.sub_diag.
      + destruct (indexed_present m Hi q) as [|(i & E & Hq)]; [by left|right]. exists i. split; [done|].
        by apply lookup_app_l_Some. }
  assert (h_Len m1 - 1 = length (timeouts m))%nat as -> by (cbn; rewrite length_app; cbn; lia).
  destruct (up_on_view (sooner m) timeouts (heap_inv m) (h_Len m1) m1 (length (timeouts m))) as [E1 [E2 E3]];
    [by split|rewrite Et, length_app; cbn; lia|].
  assert (timeouts (up_on (h_Len m1) m1 (length (timeouts m))) = Push (sooner m) (timeouts m) p) as Ep.
  { rewrite E1. unfold Push. rewrite Et. change (h_Len m1) with (length (timeouts m1)). rewrite Et, length_app. cbn [length].
    by rewrite Nat.add_sub. }
  split; [split; [done|done|]|].
  - rewrite Ep. eapply frame_heap; [done|]. by apply Push_ok; [apply _|].
  - rewrite Ep. apply Push_perm.
Qed.

Lemma timeHeap_Pop_spec m l p :
  indexed m → timeouts m = l ++ [p] → frame m (timeHeap_Pop m) ∧ indexed (timeHeap_Pop m) ∧ timeouts (timeHeap_Pop m) = l.
Proof.
  intros Hi Et. unfold timeHeap_Pop. cbv zeta.
  assert (timeouts m !! length l = Some p) as Hp by by rewrite Et, lookup_app_r, Nat.sub_diag.
  replace (length (timeouts m) - 1)%nat with (length l) by (rewrite Et, length_app; cbn; lia). rewrite Hp.
  pose proof (indexed_allocated m _ p Hi Hp) as Lp.
  assert (take (length l) (timeouts m) = l) as Etake by (rewrite Et; by apply take_app_length').
  split; [etrans; [apply (frame_set_heapIndex (-1) p)|apply frame_set_timeouts]|]. split; [|done].
  assert (∀ k, index_of (set_timeouts (take (length l) (timeouts m)) (set_heapIndex (-1) p m)) k =
    if decide (k = p) then -1 else index_of m k) as Hx by (intros k; exact (index_of_set (-1) p k m Lp)).
  assert (∀ i q, l !! i = Some q → timeouts m !! i = Some q ∧ q ≠ p) as Hl.
  { intros i q Hq. assert (timeouts m !! i = Some q) as Hq' by (rewrite Et; by apply lookup_app_l_Some).
    split; [done|]. intros ->. apply (indexed_position m Hi) in Hq', Hp. apply lookup_lt_Some in Hq. lia. }
  split.
  - intros i q Hq. rewrite Hx. cbn [timeouts set_timeouts] in Hq. rewrite Etake in Hq. destruct (Hl i q Hq). rewrite decide_False by done.
    by apply (indexed_position m Hi).
  - intros q. rewrite Hx. cbn [timeouts set_timeouts]. rewrite Etake. case_decide; [by left|].
    destruct (indexed_present m Hi q) as [|(i & E & Hq)]; [by left|right]. exists i. split; [done|].
    rewrite Et in Hq. apply lookup_app_Some in Hq as [|[_ Hq]]; [done|].
    apply list_lookup_singleton_Some in Hq as [_ ->]. done.
Qed.

Lemma timeHeap_removeFilter_spec m p :
  indexed m → heap_ok (sooner m) (timeouts m) →
  let m' := (timeHeap_removeFilter m p).2 in
  reheaped m m' ∧ (timeHeap_removeFilter m p).1 = bool_decide (p ∈ timeouts m) ∧
  (p ∈ timeouts m → timeouts m ≡ₚ p :: timeouts m') ∧ (p ∉ timeouts m → m' = m).
Proof.
  intros Hi Hh. unfold timeHeap_removeFilter.
  destruct (base_of m p) as [f|] eqn:Ef.
  - assert (index_of m p = heapIndex f) as Ex by (unfold index_of; by rewrite Ef).
    destruct (Z.eqb_spec (heapIndex f) NoIndexInHeap) as [E|E]; cbn [fst snd].
    + assert (p ∉ timeouts m) by (apply (indexed_absent m p Hi); by rewrite Ex).
      split_and!; [by split|by rewrite bool_decide_false|done|done].
    + destruct (indexed_present m Hi p) as [E'|(i & E' & Hp)]; [by rewrite Ex in E'|].
      replace (heapIndex f) with (Z.of_nat i) by lia. rewrite Nat2Z.id.
      destruct (Remove_on_view (sooner m) timeouts (heap_inv m) m i p) as (l & Et & [Hi' F'] & Hperm & Hl);
        [by split|done|done|].
      destruct (timeHeap_Pop_spec _ l p Hi' Et) as (F2 & Hi2 & Et2).
      assert (p ∈ timeouts m) by by eapply list_elem_of_lookup_2.
      split_and!; [split; [done|by etrans|]|by rewrite bool_decide_true|by rewrite Et2|done].
      rewrite Et2. apply (frame_heap m); [by etrans|done].
  - assert (p ∉ timeouts m) by (apply (indexed_absent m p Hi); unfold index_of; by rewrite Ef).
    split_and!; [by split|by rewrite bool_decide_false|done|done].
Qed.

(** ** The stream *)

(** The stream after the blocks [bs]: every element points to the next. *)
Definition stream_of (bs : list block) : blockStream :=
  mkBlockStream (imap (λ k b, mkHeadElem (Some b) (if decide (S k = length bs) then None else Some (S k))) bs)
    (length bs - 1).

Lemma block_Copy_id b : block_Copy b = b.
Proof. by destruct b. Qed.

Lemma lookup_stream bs k :
  elems (stream_of bs) !! k =
  (λ b, mkHeadElem (Some b) (if decide (S k = length bs) then None else Some (S k))) <$> bs !! k.
Proof. apply list_lookup_imap. Qed.

Lemma length_stream bs : length (elems (stream_of bs)) = length bs.
Proof. apply length_imap. Qed.

Lemma push_stream bs b : bs ≠ [] → push (stream_of bs) b = stream_of (bs ++ [b]).
Proof.
  intros Hne. assert (0 < length bs)%nat as Hl by (destruct bs; [done|cbn; lia]).
  unfold push. cbv zeta. rewrite length_stream, block_Copy_id. unfold stream_of at 3. f_equal; [|rewrite length_app; cbn; lia].
  apply list_eq. intros k. rewrite list_lookup_imap, length_app. cbn [length].
  destruct (Nat.lt_trichotomy k (length bs)) as [L|[->|L]].
  - rewrite !lookup_app_l by (rewrite ?length_alter, ?length_stream; done).
    destruct (lookup_lt_is_Some_2 bs k L) as [x Hx].
    destruct (decide (k = length bs - 1)%nat) as [->|Hk].
    + unfold stream_of at 1. cbn [head]. rewrite list_lookup_alter_eq, lookup_stream, Hx. cbn.
      rewrite decide_False by lia. do 3 f_equal. lia.
    + rewrite list_lookup_alter_ne by (cbn; done). rewrite lookup_stream, Hx. cbn. by rewrite !decide_False by lia.
  - rewrite !lookup_app_r by (rewrite ?length_alter, ?length_stream; done).
    rewrite length_alter, length_stream, Nat.sub_diag. cbn. by rewrite decide_True by lia.
  - rewrite !lookup_ge_None_2 by (rewrite ?length_app, ?length_alter, ?length_stream; cbn; lia). done.
Qed.

Lemma elemUpdates_stream fuel bs k :
  (k < length bs)%nat → (length bs ≤ k + fuel)%nat →
  elemUpdates fuel (elems (stream_of bs)) k = (drop (S k) bs, (length bs - 1)%nat).
Proof.
  revert k. induction fuel as [|fuel IH]; intros k Hk Hf; [lia|]. cbn [elemUpdates].
  rewrite !lookup_stream. destruct (lookup_lt_is_Some_2 bs k Hk) as [b ->]. cbn [fmap option_fmap option_map mbind option_bind elNext].
  destruct (decide (S k = length bs)) as [E|E].
  - rewrite drop_ge by lia. f_equal. lia.
  - rewrite IH by lia. rewrite lookup_stream. destruct (lookup_lt_is_Some_2 bs (S k)) as [c Hc]; [lia|]. rewrite Hc. cbn.
    by rewrite (drop_S bs c (S k) Hc).
Qed.

Lemma getUpdates_stream bs k :
  (k < length bs)%nat → headElem_getUpdates (stream_of bs) k = (drop (S k) bs, (length bs - 1)%nat).
Proof. intros Hk. unfold headElem_getUpdates. rewrite length_stream. apply elemUpdates_stream; lia. Qed.

(** ** Well-formed managers *)

Record wf (m : FilterManager) : Prop := {
  wf_indexed : indexed m;
  wf_heap : heap_ok (sooner m) (timeouts m);
  wf_filters id p : filters m !! id = Some p →
    ∃ b, base_of m p = Some b ∧ fid b = id ∧ (ws b = None → p ∈ timeouts m);
  wf_timeouts p b : p ∈ timeouts m → base_of m p = Some b → ws b = None;
  wf_ids p q b b' : base_of m p = Some b → base_of m q = Some b' → fid b = fid b' → p = q;
  wf_stream : ∃ bs, bs ≠ [] ∧ stream m = stream_of bs;
  wf_blocks p e : fkind <$> objects m !! p = Some (blockFilter e) → (e < length (elems (stream m)))%nat;
}.

(** ** What a client sees *)

Record clientFilter := mkClient {
  cQuery : option LogQuery;   (** [None] for a block filter *)
  cWs : option nat;
  cPending : list update;
}.

Definition client_of (m : FilterManager) (p : nat) : option clientFilter :=
  o ← objects m !! p;
  Some (match fkind o with
        | blockFilter elem =>
            mkClient None (ws (getFilterBase o)) (updateBlock <$> (headElem_getUpdates (stream m) elem).1)
        | logFilter query logs => mkClient (Some query) (ws (getFilterBase o)) (updateLog <$> logs)
        end).

Definition abs (m : FilterManager) : gmap (list Z) clientFilter := omap (client_of m) (filters m).

Lemma lookup_abs m id : abs m !! id = filters m !! id ≫= client_of m.
Proof. apply lookup_omap. Qed.

(** ** Changes of the heap and of the time of expiry *)

(** A filter without its index and its time. *)
Definition essence (o : filter) : list Z * option nat * filterKind :=
  (fid (getFilterBase o), ws (getFilterBase o), fkind o).

Record kept (m m' : FilterManager) : Prop := {
  kept_limit : blockRangeLimit m' = blockRangeLimit m;
  kept_timeout : timeout m' = timeout m;
  kept_stream : stream m' = stream m;
  kept_filters : filters m' = filters m;
  kept_ws : wsFilterID m' = wsFilterID m;
  kept_objects p : essence <$> objects m' !! p = essence <$> objects m !! p;
}.

#[export] Instance kept_preorder : PreOrder kept.
Proof. split; [done|]. intros m1 m2 m3 [] []. split; congruence. Qed.

Lemma frame_kept m m' : frame m m' → kept m m'.
Proof.
  intros F. split; [by apply F..|]. intros p. pose proof (frame_lookup m m' p F) as E.
  destruct (objects m !! p), (objects m' !! p); try done. unfold forget, essence in *. cbn in *. congruence.
Qed.

Lemma kept_set_expiresAt t p m : kept m (set_expiresAt t p m).
Proof.
  split; try done. intros k. cbn. destruct (decide (k = p)) as [->|].
  - rewrite list_lookup_alter_eq. by destruct (objects m !! p).
  - by rewrite list_lookup_alter_ne.
Qed.

Lemma kept_base m m' p b :
  kept m m' → base_of m p = Some b → ∃ b', base_of m' p = Some b' ∧ fid b' = fid b ∧ ws b' = ws b.
Proof.
  intros F. pose proof (kept_objects m m' F p) as E. unfold base_of.
  destruct (objects m !! p) as [o|], (objects m' !! p) as [o'|]; try done. unfold essence in E. cbn in *. intros [= <-].
  injection E as ? ? ?. by exists (getFilterBase o').
Qed.

Lemma kept_sym m m' : kept m m' → kept m' m.
Proof. intros []. by split. Qed.

Lemma kept_abs m m' : kept m m' → abs m' = abs m.
Proof.
  intros F. apply map_eq. intros id. rewrite !lookup_abs, (kept_filters m m' F).
  destruct (filters m !! id) as [p|]; [|done]. cbn. unfold client_of. pose proof (kept_objects m m' F p) as E.
  destruct (objects m !! p) as [o|], (objects m' !! p) as [o'|]; try done. cbn in *.
  unfold essence in E. injection E as _ -> ->. by rewrite (kept_stream m m' F).
Qed.

(** The part of [wf] that does not speak of the heap. *)
Record shape (m : FilterManager) : Prop := {
  shape_filters id p : filters m !! id = Some p → ∃ b, base_of m p = Some b ∧ fid b = id;
  shape_ids p q b b' : base_of m p = Some b → base_of m q = Some b' → fid b = fid b' → p = q;
  shape_stream : ∃ bs, bs ≠ [] ∧ stream m = stream_of bs;
  shape_blocks p e : fkind <$> objects m !! p = Some (blockFilter e) → (e < length (elems (stream m)))%nat;
}.

Lemma wf_shape m : wf m → shape m.
Proof.
  intros W. split; [|by apply W..]. intros id p Hp. destruct (wf_filters m W id p Hp) as (b & ? & ? & _). by exists b.
Qed.

(** Another heap for the same filters. *)
Lemma wf_kept m m' :
  shape m → kept m m' → indexed m' → heap_ok (sooner m') (timeouts m') →
  (∀ id p b, filters m !! id = Some p → base_of m p = Some b → ws b = None → p ∈ timeouts m') →
  (∀ p b, p ∈ timeouts m' → base_of m p = Some b → ws b = None) → wf m'.
Proof.
  intros W F Hi Hh Hin Hws. split; [done|done|..].
  - intros id p. rewrite (kept_filters m m' F). intros Hp. destruct (shape_filters m W id p Hp) as (b & Hb & Hid).
    destruct (kept_base m m' p b F Hb) as (b' & Hb' & Hid' & Hw'). exists b'. split_and!; [done|congruence|].
    rewrite Hw'. by eapply Hin.
  - intros p b Hp Hb. destruct (kept_base m' m p b (kept_sym _ _ F) Hb) as (b' & Hb' & _ & <-). by eapply Hws.
  - intros p q b b' Hb Hb' E. destruct (kept_base m' m p b (kept_sym _ _ F) Hb) as (c & Hc & Ec & _).
    destruct (kept_base m' m q b' (kept_sym _ _ F) Hb') as (c' & Hc' & Ec' & _). eapply (shape_ids m W); [done..|congruence].
  - rewrite (kept_stream m m' F). apply (shape_stream m W).
  - intros p e. rewrite (kept_stream m m' F). intros Hk. apply (shape_blocks m W p).
    pose proof (kept_objects m m' F p) as E. destruct (objects m !! p), (objects m' !! p); try done.
    unfold essence in E. cbn in *. congruence.
Qed.

(** Setting the time of a filter that is not in the heap. *)
Lemma set_expiresAt_heap t p m :
  p ∉ timeouts m → indexed m → heap_ok (sooner m) (timeouts m) →
  indexed (set_expiresAt t p m) ∧ heap_ok (sooner (set_expiresAt t p m)) (timeouts m).
Proof.
  intros Hp Hi Hh.
  assert (∀ q, index_of (set_expiresAt t p m) q = index_of m q) as Hx.
  { intros q. unfold index_of, set_expiresAt. rewrite base_of_update. case_decide; by destruct (base_of m q). }
  split; [split|].
  - intros i q. cbn. rewrite Hx. apply (indexed_position m Hi).
  - intros q. cbn. rewrite Hx. apply (indexed_present m Hi).
  - eapply heap_ok_ext; [|done]. intros q r Hq Hr. unfold sooner, expiry, set_expiresAt.
    rewrite !base_of_update, !decide_False by (intros ->; done). by destruct (base_of m q), (base_of m r).
Qed.

Lemma addFilterTimeout_spec now p m :
  indexed m → heap_ok (sooner m) (timeouts m) → (p < length (objects m))%nat → p ∉ timeouts m →
  let m' := addFilterTimeout now p m in
  kept m m' ∧ indexed m' ∧ heap_ok (sooner m') (timeouts m') ∧ timeouts m' ≡ₚ p :: timeouts m.
Proof.
  intros Hi Hh Lp Hp. unfold addFilterTimeout. set (m1 := set_expiresAt _ p m).
  destruct (set_expiresAt_heap (now + timeout m) p m Hp Hi Hh) as [Hi1 Hh1]. fold m1 in Hi1, Hh1.
  destruct (timeHeap_addFilter_spec m1 p) as [[Hi2 F2 Hh2] Ep]; [done|done|by cbn; rewrite length_alter|done|].
  cbv zeta. split_and!; [|done|done|done]. etrans; [apply kept_set_expiresAt|]. by apply frame_kept.
Qed.

Lemma refreshFilterTimeout_spec now p b m :
  wf m → base_of m p = Some b → ws b = None →
  let m' := refreshFilterTimeout now p m in
  wf m' ∧ kept m m' ∧ (∀ q, q ∈ timeouts m' ↔ q = p ∨ q ∈ timeouts m).
Proof.
  intros W Hb Hws. unfold refreshFilterTimeout.
  destruct (timeHeap_removeFilter_spec m p (wf_indexed m W) (wf_heap m W)) as ([Hi1 F1 Hh1] & _ & Hin & Hout).
  set (m1 := (timeHeap_removeFilter m p).2) in *.
  assert (p ∉ timeouts m1) as Hp1.
  { destruct (decide (p ∈ timeouts m)) as [Hp|Hp]; [|by rewrite (Hout Hp)].
    pose proof (indexed_NoDup m (wf_indexed m W)) as ND. rewrite (Hin Hp) in ND. by apply NoDup_cons in ND as [? _]. }
  assert (p < length (objects m1))%nat as Lp.
  { rewrite (frame_length m m1 F1). unfold base_of in Hb. destruct (objects m !! p) eqn:E; [|done]. by eapply lookup_lt_Some. }
  destruct (addFilterTimeout_spec now p m1 Hi1 Hh1 Lp Hp1) as (K & Hi2 & Hh2 & Ep). cbv zeta.
  set (m2 := addFilterTimeout now p m1) in *.
  assert (kept m m2) as K2 by (etrans; [by apply frame_kept|done]).
  assert (∀ q, q ∈ timeouts m2 ↔ q = p ∨ q ∈ timeouts m) as Hq.
  { intros q. rewrite Ep, elem_of_cons. destruct (decide (p ∈ timeouts m)) as [Hp|Hp]; [|by rewrite (Hout Hp)].
    rewrite (Hin Hp), elem_of_cons. tauto. }
  split_and!; [|done|done]. apply (wf_kept m); [by apply wf_shape|done..| |].
  - intros id q c Hf Hc Hw. apply Hq. right. destruct (wf_filters m W id q Hf) as (c' & Hc' & _ & Hq'). apply Hq'. congruence.
  - intros q c [->|Hin']%Hq Hc; [congruence|by eapply (wf_timeouts m W)].
Qed.

(** Removing a filter from the map and the heap. *)
Lemma removeFilterByID_spec id m :
  wf m →
  let m' := (removeFilterByID id m).2 in
  wf m' ∧ kept (set_filters (delete id (filters m)) m) m' ∧
  (removeFilterByID id m).1 = bool_decide (filters m !! id ≠ None) ∧
  (∀ q, q ∈ timeouts m' ↔ q ∈ timeouts m ∧ filters m !! id ≠ Some q).
Proof.
  intros W. unfold removeFilterByID. destruct (filters m !! id) as [p|] eqn:Hp; cbn [fst snd].
  - set (m1 := set_filters (delete id (filters m)) m).
    assert (indexed m1 ∧ heap_ok (sooner m1) (timeouts m1)) as [Hi1 Hh1].
    { split; [|apply (wf_heap m W)]. destruct (wf_indexed m W). by split. }
    assert (wf m1) as W1.
    { split; [done|done| |apply (wf_timeouts m W)|apply (wf_ids m W)|apply (wf_stream m W)|apply (wf_blocks m W)].
      intros id' q. cbn. rewrite lookup_delete_Some. intros [_ Hq]. by apply (wf_filters m W). }
    destruct (timeHeap_removeFilter_spec m1 p Hi1 Hh1) as ([Hi2 F2 Hh2] & _ & Hin & Hout).
    set (m2 := (timeHeap_removeFilter m1 p).2) in *.
    assert (∀ q, q ∈ timeouts m2 ↔ q ∈ timeouts m ∧ q ≠ p) as Hq.
    { intros q. destruct (decide (p ∈ timeouts m)) as [Hpin|Hpout].
      - pose proof (indexed_NoDup m (wf_indexed m W)) as ND. change (timeouts m) with (timeouts m1) in Hpin, ND |- *.
        rewrite (Hin Hpin) in ND |- *. apply NoDup_cons in ND as [ND _]. rewrite elem_of_cons. split; [|naive_solver].
        intros Hq. split; [by right|]. by intros ->.
      - rewrite (Hout Hpout). split; [|by intros []]. intros Hq. split; [done|]. by intros ->. }
    split_and!; [|by apply frame_kept|done|].
    + apply (wf_kept m1); [by apply wf_shape|by apply frame_kept|done|done| |].
      * intros id' q b Hf Hb Hw. apply Hq. cbn in Hf. apply lookup_delete_Some in Hf as [Hne Hf].
        destruct (wf_filters m W id' q Hf) as (c & Hc & Hid & Hq').
        assert (c = b) as -> by (change (base_of m1 q) with (base_of m q) in Hb; congruence).
        split; [by apply Hq'|]. intros ->. destruct (wf_filters m W id p Hp) as (c & Hc' & Hid' & _).
        rewrite Hc in Hc'. injection Hc' as <-. congruence.
      * intros q b Hin' Hb. apply Hq in Hin' as [Hin' _]. by eapply (wf_timeouts m W).
    + intros q. rewrite Hq. naive_solver.
  - split_and!; [done| |done|].
    + rewrite delete_id by done. by destruct m.
    + intros q. naive_solver.
Qed.

(** ** New filters *)

(** No filter, installed or not, has this id. *)
Definition fresh (uuid : list Z) (m : FilterManager) : Prop := ∀ p b, base_of m p = Some b → fid b ≠ uuid.

(** The filter is allocated and entered in the map. *)
Definition registered (f : filter) (m : FilterManager) : FilterManager :=
  set_filters (<[fid (getFilterBase f) := length (objects m)]> (filters m)) (set_objects (objects m ++ [f]) m).

Lemma base_of_snoc m f p :
  base_of (registered f m) p = if decide (p = length (objects m)) then Some (getFilterBase f) else base_of m p.
Proof.
  unfold base_of. cbn. case_decide as E.
  - subst p. by rewrite lookup_app_r, Nat.sub_diag.
  - destruct (decide (p < length (objects m))%nat); [by rewrite lookup_app_l|].
    rewrite !lookup_ge_None_2 by (rewrite ?length_app; cbn; lia). done.
Qed.

Lemma base_of_lt m p b : base_of m p = Some b → (p < length (objects m))%nat.
Proof. unfold base_of. destruct (objects m !! p) eqn:E; [|done]. intros _. by eapply lookup_lt_Some. Qed.

Lemma registered_shape f m :
  wf m → fresh (fid (getFilterBase f)) m →
  (∀ e, fkind f = blockFilter e → (e < length (elems (stream m)))%nat) → shape (registered f m).
Proof.
  intros W Hfresh Hk. split.
  - intros id p. cbn. intros [[<- <-]|[Hne Hp]]%lookup_insert_Some.
    + exists (getFilterBase f). by rewrite base_of_snoc, decide_True.
    + destruct (wf_filters m W id p Hp) as (b & Hb & Hid & _). exists b. rewrite base_of_snoc.
      by rewrite decide_False by (apply base_of_lt in Hb; lia).
  - intros p q b b'. rewrite !base_of_snoc. do 2 case_decide; intros E E' Eid; simplify_eq; try done.
    + by apply Hfresh in E'.
    + by apply Hfresh in E.
    + by eapply (wf_ids m W).
  - apply (wf_stream m W).
  - intros p e. cbn. destruct (decide (p < length (objects m))%nat).
    + rewrite lookup_app_l by done. apply (wf_blocks m W p).
    + destruct ((objects m ++ [f]) !! p) as [o|] eqn:E; [|done]. cbn. intros [= Ek]. apply Hk.
      rewrite lookup_app_r in E by lia. apply list_lookup_singleton_Some in E as [_ ->]. done.
Qed.

Lemma registered_heap f m :
  wf m → heapIndex (getFilterBase f) = NoIndexInHeap →
  indexed (registered f m) ∧ heap_ok (sooner (registered f m)) (timeouts m) ∧ length (objects m) ∉ timeouts m.
Proof.
  intros W Hf. destruct (wf_indexed m W) as [Hpos Hpre].
  assert (∀ p, index_of (registered f m) p = index_of m p) as Hx.
  { intros p. unfold index_of. rewrite base_of_snoc. case_decide as E; [|done]. subst p. cbn. rewrite Hf.
    unfold base_of. by rewrite lookup_ge_None_2. }
  split_and!.
  - split; intros *; cbn; rewrite ?Hx; auto.
  - eapply heap_ok_ext; [|apply (wf_heap m W)]. intros p q Hp Hq. unfold sooner, expiry. rewrite !base_of_snoc.
    apply list_elem_of_lookup in Hp as [i Hp], Hq as [j Hq]. apply indexed_allocated in Hp, Hq; [|apply W..].
    by rewrite !decide_False by lia.
  - intros [i Hi]%list_elem_of_lookup. apply indexed_allocated in Hi; [lia|apply W].
Qed.

(** What a client sees of a filter of kind [k] once it is installed. *)
Definition new_client (k : filterKind) (conn : option nat) (m : FilterManager) : clientFilter :=
  match k with
  | blockFilter e => mkClient None conn (updateBlock <$> (headElem_getUpdates (stream m) e).1)
  | logFilter q logs => mkClient (Some q) conn (updateLog <$> logs)
  end.

(** A block filter starts at an element of the stream. *)
Definition starting (k : filterKind) (m : FilterManager) : Prop :=
  match k with blockFilter e => (e < length (elems (stream m)))%nat | logFilter _ _ => True end.

Lemma head_lt m : wf m → (getHead (stream m) < length (elems (stream m)))%nat.
Proof.
  intros W. destruct (wf_stream m W) as (bs & Hne & ->). rewrite length_stream. unfold getHead, stream_of. cbn.
  destruct bs; [done|cbn; lia].
Qed.

Lemma registered_abs uuid conn k m :
  wf m →
  abs (registered (mkFilter (newFilterBase uuid conn) k) m) = <[uuid := new_client k conn m]> (abs m).
Proof.
  intros W. apply map_eq. intros id. rewrite lookup_abs. cbn [filters registered set_filters getFilterBase newFilterBase fid].
  destruct (decide (id = uuid)) as [->|Hne].
  - rewrite !lookup_insert_eq. cbn [mbind option_bind]. unfold client_of. cbn.
    rewrite lookup_app_r, Nat.sub_diag by done. by destruct k.
  - rewrite !lookup_insert_ne by done. rewrite lookup_abs. destruct (filters m !! id) as [p|] eqn:Hp; [|done]. cbn.
    destruct (wf_filters m W id p Hp) as (b & Hb & _). apply base_of_lt in Hb. unfold client_of. cbn.
    by rewrite lookup_app_l.
Qed.

(** [addFilter]: well-formed, seen by the client as a new filter, and in the
    heap unless it has a connection. *)
Lemma addFilter_spec now uuid conn k m :
  wf m → fresh uuid m → starting k m →
  let m' := (addFilter now (mkFilter (newFilterBase uuid conn) k) m).2 in
  wf m' ∧ abs m' = <[uuid := new_client k conn m]> (abs m) ∧ kept (registered (mkFilter (newFilterBase uuid conn) k) m) m' ∧
  (∀ q, q ∈ timeouts m' ↔ q ∈ timeouts m ∨ (conn = None ∧ q = length (objects m))).
Proof.
  intros W Hfresh Hk. set (f := mkFilter _ k). unfold addFilter. cbv zeta.
  cbn [snd]. change (set_filters _ _) with (registered f m).
  assert (shape (registered f m)) as Hs.
  { apply registered_shape; [done|done|]. intros e Ek. cbn in Ek. by subst k. }
  destruct (registered_heap f m W eq_refl) as (Hi & Hh & Hp).
  pose proof (registered_abs uuid conn k m W) as Ea. fold f in Ea.
  assert (∀ id p b, filters (registered f m) !! id = Some p → base_of (registered f m) p = Some b → ws b = None →
            p ∈ timeouts m ∨ (conn = None ∧ p = length (objects m))) as Hin.
  { intros id p b Hf. rewrite base_of_snoc. case_decide; [intros [= <-] Hw; by right|]. intros Hb Hw. left.
    cbn in Hf. apply lookup_insert_Some in Hf as [[_ <-]|[_ Hf]]; [done|].
    destruct (wf_filters m W id p Hf) as (c & Hc & _ & Hin). apply Hin. congruence. }
  assert (∀ p b, p ∈ timeouts m → base_of (registered f m) p = Some b → ws b = None) as Hws.
  { intros p b Hp'. rewrite base_of_snoc. case_decide; [by subst p|]. by apply (wf_timeouts m W). }
  unfold hasWSConn. cbn [getFilterBase f newFilterBase ws]. destruct conn as [c|].
  - rewrite bool_decide_true by done. split_and!; [|done|done|naive_solver].
    apply (wf_kept (registered f m)); [done..| |done]. intros id p b Hf Hb Hw. by destruct (Hin id p b Hf Hb Hw) as [|[]].
  - rewrite bool_decide_false by naive_solver.
    destruct (addFilterTimeout_spec now (length (objects m)) (registered f m)) as (K & Hi2 & Hh2 & Ep);
      [done|done|cbn; rewrite length_app; cbn; lia|done|]. cbv zeta in *.
    set (m2 := addFilterTimeout _ _ _) in *. change (timeouts (registered f m)) with (timeouts m) in Ep.
    split_and!; [|by rewrite (kept_abs _ _ K)|done|intros q; rewrite Ep, elem_of_cons; naive_solver].
    apply (wf_kept (registered f m)); [done..| |].
    + intros id p b Hf Hb Hw. rewrite Ep, elem_of_cons. destruct (Hin id p b Hf Hb Hw) as [|[]]; auto.
    + intros p b. rewrite Ep, elem_of_cons. intros [->|Hp']; [|by apply Hws].
      rewrite base_of_snoc, decide_True by done. by intros [= <-].
Qed.
