(* ===== verification/FilterEvents.v ===== *)
(** * Updates and events of the filter manager

    Taking the updates of a filter, appending the logs of new blocks, and
    writing to the web sockets, as changes of what the clients see. *)

From stdpp Require Import gmap list.
From S2P Require Import Prelude BigInt Types Runtime Rlp BlockTypes Result Heap JsonRpc FilterManager FilterState.
#[local] Open Scope Z_scope.

(** ** Changes of the updates a filter holds *)

(** Another list of objects that agrees on the bases. *)
Lemma wf_kinds m o s :
  wf m → (∀ p, getFilterBase <$> o !! p = base_of m p) → (∃ bs, bs ≠ [] ∧ s = stream_of bs) →
  (∀ p e, fkind <$> o !! p = Some (blockFilter e) → (e < length (elems s))%nat) →
  wf (set_stream s (set_objects o m)).
Proof.
  intros W Hb Hs Hk. set (m' := set_stream s (set_objects o m)).
  assert (∀ p, base_of m' p = base_of m p) as Eb by done.
  assert (∀ p, index_of m' p = index_of m p) as Ex by (intros p; unfold index_of; by rewrite Eb).
  destruct (wf_indexed m W) as [Hpos Hpre]. split; [| | | | |done|done].
  - split; intros *; rewrite ?Ex; apply Hpos || apply Hpre.
  - eapply heap_ok_ext; [|apply (wf_heap m W)]. intros p q _ _. unfold sooner, expiry. by rewrite !Eb.
  - intros id p. rewrite Eb. apply (wf_filters m W).
  - intros p b. rewrite Eb. apply (wf_timeouts m W).
  - intros p q b b'. rewrite !Eb. apply (wf_ids m W).
Qed.

(** A change of one kind. *)
Lemma update_kind_base k p q m : base_of (update_kind k p m) q = base_of m q.
Proof.
  unfold base_of, update_kind. cbn. destruct (decide (q = p)) as [->|].
  - rewrite list_lookup_alter_eq. by destruct (objects m !! p).
  - by rewrite list_lookup_alter_ne.
Qed.

Lemma update_kind_wf k p m :
  wf m → (∀ e, k = blockFilter e → (e < length (elems (stream m)))%nat) → wf (update_kind k p m).
Proof.
  intros W Hk.
  assert (update_kind k p m = set_stream (stream m) (set_objects (alter (λ o, mkFilter (getFilterBase o) k) p (objects m)) m))
    as -> by reflexivity.
  apply wf_kinds.
  - done.
  - intros q. apply (update_kind_base k p q m).
  - apply (wf_stream m W).
  - intros q e. destruct (decide (q = p)) as [->|].
    + rewrite list_lookup_alter_eq. destruct (objects m !! p); [|done]. cbn. intros [= ->]. by apply Hk.
    + rewrite list_lookup_alter_ne by done. apply (wf_blocks m W q).
Qed.

Definition clear (c : clientFilter) : clientFilter := mkClient (cQuery c) (cWs c) [].

(** ** Taking the updates *)

Lemma takeUpdates_spec p m :
  wf m →
  let '(res, m') := takeUpdates p m in
  wf m' ∧ (∀ q, base_of m' q = base_of m q) ∧ filters m' = filters m ∧ timeouts m' = timeouts m ∧
  stream m' = stream m ∧
  res = default [] (cPending <$> client_of m p) ∧
  (∀ q, client_of m' q = if decide (q = p) then clear <$> client_of m q else client_of m q).
Proof.
  intros W. unfold takeUpdates. destruct (objects m !! p) as [[b k]|] eqn:Eo; cbn [fmap option_fmap option_map fkind].
  - destruct k as [e|q logs].
    + assert (fkind <$> objects m !! p = Some (blockFilter e)) as Ek by by rewrite Eo.
      apply (wf_blocks m W) in Ek. destruct (wf_stream m W) as (bs & Hne & Es). rewrite Es, length_stream in Ek.
      rewrite Es. rewrite (getUpdates_stream bs e Ek).
      assert (length bs - 1 < length bs)%nat as Hl by lia. split_and!; try done.
      * apply update_kind_wf; [done|]. intros e' [= <-]. rewrite Es, length_stream. lia.
      * intros q. apply update_kind_base.
      * unfold client_of. rewrite Eo. cbn. by rewrite Es, getUpdates_stream.
      * intros q. unfold client_of, update_kind. cbn. case_decide as E.
        -- subst q. rewrite list_lookup_alter_eq, Eo. cbn. rewrite Es, getUpdates_stream by done. cbn.
           rewrite drop_ge by lia. done.
        -- by rewrite list_lookup_alter_ne.
    + split_and!; try done.
      * by apply update_kind_wf.
      * intros q'. apply update_kind_base.
      * unfold client_of. by rewrite Eo.
      * intros q'. unfold client_of, update_kind. cbn. case_decide as E.
        -- subst q'. by rewrite list_lookup_alter_eq, Eo.
        -- by rewrite list_lookup_alter_ne.
  - split_and!; try done; unfold client_of; [by rewrite Eo|]. intros q. case_decide as E; [|done]. subst q. by rewrite Eo.
Qed.

Lemma client_block m p base e :
  objects m !! p = Some (mkFilter base (blockFilter e)) →
  client_of m p = Some (mkClient None (ws base) (updateBlock <$> (headElem_getUpdates (stream m) e).1)).
Proof. unfold client_of. by intros ->. Qed.

Lemma client_logs m p base q logs :
  objects m !! p = Some (mkFilter base (logFilter q logs)) →
  client_of m p = Some (mkClient (Some q) (ws base) (updateLog <$> logs)).
Proof. unfold client_of. by intros ->. Qed.

(** Two ids never share a filter. *)
Lemma filters_inj m id id' p : wf m → filters m !! id = Some p → filters m !! id' = Some p → id = id'.
Proof.
  intros W H1 H2. apply (wf_filters m W) in H1 as (b & Hb & <- & _). apply (wf_filters m W) in H2 as (b' & Hb' & <- & _).
  congruence.
Qed.

Lemma client_allocated m id p : wf m → filters m !! id = Some p → is_Some (client_of m p).
Proof.
  intros W Hp. destruct (wf_filters m W id p Hp) as (b & Hb & _). unfold client_of, base_of in *.
  destruct (objects m !! p); [by eexists|done].
Qed.

(** One filter of the map changed. *)
Lemma abs_alter m m' id p f :
  wf m → filters m !! id = Some p → filters m' = filters m →
  (∀ q, client_of m' q = if decide (q = p) then f <$> client_of m q else client_of m q) →
  abs m' = alter f id (abs m).
Proof.
  intros W Hp Ef Hc. apply map_eq. intros id'. rewrite lookup_abs, Ef. destruct (decide (id' = id)) as [->|Hne].
  - rewrite lookup_alter_eq, lookup_abs, Hp. cbn. by rewrite Hc, decide_True.
  - rewrite lookup_alter_ne, lookup_abs by done. destruct (filters m !! id') as [q|] eqn:Hq; [|done]. cbn.
    rewrite Hc, decide_False; [done|]. intros ->. by destruct Hne; eapply filters_inj.
Qed.

Lemma abs_removed id m m' : kept (set_filters (delete id (filters m)) m) m' → abs m' = delete id (abs m).
Proof.
  intros K. rewrite (kept_abs _ _ K). apply map_eq. intros i. rewrite lookup_abs. cbn [filters set_filters].
  destruct (decide (i = id)) as [->|Hne].
  - by rewrite !lookup_delete_eq.
  - by rewrite !lookup_delete_ne, lookup_abs by done.
Qed.

(** ** Appending logs *)

Definition addLogs (g : LogQuery → list rpcLog) (o : filter) : filter :=
  match fkind o with
  | logFilter q logs => mkFilter (getFilterBase o) (logFilter q (logs ++ g q))
  | blockFilter _ => o
  end.

(** The filters [ps] append the logs [g] finds for their query. *)
Definition touch (g : LogQuery → list rpcLog) (ps : list nat) (m : FilterManager) : FilterManager :=
  set_objects (imap (λ k o, if decide (k ∈ ps) then addLogs g o else o) (objects m)) m.

Lemma lookup_touch g ps m k :
  objects (touch g ps m) !! k = (if decide (k ∈ ps) then addLogs g else id) <$> objects m !! k.
Proof. cbn. rewrite list_lookup_imap. case_decide; by destruct (objects m !! k). Qed.

Lemma manager_eq m m' : (∀ k, objects m' !! k = objects m !! k) → m' = set_objects (objects m') m → m' = m.
Proof. intros Ho ->. apply list_eq in Ho. cbn in Ho. rewrite Ho. by destruct m. Qed.

Lemma addLogs_nil o : addLogs (λ _, []) o = o.
Proof. unfold addLogs. destruct o as [b [e|q l]]; [done|]. cbn. by rewrite app_nil_r. Qed.

Lemma addLogs_app g h o : addLogs h (addLogs g o) = addLogs (λ q, g q ++ h q) o.
Proof. unfold addLogs. destruct o as [b [e|q l]]; [done|]. cbn. by rewrite app_assoc. Qed.

Lemma touch_nil ps m : touch (λ _, []) ps m = m.
Proof.
  apply manager_eq; [|done]. intros k. rewrite lookup_touch. case_decide; [|by rewrite option_fmap_id].
  destruct (objects m !! k); [|done]. cbn. by rewrite addLogs_nil.
Qed.

Lemma touch_app g h ps m : touch h ps (touch g ps m) = touch (λ q, g q ++ h q) ps m.
Proof.
  apply manager_eq; [|done]. intros k. rewrite !lookup_touch. destruct (objects m !! k) as [o|]; [|done].
  cbn. case_decide; [by rewrite addLogs_app|done].
Qed.

Lemma touch_cons g p ps m : p ∉ ps → touch g ps (touch g [p] m) = touch g (p :: ps) m.
Proof.
  intros Hp. apply manager_eq; [|done]. intros k. rewrite !lookup_touch. destruct (objects m !! k) as [o|]; [|done]. cbn.
  f_equal. destruct (decide (k = p)) as [->|Hne].
  - by rewrite (decide_False (P := p ∈ ps)), !decide_True by set_solver.
  - rewrite (decide_False (P := k ∈ [p])) by set_solver. destruct (decide (k ∈ ps)); [by rewrite decide_True by set_solver|].
    by rewrite decide_False by set_solver.
Qed.

(** The log of one filter. *)
Definition eventLog (header : block) (txHash : Hash) (indx : nat) (log : Log) : rpcLog :=
  mkRpcLog (logAddress log) (Topics log) (logData log) (kNumber header) txHash (Z.of_nat indx) (kHash header) 0 false.

Lemma append_one header txHash indx log p m :
  (if matches m log p then appendLog (eventLog header txHash indx log) p m else m) =
  touch (λ q, if Match q log then [eventLog header txHash indx log] else []) [p] m.
Proof.
  apply manager_eq; [|by destruct m; unfold matches, appendLog; cbn; repeat case_match].
  intros k. rewrite lookup_touch. unfold matches, appendLog.
  destruct (objects m !! p) as [[b [e|q l]]|] eqn:Ep; cbn [fmap option_fmap option_map fkind].
  - case_decide as E; [|by rewrite option_fmap_id]. apply list_elem_of_singleton in E as ->. by rewrite Ep.
  - destruct (Match q log) eqn:Em.
    + unfold update_kind. cbn. destruct (decide (k = p)) as [->|Hne].
      * rewrite list_lookup_alter_eq, Ep, decide_True by set_solver. cbn. unfold addLogs. cbn. by rewrite Em.
      * rewrite list_lookup_alter_ne, decide_False by set_solver. by rewrite option_fmap_id.
    + case_decide as E; [|by rewrite option_fmap_id]. apply list_elem_of_singleton in E as ->. rewrite Ep. cbn.
      unfold addLogs. cbn. by rewrite Em, app_nil_r.
  - case_decide as E; [|by rewrite option_fmap_id]. apply list_elem_of_singleton in E as ->. by rewrite Ep.
Qed.

Lemma appendToMatching_touch header txHash indx ps log m :
  NoDup ps →
  appendToMatching header txHash indx ps log m =
  touch (λ q, if Match q log then [eventLog header txHash indx log] else []) ps m.
Proof.
  unfold appendToMatching. fold (eventLog header txHash indx log). intros ND. revert m.
  induction ND as [|p ps Hp ND IH]; intros m; cbn [foldl].
  - symmetry. apply manager_eq; [|done]. intros k. rewrite lookup_touch, decide_False by set_solver. by rewrite option_fmap_id.
  - rewrite append_one, IH. by apply touch_cons.
Qed.

(** ** The logs of a new block *)

Definition receiptTxHash (b : Block) (indx : nat) (r : Receipt) : Hash :=
  if bool_decide (rTxHash r = ZeroHash) then default ZeroHash (tHash <$> bTransactions b !! indx) else rTxHash r.

Fixpoint eventLogs (header : block) (b : Block) (indx : nat) (receipts : list Receipt) (q : LogQuery) : list rpcLog :=
  match receipts with
  | [] => []
  | r :: receipts =>
      (eventLog header (receiptTxHash b indx r) indx <$> base.filter (λ log, Match q log = true) (rLogs r))
      ++ eventLogs header b (S indx) receipts q
  end.

Lemma append_receipt header txHash indx ps logs m :
  NoDup ps →
  foldl (λ m log, appendToMatching header txHash indx ps log m) m logs =
  touch (λ q, eventLog header txHash indx <$> base.filter (λ log, Match q log = true) logs) ps m.
Proof.
  intros ND. revert m. induction logs as [|log logs IH]; intros m; cbn [foldl]; [symmetry; apply touch_nil|].
  rewrite appendToMatching_touch, IH, touch_app by done. unfold touch. f_equal. apply imap_ext. intros k o _. cbn beta.
  case_decide; [|done]. unfold addLogs. destruct (fkind o) as [|q l]; [done|]. do 3 f_equal.
  destruct (decide (Match q log = true)) as [E|E].
  - rewrite filter_cons_True by done. by rewrite E.
  - rewrite filter_cons_False by done. apply not_true_is_false in E. by rewrite E.
Qed.

Lemma appendReceipts_touch header b ps indx receipts m m' :
  NoDup ps → appendReceipts header b ps indx receipts m = Returns m' → m' = touch (eventLogs header b indx receipts) ps m.
Proof.
  intros ND. revert indx m. induction receipts as [|r receipts IH]; intros indx m; cbn [appendReceipts eventLogs].
  - intros [= <-]. by rewrite touch_nil.
  - intros E. apply result_bind_returns in E as (txHash & Etx & E).
    assert (txHash = receiptTxHash b indx r) as ->.
    { unfold receiptTxHash. destruct (bool_decide _); [|congruence].
      apply result_bind_returns in Etx as (txn & Etxn & Etx). injection Etx as <-. destruct (_ !! _); [|done].
      by injection Etxn as ->. }
    apply IH in E as ->. rewrite append_receipt by done. apply touch_app.
Qed.

(** ** Events *)

(** [range] visits every entry of the map once. *)
Definition visits (order : list (list Z)) (m : FilterManager) : Prop := order ≡ₚ (map_to_list (filters m)).*1.

Lemma visits_NoDup order m : visits order m → NoDup order.
Proof. intros ->. apply NoDup_fst_map_to_list. Qed.

Lemma visits_elem order m id : visits order m → id ∈ order ↔ is_Some (filters m !! id).
Proof.
  intros ->. rewrite list_elem_of_fmap. split.
  - intros ([i p] & -> & Hp%elem_of_map_to_list). by exists p.
  - intros [p Hp]. exists (id, p). by rewrite elem_of_map_to_list.
Qed.

Lemma logFilters_elem order m p :
  visits order m →
  p ∈ logFilters order m ↔ ∃ id q logs, filters m !! id = Some p ∧ fkind <$> objects m !! p = Some (logFilter q logs).
Proof.
  intros Ho. unfold logFilters. rewrite list_elem_of_omap. split.
  - intros (id & _ & E). destruct (filters m !! id) as [p'|] eqn:Ep; [|done]. cbn in E.
    destruct (objects m !! p') as [o|] eqn:Eo; [|done]. cbn in E. destruct (fkind o) as [|q logs] eqn:Ek; [done|].
    injection E as ->. exists id, q, logs. rewrite Eo. cbn. by rewrite Ek.
  - intros (id & q & logs & Hp & Hk). exists id. split; [apply (visits_elem order m id Ho); by eexists|].
    rewrite Hp. cbn. destruct (objects m !! p) as [o|]; [|done]. cbn in *. by injection Hk as ->.
Qed.

Lemma logFilters_NoDup order m : wf m → visits order m → NoDup (logFilters order m).
Proof.
  intros W Ho%visits_NoDup. unfold logFilters. induction Ho as [|id order Hid ND IH]; [constructor|]. cbn.
  destruct (filters m !! id) as [p|] eqn:Hp; [|done]. cbn. destruct (objects m !! p) as [o|] eqn:Eo; [|done]. cbn.
  destruct (fkind o) eqn:Ek; [done|]. constructor; [|done]. rewrite list_elem_of_omap. intros (id' & Hin & E).
  destruct (filters m !! id') as [p'|] eqn:Hp'; [|done]. cbn in E. destruct (objects m !! p'); [|done]. cbn in E.
  case_match; [done|]. injection E as ->. by rewrite (filters_inj m id id' p) in Hid.
Qed.

Section events.
Context `{!ethStore, Rlp, Keccak}.

Definition newLogs (header : block) (q : LogQuery) : list rpcLog :=
  match store_GetReceiptsByHash (kHash header), store_GetBlockByHash (kHash header) true with
  | Some receipts, Some b => eventLogs header b 0 receipts q
  | _, _ => []
  end.

(** A client sees a new block. *)
Definition observe (header : block) (c : clientFilter) : clientFilter :=
  mkClient (cQuery c) (cWs c)
    (cPending c ++ match cQuery c with None => [updateBlock header] | Some q => updateLog <$> newLogs header q end).

Lemma appendLogsToFilters_touch order header m m' :
  wf m → visits order m → appendLogsToFilters order header m = Returns m' →
  m' = touch (newLogs header) (logFilters order m) m.
Proof.
  intros W Ho. unfold appendLogsToFilters, newLogs. destruct (store_GetReceiptsByHash _) as [rs|].
  - destruct (Nat.eqb_spec (length (logFilters order m)) 0) as [E|E].
    + apply nil_length_inv in E. rewrite E. intros [= <-]. symmetry. apply manager_eq; [|done].
      intros k. rewrite lookup_touch, decide_False by set_solver. by rewrite option_fmap_id.
    + destruct (store_GetBlockByHash _ _) as [b|]; [|intros [= <-]; symmetry; apply touch_nil].
      intros E'. eapply appendReceipts_touch; [by apply logFilters_NoDup|done].
  - intros [= <-]. symmetry. apply touch_nil.
Qed.

Lemma touch_base g ps m p : base_of (touch g ps m) p = base_of m p.
Proof.
  unfold base_of. rewrite lookup_touch. destruct (objects m !! p) as [o|]; [|done]. cbn. case_decide; [|done].
  unfold addLogs. by destruct (fkind o).
Qed.

Lemma touch_wf g ps m : wf m → wf (touch g ps m).
Proof.
  intros W.
  assert (touch g ps m = set_stream (stream m) (set_objects (objects (touch g ps m)) m)) as -> by reflexivity.
  apply wf_kinds; [done|apply touch_base|apply (wf_stream m W)|].
  intros p e. rewrite lookup_touch. destruct (objects m !! p) as [o|] eqn:Eo; [|done]. cbn. intros [= Ek].
  apply (wf_blocks m W p). rewrite Eo. cbn. f_equal. revert Ek. case_decide; [|done]. unfold addLogs. destruct (fkind o) eqn:Eq; [by rewrite Eq|done].
Qed.

Lemma push_wf b m : wf m → wf (set_stream (push (stream m) b) m).
Proof.
  intros W. destruct (wf_stream m W) as (bs & Hne & Es).
  assert (set_stream (push (stream m) b) m = set_stream (push (stream m) b) (set_objects (objects m) m)) as -> by reflexivity.
  rewrite Es, push_stream by done. apply wf_kinds; [done|done|by exists (bs ++ [b]); split; [by destruct bs|]|].
  intros p e Hk. apply (wf_blocks m W) in Hk. rewrite Es, length_stream in Hk. rewrite length_stream, length_app. lia.
Qed.

(** One block of an event. *)
Lemma block_event order b m m' :
  wf m → visits order m → appendLogsToFilters order b (set_stream (push (stream m) b) m) = Returns m' →
  wf m' ∧ (∀ p, base_of m' p = base_of m p) ∧ filters m' = filters m ∧ timeouts m' = timeouts m ∧
  abs m' = observe b <$> abs m.
Proof.
  intros W Ho E. pose proof (push_wf b m W) as W1. set (m1 := set_stream (push (stream m) b) m) in *.
  apply (appendLogsToFilters_touch order b m1 m' W1 Ho) in E as ->.
  split_and!; [by apply touch_wf|intros p; by rewrite touch_base|done|done|].
  apply map_eq. intros id. rewrite lookup_fmap, !lookup_abs. cbn [filters touch set_objects m1 set_stream].
  destruct (filters m !! id) as [p|] eqn:Hp; [|done]. cbn [mbind option_bind].
  assert (objects (touch (newLogs b) (logFilters order m1) m1) !! p =
    (if decide (p ∈ logFilters order m1) then addLogs (newLogs b) else (λ o, o)) <$> objects m !! p) as Et by exact (lookup_touch (newLogs b) (logFilters order m1) m1 p).
  destruct (client_allocated m id p W Hp) as [c Hc]. unfold client_of in Hc.
  destruct (objects m !! p) as [[base [e|q logs]]|] eqn:Eo; [| |done].
  - assert (fkind <$> objects m !! p = Some (blockFilter e)) as Hk by by rewrite Eo.
    apply (wf_blocks m W) in Hk. destruct (wf_stream m W) as (bs & Hne & Es). rewrite Es, length_stream in Hk.
    rewrite (client_block m p base e Eo). rewrite (client_block _ p base e) by (rewrite Et; by case_decide).
    cbn [stream touch set_objects m1 set_stream]. rewrite Es, push_stream by done.
    rewrite !getUpdates_stream by (rewrite ?length_app; cbn; lia). cbn [fst]. rewrite drop_app_le by lia.
    by rewrite fmap_app.
  - rewrite (client_logs m p base q logs Eo). rewrite decide_True in Et.
    2:{ apply (logFilters_elem order m1 p Ho). exists id, q, logs. split; [done|]. change (objects m1) with (objects m).
        by rewrite Eo. }
    rewrite (client_logs _ p base q _ Et). cbn [fmap option_fmap option_map]. unfold observe. cbn [cPending cQuery cWs].
    by rewrite fmap_app.
Qed.

Definition header_block (h : Header) : block :=
  mkRpcBlock (hParentHash h) (hSha3Uncles h) (hMiner h) (hStateRoot h) (hTxRoot h) (hReceiptsRoot h)
    (hLogsBloom h) (hDifficulty h) (hDifficulty h) (Block_Size (mkBlock h [] [] None)).1 (hNumber h) (hGasLimit h)
    (hGasUsed h) (hTimestamp h) (hExtraData h) (hMixHash h) (hNonce h) (hHash h) [] [].

Lemma headerBlock_returns h : headerBlock h = Returns (header_block h).
Proof. reflexivity. Qed.

Lemma processEvent_spec order chain m m' :
  wf m → visits order m → processEvent order chain m = Returns m' →
  wf m' ∧ (∀ p, base_of m' p = base_of m p) ∧ filters m' = filters m ∧ timeouts m' = timeouts m ∧
  abs m' = foldl (λ s h, observe (header_block h) <$> s) (abs m) chain.
Proof.
  revert m. induction chain as [|h chain IH]; intros m W Ho.
  - intros [= <-]. done.
  - cbn [processEvent foldl]. rewrite headerBlock_returns. cbn [mbind result_bind]. intros E.
    apply result_bind_returns in E as (m1 & E1 & E).
    destruct (block_event order (header_block h) m m1 W Ho E1) as (W1 & B1 & F1 & T1 & A1).
    destruct (IH m1 W1) as (W2 & B2 & F2 & T2 & A2); [unfold visits in *; by rewrite F1|done|].
    split_and!; [done|intros p; by rewrite B2|congruence|congruence|]. by rewrite A2, A1.
Qed.
End events.

(** ** The steps of an event

    [processEvent] holds the read lock only, so a client can take updates
    between any two of its writes to shared data. These are the push of a
    block, under the lock of the stream, and the append of a log, under the
    lock of the filter; what they are is settled when the event starts, as
    the map of filters does not change while the lock is held. *)

Inductive action :=
  | aPush (b : block)
  | aLog (log : rpcLog) (p : nat).

Definition act (m : FilterManager) (a : action) : FilterManager :=
  match a with
  | aPush b => set_stream (push (stream m) b) m
  | aLog log p => appendLog log p m
  end.

Definition logActions (header : block) (txHash : Hash) (indx : nat) (ps : list nat) (m : FilterManager) (log : Log) : list action :=
  aLog (eventLog header txHash indx log) <$> base.filter (λ p, matches m log p = true) ps.

Fixpoint receiptActions (header : block) (b : Block) (ps : list nat) (m : FilterManager) (indx : nat) (receipts : list Receipt) :
    result rpcError (list action) :=
  match receipts with
  | [] => Returns []
  | receipt :: receipts =>
      txHash ← (if bool_decide (rTxHash receipt = ZeroHash) then
                  txn ← or_panic (bTransactions b !! indx); Returns (tHash txn)
                else Returns (rTxHash receipt));
      rest ← receiptActions header b ps m (S indx) receipts;
      Returns ((rLogs receipt ≫= logActions header txHash indx ps m) ++ rest)
  end.

(** The kind of a filter without its updates. *)
Definition kind_query (k : filterKind) : option LogQuery :=
  match k with blockFilter _ => None | logFilter q _ => Some q end.

Definition query_of (m : FilterManager) (p : nat) : option (option LogQuery) := (λ o, kind_query (fkind o)) <$> objects m !! p.

Definition same_queries (m m' : FilterManager) : Prop := filters m' = filters m ∧ ∀ p, query_of m' p = query_of m p.

#[export] Instance same_queries_preorder : PreOrder same_queries.
Proof. split; [done|]. intros m1 m2 m3 [] []. split; [congruence|]. intros. congruence. Qed.

Lemma matches_query m m' log p : same_queries m m' → matches m' log p = matches m log p.
Proof.
  intros [_ Q]. specialize (Q p). unfold query_of, matches in *.
  destruct (objects m !! p) as [[? []]|], (objects m' !! p) as [[? []]|]; cbn in *; congruence.
Qed.

Lemma logFilters_query order m m' : same_queries m m' → logFilters order m' = logFilters order m.
Proof.
  intros [F Q]. unfold logFilters. rewrite F. apply list_omap_ext. apply Forall_Forall2_diag, Forall_true. intros id.
  destruct (filters m !! id) as [p|]; [|done]. cbn. specialize (Q p). unfold query_of in Q.
  destruct (objects m !! p) as [[? []]|], (objects m' !! p) as [[? []]|]; cbn in *; congruence.
Qed.

Lemma act_queries m a : same_queries m (act m a).
Proof.
  destruct a as [b|log p]; [done|]. cbn. unfold appendLog. destruct (objects m !! p) as [[base [e|q logs]]|] eqn:E; try done.
  cbn. split; [done|]. intros k. unfold query_of, update_kind. cbn. destruct (decide (k = p)) as [->|].
  - by rewrite list_lookup_alter_eq, E.
  - by rewrite list_lookup_alter_ne.
Qed.

Lemma acts_queries l m : same_queries m (foldl act m l).
Proof. revert m. induction l as [|a l IH]; intros m; [done|]. cbn. etrans; [apply act_queries|apply IH]. Qed.

Lemma appendToMatching_acts header txHash indx ps log m0 m :
  same_queries m0 m → appendToMatching header txHash indx ps log m = foldl act m (logActions header txHash indx ps m0 log).
Proof.
  unfold appendToMatching, logActions. fold (eventLog header txHash indx log). revert m.
  induction ps as [|p ps IH]; intros m Q; [done|]. cbn [foldl]. rewrite (matches_query m0 m log p Q), filter_cons.
  destruct (matches m0 log p).
  - rewrite decide_True, fmap_cons by done. cbn [foldl act]. apply IH.
    etrans; [done|]. apply (act_queries m (aLog (eventLog header txHash indx log) p)).
  - rewrite decide_False by done. by apply IH.
Qed.

Lemma append_logs_acts header txHash indx ps logs m0 m :
  same_queries m0 m →
  foldl (λ m log, appendToMatching header txHash indx ps log m) m logs =
  foldl act m (logs ≫= logActions header txHash indx ps m0).
Proof.
  revert m. induction logs as [|log logs IH]; intros m Q; [done|]. cbn [foldl]. rewrite bind_cons, foldl_app.
  rewrite <- (appendToMatching_acts header txHash indx ps log m0 m) by done. apply IH.
  rewrite (appendToMatching_acts header txHash indx ps log m0 m) by done. etrans; [done|apply acts_queries].
Qed.

Lemma appendReceipts_acts header b ps indx receipts m0 m :
  same_queries m0 m →
  appendReceipts header b ps indx receipts m =
    (l ← receiptActions header b ps m0 indx receipts; Returns (foldl act m l)).
Proof.
  revert indx m. induction receipts as [|r receipts IH]; intros indx m Q; [done|]. cbn [appendReceipts receiptActions].
  set (tx := if bool_decide _ then _ else _). destruct tx as [txHash|e|]; cbn [mbind result_bind]; [|done..].
  rewrite (append_logs_acts header txHash indx ps (rLogs r) m0 m) by done.
  rewrite IH by (etrans; [done|apply acts_queries]).
  destruct (receiptActions header b ps m0 (S indx) receipts) as [l|e|]; cbn [mbind result_bind]; [|done..].
  by rewrite foldl_app.
Qed.

Section actions.
Context `{!ethStore, Rlp, Keccak}.

Definition headerActions (order : list (list Z)) (header : block) (m : FilterManager) : result rpcError (list action) :=
  match store_GetReceiptsByHash (kHash header) with
  | None => Returns []
  | Some receipts =>
      let ps := logFilters order m in
      if (length ps =? 0)%nat then Returns [] else
      match store_GetBlockByHash (kHash header) true with
      | None => Returns []
      | Some b => receiptActions header b ps m 0 receipts
      end
  end.

Fixpoint eventActions (order : list (list Z)) (NewChain : list Header) (m : FilterManager) : result rpcError (list action) :=
  match NewChain with
  | [] => Returns []
  | header :: NewChain =>
      b ← headerBlock header;
      l ← headerActions order b m;
      rest ← eventActions order NewChain m;
      Returns (aPush b :: l ++ rest)
  end.

Lemma appendLogsToFilters_acts order header m0 m :
  same_queries m0 m →
  appendLogsToFilters order header m = (l ← headerActions order header m0; Returns (foldl act m l)).
Proof.
  intros Q. unfold appendLogsToFilters, headerActions. destruct (store_GetReceiptsByHash _) as [rs|]; [|done].
  rewrite (logFilters_query order m0 m Q). cbv zeta. destruct (_ =? 0)%nat; [done|].
  destruct (store_GetBlockByHash _ _) as [b|]; [|done]. by apply appendReceipts_acts.
Qed.

(** Run without interruption the steps are [processEvent]. *)
Lemma processEvent_acts order chain m0 m :
  same_queries m0 m →
  processEvent order chain m = (l ← eventActions order chain m0; Returns (foldl act m l)).
Proof.
  revert m. induction chain as [|h chain IH]; intros m Q; [done|]. cbn [processEvent eventActions].
  rewrite headerBlock_returns. cbn [mbind result_bind].
  rewrite (appendLogsToFilters_acts order (header_block h) m0) by (etrans; [done|apply (act_queries m (aPush _))]).
  destruct (headerActions order (header_block h) m0) as [l|e|]; cbn [mbind result_bind]; [|done..].
  rewrite IH by (etrans; [done|]; etrans; [apply (act_queries m (aPush (header_block h)))|apply acts_queries]).
  destruct (eventActions order chain m0) as [rest|e|]; cbn [mbind result_bind]; [|done..].
  cbn [foldl]. by rewrite foldl_app.
Qed.

(** The blocks and the logs for a filter among the steps. *)
Definition pushes (l : list action) : list block := omap (λ a, match a with aPush b => Some b | aLog _ _ => None end) l.

Definition logs_for (p : nat) (l : list action) : list rpcLog :=
  omap (λ a, match a with aPush _ => None | aLog log q => if decide (q = p) then Some log else None end) l.

Lemma pushes_logs header txHash indx ps m logs : pushes (logs ≫= logActions header txHash indx ps m) = [].
Proof.
  induction logs as [|log logs IH]; [done|]. rewrite bind_cons. unfold pushes in *. rewrite omap_app, IH, app_nil_r.
  unfold logActions. induction (base.filter _ ps) as [|p l IHl]; [done|]. by rewrite fmap_cons.
Qed.

Lemma pushes_receipts header b ps m indx rs l : receiptActions header b ps m indx rs = Returns l → pushes l = [].
Proof.
  revert indx l. induction rs as [|r rs IH]; intros indx l; cbn [receiptActions]; [by intros [= <-]|].
  intros E. apply result_bind_returns in E as (txHash & _ & E). apply result_bind_returns in E as (rest & Er & E).
  injection E as <-. unfold pushes. rewrite omap_app. fold (pushes (rLogs r ≫= logActions header txHash indx ps m)).
  rewrite pushes_logs. by apply IH in Er.
Qed.

Lemma pushes_event order chain m l : eventActions order chain m = Returns l → pushes l = header_block <$> chain.
Proof.
  revert l. induction chain as [|h chain IH]; intros l; cbn [eventActions]; [by intros [= <-]|].
  rewrite headerBlock_returns. cbn [mbind result_bind]. intros E. apply result_bind_returns in E as (l1 & E1 & E).
  apply result_bind_returns in E as (rest & Er & E). injection E as <-. rewrite fmap_cons, <- (IH rest Er).
  unfold pushes. cbn [omap list_omap]. f_equal. rewrite omap_app.
  assert (pushes l1 = []) as El1.
  { unfold headerActions in E1. repeat case_match; try (by injection E1 as <-). by eapply pushes_receipts. }
  unfold pushes in El1. by rewrite El1.
Qed.
End actions.

(** ** Writing to the sockets *)

Definition flushed (c : clientFilter) : clientFilter :=
  match cWs c with Some _ => clear c | None => c end.

(** What is sent to the connection of a filter, and whether it is closed. *)
Definition outgoing (write : nat → option wsError) (id : list Z) (c : clientFilter) : list message :=
  match cWs c with Some conn => (sendAll conn id write 0 (cPending c)).1 | None => [] end.

Definition lost (write : nat → option wsError) (id : list Z) (c : clientFilter) : Prop :=
  match cWs c with
  | Some conn => (sendAll conn id write 0 (cPending c)).2 ∈ [Some ErrCloseSent; Some net_ErrClosed]
  | None => False
  end.

Lemma sendAll_id conn id write k us msg : msg ∈ (sendAll conn id write k us).1 → msg.1.2 = id.
Proof.
  revert k. induction us as [|u us IH]; intros k; cbn; [set_solver|]. destruct (write k); [set_solver|].
  specialize (IH (S k)). destruct (sendAll _ _ _ (S k) us) as [sent err]. cbn in *. intros [->|Hin]%elem_of_cons; auto.
Qed.

(** The messages of one filter. *)
Definition to_filter (id : list Z) (sent : list message) : list message := base.filter (λ msg, msg.1.2 = id) sent.

Lemma to_filter_same id sent : (∀ msg, msg ∈ sent → msg.1.2 = id) → to_filter id sent = sent.
Proof.
  intros H. unfold to_filter. induction sent as [|msg sent IH]; [done|].
  rewrite filter_cons_True by (apply H; set_solver). f_equal. apply IH. intros. apply H. set_solver.
Qed.

Lemma to_filter_other id id' sent : id ≠ id' → (∀ msg, msg ∈ sent → msg.1.2 = id') → to_filter id sent = [].
Proof.
  intros Hne H. unfold to_filter. induction sent as [|msg sent IH]; [done|].
  rewrite filter_cons_False; [apply IH; intros; apply H; set_solver|]. rewrite (H msg) by set_solver. congruence.
Qed.

Lemma to_filter_app id s t : to_filter id (s ++ t) = to_filter id s ++ to_filter id t.
Proof. apply filter_app. Qed.

Lemma client_ws m p c b : client_of m p = Some c → base_of m p = Some b → cWs c = ws b.
Proof.
  unfold client_of, base_of. destruct (objects m !! p) as [[base [e|q l]]|]; [| |done]; cbn; by intros [= <-] [= <-].
Qed.

(** One filter with a connection. *)
Lemma sendUpdates_spec write id p b conn c m :
  wf m → filters m !! id = Some p → base_of m p = Some b → ws b = Some conn → client_of m p = Some c →
  ∃ m', sendUpdates write p m = (sendAll conn id write 0 (cPending c), m') ∧ wf m' ∧
    (∀ q, base_of m' q = base_of m q) ∧ filters m' = filters m ∧ timeouts m' = timeouts m ∧
    abs m' = alter clear id (abs m).
Proof.
  intros W Hp Hb Hw Hc. pose proof (takeUpdates_spec p m W) as T. unfold sendUpdates.
  destruct (takeUpdates p m) as [res m'] eqn:E. destruct T as (W' & B' & F' & T' & S' & -> & C').
  exists m'. rewrite B', Hb, Hc. destruct (wf_filters m W id p Hp) as (b' & Hb' & Hid & _).
  assert (b' = b) as -> by congruence. destruct b as [i h x w]. cbn in Hw, Hid. subst w i.
  split_and!; [done..|]. by eapply abs_alter.
Qed.

(** The loop over the ids [order]. *)
Record flush_result (order : list (list Z)) (write : list Z → nat → option wsError) (m : FilterManager)
    (sent : list message) (closed : list (list Z)) (m' : FilterManager) : Prop := {
  flush_wf : wf m';
  flush_base q : base_of m' q = base_of m q;
  flush_filters : filters m' = filters m;
  flush_timeouts : timeouts m' = timeouts m;
  flush_abs id : abs m' !! id = (if decide (id ∈ order) then flushed else λ c, c) <$> abs m !! id;
  flush_sent id : to_filter id sent = if decide (id ∈ order) then default [] (outgoing (write id) id <$> abs m !! id) else [];
  flush_closed id : id ∈ closed ↔ id ∈ order ∧ ∃ c, abs m !! id = Some c ∧ lost (write id) id c;
}.

Lemma decide_head {A} (id : list Z) order (x y : A) : (if decide (id ∈ id :: order) then x else y) = x.
Proof. apply decide_True, list_elem_of_here. Qed.

Lemma decide_tail {A} (i id : list Z) order (x y : A) :
  i ≠ id → (if decide (i ∈ id :: order) then x else y) = (if decide (i ∈ order) then x else y).
Proof. intros Hne. apply decide_ext. rewrite elem_of_cons. tauto. Qed.

(** A filter without a connection. *)
Lemma flush_skip order write m sent closed m' id c :
  id ∉ order → abs m !! id = Some c → cWs c = None → flush_result order write m sent closed m' →
  flush_result (id :: order) write m sent closed m'.
Proof.
  intros Hid Ha Hc [W B F T A S C]. split; [done..| | |].
  - intros i. rewrite A. destruct (decide (i = id)) as [->|Hne]; [|by rewrite decide_tail].
    rewrite decide_head, decide_False, Ha by done. cbn. unfold flushed. by rewrite Hc.
  - intros i. rewrite S. destruct (decide (i = id)) as [->|Hne]; [|by rewrite decide_tail].
    rewrite decide_head, decide_False, Ha by done. cbn. unfold outgoing. by rewrite Hc.
  - intros i. rewrite C, elem_of_cons. split; [intros [? ?]; auto|]. intros [[->|Hi] (c' & Hc' & Hl)]; [|eauto].
    rewrite Ha in Hc'. injection Hc' as <-. unfold lost in Hl. by rewrite Hc in Hl.
Qed.

(** A filter with one. *)
Lemma flush_step order write m m1 rest closed0 m2 id c conn sent0 err :
  id ∉ order → abs m !! id = Some c → cWs c = Some conn →
  (∀ q, base_of m1 q = base_of m q) → filters m1 = filters m → timeouts m1 = timeouts m →
  abs m1 = alter clear id (abs m) → sendAll conn id (write id) 0 (cPending c) = (sent0, err) →
  flush_result order write m1 rest closed0 m2 →
  flush_result (id :: order) write m (sent0 ++ rest)
    (match err with Some ErrCloseSent | Some net_ErrClosed => id :: closed0 | _ => closed0 end) m2.
Proof.
  intros Hid Ha Hc B1 F1 T1 A1 Es [W B F T A S C].
  assert (∀ i, i ≠ id → abs m1 !! i = abs m !! i) as Ao by (intros i Hne; by rewrite A1, lookup_alter_ne).
  assert (∀ msg, msg ∈ sent0 → msg.1.2 = id) as Hsent.
  { intros msg Hin. apply (sendAll_id conn id (write id) 0 (cPending c)). by rewrite Es. }
  split; [done|intros; by rewrite B|congruence|congruence|..].
  - intros i. rewrite A. destruct (decide (i = id)) as [->|Hne]; [|by rewrite decide_tail, Ao].
    rewrite decide_head, decide_False, A1, lookup_alter_eq, Ha by done. cbn. unfold flushed. by rewrite Hc.
  - intros i. rewrite to_filter_app, S. destruct (decide (i = id)) as [->|Hne].
    + rewrite to_filter_same, decide_head, decide_False, Ha by done. cbn. unfold outgoing. rewrite Hc, Es. apply app_nil_r.
    + rewrite (to_filter_other i id) by done. by rewrite decide_tail, Ao.
  - intros i.
    assert (i ∈ (match err with Some ErrCloseSent | Some net_ErrClosed => id :: closed0 | _ => closed0 end) ↔
            (i = id ∧ lost (write id) id c) ∨ i ∈ closed0) as ->.
    { unfold lost. rewrite Hc, Es. clear. cbn. destruct err as [[]|]; set_solver. }
    rewrite C, elem_of_cons. split.
    + intros [[-> Hl]|(Hi & c' & Hc' & Hl)]; [eauto|]. rewrite Ao in Hc' by (by intros ->). eauto.
    + intros [[->|Hi] (c' & Hc' & Hl)]; [left; split; congruence|]. right. split; [done|]. exists c'.
      by rewrite Ao by (by intros ->).
Qed.

Lemma flushLoop_spec order write m sent closed m' :
  NoDup order → (∀ id, id ∈ order → is_Some (filters m !! id)) → wf m → flushLoop order write m = (sent, closed, m') →
  flush_result order write m sent closed m'.
Proof.
  intros ND. revert m sent closed m'. induction ND as [|id order Hid ND IH]; intros m sent closed m' Hreg W E.
  - injection E as <- <- <-. split; try done.
    + intros id. by rewrite decide_False, option_fmap_id by apply not_elem_of_nil.
    + intros id. split; [by intros ?%elem_of_nil|by intros [?%elem_of_nil _]].
  - destruct (Hreg id) as [p Hp]; [apply list_elem_of_here|]. destruct (wf_filters m W id p Hp) as (b & Hb & Hfid & _).
    destruct (client_allocated m id p W Hp) as [c Hc]. pose proof (client_ws m p c b Hc Hb) as Hcw.
    assert (abs m !! id = Some c) as Ha by (rewrite lookup_abs, Hp; done).
    cbn [flushLoop] in E. rewrite Hp in E. cbn [mbind option_bind] in E. rewrite Hb in E. cbn [mbind option_bind] in E.
    unfold hasWSConn in E. destruct (ws b) as [conn|] eqn:Hw.
    + rewrite bool_decide_true in E by done. cbn [negb] in E.
      destruct (sendUpdates_spec (write id) id p b conn c m W Hp Hb Hw Hc) as (m1 & Es & W1 & B1 & F1 & T1 & A1).
      rewrite Es in E. destruct (sendAll conn id (write id) 0 (cPending c)) as [sent0 err] eqn:Esend.
      destruct (flushLoop order write m1) as [[rest closed0] m2] eqn:Ef. injection E as <- <- <-.
      apply (flush_step order write m m1 rest closed0 m2 id c conn sent0 err); try done.
      apply IH; [|done..]. intros i Hi. rewrite F1. apply Hreg. by apply list_elem_of_further.
    + rewrite bool_decide_false in E by (clear; tauto). cbn [negb] in E.
      apply (flush_skip order write m sent closed m' id c); [done..|].
      apply IH; [|done..]. intros i Hi. apply Hreg. by apply list_elem_of_further.
Qed.

(** Removing the filters of closed connections. *)
Lemma removeClosed_spec ids m :
  wf m →
  wf (removeClosed ids m) ∧ abs (removeClosed ids m) = foldl (λ s id, delete id s) (abs m) ids ∧
  (∀ p, p ∈ timeouts (removeClosed ids m) → p ∈ timeouts m).
Proof.
  revert m. induction ids as [|id ids IH]; intros m W; [done|]. cbn [removeClosed foldl].
  destruct (removeFilterByID_spec id m W) as (W1 & K1 & _ & T1). cbv zeta in *.
  destruct (IH _ W1) as (W2 & A2 & T2). split_and!; [done| |].
  - unfold removeClosed in A2. rewrite A2. f_equal. by apply abs_removed.
  - intros p Hp. apply T2 in Hp. by apply T1 in Hp as [? _].
Qed.
