(* ===== verification/FilterManagerProps.v ===== *)
(** * The filter manager under its clients and its worker

    The operations of FilterManager.v as steps of a system: the calls of
    clients, the worker that dispatches events, and the timer. A region under
    the write lock is one step. Regions under the read lock run side by side,
    so they are as many steps as they have accesses to shared data:

    - creating a filter reads the head of the stream and tells the connection
      the id before the write lock is taken;
    - [GetFilterChanges] of a block filter reads the element the filter is
      at, follows the stream to its end, and sets the element; of a log
      filter it takes the logs under the filter's lock;
    - the event worker pushes a block, or appends a log to one filter.

    After the read lock is released [GetFilterChanges] refreshes the timeout
    under the write lock, and other steps may come between. A push is one
    step although it stores the link to the new element and then the head: a
    call that reads the head in between is one that read it just before. The
    worker alone takes updates of filters with a web socket, and pushes
    nothing meanwhile, so that writing to the sockets is one step.

    [step] runs the operations and [spec_step] says what clients see of
    them. *)

From stdpp Require Import gmap list.
From S2P Require Import Prelude BigInt Types Runtime Rlp BlockTypes Result Heap JsonRpc FilterManager FilterState FilterEvents.
#[local] Open Scope Z_scope.

(** A call that reads a block filter: it has the element to start from, or
    has followed the stream to [newHead]. *)
Inductive readState :=
  | reads (elem : nat)
  | walked (newHead : nat).

Record reading := mkReading {
  rdId : list Z;
  rdFilter : nat;
  rdState : readState;
}.

(** The manager; the filters being created, and whether their connection
    knows the id; the block filters being read; what is left of the event
    being processed; the filters whose timeout is about to be refreshed; and
    the filters the worker is about to remove. *)
Record config := mkConfig {
  mgr : FilterManager;
  creating : list (filter * bool);
  readings : list reading;
  todo : list action;
  refreshing : list nat;
  closing : list (list Z);
}.

Inductive label :=
  | lCreate (id : list Z) (q : option LogQuery) (conn : option nat) (quiet : bool)
  | lInstall (id : list Z)
  | lRemove (ids : list (list Z))
  | lRead (id : list Z) (alone : bool)   (** no other call reads the filter *)
  | lChanges (id : list Z) (res : list update) (quiet : bool)
  | lRefresh (live : bool)               (** the filter is still installed *)
  | lEvent (chain : list Header)
  | lFlush (write : list Z → nat → option wsError) (sent : list message) (closed : list (list Z))
  | lTau.

(** The filter is installed. *)
Definition installed (m : FilterManager) (p : nat) : Prop := ∃ id, filters m !! id = Some p.

#[export] Instance installed_dec m p : Decision (installed m p).
Proof.
  refine (cast_if (decide (p ∈ (map_to_list (filters m)).*2))); unfold installed.
  - abstract (apply list_elem_of_fmap in e as ([id q] & -> & Hin%elem_of_map_to_list); by exists id).
  - abstract (intros [id Hid]; destruct n; apply list_elem_of_fmap; exists (id, p); by rewrite elem_of_map_to_list).
Defined.

(** No region under the read lock is open: the write lock can be taken. *)
Definition unlocked (c : config) : Prop := readings c = [] ∧ todo c = [].

(** No event is being processed. *)
Definition quiet (c : config) : bool := match todo c with [] => true | _ :: _ => false end.

Definition alone (p : nat) (c : config) : bool := bool_decide (p ∉ rdFilter <$> readings c).

Definition new_id (f : filter * bool) : list Z := fid (getFilterBase f.1).

(** [uuid.New] never gives an id twice. *)
Definition fresh_id (uuid : list Z) (c : config) : Prop := fresh uuid (mgr c) ∧ uuid ∉ new_id <$> creating c.

Definition with_mgr (m : FilterManager) (c : config) : config :=
  mkConfig m (creating c) (readings c) (todo c) (refreshing c) (closing c).
Definition with_creating (l : list (filter * bool)) (c : config) : config :=
  mkConfig (mgr c) l (readings c) (todo c) (refreshing c) (closing c).
Definition with_readings (l : list reading) (c : config) : config :=
  mkConfig (mgr c) (creating c) l (todo c) (refreshing c) (closing c).
Definition with_todo (l : list action) (c : config) : config :=
  mkConfig (mgr c) (creating c) (readings c) l (refreshing c) (closing c).
Definition with_refreshing (l : list nat) (c : config) : config :=
  mkConfig (mgr c) (creating c) (readings c) (todo c) l (closing c).
Definition with_closing (l : list (list Z)) (c : config) : config :=
  mkConfig (mgr c) (creating c) (readings c) (todo c) (refreshing c) l.

Section system.
Context `{!ethStore, Rlp, Keccak}.

Inductive step : config → label → config → Prop :=
  | step_create_block c uuid conn :
      fresh_id uuid c →
      step c (lCreate uuid None conn (quiet c))
        (with_creating (creating c ++ [(mkFilter (newFilterBase uuid conn) (blockFilter (getHead (stream (mgr c)))), false)]) c)
  | step_create_log c uuid q conn :
      fresh_id uuid c →
      step c (lCreate uuid (Some q) conn (quiet c))
        (with_creating (creating c ++ [(mkFilter (newFilterBase uuid conn) (logFilter q []), false)]) c)
  | step_announce c l1 f l2 :
      creating c = l1 ++ (f, false) :: l2 →
      step c lTau (with_mgr (setFilterID (ws (getFilterBase f)) (fid (getFilterBase f)) (mgr c))
                     (with_creating (l1 ++ (f, true) :: l2) c))
  | step_install c l1 f l2 now :
      unlocked c → creating c = l1 ++ (f, true) :: l2 →
      step c (lInstall (fid (getFilterBase f))) (with_mgr (addFilter now f (mgr c)).2 (with_creating (l1 ++ l2) c))
  | step_uninstall c id :
      unlocked c → step c (lRemove [id]) (with_mgr (Uninstall id (mgr c)).2 c)
  | step_disconnect c conn :
      unlocked c →
      step c (lRemove [default [] (wsFilterID (mgr c) !! conn)]) (with_mgr (RemoveFilterByWs conn (mgr c)) c)
  | step_log_changes c id p q logs res m' :
      fkind <$> objects (mgr c) !! p = Some (logFilter q logs) →
      getFilterAndChanges id (mgr c) = (Returns (p, res), m') →
      step c (lChanges id res (quiet c)) (with_mgr m' (with_refreshing (p :: refreshing c) c))
  | step_read c id p b elem :
      filters (mgr c) !! id = Some p → base_of (mgr c) p = Some b → hasWSConn b = false →
      fkind <$> objects (mgr c) !! p = Some (blockFilter elem) →
      step c (lRead id (alone p c)) (with_readings (readings c ++ [mkReading id p (reads elem)]) c)
  | step_walk c l1 id p elem l2 updates newHead :
      readings c = l1 ++ mkReading id p (reads elem) :: l2 →
      headElem_getUpdates (stream (mgr c)) elem = (updates, newHead) →
      step c (lChanges id (updateBlock <$> updates) (quiet c))
        (with_readings (l1 ++ mkReading id p (walked newHead) :: l2) c)
  | step_set c l1 id p newHead l2 :
      readings c = l1 ++ mkReading id p (walked newHead) :: l2 →
      step c lTau (with_mgr (setHeadElem newHead p (mgr c))
                     (with_readings (l1 ++ l2) (with_refreshing (p :: refreshing c) c)))
  | step_refresh c ps p qs now :
      unlocked c → refreshing c = ps ++ p :: qs →
      step c (lRefresh (bool_decide (installed (mgr c) p)))
        (with_mgr (refreshFilterTimeout now p (mgr c)) (with_refreshing (ps ++ qs) c))
  | step_event c order chain l :
      todo c = [] → visits order (mgr c) → eventActions order chain (mgr c) = Returns l →
      step c (lEvent chain) (with_todo l c)
  | step_act c a l :
      todo c = a :: l → step c lTau (with_mgr (act (mgr c) a) (with_todo l c))
  | step_flush c order write sent closed m' :
      todo c = [] → visits order (mgr c) → flushLoop order write (mgr c) = (sent, closed, m') →
      step c (lFlush write sent closed) (with_mgr m' (with_closing (closing c ++ closed) c))
  | step_closed c :
      unlocked c →
      step c (lRemove (closing c)) (with_mgr (removeClosed (closing c) (mgr c)) (with_closing [] c)).

(** The three steps of a call on a block filter, one after the other, are
    the call. *)
Lemma block_changes_steps id p b elem updates newHead m :
  filters m !! id = Some p → base_of m p = Some b → hasWSConn b = false →
  fkind <$> objects m !! p = Some (blockFilter elem) → headElem_getUpdates (stream m) elem = (updates, newHead) →
  getFilterAndChanges id m = (Returns (p, updateBlock <$> updates), setHeadElem newHead p m).
Proof. intros Hp Hb Hw Hk Hu. unfold getFilterAndChanges, takeUpdates. by rewrite Hp, Hb, Hw, Hk, Hu. Qed.

(** *** What the clients see *)

(** The filters with the updates still to be delivered, those of the event
    being processed included; the filters being created; and the blocks of
    the last event. *)
Record sstate := mkS {
  clients : gmap (list Z) clientFilter;
  created : list (list Z * clientFilter);
  latest : list Header;
}.

(** A filter that is not installed yet: a block filter has its place in the
    stream. *)
Definition observe_new (b : block) (c : clientFilter) : clientFilter :=
  match cQuery c with None => observe b c | Some _ => c end.

Definition spec_step (s : sstate) (l : label) (s' : sstate) : Prop :=
  match l with
  | lCreate id q conn quiet =>
      ∃ coming, coming `suffix_of` ((λ h, updateBlock (header_block h)) <$> latest s) ∧
        (quiet = true ∨ q ≠ None → coming = []) ∧
        s' = mkS (clients s) (created s ++ [(id, mkClient q conn coming)]) (latest s)
  | lInstall id =>
      ∃ l1 c l2, created s = l1 ++ (id, c) :: l2 ∧ s' = mkS (<[id := c]> (clients s)) (l1 ++ l2) (latest s)
  | lRemove ids => s' = mkS (foldl (λ s id, delete id s) (clients s) ids) (created s) (latest s)
  | lChanges id res quiet =>
      ∃ c due, clients s !! id = Some c ∧ cWs c = None ∧ cPending c = res ++ due ∧ (quiet = true → due = []) ∧
        s' = mkS (<[id := mkClient (cQuery c) (cWs c) due]> (clients s)) (created s) (latest s)
  | lEvent chain =>
      s' = mkS (foldl (λ s h, observe (header_block h) <$> s) (clients s) chain)
             (foldl (λ l h, prod_map id (observe_new (header_block h)) <$> l) (created s) chain) chain
  | lFlush write sent closed =>
      s' = mkS (flushed <$> clients s) (created s) (latest s) ∧
      (∀ id, to_filter id sent = default [] (outgoing (write id) id <$> clients s !! id)) ∧
      (∀ id, id ∈ closed ↔ ∃ c, clients s !! id = Some c ∧ lost (write id) id c)
  | lRead _ _ | lRefresh _ | lTau => s' = s
  end.

Inductive exec {S L} (R : S → L → S → Prop) : S → list L → S → Prop :=
  | exec_nil s : exec R s [] s
  | exec_snoc s ls s' l s'' : exec R s ls s' → R s' l s'' → exec R s (ls ++ [l]) s''.

Definition start (m : FilterManager) : config := mkConfig m [] [] [] [] [].
End system.

(** ** Steps under the read lock *)

(** They change neither the filters' identities nor the map nor the heap. *)
Record calm (m m' : FilterManager) : Prop := {
  calm_wf : wf m';
  calm_base p : base_of m' p = base_of m p;
  calm_filters : filters m' = filters m;
  calm_timeouts : timeouts m' = timeouts m;
  calm_queries p : query_of m' p = query_of m p;
  calm_elems : (length (elems (stream m)) ≤ length (elems (stream m')))%nat;
}.

Lemma calm_refl m : wf m → calm m m.
Proof. by split. Qed.

Lemma calm_update k p m :
  wf m → (∀ e, k = blockFilter e → (e < length (elems (stream m)))%nat) →
  (∀ o, objects m !! p = Some o → kind_query (fkind o) = kind_query k) →
  calm m (update_kind k p m).
Proof.
  intros W Hk Hq. split; [by apply update_kind_wf|intros; apply update_kind_base|done|done| |done].
  intros r. unfold query_of, update_kind. cbn. destruct (decide (r = p)) as [->|].
  - rewrite list_lookup_alter_eq. destruct (objects m !! p) as [o|]; [|done]. cbn. by rewrite (Hq o).
  - by rewrite list_lookup_alter_ne.
Qed.

Lemma calm_act m a : wf m → calm m (act m a).
Proof.
  intros W. destruct a as [b|log p]; cbn [act].
  - split; [by apply push_wf|done..|]. destruct (wf_stream m W) as (bs & Hne & Es). cbn [stream set_stream]. rewrite Es, push_stream by done.
    rewrite !length_stream, length_app. lia.
  - unfold appendLog. destruct (objects m !! p) as [[base [e|q logs]]|] eqn:E; cbn; try by apply calm_refl.
    apply calm_update; [done|done|]. rewrite E. by intros o [= <-].
Qed.

(** Taking the updates of one filter changes that filter only. *)
Lemma takeUpdates_only p m :
  wf m → calm m (takeUpdates p m).2 ∧ stream (takeUpdates p m).2 = stream m ∧
  ∀ q, q ≠ p → objects (takeUpdates p m).2 !! q = objects m !! q.
Proof.
  intros W. unfold takeUpdates. destruct (objects m !! p) as [[base [e|q logs]]|] eqn:E; cbn [fmap option_fmap option_map fkind].
  - assert (fkind <$> objects m !! p = Some (blockFilter e)) as Ek by by rewrite E. apply (wf_blocks m W) in Ek.
    destruct (headElem_getUpdates (stream m) e) as [us n] eqn:Eu. cbn [snd]. unfold setHeadElem. split; [|split].
    + apply calm_update; [done| |by rewrite E; intros o [= <-]]. intros e' [= <-]. destruct (wf_stream m W) as (bs & Hne & Es).
      rewrite Es, length_stream in *. rewrite getUpdates_stream in Eu by done. injection Eu as _ <-. lia.
    + done.
    + intros q Hq. cbn. by rewrite list_lookup_alter_ne.
  - split; [|split]; [apply calm_update; [done|done|rewrite E; by intros o [= <-]]|done|]. intros k Hk. cbn. by rewrite list_lookup_alter_ne.
  - split; [by apply calm_refl|]. done.
Qed.

Lemma calm_trans m1 m2 m3 : calm m1 m2 → calm m2 m3 → calm m1 m3.
Proof. intros [] []. split; [done|congruence..|lia]. Qed.

(** Writing to the sockets leaves the other filters and the stream alone. *)
Lemma flushLoop_only order write m sent closed m' :
  wf m → flushLoop order write m = (sent, closed, m') →
  calm m m' ∧ stream m' = stream m ∧
  ∀ p b, base_of m p = Some b → ws b = None → objects m' !! p = objects m !! p.
Proof.
  revert m sent closed m'. induction order as [|id order IH]; intros m sent closed m' W E.
  - injection E as <- <- <-. split; [by apply calm_refl|done].
  - cbn [flushLoop] in E. destruct (filters m !! id) as [p|]; [|by eapply IH]. cbn [mbind option_bind] in E.
    destruct (base_of m p) as [b|] eqn:Hb; [|by eapply IH]. cbn [mbind option_bind] in E.
    destruct (hasWSConn b) eqn:Hw; [|by eapply IH]. cbn [negb] in E. apply bool_decide_eq_true in Hw.
    destruct (takeUpdates_only p m W) as (C1 & S1 & O1). unfold sendUpdates in E.
    destruct (takeUpdates p m) as [us m1]. cbn [snd] in *.
    assert (∃ sent0 err, (match base_of m1 p with
      | Some (mkFilterBase id' _ _ (Some conn)) => (sendAll conn id' (write id) 0 us, m1) | _ => ([], None, m1) end) =
      (sent0, err, m1)) as (sent0 & err & Es).
    { destruct (base_of m1 p) as [[? ? ? [conn|]]|]; [|by eexists _, _..].
      destruct (sendAll conn fid (write id) 0 us) as [x y]. by exists x, y. }
    rewrite Es in E. destruct (flushLoop order write m1) as [[rest closed0] m2] eqn:Ef. injection E as <- <- <-.
    destruct (IH m1 _ _ _ (calm_wf _ _ C1) Ef) as (C2 & S2 & O2).
    split; [by eapply calm_trans|]. split; [congruence|]. intros q b' Hb' Hw'.
    rewrite (O2 q b') by (done || by rewrite (calm_base _ _ C1)). apply O1. intros ->. congruence.
Qed.

(** ** The invariant *)

(** The ids and connections of filters stay. *)
Definition keeps (m m' : FilterManager) : Prop :=
  ∀ p b, base_of m p = Some b → ∃ b', base_of m' p = Some b' ∧ fid b' = fid b ∧ ws b' = ws b.

(** In the heap without being installed. *)
Definition orphan (m : FilterManager) (p : nat) : Prop := p ∈ timeouts m ∧ ¬ installed m p.

(** The effect of a step on the manager. *)
Record good (m : FilterManager) (l : label) (m' : FilterManager) : Prop := {
  good_wf : wf m';
  good_keeps : keeps m m';
  good_orphan p : orphan m p → orphan m' p;
  good_live : l ≠ lRefresh false → (∀ p, p ∈ timeouts m → installed m p) → ∀ p, p ∈ timeouts m' → installed m' p;
  good_fresh uuid : fresh uuid m → l ≠ lInstall uuid → fresh uuid m';
  good_elems : (length (elems (stream m)) ≤ length (elems (stream m')))%nat;
}.

Lemma keeps_kept m m' : kept m m' → keeps m m'.
Proof. intros K p b. by apply kept_base. Qed.

Lemma keeps_trans m1 m2 m3 : keeps m1 m2 → keeps m2 m3 → keeps m1 m3.
Proof.
  intros K1 K2 p b Hb. destruct (K1 p b Hb) as (b' & Hb' & E1 & E2). destruct (K2 p b' Hb') as (b'' & ? & ? & ?).
  exists b''. split_and!; congruence.
Qed.

Lemma good_calm m l m' : calm m m' → good m l m'.
Proof.
  intros [W B F T Q E]. split; [done| | | | |done].
  - intros p b Hb. exists b. by rewrite B.
  - unfold orphan, installed. by rewrite F, T.
  - unfold installed. by rewrite F, T.
  - intros uuid Hf _ p b. rewrite B. apply Hf.
Qed.

(** The same filters with other timeouts. *)
Lemma good_fresh_kept m m' uuid : kept m m' → fresh uuid m → fresh uuid m'.
Proof.
  intros K Hf p b Hb. destruct (kept_base _ _ p b (kept_sym _ _ K) Hb) as (b' & Hb' & E & _). rewrite <- E. by eapply Hf.
Qed.

Lemma fresh_not_installed uuid m p : wf m → fresh uuid m → filters m !! uuid = Some p → False.
Proof. intros W Hf Hp. destruct (wf_filters m W uuid p Hp) as (b & Hb & Hid & _). by apply Hf in Hb. Qed.

Lemma calm_setFilterID conn id m : wf m → calm m (setFilterID conn id m).
Proof. destruct conn; [|by apply calm_refl]. intros [[Hp Hr] ? ? ? ? ? ?]. by split. Qed.

Lemma good_add now uuid conn k m :
  wf m → fresh uuid m → starting k m →
  good m (lInstall uuid) (addFilter now (mkFilter (newFilterBase uuid conn) k) m).2.
Proof.
  intros W Hf Hk. destruct (addFilter_spec now uuid conn k m W Hf Hk) as (W' & _ & K' & T'). cbv zeta in *.
  set (m' := (addFilter _ _ _).2) in *.
  assert (∀ id, filters m' !! id = if decide (id = uuid) then Some (length (objects m)) else filters m !! id) as F'.
  { intros id. rewrite (kept_filters _ _ K'). cbn. case_decide as E; [subst; by rewrite lookup_insert_eq|].
    by rewrite lookup_insert_ne. }
  split; [done| | | | |].
  - eapply keeps_trans; [|by apply keeps_kept]. intros p b Hb. exists b. rewrite base_of_snoc, decide_False; [done|].
    apply base_of_lt in Hb. lia.
  - intros p [Hin Hno]. split; [apply T'; auto|]. intros [id Hid]. rewrite F' in Hid. case_decide; [|by destruct Hno; exists id].
    injection Hid as <-. apply list_elem_of_lookup in Hin as [i Hi]. apply indexed_allocated in Hi; [lia|apply W].
  - intros _ Hl p [Hin|[_ ->]]%T'; [|exists uuid; by rewrite F', decide_True].
    destruct (Hl p Hin) as [id Hid]. exists id. rewrite F'. case_decide; [|done]. subst id.
    by destruct (fresh_not_installed uuid m p).
  - intros u Hu Hne. eapply good_fresh_kept; [done|]. intros p b. rewrite base_of_snoc. case_decide; [|by apply Hu].
    intros [= <-]. cbn. congruence.
  - by rewrite (kept_stream _ _ K').
Qed.

Lemma good_remove id m : wf m → good m (lRemove [id]) (removeFilterByID id m).2.
Proof.
  intros W. destruct (removeFilterByID_spec id m W) as (W' & K & _ & T). cbv zeta in *.
  set (m' := (removeFilterByID id m).2) in *. pose proof (kept_filters _ _ K) as F. cbn in F.
  split; [done| | | | |].
  - intros p b Hb. by apply (kept_base _ _ p b K).
  - intros p [Hin Hno]. split; [|intros [i Hi]; rewrite F in Hi; apply lookup_delete_Some in Hi as [_ Hi]; by destruct Hno; exists i].
    apply T. split; [done|]. intros E. destruct Hno. by exists id.
  - intros _ Hl p [Hin Hne]%T. destruct (Hl p Hin) as [i Hi]. exists i. rewrite F. apply lookup_delete_Some.
    split; [|done]. by intros ->.
  - intros u Hu _. by apply (good_fresh_kept _ _ u K).
  - by rewrite (kept_stream _ _ K).
Qed.

Lemma good_remove_all ids m : wf m → good m (lRemove ids) (removeClosed ids m).
Proof.
  revert m. induction ids as [|id ids IH]; intros m W; [by apply good_calm, calm_refl|].
  destruct (good_remove id m W) as [W1 K1 O1 L1 F1 E1]. destruct (IH _ W1) as [W2 K2 O2 L2 F2 E2].
  split; [done|by eapply keeps_trans| | | |unfold removeClosed in *; cbn [foldl]; lia].
  - intros p Hp. apply O2, O1, Hp.
  - intros _ Hl. apply L2; [done|]. by apply L1.
  - intros u Hu _. apply F2; [|done]. by apply F1.
Qed.

Lemma good_refresh now p b m :
  wf m → base_of m p = Some b → ws b = None →
  good m (lRefresh (bool_decide (installed m p))) (refreshFilterTimeout now p m).
Proof.
  intros W Hb Hw. destruct (refreshFilterTimeout_spec now p b m W Hb Hw) as (W' & K & T). cbv zeta in *.
  set (m' := refreshFilterTimeout now p m) in *. pose proof (kept_filters _ _ K) as F.
  split; [done|by apply keeps_kept| | |intros u Hu _; by apply (good_fresh_kept _ _ u K)|by rewrite (kept_stream _ _ K)].
  - intros q [Hin Hno]. split; [apply T; auto|]. unfold installed. by rewrite F.
  - intros Hne Hl q. unfold installed. rewrite F. intros [->|Hin]%T; [|by apply Hl].
    destruct (bool_decide_reflect (installed m p)); [done|by destruct Hne].
Qed.

Definition reading_ok (m : FilterManager) (r : reading) : Prop :=
  filters m !! rdId r = Some (rdFilter r) ∧ (∃ b, base_of m (rdFilter r) = Some b ∧ ws b = None) ∧
  query_of m (rdFilter r) = Some None ∧
  match rdState r with reads e | walked e => (e < length (elems (stream m)))%nat end.

Definition creating_ok (m : FilterManager) (f : filter) : Prop :=
  ∃ uuid conn k, f = mkFilter (newFilterBase uuid conn) k ∧ starting k m ∧ fresh uuid m.

Record cinv (c : config) : Prop := {
  cinv_wf : wf (mgr c);
  cinv_refreshing p : p ∈ refreshing c → ∃ b, base_of (mgr c) p = Some b ∧ ws b = None;
  cinv_creating f : f ∈ creating c → creating_ok (mgr c) f.1;
  cinv_ids : NoDup (new_id <$> creating c);
  cinv_readings r : r ∈ readings c → reading_ok (mgr c) r;
}.

Lemma calm_reading m m' r : calm m m' → reading_ok m r → reading_ok m' r.
Proof.
  intros [_ B F _ Q E] (Hf & (b & Hb & Hw) & Hq & Hs). split_and!; [by rewrite F|exists b; by rewrite B|by rewrite Q|].
  destruct (rdState r); lia.
Qed.

Lemma starting_grows k m m' : (length (elems (stream m)) ≤ length (elems (stream m')))%nat → starting k m → starting k m'.
Proof. destruct k; [cbn; lia|done]. Qed.

(** The element reached at the end of the stream. *)
Lemma walk_end m e updates newHead :
  wf m → (e < length (elems (stream m)))%nat → headElem_getUpdates (stream m) e = (updates, newHead) →
  (newHead < length (elems (stream m)))%nat ∧ headElem_getUpdates (stream m) newHead = ([], newHead).
Proof.
  intros W He. destruct (wf_stream m W) as (bs & Hne & Es). rewrite Es, length_stream in *.
  rewrite getUpdates_stream by done. intros [= <- <-]. split; [lia|]. rewrite getUpdates_stream by lia.
  by rewrite drop_ge by lia.
Qed.

Section invariant.
Context `{!ethStore, Rlp, Keccak}.

Lemma step_good c l c' : cinv c → step c l c' → good (mgr c) l (mgr c') ∧ (calm (mgr c) (mgr c') ∨ readings c' = []).
Proof.
  intros [W R C I D] Hs.
  assert (∀ m' l rs, calm (mgr c) m' → good (mgr c) l m' ∧ (calm (mgr c) m' ∨ rs = @nil reading)) as Hc.
  { intros m' l0 rs Hm. split; [by apply good_calm|by left]. }
  pose proof (calm_refl (mgr c) W) as Hr.
  destruct Hs as [c uuid conn Hf|c uuid q conn Hf|c l1 f l2 E|c l1 f l2 now U E|c id U|c conn U|c id p q logs res m' Hk E
    |c id p b elem Hp Hb Hw Hk|c l1 id p elem l2 us n E Eu|c l1 id p n l2 E|c ps p qs now U E|c order chain l T V E|c a l T
    |c order write sent closed m' T V E|c U]; cbn [mgr readings with_mgr with_creating with_readings with_todo with_refreshing with_closing]; try destruct U as [U _].
  - by apply Hc.
  - by apply Hc.
  - apply Hc. by apply calm_setFilterID.
  - split; [|by right]. destruct (C (f, true)) as (uuid & conn & k & Ef & Hk & Hf); [rewrite E, elem_of_app, elem_of_cons; auto|].
    cbn in Ef. subst f. by apply good_add.
  - split; [by apply good_remove|by right].
  - split; [by apply good_remove|by right].
  - apply Hc. unfold getFilterAndChanges in E. destruct (filters (mgr c) !! id) as [p'|]; [|done].
    destruct (base_of (mgr c) p') as [b|]; [|done]. destruct (hasWSConn b); [done|].
    destruct (takeUpdates_only p' (mgr c) W) as [Ct _]. destruct (takeUpdates p' (mgr c)) as [us m1]. by injection E as _ _ <-.
  - by apply Hc.
  - by apply Hc.
  - apply Hc. destruct (D (mkReading id p (walked n))) as (_ & _ & Hq & Hn); [rewrite E, elem_of_app, elem_of_cons; auto|].
    apply calm_update; [done|by intros e [= <-]|]. intros o Ho. unfold query_of in Hq. cbn in Hq. rewrite Ho in Hq.
    by injection Hq as ->.
  - destruct (R p) as (b & Hb & Hw); [rewrite E, elem_of_app, elem_of_cons; auto|].
    split; [by eapply good_refresh|by right].
  - by apply Hc.
  - apply Hc. by apply calm_act.
  - apply Hc. by eapply flushLoop_only.
  - split; [by apply good_remove_all|by right].
Qed.

(** The filters about to be refreshed have no web socket. *)
Lemma step_refreshing c l c' p :
  cinv c → step c l c' → p ∈ refreshing c' → p ∈ refreshing c ∨ ∃ b, base_of (mgr c) p = Some b ∧ ws b = None.
Proof.
  intros I Hs. destruct Hs as [| | | | | |c id p0 q logs res m' Hk E| | |c l1 id p0 n l2 E|c ps p0 qs now U E| | | |];
    cbn [refreshing with_mgr with_creating with_readings with_todo with_refreshing with_closing]; auto.
  - intros [->|Hp]%elem_of_cons; [right|by left]. unfold getFilterAndChanges in E.
    destruct (filters (mgr c) !! id) as [p'|]; [|done]. destruct (base_of (mgr c) p') as [b|] eqn:Hb; [|done].
    destruct (hasWSConn b) eqn:Hw; [done|]. destruct (takeUpdates p' (mgr c)) as [us m1]. injection E as -> _ _.
    exists b. split; [done|]. apply bool_decide_eq_false in Hw. destruct (ws b); [by destruct Hw|done].
  - intros [->|Hp]%elem_of_cons; [right|by left].
    destruct (cinv_readings c I (mkReading id p0 (walked n))) as (_ & Hb & _); [rewrite E, elem_of_app, elem_of_cons; auto|done].
  - rewrite E, !elem_of_app, elem_of_cons. tauto.
Qed.

Lemma step_creating c l c' :
  cinv c → step c l c' →
  NoDup (new_id <$> creating c') ∧
  ∀ f, f ∈ creating c' → creating_ok (mgr c) f.1 ∧ l ≠ lInstall (new_id f).
Proof.
  intros I Hs. pose proof (cinv_ids c I) as ND. pose proof (cinv_creating c I) as C.
  destruct Hs as [c uuid conn [Hf1 Hf2]|c uuid q conn [Hf1 Hf2]|c l1 f l2 E|c l1 f l2 now U E| | | | | | | | | | |];
    cbn [creating mgr with_mgr with_creating with_readings with_todo with_refreshing with_closing] in *;
    try (split; [done|]; intros f Hf; split; [by apply C|discriminate]).
  - split.
    + rewrite fmap_app. apply NoDup_app. split; [done|]. split; [|apply NoDup_singleton].
      intros i Hi ->%list_elem_of_singleton. by apply Hf2.
    + intros f [Hf| ->%list_elem_of_singleton]%elem_of_app; (split; [|discriminate]); [by apply C|].
      exists uuid, conn, (blockFilter (getHead (stream (mgr c)))). split_and!; [done|by apply head_lt, I|done].
  - split.
    + rewrite fmap_app. apply NoDup_app. split; [done|]. split; [|apply NoDup_singleton].
      intros i Hi ->%list_elem_of_singleton. by apply Hf2.
    + intros f [Hf| ->%list_elem_of_singleton]%elem_of_app; (split; [|discriminate]); [by apply C|].
      by exists uuid, conn, (logFilter q []).
  - rewrite E in ND, C. split.
    + by rewrite fmap_app, fmap_cons in *.
    + intros g Hg. split; [|discriminate]. apply elem_of_app in Hg as [Hg|[->|Hg]%elem_of_cons].
      * apply C. rewrite elem_of_app. auto.
      * apply (C (f, false)). rewrite elem_of_app, elem_of_cons. auto.
      * apply C. rewrite elem_of_app, elem_of_cons. auto.
  - rewrite E in ND, C. rewrite fmap_app, fmap_cons in ND. apply NoDup_app in ND as (N1 & N2 & N3).
    apply NoDup_cons in N3 as [N4 N5].
    assert (∀ g, g ∈ l1 ++ l2 → new_id g ≠ new_id (f, true)) as Hne.
    { intros g [Hg|Hg]%elem_of_app Eg.
      - apply (N2 (new_id g)); [by apply list_elem_of_fmap_2|]. rewrite Eg. apply list_elem_of_here.
      - apply N4. rewrite <- Eg. by apply list_elem_of_fmap_2. }
    split.
    + rewrite fmap_app. apply NoDup_app. split; [done|]. split; [|done]. intros i Hi Hi'. apply (N2 i Hi). by right.
    + intros g Hg. split; [|intros [= Eg]; by apply (Hne g Hg)]. apply C. rewrite elem_of_app, elem_of_cons in *. tauto.
Qed.

Lemma step_readings c l c' r :
  cinv c → step c l c' → r ∈ readings c' → reading_ok (mgr c) r.
Proof.
  intros I Hs. pose proof (cinv_readings c I) as D.
  destruct Hs as [| | | | | | |c id p b elem Hp Hb Hw Hk|c l1 id p elem l2 us n E Eu|c l1 id p n l2 E| | | | |];
    cbn [readings mgr with_mgr with_creating with_readings with_todo with_refreshing with_closing] in *; auto.
  - intros [Hr| ->%list_elem_of_singleton]%elem_of_app; [by apply D|]. split_and!; cbn; [done| | |].
    + exists b. split; [done|]. apply bool_decide_eq_false in Hw. destruct (ws b); [by destruct Hw|done].
    + unfold query_of. destruct (objects (mgr c) !! p) as [o|]; [|done]. cbn in *. by injection Hk as ->.
    + by apply (wf_blocks (mgr c) (cinv_wf c I) p).
  - rewrite E in D. intros Hr. apply elem_of_app in Hr as [Hr|[->|Hr]%elem_of_cons].
    + apply D. rewrite elem_of_app. auto.
    + destruct (D (mkReading id p (reads elem))) as (Hf & Hb & Hq & He); [rewrite elem_of_app, elem_of_cons; auto|].
      split_and!; [done..|]. by apply (walk_end (mgr c) elem us n (cinv_wf c I) He Eu).
    + apply D. rewrite elem_of_app, elem_of_cons. auto.
  - rewrite E in D. intros Hr. apply D. rewrite elem_of_app, elem_of_cons in *. tauto.
Qed.

Lemma step_cinv c l c' : cinv c → step c l c' → cinv c'.
Proof.
  intros I Hs. destruct (step_good c l c' I Hs) as [G U]. destruct (step_creating c l c' I Hs) as [ND C].
  split; [apply G| | |done|].
  - intros p Hp. assert (∃ b, base_of (mgr c) p = Some b ∧ ws b = None) as (b & Hb & Hw)
      by (destruct (step_refreshing c l c' p I Hs Hp); [by apply I|done]).
    destruct (good_keeps _ _ _ G p b Hb) as (b' & Hb' & _ & Hw'). exists b'. split; congruence.
  - intros f Hf. destruct (C f Hf) as [(uuid & conn & k & Ef & Hk & Hfr) Hl]. exists uuid, conn, k.
    split; [done|]. split; [by eapply starting_grows, Hk; apply G|]. apply (good_fresh _ _ _ G); [done|].
    unfold new_id in Hl. rewrite Ef in Hl. done.
  - intros r Hr. pose proof (step_readings c l c' r I Hs Hr) as Hok. destruct U as [Hc|Hn]; [by eapply calm_reading|].
    rewrite Hn in Hr. by apply elem_of_nil in Hr.
Qed.

Lemma exec_cinv c ls c' : cinv c → exec step c ls c' → cinv c'.
Proof. intros I E. induction E; [done|]. by eapply step_cinv; [apply IHE|]. Qed.

Lemma start_cinv limit m : NewFilterManager limit = Returns m → cinv (start m).
Proof.
  unfold NewFilterManager. intros E. apply result_bind_returns in E as (h & _ & E). rewrite headerBlock_returns in E.
  injection E as <-. split; cbn; [|by intros p ?%elem_of_nil|by intros f ?%elem_of_nil|constructor|by intros r ?%elem_of_nil].
  set (m := mkFilterManager _ _ _ _ _ _ _). split; try done.
  - split; [done|]. by left.
  - by exists [header_block h].
Qed.
End invariant.

(** ** What is still to be delivered *)

(** The element a call in flight has reached for a filter. *)
Fixpoint walked_at (rs : list reading) (p : nat) : option nat :=
  match rs with
  | [] => None
  | mkReading _ q (walked n) :: rs => if decide (q = p) then Some n else walked_at rs p
  | mkReading _ _ (reads _) :: rs => walked_at rs p
  end.

(** The filter at [p] with the updates it holds, from the element [h] on when
    a call has got there, and those in the rest [l] of an event. *)
Definition view (m : FilterManager) (l : list action) (h : option nat) (p : nat) : option clientFilter :=
  o ← objects m !! p;
  Some (match fkind o with
        | blockFilter e =>
            mkClient None (ws (getFilterBase o))
              (updateBlock <$> ((headElem_getUpdates (stream m) (default e h)).1 ++ pushes l))
        | logFilter q logs => mkClient (Some q) (ws (getFilterBase o)) (updateLog <$> (logs ++ logs_for p l))
        end).

Definition cabs (c : config) : gmap (list Z) clientFilter :=
  omap (λ p, view (mgr c) (todo c) (walked_at (readings c) p) p) (filters (mgr c)).

Definition new_view (m : FilterManager) (l : list action) (f : filter) : clientFilter :=
  match fkind f with
  | blockFilter e =>
      mkClient None (ws (getFilterBase f)) (updateBlock <$> ((headElem_getUpdates (stream m) e).1 ++ pushes l))
  | logFilter q logs => mkClient (Some q) (ws (getFilterBase f)) (updateLog <$> logs)
  end.

Definition news (c : config) : list (list Z * clientFilter) :=
  (λ f, (new_id f, new_view (mgr c) (todo c) f.1)) <$> creating c.

(** No two calls read one filter, and a call that starts has the element of
    the filter. *)
Record xinv (c : config) : Prop := {
  xinv_nodup : NoDup (rdFilter <$> readings c);
  xinv_elem r e : r ∈ readings c → rdState r = reads e → fkind <$> objects (mgr c) !! rdFilter r = Some (blockFilter e);
}.

Lemma lookup_cabs c id : cabs c !! id = p ← filters (mgr c) !! id; view (mgr c) (todo c) (walked_at (readings c) p) p.
Proof. apply lookup_omap. Qed.

Lemma walked_at_absent rs p : p ∉ rdFilter <$> rs → walked_at rs p = None.
Proof.
  induction rs as [|[id q st] rs IH]; [done|]. rewrite fmap_cons, not_elem_of_cons. intros [Hne Hp]. cbn in *.
  destruct st; [by apply IH|]. rewrite decide_False by congruence. by apply IH.
Qed.

Lemma walked_at_app rs rs' p : walked_at (rs ++ rs') p = match walked_at rs p with Some n => Some n | None => walked_at rs' p end.
Proof. induction rs as [|[id q [e|n]] rs IH]; [done|done|]. cbn. by case_decide. Qed.

Lemma walked_at_some rs p n : walked_at rs p = Some n → ∃ id, mkReading id p (walked n) ∈ rs.
Proof.
  induction rs as [|[id q [e|k]] rs IH]; cbn; [done| |].
  - intros [i Hi]%IH. exists i. by right.
  - case_decide; [intros [= ->]; subst; exists id; by left|]. intros [i Hi]%IH. exists i. by right.
Qed.

Lemma view_quiet m p : view m [] None p = client_of m p.
Proof. unfold view, client_of. destruct (objects m !! p) as [[b [e|q logs]]|]; [| |done]; cbn; by rewrite app_nil_r. Qed.

Lemma cabs_unlocked c : unlocked c → cabs c = abs (mgr c).
Proof.
  intros [Hr Ht]. unfold cabs, abs. rewrite Hr, Ht. apply map_eq. intros id. rewrite !lookup_omap.
  destruct (filters (mgr c) !! id); [|done]. apply view_quiet.
Qed.

(** A push is an update of everyone behind it. *)
Lemma push_updates m b e :
  wf m → (e < length (elems (stream m)))%nat →
  (headElem_getUpdates (push (stream m) b) e).1 = (headElem_getUpdates (stream m) e).1 ++ [b].
Proof.
  intros W He. destruct (wf_stream m W) as (bs & Hne & Es). rewrite Es, length_stream in *. rewrite push_stream by done.
  rewrite !getUpdates_stream by (rewrite ?length_app; cbn; lia). cbn [fst]. by rewrite drop_app_le by lia.
Qed.

Lemma view_act m a l h p :
  wf m → (∀ n, h = Some n → (n < length (elems (stream m)))%nat) → view (act m a) l h p = view m (a :: l) h p.
Proof.
  intros W Hh. unfold view. destruct a as [b|log q]; cbn [act].
  - cbn [objects set_stream stream]. destruct (objects m !! p) as [[base [e|q logs]]|] eqn:Ep; [| |done]; cbn [mbind option_bind fkind].
    + do 3 f_equal. rewrite push_updates; [by rewrite <- app_assoc|done|].
      destruct h as [n|]; [by apply Hh|]. apply (wf_blocks m W p). by rewrite Ep.
    + done.
  - unfold appendLog. destruct (objects m !! q) as [[base [e|k logs]]|] eqn:Eq; cbn [fmap option_fmap option_map fkind].
    + destruct (objects m !! p) as [[base' [e'|k' logs']]|] eqn:Ep; [done| |done]. cbn.
      by rewrite decide_False by congruence.
    + unfold update_kind. cbn [objects set_objects stream]. destruct (decide (p = q)) as [->|Hne].
      * rewrite list_lookup_alter_eq, Eq. cbn. rewrite decide_True by done. by rewrite <- app_assoc.
      * rewrite list_lookup_alter_ne by done. destruct (objects m !! p) as [[base' [e'|k' logs']]|]; [done| |done]. cbn.
        by rewrite decide_False by congruence.
    + destruct (objects m !! p) as [[base' [e'|k' logs']]|] eqn:Ep; [done| |done]. cbn.
      by rewrite decide_False by congruence.
Qed.

Lemma view_acts l m p : wf m → view m l None p = client_of (foldl act m l) p.
Proof.
  revert m. induction l as [|a l IH]; intros m W; [apply view_quiet|]. rewrite <- view_act by done. apply IH.
  by apply calm_act.
Qed.

Lemma new_view_act m a l f :
  wf m → creating_ok m f → new_view (act m a) l f = new_view m (a :: l) f.
Proof.
  intros W (uuid & conn & k & -> & Hk & _). unfold new_view. cbn [fkind]. destruct k as [e|q logs]; [|done].
  destruct a as [b|log q]; cbn [act].
  - cbn [stream set_stream]. rewrite push_updates by done. by rewrite <- app_assoc.
  - assert (stream (appendLog log q m) = stream m) as -> by (unfold appendLog; by repeat case_match). done.
Qed.

(** ** The simulation *)

Section simulation.
Context `{!ethStore, Rlp, Keccak}.

Definition sabs (c : config) (last : list Header) : sstate := mkS (cabs c) (news c) last.

Lemma cabs_insert c c' id p cl :
  wf (mgr c) → filters (mgr c) !! id = Some p → filters (mgr c') = filters (mgr c) →
  view (mgr c') (todo c') (walked_at (readings c') p) p = Some cl →
  (∀ q, q ≠ p → view (mgr c') (todo c') (walked_at (readings c') q) q = view (mgr c) (todo c) (walked_at (readings c) q) q) →
  cabs c' = <[id := cl]> (cabs c).
Proof.
  intros W Hp Hf Hcl Ho. apply map_eq. intros i. rewrite lookup_cabs, Hf. destruct (decide (i = id)) as [->|Hne].
  - by rewrite lookup_insert_eq, Hp.
  - rewrite lookup_insert_ne, lookup_cabs by done. destruct (filters (mgr c) !! i) as [q|] eqn:Hq; [|done]. cbn.
    apply Ho. intros ->. by destruct Hne; eapply filters_inj.
Qed.

Lemma cabs_same c c' :
  filters (mgr c') = filters (mgr c) →
  (∀ id p, filters (mgr c) !! id = Some p →
     view (mgr c') (todo c') (walked_at (readings c') p) p = view (mgr c) (todo c) (walked_at (readings c) p) p) →
  cabs c' = cabs c.
Proof.
  intros Hf Hv. apply map_eq. intros i. rewrite !lookup_cabs, Hf. destruct (filters (mgr c) !! i) eqn:E; [|done]. cbn.
  by eapply Hv.
Qed.

(** The answer of a call is settled when it has reached the end of the
    stream. *)
Lemma sim_walk c l1 id p elem l2 us n last :
  cinv c → xinv c → readings c = l1 ++ mkReading id p (reads elem) :: l2 →
  headElem_getUpdates (stream (mgr c)) elem = (us, n) →
  let c' := with_readings (l1 ++ mkReading id p (walked n) :: l2) c in
  spec_step (sabs c last) (lChanges id (updateBlock <$> us) (quiet c)) (sabs c' last) ∧ xinv c'.
Proof.
  intros I [ND X] E Eu c'. assert (mkReading id p (reads elem) ∈ readings c) as Hin by (rewrite E, elem_of_app, elem_of_cons; auto).
  destruct (cinv_readings c I _ Hin) as (Hp & (b & Hb & Hw) & _ & He). pose proof (X _ elem Hin eq_refl) as Hk. cbn in Hp, Hb, Hk, He.
  destruct (walk_end (mgr c) elem us n (cinv_wf c I) He Eu) as [Hn En].
  rewrite E, fmap_app, fmap_cons in ND. apply NoDup_app in ND as (N1 & N2 & N3). cbn in N2, N3. apply NoDup_cons in N3 as [N3 N4].
  assert (p ∉ rdFilter <$> l1) as N5 by (intros Hx; apply (N2 p Hx), list_elem_of_here).
  assert (walked_at (readings c) p = None) as Hw0 by (rewrite E, walked_at_app, walked_at_absent by done; cbn; by apply walked_at_absent).
  assert (walked_at (readings c') p = Some n) as Hw1 by (cbn; rewrite walked_at_app, walked_at_absent by done; cbn; by rewrite decide_True).
  destruct (objects (mgr c) !! p) as [[base k]|] eqn:Eo; [|done]. cbn in Hk. injection Hk as ->.
  assert (base = b) as -> by (unfold base_of in Hb; rewrite Eo in Hb; by injection Hb).
  split.
  - exists (mkClient None None (updateBlock <$> (us ++ pushes (todo c)))), (updateBlock <$> pushes (todo c)). cbn [clients sabs cPending cQuery cWs].
    split_and!; [|done|by rewrite fmap_app|unfold quiet; by destruct (todo c)|].
    + rewrite lookup_cabs, Hp. cbn [mbind option_bind]. unfold view. rewrite Hw0, Eo. cbn. by rewrite Eu, Hw.
    + unfold sabs. cbn [created latest]. f_equal. apply (cabs_insert c c' id p); [apply I|done|done| |].
      * unfold view. rewrite Hw1. cbn. rewrite Eo. cbn. by rewrite En, Hw.
      * intros q Hq. cbn. f_equal. rewrite E, !walked_at_app. cbn. by rewrite decide_False by done.
  - split; cbn.
    + rewrite fmap_app, fmap_cons. cbn. apply NoDup_app. split; [done|]. split; [done|]. by apply NoDup_cons.
    + intros r e Hr Hs. apply X; [|done]. rewrite E. rewrite elem_of_app, elem_of_cons in *.
      destruct Hr as [?|[->|?]]; [auto|done|auto].
Qed.

Lemma sim_set c l1 id p n l2 :
  cinv c → xinv c → readings c = l1 ++ mkReading id p (walked n) :: l2 →
  let c' := with_mgr (setHeadElem n p (mgr c)) (with_readings (l1 ++ l2) (with_refreshing (p :: refreshing c) c)) in
  cabs c' = cabs c ∧ news c' = news c ∧ xinv c'.
Proof.
  intros I [ND X] E c'. rewrite E, fmap_app, fmap_cons in ND. apply NoDup_app in ND as (N1 & N2 & N3). cbn in N2, N3. apply NoDup_cons in N3 as [N3 N4].
  assert (p ∉ rdFilter <$> l1) as N5 by (intros Hx; apply (N2 p Hx), list_elem_of_here).
  destruct (cinv_readings c I (mkReading id p (walked n))) as (_ & _ & Hq & _); [rewrite E, elem_of_app, elem_of_cons; auto|]. cbn in Hq.
  split_and!; [|done|].
  - apply cabs_same; [done|]. intros i q _. cbn [mgr todo readings with_mgr with_readings with_refreshing c']. unfold view, setHeadElem, update_kind.
    cbn [objects set_objects stream]. rewrite E, !walked_at_app. cbn [walked_at]. destruct (decide (p = q)) as [<-|Hne].
    + rewrite (walked_at_absent l1), (walked_at_absent l2) by done. rewrite list_lookup_alter_eq. unfold query_of in Hq.
      destruct (objects (mgr c) !! p) as [[base [e|k logs]]|]; done.
    + by rewrite list_lookup_alter_ne.
  - split; cbn.
    + rewrite fmap_app. apply NoDup_app. split; [done|]. split; [|done]. intros x Hx Hx'. apply (N2 x Hx). by right.
    + intros r e Hr Hs. assert (rdFilter r ≠ p) as Hne.
      { intros <-. apply elem_of_app in Hr as [Hr|Hr]; [apply N5|apply N3]; by apply list_elem_of_fmap_2. }
      rewrite list_lookup_alter_ne by done. apply X; [|done]. rewrite E. rewrite elem_of_app, elem_of_cons in *. tauto.
Qed.

Lemma sim_log_changes c id p q logs res m' last :
  cinv c → xinv c → fkind <$> objects (mgr c) !! p = Some (logFilter q logs) →
  getFilterAndChanges id (mgr c) = (Returns (p, res), m') →
  let c' := with_mgr m' (with_refreshing (p :: refreshing c) c) in
  spec_step (sabs c last) (lChanges id res (quiet c)) (sabs c' last) ∧ xinv c'.
Proof.
  intros I [ND X] Hk E c'. unfold getFilterAndChanges in E. destruct (filters (mgr c) !! id) as [p'|] eqn:Hp; [|done].
  destruct (base_of (mgr c) p') as [b|] eqn:Hb; [|done]. destruct (hasWSConn b) eqn:Hw; [done|].
  assert (ws b = None) as Hwb by (apply bool_decide_eq_false in Hw; destruct (ws b); [by destruct Hw|done]).
  destruct (takeUpdates p' (mgr c)) as [us m1] eqn:Et. injection E as -> -> ->.
  unfold takeUpdates in Et. rewrite Hk in Et. injection Et as <- <-.
  destruct (objects (mgr c) !! p) as [[base k]|] eqn:Eo; [|done]. cbn in Hk. injection Hk as ->.
  assert (base = b) as -> by (unfold base_of in Hb; rewrite Eo in Hb; by injection Hb).
  split; [|split; [done|]].
  - exists (mkClient (Some q) None (updateLog <$> (logs ++ logs_for p (todo c)))), (updateLog <$> logs_for p (todo c)).
    cbn [clients sabs cPending cQuery cWs].
    split_and!; [|done|by rewrite fmap_app|unfold quiet; by destruct (todo c)|].
    + rewrite lookup_cabs, Hp. cbn [mbind option_bind]. unfold view. rewrite Eo. cbn. by rewrite Hwb.
    + unfold sabs. cbn [created latest]. f_equal. apply (cabs_insert c c' id p); [apply I|done|done| |].
      * unfold view, c', update_kind. cbn. rewrite list_lookup_alter_eq, Eo. cbn. by rewrite Hwb.
      * intros k Hne. unfold view, c', update_kind. cbn. by rewrite list_lookup_alter_ne.
  - intros r e Hr Hs. cbn. destruct (decide (rdFilter r = p)) as [Er|Hne]; [|by rewrite list_lookup_alter_ne; [apply X|]].
    pose proof (X r e Hr Hs) as Hx. by rewrite Er, Eo in Hx.
Qed.

(** An event adds its updates to every filter at once. *)
Lemma lookup_observed (chain : list Header) (s : gmap (list Z) clientFilter) i :
  foldl (λ s h, observe (header_block h) <$> s) s chain !! i =
  (λ c, foldl (λ c h, observe (header_block h) c) c chain) <$> s !! i.
Proof.
  revert s. induction chain as [|h chain IH]; intros s; cbn [foldl]; [by rewrite option_fmap_id|].
  rewrite IH, lookup_fmap. by destruct (s !! i).
Qed.

Lemma observed_new (chain : list Header) (l : list (list Z * clientFilter)) :
  foldl (λ l h, prod_map id (observe_new (header_block h)) <$> l) l chain =
  prod_map id (λ c, foldl (λ c h, observe_new (header_block h) c) c chain) <$> l.
Proof.
  revert l. induction chain as [|h chain IH]; intros l; cbn [foldl].
  - induction l as [|[] l IH]; [done|]. rewrite fmap_cons. by f_equal.
  - rewrite IH, <- list_fmap_compose. apply list_fmap_ext. by intros i [] _.
Qed.

Lemma observe_blocks (chain : list Header) c :
  cQuery c = None →
  foldl (λ c h, observe (header_block h) c) c chain =
  mkClient None (cWs c) (cPending c ++ ((λ h, updateBlock (header_block h)) <$> chain)).
Proof.
  revert c. induction chain as [|h chain IH]; intros [q w us] Hq; cbn in Hq; subst q; cbn [foldl].
  - by rewrite app_nil_r.
  - rewrite IH by done. rewrite fmap_cons. cbn. by rewrite <- app_assoc.
Qed.

Lemma observe_new_blocks (chain : list Header) c :
  foldl (λ c h, observe_new (header_block h) c) c chain =
  match cQuery c with None => foldl (λ c h, observe (header_block h) c) c chain | Some _ => c end.
Proof.
  revert c. induction chain as [|h chain IH]; intros c; cbn [foldl]; [by destruct (cQuery c)|]. rewrite IH. unfold observe_new.
  destruct (cQuery c) as [q|] eqn:Eq; [by rewrite Eq|]. cbn. by rewrite Eq.
Qed.

Lemma view_event order chain m l h i p :
  wf m → visits order m → eventActions order chain m = Returns l → filters m !! i = Some p →
  view m l h p = (λ c, foldl (λ c h, observe (header_block h) c) c chain) <$> view m [] h p.
Proof.
  intros W V E Hp. destruct (objects m !! p) as [[b [e|q logs]]|] eqn:Eo.
  - unfold view. rewrite Eo. cbn [mbind option_bind fkind fmap option_fmap option_map]. f_equal.
    rewrite observe_blocks by done. cbn [cWs cPending getFilterBase]. rewrite app_nil_r, fmap_app, (pushes_event _ _ _ _ E).
    by rewrite <- list_fmap_compose.
  - assert (∀ l h, view m l h p = view m l None p) as Hh by (intros; unfold view; by rewrite Eo). rewrite !(Hh _ h).
    rewrite view_quiet, view_acts by done.
    assert (processEvent order chain m = Returns (foldl act m l)) as Ep by (rewrite (processEvent_acts order chain m m), E; done).
    destruct (processEvent_spec order chain m _ W V Ep) as (_ & _ & F & _ & A).
    apply (f_equal (lookup i)) in A. rewrite lookup_observed, !lookup_abs, F, Hp in A. done.
  - unfold view. by rewrite Eo.
Qed.

Lemma sim_event c order chain l last :
  cinv c → xinv c → todo c = [] → visits order (mgr c) → eventActions order chain (mgr c) = Returns l →
  spec_step (sabs c last) (lEvent chain) (sabs (with_todo l c) chain).
Proof.
  intros I X T V E. cbn [spec_step sabs clients created latest]. unfold sabs. f_equal.
  - apply map_eq. intros i. rewrite lookup_observed, !lookup_cabs, T. cbn [mgr todo readings with_todo].
    destruct (filters (mgr c) !! i) as [p|] eqn:Hp; [|done]. cbn [mbind option_bind].
    by apply (view_event order chain (mgr c) l _ i p (cinv_wf c I)).
  - rewrite observed_new. unfold news. rewrite <- list_fmap_compose, T. cbn [creating mgr todo with_todo].
    apply list_fmap_ext. intros i f _. cbn. f_equal. rewrite observe_new_blocks. unfold new_view.
    destruct (fkind f.1) as [e|q logs]; [|done]. cbn [cQuery]. rewrite observe_blocks by done. cbn [cWs cPending].
    rewrite app_nil_r, fmap_app, (pushes_event _ _ _ _ E). by rewrite <- list_fmap_compose.
Qed.

Lemma sim_act c a l :
  cinv c → todo c = a :: l →
  let c' := with_mgr (act (mgr c) a) (with_todo l c) in cabs c' = cabs c ∧ news c' = news c.
Proof.
  intros I T c'. split.
  - apply cabs_same; [apply (act_queries (mgr c) a)|]. intros i p _. cbn [mgr todo readings with_mgr with_todo c']. rewrite T.
    apply view_act; [apply I|]. intros n Hn. destruct (walked_at_some _ _ _ Hn) as [id Hid]. by apply (cinv_readings c I) in Hid as (_ & _ & _ & ?).
  - unfold news. cbn [mgr todo creating with_mgr with_todo c']. rewrite T. apply list_fmap_ext. intros i f Hf. f_equal.
    apply new_view_act; [apply I|]. apply (cinv_creating c I). by eapply list_elem_of_lookup_2.
Qed.

Lemma xinv_act c a l : xinv c → todo c = a :: l → xinv (with_mgr (act (mgr c) a) (with_todo l c)).
Proof.
  intros [ND X] T. split; [done|]. intros r e Hr Hs. cbn. pose proof (X r e Hr Hs) as Hx.
  destruct a as [b|log p]; [done|]. cbn. unfold appendLog.
  destruct (objects (mgr c) !! p) as [[base [e'|q logs]]|] eqn:Eo; [done| |done]. cbn.
  destruct (decide (rdFilter r = p)) as [Er|]; [by rewrite Er, Eo in Hx|]. by rewrite list_lookup_alter_ne.
Qed.

(** Only filters without a web socket are read by clients: for the others
    nothing is in flight when no event is being processed. *)
Lemma cabs_ws c i p b :
  cinv c → todo c = [] → filters (mgr c) !! i = Some p → base_of (mgr c) p = Some b → ws b ≠ None →
  walked_at (readings c) p = None ∧ cabs c !! i = abs (mgr c) !! i.
Proof.
  intros I T Hp Hb Hw. assert (walked_at (readings c) p = None) as Ew.
  { destruct (walked_at (readings c) p) as [n|] eqn:E; [|done]. destruct (walked_at_some _ _ _ E) as [id Hid].
    apply (cinv_readings c I) in Hid as (_ & (b' & Hb' & Hwb) & _). cbn in Hb'. congruence. }
  split; [done|]. by rewrite lookup_abs, lookup_cabs, T, Hp; cbn [mbind option_bind]; rewrite Ew, view_quiet.
Qed.

(** What is sent, and which connections are closed, does not depend on the
    filters without one. *)
Lemma cabs_outgoing c i :
  cinv c → todo c = [] →
  ∀ write, outgoing write i <$> cabs c !! i = outgoing write i <$> abs (mgr c) !! i ∧
    ((∃ cl, cabs c !! i = Some cl ∧ lost write i cl) ↔ ∃ cl, abs (mgr c) !! i = Some cl ∧ lost write i cl).
Proof.
  intros I T write. destruct (filters (mgr c) !! i) as [p|] eqn:Hp; [|by rewrite lookup_abs, lookup_cabs, Hp].
  destruct (wf_filters (mgr c) (cinv_wf c I) i p Hp) as (b & Hb & _). destruct (ws b) as [conn|] eqn:Hw.
  - destruct (cabs_ws c i p b I T Hp Hb) as [_ ->]; [by rewrite Hw|done].
  - rewrite lookup_abs, lookup_cabs, Hp. cbn [mbind option_bind]. unfold base_of in Hb. unfold client_of, view.
    destruct (objects (mgr c) !! p) as [[base [e|q logs]]|]; [| |done]; cbn in *; injection Hb as ->; rewrite Hw;
      (split; [done|]); split; intros (cl & [= <-] & []).
Qed.

Lemma sim_flush c order write sent closed m' last :
  cinv c → xinv c → todo c = [] → visits order (mgr c) → flushLoop order write (mgr c) = (sent, closed, m') →
  let c' := with_mgr m' (with_closing (closing c ++ closed) c) in
  spec_step (sabs c last) (lFlush write sent closed) (sabs c' last) ∧ xinv c'.
Proof.
  intros I [ND X] T V E c'. pose proof (cinv_wf c I) as W.
  destruct (flushLoop_only order write _ _ _ _ W E) as (Cm & Sm & Om).
  apply flushLoop_spec in E as [_ B F _ A S C]; [|by eapply visits_NoDup|intros id Hid; by apply (visits_elem order (mgr c))|done].
  assert (∀ i, i ∉ order → filters (mgr c) !! i = None) as Hout.
  { intros i Hi. destruct (filters (mgr c) !! i) eqn:Hp; [|done]. destruct Hi. apply (visits_elem order _ i V). by eexists. }
  split; [cbn [spec_step sabs clients created latest]; split_and!|split; [done|]].
  - unfold sabs. f_equal; [|unfold news, new_view; cbn; by rewrite Sm]. apply map_eq. intros i. rewrite lookup_fmap.
    destruct (filters (mgr c) !! i) as [p|] eqn:Hp; [|by rewrite !lookup_cabs; cbn; rewrite F, Hp].
    destruct (wf_filters (mgr c) W i p Hp) as (b & Hb & _). destruct (ws b) as [conn|] eqn:Hw.
    + destruct (cabs_ws c i p b I T Hp Hb) as [Ew ->]; [by rewrite Hw|].
      assert (cabs c' !! i = abs m' !! i) as ->.
      { rewrite lookup_abs, lookup_cabs. cbn. rewrite F, Hp, T. cbn. by rewrite Ew, view_quiet. }
      rewrite A, decide_True; [done|]. apply (visits_elem order _ i V). by eexists.
    + rewrite !lookup_cabs. cbn [mgr todo readings with_mgr with_closing c']. rewrite F, Hp. cbn [mbind option_bind].
      unfold view. rewrite (Om p b), Sm by done. unfold base_of in Hb.
      destruct (objects (mgr c) !! p) as [[base [e|q logs]]|]; [| |done]; cbn in *; injection Hb as ->; unfold flushed; cbn; by rewrite Hw.
  - intros i. destruct (cabs_outgoing c i I T (write i)) as [-> _]. rewrite S. case_decide as Hi; [done|].
    by rewrite lookup_abs, Hout.
  - intros i. rewrite C. destruct (cabs_outgoing c i I T (write i)) as [_ ->]. split; [by intros [_ ?]|].
    intros (cl & Hcl & Hl). split; [|eauto]. destruct (decide (i ∈ order)) as [|Hi]; [done|]. by rewrite lookup_abs, Hout in Hcl.
  - intros r e Hr Hs. cbn. destruct (cinv_readings c I r Hr) as (_ & (b & Hb & Hw) & _). rewrite (Om _ b) by done. by apply X.
Qed.

(** The steps under the write lock. *)
Lemma sim_locked c c' :
  unlocked c → readings c' = readings c → todo c' = todo c → stream (mgr c') = stream (mgr c) → creating c' = creating c →
  cabs c = abs (mgr c) ∧ cabs c' = abs (mgr c') ∧ news c' = news c ∧ xinv c'.
Proof.
  intros [Hr Ht] Er Et Es Ec. split_and!; [by apply cabs_unlocked|apply cabs_unlocked; split; congruence| |].
  - unfold news, new_view. by rewrite Ec, Et, Es.
  - split; rewrite Er, Hr; [constructor|]. by intros r e ?%elem_of_nil.
Qed.

Lemma stream_removed id m : wf m → stream (removeFilterByID id m).2 = stream m.
Proof. intros W. destruct (removeFilterByID_spec id m W) as (_ & K & _). by rewrite (kept_stream _ _ K). Qed.

Lemma sim_remove c id m last :
  cinv c → unlocked c → m = (removeFilterByID id (mgr c)).2 →
  spec_step (sabs c last) (lRemove [id]) (sabs (with_mgr m c) last) ∧ xinv (with_mgr m c).
Proof.
  intros I U ->. pose proof (cinv_wf c I) as W. destruct (removeFilterByID_spec id (mgr c) W) as (_ & K & _).
  destruct (sim_locked c (with_mgr (removeFilterByID id (mgr c)).2 c)) as (E1 & E2 & E3 & X');
    [done|done|done|by apply stream_removed|done|].
  split; [|done]. cbn [spec_step sabs clients created latest foldl]. unfold sabs. rewrite E1, E2, E3.
  by rewrite (abs_removed id (mgr c)).
Qed.

Lemma sim_closed c last :
  cinv c → unlocked c →
  let c' := with_mgr (removeClosed (closing c) (mgr c)) (with_closing [] c) in
  spec_step (sabs c last) (lRemove (closing c)) (sabs c' last) ∧ xinv c'.
Proof.
  intros I U c'. destruct (removeClosed_spec (closing c) (mgr c) (cinv_wf c I)) as (_ & A & _).
  assert (∀ ids m, wf m → stream (removeClosed ids m) = stream m) as Hs.
  { induction ids as [|id ids IH]; intros m W; [done|]. unfold removeClosed in *. cbn [foldl]. rewrite IH.
    - by apply stream_removed.
    - by destruct (removeFilterByID_spec id m W). }
  destruct (sim_locked c c') as (E1 & E2 & E3 & X'); [done|done|done|by apply Hs, I|done|]. split; [|done].
  cbn [spec_step sabs clients created latest]. unfold sabs. rewrite E1, E2, E3. cbn [mgr with_mgr with_closing c']. by rewrite A.
Qed.

Lemma sim_refresh c ps p qs now :
  cinv c → unlocked c → refreshing c = ps ++ p :: qs →
  let c' := with_mgr (refreshFilterTimeout now p (mgr c)) (with_refreshing (ps ++ qs) c) in
  cabs c' = cabs c ∧ news c' = news c ∧ xinv c'.
Proof.
  intros I U E c'. destruct (cinv_refreshing c I p) as (b & Hb & Hw); [rewrite E, elem_of_app, elem_of_cons; auto|].
  destruct (refreshFilterTimeout_spec now p b (mgr c) (cinv_wf c I) Hb Hw) as (_ & K & _). cbv zeta in K.
  destruct (sim_locked c c') as (E1 & E2 & E3 & X'); [done|done|done|apply (kept_stream _ _ K)|done|].
  split_and!; [|done|done]. rewrite E1, E2. by apply kept_abs.
Qed.

Lemma sim_install c l1 f l2 now last :
  cinv c → unlocked c → creating c = l1 ++ (f, true) :: l2 →
  let c' := with_mgr (addFilter now f (mgr c)).2 (with_creating (l1 ++ l2) c) in
  spec_step (sabs c last) (lInstall (fid (getFilterBase f))) (sabs c' last) ∧ xinv c'.
Proof.
  intros I U E c'. destruct (cinv_creating c I (f, true)) as (uuid & conn & k & Ef & Hk & Hf); [rewrite E, elem_of_app, elem_of_cons; auto|].
  cbn in Ef. subst f. destruct (addFilter_spec now uuid conn k (mgr c) (cinv_wf c I) Hf Hk) as (_ & A & K & _). cbv zeta in *.
  set (c1 := with_mgr (addFilter now (mkFilter (newFilterBase uuid conn) k) (mgr c)).2 c).
  assert (stream (mgr c') = stream (mgr c)) as Es by apply (kept_stream _ _ K).
  destruct (sim_locked c c1) as (E1 & E2 & E3 & X'); [done|done|done|exact Es|done|]. split; [|by destruct X'; split].
  exists ((λ f, (new_id f, new_view (mgr c) (todo c) f.1)) <$> l1), (new_client k conn (mgr c)),
    ((λ f, (new_id f, new_view (mgr c) (todo c) f.1)) <$> l2). split.
  - cbn [created sabs]. unfold news. rewrite E, fmap_app, fmap_cons. do 2 f_equal. unfold new_id, new_client, new_view. cbn.
    destruct U as [_ ->]. destruct k; cbn; by rewrite ?app_nil_r.
  - unfold sabs. cbn [clients latest]. f_equal.
    + rewrite E1. exact (eq_trans E2 A).
    + unfold news. cbn [creating with_mgr with_creating c']. rewrite fmap_app. unfold new_view. fold c'. rewrite Es. done.
Qed.

Lemma step_sim c l c' last :
  cinv c → xinv c → pushes (todo c) `suffix_of` (header_block <$> last) → step c l c' → (∀ id, l ≠ lRead id false) →
  ∃ last', spec_step (sabs c last) l (sabs c' last') ∧ xinv c' ∧ pushes (todo c') `suffix_of` (header_block <$> last').
Proof.
  intros I X L Hs Hl. pose proof X as [ND XE].
  destruct Hs as [c uuid conn Hf|c uuid q conn Hf|c l1 f l2 E|c l1 f l2 now U E|c id U|c conn U|c id p q logs res m' Hk E
    |c id p b elem Hp Hb Hw Hk|c l1 id p elem l2 us n E Eu|c l1 id p n l2 E|c ps p qs now U E|c order chain l T V E|c a l T
    |c order write sent closed m' T V E|c U].
  - exists last. split_and!; [|done|done]. exists (updateBlock <$> pushes (todo c)). split_and!.
    + destruct L as [k Ek]. exists (updateBlock <$> k). rewrite <- fmap_app, <- Ek, <- list_fmap_compose. done.
    + intros [Hq|Hq]; [|done]. unfold quiet in Hq. by destruct (todo c).
    + unfold sabs, news. cbn. rewrite fmap_app. do 2 f_equal. cbn. unfold new_view. cbn. do 3 f_equal.
      destruct (wf_stream _ (cinv_wf c I)) as (bs & Hne & ->). unfold getHead. cbn [head stream_of].
      rewrite getUpdates_stream by (destruct bs; [done|cbn; lia]). cbn. by rewrite drop_ge by (destruct bs; [done|cbn; lia]).
  - exists last. split_and!; [|done|done]. exists []. split_and!; [apply suffix_nil|done|].
    unfold sabs, news. cbn. by rewrite fmap_app.
  - exists last. split_and!; [|by destruct (ws (getFilterBase f)); split|done]. cbn [spec_step]. unfold sabs, news. cbn. rewrite E, !fmap_app.
    by destruct (ws (getFilterBase f)).
  - exists last. destruct (sim_install c l1 f l2 now last I U E). done.
  - exists last. destruct (sim_remove c id _ last I U eq_refl). done.
  - exists last. destruct (sim_remove c (default [] (wsFilterID (mgr c) !! conn)) _ last I U eq_refl). done.
  - exists last. destruct (sim_log_changes c id p q logs res m' last I X Hk E). done.
  - exists last. unfold alone in Hl. destruct (bool_decide_reflect (p ∉ rdFilter <$> readings c)) as [Hal|]; [|by destruct (Hl id)].
    split_and!; [|split; cbn|done].
    + cbn [spec_step]. unfold sabs, news. f_equal. apply cabs_same; [done|]. intros i k _. cbn. rewrite walked_at_app. cbn.
      by destruct (walked_at (readings c) k).
    + rewrite fmap_app. apply NoDup_app. split; [done|]. split; [|apply NoDup_singleton]. by intros k Hin ->%list_elem_of_singleton.
    + intros r e [Hr| ->%list_elem_of_singleton]%elem_of_app; [by apply XE|]. cbn. by intros [= <-].
  - exists last. destruct (sim_walk c l1 id p elem l2 us n last I X E Eu). done.
  - exists last. destruct (sim_set c l1 id p n l2 I X E) as (E1 & E2 & X'). split_and!; [|done|done].
    cbn [spec_step]. unfold sabs. by rewrite E1, E2.
  - exists last. destruct (sim_refresh c ps p qs now I U E) as (E1 & E2 & X'). split_and!; [|done|done].
    cbn [spec_step]. unfold sabs. by rewrite E1, E2.
  - exists chain. split_and!; [by eapply sim_event|by split|]. cbn [todo with_todo]. by rewrite (pushes_event _ _ _ _ E).
  - exists last. destruct (sim_act c a l I T) as [E1 E2]. split_and!; [|by apply xinv_act|].
    + cbn [spec_step]. unfold sabs. by rewrite E1, E2.
    + cbn [todo with_mgr with_todo]. rewrite T in L. destruct a as [b|log p]; [|exact L].
      etrans; [|exact L]. by apply suffix_cons_r.
  - exists last. destruct (sim_flush c order write sent closed m' last I X T V E). done.
  - exists last. destruct (sim_closed c last I U). done.
Qed.

Lemma exec_sim c ls c' last :
  cinv c → xinv c → pushes (todo c) `suffix_of` (header_block <$> last) → exec step c ls c' → (∀ id, lRead id false ∉ ls) →
  ∃ last', exec spec_step (sabs c last) ls (sabs c' last') ∧ xinv c' ∧ pushes (todo c') `suffix_of` (header_block <$> last').
Proof.
  intros I X L E. induction E as [|c ls c' l c'' E IH Hs]; intros Hl; [exists last; split; [constructor|done]|].
  destruct IH as (last1 & E1 & X1 & L1); [done..|intros id Hin; apply (Hl id); rewrite elem_of_app; auto|].
  destruct (step_sim c' l c'' last1) as (last2 & S2 & X2 & L2); [by eapply exec_cinv|done|done|done| |].
  - intros id ->. apply (Hl id). rewrite elem_of_app, list_elem_of_singleton. auto.
  - exists last2. split; [|done]. by econstructor.
Qed.
End simulation.

(** ** The theorems *)

Section theorems.
Context `{!ethStore, Rlp, Keccak}.

Lemma reachable_cinv limit m0 ls c : NewFilterManager limit = Returns m0 → exec step (start m0) ls c → cinv c.
Proof. intros E. apply exec_cinv. by eapply start_cinv. Qed.


Lemma exec_orphan c ls c' p : cinv c → exec step c ls c' → orphan (mgr c) p → orphan (mgr c') p.
Proof.
  intros I E Hp. induction E as [|c ls c' l c'' E IH Hs]; [done|].
  destruct (step_good c' l c'') as [G _]; [by eapply exec_cinv|done|]. apply (good_orphan _ _ _ G). by apply IH.
Qed.

Lemma exec_keeps c ls c' : cinv c → exec step c ls c' → keeps (mgr c) (mgr c').
Proof.
  intros I E. induction E as [|c ls c' l c'' E IH Hs]; [by intros p b Hb; exists b|].
  destruct (step_good c' l c'') as [G _]; [by eapply exec_cinv|done|].
  eapply keeps_trans; [by apply IH|apply (good_keeps _ _ _ G)].
Qed.

Lemma new_manager limit m : NewFilterManager limit = Returns m → timeouts m = [] ∧ filters m = ∅.
Proof.
  unfold NewFilterManager. intros E. apply result_bind_returns in E as (h & _ & E). rewrite headerBlock_returns in E.
  by injection E as <-.
Qed.




(** C17. The manager does what its clients are told, in every interleaving
    of the steps in which no two calls of GetFilterChanges read one block
    filter at the same time: a new block is an update of every block filter
    installed or being created, and its logs that match are updates of every
    log filter, in the order of the chain; GetFilterChanges returns the
    updates since the last call, each once and in order, all of them when no
    event is being processed and otherwise those the event has got to, the
    rest being left for the next call; only filters without a web socket
    have them; the worker sends the updates of the others to their sockets in
    order, up to the first failed write, and removes those whose connection
    is closed; refreshing a timeout changes nothing a client sees. (Calls
    that overlap are told the same blocks, [overlapping_reads] below.) *)
Theorem filter_refinement limit m0 ls c :
  NewFilterManager limit = Returns m0 → exec step (start m0) ls c → (∀ id, lRead id false ∉ ls) →
  ∃ last, exec spec_step (mkS ∅ [] []) ls (mkS (cabs c) (news c) last) ∧ (unlocked c → cabs c = abs (mgr c)).
Proof.
  intros E0 E Hl. destruct (new_manager limit m0 E0) as [_ Ef].
  assert (sabs (start m0) [] = mkS ∅ [] []) as Es.
  { unfold sabs, news. cbn. f_equal. unfold cabs. cbn. rewrite Ef. apply omap_empty. }
  destruct (exec_sim (start m0) ls c []) as (last & Hx & _); [by eapply start_cinv| |done|done|done|].
  - split; [constructor|]. by intros r e ?%elem_of_nil.
  - exists last. split; [by rewrite Es in Hx|apply cabs_unlocked].
Qed.

(** Two calls of GetFilterChanges on one block filter that overlap are both
    told all the blocks the filter has: each reads the element the filter is
    at before the other sets it. *)
Theorem overlapping_reads c id p b elem updates newHead :
  filters (mgr c) !! id = Some p → base_of (mgr c) p = Some b → hasWSConn b = false →
  fkind <$> objects (mgr c) !! p = Some (blockFilter elem) →
  headElem_getUpdates (stream (mgr c)) elem = (updates, newHead) →
  ∃ c', exec step c [lRead id (alone p c); lRead id false; lChanges id (updateBlock <$> updates) (quiet c);
                     lChanges id (updateBlock <$> updates) (quiet c); lTau; lTau] c'.
Proof.
  intros Hp Hb Hw Hk Hu.
  set (rs := readings c). set (start := mkReading id p (reads elem)). set (done := mkReading id p (walked newHead)).
  set (c1 := with_readings (rs ++ [start]) c). set (c2 := with_readings (rs ++ [start] ++ [start]) c).
  set (c3 := with_readings (rs ++ done :: [start]) c). set (c4 := with_readings ((rs ++ [done]) ++ done :: []) c).
  set (m5 := setHeadElem newHead p (mgr c)).
  set (c5 := with_mgr m5 (with_readings (rs ++ [done]) (with_refreshing (p :: refreshing c) c))).
  eexists. eapply (exec_snoc step c [_; _; _; _; _] c5 lTau).
  2:{ apply (step_set c5 rs id p newHead []). reflexivity. }
  apply (exec_snoc step c [_; _; _; _] c4 lTau).
  2:{ assert (c5 = with_mgr (setHeadElem newHead p (mgr c4)) (with_readings (rs ++ [done]) (with_refreshing (p :: refreshing c4) c4))) as ->
        by done. apply (step_set c4 rs id p newHead [done]). cbn. by rewrite <- app_assoc. }
  apply (exec_snoc step c [_; _; _] c3).
  2:{ apply (step_walk c3 (rs ++ [done]) id p elem [] updates newHead); [|done]. cbn. by rewrite <- app_assoc. }
  apply (exec_snoc step c [_; _] c2).
  2:{ by apply (step_walk c2 rs id p elem [start] updates newHead). }
  assert (alone p c1 = false) as <-.
  { unfold alone. apply bool_decide_eq_false. intros Hn. apply Hn. cbn. rewrite fmap_app, elem_of_app. right. by left. }
  apply (exec_snoc step c [_] c1).
  2:{ assert (c2 = with_readings (readings c1 ++ [start]) c1) as -> by (unfold c2; cbn; by rewrite <- app_assoc).
      by apply (step_read c1 id p b elem). }
  apply (exec_snoc step c [] c); [constructor|]. by apply (step_read c id p b elem).
Qed.

(** A filter that is uninstalled between the two halves of
    GetFilterChanges goes back into the heap of timeouts and stays there for
    good: whatever happens later, it is in the heap, it is not installed, and
    uninstalling it, as the timer does once it has expired, fails and changes
    nothing. *)
Theorem orphan_timer limit m0 ls c ps p qs b now ls' c' :
  NewFilterManager limit = Returns m0 → exec step (start m0) ls c →
  unlocked c → refreshing c = ps ++ p :: qs → base_of (mgr c) p = Some b → filters (mgr c) !! fid b = None →
  exec step (with_mgr (refreshFilterTimeout now p (mgr c)) (with_refreshing (ps ++ qs) c)) ls' c' →
  p ∈ timeouts (mgr c') ∧ Uninstall (fid b) (mgr c') = (false, mgr c').
Proof.
  intros E0 E U Hp Hb Hf E'. pose proof (reachable_cinv limit m0 ls c E0 E) as I. pose proof (cinv_wf c I) as W.
  destruct (cinv_refreshing c I p) as (b0 & Hb0 & Hw); [rewrite Hp, elem_of_app, elem_of_cons; auto|].
  assert (b0 = b) as -> by congruence.
  destruct (refreshFilterTimeout_spec now p b (mgr c) W Hb Hw) as (W1 & K1 & T1). cbv zeta in *.
  pose proof (step_cinv _ _ _ I (step_refresh c ps p qs now U Hp)) as I1. set (c1 := with_mgr _ _) in E', I1.
  assert (orphan (mgr c1) p) as O1.
  { split; [apply T1; by left|]. unfold installed. intros [id Hid]. cbn [mgr c1 with_mgr] in Hid. rewrite (kept_filters _ _ K1) in Hid.
    destruct (wf_filters (mgr c) W id p Hid) as (b' & Hb' & Hfid & _). congruence. }
  destruct (exec_orphan c1 ls' c' p I1 E' O1) as [Hin Hno]. split; [done|].
  destruct (kept_base _ _ p b K1 Hb) as (b1 & Hb1 & Ef1 & _).
  destruct (exec_keeps c1 ls' c' I1 E' p b1 Hb1) as (b2 & Hb2 & Ef2 & _).
  pose proof (cinv_wf c' (exec_cinv c1 ls' c' I1 E')) as W2. unfold Uninstall, removeFilterByID.
  destruct (filters (mgr c') !! fid b) as [q|] eqn:Hq; [|done]. destruct Hno. exists (fid b).
  destruct (wf_filters (mgr c') W2 (fid b) q Hq) as (bq & Hbq & Hfq & _).
  by rewrite (wf_ids (mgr c') W2 p q b2 bq) by (done || congruence).
Qed.
End theorems.

(** ** Instances *)

Module FilterExample.
#[export] Existing Instances tree_fastrlp tree_rlp.

#[export] Instance const_keccak : Keccak.
Proof. refine {| keccak256 := λ _, ZeroHash |}. intros b. split; [done|]. by apply Forall_replicate. Defined.

Definition header_at (n : Z) : Header :=
  mkHeader ZeroHash ZeroHash [] ZeroHash ZeroHash ZeroHash ZeroBloom 0 n 100000 0 0 [] ZeroHash (replicate 8 0) (BytesToHash [n]).

Definition tx : Transaction :=
  mkTx 0 (Some 0) 21000 (Some ZeroAddress) (Some 0) [] None None None (BytesToHash [7]) ZeroAddress None.

(** A chain of the genesis and a block with one transaction and one log. *)
#[export] Instance one_log : ethStore := {|
  store_GetPendingTx _ := None;
  store_GetNonce _ := 0;
  store_GetAccount _ _ := Errors ErrStateNotFound;
  store_GetStorage _ _ _ := Errors ErrStateNotFound;
  store_GetForksInTime n := Chain.At Chain.AllForksEnabled n;
  store_GetCode _ _ := Errors ErrStateNotFound;
  store_Header := Some (header_at 0);
  store_GetHeaderByNumber n := Some (header_at n);
  store_GetBlockByHash h _ := if bool_decide (h = BytesToHash [1]) then Some (mkBlock (header_at 1) [tx] [] None) else None;
  store_GetBlockByNumber n _ := if n =? 1 then Some (mkBlock (header_at 1) [tx] [] None) else None;
  store_ReadTxLookup _ := None;
  store_GetReceiptsByHash h :=
    if bool_decide (h = BytesToHash [1]) then
      Some [mkReceipt ZeroHash 21000 ZeroBloom [mkLog ZeroAddress [] [5]] (Some 1) 21000 None ZeroHash]
    else None;
  store_GetAvgGasPrice := 0;
  store_ApplyTxn _ _ := Errors errStore;
|}.

Definition m0 : FilterManager :=
  mkFilterManager 0 defaultTimeout (newBlockStream (header_block (header_at 0))) [] ∅ [] ∅.

(** A log filter is created and installed, a block arrives, and the client
    asks between the push of the block and its log, and again. *)
Definition f1 : filter := mkFilter (newFilterBase [1] None) (logFilter newLogQuery []).
Definition m1 : FilterManager := (addFilter 100 f1 m0).2.
Definition the_log : rpcLog := mkRpcLog ZeroAddress [] [5] 1 (BytesToHash [7]) 0 (BytesToHash [1]) 0 false.
Definition new_block : list action := [aPush (header_block (header_at 1)); aLog the_log 0].
Definition m2 : FilterManager := act m1 (aPush (header_block (header_at 1))).
Definition m3 : FilterManager := (getFilterAndChanges [1] m2).2.
Definition m4 : FilterManager := act m3 (aLog the_log 0).
Definition m5 : FilterManager := (getFilterAndChanges [1] m4).2.
Definition installed1 : config := mkConfig m1 [] [] [] [] [].
Definition polled : config := mkConfig m5 [] [] [] [0; 0]%nat [].
Definition trace : list label :=
  [lCreate [1] (Some newLogQuery) None true; lTau; lInstall [1]; lEvent [header_at 1]; lTau;
   lChanges [1] [] false; lTau; lChanges [1] [updateLog the_log] true].

Lemma run_install : exec step (start m0) [lCreate [1] (Some newLogQuery) None true; lTau; lInstall [1]] installed1.
Proof.
  apply (exec_snoc step (start m0) [_; _] (mkConfig m0 [(f1, true)] [] [] [] [])).
  2:{ exact (step_install (mkConfig m0 [(f1, true)] [] [] [] []) [] f1 [] 100 (conj eq_refl eq_refl) eq_refl). }
  apply (exec_snoc step (start m0) [_] (mkConfig m0 [(f1, false)] [] [] [] [])).
  2:{ exact (step_announce (mkConfig m0 [(f1, false)] [] [] [] []) [] f1 [] eq_refl). }
  apply (exec_snoc step (start m0) [] (start m0)); [constructor|].
  apply (step_create_log (start m0) [1] newLogQuery None). split; [by intros p b|]. apply not_elem_of_nil.
Qed.

Lemma run_trace : exec step (start m0) trace polled.
Proof.
  apply (exec_snoc step (start m0) [_; _; _; _; _; _; _] (mkConfig m4 [] [] [] [0%nat] [])).
  2:{ apply (step_log_changes (mkConfig m4 [] [] [] [0%nat] []) [1] 0%nat newLogQuery [the_log] [updateLog the_log] m5); by vm_compute. }
  apply (exec_snoc step (start m0) [_; _; _; _; _; _] (mkConfig m3 [] [] [aLog the_log 0] [0%nat] [])).
  2:{ exact (step_act (mkConfig m3 [] [] [aLog the_log 0] [0%nat] []) (aLog the_log 0) [] eq_refl). }
  apply (exec_snoc step (start m0) [_; _; _; _; _] (mkConfig m2 [] [] [aLog the_log 0] [] [])).
  2:{ apply (step_log_changes (mkConfig m2 [] [] [aLog the_log 0] [] []) [1] 0%nat newLogQuery [] [] m3); by vm_compute. }
  apply (exec_snoc step (start m0) [_; _; _; _] (mkConfig m1 [] [] new_block [] [])).
  2:{ exact (step_act (mkConfig m1 [] [] new_block [] []) (aPush (header_block (header_at 1))) [aLog the_log 0] eq_refl). }
  apply (exec_snoc step (start m0) [_; _; _] installed1); [apply run_install|].
  apply (step_event installed1 [[1]] [header_at 1] new_block); [done|unfold visits; by vm_compute|by vm_compute].
Qed.

(** The client asks at once, and the filter is uninstalled meanwhile. *)
Definition m6 : FilterManager := (getFilterAndChanges [1] m1).2.
Definition raced : config := mkConfig (Uninstall [1] m6).2 [] [] [] [0%nat] [].
Definition race : list label :=
  [lCreate [1] (Some newLogQuery) None true; lTau; lInstall [1]; lChanges [1] [] true; lRemove [[1]]].

Lemma run_race : exec step (start m0) race raced.
Proof.
  apply (exec_snoc step (start m0) [_; _; _; _] (mkConfig m6 [] [] [] [0%nat] [])).
  2:{ by apply (step_uninstall (mkConfig m6 [] [] [] [0%nat] []) [1]). }
  apply (exec_snoc step (start m0) [_; _; _] installed1); [apply run_install|].
  apply (step_log_changes installed1 [1] 0%nat newLogQuery [] [] m6); by vm_compute.
Qed.

(** A block filter with one new block. *)
Definition f2 : filter := mkFilter (newFilterBase [2] None) (blockFilter 0).
Definition behind : config := mkConfig (act (addFilter 100 f2 m0).2 (aPush (header_block (header_at 1)))) [] [] [] [] [].
End FilterExample.
Import FilterExample.


Lemma filter_refinement_witness :
  ∃ last, exec spec_step (mkS ∅ [] []) trace (mkS (cabs polled) (news polled) last) ∧ cabs polled = abs (mgr polled).
Proof.
  destruct (filter_refinement 0 m0 trace polled) as (last & E & Ha).
  - reflexivity.
  - apply run_trace.
  - intros id. unfold trace. rewrite !not_elem_of_cons. split_and!; [discriminate..|apply not_elem_of_nil].
  - exists last. split; [exact E|]. apply Ha. by split.
Defined.

Lemma overlapping_reads_witness :
  ∃ c', let b := updateBlock (header_block (header_at 1)) in
    exec step behind [lRead [2] true; lRead [2] false; lChanges [2] [b] true; lChanges [2] [b] true; lTau; lTau] c'.
Proof.
  apply (overlapping_reads behind [2] 0%nat (mkFilterBase [2] 0 (100 + defaultTimeout) None) 0%nat [header_block (header_at 1)] 1%nat);
    by vm_compute.
Defined.

Lemma orphan_timer_witness :
  let m := refreshFilterTimeout 200 0 (mgr raced) in
  (nextTimeoutFilter m).1 = [1] ∧ 0%nat ∈ timeouts m ∧ Uninstall [1] m = (false, m).
Proof.
  split; [by vm_compute|].
  apply (orphan_timer 0 m0 race raced [] 0%nat [] (mkFilterBase [1] (-1) (100 + defaultTimeout) None) 200 []
           (with_mgr (refreshFilterTimeout 200 0 (mgr raced)) (with_refreshing [] raced))).
  - reflexivity.
  - apply run_race.
  - by split.
  - reflexivity.
  - by vm_compute.
  - by vm_compute.
  - constructor.
Defined.
