(* ===== verification/JsonRpcProps.v ===== *)
(** * Properties of the JSON-RPC requests

    Which logs a query returns and how many blocks it reads, the text forms
    read back, and the answer for the receipt of a transaction. *)

From Stdlib Require Import String.
From stdpp Require Import gmap list.
From S2P Require Import Prelude BigInt Types Runtime Rlp BlockTypes Hex Result CryptoProps JsonRpc FilterManager.
#[local] Open Scope Z_scope.

(** ** Queries *)

(** What a query asks of a log. *)
Definition wanted (q : LogQuery) (log : Log) : Prop :=
  (Addresses q = [] ∨ logAddress log ∈ Addresses q) ∧
  (∀ i sub, qTopics q !! i = Some sub → ∃ topic, Topics log !! i = Some topic ∧ (sub = [] ∨ topic ∈ sub)).

Lemma existsb_elem {A} `{EqDecision A} (f : A → bool) (P : A → Prop) (l : list A) :
  (∀ a, f a = true ↔ P a) → existsb f l = true ↔ ∃ a, a ∈ l ∧ P a.
Proof.
  intros HP. rewrite existsb_exists. split; intros (a & Ha & Hf); exists a; rewrite <- HP, ?list_elem_of_In in *; done.
Qed.

Lemma matchTopics_spec i sets topics :
  (i + length sets ≤ length topics)%nat →
  matchTopics i sets topics = true ↔
  ∀ k sub, sets !! k = Some sub → ∃ topic, topics !! (i + k)%nat = Some topic ∧ (sub = [] ∨ topic ∈ sub).
Proof.
  revert i. induction sets as [|sub sets IH]; intros i Hl; [by split|]. cbn [matchTopics length] in *.
  destruct (lookup_lt_is_Some_2 topics i) as [topic Ht]; [lia|].
  rewrite andb_true_iff, orb_true_iff, IH by lia. rewrite Nat.eqb_eq.
  rewrite (existsb_elem _ (λ a, topics !! i = Some a)) by (intros; apply bool_decide_eq_true).
  assert ((length sub = 0%nat ∨ ∃ a, a ∈ sub ∧ topics !! i = Some a) ↔ sub = [] ∨ topic ∈ sub) as ->.
  { rewrite length_zero_iff_nil, Ht. split; (intros [|Hs]; [by left|right]); [by destruct Hs as (a & ? & [= ->])|by exists topic]. }
  split.
  - intros [H0 Hs] [|k] s; cbn; [|intros Hk; rewrite <- Nat.add_succ_comm; by apply Hs].
    intros [= <-]. exists topic. by rewrite Nat.add_0_r.
  - intros Hs. split.
    + destruct (Hs 0%nat sub eq_refl) as (t & Et & Hd). rewrite Nat.add_0_r, Ht in Et. by injection Et as <-.
    + intros k s Hk. replace (S i + k)%nat with (i + S k)%nat by lia. by apply Hs.
Qed.

Lemma topics_spec q log :
  (if zlen (Topics log) <? zlen (qTopics q) then false else matchTopics 0 (qTopics q) (Topics log)) = true ↔
  ∀ i sub, qTopics q !! i = Some sub → ∃ topic, Topics log !! i = Some topic ∧ (sub = [] ∨ topic ∈ sub).
Proof.
  unfold zlen. destruct (Z.ltb_spec (Z.of_nat (length (Topics log))) (Z.of_nat (length (qTopics q)))) as [L|L].
  - split; [done|]. intros Hs. destruct (lookup_lt_is_Some_2 (qTopics q) (length (Topics log))) as [s Hk]; [lia|].
    destruct (Hs _ s Hk) as (t & Et & _). apply lookup_lt_Some in Et. lia.
  - rewrite matchTopics_spec by lia. done.
Qed.

Lemma addresses_spec q log :
  (0 <? zlen (Addresses q)) && negb (existsb (λ addr, bool_decide (addr = logAddress log)) (Addresses q)) = false ↔
  Addresses q = [] ∨ logAddress log ∈ Addresses q.
Proof.
  assert (existsb (λ addr, bool_decide (addr = logAddress log)) (Addresses q) = true ↔ logAddress log ∈ Addresses q) as Ha.
  { rewrite (existsb_elem _ (λ a, a = logAddress log)) by (intros; apply bool_decide_eq_true). naive_solver. }
  rewrite andb_false_iff, negb_false_iff, Ha, Z.ltb_ge. unfold zlen. rewrite <- length_zero_iff_nil.
  by assert (Z.of_nat (length (Addresses q)) ≤ 0 ↔ length (Addresses q) = 0%nat) as -> by lia.
Qed.

Lemma Match_spec q log : Match q log = true ↔ wanted q log.
Proof.
  unfold Match, wanted. rewrite <- addresses_spec, <- topics_spec. destruct (_ && _); [|tauto]. split; [done|by intros [? _]].
Qed.

(** ** The logs of blocks *)

Lemma elem_of_concat {A} (x : A) (ls : list (list A)) : x ∈ concat ls ↔ ∃ l, l ∈ ls ∧ x ∈ l.
Proof. rewrite list_elem_of_In, in_concat. split; intros (l & ? & ?); exists l; by rewrite !list_elem_of_In in *. Qed.

(** The logs of a receipt and of a block that match, each with its place. *)
Definition logsOf (q : LogQuery) (b : Block) (txHash : Hash) (idx : nat) (logs : list Log) : list rpcLog :=
  concat (imap (λ logIdx log, if Match q log then [queryLog b txHash idx logIdx log] else []) logs).

Definition blockLogsOf (q : LogQuery) (b : Block) (receipts : list Receipt) : list rpcLog :=
  concat (imap (λ idx r, logsOf q b (default ZeroHash (tHash <$> bTransactions b !! idx)) idx (rLogs r)) receipts).

Lemma receiptLogs_spec q b idx txn k logs :
  bTransactions b !! idx = Some txn →
  receiptLogs q b idx k logs =
  Returns (concat (imap (λ i log, if Match q log then [queryLog b (tHash txn) idx (k + i) log] else []) logs)).
Proof.
  intros Ht. revert k. induction logs as [|log logs IH]; intros k; [done|]. cbn [receiptLogs imap concat].
  rewrite Nat.add_0_r, Ht, IH.
  assert (imap (λ i log0, if Match q log0 then [queryLog b (tHash txn) idx (S k + i) log0] else []) logs =
          imap ((λ i log0, if Match q log0 then [queryLog b (tHash txn) idx (k + i) log0] else []) ∘ S) logs) as ->.
  { apply imap_ext. intros i l _. cbn. by rewrite Nat.add_succ_r. }
  by destruct (Match q log).
Qed.

Lemma receiptsLogs_spec q b idx receipts :
  (idx + length receipts ≤ length (bTransactions b))%nat →
  receiptsLogs q b idx receipts =
  Returns (concat (imap (λ i r, logsOf q b (default ZeroHash (tHash <$> bTransactions b !! (idx + i)%nat)) (idx + i) (rLogs r)) receipts)).
Proof.
  revert idx. induction receipts as [|r receipts IH]; intros idx Hl; [done|]. cbn [receiptsLogs imap concat length] in *.
  destruct (lookup_lt_is_Some_2 (bTransactions b) idx) as [txn Ht]; [lia|].
  rewrite (receiptLogs_spec q b idx txn 0) by done. cbn [mbind result_bind]. rewrite IH by lia. cbn [mbind result_bind].
  rewrite Nat.add_0_r, Ht. do 3 f_equal. apply imap_ext. intros i r' _. cbn. by rewrite Nat.add_succ_r.
Qed.

Section queries.
Context `{!ethStore}.

(** The block a number stands for has its receipts, no more of them than
    transactions. *)
Definition complete (b : Block) (receipts : list Receipt) : Prop :=
  store_GetReceiptsByHash (hHash (bHeader b)) = Some receipts ∧ (length receipts ≤ length (bTransactions b))%nat.

Lemma getLogsFromBlock_spec q b receipts :
  complete b receipts → getLogsFromBlock q b = Returns (blockLogsOf q b receipts).
Proof. intros [E L]. unfold getLogsFromBlock. rewrite E. cbn [or_error mbind result_bind]. by rewrite receiptsLogs_spec. Qed.

(** The blocks [i], [i + 1], ... of the chain with their receipts. *)
Inductive blocks_from : Z → list (Block * list Receipt) → Prop :=
  | blocks_nil i : blocks_from i []
  | blocks_cons i b receipts rest :
      store_GetBlockByNumber i true = Some b → complete b receipts → blocks_from (i + 1) rest →
      blocks_from i ((b, receipts) :: rest).

Lemma blocksLogs_spec q i bs :
  0 ≤ i → i + zlen bs < 2 ^ 64 → blocks_from i bs →
  blocksLogs q (length bs) i = Returns (concat ((λ br, blockLogsOf q br.1 br.2) <$> bs)).
Proof.
  intros Hi Hl B. induction B as [|i b receipts rest Hb [Hr Hc] B IH]; [done|]. cbn [length blocksLogs]. rewrite Hb.
  assert (zlen ((b, receipts) :: rest) = zlen rest + 1) as Ez by (unfold zlen; cbn [length]; lia).
  pose proof (Nat2Z.is_nonneg (length rest)). unfold zlen in *.
  rewrite u64_small by lia. rewrite IH by lia.
  assert ((if (length (bTransactions b) =? 0)%nat then Returns [] else getLogsFromBlock q b) =
          Returns (E := rpcError) (blockLogsOf q b receipts)) as ->; [|done].
  destruct (Nat.eqb_spec (length (bTransactions b)) 0) as [E|E]; [|by apply getLogsFromBlock_spec].
  destruct receipts; [done|cbn in *; lia].
Qed.
(** The numbers of the logs a loop returns. *)
Lemma receiptLogs_number q b idx k logs res l :
  receiptLogs q b idx k logs = Returns res → l ∈ res → lBlockNumber l = hNumber (bHeader b).
Proof.
  revert k res. induction logs as [|log logs IH]; intros k res; cbn [receiptLogs].
  - intros [= <-] ?%elem_of_nil. done.
  - intros E Hin. apply result_bind_returns in E as (found & Ef & E). apply result_bind_returns in E as (rest & Er & E).
    injection E as <-. apply elem_of_app in Hin as [Hin|Hin]; [|by eapply IH]. destruct (Match q log).
    + apply result_bind_returns in Ef as (txn & _ & Ef). injection Ef as <-. by apply list_elem_of_singleton in Hin as ->.
    + injection Ef as <-. by apply elem_of_nil in Hin.
Qed.

Lemma receiptsLogs_number q b idx receipts res l :
  receiptsLogs q b idx receipts = Returns res → l ∈ res → lBlockNumber l = hNumber (bHeader b).
Proof.
  revert idx res. induction receipts as [|r receipts IH]; intros idx res; cbn [receiptsLogs].
  - intros [= <-] ?%elem_of_nil. done.
  - intros E Hin. apply result_bind_returns in E as (found & Ef & E). apply result_bind_returns in E as (rest & Er & E).
    injection E as <-. apply elem_of_app in Hin as [Hin|Hin]; [by eapply receiptLogs_number|by eapply IH].
Qed.

Lemma blocksLogs_number q n i res l :
  (∀ i b, store_GetBlockByNumber i true = Some b → hNumber (bHeader b) = i) →
  0 ≤ i → i + Z.of_nat n ≤ 2 ^ 64 → blocksLogs q n i = Returns res → l ∈ res → i ≤ lBlockNumber l < i + Z.of_nat n.
Proof.
  intros Hnum. revert i res. induction n as [|n IH]; intros i res Hi Hn; cbn [blocksLogs].
  - intros [= <-] ?%elem_of_nil. done.
  - destruct (store_GetBlockByNumber i true) as [b|] eqn:Eb; [|by intros [= <-] ?%elem_of_nil].
    intros E Hin. apply result_bind_returns in E as (found & Ef & E). apply result_bind_returns in E as (rest & Er & E).
    injection E as <-. apply elem_of_app in Hin as [Hin|Hin].
    + apply Hnum in Eb. assert (lBlockNumber l = i) as ->; [|lia]. rewrite <- Eb.
      destruct (length (bTransactions b) =? 0)%nat; [injection Ef as <-; by apply elem_of_nil in Hin|].
      unfold getLogsFromBlock in Ef. apply result_bind_returns in Ef as (rs & _ & Ef). by eapply receiptsLogs_number.
    + destruct n as [|n]; [injection Er as <-; by apply elem_of_nil in Hin|].
      rewrite u64_small in Er by lia. apply (IH (i + 1) rest) in Hin; [lia|lia|lia|done].
Qed.

(** A log of the blocks, with its place. *)
Lemma elem_logsOf q b txHash idx logs l :
  l ∈ logsOf q b txHash idx logs ↔
  ∃ logIdx log, logs !! logIdx = Some log ∧ wanted q log ∧ l = queryLog b txHash idx logIdx log.
Proof.
  unfold logsOf. rewrite elem_of_concat. split.
  - intros (ls & (k & log & -> & Hk)%elem_of_lookup_imap_1 & Hin). exists k, log.
    destruct (Match q log) eqn:E; [|by apply elem_of_nil in Hin]. apply list_elem_of_singleton in Hin as ->.
    by apply Match_spec in E.
  - intros (k & log & Hk & E%Match_spec & ->). exists [queryLog b txHash idx k log]. split; [|by apply list_elem_of_singleton].
    apply list_elem_of_lookup. exists k. rewrite list_lookup_imap, Hk. cbn. by rewrite E.
Qed.

Lemma elem_blockLogsOf q b receipts l :
  (length receipts ≤ length (bTransactions b))%nat →
  l ∈ blockLogsOf q b receipts ↔
  ∃ idx r txn logIdx log, receipts !! idx = Some r ∧ bTransactions b !! idx = Some txn ∧ rLogs r !! logIdx = Some log ∧
    wanted q log ∧ l = queryLog b (tHash txn) idx logIdx log.
Proof.
  intros Hlen. unfold blockLogsOf. rewrite elem_of_concat. split.
  - intros (ls & (idx & r & -> & Hr)%elem_of_lookup_imap_1 & Hin). apply elem_logsOf in Hin as (k & log & Hk & Hw & ->).
    destruct (lookup_lt_is_Some_2 (bTransactions b) idx) as [txn Ht]; [apply lookup_lt_Some in Hr; lia|].
    exists idx, r, txn, k, log. by rewrite Ht.
  - intros (idx & r & txn & k & log & Hr & Ht & Hk & Hw & ->).
    exists (logsOf q b (tHash txn) idx (rLogs r)). split; [|apply elem_logsOf; by exists k, log].
    apply list_elem_of_lookup. exists idx. rewrite list_lookup_imap, Hr. cbn. by rewrite Ht.
Qed.

(** C20. eth_getLogs over a range of blocks returns the logs of the range the
    query wants, in the order of the chain and none twice: the answer is the
    concatenation of the wanted logs of the blocks, and a log is in it exactly
    when some receipt of some block of the range has it, its address is one
    the query names (or the query names none) and every topic is one of those
    given for its position. The genesis block is skipped. *)
Theorem query_logs q m from to bs :
  qBlockHash q = None →
  GetNumericBlockNumber (fromBlock q) = Returns from → GetNumericBlockNumber (toBlockNumber q) = Returns to →
  0 ≤ from ≤ to → 1 ≤ to < 2 ^ 64 - 1 →
  (blockRangeLimit m = 0 ∨ to - Z.max from 1 ≤ blockRangeLimit m) →
  blocks_from (Z.max from 1) bs → zlen bs = to + 1 - Z.max from 1 →
  let logs := concat ((λ br, blockLogsOf q br.1 br.2) <$> bs) in
  GetLogsForQuery q m = Returns logs ∧
  ∀ l, l ∈ logs ↔ ∃ b receipts idx r txn logIdx log,
    (b, receipts) ∈ bs ∧ receipts !! idx = Some r ∧ bTransactions b !! idx = Some txn ∧ rLogs r !! logIdx = Some log ∧
    wanted q log ∧ l = queryLog b (tHash txn) idx logIdx log.
Proof.
  intros Hq Hf Ht Hr Hto Hlim B Hlen logs.
  assert (∀ b receipts, (b, receipts) ∈ bs → (length receipts ≤ length (bTransactions b))%nat) as Hc.
  { clear -B. intros b receipts Hin. induction B as [|i b' rs rest Hb [_ Hc] B IH]; [by apply elem_of_nil in Hin|].
    apply elem_of_cons in Hin as [[= -> ->]|Hin]; auto. }
  split.
  - unfold GetLogsForQuery, getLogsFromBlocks. rewrite Hq, Hf, Ht. cbn [mbind result_bind].
    rewrite (proj2 (Z.ltb_ge to from)) by lia.
    assert ((if from =? 0 then 1 else from) = Z.max from 1) as -> by (destruct (Z.eqb_spec from 0); lia).
    rewrite u64_small by lia.
    assert (negb (blockRangeLimit m =? 0) && (blockRangeLimit m <? to - Z.max from 1) = false) as ->.
    { apply andb_false_iff. destruct Hlim as [->|Hlim]; [by left|right]. apply Z.ltb_ge. lia. }
    rewrite <- Hlen. unfold zlen. rewrite Nat2Z.id. apply blocksLogs_spec; [lia|lia|done].
  - intros l. unfold logs. rewrite elem_of_concat. split.
    + intros (ls & ([b receipts] & -> & Hin)%list_elem_of_fmap & Hl).
      apply elem_blockLogsOf in Hl as (idx & r & txn & k & log & ?); [|by apply (Hc b)]. by exists b, receipts, idx, r, txn, k, log.
    + intros (b & receipts & idx & r & txn & k & log & Hin & ? & ? & ? & ? & ->).
      exists (blockLogsOf q b receipts). split; [apply list_elem_of_fmap; by exists (b, receipts)|].
      apply elem_blockLogsOf; [by apply (Hc b)|]. by exists idx, r, txn, k, log.
Qed.

(** C34. The limit on the range of eth_getLogs holds at its bounds but one.
    With a limit set, every log of an answer is of one of the [limit + 1]
    blocks from the first block on; but the range that is the genesis block
    alone, which is empty once the genesis is skipped, is refused as too
    large: the length of the range wraps around to 2^64 - 1. *)
Theorem log_range_bounds m :
  0 < blockRangeLimit m < 2 ^ 64 - 1 →
  (∀ i b, store_GetBlockByNumber i true = Some b → hNumber (bHeader b) = i) →
  (∀ q from to logs l,
     qBlockHash q = None →
     GetNumericBlockNumber (fromBlock q) = Returns from → GetNumericBlockNumber (toBlockNumber q) = Returns to →
     0 ≤ from → to < 2 ^ 64 - 1 → GetLogsForQuery q m = Returns logs → l ∈ logs →
     Z.max from 1 ≤ lBlockNumber l ≤ Z.min to (Z.max from 1 + blockRangeLimit m)) ∧
  (∀ q, qBlockHash q = None → fromBlock q = EarliestBlockNumber → toBlockNumber q = EarliestBlockNumber →
     GetLogsForQuery q m = Errors ErrBlockRangeTooHigh).
Proof.
  intros Hlim Hnum. split.
  - intros q from to logs l Hq Hf Ht Hr Hto. unfold GetLogsForQuery, getLogsFromBlocks. rewrite Hq, Hf, Ht.
    cbn [mbind result_bind]. destruct (Z.ltb_spec to from) as [|Hle]; [done|].
    assert ((if from =? 0 then 1 else from) = Z.max from 1) as -> by (destruct (Z.eqb_spec from 0); lia).
    rewrite (proj2 (Z.eqb_neq (blockRangeLimit m) 0)) by lia. cbn [negb andb].
    destruct (Z.ltb_spec (blockRangeLimit m) (u64 (to - Z.max from 1))) as [|Hu]; [done|]. intros E Hin.
    apply (blocksLogs_number q _ _ logs l) in E; [|done|lia|lia|done].
    destruct (Z.le_gt_cases (Z.max from 1) to) as [L|L]; [rewrite u64_small in Hu by lia; lia|lia].
  - intros q Hq Hf Ht. unfold GetLogsForQuery, getLogsFromBlocks. rewrite Hq, Hf, Ht. cbn [GetNumericBlockNumber].
    change (GetNumericBlockNumber EarliestBlockNumber) with (Returns (E := rpcError) 0). cbn [mbind result_bind].
    change (0 <? 0) with false. cbv iota. change (if 0 =? 0 then 1 else 0) with 1.
    rewrite (proj2 (Z.eqb_neq (blockRangeLimit m) 0)) by lia.
    change (u64 (0 - 1)) with (2 ^ 64 - 1). by rewrite (proj2 (Z.ltb_lt _ _)) by lia.
Qed.
End queries.

(** ** Text forms *)

Definition nibble (c : Z) : Z := match fromHexChar c with Some d => d | None => 0 end.

(** The number a string of hex digits spells, after [acc]. *)
Definition hexfrom (acc : Z) (s : list Z) : Z := fold_left (λ a c, a * 16 + nibble c) s acc.

Definition hexchar (c : Z) : Prop := is_Some (fromHexChar c).

Lemma DecodeString_hex n s :
  length s = (2 * n)%nat → Forall hexchar s →
  ∃ b, DecodeString s = (b, true) ∧ ∀ acc, fold_left (λ a x, a * 256 + x) b acc = hexfrom acc s.
Proof.
  revert s. induction n as [|n IH]; intros s Hl Hs.
  - destruct s; [|cbn in Hl; lia]. by exists [].
  - destruct s as [|p [|q s]]; [cbn in Hl; lia..|]. apply Forall_cons in Hs as [[a Hp] Hs]. apply Forall_cons in Hs as [[b Hq] Hs].
    destruct (IH s) as (bs & E & Hv); [cbn in Hl; lia|done|]. exists (16 * a + b :: bs). cbn [DecodeString].
    rewrite Hp, Hq, E. split; [done|]. intros acc. cbn [fold_left]. rewrite Hv. unfold hexfrom. cbn [fold_left].
    f_equal. unfold nibble. rewrite Hp, Hq. lia.
Qed.

Lemma hexchar_digit n : 0 ≤ n < 16 → hexchar (hexDigit n).
Proof. intros Hn. unfold hexchar. rewrite fromHexChar_digit by done. by eexists. Qed.

Lemma digits_hexchars n x : 0 ≤ x → Forall hexchar (digits n 16 x).
Proof.
  revert x. induction n as [|n IH]; intros x Hx; [constructor|]. cbn [digits]. apply Forall_app. split.
  - destruct (x <? 16); [constructor|]. apply IH. apply Z.div_pos; lia.
  - apply Forall_singleton, hexchar_digit, Z.mod_pos_bound. lia.
Qed.

Lemma hexfrom_digits n x : 0 ≤ x < 16 ^ Z.of_nat n → hexfrom 0 (digits n 16 x) = x.
Proof.
  revert x. induction n as [|n IH]; intros x Hx; [change (16 ^ Z.of_nat 0) with 1 in Hx; cbn; lia|].
  rewrite Nat2Z.inj_succ, Z.pow_succ_r in Hx by lia. cbn [digits]. unfold hexfrom. rewrite fold_left_app. cbn [fold_left].
  assert (nibble (hexDigit (x mod 16)) = x mod 16) as ->
    by (unfold nibble; by rewrite fromHexChar_digit by (apply Z.mod_pos_bound; lia)).
  pose proof (Z.div_mod x 16 ltac:(lia)).
  assert (fold_left (λ a c, a * 16 + nibble c) (if x <? 16 then [] else digits n 16 (x / 16)) 0 = x / 16) as ->; [|lia].
  destruct (Z.ltb_spec x 16); [cbn; rewrite Z.div_small by lia; done|]. apply IH.
  split; [apply Z.div_pos; lia|apply Z.div_lt_upper_bound; lia].
Qed.

Lemma decodeToHex_prefix s :
  Forall hexchar s → ∃ b, decodeToHex (prefix0x ++ s) = (b, true) ∧ be_decode b = hexfrom 0 s.
Proof.
  intros Hs. unfold decodeToHex. rewrite TrimPrefix_app. unfold be_decode, zlen.
  destruct (Nat.Even_or_Odd (length s)) as [[k Hk]|[k Hk]].
  - assert (Z.of_nat (length s) mod 2 = 0) as ->
      by (rewrite Hk, Nat2Z.inj_mul, Z.mul_comm; apply Z.mod_mul; lia). cbn [Z.eqb negb].
    destruct (DecodeString_hex k s) as (b & Eb & Hb); [done..|]. by exists b.
  - assert (Z.of_nat (length s) mod 2 = 1) as ->.
    { rewrite Hk, Nat2Z.inj_add, Nat2Z.inj_mul, Z.mul_comm, Z.add_comm, Z.mod_add by lia. done. }
    cbn [Z.eqb negb]. destruct (DecodeString_hex (S k) (lit "0" ++ s)) as (b & Eb & Hb).
    + rewrite length_app, Hk. cbn [length lit]. change (length (lit "0")) with 1%nat. lia.
    + apply Forall_app. split; [|done]. apply Forall_singleton. by eexists.
    + exists b. split; [done|]. rewrite Hb. done.
Qed.

Lemma argBig_roundtrip b : 0 ≤ b → argBig_UnmarshalText (argBig_MarshalText b) = Some b.
Proof.
  intros Hb. unfold argBig_UnmarshalText, argBig_MarshalText, Text16. rewrite (proj2 (Z.ltb_ge b 0)) by done. cbn [app].
  rewrite Z.abs_eq by done. destruct (decodeToHex_prefix (digits (S (Z.to_nat (BitLen b))) 16 b)) as (s & -> & Es);
    [by apply digits_hexchars|]. unfold SetBytes. rewrite Es, hexfrom_digits; [done|]. split; [done|].
  pose proof (BitLen_nonneg b). rewrite Nat2Z.inj_succ, Z2Nat.id by done.
  apply Z.lt_le_trans with (2 ^ BitLen b).
  - rewrite <- (Z.abs_eq b) at 1 by done. by apply BitLen_spec.
  - apply Z.le_trans with (2 ^ Z.succ (BitLen b)); [apply Z.pow_le_mono_r; lia|apply Z.pow_le_mono_l; lia].
Qed.

Lemma argBytes_roundtrip cur b : bytes_ok b → argBytes_UnmarshalText cur (argBytes_MarshalText (Some b)) = Some b.
Proof.
  intros Hb. unfold argBytes_UnmarshalText, argBytes_MarshalText, encodeToHex, decodeToHex. cbn [default].
  assert (zlen (EncodeToString b) mod 2 = 0) as E.
  { unfold zlen. rewrite length_EncodeToString. rewrite Nat2Z.inj_mul, Z.mul_comm. apply Z.mod_mul. lia. }
  unfold id. rewrite E. cbn [Z.eqb negb]. rewrite TrimPrefix_app, E. cbn [Z.eqb negb]. by rewrite DecodeString_EncodeToString.
Qed.

Lemma TrimLeft_other c s cut : c ≠ cut → TrimLeft (c :: s) cut = c :: s.
Proof. intros Hc. cbn. by rewrite (proj2 (Z.eqb_neq c cut)). Qed.

(** A string with no quotes at its ends. *)
Lemma Trim_other c s d cut : c ≠ cut → d ≠ cut → Trim (c :: s ++ [d]) cut = c :: s ++ [d].
Proof.
  intros Hc Hd. unfold Trim. rewrite TrimLeft_other by done. rewrite app_comm_cons, reverse_snoc.
  rewrite TrimLeft_other by done. by rewrite reverse_cons, reverse_involutive.
Qed.

Lemma AppendUint_last n : 0 ≤ n → ∃ s d, AppendUint 16 n = s ++ [hexDigit d] ∧ 0 ≤ d < 16.
Proof. intros Hn. exists (if n <? 16 then [] else digits 63 16 (n / 16)), (n mod 16). split; [done|]. apply Z.mod_pos_bound. lia. Qed.

Lemma hexDigit_quote d : 0 ≤ d < 16 → hexDigit d ≠ quote.
Proof. unfold hexDigit, quote. intros. case_match; lia. Qed.

(** A block number is read as an [int64]. *)
Lemma stringToBlockNumber_Marshal n : 0 ≤ n < 2 ^ 64 → stringToBlockNumber (argUint64_MarshalText n) = Returns (i64 n).
Proof.
  intros Hn. unfold stringToBlockNumber, argUint64_MarshalText.
  assert (Trim (prefix0x ++ AppendUint 16 n) quote = prefix0x ++ AppendUint 16 n) as ->.
  { destruct (AppendUint_last n) as (s & d & -> & Hd); [lia|]. apply (Trim_other 48 (120 :: s) (hexDigit d)); [done|].
    by apply hexDigit_quote. }
  rewrite !bool_decide_false by done. cbn [orb]. fold (types_EncodeUint64 n). by rewrite ParseUint64orHex_Encode.
Qed.

(** The text forms of the RPC arguments read back: a uint64, a natural
    number of any size and a byte string are read back as they were written;
    the text of a negative number is refused. A block number, though, is read
    as an int64: from 2^63 on it wraps to a negative number, so that the last
    three read as the tags earliest, latest and pending. *)
Theorem rpc_text_roundtrip :
  (∀ n, 0 ≤ n < 2 ^ 64 →
     argUint64_UnmarshalText (argUint64_MarshalText n) = Some n ∧
     stringToBlockNumber (argUint64_MarshalText n) = Returns (if n <? 2 ^ 63 then n else n - 2 ^ 64)) ∧
  (∀ b, argBig_UnmarshalText (argBig_MarshalText b) = if b <? 0 then None else Some b) ∧
  (∀ cur b, bytes_ok b → argBytes_UnmarshalText cur (argBytes_MarshalText (Some b)) = Some b) ∧
  stringToBlockNumber (argUint64_MarshalText (2 ^ 64 - 2)) = Returns LatestBlockNumber.
Proof.
  split_and!.
  - intros n Hn. split.
    + unfold argUint64_UnmarshalText, argUint64_MarshalText. rewrite TrimPrefix_app. by rewrite ParseUint_AppendUint.
    + rewrite stringToBlockNumber_Marshal by done. f_equal. unfold i64. by rewrite Z.mod_small.
  - intros b. destruct (Z.ltb_spec b 0); [|by apply argBig_roundtrip].
    unfold argBig_UnmarshalText, argBig_MarshalText, Text16. rewrite (proj2 (Z.ltb_lt b 0)) by done.
    unfold decodeToHex. rewrite TrimPrefix_app. change (lit "-") with [45]. cbn [app].
    set (d := digits _ _ _). destruct (negb _); [by destruct d|].
    destruct d as [|c d]; [done|]. done.
  - intros. by apply argBytes_roundtrip.
  - by vm_compute.
Qed.

(** ** Decoded queries *)

Section decoded.
Context `{Keccak}.


















End decoded.

(** ** Receipts *)

(** eth_getTransactionReceipt answers with the receipt at the position
    of the transaction in its block, and with the hashes, the block and the
    position of that transaction; its logs are those of the receipt in order.
    But the index of the transaction in every log is the position of the log
    in the receipt, not of the transaction in the block. *)
Theorem receipt_answer `{!ethStore} hash r :
  GetTransactionReceipt hash = Returns (Some r) →
  ∃ blockHash b receipts indx txn raw,
    store_ReadTxLookup hash = Some blockHash ∧ store_GetBlockByHash blockHash true = Some b ∧
    store_GetReceiptsByHash blockHash = Some receipts ∧
    bTransactions b !! indx = Some txn ∧ tHash txn = hash ∧ receipts !! indx = Some raw ∧
    cTxHash r = hash ∧ cTxIndex r = Z.of_nat indx ∧ cBlockHash r = Block_Hash b ∧ cBlockNumber r = Block_Number b ∧
    rStatus raw = Some (cStatus r) ∧ cGasUsed r = rGasUsed raw ∧
    length (cLogs r) = length (rLogs raw) ∧
    ∀ k log, rLogs raw !! k = Some log →
      ∃ l, cLogs r !! k = Some l ∧ lAddress l = logAddress log ∧ lTopics l = Topics log ∧ lData l = logData log ∧
        lTxHash l = hash ∧ lLogIndex l = Z.of_nat k ∧ lTxIndex l = Z.of_nat k.
Proof.
  unfold GetTransactionReceipt.
  destruct (store_ReadTxLookup hash) as [blockHash|] eqn:E1; [|done]. cbn [mbind option_bind].
  destruct (store_GetBlockByHash blockHash true) as [b|] eqn:E2; [|done]. cbn [mbind option_bind].
  destruct (store_GetReceiptsByHash blockHash) as [receipts|] eqn:E3; [|done]. cbn [mbind option_bind].
  destruct (_ =? 0)%nat; [done|]. destruct (list_find _ (bTransactions b)) as [[indx txn]|] eqn:E4; [|done].
  apply list_find_Some in E4 as (Ht & Hh & _). intros E.
  apply result_bind_returns in E as (raw & Er & E). apply result_bind_returns in E as (status & Es & E). injection E as <-.
  destruct (receipts !! indx) as [raw'|] eqn:Hr; [|done]. injection Er as ->.
  destruct (rStatus raw) as [status'|] eqn:Hs; [|done]. injection Es as ->.
  exists blockHash, b, receipts, indx, txn, raw. cbn. split_and!; try done; [apply length_imap|].
  intros k log Hk. exists (receiptLog b txn k log). rewrite list_lookup_imap, Hk. done.
Qed.

(** ** Instances *)

Module RpcExample.
Definition header_no (n : Z) : Header :=
  mkHeader ZeroHash ZeroHash [] ZeroHash ZeroHash ZeroHash ZeroBloom 0 n 100000 0 0 [] ZeroHash (replicate 8 0) (BytesToHash [n]).

Definition tx_of (n : Z) : Transaction :=
  mkTx 0 (Some 0) 21000 (Some ZeroAddress) (Some 0) [] None None None (BytesToHash [100 + n]) ZeroAddress None.

Definition receipt_of (n : Z) : Receipt :=
  mkReceipt ZeroHash 21000 ZeroBloom [mkLog ZeroAddress [] [n]] (Some 1) 21000 None ZeroHash.

(** Blocks 1 to 3 have two transactions each; a log per transaction. *)
Definition block_no (n : Z) : Block := mkBlock (header_no n) [tx_of (2 * n); tx_of (2 * n + 1)] [] None.
Definition receipts_no (n : Z) : list Receipt := [receipt_of (2 * n); receipt_of (2 * n + 1)].

#[export] Instance three_blocks : ethStore := {|
  store_GetPendingTx _ := None;
  store_GetNonce _ := 0;
  store_GetAccount _ _ := Errors ErrStateNotFound;
  store_GetStorage _ _ _ := Errors ErrStateNotFound;
  store_GetForksInTime n := Chain.At Chain.AllForksEnabled n;
  store_GetCode _ _ := Errors ErrStateNotFound;
  store_Header := Some (header_no 3);
  store_GetHeaderByNumber n := Some (header_no n);
  store_GetBlockByHash h _ := Some (block_no (be_decode h));
  store_GetBlockByNumber n _ := if (1 <=? n) && (n <=? 3) then Some (block_no n) else None;
  store_ReadTxLookup h := Some (BytesToHash [(be_decode h - 100) / 2]);
  store_GetReceiptsByHash h := Some (receipts_no (be_decode h));
  store_GetAvgGasPrice := 0;
  store_ApplyTxn _ _ := Errors errStore;
|}.

(** All logs of the chain. *)
Definition all_logs : LogQuery := mkLogQuery None EarliestBlockNumber LatestBlockNumber [] [].
Definition chain_blocks : list (Block * list Receipt) := (λ n, (block_no n, receipts_no n)) <$> [1; 2; 3].
Definition limited (n : Z) : FilterManager := mkFilterManager n defaultTimeout (mkBlockStream [] 0) [] ∅ [] ∅.

Lemma chain_from_1 : blocks_from 1 chain_blocks.
Proof. repeat (constructor; [reflexivity|by split; [vm_compute; reflexivity|cbn; lia]|]). constructor. Qed.

Lemma block_numbers i b : store_GetBlockByNumber i true = Some b → hNumber (bHeader b) = i.
Proof. cbn. destruct (_ && _); [|done]. by intros [= <-]. Qed.
End RpcExample.
Import RpcExample.

Lemma query_logs_witness :
  ∃ logs, GetLogsForQuery all_logs (limited 100) = Returns logs ∧ length logs = 6%nat.
Proof.
  eexists. split; [|shelve].
  apply (query_logs all_logs (limited 100) 0 3 chain_blocks).
  - reflexivity.
  - reflexivity.
  - reflexivity.
  - lia.
  - lia.
  - right. cbn. lia.
  - apply chain_from_1.
  - reflexivity.
  Unshelve. vm_compute. reflexivity.
Defined.

Lemma log_range_bounds_witness :
  GetLogsForQuery (mkLogQuery None EarliestBlockNumber EarliestBlockNumber [] []) (limited 100) = Errors ErrBlockRangeTooHigh.
Proof. apply (log_range_bounds (limited 100)); [cbn; lia|apply block_numbers|reflexivity|reflexivity|reflexivity]. Defined.

(** A request, the query it describes, and a request with a short address. *)
#[local] Existing Instance zero_keccak.


(** The receipt of the second transaction of block 1. *)
Lemma receipt_answer_witness :
  ∃ r, GetTransactionReceipt (BytesToHash [103]) = Returns (Some r) ∧ cTxIndex r = 1 ∧
    (∃ (indx : nat) txn raw, bTransactions (block_no 1) !! indx = Some txn ∧ receipts_no 1 !! indx = Some raw ∧
       length (cLogs r) = length (rLogs raw)).
Proof.
  assert (∃ r, GetTransactionReceipt (BytesToHash [103]) = Returns (Some r)) as [r E] by (eexists; vm_compute; reflexivity).
  exists r. split; [done|]. split; [vm_compute in E; by injection E as <-|].
  destruct (receipt_answer (BytesToHash [103]) r E) as (bh & b & rs & indx & txn & raw & H1 & H2 & H3 & H4 & _ & H5 & _ & _ & _ & _ & _ & _ & H6 & _).
  exists indx, txn, raw. vm_compute in H1. injection H1 as <-. vm_compute in H2, H3. injection H2 as <-. injection H3 as <-.
  vm_compute. done.
Defined.
