(* ===== verification/RpcServer.v ===== *)
(** * Dispatching requests (jsonrpc/dispatcher.go, errors.go, codec.go,
      jsonrpc.go, txpool_endpoint.go, debug_endpoint.go)

    A request names a service and a function; the dispatcher looks them up,
    decodes the parameters and calls the function. Requests come alone, in
    batches, or over a web socket, where filters can be subscribed to.

    JSON is decoded outside of the model: the body of a request is a [body],
    the parameters are decoded by the function's entry of the service map
    (the source uses reflection there), and a response is a value. *)

From Stdlib Require Import String.
From stdpp Require Import gmap list.
From S2P Require Import Prelude BigInt Types Runtime Rlp BlockTypes Hex Result JsonRpc FilterManager.
#[local] Open Scope Z_scope.

(** ** errors.go *)

Inductive Error :=
  | invalidParamsError (err : list Z)
  | internalError (err : list Z)
  | invalidRequestError (err : list Z)
  | subscriptionNotFoundError (method : list Z)
  | methodNotFoundError (method : list Z).

Definition ErrorCode (e : Error) : Z :=
  match e with
  | internalError _ => -32603
  | invalidParamsError _ => -32602
  | invalidRequestError _ => -32600
  | subscriptionNotFoundError _ | methodNotFoundError _ => -32601
  end.

(** ** codec.go *)

(** The id of a request: a string, a number with or without a fraction, null,
    or anything else. *)
Inductive requestID := idString (s : list Z) | idNumber (n : Z) | idFraction | idNull | idOther.

(** [reqParams] is the array of parameters, [None] where they are no array. *)
Record Request := mkRequest {
  reqID : requestID;
  Method : list Z;
  reqParams : option (list any);
}.

Inductive Response :=
  | SuccessResponse (id : requestID) (res : list Z)
  | ErrorResponse (id : requestID) (code : Z) (err : Error).

Definition responseID (r : Response) : requestID :=
  match r with SuccessResponse id _ | ErrorResponse id _ _ => id end.

Definition NewRPCResponse (id : requestID) (r : result Error (list Z)) : option Response :=
  match r with
  | Returns reply => Some (SuccessResponse id reply)
  | Errors err => Some (ErrorResponse id (ErrorCode err) err)
  | Panics => None
  end.

(** ** dispatcher.go *)

(** What a function returns: nil, a value with its JSON text, or a value
    that cannot be marshalled. *)
Inductive output := outNil | outJSON (data : list Z) | outUnmarshallable.

(** [decode] unmarshals the parameters into the types of the function. *)
Record funcData := mkFuncData {
  inNum : Z;
  decode : option (list any) → option (list any);
  call : list any → result rpcError output;
}.

Definition numParams (f : funcData) : Z := inNum f - 1.

Definition serviceMap : Type := gmap (list Z) (gmap (list Z) funcData).

(** [strings.SplitN(s, "_", 2)]: the parts around the first underscore. *)
Fixpoint SplitFirst (sep : Z) (s : list Z) : option (list Z * list Z) :=
  match s with
  | [] => None
  | c :: s => if c =? sep then Some ([], s) else '(a, b) ← SplitFirst sep s; Some (c :: a, b)
  end.

Definition underscore : Z := 95.

Definition getFnHandler (services : serviceMap) (req : Request) : result Error funcData :=
  or_error (methodNotFoundError (Method req))
    ('(serviceName, funcName) ← SplitFirst underscore (Method req);
     service ← services !! serviceName;
     service !! funcName).

(** The text of an error is not modelled. *)
Definition handleReq (services : serviceMap) (req : Request) : result Error (list Z) :=
  fd ← getFnHandler services req;
  inputs ← (if 0 <? numParams fd then or_error (invalidParamsError (lit "Invalid Params")) (decode fd (reqParams req))
            else Returns []);
  match call fd inputs with
  | Panics => Panics
  | Errors _ => Errors (invalidRequestError [])
  | Returns outNil => Returns []
  | Returns (outJSON data) => Returns data
  | Returns outUnmarshallable => Errors (internalError (lit "Internal error"))
  end.

(** The body of a request: empty, an object, or something else; [None] where
    it cannot be unmarshalled. *)
Inductive body := bodyEmpty | bodyObject (r : option Request) | bodyOther (rs : option (list Request)).

Definition invalidJSON : Error := invalidRequestError (lit "Invalid json request").
Definition badRequest (id : requestID) (e : Error) : Response := ErrorResponse id (ErrorCode e) e.

Fixpoint handleAll (services : serviceMap) (requests : list Request) : option (list Response) :=
  match requests with
  | [] => Some []
  | req :: requests =>
      response ← NewRPCResponse (reqID req) (handleReq services req);
      responses ← handleAll services requests;
      Some (response :: responses)
  end.

(** One response, or those of a batch; [None] is a panic. *)
Definition Handle (services : serviceMap) (jsonRPCBatchLengthLimit : Z) (reqBody : body) : option (Response + list Response) :=
  match reqBody with
  | bodyEmpty | bodyObject None | bodyOther None => Some (inl (badRequest idNull invalidJSON))
  | bodyObject (Some req) =>
      if bool_decide (Method req = []) then Some (inl (badRequest (reqID req) invalidJSON))
      else response ← NewRPCResponse (reqID req) (handleReq services req); Some (inl response)
  | bodyOther (Some requests) =>
      if negb (jsonRPCBatchLengthLimit =? 0) && (i64 jsonRPCBatchLengthLimit <? zlen requests) then
        Some (inl (badRequest idNull (invalidRequestError (lit "Batch request length too long"))))
      else responses ← handleAll services requests; Some (inr responses)
  end.

(** *** Web sockets *)

(** The [id] of a response must be a string, a whole number or null. *)
Definition formatFilterResponse (id : requestID) (resp : list Z) : result Error (requestID * list Z) :=
  match id with
  | idString _ | idNumber _ | idNull => Returns (id, resp)
  | idFraction | idOther => Errors invalidJSON
  end.

Section ws.
Context `{!ethStore, Rlp, Keccak}.
(** [json.Marshal] of a decoded value and [json.Unmarshal] into the object
    of a query. *)
Context (asLogQuery : any → option logQueryObj).

Definition decodeLogQueryFromInterface (i : any) : result rpcError LogQuery :=
  obj ← or_error errText (asLogQuery i); LogQuery_UnmarshalJSON newLogQuery obj.

Definition handleSubscribe (uuid : list Z) (now : Z) (req : Request) (conn : nat) (m : FilterManager) :
    result Error (list Z * FilterManager) :=
  params ← or_error invalidJSON (reqParams req);
  match params with
  | [] => Errors (invalidParamsError (lit "Invalid params"))
  | first :: _ =>
      match first with
      | anyString subscribeMethod =>
          if bool_decide (subscribeMethod = lit "newHeads") then Returns (NewBlockFilter uuid now (Some conn) m)
          else if bool_decide (subscribeMethod = lit "logs") then
            query ← or_panic (params !! 1%nat);
            match decodeLogQueryFromInterface query with
            | Returns logQuery => Returns (NewLogFilter uuid now logQuery (Some conn) m)
            | Errors _ => Errors (internalError [])
            | Panics => Panics
            end
          else Errors (subscriptionNotFoundError subscribeMethod)
      | _ => Errors (subscriptionNotFoundError [])
      end
  end.

Definition handleUnsubscribe (req : Request) (m : FilterManager) : result Error (bool * FilterManager) :=
  params ← or_error invalidJSON (reqParams req);
  match params with
  | [anyString filterID] => Returns (Uninstall filterID m)
  | [_] => Errors (subscriptionNotFoundError [])
  | _ => Errors (invalidParamsError (lit "Invalid params"))
  end.

(** The answer of [HandleWs]: a formatted filter response, a response, or a
    plain error. *)
Inductive wsAnswer := wsFilter (id : requestID) (res : list Z) | wsResponse (r : Response) | wsError (e : Error).

Definition wsFormat (id : requestID) (res : list Z) : wsAnswer :=
  match formatFilterResponse id res with
  | Returns (id, res) => wsFilter id res
  | Errors e => wsResponse (badRequest id e)
  | Panics => wsError invalidJSON
  end.

(** The filter is installed before the id of the request is looked at. *)
Definition HandleWs (services : serviceMap) (uuid : list Z) (now : Z) (reqBody : option Request) (conn : nat)
    (m : FilterManager) : option (wsAnswer * FilterManager) :=
  match reqBody with
  | None => Some (wsResponse (badRequest idNull invalidJSON), m)
  | Some req =>
      if bool_decide (Method req = lit "eth_subscribe") then
        match handleSubscribe uuid now req conn m with
        | Returns (filterID, m) => Some (wsFormat (reqID req) filterID, m)
        | Errors e => Some (wsResponse (badRequest (reqID req) e), m)
        | Panics => None
        end
      else if bool_decide (Method req = lit "eth_unsubscribe") then
        match handleUnsubscribe req m with
        | Returns (ok, m) => Some (wsFormat (reqID req) (if ok then lit "true" else lit "false"), m)
        | Errors e => Some (wsError e, m)
        | Panics => None
        end
      else
        match handleReq services req with
        | Returns resp => Some (wsResponse (SuccessResponse (reqID req) resp), m)
        | Errors e => Some (wsError e, m)
        | Panics => None
        end
  end.
End ws.

(** ** jsonrpc.go: the header of the CORS middleware *)

Fixpoint allowedOrigin (allowed : list (list Z)) (origin : list Z) : option (list Z) :=
  match allowed with
  | [] => None
  | a :: allowed =>
      if bool_decide (a = lit "*") then Some (lit "*")
      else if bool_decide (a = origin) then Some origin
      else allowedOrigin allowed origin
  end.

(** ** txpool_endpoint.go *)

Record txpoolTransaction := mkTxpoolTransaction {
  pNonce : Z;
  pGasPrice : Z;
  pGas : Z;
  pTo : option Address;
  pValue : Z;
  pInput : list Z;
  pHash : Hash;
  pFrom : Address;
  pBlockHash : Hash;
}.

Definition toTxPoolTransaction (t : Transaction) : result rpcError txpoolTransaction :=
  gasPrice ← or_panic (tGasPrice t);
  value ← or_panic (tValue t);
  Returns (mkTxpoolTransaction (tNonce t) gasPrice (tGas t) (tTo t) value (tInput t) (tHash t) (tFrom t) ZeroHash).

(** The transactions of one account, by nonce. *)
Fixpoint contentOf (txs : list Transaction) (acc : gmap Z txpoolTransaction) : result rpcError (gmap Z txpoolTransaction) :=
  match txs with
  | [] => Returns acc
  | tx :: txs => rpcTx ← toTxPoolTransaction tx; contentOf txs (<[tNonce tx := rpcTx]> acc)
  end.

Fixpoint contentAll (accounts : list (Address * list Transaction)) :
    result rpcError (gmap Address (gmap Z txpoolTransaction)) :=
  match accounts with
  | [] => Returns ∅
  | (addr, txs) :: accounts =>
      content ← contentOf txs ∅;
      rest ← contentAll accounts;
      Returns (<[addr := content]> rest)
  end.

Record ContentResponse := mkContentResponse {
  ctPending : gmap Address (gmap Z txpoolTransaction);
  ctQueued : gmap Address (gmap Z txpoolTransaction);
}.

Definition TxPool_Content (pendingTxs queuedTxs : gmap Address (list Transaction)) : result rpcError ContentResponse :=
  pending ← contentAll (map_to_list pendingTxs);
  queued ← contentAll (map_to_list queuedTxs);
  Returns (mkContentResponse pending queued).

Definition countTxs (txs : gmap Address (list Transaction)) : Z :=
  foldr (λ (e : Address * list Transaction) n, zlen e.2 + n) 0 (map_to_list txs).

(** The numbers of transactions, as [uint64]s of the [int] sums. *)
Definition TxPool_Status (pendingTxs queuedTxs : gmap Address (list Transaction)) : Z * Z :=
  (u64 (countTxs pendingTxs), u64 (countTxs queuedTxs)).

(** ** debug_endpoint.go

    The tracer and the methods of the store that run it are parameters. *)

Record TraceConfig := mkTraceConfig {
  EnableMemory : bool;
  DisableStack : bool;
  DisableStorage : bool;
  EnableReturnData : bool;
  tcTimeout : option (list Z);
}.

Inductive debugError := ErrTraceGenesisBlock | errTraceNotFound | errTraceDuration | errTraceRpc (e : rpcError) | errTrace.

Section debug.
Context `{!ethStore, Rlp, Keccak}.
Context {Tracer Trace : Type}.
(** [structtracer.NewStructTracer] with its four flags and the timeout, and
    [time.ParseDuration]. *)
Context (NewStructTracer : bool → bool → bool → bool → Z → Tracer) (ParseDuration : list Z → option Z).
Context (store_TraceBlock : Block → Tracer → result debugError Trace)
  (store_TraceTxn : Block → Hash → Tracer → result debugError Trace)
  (store_TraceCall : Transaction → option Header → Tracer → result debugError Trace).

(** Five seconds. *)
Definition defaultTraceTimeout : Z := 5 * 10 ^ 9.

(** The configuration is a pointer. *)
Definition newTracer (config : option TraceConfig) : result debugError Tracer :=
  config ← or_panic config;
  timeout ← match tcTimeout config with
            | None => Returns defaultTraceTimeout
            | Some text => or_error errTraceDuration (ParseDuration text)
            end;
  Returns (NewStructTracer (EnableMemory config) (negb (DisableStack config)) (negb (DisableStorage config))
             (EnableReturnData config) timeout).

(** [tracer, cancel, err := newTracer(config); defer cancel()]: on an error
    [cancel] is nil, and the deferred call of it panics. *)
Definition withTracer (config : option TraceConfig) (run : Tracer → result debugError Trace) : result debugError Trace :=
  match newTracer config with
  | Returns tracer => run tracer
  | Errors _ | Panics => Panics
  end.

Definition traceBlock (b : Block) (config : option TraceConfig) : result debugError Trace :=
  if Block_Number b =? 0 then Errors ErrTraceGenesisBlock else withTracer config (store_TraceBlock b).

Definition rpc_error {A} (r : result rpcError A) : result debugError A :=
  match r with Returns a => Returns a | Errors e => Errors (errTraceRpc e) | Panics => Panics end.

Definition TraceBlockByNumber (blockNumber : Z) (config : option TraceConfig) : result debugError Trace :=
  num ← rpc_error (GetNumericBlockNumber blockNumber);
  b ← or_error errTraceNotFound (store_GetBlockByNumber num true);
  traceBlock b config.

Definition TraceBlockByHash (blockHash : Hash) (config : option TraceConfig) : result debugError Trace :=
  b ← or_error errTraceNotFound (store_GetBlockByHash blockHash true);
  traceBlock b config.

(** [HeaderHash] is the hash the consensus engine installs. *)
Definition TraceBlock (HeaderHash : Header → Hash) (input : list Z) (config : option TraceConfig) : result debugError Trace :=
  let '(blockByte, ok) := DecodeHex input in
  if negb ok then Errors errTrace else
  b ← or_error errTrace (UnmarshalRlp (Block_UnmarshalRLPFrom HeaderHash (mkBlock newHeader [] [] None)) blockByte);
  traceBlock b config.

Definition TraceTransaction (txHash : Hash) (config : option TraceConfig) : result debugError Trace :=
  '(tx, b) ← or_error errTraceNotFound (GetTxAndBlockByTxHash txHash);
  if Block_Number b =? 0 then Errors ErrTraceGenesisBlock
  else withTracer config (store_TraceTxn b (tHash tx)).

Definition Debug_TraceCall (arg : option txnArgs) (filter : BlockNumberOrHash) (config : option TraceConfig) :
    result debugError Trace :=
  header ← match GetHeaderFromBlockNumberOrHash filter with
           | Returns h => Returns h | Errors _ => Errors (errTraceRpc ErrHeaderNotFound) | Panics => Panics
           end;
  tx ← rpc_error (DecodeTxn arg);
  tx ← (if tGas tx =? 0 then h ← or_panic header; Returns (set_tGas (hGasLimit h) tx) else Returns tx);
  withTracer config (store_TraceCall tx header).
End debug.

(** ** Properties *)

(** A batch is answered in order, one response per request, with its id. *)
Lemma handleAll_spec services requests responses :
  handleAll services requests = Some responses →
  Forall2 (λ req response, responseID response = reqID req ∧
    NewRPCResponse (reqID req) (handleReq services req) = Some response) requests responses.
Proof.
  revert responses. induction requests as [|req requests IH]; intros responses; cbn [handleAll].
  - intros [= <-]. constructor.
  - destruct (NewRPCResponse _ _) as [r|] eqn:Er; [|done]. cbn [mbind option_bind].
    destruct (handleAll services requests) as [rs|]; [|done]. cbn [mbind option_bind]. intros [= <-].
    constructor; [|by apply IH]. split; [|done]. unfold NewRPCResponse in Er. destruct (handleReq services req); by simplify_eq.
Qed.

(** A batch of requests within the limit is answered by one response per
    request, in their order and with their ids, each the response the request
    would get alone; a longer one is refused as a whole. A limit of 2^63 or
    more, though, is negative as an int and refuses every batch, the empty
    one included. *)
Theorem batch_answers services limit requests :
  0 ≤ limit < 2 ^ 64 → zlen requests < 2 ^ 63 →
  (∀ req, req ∈ requests → handleReq services req ≠ Panics) →
  match Handle services limit (bodyOther (Some requests)) with
  | Some (inr responses) =>
      (limit = 0 ∨ zlen requests ≤ limit < 2 ^ 63) ∧
      Forall2 (λ req response, responseID response = reqID req ∧
        NewRPCResponse (reqID req) (handleReq services req) = Some response) requests responses
  | Some (inl (ErrorResponse id code _)) =>
      id = idNull ∧ code = -32600 ∧ limit ≠ 0 ∧ (limit < zlen requests ∨ 2 ^ 63 ≤ limit)
  | _ => False
  end.
Proof.
  intros Hlim Hlen Hp. unfold Handle. pose proof (Nat2Z.is_nonneg (length requests)) as Hpos. fold (zlen requests) in Hpos.
  assert (∃ responses, handleAll services requests = Some responses) as [responses Hall].
  { clear -Hp. induction requests as [|req requests IH]; [by eexists|]. cbn [handleAll].
    destruct IH as [rs ->]; [intros r Hr; apply Hp; by apply list_elem_of_further|].
    specialize (Hp req (list_elem_of_here _ _)). unfold NewRPCResponse. destruct (handleReq services req); [by eexists..|done]. }
  assert (i64 limit = if limit <? 2 ^ 63 then limit else limit - 2 ^ 64) as Ei by (unfold i64; by rewrite Z.mod_small).
  destruct (Z.eqb_spec limit 0) as [E|E]; cbn [negb andb].
  - rewrite Hall. cbn [mbind option_bind]. split; [by left|]. by apply handleAll_spec.
  - destruct (Z.ltb_spec (i64 limit) (zlen requests)) as [L|L].
    + split_and!; [done..|]. destruct (Z.ltb_spec limit (2 ^ 63)); lia.
    + rewrite Hall. cbn [mbind option_bind]. split; [|by apply handleAll_spec]. destruct (Z.ltb_spec limit (2 ^ 63)); lia.
Qed.

(** Requests that panic: a subscription to logs without the object of
    the query, whose second parameter is read without a check; a trace of any
    block but the genesis whose configuration is null; and one whose timeout
    is no duration, which calls a nil function in place of reporting the
    error. *)
Theorem request_panics `{!ethStore, Rlp, Keccak} :
  (∀ asLogQuery services uuid now id conn m,
     HandleWs asLogQuery services uuid now (Some (mkRequest id (lit "eth_subscribe") (Some [anyString (lit "logs")]))) conn m
     = None) ∧
  (∀ Tracer Trace (new : bool → bool → bool → bool → Z → Tracer) ParseDuration
     (run : Block → Tracer → result debugError Trace) b config,
     Block_Number b ≠ 0 →
     match config with None => True | Some c => ∃ text, tcTimeout c = Some text ∧ ParseDuration text = None end →
     traceBlock new ParseDuration run b config = Panics).
Proof.
  split; [done|]. intros Tracer Trace new ParseDuration run b config Hb Hc. unfold traceBlock.
  rewrite (proj2 (Z.eqb_neq _ _)) by done. unfold withTracer, newTracer. destruct config as [c|]; [|done].
  destruct Hc as (text & Et & E). cbn [or_panic mbind result_bind]. by rewrite Et, E.
Qed.

(** ** Instances *)

Module ServerExample.
Definition version : funcData := mkFuncData 1 (λ _, Some []) (λ _, Returns (outJSON (lit "1"))).
Definition services : serviceMap := {[ lit "net" := {[ lit "version" := version ]} ]}.
Definition ask (n : Z) (method : list Z) : Request := mkRequest (idNumber n) method None.
End ServerExample.
Import ServerExample.

Lemma batch_answers_witness :
  match Handle services 2 (bodyOther (Some [ask 1 (lit "net_version"); ask 2 (lit "eth_nothing")])) with
  | Some (inr responses) =>
      (2 = 0 ∨ 2 ≤ 2 < 2 ^ 63) ∧
      Forall2 (λ req response, responseID response = reqID req ∧
        NewRPCResponse (reqID req) (handleReq services req) = Some response)
        [ask 1 (lit "net_version"); ask 2 (lit "eth_nothing")] responses
  | Some (inl (ErrorResponse id code _)) => id = idNull ∧ code = -32600 ∧ 2 ≠ 0 ∧ (2 < 2 ∨ 2 ^ 63 ≤ 2)
  | _ => False
  end.
Proof.
  apply (batch_answers services 2 [ask 1 (lit "net_version"); ask 2 (lit "eth_nothing")]).
  - lia.
  - vm_compute. reflexivity.
  - intros req. rewrite !elem_of_cons. intros [->|[->|[]%elem_of_nil]]; discriminate.
Defined.
