(* ===== verification/RpcState.v ===== *)
(** * Reading the state over JSON-RPC (server/server.go)

    [jsonRPCHub] is the store of the endpoints: it embeds the blockchain, the
    pool, the executor and the consensus, and reads accounts, storage and code
    from the state database itself. The hub here implements the state part of
    [ethStore] on the state of TrieStore.v and takes the rest from the stores
    it embeds. [rpc_reads_state] puts endpoint, hub and database together. *)

From Stdlib Require Import String.
From stdpp Require Import gmap.
From S2P Require Import Prelude BigInt Types Runtime Rlp BlockTypes Hex Result Radix Txn Trie Hasher KeyValue KeyValueProps TrieStore TrieStoreRep TrieStoreProps StateCommit JsonRpc.
#[local] Open Scope Z_scope.
#[local] Opaque trie_of puts_of root_of.

Section hub.
Context `{Keccak, RlpValues, Storage, !Lru Hash trie}.

(** A read refreshes the cache of tries; the state is returned. *)
Definition getAccountImpl (s : State) (root : Hash) (addr : Address) : result rpcError (Txn.Account * State) :=
  match TrieStore.NewSnapshotAt s root with
  | Errors _ => Errors (errWrap errStore)
  | Panics => Panics
  | Returns (snap, s) =>
      match Snapshot_GetAccount s snap addr with
      | Errors _ => Errors errStore
      | Panics => Panics
      | Returns None => Errors ErrStateNotFound
      | Returns (Some account) => Returns (account, s)
      end
  end.

Definition hub_GetAccount (s : State) (root : Hash) (addr : Address) : result rpcError JsonRpc.Account :=
  '(acct, _) ← getAccountImpl s root addr;
  Returns (JsonRpc.mkAccount (Balance acct) (Nonce acct)).

Definition hub_GetStorage (s : State) (stateRoot : Hash) (addr : Address) (slot : Hash) : result rpcError (list Z) :=
  '(account, s) ← getAccountImpl s stateRoot addr;
  match TrieStore.NewSnapshotAt s stateRoot with
  | Errors _ => Errors errStore
  | Panics => Panics
  | Returns (snap, s) =>
      match Snapshot_GetStorage s addr (Root account) slot with
      | Returns (res, _) => Returns res
      | Errors _ => Errors errStore
      | Panics => Panics
      end
  end.

Definition hub_GetCode (s : State) (root : Hash) (addr : Address) : result rpcError (list Z) :=
  '(account, s) ← getAccountImpl s root addr;
  match Snapshot_GetCode s (BytesToHash (CodeHash account)) with
  | Returns (Some code) => Returns code
  | Returns None => Errors errText
  | Errors _ => Errors errText
  | Panics => Panics
  end.

(** [txpoolHub] *)
Definition txpoolHub_GetNonce (s : State) (root : Hash) (addr : Address) : result rpcError Z :=
  match getAccountImpl s root addr with
  | Returns (account, _) => Returns (Nonce account)
  | Errors _ => Returns 0
  | Panics => Panics
  end.

Definition txpoolHub_GetBalance (s : State) (root : Hash) (addr : Address) : result rpcError Z :=
  match getAccountImpl s root addr with
  | Returns (account, _) => Returns (Balance account)
  | Errors e => if Is e ErrStateNotFound then Returns 0 else Errors e
  | Panics => Panics
  end.

(** The hub on top of the stores it embeds. *)
Definition jsonRPCHub (s : State) (embedded : ethStore) : ethStore := {|
  store_GetPendingTx := @store_GetPendingTx embedded;
  store_GetNonce := @store_GetNonce embedded;
  store_GetAccount := hub_GetAccount s;
  store_GetStorage := hub_GetStorage s;
  store_GetForksInTime := @store_GetForksInTime embedded;
  store_GetCode := hub_GetCode s;
  store_Header := @store_Header embedded;
  store_GetHeaderByNumber := @store_GetHeaderByNumber embedded;
  store_GetBlockByHash := @store_GetBlockByHash embedded;
  store_GetBlockByNumber := @store_GetBlockByNumber embedded;
  store_ReadTxLookup := @store_ReadTxLookup embedded;
  store_GetReceiptsByHash := @store_GetReceiptsByHash embedded;
  store_GetAvgGasPrice := @store_GetAvgGasPrice embedded;
  store_ApplyTxn := @store_ApplyTxn embedded;
|}.
End hub.

(** ** Reading a committed world *)

Section reads.
Context `{Keccak, RlpValues, !RlpLaws, !RlpNodes, Storage, !StorageLaws, !Lru Hash trie, !LruLaws Hash trie}.
Context (D : list Z → Prop) (Hcf : collision_free D).

(** A saved world is opened; the state stays good. *)
Lemma opens s W : state_ok D s → saved D (sStorage s) W →
  ∃ t s', TrieStore.NewSnapshotAt s (state_root W) = Returns (t, s') ∧ sStorage s' = sStorage s ∧ state_ok D s' ∧ shows D s' t W.
Proof.
  intros Hi (HW & Hp & Hs). unfold state_ok in *.
  destruct (newTrieAt_spec D Hcf s _ (account_map W) Hi (keys_world D Hcf W HW) Hp) as (t & s' & E & Ht & Es & Hi').
  exists t, s'. split_and!; [done|done|by rewrite Es|]. eapply represents_shows; [done|by rewrite Es|]. rewrite Es. by split.
Qed.

Lemma getAccountImpl_spec s W addr : state_ok D s → saved D (sStorage s) W → D addr →
  match W !! addr with
  | None => getAccountImpl s (state_root W) addr = Errors ErrStateNotFound
  | Some acc => ∃ s', getAccountImpl s (state_root W) addr = Returns (to_account acc, s') ∧
      sStorage s' = sStorage s ∧ state_ok D s'
  end.
Proof.
  intros Hi Hs Ha. destruct (opens s W Hi Hs) as (t & s' & E & Es & Hi' & Hsh). unfold getAccountImpl. rewrite E.
  destruct (Hsh addr Ha) as [Eacc _]. rewrite Eacc. destruct (W !! addr) as [acc|]; [|done]. by exists s'.
Qed.

Lemma hub_GetAccount_spec s W addr : state_ok D s → saved D (sStorage s) W → D addr →
  hub_GetAccount s (state_root W) addr =
  match W !! addr with
  | None => Errors ErrStateNotFound
  | Some acc => Returns (JsonRpc.mkAccount (waBalance acc) (waNonce acc))
  end.
Proof.
  intros Hi Hs Ha. pose proof (getAccountImpl_spec s W addr Hi Hs Ha) as E. unfold hub_GetAccount.
  destruct (W !! addr) as [acc|]; [destruct E as (s' & E & _)|]; by rewrite E.
Qed.

Lemma hub_GetStorage_spec s W addr slot : state_ok D s → saved D (sStorage s) W → D addr → D slot →
  hub_GetStorage s (state_root W) addr slot =
  match W !! addr with None => Errors ErrStateNotFound | Some acc => Returns (default ZeroHash (waStorage acc !! slot)) end.
Proof.
  intros Hi Hs Ha Hk. pose proof (getAccountImpl_spec s W addr Hi Hs Ha) as E. unfold hub_GetStorage.
  destruct (W !! addr) as [acc|] eqn:EW; [|by rewrite E]. destruct E as (s' & E & Es & Hi'). rewrite E. cbn [mbind result_bind].
  destruct (opens s' W Hi') as (t & s'' & E' & _ & _ & Hsh); [by rewrite Es|]. rewrite E'.
  destruct (Hsh addr Ha) as [_ Hst]. destruct (Hst acc slot EW Hk) as (s3 & Est). by rewrite Est.
Qed.

Lemma hub_GetCode_spec s W addr : state_ok D s → saved D (sStorage s) W → D addr →
  hub_GetCode s (state_root W) addr =
  match W !! addr with
  | None => Errors ErrStateNotFound
  | Some acc =>
      match st_GetCode (sStorage s) (waCodeHash acc) with
      | Returns (Some code) => Returns code | Panics => Panics | _ => Errors errText
      end
  end.
Proof.
  intros Hi Hs Ha. pose proof (getAccountImpl_spec s W addr Hi Hs Ha) as E. unfold hub_GetCode.
  destruct (W !! addr) as [acc|] eqn:EW; [|by rewrite E]. destruct E as (s' & E & Es & _). rewrite E. cbn [mbind result_bind].
  unfold Snapshot_GetCode. rewrite Es. cbn [to_account CodeHash]. destruct Hs as (HW & _). destruct (HW addr acc EW) as [_ (_ & _ & Hh & _)].
  assert (BytesToHash (waCodeHash acc) = waCodeHash acc) as -> by (apply right_align_full, Hh).
  destruct (st_GetCode _ _) as [[c|]|u|]; done.
Qed.
End reads.

(** The value of a slot, parsed once more. *)
Definition reparsed `{Rlp} (v : Hash) : Hash :=
  match rlp_parse v ≫= rlp_getbytes with Some data => BytesToHash data | None => ZeroHash end.

(** C15. The state methods of the eth endpoint, through the hub and the state
    database, answer for a world that was committed and the block whose
    header names its root: eth_getBalance the balance of the account and
    eth_getTransactionCount its nonce, 0 where there is none;
    eth_getCode the code stored under the hash of the account, so that an
    account whose code was never stored, as one without code, is an error;
    eth_getStorageAt the value of the slot parsed as RLP a second time, though
    the database returns the value itself. *)
Theorem rpc_reads_state `{Keccak, RlpValues, !RlpLaws, !RlpNodes, Storage, !StorageLaws, !Lru Hash trie, !LruLaws Hash trie}
    (D : list Z → Prop) (s : State) (embedded : ethStore) (W : world) (header : Header) (filter : BlockNumberOrHash)
    (n : Z) (addr : Address) (slot : Hash) :
  collision_free D → state_ok D s → saved D (sStorage s) W → D addr → D slot →
  hStateRoot header = state_root W →
  GetHeaderFromBlockNumberOrHash filter = Returns (Some header) →
  bnhBlockNumber filter = Some n → n ≠ PendingBlockNumber →
  let rpc := jsonRPCHub s embedded in
  Eth_GetBalance (H := rpc) addr filter = Returns (default 0 (waBalance <$> W !! addr)) ∧
  GetTransactionCount (H := rpc) addr filter = Returns (default 0 (waNonce <$> W !! addr)) ∧
  Eth_GetCode (H := rpc) addr filter =
    match W !! addr with
    | None => Returns []
    | Some acc =>
        match st_GetCode (sStorage s) (waCodeHash acc) with
        | Returns (Some code) => Returns code | Panics => Panics | _ => Errors errText
        end
    end ∧
  GetStorageAt (H := rpc) addr slot filter =
    Returns (match W !! addr with
             | None => ZeroHash
             | Some acc => reparsed (default ZeroHash (waStorage acc !! slot))
             end).
Proof.
  intros Hcf Hi Hs Ha Hk Hroot Hhead Hn Hne rpc.
  assert (GetHeaderFromBlockNumberOrHash (H := rpc) filter = Returns (Some header)) as Hh by exact Hhead.
  assert (GetBlockHeader (H := rpc) n = Returns (Some header)) as Hb.
  { revert Hh. unfold GetHeaderFromBlockNumberOrHash. rewrite Hn. destruct (bnhBlockHash filter); cbn [default];
      unfold id; destruct (GetBlockHeader n); congruence. }
  split_and!.
  - unfold Eth_GetBalance. rewrite Hh. cbn [mbind result_bind or_panic store_GetAccount rpc jsonRPCHub].
    rewrite Hroot, (hub_GetAccount_spec D Hcf) by done. by destruct (W !! addr).
  - unfold GetTransactionCount. rewrite Hn.
    assert (GetNextNonce (H := rpc) addr n = Returns (default 0 (waNonce <$> W !! addr))) as E.
    { unfold GetNextNonce. rewrite (proj2 (Z.eqb_neq _ _)) by done. rewrite Hb.
      cbn [mbind result_bind or_panic store_GetAccount rpc jsonRPCHub]. rewrite Hroot, (hub_GetAccount_spec D Hcf) by done.
      by destruct (W !! addr). }
    destruct (bnhBlockHash filter); cbn [mbind result_bind]; by rewrite E.
  - unfold Eth_GetCode. rewrite Hh. cbn [mbind result_bind or_panic store_GetCode rpc jsonRPCHub].
    rewrite Hroot, (hub_GetCode_spec D Hcf) by done. destruct (W !! addr) as [acc|]; [|done].
    by destruct (st_GetCode _ _) as [[c|]|u|].
  - unfold GetStorageAt. rewrite Hh. cbn [mbind result_bind or_panic store_GetStorage rpc jsonRPCHub].
    rewrite Hroot, (hub_GetStorage_spec D Hcf) by done. destruct (W !! addr) as [acc|]; [|done].
    unfold reparsed. by destruct (rlp_parse _ ≫= _).
Qed.

(** ** The account committed in StateCommit.v, read back *)

Module RpcStateExample.
Import CommitExample.
#[export] Existing Instances tree_fastrlp tree_rlp tree_rlp_laws memoryStorage.

Definition tip : Header :=
  mkHeader ZeroHash ZeroHash [] (state_root after) ZeroHash ZeroHash ZeroBloom 0 1 100000 0 0 [] ZeroHash (replicate 8 0) ZeroHash.

Definition one_header : ethStore := {|
  store_GetPendingTx _ := None;
  store_GetNonce _ := 0;
  store_GetAccount _ _ := Errors ErrStateNotFound;
  store_GetStorage _ _ _ := Errors ErrStateNotFound;
  store_GetForksInTime n := Chain.At Chain.AllForksEnabled n;
  store_GetCode _ _ := Errors ErrStateNotFound;
  store_Header := Some tip;
  store_GetHeaderByNumber n := if n =? 1 then Some tip else None;
  store_GetBlockByHash _ _ := None;
  store_GetBlockByNumber _ _ := None;
  store_ReadTxLookup _ := None;
  store_GetReceiptsByHash _ := None;
  store_GetAvgGasPrice := 0;
  store_ApplyTxn _ _ := Errors errStore;
|}.

Definition latest : BlockNumberOrHash := mkBlockNumberOrHash (Some LatestBlockNumber) None.
End RpcStateExample.
Import CommitExample RpcStateExample.

Lemma rpc_reads_state_witness :
  ∃ (t : trie) (root : list Z) (s : @State memoryStorage list_lru),
    Snapshot_Commit start None [object] = Some (t, root, s) ∧
    Eth_GetBalance (H := jsonRPCHub s one_header) addr latest = Returns 100 ∧
    GetTransactionCount (H := jsonRPCHub s one_header) addr latest = Returns 1.
Proof.
  destruct (Snapshot_Commit_spec hashed_strings strings_free start None ∅ [object])
    as (t & s & E & Hi & _ & Hs & _).
  - exact start_ok.
  - exact start_shows.
  - constructor; [exact object_fits|constructor].
  - apply covered_strings. vm_compute. reflexivity.
  - exists t. eexists. exists s. split; [exact E|].
    destruct (rpc_reads_state hashed_strings s one_header after tip latest LatestBlockNumber addr slot) as (B & C & _).
    + exact strings_free.
    + exact Hi.
    + exact Hs.
    + by left.
    + by right; left.
    + reflexivity.
    + reflexivity.
    + reflexivity.
    + discriminate.
    + split; [rewrite B|rewrite C]; vm_compute; reflexivity.
Defined.
