(* ===== verification/ContractStore.v ===== *)
(** * The contract validator store (validators/store/contract, contracts/staking/query.go)

    Under proof of stake the validators are those the staking contract
    answers with. The store runs a view call on the state after a block,
    decodes the answer and keeps the sets of the last blocks it was asked for
    in an LRU cache. The transition that runs the call and the ABI package
    that decodes the answer are parameters: the sources contain neither. *)

From Stdlib Require Import String.
From S2P Require Import Prelude BigInt Types Runtime Rlp BlockTypes Hex Result Radix Validators Crypto Signer Snapshot.
#[local] Open Scope Z_scope.

Inductive cerror :=
  | ErrMethodNotFoundInABI | ErrFailedTypeAssertion
  | errFormat                       (** [errors.New], [fmt.Errorf] *)
  | errDecode                       (** an error of package abi *)
  | errApply                        (** an error of the transition *)
  | errExecution (e : error)        (** an error of the virtual machine *)
  | errSet (e : verror).

(** ** query.go *)

(** A value decoded from the answer of a contract, and the values in it. *)
Inductive web3Value := web3Addresses (l : list Address) | web3Bytes (l : list (list Z)) | web3Other.
Inductive decoded := decodedMap (m : list Z → option web3Value) | decodedOther.

(** Package abi with the ABI of the staking contract. *)
Class StakingABI := {
  abi_method : Type;
  abi_Methods : list Z → option abi_method;
  abi_ID : abi_method → list Z;
  abi_Decode : abi_method → list Z → option decoded;
}.

(** [TxQueryHandler]; a call may change the transition. *)
Class TxQueryHandler := {
  transition : Type;
  Apply : transition → Transaction → result cerror ExecutionResult * transition;
  GetNonce : transition → Address → Z;
}.

Definition methodValidators : list Z := lit "validators".
Definition methodValidatorBLSPublicKeys : list Z := lit "validatorBLSPublicKeys".
Definition AddrStakingContract : Address := StringToAddress (lit "1001").
Definition queryGasLimit : Z := 1000000.

Definition createCallViewTx (from contractAddress : Address) (methodID : list Z) (nonce : Z) : Transaction :=
  mkTx nonce (Some 0) queryGasLimit (Some contractAddress) (Some 0) methodID None None None ZeroHash from None.

Section query.
Context `{StakingABI, TxQueryHandler}.

Definition decodeWeb3ArrayOfBytes (result_ : decoded) : result cerror (list (list Z)) :=
  match result_ with
  | decodedMap mapResult =>
      match mapResult (lit "0") with Some (web3Bytes bytesArray) => Returns bytesArray | _ => Errors ErrFailedTypeAssertion end
  | decodedOther => Errors ErrFailedTypeAssertion
  end.

Definition DecodeValidators (method : abi_method) (returnValue : list Z) : result cerror (list Address) :=
  decodedResults ← or_error errDecode (abi_Decode method returnValue);
  match decodedResults with
  | decodedMap results =>
      match results (lit "0") with Some (web3Addresses addresses) => Returns addresses | _ => Errors errFormat end
  | decodedOther => Errors errFormat
  end.

Definition decodeBLSPublicKeys (method : abi_method) (returnValue : list Z) : result cerror (list (list Z)) :=
  decodedResults ← or_error errDecode (abi_Decode method returnValue);
  decodeWeb3ArrayOfBytes decodedResults.

(** The answer of a view method, decoded by [decode]. *)
Definition queryMethod {A} (name : list Z) (decode : abi_method → list Z → result cerror A) (t : transition) (from : Address) :
    result cerror A * transition :=
  match abi_Methods name with
  | None => (Errors ErrMethodNotFoundInABI, t)
  | Some method =>
      let '(r, t) := Apply t (createCallViewTx from AddrStakingContract (abi_ID method) (GetNonce t from)) in
      (res ← r; match Err res with Some e => Errors (errExecution e) | None => decode method (ReturnValue res) end, t)
  end.

Definition QueryValidators (t : transition) (from : Address) : result cerror (list Address) * transition :=
  queryMethod methodValidators DecodeValidators t from.

Definition QueryBLSPublicKeys (t : transition) (from : Address) : result cerror (list (list Z)) * transition :=
  queryMethod methodValidatorBLSPublicKeys decodeBLSPublicKeys t from.

(** ** fetcher.go *)

Context `{Bls}.

Definition of_set {A} (r : result verror A) : result cerror A :=
  match r with Returns a => Returns a | Errors e => Errors (errSet e) | Panics => Panics end.

Fixpoint addECDSA (set : VSet) (valAddrs : list Address) : result cerror VSet :=
  match valAddrs with
  | [] => Returns set
  | addr :: valAddrs => set ← of_set (Add set (ECDSAValidator addr)); addECDSA set valAddrs
  end.

Definition FetchECDSAValidators (t : transition) (from : Address) : result cerror VSet :=
  valAddrs ← (QueryValidators t from).1;
  addECDSA (NewECDSAValidatorSet []) valAddrs.

(** The loop from index [idx] on; a missing key is an index out of range. *)
Fixpoint addBLS (set : VSet) (blsPublicKeys : list (list Z)) (idx : nat) (valAddrs : list Address) : result cerror VSet :=
  match valAddrs with
  | [] => Returns set
  | addr :: valAddrs =>
      key ← or_panic (blsPublicKeys !! idx);
      match blsUnmarshalPublic key with
      | None => addBLS set blsPublicKeys (S idx) valAddrs
      | Some _ => set ← of_set (Add set (BLSValidator addr key)); addBLS set blsPublicKeys (S idx) valAddrs
      end
  end.

Definition FetchBLSValidators (t : transition) (from : Address) : result cerror VSet :=
  let '(r, t) := QueryValidators t from in
  valAddrs ← r;
  blsPublicKeys ← (QueryBLSPublicKeys t from).1;
  addBLS (NewBLSValidatorSet []) blsPublicKeys 0 valAddrs.

Definition FetchValidators (validatorType : ValidatorType) (t : transition) (from : Address) : result cerror VSet :=
  if bool_decide (validatorType = ECDSAValidatorType) then FetchECDSAValidators t from else
  if bool_decide (validatorType = BLSValidatorType) then FetchBLSValidators t from else Errors errFormat.

(** ** contract.go *)

Definition DefaultValidatorSetCacheSize : Z := 3.

Context `{!Lru Z VSet}.

(** The fields of the store that never change are arguments: the chain, as it
    is at the time of a call, and [executor.BeginTxn]. *)
Context (BeginTxn : Hash → Header → Address → result cerror transition).

Record ContractValidatorStore := mkContractStore {
  validatorSetCache : option (cache Z VSet);   (** [None] is nil *)
}.

Definition NewContractValidatorStore (validatorSetCacheSize : Z) : ContractValidatorStore :=
  mkContractStore (if 0 <? validatorSetCacheSize then Some lru_new else None).

(** Reading a nil cache panics; every cached value is a set of validators. *)
Definition loadCachedValidatorSet (height : Z) (s : ContractValidatorStore) :
    result cerror (option VSet * ContractValidatorStore) :=
  c ← or_panic (validatorSetCache s);
  let '(cached, c) := lru_get c height in
  Returns (cached, mkContractStore (Some c)).

Definition saveToValidatorSetCache (height : Z) (validators : VSet) (s : ContractValidatorStore) : ContractValidatorStore :=
  match validatorSetCache s with
  | None => s
  | Some c => mkContractStore (Some (lru_add c height validators))
  end.

Definition getTransitionForQuery (blockchain : HeaderGetter) (height : Z) : result cerror transition :=
  header ← or_error errFormat (hgGetHeaderByNumber blockchain height);
  BeginTxn (hStateRoot header) header ZeroAddress.

(** The validators the contract gives at a height. *)
Definition fetchAt (blockchain : HeaderGetter) (validatorType : ValidatorType) (height : Z) : result cerror VSet :=
  t ← getTransitionForQuery blockchain height;
  FetchValidators validatorType t ZeroAddress.

Definition contract_GetValidatorsByHeight (blockchain : HeaderGetter) (validatorType : ValidatorType) (height : Z)
    (s : ContractValidatorStore) : result cerror VSet * ContractValidatorStore :=
  match loadCachedValidatorSet height s with
  | Returns (Some cachedValidators, s) => (Returns cachedValidators, s)
  | Returns (None, s) =>
      match fetchAt blockchain validatorType height with
      | Returns fetchedValidators => (Returns fetchedValidators, saveToValidatorSetCache height fetchedValidators s)
      | r => (r, s)
      end
  | Errors e => (Errors e, s)
  | Panics => (Panics, s)
  end.

End query.
