(* ===== verification/IbftFork.v ===== *)
(** * Forks of the consensus (consensus/ibft/fork, consensus/ibft/hook)

    The genesis file lists the phases of the consensus, each with its source
    of validators: votes in headers (proof of authority) or the staking
    contract (proof of stake). [ForkManager] finds for a height the phase, the
    signer, the validators and the hooks that the node runs on its blocks.

    A hook is a closure over the validator store of the manager, so it is a
    computation that changes the manager; it reads the chain as it is when it
    runs. [FM] is the type of such computations. The maps of the manager are
    finite maps; the order in which Go visits them is an argument. The files
    of the snapshot store, the secrets and encoding/json are parameters, as
    are the members of the transition, which the sources lack. *)

From Stdlib Require Import String.
From stdpp Require Import gmap.
From S2P Require Import Prelude BigInt Types Runtime Rlp BlockTypes Hex Result Radix Validators Crypto Signer Snapshot Staking ContractStore.
#[local] Open Scope Z_scope.

(** ** type.go *)

Definition IBFTType : Type := list Z.
Definition PoA : IBFTType := lit "PoA".
Definition PoS : IBFTType := lit "PoS".

Definition SourceType : Type := list Z.
Definition SnapshotSource : SourceType := lit "Snapshot".
Definition ContractSource : SourceType := lit "Contract".

(** The lookup in a map; the zero value is the empty string. *)
Definition ibftTypesToSourceType (t : IBFTType) : SourceType :=
  if bool_decide (t = PoA) then SnapshotSource else if bool_decide (t = PoS) then ContractSource else [].

Inductive ferror :=
  | ErrUndefinedIBFTConfig | ErrForkNotFound | ErrValidatorStoreNotFound | ErrKeyManagerNotFound
  | ErrTxInLastEpochOfBlock
  | errInvalidIBFTType | errUnsupportedValidatorType
  | errJSON | errHex | errSecrets | errFile | errTransition
  | errValidatorType (e : verror)
  | errSnapshotStore (e : serror)
  | errContractStore (e : cerror).

Definition ParseIBFTType (ibftType : list Z) : result ferror IBFTType :=
  if bool_decide (ibftType = PoA) then Returns PoA else
  if bool_decide (ibftType = PoS) then Returns PoS else Errors errInvalidIBFTType.

(** ** fork.go *)

Record IBFTFork := mkFork {
  fType : IBFTType;
  fValidatorType : ValidatorType;
  fDeployment : option Z;
  fFrom : Z;
  fTo : option Z;
  fValidators : option VSet;
  fMaxValidatorCount : option Z;
  fMinValidatorCount : option Z;
}.

(** The object a fork is unmarshalled from. *)
Record rawFork (J : Type) := mkRawFork {
  rType : IBFTType;
  rValidatorType : option ValidatorType;
  rDeployment : option Z;
  rFrom : Z;
  rTo : option Z;
  rValidators : option J;
  rMaxValidatorCount : option Z;
  rMinValidatorCount : option Z;
}.
Arguments rType {J}. Arguments rValidatorType {J}. Arguments rDeployment {J}. Arguments rFrom {J}.
Arguments rTo {J}. Arguments rValidators {J}. Arguments rMaxValidatorCount {J}. Arguments rMinValidatorCount {J}.

(** A value of the configuration; the elements of a list are decoded one by
    one, [None] is an element that is not a fork. *)
Inductive configValue (J : Type) :=
  | configString (s : list Z)
  | configList (l : list (option (rawFork J)))
  | configOther.
Arguments configString {J}. Arguments configList {J}. Arguments configOther {J}.

Section config.
(** [json.Unmarshal] of a JSON value into a set of validators; [None] is an error. *)
Context {J : Type} (unmarshalSet : J → VSet → option VSet).

Definition IBFTFork_UnmarshalJSON (raw : rawFork J) : result ferror IBFTFork :=
  let validatorType := default ECDSAValidatorType (rValidatorType raw) in
  let f := mkFork (rType raw) validatorType (rDeployment raw) (rFrom raw) (rTo raw) in
  match rValidators raw with
  | None => Returns (f None (rMaxValidatorCount raw) (rMinValidatorCount raw))
  | Some j =>
      empty ← or_error errJSON (NewValidatorSetFromType validatorType);
      set ← or_error errJSON (unmarshalSet j empty);
      Returns (f (Some set) (rMaxValidatorCount raw) (rMinValidatorCount raw))
  end.

Fixpoint unmarshalForks (l : list (option (rawFork J))) : result ferror (list IBFTFork) :=
  match l with
  | [] => Returns []
  | raw :: l =>
      raw ← or_error errJSON raw;
      fork ← IBFTFork_UnmarshalJSON raw;
      forks ← unmarshalForks l;
      Returns (fork :: forks)
  end.

Definition KeyType : list Z := lit "type".
Definition KeyTypes : list Z := lit "types".
Definition KeyValidatorType : list Z := lit "validator_type".

Definition GetIBFTForks (ibftConfig : gmap (list Z) (configValue J)) : result ferror (list IBFTFork) :=
  match ibftConfig !! KeyType with
  | Some (configString originalType) =>
      typ ← ParseIBFTType originalType;
      validatorType ← match ibftConfig !! KeyValidatorType with
        | Some (configString rawValType) =>
            match ParseValidatorType rawValType with
            | Returns t => Returns t | Errors e => Errors (errValidatorType e) | Panics => Panics
            end
        | _ => Returns ECDSAValidatorType
        end;
      Returns [mkFork typ validatorType None 0 None None None None]
  | _ =>
      match ibftConfig !! KeyTypes with
      | Some (configList types) => unmarshalForks types
      | _ => Errors ErrUndefinedIBFTConfig
      end
  end.

End config.

Definition covers (fork : IBFTFork) (height : Z) : bool :=
  (fFrom fork <=? height) && match fTo fork with None => true | Some to => height <=? to end.

(** The loop runs from the last fork to the first. *)
Fixpoint getFork (fs : list IBFTFork) (height : Z) : option IBFTFork :=
  match fs with
  | [] => None
  | fork :: fs =>
      match getFork fs height with
      | Some f => Some f
      | None => if covers fork height then Some fork else None
      end
  end.

Definition filterByType (fs : list IBFTFork) (ibftType : IBFTType) : list IBFTFork :=
  filter (λ fork, fType fork = ibftType) fs.

(** ** storewrapper.go *)

(** [None] is a division by zero. *)
Definition calculateContractStoreFetchingHeight (height epochSize forkFrom : Z) : option Z :=
  if epochSize =? 0 then None else
  let beginningEpoch := height / epochSize * epochSize in
  let fetchingHeight := if 0 <? beginningEpoch then beginningEpoch - 1 else 0 in
  Some (if forkFrom <=? fetchingHeight then fetchingHeight else if 0 <? forkFrom then forkFrom - 1 else forkFrom).

(** ** hookregister.go: which forks have hooks *)

Record PoAHookRegister := mkPoARegister {
  poaForks : list IBFTFork;
  updateValidatorsForks : gmap Z IBFTFork;
}.

Definition NewPoAHookRegisterer (forks : list IBFTFork) : PoAHookRegister :=
  let poaForks := filterByType forks PoA in
  mkPoARegister poaForks
    (foldl (λ m fork, if bool_decide (is_Some (fValidators fork)) then <[fFrom fork := fork]> m else m) ∅ poaForks).

Record PoSHookRegister := mkPoSRegister {
  posForks : list IBFTFork;
  posEpochSize : Z;
  deployContractForks : gmap Z IBFTFork;
}.

Definition NewPoSHookRegister (forks : list IBFTFork) (epochSize : Z) : PoSHookRegister :=
  let posForks := filterByType forks PoS in
  mkPoSRegister posForks epochSize
    (foldl (λ m fork, match fDeployment fork with Some n => <[n := fork]> m | None => m end) ∅ posForks).

Inductive HooksRegister := registerPoA (r : PoAHookRegister) | registerPoS (r : PoSHookRegister).

(** ** manager.go *)

(** The members of [state.Transition] the deployment hook uses. *)
Class StakingTransition := {
  stx : Type;
  stx_AccountExists : stx → Address → bool;
  stx_SetCodeDirectly : stx → Address → list Z → result ferror stx;
  stx_SetAccountDirectly : stx → Address → GenesisAccount → result ferror stx;
}.

Section manager.
Context `{Keccak, Rlp, Secp256k1, Bls, SortSnaps, StakingABI, TxQueryHandler, !Lru Z VSet, StakingTransition}.
(** [executor.BeginTxn]; the keys of the secrets manager; the files of the
    snapshot store; the code of the staking contract in hexadecimal. *)
Context (BeginTxn : Hash → Header → Address → result cerror transition).
Context (secretKey : option privkey) (secretBLSKey : option bls_secret).
Context (metadataFile : result ferror (option Z)) (snapshotsFile : result ferror (list Snapshot)).
Context (StakingSCBytecode : list Z).

Inductive ValidatorStore :=
  | SnapshotValidatorStoreWrapper (s : SnapshotValidatorStore)
  | ContractValidatorStoreWrapper (s : ContractValidatorStore).

Record ForkManager := mkForkManager {
  fmForks : list IBFTFork;
  fmEpochSize : Z;
  keyManagers : gmap ValidatorType KeyManager;
  validatorStores : gmap SourceType (option ValidatorStore);   (** [None] is nil *)
  hooksRegisters : gmap IBFTType HooksRegister;
}.

Definition set_keyManagers (k : gmap ValidatorType KeyManager) (m : ForkManager) : ForkManager :=
  mkForkManager (fmForks m) (fmEpochSize m) k (validatorStores m) (hooksRegisters m).
Definition set_validatorStores (v : gmap SourceType (option ValidatorStore)) (m : ForkManager) : ForkManager :=
  mkForkManager (fmForks m) (fmEpochSize m) (keyManagers m) v (hooksRegisters m).
Definition set_hooksRegisters (h : gmap IBFTType HooksRegister) (m : ForkManager) : ForkManager :=
  mkForkManager (fmForks m) (fmEpochSize m) (keyManagers m) (validatorStores m) h.

(** *** Signers *)

Definition NewKeyManagerFromType (validatorType : ValidatorType) : result ferror KeyManager :=
  if bool_decide (validatorType = ECDSAValidatorType) then
    key ← or_error errSecrets secretKey; Returns (NewECDSAKeyManagerFromKey key)
  else if bool_decide (validatorType = BLSValidatorType) then
    key ← or_error errSecrets secretKey; blsKey ← or_error errSecrets secretBLSKey;
    Returns (NewBLSKeyManagerFromKeys key blsKey)
  else Errors errUnsupportedValidatorType.

Definition initializeKeyManager (valType : ValidatorType) (m : ForkManager) : result ferror ForkManager :=
  match keyManagers m !! valType with
  | Some _ => Returns m
  | None => keyManager ← NewKeyManagerFromType valType; Returns (set_keyManagers (<[valType := keyManager]> (keyManagers m)) m)
  end.

Fixpoint initializeKeyManagers (forks : list IBFTFork) (m : ForkManager) : result ferror ForkManager :=
  match forks with
  | [] => Returns m
  | fork :: forks => m ← initializeKeyManager (fValidatorType fork) m; initializeKeyManagers forks m
  end.

Definition NewForkManager (forks : result ferror (list IBFTFork)) (epochSize : Z) : result ferror ForkManager :=
  forks ← forks;
  initializeKeyManagers forks (mkForkManager forks epochSize ∅ ∅ ∅).

Definition getKeyManager (m : ForkManager) (height : Z) : result ferror KeyManager :=
  fork ← or_error ErrForkNotFound (getFork (fmForks m) height);
  or_error ErrKeyManagerNotFound (keyManagers m !! fValidatorType fork).

Definition GetSigner (m : ForkManager) (height : Z) : result ferror SignerImpl :=
  keyManager ← getKeyManager m height;
  parentKeyManager ← (if 1 <? height then k ← getKeyManager m (height - 1); Returns (Some k) else Returns None);
  Returns (NewSignerImpl keyManager parentKeyManager).

(** The signer as the snapshot store sees it. The signer of a height above 1
    has a parent key manager, so reading the header of its height does not
    panic. *)
Definition signerInterface (s : SignerImpl) : SignerInterface := {|
  sgType := kmType (keyManager s);
  sgEcrecoverFromHeader h := match EcrecoverFromHeader s h with Returns a => Some a | _ => None end;
  sgGetValidators h := match Signer.GetValidators s h with Returns v => Some v | _ => None end;
|}.

Definition getSignerInterface (m : ForkManager) (height : Z) : option (option SignerInterface) :=
  match GetSigner m height with Returns s => Some (Some (signerInterface s)) | _ => None end.

(** *** Validator stores *)

(** A computation on the manager and the chain as it is now. *)
Definition FM (A : Type) : Type := HeaderGetter → ForkManager → result ferror A * ForkManager.

Definition of_serror {A} (r : result serror A) : result ferror A :=
  match r with Returns a => Returns a | Errors e => Errors (errSnapshotStore e) | Panics => Panics end.
Definition of_cerror {A} (r : result cerror A) : result ferror A :=
  match r with Returns a => Returns a | Errors e => Errors (errContractStore e) | Panics => Panics end.

Definition NewSnapshotValidatorStoreWrapper (blockchain : HeaderGetter) (m : ForkManager) : result ferror ValidatorStore :=
  snapshotMeta ← metadataFile;
  snapshots ← snapshotsFile;
  s ← of_serror (NewSnapshotValidatorStore blockchain (getSignerInterface m) (fmEpochSize m) snapshotMeta snapshots);
  Returns (SnapshotValidatorStoreWrapper s).

Definition NewContractValidatorStoreWrapper : ValidatorStore :=
  ContractValidatorStoreWrapper (NewContractValidatorStore DefaultValidatorSetCacheSize).

(** A type of source that is neither leaves a nil store in the map. *)
Definition initializeValidatorStore (blockchain : HeaderGetter) (setType : SourceType) (m : ForkManager) : result ferror ForkManager :=
  match validatorStores m !! setType with
  | Some _ => Returns m
  | None =>
      valStore ← (if bool_decide (setType = SnapshotSource) then
                    s ← NewSnapshotValidatorStoreWrapper blockchain m; Returns (Some s)
                  else if bool_decide (setType = ContractSource) then Returns (Some NewContractValidatorStoreWrapper)
                  else Returns None);
      Returns (set_validatorStores (<[setType := valStore]> (validatorStores m)) m)
  end.

Fixpoint initializeValidatorStores (blockchain : HeaderGetter) (forks : list IBFTFork) (m : ForkManager) : result ferror ForkManager :=
  match forks with
  | [] => Returns m
  | fork :: forks =>
      m ← initializeValidatorStore blockchain (ibftTypesToSourceType (fType fork)) m;
      initializeValidatorStores blockchain forks m
  end.

Definition initializeHooksRegister (ibftType : IBFTType) (m : ForkManager) : ForkManager :=
  match hooksRegisters m !! ibftType with
  | Some _ => m
  | None =>
      if bool_decide (ibftType = PoA) then
        set_hooksRegisters (<[PoA := registerPoA (NewPoAHookRegisterer (fmForks m))]> (hooksRegisters m)) m
      else if bool_decide (ibftType = PoS) then
        set_hooksRegisters (<[PoS := registerPoS (NewPoSHookRegister (fmForks m) (fmEpochSize m))]> (hooksRegisters m)) m
      else m
  end.

Definition initializeHooksRegisters (m : ForkManager) : ForkManager :=
  foldl (λ m fork, initializeHooksRegister (fType fork) m) m (fmForks m).

Definition Initialize (blockchain : HeaderGetter) (m : ForkManager) : result ferror ForkManager :=
  m ← initializeValidatorStores blockchain (fmForks m) m;
  Returns (initializeHooksRegisters m).

(** The entry of the map that holds the store of a fork; a missing entry is nil too. *)
Definition getValidatorStoreByIBFTFork (m : ForkManager) (fork : IBFTFork) : option ValidatorStore :=
  mjoin (validatorStores m !! ibftTypesToSourceType (fType fork)).

Definition GetValidatorStore (m : ForkManager) (height : Z) : result ferror ValidatorStore :=
  fork ← or_error ErrForkNotFound (getFork (fmForks m) height);
  or_error ErrValidatorStoreNotFound (getValidatorStoreByIBFTFork m fork).

(** [GetValidators] of the two wrappers. *)
Definition store_GetValidators (blockchain : HeaderGetter) (m : ForkManager) (set : ValidatorStore) (height forkFrom : Z) :
    result ferror VSet * ValidatorStore :=
  match set with
  | SnapshotValidatorStoreWrapper s => (of_serror (Snapshot.GetValidatorsByHeight (u64 (height - 1)) s), set)
  | ContractValidatorStoreWrapper s =>
      match GetSigner m height with
      | Returns signer =>
          match calculateContractStoreFetchingHeight height (fmEpochSize m) forkFrom with
          | Some fetchingHeight =>
              let '(r, s) := contract_GetValidatorsByHeight BeginTxn blockchain (kmType (keyManager signer)) fetchingHeight s in
              (of_cerror r, ContractValidatorStoreWrapper s)
          | None => (Panics, set)
          end
      | Errors e => (Errors e, set)
      | Panics => (Panics, set)
      end
  end.

Definition GetValidators (height : Z) : FM VSet := λ blockchain m,
  match getFork (fmForks m) height with
  | None => (Errors ErrForkNotFound, m)
  | Some fork =>
      match getValidatorStoreByIBFTFork m fork with
      | None => (Errors ErrValidatorStoreNotFound, m)
      | Some set =>
          let '(r, set) := store_GetValidators blockchain m set height (fFrom fork) in
          (r, set_validatorStores (<[ibftTypesToSourceType (fType fork) := Some set]> (validatorStores m)) m)
      end
  end.

(** ** hook.go *)

Record Hooks := mkHooks {
  ShouldWriteTransactionFunc : option (Z → result ferror bool);
  ModifyHeaderFunc : option (Header → Address → FM Header);
  VerifyHeaderFunc : option (Header → FM unit);
  VerifyBlockFunc : option (Block → result ferror unit);
  ProcessHeaderFunc : option (Header → FM unit);
  PreCommitStateFunc : option (Header → stx → result ferror stx);
  PostInsertBlockFunc : option (Block → FM unit);
}.

Definition newHooks : Hooks := mkHooks None None None None None None None.

Definition fm_ret {A} (a : A) : FM A := λ _ m, (Returns a, m).

Definition ShouldWriteTransactions (h : Hooks) (height : Z) : result ferror bool :=
  match ShouldWriteTransactionFunc h with Some f => f height | None => Returns true end.
Definition hooks_ModifyHeader (h : Hooks) (header : Header) (proposer : Address) : FM Header :=
  match ModifyHeaderFunc h with Some f => f header proposer | None => fm_ret header end.
Definition hooks_VerifyHeader (h : Hooks) (header : Header) : FM unit :=
  match VerifyHeaderFunc h with Some f => f header | None => fm_ret tt end.
Definition VerifyBlock (h : Hooks) (block : Block) : result ferror unit :=
  match VerifyBlockFunc h with Some f => f block | None => Returns tt end.
Definition hooks_ProcessHeader (h : Hooks) (header : Header) : FM unit :=
  match ProcessHeaderFunc h with Some f => f header | None => fm_ret tt end.
Definition PreCommitState (h : Hooks) (header : Header) (txn : stx) : result ferror stx :=
  match PreCommitStateFunc h with Some f => f header txn | None => Returns txn end.
Definition PostInsertBlock (h : Hooks) (block : Block) : FM unit :=
  match PostInsertBlockFunc h with Some f => f block | None => fm_ret tt end.

(** ** hooks.go *)

(** A method of the snapshot store the manager holds, run on that store; it
    leaves the store as it was when it fails. *)
Definition on_snapshot {A} (f : HeaderGetter → ForkManager → SnapshotValidatorStore → result serror (A * SnapshotValidatorStore)) : FM A :=
  λ blockchain m,
  match validatorStores m !! SnapshotSource with
  | Some (Some (SnapshotValidatorStoreWrapper s)) =>
      match f blockchain m s with
      | Returns (a, s) =>
          (Returns a, set_validatorStores (<[SnapshotSource := Some (SnapshotValidatorStoreWrapper s)]> (validatorStores m)) m)
      | Errors e => (Errors (errSnapshotStore e), m)
      | Panics => (Panics, m)
      end
  | _ => (Panics, m)
  end.

(** Only the snapshot store implements [HeaderModifier] and [Updatable]. *)
Definition registerHeaderModifierHooks (hooks : Hooks) (validatorStore : option ValidatorStore) : Hooks :=
  match validatorStore with
  | Some (SnapshotValidatorStoreWrapper _) =>
      mkHooks (ShouldWriteTransactionFunc hooks)
        (Some (λ header proposer, on_snapshot (λ _ _ s, Snapshot.ModifyHeader header proposer s)))
        (Some (λ header, on_snapshot (λ _ _ s, _ ← svVerifyHeader header; Returns (tt, s))))
        (VerifyBlockFunc hooks)
        (Some (λ header, on_snapshot (λ _ m s,
           s ← Snapshot.ProcessHeader (getSignerInterface m) (fmEpochSize m) header s; Returns (tt, s))))
        (PreCommitStateFunc hooks) (PostInsertBlockFunc hooks)
  | _ => hooks
  end.

Definition registerUpdateValidatorsHooks (hooks : Hooks) (validatorStore : option ValidatorStore)
    (validators : VSet) (fromHeight : Z) : Hooks :=
  match validatorStore with
  | Some (SnapshotValidatorStoreWrapper _) =>
      mkHooks (ShouldWriteTransactionFunc hooks) (ModifyHeaderFunc hooks) (VerifyHeaderFunc hooks)
        (VerifyBlockFunc hooks) (ProcessHeaderFunc hooks) (PreCommitStateFunc hooks)
        (Some (λ b,
           if negb (fromHeight =? u64 (Block_Number b + 1)) then fm_ret tt else
           on_snapshot (λ blockchain _ s, s ← Snapshot.UpdateValidatorSet blockchain validators fromHeight s; Returns (tt, s))))
  | _ => hooks
  end.

Definition isLastEpoch (epochSize height : Z) : result ferror bool :=
  if negb (0 <? height) then Returns false else
  if epochSize =? 0 then Panics else Returns (height mod epochSize =? 0).

Definition registerTxInclusionGuardHooks (hooks : Hooks) (epochSize : Z) : Hooks :=
  mkHooks
    (Some (λ height, last ← isLastEpoch epochSize height; Returns (negb last)))
    (ModifyHeaderFunc hooks) (VerifyHeaderFunc hooks)
    (Some (λ block,
       last ← isLastEpoch epochSize (Block_Number block);
       if last && (0 <? zlen (bTransactions block)) then Errors ErrTxInLastEpochOfBlock else Returns tt))
    (ProcessHeaderFunc hooks) (PreCommitStateFunc hooks) (PostInsertBlockFunc hooks).

Definition getPreDeployParams (fork : IBFTFork) : PredeployParams :=
  mkParams (default MinValidatorCount (fMinValidatorCount fork)) (default MaxValidatorCount (fMaxValidatorCount fork)).

(** [PredeployStakingSC] decodes the bytecode too, and ignores the error. *)
Definition registerStakingContractDeploymentHooks (hooks : Hooks) (fork : IBFTFork) : Hooks :=
  mkHooks (ShouldWriteTransactionFunc hooks) (ModifyHeaderFunc hooks) (VerifyHeaderFunc hooks)
    (VerifyBlockFunc hooks) (ProcessHeaderFunc hooks)
    (Some (λ header txn,
       deployment ← or_panic (fDeployment fork);
       if negb (hNumber header =? deployment) then Returns txn else
       let '(codeBytes, ok) := DecodeHex StakingSCBytecode in
       if stx_AccountExists txn AddrStakingContract then
         if ok then stx_SetCodeDirectly txn AddrStakingContract codeBytes else Errors errHex
       else stx_SetAccountDirectly txn AddrStakingContract
              (PredeployStakingSC codeBytes (fValidators fork) (getPreDeployParams fork))))
    (PostInsertBlockFunc hooks).

(** ** hookregister.go *)

Definition PoA_RegisterHooks (m : ForkManager) (r : PoAHookRegister) (hooks : Hooks) (height : Z) : Hooks :=
  let hooks := match getFork (poaForks r) height with
    | Some currentFork => registerHeaderModifierHooks hooks (getValidatorStoreByIBFTFork m currentFork)
    | None => hooks
    end in
  match updateValidatorsForks r !! u64 (height + 1) with
  | Some fork =>
      match fValidators fork with
      | Some validators => registerUpdateValidatorsHooks hooks (getValidatorStoreByIBFTFork m fork) validators (fFrom fork)
      | None => hooks   (** such a fork is not in the map *)
      end
  | None => hooks
  end.

Definition PoS_RegisterHooks (r : PoSHookRegister) (hooks : Hooks) (height : Z) : Hooks :=
  let hooks := match getFork (posForks r) height with
    | Some _ => registerTxInclusionGuardHooks hooks (posEpochSize r)
    | None => hooks
    end in
  match deployContractForks r !! height with
  | Some deploymentFork => registerStakingContractDeploymentHooks hooks deploymentFork
  | None => hooks
  end.

Definition RegisterHooks (m : ForkManager) (r : HooksRegister) (hooks : Hooks) (height : Z) : Hooks :=
  match r with registerPoA r => PoA_RegisterHooks m r hooks height | registerPoS r => PoS_RegisterHooks r hooks height end.

(** [order] lists the keys of the map as Go visits them. *)
Definition GetHooks (order : list IBFTType) (m : ForkManager) (height : Z) : Hooks :=
  foldl (λ hooks t, match hooksRegisters m !! t with Some r => RegisterHooks m r hooks height | None => hooks end) newHooks order.

End manager.
