(* ===== verification/IbftForkProps.v ===== *)
(** * The fork manager is consistent

    The phases of the genesis file cover every height once. Then the height
    the contract store is asked for determines the phase, so its cache, which
    does not know the type of the validators, answers as the contract would;
    the validators of an epoch are those at the end of the epoch before; and
    the hooks of a height do not depend on the order in which the map of
    registers is visited. *)

From Stdlib Require Import String.
From stdpp Require Import gmap.
From S2P Require Import Prelude BigInt Types Runtime Rlp BlockTypes Hex Result Radix Validators Crypto CryptoProps Signer SignerProps Snapshot SnapshotProps SnapshotExamples Staking ContractStore IbftFork.
Import SignerExamples.
#[local] Open Scope Z_scope.

(** ** Phases *)

(** The forks start at [from] and follow each other without gaps; the last
    one never ends. *)
Fixpoint phases (from : Z) (fs : list IBFTFork) : Prop :=
  match fs with
  | [] => False
  | f :: fs =>
      fFrom f = from ∧
      match fTo f with None => fs = [] | Some to => from ≤ to ∧ phases (to + 1) fs end
  end.

Lemma getFork_before fs from h : phases from fs → h < from → getFork fs h = None.
Proof.
  revert from. induction fs as [|f fs IH]; intros from Hp Hh; [done|]. destruct Hp as [Hf Hp]. cbn [getFork].
  assert (covers f h = false) as -> by (unfold covers; apply andb_false_iff; left; apply Z.leb_gt; lia).
  destruct (fTo f) as [to|]; [|by rewrite Hp]. destruct Hp as [Hle Hp]. by rewrite (IH (to + 1)) by (done || lia).
Qed.

(** Where the fork of a height lies. *)
Record placed (from : Z) (f : IBFTFork) (h : Z) : Prop := {
  placed_from : from ≤ fFrom f ≤ h;
  placed_to : ∀ to, fTo f = Some to → h ≤ to;
}.

Lemma getFork_phases fs from h : phases from fs → from ≤ h → ∃ f, getFork fs h = Some f ∧ placed from f h ∧ f ∈ fs.
Proof.
  revert from. induction fs as [|f fs IH]; intros from Hp Hh; [done|]. destruct Hp as [Hf Hp]. cbn [getFork].
  destruct (fTo f) as [to|] eqn:Et.
  - destruct Hp as [Hle Hp]. destruct (decide (h ≤ to)) as [Hto|Hto].
    + rewrite (getFork_before fs (to + 1)) by (done || lia). unfold covers. rewrite Et.
      rewrite !(proj2 (Z.leb_le _ _)) by lia. exists f. split; [done|]. split; [|by left].
      split; [lia|]. intros t E. assert (t = to) by congruence. lia.
    + destruct (IH (to + 1)) as (g & Eg & [Hg1 Hg2] & Hin); [done|lia|]. rewrite Eg. exists g. split; [done|].
      split; [split; [lia|done]|by right].
  - rewrite Hp. cbn [getFork]. unfold covers. rewrite Et, (proj2 (Z.leb_le _ _)) by lia. exists f. split; [done|].
    split; [|by left]. split; [lia|]. intros t E. congruence.
Qed.

(** Two heights are in one fork, or in forks that do not overlap. *)
Lemma getFork_order fs from h h' f f' :
  phases from fs → getFork fs h = Some f → getFork fs h' = Some f' → h ≤ h' →
  f = f' ∨ (∃ to, fTo f = Some to ∧ h ≤ to < fFrom f').
Proof.
  revert from. induction fs as [|g fs IH]; intros from Hp E E' Hh; [done|].
  assert (from ≤ h) as Hfh.
  { destruct (decide (from ≤ h)); [done|]. by rewrite (getFork_before _ from) in E by (done || lia). }
  destruct Hp as [Hg Hp]. cbn [getFork] in E, E'. destruct (fTo g) as [to|] eqn:Et.
  - destruct Hp as [Hle Hp]. destruct (decide (h ≤ to)) as [Ht|Ht].
    + rewrite (getFork_before fs (to + 1)) in E by (done || lia).
      destruct (covers g h) eqn:Ec; [|done]. injection E as <-.
      destruct (decide (h' ≤ to)) as [Ht'|Ht'].
      * rewrite (getFork_before fs (to + 1)) in E' by (done || lia). left. by destruct (covers g h'); simplify_eq.
      * destruct (getFork_phases fs (to + 1) h') as (k & Ek & [Hk _] & _); [done|lia|]. rewrite Ek in E'. injection E' as <-.
        right. exists to. split; [done|]. lia.
    + destruct (getFork_phases fs (to + 1) h) as (k & Ek & _); [done|lia|].
      destruct (getFork_phases fs (to + 1) h') as (k' & Ek' & _); [done|lia|].
      rewrite Ek in E. rewrite Ek' in E'. injection E as ->. injection E' as ->. by apply (IH (to + 1)).
  - subst fs. cbn [getFork] in E, E'. destruct (covers g h), (covers g h'); simplify_eq. by left.
Qed.

(** ** The height the contract is asked for *)

Lemma fetching_height h epochSize from k :
  0 < epochSize → 0 ≤ from ≤ h → calculateContractStoreFetchingHeight h epochSize from = Some k →
  0 ≤ k ∧ from - 1 ≤ k ∧ (k < h ∨ h = 0).
Proof.
  intros He Hf. unfold calculateContractStoreFetchingHeight. rewrite (proj2 (Z.eqb_neq _ _)) by lia.
  pose proof (Z.mul_div_le h epochSize He) as Hm. rewrite Z.mul_comm in Hm.
  assert (0 ≤ h / epochSize * epochSize) by (apply Z.mul_nonneg_nonneg; [apply Z.div_pos|]; lia).
  intros [= <-]. repeat case_match; lia.
Qed.

(** The fetching height of an epoch: the block before it, or before the fork. *)
Lemma fetching_epoch h epochSize from k :
  0 < epochSize → 0 ≤ from ≤ h → calculateContractStoreFetchingHeight h epochSize from = Some k →
  k = Z.max 0 (Z.max (h / epochSize * epochSize) from - 1).
Proof.
  intros He Hf. unfold calculateContractStoreFetchingHeight. rewrite (proj2 (Z.eqb_neq _ _)) by lia.
  assert (0 ≤ h / epochSize * epochSize) by (apply Z.mul_nonneg_nonneg; [apply Z.div_pos|]; lia).
  intros [= <-]. repeat case_match; lia.
Qed.

(** ** Runs of the manager *)

(** Headers stay in the chain once they are in it. *)
Definition extends (bc bc' : HeaderGetter) : Prop :=
  ∀ n header, hgGetHeaderByNumber bc n = Some header → hgGetHeaderByNumber bc' n = Some header.

Section manager.
Context `{Keccak, Rlp, Secp256k1, Bls, SortSnaps, StakingABI, TxQueryHandler, !Lru Z VSet, !LruLaws Z VSet, StakingTransition}.
Context (BeginTxn : Hash → Header → Address → result cerror transition).
Context (secretKey : option privkey) (secretBLSKey : option bls_secret).
Context (metadataFile : result ferror (option Z)) (snapshotsFile : result ferror (list Snapshot)).
Context (StakingSCBytecode : list Z).

Notation GetValidators := (GetValidators BeginTxn).
Notation GetHooks := (GetHooks StakingSCBytecode).
Notation fetchAt := (fetchAt BeginTxn).

(** What the node does with the manager: it asks for the validators of a
    height, and runs the hooks of a height. *)
Inductive fm_step (bc : HeaderGetter) (m : ForkManager) : ForkManager → Prop :=
  | step_validators h : 0 < h → fm_step bc m (GetValidators h bc m).2
  | step_modify order h header p : fm_step bc m (hooks_ModifyHeader (GetHooks order m h) header p bc m).2
  | step_verify order h header : fm_step bc m (hooks_VerifyHeader (GetHooks order m h) header bc m).2
  | step_process order h header : fm_step bc m (hooks_ProcessHeader (GetHooks order m h) header bc m).2
  | step_post order h block : fm_step bc m (PostInsertBlock (GetHooks order m h) block bc m).2.

Inductive runs (forks : list IBFTFork) (epochSize : Z) : HeaderGetter → ForkManager → Prop :=
  | run_start bc m0 m :
      NewForkManager secretKey secretBLSKey (Returns forks) epochSize = Returns m0 →
      Initialize metadataFile snapshotsFile bc m0 = Returns m → runs forks epochSize bc m
  | run_step bc m bc' m' : runs forks epochSize bc m → extends bc bc' → fm_step bc' m m' → runs forks epochSize bc' m'.

(** *** Key managers *)

Record keyed (forks : list IBFTFork) (k : gmap ValidatorType KeyManager) : Prop := {
  keyed_type : ∀ t km, k !! t = Some km → kmType km = t;
  keyed_forks : ∀ f, f ∈ forks → is_Some (k !! fValidatorType f);
}.

Lemma NewKeyManager_type t km : NewKeyManagerFromType secretKey secretBLSKey t = Returns km → kmType km = t.
Proof.
  unfold NewKeyManagerFromType. intros E. case_bool_decide as E1; [|case_bool_decide as E2; [|done]].
  - by invert_result E; simplify_eq.
  - by invert_result E; simplify_eq.
Qed.

Lemma initializeKeyManagers_spec fs forks m m' :
  initializeKeyManagers secretKey secretBLSKey fs m = Returns m' → keyed forks (keyManagers m) →
  keyed (forks ++ fs) (keyManagers m') ∧ fmForks m' = fmForks m ∧ fmEpochSize m' = fmEpochSize m ∧
  validatorStores m' = validatorStores m ∧ hooksRegisters m' = hooksRegisters m.
Proof.
  revert forks m. induction fs as [|f fs IH]; intros forks m E Hk.
  { injection E as <-. by rewrite app_nil_r. }
  cbn [initializeKeyManagers] in E. apply result_bind_returns in E as (m1 & E1 & E).
  change (f :: fs) with ([f] ++ fs). rewrite app_assoc. unfold initializeKeyManager in E1.
  destruct (keyManagers m !! fValidatorType f) as [km|] eqn:Ef.
  - injection E1 as <-. eapply IH; [done|]. destruct Hk as [Ht Hf]. split; [done|].
    intros g [Hg|Hg%list_elem_of_singleton]%elem_of_app; [by apply Hf|]. subst g. by eexists.
  - apply result_bind_returns in E1 as (km & Ekm & [= <-]). apply IH with (forks := forks ++ [f]) in E; [done|].
    destruct Hk as [Ht Hf]. split.
    + intros t k. cbn. destruct (decide (t = fValidatorType f)) as [->|].
      * rewrite lookup_insert_eq. intros [= <-]. by apply NewKeyManager_type.
      * rewrite lookup_insert_ne by done. apply Ht.
    + intros g Hg. cbn. destruct (decide (fValidatorType g = fValidatorType f)) as [->|].
      * rewrite lookup_insert_eq. by eexists.
      * rewrite lookup_insert_ne by done. apply elem_of_app in Hg as [Hg|Hg%list_elem_of_singleton]; [by apply Hf|by subst g].
Qed.

Lemma keyManager_at m h f :
  phases 0 (fmForks m) → keyed (fmForks m) (keyManagers m) → 0 ≤ h → getFork (fmForks m) h = Some f →
  ∃ km, getKeyManager m h = Returns km ∧ kmType km = fValidatorType f.
Proof.
  intros Hp [Ht Hf] Hh E. destruct (getFork_phases _ 0 h Hp Hh) as (f' & E' & _ & Hin). rewrite E in E'. injection E' as <-.
  destruct (Hf f Hin) as [km Ekm]. exists km. split; [|by apply Ht]. unfold getKeyManager. rewrite E. cbn. by rewrite Ekm.
Qed.

Lemma GetSigner_type m h f :
  phases 0 (fmForks m) → keyed (fmForks m) (keyManagers m) → 0 ≤ h → getFork (fmForks m) h = Some f →
  ∃ s, GetSigner m h = Returns s ∧ kmType (keyManager s) = fValidatorType f.
Proof.
  intros Hp Hk Hh E. destruct (keyManager_at m h f) as (km & Ekm & Ht); [done..|]. unfold GetSigner. rewrite Ekm.
  cbn [mbind result_bind]. destruct (1 <? h) eqn:E1; [|by eexists]. apply Z.ltb_lt in E1.
  destruct (getFork_phases _ 0 (h - 1) Hp) as (g & Eg & _); [lia|].
  destruct (keyManager_at m (h - 1) g) as (km' & Ekm' & _); [done..|lia|done|]. rewrite Ekm'. by eexists.
Qed.

(** *** The cache *)

(** What the contract is asked for the validators of a height. *)
Definition source (m : ForkManager) (h : Z) : option (ValidatorType * Z) :=
  f ← getFork (fmForks m) h;
  k ← calculateContractStoreFetchingHeight h (fmEpochSize m) (fFrom f);
  Some (fValidatorType f, k).

(** A height the contract is asked for belongs to one fork. *)
Lemma source_type m h h' t t' k :
  phases 0 (fmForks m) → 0 < fmEpochSize m → 0 < h → 0 < h' →
  source m h = Some (t, k) → source m h' = Some (t', k) → t = t'.
Proof.
  intros Hp He. revert h h' t t'.
  assert (∀ h h' t t', 0 < h → h ≤ h' → source m h = Some (t, k) → source m h' = Some (t', k) → t = t') as Hle.
  { intros h h' t t' Hh Hle E E'. unfold source in E, E'.
    apply bind_Some in E as (f & Ef & (k1 & Ek & [= <- ->])%bind_Some).
    apply bind_Some in E' as (f' & Ef' & (k2 & Ek' & [= <- ->])%bind_Some).
    destruct (getFork_phases _ 0 h Hp) as (g & Eg & [Hg _] & _); [lia|]. rewrite Ef in Eg. injection Eg as <-.
    destruct (getFork_phases _ 0 h' Hp) as (g' & Eg' & [Hg' _] & _); [lia|]. rewrite Ef' in Eg'. injection Eg' as <-.
    destruct (fetching_height _ _ _ _ He Hg Ek) as (_ & _ & Hk).
    destruct (fetching_height _ _ _ _ He Hg' Ek') as (_ & Hk' & _).
    destruct (getFork_order _ 0 h h' f f' Hp Ef Ef' Hle) as [->|(to & _ & Hto)]; [done|lia]. }
  intros h h' t t' Hh Hh' E E'. destruct (decide (h ≤ h')) as [Hl|Hl]; [exact (Hle h h' t t' Hh Hl E E')|].
  symmetry. apply (Hle h' h t' t); [lia|lia|done|done].
Qed.

Definition cache_ok (bc : HeaderGetter) (m : ForkManager) (c : cache Z VSet) : Prop :=
  ∀ k v, (lru_get c k).1 = Some v → ∃ h t, 0 < h ∧ source m h = Some (t, k) ∧ fetchAt bc t k = Returns v.

Definition store_ok (bc : HeaderGetter) (m : ForkManager) (src : SourceType) (st : option ValidatorStore) : Prop :=
  (src = SnapshotSource → ∃ s, st = Some (SnapshotValidatorStoreWrapper s)) ∧
  (src = ContractSource → ∃ c, st = Some (ContractValidatorStoreWrapper (mkContractStore (Some c))) ∧ cache_ok bc m c) ∧
  (src = [] → st = None).

(** The register of a type of consensus, once the forks [fs] are visited. *)
Definition register_at (forks : list IBFTFork) (epochSize : Z) (fs : list IBFTFork) (t : IBFTType) : option HooksRegister :=
  if bool_decide (t ∈ fType <$> fs) then
    if bool_decide (t = PoA) then Some (registerPoA (NewPoAHookRegisterer forks)) else
    if bool_decide (t = PoS) then Some (registerPoS (NewPoSHookRegister forks epochSize)) else None
  else None.

Definition registered (forks : list IBFTFork) (epochSize : Z) (fs : list IBFTFork) (m : ForkManager) : Prop :=
  ∀ t, hooksRegisters m !! t = register_at forks epochSize fs t.

Record minv (forks : list IBFTFork) (epochSize : Z) (bc : HeaderGetter) (m : ForkManager) : Prop := {
  minv_forks : fmForks m = forks;
  minv_epoch : fmEpochSize m = epochSize;
  minv_keys : keyed forks (keyManagers m);
  minv_registers : registered forks epochSize forks m;
  minv_present : ∀ f, f ∈ forks → is_Some (validatorStores m !! ibftTypesToSourceType (fType f));
  minv_stores : ∀ src st, validatorStores m !! src = Some st → store_ok bc m src st;
}.

Lemma sources_differ : SnapshotSource ≠ ContractSource.
Proof. done. Qed.

Lemma fetchAt_extends bc bc' t k v : extends bc bc' → fetchAt bc t k = Returns v → fetchAt bc' t k = Returns v.
Proof.
  intros Hx. unfold ContractStore.fetchAt, getTransitionForQuery. intros E.
  destruct (hgGetHeaderByNumber bc k) as [header|] eqn:Eh; [|done]. by rewrite (Hx _ _ Eh).
Qed.

Lemma store_ok_mono bc bc' m m' src st :
  extends bc bc' → source m' = source m → store_ok bc m src st → store_ok bc' m' src st.
Proof.
  intros Hx Es (S1 & S2 & S3). unfold store_ok. split_and!; [done| |done]. intros E. destruct (S2 E) as (c & -> & Hc). exists c. split; [done|].
  intros k v Hv. destruct (Hc k v Hv) as (h & t & Hh & Ht & Hf). exists h, t. rewrite Es. split; [done|].
  split; [done|]. by eapply fetchAt_extends.
Qed.

(** Changing one store to one of the same kind. *)
Lemma minv_put forks epochSize bc m src st :
  minv forks epochSize bc m → is_Some (validatorStores m !! src) → store_ok bc m src st →
  minv forks epochSize bc (set_validatorStores (<[src := st]> (validatorStores m)) m).
Proof.
  intros [Hf He Hk Hr Hp Hs] Hsrc Hok. split; [done..| |]; cbn.
  - intros f Hin. destruct (decide (src = ibftTypesToSourceType (fType f))) as [->|].
    + rewrite lookup_insert_eq. by eexists.
    + rewrite lookup_insert_ne by done. by apply Hp.
  - intros src' st'. destruct (decide (src = src')) as [->|].
    + rewrite lookup_insert_eq. by intros [= <-].
    + rewrite lookup_insert_ne by done. apply Hs.
Qed.

Lemma snapshot_ok bc m s : store_ok bc m SnapshotSource (Some (SnapshotValidatorStoreWrapper s)).
Proof. unfold store_ok. split_and!; [by eexists|intros E; by destruct sources_differ|done]. Qed.

Lemma contract_ok bc m c : cache_ok bc m c → store_ok bc m ContractSource (Some (ContractValidatorStoreWrapper (mkContractStore (Some c)))).
Proof. intros Hc. unfold store_ok. split_and!; [intros E; by destruct sources_differ|by exists c|done]. Qed.

Lemma on_snapshot_minv {A} forks epochSize bc m
    (f : HeaderGetter → ForkManager → SnapshotValidatorStore → result serror (A * SnapshotValidatorStore)) :
  minv forks epochSize bc m → minv forks epochSize bc (on_snapshot f bc m).2.
Proof.
  intros Hm. unfold on_snapshot. destruct (validatorStores m !! SnapshotSource) as [[[s|]|]|] eqn:Es; try done.
  destruct (f bc m s) as [[a s']|e|]; [|done..]. apply minv_put; [done|by rewrite Es|]. by apply snapshot_ok.
Qed.

Lemma contract_cached bc m c t k h :
  phases 0 (fmForks m) → 0 < fmEpochSize m → 0 < h → cache_ok bc m c → source m h = Some (t, k) →
  (contract_GetValidatorsByHeight BeginTxn bc t k (mkContractStore (Some c))).1 = fetchAt bc t k ∧
  ∃ c', (contract_GetValidatorsByHeight BeginTxn bc t k (mkContractStore (Some c))).2 = mkContractStore (Some c') ∧ cache_ok bc m c'.
Proof.
  intros Hp He Hh Hc Es. unfold contract_GetValidatorsByHeight, loadCachedValidatorSet. cbn [validatorSetCache or_panic mbind result_bind].
  destruct (lru_get c k) as [o c1] eqn:Eg.
  assert (cache_ok bc m c1) as Hc1.
  { intros k' v' Hv. apply Hc. apply (lru_get_sound c k). by rewrite Eg. }
  destruct o as [v|].
  - destruct (Hc k v) as (h' & t' & Hh' & Es' & Ef); [by rewrite Eg|].
    rewrite (source_type m h h' t t' k) by done. cbn. split; [done|]. by exists c1.
  - destruct (fetchAt bc t k) as [v|e|] eqn:Ef; cbn; [|split; [done|by exists c1]..].
    split; [done|]. exists (lru_add c1 k v). split; [done|]. intros k' v' Hv.
    destruct (lru_add_sound c1 k v k' v' Hv) as [[-> ->]|Hv']; [by exists h, t|by apply Hc1].
Qed.

(** The answer of the manager, without a cache. *)
Definition validators_of (bc : HeaderGetter) (m : ForkManager) (h : Z) (f : IBFTFork) : result ferror VSet :=
  store ← or_error ErrValidatorStoreNotFound (getValidatorStoreByIBFTFork m f);
  match store with
  | SnapshotValidatorStoreWrapper s => of_serror (Snapshot.GetValidatorsByHeight (u64 (h - 1)) s)
  | ContractValidatorStoreWrapper _ =>
      of_cerror (fetchAt bc (fValidatorType f) (Z.max 0 (Z.max (h / fmEpochSize m * fmEpochSize m) (fFrom f) - 1)))
  end.

Lemma source_inv t : ibftTypesToSourceType t = SnapshotSource ∨ ibftTypesToSourceType t = ContractSource ∨ ibftTypesToSourceType t = [].
Proof. unfold ibftTypesToSourceType. repeat case_bool_decide; auto. Qed.

Lemma GetValidators_minv forks epochSize bc m h :
  phases 0 forks → 0 < epochSize → 0 < h → minv forks epochSize bc m →
  ∃ f, getFork forks h = Some f ∧
    (GetValidators h bc m).1 = validators_of bc m h f ∧ minv forks epochSize bc (GetValidators h bc m).2.
Proof.
  intros Hp He Hh Hm. pose proof Hm as [Hf Hep Hk _ Hpr Hs].
  destruct (getFork_phases forks 0 h Hp) as (f & Ef & [Hf1 _] & Hin); [lia|]. exists f. split; [done|].
  unfold IbftFork.GetValidators, validators_of, getValidatorStoreByIBFTFork. rewrite Hf, Ef.
  destruct (Hpr f Hin) as [st Est]. rewrite Est. destruct st as [st|]; [|done]. cbn [mjoin option_join or_error mbind result_bind].
  destruct (source_inv (fType f)) as [Esrc|[Esrc|Esrc]]; rewrite Esrc in Est |- *.
  - destruct (Hs _ _ Est) as [S1 _]. destruct (S1 eq_refl) as [s [= ->]]. cbn [store_GetValidators fst snd]. split; [done|].
    apply minv_put; [done|by rewrite Est|apply snapshot_ok].
  - destruct (Hs _ _ Est) as (_ & S2 & _). destruct (S2 eq_refl) as (c & [= ->] & Hc). cbn [store_GetValidators].
    rewrite <- Hf in Hp, Hk, Ef. rewrite <- Hep in He.
    destruct (GetSigner_type m h f Hp Hk) as (sg & Esg & Et); [lia|done|]. rewrite Esg, Et.
    destruct (calculateContractStoreFetchingHeight h (fmEpochSize m) (fFrom f)) as [k|] eqn:Ek.
    2:{ unfold calculateContractStoreFetchingHeight in Ek. by rewrite (proj2 (Z.eqb_neq _ _)) in Ek by lia. }
    pose proof (fetching_epoch _ _ _ _ He Hf1 Ek) as Ek'. rewrite <- Ek'.
    destruct (contract_cached bc m c (fValidatorType f) k h) as (Er & c' & Es' & Hc'); [done..| |].
    { unfold source. rewrite Ef. cbn. by rewrite Ek. }
    destruct (contract_GetValidatorsByHeight _ _ _ _ _) as [r s']. cbn in Er, Es'. subst r s'. cbn [fst snd]. split; [done|].
    apply minv_put; [done|by rewrite Est|by apply contract_ok].
  - destruct (Hs _ _ Est) as (_ & _ & S3). by specialize (S3 eq_refl).
Qed.

(** *** Hooks keep the invariant *)

Record keeps (forks : list IBFTFork) (epochSize : Z) (bc : HeaderGetter) (m : ForkManager) (h : Hooks) : Prop := {
  keeps_modify : ∀ header p, minv forks epochSize bc (hooks_ModifyHeader h header p bc m).2;
  keeps_verify : ∀ header, minv forks epochSize bc (hooks_VerifyHeader h header bc m).2;
  keeps_process : ∀ header, minv forks epochSize bc (hooks_ProcessHeader h header bc m).2;
  keeps_post : ∀ b, minv forks epochSize bc (PostInsertBlock h b bc m).2;
}.

Lemma keeps_modifier forks epochSize bc m hk st :
  minv forks epochSize bc m → keeps forks epochSize bc m hk → keeps forks epochSize bc m (registerHeaderModifierHooks hk st).
Proof.
  intros Hm Hk. destruct st as [[s|s]|]; [|done..]. split; intros; [by apply on_snapshot_minv..|apply Hk].
Qed.

Lemma keeps_update forks epochSize bc m hk st vs n :
  minv forks epochSize bc m → keeps forks epochSize bc m hk → keeps forks epochSize bc m (registerUpdateValidatorsHooks hk st vs n).
Proof.
  intros Hm Hk. destruct st as [[s|s]|]; [|done..]. split; intros; [apply Hk..|]. unfold PostInsertBlock. cbn [registerUpdateValidatorsHooks PostInsertBlockFunc].
  destruct (negb _); [done|]. by apply on_snapshot_minv.
Qed.

Lemma keeps_register forks epochSize bc m r hk h :
  minv forks epochSize bc m → keeps forks epochSize bc m hk → keeps forks epochSize bc m (RegisterHooks StakingSCBytecode m r hk h).
Proof.
  intros Hm Hk. destruct r as [r|r]; cbn [RegisterHooks].
  - unfold PoA_RegisterHooks.
    assert (keeps forks epochSize bc m (match getFork (poaForks r) h with
      | Some currentFork => registerHeaderModifierHooks hk (getValidatorStoreByIBFTFork m currentFork) | None => hk end)) as Hk'.
    { destruct (getFork _ _); [by apply keeps_modifier|done]. }
    destruct (updateValidatorsForks r !! _) as [g|]; [|done]. destruct (fValidators g); [by apply keeps_update|done].
  - destruct Hk as [K1 K2 K3 K4]. unfold PoS_RegisterHooks.
    destruct (getFork (posForks r) h), (deployContractForks r !! h); split; done.
Qed.

Lemma keeps_hooks forks epochSize bc m order h :
  minv forks epochSize bc m → keeps forks epochSize bc m (GetHooks order m h).
Proof.
  intros Hm. unfold IbftFork.GetHooks. assert (keeps forks epochSize bc m newHooks) as Hk by by split.
  revert Hk. generalize newHooks. induction order as [|t order IH]; intros hk Hk; [done|]. cbn [foldl]. apply IH.
  destruct (hooksRegisters m !! t); [by apply keeps_register|done].
Qed.

(** *** Initialisation *)

Record stored (bc : HeaderGetter) (fs : list IBFTFork) (m : ForkManager) : Prop := {
  stored_present : ∀ f, f ∈ fs → is_Some (validatorStores m !! ibftTypesToSourceType (fType f));
  stored_ok : ∀ src st, validatorStores m !! src = Some st → store_ok bc m src st;
}.

Lemma new_store_ok bc m src st :
  (if bool_decide (src = SnapshotSource) then s ← NewSnapshotValidatorStoreWrapper metadataFile snapshotsFile bc m; Returns (Some s)
   else if bool_decide (src = ContractSource) then Returns (Some NewContractValidatorStoreWrapper) else Returns None)
  = Returns st → store_ok bc m src st.
Proof.
  intros E. case_bool_decide as E1; [|case_bool_decide as E2].
  - subst src. apply result_bind_returns in E as (s & Es & [= <-]). unfold NewSnapshotValidatorStoreWrapper in Es.
    invert_result Es. injection Es as <-. apply snapshot_ok.
  - subst src. injection E as <-. apply contract_ok. intros k v. by rewrite lru_new_get.
  - injection E as <-. by split_and!.
Qed.


Lemma initializeValidatorStores_spec bc before fs m m' :
  initializeValidatorStores metadataFile snapshotsFile bc fs m = Returns m' → stored bc before m →
  stored bc (before ++ fs) m' ∧ ∃ v, m' = set_validatorStores v m.
Proof.
  revert before m. induction fs as [|f fs IH]; intros before m E Hs.
  { injection E as <-. rewrite app_nil_r. split; [assumption|]. exists (validatorStores m). by destruct m. }
  cbn [initializeValidatorStores] in E. apply result_bind_returns in E as (m1 & E1 & E).
  change (f :: fs) with ([f] ++ fs). rewrite app_assoc. unfold initializeValidatorStore in E1.
  destruct (validatorStores m !! ibftTypesToSourceType (fType f)) as [st|] eqn:Ef.
  - injection E1 as <-. apply (IH (before ++ [f])) in E; [done|]. destruct Hs as [Hp Ho]. split; [|done].
    intros g [Hg|Hg%list_elem_of_singleton]%elem_of_app; [by apply Hp|]. subst g. by eexists.
  - apply result_bind_returns in E1 as (st & Est & [= <-]). apply new_store_ok in Est.
    apply (IH (before ++ [f])) in E.
    + destruct E as [E (v & ->)]. split; [done|]. by exists v.
    + destruct Hs as [Hp Ho]. split; cbn.
      * intros g Hg. destruct (decide (ibftTypesToSourceType (fType f) = ibftTypesToSourceType (fType g))) as [Eg|Eg].
        { rewrite Eg, lookup_insert_eq. by eexists. }
        rewrite lookup_insert_ne by done. apply elem_of_app in Hg as [Hg|Hg%list_elem_of_singleton]; [by apply Hp|by subst g].
      * intros src st'. destruct (decide (ibftTypesToSourceType (fType f) = src)) as [<-|].
        { rewrite lookup_insert_eq. by intros [= <-]. }
        rewrite lookup_insert_ne by done. apply Ho.
Qed.

Lemma initializeHooksRegister_spec before f m :
  registered (fmForks m) (fmEpochSize m) before m →
  registered (fmForks m) (fmEpochSize m) (before ++ [f]) (initializeHooksRegister (fType f) m) ∧
  ∃ r, initializeHooksRegister (fType f) m = set_hooksRegisters r m.
Proof.
  intros Hr. split.
  - intros t. unfold initializeHooksRegister. pose proof (Hr t) as Et. pose proof (Hr (fType f)) as Ef.
    unfold register_at in *. rewrite fmap_app, (bool_decide_ext (t ∈ _ ++ _) (t ∈ fType <$> before ∨ t = fType f)) by set_solver.
    destruct (hooksRegisters m !! fType f) as [r|] eqn:E.
    + rewrite Et. destruct (decide (t ∈ fType <$> before)) as [Hin|Hin].
      { rewrite (bool_decide_true _ Hin), (bool_decide_true (_ ∨ _)); auto. }
      rewrite (bool_decide_false _ Hin). destruct (decide (t = fType f)) as [->|Hne]; [|by rewrite bool_decide_false by naive_solver].
      by rewrite (bool_decide_false _ Hin) in Ef.
    + destruct (decide (t = fType f)) as [->|Hne].
      * clear Et Ef. rewrite (bool_decide_true (_ ∨ _)) by auto.
        case_bool_decide as E1; [rewrite E1; cbn [set_hooksRegisters hooksRegisters]; by rewrite lookup_insert_eq|].
        case_bool_decide as E2; [rewrite E2; cbn [set_hooksRegisters hooksRegisters]; by rewrite lookup_insert_eq|]. done.
      * rewrite (bool_decide_ext (_ ∨ _) (t ∈ fType <$> before)) by tauto. rewrite <- Et. clear Et Ef.
        case_bool_decide as E1; [cbn [set_hooksRegisters hooksRegisters]; rewrite lookup_insert_ne; [done|congruence]|].
        case_bool_decide as E2; [cbn [set_hooksRegisters hooksRegisters]; rewrite lookup_insert_ne; [done|congruence]|]. done.
  - unfold initializeHooksRegister. repeat case_match; try by eexists. all: exists (hooksRegisters m); by destruct m.
Qed.

Lemma initializeHooksRegisters_spec m :
  hooksRegisters m = ∅ →
  registered (fmForks m) (fmEpochSize m) (fmForks m) (initializeHooksRegisters m) ∧
  ∃ r, initializeHooksRegisters m = set_hooksRegisters r m.
Proof.
  intros E. unfold initializeHooksRegisters.
  assert (∀ fs before m', registered (fmForks m) (fmEpochSize m) before m' → (∃ r, m' = set_hooksRegisters r m) →
    registered (fmForks m) (fmEpochSize m) (before ++ fs) (foldl (λ m fork, initializeHooksRegister (fType fork) m) m' fs) ∧
    ∃ r, foldl (λ m fork, initializeHooksRegister (fType fork) m) m' fs = set_hooksRegisters r m) as Hf.
  { induction fs as [|f fs IH]; intros before m' Hr Hx; [by rewrite app_nil_r|]. cbn [foldl].
    change (f :: fs) with ([f] ++ fs). rewrite app_assoc. destruct Hx as (r & ->).
    destruct (initializeHooksRegister_spec before f (set_hooksRegisters r m) Hr) as [Hr' (r' & Er')].
    apply IH; [done|]. exists r'. by rewrite Er'. }
  apply (Hf (fmForks m) [] m); [|exists (hooksRegisters m); by destruct m].
  intros t. by rewrite E, lookup_empty.
Qed.

Lemma runs_minv forks epochSize bc m :
  phases 0 forks → 0 < epochSize → runs forks epochSize bc m → minv forks epochSize bc m.
Proof.
  intros Hp He. induction 1 as [bc m0 m E0 E|bc m bc' m' _ IH Hx Hstep].
  - unfold NewForkManager in E0. cbn [mbind result_bind] in E0.
    apply (initializeKeyManagers_spec _ []) in E0 as (Hk & Ef & Ee & Ev & Eh).
    2:{ split; cbn; [intros t km; by rewrite lookup_empty|by intros f Hf%elem_of_nil]. }
    cbn in Ef, Ee, Ev, Eh. unfold Initialize in E. apply result_bind_returns in E as (m1 & E1 & [= <-]).
    apply (initializeValidatorStores_spec _ []) in E1 as [[Hs Ho] (v & ->)].
    2:{ split; [by intros f Hf%elem_of_nil|]. intros src st. by rewrite Ev, lookup_empty. }
    destruct (initializeHooksRegisters_spec (set_validatorStores v m0)) as [Hr (r & Er)]; [done|].
    rewrite Er in Hr |- *. cbn [set_validatorStores set_hooksRegisters fmForks fmEpochSize keyManagers validatorStores] in *.
    rewrite Ef, Ee in Hr. rewrite Ef in Hs. by split.
  - assert (minv forks epochSize bc' m) as Hm.
    { destruct IH as [Hf Hep Hk Hr Hpr Hs]. split; [done..|]. intros src st Est. eapply store_ok_mono; [done|done|by apply Hs]. }
    destruct Hstep as [h Hh|order h header p|order h header|order h header|order h block].
    + by destruct (GetValidators_minv forks epochSize bc' m h) as (f & _ & _ & ?).
    + by apply keeps_hooks.
    + by apply keeps_hooks.
    + by apply keeps_hooks.
    + by apply keeps_hooks.
Qed.

(** C22. Under proof of stake the validators of a height are those the staking
    contract has at the end of the epoch before, or before the fork where
    that is later: in every run of the manager, whatever heights were asked
    for before and whatever hooks ran in between, and although the cache
    keeps sets by height alone, the answer is that of the contract, with the
    type of validators of the fork the height is in. The block the contract
    is asked at is before the height. *)
Theorem contract_validators forks epochSize bc m h f :
  phases 0 forks → 0 < epochSize → runs forks epochSize bc m →
  0 < h → getFork forks h = Some f → fType f = PoS →
  let k := Z.max 0 (Z.max (h / epochSize * epochSize) (fFrom f) - 1) in
  k < h ∧ (GetValidators h bc m).1 = of_cerror (fetchAt bc (fValidatorType f) k).
Proof.
  intros Hp He Hr Hh Ef Et k. pose proof (runs_minv _ _ _ _ Hp He Hr) as Hm.
  destruct (getFork_phases forks 0 h Hp) as (g & Eg & [Hg _] & Hin); [lia|]. rewrite Ef in Eg. injection Eg as <-.
  split.
  { pose proof (Z.mul_div_le h epochSize He). lia. }
  destruct (GetValidators_minv forks epochSize bc m h Hp He Hh Hm) as (g & Eg & E & _). rewrite Ef in Eg. injection Eg as <-.
  rewrite E. unfold validators_of, getValidatorStoreByIBFTFork. destruct Hm as [_ Hep _ _ Hpr Hs].
  destruct (Hpr f Hin) as [st Est]. rewrite Est. rewrite Et in Est. destruct (Hs _ _ Est) as (_ & S2 & _).
  destruct (S2 eq_refl) as (c & -> & _). cbn [mjoin option_join or_error mbind result_bind]. by rewrite Hep.
Qed.

(** *** The hooks of a height *)

Lemma getFork_None fs h : getFork fs h = None ↔ Forall (λ f, covers f h = false) fs.
Proof.
  induction fs as [|f fs IH]; [by split|]. cbn [getFork]. rewrite Forall_cons. destruct (getFork fs h) as [g|].
  - split; [done|]. intros [_ Hf]. by apply IH in Hf.
  - destruct (covers f h); naive_solver.
Qed.

Lemma getFork_filter fs from h t f :
  phases from fs → getFork fs h = Some f → getFork (filterByType fs t) h = if bool_decide (fType f = t) then Some f else None.
Proof.
  revert from. induction fs as [|g fs IH]; intros from Hp E; [done|]. destruct Hp as [Hg Hp]. cbn [getFork] in E.
  unfold filterByType in *. destruct (getFork fs h) as [f'|] eqn:Ef.
  - injection E as ->. destruct (fTo g) as [to|] eqn:Et; [|by subst fs]. destruct Hp as [Hle Hp].
    assert (covers g h = false) as Hc.
    { destruct (decide (to + 1 ≤ h)); [|by rewrite (getFork_before fs (to + 1)) in Ef by (done || lia)].
      unfold covers. rewrite Et. apply andb_false_iff. right. apply Z.leb_gt. lia. }
    rewrite filter_cons. destruct (decide (fType g = t)); [|by eapply IH]. cbn [getFork].
    rewrite (IH (to + 1)) by done. rewrite Hc. by case_bool_decide.
  - destruct (covers g h) eqn:Ec; [|done]. injection E as ->.
    assert (getFork (filter (λ fork, fType fork = t) fs) h = None) as Hn.
    { apply getFork_None in Ef. apply getFork_None. apply Forall_forall. intros x [_ Hx]%list_elem_of_filter.
      rewrite Forall_forall in Ef. by apply Ef. }
    rewrite filter_cons. destruct (decide (fType f = t)) as [Hd|Hd]; [rewrite (bool_decide_true _ Hd); cbn [getFork]; by rewrite Hn, Ec|].
    by rewrite (bool_decide_false _ Hd).
Qed.

Lemma phases_from fs from f : phases from fs → f ∈ fs → from ≤ fFrom f.
Proof.
  revert from. induction fs as [|g fs IH]; intros from Hp Hf; [done|]. destruct Hp as [Hg Hp].
  apply elem_of_cons in Hf as [->|Hf]; [lia|]. destruct (fTo g) as [to|]; [|subst fs; by apply elem_of_nil in Hf].
  destruct Hp as [Hle Hp]. specialize (IH _ Hp Hf). lia.
Qed.

Lemma filter_none {A} (P : A → Prop) `{!∀ x, Decision (P x)} (l : list A) : (∀ x, x ∈ l → ¬ P x) → filter P l = [].
Proof.
  induction l as [|x l IH]; intros Hl; [done|]. rewrite filter_cons, decide_False by (apply Hl; by left).
  apply IH. intros y Hy. apply Hl. by right.
Qed.

(** At most one fork starts at a height: the one the height is in. *)
Lemma starts_last (P : IBFTFork → Prop) `{!∀ f, Decision (P f)} fs from n :
  phases from fs →
  last (filter (λ f, fFrom f = n ∧ P f) fs) = (g ← getFork fs n; if decide (fFrom g = n ∧ P g) then Some g else None).
Proof.
  revert from. induction fs as [|g fs IH]; intros from Hp; [done|]. pose proof Hp as [Hg Ht].
  assert (∀ to, fTo g = Some to → n ≤ to → filter (λ f, fFrom f = n ∧ P f) fs = []) as Hnil.
  { intros to E Hn. rewrite E in Ht. apply filter_none. intros f Hf [Hx _]. pose proof (phases_from _ _ _ (proj2 Ht) Hf). lia. }
  destruct (decide (n < from)) as [Hlt|Hge].
  - rewrite (getFork_before _ from) by done. rewrite (filter_none (λ f, fFrom f = n ∧ P f) (g :: fs)); [done|].
    intros f Hf [Hx _]. pose proof (phases_from _ _ _ Hp Hf). lia.
  - cbn [getFork]. destruct (fTo g) as [to|] eqn:Et.
    + destruct Ht as [Hle Ht]. destruct (decide (n ≤ to)) as [Hn|Hn].
      * rewrite filter_cons, (Hnil to) by done. rewrite (getFork_before fs (to + 1)) by (done || lia).
        assert (covers g n = true) as -> by (unfold covers; rewrite Et, !(proj2 (Z.leb_le _ _)) by lia; done).
        cbn [mbind option_bind]. by case_decide.
      * rewrite filter_cons, decide_False by lia. rewrite (IH (to + 1)) by done.
        destruct (getFork_phases fs (to + 1) n) as (f & Ef & _); [done|lia|]. by rewrite Ef.
    + subst fs. rewrite filter_cons. cbn [getFork]. assert (covers g n = true) as ->.
      { unfold covers. rewrite Et, (proj2 (Z.leb_le _ _)) by lia. done. }
      cbn [mbind option_bind]. by case_decide.
Qed.

(** The validators the fork that starts at a height brings along. *)
Definition brought (forks : list IBFTFork) (n : Z) : option VSet :=
  g ← getFork forks n;
  if decide (fFrom g = n ∧ fType g = PoA) then fValidators g else None.

Lemma update_fold (l : list IBFTFork) (n : Z) :
  foldl (λ m fork, if bool_decide (is_Some (fValidators fork)) then <[fFrom fork := fork]> m else m) (∅ : gmap Z IBFTFork) l !! n
  = last (filter (λ f, fFrom f = n ∧ is_Some (fValidators f)) l).
Proof.
  induction l as [|f l IH] using rev_ind; [done|]. rewrite foldl_app, filter_app. cbn [foldl].
  rewrite filter_cons, filter_nil. case_bool_decide as Hv.
  - destruct (decide (fFrom f = n)) as [Hn|Hn].
    + rewrite Hn, lookup_insert_eq, decide_True by done. by rewrite last_snoc.
    + rewrite lookup_insert_ne, decide_False, app_nil_r by naive_solver. done.
  - rewrite decide_False, app_nil_r by naive_solver. done.
Qed.

Lemma update_lookup forks n g :
  phases 0 forks → updateValidatorsForks (NewPoAHookRegisterer forks) !! n = g →
  match brought forks n with
  | Some vs => ∃ f, g = Some f ∧ f ∈ forks ∧ fType f = PoA ∧ fFrom f = n ∧ fValidators f = Some vs
  | None => g = None
  end.
Proof.
  intros Hp <-. unfold NewPoAHookRegisterer. cbn [updateValidatorsForks]. rewrite update_fold. unfold filterByType.
  rewrite list_filter_filter, (list_filter_iff _ (λ f, fFrom f = n ∧ fType f = PoA ∧ is_Some (fValidators f))) by tauto.
  rewrite (starts_last (λ f, fType f = PoA ∧ is_Some (fValidators f)) _ 0) by done.
  unfold brought. destruct (getFork forks n) as [f|] eqn:Ef; [|done]. cbn [mbind option_bind].
  assert (f ∈ forks) as Hin.
  { destruct (decide (0 ≤ n)); [|by rewrite (getFork_before _ 0) in Ef by (done || lia)].
    destruct (getFork_phases forks 0 n) as (f' & Ef' & _ & Hin); [done..|]. by rewrite Ef in Ef'; simplify_eq. }
  destruct (decide (fFrom f = n ∧ fType f = PoA)) as [[Hn Ht]|Hno]; [|by rewrite decide_False by naive_solver].
  destruct (fValidators f) as [vs|] eqn:Ev; [|by rewrite decide_False by naive_solver].
  rewrite decide_True by naive_solver. exists f. naive_solver.
Qed.

(** Each key of the map once. *)
Definition visits (order : list IBFTType) (m : ForkManager) : Prop :=
  NoDup order ∧ ∀ t, t ∈ order ↔ is_Some (hooksRegisters m !! t).

Definition hooks_at (forks : list IBFTFork) (epochSize : Z) (m : ForkManager) (h : Z) : Hooks :=
  PoS_RegisterHooks StakingSCBytecode (NewPoSHookRegister forks epochSize)
    (PoA_RegisterHooks m (NewPoAHookRegisterer forks) newHooks h) h.

Lemma register_commute m r r' hk h :
  PoS_RegisterHooks StakingSCBytecode r (PoA_RegisterHooks m r' hk h) h = PoA_RegisterHooks m r' (PoS_RegisterHooks StakingSCBytecode r hk h) h.
Proof.
  unfold PoS_RegisterHooks, PoA_RegisterHooks, registerHeaderModifierHooks, registerUpdateValidatorsHooks.
  destruct (getFork (poaForks r') h) as [f|], (updateValidatorsForks r' !! _) as [g|]; cbn;
    repeat match goal with |- context [getValidatorStoreByIBFTFork ?m ?f] => destruct (getValidatorStoreByIBFTFork m f) as [[]|] end;
    try destruct (fValidators g); destruct (getFork (posForks r) h), (deployContractForks r !! h); done.
Qed.

Lemma no_forks forks t : t ∉ fType <$> forks → filterByType forks t = [].
Proof. intros Hn. apply filter_none. intros f Hf Ht. apply Hn. apply list_elem_of_fmap. by exists f. Qed.

Lemma GetHooks_at forks epochSize m order h :
  registered forks epochSize forks m → visits order m → GetHooks order m h = hooks_at forks epochSize m h.
Proof.
  intros Hr [Hnd Hv].
  assert (∀ t, t ∈ order ↔ t ∈ fType <$> forks ∧ (t = PoA ∨ t = PoS)) as Ho.
  { intros t. rewrite Hv, Hr. unfold register_at. repeat case_bool_decide; split; intros Hx; try naive_solver; by destruct Hx. }
  assert (hooksRegisters m !! PoA = if bool_decide (PoA ∈ fType <$> forks) then Some (registerPoA (NewPoAHookRegisterer forks)) else None) as HA by apply Hr.
  assert (hooksRegisters m !! PoS = if bool_decide (PoS ∈ fType <$> forks) then Some (registerPoS (NewPoSHookRegister forks epochSize)) else None) as HS by apply Hr.
  assert (PoA ≠ PoS) as Hne by done.
  unfold IbftFork.GetHooks, hooks_at.
  destruct (decide (PoA ∈ fType <$> forks)) as [Ba|Ba], (decide (PoS ∈ fType <$> forks)) as [Bs|Bs];
    rewrite ?(bool_decide_true _ Ba), ?(bool_decide_false _ Ba) in HA; rewrite ?(bool_decide_true _ Bs), ?(bool_decide_false _ Bs) in HS.
  - assert (order ≡ₚ [PoA; PoS]) as Hperm.
    { apply NoDup_Permutation; [done|by repeat constructor; set_solver|]. intros t. rewrite Ho. set_solver. }
    symmetry in Hperm. apply Permutation_length_2_inv in Hperm as [->| ->]; cbn [foldl]; rewrite HA, HS; [done|].
    symmetry. apply register_commute.
  - assert (order ≡ₚ [PoA]) as Hperm.
    { apply NoDup_Permutation; [done|apply NoDup_singleton|]. intros t. rewrite Ho, list_elem_of_singleton.
      split; [intros [Hx [Et|Et]]; subst t; done|intros ->; auto]. }
    symmetry in Hperm. apply Permutation_length_1_inv in Hperm as ->. cbn [foldl]. rewrite HA.
    unfold PoS_RegisterHooks, NewPoSHookRegister. by rewrite (no_forks forks PoS).
  - assert (order ≡ₚ [PoS]) as Hperm.
    { apply NoDup_Permutation; [done|apply NoDup_singleton|]. intros t. rewrite Ho, list_elem_of_singleton.
      split; [intros [Hx [Et|Et]]; subst t; done|intros ->; auto]. }
    symmetry in Hperm. apply Permutation_length_1_inv in Hperm as ->. cbn [foldl]. rewrite HS.
    unfold PoA_RegisterHooks, NewPoAHookRegisterer. by rewrite (no_forks forks PoA).
  - assert (order = []) as ->.
    { apply elem_of_nil_inv. intros t. rewrite Ho. intros [Hx [Et|Et]]; subst t; auto. }
    unfold PoA_RegisterHooks, NewPoAHookRegisterer, PoS_RegisterHooks, NewPoSHookRegister.
    by rewrite (no_forks forks PoA), (no_forks forks PoS).
Qed.

(** The fork of a height and the store of a fork under proof of authority. *)
Lemma snapshot_store forks epochSize bc m g :
  minv forks epochSize bc m → g ∈ forks → fType g = PoA →
  ∃ s, validatorStores m !! SnapshotSource = Some (Some (SnapshotValidatorStoreWrapper s)) ∧
    getValidatorStoreByIBFTFork m g = Some (SnapshotValidatorStoreWrapper s).
Proof.
  intros Hm Hin Ht. destruct (minv_present _ _ _ _ Hm g Hin) as [st Est]. pose proof Est as Est'. rewrite Ht in Est'.
  destruct (minv_stores _ _ _ _ Hm _ _ Est') as [S1 _]. destruct (S1 eq_refl) as [s ->]. exists s. split; [done|].
  unfold getValidatorStoreByIBFTFork. by rewrite Est.
Qed.

Lemma post_hook forks epochSize bc m h b :
  phases 0 forks → minv forks epochSize bc m → 0 < h < 2 ^ 64 - 1 → Block_Number b = h →
  PostInsertBlock (hooks_at forks epochSize m h) b bc m =
    match brought forks (h + 1) with
    | Some vs => on_snapshot (λ bc _ s, s ← Snapshot.UpdateValidatorSet bc vs (h + 1) s; Returns (tt, s)) bc m
    | None => (Returns tt, m)
    end.
Proof.
  intros Hp Hm Hh Hb. unfold hooks_at. rewrite register_commute. unfold PoA_RegisterHooks at 1. rewrite (u64_small (h + 1)) by lia.
  pose proof (update_lookup forks (h + 1) _ Hp eq_refl) as Hu.
  set (hk := match getFork _ h with Some _ => _ | None => _ end).
  assert (PostInsertBlockFunc hk = None) as Hk.
  { unfold hk, registerHeaderModifierHooks, PoS_RegisterHooks. by repeat case_match. }
  destruct (brought forks (h + 1)) as [vs|].
  - destruct Hu as (f & -> & Hin & Ht & Hf & Ev). rewrite Ev, Hf.
    destruct (snapshot_store _ _ _ _ _ Hm Hin Ht) as (s & _ & ->). unfold PostInsertBlock.
    cbn [registerUpdateValidatorsHooks PostInsertBlockFunc]. by rewrite Hb, (u64_small (h + 1)), Z.eqb_refl by lia.
  - rewrite Hu. unfold PostInsertBlock. by rewrite Hk.
Qed.

Lemma guard_hooks forks epochSize m h f :
  phases 0 forks → 0 < epochSize → 0 < h → getFork forks h = Some f →
  let quiet := bool_decide (fType f = PoS) && (h mod epochSize =? 0) in
  ShouldWriteTransactions (hooks_at forks epochSize m h) h = Returns (negb quiet) ∧
  ∀ b, Block_Number b = h → VerifyBlock (hooks_at forks epochSize m h) b =
    (if quiet && (0 <? zlen (bTransactions b)) then Errors ErrTxInLastEpochOfBlock else Returns tt).
Proof.
  intros Hp He Hh Hf quiet. unfold hooks_at. set (hk := PoA_RegisterHooks _ _ _ _).
  assert (ShouldWriteTransactionFunc hk = None ∧ VerifyBlockFunc hk = None) as [K1 K2].
  { unfold hk, PoA_RegisterHooks, registerHeaderModifierHooks, registerUpdateValidatorsHooks. by repeat case_match. }
  unfold PoS_RegisterHooks. cbn [posForks posEpochSize NewPoSHookRegister].
  rewrite (getFork_filter forks 0 h PoS f) by done. unfold quiet.
  assert (isLastEpoch epochSize h = Returns (h mod epochSize =? 0)) as Hl.
  { unfold isLastEpoch. rewrite (proj2 (Z.ltb_lt _ _)), (proj2 (Z.eqb_neq _ _)) by lia. done. }
  destruct (bool_decide (fType f = PoS)), (deployContractForks _ !! h);
    unfold ShouldWriteTransactions, VerifyBlock; cbn [registerStakingContractDeploymentHooks registerTxInclusionGuardHooks ShouldWriteTransactionFunc VerifyBlockFunc];
    rewrite ?K1, ?K2, ?Hl; (split; [done|]); intros b Hb; rewrite ?Hb, ?Hl; done.
Qed.

(** The hooks for votes are registered in one place. *)
Lemma vote_fields m r r' hk h :
  let hk1 := match getFork (poaForks r') h with
    | Some currentFork => registerHeaderModifierHooks hk (getValidatorStoreByIBFTFork m currentFork) | None => hk end in
  let hk2 := PoS_RegisterHooks StakingSCBytecode r (PoA_RegisterHooks m r' hk h) h in
  ModifyHeaderFunc hk2 = ModifyHeaderFunc hk1 ∧ VerifyHeaderFunc hk2 = VerifyHeaderFunc hk1 ∧
  ProcessHeaderFunc hk2 = ProcessHeaderFunc hk1.
Proof.
  intros hk1 hk2. unfold hk2, PoA_RegisterHooks. fold hk1. generalize hk1. clear hk1 hk2. intros hk1.
  assert (∀ st vs n, ModifyHeaderFunc (registerUpdateValidatorsHooks hk1 st vs n) = ModifyHeaderFunc hk1 ∧
    VerifyHeaderFunc (registerUpdateValidatorsHooks hk1 st vs n) = VerifyHeaderFunc hk1 ∧
    ProcessHeaderFunc (registerUpdateValidatorsHooks hk1 st vs n) = ProcessHeaderFunc hk1) as Hu.
  { by intros [[]|] vs n. }
  unfold PoS_RegisterHooks. destruct (getFork (posForks r) h), (deployContractForks r !! h), (updateValidatorsForks r' !! _) as [g|];
    try destruct (fValidators g); try done; apply Hu.
Qed.

(** A header carries a vote to add or a vote to drop a validator. *)
Definition vote_nonce (header : Header) : Prop := hNonce header = nonceAuthVote ∨ hNonce header = nonceDropVote.

#[local] Instance vote_nonce_dec header : Decision (vote_nonce header).
Proof. unfold vote_nonce. apply _. Defined.

Lemma vote_hooks forks epochSize bc m h f header p :
  phases 0 forks → minv forks epochSize bc m → 0 < h → getFork forks h = Some f →
  let hooks := hooks_at forks epochSize m h in
  hooks_ModifyHeader hooks header p bc m =
    (if bool_decide (fType f = PoA) then on_snapshot (λ _ _ s, Snapshot.ModifyHeader header p s) bc m else (Returns header, m)) ∧
  hooks_VerifyHeader hooks header bc m =
    ((if bool_decide (fType f = PoA ∧ ¬ vote_nonce header) then Errors (errSnapshotStore ErrInvalidNonce) else Returns tt), m) ∧
  hooks_ProcessHeader hooks header bc m =
    (if bool_decide (fType f = PoA) then
       on_snapshot (λ _ m s, s ← Snapshot.ProcessHeader (getSignerInterface m) (fmEpochSize m) header s; Returns (tt, s)) bc m
     else (Returns tt, m)).
Proof.
  intros Hp Hm Hh Hf hooks.
  destruct (getFork_phases forks 0 h Hp) as (g & Eg & _ & Hin); [lia|]. rewrite Hf in Eg. injection Eg as <-.
  destruct (vote_fields m (NewPoSHookRegister forks epochSize) (NewPoAHookRegisterer forks) newHooks h) as (V1 & V2 & V3).
  unfold hooks, hooks_at, hooks_ModifyHeader, hooks_VerifyHeader, hooks_ProcessHeader. rewrite V1, V2, V3.
  cbn [poaForks NewPoAHookRegisterer]. rewrite (getFork_filter forks 0 h PoA f) by done.
  destruct (decide (fType f = PoA)) as [Ht|Ht].
  2: { rewrite !(bool_decide_eq_false_2 (fType f = PoA)), bool_decide_eq_false_2 by tauto. done. }
  rewrite !(bool_decide_eq_true_2 (fType f = PoA)) by done.
  destruct (snapshot_store _ _ _ _ _ Hm Hin Ht) as (s & Es & ->). split_and!; [done| |done].
  cbn [registerHeaderModifierHooks VerifyHeaderFunc]. unfold on_snapshot, svVerifyHeader. rewrite Es.
  destruct (decide (vote_nonce header)) as [Hn|Hn].
  - rewrite (bool_decide_eq_false_2 (fType f = PoA ∧ _)) by tauto.
    replace (_ && _) with false by (destruct Hn as [-> | ->]; by repeat case_bool_decide).
    cbn [mbind result_bind]. rewrite insert_id by done. by destruct m.
  - rewrite (bool_decide_eq_true_2 (fType f = PoA ∧ _)) by tauto.
    rewrite !bool_decide_eq_false_2 by (unfold vote_nonce in Hn; tauto). done.
Qed.

(** The fork that deploys the staking contract at a height: the last of
    those under proof of stake that name it. *)
Definition deploys (forks : list IBFTFork) (h : Z) : option IBFTFork :=
  last (filter (λ f, fType f = PoS ∧ fDeployment f = Some h) forks).

Lemma deploy_fold (l : list IBFTFork) (n : Z) :
  foldl (λ m fork, match fDeployment fork with Some n => <[n := fork]> m | None => m end) (∅ : gmap Z IBFTFork) l !! n
  = last (filter (λ f, fDeployment f = Some n) l).
Proof.
  induction l as [|f l IH] using rev_ind; [done|]. rewrite foldl_app, filter_app. cbn [foldl].
  rewrite filter_cons, filter_nil. destruct (fDeployment f) as [k|] eqn:Ek.
  - destruct (decide (k = n)) as [->|Hn].
    + rewrite lookup_insert_eq, decide_True by done. by rewrite last_snoc.
    + rewrite lookup_insert_ne, decide_False, app_nil_r by naive_solver. done.
  - rewrite decide_False, app_nil_r by done. done.
Qed.

Lemma deploy_hook forks epochSize m h header txn :
  hNumber header = h →
  PreCommitState (hooks_at forks epochSize m h) header txn =
    match deploys forks h with
    | Some f =>
        let '(codeBytes, ok) := DecodeHex StakingSCBytecode in
        if stx_AccountExists txn AddrStakingContract then
          if ok then stx_SetCodeDirectly txn AddrStakingContract codeBytes else Errors errHex
        else stx_SetAccountDirectly txn AddrStakingContract
               (PredeployStakingSC codeBytes (fValidators f) (getPreDeployParams f))
    | None => Returns txn
    end.
Proof.
  intros Hn. unfold hooks_at. set (hk := PoA_RegisterHooks _ _ _ _).
  assert (PreCommitStateFunc hk = None) as K.
  { unfold hk, PoA_RegisterHooks, registerHeaderModifierHooks, registerUpdateValidatorsHooks. by repeat case_match. }
  unfold PoS_RegisterHooks. cbn [deployContractForks NewPoSHookRegister posForks posEpochSize]. rewrite deploy_fold.
  unfold filterByType. rewrite list_filter_filter. unfold deploys.
  rewrite (list_filter_iff _ (λ f, fType f = PoS ∧ fDeployment f = Some h)) by tauto.
  set (hk' := match getFork _ h with Some _ => _ | None => _ end).
  assert (PreCommitStateFunc hk' = None) as K' by (unfold hk'; by case_match).
  destruct (last _) as [f|] eqn:Ef; unfold PreCommitState; [|by rewrite K'].
  apply last_Some in Ef as [l Ef]. assert (f ∈ filter (λ f, fType f = PoS ∧ fDeployment f = Some h) forks) as Hf.
  { rewrite Ef. apply elem_of_app. right. by left. }
  apply list_elem_of_filter in Hf as [[_ Hd] _]. cbn [registerStakingContractDeploymentHooks PreCommitStateFunc].
  rewrite Hd. cbn [or_panic mbind result_bind]. by rewrite Hn, Z.eqb_refl.
Qed.

(** C23. All seven hooks of a height are those of its fork, in whatever order
    the map of registers is visited. Under proof of stake, and only there,
    the last block of an epoch takes no transactions, and a proposal with
    some is refused. At the deployment height of a fork under proof of
    stake, and at no other, the staking contract is deployed with the fork's
    validators and limits, or its code replaced when the account exists.
    Under proof of authority, and only there, headers carry and count votes
    and a header whose nonce is no vote is refused. The block before a fork
    that brings its validators along replaces the set in the snapshot store,
    and no other block does. *)
Theorem height_hooks forks epochSize bc m order h f :
  phases 0 forks → 0 < epochSize → runs forks epochSize bc m → visits order m →
  0 < h < 2 ^ 64 - 1 → getFork forks h = Some f →
  let hooks := GetHooks order m h in
  let quiet := bool_decide (fType f = PoS) && (h mod epochSize =? 0) in
  ShouldWriteTransactions hooks h = Returns (negb quiet) ∧
  (∀ b, Block_Number b = h →
     VerifyBlock hooks b =
       (if quiet && (0 <? zlen (bTransactions b)) then Errors ErrTxInLastEpochOfBlock else Returns tt) ∧
     PostInsertBlock hooks b bc m =
       match brought forks (h + 1) with
       | Some vs => on_snapshot (λ bc _ s, s ← Snapshot.UpdateValidatorSet bc vs (h + 1) s; Returns (tt, s)) bc m
       | None => (Returns tt, m)
       end) ∧
  (∀ header txn, hNumber header = h →
     PreCommitState hooks header txn =
       match deploys forks h with
       | Some f =>
           let '(codeBytes, ok) := DecodeHex StakingSCBytecode in
           if stx_AccountExists txn AddrStakingContract then
             if ok then stx_SetCodeDirectly txn AddrStakingContract codeBytes else Errors errHex
           else stx_SetAccountDirectly txn AddrStakingContract
                  (PredeployStakingSC codeBytes (fValidators f) (getPreDeployParams f))
       | None => Returns txn
       end) ∧
  (∀ header p,
     hooks_ModifyHeader hooks header p bc m =
       (if bool_decide (fType f = PoA) then on_snapshot (λ _ _ s, Snapshot.ModifyHeader header p s) bc m
        else (Returns header, m)) ∧
     hooks_VerifyHeader hooks header bc m =
       ((if bool_decide (fType f = PoA ∧ ¬ vote_nonce header) then Errors (errSnapshotStore ErrInvalidNonce)
         else Returns tt), m) ∧
     hooks_ProcessHeader hooks header bc m =
       (if bool_decide (fType f = PoA) then
          on_snapshot (λ _ m s, s ← Snapshot.ProcessHeader (getSignerInterface m) (fmEpochSize m) header s; Returns (tt, s)) bc m
        else (Returns tt, m))).
Proof.
  intros Hp He Hr Hv Hh Hf hooks quiet. pose proof (runs_minv _ _ _ _ Hp He Hr) as Hm.
  unfold hooks. rewrite (GetHooks_at forks epochSize m order h (minv_registers _ _ _ _ Hm) Hv). split_and!.
  - apply guard_hooks; try done; lia.
  - intros b Hb. split; [apply guard_hooks; try done; lia|by apply post_hook].
  - intros header txn. apply deploy_hook.
  - intros header p. apply vote_hooks; try done; lia.
Qed.

(** A snapshot with the highest number is found again. *)
Lemma put_find `{!SortSnapsLaws} x s :
  increasing (snaps s) → (∀ y, y ∈ snaps s → snNumber y ≤ snNumber x) → find (snNumber x) (putByNumber x s) = Some x.
Proof.
  intros Hi Hle. unfold putByNumber.
  destruct (decide (Forall (λ y, snNumber y < snNumber x) (snaps s))) as [Hlt|Hnot].
  - rewrite Forall_forall in Hlt.
    assert (sortSearch (length (snaps s)) (at_index (λ y, snNumber y =? snNumber x) (snaps s)) = length (snaps s)) as ->.
    { apply sortSearch_spec; [done| |lia]. intros k Hk. unfold at_index. destruct (snaps s !! k) as [y|] eqn:Ey; [|done].
      pose proof (Hlt y (list_elem_of_lookup_2 _ _ _ Ey)). apply Z.eqb_neq. lia. }
    rewrite Nat.ltb_irrefl.
    assert (increasing (snaps s ++ [x])) as Hix.
    { apply increasing_app. split; [done|]. split; [by apply increasing_cons; split; constructor|].
      intros y z Hy ->%list_elem_of_singleton. by apply Hlt. }
    rewrite (sorted_increasing (snaps s ++ [x]) (sortSnaps (snaps s ++ [x]))); [|done|apply sortSnaps_perm|apply sortSnaps_sorted].
    apply (find_serves _ _ (snaps s) x []); [done|]. split; [done|]. split; [right; lia|constructor].
  - destruct (last (snaps s)) as [z|] eqn:Ez.
    2:{ apply last_None in Ez. rewrite Ez in Hnot. destruct Hnot. constructor. }
    apply last_Some in Ez as [l El]. rewrite El in Hi, Hle, Hnot |- *. pose proof Hi as (_ & _ & Hlz)%increasing_app.
    assert (snNumber z = snNumber x) as Hz.
    { destruct (decide (snNumber z = snNumber x)) as [|Hne]; [done|]. destruct Hnot. apply Forall_app.
      pose proof (Hle z ltac:(set_solver)). split; [|constructor; [lia|constructor]].
      apply Forall_forall. intros y Hy. pose proof (Hlz y z Hy ltac:(by left)). lia. }
    assert (sortSearch (length (l ++ [z])) (at_index (λ y, snNumber y =? snNumber x) (l ++ [z])) = length l) as ->.
    { apply sortSearch_spec; [rewrite length_app; lia| |].
      - intros k Hk. unfold at_index. destruct ((l ++ [z]) !! k) as [y|] eqn:Ey; [|done]. rewrite lookup_app_l in Ey by done.
        pose proof (Hlz y z (list_elem_of_lookup_2 _ _ _ Ey) ltac:(by left)). apply Z.eqb_neq. lia.
      - intros k Hk. rewrite length_app in Hk. cbn in Hk. assert (k = length l) as -> by lia. unfold at_index.
        rewrite list_lookup_middle by done. by apply Z.eqb_eq. }
    rewrite (proj2 (Nat.ltb_lt _ _)) by (rewrite length_app; cbn; lia).
    assert (<[length l := x]> (l ++ [z]) = l ++ [x]) as ->.
    { replace (length l) with (length l + 0)%nat by lia. by rewrite insert_app_r. }
    apply (find_serves _ _ l x []); cbn [snaps set_snaps].
    + apply increasing_app. apply increasing_app in Hi as (Hil & _). split; [done|].
      split; [by apply increasing_cons; split; constructor|]. intros y w Hy ->%list_elem_of_singleton.
      pose proof (Hlz y z Hy ltac:(by left)). lia.
    + split; [done|]. split; [right; lia|constructor].
Qed.

(** A fork brings its validators: once the block before it is inserted and
    its hook has run, they are the validators of its first height. *)
Theorem validators_switch `{!SortSnapsLaws} forks epochSize bc m order h s vs header b :
  phases 0 forks → 0 < epochSize → runs forks epochSize bc m → visits order m → 0 < h < 2 ^ 64 - 1 →
  brought forks (h + 1) = Some vs →
  validatorStores m !! SnapshotSource = Some (Some (SnapshotValidatorStoreWrapper s)) →
  increasing (snaps (svStore s)) → (∀ x, x ∈ snaps (svStore s) → snNumber x ≤ h) →
  hgGetHeaderByNumber bc h = Some header → hNumber header = h → Block_Number b = h →
  let '(r, m') := PostInsertBlock (GetHooks order m h) b bc m in
  r = Returns tt ∧ ∀ bc', (GetValidators (h + 1) bc' m').1 = Returns vs.
Proof.
  intros Hp He Hr Hv Hh Hvs Es Hi Hle Hhd Hn Hb. pose proof (runs_minv _ _ _ _ Hp He Hr) as Hm.
  rewrite (GetHooks_at forks epochSize m order h (minv_registers _ _ _ _ Hm) Hv), (post_hook forks epochSize bc m h b), Hvs by done.
  unfold on_snapshot. rewrite Es. unfold Snapshot.UpdateValidatorSet. rewrite (u64_small (h + 1 - 1)) by lia.
  replace (h + 1 - 1) with h by lia. rewrite Hhd. cbn [or_error mbind result_bind]. split; [done|]. intros bc'.
  unfold brought in Hvs. unfold IbftFork.GetValidators. cbn [set_validatorStores fmForks]. rewrite (minv_forks _ _ _ _ Hm).
  destruct (getFork forks (h + 1)) as [g|]; [|done]. cbn [mbind option_bind] in Hvs.
  destruct (decide _) as [[_ Ht]|]; [|done]. unfold getValidatorStoreByIBFTFork. cbn [set_validatorStores validatorStores].
  rewrite Ht. change (ibftTypesToSourceType PoA) with SnapshotSource. rewrite lookup_insert_eq.
  cbn [mjoin option_join store_GetValidators fst]. unfold Snapshot.GetValidatorsByHeight. cbn [svStore set_store].
  rewrite (u64_small (h + 1 - 1)) by lia. replace (h + 1 - 1) with h by lia.
  pose proof (put_find (mkSnap (hNumber header) (Hash_String (hHash header)) [] vs) (svStore s) Hi) as Hput.
  cbn [snNumber] in Hput. rewrite Hn in Hput |- *. by rewrite Hput.
Qed.

End manager.

(** ** An example: a chain under proof of stake whose validators change from
    ECDSA to BLS keys at height 8, with epochs of 5 blocks. The contract
    answers with one validator, whose address is the number of the block. *)

Module ForkExample.

#[export] Existing Instances tree_fastrlp tree_rlp plain_curve unit_bls low_keccak merge_sort_snaps.

#[export] Instance number_abi : StakingABI := {|
  abi_method := list Z; abi_Methods := Some; abi_ID name := name;
  abi_Decode name answer := Some (decodedMap (λ _,
    Some (if bool_decide (name = methodValidators) then web3Addresses [be_encode 20 (be_decode answer)] else web3Bytes [answer])));
|}.

#[export] Instance number_transition : TxQueryHandler := {|
  transition := Z;
  Apply t _ := (Returns {| ReturnValue := be_encode 8 t; GasLeft := 0; GasUsed := 0; Err := None |}, t);
  GetNonce _ _ := 0;
|}.

#[export] Instance no_transition : StakingTransition := {|
  stx := unit; stx_AccountExists _ _ := false;
  stx_SetCodeDirectly t _ _ := Returns t; stx_SetAccountDirectly t _ _ := Returns t;
|}.

Definition begin (root : Hash) (header : Header) (_ : Address) : result cerror transition := Returns (hNumber header).

Definition header_at (n : Z) : Header :=
  mkHeader ZeroHash ZeroHash [] ZeroHash ZeroHash ZeroHash [] n n 0 0 0 [] ZeroHash [] ZeroHash.

Definition chain_of (n : Z) : HeaderGetter := {|
  hgHeader := header_at n;
  hgGetHeaderByNumber i := if (0 <=? i) && (i <=? n) then Some (header_at i) else None;
|}.

Definition example_forks : list IBFTFork :=
  [mkFork PoS ECDSAValidatorType None 0 (Some 7) None None None;
   mkFork PoS BLSValidatorType None 8 None None None None].

Definition ecdsaSecret : option (@privkey plain_curve) := Some (demo_privkey 1).
Definition blsSecret : option (@bls_secret unit_bls) := Some tt.

Definition unset : ForkManager := mkForkManager [] 0 ∅ ∅ ∅.

Definition created : ForkManager :=
  returned unset (NewForkManager ecdsaSecret blsSecret (Returns example_forks) 5).
Definition started : ForkManager := returned unset (Initialize (Returns None) (Returns []) (chain_of 0) created).

Definition succeeds {E A} (r : result E A) : bool := match r with Returns _ => true | _ => false end.

Lemma succeeds_returned {E A} (d : A) (r : result E A) : succeeds r = true → r = Returns (returned d r).
Proof. by destruct r. Qed.

(** The validators of heights 3 and 9 are asked for while the chain grows. *)
Definition once : ForkManager := (GetValidators begin 3 (chain_of 2) started).2.
Definition asked : ForkManager := (GetValidators begin 9 (chain_of 8) once).2.

Lemma chain_extends n n' : n ≤ n' → extends (chain_of n) (chain_of n').
Proof.
  intros Hn i header. cbn. destruct (0 <=? i); [|done]. cbn. destruct (Z.leb_spec i n); [|done].
  by rewrite (proj2 (Z.leb_le _ _)) by lia.
Qed.

Definition example_runs := runs begin ecdsaSecret blsSecret (Returns None) (Returns []) [] example_forks 5.

Lemma asked_runs : example_runs (chain_of 8) asked.
Proof.
  assert (example_runs (chain_of 0) started) as R0.
  { refine (run_start _ _ _ _ _ _ _ _ (chain_of 0) created started _ _);
      apply succeeds_returned; vm_compute; reflexivity. }
  assert (example_runs (chain_of 2) once) as R1.
  { refine (run_step _ _ _ _ _ _ _ _ (chain_of 0) started (chain_of 2) once R0 _ (step_validators _ _ _ _ 3 _));
      [by apply chain_extends|done]. }
  refine (run_step _ _ _ _ _ _ _ _ (chain_of 2) once (chain_of 8) asked R1 _ (step_validators _ _ _ _ 9 _));
    [by apply chain_extends|done].
Qed.

Lemma example_phases : phases 0 example_forks.
Proof. split; [done|]. split; [done|]. by split. Qed.

(** The answer for height 8 is cached by then, as it was asked for height 9. *)
Lemma contract_validators_witness :
  (GetValidators begin 8 (chain_of 8) asked).1 = Returns (NewBLSValidatorSet [(be_encode 20 7, be_encode 8 7)]).
Proof.
  rewrite (proj2 (contract_validators begin ecdsaSecret blsSecret (Returns None) (Returns []) [] example_forks 5
    (chain_of 8) asked 8 (mkFork PoS BLSValidatorType None 8 None None None None)
    example_phases eq_refl asked_runs eq_refl eq_refl eq_refl)).
  vm_compute. reflexivity.
Defined.

Lemma asked_registered : registered example_forks 5 example_forks asked.
Proof. eapply minv_registers, runs_minv; [exact example_phases|done|exact asked_runs]. Qed.

Lemma height_hooks_witness : ShouldWriteTransactions (GetHooks [] [PoS] asked 10) 10 = Returns false.
Proof.
  refine (proj1 (height_hooks begin ecdsaSecret blsSecret (Returns None) (Returns []) [] example_forks 5
    (chain_of 8) asked [PoS] 10 (mkFork PoS BLSValidatorType None 8 None None None None)
    example_phases eq_refl asked_runs _ _ eq_refl)); [|done].
  split; [apply NoDup_singleton|]. intros t.
  rewrite asked_registered, list_elem_of_singleton.
  unfold register_at. split; [intros ->; by eexists|]. intros [r Hr].
  case_bool_decide as Ht; [|done]. by repeat (apply elem_of_cons in Ht as [Ht|Ht]; [exact Ht|]); apply elem_of_nil in Ht.
Defined.

End ForkExample.
