(* ===== verification/ConsensusBackend.v ===== *)
(** * Building and checking blocks (consensus/ibft: consensus_backend.go, verifier.go, messages.go)

    The IBFT library drives the rounds; it asks the node to build a
    proposal, to check the proposals, messages and seals of others, and to
    insert the block a round agreed on. The struct [backendIBFT] and some of
    its methods are not in the sources: its fields are a record here, and
    the missing methods, the chain, the pool and the protocol buffers are
    parameters. Times are nanoseconds since the zero time of package time.

    Writing transactions stops at a deadline: the number of transactions
    that are tried before it is an argument. *)

From Stdlib Require Import String.
From stdpp Require Import gmap.
From S2P Require Import Prelude BigInt Types Runtime Rlp BlockTypes Hex Result Radix Txn Trie Hasher Validators Quorum Crypto Signer Snapshot Staking ContractStore IbftFork BuildRoot Executor.
#[local] Open Scope Z_scope.

(** ** Times *)

Definition Second : Z := 10 ^ 9.
Definition unixToInternal : Z := 62135596800.

Definition time_Unix (sec : Z) : Z := (sec + unixToInternal) * Second.
Definition Time_Unix (t : Z) : Z := t / Second - unixToInternal.

(** [Time.Round]: halfway values round up. *)
Definition Time_Round (t d : Z) : Z :=
  if d <=? 0 then t else
  let r := t mod d in
  if r + r <? d then t - r else t + (d - r).

Definition roundUpTime (t roundOn : Z) : Z := Time_Round (t + Z.quot roundOn 2) roundOn.

Definition calcHeaderTimestamp (blockTime parentUnix currentTime : Z) : Z :=
  let potentialTimestamp := time_Unix (i64 parentUnix) + blockTime in
  if potentialTimestamp <? currentTime then roundUpTime currentTime blockTime else potentialTimestamp.

(** ** Writing transactions *)

(** The pool as the backend uses it. [Peek] may take the transaction it
    returns off a heap. *)
Class txPoolInterface := {
  pool : Type;
  pool_Prepare : pool → pool;
  pool_Peek : pool → option Transaction * pool;
  pool_Pop : pool → Transaction → pool;
  pool_Drop : pool → Transaction → pool;
  pool_Demote : pool → Transaction → pool;
  pool_ResetWithHeaders : pool → Header → pool;
}.

(** What the error of a failed write says, and the transition it leaves. *)
Inductive writeError := gasLimitReached | applicationError (isRecoverable : bool) | otherWriteError.

Class TransitionErrors `{TransitionMethods} := {
  T_WriteError : Transition → Transaction → writeError;
  T_AfterError : Transition → Transaction → Transition;
}.

Inductive status := success | fail | skip.

Section writing.
Context `{!Radix, !Lru Address (list Z), !TransitionMethods, !TransitionErrors, !txPoolInterface}.

(** [None]: processing stops. A panic of the transition is a panic. *)
Definition writeTransaction (tx : option Transaction) (txn : Transition) (p : pool) (gasLimit : Z) :
    result unit (option (Transaction * status) * Transition * pool) :=
  match tx with
  | None => Returns (None, txn, p)
  | Some tx =>
      if ExceedsBlockGasLimit tx gasLimit then
        match T_WriteFailedReceipt txn tx with
        | Returns txn => Returns (Some (tx, fail), txn, pool_Drop p tx)
        | Errors _ => Returns (Some (tx, fail), T_AfterError txn tx, pool_Drop p tx)
        | Panics => Panics
        end
      else
        match T_Write txn tx with
        | Returns txn => Returns (Some (tx, success), txn, pool_Pop p tx)
        | Errors _ =>
            let txn' := T_AfterError txn tx in
            match T_WriteError txn tx with
            | gasLimitReached => Returns (None, txn', p)
            | applicationError true => Returns (Some (tx, skip), txn', pool_Demote p tx)
            | _ => Returns (Some (tx, fail), txn', pool_Drop p tx)
            end
        | Panics => Panics
        end
  end.

(** [tries] transactions are tried before the deadline. *)
Fixpoint write_loop (tries : nat) (executed : list Transaction) (txn : Transition) (p : pool) (gasLimit : Z) :
    result unit (list Transaction * Transition * pool) :=
  match tries with
  | O => Returns (executed, txn, p)
  | S tries =>
      let '(tx, p) := pool_Peek p in
      '(r, txn, p) ← writeTransaction tx txn p gasLimit;
      match r with
      | None => Returns (executed, txn, p)
      | Some (tx, success) => write_loop tries (executed ++ [tx]) txn p gasLimit
      | Some (_, _) => write_loop tries executed txn p gasLimit
      end
  end.

Definition writeTransactions (shouldWrite : bool) (tries : nat) (txn : Transition) (p : pool) (gasLimit : Z) :
    result unit (list Transaction * Transition * pool) :=
  if negb shouldWrite then Returns ([], txn, p) else write_loop tries [] txn (pool_Prepare p) gasLimit.

End writing.

(** ** Messages: go-ibft's protocol buffers *)

Record View := mkView { vHeight : Z; vRound : Z }.

(** [RCC] and [PC] are the two kinds of certificates, which go-ibft makes. *)
Inductive Payload (RCC PC : Type) :=
  | PreprepareData (proposal proposalHash : list Z) (certificate : RCC)
  | PrepareData (proposalHash : list Z)
  | CommitData (proposalHash committedSeal : list Z)
  | RoundChangeData (lastPreparedProposedBlock : list Z) (latestPreparedCertificate : PC).
Arguments PreprepareData {RCC PC}. Arguments PrepareData {RCC PC}. Arguments CommitData {RCC PC}. Arguments RoundChangeData {RCC PC}.

Record Message (RCC PC : Type) := mkMessage {
  msgView : View;
  msgFrom : list Z;
  msgPayload : Payload RCC PC;   (** and [Type], which it determines *)
  msgSignature : list Z;
}.
Arguments mkMessage {RCC PC}. Arguments msgView {RCC PC}. Arguments msgFrom {RCC PC}.
Arguments msgPayload {RCC PC}. Arguments msgSignature {RCC PC}.

Definition with_signature {RCC PC} (sig : list Z) (m : Message RCC PC) : Message RCC PC :=
  mkMessage (msgView m) (msgFrom m) (msgPayload m) sig.

Class Protobuf := {
  RCC : Type;
  PC : Type;
  proto_Marshal : Message RCC PC → option (list Z);
  PayloadNoSig : Message RCC PC → option (list Z);
}.

(** [PayloadNoSig] marshals the message without its signature. *)
Class ProtobufLaws `{Protobuf} : Prop := {
  PayloadNoSig_spec m : PayloadNoSig m = proto_Marshal (with_signature [] m);
}.

(** ** The backend *)

(** The functions of package types the messages need. *)
Definition IstanbulDigest : Hash := StringToHash (lit "0x63746963616c2062797a616e74696e65206661756c7420746f6c6572616e6365").

Inductive berror := errBlockchain | errExecutor | errPreCommit | errHook (e : ferror) | errSigner (e : sgerror).

Section backend.
Context `{Keccak, !Fastrlp, !Rlp, !RlpValues, !TrieStorage, Secp256k1, Bls, SortSnaps, StakingABI, TxQueryHandler, !Lru Z VSet, StakingTransition, Protobuf}.
Context `{!Radix, !Lru Address (list Z), !TransitionMethods, !TransitionErrors, !txPoolInterface}.

(** The header hash the consensus installs, [state.Executor.BeginTxn], the
    methods of the chain, and those of the backend the sources lack. *)
Context (HeaderHash : Header → Hash).
Context (BeginTxn : Hash → Header → Address → result cerror transition).
Context (executor_BeginTxn : Hash → Header → Address → result berror Transition).
Context (T_Commit : Transition → Hash).
Context (CalculateGasLimit : Z → result berror Z).
Context (WriteBlock : Block → HeaderGetter → result berror HeaderGetter).
Context (VerifyPotentialBlock : Block → bool).
Context (PreCommitState : Header → Transition → result berror Transition).
Context (ValidateExtraDataFormat : Header → bool).
Context (verifyHeaderImpl : Header → Header → SignerImpl → VSet → Hooks → bool).
Context (quorumSize : Z → VSet → Z).

Record backendIBFT := mkBackend {
  blockchain : HeaderGetter;
  forkManager : ForkManager;
  txpool : pool;
  currentSigner : SignerImpl;
  currentValidators : VSet;
  currentHooks : Hooks;
  blockTime : Z;
}.

Definition set_forkManager (m : ForkManager) (i : backendIBFT) : backendIBFT :=
  mkBackend (blockchain i) m (txpool i) (currentSigner i) (currentValidators i) (currentHooks i) (blockTime i).
Definition set_txpool (p : pool) (i : backendIBFT) : backendIBFT :=
  mkBackend (blockchain i) (forkManager i) p (currentSigner i) (currentValidators i) (currentHooks i) (blockTime i).
Definition set_blockchain (c : HeaderGetter) (i : backendIBFT) : backendIBFT :=
  mkBackend c (forkManager i) (txpool i) (currentSigner i) (currentValidators i) (currentHooks i) (blockTime i).

Definition of_ferror {A} (r : result ferror A) : result berror A :=
  match r with Returns a => Returns a | Errors e => Errors (errHook e) | Panics => Panics end.
Definition of_sgerror {A} (r : result sgerror A) : result berror A :=
  match r with Returns a => Returns a | Errors e => Errors (errSigner e) | Panics => Panics end.

(** [block.UnmarshalRLP(proposal)] of a new block. *)
Definition readProposal (proposal : list Z) : option Block :=
  UnmarshalRlp (Block_UnmarshalRLPFrom HeaderHash (mkBlock newHeader [] [] None)) proposal.

Definition signerAddress (i : backendIBFT) : Address := kmAddress (keyManager (currentSigner i)).
Definition ID (i : backendIBFT) : list Z := signerAddress i.

Definition MaximumFaultyNodes (i : backendIBFT) : Z := u64 (CalcMaxFaultyNodes (currentValidators i)).

Definition MaxInt32 : Z := 2 ^ 31 - 1.

(** A panic is passed on. *)
Definition Quorum (blockNumber : Z) (i : backendIBFT) : result berror Z * backendIBFT :=
  let '(r, m) := IbftFork.GetValidators BeginTxn blockNumber (blockchain i) (forkManager i) in
  (match r with
   | Returns validators => Returns (u64 (quorumSize blockNumber validators))
   | Errors _ => Returns MaxInt32
   | Panics => Panics
   end, set_forkManager m i).

Definition extractCommittedSeals (i : backendIBFT) (header : Header) : result berror Seals :=
  signer ← of_ferror (GetSigner (forkManager i) (hNumber header));
  extra ← of_sgerror (GetIBFTExtra signer header);
  Returns (exCommittedSeals extra).

Definition extractParentCommittedSeals (i : backendIBFT) (header : Header) : result berror (option Seals) :=
  if hNumber header =? 0 then Returns None else seals ← extractCommittedSeals i header; Returns (Some seals).

(** *** consensus/utils.go *)

Definition set_roots (txRoot receiptsRoot : Hash) (h : Header) : Header :=
  mkHeader (hParentHash h) EmptyUncleHash (hMiner h) (hStateRoot h) txRoot receiptsRoot (hLogsBloom h)
    (hDifficulty h) (hNumber h) (hGasLimit h) (hGasUsed h) (hTimestamp h) (hExtraData h) (hMixHash h) (hNonce h) (hHash h).

(** A root that cannot be computed is a panic. *)
Definition BuildBlock (header : Header) (txs : list Transaction) (receipts : list Receipt) : option Block :=
  txRoot ← (if zlen txs =? 0 then Some EmptyRootHash else CalculateTransactionsRoot txs);
  receiptsRoot ← (if zlen receipts =? 0 then Some EmptyRootHash else CalculateReceiptsRoot receipts);
  Some (mkBlock (Header_ComputeHash HeaderHash (set_roots txRoot receiptsRoot header)) txs [] None).

(** *** Building a block *)

Definition set_hTimestamp (x : Z) (h : Header) : Header :=
  mkHeader (hParentHash h) (hSha3Uncles h) (hMiner h) (hStateRoot h) (hTxRoot h) (hReceiptsRoot h) (hLogsBloom h)
    (hDifficulty h) (hNumber h) (hGasLimit h) (hGasUsed h) x (hExtraData h) (hMixHash h) (hNonce h) (hHash h).
Definition set_result (root : Hash) (gasUsed : Z) (h : Header) : Header :=
  mkHeader (hParentHash h) (hSha3Uncles h) (hMiner h) root (hTxRoot h) (hReceiptsRoot h) (hLogsBloom h)
    (hDifficulty h) (hNumber h) (hGasLimit h) gasUsed (hTimestamp h) (hExtraData h) (hMixHash h) (hNonce h) (hHash h).

(** The header before the hooks: [calculateGasLimit] has replaced the limit of the parent. *)
Definition proposalHeader (parent : Header) (gasLimit : Z) : Header :=
  mkHeader (hHash parent) EmptyUncleHash ZeroAddress EmptyRootHash ZeroHash ZeroHash ZeroBloom
    (u64 (hNumber parent + 1)) (u64 (hNumber parent + 1)) gasLimit 0 0 [] IstanbulDigest (replicate 8 0) ZeroHash.

(** [now] is the time of the call and [tries] the number of transactions
    tried before the timestamp of the block. *)
Definition buildBlock (now : Z) (tries : nat) (parent : Header) (i : backendIBFT) : result berror Block * backendIBFT :=
  match CalculateGasLimit (u64 (hNumber parent + 1)) with
  | Errors e => (Errors e, i) | Panics => (Panics, i)
  | Returns gasLimit =>
  let '(r, m) := hooks_ModifyHeader (currentHooks i) (proposalHeader parent gasLimit) (signerAddress i) (blockchain i) (forkManager i) in
  let i := set_forkManager m i in
  match r with
  | Errors e => (Errors (errHook e), i) | Panics => (Panics, i)
  | Returns header =>
  let header := set_hTimestamp (u64 (Time_Unix (calcHeaderTimestamp (blockTime i) (hTimestamp parent) now))) header in
  let begun :=
    parentCommittedSeals ← extractParentCommittedSeals i parent;
    let header := initIbftExtra (currentSigner i) header (currentValidators i) parentCommittedSeals in
    txn ← executor_BeginTxn (hStateRoot parent) header (signerAddress i);
    shouldWrite ← of_ferror (ShouldWriteTransactions (currentHooks i) (hNumber header));
    Returns (header, txn, shouldWrite) in
  match begun with
  | Errors e => (Errors e, i) | Panics => (Panics, i)
  | Returns (header, txn, shouldWrite) =>
  match writeTransactions shouldWrite tries txn (txpool i) gasLimit with
  | Errors _ | Panics => (Panics, i)
  | Returns (txs, txn, p) =>
  let i := set_txpool p i in
  (txn ← PreCommitState header txn;
   let header := set_result (T_Commit txn) (trTotalGas txn) header in
   block ← or_panic (BuildBlock header txs (trReceipts txn));
   header ← of_sgerror (WriteProposerSeal (currentSigner i) (bHeader block));
   Returns (mkBlock (Header_ComputeHash HeaderHash header) txs [] None), i)
  end end end end.

(** An error is logged and nothing proposed. *)
Definition logged {A} (r : result berror A) : result berror (option A) :=
  match r with Returns a => Returns (Some a) | Errors _ => Returns None | Panics => Panics end.

Definition BuildProposal (now : Z) (tries : nat) (blockNumber : Z) (i : backendIBFT) : result berror (option (list Z)) * backendIBFT :=
  let latestHeader := hgHeader (blockchain i) in
  if negb (u64 (hNumber latestHeader + 1) =? blockNumber) then (Returns None, i) else
  let '(r, i) := buildBlock now tries latestHeader i in
  (logged (block ← r; Returns (Block_MarshalRLP block)), i).

(** *** Inserting a block *)

Definition committedSealsMap (committedSeals : list (list Z * list Z)) : gmap Address (list Z) :=
  foldl (λ m cm, <[BytesToAddress cm.1 := cm.2]> m) ∅ committedSeals.

(** The block was written or not. [rangeSeals] lists a map as Go visits it.
    Printing the seals of a corrupted header writes past the end of a slice
    when two seals have one signer. *)
Definition InsertBlock (rangeSeals : gmap Address (list Z) → list (Address * list Z)) (proposal : list Z)
    (committedSeals : list (list Z * list Z)) (i : backendIBFT) : result berror bool * backendIBFT :=
  match readProposal proposal with
  | None => (Returns false, i)
  | Some newBlock =>
  let sealsMap := committedSealsMap committedSeals in
  match WriteCommittedSeals (currentSigner i) (bHeader newBlock) (rangeSeals sealsMap) with
  | Errors _ => (Returns false, i) | Panics => (Panics, i)
  | Returns header =>
  if negb (ValidateExtraDataFormat header) then
    (if Z.of_nat (size sealsMap) <? zlen committedSeals then Panics else Returns false, i) else
  let newBlock := mkBlock header (bTransactions newBlock) (bUncles newBlock) (bSize newBlock) in
  match WriteBlock newBlock (blockchain i) with
  | Errors _ => (Returns false, i) | Panics => (Panics, i)
  | Returns chain =>
  let i := set_blockchain chain i in
  let '(r, m) := PostInsertBlock (currentHooks i) newBlock (blockchain i) (forkManager i) in
  let i := set_forkManager m i in
  match r with
  | Errors _ => (Returns true, i) | Panics => (Panics, i)
  | Returns _ => (Returns true, set_txpool (pool_ResetWithHeaders (txpool i) header) i)
  end end end end.

(** *** verifier.go *)

Definition extractProposer (i : backendIBFT) (header : Header) : result berror Address :=
  if hNumber header =? 0 then Returns ZeroAddress else
  signer ← of_ferror (GetSigner (forkManager i) (hNumber header));
  of_sgerror (EcrecoverFromHeader signer header).

Definition IsValidBlock (proposal : list Z) (i : backendIBFT) : result berror bool :=
  let latestHeader := hgHeader (blockchain i) in
  match readProposal proposal with
  | None => Returns false
  | Some newBlock =>
      if negb (u64 (hNumber latestHeader + 1) =? Block_Number newBlock) then Returns false else
      if negb (verifyHeaderImpl latestHeader (bHeader newBlock) (currentSigner i) (currentValidators i) (currentHooks i)) then Returns false else
      if negb (VerifyPotentialBlock newBlock) then Returns false else
      match IbftFork.VerifyBlock (currentHooks i) newBlock with
      | Returns _ => Returns true | Errors _ => Returns false | Panics => Panics
      end
  end.

Definition IsValidSender (msg : Message RCC PC) (i : backendIBFT) : result berror bool * backendIBFT :=
  match PayloadNoSig msg with
  | None => (Returns false, i)
  | Some msgNoSig =>
  match EcrecoverFromIBFTMessage (currentSigner i) (msgSignature msg) msgNoSig with
  | None => (Returns false, i)
  | Some signerAddress =>
  if negb (bool_decide (msgFrom msg = signerAddress)) then (Returns false, i) else
  let '(r, m) := IbftFork.GetValidators BeginTxn (vHeight (msgView msg)) (blockchain i) (forkManager i) in
  (match r with
   | Returns validators => Returns (Includes validators signerAddress)
   | Errors _ => Returns false
   | Panics => Panics
   end, set_forkManager m i)
  end end.

(** A set without validators makes [CalcProposer] panic. *)
Definition IsProposer (id : list Z) (height round : Z) (i : backendIBFT) : result berror bool :=
  match hgGetHeaderByNumber (blockchain i) (u64 (height - 1)) with
  | None => Returns false
  | Some previousHeader =>
      match extractProposer i previousHeader with
      | Errors _ => Returns false
      | Panics => Panics
      | Returns previousProposer =>
          nextProposer ← or_panic (CalcProposer (currentValidators i) round previousProposer);
          Returns (bool_decide (BytesToAddress id = Addr nextProposer))
      end
  end.

Definition IsValidProposalHash (proposal hash : list Z) : bool :=
  match readProposal proposal with
  | None => false
  | Some newBlock => bool_decide (hHash (bHeader newBlock) = hash)
  end.

Definition IsValidCommittedSeal (proposalHash signer signature : list Z) (i : backendIBFT) : result berror bool :=
  match VerifyCommittedSeal (currentSigner i) (currentValidators i) (BytesToAddress signer) signature proposalHash with
  | Returns _ => Returns true | Errors _ => Returns false | Panics => Panics
  end.

(** *** messages.go: [None] is a nil message *)

Definition signMessage (i : backendIBFT) (msg : Message RCC PC) : option (Message RCC PC) :=
  raw ← proto_Marshal msg;
  signature ← SignIBFTMessage (currentSigner i) raw;
  Some (with_signature signature msg).

Definition BuildPrePrepareMessage (proposal : list Z) (certificate : RCC) (view : View) (i : backendIBFT) : option (Message RCC PC) :=
  block ← readProposal proposal;
  signMessage i (mkMessage view (ID i) (PreprepareData proposal (Block_Hash block) certificate) []).

Definition BuildPrepareMessage (proposalHash : list Z) (view : View) (i : backendIBFT) : option (Message RCC PC) :=
  signMessage i (mkMessage view (ID i) (PrepareData proposalHash) []).

Definition BuildCommitMessage (proposalHash : list Z) (view : View) (i : backendIBFT) : option (Message RCC PC) :=
  committedSeal ← CreateCommittedSeal (currentSigner i) proposalHash;
  signMessage i (mkMessage view (ID i) (CommitData proposalHash committedSeal) []).

Definition BuildRoundChangeMessage (proposal : list Z) (certificate : PC) (view : View) (i : backendIBFT) : option (Message RCC PC) :=
  signMessage i (mkMessage view (ID i) (RoundChangeData proposal certificate) []).

End backend.
