(* ===== verification/ConsensusBackendProps.v ===== *)
(** * The consensus backend

    Timestamps advance with the block time; the block a proposer builds
    replays to the same state on the other validators, and where it does
    not; the messages of a validator are accepted by the others and name
    their sender; the block carries the seal of its proposer. *)

From Stdlib Require Import String.
From stdpp Require Import gmap.
From S2P Require Import Prelude BigInt Types Runtime Rlp BlockTypes Hex Result Radix Txn Trie Hasher Validators ValidatorsProps Quorum Crypto CryptoProps Signer SignerProps Snapshot SnapshotExamples Staking ContractStore IbftFork IbftForkProps BuildRoot Executor ExecutorProps ConsensusBackend.
Import SignerExamples.
#[local] Open Scope Z_scope.

(** ** Timestamps *)

Lemma roundUp_bounds t d : 0 < d → t ≤ roundUpTime t d ≤ t + d ∧ (d | roundUpTime t d).
Proof.
  intros Hd. unfold roundUpTime, Time_Round. rewrite (proj2 (Z.leb_gt _ _)) by lia.
  rewrite Z.quot_div_nonneg by lia. set (x := t + d / 2).
  pose proof (Z.div_mod x d ltac:(lia)) as Ex. pose proof (Z.mod_pos_bound x d Hd) as Hr.
  pose proof (Z.div_mod d 2 ltac:(lia)) as Ed. pose proof (Z.mod_pos_bound d 2 ltac:(lia)) as Hd2.
  destruct (Z.ltb_spec (x mod d + x mod d) d).
  - split; [lia|]. exists (x / d). lia.
  - split; [lia|]. exists (x / d + 1). lia.
Qed.

(** The timestamp of a block is at least one block time after that of its
    parent and not before the time it is computed at; it is at most one block
    time after the later of the two. In whole seconds, as the header has it,
    it is therefore after the timestamp of the parent when the block time is
    a second or more; with a shorter block time that is met, the two are the
    same. *)
Theorem header_timestamp blockTime parentUnix now :
  0 < blockTime → 0 ≤ parentUnix < 2 ^ 63 →
  let t := calcHeaderTimestamp blockTime parentUnix now in
  Z.max (time_Unix parentUnix + blockTime) now ≤ t ≤ Z.max (time_Unix parentUnix) now + blockTime ∧
  (Second ≤ blockTime → parentUnix < Time_Unix t) ∧
  (blockTime < Second → now ≤ time_Unix parentUnix + blockTime → Time_Unix t = parentUnix).
Proof.
  intros Hb Hp t. unfold t, calcHeaderTimestamp. rewrite i64_small by lia.
  set (T := time_Unix parentUnix). assert (∀ x, T + Second ≤ x → parentUnix < Time_Unix x) as Hafter.
  { intros x Hx. unfold Time_Unix. unfold T, time_Unix, Second in *.
    pose proof (Z.div_le_mono ((parentUnix + unixToInternal) * 10 ^ 9 + 10 ^ 9) x (10 ^ 9) ltac:(lia) Hx) as Hm.
    replace ((parentUnix + unixToInternal) * 10 ^ 9 + 10 ^ 9) with ((parentUnix + unixToInternal + 1) * 10 ^ 9) in Hm by lia.
    rewrite Z.div_mul in Hm by lia. lia. }
  destruct (Z.ltb_spec (T + blockTime) now) as [Hlt|Hge].
  - destruct (roundUp_bounds now blockTime Hb) as [Hr _]. split; [lia|]. split; [|lia]. intros Hs. apply Hafter. lia.
  - split; [lia|]. split; [intros Hs; apply Hafter; lia|]. intros Hs _. unfold Time_Unix, T, time_Unix, Second in *.
    rewrite Z.div_add_l by lia. rewrite (Z.div_small blockTime) by lia. lia.
Qed.

Lemma header_timestamp_witness :
  let t := calcHeaderTimestamp (2 * Second) 1700000000 (time_Unix 1700000005) in 1700000000 < Time_Unix t.
Proof.
  apply (header_timestamp (2 * Second) 1700000000 (time_Unix 1700000005)); [reflexivity|done|done].
Defined.

(** ** Writing transactions *)

Section writing.
Context `{!Radix, !Lru Address (list Z), !Keccak, !TransactionSecurity, !TransitionMethods, !TransitionErrors, !txPoolInterface}.

(** The transactions that were tried and what became of them; an oversized
    one is a failure that wrote a receipt. *)
Inductive wrote (gasLimit : Z) : Transition → list (Transaction * status) → Transition → Prop :=
  | wrote_end txn : wrote gasLimit txn [] txn
  | wrote_success txn tx txn1 log txn2 :
      ExceedsBlockGasLimit tx gasLimit = false → T_Write txn tx = Returns txn1 → wrote gasLimit txn1 log txn2 →
      wrote gasLimit txn ((tx, success) :: log) txn2
  | wrote_error txn tx e st log txn2 :
      ExceedsBlockGasLimit tx gasLimit = false → T_Write txn tx = Errors e → st ≠ success → wrote gasLimit txn log txn2 →
      wrote gasLimit txn ((tx, st) :: log) txn2
  | wrote_oversized txn tx txn1 log txn2 :
      ExceedsBlockGasLimit tx gasLimit = true → T_WriteFailedReceipt txn tx = Returns txn1 → wrote gasLimit txn1 log txn2 →
      wrote gasLimit txn ((tx, fail) :: log) txn2
  | wrote_oversized_error txn tx e log txn2 :
      ExceedsBlockGasLimit tx gasLimit = true → T_WriteFailedReceipt txn tx = Errors e → wrote gasLimit txn log txn2 →
      wrote gasLimit txn ((tx, fail) :: log) txn2.

Definition successes (log : list (Transaction * status)) : list Transaction :=
  omap (λ '(tx, st), match st with success => Some tx | _ => None end) log.

(** The pool offered the transaction. *)
Definition peeked (entry : Transaction * status) : Prop := ∃ q q', pool_Peek q = (Some entry.1, q').

Lemma write_loop_log tries ex txn p gasLimit ex' txn' p' :
  (∀ txn tx, T_AfterError txn tx = txn) →
  write_loop tries ex txn p gasLimit = Returns (ex', txn', p') →
  ∃ log, wrote gasLimit txn log txn' ∧ ex' = ex ++ successes log ∧ Forall peeked log.
Proof.
  intros Ha. revert ex txn p. induction tries as [|tries IH]; intros ex txn p E.
  { injection E as <- <- <-. exists []. by rewrite app_nil_r; split_and!; [constructor..]. }
  cbn [write_loop] in E. destruct (pool_Peek p) as [[tx|] p1] eqn:Ep.
  2:{ injection E as <- <- <-. exists []. by rewrite app_nil_r; split_and!; [constructor..]. }
  assert (∀ st, peeked (tx, st)) as Hpk by (intros st; by exists p, p1).
  cbn [writeTransaction] in E. destruct (ExceedsBlockGasLimit tx gasLimit) eqn:Ex.
  - destruct (T_WriteFailedReceipt txn tx) as [txn1|e|] eqn:Ew; [| |done]; cbn [mbind result_bind] in E.
    + apply IH in E as (log & Hl & -> & Hp). exists ((tx, fail) :: log). split_and!; [by eapply wrote_oversized|done|by constructor].
    + rewrite Ha in E. apply IH in E as (log & Hl & -> & Hp). exists ((tx, fail) :: log). split_and!; [by eapply wrote_oversized_error|done|by constructor].
  - destruct (T_Write txn tx) as [txn1|e|] eqn:Ew; [| |done]; cbn [mbind result_bind] in E.
    + apply IH in E as (log & Hl & -> & Hp). exists ((tx, success) :: log). split_and!; [by eapply wrote_success|by rewrite <- app_assoc|by constructor].
    + rewrite Ha in E. destruct (T_WriteError txn tx) as [|[]|]; cbn [mbind result_bind] in E.
      * injection E as <- <- <-. exists []. by rewrite app_nil_r; split_and!; [constructor..].
      * apply IH in E as (log & Hl & -> & Hp). exists ((tx, skip) :: log). split_and!; [by eapply wrote_error|done|by constructor].
      * apply IH in E as (log & Hl & -> & Hp). exists ((tx, fail) :: log). split_and!; [by eapply wrote_error|done|by constructor].
      * apply IH in E as (log & Hl & -> & Hp). exists ((tx, fail) :: log). split_and!; [by eapply wrote_error|done|by constructor].
Qed.

Lemma wrote_replay gasLimit txn log txn' :
  wrote gasLimit txn log txn' → (∀ tx st, (tx, st) ∈ log → ExceedsBlockGasLimit tx gasLimit = false) →
  Forall (λ tx, validateTransactionSecurity (Some tx) = None) (successes log) →
  processTransactions gasLimit txn (successes log) = Returns txn'.
Proof.
  induction 1 as [txn|txn tx txn1 log txn2 Ex Ew _ IH|txn tx e st log txn2 Ex Ew Hst _ IH|txn tx txn1 log txn2 Ex _ _ _|txn tx e log txn2 Ex _ _ _];
    intros Hsize Hsec.
  - done.
  - cbn [successes omap list_omap] in Hsec |- *. apply Forall_cons in Hsec as [Hs Hsec]. cbn [processTransactions].
    rewrite Ex, Hs, Ew. cbn [wrap mbind result_bind]. apply IH; [|done]. intros t st Ht. apply (Hsize t st). by right.
  - assert (successes ((tx, st) :: log) = successes log) as Es by (by destruct st).
    rewrite Es in Hsec |- *. apply IH; [|done]. intros t s Ht. apply (Hsize t s). by right.
  - by rewrite (Hsize tx fail (list_elem_of_here _ _)) in Ex.
  - by rewrite (Hsize tx fail (list_elem_of_here _ _)) in Ex.
Qed.

(** When the transactions of a proposal replay. If a failed write leaves
    the transition as it was, no transaction the pool offers needs more gas
    than the block has, and each one in the block passes the checks of
    ProcessBlock, then the transition the proposer ends with is the one
    ProcessBlock of the other validators ends with, over the same
    transactions from the same start. [proposal_diverges] below is what
    happens without the last two conditions. *)
Theorem proposal_reexecutes tries txn p gasLimit txs txn' p' :
  (∀ txn tx, T_AfterError txn tx = txn) →
  (∀ q tx q', pool_Peek q = (Some tx, q') → ExceedsBlockGasLimit tx gasLimit = false) →
  writeTransactions true tries txn p gasLimit = Returns (txs, txn', p') →
  Forall (λ tx, validateTransactionSecurity (Some tx) = None) txs →
  processTransactions gasLimit txn txs = Returns txn'.
Proof.
  intros Ha Hsize E Hsec. apply write_loop_log in E as (log & Hl & -> & Hp); [|done].
  apply wrote_replay; [done| |done]. intros tx st Ht. rewrite Forall_forall in Hp.
  destruct (Hp _ Ht) as (q & q' & Eq). by eapply Hsize.
Qed.

(** *** Where it does not *)

(** Each write adds a receipt. *)
Definition receipted : Prop :=
  (∀ txn tx txn1, T_Write txn tx = Returns txn1 → length (trReceipts txn1) = S (length (trReceipts txn))) ∧
  (∀ txn tx txn1, T_WriteFailedReceipt txn tx = Returns txn1 → length (trReceipts txn1) = S (length (trReceipts txn))).

Lemma wrote_receipts gasLimit txn log txn' :
  receipted → wrote gasLimit txn log txn' → (length (trReceipts txn) + length (successes log) ≤ length (trReceipts txn'))%nat.
Proof.
  intros [Hw Hf]. induction 1 as [txn|txn tx txn1 log txn2 Ex Ew _ IH|txn tx e st log txn2 Ex Ew Hst _ IH|txn tx txn1 log txn2 Ex Ew _ IH|txn tx e log txn2 Ex Ew _ IH].
  - cbn. lia.
  - apply Hw in Ew. change (successes ((tx, success) :: log)) with (tx :: successes log). rewrite length_cons. lia.
  - assert (successes ((tx, st) :: log) = successes log) as -> by (by destruct st). done.
  - apply Hf in Ew. change (successes ((tx, fail) :: log)) with (successes log). lia.
  - done.
Qed.

Lemma replay_receipts gasLimit txs txn txn' :
  receipted → processTransactions gasLimit txn txs = Returns txn' → length (trReceipts txn') = (length (trReceipts txn) + length txs)%nat.
Proof.
  intros [Hw Hf]. revert txn. induction txs as [|tx txs IH]; intros txn E; [injection E as <-; cbn; lia|].
  cbn [processTransactions] in E. destruct (ExceedsBlockGasLimit tx gasLimit); [|destruct (validateTransactionSecurity (Some tx))].
  - destruct (T_WriteFailedReceipt txn tx) as [t1|err|] eqn:Ew; try done. apply IH in E. apply Hf in Ew. cbn. lia.
  - destruct (T_WriteFailedReceipt txn tx) as [t1|err|] eqn:Ew; try done. apply IH in E. apply Hf in Ew. cbn. lia.
  - destruct (T_Write txn tx) as [t1|err|] eqn:Ew; try done. apply IH in E. apply Hw in Ew. cbn. lia.
Qed.

(** C38. Where a proposal does not replay. A transaction that needs more gas
    than the block has leaves a receipt in the transition of the proposer
    although it is not in the block: the others compute fewer receipts, and
    with them another root. And a transaction that fails the security checks
    of ProcessBlock, as one to the zero address, is executed by the proposer,
    who does not make these checks, and written as failed by the others. *)
Theorem proposal_diverges txn p gasLimit tx q :
  (∀ txn tx, T_AfterError txn tx = txn) → receipted → pool_Peek (pool_Prepare p) = (Some tx, q) →
  (∀ tries txn1 txs txn' p' txn2,
     ExceedsBlockGasLimit tx gasLimit = true → T_WriteFailedReceipt txn tx = Returns txn1 →
     writeTransactions true (S tries) txn p gasLimit = Returns (txs, txn', p') →
     processTransactions gasLimit txn txs = Returns txn2 →
     (length (trReceipts txn2) < length (trReceipts txn'))%nat) ∧
  (∀ txn1,
     ExceedsBlockGasLimit tx gasLimit = false → tTo tx = Some ZeroAddress → T_Write txn tx = Returns txn1 →
     writeTransactions true 1 txn p gasLimit = Returns ([tx], txn1, pool_Pop q tx) ∧
     processTransactions gasLimit txn [tx] = wrap errWriteFailedReceipt (T_WriteFailedReceipt txn tx)).
Proof.
  intros Ha Hr Hpk. split.
  - intros tries txn1 txs txn' p' txn2 Ex Ew E Ep. unfold writeTransactions in E. cbn [negb write_loop] in E. rewrite Hpk in E.
    cbn [writeTransaction] in E. rewrite Ex, Ew in E. cbn [mbind result_bind] in E.
    apply write_loop_log in E as (log & Hl & -> & _); [|done]. apply wrote_receipts in Hl; [|done].
    apply replay_receipts in Ep; [|done]. destruct Hr as [_ Hf]. apply Hf in Ew. cbn [app] in *. lia.
  - intros txn1 Ex Ht Ew. split.
    + unfold writeTransactions. cbn [negb write_loop]. rewrite Hpk. cbn [writeTransaction]. by rewrite Ex, Ew.
    + cbn [processTransactions]. rewrite Ex. unfold validateTransactionSecurity. rewrite bool_decide_true by done.
      by destruct (T_WriteFailedReceipt txn tx).
Qed.

End writing.

(** ** Messages *)

Section messages.
Context `{Keccak, !Fastrlp, !Rlp, Secp256k1, !Secp256k1Laws, Bls, SortSnaps, StakingABI, TxQueryHandler, !Lru Z VSet, StakingTransition, Protobuf, !ProtobufLaws}.
Context `{!txPoolInterface}.
Context (HeaderHash : Header → Hash).
Context (BeginTxn : Hash → Header → Address → result cerror transition).

(** A message the node of [i] sends. *)
Definition sent (i : backendIBFT) (m : Message RCC PC) : Prop :=
  (∃ proposal certificate view, BuildPrePrepareMessage HeaderHash proposal certificate view i = Some m) ∨
  (∃ proposalHash view, BuildPrepareMessage proposalHash view i = Some m) ∨
  (∃ proposalHash view, BuildCommitMessage proposalHash view i = Some m) ∨
  (∃ proposal certificate view, BuildRoundChangeMessage proposal certificate view i = Some m).

Lemma signMessage_parts i msg m :
  signMessage i msg = Some m →
  ∃ raw signature, proto_Marshal msg = Some raw ∧
    Sign (ecdsaKeyOf (keyManager (currentSigner i))) (keccak256 raw) = Some signature ∧ m = with_signature signature msg.
Proof.
  unfold signMessage. destruct (proto_Marshal msg) as [raw|]; [|done]. cbn [mbind option_bind].
  unfold SignIBFTMessage, km_SignIBFTMessage. destruct (Sign _ (keccak256 raw)) as [signature|] eqn:Es; [|done].
  intros [= <-]. by exists raw, signature.
Qed.

Lemma sent_signed i m : sent i m → ∃ payload view, signMessage i (mkMessage view (ID i) payload []) = Some m.
Proof.
  intros [(proposal & certificate & view & E)|[(hash & view & E)|[(hash & view & E)|(proposal & certificate & view & E)]]].
  - unfold BuildPrePrepareMessage in E. destruct (readProposal HeaderHash proposal); [|done]. by eexists _, _.
  - by eexists _, _.
  - unfold BuildCommitMessage in E. destruct (CreateCommittedSeal _ _); [|done]. by eexists _, _.
  - by eexists _, _.
Qed.

(** The signer recovered from a message that was sent is its sender. *)
Lemma sent_recovers i m (s : SignerImpl) :
  let key := ecdsaKeyOf (keyManager (currentSigner i)) in
  (∀ h sig, SignCompact key h = Some sig → head sig = Some 27 ∨ head sig = Some 28) →
  signerAddress i = PubKeyToAddress (public key) → sent i m →
  ∃ raw, PayloadNoSig m = Some raw ∧ msgFrom m = signerAddress i ∧
    EcrecoverFromIBFTMessage s (msgSignature m) raw = Some (signerAddress i).
Proof.
  intros key Hh Ha (payload & view & E)%sent_signed. apply signMessage_parts in E as (raw & signature & Em & Es & ->).
  exists raw. rewrite PayloadNoSig_spec. split; [exact Em|]. split; [done|].
  destruct (Sign_recover key _ signature (Hh _) Es) as (? & ? & ? & _ & _ & _ & _ & _ & _ & Hr).
  unfold EcrecoverFromIBFTMessage, ecrecover. cbn [with_signature msgSignature]. by rewrite Hr, Ha.
Qed.

(** C24. Messages are authenticated. A message of any of the four kinds that a
    node sends is accepted by another node exactly when the sender is a
    validator of the height of the message, as the other node has the
    validators. And whatever message a node accepts, it names as its sender a
    validator of its height, and is signed with the key of that validator. *)
Theorem message_authentic i j m :
  let key := ecdsaKeyOf (keyManager (currentSigner i)) in
  let validators := (IbftFork.GetValidators BeginTxn (vHeight (msgView m)) (blockchain j) (forkManager j)).1 in
  (∀ h sig, SignCompact key h = Some sig → head sig = Some 27 ∨ head sig = Some 28) →
  signerAddress i = PubKeyToAddress (public key) →
  (sent i m → (IsValidSender BeginTxn m j).1 = Returns true ↔ ∃ vs, validators = Returns vs ∧ signerAddress i ∈ addrs vs) ∧
  ((IsValidSender BeginTxn m j).1 = Returns true →
     ∃ vs raw, validators = Returns vs ∧ msgFrom m ∈ addrs vs ∧ PayloadNoSig m = Some raw ∧
       EcrecoverFromIBFTMessage (currentSigner j) (msgSignature m) raw = Some (msgFrom m)).
Proof.
  intros key validators Hh Ha. unfold IsValidSender. split.
  - intros (raw & -> & Hf & Hr)%(sent_recovers i m (currentSigner j) Hh Ha). rewrite Hr, Hf, bool_decide_true by done.
    cbn [negb]. fold validators. unfold validators. destruct (IbftFork.GetValidators _ _ _ _) as [[vs|e|] fm]; cbn.
    + split; [intros [= Hi]; exists vs; split; [done|by apply Includes_spec]|]. intros (? & [= <-] & Hi).
      f_equal. by apply Includes_spec.
    + split; [done|]. by intros (? & ? & _).
    + split; [done|]. by intros (? & ? & _).
  - destruct (PayloadNoSig m) as [raw|]; [|done]. destruct (EcrecoverFromIBFTMessage _ _ _) as [a|] eqn:Er; [|done].
    case_bool_decide as Hf; [|done]. cbn [negb]. unfold validators. destruct (IbftFork.GetValidators _ _ _ _) as [[vs|e|] fm]; [|done..].
    cbn. intros [= Hi]. exists vs, raw. split; [done|]. split; [rewrite Hf; by apply Includes_spec|]. split; [done|]. by rewrite Hf, Er.
Qed.

(** No two nodes are the proposer of one round. *)
Lemma IsProposer_unique id1 id2 height round i :
  addr_ok id1 → addr_ok id2 → IsProposer id1 height round i = Returns true → IsProposer id2 height round i = Returns true → id1 = id2.
Proof.
  intros [Hl1 _] [Hl2 _]. unfold IsProposer. destruct (hgGetHeaderByNumber _ _) as [header|]; [|done].
  destruct (extractProposer i header) as [p|e|]; [|done..]. destruct (CalcProposer _ _ _) as [v|]; [|done].
  cbn [or_panic mbind result_bind]. intros [= E1] [= E2]. apply bool_decide_eq_true in E1, E2.
  unfold BytesToAddress in *. rewrite right_align_id in E1, E2 by done. congruence.
Qed.

End messages.

(** ** Examples *)

Module BackendExample.
Import ForkExample.

#[export] Existing Instances plain_curve_laws Empty.from_security.

(** A pool is a position in a list of transactions. *)
Definition list_pool (l : list Transaction) : txPoolInterface := {|
  pool := nat; pool_Prepare _ := 0%nat; pool_Peek n := (l !! n, n);
  pool_Pop n _ := S n; pool_Drop n _ := S n; pool_Demote n _ := S n; pool_ResetWithHeaders n _ := n;
|}.

Definition add_receipt `{!Radix, !Lru Address (list Z)} (t : Transition) (tx : Transaction) : Transition :=
  mkTransition (trCtx t) (trState t) (trSnap t) (trConfig t) (trGasPool t) (trReceipts t ++ [newReceipt]) (trTotalGas t + tNonce tx).

(** A transaction with an odd nonce is refused. *)
#[export] Instance odd_transition : TransitionMethods := {|
  T_Write t tx := if Z.odd (tNonce tx) then Errors errWrite else Returns (add_receipt t tx);
  T_WriteFailedReceipt t tx := Returns (add_receipt t tx);
|}.

#[export] Instance odd_errors : TransitionErrors := {| T_WriteError _ _ := applicationError true; T_AfterError t _ := t |}.

Definition paying (nonce gas to : Z) : Transaction :=
  mkTx nonce None gas (Some (BytesToAddress [to])) (Some 5) [] None None None ZeroHash (BytesToAddress [9]) None.

(** The second transaction is refused, the third is written. *)
Definition offered : list Transaction := [paying 2 100 7; paying 3 100 7; paying 4 100 7].

Lemma proposal_reexecutes_witness :
  processTransactions 1000 Empty.example_transition [paying 2 100 7; paying 4 100 7]
  = Returns (add_receipt (add_receipt Empty.example_transition (paying 2 100 7)) (paying 4 100 7)).
Proof.
  refine (proposal_reexecutes (H4 := list_pool offered) 5 Empty.example_transition 0%nat 1000 _ _ 3%nat _ _ _ _).
  - reflexivity.
  - intros q tx q' E. injection E as E _. destruct q as [|[|[|q]]]; [injection E as <-; reflexivity..|discriminate].
  - reflexivity.
  - repeat constructor.
Defined.

Lemma odd_receipted : receipted.
Proof.
  split; intros txn tx txn1 E.
  - cbn in E. destruct (Z.odd (tNonce tx)); [done|]. injection E as <-. cbn. rewrite length_app. cbn. lia.
  - injection E as <-. cbn. rewrite length_app. cbn. lia.
Qed.

(** The first transaction needs more gas than the block has. *)
Lemma proposal_diverges_witness :
  (length (trReceipts (add_receipt Empty.example_transition (paying 4 100 7)))
   < length (trReceipts (add_receipt (add_receipt Empty.example_transition (paying 2 5000 7)) (paying 4 100 7))))%nat.
Proof.
  refine (proj1 (proposal_diverges (H4 := list_pool [paying 2 5000 7; paying 4 100 7]) Empty.example_transition 0%nat
    1000 (paying 2 5000 7) 0%nat _ odd_receipted eq_refl) 5%nat
    (add_receipt Empty.example_transition (paying 2 5000 7)) [paying 4 100 7] _ 2%nat _ _ _ _ _); reflexivity.
Defined.

(** *** Messages *)

#[export] Instance plain_proto : Protobuf := {|
  RCC := unit; PC := unit;
  proto_Marshal m := Some ([vHeight (msgView m); vRound (msgView m)] ++ msgFrom m ++ msgSignature m);
  PayloadNoSig m := Some ([vHeight (msgView m); vRound (msgView m)] ++ msgFrom m);
|}.

#[export] Instance plain_proto_laws : ProtobufLaws.
Proof. split. intros m. cbn. by rewrite app_nil_r. Qed.

#[export] Instance no_pool : txPoolInterface := list_pool [].

(** The staking contract of the example answers with the height: the one
    validator of height 8 is the address of the number 7. *)
Definition node (key : Z) : backendIBFT :=
  mkBackend (chain_of 8) asked 0%nat (demo_signer_impl key) (NewECDSAValidatorSet []) (GetHooks [] [PoS] asked 8) Second.

Definition prepared : Message RCC PC :=
  default (mkMessage (mkView 0 0) [] (PrepareData []) []) (BuildPrepareMessage ZeroHash (mkView 8 0) (node 7)).

Lemma message_authentic_witness : (IsValidSender begin prepared (node 1)).1 = Returns true.
Proof.
  apply (proj1 (message_authentic (λ _, ZeroHash) begin (node 7) (node 1) prepared
    ltac:(intros h sig [= <-]; by left) ltac:(vm_compute; reflexivity))).
  - right. left. exists ZeroHash, (mkView 8 0). vm_compute. reflexivity.
  - exists (NewBLSValidatorSet [(be_encode 20 7, be_encode 8 7)]). split; vm_compute; [reflexivity|left].
Defined.

End BackendExample.
