(* ===== verification/SnapshotFiles.v ===== *)
(** * Snapshots on disk (validators/store/types.go, validators/store/snapshot/types.go, validators/set.go, validators/bls.go, consensus/ibft/fork/helper.go, storewrapper.go, manager.go)

    The votes, sets and snapshots as encoding/json writes and reads them, and
    the older form of a snapshot, which has no type and lists addresses. A
    JSON text is the value it denotes. A decoder is a function of the value
    and of what the variable held before, as fields that are missing or null
    keep their values; [None] is an error.

    A node that stops writes the snapshots of its validator store to two
    files and reads them when it starts. What a file holds is written as the
    JSON value json.Unmarshal finds in it; package os may fail, and a write
    that fails leaves the disk in any state.

    A snapshot is read as it was written; the older form is read as the
    snapshot it stands for; and a node that restarts goes on where it
    stopped. *)

From Stdlib Require Import String.
From stdpp Require Import gmap.
From S2P Require Import Prelude BigInt Types Runtime Rlp BlockTypes Hex Result Radix Validators ValidatorsProps Crypto CryptoProps Signer SignerProps Snapshot SnapshotProps SnapshotExamples Staking ContractStore IbftFork IbftForkProps.
Import SignerExamples.
#[local] Open Scope Z_scope.

(** ** encoding/json *)

Inductive json :=
  | jNull
  | jBool (b : bool)
  | jNumber (n : option Z)   (** [None]: not written as an integer *)
  | jString (s : list Z)
  | jArray (l : list json)
  | jObject (o : list (list Z * json)).

(** Names of fields are compared up to case. Two letters outside ASCII fold
    to an s and to a k. *)
Fixpoint foldName (s : list Z) : list Z :=
  match s with
  | [] => []
  | 197 :: 191 :: s => 115 :: foldName s
  | 226 :: 132 :: 170 :: s => 107 :: foldName s
  | c :: s => (if (65 <=? c) && (c <=? 90) then c + 32 else c) :: foldName s
  end.

Definition decoder (A : Type) : Type := json → A → option A.

(** The entries of an object that go to the field [name], in order. *)
Fixpoint decodeField {A} (dec : decoder A) (name : list Z) (o : list (list Z * json)) (a : A) : option A :=
  match o with
  | [] => Some a
  | (k, v) :: o =>
      if bool_decide (foldName k = foldName name) then a ← dec v a; decodeField dec name o a
      else decodeField dec name o a
  end.

Definition decodeUint64 : decoder Z := λ j a,
  match j with
  | jNull => Some a
  | jNumber (Some n) => if (0 <=? n) && (n <? 2 ^ 64) then Some n else None
  | _ => None
  end.
Definition decodeBool : decoder bool := λ j a,
  match j with jNull => Some a | jBool b => Some b | _ => None end.
Definition decodeString : decoder (list Z) := λ j a,
  match j with jNull => Some a | jString s => Some s | _ => None end.

(** A type with [UnmarshalText], which does not see a null. *)
Definition decodeText {A} (UnmarshalText : list Z → option A) : decoder A := λ j a,
  match j with jNull => Some a | jString s => UnmarshalText s | _ => None end.

(** A pointer: null sets it to nil. *)
Definition decodePointer {A} (zero : A) (dec : decoder A) : decoder (option A) := λ j a,
  match j with jNull => Some None | _ => Some <$> dec j (default zero a) end.

(** [json.RawMessage], with [None] for nil. *)
Definition decodeRaw : decoder (option json) := λ j _, Some (Some j).

(** Slices, of raw messages and of addresses. *)
Definition decodeRaws : decoder (list json) := λ j _,
  match j with jNull => Some [] | jArray l => Some l | _ => None end.
Definition decodeAddresses : decoder (list Address) := λ j _,
  match j with
  | jNull => Some []
  | jArray l => mapM (λ j, decodeText Address_UnmarshalText j ZeroAddress) l
  | _ => None
  end.

(** An object is read into a struct by [fields]; null changes nothing. *)
Definition decodeStruct {A} (fields : list (list Z * json) → A → option A) : decoder A := λ j a,
  match j with jNull => Some a | jObject o => fields o a | _ => None end.

(** ** validators/bls.go *)

Definition BLSValidatorPublicKey_String (k : list Z) : list Z := EncodeToHex k.
Definition BLSValidatorPublicKey_MarshalText (k : list Z) : list Z := BLSValidatorPublicKey_String k.
Definition BLSValidatorPublicKey_UnmarshalText (input : list Z) : option (list Z) :=
  let '(kk, ok) := DecodeHex input in if ok then Some kk else None.

(** The key is a slice: null sets it to nil. *)
Definition decodeKey : decoder (list Z) := λ j a,
  match j with jNull => Some [] | _ => decodeText BLSValidatorPublicKey_UnmarshalText j a end.

Section json.
Context `{Keccak}.

Definition encodeAddress (a : Address) : json := jString (Address_String a).

(** ** The two structs of validators *)

Definition encodeValidator (v : Validator) : json :=
  match v with
  | ECDSAValidator a => jObject [(lit "Address", encodeAddress a)]
  | BLSValidator a k =>
      jObject [(lit "Address", encodeAddress a); (lit "BLSPublicKey", jString (BLSValidatorPublicKey_MarshalText k))]
  end.

Definition decodeValidator : decoder Validator := decodeStruct (λ o v,
  match v with
  | ECDSAValidator a => ECDSAValidator <$> decodeField (decodeText Address_UnmarshalText) (lit "Address") o a
  | BLSValidator a k =>
      a ← decodeField (decodeText Address_UnmarshalText) (lit "Address") o a;
      k ← decodeField decodeKey (lit "BLSPublicKey") o k;
      Some (BLSValidator a k)
  end).

(** ** validators/set.go *)

Definition Set_MarshalJSON (s : VSet) : json := jArray (encodeValidator <$> vsVals s).

Definition newValidator (t : ValidatorType) : option Validator :=
  match NewValidatorFromType t with Returns v => Some v | _ => None end.

Definition Set_UnmarshalJSON : decoder VSet := λ data s,
  rawValidators ← decodeRaws data [];
  validators ← mapM (λ raw, v ← newValidator (vsType s); decodeValidator raw v) rawValidators;
  Some (mkSet (vsType s) validators).

(** ** validators/store/types.go *)

Definition encodeVote (v : Vote) : json :=
  jObject [(lit "Validator", encodeAddress (voter v)); (lit "Candidate", encodeValidator (voteFor v)); (lit "Authorize", jBool (voteAuth v))].

Definition Vote_UnmarshalJSON (data : json) (v : Vote) : option Vote :=
  match data with
  | jNull | jObject _ =>
      let o := match data with jObject o => o | _ => [] end in
      validator ← decodeField (decodeText Address_UnmarshalText) (lit "Validator") o ZeroAddress;
      authorize ← decodeField decodeBool (lit "Authorize") o false;
      address ← decodeField (decodePointer ZeroAddress (decodeText Address_UnmarshalText)) (lit "Address") o None;
      candidate ← decodeField decodeRaw (lit "Candidate") o None;
      match candidate, address with
      | Some raw, _ => c ← decodeValidator raw (voteFor v); Some (mkVote validator c authorize)
      | None, Some a =>
          match voteFor v with
          | ECDSAValidator _ => Some (mkVote validator (ECDSAValidator a) authorize)
          | BLSValidator _ _ => None
          end
      | None, None => Some (mkVote validator (voteFor v) authorize)
      end
  | _ => None
  end.

(** ** validators/store/snapshot/types.go *)

(** The votes and the set of a snapshot are never nil. *)
Definition Snapshot_MarshalJSON (s : Snapshot) : json :=
  jObject [(lit "Number", jNumber (Some (snNumber s))); (lit "Hash", jString (snHash s));
           (lit "Votes", jArray (encodeVote <$> snVotes s));
           (lit "Type", jString (vsType (snSet s))); (lit "Set", Set_MarshalJSON (snSet s))].

Definition unmarshalVotesJSON (valType : ValidatorType) (rawVotes : list json) : option (list Vote) :=
  mapM (λ raw, candidate ← newValidator valType; Vote_UnmarshalJSON raw (mkVote ZeroAddress candidate false)) rawVotes.

(** A missing set is an empty text, which is an error. *)
Definition unmarshalSetJSON (valType : ValidatorType) (rawSet : option json) (isLegacyFormat : bool) : option VSet :=
  rawSet ← rawSet;
  if isLegacyFormat then addrs ← decodeAddresses rawSet []; Some (NewECDSAValidatorSet addrs)
  else s ← NewValidatorSetFromType valType; Set_UnmarshalJSON rawSet s.

Definition Snapshot_UnmarshalJSON (data : json) : option Snapshot :=
  match data with
  | jNull | jObject _ =>
      let o := match data with jObject o => o | _ => [] end in
      number ← decodeField decodeUint64 (lit "Number") o 0;
      hash ← decodeField decodeString (lit "Hash") o [];
      typ ← decodeField decodeString (lit "Type") o [];
      rawVotes ← decodeField decodeRaws (lit "Votes") o [];
      rawSet ← decodeField decodeRaw (lit "Set") o None;
      let isLegacyFormat := bool_decide (typ = []) in
      valType ← (if isLegacyFormat then Some ECDSAValidatorType
                 else match ParseValidatorType typ with Returns t => Some t | _ => None end);
      votes ← unmarshalVotesJSON valType rawVotes;
      set ← unmarshalSetJSON valType rawSet isLegacyFormat;
      Some (mkSnap number hash votes set)
  | _ => None
  end.

(** [SnapshotMetadata] has one field. *)
Definition encodeMetadata (lastBlock : Z) : json := jObject [(lit "LastBlock", jNumber (Some lastBlock))].
Definition decodeMetadata : decoder Z := decodeStruct (λ o a, decodeField decodeUint64 (lit "LastBlock") o a).

End json.

(** ** Reading what was written *)

Lemma mapM_fmap_id {A B} (f : B → option A) (g : A → B) (l : list A) :
  Forall (λ x, f (g x) = Some x) l → mapM f (g <$> l) = Some l.
Proof. induction 1 as [|x l Hx _ IH]; [done|]. rewrite fmap_cons. cbn. rewrite Hx. cbn. by rewrite IH. Qed.

(** Evaluates the comparisons of names. *)
Ltac decode_fields :=
  cbn [decodeField];
  repeat match goal with
  | |- context [bool_decide (foldName ?a = foldName ?b)] =>
      let r := eval vm_compute in (bool_decide (foldName a = foldName b)) in
      replace (bool_decide (foldName a = foldName b)) with r by (vm_compute; reflexivity); cbn [decodeField]
  end.

Section json.
Context `{Keccak}.

Definition validator_wf (t : ValidatorType) (v : Validator) : Prop :=
  vType v = t ∧ addr_ok (Addr v) ∧ match v with ECDSAValidator _ => True | BLSValidator _ k => bytes_ok k end.

Definition type_wf (t : ValidatorType) : Prop := t = ECDSAValidatorType ∨ t = BLSValidatorType.

Record snapshot_wf (s : Snapshot) : Prop := {
  wf_number : 0 ≤ snNumber s < 2 ^ 64;
  wf_type : type_wf (vsType (snSet s));
  wf_set : Forall (validator_wf (vsType (snSet s))) (vsVals (snSet s));
  wf_votes : Forall (λ v, addr_ok (voter v) ∧ validator_wf (vsType (snSet s)) (voteFor v)) (snVotes s);
}.

Lemma decodeAddress_roundtrip a b : addr_ok a → decodeText Address_UnmarshalText (encodeAddress a) b = Some a.
Proof. apply Address_UnmarshalText_String. Qed.

Lemma decodePointer_roundtrip a b :
  addr_ok a → decodePointer ZeroAddress (decodeText Address_UnmarshalText) (encodeAddress a) b = Some (Some a).
Proof. intros Ha. unfold decodePointer, encodeAddress, decodeText. by rewrite Address_UnmarshalText_String. Qed.

Lemma validator_roundtrip t v :
  type_wf t → validator_wf t v → (v0 ← newValidator t; decodeValidator (encodeValidator v) v0) = Some v.
Proof.
  intros _ (Ht & Ha & Hk). subst t. destruct v as [a|a k]; cbn [vType Addr] in *.
  - change (newValidator ECDSAValidatorType) with (Some (ECDSAValidator ZeroAddress)). cbn [mbind option_bind].
    unfold encodeValidator, decodeValidator, decodeStruct. decode_fields. by rewrite decodeAddress_roundtrip.
  - change (newValidator BLSValidatorType) with (Some (BLSValidator ZeroAddress [])). cbn [mbind option_bind].
    unfold encodeValidator, decodeValidator, decodeStruct. decode_fields. rewrite decodeAddress_roundtrip by done.
    cbn [mbind option_bind decodeKey decodeText]. decode_fields.
    unfold BLSValidatorPublicKey_UnmarshalText, BLSValidatorPublicKey_MarshalText, BLSValidatorPublicKey_String.
    by rewrite DecodeHex_EncodeToHex.
Qed.

Lemma vote_roundtrip t v :
  type_wf t → addr_ok (voter v) → validator_wf t (voteFor v) →
  (candidate ← newValidator t; Vote_UnmarshalJSON (encodeVote v) (mkVote ZeroAddress candidate false)) = Some v.
Proof.
  intros Ht Ha Hv. pose proof (validator_roundtrip t _ Ht Hv) as E. destruct (newValidator t) as [c|]; [|done].
  cbn [mbind option_bind] in E |- *. unfold encodeVote, Vote_UnmarshalJSON. decode_fields.
  rewrite decodeAddress_roundtrip by done. cbn [mbind option_bind]. decode_fields.
  unfold decodeRaw. cbn [mbind option_bind decodeBool voteFor]. decode_fields. cbn [mbind option_bind]. rewrite E. cbn. by destruct v.
Qed.

Lemma set_roundtrip s :
  type_wf (vsType s) → Forall (validator_wf (vsType s)) (vsVals s) →
  (s0 ← NewValidatorSetFromType (vsType s); Set_UnmarshalJSON (Set_MarshalJSON s) s0) = Some s.
Proof.
  intros Ht Hv. assert (∃ s0, NewValidatorSetFromType (vsType s) = Some s0 ∧ vsType s0 = vsType s) as (s0 & -> & E0)
    by (destruct Ht as [-> | ->]; by eexists).
  cbn [mbind option_bind]. unfold Set_MarshalJSON, Set_UnmarshalJSON. cbn [decodeRaws mbind option_bind]. rewrite E0.
  rewrite mapM_fmap_id; [by destruct s|]. eapply Forall_impl; [exact Hv|]. intros v. by apply validator_roundtrip.
Qed.

Lemma snapshot_roundtrip s : snapshot_wf s → Snapshot_UnmarshalJSON (Snapshot_MarshalJSON s) = Some s.
Proof.
  intros [Hn Ht Hs Hv]. unfold Snapshot_MarshalJSON, Snapshot_UnmarshalJSON. decode_fields.
  cbn [decodeUint64]. rewrite (proj2 (Z.leb_le 0 _)), (proj2 (Z.ltb_lt _ (2 ^ 64))) by lia. cbn [andb mbind option_bind].
  decode_fields. cbn [decodeString mbind option_bind]. decode_fields. cbn [decodeRaws decodeRaw mbind option_bind]. decode_fields.
  cbn [decodeRaws decodeRaw mbind option_bind]. decode_fields.
  rewrite bool_decide_false by (by destruct Ht as [-> | ->]).
  assert (match ParseValidatorType (vsType (snSet s)) with Returns t => Some t | _ => None end = Some (vsType (snSet s))) as ->
    by (by destruct Ht as [-> | ->]).
  cbn [mbind option_bind]. unfold unmarshalVotesJSON. rewrite mapM_fmap_id.
  - cbn [mbind option_bind unmarshalSetJSON]. rewrite set_roundtrip by done. by destruct s.
  - eapply Forall_impl; [exact Hv|]. intros v [Ha Hc]. by apply vote_roundtrip.
Qed.

(** *** The older form *)

Definition legacyVote (v : Address * Address * bool) : json :=
  let '(validator, address, authorize) := v in
  jObject [(lit "Validator", encodeAddress validator); (lit "Address", encodeAddress address); (lit "Authorize", jBool authorize)].

Definition legacySnapshot (number : Z) (hash : list Z) (votes : list (Address * Address * bool)) (set : list Address) : json :=
  jObject [(lit "Number", jNumber (Some number)); (lit "Hash", jString hash);
           (lit "Votes", jArray (legacyVote <$> votes)); (lit "Set", jArray (encodeAddress <$> set))].

Lemma legacy_votes votes :
  Forall (λ '(v, a, _), addr_ok v ∧ addr_ok a) votes →
  unmarshalVotesJSON ECDSAValidatorType (legacyVote <$> votes)
  = Some ((λ '(v, a, b), mkVote v (ECDSAValidator a) b) <$> votes).
Proof.
  unfold unmarshalVotesJSON. induction 1 as [|[[v a] b] votes [Hv Ha] _ IH]; [done|]. rewrite !fmap_cons. cbn [mapM].
  change (newValidator ECDSAValidatorType) with (Some (ECDSAValidator ZeroAddress)) in IH |- *. cbn [mbind option_bind] in IH |- *.
  assert (Vote_UnmarshalJSON (legacyVote (v, a, b)) (mkVote ZeroAddress (ECDSAValidator ZeroAddress) false)
          = Some (mkVote v (ECDSAValidator a) b)) as ->.
  { unfold legacyVote, Vote_UnmarshalJSON. decode_fields. rewrite decodeAddress_roundtrip by done. cbn [mbind option_bind decodeBool].
    decode_fields. cbn [mbind option_bind decodeBool]. by rewrite decodePointer_roundtrip. }
  cbn [mbind option_bind]. by rewrite IH.
Qed.

Lemma legacy_read number hash votes set :
  0 ≤ number < 2 ^ 64 → Forall (λ '(v, a, _), addr_ok v ∧ addr_ok a) votes → Forall addr_ok set →
  Snapshot_UnmarshalJSON (legacySnapshot number hash votes set)
  = Some (mkSnap number hash ((λ '(v, a, b), mkVote v (ECDSAValidator a) b) <$> votes) (NewECDSAValidatorSet set)).
Proof.
  intros Hn Hv Hs. unfold legacySnapshot, Snapshot_UnmarshalJSON. decode_fields.
  cbn [decodeUint64]. rewrite (proj2 (Z.leb_le 0 _)), (proj2 (Z.ltb_lt _ (2 ^ 64))) by lia. cbn [andb mbind option_bind].
  decode_fields. cbn [decodeString mbind option_bind]. decode_fields. cbn [decodeRaws decodeRaw mbind option_bind]. decode_fields.
  cbn [decodeRaw mbind option_bind]. decode_fields. rewrite bool_decide_true by done. cbn [mbind option_bind].
  rewrite legacy_votes by done. cbn [mbind option_bind unmarshalSetJSON decodeAddresses].
  rewrite mapM_fmap_id; [done|]. eapply Forall_impl; [exact Hs|]. intros a Ha. by apply decodeAddress_roundtrip.
Qed.

End json.

(** ** helper.go *)

Inductive file := unreadable | malformed | holds (j : json).

Definition Disk : Type := gmap (list Z) file.

(** [os.WriteFile] of the JSON text of a value. *)
Class Os := { os_WriteFile : Disk → list Z → json → bool * Disk }.

Class OsLaws `{Os} : Prop := {
  os_WriteFile_ok d path j d' : os_WriteFile d path j = (true, d') → d' = <[path := holds j]> d;
}.

(** A file that does not exist leaves the object as it is. *)
Definition readDataStore {A} (dec : decoder A) (d : Disk) (path : list Z) (obj : A) : result ferror A :=
  match d !! path with
  | None => Returns obj
  | Some unreadable => Errors errFile
  | Some malformed => Errors errJSON
  | Some (holds j) => or_error errJSON (dec j obj)
  end.

Definition loadSnapshotMetadata (d : Disk) (path : list Z) : result ferror (option Z) :=
  readDataStore (decodePointer 0 decodeMetadata) d path None.

(** A null in the list is a nil snapshot, [None]. *)
Definition decodeSnapshots : decoder (list (option Snapshot)) := λ j _,
  match j with
  | jNull => Some []
  | jArray l => mapM (λ j, match j with jNull => Some None | _ => Some <$> Snapshot_UnmarshalJSON j end) l
  | _ => None
  end.

(** The store that is made from the snapshots reads the number of each: a
    nil one makes it panic. *)
Definition loadSnapshots (d : Disk) (path : list Z) : result ferror (list Snapshot) :=
  snaps ← readDataStore decodeSnapshots d path [];
  or_panic (mapM id snaps).

Section files.
Context `{Keccak, Os}.

Definition writeDataStore (d : Disk) (path : list Z) (obj : json) : result ferror unit * Disk :=
  let '(ok, d) := os_WriteFile d path obj in (if ok then Returns tt else Errors errFile, d).

(** ** storewrapper.go *)

Definition snapshotMetadataFilename : list Z := lit "metadata".
Definition snapshotSnapshotsFilename : list Z := lit "snapshots".

(** [filepath.Join] of a clean path to a directory, not the root, and a name. *)
Definition Join (dirPath name : list Z) : list Z := dirPath ++ lit "/" ++ name.

Definition GetSnapshotMetadata (sv : SnapshotValidatorStore) : Z := lastNumber (svStore sv).
Definition GetSnapshots (sv : SnapshotValidatorStore) : list Snapshot := snaps (svStore sv).

Definition snapshot_Close (dirPath : list Z) (w : SnapshotValidatorStore) (d : Disk) : result ferror unit * Disk :=
  let metadata := GetSnapshotMetadata w in
  let snapshots := GetSnapshots w in
  match writeDataStore d (Join dirPath snapshotMetadataFilename) (encodeMetadata metadata) with
  | (Returns _, d) =>
      writeDataStore d (Join dirPath snapshotSnapshotsFilename) (jArray (Snapshot_MarshalJSON <$> snapshots))
  | (r, d) => (r, d)
  end.

(** ** manager.go *)

Context `{Rlp, Secp256k1, Bls, SortSnaps, StakingABI, TxQueryHandler, !Lru Z VSet}.

(** The stores in the order Go visits the map; a nil one makes it panic. *)
Fixpoint closeStores (dirPath : list Z) (stores : list (option ValidatorStore)) (d : Disk) : result ferror unit * Disk :=
  match stores with
  | [] => (Returns tt, d)
  | None :: _ => (Panics, d)
  | Some (ContractValidatorStoreWrapper _) :: stores => closeStores dirPath stores d
  | Some (SnapshotValidatorStoreWrapper s) :: stores =>
      match snapshot_Close dirPath s d with
      | (Returns _, d) => closeStores dirPath stores d
      | (r, d) => (r, d)
      end
  end.

Definition Close (order : list SourceType) (dirPath : list Z) (m : ForkManager) (d : Disk) : result ferror unit * Disk :=
  closeStores dirPath (omap (λ t, validatorStores m !! t) order) d.

End files.

(** ** A restart *)

Section restart.
Context `{Keccak, Os, !OsLaws}.

Lemma decodeMetadata_roundtrip n : 0 ≤ n < 2 ^ 64 → decodePointer 0 decodeMetadata (encodeMetadata n) None = Some (Some n).
Proof.
  intros Hn. unfold decodePointer, encodeMetadata, decodeMetadata, decodeStruct. decode_fields. cbn [decodeUint64 default].
  by rewrite (proj2 (Z.leb_le 0 _)), (proj2 (Z.ltb_lt _ (2 ^ 64))) by lia.
Qed.

Lemma decodeSnapshots_roundtrip l :
  Forall snapshot_wf l → decodeSnapshots (jArray (Snapshot_MarshalJSON <$> l)) [] = Some (Some <$> l).
Proof.
  unfold decodeSnapshots. induction 1 as [|s l Hs _ IH]; [done|]. rewrite !fmap_cons. cbn [mapM].
  assert (match Snapshot_MarshalJSON s with jNull => Some None | _ => Some <$> Snapshot_UnmarshalJSON (Snapshot_MarshalJSON s) end
          = Some (Some s)) as -> by (rewrite snapshot_roundtrip by done; done).
  cbn [mbind option_bind]. by rewrite IH.
Qed.

Lemma mapM_id_Some {A} (l : list A) : mapM id (Some <$> l) = Some l.
Proof. apply (mapM_fmap_id id Some). by apply Forall_true. Qed.

Lemma Close_files dirPath sv d d' :
  0 ≤ lastNumber (svStore sv) < 2 ^ 64 → Forall snapshot_wf (snaps (svStore sv)) →
  snapshot_Close dirPath sv d = (Returns tt, d') →
  loadSnapshotMetadata d' (Join dirPath snapshotMetadataFilename) = Returns (Some (lastNumber (svStore sv))) ∧
  loadSnapshots d' (Join dirPath snapshotSnapshotsFilename) = Returns (snaps (svStore sv)).
Proof.
  intros Hn Hs E. unfold snapshot_Close, writeDataStore in E.
  destruct (os_WriteFile d _ _) as [[] d1] eqn:E1; [|done]. destruct (os_WriteFile d1 _ _) as [[] d2] eqn:E2; [|done].
  injection E as <-. apply os_WriteFile_ok in E1 as ->, E2 as ->.
  assert (Join dirPath snapshotSnapshotsFilename ≠ Join dirPath snapshotMetadataFilename) as Hne
    by (unfold Join; intros ?%app_inv_head%app_inv_head; done).
  unfold loadSnapshotMetadata, loadSnapshots, readDataStore, Disk in *. split.
  - rewrite lookup_insert_ne, lookup_insert_eq by done. unfold GetSnapshotMetadata. by rewrite decodeMetadata_roundtrip.
  - rewrite lookup_insert_eq. unfold GetSnapshots. rewrite decodeSnapshots_roundtrip by done.
    cbn [or_error mbind result_bind]. by rewrite mapM_id_Some.
Qed.

Context `{Rlp, Secp256k1, Bls, SortSnapsLaws, StakingABI, TxQueryHandler, !Lru Z VSet}.

Lemma load_increasing l s :
  increasing (snaps s ++ l) → fold_left (λ s snap, addSnap snap s) l s = set_snaps (snaps s ++ l) s.
Proof.
  revert s. induction l as [|x l IH]; intros s Hi; cbn [fold_left].
  - rewrite app_nil_r. by destruct s.
  - replace (snaps s ++ x :: l) with ((snaps s ++ [x]) ++ l) in Hi by (by rewrite <- app_assoc).
    rewrite addSnap_end by (by apply increasing_app in Hi as [? _]). rewrite IH by done. cbn. by rewrite <- app_assoc.
Qed.

Lemma newSnapshotStore_saved s :
  increasing (snaps s) → newSnapshotStore (Some (lastNumber s)) (snaps s) = s.
Proof. intros Hi. unfold newSnapshotStore, loadData. rewrite load_increasing by done. by destruct s. Qed.

(** C25. A restart. What a snapshot store writes when the node stops is what
    the node reads when it starts: every snapshot with its votes and its
    validators, of either kind. If the chain has grown in between, within the
    epoch, the store it makes is the one it would have had by processing
    these headers without stopping; otherwise it is the store that was
    written. Only the candidates, for which the operator has asked the node
    to vote, are lost. *)
Theorem node_restarts dirPath sv d d' blockchain m (Hh : Z → vstate) :
  let n := lastNumber (svStore sv) in
  let head := hNumber (hgHeader blockchain) in
  records (svStore sv) Hh → n < 2 ^ 64 - 1 → Forall snapshot_wf (snaps (svStore sv)) →
  snapshot_Close dirPath sv d = (Returns tt, d') →
  0 < head → n ≤ head → 0 < fmEpochSize m → head / fmEpochSize m = n / fmEpochSize m →
  NewSnapshotValidatorStoreWrapper
    (loadSnapshotMetadata d' (Join dirPath snapshotMetadataFilename))
    (loadSnapshots d' (Join dirPath snapshotSnapshotsFilename)) blockchain m
  = if n =? head then Returns (SnapshotValidatorStoreWrapper (mkSVS (svStore sv) []))
    else match ProcessHeadersInRange blockchain (getSignerInterface m) (fmEpochSize m) (n + 1) head (mkSVS (svStore sv) []) with
         | Returns sv' => Returns (SnapshotValidatorStoreWrapper sv')
         | Errors (e, _) => Errors (errSnapshotStore e)
         | Panics => Panics
         end.
Proof.
  intros n head Hr Hb Hwf Ec Hpos Hle He Hepoch. pose proof (oldest_range _ _ Hr) as Ho.
  destruct (Close_files dirPath sv d d' ltac:(subst n; lia) Hwf Ec) as [Em Es].
  unfold NewSnapshotValidatorStoreWrapper. rewrite Em, Es. cbn [mbind result_bind].
  unfold NewSnapshotValidatorStore. rewrite newSnapshotStore_saved by apply Hr.
  unfold initialize. fold head. cbn [svStore]. rewrite (proj2 (Z.eqb_neq head 0)) by lia. cbn [mbind result_bind svStore].
  rewrite (proj2 (Z.eqb_neq _ 0)) by lia. fold n. rewrite Hepoch, Z.ltb_irrefl, orb_false_r.
  destruct (serves_ge (svStore sv) head (rec_increasing _ _ Hr) (rec_nonempty _ _ Hr) ltac:(subst n; lia)) as (_ & x & _ & _ & _ & ->).
  rewrite bool_decide_false by done. unfold catch_up. fold head. cbn [svStore]. fold n.
  destruct (Z.ltb_spec n head) as [Hlt|Hge].
  - rewrite (proj2 (Z.eqb_neq n head)) by lia. unfold u64. rewrite Z.mod_small by (subst n; lia).
    by destruct (ProcessHeadersInRange _ _ _ _ _ _) as [|[e ?]|].
  - by rewrite (proj2 (Z.eqb_eq n head)) by lia.
Qed.

End restart.

Module RestartExample.

#[export] Existing Instances tree_fastrlp tree_rlp SignerExamples.low_keccak CryptoProps.plain_curve SignerExamples.unit_bls merge_sort_snaps merge_sort_snaps_laws.
#[export] Existing Instances IbftForkProps.ForkExample.number_abi IbftForkProps.ForkExample.number_transition.

#[export] Instance plain_os : Os := {| os_WriteFile d path j := (true, <[path := holds j]> d) |}.
#[export] Instance plain_os_laws : OsLaws.
Proof. split. intros d path j d' E. by injection E as <-. Qed.

(** Two validators with BLS keys; the first has voted for a third. *)
Definition bls_snap : Snapshot :=
  mkSnap 7 (lit "0x07") [mkVote (addr_of 1) (BLSValidator (addr_of 3) [3]) true]
    (NewBLSValidatorSet [(addr_of 1, [1]); (addr_of 2, [2])]).
Definition stopped : SnapshotValidatorStore :=
  mkSVS (mkStore 7 [bls_snap]) [mkCandidate (BLSValidator (addr_of 4) [4]) true].

Definition restarted_manager : ForkManager := mkForkManager [] 5 ∅ ∅ ∅.

Lemma bls_snap_wf : snapshot_wf bls_snap.
Proof.
  split; cbn; [lia|by right| |].
  - repeat constructor; cbn; first [apply length_be_encode|apply be_encode_ok|lia|done].
  - repeat constructor; cbn; first [apply length_be_encode|apply be_encode_ok|lia|done].
Qed.

Lemma node_restarts_witness :
  let d' := (snapshot_Close (lit "data") stopped ∅).2 in
  NewSnapshotValidatorStoreWrapper
    (loadSnapshotMetadata d' (Join (lit "data") snapshotMetadataFilename))
    (loadSnapshots d' (Join (lit "data") snapshotSnapshotsFilename)) (IbftForkProps.ForkExample.chain_of 7) restarted_manager
  = Returns (SnapshotValidatorStoreWrapper (mkSVS (mkStore 7 [bls_snap]) [])).
Proof.
  refine (node_restarts (lit "data") stopped ∅ _ (IbftForkProps.ForkExample.chain_of 7) restarted_manager
    (λ _, content bls_snap) (records_single bls_snap _) _ _ _ _ _ _ _); [cbn; lia|cbn; lia| |done|cbn; lia|cbn; lia|cbn; lia|done].
  apply Forall_singleton, bls_snap_wf.
Defined.

End RestartExample.
