(* ===== verification/Archive.v ===== *)
(** * Backups of the chain (archive, server/system_service.go)

    A node exports its blocks in events of bounded size (system_service.go);
    the client writes them to a file behind a record of the latest block
    (archive/backup.go, types.go); another node reads the file block by
    block, skips the blocks it has and writes the others (archive/restore.go).

    The file is read through [io.Reader], which may return less than was
    asked for; the buffer of the reader is the memory up to its capacity,
    where a read leaves what it does not overwrite. The calls over gRPC, the
    file system and the chain are arguments. *)

From Stdlib Require Import String.
From S2P Require Import Prelude BigInt Types Runtime EvmState Rlp BlockTypes Hex Result.
#[local] Open Scope Z_scope.

Inductive aerror :=
  | errEOF | errNotArray | errRLP | errNoMetadata | errGenesis | errVerify | errWriteBlock
  | errRange | errSend | errPending | errStream | errNoBlocks | errFile | errStatus.

(** ** archive/types.go *)

Record Metadata := mkMetadata {
  Latest : Z;
  LatestHash : Hash;
}.

Section archive.
Context `{Rlp, !Keccak, !GoRuntime}.
Context (HeaderHash : Header → Hash).

Definition Metadata_MarshalRLPWith (m : Metadata) : rlp_value :=
  rlp_array [rlp_uint (Latest m); rlp_bytes (LatestHash m)].

Definition Metadata_MarshalRLP (m : Metadata) : list Z := rlp_marshal (Metadata_MarshalRLPWith m).

Definition Metadata_UnmarshalRLPFrom (v : rlp_value) : option Metadata :=
  elems ← atLeast 2 v;
  latest ← (elems !! 0%nat ≫= rlp_getuint);
  hash ← (elems !! 1%nat ≫= rlp_getfixed HashLength);
  Some (mkMetadata latest hash).

Definition Metadata_UnmarshalRLP (input : list Z) : option Metadata := UnmarshalRlp Metadata_UnmarshalRLPFrom input.

(** ** server/system_service.go: Export *)

Definition defaultMaxGRPCPayloadSize : Z := 512 * 1024.
Definition maxHeaderInfoSize : Z := 3 * 8.

Record ExportEvent := mkEvent {
  evFrom : Z;
  evTo : Z;
  evLatest : Z;
  evData : list Z;
}.

(** [sent] lists the events given to the stream. *)
Record blockStreamWriter := mkWriter {
  buf : list Z;
  pendingFrom : option Z;
  pendingTo : option Z;
  sent : list ExportEvent;
}.

Definition newBlockStreamWriter : blockStreamWriter := mkWriter [] None None [].

Section export.
(** The chain the service reads, the number of its head when the writer is in
    a state (the chain may grow), whether the stream takes an event, and the
    limit. *)
Context (GetBlockByNumber : Z → option Block) (current : blockStreamWriter → option Z) (takes : list ExportEvent → bool) (maxPayload : Z).

Definition reset (w : blockStreamWriter) : blockStreamWriter := mkWriter [] None None (sent w).

Definition flush (w : blockStreamWriter) : result aerror blockStreamWriter :=
  if zlen (buf w) =? 0 then Returns w else
  match pendingFrom w, pendingTo w with
  | Some from, Some to =>
      latest ← or_panic (current w);
      let sent' := sent w ++ [mkEvent from to latest (buf w)] in
      if takes sent' then Returns (reset (mkWriter (buf w) (pendingFrom w) (pendingTo w) sent')) else Errors errSend
  | _, _ => Errors errPending
  end.

Definition appendBlock (b : Block) (w : blockStreamWriter) : result aerror blockStreamWriter :=
  let data := Block_MarshalRLP b in
  w ← (if maxPayload <=? u64 (maxHeaderInfoSize + zlen (buf w) + zlen data) then flush w else Returns w);
  let n := Block_Number b in
  Returns (mkWriter (buf w ++ data) (Some (default n (pendingFrom w))) (Some n) (sent w)).

(** The loop from [i] on; [None] is an end that is not given. *)
Fixpoint export_loop (fuel : nat) (to : option Z) (i : Z) (w : blockStreamWriter) : option (result aerror blockStreamWriter) :=
  match fuel with
  | O => None
  | S fuel =>
      let canLoop := match to with
        | None => match current w with Some number => i <=? number | None => false end
        | Some to => i <=? to
        end in
      if negb canLoop then Some (Returns w) else
      match GetBlockByNumber i with
      | None => Some (Returns w)
      | Some block =>
          match appendBlock block w with
          | Returns w => export_loop fuel to (u64 (i + 1)) w
          | r => Some r
          end
      end
  end.

(** The events sent, when there is no error. *)
Definition Export (fuel : nat) (reqFrom reqTo : Z) : option (result aerror (list ExportEvent)) :=
  if negb (reqTo =? 0) && (reqTo <=? reqFrom) then Some (Errors errRange) else
  r ← export_loop fuel (if reqTo =? 0 then None else Some reqTo) reqFrom newBlockStreamWriter;
  Some (w ← r; w ← flush w; Returns (sent w)).

End export.

(** The status a node reports of its head, and a block it has. *)
Record ServerStatus := mkStatus { statusNumber : Z; statusHash : list Z }.

Definition GetStatus (header : Header) : ServerStatus := mkStatus (i64 (hNumber header)) (Hash_String (hHash header)).

Definition BlockByNumber (GetBlockByNumber : Z → option Block) (number : Z) : option (list Z) :=
  Block_MarshalRLP <$> GetBlockByNumber number.

(** ** archive/backup.go *)

(** [block.UnmarshalRLP] of a new block. *)
Definition readBlock (data : list Z) : option Block :=
  UnmarshalRlp (Block_UnmarshalRLPFrom HeaderHash (mkBlock newHeader [] [] None)) data.

(** The block that is asked for is used only if the node has it. *)
Definition determineTo (status : option ServerStatus) (blockByNumber : Z → option (list Z)) (to : option Z) : result aerror (Z * Hash) :=
  status ← or_error errStatus status;
  let asked :=
    to ← to;
    if u64 (statusNumber status) <=? to then None else
    data ← blockByNumber to;
    block ← readBlock data;
    Some (Block_Number block, Block_Hash block) in
  Returns (default (u64 (statusNumber status), StringToHash (statusHash status)) asked).

(** How a stream of events ends. *)
Inductive streamEnd := endEOF | endCanceled | endError.

Section backup.
(** Whether the file, which holds the first bytes, takes the second. *)
Context (writable : list Z → list Z → bool).

Definition Write (data file : list Z) : result aerror (list Z) :=
  if writable file data then Returns (file ++ data) else Errors errFile.

Definition writeMetadata (to : Z) (toHash : Hash) (file : list Z) : result aerror (list Z) :=
  Write (Metadata_MarshalRLP (mkMetadata to toHash)) file.

Fixpoint processExportStream (events : list ExportEvent) (ending : streamEnd) (fromTo : option (Z * Z)) (file : list Z) :
    result aerror (Z * Z * list Z) :=
  match events with
  | [] =>
      match ending with
      | endEOF | endCanceled => '(from, to) ← or_error errNoBlocks fromTo; Returns (from, to, file)
      | endError => Errors errStream
      end
  | event :: events =>
      file ← Write (evData event) file;
      processExportStream events ending (Some (default (evFrom event) (fst <$> fromTo), evTo event)) file
  end.

(** The file system: whether the file can be created, closed and removed. *)
Context (creatable closable removable : bool).

(** What is left of the file. *)
Inductive archiveFile := absent | partialFile | complete (content : list Z).

Definition closeAndRemoveFile : archiveFile := if closable && removable then absent else partialFile.

(** [export from to] are the events of a request and how their stream ends;
    [None] is an error of the request. *)
Definition CreateBackup (status : option ServerStatus) (blockByNumber : Z → option (list Z))
    (export : Z → Z → option (list ExportEvent * streamEnd)) (from : Z) (to : option Z) :
    result aerror (Z * Z) * archiveFile :=
  if negb creatable then (Errors errFile, absent) else
  match determineTo status blockByNumber to with
  | Errors e => (Errors e, closeAndRemoveFile)
  | Panics => (Panics, partialFile)
  | Returns (reqTo, reqToHash) =>
      match export from reqTo with
      | None => (Errors errStream, closeAndRemoveFile)
      | Some (events, ending) =>
          match file ← writeMetadata reqTo reqToHash []; processExportStream events ending None file with
          | Returns (resFrom, resTo, file) =>
              if closable then (Returns (resFrom, resTo), complete file)
              else (Errors errFile, if removable then absent else partialFile)
          | Errors e => (Errors e, closeAndRemoveFile)
          | Panics => (Panics, partialFile)
          end
      end
  end.

End backup.

(** ** archive/restore.go *)

(** A file that is read: what is left of it, and bounds on what the next
    reads return; without one a read returns all that was asked for. *)
Record reader := mkReader {
  rest : list Z;
  short : list nat;
}.

(** [Read] of a slice of [n] bytes; [None] is the end of the file. *)
Definition Read (n : nat) (r : reader) : option (list Z) * reader :=
  match n, rest r with
  | O, _ => (Some [], r)
  | _, [] => (None, r)
  | _, _ =>
      let k := match short r with [] => n | c :: _ => Nat.min n (Nat.max 1 c) end in
      (Some (take k (rest r)), mkReader (drop k (rest r)) (tail (short r)))
  end.

Record blockStream := mkStream {
  input : reader;
  buffer : list Z;
}.

Definition newBlockStream (r : reader) : blockStream := mkStream r (replicate 1024 0).

(** A computation on the stream. *)
Definition onStream (A : Type) : Type := blockStream → result aerror A * blockStream.

#[local] Instance stream_ret : MRet onStream := λ A a b, (Returns a, b).
#[local] Instance stream_bind : MBind onStream := λ A B f m b,
  match m b with
  | (Returns a, b) => f a b
  | (Errors e, b) => (Errors e, b)
  | (Panics, b) => (Panics, b)
  end.

Definition fails {A} (e : aerror) : onStream A := λ b, (Errors e, b).
Definition panics {A} : onStream A := λ b, (Panics, b).
Definition lift {A} (r : result aerror A) : onStream A := λ b, (r, b).

(** Reads into [b.buffer[lo:hi]]; the number of bytes read. *)
Definition readInto (lo hi : Z) : onStream Z := λ b,
  if negb ((0 <=? lo) && (lo <=? hi) && (hi <=? zlen (buffer b))) then (Panics, b) else
  match Read (Z.to_nat (hi - lo)) (input b) with
  | (None, r) => (Errors errEOF, mkStream r (buffer b))
  | (Some data, r) =>
      (Returns (zlen data),
       mkStream r (take (Z.to_nat lo) (buffer b) ++ data ++ drop (Z.to_nat lo + length data) (buffer b)))
  end.

(** The bytes [b.buffer[lo:hi]]. *)
Definition slice (lo hi : Z) : onStream (list Z) := λ b,
  if negb ((0 <=? lo) && (lo <=? hi) && (hi <=? zlen (buffer b))) then (Panics, b) else
  (Returns (take (Z.to_nat (hi - lo)) (drop (Z.to_nat lo) (buffer b))), b).

(** A slice of more than [2 ^ 48] bytes cannot be made. A size that is
    negative as an int64 is out of range; the difference may then wrap
    around, to a length that cannot be made either. *)
Definition reserveCap (size : Z) : onStream unit := λ b,
  let diff := i64 size - zlen (buffer b) in
  if 0 <? diff then
    if 2 ^ 48 <? diff then (Panics, b) else
    let newCap := growslice (zlen (buffer b)) (zlen (buffer b) + diff) in
    (Returns tt, mkStream (input b) (buffer b ++ replicate (Z.to_nat (newCap - zlen (buffer b))) 0))
  else if size <=? zlen (buffer b) then (Returns tt, b) else (Panics, b).

Definition loadRLPPrefix : onStream Z :=
  _ ← readInto 0 1;
  buf ← slice 0 1;
  lift (or_panic (head buf)).

Definition loadPrefixSize (offset prefix : Z) : onStream (Z * Z) :=
  if (0xc0 <=? prefix) && (prefix <=? 0xf7) then mret (1, prefix - 0xc0) else
  if 0xf8 <=? prefix then
    let payloadSizeSize := prefix - 0xf7 in
    _ ← reserveCap (u64 (offset + payloadSizeSize));
    n ← readInto offset (u64 (offset + payloadSizeSize));
    if n <? payloadSizeSize then fails errEOF else
    payloadSizeBytes ← slice offset (u64 (offset + payloadSizeSize));
    mret (payloadSizeSize + 1, u64 (SetBytes payloadSizeBytes))
  else fails errNotArray.

(** The number of bytes read is not looked at. *)
Definition loadPayload (offset size : Z) : onStream unit :=
  _ ← reserveCap (u64 (offset + size));
  _ ← readInto offset (u64 (offset + size));
  mret tt.

Definition loadRLPArray : onStream Z := λ b,
  match loadRLPPrefix b with
  | (Errors errEOF, b) => (Returns 0, b)
  | (Errors e, b) => (Errors e, b)
  | (Panics, b) => (Panics, b)
  | (Returns prefix, b) =>
      ('(headerSize, payloadSize) ← loadPrefixSize 1 prefix;
       _ ← loadPayload headerSize payloadSize;
       mret (u64 (headerSize + payloadSize))) b
  end.

Definition parseMetadata (size : Z) : onStream Metadata :=
  data ← slice 0 size; lift (or_error errRLP (Metadata_UnmarshalRLP data)).

Definition parseBlock (size : Z) : onStream Block :=
  data ← slice 0 size; lift (or_error errRLP (readBlock data)).

Definition getMetadata : onStream (option Metadata) :=
  size ← loadRLPArray;
  if size =? 0 then mret None else metadata ← parseMetadata size; mret (Some metadata).

Definition nextBlock : onStream (option Block) :=
  size ← loadRLPArray;
  if size =? 0 then mret None else block ← parseBlock size; mret (Some block).

(** The chain the blocks go to. *)
Class blockchainInterface := {
  chain : Type;
  Genesis : chain → Hash;
  chain_GetBlockByNumber : chain → Z → option Block;
  GetHashByNumber : chain → Z → Hash;
  VerifyFinalizedBlock : chain → Block → bool;
  WriteBlock : chain → Block → option chain;
}.

Section restore.
Context `{blockchainInterface}.
(** Whether a signal to stop has come when the loop looks for one, after
    the block it has just read. *)
Context (shutdown : Block → bool).

(** Each turn reads at least one byte: [fuel] is what is left of the file. *)
Fixpoint consumeCommonBlocks (fuel : nat) (c : chain) : onStream (option Block) := λ b,
  match fuel with
  | O => (Panics, b)
  | S fuel =>
      match nextBlock b with
      | (Errors e, b) => (Errors e, b)
      | (Panics, b) => (Panics, b)
      | (Returns None, b) => (Returns None, b)
      | (Returns (Some block), b) =>
          if Block_Number block =? 0 then
            if negb (bool_decide (Block_Hash block = Genesis c)) then (Errors errGenesis, b)
            else consumeCommonBlocks fuel c b
          else if negb (bool_decide (GetHashByNumber c (Block_Number block) = Block_Hash block)) then (Returns (Some block), b)
          else if shutdown block then (Returns None, b) else consumeCommonBlocks fuel c b
      end
  end.

Fixpoint writeBlocks (fuel : nat) (block : Block) (c : chain) (b : blockStream) : result aerror unit * chain :=
  match fuel with
  | O => (Panics, c)
  | S fuel =>
      if negb (VerifyFinalizedBlock c block) then (Errors errVerify, c) else
      match WriteBlock c block with
      | None => (Errors errWriteBlock, c)
      | Some c =>
          match nextBlock b with
          | (Errors e, _) => (Errors e, c)
          | (Panics, _) => (Panics, c)
          | (Returns None, _) => (Returns tt, c)
          | (Returns (Some block), b) => if shutdown block then (Returns tt, c) else writeBlocks fuel block c b
          end
      end
  end.

Definition importBlocks (c : chain) (b : blockStream) : result aerror unit * chain :=
  match getMetadata b with
  | (Errors e, _) => (Errors e, c)
  | (Panics, _) => (Panics, c)
  | (Returns None, _) => (Errors errNoMetadata, c)
  | (Returns (Some metadata), b) =>
      if match chain_GetBlockByNumber c (Latest metadata) with
         | Some latestBlock => bool_decide (Block_Hash latestBlock = LatestHash metadata)
         | None => false
         end then (Returns tt, c) else
      match consumeCommonBlocks (S (length (rest (input b)))) c b with
      | (Errors e, _) => (Errors e, c)
      | (Panics, _) => (Panics, c)
      | (Returns None, _) => (Returns tt, c)
      | (Returns (Some firstBlock), b) => writeBlocks (S (length (rest (input b)))) firstBlock c b
      end
  end.

(** [None] is a file that cannot be opened. *)
Definition RestoreChain (c : chain) (file : option reader) : result aerror unit * chain :=
  match file with
  | None => (Errors errFile, c)
  | Some fp => importBlocks c (newBlockStream fp)
  end.

End restore.
End archive.
