(* ===== verification/ArchiveProps.v ===== *)
(** * A backup restores the chain

    The events of an export carry the blocks in order and stay below the
    limit; the file the client writes is the metadata followed by the
    blocks; reading it gives the blocks back, and restoring writes exactly
    those the chain lacks. A file that is cut off inside a block is not
    noticed: the block is completed with what the buffer holds. *)

From Stdlib Require Import String.
From S2P Require Import Prelude BigInt Types Runtime EvmState Rlp BlockTypes BlockTypesProps Hex Result Archive.
#[local] Open Scope Z_scope.
#[local] Existing Instances stream_ret stream_bind.

(** ** RLP arrays *)

(** The prefix of an array with a payload of [n] bytes. *)
Definition array_prefix (n : Z) : list Z :=
  if n <? 56 then [0xc0 + n] else let l := Bytes n in (0xf7 + zlen l) :: l.

(** fastrlp writes an array as a prefix and its payload. *)
Class RlpHeader `{Rlp} : Prop := {
  marshal_header l : ∃ payload, rlp_marshal (rlp_array l) = array_prefix (zlen payload) ++ payload;
}.

(** ** Reading *)

Section reading.
Context `{!GoRuntime}.

(** The stream has read [pre], has [tl] to read, and every read is full. *)
Record loaded (pre tl : list Z) (b : blockStream) : Prop := {
  ld_cap : 1024 ≤ zlen (buffer b);
  ld_pre : take (length pre) (buffer b) = pre;
  ld_rest : rest (input b) = tl;
  ld_short : short (input b) = [];
}.

Lemma loaded_len pre tl b : loaded pre tl b → (length pre ≤ length (buffer b))%nat.
Proof. intros [_ Hp _ _]. rewrite <- Hp, length_take. lia. Qed.

Lemma reserveCap_ok size pre tl b :
  loaded pre tl b → 0 ≤ size ≤ 2 ^ 48 →
  ∃ b', reserveCap size b = (Returns tt, b') ∧ loaded pre tl b' ∧ size ≤ zlen (buffer b') ∧
    (size ≤ zlen (buffer b) → b' = b).
Proof.
  intros Hl Hs. pose proof (loaded_len _ _ _ Hl) as Hn. destruct Hl as [Hc Hp Hr Hsh]. unfold reserveCap.
  rewrite (i64_small size) by lia. destruct (Z.ltb_spec 0 (size - zlen (buffer b))) as [Hlt|Hge].
  - rewrite (proj2 (Z.ltb_ge _ _)) by lia. eexists. split; [done|].
    pose proof (growslice_ge (zlen (buffer b)) (zlen (buffer b) + (size - zlen (buffer b)))) as Hg.
    split_and!; [split; cbn [buffer input]; [|by rewrite take_app_le by done|done..]|cbn [buffer]|intros; lia];
      unfold zlen in *; rewrite length_app, length_replicate; lia.
  - rewrite (proj2 (Z.leb_le _ _)) by lia. eexists. split; [done|]. split_and!; [by split|lia|done].
Qed.

Lemma readInto_ok pre data tl b :
  loaded pre (data ++ tl) b → zlen pre + zlen data ≤ zlen (buffer b) →
  ∃ b', readInto (zlen pre) (zlen pre + zlen data) b = (Returns (zlen data), b') ∧ loaded (pre ++ data) tl b' ∧
    drop (length (pre ++ data)) (buffer b') = drop (length (pre ++ data)) (buffer b).
Proof.
  intros Hl Hc. pose proof (loaded_len _ _ _ Hl) as Hn. destruct Hl as [Hcap Hp Hr Hs]. unfold readInto.
  rewrite (proj2 (Z.leb_le 0 (zlen pre))), (proj2 (Z.leb_le (zlen pre) (zlen pre + zlen data))), (proj2 (Z.leb_le _ (zlen (buffer b))))
    by (unfold zlen in *; lia).
  cbn [andb negb]. replace (Z.to_nat (zlen pre + zlen data - zlen pre)) with (length data) by (unfold zlen; lia).
  replace (Z.to_nat (zlen pre)) with (length pre) by (unfold zlen; lia).
  assert (Read (length data) (input b) = (Some data, mkReader tl [])) as ->.
  { unfold Read. rewrite Hr, Hs. destruct data as [|x data]; [|cbn [length app]].
    - destruct (input b); cbn in *. by subst.
    - change (x :: data ++ tl) with ((x :: data) ++ tl). cbn [tail]. rewrite (take_app_length (x :: data)). by rewrite (drop_app_length (x :: data)). }
  eexists. split; [done|]. cbn [buffer]. rewrite Hp, app_assoc. split.
  - split; cbn [buffer input]; [..|done|done]; [|by rewrite take_app_length].
    unfold zlen in *. rewrite length_app, length_drop, length_app. lia.
  - by rewrite drop_app_length, length_app.
Qed.

Lemma slice_ok pre data tl b : loaded (pre ++ data) tl b → slice (zlen pre) (zlen pre + zlen data) b = (Returns data, b).
Proof.
  intros Hl. pose proof (loaded_len _ _ _ Hl) as Hn. destruct Hl as [_ Hp _ _]. rewrite length_app in Hn, Hp. unfold slice.
  rewrite (proj2 (Z.leb_le 0 (zlen pre))), (proj2 (Z.leb_le (zlen pre) (zlen pre + zlen data))), (proj2 (Z.leb_le _ (zlen (buffer b))))
    by (unfold zlen in *; lia).
  cbn [andb negb]. do 2 f_equal. replace (Z.to_nat (zlen pre + zlen data - zlen pre)) with (length data) by (unfold zlen; lia).
  replace (Z.to_nat (zlen pre)) with (length pre) by (unfold zlen; lia).
  rewrite take_drop_commute, Hp. by rewrite drop_app_length.
Qed.

(** ** One array *)

Lemma reread pre tl b : loaded pre tl b → loaded [] tl b.
Proof. intros [Hc _ Hr Hs]. by split. Qed.

Lemma loadRLPPrefix_ok x tl b : loaded [] (x :: tl) b → ∃ b', loadRLPPrefix b = (Returns x, b') ∧ loaded [x] tl b' ∧ drop 1 (buffer b') = drop 1 (buffer b).
Proof.
  intros Hl. destruct (readInto_ok [] [x] tl b Hl) as (b' & Er & Hl' & Hd); [change (zlen [] + zlen [x]) with 1; destruct Hl; lia|]. exists b'. split; [|done].
  change (zlen [] + zlen [x]) with 1 in Er. change (zlen []) with 0 in Er. pose proof (slice_ok [] [x] tl b' Hl') as Es.
  change (zlen [] + zlen [x]) with 1 in Es. change (zlen []) with 0 in Es.
  unfold loadRLPPrefix, mbind, stream_bind. by rewrite Er, Es.
Qed.

Lemma Bytes_size n : 56 ≤ n < 2 ^ 48 → 1 ≤ zlen (Bytes n) ≤ 8.
Proof.
  intros Hn. pose proof (length_Bytes_u64 n ltac:(lia)) as Hl. split; [|unfold zlen; lia].
  destruct (Bytes n) as [|x l] eqn:E; [|unfold zlen; cbn; lia].
  pose proof (SetBytes_Bytes n ltac:(lia)) as Es. rewrite E in Es. cbn in Es. lia.
Qed.

Lemma loadPayload_ok pre payload tl b :
  loaded pre (payload ++ tl) b → zlen pre + zlen payload ≤ 2 ^ 48 →
  ∃ b', loadPayload (zlen pre) (zlen payload) b = (Returns tt, b') ∧ loaded (pre ++ payload) tl b'.
Proof.
  intros Hl Hs. unfold loadPayload. rewrite u64_small by (unfold zlen in *; lia).
  destruct (reserveCap_ok (zlen pre + zlen payload) _ _ _ Hl) as (b1 & E1 & Hl1 & Hc1 & _); [unfold zlen in *; lia|].
  destruct (readInto_ok _ _ _ _ Hl1 Hc1) as (b2 & E2 & Hl2 & _). exists b2. split; [|done].
  unfold mbind, stream_bind. by rewrite E1, E2.
Qed.

(** The prefix of an array gives the sizes of its two parts. *)
Lemma loadPrefixSize_ok x l n tl b :
  array_prefix n = x :: l → 0 ≤ n < 2 ^ 47 → loaded [x] (l ++ tl) b →
  ∃ b', loadPrefixSize 1 x b = (Returns (zlen (x :: l), n), b') ∧ loaded (x :: l) tl b' ∧
    (zlen (x :: l) ≤ zlen (buffer b) → drop (length (x :: l)) (buffer b') = drop (length (x :: l)) (buffer b)).
Proof.
  unfold array_prefix, loadPrefixSize. intros E Hn Hl. destruct (Z.ltb_spec n 56) as [Hs|Hs].
  - injection E as <- <-. rewrite (proj2 (Z.leb_le _ _)), (proj2 (Z.leb_le _ 0xf7)) by lia. cbn [andb].
    exists b. split; [|done]. unfold mret, stream_ret. do 3 f_equal. lia.
  - injection E as <- <-. pose proof (Bytes_size n ltac:(lia)) as Hk.
    rewrite (proj2 (Z.leb_le _ _)), (proj2 (Z.leb_gt _ 0xf7)), (proj2 (Z.leb_le 0xf8 _)) by lia. cbn [andb].
    replace (0xf7 + zlen (Bytes n) - 0xf7) with (zlen (Bytes n)) by lia. set (x := 0xf7 + zlen (Bytes n)) in *.
    rewrite u64_small by lia. change (1 + zlen (Bytes n)) with (zlen [x] + zlen (Bytes n)).
    destruct (reserveCap_ok (zlen [x] + zlen (Bytes n)) _ _ _ Hl) as (b1 & E1 & Hl1 & Hc1 & Hb1); [change (zlen [x]) with 1; lia|].
    destruct (readInto_ok _ _ _ _ Hl1 Hc1) as (b2 & E2 & Hl2 & Hd2). exists b2. split; [|split; [done|]].
    2:{ intros Hc. rewrite Hb1 in Hd2; [done|]. unfold zlen in *. cbn [length] in *. lia. }
    unfold mbind, stream_bind. rewrite E1. change 1 with (zlen [x]) at 1. rewrite E2, Z.ltb_irrefl.
    change 1 with (zlen [x]) at 1. rewrite (slice_ok [x] _ _ _ Hl2). rewrite SetBytes_Bytes, u64_small by lia.
    unfold mret, stream_ret. do 3 f_equal. unfold zlen. cbn [length]. lia.
Qed.

Lemma loadRLPArray_ok payload tl b :
  let e := array_prefix (zlen payload) ++ payload in
  zlen e < 2 ^ 47 → loaded [] (e ++ tl) b → ∃ b', loadRLPArray b = (Returns (zlen e), b') ∧ loaded e tl b'.
Proof.
  intros e Hs Hl. destruct (array_prefix (zlen payload)) as [|x l] eqn:Ep; [unfold array_prefix in Ep; by case_match|].
  unfold e in *. assert (zlen payload < 2 ^ 47 ∧ zlen (x :: l) + zlen payload < 2 ^ 47) as [Hp Ht]
    by (unfold zlen in *; rewrite length_app in Hs; lia).
  cbn [app] in Hl. destruct (loadRLPPrefix_ok _ _ _ Hl) as (b1 & E1 & Hl1 & _). rewrite <- app_assoc in Hl1.
  destruct (loadPrefixSize_ok x l _ _ _ Ep ltac:(unfold zlen in *; lia) Hl1) as (b2 & E2 & Hl2 & _).
  destruct (loadPayload_ok _ _ _ _ Hl2 ltac:(lia)) as (b3 & E3 & Hl3). exists b3. split; [|done].
  unfold loadRLPArray. rewrite E1. unfold mbind, stream_bind. rewrite E2, E3. unfold mret, stream_ret. do 2 f_equal.
  rewrite u64_small by (unfold zlen in *; lia). unfold zlen. rewrite length_app. lia.
Qed.

Lemma loadRLPArray_end b : loaded [] [] b → loadRLPArray b = (Returns 0, b).
Proof.
  intros [Hc _ Hr Hs]. unfold loadRLPArray, loadRLPPrefix, mbind, stream_bind, readInto.
  rewrite (proj2 (Z.leb_le 1 _)) by lia. cbn [Z.leb Z.compare andb negb]. change (Z.to_nat (1 - 0)) with 1%nat.
  unfold Read. rewrite Hr. by destruct b.
Qed.

(** *** A file that ends inside an array *)

(** A read at the end of the file returns what is left. *)
Lemma readInto_cut pre data hi b :
  loaded pre data b → data ≠ [] → zlen pre + zlen data ≤ hi ≤ zlen (buffer b) →
  ∃ b', readInto (zlen pre) hi b = (Returns (zlen data), b') ∧
    buffer b' = pre ++ data ++ drop (length (pre ++ data)) (buffer b).
Proof.
  intros Hl Hne Hhi. pose proof (loaded_len _ _ _ Hl) as Hn. destruct Hl as [Hcap Hp Hr Hs]. unfold readInto.
  rewrite (proj2 (Z.leb_le 0 (zlen pre))), (proj2 (Z.leb_le (zlen pre) hi)), (proj2 (Z.leb_le hi _)) by (unfold zlen in *; lia).
  cbn [andb negb]. destruct data as [|x data]; [done|]. unfold Read. rewrite Hr, Hs.
  destruct (Z.to_nat (hi - zlen pre)) as [|n] eqn:En; [unfold zlen in *; cbn [length] in *; lia|].
  rewrite (take_ge (x :: data)) by (unfold zlen in *; cbn [length] in *; lia). eexists. split; [done|]. cbn [buffer].
  replace (Z.to_nat (zlen pre)) with (length pre) by (unfold zlen; lia). by rewrite Hp, length_app.
Qed.

Lemma loadRLPArray_cut payload k b :
  let prefix := array_prefix (zlen payload) in
  let e := prefix ++ payload in
  zlen e ≤ zlen (buffer b) < 2 ^ 47 → (length prefix < k < length e)%nat → loaded [] (take k e) b →
  ∃ b', loadRLPArray b = (Returns (zlen e), b') ∧ buffer b' = take k e ++ drop k (buffer b).
Proof.
  intros prefix e Hs Hk Hl. unfold e, prefix in *. destruct (array_prefix (zlen payload)) as [|x l] eqn:Ep; [unfold array_prefix in Ep; by case_match|].
  assert (zlen (x :: l) + zlen payload ≤ zlen (buffer b)) as Ht by (unfold zlen in *; rewrite length_app in Hs; lia).
  rewrite take_app_ge in Hl by lia. set (data := take (k - length (x :: l)) payload) in *.
  assert (length data = (k - length (x :: l))%nat) as Ed by (unfold data; rewrite length_take; rewrite length_app in Hk; lia).
  destruct (loadRLPPrefix_ok _ _ _ Hl) as (b1 & E1 & Hl1 & Hd1).
  assert (zlen (buffer b1) = zlen (buffer b)) as Ec1.
  { pose proof (f_equal length Hd1) as Ed1. rewrite !length_drop in Ed1. destruct Hl, Hl1. unfold zlen in *. lia. }
  destruct (loadPrefixSize_ok x l _ _ _ Ep ltac:(unfold zlen in *; lia) Hl1) as (b2 & E2 & Hl2 & Hd2).
  specialize (Hd2 ltac:(unfold zlen in *; lia)).
  assert (zlen (buffer b2) = zlen (buffer b)) as Ec2.
  { pose proof (f_equal length Hd2) as Ed2. rewrite !length_drop in Ed2. pose proof (loaded_len _ _ _ Hl2). unfold zlen in *. lia. }
  destruct (reserveCap_ok (zlen (x :: l) + zlen payload) _ _ _ Hl2) as (b3 & E3 & _ & _ & Hb3); [unfold zlen in *; lia|].
  specialize (Hb3 ltac:(lia)) as ->.
  destruct (readInto_cut _ _ (zlen (x :: l) + zlen payload) _ Hl2) as (b4 & E4 & Hb4).
  { intros En. rewrite En in Ed. cbn [length] in *. lia. }
  { unfold zlen in *. rewrite length_app in Hk. lia. }
  exists b4. split.
  - unfold loadRLPArray. rewrite E1. unfold loadPayload, mbind, stream_bind. rewrite E2, u64_small, E3, E4 by (unfold zlen in *; lia).
    unfold mret, stream_ret. do 2 f_equal. unfold zlen. by rewrite length_app, Nat2Z.inj_add.
  - rewrite Hb4, take_app_ge by lia. fold data. rewrite <- app_assoc. do 2 f_equal.
    rewrite length_app, Ed. replace (length (x :: l) + (k - length (x :: l)))%nat with k by lia.
    transitivity (drop (k - length (x :: l)) (drop (length (x :: l)) (buffer b2))); [rewrite drop_drop; f_equal; lia|].
    rewrite Hd2, drop_drop. replace (length (x :: l) + (k - length (x :: l)))%nat with k by lia.
    transitivity (drop (k - 1) (drop 1 (buffer b1))); [rewrite drop_drop; f_equal; cbn [length] in *; lia|].
    rewrite Hd1, drop_drop. f_equal. cbn [length] in *. lia.
Qed.

End reading.

(** ** The blocks of an archive *)

Section restoring.
Context `{RlpLaws, !RlpHeader, !Keccak, !GoRuntime} (HeaderHash : Header → Hash).

(** A block that can be sent, and the block that is read of it: its hashes
    are computed. *)
Definition sendable (b : Block) : Prop :=
  header_ok (bHeader b) ∧ Forall tx_ok (bTransactions b) ∧ Forall header_ok (bUncles b) ∧ zlen (Block_MarshalRLP b) < 2 ^ 47.

Definition received (b : Block) : Block :=
  mkBlock (set_hHash (HeaderHash (set_hHash ZeroHash (bHeader b))) (bHeader b))
    (tx_read newTransaction <$> bTransactions b)
    ((λ h, set_hHash (HeaderHash (set_hHash ZeroHash h)) h) <$> bUncles b) None.

Definition archive (metadata : Metadata) (blocks : list Block) : list Z :=
  Metadata_MarshalRLP metadata ++ mjoin (Block_MarshalRLP <$> blocks).

Lemma readBlock_marshal b : sendable b → readBlock HeaderHash (Block_MarshalRLP b) = Some (received b).
Proof. intros (Hh & Ht & Hu & _). by apply Block_read. Qed.

Lemma parse_whole {A} (parse : list Z → option A) e tl b (a : A) :
  loaded e tl b → parse e = Some a →
  (data ← slice 0 (zlen e); lift (or_error errRLP (parse data))) b = (Returns a, b).
Proof.
  intros Hl Ep. pose proof (slice_ok [] e tl b Hl) as Es. change (zlen [] + zlen e) with (zlen e) in Es.
  change (zlen []) with 0 in Es. unfold mbind, stream_bind. rewrite Es. unfold lift. by rewrite Ep.
Qed.

Lemma array_size v : (∃ l, v = rlp_array l) → zlen (rlp_marshal v) ≠ 0 ∧ ∃ payload, rlp_marshal v = array_prefix (zlen payload) ++ payload.
Proof.
  intros [l ->]. destruct (marshal_header l) as [payload ->]. split; [|by exists payload].
  unfold array_prefix. case_match; unfold zlen; cbn; lia.
Qed.

Lemma nextBlock_ok blk tl b :
  sendable blk → loaded [] (Block_MarshalRLP blk ++ tl) b →
  ∃ b', nextBlock HeaderHash b = (Returns (Some (received blk)), b') ∧ loaded [] tl b'.
Proof.
  intros Hb Hl. destruct (array_size (Block_MarshalRLPWith blk) ltac:(by eexists)) as [Hne [payload E]].
  change (rlp_marshal (Block_MarshalRLPWith blk)) with (Block_MarshalRLP blk) in *. pose proof Hb as (_ & _ & _ & Hs).
  rewrite E in Hl, Hs. destruct (loadRLPArray_ok payload tl b Hs Hl) as (b' & Ea & Hl'). rewrite <- E in Ea, Hl'.
  exists b'. split; [|by eapply reread]. unfold nextBlock. unfold mbind at 1, stream_bind at 1. rewrite Ea.
  rewrite (proj2 (Z.eqb_neq _ 0)) by done. unfold parseBlock. unfold mbind at 1, stream_bind at 1.
  by rewrite (parse_whole _ _ _ _ _ Hl' (readBlock_marshal blk Hb)).
Qed.

Lemma nextBlock_end b : loaded [] [] b → nextBlock HeaderHash b = (Returns None, b).
Proof. intros Hl. unfold nextBlock, mbind, stream_bind. by rewrite (loadRLPArray_end b Hl). Qed.

Definition metadata_ok (m : Metadata) : Prop := 0 ≤ Latest m < 2 ^ 64 ∧ length (LatestHash m) = HashLength ∧ zlen (Metadata_MarshalRLP m) < 2 ^ 47.

Lemma Metadata_read m : metadata_ok m → Metadata_UnmarshalRLP (Metadata_MarshalRLP m) = Some m.
Proof.
  intros (Hn & Hh & _). unfold Metadata_UnmarshalRLP, UnmarshalRlp, Metadata_MarshalRLP. rewrite parse_marshal.
  cbn [mbind option_bind]. unfold Metadata_UnmarshalRLPFrom, Metadata_MarshalRLPWith. rewrite atLeast_array by (cbn; lia).
  cbn [mbind option_bind lookup list_lookup]. rewrite uint_uint by done. cbn [mbind option_bind]. rewrite fixed_ok by done. by destruct m.
Qed.

Lemma getMetadata_ok m tl b :
  metadata_ok m → loaded [] (Metadata_MarshalRLP m ++ tl) b →
  ∃ b', getMetadata b = (Returns (Some m), b') ∧ loaded [] tl b'.
Proof.
  intros Hm Hl. destruct (array_size (Metadata_MarshalRLPWith m) ltac:(by eexists)) as [Hne [payload E]].
  change (rlp_marshal (Metadata_MarshalRLPWith m)) with (Metadata_MarshalRLP m) in *. pose proof Hm as (_ & _ & Hs).
  rewrite E in Hl, Hs. destruct (loadRLPArray_ok payload tl b Hs Hl) as (b' & Ea & Hl'). rewrite <- E in Ea, Hl'.
  exists b'. split; [|by eapply reread]. unfold getMetadata. unfold mbind at 1, stream_bind at 1. rewrite Ea.
  rewrite (proj2 (Z.eqb_neq _ 0)) by done. unfold parseMetadata. unfold mbind at 1, stream_bind at 1.
  by rewrite (parse_whole _ _ _ _ _ Hl' (Metadata_read m Hm)).
Qed.

(** ** What restoring is meant to do *)

Context `{blockchainInterface}.

(** The first block the chain lacks, and the blocks after it. *)
Fixpoint firstMissing (c : chain) (blocks : list Block) : result aerror (list Block) :=
  match blocks with
  | [] => Returns []
  | b :: blocks' =>
      if Block_Number b =? 0 then
        if bool_decide (Block_Hash b = Genesis c) then firstMissing c blocks' else Errors errGenesis
      else if bool_decide (GetHashByNumber c (Block_Number b) = Block_Hash b) then firstMissing c blocks'
      else Returns blocks
  end.

Fixpoint writeAll (c : chain) (blocks : list Block) : result aerror unit * chain :=
  match blocks with
  | [] => (Returns tt, c)
  | b :: blocks =>
      if negb (VerifyFinalizedBlock c b) then (Errors errVerify, c) else
      match WriteBlock c b with Some c => writeAll c blocks | None => (Errors errWriteBlock, c) end
  end.

Definition upToDate (c : chain) (m : Metadata) : bool :=
  match chain_GetBlockByNumber c (Latest m) with
  | Some b => bool_decide (Block_Hash b = LatestHash m)
  | None => false
  end.

Definition restored (c : chain) (m : Metadata) (blocks : list Block) : result aerror unit * chain :=
  if upToDate c m then (Returns tt, c) else
  match firstMissing c blocks with
  | Returns missing => writeAll c missing
  | Errors e => (Errors e, c)
  | Panics => (Panics, c)
  end.

Lemma marshal_length blk : (1 ≤ length (Block_MarshalRLP blk))%nat.
Proof. destruct (array_size (Block_MarshalRLPWith blk) ltac:(by eexists)) as [Hne _]. unfold zlen, Block_MarshalRLP in *. lia. Qed.

Lemma consumeCommonBlocks_ok blocks fuel c b :
  Forall sendable blocks → loaded [] (mjoin (Block_MarshalRLP <$> blocks)) b → (length (mjoin (Block_MarshalRLP <$> blocks)) < fuel)%nat →
  match firstMissing c (received <$> blocks) with
  | Returns [] => ∃ b', consumeCommonBlocks HeaderHash (λ _, false) fuel c b = (Returns None, b')
  | Returns (first :: missing) => ∃ b' later,
      consumeCommonBlocks HeaderHash (λ _, false) fuel c b = (Returns (Some first), b') ∧ missing = received <$> later ∧
      Forall sendable later ∧ loaded [] (mjoin (Block_MarshalRLP <$> later)) b'
  | Errors e => ∃ b', consumeCommonBlocks HeaderHash (λ _, false) fuel c b = (Errors e, b')
  | Panics => False
  end.
Proof.
  intros Hs. revert fuel b. induction Hs as [|blk blocks Hb Hs IH]; intros [|fuel] b Hl Hf; cbn [length mjoin list_join fmap list_fmap] in *; try lia.
  - eexists. cbn [firstMissing consumeCommonBlocks]. by rewrite (nextBlock_end b Hl).
  - destruct (nextBlock_ok blk _ b Hb Hl) as (b' & En & Hl'). cbn [firstMissing consumeCommonBlocks]. rewrite En.
    rewrite length_app in Hf. pose proof (marshal_length blk) as Hm. specialize (IH fuel b' Hl' ltac:(unfold mjoin in *; lia)).
    destruct (Block_Number (received blk) =? 0).
    + case_bool_decide; cbn [negb]; [exact IH|by eexists].
    + case_bool_decide; cbn [negb]; [exact IH|]. by exists b', blocks.
Qed.

Lemma writeBlocks_ok later fuel first c b :
  Forall sendable later → loaded [] (mjoin (Block_MarshalRLP <$> later)) b → (length (mjoin (Block_MarshalRLP <$> later)) < fuel)%nat →
  writeBlocks HeaderHash (λ _, false) fuel first c b = writeAll c (first :: (received <$> later)).
Proof.
  intros Hs. revert fuel first c b. induction Hs as [|blk later Hb Hs IH]; intros [|fuel] first c b Hl Hf;
    cbn [length mjoin list_join fmap list_fmap] in *; try lia; cbn [writeBlocks writeAll].
  - destruct (VerifyFinalizedBlock c first); cbn [negb]; [|done]. destruct (WriteBlock c first) as [c'|]; [|done].
    by rewrite (nextBlock_end b Hl).
  - destruct (VerifyFinalizedBlock c first); cbn [negb]; [|done]. destruct (WriteBlock c first) as [c'|]; [|done].
    destruct (nextBlock_ok blk _ b Hb Hl) as (b' & -> & Hl'). rewrite length_app in Hf. pose proof (marshal_length blk) as Hm.
    rewrite (IH fuel (received blk) c' b' Hl') by (unfold mjoin in *; lia). done.
Qed.

(** Restoring an archive that is read in full does what it is meant to. *)
Lemma restore_archive c m blocks :
  metadata_ok m → Forall sendable blocks →
  RestoreChain HeaderHash (λ _, false) c (Some (mkReader (archive m blocks) [])) = restored c m (received <$> blocks).
Proof.
  intros Hm Hs. unfold RestoreChain, importBlocks, restored.
  assert (loaded [] (archive m blocks) (newBlockStream (mkReader (archive m blocks) []))) as Hl by (by split).
  destruct (getMetadata_ok m _ _ Hm Hl) as (b1 & -> & Hl1). fold (upToDate c m). destruct (upToDate c m); [done|].
  pose proof (consumeCommonBlocks_ok blocks (S (length (rest (input b1)))) c b1 Hs Hl1) as Hc.
  rewrite (ld_rest _ _ _ Hl1) in Hc. specialize (Hc ltac:(lia)). rewrite (ld_rest _ _ _ Hl1).
  destruct (firstMissing c _) as [[|first missing]|e|]; [| | |done].
  - by destruct Hc as (b' & ->).
  - destruct Hc as (b' & later & -> & -> & Hlater & Hl'). apply writeBlocks_ok; [done|done|].
    rewrite (ld_rest _ _ _ Hl'). lia.
  - by destruct Hc as (b' & ->).
Qed.

(** *** The hashes of the chain *)

(** Writing a block makes it the one of its number and leaves the other
    numbers alone. This is a chain without forks, as under IBFT, where every
    written block extends the head; a chain that keeps side branches and
    reorganises itself by difficulty does not have this law. *)
Class ChainLaws : Prop := {
  WriteBlock_hash c b c' n :
    WriteBlock c b = Some c' → GetHashByNumber c' n = if n =? Block_Number b then Block_Hash b else GetHashByNumber c n;
}.

Context `{!ChainLaws}.

Lemma writeAll_other c blocks c' n :
  writeAll c blocks = (Returns tt, c') → n ∉ Block_Number <$> blocks → GetHashByNumber c' n = GetHashByNumber c n.
Proof.
  revert c. induction blocks as [|b blocks IH]; intros c E Hn; [by injection E as <-|]. cbn [writeAll] in E.
  rewrite fmap_cons, not_elem_of_cons in Hn. destruct Hn as [Hb Hn].
  destruct (VerifyFinalizedBlock c b); cbn [negb] in E; [|done]. destruct (WriteBlock c b) as [c1|] eqn:Ew; [|done].
  rewrite (IH c1 E Hn), (WriteBlock_hash _ _ _ _ Ew). by rewrite (proj2 (Z.eqb_neq n _)) by done.
Qed.

Lemma writeAll_hashes c blocks c' b :
  writeAll c blocks = (Returns tt, c') → NoDup (Block_Number <$> blocks) → b ∈ blocks →
  GetHashByNumber c' (Block_Number b) = Block_Hash b.
Proof.
  revert c. induction blocks as [|b1 blocks IH]; intros c E Hnd Hb; [by apply elem_of_nil in Hb|]. cbn [writeAll] in E.
  rewrite fmap_cons in Hnd. apply NoDup_cons in Hnd as [Hnot Hnd].
  destruct (VerifyFinalizedBlock c b1); cbn [negb] in E; [|done]. destruct (WriteBlock c b1) as [c1|] eqn:Ew; [|done].
  apply elem_of_cons in Hb as [->|Hb]; [|by eapply IH].
  rewrite (writeAll_other _ _ _ _ E Hnot), (WriteBlock_hash _ _ _ _ Ew). by rewrite Z.eqb_refl.
Qed.

Lemma firstMissing_split c blocks missing :
  firstMissing c blocks = Returns missing →
  ∃ common, blocks = common ++ missing ∧ ∀ b, b ∈ common → Block_Number b ≠ 0 → GetHashByNumber c (Block_Number b) = Block_Hash b.
Proof.
  induction blocks as [|b blocks IH]; cbn [firstMissing]; intros E.
  - injection E as <-. exists []. split; [done|]. by intros b ?%elem_of_nil.
  - destruct (Z.eqb_spec (Block_Number b) 0) as [Hz|Hz]; case_bool_decide as Hh; [|done| |].
    + destruct (IH E) as (common & -> & Hc). exists (b :: common). split; [done|].
      intros b' [->|Hb]%elem_of_cons Hne; [done|by apply Hc].
    + destruct (IH E) as (common & -> & Hc). exists (b :: common). split; [done|].
      intros b' [->|Hb]%elem_of_cons Hne; [done|by apply Hc].
    + injection E as <-. exists []. split; [done|]. by intros b' ?%elem_of_nil.
Qed.

(** A restore that succeeds leaves a chain that has every block. *)
Lemma restored_hashes c m blocks c' b :
  upToDate c m = false → restored c m blocks = (Returns tt, c') → NoDup (Block_Number <$> blocks) →
  b ∈ blocks → Block_Number b ≠ 0 → GetHashByNumber c' (Block_Number b) = Block_Hash b.
Proof.
  unfold restored. intros -> E Hnd Hb Hne. destruct (firstMissing c blocks) as [missing|e|] eqn:Ef; [|done..].
  destruct (firstMissing_split _ _ _ Ef) as (common & -> & Hc). apply elem_of_app in Hb as [Hb|Hb].
  - rewrite (writeAll_other _ _ _ _ E); [by apply Hc|]. rewrite fmap_app in Hnd. apply NoDup_app in Hnd as (_ & Hd & _).
    apply Hd, list_elem_of_fmap. by exists b.
  - eapply writeAll_hashes; [done| |done]. rewrite fmap_app in Hnd. by apply NoDup_app in Hnd as (_ & _ & ?).
Qed.

End restoring.

(** ** Exporting *)

Section exporting.
Context `{RlpLaws, !RlpHeader, !Keccak, !GoRuntime}.
Context (get : Z → option Block) (current : blockStreamWriter → option Z) (maxPayload : Z).
Context (current_ok : ∀ w, is_Some (current w)) (max_ok : 0 ≤ maxPayload < 2 ^ 62).

(** An event has less than the limit, or a single block. *)
Definition bounded (from to : Z) (data : list Z) : Prop := maxHeaderInfoSize + zlen data < maxPayload ∨ from = to.

(** The state of the writer after the blocks [done], the first of which is
    number [from]. *)
Record exporting (from : Z) (done : list Block) (w : blockStreamWriter) : Prop := {
  ex_data : mjoin (evData <$> sent w) ++ buf w = mjoin (Block_MarshalRLP <$> done);
  ex_sent : Forall (λ e, bounded (evFrom e) (evTo e) (evData e)) (sent w);
  ex_size : zlen (buf w) < 2 ^ 62;
  ex_pending : match last done with
    | None => w = newBlockStreamWriter
    | Some b => buf w ≠ [] ∧ ∃ first, pendingFrom w = Some first ∧ pendingTo w = Some (Block_Number b) ∧
        bounded first (Block_Number b) (buf w) ∧ from = default first (evFrom <$> head (sent w))
    end;
}.

Lemma exporting_new from : exporting from [] newBlockStreamWriter.
Proof. split; [done|constructor|done|done]. Qed.

Lemma flush_ok from done w :
  exporting from done w →
  ∃ w', flush current (λ _, true) w = Returns w' ∧ buf w' = [] ∧ pendingFrom w' = None ∧
    mjoin (evData <$> sent w') = mjoin (Block_MarshalRLP <$> done) ∧
    Forall (λ e, bounded (evFrom e) (evTo e) (evData e)) (sent w') ∧
    match last done with
    | None => w' = newBlockStreamWriter
    | Some b => evFrom <$> head (sent w') = Some from ∧ evTo <$> last (sent w') = Some (Block_Number b)
    end.
Proof.
  intros [Hd Hs Hz Hp]. unfold flush. destruct (last done) as [b|] eqn:El.
  - destruct Hp as (Hne & first & Ef & Et & Hb & Hfrom). rewrite (proj2 (Z.eqb_neq _ 0)) by (destruct (buf w); [done|unfold zlen; cbn; lia]).
    rewrite Ef, Et. destruct (current_ok w) as [latest ->]. cbn [or_panic mbind result_bind].
    eexists. split; [done|]. cbn [buf pendingFrom sent reset]. split_and!; [done|done| | | |].
    + rewrite fmap_app, join_app. cbn. by rewrite app_nil_r.
    + apply Forall_app. split; [done|]. by apply Forall_singleton.
    + rewrite Hfrom. by destruct (sent w).
    + by rewrite last_snoc.
  - subst w. exists newBlockStreamWriter. cbn in *. split_and!; [done..|constructor|done].
Qed.

Lemma appendBlock_ok from done w b :
  exporting from done w → sendable b → (done = [] → from = Block_Number b) →
  ∃ w', appendBlock current (λ _, true) maxPayload b w = Returns w' ∧ exporting from (done ++ [b]) w'.
Proof.
  intros He (_ & _ & _ & Hb) Hfrom. pose proof (marshal_length b) as Hm.
  assert (mjoin (Block_MarshalRLP <$> (done ++ [b])) = mjoin (Block_MarshalRLP <$> done) ++ Block_MarshalRLP b) as Ej
    by (rewrite fmap_app, join_app; cbn; by rewrite app_nil_r).
  unfold appendBlock. rewrite u64_small by (pose proof (ex_size _ _ _ He); unfold zlen, maxHeaderInfoSize in *; lia).
  destruct (Z.leb_spec maxPayload (maxHeaderInfoSize + zlen (buf w) + zlen (Block_MarshalRLP b))) as [Hle|Hgt].
  - destruct (flush_ok _ _ _ He) as (w' & -> & Eb & Ep & Ed & Es & El). cbn [mbind result_bind]. eexists. split; [done|].
    rewrite Eb, Ep. split; cbn [buf sent pendingFrom pendingTo app default]; [by rewrite Ed, Ej|done|lia|].
    rewrite last_snoc. split; [by destruct (Block_MarshalRLP b); [cbn in Hm; lia|]|].
    eexists. split; [done|]. split; [done|]. split; [by right|].
    destruct (last done) as [b0|] eqn:Elast.
    + destruct El as [-> _]. done.
    + apply last_None in Elast as ->. rewrite El. cbn. by apply Hfrom.
  - cbn [mbind result_bind]. eexists. split; [done|].
    destruct He as [Hd Hs Hz Hp]. split; cbn [buf sent pendingFrom pendingTo].
    + by rewrite app_assoc, Hd, Ej.
    + done.
    + unfold zlen in *. rewrite length_app. unfold maxHeaderInfoSize in *. lia.
    + rewrite last_snoc. split; [intros [_ E]%app_nil; rewrite E in Hm; cbn in Hm; lia|].
      eexists. split; [done|]. split; [done|].
      split; [left; unfold zlen in *; rewrite length_app; unfold maxHeaderInfoSize in *; lia|].
      destruct (last done) as [b0|] eqn:Elast.
      * destruct Hp as (_ & first & -> & _ & _ & Hf). done.
      * apply last_None in Elast as ->. subst w. cbn. by apply Hfrom.
Qed.

(** The blocks [from] to [to] of the chain. *)
Definition span (from to : Z) : list Block := omap get (seqZ from (to - from + 1)).

(** The chain has them. *)
Definition holdsBlocks (from to : Z) : Prop :=
  ∀ i, from ≤ i ≤ to → ∃ b, get i = Some b ∧ Block_Number b = i ∧ sendable b.

Lemma span_step from to b : from ≤ to → get from = Some b → span from to = b :: span (from + 1) to.
Proof.
  intros Hle Hb. unfold span. rewrite seqZ_cons by lia. cbn [omap list_omap]. rewrite Hb. do 3 f_equal; lia.
Qed.

Lemma export_loop_ok k i from to done w :
  to = i + Z.of_nat k - 1 → 0 ≤ i → to < 2 ^ 64 - 1 → holdsBlocks i to → exporting from done w → (done = [] → from = i) →
  ∃ w', export_loop get current (λ _, true) maxPayload (S k) (Some to) i w = Some (Returns w') ∧ exporting from (done ++ span i to) w'.
Proof.
  revert i done w. induction k as [|k IH]; intros i done w Hto Hi Hmax Hh He Hf; cbn [export_loop].
  - rewrite (proj2 (Z.leb_gt i to)) by lia. exists w. split; [done|]. unfold span. rewrite seqZ_nil by lia. cbn. by rewrite app_nil_r.
  - rewrite (proj2 (Z.leb_le i to)) by lia. cbn [negb]. destruct (Hh i ltac:(lia)) as (b & Eb & En & Hb). rewrite Eb.
    destruct (appendBlock_ok from done w b He Hb) as (w1 & -> & He1); [by rewrite En|]. rewrite u64_small by lia.
    destruct (IH (i + 1) (done ++ [b]) w1) as (w2 & E2 & He2); [lia|lia|lia| |done|by destruct done|].
    { intros j Hj. apply Hh. lia. }
    exists w2. split; [done|]. rewrite (span_step i to b) by (done || lia). by rewrite <- app_assoc in He2.
Qed.

Lemma span_last from to : from ≤ to → holdsBlocks from to → ∃ b, last (span from to) = Some b ∧ Block_Number b = to.
Proof.
  intros Hle Hh. unfold span. destruct (Hh to ltac:(lia)) as (b & Eb & En & _). exists b. split; [|done].
  replace (to - from + 1) with ((to - from) + 1) by lia. rewrite seqZ_app by lia. rewrite omap_app.
  replace (from + (to - from)) with to by lia. rewrite (seqZ_cons to 1), (seqZ_nil _ (Z.pred 1)) by lia. cbn [omap list_omap].
  rewrite Eb. by rewrite last_snoc.
Qed.

(** The events of an export: all blocks in order, each event within the
    limit or a single block. *)
Lemma Export_ok from to :
  0 ≤ from < to → to < 2 ^ 64 - 1 → holdsBlocks from to →
  ∃ events, Export get current (λ _, true) maxPayload (S (Z.to_nat (to - from + 1))) from to = Some (Returns events) ∧
    mjoin (evData <$> events) = mjoin (Block_MarshalRLP <$> span from to) ∧
    evFrom <$> head events = Some from ∧ evTo <$> last events = Some to ∧
    Forall (λ e, bounded (evFrom e) (evTo e) (evData e)) events.
Proof.
  intros Hft Hmax Hh. unfold Export. rewrite (proj2 (Z.eqb_neq to 0)), (proj2 (Z.leb_gt to from)) by lia. cbn [negb andb].
  destruct (export_loop_ok (Z.to_nat (to - from + 1)) from from to [] newBlockStreamWriter) as (w & -> & He);
    [lia|lia|lia|done|apply exporting_new|done|]. cbn [mbind option_bind result_bind app] in *.
  destruct (flush_ok _ _ _ He) as (w' & -> & _ & _ & Ed & Es & El). cbn [mbind result_bind]. eexists. split; [done|].
  destruct (span_last from to ltac:(lia) Hh) as (b & Eb & En). rewrite Eb, En in El. by destruct El.
Qed.

Lemma processExportStream_ok events fromTo file :
  processExportStream (λ _ _, true) events endEOF fromTo file =
  match (fst <$> fromTo) ∪ (evFrom <$> head events), (evTo <$> last events) ∪ (snd <$> fromTo) with
  | Some from, Some to => Returns (from, to, file ++ mjoin (evData <$> events))
  | _, _ => Errors errNoBlocks
  end.
Proof.
  revert fromTo file. induction events as [|e events IH]; intros fromTo file.
  - cbn. rewrite app_nil_r. by destruct fromTo as [[from to]|].
  - cbn [processExportStream Write mbind result_bind]. rewrite IH, last_cons, fmap_cons, <- app_assoc.
    destruct (last events), fromTo as [[from to]|]; by destruct (head events).
Qed.

End exporting.

(** ** Backup and restore *)

Section backup.
Context `{RlpLaws, !RlpHeader, !Keccak, !GoRuntime, blockchainInterface, !ChainLaws} (HeaderHash : Header → Hash).

(** The stream of an export: the events and its end, or an error. *)
Definition served (get : Z → option Block) (current : blockStreamWriter → option Z) (maxPayload from to : Z) :
    option (list ExportEvent * streamEnd) :=
  match Export get current (λ _, true) maxPayload (S (Z.to_nat (to - from + 1))) from to with
  | Some (Returns events) => Some (events, endEOF)
  | _ => None
  end.

(** What the backup is asked for: the head, or an earlier block. *)
Definition target (header : Header) (to : option Z) : Z :=
  match to with Some t => Z.min t (hNumber header) | None => hNumber header end.

Definition targetHash (get : Z → option Block) (header : Header) (to : option Z) : Hash :=
  match to with
  | Some t => if t <? hNumber header then from_option (Block_Hash ∘ received HeaderHash) [] (get t) else hHash header
  | None => hHash header
  end.

Lemma determineTo_ok get header to :
  0 ≤ hNumber header < 2 ^ 63 → hash_ok (hHash header) → holdsBlocks get 0 (hNumber header) → (∀ t, to = Some t → 0 ≤ t) →
  determineTo HeaderHash (Some (GetStatus header)) (BlockByNumber get) to
  = Returns (target header to, targetHash get header to).
Proof.
  intros Hn Hh Hb Ht. unfold determineTo, GetStatus, BlockByNumber. cbn [or_error mbind result_bind statusNumber statusHash].
  rewrite StringToHash_String, i64_small, u64_small by (done || lia). unfold target, targetHash. destruct to as [t|]; [|done].
  cbn [mbind option_bind]. specialize (Ht t eq_refl). destruct (Z.leb_spec (hNumber header) t) as [Hge|Hlt].
  - rewrite (proj2 (Z.ltb_ge _ _)) by lia. rewrite Z.min_r by lia. done.
  - rewrite (proj2 (Z.ltb_lt _ _)) by lia. rewrite Z.min_l by lia. destruct (Hb t ltac:(lia)) as (b & -> & En & Hs).
    cbn [fmap option_fmap option_map mbind option_bind from_option]. rewrite readBlock_marshal by done. cbn. do 3 f_equal. exact En.
Qed.

Lemma span_numbers get from to : holdsBlocks get from to → Block_Number <$> span get from to = seqZ from (to - from + 1).
Proof.
  intros Hh. unfold span. assert (∀ i, i ∈ seqZ from (to - from + 1) → ∃ b, get i = Some b ∧ Block_Number b = i) as Hi.
  { intros i Hi%elem_of_seqZ. destruct (Hh i ltac:(lia)) as (b & Eb & En & _). by exists b. }
  induction (seqZ from (to - from + 1)) as [|i l IH]; [done|]. cbn [omap list_omap].
  destruct (Hi i (list_elem_of_here _ _)) as (b & -> & En). rewrite fmap_cons, En. f_equal. apply IH. intros j Hj. apply Hi. by right.
Qed.

Lemma span_sendable get from to : holdsBlocks get from to → Forall sendable (span get from to).
Proof.
  intros Hh. apply Forall_forall. intros b (i & Hi%elem_of_seqZ & Eb)%list_elem_of_omap.
  destruct (Hh i ltac:(lia)) as (b' & Eb' & _ & Hs). congruence.
Qed.

Lemma holdsBlocks_sub get lo hi from to : holdsBlocks get lo hi → lo ≤ from → to ≤ hi → holdsBlocks get from to.
Proof. intros Hh Hlo Hhi i Hi. apply Hh. lia. Qed.

(** C26. A backup restores the chain. A node has the blocks up to its head;
    the backup of the blocks from a number up to another one, or to the head,
    writes an archive of exactly these blocks, whatever the sizes of the
    events they are sent in. Restoring the archive skips the blocks the other
    chain has and writes the remaining ones in order, until one is refused;
    when it succeeds, that chain has every block of the archive at its
    number. *)
Theorem backup_restores get current maxPayload header from to c :
  let m := mkMetadata (target header to) (targetHash get header to) in
  let blocks := span get from (target header to) in
  (∀ w, is_Some (current w)) → 0 ≤ maxPayload < 2 ^ 62 → (∀ h, length (HeaderHash h) = HashLength) →
  0 < hNumber header < 2 ^ 63 → hash_ok (hHash header) → holdsBlocks get 0 (hNumber header) →
  (∀ t, to = Some t → 0 < t) → 0 ≤ from < target header to → zlen (Metadata_MarshalRLP m) < 2 ^ 47 →
  CreateBackup HeaderHash (λ _ _, true) true true true (Some (GetStatus header)) (BlockByNumber get)
    (served get current maxPayload) from to = (Returns (from, target header to), complete (archive m blocks)) ∧
  let '(r, c') := RestoreChain HeaderHash (λ _, false) c (Some (mkReader (archive m blocks) [])) in
  (r, c') = restored c m (received HeaderHash <$> blocks) ∧
  (r = Returns tt → upToDate c m = false → ∀ b, b ∈ blocks → Block_Number b ≠ 0 →
     GetHashByNumber c' (Block_Number b) = Block_Hash (received HeaderHash b)).
Proof.
  intros m blocks Hcur Hmax Hlen Hn Hhash Hh Hto Hfrom Hmeta.
  assert (target header to ≤ hNumber header) as Hle by (destruct to; cbn; lia).
  pose proof (holdsBlocks_sub _ _ _ from (target header to) Hh ltac:(lia) Hle) as Hb. split.
  - unfold CreateBackup. cbn [negb]. rewrite determineTo_ok; [|lia|done|done|intros t E; specialize (Hto t E); lia].
    destruct (Export_ok get current maxPayload Hcur Hmax from (target header to)) as (events & Ee & Ed & Ef & El & _); [lia|lia|done|].
    unfold served. rewrite Ee. unfold writeMetadata, Write. cbn [mbind result_bind app]. rewrite processExportStream_ok, Ef, El, Ed. done.
  - assert (metadata_ok m) as Hm.
    { split; [cbn; lia|]. split; [|done]. cbn. unfold targetHash. destruct to as [t|]; [|apply Hhash].
      destruct (Z.ltb_spec t (hNumber header)); [|apply Hhash]. specialize (Hto t eq_refl).
      destruct (Hh t ltac:(lia)) as (b & -> & _). cbn. apply Hlen. }
    pose proof (restore_archive HeaderHash c m blocks Hm (span_sendable _ _ _ Hb)) as Er.
    destruct (RestoreChain _ _ c _) as [r c'] eqn:Ec. split; [done|]. intros -> Hup b Hin Hne.
    change (Block_Number b) with (Block_Number (received HeaderHash b)).
    eapply restored_hashes; [exact Hup|by symmetry| | |done].
    + rewrite <- list_fmap_compose. change (Block_Number ∘ received HeaderHash) with Block_Number.
      unfold blocks. rewrite span_numbers by done. apply NoDup_seqZ.
    + apply list_elem_of_fmap. by exists b.
Qed.

(** C39. A truncated archive is not noticed. When the file ends inside the
    payload of a block, the size of the read is not looked at: the missing
    bytes are those the buffer has from the blocks before, and the result is
    whatever they make. If they happen to be the same, as the last bytes of
    two empty blocks are, the block is read as if it were all there. *)
Theorem truncated_archive blk payload k b :
  let e := Block_MarshalRLP blk in
  sendable blk → e = array_prefix (zlen payload) ++ payload → zlen e ≤ zlen (buffer b) < 2 ^ 47 →
  (length (array_prefix (zlen payload)) < k < length e)%nat → loaded [] (take k e) b →
  (nextBlock HeaderHash b).1
    = (or_error errRLP (Some <$> readBlock HeaderHash (take k e ++ drop k (take (length e) (buffer b))))) ∧
  (drop k (take (length e) (buffer b)) = drop k e → (nextBlock HeaderHash b).1 = Returns (Some (received HeaderHash blk))).
Proof.
  intros e Hs Ee Hc Hk Hl. assert ((nextBlock HeaderHash b).1
    = (or_error errRLP (Some <$> readBlock HeaderHash (take k e ++ drop k (take (length e) (buffer b)))))) as En.
  { rewrite Ee in Hc, Hk, Hl. destruct (loadRLPArray_cut payload k b Hc Hk Hl) as (b' & El & Hb'). rewrite <- Ee in El, Hb', Hc, Hk.
    unfold nextBlock. unfold mbind at 1, stream_bind at 1. rewrite El. rewrite (proj2 (Z.eqb_neq _ 0)) by (unfold zlen; lia).
    unfold parseBlock, slice. unfold mbind, stream_bind.
    assert (length (buffer b') = length (buffer b)) as Elen.
    { rewrite Hb', length_app, length_take, length_drop. unfold zlen in *. lia. }
    rewrite (proj2 (Z.leb_le 0 (zlen e))), (proj2 (Z.leb_le (zlen e) _)) by (unfold zlen in *; lia). cbn [andb negb Z.leb Z.compare].
    replace (Z.to_nat (zlen e - 0)) with (length e) by (unfold zlen; lia). change (Z.to_nat 0) with 0%nat. rewrite drop_0, Hb'.
    rewrite take_app_ge by (rewrite length_take; lia). rewrite length_take, Nat.min_l, (take_drop_commute (buffer b)) by lia.
    replace (k + (length e - k))%nat with (length e) by lia. unfold lift. by destruct (readBlock _ _). }
  split; [exact En|]. intros Eq. rewrite En, Eq, take_drop. unfold e. by rewrite readBlock_marshal.
Qed.

End backup.

(** ** Examples *)

Module ArchiveExample.

(** The trees of Rlp.v, an array with the prefix of RLP in front. *)
Definition print_framed (t : rlp_tree) : list Z :=
  match t with
  | Leaf _ => print_tree t
  | Node _ => array_prefix (zlen (print_tree t)) ++ print_tree t
  end.

Definition parse_framed (s : list Z) : option rlp_tree :=
  match s with
  | 0 :: _ => fst <$> parse_tree (length s) s
  | x :: s => let s := if x <=? 0xf7 then s else drop (Z.to_nat (x - 0xf7)) s in fst <$> parse_tree (length s) s
  | [] => None
  end.

Lemma parse_print_framed t : parse_framed (print_framed t) = Some t.
Proof.
  assert (fst <$> parse_tree (length (print_tree t)) (print_tree t) = Some t) as E.
  { rewrite <- (app_nil_r (print_tree t)) at 2. by rewrite parse_print by apply tree_size_print. }
  destruct t as [b|l]; [exact E|]. unfold print_framed, array_prefix. set (p := print_tree (Node l)) in *.
  destruct (Z.ltb_spec (zlen p) 56) as [Hs|Hs]; cbn [app].
  - unfold parse_framed. assert (0xc0 + zlen p <=? 0xf7 = true) as -> by (apply Z.leb_le; lia).
    destruct (0xc0 + zlen p) eqn:Ez; [unfold zlen in Ez; lia|exact E..].
  - pose proof (length_Bytes (zlen p)) as Hl. assert (0 < zlen (Bytes (zlen p))) as Hk.
    { destruct (Bytes (zlen p)) as [|x k] eqn:Eb; [|unfold zlen; cbn [length]; lia].
      pose proof (SetBytes_Bytes (zlen p) ltac:(lia)) as Es. rewrite Eb in Es. change (SetBytes []) with 0 in Es. lia. }
    unfold parse_framed. assert (0xf7 + zlen (Bytes (zlen p)) <=? 0xf7 = false) as -> by (apply Z.leb_gt; lia).
    replace (0xf7 + zlen (Bytes (zlen p)) - 0xf7) with (zlen (Bytes (zlen p))) by lia.
    replace (Z.to_nat (zlen (Bytes (zlen p)))) with (length (Bytes (zlen p))) by (unfold zlen; lia).
    rewrite drop_app_length. destruct (0xf7 + zlen _) eqn:Ez; [lia|exact E..].
Qed.

#[export] Instance framed_fastrlp : Fastrlp := {|
  rlp_value := rlp_tree; rlp_bytes := Leaf; rlp_uint n := Leaf (Bytes n); rlp_array l := Node l; rlp_marshal v := print_framed v;
|}.

#[export] Instance framed_rlp : Rlp := {|
  rlp_bigint o := Leaf (Bytes (default 0 o));
  rlp_null := Leaf [];
  rlp_nullarray := Node [];
  rlp_parse b := parse_framed b;
  rlp_raw v := print_framed v;
  rlp_elems v := match v with Node l => Some l | _ => None end;
  rlp_get v i := match v with Node l => l !! i | _ => None end;
  rlp_getbytes v := match v with Leaf b => Some b | _ => None end;
  rlp_getfixed n v := match v with Leaf b => if (length b =? n)%nat then Some b else None | _ => None end;
  rlp_getuint v := match v with Leaf b => if (length b <=? 8)%nat then Some (be_decode b) else None | _ => None end;
  rlp_getbig v := match v with Leaf b => Some (SetBytes b) | _ => None end;
|}.

#[export] Instance framed_rlp_laws : RlpLaws.
Proof.
  split; cbn -[Bytes SetBytes be_decode parse_framed print_framed]; try done.
  - apply parse_print_framed.
  - intros n Hn. rewrite (proj2 (Nat.leb_le _ _)) by by apply length_Bytes_u64. f_equal. apply (SetBytes_Bytes n). lia.
  - intros b Hb. by rewrite (proj2 (Nat.leb_le _ _)).
  - intros n Hn. f_equal. by apply SetBytes_Bytes.
Qed.

#[export] Instance framed_header : RlpHeader.
Proof. split. intros l. by exists (print_tree (Node l)). Qed.

#[export] Existing Instances length_keccak.

#[export] Instance exact_runtime : GoRuntime := {| growslice c n := n; growslice_ge c n := Z.le_refl n |}.

(** A chain is the list of its blocks, the newest first. *)
Fixpoint blockAt (c : list Block) (n : Z) : option Block :=
  match c with [] => None | b :: c => if n =? Block_Number b then Some b else blockAt c n end.

#[export] Instance list_chain : blockchainInterface := {|
  chain := list Block;
  Genesis c := from_option Block_Hash ZeroHash (blockAt c 0);
  chain_GetBlockByNumber := blockAt;
  GetHashByNumber c n := from_option Block_Hash ZeroHash (blockAt c n);
  VerifyFinalizedBlock c b := true;
  WriteBlock c b := Some (b :: c);
|}.

#[export] Instance list_chain_laws : ChainLaws.
Proof. split. intros c b c' n E. injection E as <-. cbn. by destruct (n =? Block_Number b). Qed.

Definition numberHash (h : Header) : Hash := BytesToHash [hNumber h + 1].

Definition empty_block (n : Z) : Block :=
  mkBlock (mkHeader ZeroHash ZeroHash [] ZeroHash ZeroHash ZeroHash ZeroBloom 0 n 0 0 0 [] ZeroHash (replicate 8 0)
    (BytesToHash [n + 1])) [] [] None.

Definition four_blocks (n : Z) : option Block := if (0 <=? n) && (n <=? 3) then Some (empty_block n) else None.

Lemma four_held : holdsBlocks four_blocks 0 3.
Proof.
  intros n Hn. exists (empty_block n). unfold four_blocks.
  rewrite (proj2 (Z.leb_le 0 n)), (proj2 (Z.leb_le n 3)) by lia. split; [done|]. split; [done|].
  assert (n = 0 ∨ n = 1 ∨ n = 2 ∨ n = 3) as [-> | [-> | [-> | ->]]] by lia;
    (split; [split; try done; split; [done|]; apply Forall_replicate; split; lia|]; split; [constructor|]; split; [constructor|done]).
Qed.

Definition local_chain : @chain list_chain := [empty_block 1; empty_block 0].

(** Blocks 1 to 3 are restored to a chain that has block 1. *)
Lemma backup_restores_witness :
  let m := mkMetadata 3 (BytesToHash [4]) in
  let blocks := span four_blocks 1 3 in
  CreateBackup numberHash (λ _ _, true) true true true (Some (GetStatus (bHeader (empty_block 3)))) (BlockByNumber four_blocks)
    (served four_blocks (λ _, Some 3) 1000) 1 None = (Returns (1, 3), complete (archive m blocks)) ∧
  RestoreChain numberHash (λ _, false) local_chain (Some (mkReader (archive m blocks) []))
    = restored local_chain m (received numberHash <$> blocks).
Proof.
  destruct (backup_restores numberHash four_blocks (λ _, Some 3) 1000 (bHeader (empty_block 3)) 1 None local_chain)
    as [Hb Hr]; [intros w; by eexists|lia| |done|apply BytesToHash_ok, Forall_singleton; split; cbn; lia|exact four_held|done|done|done|].
  - intros h. apply length_right_align.
  - split; [exact Hb|]. change (target (bHeader (empty_block 3)) None) with 3 in Hr.
    change (targetHash numberHash four_blocks (bHeader (empty_block 3)) None) with (BytesToHash [4]) in Hr.
    destruct (RestoreChain _ _ _ _) as [r c']. apply Hr.
Defined.

(** The last five bytes of block 2 are missing; the buffer has those of
    block 1. *)
Definition cut_stream : blockStream :=
  let e := Block_MarshalRLP (empty_block 2) in
  mkStream (mkReader (take (length e - 5) e) [])
    (Block_MarshalRLP (empty_block 1) ++ replicate (1024 - length (Block_MarshalRLP (empty_block 1))) 0).

Lemma truncated_archive_witness : (nextBlock numberHash cut_stream).1 = Returns (Some (received numberHash (empty_block 2))).
Proof.
  destruct (four_held 2 ltac:(lia)) as (blk & [= <-] & _ & Hs).
  destruct (truncated_archive numberHash (empty_block 2) (print_tree (@Block_MarshalRLPWith framed_fastrlp framed_rlp (empty_block 2)))
    (length (Block_MarshalRLP (empty_block 2)) - 5) cut_stream Hs eq_refl) as [_ Ht].
  - split; vm_compute; congruence.
  - split; apply Nat.ltb_lt; vm_compute; reflexivity.
  - split; [vm_compute; congruence|reflexivity..].
  - apply Ht. vm_compute. reflexivity.
Defined.

End ArchiveExample.
